(* ===== verification/_CoqProject ===== *)
-Q . S2P
Prelude.v
Bytes.v
VmIsa.v
VmInterp.v
VmCorrect.v
VmGen.v
VmProps.v
JsonChar.v
JsonLex.v
JsonLexSpec.v
JsonStream.v
JsonGen.v
JsonVm.v
JsonProps.v
Musttail.v
MusttailLex.v
MusttailGen.v
JsonTests.v
MusttailProps.v
LinkElf.v
LinkSections.v
LinkSymbols.v
LinkReloc.v
LinkOutput.v
LinkRelocProofs.v
LinkLayoutProofs.v
LinkSymProofs.v
LinkImageProofs.v
LinkMerge.v
LinkMain.v
LinkProps.v
CuckooFilter.v
CuckooProps.v
AliasMethod.v
Mpmc.v
MpmcProps.v
Fifo.v
FifoProps.v
Simd.v
SimdView.v
SimdLanes.v
SimdCharset.v
SimdCharsetProofs.v
SimdEscape.v
SimdLookup.v
SimdScan.v
SimdSplit.v
SimdStd.v
SimdSortProofs.v
SimdProps.v
SimdBench.v
SimdBenchProps.v
Meminfo.v
MeminfoProps.v
ParallelSort.v
Lisp.v
LispProps.v
TaggedPtr.v
LockfreeStack.v
LockfreeStackInv.v
LockfreeStackSim.v
LockfreeStackProps.v
MsQueue.v
MsQueueProps.v
FluentAlgo.v
FluentBuffer.v
FluentFuture.v
FluentFutureProofs.v
FluentProps.v
FluentPool.v
FluentServer.v
FluentServerProps.v
LogMeta.v
LogChrono.v
LogStream.v
LogConf.v
LogSched.v
LogProps.v
WebServer.v
WebServerProps.v
