(* ===== verification/Prelude.v ===== *)
(** * Snippets: a verification development

    The repository is a collection of C++ programs.  This development models the
    ones that compute something that can be right or wrong, and proves what they
    are meant to do; where a program does something else, a theorem says what.
    Source paths below are relative to src/.

    ** The parts and their files

    _The threaded-code virtual machine_ (perf/threaded_code/basic.cpp).  Six
    interpreters of one instruction set, each with its own technique of dispatch,
    and a generator of programs to measure them with.
    - [VmIsa]: the enumeration OpCode, the structs VMState and Instruction, and the
      arithmetic on [int64_t] registers (a signed overflow is undefined behaviour).
    - [VmInterp]: a Module per interpreter class.  A turn of the dispatch loop is a
      [body]; tables of labels and of handlers are lists of enumerated labels.
    - [VmCorrect]: the interface [ThreadedInterpreter], "behaves as the switch on the
      programs it accepts", with an instance per class by simulation; and the type
      invariant.
    - [VmGen]: CodeGenerator, and the proofs that what it
      generates is well formed and ends.  [VmProps]: the theorems.

    _The JSON benchmarks_ (perf/threaded_code/json.cpp).
    - [JsonChar]: the five character classifiers (namespace char_classify).
    - [JsonLex]: the four tokenizer classes, with their static tables as state.
      [JsonLexSpec]: the specification [lex] and the refinement proofs;
      [JsonStream]: the interface [Lexer] and whole inputs (tokenize_all).
    - [JsonGen]: generate_json, and a grammar of JSON over tokens.
    - [JsonVm]: the byte code matchers of namespace json_vm, and what the
      program for numbers recognises.  [JsonProps]: the theorems.

    _The variants with tail calls_ (perf/threaded_code/json_musttail.cpp).
    - [Musttail]: the classifier, the tokenizer and the matcher whose handlers tail-call
      the dispatcher, with pointers as offsets.
    - [MusttailLex]: the file's own switch and direct-threaded tokenizers; [MusttailGen]: its
      generators of documents and of random characters, and those of json.cpp.
    - [JsonTests]: run_all_tests of both programs.  [MusttailProps]: the theorems.

    _The linker_ (llm4fun/linker/mini_elf_linker.cpp).  From the bytes of relocatable
    objects to the bytes of an executable, in the steps of main.
    - [LinkElf]: ELF structures and validation of inputs (step 1).
    - [LinkSections]: chunks, output sections, layout, addresses (steps 2 to 4).
    - [LinkSymbols]: step 5.  [LinkReloc]: step 6.  [LinkOutput]: step 7, and [link].
    - [LinkRelocProofs], [LinkLayoutProofs], [LinkSymProofs], [LinkImageProofs],
      [LinkMerge], [LinkMain]: lemmas, from single steps to the whole run.
    - [LinkProps]: two objects to link, and the theorems.

    _The cuckoo filter_ (Algorithm/cuckoo_filter.cpp).  [CuckooFilter]: the class
    Cuckoo, and its table as a multiset; [CuckooProps]: the theorems.

    _The alias method_ (Algorithm/alias_method.cpp).  [AliasMethod]: the class Alias over an
    interface of arithmetic with two instances, what holds for any instance, and the theorems.

    _The bounded queue_ (Concurrency/Bounded_mpmc.cpp).  [Mpmc]: push, pop, try_push
    and try_pop of any number of threads as a step relation, and the invariant;
    [MpmcProps]: the theorems.

    _The ring buffer_ (Concurrency/Fifo.cpp).  [Fifo]: push and pop of one producer and one
    consumer as a step relation, and the atomic queue; [FifoProps]: the invariant, the
    simulation and the theorem.

    _The lock-free stack_ (Concurrency/Tagged_ptr.hpp, Freelist.hpp, Stack_lockfree.cpp).
    - [TaggedPtr]: words with a pointer and a tag.
    - [LockfreeStack]: allocate and deallocate of Freelist ([pool_step]), push, pop and
      empty of Stack ([step]), one access of one thread at a time, and the atomic stack
      ([astep]) they implement.
    - [LockfreeStackInv]: the invariant; [LockfreeStackSim]: the simulation;
      [LockfreeStackProps]: the theorems.

    _The lock-free queue_ (Concurrency/Queue_lockfree.cpp).  [MsQueue]: push, pop, constructor and
    destructor, one access of one thread at a time, and the atomic queue; [MsQueueProps]: the
    invariant, the simulation, schedules that are run, and the theorems.

    _The Lisp interpreter_ (Algorithm/lisp.cpp).  [Lisp]: reader and evaluator;
    expressions, their values and their texts, and what is read from a text;
    [LispProps]: the theorems.

    _The vector routines_ (simd/).
    - [Simd]: the x86 intrinsics the routines use, on registers as lists of bytes;
      [SimdView]: the views of ranges; [SimdLanes]: lemmas on both.
    - [SimdCharset], [SimdEscape], [SimdLookup], [SimdScan], [SimdSplit]: the functions of
      find_charset.hpp, escape.hpp, lookup.hpp, scan.hpp with reduce.hpp, and
      odd_even_broadcast.cpp, with the scalar functions they are compared with.
    - [SimdStd]: the programs of simd/stdsimd/ (maximum, word count, bitonic sort), for any
      number of lanes.
    - [SimdCharsetProofs], [SimdSortProofs]: proofs on these, the last by the zero-one principle;
      the other proofs follow their functions.  [SimdProps]: the theorems.
    - [SimdBench]: the rest of find_charset_benchmark.cpp, the generators of texts and bitmaps, what
      a benchmark runs, the registered benchmarks and the arguments; [SimdBenchProps]: the theorems.

    _The parallel sort_ (Algorithm/parallel_sort.cpp).  [ParallelSort]: the sort and its
    theorem, by that of the vector sort.

    _The parser of /proc/meminfo_ (memory/meminfo_parser.hpp).  [Meminfo]: the parser, dump
    and dump_diff; [MeminfoProps]: the theorems.

    _The network library_ (net/fluent/include/).
    - [FluentAlgo]: utils/Algorithms.h and utils/StringUtils.h.  [FluentBuffer]: the class Buffer
      of network/Buffer.h.
    - [FluentFuture]: the event loop and the futures of future/: control blocks are a heap,
      callbacks are data, and the functions of a user are programs over the operations of the
      library.  [FluentFutureProofs]: the loop and its invariant, and runs of
      chains, polls and joins.  [FluentProps]: the theorems on these.
    - [FluentPool]: the pool of connections, network/Pool.h with utils/WeakReference.h.
      [FluentServer]: the policies, Context, Multiplexer, Handler and Server, on the buffer, the pool
      and the futures of the other files: contexts are a heap, the kernel's answers are lists, and
      the callbacks of a user are programs over the members of a context.  [FluentServerProps]: the
      invariant of a connection and of a server, and the theorems.
    - The logger, logger/Log.hpp with dlog.conf: [LogMeta], what its templates compute;
      [LogChrono], dates and times and their texts; [LogStream], the texts of arguments and the
      copy of a record; [LogConf], the configuration and a logging call; [LogSched], the two
      buffers, the logging threads and the writer thread as a step relation, with the
      invariant, sizes of files and progress.  [LogProps]: the theorems.

    _The web servers_ (net/in_kernel_web_server/), one as a program and one as a kernel module.
    [WebServer]: server_user.c (Module [User]) and server_kernel.c (Module [Kernel]), functions of
    what the kernel answers that give the calls they make; [WebServerProps]: the events a kernel
    reports, runs of a server thread, the correspondence of the two programs, and the theorems.

    [Bytes] has little-endian numbers and copies in byte lists.
    This file has what they share: machine integers, the type [res] of outcomes with
    its monad, loops with fuel, the equivalence [≃] of behaviours, random engines.

    ** What the theorems show

    - C1 to C5, virtual machine: five interpreters behave as the switch on the
      programs they accept, undefined behaviour and non-termination included; values
      stay in their types; every generated program ends and is run alike by all six.
      [VmProps] also has the result of the loop program and the two ways in which the
      interpreters differ on extension opcodes.
    - C6 to C9, JSON: classifiers agree; tokenizers refine one specification; they
      agree on whole inputs or two of them never end; generated documents are JSON.
      [JsonProps] also has the equivalence of the matchers.
    - C10, tail calls: the sums of the tokenizers, and where one fails.  [MusttailProps] also
      has the matchers.
    - C11 to C14, linker: the layout is aligned and without overlap; symbol
      resolution refines "first strong, else first definition"; references are resolved,
      relocations store what the ABI says.  [LinkProps] also has the contents of the image,
      merging by name, the report of undefined symbols and four situations in which the linker
      goes wrong.
    - C15 and C16, cuckoo filter: no false negatives, refinement of a multiset.
    - C17, alias method: with exact arithmetic every index is drawn as often as its probability
      says.  [AliasMethod] also shows that with any arithmetic the result is a table of indices or a
      failed assertion, and probabilities for which the rounding of double fails it.
    - C18, queue: mutual exclusion in slots and first-in first-out order of tickets in every
      interleaving.  [MpmcProps] also shows that threads wait only when needed, and the
      deadlock after [2 ^ 31] elements.
    - C19, ring buffer: it is a bounded queue, and the threads never meet at an element.
    - C20 and C21, lock-free stack: linearizability and memory safety.  [LockfreeStackProps]
      also shows that every node is given back once, [TaggedPtr] has the words with tags.
    - C22, lock-free queue: linearizability as long as no node that a thread refers to is
      recycled.  [MsQueueProps] also has a run that is not linearizable where one is, memory
      safety, the read of a destroyed object and the node that the destructor leaves.
    - C23 and C24, Lisp: the value of every expression of the grammar, and termination on
      every text.
    - C25 to C28, vector routines: searches agree with the scalar functions; every registered
      benchmark of them returns the position that its name says; escapes are read
      back; the sort sorts.  [SimdProps] also has escapes, lookups, prefix sums and word counts,
      [SimdBenchProps] the reading of the arguments and a generator that does not end,
      [ParallelSort] the parallel sort.
    - C29, meminfo: parsing what dump writes.  [MeminfoProps] also has the failures, one of
      which is reported as a success.
    - C30 to C35, network library: the buffer is a queue of bytes;
      callbacks are done once; chains of futures deliver; a server keeps the bytes of its
      connections, closes them once and uses no destroyed object; what a shutdown does and does not
      do; the pool collects its free slots.  [FluentProps] also shows that the loop runs what is
      queued, and has joins of futures, polls with a count, the bounds of the buffer and the words
      that split finds.  [FluentServerProps] also has sends that overtake each other, errors that do
      not close a connection, and the race with a thread that polls for several servers;
      [FluentPool] the connections whose slots are not used again.
    - C36 to C38, logger: records reach the files whole and in order in every interleaving; the
      buffers and files keep their bounds;
      the text of a record.  [LogProps] also
      shows that waiting loggers are served unless the writer has left, and has the calendar, the strings
      that overflow the stack and the texts of times and of numbers.
    - C39 and C40, web servers: one response for every request, no failed assertion and no access
      outside the contexts as long as sendmsg is not interrupted, and a cleanup that closes what is
      open; the kernel module does the same as the program.  [WebServerProps] also has the assertion
      that fails after an interrupted sendmsg, the other ways in which an event is handled
      wrongly, and the start of the threads.

    ** Modelling choices

    - Integers are [Z] at their width: [uwrap] and [swrap] are the conversions, an
      operation that can overflow a signed type checks for it.  Undefined behaviour is
      a value ([Ub]), so that theorems with [Ok] exclude it.
    - A loop of the source that may run forever takes fuel; [observe] and [outcome]
      quantify over it, so that [≃] also equates runs that never end.  Loops that are
      bounded by their input get the bound as fuel ([turns] of [JsonLex], one turn per
      character), and the theorems show that it is enough.
    - Static variables (lazily filled tables, the round of Cuckoo::add) are explicit
      state.  Function pointers and labels are enumerations or Rocq functions, an unset
      pointer is [None].
    - The random engines ([RandomEngine], [Urbg]) and std::hash are parameters with the
      ranges the standard documents; the witnesses instantiate them.  The benchmark of the searches
      also needs draws that reach a frequent number within a thousand tries ([mixing]), since its
      generators give up then, and every number at some time ([fair]).
    - The queue is modelled under sequential consistency; executions that acquire and
      release operations allow beyond it are not considered; the ring
      buffer, the lock-free stack and the lock-free queue likewise.  The queue uses the freelist
      by its contract: a free node, a new one, or none.
      The bound of [2 ^ 31] tickets in [reachable] is where the sequence numbers stop to
      work.  The bound of [2 ^ 16] nodes in [prompt] is that of the tags.
    - The buffers of the logger likewise: a step is one access to the shared object, although
      some of them are data races in C++.  A record is not longer than a buffer.
    - What the kernel returns (bytes of a read, of a partial write) and the clock are arguments or
      choices of a step; in [FluentServer] they are lists that the calls consume, so that a theorem
      for all lists is one for all kernels.  A buffer there that would have to hold more than 1 GiB,
      where its code is undefined, is recorded and ends the callback.  A computation of the futures
      returns, throws or is undefined.
    - Templates that compute at compile time are functions; an instantiation that does not exist is
      [None].
    - An intrinsic is the function on bytes that its documentation gives.  A view of a range
      is the list of the addresses of its elements.  What a register or a variable holds
      before its first use is a parameter.
    - The doubles of the alias method are those of the library SpecFloat, with the rounding of
      IEEE 754; a stack is a list with its back in front.
    - Concurrent jobs of the sorts work on disjoint parts; a parameter gives the order in
      which they run.
    - The text of the Lisp interpreter bounds the depth of its recursion and the turns of its
      loops; C24 shows that this is enough fuel on every text.

    ** Not modelled

    Time measurements, printing, file access and the mains of the other
    benchmarks; and the programs of the repository whose behaviour is
    that of the kernel, of the compiler or of a library they call (io_uring, stdexec, ebpf,
    sockets, code generation and object layout experiments).

    In the logger, the text of a double and the opening of files; in the futures, references to
    moved values; of the network library, the client, the setting up of sockets and the texts of
    addresses.

    The blocking queues, locks and thread pools of Concurrency/, which are those of the mutexes and
    condition variables of the standard library, and the smart pointers, wrappers and allocators of
    Basic/. *)

From Stdlib Require Export ZArith Lia.
From stdpp Require Export base tactics list numbers option.

(** ** Notation scope of the development *)

Declare Scope cxx_scope.
Delimit Scope cxx_scope with cxx.
#[global] Open Scope cxx_scope.
#[global] Open Scope Z_scope.

(** ** Machine integers

    A [w]-bit integer of the source is a [Z].  [uwrap w] is the conversion to
    the unsigned type of width [w], [swrap w] the conversion to the signed
    type (both are modular in C++20). *)

Definition uwrap (w : Z) (z : Z) : Z := z mod 2 ^ w.
Definition swrap (w : Z) (z : Z) : Z := (z + 2 ^ (w - 1)) mod 2 ^ w - 2 ^ (w - 1).

(** Does [z] fit the signed type of width [w]? *)
Definition sfits (w : Z) (z : Z) : bool :=
  (- 2 ^ (w - 1) <=? z) && (z <? 2 ^ (w - 1)).

Definition ufits (w : Z) (z : Z) : bool := (0 <=? z) && (z <? 2 ^ w).

Abbreviation u8 := (uwrap 8).
Abbreviation u32 := (uwrap 32).
Abbreviation u64 := (uwrap 64).
Abbreviation s8 := (swrap 8).
Abbreviation s32 := (swrap 32).
Abbreviation s64 := (swrap 64).

(** ** Random numbers

    The engines and distributions of the standard library, by what they document:
    a draw of [uniform_int_distribution(a, b)] lies between [a] and [b]. *)

Class RandomEngine (G : Type) := {
  (** [std::uniform_int_distribution(a, b)(rng)] *)
  uniform_int : Z -> Z -> G -> Z * G;
  (** [std::uniform_real_distribution(0, 1)(rng) < p / 100] *)
  below_percent : Z -> G -> bool * G;
  uniform_int_range a b g : a <= b -> a <= (uniform_int a b g).1 <= b;
}.

(** ** Outcomes

    The value of a computation of the source, the way in which it goes wrong (one
    of the kinds of undefined behaviour of the C++ standard, or an assertion that
    stops the program), or the end of the fuel that bounds a loop. *)

Inductive ub : Set :=
  | ArrayIndex        (** an array or span indexed out of its bounds *)
  | SignedOverflow    (** the value of a signed operation does not fit *)
  | PointerRange      (** pointer arithmetic that leaves its array *)
  | CodeLabel         (** a jump through something that is not a label *)
  | AssertFailed.     (** an assertion that does not hold *)

Inductive res (A : Type) : Type :=
  | Ok (a : A)
  | Ub (u : ub)
  | NoFuel.
Arguments Ok {A} a.
Arguments Ub {A} u.
Arguments NoFuel {A}.

#[export] Instance ub_eq_dec : EqDecision ub.
Proof. solve_decision. Defined.
#[export] Instance res_eq_dec {A} `{EqDecision A} : EqDecision (res A).
Proof. solve_decision. Defined.

#[export] Instance res_ret : MRet res := fun A a => Ok a.
#[export] Instance res_bind : MBind res := fun A B f m =>
  match m with
  | Ok a => f a
  | Ub u => Ub u
  | NoFuel => NoFuel
  end.
#[export] Instance res_fmap : FMap res := fun A B f m =>
  match m with
  | Ok a => Ok (f a)
  | Ub u => Ub u
  | NoFuel => NoFuel
  end.

(** [check b u] goes on when [b] holds and is the undefined behaviour [u]
    otherwise. *)
Definition check (b : bool) (u : ub) : res unit := if b then Ok tt else Ub u.

(** The value of an operation of the signed type of width [w]. *)
Definition sint (w z : Z) : res Z := if sfits w z then Ok z else Ub SignedOverflow.

(** [at_index l i] is [l[i]] of a span, a vector or an array. *)
Definition at_index {A} (l : list A) (i : Z) : res A :=
  if i <? 0 then Ub ArrayIndex
  else match l !! Z.to_nat i with Some x => Ok x | None => Ub ArrayIndex end.

(** [set_index l i x] is [l[i] = x]. *)
Definition set_index {A} (l : list A) (i : Z) (x : A) : res (list A) :=
  if (0 <=? i) && (i <? Z.of_nat (length l)) then Ok (<[Z.to_nat i := x]> l)
  else Ub ArrayIndex.

Notation "a .[ i ]" := (at_index a i)
  (at level 1, i at level 200, left associativity, format "a .[ i ]") : cxx_scope.
Notation "a .[ i <- x ]" := (set_index a i x)
  (at level 1, i at level 200, x at level 200, left associativity,
   format "a .[ i  <-  x ]") : cxx_scope.

(** ** Relational lifting *)

Inductive res_rel {A B} (R : A -> B -> Prop) : res A -> res B -> Prop :=
  | rr_ok a b : R a b -> res_rel R (Ok a) (Ok b)
  | rr_ub u : res_rel R (Ub u) (Ub u)
  | rr_nofuel : res_rel R NoFuel NoFuel.

Inductive sum_rel {A A' B B'} (R : A -> A' -> Prop) (Q : B -> B' -> Prop) :
    A + B -> A' + B' -> Prop :=
  | sr_inl a a' : R a a' -> sum_rel R Q (inl a) (inl a')
  | sr_inr b b' : Q b b' -> sum_rel R Q (inr b) (inr b').

Create HintDb cxx discriminated.
#[export] Hint Constructors res_rel sum_rel : cxx.

(** [okp P m]: if [m] has a value, it satisfies [P]. *)
Definition okp {A} (P : A -> Prop) (m : res A) : Prop :=
  match m with Ok a => P a | _ => True end.

Section res_laws.
Context {A B C : Type}.
Implicit Types (m : res A) (f : A -> res B) (g : B -> res C).

Lemma bind_ok a f : (Ok a ≫= f) = f a.
Proof. reflexivity. Qed.

Lemma bind_ub u f : ((Ub u : res A) ≫= f) = Ub u.
Proof. reflexivity. Qed.

Lemma bind_assoc m f g : ((m ≫= f) ≫= g) = (m ≫= fun a => f a ≫= g).
Proof. by destruct m. Qed.

Lemma bind_ok_inv m f b : (m ≫= f) = Ok b -> exists a, m = Ok a /\ f a = Ok b.
Proof. destruct m; simpl; try discriminate; eauto. Qed.

Lemma bind_ext m f f' : (forall a, f a = f' a) -> (m ≫= f) = (m ≫= f').
Proof. intros H. destruct m; simpl; [apply H | done..]. Qed.

Lemma okp_bind (P : B -> Prop) m f :
  okp (fun a => okp P (f a)) m -> okp P (m ≫= f).
Proof. by destruct m. Qed.

Lemma okp_mono (P Q : A -> Prop) m : (forall a, P a -> Q a) -> okp P m -> okp Q m.
Proof. destruct m; simpl; auto. Qed.

(** A computation without loops never runs out of fuel. *)
Lemma bind_total m f : m <> NoFuel -> (forall a, f a <> NoFuel) -> (m ≫= f) <> NoFuel.
Proof. destruct m; cbn; auto. Qed.

Lemma okp_True m : okp (fun _ => True) m.
Proof. by destruct m. Qed.
End res_laws.

Lemma res_rel_bind {A B A' B'} (R : A -> A' -> Prop) (Q : B -> B' -> Prop) m m' f f' :
  res_rel R m m' -> (forall a a', R a a' -> res_rel Q (f a) (f' a')) ->
  res_rel Q (m ≫= f) (m' ≫= f').
Proof. destruct 1; simpl; auto with cxx. Qed.

Lemma res_rel_mono {A B} (R Q : A -> B -> Prop) m m' :
  (forall a b, R a b -> Q a b) -> res_rel R m m' -> res_rel Q m m'.
Proof. destruct 2; constructor; auto. Qed.

Lemma res_rel_eq {A} (m m' : res A) : res_rel eq m m' <-> m = m'.
Proof.
  split; [by destruct 1; subst | intros ->; destruct m'; constructor; done].
Qed.

Lemma res_rel_fun {A B} (f : A -> B) m m' :
  res_rel (fun a b => b = f a) m m' <-> m' = f <$> m.
Proof.
  split; [by destruct 1; subst | intros ->; destruct m; constructor; done].
Qed.

(** ** Loops

    A loop of the source is the iteration of its body: [inl] is the state with
    which the next iteration starts, [inr] the value the loop is left with. *)

Fixpoint loop {S R : Type} (body : S -> res (S + R)) (fuel : nat) (s : S) : res R :=
  match fuel with
  | O => NoFuel
  | Datatypes.S n =>
      body s ≫= fun x => match x with inl s' => loop body n s' | inr r => Ok r end
  end.

Section loops.
Context {S R : Type} (body : S -> res (S + R)).

Lemma loop_S n s :
  loop body (Datatypes.S n) s =
  (body s ≫= fun x => match x with inl s' => loop body n s' | inr r => Ok r end).
Proof. reflexivity. Qed.

(** More fuel does not change an outcome. *)
Lemma loop_mono n m s :
  loop body n s <> NoFuel -> (n <= m)%nat -> loop body m s = loop body n s.
Proof.
  revert m s. induction n as [|n IH]; intros m s Hne Hle; [done|].
  destruct m as [|m]; [lia|]. rewrite loop_S in Hne. rewrite (loop_S n), (loop_S m).
  destruct (body s) as [[s'|r]| |]; simpl in *; try done.
  apply IH; [done | lia].
Qed.

(** Partial correctness: an invariant of the body holds at the end. *)
Lemma loop_inv (I : S -> Prop) (Q : R -> Prop) :
  (forall s, I s ->
     okp (fun x => match x with inl s' => I s' | inr r => Q r end) (body s)) ->
  forall n s, I s -> okp Q (loop body n s).
Proof.
  intros Hb n. induction n as [|n IH]; intros s Hs; [done|].
  rewrite loop_S. specialize (Hb s Hs).
  destruct (body s) as [[s'|r]| |]; simpl in *; auto.
Qed.

(** Termination: a measure that every iteration decreases bounds the fuel. *)
Lemma loop_measure (I : S -> Prop) (mu : S -> nat) :
  (forall s, I s -> body s <> NoFuel /\
     okp (fun x => match x with inl s' => I s' /\ (mu s' < mu s)%nat | inr _ => True end)
         (body s)) ->
  forall n s, I s -> (mu s < n)%nat -> loop body n s <> NoFuel.
Proof.
  intros Hb n. induction n as [|n IH]; intros s Hs Hlt; [lia|].
  rewrite loop_S. destruct (Hb s Hs) as [Hnf Hok].
  destruct (body s) as [[s'|r]| |]; simpl in *; try done.
  destruct Hok. apply IH; [done | lia].
Qed.
End loops.

(** The simulation diagram: related states stay related under the bodies, so
    the loops have related outcomes with every amount of fuel. *)
Lemma loop_sim {S1 R1 S2 R2} (b1 : S1 -> res (S1 + R1)) (b2 : S2 -> res (S2 + R2))
    (I : S1 -> S2 -> Prop) (Q : R1 -> R2 -> Prop) :
  (forall s1 s2, I s1 s2 -> res_rel (sum_rel I Q) (b1 s1) (b2 s2)) ->
  forall n s1 s2, I s1 s2 -> res_rel Q (loop b1 n s1) (loop b2 n s2).
Proof.
  intros Hb n. induction n as [|n IH]; intros s1 s2 HI; [constructor|].
  rewrite !loop_S. eapply res_rel_bind; [by apply Hb|].
  intros ?? [?? ?|?? ?]; [by apply IH | by constructor].
Qed.

Lemma loop_ext {S R} (b1 b2 : S -> res (S + R)) n s :
  (forall s, b1 s = b2 s) -> loop b1 n s = loop b2 n s.
Proof.
  intros Hb. revert s. induction n as [|n IH]; intros s; [done|].
  rewrite !loop_S, Hb. apply bind_ext. by intros [].
Qed.

(** A variant of the diagram for a second loop that takes one more turn to
    leave: it is run with one more unit of fuel. *)
Lemma loop_sim_late {S1 R1 S2 R2} (b1 : S1 -> res (S1 + R1)) (b2 : S2 -> res (S2 + R2))
    (I : S1 -> S2 -> Prop) (Q : R1 -> R2 -> Prop) :
  (forall s1 s2, I s1 s2 ->
     res_rel (sum_rel I Q) (b1 s1) (b2 s2) \/
     exists s2', b2 s2 = Ok (inl s2') /\
                 res_rel (sum_rel (fun _ _ => False) Q) (b1 s1) (b2 s2')) ->
  forall n s1 s2, I s1 s2 ->
    (loop b1 n s1 = NoFuel -> loop b2 n s2 = NoFuel) /\
    (loop b1 n s1 <> NoFuel -> res_rel Q (loop b1 n s1) (loop b2 (S n) s2)).
Proof.
  intros Hb n. induction n as [|n IH]; intros s1 s2 HI; [done|].
  destruct (Hb s1 s2 HI) as [Hr|(s2' & E2 & Hr)].
  - rewrite (loop_S b1), (loop_S b2 n), (loop_S b2 (S n)).
    inversion Hr as [? ? [?? HI'|?? HQ] E1 E2|? E1 E2|E1 E2]; cbn [mbind res_bind];
      [by apply IH | split; intros; done || by constructor ..].
  - rewrite (loop_S b1), (loop_S b2 (S n)), (loop_S b2 n), E2; cbn [mbind res_bind].
    rewrite (loop_S b2 n).
    inversion Hr as [? ? [?? []|?? HQ] E1 E3|? E1 E3|E1 E3]; cbn [mbind res_bind].
    + split; [done | by constructor].
    + split; [done | by constructor].
    + split; [|done]. intros _. destruct n as [|n']; [done|].
      rewrite loop_S, <- E3. done.
Qed.

(** A loop over the elements of a range. *)
Fixpoint foldR {A B} (f : B -> A -> res B) (b : B) (l : list A) : res B :=
  match l with
  | [] => Ok b
  | a :: l => b ← f b a; foldR f b l
  end.

Lemma foldR_app {A B} (f : B -> A -> res B) b l1 l2 :
  foldR f b (l1 ++ l2) = (b ← foldR f b l1; foldR f b l2).
Proof.
  revert b. induction l1 as [|a l1 IH]; intros b; [done|]. cbn [app foldR].
  rewrite bind_assoc. apply bind_ext. intros b'. apply IH.
Qed.

(** A loop over a range that can return from its body. *)
Fixpoint for_find {A R} (f : A -> res (option R)) (l : list A) : res (option R) :=
  match l with
  | [] => Ok None
  | a :: l => r ← f a; match r with Some x => Ok (Some x) | None => for_find f l end
  end.

Lemma for_find_ext {A R} (f g : A -> res (option R)) l :
  (forall a, a ∈ l -> f a = g a) -> for_find f l = for_find g l.
Proof.
  induction l as [|a l IH]; intros H; [done|]. cbn [for_find].
  rewrite H by (by left). apply bind_ext. intros [x|]; [done|]. apply IH. intros. apply H. by right.
Qed.

(** The elements with their indices. *)
Definition indexed {A} (l : list A) : list (Z * A) :=
  zip (seqZ 0 (Z.of_nat (length l))) l.

(** ** Behaviours

    The behaviour of an executable model is the outcome it has with enough
    fuel; a model without one diverges.  Two models are equivalent when they
    have the same behaviour, in particular when one diverges so does the
    other. *)

Definition outcome {A} (e : nat -> res A) (r : res A) : Prop :=
  r <> NoFuel /\ exists n, e n = r.

Definition equiv_runs {A} (e1 e2 : nat -> res A) : Prop :=
  forall r, outcome e1 r <-> outcome e2 r.
Infix "≃" := equiv_runs (at level 70, no associativity) : cxx_scope.

#[export] Instance equiv_runs_equivalence {A} : Equivalence (@equiv_runs A).
Proof.
  split; [done | intros ?? H r; by rewrite (H r) |].
  intros ??? H1 H2 r. by rewrite (H1 r).
Qed.

#[export] Instance outcome_proper {A} :
  Proper (equiv_runs ==> eq ==> iff) (@outcome A).
Proof. intros e1 e2 He r ? <-. apply He. Qed.

(** A model whose outcomes do not change with more fuel. *)
Definition stable {A} (e : nat -> res A) : Prop :=
  forall n m, e n <> NoFuel -> (n <= m)%nat -> e m = e n.

Section behaviours.
Context {A B : Type}.
Implicit Types e : nat -> res A.

Lemma outcome_det e r1 r2 : stable e -> outcome e r1 -> outcome e r2 -> r1 = r2.
Proof.
  intros Hs [H1 [n <-]] [H2 [m <-]].
  destruct (Nat.le_ge_cases n m); [symmetry|]; by apply Hs.
Qed.

Lemma equiv_lockstep e1 e2 : (forall n, e1 n = e2 n) -> e1 ≃ e2.
Proof. intros H r. split; intros [Hr [n Hn]]; split; eauto; exists n; congruence. Qed.

(** [e2] may need one more unit of fuel than [e1]. *)
Lemma equiv_late e1 e2 :
  stable e2 ->
  (forall n, e1 n = NoFuel -> e2 n = NoFuel) ->
  (forall n, e1 n <> NoFuel -> e2 (S n) = e1 n) -> e1 ≃ e2.
Proof.
  intros Hs Hd Hc r. split; intros [Hr [n Hn]]; subst r; split; eauto.
  exists n. assert (e1 n <> NoFuel) as Hne by auto.
  rewrite <- (Hc n Hne). apply Hs; [done | lia].
Qed.

Lemma stable_loop {S R} (b : S -> res (S + R)) s : stable (fun n => loop b n s).
Proof. intros n m. apply loop_mono. Qed.

Lemma stable_fmap (f : A -> B) e : stable e -> stable (fun n => f <$> e n).
Proof.
  intros Hs n m Hne Hle. rewrite (Hs n m); [done | | done].
  intros E. by rewrite E in Hne.
Qed.
End behaviours.

Lemma res_rel_fmap {A B C} (f : A -> C) (g : B -> C) m m' :
  res_rel (fun a b => f a = g b) m m' -> f <$> m = g <$> m'.
Proof. destruct 1; cbn; congruence. Qed.

Lemma fmap_nofuel {A B} (f : A -> B) (m : res A) : f <$> m = NoFuel <-> m = NoFuel.
Proof. by destruct m. Qed.

(** ** Integer facts *)

Lemma uwrap_range w z : 0 <= w -> 0 <= uwrap w z < 2 ^ w.
Proof. intros. apply Z.mod_pos_bound, Z.pow_pos_nonneg; lia. Qed.

Lemma uwrap_id w z : 0 <= z < 2 ^ w -> uwrap w z = z.
Proof. apply Z.mod_small. Qed.

Lemma uwrap_uwrap w z : uwrap w (uwrap w z) = uwrap w z.
Proof. apply Zmod_mod. Qed.

Lemma uwrap_add_l w a b : 0 <= w -> uwrap w (uwrap w a + b) = uwrap w (a + b).
Proof. intros. unfold uwrap. by rewrite Zplus_mod_idemp_l. Qed.

Lemma uwrap_add_r w a b : 0 <= w -> uwrap w (a + uwrap w b) = uwrap w (a + b).
Proof. intros. unfold uwrap. by rewrite Zplus_mod_idemp_r. Qed.

Lemma swrap_range w z : 0 < w -> - 2 ^ (w - 1) <= swrap w z < 2 ^ (w - 1).
Proof.
  intros. unfold swrap.
  assert (2 ^ w = 2 * 2 ^ (w - 1)) as E.
  { rewrite <- Z.pow_succ_r by lia. f_equal; lia. }
  pose proof (Z.mod_pos_bound (z + 2 ^ (w - 1)) (2 ^ w)).
  pose proof (Z.pow_pos_nonneg 2 (w - 1)). lia.
Qed.

Lemma sfits_spec w z : sfits w z = true <-> - 2 ^ (w - 1) <= z < 2 ^ (w - 1).
Proof. unfold sfits. rewrite andb_true_iff, Z.leb_le, Z.ltb_lt. done. Qed.

Lemma sint_ok w z : - 2 ^ (w - 1) <= z < 2 ^ (w - 1) -> sint w z = Ok z.
Proof. intros H. unfold sint. by rewrite (proj2 (sfits_spec w z) H). Qed.

Lemma sint_out w z : z < - 2 ^ (w - 1) \/ 2 ^ (w - 1) <= z -> sint w z = Ub SignedOverflow.
Proof.
  intros H. unfold sint. destruct (sfits w z) eqn:E; [|done]. apply sfits_spec in E. lia.
Qed.

Lemma swrap_id w z : 0 < w -> sfits w z = true -> swrap w z = z.
Proof.
  rewrite sfits_spec. intros. unfold swrap.
  assert (2 ^ w = 2 * 2 ^ (w - 1)) as E.
  { rewrite <- Z.pow_succ_r by lia. f_equal; lia. }
  rewrite Z.mod_small; lia.
Qed.

Lemma sfits_swrap w z : 0 < w -> sfits w (swrap w z) = true.
Proof. intros. apply sfits_spec, swrap_range. lia. Qed.

Lemma swrap_uwrap w z : 0 < w -> swrap w (uwrap w z) = swrap w z.
Proof. intros. unfold swrap, uwrap. by rewrite Zplus_mod_idemp_l. Qed.

Lemma uwrap_swrap w z : 0 < w -> uwrap w (swrap w z) = uwrap w z.
Proof.
  intros. unfold swrap, uwrap. rewrite Zminus_mod_idemp_l. f_equal; lia.
Qed.

(** ** Indexed access *)

Lemma at_index_lookup {A} (l : list A) i x :
  0 <= i -> l !! Z.to_nat i = Some x -> at_index l i = Ok x.
Proof.
  intros Hi Hl. unfold at_index. rewrite Hl.
  destruct (Z.ltb_spec i 0); [lia | done].
Qed.

Lemma at_index_ok {A} (l : list A) i :
  0 <= i < Z.of_nat (length l) -> exists x, at_index l i = Ok x /\ l !! Z.to_nat i = Some x.
Proof.
  intros Hi. destruct (lookup_lt_is_Some_2 l (Z.to_nat i)) as [x Hx]; [lia|].
  exists x. split; [by apply at_index_lookup; [lia|] | done].
Qed.

Lemma at_index_out {A} (l : list A) i :
  (i < 0 \/ Z.of_nat (length l) <= i) -> at_index l i = Ub ArrayIndex.
Proof.
  intros Hi. unfold at_index. destruct (Z.ltb_spec i 0); [done|].
  rewrite lookup_ge_None_2; [done | lia].
Qed.

Lemma at_index_inv {A} (l : list A) i x :
  at_index l i = Ok x -> 0 <= i < Z.of_nat (length l) /\ l !! Z.to_nat i = Some x.
Proof.
  unfold at_index. destruct (Z.ltb_spec i 0); [done|].
  destruct (l !! Z.to_nat i) eqn:E; [|done]. intros [= ->].
  apply lookup_lt_Some in E as E'. split; [lia | done].
Qed.

Lemma at_index_fuel {A} (l : list A) i : at_index l i <> NoFuel.
Proof. unfold at_index. repeat case_match; done. Qed.

Lemma set_index_ok {A} (l : list A) i x :
  0 <= i < Z.of_nat (length l) -> set_index l i x = Ok (<[Z.to_nat i := x]> l).
Proof.
  intros Hi. unfold set_index.
  rewrite (proj2 (andb_true_iff _ _)); [done|].
  rewrite Z.leb_le, Z.ltb_lt. lia.
Qed.

Lemma set_index_inv {A} (l l' : list A) i x :
  set_index l i x = Ok l' -> 0 <= i < Z.of_nat (length l) /\ l' = <[Z.to_nat i := x]> l.
Proof.
  unfold set_index. destruct (_ && _) eqn:E; [|done]. intros [= <-].
  rewrite andb_true_iff, Z.leb_le, Z.ltb_lt in E. split; [lia | done].
Qed.

Lemma check_fuel b u : check b u <> NoFuel.
Proof. by destruct b. Qed.

Lemma set_index_fuel {A} (l : list A) i x : set_index l i x <> NoFuel.
Proof. unfold set_index. by case_match. Qed.

#[export] Hint Resolve at_index_fuel set_index_fuel check_fuel bind_total okp_True : cxx.

(** ** Lists *)

Lemma forallb_elem {A} (f : A -> bool) (l : list A) x :
  forallb f l = true -> In x l -> f x = true.
Proof. rewrite List.forallb_forall. auto. Qed.

Lemma forallb_Forall {A} (f : A -> bool) (l : list A) :
  forallb f l = true <-> Forall (fun x => f x = true) l.
Proof. by rewrite List.forallb_forall, List.Forall_forall. Qed.

(** A boolean property of a small range is checked by evaluation. *)
Lemma range_check (P : Z -> bool) n :
  forallb P (seqZ 0 n) = true -> forall z, 0 <= z < n -> P z = true.
Proof.
  intros H z Hz. apply (forallb_elem _ _ _ H), list_elem_of_In, elem_of_seqZ. lia.
Qed.

(** ** Tactics *)

(** Split the conditionals and matches of the goal, one at a time. *)
Ltac split_match :=
  match goal with
  | |- context [match ?x with _ => _ end] => destruct x eqn:?
  end.

(** Invert a chain of binds that has a value. *)
Ltac inv_ok :=
  repeat match goal with
  | H : (_ ≫= _) = Ok _ |- _ =>
      let a := fresh "v" in let H1 := fresh "Hv" in
      apply bind_ok_inv in H; destruct H as (a & H1 & H)
  | H : Ok _ = Ok _ |- _ => injection H as H
  | H : mret _ = Ok _ |- _ => injection H as H
  | H : Ub _ = Ok _ |- _ => discriminate H
  | H : NoFuel = Ok _ |- _ => discriminate H
  end.
