(* ===== verification/Bytes.v ===== *)
(** * Bytes and buffers

    Little-endian encodings, and reading and writing ranges of a buffer.  A buffer
    is the list of its elements; an access outside of it is undefined behaviour. *)

From S2P Require Import Prelude.
From stdpp Require Import list_relations list.
#[local] Open Scope Z_scope.

(** ** Operations *)

Fixpoint le_value (bs : list Z) : Z :=
  match bs with [] => 0 | b :: bs => b + 256 * le_value bs end.

Fixpoint le_bytes (n : nat) (v : Z) : list Z :=
  match n with O => [] | S n => v mod 256 :: le_bytes n (v / 256) end.

(** [n] elements of a buffer from offset [off] on. *)
Definition slice {A} (buf : list A) (off n : Z) : res (list A) :=
  if (0 <=? off) && (0 <=? n) && (off + n <=? Z.of_nat (length buf))
  then Ok (take (Z.to_nat n) (drop (Z.to_nat off) buf)) else Ub ArrayIndex.

Definition read_le (n : Z) (buf : list Z) (off : Z) : res Z :=
  bs ← slice buf off n; Ok (le_value bs).

(** A memcpy of elements into a buffer. *)
Definition write_bytes {A} (buf : list A) (off : Z) (bs : list A) : res (list A) :=
  if (0 <=? off) && (off + Z.of_nat (length bs) <=? Z.of_nat (length buf))
  then Ok (take (Z.to_nat off) buf ++ bs ++ drop (Z.to_nat off + length bs) buf)
  else Ub ArrayIndex.

(** ** Facts *)

Lemma length_le_bytes n v : length (le_bytes n v) = n.
Proof. revert v. induction n as [|n IH]; intros v; cbn; auto. Qed.

(** Decoding an encoded value gives it back modulo the width. *)
Lemma le_value_bytes n v : le_value (le_bytes n v) = uwrap (8 * Z.of_nat n) v.
Proof.
  unfold uwrap. revert v. induction n as [|n IH]; intros v; cbn [le_bytes le_value].
  { by rewrite Z.mod_1_r. }
  rewrite IH. replace (8 * Z.of_nat (S n)) with (8 + 8 * Z.of_nat n) by lia.
  rewrite Z.pow_add_r by lia. change (2 ^ 8) with 256.
  rewrite Z.rem_mul_r; [done | done | apply Z.pow_pos_nonneg; lia].
Qed.

Lemma slice_ok {A} (buf : list A) off n :
  0 <= off -> 0 <= n -> off + n <= Z.of_nat (length buf) ->
  slice buf off n = Ok (take (Z.to_nat n) (drop (Z.to_nat off) buf)).
Proof.
  intros. unfold slice. rewrite !(proj2 (Z.leb_le _ _)) by done. done.
Qed.

(** A buffer after a write: the written range holds the bytes, the rest is as
    before. *)
Definition written {A} (buf buf' : list A) (off : Z) (bs : list A) : Prop :=
  length buf' = length buf /\
  slice buf' off (Z.of_nat (length bs)) = Ok bs /\
  forall i, Z.of_nat i < off \/ off + Z.of_nat (length bs) <= Z.of_nat i ->
    buf' !! i = buf !! i.

Lemma write_bytes_ok {A} (buf : list A) off bs :
  0 <= off -> off + Z.of_nat (length bs) <= Z.of_nat (length buf) ->
  exists buf', write_bytes buf off bs = Ok buf' /\ written buf buf' off bs.
Proof.
  intros Ho Hb. unfold write_bytes. rewrite !(proj2 (Z.leb_le _ _)) by done. cbn [andb].
  eexists. split; [done|]. set (k := Z.to_nat off).
  assert (length (take k buf) = k) as Hk by (rewrite length_take; lia).
  assert (length (take k buf ++ bs ++ drop (k + length bs) buf) = length buf) as Hl.
  { rewrite !length_app, length_take, length_drop. lia. }
  split_and!; [done | |].
  - rewrite slice_ok by lia. fold k. rewrite drop_app_length' by done.
    rewrite Nat2Z.id, take_app_length. done.
  - intros i [Hi|Hi].
    + rewrite lookup_app_l by lia. apply lookup_take_lt. lia.
    + rewrite lookup_app_r, lookup_app_r, lookup_drop by lia. f_equal. lia.
Qed.

Lemma write_bytes_out {A} (buf : list A) off bs :
  0 <= off -> Z.of_nat (length buf) < off + Z.of_nat (length bs) ->
  write_bytes buf off bs = Ub ArrayIndex.
Proof.
  intros Ho Hb. unfold write_bytes.
  rewrite (proj2 (Z.leb_gt _ (Z.of_nat (length buf)))) by done. by rewrite andb_false_r.
Qed.

(** Two buffers that agree on a range have the same slice there. *)
Lemma slice_ext {A} (buf buf' : list A) off n :
  length buf = length buf' ->
  (forall i, off <= Z.of_nat i < off + n -> buf !! i = buf' !! i) ->
  slice buf off n = slice buf' off n.
Proof.
  intros Hl Hi. unfold slice. rewrite Hl. destruct (_ && _) eqn:E; [|done].
  rewrite !andb_true_iff, !Z.leb_le in E. f_equal. apply list_eq. intros i.
  destruct (decide (i < Z.to_nat n)%nat) as [Hlt|Hge].
  - rewrite !lookup_take_lt, !lookup_drop by done. apply Hi. lia.
  - by rewrite !lookup_take_ge by lia.
Qed.

Lemma slice_length {A} (buf : list A) off n d : slice buf off n = Ok d -> Z.of_nat (length d) = n.
Proof.
  unfold slice. destruct (_ && _) eqn:E; [|done]. intros [= <-].
  rewrite !andb_true_iff, !Z.leb_le in E. rewrite length_take, length_drop. lia.
Qed.

Lemma write_bytes_length {A} (buf : list A) off bs d : write_bytes buf off bs = Ok d -> length d = length buf.
Proof.
  unfold write_bytes. destruct (_ && _) eqn:E; [|done]. intros [= <-].
  rewrite andb_true_iff, !Z.leb_le in E. rewrite !length_app, length_take, length_drop. lia.
Qed.

Lemma slice_Forall {A} (P : A -> Prop) buf off n d : slice buf off n = Ok d -> Forall P buf -> Forall P d.
Proof. unfold slice. destruct (_ && _); [|done]. intros [= <-] H. by apply Forall_take, Forall_drop. Qed.

(** The encoding only sees a value modulo the width. *)
Lemma le_bytes_uwrap n v : le_bytes n (uwrap (8 * Z.of_nat n) v) = le_bytes n v.
Proof.
  unfold uwrap. revert v. induction n as [|n IH]; intros v; [done|]. cbn [le_bytes].
  assert (0 < 2 ^ (8 * Z.of_nat n)) by (apply Z.pow_pos_nonneg; lia).
  replace (2 ^ (8 * Z.of_nat (S n))) with (256 * 2 ^ (8 * Z.of_nat n))
    by (rewrite <- (Z.pow_add_r 2 8) by lia; f_equal; lia).
  rewrite Z.rem_mul_r by lia. f_equal.
  - rewrite (Z.mul_comm 256), Z.mod_add, Z.mod_mod by lia. done.
  - rewrite (Z.mul_comm 256), Z.div_add, Z.div_small, Z.add_0_l by (try lia; apply Z.mod_pos_bound; lia).
    apply IH.
Qed.
