(* ===== verification/VmIsa.v ===== *)
(** * The instruction set of the threaded-code virtual machine

    Models the common definitions of [perf/threaded_code/basic.cpp]: the
    opcodes, the machine state, the instruction encoding, and the C++ meaning
    of the arithmetic the interpreters perform on [int64_t] registers. *)

From S2P Require Import Prelude.

(** ** Data *)

(** [enum class OpCode : uint8_t].  An object of the enumeration holds an
    enumerator or any other value of its underlying type; [Raw v] is the
    latter. *)
Inductive OpCode : Set :=
  | HALT | NOP | ADD | SUB | MUL | INC | DEC | NEG
  | AND | OR | XOR | NOT | SHL | SHR | LOAD_IMM | LOAD_REG
  | STORE | CMP_EQ | CMP_LT | CMP_GT | JMP | JZ | JNZ | MAC
  | DOT | POLY | ABS | MIN | MAX | OP32 | OP33 | OP34
  | OP35 | OP36 | OP37 | OP38 | OP39 | OP40 | OP41 | OP42
  | OP43 | OP44 | OP45 | OP46 | OP47 | OP48 | OP49 | OP50
  | OP51 | OP52 | OP53 | OP54 | OP55 | OP56 | OP57 | OP58
  | OP59 | OP60 | OP61 | OP62 | OP63 | NUM_OPCODES
  | Raw (v : Z).

(** [static_cast<uint8_t>(op)]; the enumerators count from 0. *)
Definition op_value (o : OpCode) : Z :=
  match o with
  | HALT => 0 | NOP => 1 | ADD => 2 | SUB => 3 | MUL => 4 | INC => 5
  | DEC => 6 | NEG => 7 | AND => 8 | OR => 9 | XOR => 10 | NOT => 11
  | SHL => 12 | SHR => 13 | LOAD_IMM => 14 | LOAD_REG => 15 | STORE => 16 | CMP_EQ => 17
  | CMP_LT => 18 | CMP_GT => 19 | JMP => 20 | JZ => 21 | JNZ => 22 | MAC => 23
  | DOT => 24 | POLY => 25 | ABS => 26 | MIN => 27 | MAX => 28 | OP32 => 29
  | OP33 => 30 | OP34 => 31 | OP35 => 32 | OP36 => 33 | OP37 => 34 | OP38 => 35
  | OP39 => 36 | OP40 => 37 | OP41 => 38 | OP42 => 39 | OP43 => 40 | OP44 => 41
  | OP45 => 42 | OP46 => 43 | OP47 => 44 | OP48 => 45 | OP49 => 46 | OP50 => 47
  | OP51 => 48 | OP52 => 49 | OP53 => 50 | OP54 => 51 | OP55 => 52 | OP56 => 53
  | OP57 => 54 | OP58 => 55 | OP59 => 56 | OP60 => 57 | OP61 => 58 | OP62 => 59
  | OP63 => 60 | NUM_OPCODES => 61
  | Raw v => v
  end.

Definition NUM_REGS : nat := 16.
Definition NUM_BASIC_OPS : Z := 32.

#[export] Instance OpCode_eq_dec : EqDecision OpCode.
Proof. solve_decision. Defined.

Record VMState : Set := mkVM {
  regs : list Z;          (* std::array<int64_t, NUM_REGS> *)
  flags : Z;              (* uint64_t *)
  ip : Z;                 (* size_t *)
  cycle_count : Z;        (* uint64_t *)
}.

Record Instruction : Set := mkI {
  op : OpCode;
  r1 : Z; r2 : Z; r3 : Z; (* uint8_t *)
  imm : Z;                (* int32_t *)
}.

(** [VMState] value-initialised. *)
Definition VMState_init : VMState := mkVM (replicate NUM_REGS 0) 0 0 0.

(** [regs.fill(0)], then the loop that stores [i + 1] in register [i]. *)
Definition reset (s : VMState) : VMState :=
  let filled := (fun _ => 0) <$> regs s in
  mkVM (fold_left (fun rg i => <[i := Z.of_nat i + 1]> rg) (seq 0 NUM_REGS) filled) 0 0 0.

Definition set_regs (s : VMState) (rg : list Z) : VMState :=
  mkVM rg (flags s) (ip s) (cycle_count s).
Definition set_flags (s : VMState) (f : Z) : VMState :=
  mkVM (regs s) f (ip s) (cycle_count s).
Definition set_ip (s : VMState) (p : Z) : VMState :=
  mkVM (regs s) (flags s) p (cycle_count s).

(** [++state.cycle_count] *)
Definition tick (s : VMState) : VMState :=
  mkVM (regs s) (flags s) (ip s) (u64 (cycle_count s + 1)).

(** [++state.ip]; every use is behind the guard [ip < code.size()], which
    keeps the sum inside [size_t]. *)
Definition incr_ip (s : VMState) : VMState := set_ip s (ip s + 1).

(** ** Expressions

    The operators the interpreters apply to registers.  Signed overflow is
    undefined; [<<] on a signed operand is modular, and [>>] is applied after
    a cast to [uint64_t]. *)

Definition s64_value (z : Z) : res Z := check (sfits 64 z) SignedOverflow;; Ok z.

Definition add64 (a b : Z) : res Z := s64_value (a + b).
Definition sub64 (a b : Z) : res Z := s64_value (a - b).
Definition mul64 (a b : Z) : res Z := s64_value (a * b).
Definition neg64 (a : Z) : res Z := s64_value (- a).
Definition abs64 (a : Z) : res Z := s64_value (Z.abs a).
Definition and64 (a b : Z) : res Z := Ok (Z.land a b).
Definition or64 (a b : Z) : res Z := Ok (Z.lor a b).
Definition xor64 (a b : Z) : res Z := Ok (Z.lxor a b).
Definition not64 (a : Z) : res Z := Ok (Z.lnot a).
Definition shl64 (a b : Z) : res Z := Ok (s64 (Z.shiftl a (Z.land b 63))).
Definition shr64 (a b : Z) : res Z := Ok (s64 (Z.shiftr (u64 a) (Z.land b 63))).
Definition min64 (a b : Z) : res Z := Ok (if b <? a then b else a).
Definition max64 (a b : Z) : res Z := Ok (if a <? b then b else a).

(** [(a ^ idx) + b], the extension opcodes; [idx] is an [int]. *)
Definition ext64 (idx a b : Z) : res Z := add64 (Z.lxor a idx) b.

Definition ap1 (f : Z -> res Z) (a : res Z) : res Z := x ← a; f x.
Definition ap2 (f : Z -> Z -> res Z) (a b : res Z) : res Z := x ← a; y ← b; f x y.

(** [rg[d] = e] and [rg[d] += e] *)
Definition store (rg : list Z) (d : Z) (e : res Z) : res (list Z) := x ← e; rg.[d <- x].
Definition store_add (rg : list Z) (d : Z) (e : res Z) : res (list Z) :=
  store rg d (y ← e; x ← rg.[d]; add64 x y).

(** [(b) ? 1 : 0] *)
Definition flag_of (b : bool) : Z := if b then 1 else 0.
Definition cmp (f : Z -> Z -> bool) (a b : res Z) : res Z :=
  x ← a; y ← b; Ok (flag_of (f x y)).
Definition Zgtb (a b : Z) : bool := b <? a.

(** [return state.regs[0];] from a function of type [uint64_t] *)
Definition ret0 (rg : list Z) : res Z := x ← rg.[0]; Ok (u64 x).

(** ** The type invariant of the machine state *)

Definition reg_ok (z : Z) : Prop := sfits 64 z = true.

Definition regs_ok (rg : list Z) : Prop := length rg = NUM_REGS /\ Forall reg_ok rg.

Definition state_ok (s : VMState) : Prop :=
  regs_ok (regs s) /\ (flags s = 0 \/ flags s = 1) /\
  0 <= ip s < 2 ^ 64 /\ 0 <= cycle_count s < 2 ^ 64.
