(* ===== verification/VmInterp.v ===== *)
(** * The six interpreters of [perf/threaded_code/basic.cpp]

    One module per interpreter class.  Each executes the same instruction set
    with its own dispatch technique: a [switch] in a loop, computed gotos over
    the instruction array ("direct"), over a recompiled array that embeds label
    addresses ("indirect"), over a packed encoding ("token"), and tables of
    handler functions ("subroutine" and "call").  The bodies are written out
    for each of them, as in the source. *)

From S2P Require Import Prelude VmIsa.

Definition code_size {A} (code : list A) : Z := Z.of_nat (length code).

(** A pointer into an array of [size] elements that starts at [base] is its
    offset; [base + d] is defined up to one past the last element. *)
Definition ptr_at (size d : Z) : res Z :=
  check ((0 <=? d) && (d <=? size)) PointerRange;; Ok d.

(** ** Switch dispatch *)

Module SwitchInterpreter.

(** [state.regs[..] = ..; ++state.ip; break;] *)
Definition next (s : VMState) (rg : res (list Z)) : res (VMState + Z * VMState) :=
    rg' ← rg; Ok (inl (incr_ip (set_regs s rg'))).
(** [state.flags = ..; ++state.ip; break;] *)
Definition nextf (s : VMState) (f : res Z) : res (VMState + Z * VMState) :=
    f' ← f; Ok (inl (incr_ip (set_flags s f'))).
(** [return state.regs[0];] *)
Definition leave (s : VMState) : res (VMState + Z * VMState) :=
    r ← ret0 (regs s); Ok (inr (r, s)).

(** The [switch (instr.op)]. *)
Definition dispatch (i : Instruction) (s : VMState) : res (VMState + Z * VMState) :=
    let rg := regs s in
    match op i with
    | HALT => leave s
    | NOP => Ok (inl (incr_ip s))
    | ADD => next s (store rg (r1 i) (ap2 add64 rg.[r2 i] rg.[r3 i]))
    | SUB => next s (store rg (r1 i) (ap2 sub64 rg.[r2 i] rg.[r3 i]))
    | MUL => next s (store rg (r1 i) (ap2 mul64 rg.[r2 i] rg.[r3 i]))
    | INC => next s (store rg (r1 i) (x ← rg.[r1 i]; add64 x 1))
    | DEC => next s (store rg (r1 i) (x ← rg.[r1 i]; sub64 x 1))
    | NEG => next s (store rg (r1 i) (ap1 neg64 rg.[r2 i]))
    | AND => next s (store rg (r1 i) (ap2 and64 rg.[r2 i] rg.[r3 i]))
    | OR => next s (store rg (r1 i) (ap2 or64 rg.[r2 i] rg.[r3 i]))
    | XOR => next s (store rg (r1 i) (ap2 xor64 rg.[r2 i] rg.[r3 i]))
    | NOT => next s (store rg (r1 i) (ap1 not64 rg.[r2 i]))
    | SHL => next s (store rg (r1 i) (ap2 shl64 rg.[r2 i] rg.[r3 i]))
    | SHR => next s (store rg (r1 i) (ap2 shr64 rg.[r2 i] rg.[r3 i]))
    | LOAD_IMM => next s (store rg (r1 i) (Ok (imm i)))
    | LOAD_REG => next s (store rg (r1 i) rg.[r2 i])
    | STORE => next s (store rg (r1 i) rg.[r2 i])
    | CMP_EQ => nextf s (cmp Z.eqb rg.[r2 i] rg.[r3 i])
    | CMP_LT => nextf s (cmp Z.ltb rg.[r2 i] rg.[r3 i])
    | CMP_GT => nextf s (cmp Zgtb rg.[r2 i] rg.[r3 i])
    | JMP => Ok (inl (set_ip s (u64 (imm i))))
    | JZ => Ok (inl (set_ip s (if flags s =? 0 then u64 (imm i) else ip s + 1)))
    | JNZ => Ok (inl (set_ip s (if negb (flags s =? 0) then u64 (imm i) else ip s + 1)))
    | MAC => next s (store_add rg (r1 i) (ap2 mul64 rg.[r2 i] rg.[r3 i]))
    | DOT => next s (store_add rg (r1 i) (ap2 mul64 rg.[r2 i] rg.[r3 i]))
    | POLY => next s (store rg (r1 i) (ap2 add64 (ap2 mul64 rg.[r1 i] rg.[r2 i]) rg.[r3 i]))
    | ABS => next s (store rg (r1 i) (ap1 abs64 rg.[r2 i]))
    | MIN => next s (store rg (r1 i) (ap2 min64 rg.[r2 i] rg.[r3 i]))
    | MAX => next s (store rg (r1 i) (ap2 max64 rg.[r2 i] rg.[r3 i]))
    | _ =>
        if (op_value OP32 <=? op_value (op i)) && (op_value (op i) <? op_value NUM_OPCODES) then
          let op_idx := op_value (op i) - op_value OP32 in
          next s (store rg (r1 i) (ap2 (ext64 op_idx) rg.[r2 i] rg.[r3 i]))
        else Ok (inl (incr_ip s))
    end.

(** One turn of [while (state.ip < code_size)]. *)
Definition body (code : list Instruction) (s : VMState) : res (VMState + Z * VMState) :=
    if ip s <? code_size code then
      i ← code.[ip s]; dispatch i (tick s)
    else leave s.

Definition execute (fuel : nat) (code : list Instruction) (s : VMState) : res (Z * VMState) :=
    loop (body code) fuel s.
End SwitchInterpreter.

(** ** Labels

    The labels whose addresses the computed-goto interpreters take. *)

Inductive Label : Set :=
  | L_HALT | L_NOP | L_ADD | L_SUB | L_MUL | L_INC | L_DEC | L_NEG
  | L_AND | L_OR | L_XOR | L_NOT | L_SHL | L_SHR | L_LOAD_IMM | L_LOAD_REG
  | L_STORE | L_CMP_EQ | L_CMP_LT | L_CMP_GT | L_JMP | L_JZ | L_JNZ | L_MAC
  | L_DOT | L_POLY | L_ABS | L_MIN | L_MAX | L_EXT.

#[export] Instance Label_eq_dec : EqDecision Label.
Proof. solve_decision. Defined.

(** The labels of the basic opcodes, in the order of the tables. *)
Definition basic_labels : list Label :=
  [L_HALT; L_NOP; L_ADD; L_SUB; L_MUL; L_INC;
   L_DEC; L_NEG; L_AND; L_OR; L_XOR; L_NOT;
   L_SHL; L_SHR; L_LOAD_IMM; L_LOAD_REG; L_STORE; L_CMP_EQ;
   L_CMP_LT; L_CMP_GT; L_JMP; L_JZ; L_JNZ; L_MAC;
   L_DOT; L_POLY; L_ABS; L_MIN; L_MAX].

(** The local variables of a computed-goto interpreter beside [state]: the
    instruction pointer (an offset) and the flags. *)
Record GotoState : Set := mkG {
  g_ip : Z;
  g_flags : Z;
  g_state : VMState;
}.

(** The endings of the label bodies; [inl] is the state in which [DISPATCH()]
    is reached again. *)

(** [regs[..] = ..; NEXT();] *)
Definition NEXT (g : GotoState) (rg : res (list Z)) : res (GotoState + Z * VMState) :=
    rg' ← rg; Ok (inl (mkG (g_ip g + 1) (g_flags g) (set_regs (g_state g) rg'))).
(** [flags = ..; NEXT();] *)
Definition NEXTF (g : GotoState) (f : res Z) : res (GotoState + Z * VMState) :=
    f' ← f; Ok (inl (mkG (g_ip g + 1) f' (g_state g))).
(** [ip = base + ip->imm; DISPATCH();] *)
Definition GOTO (size : Z) (g : GotoState) (d : Z) : res (GotoState + Z * VMState) :=
    p ← ptr_at size d; Ok (inl (mkG p (g_flags g) (g_state g))).
Definition LEAVE (g : GotoState) : res (GotoState + Z * VMState) :=
    r ← ret0 (regs (g_state g)); Ok (inr (r, g_state g)).

(** ** Direct threaded code

    [dispatch_table] is indexed by the opcode: the 29 basic labels, then
    [L_EXT] for the 32 extension opcodes. *)

Module DirectThreadedInterpreter.
Definition dispatch_table : list Label := basic_labels ++ replicate 32 L_EXT.

(** The code after each label. *)
Definition label_body (size : Z) (l : Label) (i : Instruction) (g : GotoState) :
      res (GotoState + Z * VMState) :=
    let rg := regs (g_state g) in
    match l with
    | L_HALT => LEAVE g
    | L_NOP => NEXT g (Ok rg)
    | L_ADD => NEXT g (store rg (r1 i) (ap2 add64 rg.[r2 i] rg.[r3 i]))
    | L_SUB => NEXT g (store rg (r1 i) (ap2 sub64 rg.[r2 i] rg.[r3 i]))
    | L_MUL => NEXT g (store rg (r1 i) (ap2 mul64 rg.[r2 i] rg.[r3 i]))
    | L_INC => NEXT g (store rg (r1 i) (x ← rg.[r1 i]; add64 x 1))
    | L_DEC => NEXT g (store rg (r1 i) (x ← rg.[r1 i]; sub64 x 1))
    | L_NEG => NEXT g (store rg (r1 i) (ap1 neg64 rg.[r2 i]))
    | L_AND => NEXT g (store rg (r1 i) (ap2 and64 rg.[r2 i] rg.[r3 i]))
    | L_OR => NEXT g (store rg (r1 i) (ap2 or64 rg.[r2 i] rg.[r3 i]))
    | L_XOR => NEXT g (store rg (r1 i) (ap2 xor64 rg.[r2 i] rg.[r3 i]))
    | L_NOT => NEXT g (store rg (r1 i) (ap1 not64 rg.[r2 i]))
    | L_SHL => NEXT g (store rg (r1 i) (ap2 shl64 rg.[r2 i] rg.[r3 i]))
    | L_SHR => NEXT g (store rg (r1 i) (ap2 shr64 rg.[r2 i] rg.[r3 i]))
    | L_LOAD_IMM => NEXT g (store rg (r1 i) (Ok (imm i)))
    | L_LOAD_REG => NEXT g (store rg (r1 i) rg.[r2 i])
    | L_STORE => NEXT g (store rg (r1 i) rg.[r2 i])
    | L_CMP_EQ => NEXTF g (cmp Z.eqb rg.[r2 i] rg.[r3 i])
    | L_CMP_LT => NEXTF g (cmp Z.ltb rg.[r2 i] rg.[r3 i])
    | L_CMP_GT => NEXTF g (cmp Zgtb rg.[r2 i] rg.[r3 i])
    | L_JMP => GOTO size g (imm i)
    | L_JZ => if g_flags g =? 0 then GOTO size g (imm i) else NEXT g (Ok rg)
    | L_JNZ => if negb (g_flags g =? 0) then GOTO size g (imm i) else NEXT g (Ok rg)
    | L_MAC => NEXT g (store_add rg (r1 i) (ap2 mul64 rg.[r2 i] rg.[r3 i]))
    | L_DOT => NEXT g (store_add rg (r1 i) (ap2 mul64 rg.[r2 i] rg.[r3 i]))
    | L_POLY => NEXT g (store rg (r1 i) (ap2 add64 (ap2 mul64 rg.[r1 i] rg.[r2 i]) rg.[r3 i]))
    | L_ABS => NEXT g (store rg (r1 i) (ap1 abs64 rg.[r2 i]))
    | L_MIN => NEXT g (store rg (r1 i) (ap2 min64 rg.[r2 i] rg.[r3 i]))
    | L_MAX => NEXT g (store rg (r1 i) (ap2 max64 rg.[r2 i] rg.[r3 i]))
    | L_EXT => let op_idx := op_value (op i) - op_value OP32 in
        NEXT g (store rg (r1 i) (ap2 (ext64 op_idx) rg.[r2 i] rg.[r3 i]))
    end.

(** [DISPATCH()]: the bounds test, the cycle count, the computed goto. *)
Definition body (code : list Instruction) (g : GotoState) : res (GotoState + Z * VMState) :=
    if code_size code <=? g_ip g then LEAVE g
    else
      i ← code.[g_ip g];
      let g' := mkG (g_ip g) (g_flags g) (tick (g_state g)) in
      l ← dispatch_table.[op_value (op i)]; label_body (code_size code) l i g'.

Definition execute (fuel : nat) (code : list Instruction) (s : VMState) : res (Z * VMState) :=
    loop (body code) fuel (mkG 0 0 s).
End DirectThreadedInterpreter.


(** ** Indirect threaded code

    The instructions are first recompiled: each carries the address of its
    label.  [handlers] has the 29 basic labels only. *)

Module IndirectThreadedInterpreter.
Record ITCInstruction : Set := mkITC {
    handler : Label;
    itc_r1 : Z; itc_r2 : Z; itc_r3 : Z;
    itc_op_idx : Z;         (* uint8_t *)
    itc_imm : Z;
  }.

Definition handlers : list Label := basic_labels.

(** The body of the compilation loop. *)
Definition compile_instr (i : Instruction) : res ITCInstruction :=
    let op_idx := op_value (op i) in
    h ← (if op_idx <? NUM_BASIC_OPS then handlers.[op_idx] else Ok L_EXT);
    Ok (mkITC h (r1 i) (r2 i) (r3 i)
          (if op_value OP32 <=? op_idx then u8 (op_idx - op_value OP32) else 0) (imm i)).

Definition compile (code : list Instruction) : res (list ITCInstruction) :=
    fold_left (fun acc i => itc_code ← acc; itc ← compile_instr i; Ok (itc_code ++ [itc]))
      code (Ok []).

(** The code after each label. *)
Definition label_body (size : Z) (l : Label) (i : ITCInstruction) (g : GotoState) :
      res (GotoState + Z * VMState) :=
    let rg := regs (g_state g) in
    match l with
    | L_HALT => LEAVE g
    | L_NOP => NEXT g (Ok rg)
    | L_ADD => NEXT g (store rg (itc_r1 i) (ap2 add64 rg.[itc_r2 i] rg.[itc_r3 i]))
    | L_SUB => NEXT g (store rg (itc_r1 i) (ap2 sub64 rg.[itc_r2 i] rg.[itc_r3 i]))
    | L_MUL => NEXT g (store rg (itc_r1 i) (ap2 mul64 rg.[itc_r2 i] rg.[itc_r3 i]))
    | L_INC => NEXT g (store rg (itc_r1 i) (x ← rg.[itc_r1 i]; add64 x 1))
    | L_DEC => NEXT g (store rg (itc_r1 i) (x ← rg.[itc_r1 i]; sub64 x 1))
    | L_NEG => NEXT g (store rg (itc_r1 i) (ap1 neg64 rg.[itc_r2 i]))
    | L_AND => NEXT g (store rg (itc_r1 i) (ap2 and64 rg.[itc_r2 i] rg.[itc_r3 i]))
    | L_OR => NEXT g (store rg (itc_r1 i) (ap2 or64 rg.[itc_r2 i] rg.[itc_r3 i]))
    | L_XOR => NEXT g (store rg (itc_r1 i) (ap2 xor64 rg.[itc_r2 i] rg.[itc_r3 i]))
    | L_NOT => NEXT g (store rg (itc_r1 i) (ap1 not64 rg.[itc_r2 i]))
    | L_SHL => NEXT g (store rg (itc_r1 i) (ap2 shl64 rg.[itc_r2 i] rg.[itc_r3 i]))
    | L_SHR => NEXT g (store rg (itc_r1 i) (ap2 shr64 rg.[itc_r2 i] rg.[itc_r3 i]))
    | L_LOAD_IMM => NEXT g (store rg (itc_r1 i) (Ok (itc_imm i)))
    | L_LOAD_REG => NEXT g (store rg (itc_r1 i) rg.[itc_r2 i])
    | L_STORE => NEXT g (store rg (itc_r1 i) rg.[itc_r2 i])
    | L_CMP_EQ => NEXTF g (cmp Z.eqb rg.[itc_r2 i] rg.[itc_r3 i])
    | L_CMP_LT => NEXTF g (cmp Z.ltb rg.[itc_r2 i] rg.[itc_r3 i])
    | L_CMP_GT => NEXTF g (cmp Zgtb rg.[itc_r2 i] rg.[itc_r3 i])
    | L_JMP => GOTO size g (itc_imm i)
    | L_JZ => if g_flags g =? 0 then GOTO size g (itc_imm i) else NEXT g (Ok rg)
    | L_JNZ => if negb (g_flags g =? 0) then GOTO size g (itc_imm i) else NEXT g (Ok rg)
    | L_MAC => NEXT g (store_add rg (itc_r1 i) (ap2 mul64 rg.[itc_r2 i] rg.[itc_r3 i]))
    | L_DOT => NEXT g (store_add rg (itc_r1 i) (ap2 mul64 rg.[itc_r2 i] rg.[itc_r3 i]))
    | L_POLY => NEXT g (store rg (itc_r1 i) (ap2 add64 (ap2 mul64 rg.[itc_r1 i] rg.[itc_r2 i]) rg.[itc_r3 i]))
    | L_ABS => NEXT g (store rg (itc_r1 i) (ap1 abs64 rg.[itc_r2 i]))
    | L_MIN => NEXT g (store rg (itc_r1 i) (ap2 min64 rg.[itc_r2 i] rg.[itc_r3 i]))
    | L_MAX => NEXT g (store rg (itc_r1 i) (ap2 max64 rg.[itc_r2 i] rg.[itc_r3 i]))
    | L_EXT => NEXT g (store rg (itc_r1 i) (ap2 (ext64 (itc_op_idx i)) rg.[itc_r2 i] rg.[itc_r3 i]))
    end.

(** [DISPATCH()]: the bounds test, the cycle count, the computed goto. *)
Definition body (code : list ITCInstruction) (g : GotoState) : res (GotoState + Z * VMState) :=
    if code_size code <=? g_ip g then LEAVE g
    else
      i ← code.[g_ip g];
      let g' := mkG (g_ip g) (g_flags g) (tick (g_state g)) in
      label_body (code_size code) (handler i) i g'.

Definition compile_and_execute (fuel : nat) (code : list Instruction) (s : VMState) :
      res (Z * VMState) :=
    itc_code ← compile code; loop (body itc_code) fuel (mkG 0 0 s).

(** [execute_precompiled] is a stub in the source: it returns 0. *)
Definition execute_precompiled (itc_code : list ITCInstruction) (s : VMState) : Z * VMState :=
    (0, s).
End IndirectThreadedInterpreter.


(** ** Token threaded code

    A packed encoding: two register numbers share a byte. *)

Module TokenThreadedInterpreter.
Record CompactInstruction : Set := mkC {
    c_op : Z;               (* uint8_t *)
    r1_r2 : Z;              (* uint8_t: r1 in the high, r2 in the low 4 bits *)
    c_r3 : Z;               (* uint8_t *)
    padding : Z;            (* uint8_t *)
    c_imm : Z;              (* int32_t *)
  }.

Definition R1 (i : CompactInstruction) : Z := Z.shiftr (r1_r2 i) 4.
Definition R2 (i : CompactInstruction) : Z := Z.land (r1_r2 i) 15.
Definition R3 (i : CompactInstruction) : Z := c_r3 i.

(** [(a ^ (ip->op - NUM_BASIC_OPS)) + b]: the subtraction has type [size_t],
      so the whole expression is unsigned. *)
Definition ext_size_t (op a b : Z) : res Z :=
    Ok (s64 (u64 (Z.lxor (u64 a) (u64 (op - NUM_BASIC_OPS)) + u64 b))).

Definition compile_instr (i : Instruction) : CompactInstruction :=
    mkC (u8 (op_value (op i)))
        (u8 (Z.lor (Z.shiftl (Z.land (r1 i) 15) 4) (Z.land (r2 i) 15)))
        (u8 (Z.land (r3 i) 15)) 0 (imm i).

Definition compile (code : list Instruction) : list CompactInstruction :=
    fold_left (fun result i => result ++ [compile_instr i]) code [].

Definition dispatch_table : list Label := basic_labels ++ replicate 32 L_EXT.

(** The code after each label. *)
Definition label_body (size : Z) (l : Label) (i : CompactInstruction) (g : GotoState) :
      res (GotoState + Z * VMState) :=
    let rg := regs (g_state g) in
    match l with
    | L_HALT => LEAVE g
    | L_NOP => NEXT g (Ok rg)
    | L_ADD => NEXT g (store rg (R1 i) (ap2 add64 rg.[R2 i] rg.[R3 i]))
    | L_SUB => NEXT g (store rg (R1 i) (ap2 sub64 rg.[R2 i] rg.[R3 i]))
    | L_MUL => NEXT g (store rg (R1 i) (ap2 mul64 rg.[R2 i] rg.[R3 i]))
    | L_INC => NEXT g (store rg (R1 i) (x ← rg.[R1 i]; add64 x 1))
    | L_DEC => NEXT g (store rg (R1 i) (x ← rg.[R1 i]; sub64 x 1))
    | L_NEG => NEXT g (store rg (R1 i) (ap1 neg64 rg.[R2 i]))
    | L_AND => NEXT g (store rg (R1 i) (ap2 and64 rg.[R2 i] rg.[R3 i]))
    | L_OR => NEXT g (store rg (R1 i) (ap2 or64 rg.[R2 i] rg.[R3 i]))
    | L_XOR => NEXT g (store rg (R1 i) (ap2 xor64 rg.[R2 i] rg.[R3 i]))
    | L_NOT => NEXT g (store rg (R1 i) (ap1 not64 rg.[R2 i]))
    | L_SHL => NEXT g (store rg (R1 i) (ap2 shl64 rg.[R2 i] rg.[R3 i]))
    | L_SHR => NEXT g (store rg (R1 i) (ap2 shr64 rg.[R2 i] rg.[R3 i]))
    | L_LOAD_IMM => NEXT g (store rg (R1 i) (Ok (c_imm i)))
    | L_LOAD_REG => NEXT g (store rg (R1 i) rg.[R2 i])
    | L_STORE => NEXT g (store rg (R1 i) rg.[R2 i])
    | L_CMP_EQ => NEXTF g (cmp Z.eqb rg.[R2 i] rg.[R3 i])
    | L_CMP_LT => NEXTF g (cmp Z.ltb rg.[R2 i] rg.[R3 i])
    | L_CMP_GT => NEXTF g (cmp Zgtb rg.[R2 i] rg.[R3 i])
    | L_JMP => GOTO size g (c_imm i)
    | L_JZ => if g_flags g =? 0 then GOTO size g (c_imm i) else NEXT g (Ok rg)
    | L_JNZ => if negb (g_flags g =? 0) then GOTO size g (c_imm i) else NEXT g (Ok rg)
    | L_MAC => NEXT g (store_add rg (R1 i) (ap2 mul64 rg.[R2 i] rg.[R3 i]))
    | L_DOT => NEXT g (store_add rg (R1 i) (ap2 mul64 rg.[R2 i] rg.[R3 i]))
    | L_POLY => NEXT g (store rg (R1 i) (ap2 add64 (ap2 mul64 rg.[R1 i] rg.[R2 i]) rg.[R3 i]))
    | L_ABS => NEXT g (store rg (R1 i) (ap1 abs64 rg.[R2 i]))
    | L_MIN => NEXT g (store rg (R1 i) (ap2 min64 rg.[R2 i] rg.[R3 i]))
    | L_MAX => NEXT g (store rg (R1 i) (ap2 max64 rg.[R2 i] rg.[R3 i]))
    | L_EXT => NEXT g (store rg (R1 i) (ap2 (ext_size_t (c_op i)) rg.[R2 i] rg.[R3 i]))
    end.

(** [DISPATCH()]: the bounds test, the cycle count, the computed goto. *)
Definition body (code : list CompactInstruction) (g : GotoState) : res (GotoState + Z * VMState) :=
    if code_size code <=? g_ip g then LEAVE g
    else
      i ← code.[g_ip g];
      let g' := mkG (g_ip g) (g_flags g) (tick (g_state g)) in
      l ← dispatch_table.[c_op i]; label_body (code_size code) l i g'.

Definition execute (fuel : nat) (code : list CompactInstruction) (s : VMState) :
      res (Z * VMState) :=
    loop (body code) fuel (mkG 0 0 s).
End TokenThreadedInterpreter.


(** ** Subroutine threaded code

    A table of functions that update the state and return [false] to stop. *)

Module SubroutineThreadedInterpreter.
Definition HandlerFn : Type := VMState -> Instruction -> res (bool * VMState).

(** [DEFINE_HANDLER(name, regs[..] = ..; ++s.ip)] and the forms that set the
      flags or jump; all return [true]. *)
Definition hreg (s : VMState) (rg : res (list Z)) : res (bool * VMState) :=
    rg' ← rg; Ok (true, incr_ip (set_regs s rg')).
Definition hflag (s : VMState) (f : res Z) : res (bool * VMState) :=
    f' ← f; Ok (true, incr_ip (set_flags s f')).

Definition handle_halt : HandlerFn := fun s _ => Ok (false, s).
Definition handle_nop : HandlerFn := fun s _ => Ok (true, incr_ip s).
Definition handle_add : HandlerFn := fun s i =>
    let rg := regs s in hreg s (store rg (r1 i) (ap2 add64 rg.[r2 i] rg.[r3 i])).
Definition handle_sub : HandlerFn := fun s i =>
    let rg := regs s in hreg s (store rg (r1 i) (ap2 sub64 rg.[r2 i] rg.[r3 i])).
Definition handle_mul : HandlerFn := fun s i =>
    let rg := regs s in hreg s (store rg (r1 i) (ap2 mul64 rg.[r2 i] rg.[r3 i])).
Definition handle_inc : HandlerFn := fun s i =>
    let rg := regs s in hreg s (store rg (r1 i) (x ← rg.[r1 i]; add64 x 1)).
Definition handle_dec : HandlerFn := fun s i =>
    let rg := regs s in hreg s (store rg (r1 i) (x ← rg.[r1 i]; sub64 x 1)).
Definition handle_neg : HandlerFn := fun s i =>
    let rg := regs s in hreg s (store rg (r1 i) (ap1 neg64 rg.[r2 i])).
Definition handle_and_op : HandlerFn := fun s i =>
    let rg := regs s in hreg s (store rg (r1 i) (ap2 and64 rg.[r2 i] rg.[r3 i])).
Definition handle_or_op : HandlerFn := fun s i =>
    let rg := regs s in hreg s (store rg (r1 i) (ap2 or64 rg.[r2 i] rg.[r3 i])).
Definition handle_xor_op : HandlerFn := fun s i =>
    let rg := regs s in hreg s (store rg (r1 i) (ap2 xor64 rg.[r2 i] rg.[r3 i])).
Definition handle_not_op : HandlerFn := fun s i =>
    let rg := regs s in hreg s (store rg (r1 i) (ap1 not64 rg.[r2 i])).
Definition handle_shl : HandlerFn := fun s i =>
    let rg := regs s in hreg s (store rg (r1 i) (ap2 shl64 rg.[r2 i] rg.[r3 i])).
Definition handle_shr : HandlerFn := fun s i =>
    let rg := regs s in hreg s (store rg (r1 i) (ap2 shr64 rg.[r2 i] rg.[r3 i])).
Definition handle_load_imm : HandlerFn := fun s i =>
    let rg := regs s in hreg s (store rg (r1 i) (Ok (imm i))).
Definition handle_load_reg : HandlerFn := fun s i =>
    let rg := regs s in hreg s (store rg (r1 i) rg.[r2 i]).
Definition handle_store : HandlerFn := fun s i =>
    let rg := regs s in hreg s (store rg (r1 i) rg.[r2 i]).
Definition handle_cmp_eq : HandlerFn := fun s i =>
    let rg := regs s in hflag s (cmp Z.eqb rg.[r2 i] rg.[r3 i]).
Definition handle_cmp_lt : HandlerFn := fun s i =>
    let rg := regs s in hflag s (cmp Z.ltb rg.[r2 i] rg.[r3 i]).
Definition handle_cmp_gt : HandlerFn := fun s i =>
    let rg := regs s in hflag s (cmp Zgtb rg.[r2 i] rg.[r3 i]).
Definition handle_jmp : HandlerFn := fun s i =>
    Ok (true, set_ip s (u64 (imm i))).
Definition handle_jz : HandlerFn := fun s i =>
    Ok (true, set_ip s (if flags s =? 0 then u64 (imm i) else ip s + 1)).
Definition handle_jnz : HandlerFn := fun s i =>
    Ok (true, set_ip s (if negb (flags s =? 0) then u64 (imm i) else ip s + 1)).
Definition handle_mac : HandlerFn := fun s i =>
    let rg := regs s in hreg s (store_add rg (r1 i) (ap2 mul64 rg.[r2 i] rg.[r3 i])).
Definition handle_dot : HandlerFn := fun s i =>
    let rg := regs s in hreg s (store_add rg (r1 i) (ap2 mul64 rg.[r2 i] rg.[r3 i])).
Definition handle_poly : HandlerFn := fun s i =>
    let rg := regs s in hreg s (store rg (r1 i) (ap2 add64 (ap2 mul64 rg.[r1 i] rg.[r2 i]) rg.[r3 i])).
Definition handle_abs_op : HandlerFn := fun s i =>
    let rg := regs s in hreg s (store rg (r1 i) (ap1 abs64 rg.[r2 i])).
Definition handle_min_op : HandlerFn := fun s i =>
    let rg := regs s in hreg s (store rg (r1 i) (ap2 min64 rg.[r2 i] rg.[r3 i])).
Definition handle_max_op : HandlerFn := fun s i =>
    let rg := regs s in hreg s (store rg (r1 i) (ap2 max64 rg.[r2 i] rg.[r3 i])).
Definition handle_ext : HandlerFn := fun s i =>
    let op_idx := op_value (op i) - op_value OP32 in
    let rg := regs s in
    hreg s (store rg (r1 i) (ap2 (ext64 op_idx) rg.[r2 i] rg.[r3 i])).

Definition handlers : list HandlerFn :=
    [handle_halt; handle_nop; handle_add; handle_sub; handle_mul;
     handle_inc; handle_dec; handle_neg; handle_and_op; handle_or_op;
     handle_xor_op; handle_not_op; handle_shl; handle_shr; handle_load_imm;
     handle_load_reg; handle_store; handle_cmp_eq; handle_cmp_lt; handle_cmp_gt;
     handle_jmp; handle_jz; handle_jnz; handle_mac; handle_dot;
     handle_poly; handle_abs_op; handle_min_op; handle_max_op] ++ replicate 32 handle_ext.

(** [return state.regs[0];] *)
Definition leave (s : VMState) : res (VMState + Z * VMState) :=
    v ← ret0 (regs s); Ok (inr (v, s)).

(** One turn of [while (state.ip < size)]; [break] leaves it. *)
Definition body (code : list Instruction) (s : VMState) : res (VMState + Z * VMState) :=
    if ip s <? code_size code then
      let s := tick s in
      i ← code.[ip s];
      let op_idx := op_value (op i) in
      let op_idx := if code_size handlers <=? op_idx then NUM_BASIC_OPS else op_idx in
      h ← handlers.[op_idx];
      '(go_on, s') ← h s i;
      if (go_on : bool) then Ok (inl s') else leave s'
    else leave s.

Definition execute (fuel : nat) (code : list Instruction) (s : VMState) : res (Z * VMState) :=
    loop (body code) fuel s.
End SubroutineThreadedInterpreter.

(** ** Call threaded code

    Handlers over a context that holds the pointer [ip] and the flags; each
    reads its operands through [ctx.ip]. *)

Module CallThreadedInterpreter.
(** [Context]: [ctx_code] is the span whose data and size the source keeps in
      two fields. *)
Record Context : Type := mkCtx {
    ctx_state : VMState;
    ctx_code : list Instruction;
    ctx_ip : Z;
    ctx_flags : Z;
  }.
Definition Handler : Type := Context -> res Context.

Definition creg (c : Context) (rg : res (list Z)) : res Context :=
    rg' ← rg; Ok (mkCtx (set_regs (ctx_state c) rg') (ctx_code c) (ctx_ip c + 1) (ctx_flags c)).
Definition cflag (c : Context) (f : res Z) : res Context :=
    f' ← f; Ok (mkCtx (ctx_state c) (ctx_code c) (ctx_ip c + 1) f').
Definition cjump (c : Context) (d : Z) : res Context :=
    p ← ptr_at (code_size (ctx_code c)) d;
    Ok (mkCtx (ctx_state c) (ctx_code c) p (ctx_flags c)).

Definition cnext (c : Context) : res Context :=
    Ok (mkCtx (ctx_state c) (ctx_code c) (ctx_ip c + 1) (ctx_flags c)).

(** [CT_HANDLER]: the operands are read through [*ctx.ip]. *)
Definition CT_HANDLER (f : Context -> list Z -> Instruction -> res Context) : Handler :=
    fun c => i ← (ctx_code c).[ctx_ip c]; f c (regs (ctx_state c)) i.

Definition h_halt : Handler := fun c =>
    Ok (mkCtx (ctx_state c) (ctx_code c) (code_size (ctx_code c)) (ctx_flags c)).
Definition h_nop : Handler := cnext.
Definition h_add : Handler := CT_HANDLER (fun c rg i =>
    creg c (store rg (r1 i) (ap2 add64 rg.[r2 i] rg.[r3 i]))).
Definition h_sub : Handler := CT_HANDLER (fun c rg i =>
    creg c (store rg (r1 i) (ap2 sub64 rg.[r2 i] rg.[r3 i]))).
Definition h_mul : Handler := CT_HANDLER (fun c rg i =>
    creg c (store rg (r1 i) (ap2 mul64 rg.[r2 i] rg.[r3 i]))).
Definition h_inc : Handler := CT_HANDLER (fun c rg i =>
    creg c (store rg (r1 i) (x ← rg.[r1 i]; add64 x 1))).
Definition h_dec : Handler := CT_HANDLER (fun c rg i =>
    creg c (store rg (r1 i) (x ← rg.[r1 i]; sub64 x 1))).
Definition h_neg : Handler := CT_HANDLER (fun c rg i =>
    creg c (store rg (r1 i) (ap1 neg64 rg.[r2 i]))).
Definition h_and_op : Handler := CT_HANDLER (fun c rg i =>
    creg c (store rg (r1 i) (ap2 and64 rg.[r2 i] rg.[r3 i]))).
Definition h_or_op : Handler := CT_HANDLER (fun c rg i =>
    creg c (store rg (r1 i) (ap2 or64 rg.[r2 i] rg.[r3 i]))).
Definition h_xor_op : Handler := CT_HANDLER (fun c rg i =>
    creg c (store rg (r1 i) (ap2 xor64 rg.[r2 i] rg.[r3 i]))).
Definition h_not_op : Handler := CT_HANDLER (fun c rg i =>
    creg c (store rg (r1 i) (ap1 not64 rg.[r2 i]))).
Definition h_shl : Handler := CT_HANDLER (fun c rg i =>
    creg c (store rg (r1 i) (ap2 shl64 rg.[r2 i] rg.[r3 i]))).
Definition h_shr : Handler := CT_HANDLER (fun c rg i =>
    creg c (store rg (r1 i) (ap2 shr64 rg.[r2 i] rg.[r3 i]))).
Definition h_load_imm : Handler := CT_HANDLER (fun c rg i =>
    creg c (store rg (r1 i) (Ok (imm i)))).
Definition h_load_reg : Handler := CT_HANDLER (fun c rg i =>
    creg c (store rg (r1 i) rg.[r2 i])).
Definition h_store : Handler := CT_HANDLER (fun c rg i =>
    creg c (store rg (r1 i) rg.[r2 i])).
Definition h_cmp_eq : Handler := CT_HANDLER (fun c rg i =>
    cflag c (cmp Z.eqb rg.[r2 i] rg.[r3 i])).
Definition h_cmp_lt : Handler := CT_HANDLER (fun c rg i =>
    cflag c (cmp Z.ltb rg.[r2 i] rg.[r3 i])).
Definition h_cmp_gt : Handler := CT_HANDLER (fun c rg i =>
    cflag c (cmp Zgtb rg.[r2 i] rg.[r3 i])).
Definition h_jmp : Handler := CT_HANDLER (fun c rg i =>
    cjump c (imm i)).
Definition h_jz : Handler := CT_HANDLER (fun c rg i =>
    if ctx_flags c =? 0 then cjump c (imm i) else cnext c).
Definition h_jnz : Handler := CT_HANDLER (fun c rg i =>
    if negb (ctx_flags c =? 0) then cjump c (imm i) else cnext c).
Definition h_mac : Handler := CT_HANDLER (fun c rg i =>
    creg c (store_add rg (r1 i) (ap2 mul64 rg.[r2 i] rg.[r3 i]))).
Definition h_dot : Handler := CT_HANDLER (fun c rg i =>
    creg c (store_add rg (r1 i) (ap2 mul64 rg.[r2 i] rg.[r3 i]))).
Definition h_poly : Handler := CT_HANDLER (fun c rg i =>
    creg c (store rg (r1 i) (ap2 add64 (ap2 mul64 rg.[r1 i] rg.[r2 i]) rg.[r3 i]))).
Definition h_abs_op : Handler := CT_HANDLER (fun c rg i =>
    creg c (store rg (r1 i) (ap1 abs64 rg.[r2 i]))).
Definition h_min_op : Handler := CT_HANDLER (fun c rg i =>
    creg c (store rg (r1 i) (ap2 min64 rg.[r2 i] rg.[r3 i]))).
Definition h_max_op : Handler := CT_HANDLER (fun c rg i =>
    creg c (store rg (r1 i) (ap2 max64 rg.[r2 i] rg.[r3 i]))).
Definition h_ext : Handler := CT_HANDLER (fun c rg i =>
    let op_idx := op_value (op i) - op_value OP32 in
    creg c (store rg (r1 i) (ap2 (ext64 op_idx) rg.[r2 i] rg.[r3 i]))).

Definition handlers : list Handler :=
    [h_halt; h_nop; h_add; h_sub; h_mul; h_inc; h_dec;
     h_neg; h_and_op; h_or_op; h_xor_op; h_not_op; h_shl; h_shr;
     h_load_imm; h_load_reg; h_store; h_cmp_eq; h_cmp_lt; h_cmp_gt; h_jmp;
     h_jz; h_jnz; h_mac; h_dot; h_poly; h_abs_op; h_min_op;
     h_max_op] ++ replicate 32 h_ext.

(** One turn of [while (ctx.ip < ctx.code + ctx.code_size)]. *)
Definition body (c : Context) : res (Context + Z * VMState) :=
    if ctx_ip c <? code_size (ctx_code c) then
      let c := mkCtx (tick (ctx_state c)) (ctx_code c) (ctx_ip c) (ctx_flags c) in
      i ← (ctx_code c).[ctx_ip c];
      let op_idx := op_value (op i) in
      let op_idx := if code_size handlers <=? op_idx then NUM_BASIC_OPS else op_idx in
      h ← handlers.[op_idx];
      c' ← h c;
      Ok (inl c')
    else v ← ret0 (regs (ctx_state c)); Ok (inr (v, ctx_state c)).

Definition execute (fuel : nat) (code : list Instruction) (s : VMState) : res (Z * VMState) :=
    loop body fuel (mkCtx s code 0 0).
End CallThreadedInterpreter.
