(* ===== verification/VmCorrect.v ===== *)
(** * The interpreters implement one machine

    The [switch] interpreter of [perf/threaded_code/basic.cpp] is taken as the
    reference; the five threaded interpreters are shown to have its behaviour
    on the programs they can run, by simulation diagrams over one turn of
    their loops. *)

From S2P Require Import Prelude VmIsa VmInterp.

(** ** What is observed of a run

    The value returned, the registers and the cycle count.  The computed-goto
    and call-threaded interpreters keep [ip] and [flags] in local variables
    and do not write them back. *)

Definition obs (x : Z * VMState) : Z * list Z * Z :=
  (x.1, regs x.2, cycle_count x.2).

Definition observe (e : nat -> res (Z * VMState)) (n : nat) : res (Z * list Z * Z) :=
  obs <$> e n.

(** ** The programs an interpreter accepts *)

Definition is_jump (o : OpCode) : bool :=
  match o with JMP | JZ | JNZ => true | _ => false end.

(** An opcode that is an enumerator below [NUM_OPCODES]. *)
Definition enumerator (o : OpCode) : bool :=
  match o with NUM_OPCODES | Raw _ => false | _ => true end.

Definition extension (o : OpCode) : bool := enumerator o && (op_value OP32 <=? op_value o).

(** The immediate is an [int32_t], and a jump stays in the program. *)
Definition jump_ok (size : Z) (i : Instruction) : bool :=
  sfits 32 (imm i) && implb (is_jump (op i)) ((0 <=? imm i) && (imm i <=? size)).

Definition reg4 (r : Z) : bool := (0 <=? r) && (r <? 16).

Definition dtc_accepts (code : list Instruction) : bool :=
  forallb (fun i => enumerator (op i) && jump_ok (code_size code) i) code.

Definition stc_accepts (code : list Instruction) : bool :=
  forallb (fun i => enumerator (op i)) code.

Definition itc_accepts (code : list Instruction) : bool :=
  forallb (fun i => enumerator (op i) && jump_ok (code_size code) i &&
                    negb ((29 <=? op_value (op i)) && (op_value (op i) <? 32))) code.

Definition ttc_accepts (code : list Instruction) : bool :=
  forallb (fun i => enumerator (op i) && negb (extension (op i)) &&
                    jump_ok (code_size code) i &&
                    reg4 (r1 i) && reg4 (r2 i) && reg4 (r3 i)) code.

(** ** Simulation relations *)

Definition sim (s : VMState) (g : GotoState) : Prop :=
  0 <= g_ip g /\ ip s = g_ip g /\ flags s = g_flags g /\
  regs s = regs (g_state g) /\ cycle_count s = cycle_count (g_state g).

Definition simR (x y : Z * VMState) : Prop := obs x = obs y.

Abbreviation turn_rel := (res_rel (sum_rel sim simR)).

Ltac sim_fields := repeat constructor; cbn; congruence || lia.

Section endings.
Context (s : VMState) (g : GotoState) (Hsim : sim s g).

Lemma sim_tick : sim (tick s) (mkG (g_ip g) (g_flags g) (tick (g_state g))).
Proof using Hsim. destruct Hsim as (?&?&?&?&?). sim_fields. Qed.

Lemma sim_next rg : turn_rel (SwitchInterpreter.next s rg) (NEXT g rg).
Proof using Hsim.
  destruct Hsim as (?&?&?&?&?). destruct rg; cbn; sim_fields.
Qed.

Lemma sim_nextf f : turn_rel (SwitchInterpreter.nextf s f) (NEXTF g f).
Proof using Hsim.
  destruct Hsim as (?&?&?&?&?). destruct f; cbn; sim_fields.
Qed.

Lemma sim_skip : turn_rel (Ok (inl (incr_ip s))) (NEXT g (Ok (regs (g_state g)))).
Proof using Hsim. destruct Hsim as (?&?&?&?&?). sim_fields. Qed.

Lemma sim_leave : turn_rel (SwitchInterpreter.leave s) (LEAVE g).
Proof using Hsim.
  destruct Hsim as (H0&Hi&Hf&Hr&Hc). unfold SwitchInterpreter.leave, LEAVE. rewrite Hr.
  destruct (ret0 _); cbn; repeat constructor. unfold simR, obs; cbn; congruence.
Qed.

Lemma sim_goto size d :
  0 <= d <= size -> d < 2 ^ 64 ->
  turn_rel (Ok (inl (set_ip s (u64 d)))) (GOTO size g d).
Proof using Hsim.
  intros Hd Hb. destruct Hsim as (?&?&?&?&?). unfold GOTO, ptr_at.
  rewrite (proj2 (andb_true_iff _ _)) by (rewrite !Z.leb_le; lia); cbn.
  rewrite uwrap_id by lia; sim_fields.
Qed.

Lemma sim_jump size d (b : bool) :
  0 <= d <= size -> d < 2 ^ 64 ->
  turn_rel (Ok (inl (set_ip s (if b then u64 d else ip s + 1))))
           (if b then GOTO size g d else NEXT g (Ok (regs (g_state g)))).
Proof using Hsim. intros. destruct b; [by apply sim_goto | apply sim_skip]. Qed.
End endings.

Lemma jump_ok_range size i o :
  jump_ok size i = true -> op i = o -> is_jump o = true ->
  0 <= imm i <= size /\ imm i < 2 ^ 64.
Proof.
  unfold jump_ok. rewrite andb_true_iff, sfits_spec. intros [H1 H2] <- Hj.
  rewrite Hj in H2; cbn in H2. rewrite andb_true_iff, !Z.leb_le in H2. lia.
Qed.

Lemma op_value_range o : enumerator o = true -> 0 <= op_value o < 61.
Proof. by destruct o. Qed.

(** Close a turn: the two sides end in the same way. *)
Ltac sim_end Hsim Hj E :=
  lazymatch goal with
  | |- turn_rel (SwitchInterpreter.next _ _) _ => refine (sim_next _ _ Hsim _)
  | |- turn_rel (SwitchInterpreter.nextf _ _) _ => refine (sim_nextf _ _ Hsim _)
  | |- turn_rel (SwitchInterpreter.leave _) _ => refine (sim_leave _ _ Hsim)
  | |- turn_rel (Ok (inl (incr_ip _))) _ => refine (sim_skip _ _ Hsim)
  | |- turn_rel (Ok (inl (set_ip _ (uwrap _ _)))) _ =>
      refine (sim_goto _ _ Hsim _ _ _ _); apply (jump_ok_range _ _ _ Hj E eq_refl)
  | |- turn_rel (Ok (inl (set_ip _ (if _ then _ else _)))) _ =>
      refine (sim_jump _ _ Hsim _ _ _ _ _); apply (jump_ok_range _ _ _ Hj E eq_refl)
  end.

(** The label the tables hold for an enumerator. *)
Definition label_of (o : OpCode) : Label :=
  match o with
  | HALT => L_HALT | NOP => L_NOP | ADD => L_ADD | SUB => L_SUB | MUL => L_MUL
  | INC => L_INC | DEC => L_DEC | NEG => L_NEG | AND => L_AND | OR => L_OR
  | XOR => L_XOR | NOT => L_NOT | SHL => L_SHL | SHR => L_SHR
  | LOAD_IMM => L_LOAD_IMM | LOAD_REG => L_LOAD_REG | STORE => L_STORE
  | CMP_EQ => L_CMP_EQ | CMP_LT => L_CMP_LT | CMP_GT => L_CMP_GT
  | JMP => L_JMP | JZ => L_JZ | JNZ => L_JNZ | MAC => L_MAC | DOT => L_DOT
  | POLY => L_POLY | ABS => L_ABS | MIN => L_MIN | MAX => L_MAX
  | _ => L_EXT
  end.

Lemma dispatch_table_label o :
  enumerator o = true ->
  DirectThreadedInterpreter.dispatch_table.[op_value o] = Ok (label_of o).
Proof. by destruct o. Qed.

(** ** Direct threaded code *)

Lemma dtc_label size i s g :
  sim s g -> enumerator (op i) = true -> jump_ok size i = true ->
  turn_rel (SwitchInterpreter.dispatch i s)
    (DirectThreadedInterpreter.label_body size (label_of (op i)) i g).
Proof.
  intros Hsim He Hj. pose proof Hsim as (_ & _ & Hf & Hr & _).
  unfold SwitchInterpreter.dispatch, DirectThreadedInterpreter.label_body.
  rewrite Hr, Hf.
  destruct (op i) eqn:E; try discriminate He; cbn [label_of];
    try change (_ && _) with true; cbn iota; sim_end Hsim Hj E.
Qed.

(** A goto interpreter whose code array [codeT] corresponds to [code] and whose
    turns simulate the [switch] has the behaviour of the reference. *)
Section goto_interpreters.
Context {I : Set} (code : list Instruction) (codeT : list I).
Context (exec_label : I -> GotoState -> res (GotoState + Z * VMState)).
Context (bodyT : GotoState -> res (GotoState + Z * VMState)).
Context (bodyT_eq : forall g, bodyT g =
  if code_size codeT <=? g_ip g then LEAVE g
  else i ← codeT.[g_ip g];
       exec_label i (mkG (g_ip g) (g_flags g) (tick (g_state g)))).
Context (turn : Forall2 (fun i j => forall s g,
  sim s g -> turn_rel (SwitchInterpreter.dispatch i s) (exec_label j g)) code codeT).

Lemma goto_body s g :
  sim s g -> turn_rel (SwitchInterpreter.body code s) (bodyT g).
Proof using turn bodyT_eq.
  intros Hsim. pose proof Hsim as (H0 & Hi & _). rewrite bodyT_eq.
  unfold SwitchInterpreter.body, code_size in *. rewrite Hi.
  rewrite <- (Forall2_length turn).
  rewrite Z.leb_antisym. destruct (Z.ltb_spec (g_ip g) (Z.of_nat (length code))) as [Hlt|_];
    cbn [negb]; [|by apply sim_leave].
  destruct (at_index_ok code (g_ip g)) as (i & -> & Hc); [lia|].
  destruct (Forall2_lookup_l _ _ _ _ _ turn Hc) as (j & Hj & Ht).
  rewrite (at_index_lookup codeT _ j) by done.
  apply Ht, sim_tick, Hsim.
Qed.

Lemma goto_loop n s :
  ip s = 0 -> flags s = 0 ->
  obs <$> SwitchInterpreter.execute n code s = obs <$> loop bodyT n (mkG 0 0 s).
Proof using turn bodyT_eq.
  intros Hi Hf. apply res_rel_fmap, (loop_sim _ _ sim simR); [apply goto_body|].
  repeat split; cbn; done || lia.
Qed.
End goto_interpreters.

Lemma dtc_lockstep n code s :
  dtc_accepts code = true -> ip s = 0 -> flags s = 0 ->
  obs <$> SwitchInterpreter.execute n code s =
  obs <$> DirectThreadedInterpreter.execute n code s.
Proof.
  intros Hc Hi Hf. apply (goto_loop code code (fun i g =>
    l ← DirectThreadedInterpreter.dispatch_table.[op_value (op i)];
    DirectThreadedInterpreter.label_body (code_size code) l i g)); [reflexivity | | done..].
  apply Forall_Forall2_diag, Forall_forall. intros i Hin s' g Hsim.
  apply (forallb_elem _ _ _ Hc), andb_true_iff in Hin as [He Hj].
  rewrite dispatch_table_label by done. by apply dtc_label.
Qed.


(** ** Indirect threaded code *)

Lemma itc_compile_app code acc :
  fold_left (fun acc i => itc_code ← acc; itc ← IndirectThreadedInterpreter.compile_instr i;
                          Ok (itc_code ++ [itc])) code acc =
  (a ← acc; b ← IndirectThreadedInterpreter.compile code; Ok (a ++ b)).
Proof.
  unfold IndirectThreadedInterpreter.compile. revert acc.
  induction code as [|i code IH]; intros acc; cbn [fold_left].
  - destruct acc; cbn; [by rewrite app_nil_r | done..].
  - rewrite IH, (IH (x ← Ok []; _)).
    destruct acc; [|done..]. destruct (IndirectThreadedInterpreter.compile_instr i); [|done..].
    cbn. destruct (fold_left _ _ _); cbn; [|done..]. by rewrite <- app_assoc.
Qed.

Lemma itc_compile_cons i code :
  IndirectThreadedInterpreter.compile (i :: code) =
  (x ← IndirectThreadedInterpreter.compile_instr i;
   l ← IndirectThreadedInterpreter.compile code; Ok (x :: l)).
Proof.
  unfold IndirectThreadedInterpreter.compile at 1. cbn [fold_left].
  rewrite itc_compile_app. by destruct (IndirectThreadedInterpreter.compile_instr i).
Qed.

Definition itc_of (i : Instruction) : IndirectThreadedInterpreter.ITCInstruction :=
  IndirectThreadedInterpreter.mkITC (label_of (op i)) (r1 i) (r2 i) (r3 i)
    (if extension (op i) then op_value (op i) - 29 else 0) (imm i).

(** The recompiled form of an instruction whose opcode is not 29, 30 or 31. *)
Lemma itc_compile_instr i :
  enumerator (op i) = true ->
  negb ((29 <=? op_value (op i)) && (op_value (op i) <? 32)) = true ->
  IndirectThreadedInterpreter.compile_instr i =
  Ok (itc_of i).
Proof. destruct i as [o ? ? ? ?]; cbn [op]. by destruct o. Qed.

Lemma itc_label size i j s g :
  sim s g -> enumerator (op i) = true -> jump_ok size i = true ->
  j = itc_of i ->
  turn_rel (SwitchInterpreter.dispatch i s)
    (IndirectThreadedInterpreter.label_body size (IndirectThreadedInterpreter.handler j) j g).
Proof.
  intros Hsim He Hj ->. pose proof Hsim as (_ & _ & Hf & Hr & _). unfold itc_of.
  unfold SwitchInterpreter.dispatch, IndirectThreadedInterpreter.label_body.
  cbn [IndirectThreadedInterpreter.handler IndirectThreadedInterpreter.itc_r1
       IndirectThreadedInterpreter.itc_r2 IndirectThreadedInterpreter.itc_r3
       IndirectThreadedInterpreter.itc_op_idx IndirectThreadedInterpreter.itc_imm].
  rewrite Hr, Hf.
  destruct (op i) eqn:E; try discriminate He; cbn [label_of];
    try change (_ && _) with true; cbn iota; sim_end Hsim Hj E.
Qed.

Lemma itc_accepts_compile code :
  itc_accepts code = true ->
  exists codeT, IndirectThreadedInterpreter.compile code = Ok codeT /\
    Forall2 (fun i j => forall s g, sim s g ->
      turn_rel (SwitchInterpreter.dispatch i s)
        (IndirectThreadedInterpreter.label_body (code_size code)
           (IndirectThreadedInterpreter.handler j) j g)) code codeT.
Proof.
  unfold itc_accepts. rewrite forallb_Forall. generalize (code_size code); intros size.
  induction 1 as [|i code Hi _ (codeT & Hc & IH)]; [by exists []; repeat constructor|].
  rewrite !andb_true_iff in Hi. destruct Hi as [[He Hj] Hn].
  rewrite itc_compile_cons, itc_compile_instr by done; cbn. rewrite Hc; cbn.
  eexists. split; [done|]. constructor; [|done].
  intros s g Hsim. by apply itc_label.
Qed.

Lemma itc_lockstep n code s :
  itc_accepts code = true -> ip s = 0 -> flags s = 0 ->
  obs <$> SwitchInterpreter.execute n code s =
  obs <$> IndirectThreadedInterpreter.compile_and_execute n code s.
Proof.
  intros Hc Hi Hf. destruct (itc_accepts_compile code Hc) as (codeT & Hcomp & Hturn).
  unfold IndirectThreadedInterpreter.compile_and_execute. rewrite Hcomp; cbn [mbind res_bind].
  apply (goto_loop code codeT (fun j g => IndirectThreadedInterpreter.label_body
    (code_size codeT) (IndirectThreadedInterpreter.handler j) j g)); [reflexivity | | done..].
  unfold code_size in *. by rewrite <- (Forall2_length Hturn).
Qed.

(** ** Token threaded code *)

Lemma ttc_compile_map code :
  TokenThreadedInterpreter.compile code = TokenThreadedInterpreter.compile_instr <$> code.
Proof.
  unfold TokenThreadedInterpreter.compile.
  enough (forall acc, fold_left (fun r i => r ++ [TokenThreadedInterpreter.compile_instr i])
    code acc = acc ++ (TokenThreadedInterpreter.compile_instr <$> code)) as H by apply H.
  induction code as [|i code IH]; intros acc; cbn; [by rewrite app_nil_r|].
  by rewrite IH, <- app_assoc.
Qed.

Lemma reg4_spec r : reg4 r = true <-> 0 <= r < 16.
Proof. unfold reg4. rewrite andb_true_iff, Z.leb_le, Z.ltb_lt. done. Qed.

(** Packing two register numbers into a byte, and unpacking them. *)
Definition nibbles_ok (a b : Z) : bool :=
  let p := u8 (Z.lor (Z.shiftl (Z.land a 15) 4) (Z.land b 15)) in
  (Z.shiftr p 4 =? a) && (Z.land p 15 =? b) && (u8 (Z.land b 15) =? b).

Lemma nibbles a b : 0 <= a < 16 -> 0 <= b < 16 -> nibbles_ok a b = true.
Proof.
  intros Ha Hb.
  assert (forallb (fun a => forallb (nibbles_ok a) (seqZ 0 16)) (seqZ 0 16) = true) as H
    by (vm_compute; reflexivity).
  pose proof (range_check _ _ H a Ha) as Hr; cbv beta in Hr.
  exact (range_check _ _ Hr b Hb).
Qed.

(** The accessors of the packed form give back the operands. *)
Lemma ttc_operands i :
  reg4 (r1 i) = true -> reg4 (r2 i) = true -> reg4 (r3 i) = true ->
  TokenThreadedInterpreter.R1 (TokenThreadedInterpreter.compile_instr i) = r1 i /\
  TokenThreadedInterpreter.R2 (TokenThreadedInterpreter.compile_instr i) = r2 i /\
  TokenThreadedInterpreter.R3 (TokenThreadedInterpreter.compile_instr i) = r3 i.
Proof.
  rewrite !reg4_spec. intros H1 H2 H3.
  pose proof (nibbles _ _ H1 H2) as Ha. pose proof (nibbles _ _ H1 H3) as Hb.
  unfold nibbles_ok in Ha, Hb. rewrite !andb_true_iff, !Z.eqb_eq in Ha, Hb.
  destruct Ha as [[Ha1 Ha2] _], Hb as [_ Hb3]. done.
Qed.

Lemma ttc_op i :
  enumerator (op i) = true ->
  TokenThreadedInterpreter.c_op (TokenThreadedInterpreter.compile_instr i) = op_value (op i).
Proof. intros He%op_value_range. cbn. apply uwrap_id. lia. Qed.

Lemma ttc_label size i j s g :
  sim s g -> enumerator (op i) = true -> extension (op i) = false -> jump_ok size i = true ->
  TokenThreadedInterpreter.R1 j = r1 i -> TokenThreadedInterpreter.R2 j = r2 i ->
  TokenThreadedInterpreter.R3 j = r3 i -> TokenThreadedInterpreter.c_imm j = imm i ->
  turn_rel (SwitchInterpreter.dispatch i s)
    (TokenThreadedInterpreter.label_body size (label_of (op i)) j g).
Proof.
  intros Hsim He Hx Hj H1 H2 H3 H4. pose proof Hsim as (_ & _ & Hf & Hr & _).
  unfold SwitchInterpreter.dispatch, TokenThreadedInterpreter.label_body.
  rewrite Hr, Hf, H1, H2, H3, H4.
  destruct (op i) eqn:E; try discriminate He; try discriminate Hx; cbn [label_of];
    sim_end Hsim Hj E.
Qed.

Lemma ttc_lockstep n code s :
  ttc_accepts code = true -> ip s = 0 -> flags s = 0 ->
  obs <$> SwitchInterpreter.execute n code s =
  obs <$> TokenThreadedInterpreter.execute n (TokenThreadedInterpreter.compile code) s.
Proof.
  intros Hc Hi Hf. rewrite ttc_compile_map.
  apply (goto_loop code (TokenThreadedInterpreter.compile_instr <$> code) (fun j g =>
    l ← TokenThreadedInterpreter.dispatch_table.[TokenThreadedInterpreter.c_op j];
    TokenThreadedInterpreter.label_body
      (code_size (TokenThreadedInterpreter.compile_instr <$> code)) l j g));
    [reflexivity | | done..].
  unfold code_size. rewrite length_fmap.
  apply Forall2_fmap_r, Forall_Forall2_diag, Forall_forall. intros i Hin s' g Hsim.
  apply (forallb_elem _ _ _ Hc) in Hin. rewrite !andb_true_iff, negb_true_iff in Hin.
  destruct Hin as [[[[[He Hx] Hj] H1] H2] H3].
  destruct (ttc_operands i H1 H2 H3) as (E1 & E2 & E3).
  rewrite ttc_op by done.
  change TokenThreadedInterpreter.dispatch_table with DirectThreadedInterpreter.dispatch_table.
  rewrite dispatch_table_label by done. by apply ttc_label.
Qed.

(** ** Subroutine threaded code *)

Section subroutine.
Import SubroutineThreadedInterpreter.

(** The handler the table holds for an enumerator. *)
Definition handler_of (o : OpCode) : HandlerFn :=
match o with
| HALT => handle_halt | NOP => handle_nop | ADD => handle_add
| SUB => handle_sub | MUL => handle_mul | INC => handle_inc
| DEC => handle_dec | NEG => handle_neg | AND => handle_and_op
| OR => handle_or_op | XOR => handle_xor_op | NOT => handle_not_op
| SHL => handle_shl | SHR => handle_shr | LOAD_IMM => handle_load_imm
| LOAD_REG => handle_load_reg | STORE => handle_store | CMP_EQ => handle_cmp_eq
| CMP_LT => handle_cmp_lt | CMP_GT => handle_cmp_gt | JMP => handle_jmp
| JZ => handle_jz | JNZ => handle_jnz | MAC => handle_mac
| DOT => handle_dot | POLY => handle_poly | ABS => handle_abs_op
| MIN => handle_min_op | MAX => handle_max_op
| _ => handle_ext
end.

Lemma handlers_of o : enumerator o = true -> handlers.[op_value o] = Ok (handler_of o).
Proof. by destruct o. Qed.

(** What the loop does with the value of a handler. *)
Definition handled (x : bool * VMState) : res (VMState + Z * VMState) :=
let '(go_on, s') := x in if go_on then Ok (inl s') else leave s'.

Lemma handled_reg s rg : (hreg s rg ≫= handled) = SwitchInterpreter.next s rg.
Proof. by destruct rg. Qed.

Lemma handled_flag s f : (hflag s f ≫= handled) = SwitchInterpreter.nextf s f.
Proof. by destruct f. Qed.

Lemma stc_dispatch i s :
enumerator (op i) = true ->
(handler_of (op i) s i ≫= handled) = SwitchInterpreter.dispatch i s.
Proof.
intros He. unfold SwitchInterpreter.dispatch.
destruct (op i) eqn:E; try discriminate He; cbn [handler_of];
  try change (_ && _) with true; cbn iota;
  lazymatch goal with
  | |- _ = SwitchInterpreter.next _ _ => rewrite <- handled_reg
  | |- _ = SwitchInterpreter.nextf _ _ => rewrite <- handled_flag
  | |- _ => idtac
  end; (reflexivity || unfold handle_ext; by rewrite E).
Qed.

Lemma stc_body code s :
stc_accepts code = true -> body code s = SwitchInterpreter.body code s.
Proof.
intros Hc. unfold body, SwitchInterpreter.body.
destruct (Z.ltb_spec (ip s) (code_size code)) as [Hlt|_]; [|done].
change (ip (tick s)) with (ip s).
destruct (code.[ip s]) as [i| |] eqn:Hi; [|done..]; cbn [mbind res_bind].
apply at_index_inv in Hi as [_ Hi%list_elem_of_lookup_2].
apply list_elem_of_In, (forallb_elem _ _ _ Hc) in Hi.
pose proof (op_value_range _ Hi) as Hv.
change (code_size handlers) with 61. rewrite (proj2 (Z.leb_gt 61 _)) by lia.
rewrite handlers_of by done. by apply stc_dispatch.
Qed.

Lemma stc_lockstep n code s :
stc_accepts code = true ->
SwitchInterpreter.execute n code s = execute n code s.
Proof. intros Hc. apply loop_ext. intros s'. by rewrite stc_body. Qed.
End subroutine.

(** ** Call threaded code *)

Section call.
Import CallThreadedInterpreter.

Definition chandler_of (o : OpCode) : Handler :=
match o with
| HALT => h_halt | NOP => h_nop | ADD => h_add | SUB => h_sub
| MUL => h_mul | INC => h_inc | DEC => h_dec | NEG => h_neg
| AND => h_and_op | OR => h_or_op | XOR => h_xor_op | NOT => h_not_op
| SHL => h_shl | SHR => h_shr | LOAD_IMM => h_load_imm | LOAD_REG => h_load_reg
| STORE => h_store | CMP_EQ => h_cmp_eq | CMP_LT => h_cmp_lt | CMP_GT => h_cmp_gt
| JMP => h_jmp | JZ => h_jz | JNZ => h_jnz | MAC => h_mac
| DOT => h_dot | POLY => h_poly | ABS => h_abs_op | MIN => h_min_op
| MAX => h_max_op
| _ => h_ext
end.

Lemma chandlers_of o : enumerator o = true -> handlers.[op_value o] = Ok (chandler_of o).
Proof. by destruct o. Qed.

Context (code : list Instruction).

Definition simC (s : VMState) (c : Context) : Prop :=
sim s (mkG (ctx_ip c) (ctx_flags c) (ctx_state c)) /\ ctx_code c = code.

Abbreviation cturn_rel := (res_rel (sum_rel simC simR)).

Definition resume (c : res Context) : res (Context + Z * VMState) := c' ← c; Ok (inl c').

Section cendings.
Context (s : VMState) (c : Context) (Hsim : simC s c).

Lemma simC_reg rg : cturn_rel (SwitchInterpreter.next s rg) (resume (creg c rg)).
Proof using Hsim.
  destruct Hsim as [(?&?&?&?&?) ?]. destruct rg; cbn; repeat constructor; cbn in *; congruence || lia.
Qed.

Lemma simC_flag f : cturn_rel (SwitchInterpreter.nextf s f) (resume (cflag c f)).
Proof using Hsim.
  destruct Hsim as [(?&?&?&?&?) ?]. destruct f; cbn; repeat constructor; cbn in *; congruence || lia.
Qed.

Lemma simC_skip : cturn_rel (Ok (inl (incr_ip s))) (resume (cnext c)).
Proof using Hsim.
  destruct Hsim as [(?&?&?&?&?) ?]. cbn. repeat constructor; cbn in *; congruence || lia.
Qed.

Lemma simC_jump d (b : bool) :
  0 <= d <= code_size code -> d < 2 ^ 64 ->
  cturn_rel (Ok (inl (set_ip s (if b then u64 d else ip s + 1))))
            (resume (if b then cjump c d else cnext c)).
Proof using Hsim.
  intros Hd Hb. destruct b; [|apply simC_skip].
  destruct Hsim as [(?&?&?&?&?) Hc]. unfold cjump, ptr_at. rewrite Hc.
  rewrite (proj2 (andb_true_iff _ _)) by (rewrite !Z.leb_le; lia); cbn.
  rewrite uwrap_id by lia. repeat constructor; cbn in *; congruence || lia.
Qed.
End cendings.

Lemma ctc_dispatch i s c :
simC s c -> code.[ctx_ip c] = Ok i -> enumerator (op i) = true -> op i <> HALT ->
jump_ok (code_size code) i = true ->
cturn_rel (SwitchInterpreter.dispatch i s) (resume (chandler_of (op i) c)).
Proof.
intros Hsim Hi He Hh Hj. pose proof Hsim as [(_ & _ & Hf & Hr & _) Hc]; cbn in Hf, Hr.
unfold SwitchInterpreter.dispatch. rewrite Hr, Hf.
assert (forall f, CT_HANDLER f c = f c (regs (ctx_state c)) i) as HCT.
{ intros f. unfold CT_HANDLER. by rewrite Hc, Hi. }
destruct (op i) eqn:E; try discriminate He; try contradiction; cbn [chandler_of];
  try change (_ && _) with true; cbn iota;
  match goal with |- context [resume (?h c)] => unfold h end; rewrite ?HCT; cbv beta;
  lazymatch goal with
  | |- cturn_rel (SwitchInterpreter.next _ _) _ =>
      rewrite ?E; refine (simC_reg _ _ Hsim _)
  | |- cturn_rel (SwitchInterpreter.nextf _ _) _ => refine (simC_flag _ _ Hsim _)
  | |- cturn_rel (Ok (inl (incr_ip _))) _ => refine (simC_skip _ _ Hsim)
  | |- cturn_rel (Ok (inl (set_ip _ (uwrap _ _)))) _ =>
      refine (simC_jump _ _ Hsim _ true _ _); apply (jump_ok_range _ _ _ Hj E eq_refl)
  | |- cturn_rel _ _ =>
      refine (simC_jump _ _ Hsim _ _ _ _); apply (jump_ok_range _ _ _ Hj E eq_refl)
  end.
Qed.

(** One turn; [HALT] moves the pointer to the end, and the next turn leaves. *)
Lemma ctc_body s c :
dtc_accepts code = true -> simC s c ->
cturn_rel (SwitchInterpreter.body code s) (body c) \/
exists c', body c = Ok (inl c') /\
  res_rel (sum_rel (fun _ _ => False) simR) (SwitchInterpreter.body code s) (body c').
Proof.
intros Hc Hsim. pose proof Hsim as [(H0 & Hi & Hf & Hr & Hcy) Hcode]; cbn in H0, Hi, Hr, Hcy.
unfold SwitchInterpreter.body, body at 1 2. rewrite Hi, Hcode.
destruct (Z.ltb_spec (ctx_ip c) (code_size code)) as [Hlt|_].
2: { left. unfold SwitchInterpreter.leave. rewrite Hr.
     destruct (ret0 _); cbn; repeat constructor. unfold simR, obs; cbn; congruence. }
destruct (at_index_ok code (ctx_ip c)) as (i & Ei & Hl); [unfold code_size in Hlt; lia|].
cbn [ctx_code ctx_ip ctx_state ctx_flags]. rewrite Ei; cbn [mbind res_bind].
apply list_elem_of_lookup_2, list_elem_of_In, (forallb_elem _ _ _ Hc) in Hl.
apply andb_true_iff in Hl as [He Hj].
pose proof (op_value_range _ He) as Hv.
change (code_size handlers) with 61. rewrite (proj2 (Z.leb_gt 61 _)) by lia.
rewrite chandlers_of by done. cbn [mbind res_bind].
destruct (decide (op i = HALT)) as [E|E].
- right. rewrite E; cbn [chandler_of h_halt]. eexists. split; [reflexivity|].
  unfold SwitchInterpreter.dispatch, SwitchInterpreter.leave, body. rewrite E.
  cbn [ctx_code ctx_ip ctx_state regs tick]. rewrite Z.ltb_irrefl, Hr.
  destruct (ret0 _); cbn; repeat constructor. unfold simR, obs; cbn. by rewrite Hcy, Hr.
- left. apply ctc_dispatch; try done. split; [|done].
  repeat split; cbn; done || congruence.
Qed.
End call.

Lemma ctc_late code s n :
  dtc_accepts code = true -> ip s = 0 -> flags s = 0 ->
  (SwitchInterpreter.execute n code s = NoFuel ->
   CallThreadedInterpreter.execute n code s = NoFuel) /\
  (SwitchInterpreter.execute n code s <> NoFuel ->
   obs <$> CallThreadedInterpreter.execute (S n) code s =
   obs <$> SwitchInterpreter.execute n code s).
Proof.
  intros Hc Hi Hf.
  destruct (loop_sim_late (SwitchInterpreter.body code) CallThreadedInterpreter.body
    (simC code) simR (fun s1 c => ctc_body code s1 c Hc) n s
    (CallThreadedInterpreter.mkCtx s code 0 0)) as [H1 H2].
  { repeat split; cbn; done || lia. }
  split; [exact H1|]. intros Hne. symmetry. apply res_rel_fmap, H2, Hne.
Qed.

(** ** The interface of an interpreter

    What [BM_Interpreter<Interpreter>] relies on: on the programs it accepts,
    an interpreter started on a reset machine behaves as the [switch]. *)

Class ThreadedInterpreter (exec : nat -> list Instruction -> VMState -> res (Z * VMState))
    (accepts : list Instruction -> bool) : Prop :=
  implements_switch code s :
    accepts code = true -> ip s = 0 -> flags s = 0 ->
    observe (fun n => SwitchInterpreter.execute n code s) ≃ observe (fun n => exec n code s).

Definition ttc_execute (n : nat) (code : list Instruction) (s : VMState) : res (Z * VMState) :=
  TokenThreadedInterpreter.execute n (TokenThreadedInterpreter.compile code) s.

#[export] Instance switch_interpreter :
  ThreadedInterpreter SwitchInterpreter.execute (fun _ => true).
Proof. done. Qed.

#[export] Instance dtc_interpreter :
  ThreadedInterpreter DirectThreadedInterpreter.execute dtc_accepts.
Proof. intros code s Hc Hi Hf. apply equiv_lockstep. intros n. by apply dtc_lockstep. Qed.

#[export] Instance itc_interpreter :
  ThreadedInterpreter IndirectThreadedInterpreter.compile_and_execute itc_accepts.
Proof. intros code s Hc Hi Hf. apply equiv_lockstep. intros n. by apply itc_lockstep. Qed.

#[export] Instance ttc_interpreter : ThreadedInterpreter ttc_execute ttc_accepts.
Proof. intros code s Hc Hi Hf. apply equiv_lockstep. intros n. by apply ttc_lockstep. Qed.

#[export] Instance stc_interpreter :
  ThreadedInterpreter SubroutineThreadedInterpreter.execute stc_accepts.
Proof.
  intros code s Hc Hi Hf. apply equiv_lockstep. intros n.
  unfold observe. by rewrite stc_lockstep.
Qed.

#[export] Instance ctc_interpreter :
  ThreadedInterpreter CallThreadedInterpreter.execute dtc_accepts.
Proof.
  intros code s Hc Hi Hf. apply equiv_late.
  - apply stable_fmap, stable_loop.
  - intros n. unfold observe. rewrite !fmap_nofuel. by apply ctc_late.
  - intros n. unfold observe. rewrite fmap_nofuel. by apply ctc_late.
Qed.

(** Interpreters are interchangeable on the programs both accept. *)
Lemma interpreters_agree e1 a1 e2 a2
    `{ThreadedInterpreter e1 a1, ThreadedInterpreter e2 a2} code s :
  a1 code = true -> a2 code = true -> ip s = 0 -> flags s = 0 ->
  observe (fun n => e1 n code s) ≃ observe (fun n => e2 n code s).
Proof.
  intros. rewrite <- (implements_switch (exec := e1)) by done.
  by apply implements_switch.
Qed.

(** The token-threaded interpreter is the most demanding one. *)
Lemma ttc_dtc_accepts code : ttc_accepts code = true -> dtc_accepts code = true.
Proof.
  unfold ttc_accepts, dtc_accepts. rewrite !forallb_Forall. intros Hc.
  eapply Forall_impl; [|exact Hc]. intros i. rewrite !andb_true_iff. tauto.
Qed.

Lemma ttc_itc_accepts code : ttc_accepts code = true -> itc_accepts code = true.
Proof.
  unfold ttc_accepts, itc_accepts. rewrite !forallb_Forall. intros Hc.
  eapply Forall_impl; [|exact Hc]. intros i. rewrite !andb_true_iff, !negb_true_iff.
  intros [[[[[He Hx] Hj] _] _] _]. split_and!; [done..|].
  unfold extension in Hx. rewrite He in Hx; cbn -[op_value Z.leb] in Hx.
  change (op_value OP32) with 29 in Hx. by rewrite Hx.
Qed.

Lemma dtc_stc_accepts code : dtc_accepts code = true -> stc_accepts code = true.
Proof.
  unfold dtc_accepts, stc_accepts. rewrite !forallb_Forall. intros Hc.
  eapply Forall_impl; [|exact Hc]. by intros i [He _]%andb_true_iff.
Qed.

(** * Type invariant of the virtual machine

    Registers hold [int64_t] values, flags are 0 or 1, the instruction pointer
    and the cycle count fit their types; every turn of the reference
    interpreter preserves this. *)

Lemma sfits_mono w1 w2 z : 0 < w1 <= w2 -> sfits w1 z = true -> sfits w2 z = true.
Proof.
  rewrite !sfits_spec. intros Hw Hz.
  pose proof (Z.pow_le_mono_r 2 (w1 - 1) (w2 - 1)). lia.
Qed.

(** A value fits when its bits from the sign bit on are all equal. *)
Lemma sfits_shiftr w z :
  0 < w -> sfits w z = true <-> Z.shiftr z (w - 1) = 0 \/ Z.shiftr z (w - 1) = -1.
Proof.
  intros Hw. rewrite sfits_spec, Z.shiftr_div_pow2 by lia.
  pose proof (Z.pow_pos_nonneg 2 (w - 1)) as Hp.
  pose proof (Z.div_mod z (2 ^ (w - 1))) as Hd.
  pose proof (Z.mod_pos_bound z (2 ^ (w - 1))) as Hm. split; intros H; nia.
Qed.

Section bitwise.
Context (a b : Z) (Ha : reg_ok a) (Hb : reg_ok b).

Lemma land_ok : reg_ok (Z.land a b).
Proof using Ha Hb.
  apply sfits_shiftr in Ha, Hb; try lia. apply sfits_shiftr; [lia|].
  rewrite Z.shiftr_land. destruct Ha as [-> | ->], Hb as [-> | ->]; auto.
Qed.

Lemma lor_ok : reg_ok (Z.lor a b).
Proof using Ha Hb.
  apply sfits_shiftr in Ha, Hb; try lia. apply sfits_shiftr; [lia|].
  rewrite Z.shiftr_lor. destruct Ha as [-> | ->], Hb as [-> | ->]; auto.
Qed.

Lemma lxor_ok : reg_ok (Z.lxor a b).
Proof using Ha Hb.
  apply sfits_shiftr in Ha, Hb; try lia. apply sfits_shiftr; [lia|].
  rewrite Z.shiftr_lxor. destruct Ha as [-> | ->], Hb as [-> | ->]; auto.
Qed.

Lemma lnot_ok : reg_ok (Z.lnot a).
Proof using Ha.
  clear Hb. unfold reg_ok in Ha |- *. rewrite sfits_spec in Ha |- *. unfold Z.lnot. lia.
Qed.
End bitwise.

(** ** Expressions have [int64_t] values *)

Create HintDb vm_ok discriminated.

Lemma s64_value_ok z : okp reg_ok (s64_value z).
Proof. unfold s64_value, check. by destruct (sfits 64 z) eqn:E. Qed.

Lemma reg_read_ok rg i : Forall reg_ok rg -> okp reg_ok rg.[i].
Proof.
  intros Hf. destruct rg.[i] as [x| |] eqn:E; [|done..]. cbn.
  apply at_index_inv in E as [_ E]. by eapply Forall_lookup_1 in E.
Qed.

Lemma ap1_ok f a :
  (forall x, reg_ok x -> okp reg_ok (f x)) -> okp reg_ok a -> okp reg_ok (ap1 f a).
Proof. intros Hf Ha. apply okp_bind. eapply okp_mono; [|done]. auto. Qed.

Lemma ap2_ok f a b :
  (forall x y, reg_ok x -> reg_ok y -> okp reg_ok (f x y)) ->
  okp reg_ok a -> okp reg_ok b -> okp reg_ok (ap2 f a b).
Proof.
  intros Hf Ha Hb. destruct a as [x| |]; [|done..]. destruct b as [y| |]; [|done..].
  cbn in *. auto.
Qed.

Lemma store_ok rg d e : regs_ok rg -> okp reg_ok e -> okp regs_ok (store rg d e).
Proof.
  intros [Hl Hf] He. destruct e as [x| |]; [|done..]. cbn in *.
  destruct rg.[d <- x] as [rg'| |] eqn:E; [|done..].
  apply set_index_inv in E as [_ ->]. split; [by rewrite length_insert|].
  by apply Forall_insert.
Qed.

Lemma store_add_ok rg d e : regs_ok rg -> okp regs_ok (store_add rg d e).
Proof.
  intros Hr. apply store_ok; [done|]. apply okp_bind. eapply okp_mono; [|apply okp_True].
  intros y _. apply okp_bind. eapply okp_mono; [|apply okp_True]. intros; apply s64_value_ok.
Qed.

Section operators.
Context (x y : Z).
Implicit Types k : Z.

Lemma add64_ok : okp reg_ok (add64 x y). Proof. apply s64_value_ok. Qed.
Lemma sub64_ok : okp reg_ok (sub64 x y). Proof. apply s64_value_ok. Qed.
Lemma mul64_ok : okp reg_ok (mul64 x y). Proof. apply s64_value_ok. Qed.
Lemma neg64_ok : okp reg_ok (neg64 x). Proof. apply s64_value_ok. Qed.
Lemma abs64_ok : okp reg_ok (abs64 x). Proof. apply s64_value_ok. Qed.
Lemma ext64_ok k : okp reg_ok (ext64 k x y). Proof. apply s64_value_ok. Qed.
Lemma shl64_ok : okp reg_ok (shl64 x y). Proof. by apply sfits_swrap. Qed.
Lemma shr64_ok : okp reg_ok (shr64 x y). Proof. by apply sfits_swrap. Qed.
Lemma and64_ok : reg_ok x -> reg_ok y -> okp reg_ok (and64 x y). Proof. apply land_ok. Qed.
Lemma or64_ok : reg_ok x -> reg_ok y -> okp reg_ok (or64 x y). Proof. apply lor_ok. Qed.
Lemma xor64_ok : reg_ok x -> reg_ok y -> okp reg_ok (xor64 x y). Proof. apply lxor_ok. Qed.
Lemma not64_ok : reg_ok x -> okp reg_ok (not64 x). Proof. apply lnot_ok. Qed.
Lemma min64_ok : reg_ok x -> reg_ok y -> okp reg_ok (min64 x y).
Proof. unfold min64. by case_match. Qed.
Lemma max64_ok : reg_ok x -> reg_ok y -> okp reg_ok (max64 x y).
Proof. unfold max64. by case_match. Qed.
End operators.

#[export] Hint Resolve s64_value_ok reg_read_ok ap1_ok ap2_ok store_ok store_add_ok
  add64_ok sub64_ok mul64_ok neg64_ok abs64_ok ext64_ok shl64_ok shr64_ok and64_ok
  or64_ok xor64_ok not64_ok min64_ok max64_ok : vm_ok.

(** ** Expressions do not run out of fuel *)

Ltac total :=
  repeat first
    [ discriminate
    | apply at_index_fuel | apply set_index_fuel | apply check_fuel
    | apply bind_total; [|intros]
    | match goal with |- ?e <> NoFuel =>
        let h := match e with ?h _ _ _ => h | ?h _ _ => h | ?h _ => h end in
        match h with
        | store => unfold store | store_add => unfold store_add
        | ap1 => unfold ap1 | ap2 => unfold ap2 | cmp => unfold cmp | ret0 => unfold ret0
        | s64_value => unfold s64_value | ext64 => unfold ext64
        | add64 => unfold add64 | sub64 => unfold sub64 | mul64 => unfold mul64
        | neg64 => unfold neg64 | abs64 => unfold abs64
        end
      end ].

Lemma leave_total s : SwitchInterpreter.leave s <> NoFuel.
Proof. unfold SwitchInterpreter.leave. total. Qed.

(** What a turn does with the instruction pointer. *)
Definition ip_after (i : Instruction) (s : VMState) (x : VMState + Z * VMState) : Prop :=
  match x with
  | inl s' => ip s' = ip s + 1 \/ (is_jump (op i) = true /\ ip s' = u64 (imm i))
  | inr _ => True
  end.

Lemma next_ip i s rg :
  rg <> NoFuel -> SwitchInterpreter.next s rg <> NoFuel /\
                  okp (ip_after i s) (SwitchInterpreter.next s rg).
Proof. destruct rg; cbn; auto. Qed.

Lemma nextf_ip i s f :
  f <> NoFuel -> SwitchInterpreter.nextf s f <> NoFuel /\
                 okp (ip_after i s) (SwitchInterpreter.nextf s f).
Proof. destruct f; cbn; auto. Qed.

Lemma dispatch_ip i s :
  SwitchInterpreter.dispatch i s <> NoFuel /\
  okp (ip_after i s) (SwitchInterpreter.dispatch i s).
Proof.
  unfold SwitchInterpreter.dispatch.
  destruct (op i) eqn:E;
    lazymatch goal with
    | |- SwitchInterpreter.leave _ <> _ /\ _ =>
        split; [apply leave_total | unfold SwitchInterpreter.leave; by destruct (ret0 _)]
    | |- SwitchInterpreter.nextf _ _ <> _ /\ _ => apply nextf_ip; total
    | |- SwitchInterpreter.next _ _ <> _ /\ _ => apply next_ip; total
    | |- (if _ then _ else _) <> _ /\ _ =>
        case_match; [apply next_ip; total | split; [done | by left]]
    | |- _ => split; [done|]; cbn; rewrite ?E; cbn; try case_match; auto
    end.
Qed.

(** ** Turns *)

Definition turn_ok (x : VMState + Z * VMState) : Prop :=
  match x with inl s => state_ok s | inr (r, s) => state_ok s /\ 0 <= r < 2 ^ 64 end.

Section turns.
Context (s : VMState) (Hs : state_ok s) (Hip : ip s + 1 < 2 ^ 64).

Lemma next_ok rg : okp regs_ok rg -> okp turn_ok (SwitchInterpreter.next s rg).
Proof using Hs Hip.
  destruct Hs as (Hr & Hf & Hi & Hc). destruct rg; [|done..]; cbn.
  intros Hrg. unfold state_ok; cbn. split_and!; try done; lia.
Qed.

Lemma nextf_ok f a b : okp turn_ok (SwitchInterpreter.nextf s (cmp f a b)).
Proof using Hs Hip.
  destruct Hs as (Hr & Hf & Hi & Hc).
  destruct a as [x| |]; [|done..]; destruct b as [y| |]; [|done..]; cbn.
  unfold state_ok, flag_of; cbn. split_and!; try done; try lia. case_match; auto.
Qed.

Lemma goto_ok p : 0 <= p < 2 ^ 64 -> okp turn_ok (Ok (inl (set_ip s p))).
Proof using Hs. intros Hp. destruct Hs as (Hr & Hf & Hi & Hc). exact (conj Hr (conj Hf (conj Hp Hc))). Qed.

Lemma leave_ok : okp turn_ok (SwitchInterpreter.leave s).
Proof using Hs.
  unfold SwitchInterpreter.leave, ret0. destruct (regs s).[0]; cbn; [|done..].
  split; [done|]. apply uwrap_range. lia.
Qed.

(** Every case of the [switch] preserves the invariant. *)
Lemma dispatch_ok i : sfits 32 (imm i) = true -> okp turn_ok (SwitchInterpreter.dispatch i s).
Proof using Hs Hip.
  intros Him. unfold SwitchInterpreter.dispatch.
  pose proof Hs as (Hrg & _ & Hi & _). pose proof Hrg as [_ Hfa].
  assert (okp reg_ok (Ok (imm i))) as Himm by by apply (sfits_mono 32).
  assert (forall a k, okp reg_ok (x ← (regs s).[a]; s64_value (x + k))) as Hinc.
  { intros. apply okp_bind. eapply okp_mono; [|apply okp_True]. auto with vm_ok. }
  assert (forall c, 0 <= (if c : bool then u64 (imm i) else ip s + 1) < 2 ^ 64) as Hj.
  { intros []; [apply uwrap_range; lia | lia]. }
  destruct (op i);
    lazymatch goal with
    | |- okp turn_ok (SwitchInterpreter.leave _) => apply leave_ok
    | |- okp turn_ok (SwitchInterpreter.nextf _ _) => apply nextf_ok
    | |- okp turn_ok (SwitchInterpreter.next _ (store _ _ (_ ≫= _))) =>
        apply next_ok, store_ok; [done | apply Hinc]
    | |- okp turn_ok (SwitchInterpreter.next _ _) => apply next_ok; eauto 9 with vm_ok
    | |- okp turn_ok (Ok (inl (set_ip _ (uwrap _ _)))) => apply goto_ok, (Hj true)
    | |- okp turn_ok (Ok (inl (set_ip _ (if ?b then _ else _)))) => apply goto_ok, (Hj b)
    | |- okp turn_ok (Ok (inl (incr_ip _))) => apply goto_ok, (Hj false)
    | |- okp turn_ok (if _ then _ else _) =>
        case_match; [apply next_ok; eauto 6 with vm_ok | apply goto_ok, (Hj false)]
    end.
Qed.
End turns.

Lemma tick_ok s : state_ok s -> state_ok (tick s).
Proof.
  intros (Hr & Hf & Hi & Hc). unfold state_ok; cbn.
  pose proof (uwrap_range 64 (cycle_count s + 1)). split_and!; try done; lia.
Qed.

(** The instructions of a program hold [int32_t] immediates. *)
Definition imm_typed (code : list Instruction) : bool := forallb (fun i => sfits 32 (imm i)) code.

Lemma body_ok code s :
  imm_typed code = true -> code_size code < 2 ^ 64 -> state_ok s ->
  okp turn_ok (SwitchInterpreter.body code s).
Proof.
  intros Hc Hsz Hs. unfold SwitchInterpreter.body.
  destruct (Z.ltb_spec (ip s) (code_size code)) as [Hlt|_]; [|by apply leave_ok].
  destruct (code.[ip s]) as [i| |] eqn:Hi; [|done..]. cbn [mbind res_bind].
  apply at_index_inv in Hi as [_ Hi%list_elem_of_lookup_2%list_elem_of_In].
  apply dispatch_ok; [by apply tick_ok | cbn; lia | by apply (forallb_elem _ _ _ Hc)].
Qed.

Lemma reset_ok s : length (regs s) = NUM_REGS -> state_ok (reset s).
Proof.
  intros Hl. destruct s as [rg f p c]. cbn in Hl. unfold reset; cbn [regs].
  assert ((fun _ => 0) <$> rg = replicate NUM_REGS 0) as ->.
  { rewrite <- Hl. clear. induction rg; cbn; congruence. }
  split; [|cbn; lia]. split; [done|]. cbn. repeat constructor.
Qed.

Lemma execute_ok n code s :
  imm_typed code = true -> code_size code < 2 ^ 64 -> state_ok s ->
  okp (fun x => state_ok x.2 /\ 0 <= x.1 < 2 ^ 64) (SwitchInterpreter.execute n code s).
Proof.
  intros Hc Hsz Hs. apply (loop_inv _ state_ok); [|done].
  intros s0 Hs0. eapply okp_mono; [|by apply body_ok]. by intros [?|[??]].
Qed.
