(* ===== verification/VmGen.v ===== *)
(** * The program generator of the benchmarks

    Models [CodeGenerator] of [perf/threaded_code/basic.cpp].  The Mersenne
    twister and the distributions of the standard library are used through
    what they document: a draw of [uniform_int_distribution(a, b)] lies
    between [a] and [b]. *)

From S2P Require Import Prelude VmIsa VmInterp VmCorrect.

Inductive Pattern : Set :=
  | Sequential | Random | Hotspot | Arithmetic | DataMovement | Mixed | Loop | BranchHeavy.

#[export] Instance Pattern_eq_dec : EqDecision Pattern.
Proof. solve_decision. Defined.

(** An array of opcodes indexed by a [size_t]; the index is always drawn inside
    the array, [NOP] stands for the value outside. *)
Definition op_at (ops : list OpCode) (i : Z) : OpCode := default NOP (ops !! Z.to_nat i).

Definition safe_ops : list OpCode :=
  [NOP; ADD; SUB; MUL; INC; DEC; NEG; AND; OR; XOR; NOT; SHL; SHR;
   LOAD_IMM; LOAD_REG; STORE; CMP_EQ; CMP_LT; CMP_GT; MAC; DOT; POLY; ABS; MIN].
Definition hot_ops : list OpCode := [ADD; SUB; MUL; INC].
Definition cold_ops : list OpCode := [AND; OR; XOR; SHL; DEC; NEG; NOT; MAC].
Definition arith_ops : list OpCode := [ADD; SUB; MUL; INC; DEC; NEG; MAC; POLY].
Definition data_ops : list OpCode := [LOAD_IMM; LOAD_REG; STORE; NOP; INC].

Section generator.
Context {G : Type} `{RandomEngine G}.

Definition randReg (g : G) : Z * G := uniform_int 0 (Z.of_nat NUM_REGS - 1) g.
Definition randImm (g : G) : Z * G := uniform_int (-1000) 1000 g.

(** [{op, randReg(), randReg(), randReg(), randImm()}]: a braced list is
  evaluated from left to right. *)
Definition randInstr (o : OpCode) (g : G) : Instruction * G :=
let '(a, g) := randReg g in
let '(b, g) := randReg g in
let '(c, g) := randReg g in
let '(d, g) := randImm g in
(mkI o a b c d, g).

(** A draw from an array of opcodes. *)
Definition randOp (ops : list OpCode) (g : G) : OpCode * G :=
let '(k, g) := uniform_int 0 (code_size ops - 1) g in (op_at ops k, g).

(** [for (size_t i = 0; i < length; ++i) code.push_back(..)] *)
Fixpoint push_n (n : nat) (i : Z) (pick : Z -> G -> OpCode * G)
  (code : list Instruction) (g : G) : list Instruction * G :=
match n with
| O => (code, g)
| S n =>
    let '(o, g) := pick i g in
    let '(instr, g) := randInstr o g in
    push_n n (i + 1) pick (code ++ [instr]) g
end.

Definition generateSequential (length : nat) (g : G) : list Instruction * G :=
push_n length 0 (fun i g => (op_at safe_ops (i mod code_size safe_ops), g)) [] g.

Definition generateRandom (length : nat) (g : G) : list Instruction * G :=
push_n length 0 (fun _ g => randOp safe_ops g) [] g.

Definition generateHotspot (length : nat) (g : G) : list Instruction * G :=
push_n length 0 (fun _ g =>
  let '(hot, g) := below_percent 80 g in
  if (hot : bool) then randOp hot_ops g else randOp cold_ops g) [] g.

Definition generateArithmetic (length : nat) (g : G) : list Instruction * G :=
push_n length 0 (fun _ g => randOp arith_ops g) [] g.

Definition generateDataMovement (length : nat) (g : G) : list Instruction * G :=
push_n length 0 (fun _ g => randOp data_ops g) [] g.

Definition generateMixed (length : nat) (g : G) : list Instruction * G :=
generateRandom length g.

Definition loop_iterations (length : nat) : Z :=
let iterations := s32 (Z.of_nat length / 10) in
if iterations <? 10 then 10 else iterations.

Definition generateLoop (length : nat) (g : G) : list Instruction * G :=
let code :=
  [mkI LOAD_IMM 0 0 0 (loop_iterations length);
   mkI LOAD_IMM 1 0 0 0;
   mkI LOAD_IMM 2 0 0 0] in
let loop_start := code_size code in
let code := code ++ replicate 5 (mkI INC 2 0 0 0) in
(code ++ [mkI DEC 0 0 0 0; mkI CMP_GT 0 0 1 0; mkI JNZ 0 0 0 (s32 loop_start)], g).

Fixpoint branch_blocks (n : nat) (code : list Instruction) (g : G) : list Instruction * G :=
match n with
| O => (code, g)
| S n =>
    let base := code_size code in
    let '(d, g) := uniform_int (-100) 100 g in
    branch_blocks n
      (code ++ [mkI LOAD_IMM 0 0 0 d; mkI CMP_LT 0 0 1 0;
                mkI JZ 0 0 0 (s32 (base + 4)); mkI INC 2 0 0 0]) g
end.

Definition generateBranchHeavy (length : nat) (g : G) : list Instruction * G :=
branch_blocks length [] g.

(** The [switch (pattern)] of [generate]. *)
Definition generate_pattern (length : nat) (p : Pattern) (g : G) : list Instruction * G :=
match p with
| Sequential => generateSequential length g
| Random => generateRandom length g
| Hotspot => generateHotspot length g
| Arithmetic => generateArithmetic length g
| DataMovement => generateDataMovement length g
| Mixed => generateMixed length g
| Loop => generateLoop length g
| BranchHeavy => generateBranchHeavy length g
end.

Definition generate (length : nat) (p : Pattern) (g : G) : list Instruction * G :=
let '(code, g) := generate_pattern length p g in
(code ++ [mkI HALT 0 0 0 0], g).

(** ** Generated programs are well formed *)

(** A straight-line instruction: a basic opcode that is not a jump, four-bit
  registers, an [int32_t] immediate. *)
Definition plain (i : Instruction) : bool :=
enumerator (op i) && negb (extension (op i)) && negb (is_jump (op i)) &&
sfits 32 (imm i) && reg4 (r1 i) && reg4 (r2 i) && reg4 (r3 i).

Definition plain_op (o : OpCode) : bool :=
enumerator o && negb (extension o) && negb (is_jump o).

Lemma randReg_range g : reg4 (randReg g).1 = true.
Proof. apply reg4_spec. pose proof (uniform_int_range 0 15 g). unfold randReg. change (Z.of_nat NUM_REGS - 1) with 15. lia. Qed.

Lemma randImm_range g : sfits 32 (randImm g).1 = true.
Proof. apply sfits_spec. pose proof (uniform_int_range (-1000) 1000 g). unfold randImm. lia. Qed.

Lemma randInstr_plain o g : plain_op o = true -> plain (randInstr o g).1 = true.
Proof.
unfold plain_op, plain, randInstr. intros Ho.
pose proof (randReg_range g) as H1.
destruct (randReg g) as [a g1]; pose proof (randReg_range g1) as H2.
destruct (randReg g1) as [b g2]; pose proof (randReg_range g2) as H3.
destruct (randReg g2) as [c g3]; pose proof (randImm_range g3) as H4.
destruct (randImm g3) as [d g4]. cbn in *. by rewrite Ho, H1, H2, H3, H4.
Qed.

Lemma op_at_plain ops k : forallb plain_op ops = true -> plain_op (op_at ops k) = true.
Proof.
intros Hops. unfold op_at. destruct (ops !! Z.to_nat k) as [o|] eqn:E; cbn; [|done].
eapply forallb_elem, list_elem_of_In, list_elem_of_lookup_2, E. done.
Qed.

Lemma push_n_plain n i pick code g :
(forall i g, plain_op (pick i g).1 = true) -> forallb plain code = true ->
forallb plain (push_n n i pick code g).1 = true.
Proof.
intros Hp. revert i code g. induction n as [|n IH]; intros i code g Hc; cbn; [done|].
pose proof (Hp i g) as Ho. destruct (pick i g) as [o g1].
pose proof (randInstr_plain o g1 Ho) as Hi. destruct (randInstr o g1) as [instr g2].
apply IH. cbn in *. by rewrite forallb_app, Hc; cbn; rewrite Hi.
Qed.

Lemma push_n_length n i pick code g :
length (push_n n i pick code g).1 = (length code + n)%nat.
Proof.
revert i code g. induction n as [|n IH]; intros i code g; cbn; [lia|].
destruct (pick i g) as [o g1], (randInstr o g1) as [instr g2].
rewrite IH, length_app; cbn. lia.
Qed.

Lemma randOp_plain ops g : forallb plain_op ops = true -> plain_op (randOp ops g).1 = true.
Proof.
intros. unfold randOp. destruct (uniform_int _ _ _) as [k g']. by apply op_at_plain.
Qed.

(** The test [ttc_accepts] makes of one instruction; it is the strongest of
  those of the five interpreters. *)
Definition packable (size : Z) (i : Instruction) : bool :=
enumerator (op i) && negb (extension (op i)) && jump_ok size i &&
reg4 (r1 i) && reg4 (r2 i) && reg4 (r3 i).

Lemma plain_packable size i : plain i = true -> packable size i = true.
Proof.
unfold plain, packable, jump_ok. rewrite !andb_true_iff, !negb_true_iff.
intros ((((((He & Hx) & Hj) & Hi) & H1) & H2) & H3). rewrite Hj; cbn. auto 10.
Qed.

Lemma plain_code_packable size code :
forallb plain code = true -> forallb (packable size) code = true.
Proof.
rewrite !forallb_Forall. intros Hc. eapply Forall_impl; [|exact Hc].
apply plain_packable.
Qed.

Lemma branch_blocks_length n code g :
length (branch_blocks n code g).1 = (length code + 4 * n)%nat.
Proof.
revert code g. induction n as [|n IH]; intros code g; cbn; [lia|].
destruct (uniform_int _ _ g) as [d g']. rewrite IH, length_app; cbn. lia.
Qed.

Lemma branch_blocks_packable n code g size :
Z.of_nat (length code + 4 * n) <= size < 2 ^ 31 ->
forallb (packable size) code = true ->
forallb (packable size) (branch_blocks n code g).1 = true.
Proof.
revert code g. induction n as [|n IH]; intros code g Hsz Hc; cbn [branch_blocks]; [done|].
pose proof (uniform_int_range (-100) 100 g) as Hd.
destruct (uniform_int (-100) 100 g) as [d g']. cbn in Hd.
apply IH; [rewrite length_app; cbn; lia|].
rewrite forallb_app, Hc. unfold code_size.
assert (sfits 32 d = true) as Hfd by (apply sfits_spec; lia).
assert (sfits 32 (Z.of_nat (length code) + 4) = true) as Hft by (apply sfits_spec; lia).
rewrite (swrap_id 32) by done.
cbn -[sfits]. unfold packable, jump_ok. cbn -[sfits]. rewrite Hfd, Hft; cbn.
rewrite (proj2 (Z.leb_le 0 _)), (proj2 (Z.leb_le _ size)) by lia. done.
Qed.

Lemma generateLoop_packable len g :
forallb (packable 12) (generateLoop len g).1 = true.
Proof.
cbn -[sfits loop_iterations]. unfold packable at 1, jump_ok. cbn -[sfits loop_iterations].
enough (sfits 32 (loop_iterations len) = true) as -> by done.
unfold loop_iterations. case_match; [done | by apply sfits_swrap].
Qed.

(** The patterns other than [Loop] and [BranchHeavy] have no jumps. *)
Definition straight (p : Pattern) : bool :=
match p with Loop | BranchHeavy => false | _ => true end.

Lemma generate_pattern_plain len p g :
straight p = true -> forallb plain (generate_pattern len p g).1 = true.
Proof.
destruct p; try done; intros _; apply push_n_plain; try done; intros i g'; cbn;
  try (by apply randOp_plain); try (by apply op_at_plain).
destruct (below_percent 80 g') as [[] g'']; by apply randOp_plain.
Qed.

Lemma generate_pattern_packable len p g :
4 * Z.of_nat len + 1 < 2 ^ 31 ->
forallb (packable (code_size (generate_pattern len p g).1 + 1))
  (generate_pattern len p g).1 = true.
Proof.
intros Hl. destruct (straight p) eqn:Hp.
{ by apply plain_code_packable, generate_pattern_plain. }
destruct p; try done; cbn [generate_pattern].
- apply generateLoop_packable.
- apply branch_blocks_packable; [|done].
  unfold code_size, generateBranchHeavy. rewrite branch_blocks_length. cbn. lia.
Qed.

Lemma generate_packable len p g :
4 * Z.of_nat len + 1 < 2 ^ 31 -> ttc_accepts (generate len p g).1 = true.
Proof.
intros Hl. pose proof (generate_pattern_packable len p g Hl) as Hc.
unfold generate. destruct (generate_pattern len p g) as [code g']. cbn [fst] in *.
unfold ttc_accepts. fold (packable (code_size (code ++ [mkI HALT 0 0 0 0]))).
unfold code_size in *. rewrite length_app; cbn [length].
replace (Z.of_nat (length code + 1)) with (Z.of_nat (length code) + 1) by lia.
fold (packable (Z.of_nat (length code) + 1)). by rewrite forallb_app, Hc.
Qed.

(** ** Forward jumps *)

Definition forward (code : list Instruction) : Prop :=
forall k i, code !! k = Some i -> is_jump (op i) = true -> Z.of_nat k < imm i.

Lemma forward_app c1 c2 :
forward c1 ->
(forall k i, c2 !! k = Some i -> is_jump (op i) = true -> Z.of_nat (length c1 + k) < imm i) ->
forward (c1 ++ c2).
Proof.
intros H1 H2 k i Hk Hj. apply lookup_app_Some in Hk as [Hk|[Hle Hk]]; [by apply (H1 k)|].
specialize (H2 _ _ Hk Hj). replace (length c1 + (k - length c1))%nat with k in H2 by lia. done.
Qed.

Lemma plain_forward code : forallb plain code = true -> forward code.
Proof.
intros Hc k i Hk Hj.
apply list_elem_of_lookup_2, list_elem_of_In, (forallb_elem _ _ _ Hc) in Hk.
unfold plain in Hk. rewrite Hj in Hk. by rewrite !andb_false_r in Hk.
Qed.

Lemma branch_blocks_forward n code g :
Z.of_nat (length code + 4 * n) < 2 ^ 31 -> forward code ->
forward (branch_blocks n code g).1.
Proof.
revert code g. induction n as [|n IH]; intros code g Hsz Hc; cbn [branch_blocks]; [done|].
destruct (uniform_int (-100) 100 g) as [d g'].
apply IH; [rewrite length_app; cbn; lia|]. apply forward_app; [done|].
intros [|[|[|[|k]]]] i [= <-] Hj; try done. cbn. unfold code_size.
rewrite swrap_id; [lia | done | apply sfits_spec; lia].
Qed.
End generator.

(** A program with forward jumps only ends within one turn per instruction. *)
Lemma forward_terminates code s n :
  forward code -> dtc_accepts code = true -> 0 <= ip s ->
  (length code < n)%nat -> SwitchInterpreter.execute n code s <> NoFuel.
Proof.
  intros Hfw Hc Hs Hn.
  apply (loop_measure _ (fun s => 0 <= ip s) (fun s => Z.to_nat (code_size code - ip s)));
    [|done | unfold code_size; lia].
  clear s Hs. intros s Hs. unfold SwitchInterpreter.body.
  destruct (Z.ltb_spec (ip s) (code_size code)) as [Hlt|_];
    [|split; [apply leave_total | unfold SwitchInterpreter.leave; by destruct (ret0 _)]].
  destruct (at_index_ok code (ip s)) as (i & -> & Hi); [unfold code_size in Hlt; lia|].
  cbn [mbind res_bind]. destruct (dispatch_ip i (tick s)) as [Hnf Hip].
  split; [done|]. eapply okp_mono; [|exact Hip]. intros [s'|]; [|done].
  intros [Hn1 | [Hj Hn1]]; cbn [tick ip] in Hn1; [lia|].
  specialize (Hfw _ _ Hi Hj).
  apply list_elem_of_lookup_2, list_elem_of_In, (forallb_elem _ _ _ Hc) in Hi.
  apply andb_true_iff in Hi as [_ Hjo].
  destruct (jump_ok_range _ _ _ Hjo eq_refl Hj) as [? ?].
  rewrite uwrap_id in Hn1 by lia. lia.
Qed.

(** ** The loop program *)

Section loop_program.
Context (it : Z) (Hit : 10 <= it < 2 ^ 31).

(** The program [generateLoop] and [generate] build for [it] iterations. *)
Definition loop_code : list Instruction :=
  [mkI LOAD_IMM 0 0 0 it; mkI LOAD_IMM 1 0 0 0; mkI LOAD_IMM 2 0 0 0;
   mkI INC 2 0 0 0; mkI INC 2 0 0 0; mkI INC 2 0 0 0; mkI INC 2 0 0 0; mkI INC 2 0 0 0;
   mkI DEC 0 0 0 0; mkI CMP_GT 0 0 1 0; mkI JNZ 0 0 0 3; mkI HALT 0 0 0 0].

(** The counter in register 0, the accumulator in register 2. *)
Definition loop_regs (k a : Z) : list Z := [k; 0; a; 4; 5; 6; 7; 8; 9; 10; 11; 12; 13; 14; 15; 16].

Lemma sfits_small z : - 2 ^ 40 < z < 2 ^ 40 -> sfits 64 z = true.
Proof. intros. apply sfits_spec. lia. Qed.

Abbreviation turn := (SwitchInterpreter.body loop_code).

Lemma turn_inc k a f p c :
  3 <= p < 8 -> 0 <= a < 2 ^ 39 ->
  turn (mkVM (loop_regs k a) f p c) =
  Ok (inl (mkVM (loop_regs k (a + 1)) f (p + 1) (u64 (c + 1)))).
Proof.
  intros Hp Ha. assert (p = 3 \/ p = 4 \/ p = 5 \/ p = 6 \/ p = 7) as Hcase by lia.
  pose proof (sfits_small (a + 1) ltac:(lia)) as Hf.
  transitivity (SwitchInterpreter.dispatch (mkI INC 2 0 0 0)
    (mkVM (loop_regs k a) f p (u64 (c + 1)))).
  { repeat destruct Hcase as [->|Hcase]; subst; reflexivity. }
  unfold SwitchInterpreter.dispatch, store; cbn [op r1 regs].
  change ((loop_regs k a).[2]) with (Ok a); cbn [mbind res_bind].
  unfold add64, s64_value. by rewrite Hf.
Qed.

Lemma turn_dec k a f c :
  0 <= k < 2 ^ 39 ->
  turn (mkVM (loop_regs k a) f 8 c) =
  Ok (inl (mkVM (loop_regs (k - 1) a) f 9 (u64 (c + 1)))).
Proof.
  intros Hk. pose proof (sfits_small (k - 1) ltac:(lia)) as Hf.
  transitivity (SwitchInterpreter.dispatch (mkI DEC 0 0 0 0)
    (mkVM (loop_regs k a) f 8 (u64 (c + 1)))); [reflexivity|].
  unfold SwitchInterpreter.dispatch, store; cbn [op r1 regs].
  change ((loop_regs k a).[0]) with (Ok k); cbn [mbind res_bind].
  unfold sub64, s64_value. by rewrite Hf.
Qed.

Lemma turn_cmp k a f c :
  turn (mkVM (loop_regs k a) f 9 c) =
  Ok (inl (mkVM (loop_regs k a) (flag_of (0 <? k)) 10 (u64 (c + 1)))).
Proof. reflexivity. Qed.

Lemma turn_jnz k a (b : bool) c :
  turn (mkVM (loop_regs k a) (flag_of b) 10 c) =
  Ok (inl (mkVM (loop_regs k a) (flag_of b) (if b then 3 else 11) (u64 (c + 1)))).
Proof. by destruct b. Qed.

(** One iteration is eight turns. *)
Lemma loop_iteration n k a f c :
  0 < k < 2 ^ 39 -> 0 <= a < 2 ^ 38 ->
  loop turn (8 + n) (mkVM (loop_regs k a) f 3 c) =
  loop turn n (mkVM (loop_regs (k - 1) (a + 5)) (flag_of (0 <? k - 1))
                    (if 0 <? k - 1 then 3 else 11) (u64 (c + 8))).
Proof.
  intros Hk Ha. cbn [Nat.add].
  do 5 (rewrite loop_S, turn_inc by lia; cbn [mbind res_bind]).
  rewrite loop_S, turn_dec by lia; cbn [mbind res_bind].
  rewrite loop_S, turn_cmp; cbn [mbind res_bind].
  rewrite loop_S, turn_jnz; cbn [mbind res_bind].
  repeat (rewrite !uwrap_add_l by lia; rewrite <- ?Z.add_assoc).
  done.
Qed.

Lemma loop_iterations_run m n k a f c :
  (0 < m)%nat -> k = Z.of_nat m -> k < 2 ^ 31 -> 0 <= a -> a + 5 * k < 2 ^ 38 ->
  loop turn (8 * m + n) (mkVM (loop_regs k a) f 3 c) =
  loop turn n (mkVM (loop_regs 0 (a + 5 * k)) 0 11 (u64 (c + 8 * k))).
Proof.
  revert k a f c. induction m as [|m IH]; intros k a f c Hm Hk Hlt Ha Hb; [lia|].
  replace (8 * S m + n)%nat with (8 + (8 * m + n))%nat by lia.
  rewrite loop_iteration by lia. destruct m as [|m].
  - by subst k.
  - rewrite (proj2 (Z.ltb_lt 0 (k - 1))) by lia. rewrite IH by lia.
    rewrite uwrap_add_l by lia.
    replace (a + 5 + 5 * (k - 1)) with (a + 5 * k) by lia.
    replace (c + 8 + 8 * (k - 1)) with (c + 8 * k) by lia. done.
Qed.
End loop_program.

Section generated.
Context {G : Type} `{RandomEngine G}.

Lemma loop_iterations_range len : 10 <= loop_iterations len < 2 ^ 31.
Proof.
unfold loop_iterations. pose proof (swrap_range 32 (Z.of_nat len / 10)).
case_match eqn:E; lia.
Qed.

Lemma generate_Loop len g : (generate len Loop g).1 = loop_code (loop_iterations len).
Proof. reflexivity. Qed.

Lemma loop_program_run len g s0 :
length (regs s0) = NUM_REGS ->
let it := loop_iterations len in
SwitchInterpreter.execute (3 + (8 * Z.to_nat it + 1)) (generate len Loop g).1 (reset s0) =
Ok (0, mkVM (loop_regs 0 (5 * it)) 0 11 (8 * it + 4)).
Proof.
intros Hl it. pose proof (loop_iterations_range len) as Hit. fold it in Hit.
rewrite generate_Loop. fold it. unfold SwitchInterpreter.execute.
assert (reset s0 = mkVM [1; 2; 3; 4; 5; 6; 7; 8; 9; 10; 11; 12; 13; 14; 15; 16] 0 0 0) as ->.
{ destruct s0 as [rg ? ? ?]. unfold reset; cbn [regs] in *.
  by do 17 (destruct rg; [try discriminate Hl|]). }
set (code := loop_code it).
assert (loop (SwitchInterpreter.body code) (3 + (8 * Z.to_nat it + 1))
  (mkVM [1; 2; 3; 4; 5; 6; 7; 8; 9; 10; 11; 12; 13; 14; 15; 16] 0 0 0) =
  loop (SwitchInterpreter.body code) (8 * Z.to_nat it + 1)
    (mkVM (loop_regs it 0) 0 3 (u64 (u64 (u64 (0 + 1) + 1) + 1)))) as -> by reflexivity.
subst code. rewrite (loop_iterations_run it) by lia.
change (u64 (u64 (u64 (0 + 1) + 1) + 1)) with 3.
change (loop _ 1 _) with (Ok (0, mkVM (loop_regs 0 (0 + 5 * it)) 0 11
  (u64 (u64 (3 + 8 * it) + 1)))).
rewrite uwrap_add_l, uwrap_id by lia.
replace (3 + 8 * it + 1) with (8 * it + 4) by lia. reflexivity.
Qed.
End generated.
