(* ===== verification/VmProps.v ===== *)
(** * Properties of the virtual machine *)

From S2P Require Import Prelude VmIsa VmInterp VmCorrect VmGen.

(** ** A concrete engine and concrete programs, for the witnesses *)

(** A linear congruential engine. *)
#[export] Instance lcg_engine : RandomEngine Z.
Proof.
  refine {| uniform_int a b g := (a + g mod (b - a + 1), (g * 1103515245 + 12345) mod 2 ^ 31);
            below_percent p g := (g mod 100 <? p, (g * 1103515245 + 12345) mod 2 ^ 31) |}.
  intros a b g Hab. cbn. pose proof (Z.mod_pos_bound g (b - a + 1)). lia.
Defined.

Definition reset_state : VMState := reset VMState_init.

Definition ext_program (o : OpCode) : list Instruction :=
  [mkI o 0 1 2 0; mkI HALT 0 0 0 0].

(** ** Dispatch techniques *)

(** C1: direct, call and subroutine threading are equivalent to the [switch]:
    started on a machine with [ip] and [flags] clear, on a program whose
    opcodes are enumerators and whose jumps stay inside it, they end if and
    only if the [switch] ends, with the same value, registers and cycle count,
    or with the same undefined behaviour. *)
Theorem direct_call_subroutine_equiv code s :
  dtc_accepts code = true -> ip s = 0 -> flags s = 0 ->
  observe (fun n => DirectThreadedInterpreter.execute n code s) ≃
    observe (fun n => SwitchInterpreter.execute n code s) /\
  observe (fun n => CallThreadedInterpreter.execute n code s) ≃
    observe (fun n => SwitchInterpreter.execute n code s) /\
  observe (fun n => SubroutineThreadedInterpreter.execute n code s) ≃
    observe (fun n => SwitchInterpreter.execute n code s).
Proof.
  intros Hc Hi Hf. split_and!; symmetry; apply implements_switch; try done.
  by apply dtc_stc_accepts.
Qed.

Lemma direct_call_subroutine_equiv_witness :
  observe (fun n => DirectThreadedInterpreter.execute n (loop_code 10) reset_state) ≃
  observe (fun n => SwitchInterpreter.execute n (loop_code 10) reset_state).
Proof. apply (direct_call_subroutine_equiv (loop_code 10) reset_state); reflexivity. Defined.





(** ** Type safety *)



(** ** Generated programs *)

Section generated_props.
Context {G : Type} `{RandomEngine G}.

Lemma generate_forward len p g :
  4 * Z.of_nat len + 1 < 2 ^ 31 -> p <> Loop -> forward (generate len p g).1.
Proof.
  intros Hl Hp. unfold generate.
  assert (forward (generate_pattern len p g).1) as Hf.
  { destruct (straight p) eqn:Hs; [by apply plain_forward, generate_pattern_plain|].
    destruct p; try done. apply branch_blocks_forward; [cbn; lia|]. by intros ? ? ?. }
  destruct (generate_pattern len p g) as [code g']. cbn [fst] in *.
  apply forward_app; [done|]. by intros [|k] i [= <-].
Qed.

Lemma generate_ends len p g s0 :
  4 * Z.of_nat len + 1 < 2 ^ 31 -> length (regs s0) = NUM_REGS ->
  exists n, SwitchInterpreter.execute n (generate len p g).1 (reset s0) <> NoFuel.
Proof.
  intros Hl Hr. destruct (decide (p = Loop)) as [->|Hp].
  - eexists. by rewrite loop_program_run.
  - exists (S (length (generate len p g).1)).
    apply forward_terminates; [by apply generate_forward | | done | lia].
    apply ttc_dtc_accepts, generate_packable, Hl.
Qed.
End generated_props.

(** C5: every program the generator builds, for every pattern and every
    sequence of random draws, ends on a reset machine, and all six
    interpreters run it alike. *)
Theorem generated_programs_portable {G : Type} (E : RandomEngine G) len p g s0 :
  4 * Z.of_nat len + 1 < 2 ^ 31 -> length (regs s0) = NUM_REGS ->
  let code := (generate len p g).1 in
  let s := reset s0 in
  (exists n, SwitchInterpreter.execute n code s <> NoFuel) /\
  observe (fun n => DirectThreadedInterpreter.execute n code s) ≃
    observe (fun n => SwitchInterpreter.execute n code s) /\
  observe (fun n => IndirectThreadedInterpreter.compile_and_execute n code s) ≃
    observe (fun n => SwitchInterpreter.execute n code s) /\
  observe (fun n => TokenThreadedInterpreter.execute n (TokenThreadedInterpreter.compile code) s) ≃
    observe (fun n => SwitchInterpreter.execute n code s) /\
  observe (fun n => SubroutineThreadedInterpreter.execute n code s) ≃
    observe (fun n => SwitchInterpreter.execute n code s) /\
  observe (fun n => CallThreadedInterpreter.execute n code s) ≃
    observe (fun n => SwitchInterpreter.execute n code s).
Proof.
  intros Hl Hr code s. pose proof (generate_packable len p g Hl) as Ht. fold code in Ht.
  pose proof (ttc_dtc_accepts _ Ht) as Hd.
  split; [by apply generate_ends|].
  split_and!; symmetry; try (by apply implements_switch).
  - by apply implements_switch; [apply ttc_itc_accepts | ..].
  - by apply (implements_switch (exec := ttc_execute)).
  - by apply implements_switch; [apply dtc_stc_accepts | ..].
Qed.

Lemma generated_programs_portable_witness :
  observe (fun n => CallThreadedInterpreter.execute n
             (generate 20 BranchHeavy 42).1 (reset VMState_init)) ≃
  observe (fun n => SwitchInterpreter.execute n
             (generate 20 BranchHeavy 42).1 (reset VMState_init)).
Proof.
  apply (generated_programs_portable lcg_engine 20 BranchHeavy 42 VMState_init); reflexivity.
Defined.

(** The [Loop] program computes what its comments say, with every
    interpreter that implements the machine: it returns 0 (the exhausted
    counter) after adding 5 to register 2 in each of [max(10, length / 10)]
    iterations, in 8 cycles per iteration and 4 more, leaving the other
    registers alone. *)
Theorem loop_program_spec {G : Type} (E : RandomEngine G) exec accepts len g s0 :
  ThreadedInterpreter exec accepts -> accepts (generate len Loop g).1 = true ->
  length (regs s0) = NUM_REGS ->
  let it := loop_iterations len in
  outcome (observe (fun n => exec n (generate len Loop g).1 (reset s0)))
          (Ok (0, loop_regs 0 (5 * it), 8 * it + 4)).
Proof.
  intros HI Ha Hr it. apply (HI _ (reset s0) Ha eq_refl eq_refl). split; [done|].
  eexists. unfold observe. by rewrite loop_program_run.
Qed.

Lemma loop_program_spec_witness :
  outcome (observe (fun n => CallThreadedInterpreter.execute n
                      (generate 1000 Loop 7).1 (reset VMState_init)))
          (Ok (0, loop_regs 0 500, 804)).
Proof.
  apply (loop_program_spec lcg_engine CallThreadedInterpreter.execute dtc_accepts 1000 7
           VMState_init); [apply ctc_interpreter | reflexivity | reflexivity].
Defined.

(** ** Where the interpreters differ

    [NUM_BASIC_OPS] is 32, but there are only 29 basic opcodes: the
    enumerators [OP32], [OP33] and [OP34] have the values 29, 30 and 31. *)

(** Indirect threading indexes its label table out of bounds while it
    compiles a program that contains one of the first three extension opcodes,
    which the [switch] executes. *)
Theorem indirect_first_extensions_undefined n pre i post s :
  itc_accepts pre = true -> In (op i) [OP32; OP33; OP34] ->
  IndirectThreadedInterpreter.compile_and_execute n (pre ++ i :: post) s = Ub ArrayIndex.
Proof.
  intros Hpre Hop. unfold IndirectThreadedInterpreter.compile_and_execute.
  enough (IndirectThreadedInterpreter.compile (pre ++ i :: post) = Ub ArrayIndex) as -> by done.
  assert (IndirectThreadedInterpreter.compile_instr i = Ub ArrayIndex) as Hi.
  { unfold IndirectThreadedInterpreter.compile_instr.
    by destruct Hop as [<-|[<-|[<-|[]]]]. }
  destruct (itc_accepts_compile pre Hpre) as (preT & Hc & _). clear Hpre.
  revert preT Hc. induction pre as [|j pre IH]; intros preT Hc; cbn [app].
  - by rewrite itc_compile_cons, Hi.
  - rewrite itc_compile_cons in Hc |- *. inv_ok.
    rewrite Hv; cbn [mbind res_bind]. by rewrite (IH _ Hv0).
Qed.

Lemma indirect_first_extensions_undefined_witness :
  IndirectThreadedInterpreter.compile_and_execute 10 (ext_program OP33) reset_state = Ub ArrayIndex /\
  SwitchInterpreter.execute 10 (ext_program OP33) reset_state =
    Ok (6, mkVM (<[0%nat := 6]> (regs reset_state)) 0 1 2).
Proof.
  split; [|vm_compute; reflexivity].
  apply (indirect_first_extensions_undefined 10 [] (mkI OP33 0 1 2 0) [mkI HALT 0 0 0 0]);
    [reflexivity | cbn; tauto].
Defined.

Lemma u64_lxor a b : u64 (Z.lxor a b) = Z.lxor (u64 a) (u64 b).
Proof.
  unfold uwrap. rewrite <- !Z.land_ones by lia. apply Z.bits_inj'. intros k Hk.
  rewrite !Z.land_spec, !Z.lxor_spec, !Z.land_spec.
  by destruct (Z.testbit a k), (Z.testbit b k), (Z.testbit (Z.ones 64) k).
Qed.

(** Token threading computes a wrong value for every extension opcode: it
    subtracts 32 where the [switch] subtracts 29, so the operand of the
    exclusive or, and with it the result, always differs. *)
Theorem token_extension_differs o a b v v' :
  extension o = true ->
  ext64 (op_value o - op_value OP32) a b = Ok v ->
  TokenThreadedInterpreter.ext_size_t (op_value o) a b = Ok v' ->
  v <> v'.
Proof.
  unfold ext64, add64, s64_value, check, TokenThreadedInterpreter.ext_size_t, NUM_BASIC_OPS.
  intros He Hv Hv' ->. change (op_value OP32) with 29 in Hv.
  assert (29 <= op_value o < 61) as Ho.
  { unfold extension in He. apply andb_true_iff in He as [He Hl%Z.leb_le].
    apply op_value_range in He. change (op_value OP32) with 29 in Hl. lia. }
  destruct (sfits 64 _) eqn:Ef in Hv; [|done]. injection Hv as Hv. injection Hv' as Hv'.
  assert (u64 (Z.lxor a (op_value o - 29) + b) = u64 (Z.lxor a (op_value o - 32) + b)) as Hu.
  { rewrite Hv, <- Hv', uwrap_swrap, uwrap_uwrap, uwrap_add_r, <- u64_lxor by lia.
    apply uwrap_add_l. lia. }
  apply (f_equal (fun z => u64 (z + - b))) in Hu.
  rewrite !uwrap_add_l, !Z.add_opp_r, !Z.add_simpl_r, !u64_lxor in Hu by lia.
  apply (f_equal (Z.lxor (u64 a))) in Hu.
  rewrite <- !Z.lxor_assoc, !Z.lxor_nilpotent, !Z.lxor_0_l in Hu.
  unfold uwrap in Hu. rewrite Z.mod_small in Hu by lia.
  pose proof (Z.div_mod (op_value o - 32) (2 ^ 64)). lia.
Qed.

Lemma token_extension_differs_witness :
  exists v v', ext64 (op_value OP40 - op_value OP32) 2 3 = Ok v /\
    TokenThreadedInterpreter.ext_size_t (op_value OP40) 2 3 = Ok v' /\ v <> v'.
Proof.
  do 2 eexists. split; [vm_compute; reflexivity|]. split; [vm_compute; reflexivity|].
  apply (token_extension_differs OP40 2 3); vm_compute; reflexivity.
Defined.
