(* ===== verification/JsonLex.v ===== *)
(** * The four JSON tokenizers

    Part 2 of src/perf/threaded_code/json.cpp, one Module per class.  A
    tokenizer object is its two members, the input and the position; the
    tables that three of the classes keep in static variables are an explicit
    part of the state, with the code that fills them at the first use.  A loop
    over the input takes at most one turn per remaining character and one to
    leave, which is the fuel [turns] gives it; the theorems show that it is
    enough.  A position is at most the size of the input, so that additions to
    it do not wrap. *)

From S2P Require Import Prelude JsonChar.

Record Tok : Type := mkTok { input_ : list ascii; pos_ : Z }.

Definition size (t : Tok) : Z := Z.of_nat (length (input_ t)).

(** [pos_ += n]. *)
Definition adv (n : Z) (t : Tok) : Tok := mkTok (input_ t) (pos_ t + n).

(** [input_[pos_ + i]]. *)
Definition peek (i : Z) (t : Tok) : res ascii := (input_ t).[pos_ t + i].

(** [pos_ < input_.size()]. *)
Definition more (t : Tok) : bool := pos_ t <? size t.

Definition turns (t : Tok) : nat := S (length (input_ t)).

Definition reset (t : Tok) : Tok := mkTok (input_ t) 0.

Definition kw_true : list ascii := ["t"; "r"; "u"; "e"]%char.
Definition kw_false : list ascii := ["f"; "a"; "l"; "s"; "e"]%char.
Definition kw_null : list ascii := ["n"; "u"; "l"; "l"]%char.

(** The characters a number goes on with. *)
Definition number_char (c : ascii) : bool :=
  char_in "0" "9" c || (c =? ".")%char || (c =? "e")%char || (c =? "E")%char
  || (c =? "+")%char || (c =? "-")%char.

Definition found (tok : JsonToken.t) (t : Tok) : res (Tok + JsonToken.t * Tok) :=
  Ok (inr (tok, t)).

(** The loop of the string literals, the same in the three classes that compare
    characters (SwitchTokenizer::parse_string, handle_string and L_string). *)
Definition string_body (t : Tok) : res (Tok + JsonToken.t * Tok) :=
  if more t then
    c ← peek 0 t;
    let t := adv 1 t in
    if (c =? "034")%char then found JsonToken.String t
    else if (c =? "\")%char && more t then Ok (inl (adv 1 t))
    else Ok (inl t)
  else found JsonToken.Invalid t.

Definition number_body (t : Tok) : res (Tok + JsonToken.t * Tok) :=
  if more t then
    c ← peek 0 t;
    if number_char c then Ok (inl (adv 1 t)) else found JsonToken.Number t
  else found JsonToken.Number t.

(** The comparison with a keyword, with the index as its state. *)
Definition keyword_body (kw : list ascii) (len : Z) (t : Tok) (i : Z) :
    res (Z + bool) :=
  if i <? len then
    c ← peek i t; k ← kw.[i];
    if negb (c =? k)%char then Ok (inr false) else Ok (inl (i + 1))
  else Ok (inr true).

Definition parse_keyword (kw : list ascii) (len : Z) (token : JsonToken.t) (t : Tok) :
    res (JsonToken.t * Tok) :=
  if size t <? pos_ t + len then Ok (JsonToken.Invalid, t)
  else
    same ← loop (keyword_body kw len t) (S (Z.to_nat len)) 0;
    if (same : bool) then Ok (token, adv len t) else Ok (JsonToken.Invalid, t).

(** ** Method 1: switch *)

Module SwitchTokenizer.
Definition parse_string (t : Tok) : res (JsonToken.t * Tok) :=
  loop string_body (turns t) (adv 1 t).

Definition parse_number (t : Tok) : res (JsonToken.t * Tok) :=
  loop number_body (turns t) (adv 1 t).

(** A case of the switch that calls one of the parsers leaves the loop. *)
Definition tail_call (m : res (JsonToken.t * Tok)) : res (Tok + JsonToken.t * Tok) :=
  r ← m; Ok (inr r).

Definition switch (c : ascii) (t : Tok) : res (Tok + JsonToken.t * Tok) :=
  match c with
  | "{" => found JsonToken.ObjectStart (adv 1 t)
  | "}" => found JsonToken.ObjectEnd (adv 1 t)
  | "[" => found JsonToken.ArrayStart (adv 1 t)
  | "]" => found JsonToken.ArrayEnd (adv 1 t)
  | ":" => found JsonToken.Colon (adv 1 t)
  | "," => found JsonToken.Comma (adv 1 t)
  | "034" => tail_call (parse_string t)
  | "t" => tail_call (parse_keyword kw_true 4 JsonToken.True_ t)
  | "f" => tail_call (parse_keyword kw_false 5 JsonToken.False_ t)
  | "n" => tail_call (parse_keyword kw_null 4 JsonToken.Null t)
  | "-" | "0" | "1" | "2" | "3" | "4" | "5" | "6" | "7" | "8" | "9" =>
      tail_call (parse_number t)
  | _ => found JsonToken.Invalid (adv 1 t)
  end%char.

Definition body (t : Tok) : res (Tok + JsonToken.t * Tok) :=
  if more t then
    c ← peek 0 t;
    if (c =? " ")%char || (c =? "009")%char || (c =? "010")%char || (c =? "013")%char
    then Ok (inl (adv 1 t))
    else switch c t
  else found JsonToken.End t.

Definition next_token (t : Tok) : res (JsonToken.t * Tok) := loop body (turns t) t.
End SwitchTokenizer.

(** ** Method 2: tables of character classes and of single-character tokens *)

Module TableTokenizer.
Inductive CharClassId : Set :=
  | CC_WS | CC_LBRACE | CC_RBRACE | CC_LBRACKET | CC_RBRACKET
  | CC_QUOTE | CC_COLON | CC_COMMA | CC_MINUS | CC_DIGIT | CC_DOT
  | CC_EXP | CC_PLUS | CC_T | CC_F | CC_N | CC_BACKSLASH | CC_OTHER | CC_COUNT.

#[global] Instance CharClassId_eq_dec : EqDecision CharClassId.
Proof. solve_decision. Defined.

Definition cc_index (cc : CharClassId) : nat :=
  match cc with
  | CC_WS => 0 | CC_LBRACE => 1 | CC_RBRACE => 2 | CC_LBRACKET => 3
  | CC_RBRACKET => 4 | CC_QUOTE => 5 | CC_COLON => 6 | CC_COMMA => 7
  | CC_MINUS => 8 | CC_DIGIT => 9 | CC_DOT => 10 | CC_EXP => 11 | CC_PLUS => 12
  | CC_T => 13 | CC_F => 14 | CC_N => 15 | CC_BACKSLASH => 16 | CC_OTHER => 17
  | CC_COUNT => 18
  end%nat.

(** The static members and the zero values they start with. *)
Record Statics : Set := mkStatics {
  initialized_ : bool;
  char_class_ : list CharClassId;
  token_table_ : list JsonToken.t
}.

Definition statics0 : Statics :=
  mkStatics false (replicate 256 CC_WS) (replicate 18 JsonToken.Invalid).

Definition fill_char_class (table : list CharClassId) : list CharClassId :=
  let table := foldl (fun tab i => <[i := CC_OTHER]> tab) table (seq 0 256) in
  let table := table.<[" " := CC_WS]> in
  let table := table.<["009" := CC_WS]> in
  let table := table.<["010" := CC_WS]> in
  let table := table.<["013" := CC_WS]> in
  let table := table.<["{" := CC_LBRACE]> in
  let table := table.<["}" := CC_RBRACE]> in
  let table := table.<["[" := CC_LBRACKET]> in
  let table := table.<["]" := CC_RBRACKET]> in
  let table := table.<["034" := CC_QUOTE]> in
  let table := table.<[":" := CC_COLON]> in
  let table := table.<["," := CC_COMMA]> in
  let table := table.<["-" := CC_MINUS]> in
  let table := for_chars "0" "9" CC_DIGIT table in
  let table := table.<["." := CC_DOT]> in
  let table := table.<["e" := CC_EXP]> in
  let table := table.<["E" := CC_EXP]> in
  let table := table.<["+" := CC_PLUS]> in
  let table := table.<["t" := CC_T]> in
  let table := table.<["f" := CC_F]> in
  let table := table.<["n" := CC_N]> in
  let table := table.<["\" := CC_BACKSLASH]> in
  table.

Definition fill_token_table (table : list JsonToken.t) : list JsonToken.t :=
  let table := foldl (fun tab i => <[i := JsonToken.Invalid]> tab) table
                     (seq 0 (cc_index CC_COUNT)) in
  let table := <[cc_index CC_LBRACE := JsonToken.ObjectStart]> table in
  let table := <[cc_index CC_RBRACE := JsonToken.ObjectEnd]> table in
  let table := <[cc_index CC_LBRACKET := JsonToken.ArrayStart]> table in
  let table := <[cc_index CC_RBRACKET := JsonToken.ArrayEnd]> table in
  let table := <[cc_index CC_COLON := JsonToken.Colon]> table in
  let table := <[cc_index CC_COMMA := JsonToken.Comma]> table in
  table.

Definition init_tables (st : Statics) : Statics :=
  if initialized_ st then st
  else mkStatics true (fill_char_class (char_class_ st))
                 (fill_token_table (token_table_ st)).

(** [char_class_[static_cast<unsigned char>(input_[pos_])]]. *)
Definition class_at (st : Statics) (t : Tok) : res CharClassId :=
  c ← peek 0 t; (char_class_ st).[uchar c].

Definition is_class (a b : CharClassId) : bool := bool_decide (a = b).

Definition string_loop (st : Statics) (t : Tok) : res (Tok + JsonToken.t * Tok) :=
  if more t then
    cc ← class_at st t;
    let t := adv 1 t in
    if is_class cc CC_QUOTE then found JsonToken.String t
    else if is_class cc CC_BACKSLASH && more t then Ok (inl (adv 1 t))
    else Ok (inl t)
  else found JsonToken.Invalid t.

Definition parse_string (st : Statics) (t : Tok) : res (JsonToken.t * Tok) :=
  loop (string_loop st) (turns t) (adv 1 t).

Definition number_loop (st : Statics) (t : Tok) : res (Tok + JsonToken.t * Tok) :=
  if more t then
    cc ← class_at st t;
    if is_class cc CC_DIGIT || is_class cc CC_DOT || is_class cc CC_EXP
       || is_class cc CC_PLUS || is_class cc CC_MINUS
    then Ok (inl (adv 1 t)) else found JsonToken.Number t
  else found JsonToken.Number t.

Definition parse_number (st : Statics) (t : Tok) : res (JsonToken.t * Tok) :=
  loop (number_loop st) (turns t) (adv 1 t).

Definition skip_loop (st : Statics) (t : Tok) : res (Tok + Tok) :=
  if more t then
    cc ← class_at st t;
    if is_class cc CC_WS then Ok (inl (adv 1 t)) else Ok (inr t)
  else Ok (inr t).

Definition multi_char (st : Statics) (cc : CharClassId) (t : Tok) :
    res (JsonToken.t * Tok) :=
  match cc with
  | CC_QUOTE => parse_string st t
  | CC_MINUS | CC_DIGIT => parse_number st t
  | CC_T => parse_keyword kw_true 4 JsonToken.True_ t
  | CC_F => parse_keyword kw_false 5 JsonToken.False_ t
  | CC_N => parse_keyword kw_null 4 JsonToken.Null t
  | _ => Ok (JsonToken.Invalid, adv 1 t)
  end.

Definition next_token (st : Statics) (t : Tok) : res (JsonToken.t * Tok) :=
  t ← loop (skip_loop st) (turns t) t;
  if negb (more t) then Ok (JsonToken.End, t)
  else
    cc ← class_at st t;
    tok ← (token_table_ st).[Z.of_nat (cc_index cc)];
    if negb (bool_decide (tok = JsonToken.Invalid)) then Ok (tok, adv 1 t)
    else multi_char st cc t.

(** The constructor. *)
Definition create (st : Statics) (input : list ascii) : Statics * Tok :=
  (init_tables st, mkTok input 0).
End TableTokenizer.

(** ** Method 3: a table of handler functions *)

Module DirectThreadedTokenizer.
Definition TokenHandler : Type := Tok -> res (JsonToken.t * Tok).

Definition handle_skip : TokenHandler := fun t => Ok (JsonToken.Whitespace, adv 1 t).
Definition handle_object_start : TokenHandler := fun t => Ok (JsonToken.ObjectStart, adv 1 t).
Definition handle_object_end : TokenHandler := fun t => Ok (JsonToken.ObjectEnd, adv 1 t).
Definition handle_array_start : TokenHandler := fun t => Ok (JsonToken.ArrayStart, adv 1 t).
Definition handle_array_end : TokenHandler := fun t => Ok (JsonToken.ArrayEnd, adv 1 t).
Definition handle_colon : TokenHandler := fun t => Ok (JsonToken.Colon, adv 1 t).
Definition handle_comma : TokenHandler := fun t => Ok (JsonToken.Comma, adv 1 t).

Definition handle_string : TokenHandler := fun t => loop string_body (turns t) (adv 1 t).

Definition handle_number : TokenHandler := fun t => loop number_body (turns t) (adv 1 t).

(** [a && input_[pos_ + i] == c], which reads the input only if [a] holds. *)
Definition and_char (a : res bool) (i : Z) (c : ascii) (t : Tok) : res bool :=
  b ← a; if (b : bool) then x ← peek i t; Ok (x =? c)%char else Ok false.

(** [pos_ + n <= input_.size()]. *)
Definition room (n : Z) (t : Tok) : res bool := Ok (pos_ t + n <=? size t).

Definition handle_true : TokenHandler := fun t =>
  b ← and_char (and_char (and_char (room 4 t) 1 "r" t) 2 "u" t) 3 "e" t;
  if (b : bool) then Ok (JsonToken.True_, adv 4 t) else Ok (JsonToken.Invalid, adv 1 t).

Definition handle_false : TokenHandler := fun t =>
  b ← and_char (and_char (and_char (and_char (room 5 t) 1 "a" t) 2 "l" t) 3 "s" t) 4 "e" t;
  if (b : bool) then Ok (JsonToken.False_, adv 5 t) else Ok (JsonToken.Invalid, adv 1 t).

Definition handle_null : TokenHandler := fun t =>
  b ← and_char (and_char (and_char (room 4 t) 1 "u" t) 2 "l" t) 3 "l" t;
  if (b : bool) then Ok (JsonToken.Null, adv 4 t) else Ok (JsonToken.Invalid, adv 1 t).

Definition handle_invalid : TokenHandler := fun t => Ok (JsonToken.Invalid, adv 1 t).

(** The static members; a pointer that has not been set is [None]. *)
Record Statics : Type := mkStatics {
  initialized_ : bool;
  handlers_ : list (option TokenHandler)
}.

Definition statics0 : Statics := mkStatics false (replicate 256 None).

Definition fill_handlers (table : list (option TokenHandler)) :
    list (option TokenHandler) :=
  let table := foldl (fun tab i => <[i := Some handle_invalid]> tab) table (seq 0 256) in
  let table := table.<[" " := Some handle_skip]> in
  let table := table.<["009" := Some handle_skip]> in
  let table := table.<["010" := Some handle_skip]> in
  let table := table.<["013" := Some handle_skip]> in
  let table := table.<["{" := Some handle_object_start]> in
  let table := table.<["}" := Some handle_object_end]> in
  let table := table.<["[" := Some handle_array_start]> in
  let table := table.<["]" := Some handle_array_end]> in
  let table := table.<[":" := Some handle_colon]> in
  let table := table.<["," := Some handle_comma]> in
  let table := table.<["034" := Some handle_string]> in
  let table := table.<["t" := Some handle_true]> in
  let table := table.<["f" := Some handle_false]> in
  let table := table.<["n" := Some handle_null]> in
  let table := table.<["-" := Some handle_number]> in
  let table := for_chars "0" "9" (Some handle_number) table in
  table.

Definition init_handlers (st : Statics) : Statics :=
  if initialized_ st then st else mkStatics true (fill_handlers (handlers_ st)).

(** A call through a function pointer. *)
Definition call (h : option TokenHandler) : TokenHandler := fun t =>
  match h with Some f => f t | None => Ub CodeLabel end.

Definition body (st : Statics) (t : Tok) : res (Tok + JsonToken.t * Tok) :=
  if more t then
    c ← peek 0 t;
    h ← (handlers_ st).[uchar c];
    '(result, t) ← call h t;
    if negb (bool_decide (result = JsonToken.Whitespace)) then found result t
    else Ok (inl t)
  else found JsonToken.End t.

Definition next_token (st : Statics) (t : Tok) : res (JsonToken.t * Tok) :=
  loop (body st) (turns t) t.

(** The constructor. *)
Definition create (st : Statics) (input : list ascii) : Statics * Tok :=
  (init_handlers st, mkTok input 0).
End DirectThreadedTokenizer.

(** ** Method 4: computed goto *)

Module ComputedGotoTokenizer.
Inductive Label : Set :=
  | L_skip | L_object_start | L_object_end | L_array_start | L_array_end | L_colon
  | L_comma | L_string | L_number | L_true | L_false | L_null | L_invalid.

(** The static variables of [next_token]. *)
Record Statics : Set := mkStatics {
  dispatch_table : list (option Label);
  table_init : bool
}.

Definition statics0 : Statics := mkStatics (replicate 256 None) false.

Definition fill_dispatch (table : list (option Label)) : list (option Label) :=
  let table := foldl (fun tab i => <[i := Some L_invalid]> tab) table (seq 0 256) in
  let table := table.<[" " := Some L_skip]> in
  let table := table.<["009" := Some L_skip]> in
  let table := table.<["010" := Some L_skip]> in
  let table := table.<["013" := Some L_skip]> in
  let table := table.<["{" := Some L_object_start]> in
  let table := table.<["}" := Some L_object_end]> in
  let table := table.<["[" := Some L_array_start]> in
  let table := table.<["]" := Some L_array_end]> in
  let table := table.<[":" := Some L_colon]> in
  let table := table.<["," := Some L_comma]> in
  let table := table.<["034" := Some L_string]> in
  let table := table.<["t" := Some L_true]> in
  let table := table.<["f" := Some L_false]> in
  let table := table.<["n" := Some L_null]> in
  let table := table.<["-" := Some L_number]> in
  let table := for_chars "0" "9" (Some L_number) table in
  table.

(** [DISPATCH()] reads the next character without a bounds check of its own. *)
Definition DISPATCH (st : Statics) (t : Tok) : res Label :=
  c ← peek 0 t;
  l ← (dispatch_table st).[uchar c];
  match l with Some l => Ok l | None => Ub CodeLabel end.

Definition and_char := DirectThreadedTokenizer.and_char.
Definition room := DirectThreadedTokenizer.room.

(** [if (cond) { pos_ += n; return tok; } ++pos_; return Invalid;]. *)
Definition keyword (cond : res bool) (n : Z) (tok : JsonToken.t) (t : Tok) :
    res (Label * Tok + JsonToken.t * Tok) :=
  b ← cond;
  if (b : bool) then Ok (inr (tok, adv n t)) else Ok (inr (JsonToken.Invalid, adv 1 t)).

Definition single (tok : JsonToken.t) (t : Tok) : res (Label * Tok + JsonToken.t * Tok) :=
  Ok (inr (tok, adv 1 t)).

(** The code at a label, up to the next jump or the return. *)
Definition label_body (st : Statics) (s : Label * Tok) :
    res (Label * Tok + JsonToken.t * Tok) :=
  let '(l, t) := s in
  match l with
  | L_skip =>
      let t := adv 1 t in
      if size t <=? pos_ t then Ok (inr (JsonToken.End, t))
      else l ← DISPATCH st t; Ok (inl (l, t))
  | L_object_start => single JsonToken.ObjectStart t
  | L_object_end => single JsonToken.ObjectEnd t
  | L_array_start => single JsonToken.ArrayStart t
  | L_array_end => single JsonToken.ArrayEnd t
  | L_colon => single JsonToken.Colon t
  | L_comma => single JsonToken.Comma t
  | L_string => r ← loop string_body (turns t) (adv 1 t); Ok (inr r)
  | L_number => r ← loop number_body (turns t) (adv 1 t); Ok (inr r)
  | L_true =>
      keyword (and_char (and_char (and_char (room 4 t) 1 "r" t) 2 "u" t) 3 "e" t)
        4 JsonToken.True_ t
  | L_false =>
      keyword (and_char (and_char (and_char (and_char (room 5 t) 1 "a" t) 2 "l" t)
                 3 "s" t) 4 "e" t) 5 JsonToken.False_ t
  | L_null =>
      keyword (and_char (and_char (and_char (room 4 t) 1 "u" t) 2 "l" t) 3 "l" t)
        4 JsonToken.Null t
  | L_invalid => single JsonToken.Invalid t
  end.

Definition next_token (st : Statics) (t : Tok) : res (JsonToken.t * (Statics * Tok)) :=
  let st := if table_init st then st
            else mkStatics (fill_dispatch (dispatch_table st)) true in
  if size t <=? pos_ t then Ok (JsonToken.End, (st, t))
  else
    l ← DISPATCH st t;
    '(tok, t) ← loop (label_body st) (turns t) (l, t);
    Ok (tok, (st, t)).
End ComputedGotoTokenizer.

(** ** The benchmark loop

    [tokenize_all] is a template over the tokenizer class: here over the type
    of its state and its [next_token]. *)

Definition tokenize_body {T} (next_token : T -> res (JsonToken.t * T)) (s : T * Z) :
    res (T * Z + T * Z) :=
  let '(tok, sum) := s in
  '(t, tok) ← next_token tok;
  if negb (bool_decide (t = JsonToken.End))
  then Ok (inl (tok, u64 (sum + JsonToken.value t)))
  else Ok (inr (tok, sum)).

Definition tokenize_all {T} (next_token : T -> res (JsonToken.t * T)) (fuel : nat)
    (tok : T) (sum : Z) : res (T * Z) :=
  loop (tokenize_body next_token) fuel (tok, sum).
