(* ===== verification/JsonLexSpec.v ===== *)
(** * What a tokenizer promises, and that the four classes keep it

    The specification is a function on the rest of the input: [lex] gives the
    next token and what is left.  The classes differ in one point, what they
    do with a word that starts like a keyword and is none: the table of
    functions and the computed goto drop its first character, the switch and
    the table of classes leave the position where it is; [lex] has a parameter
    for it.  [Lexer] is the interface the theorems on whole inputs are proved
    against; the last section has its four instances. *)

From S2P Require Import Prelude JsonChar JsonLex.

(** ** The specification *)

Inductive Kw : Set := KwTrue | KwFalse | KwNull.

Definition kw_text (k : Kw) : list ascii :=
  match k with KwTrue => kw_true | KwFalse => kw_false | KwNull => kw_null end.

Definition kw_token (k : Kw) : JsonToken.t :=
  match k with
  | KwTrue => JsonToken.True_ | KwFalse => JsonToken.False_ | KwNull => JsonToken.Null
  end.

(** What the first character of a token announces. *)
Inductive Kind : Set :=
  | KSkip | KSingle (tok : JsonToken.t) | KString | KNumber | KKeyword (k : Kw) | KInvalid.

#[export] Instance Kw_eq_dec : EqDecision Kw.
Proof. solve_decision. Defined.
#[export] Instance Kind_eq_dec : EqDecision Kind.
Proof. solve_decision. Defined.

Definition kind (c : ascii) : Kind :=
  match c with
  | " " | "009" | "010" | "013" => KSkip
  | "{" => KSingle JsonToken.ObjectStart
  | "}" => KSingle JsonToken.ObjectEnd
  | "[" => KSingle JsonToken.ArrayStart
  | "]" => KSingle JsonToken.ArrayEnd
  | ":" => KSingle JsonToken.Colon
  | "," => KSingle JsonToken.Comma
  | "034" => KString
  | "t" => KKeyword KwTrue
  | "f" => KKeyword KwFalse
  | "n" => KKeyword KwNull
  | "-" | "0" | "1" | "2" | "3" | "4" | "5" | "6" | "7" | "8" | "9" => KNumber
  | _ => KInvalid
  end%char.

(** The rest of a string literal after the opening quote: a backslash takes the
    next character with it. *)
Fixpoint lex_string (s : list ascii) : JsonToken.t * list ascii :=
  match s with
  | [] => (JsonToken.Invalid, [])
  | c :: s =>
      if (c =? "034")%char then (JsonToken.String, s)
      else if (c =? "\")%char then
        match s with [] => (JsonToken.Invalid, []) | _ :: s => lex_string s end
      else lex_string s
  end.

Fixpoint lex_number (s : list ascii) : list ascii :=
  match s with
  | c :: s' => if number_char c then lex_number s' else s
  | [] => []
  end.

(** The rest of a text after a given word. *)
Fixpoint strip (w s : list ascii) : option (list ascii) :=
  match w, s with
  | [], _ => Some s
  | a :: w, c :: s => if (c =? a)%char then strip w s else None
  | _ :: _, [] => None
  end.

Definition lex_keyword (recover : bool) (k : Kw) (s : list ascii) :
    JsonToken.t * list ascii :=
  match strip (kw_text k) s with
  | Some s' => (kw_token k, s')
  | None => (JsonToken.Invalid, if recover then tail s else s)
  end.

Fixpoint lex (recover : bool) (s : list ascii) : JsonToken.t * list ascii :=
  match s with
  | [] => (JsonToken.End, [])
  | c :: s' =>
      match kind c with
      | KSkip => lex recover s'
      | KSingle tok => (tok, s')
      | KString => lex_string s'
      | KNumber => (JsonToken.Number, lex_number s')
      | KKeyword k => lex_keyword recover k s
      | KInvalid => (JsonToken.Invalid, s')
      end
  end.

(** The whole stream of tokens of a text, the end excluded. *)
Inductive lexes (recover : bool) : list ascii -> list JsonToken.t -> Prop :=
  | lexes_end s s' : lex recover s = (JsonToken.End, s') -> lexes recover s []
  | lexes_token s tok s' toks :
      lex recover s = (tok, s') -> tok <> JsonToken.End -> lexes recover s' toks ->
      lexes recover s (tok :: toks).

(** ** Objects and the text they see *)

Definition sees (t : Tok) (s : list ascii) : Prop :=
  exists pre, input_ t = pre ++ s /\ pos_ t = Z.of_nat (length pre).

(** The object with [s] left of its input. *)
Definition upto (t : Tok) (s : list ascii) : Tok :=
  mkTok (input_ t) (size t - Z.of_nat (length s)).

Lemma sees_drop t : 0 <= pos_ t <= size t -> sees t (drop (Z.to_nat (pos_ t)) (input_ t)).
Proof.
  unfold size. intros H. exists (take (Z.to_nat (pos_ t)) (input_ t)).
  rewrite take_drop, length_take. split; [done | lia].
Qed.

Lemma sees_range t s : sees t s -> 0 <= pos_ t <= size t.
Proof.
  intros (pre & E & P). unfold size. rewrite E, P, length_app. lia.
Qed.

Lemma sees_upto t s : sees t s -> t = upto t s.
Proof.
  intros (pre & E & P). destruct t as [i p]; unfold upto, size; simpl in *.
  f_equal. rewrite E, P, length_app. lia.
Qed.

Lemma sees_size t s : sees t s -> size t - pos_ t = Z.of_nat (length s).
Proof. intros (pre & E & P). unfold size. rewrite E, P, length_app. lia. Qed.

Lemma sees_more t s : sees t s -> more t = match s with [] => false | _ => true end.
Proof.
  intros Hs. pose proof (sees_size _ _ Hs). unfold more.
  destruct s; cbn [length] in *; [apply Z.ltb_ge | apply Z.ltb_lt]; lia.
Qed.

Lemma sees_at t s i c : sees t s -> s !! i = Some c -> peek (Z.of_nat i) t = Ok c.
Proof.
  intros (pre & E & P) Hi. unfold peek. apply at_index_lookup; [lia|].
  rewrite E, P, <- Nat2Z.inj_add, Nat2Z.id, lookup_app_r by lia.
  rewrite <- Hi. f_equal. lia.
Qed.

Lemma sees_peek t c s : sees t (c :: s) -> peek 0 t = Ok c.
Proof. intros H. by apply (sees_at t (c :: s) 0). Qed.

Lemma sees_app t w s : sees t (w ++ s) -> sees (adv (Z.of_nat (length w)) t) s.
Proof.
  intros (pre & E & P). exists (pre ++ w). unfold adv; simpl.
  rewrite E, P, <- app_assoc, length_app. split; [done | lia].
Qed.

Lemma sees_adv t c s : sees t (c :: s) -> sees (adv 1 t) s.
Proof. apply (sees_app t [c] s). Qed.

Lemma sees_turns t s : sees t s -> (length s < turns t)%nat.
Proof. intros (pre & E & _). unfold turns. rewrite E, length_app. lia. Qed.

Lemma upto_adv t n s : upto (adv n t) s = upto t s.
Proof. reflexivity. Qed.

Lemma upto_sees t s s' : sees t s -> s' `suffix_of` s -> sees (upto t s') s'.
Proof.
  intros (pre & E & P) [k ->]. exists (pre ++ k). unfold upto, size; cbn.
  rewrite E, !length_app, <- app_assoc. split; [done | lia].
Qed.

Lemma sees_inj t s s' : sees t s -> sees t s' -> s = s'.
Proof.
  intros (p & E & P) (p' & E' & P').
  rewrite E in E'. apply app_inj_1 in E' as [_ ?]; [done | lia].
Qed.

#[export] Hint Resolve sees_adv sees_peek sees_more upto_sees : cxx.

(** ** The shared loops *)

(** A finite check over the characters. *)
Lemma char_check (P : ascii -> bool) :
  forallb P (ascii_of_nat <$> seq 0 256) = true -> forall c, P c = true.
Proof.
  intros H c. apply (forallb_elem _ _ _ H), list_elem_of_In, list_elem_of_fmap.
  exists (nat_of_ascii c). rewrite ascii_nat_embedding. split; [done|].
  apply elem_of_seq. pose proof (nat_ascii_bounded c). lia.
Qed.

Lemma lex_string_suffix s : (lex_string s).2 `suffix_of` s.
Proof.
  induction s as [[|c s] IH] using (induction_ltof1 _ length); [done|].
  unfold ltof in IH. cbn [lex_string]. case_match; [by apply suffix_cons_r|].
  case_match.
  - destruct s as [|d s]; [by apply suffix_nil|].
    do 2 apply suffix_cons_r. apply IH; cbn; lia.
  - apply suffix_cons_r, IH; cbn; lia.
Qed.

Lemma lex_number_suffix s : lex_number s `suffix_of` s.
Proof.
  induction s as [|c s IH]; [done|]. cbn [lex_number].
  case_match; [by apply suffix_cons_r | done].
Qed.

Lemma strip_app w s s' : strip w s = Some s' <-> s = w ++ s'.
Proof.
  revert s. induction w as [|a w IH]; intros s; simpl.
  - split; [by intros [= ->] | by intros ->].
  - destruct s as [|c s]; [done|]. destruct (Ascii.eqb_spec c a) as [->|Hne].
    + rewrite IH. split; [by intros -> | by intros [= ->]].
    + split; [done | by intros [= ]].
Qed.

Lemma lex_keyword_suffix r k s : (lex_keyword r k s).2 `suffix_of` s.
Proof.
  unfold lex_keyword. destruct (strip _ s) eqn:E; simpl.
  - apply strip_app in E as ->. by apply suffix_app_r.
  - destruct r; [|done]. destruct s; [done | by apply suffix_cons_r].
Qed.

Lemma lex_suffix r s : (lex r s).2 `suffix_of` s.
Proof.
  induction s as [|c s IH]; [done|]. cbn [lex].
  destruct (kind c); simpl; auto using suffix_cons_r, lex_string_suffix,
    lex_number_suffix, lex_keyword_suffix.
Qed.

Lemma string_loop_spec n t s :
  sees t s -> (length s < n)%nat ->
  loop string_body n t = Ok ((lex_string s).1, upto t (lex_string s).2).
Proof.
  revert t s. induction n as [n IH] using lt_wf_ind. intros t s Hs Hn.
  destruct n as [|n]; [lia|]. rewrite loop_S. unfold string_body.
  rewrite (sees_more t s Hs). destruct s as [|c s]; cbn [lex_string].
  { cbn. by rewrite <- (sees_upto t []). }
  rewrite (sees_peek t c s Hs), bind_ok. cbn [length] in Hn.
  pose proof (sees_adv _ _ _ Hs) as Hs1. rewrite (sees_more _ _ Hs1).
  destruct (c =? "034")%char; [cbn; by rewrite (sees_upto _ _ Hs1)|].
  destruct (c =? "\")%char, s as [|d s]; cbn [andb]; rewrite bind_ok;
    cbn [length] in Hn; (erewrite (IH n); [|lia|eauto with cxx|cbn; lia]); done.
Qed.

Lemma number_loop_spec n t s :
  sees t s -> (length s < n)%nat ->
  loop number_body n t = Ok (JsonToken.Number, upto t (lex_number s)).
Proof.
  revert t s. induction n as [|n IH]; intros t s Hs Hn; [lia|].
  rewrite loop_S. unfold number_body. rewrite (sees_more t s Hs).
  destruct s as [|c s]; cbn [lex_number].
  { cbn. by rewrite <- (sees_upto t []). }
  rewrite (sees_peek t c s Hs), bind_ok. cbn [length] in Hn.
  destruct (number_char c); cbn.
  - rewrite (IH _ s); [done | eauto with cxx | lia].
  - by rewrite <- (sees_upto t (c :: s)).
Qed.

Lemma keyword_loop_spec kw t s n i :
  sees t s -> (i <= length kw <= length s)%nat -> (length kw - i < n)%nat ->
  loop (keyword_body kw (Z.of_nat (length kw)) t) n (Z.of_nat i) =
  Ok (match strip (drop i kw) (drop i s) with Some _ => true | None => false end).
Proof.
  intros Hs. revert i. induction n as [|n IH]; intros i Hi Hn; [lia|].
  rewrite loop_S. unfold keyword_body at 2.
  destruct (Z.ltb_spec (Z.of_nat i) (Z.of_nat (length kw))).
  - destruct (lookup_lt_is_Some_2 kw i) as [k Hk]; [lia|].
    destruct (lookup_lt_is_Some_2 s i) as [c Hc]; [lia|].
    rewrite (sees_at _ _ _ _ Hs Hc), bind_ok.
    rewrite (at_index_lookup _ _ k), bind_ok by (try lia; by rewrite Nat2Z.id).
    rewrite (drop_S kw k i Hk), (drop_S s c i Hc). cbn [strip].
    destruct (c =? k)%char; [|done]. cbn. rewrite <- IH by lia. f_equal. lia.
  - assert (i = length kw) as -> by lia. by rewrite drop_all.
Qed.

Lemma parse_keyword_spec kw tok t s :
  sees t s ->
  parse_keyword kw (Z.of_nat (length kw)) tok t =
  Ok (match strip kw s with
      | Some s' => (tok, upto t s')
      | None => (JsonToken.Invalid, t)
      end).
Proof.
  intros Hs. unfold parse_keyword. pose proof (sees_size _ _ Hs).
  destruct (Z.ltb_spec (size t) (pos_ t + Z.of_nat (length kw))).
  - destruct (strip kw s) eqn:E; [|done].
    apply strip_app in E as ->. rewrite length_app in *. lia.
  - rewrite (keyword_loop_spec kw t s _ 0) by (done || lia).
    rewrite bind_ok, !drop_0. destruct (strip kw s) as [s'|] eqn:E; [|done].
    apply strip_app in E as ->. by rewrite (sees_upto _ _ (sees_app _ _ _ Hs)).
Qed.

(** ** The switch *)

(** What a class that leaves a malformed keyword in place does with a
    character, by its kind. *)
Definition stay_turn (c : ascii) (t : Tok) : res (Tok + JsonToken.t * Tok) :=
  match kind c with
  | KSkip => Ok (inl (adv 1 t))
  | KSingle tok => found tok (adv 1 t)
  | KString => r ← loop string_body (turns t) (adv 1 t); Ok (inr r)
  | KNumber => r ← loop number_body (turns t) (adv 1 t); Ok (inr r)
  | KKeyword k =>
      r ← parse_keyword (kw_text k) (Z.of_nat (length (kw_text k))) (kw_token k) t;
      Ok (inr r)
  | KInvalid => found JsonToken.Invalid (adv 1 t)
  end.

Lemma string_spec t c s :
  sees t (c :: s) ->
  loop string_body (turns t) (adv 1 t) = Ok ((lex_string s).1, upto t (lex_string s).2).
Proof.
  intros Hs. rewrite (string_loop_spec _ _ s); eauto with cxx.
  pose proof (sees_turns _ _ Hs); cbn [length] in *; lia.
Qed.

Lemma number_spec t c s :
  sees t (c :: s) ->
  loop number_body (turns t) (adv 1 t) = Ok (JsonToken.Number, upto t (lex_number s)).
Proof.
  intros Hs. rewrite (number_loop_spec _ _ s); eauto with cxx.
  pose proof (sees_turns _ _ Hs); cbn [length] in *; lia.
Qed.

Definition lex_result (r : bool) (t : Tok) (s : list ascii) : JsonToken.t * Tok :=
  ((lex r s).1, upto t (lex r s).2).

Lemma stay_turn_spec t c s :
  sees t (c :: s) ->
  stay_turn c t =
    match kind c with
    | KSkip => Ok (inl (adv 1 t))
    | _ => Ok (inr (lex_result false t (c :: s)))
    end.
Proof.
  intros Hs. unfold stay_turn, lex_result. cbn [lex].
  pose proof (sees_upto _ _ (sees_adv _ _ _ Hs)) as E1. rewrite upto_adv in E1.
  destruct (kind c) as [|tok| | |k|]; cbn [fst snd]; unfold found; try by rewrite E1.
  - by rewrite (string_spec t c s Hs).
  - by rewrite (number_spec t c s Hs).
  - rewrite (parse_keyword_spec _ _ t _ Hs), bind_ok. unfold lex_keyword.
    destruct (strip _ _); cbn; [done | by rewrite <- (sees_upto _ _ Hs)].
Qed.

(** A loop that skips whitespace and otherwise leaves with the next token. *)
Lemma lex_loop_spec r (body : Tok -> res (Tok + JsonToken.t * Tok)) n t s :
  (forall t, sees t [] -> body t = found JsonToken.End t) ->
  (forall t c s, sees t (c :: s) ->
     body t = match kind c with
              | KSkip => Ok (inl (adv 1 t))
              | _ => Ok (inr (lex_result r t (c :: s)))
              end) ->
  sees t s -> (length s < n)%nat -> loop body n t = Ok (lex_result r t s).
Proof.
  intros Hnil Hcons. revert t s. induction n as [|n IH]; intros t s Hs Hn; [lia|].
  rewrite loop_S. destruct s as [|c s].
  - rewrite (Hnil t Hs). cbn. by rewrite (sees_upto t [] Hs) at 1.
  - rewrite (Hcons t c s Hs). unfold lex_result. cbn [lex length] in *.
    destruct (kind c); cbn [mbind res_bind]; [|done..].
    rewrite (IH _ s); eauto with cxx. lia.
Qed.

Lemma switch_turn c t :
  (if (c =? " ")%char || (c =? "009")%char || (c =? "010")%char || (c =? "013")%char
   then Ok (inl (adv 1 t)) else SwitchTokenizer.switch c t) = stay_turn c t.
Proof. by destruct c as [[] [] [] [] [] [] [] []]. Qed.

Lemma switch_next_spec t s :
  sees t s -> SwitchTokenizer.next_token t = Ok (lex_result false t s).
Proof.
  intros Hs. apply lex_loop_spec; [| |done|by apply sees_turns].
  - intros t' H. unfold SwitchTokenizer.body. by rewrite (sees_more _ _ H).
  - intros t' c s' H. unfold SwitchTokenizer.body.
    rewrite (sees_more _ _ H), (sees_peek _ _ _ H), bind_ok, switch_turn.
    by apply stay_turn_spec.
Qed.

(** * The tokenizer classes refine the specification

    The tables of the other three classes and their [next_token], and the
    interface [Lexer] with an instance per class. *)

(** ** Tables indexed by a character *)

Definition all_chars : list ascii := ascii_of_nat <$> seq 0 256.

Lemma table_lookup {A} (tab : list A) (f : ascii -> A) :
  tab = f <$> all_chars -> forall c, tab.[uchar c] = Ok (f c).
Proof.
  intros -> c. unfold uchar, all_chars. apply at_index_lookup; [lia|].
  rewrite Nat2Z.id, !list_lookup_fmap.
  rewrite lookup_seq_lt by apply nat_ascii_bounded. cbn.
  by rewrite ascii_nat_embedding.
Qed.

Lemma unwrap_inr {A B} (m : res B) (r : B) :
  (x ← m; Ok (inr x : A + B)) = Ok (inr r) -> m = Ok r.
Proof. destruct m; cbn; congruence. Qed.

(** ** The table of character classes *)

Module TableSpec.
Import TableTokenizer.

(** The static tables after a constructor has run. *)
Definition ready : Statics := init_tables statics0.

Definition cc_of (c : ascii) : CharClassId :=
  match c with
  | " " | "009" | "010" | "013" => CC_WS
  | "{" => CC_LBRACE | "}" => CC_RBRACE | "[" => CC_LBRACKET | "]" => CC_RBRACKET
  | "034" => CC_QUOTE | ":" => CC_COLON | "," => CC_COMMA | "-" => CC_MINUS
  | "0" | "1" | "2" | "3" | "4" | "5" | "6" | "7" | "8" | "9" => CC_DIGIT
  | "." => CC_DOT | "e" | "E" => CC_EXP | "+" => CC_PLUS
  | "t" => CC_T | "f" => CC_F | "n" => CC_N | "\" => CC_BACKSLASH
  | _ => CC_OTHER
  end%char.

Lemma char_class_lookup c : (char_class_ ready).[uchar c] = Ok (cc_of c).
Proof. apply table_lookup. vm_compute. reflexivity. Qed.

Lemma class_at_peek t : class_at ready t = (c ← peek 0 t; Ok (cc_of c)).
Proof. unfold class_at. apply bind_ext. intros c. apply char_class_lookup. Qed.

Lemma string_loop_body t : string_loop ready t = string_body t.
Proof.
  unfold string_loop, string_body. case_match; [|done].
  rewrite class_at_peek, bind_assoc. apply bind_ext. intros c. rewrite bind_ok.
  by destruct c as [[] [] [] [] [] [] [] []].
Qed.

Lemma number_loop_body t : number_loop ready t = number_body t.
Proof.
  unfold number_loop, number_body. case_match; [|done].
  rewrite class_at_peek, bind_assoc. apply bind_ext. intros c. rewrite bind_ok.
  by destruct c as [[] [] [] [] [] [] [] []].
Qed.

(** After the whitespace the class decides as the switch does. *)
Lemma lookup_turn c t :
  kind c <> KSkip ->
  (tok ← (token_table_ ready).[Z.of_nat (cc_index (cc_of c))];
   if negb (bool_decide (tok = JsonToken.Invalid)) then Ok (tok, adv 1 t)
   else multi_char ready (cc_of c) t) =
  match kind c with
  | KSkip => Ub CodeLabel
  | KSingle tok => Ok (tok, adv 1 t)
  | KString => parse_string ready t
  | KNumber => parse_number ready t
  | KKeyword k =>
      parse_keyword (kw_text k) (Z.of_nat (length (kw_text k))) (kw_token k) t
  | KInvalid => Ok (JsonToken.Invalid, adv 1 t)
  end.
Proof. by destruct c as [[] [] [] [] [] [] [] []]. Qed.

Fixpoint skip_ws (s : list ascii) : list ascii :=
  match s with
  | c :: s' => match kind c with KSkip => skip_ws s' | _ => s end
  | [] => []
  end.

Lemma lex_skip_ws r s : lex r (skip_ws s) = lex r s.
Proof.
  induction s as [|c s IH]; [done|]. cbn [skip_ws].
  destruct (kind c) eqn:E; [|done..]. cbn [lex]. by rewrite E.
Qed.

Lemma skip_ws_head s c s' : skip_ws s = c :: s' -> kind c <> KSkip.
Proof.
  induction s as [|d s IH]; [done|]. cbn [skip_ws].
  destruct (kind d) eqn:E; [done | by intros [= <- <-]; rewrite E..].
Qed.

Lemma skip_ws_suffix s : skip_ws s `suffix_of` s.
Proof.
  induction s as [|c s IH]; [done|]. cbn [skip_ws].
  destruct (kind c); [by apply suffix_cons_r | done..].
Qed.

Lemma is_class_ws c : is_class (cc_of c) CC_WS = match kind c with KSkip => true | _ => false end.
Proof. by destruct c as [[] [] [] [] [] [] [] []]. Qed.

Lemma skip_loop_spec n t s :
  sees t s -> (length s < n)%nat -> loop (skip_loop ready) n t = Ok (upto t (skip_ws s)).
Proof.
  revert t s. induction n as [|n IH]; intros t s Hs Hn; [lia|].
  rewrite loop_S. unfold skip_loop at 2. rewrite (sees_more _ _ Hs).
  destruct s as [|c s]; cbn [skip_ws].
  { cbn. by rewrite <- (sees_upto t []). }
  rewrite class_at_peek, (sees_peek _ _ _ Hs), !bind_ok, is_class_ws.
  cbn [length] in Hn. destruct (kind c); cbn; try by rewrite <- (sees_upto t (c :: s)).
  rewrite (IH _ s); [done | eauto with cxx | lia].
Qed.

Lemma table_next_spec t s : sees t s -> next_token ready t = Ok (lex_result false t s).
Proof.
  intros Hs. unfold next_token.
  rewrite (skip_loop_spec _ _ _ Hs (sees_turns _ _ Hs)), bind_ok.
  pose proof (upto_sees _ _ _ Hs (skip_ws_suffix s)) as Hu.
  replace (lex_result false t s) with (lex_result false t (skip_ws s))
    by (unfold lex_result; by rewrite lex_skip_ws).
  rewrite (sees_more _ _ Hu). destruct (skip_ws s) as [|c s'] eqn:E; [done|].
  pose proof (skip_ws_head _ _ _ E) as Hk.
  rewrite class_at_peek, (sees_peek _ _ _ Hu), !bind_ok, lookup_turn by done.
  pose proof (stay_turn_spec _ _ _ Hu) as Hst. unfold stay_turn in Hst.
  unfold parse_string, parse_number.
  rewrite (loop_ext _ string_body _ _ string_loop_body).
  rewrite (loop_ext _ number_body _ _ number_loop_body).
  change (lex_result false (upto t (c :: s')) (c :: s'))
    with (lex_result false t (c :: s')) in Hst.
  destruct (kind c); [done | apply (unwrap_inr (A := Tok)), Hst..].
Qed.
End TableSpec.

(** ** The classes that drop the first character of a malformed keyword *)

Lemma lex_token_not_ws r s : (lex r s).1 <> JsonToken.Whitespace.
Proof.
  assert (forall s, (lex_string s).1 <> JsonToken.Whitespace) as Hstr.
  { intros s'. induction s' as [[|c s'] IH] using (induction_ltof1 _ length); [done|].
    unfold ltof in IH. cbn [lex_string length] in *. repeat case_match; try done;
      subst; apply IH; cbn; lia. }
  induction s as [|c s IH]; [done|]. cbn [lex].
  destruct (kind c) as [|tok| | |k|] eqn:E; cbn; auto.
  - by destruct c as [[] [] [] [] [] [] [] []]; inversion E.
  - unfold lex_keyword. by destruct (strip _ _), k.
Qed.

Lemma kind_keyword c k : kind c = KKeyword k -> exists w, kw_text k = c :: w.
Proof. destruct c as [[] [] [] [] [] [] [] []]; intros [= <-]; by eexists. Qed.

Module DirectSpec.
Import DirectThreadedTokenizer.

Definition ready : Statics := init_handlers statics0.

Definition handler_of (k : Kind) : TokenHandler :=
  match k with
  | KSkip => handle_skip
  | KSingle JsonToken.ObjectStart => handle_object_start
  | KSingle JsonToken.ObjectEnd => handle_object_end
  | KSingle JsonToken.ArrayStart => handle_array_start
  | KSingle JsonToken.ArrayEnd => handle_array_end
  | KSingle JsonToken.Colon => handle_colon
  | KSingle JsonToken.Comma => handle_comma
  | KString => handle_string
  | KNumber => handle_number
  | KKeyword KwTrue => handle_true
  | KKeyword KwFalse => handle_false
  | KKeyword KwNull => handle_null
  | _ => handle_invalid
  end.

Lemma handler_lookup c : (handlers_ ready).[uchar c] = Ok (Some (handler_of (kind c))).
Proof. apply (table_lookup _ (fun c => Some (handler_of (kind c)))). reflexivity. Qed.

Lemma single_of c tok t :
  kind c = KSingle tok -> handler_of (KSingle tok) t = Ok (tok, adv 1 t).
Proof. by destruct c as [[] [] [] [] [] [] [] []]; intros [= <-]. Qed.

(** Reads past the characters a class has made sure of do not happen. *)
Lemma room_spec n t s : sees t s -> room n t = Ok (n <=? Z.of_nat (length s)).
Proof.
  intros Hs. pose proof (sees_size _ _ Hs). unfold room. f_equal.
  destruct (Z.leb_spec (pos_ t + n) (size t)), (Z.leb_spec n (Z.of_nat (length s)));
    done || lia.
Qed.

Lemma and_char_spec (b : bool) i c t s :
  sees t s -> (b = true -> is_Some (s !! i)) ->
  and_char (Ok b) (Z.of_nat i) c t =
  Ok (b && match s !! i with Some x => (x =? c)%char | None => false end).
Proof.
  intros Hs Hi. unfold and_char. rewrite bind_ok. destruct b; [|done].
  destruct Hi as [x Hx]; [done|]. by rewrite (sees_at _ _ _ _ Hs Hx), Hx.
Qed.

(** The condition of a keyword handler: the length, then the characters after
    the first. *)
Definition matches (w : list ascii) (t : Tok) : res bool :=
  foldl (fun m '(i, c) => and_char m (Z.of_nat i) c t)
    (room (Z.of_nat (S (length w))) t) (zip (seq 1 (length w)) w).

Lemma and_chars_spec w t s (b : bool) j :
  sees t s -> (b = true -> (j + length w <= length s)%nat) ->
  foldl (fun m '(i, c) => and_char m (Z.of_nat i) c t) (Ok b) (zip (seq j (length w)) w) =
  Ok (b && match strip w (drop j s) with Some _ => true | None => false end).
Proof.
  intros Hs. revert b j. induction w as [|a w IH]; intros b j Hb.
  { cbn. by rewrite andb_true_r. }
  cbn [length seq zip zip_with foldl] in *. rewrite (and_char_spec _ _ _ _ _ Hs).
  2: { intros ->. apply lookup_lt_is_Some_2. specialize (Hb eq_refl). lia. }
  destruct (s !! j) as [x|] eqn:E.
  - rewrite (drop_S _ _ _ E). cbn [strip].
    rewrite IH; [|intros [-> _]%andb_true_iff; specialize (Hb eq_refl); lia].
    by destruct b, (x =? a)%char.
  - apply lookup_ge_None in E.
    assert (b = false) as ->.
    { destruct b; [specialize (Hb eq_refl); lia | done]. }
    rewrite IH; done.
Qed.

Lemma matches_spec c w t s :
  sees t (c :: s) ->
  matches w t = Ok (match strip w s with Some _ => true | None => false end).
Proof.
  intros Hs. unfold matches. rewrite (room_spec _ _ _ Hs).
  rewrite (and_chars_spec w t (c :: s) _ 1 Hs).
  - cbn [drop length]. destruct (Z.leb_spec (Z.of_nat (S (length w))) (Z.of_nat (S (length s))));
      [done|]. destruct (strip w s) eqn:E; [|done].
    apply strip_app in E as ->. rewrite length_app in *. lia.
  - intros Hb%Z.leb_le. cbn [length] in *. lia.
Qed.

Lemma direct_keyword_spec k c w t s :
  sees t (c :: s) -> kw_text k = c :: w ->
  (b ← matches w t;
   if (b : bool) then Ok (kw_token k, adv (Z.of_nat (S (length w))) t)
   else Ok (JsonToken.Invalid, adv 1 t)) =
  Ok ((lex_keyword true k (c :: s)).1, upto t (lex_keyword true k (c :: s)).2).
Proof.
  intros Hs Hk. rewrite (matches_spec _ _ _ _ Hs), bind_ok.
  unfold lex_keyword. rewrite Hk. cbn [strip]. rewrite Ascii.eqb_refl.
  destruct (strip w s) as [s'|] eqn:E; cbn.
  - apply strip_app in E as ->.
    by rewrite (sees_upto _ _ (sees_app t (c :: w) s' Hs)) at 1.
  - by rewrite (sees_upto _ _ (sees_adv _ _ _ Hs)) at 1.
Qed.

Lemma handler_spec c t s :
  sees t (c :: s) ->
  handler_of (kind c) t =
    match kind c with
    | KSkip => Ok (JsonToken.Whitespace, adv 1 t)
    | _ => Ok (lex_result true t (c :: s))
    end.
Proof.
  intros Hs. unfold lex_result. cbn [lex].
  pose proof (sees_upto _ _ (sees_adv _ _ _ Hs)) as E1. rewrite upto_adv in E1.
  destruct (kind c) as [|tok| | |k|] eqn:Hk; cbn [fst snd].
  - done.
  - rewrite (single_of c) by done. by rewrite E1.
  - apply (string_spec t c s Hs).
  - apply (number_spec t c s Hs).
  - destruct (kind_keyword _ _ Hk) as [w Hw]. rewrite <- (direct_keyword_spec k c w t s Hs Hw).
    by destruct k; injection Hw as <- <-.
  - cbn. unfold handle_invalid. by rewrite E1.
Qed.

Lemma direct_next_spec t s : sees t s -> next_token ready t = Ok (lex_result true t s).
Proof.
  intros Hs. apply lex_loop_spec; [| |done|by apply sees_turns].
  - intros t' H. unfold body. by rewrite (sees_more _ _ H).
  - intros t' c s' H. unfold body.
    rewrite (sees_more _ _ H), (sees_peek _ _ _ H), bind_ok, handler_lookup, bind_ok.
    unfold call. rewrite (handler_spec _ _ _ H).
    pose proof (lex_token_not_ws true (c :: s')) as Hws. revert Hws.
    unfold lex_result. destruct (kind c); intros Hws; cbn [mbind res_bind];
      [done|rewrite bool_decide_false by done; done..].
Qed.
End DirectSpec.

Module GotoSpec.
Import ComputedGotoTokenizer.

Definition ready : Statics := mkStatics (fill_dispatch (dispatch_table statics0)) true.

(** The static variables are in one of two states: before and after the first
    call. *)
Definition reachable (st : Statics) : Prop := st = statics0 \/ st = ready.

Definition label_of (k : Kind) : Label :=
  match k with
  | KSkip => L_skip
  | KSingle JsonToken.ObjectStart => L_object_start
  | KSingle JsonToken.ObjectEnd => L_object_end
  | KSingle JsonToken.ArrayStart => L_array_start
  | KSingle JsonToken.ArrayEnd => L_array_end
  | KSingle JsonToken.Colon => L_colon
  | KSingle JsonToken.Comma => L_comma
  | KString => L_string
  | KNumber => L_number
  | KKeyword KwTrue => L_true
  | KKeyword KwFalse => L_false
  | KKeyword KwNull => L_null
  | _ => L_invalid
  end.

Lemma label_lookup c : (dispatch_table ready).[uchar c] = Ok (Some (label_of (kind c))).
Proof. apply (table_lookup _ (fun c => Some (label_of (kind c)))). reflexivity. Qed.

Lemma DISPATCH_spec t c s : sees t (c :: s) -> DISPATCH ready t = Ok (label_of (kind c)).
Proof.
  intros Hs. unfold DISPATCH. by rewrite (sees_peek _ _ _ Hs), bind_ok, label_lookup.
Qed.

Lemma keyword_bind cond n tok t :
  keyword cond n tok t =
  (r ← (b ← cond;
        if (b : bool) then Ok (tok, adv n t) else Ok (JsonToken.Invalid, adv 1 t));
   Ok (inr r)).
Proof. unfold keyword. rewrite bind_assoc. apply bind_ext. by intros []. Qed.

(** Apart from whitespace the code at a label does what the handler does. *)
Lemma label_handler c t :
  kind c <> KSkip ->
  label_body ready (label_of (kind c), t) =
  (r ← DirectSpec.handler_of (kind c) t; Ok (inr r)).
Proof.
  intros Hk. destruct (kind c) as [|tok| | |[]|] eqn:E; try done.
  - revert E. by destruct c as [[] [] [] [] [] [] [] []]; intros [= <-].
  - apply keyword_bind.
  - apply keyword_bind.
  - apply keyword_bind.
Qed.

Lemma labels_spec n t c s :
  sees t (c :: s) -> (length s < n)%nat ->
  loop (label_body ready) n (label_of (kind c), t) = Ok (lex_result true t (c :: s)).
Proof.
  revert t c s. induction n as [|n IH]; intros t c s Hs Hn; [lia|].
  rewrite loop_S. destruct (decide (kind c = KSkip)) as [E|E].
  - rewrite E. cbn [label_of label_body]. pose proof (sees_adv _ _ _ Hs) as Hs1.
    unfold lex_result. cbn [lex]. rewrite E. pose proof (sees_size _ _ Hs1).
    destruct (Z.leb_spec (size (adv 1 t)) (pos_ (adv 1 t))), s as [|d s];
      cbn [length] in *; try lia; cbn [mbind res_bind].
    + by rewrite (sees_upto _ _ Hs1) at 1.
    + rewrite (DISPATCH_spec _ _ _ Hs1). cbn [mbind res_bind].
      rewrite (IH _ d s Hs1); [done | lia].
  - rewrite (label_handler _ _ E), (DirectSpec.handler_spec _ _ _ Hs).
    by destruct (kind c).
Qed.

Lemma goto_next_spec st t s :
  reachable st -> sees t s ->
  next_token st t = Ok ((lex_result true t s).1, (ready, (lex_result true t s).2)).
Proof.
  intros Hst Hs. unfold next_token.
  replace (if table_init st then st else _) with ready by (by destruct Hst as [-> | ->]).
  pose proof (sees_size _ _ Hs) as Hsz.
  destruct (Z.leb_spec (size t) (pos_ t)), s as [|c s]; cbn [length] in *; try lia.
  - cbn. by rewrite (sees_upto _ _ Hs) at 1.
  - rewrite (DISPATCH_spec _ _ _ Hs), bind_ok, (labels_spec _ _ _ _ Hs); [done|].
    pose proof (sees_turns _ _ Hs). cbn [length] in *. lia.
Qed.
End GotoSpec.
