(* ===== verification/JsonStream.v ===== *)
(** * Whole inputs

    What a client of a tokenizer relies on, as an interface with one instance
    per class of src/perf/threaded_code/json.cpp, and the consequences for
    [tokenize_all]: which token streams it sums up, and when it ends. *)

From S2P Require Import Prelude JsonChar JsonLex JsonLexSpec.

(** ** Streams *)

Lemma lex_string_not_end s : (lex_string s).1 <> JsonToken.End.
Proof.
  induction s as [[|c s] IH] using (induction_ltof1 _ length); [done|].
  unfold ltof in IH. cbn [lex_string length] in *.
  repeat case_match; try done; subst; apply IH; cbn; lia.
Qed.

Lemma lex_not_end r c s : kind c <> KSkip -> (lex r (c :: s)).1 <> JsonToken.End.
Proof.
  intros Hk. cbn [lex]. destruct (kind c) as [|tok| | |k|] eqn:E; try done.
  - by revert E; destruct c as [[] [] [] [] [] [] [] []]; intros [= <-].
  - apply lex_string_not_end.
  - unfold lex_keyword. by destruct (strip _ _), k.
Qed.

Lemma lex_end r s : (lex r s).1 = JsonToken.End -> lex true s = lex false s.
Proof.
  induction s as [|c s IH]; [done|]. destruct (decide (kind c = KSkip)) as [Hk|Hk].
  - cbn [lex]. by rewrite Hk.
  - intros E. by apply lex_not_end in E.
Qed.

(** A word that starts like a keyword and is none. *)
Definition malformed (w : list ascii) : Prop :=
  exists c w' k, w = c :: w' /\ kind c = KKeyword k /\ strip (kw_text k) w = None.

(** The two variants of the specification differ on malformed keywords only. *)
Lemma lex_variants s :
  lex true s = lex false s \/
  exists w, w `suffix_of` s /\ malformed w /\ lex false s = (JsonToken.Invalid, w) /\
            lex true s = (JsonToken.Invalid, tail w).
Proof.
  induction s as [|c s IH]; [by left|]. cbn [lex].
  destruct (kind c) as [|tok| | |k|] eqn:E; auto.
  - destruct IH as [IH|(w & Hw & IH)]; [by left|right].
    exists w. split; [by apply suffix_cons_r | done].
  - unfold lex_keyword. destruct (strip _ _) eqn:Es; [by left|right].
    exists (c :: s). split_and!; [done | by exists c, s, k | done..].
Qed.

Lemma malformed_stuck w : malformed w -> lex false w = (JsonToken.Invalid, w).
Proof.
  intros (c & w' & k & -> & Hk & Hs). cbn [lex]. rewrite Hk. unfold lex_keyword.
  by rewrite Hs.
Qed.

Lemma lexes_det r s toks toks' : lexes r s toks -> lexes r s toks' -> toks = toks'.
Proof.
  intros H. revert toks'. induction H as [s s' E|s tok s' toks E Hne H IH];
    intros toks' H'; inversion H'; subst; try congruence.
  f_equal; [congruence | apply IH; congruence].
Qed.

Lemma malformed_endless w toks : malformed w -> ~ lexes false w toks.
Proof.
  intros Hm H. pose proof (malformed_stuck w Hm) as E.
  induction H as [s s' E'|s tok s' toks E' Hne H IH]; [congruence|].
  rewrite E in E'. injection E' as <- <-. by apply IH.
Qed.

(** A stream without malformed keywords is the same for both variants. *)
Lemma lexes_variants s toks : lexes false s toks -> lexes true s toks.
Proof.
  induction 1 as [s s' E|s tok s' toks E Hne H IH].
  - apply (lexes_end _ s s'). rewrite <- E. apply (lex_end false). by rewrite E.
  - destruct (lex_variants s) as [Ev|(w & _ & Hm & Ef & _)].
    + apply (lexes_token _ s tok s'); [congruence | done | done].
    + rewrite Ef in E. injection E as <- <-. by apply malformed_endless in H.
Qed.

Lemma lex_progress s tok s' :
  lex true s = (tok, s') -> tok <> JsonToken.End -> (length s' < length s)%nat.
Proof.
  revert tok s'. induction s as [|c s IH]; intros tok s' E Hne; [by injection E as <-|].
  cbn [lex length] in *. destruct (kind c) as [|tok'| | |k|] eqn:Hk.
  - specialize (IH _ _ E Hne). lia.
  - injection E as _ <-. lia.
  - pose proof (suffix_length _ _ (lex_string_suffix s)) as Hl.
    rewrite E in Hl. cbn in Hl. lia.
  - injection E as _ <-. pose proof (suffix_length _ _ (lex_number_suffix s)). lia.
  - unfold lex_keyword in E. destruct (strip _ _) eqn:Es; injection E as _ <-; [|cbn; lia].
    apply strip_app in Es. destruct (kind_keyword _ _ Hk) as [w Hw]. rewrite Hw in Es.
    injection Es as ->. rewrite length_app. lia.
  - injection E as _ <-. lia.
Qed.

(** The variant that drops a character always comes to the end, with at most
    one token per character. *)
Lemma lexes_total s : exists toks, lexes true s toks /\ (length toks <= length s)%nat.
Proof.
  induction s as [s IH] using (induction_ltof1 _ length). unfold ltof in IH.
  destruct (lex true s) as [tok s'] eqn:E.
  destruct (decide (tok = JsonToken.End)) as [->|Hne].
  { exists []. split; [by eapply lexes_end | cbn; lia]. }
  pose proof (lex_progress _ _ _ E Hne).
  destruct (IH s') as (toks & Ht & Hl); [done|].
  exists (tok :: toks). split; [by eapply lexes_token | cbn; lia].
Qed.

(** The variant that stays ends with the same tokens or meets a malformed
    keyword. *)
Lemma lexes_or_stuck s toks :
  lexes true s toks ->
  lexes false s toks \/
  exists pre w, s = pre ++ w /\ malformed w /\ JsonToken.Invalid ∈ toks /\
                forall toks', ~ lexes false s toks'.
Proof.
  induction 1 as [s s' E|s tok s' toks E Hne H IH].
  - left. apply (lexes_end _ s s'). rewrite <- E. symmetry. apply (lex_end true). by rewrite E.
  - destruct (lex_variants s) as [Ev|(w & [pre Hp] & Hm & Ef & Et)].
    + rewrite Ev in E. destruct IH as [IH|(pre & w & Hs & Hm & Hi & Hno)].
      { left. by eapply lexes_token. }
      right. pose proof (lex_suffix false s) as [k Hk]. rewrite E in Hk. cbn in Hk.
      exists (k ++ pre), w. split_and!; [by rewrite Hk, Hs, app_assoc | done | by right |].
      intros toks' H'. inversion H' as [? ? E'|? ? ? ? E' ? H'']; subst; rewrite E in E'.
      * by injection E' as ->.
      * injection E' as <- <-. by apply Hno in H''.
    + right. exists pre, w. rewrite Et in E. injection E as <- <-.
      split_and!; [done | done | by left |].
      intros toks' H'. inversion H' as [? ? E'|? ? ? ? E' ? H'']; subst; rewrite Ef in E'.
      * done.
      * injection E' as <- <-. by apply malformed_endless in H''.
Qed.

(** ** The interface *)

Class Lexer {T} (next : T -> res (JsonToken.t * T)) (recover : bool) := {
  view : T -> list ascii -> Prop;
  next_refines t s :
    view t s -> exists t', next t = Ok ((lex recover s).1, t') /\ view t' (lex recover s).2
}.

(** The sum of a stream in a [uint64_t]. *)
Definition token_sum (toks : list JsonToken.t) (sum : Z) : Z :=
  foldl (fun sum t => u64 (sum + JsonToken.value t)) sum toks.

Section clients.
Context {T} (next : T -> res (JsonToken.t * T)) (recover : bool) `{!Lexer next recover}.

Lemma tokenize_turn t s sum :
  view t s -> exists t', view t' (lex recover s).2 /\
    tokenize_body next (t, sum) =
    if bool_decide ((lex recover s).1 = JsonToken.End) then Ok (inr (t', sum))
    else Ok (inl (t', u64 (sum + JsonToken.value (lex recover s).1))).
Proof.
  intros Hv. destruct (next_refines t s Hv) as (t' & E & Hv').
  exists t'. split; [done|]. unfold tokenize_body. rewrite E. cbn.
  by case_bool_decide.
Qed.

(** [tokenize_all] sums up the tokens of the stream. *)
Lemma tokenize_all_spec s toks :
  lexes recover s toks ->
  forall n t sum, view t s -> (length toks < n)%nat ->
  exists t', tokenize_all next n t sum = Ok (t', token_sum toks sum) /\
             exists s', view t' s'.
Proof.
  induction 1 as [s s' E|s tok s' toks E Hne H IH]; intros n t sum Hv Hn;
    (destruct n as [|n]; [cbn in Hn; lia|]); unfold tokenize_all; rewrite loop_S;
    destruct (tokenize_turn t s sum Hv) as (t' & Hv' & ->); rewrite E in *; cbn in *.
  - exists t'. split; [done | by exists s'].
  - rewrite bool_decide_false by done. cbn. apply IH; [done | lia].
Qed.

(** It ends only on inputs that have a stream. *)
Lemma tokenize_all_ends n t s sum :
  view t s -> tokenize_all next n t sum <> NoFuel -> exists toks, lexes recover s toks.
Proof.
  unfold tokenize_all. revert t s sum. induction n as [|n IH]; intros t s sum Hv Hne; [done|].
  rewrite loop_S in Hne. destruct (tokenize_turn t s sum Hv) as (t' & Hv' & E).
  destruct (lex recover s) as [tok s'] eqn:El. cbn in *.
  destruct (decide (tok = JsonToken.End)) as [->|Ht].
  - exists []. by eapply lexes_end.
  - rewrite E, bool_decide_false in Hne by done. cbn in Hne.
    destruct (IH _ _ _ Hv' Hne) as [toks H]. exists (tok :: toks). by eapply lexes_token.
Qed.
Lemma tokenize_all_stuck n t s sum :
  view t s -> (forall toks, ~ lexes recover s toks) -> tokenize_all next n t sum = NoFuel.
Proof.
  intros Hv Hno. destruct (tokenize_all next n t sum) eqn:E; [| |done];
    (edestruct (tokenize_all_ends n t s sum Hv) as [toks H]; [by rewrite E | by apply Hno in H]).
Qed.
End clients.

(** ** The four instances

    The state of a class with static tables is the tables and the object. *)

Definition table_next (x : TableTokenizer.Statics * Tok) :
    res (JsonToken.t * (TableTokenizer.Statics * Tok)) :=
  '(tok, t) ← TableTokenizer.next_token x.1 x.2; Ok (tok, (x.1, t)).

Definition direct_next (x : DirectThreadedTokenizer.Statics * Tok) :
    res (JsonToken.t * (DirectThreadedTokenizer.Statics * Tok)) :=
  '(tok, t) ← DirectThreadedTokenizer.next_token x.1 x.2; Ok (tok, (x.1, t)).

Definition goto_next (x : ComputedGotoTokenizer.Statics * Tok) :
    res (JsonToken.t * (ComputedGotoTokenizer.Statics * Tok)) :=
  ComputedGotoTokenizer.next_token x.1 x.2.

#[export] Program Instance switch_lexer : Lexer SwitchTokenizer.next_token false :=
  {| view := sees |}.
Next Obligation.
  intros t s Hs. eexists. split; [by apply switch_next_spec|].
  apply (upto_sees _ s); [done | apply lex_suffix].
Qed.

#[export] Program Instance table_lexer : Lexer table_next false :=
  {| view x s := x.1 = TableSpec.ready /\ sees x.2 s |}.
Next Obligation.
  intros [st t] s [Hst Hs]. cbn [fst snd] in Hst, Hs. subst st. unfold table_next; cbn [fst snd].
  rewrite (TableSpec.table_next_spec _ _ Hs). eexists. split; [done|]. split; [done|].
  apply (upto_sees _ s); [done | apply lex_suffix].
Qed.

#[export] Program Instance direct_lexer : Lexer direct_next true :=
  {| view x s := x.1 = DirectSpec.ready /\ sees x.2 s |}.
Next Obligation.
  intros [st t] s [Hst Hs]. cbn [fst snd] in Hst, Hs. subst st. unfold direct_next; cbn [fst snd].
  rewrite (DirectSpec.direct_next_spec _ _ Hs). eexists. split; [done|]. split; [done|].
  apply (upto_sees _ s); [done | apply lex_suffix].
Qed.

#[export] Program Instance goto_lexer : Lexer goto_next true :=
  {| view x s := GotoSpec.reachable x.1 /\ sees x.2 s |}.
Next Obligation.
  intros [st t] s [Hr Hs]. cbn [fst snd] in Hr, Hs. unfold goto_next; cbn [fst snd].
  rewrite (GotoSpec.goto_next_spec _ _ _ Hr Hs). eexists. split; [done|].
  split; [by right|]. apply (upto_sees _ s); [done | apply lex_suffix].
Qed.

(** The four runs over an input, each from a new object. *)
Definition run_switch (n : nat) (input : list ascii) : res Z :=
  snd <$> tokenize_all SwitchTokenizer.next_token n (mkTok input 0) 0.

Definition run_table (n : nat) (input : list ascii) : res Z :=
  snd <$> tokenize_all table_next n
            (TableTokenizer.create TableTokenizer.statics0 input) 0.

Definition run_direct (n : nat) (input : list ascii) : res Z :=
  snd <$> tokenize_all direct_next n
            (DirectThreadedTokenizer.create DirectThreadedTokenizer.statics0 input) 0.

Definition run_goto (n : nat) (input : list ascii) : res Z :=
  snd <$> tokenize_all goto_next n (ComputedGotoTokenizer.statics0, mkTok input 0) 0.

Lemma sees_start input : sees (mkTok input 0) input.
Proof. by exists []. Qed.

Lemma view_switch input : view (next := SwitchTokenizer.next_token) (mkTok input 0) input.
Proof. apply sees_start. Qed.

Lemma view_table input :
  view (next := table_next) (TableTokenizer.create TableTokenizer.statics0 input) input.
Proof. split; [done | apply sees_start]. Qed.

Lemma view_direct input :
  view (next := direct_next)
    (DirectThreadedTokenizer.create DirectThreadedTokenizer.statics0 input) input.
Proof. split; [done | apply sees_start]. Qed.

Lemma view_goto input :
  view (next := goto_next) (ComputedGotoTokenizer.statics0, mkTok input 0) input.
Proof. split; [by left | apply sees_start]. Qed.

Section runs.
Context (input : list ascii) (toks : list JsonToken.t) (n : nat)
  (Hn : (length toks < n)%nat).

Lemma run_direct_spec : lexes true input toks -> run_direct n input = Ok (token_sum toks 0).
Proof.
  intros H. unfold run_direct.
  by edestruct (tokenize_all_spec direct_next true) as (t' & -> & _);
    [exact H | apply view_direct | done |].
Qed.

Lemma run_goto_spec : lexes true input toks -> run_goto n input = Ok (token_sum toks 0).
Proof.
  intros H. unfold run_goto.
  by edestruct (tokenize_all_spec goto_next true) as (t' & -> & _);
    [exact H | apply view_goto | done |].
Qed.

Lemma run_switch_spec : lexes false input toks -> run_switch n input = Ok (token_sum toks 0).
Proof.
  intros H. unfold run_switch.
  by edestruct (tokenize_all_spec SwitchTokenizer.next_token false) as (t' & -> & _);
    [exact H | apply view_switch | done |].
Qed.

Lemma run_table_spec : lexes false input toks -> run_table n input = Ok (token_sum toks 0).
Proof.
  intros H. unfold run_table.
  by edestruct (tokenize_all_spec table_next false) as (t' & -> & _);
    [exact H | apply view_table | done |].
Qed.
End runs.

(** Without a stream the classes that stay at a malformed keyword do not end. *)
Lemma run_stuck input n :
  (forall toks, ~ lexes false input toks) ->
  run_switch n input = NoFuel /\ run_table n input = NoFuel.
Proof.
  intros Hno. unfold run_switch, run_table.
  rewrite (tokenize_all_stuck SwitchTokenizer.next_token false n _ input) by
    (apply view_switch || done).
  by rewrite (tokenize_all_stuck table_next false n _ input) by (apply view_table || done).
Qed.
