(* ===== verification/JsonGen.v ===== *)
(** * The JSON generator

    [test_data::generate_json] of src/perf/threaded_code/json.cpp.  The engine
    std::mt19937 is a parameter, known by the range of its numbers.  The file
    also has a grammar of JSON documents over tokens, and the proof that what
    the generator writes is tokenized as such a document. *)

From S2P Require Import Prelude JsonChar JsonLex JsonLexSpec JsonStream.

(** A generator of 32-bit random numbers. *)
Class Urbg (G : Type) := {
  rng : G -> Z * G;
  rng_range g : 0 <= (rng g).1 < 2 ^ 32
}.

Section generate.
Context {G : Type} `{!Urbg G}.

(** [rng() % m]. *)
Definition draw (m : Z) (g : G) : Z * G := let '(r, g) := rng g in (r mod m, g).

(** [for (size_t i = 0; i < n; ++i) s += base + (rng() % m);]. *)
Fixpoint add_chars (base : ascii) (m : Z) (n : nat) (s : list ascii) (g : G) :
    list ascii * G :=
  match n with
  | O => (s, g)
  | S n =>
      let '(d, g) := draw m g in
      add_chars base m n (s ++ [to_char (u8 (uchar base + d))]) g
  end.

Definition random_string (len : Z) (g : G) : list ascii * G :=
  let s := ["034"%char] in
  let '(s, g) := add_chars "a" 26 (Z.to_nat len) s g in
  (s ++ ["034"%char], g).

(** The loop of the decimals draws its bound anew for every test. *)
Definition decimals_body (x : Z * list ascii * G) :
    res (Z * list ascii * G + list ascii * G) :=
  let '(i, s, g) := x in
  let '(d, g) := draw 4 g in
  if i <? 1 + d then
    let '(s, g) := add_chars "0" 10 1 s g in Ok (inl (i + 1, s, g))
  else Ok (inr (s, g)).

Definition random_number (g : G) : res (list ascii * G) :=
  let s := [] in
  let '(d, g) := draw 4 g in
  let s := if d =? 0 then s ++ ["-"%char] else s in
  let '(d, g) := draw 8 g in
  let len := 1 + d in
  let '(s, g) := add_chars "0" 10 (Z.to_nat len) s g in
  let '(d, g) := draw 3 g in
  if d =? 0 then loop decimals_body 5 (0, s ++ ["."%char], g) else Ok (s, g).

(** The switch over the kinds of values, with the function for numbers. *)
Definition value_with (number : G -> res (list ascii * G)) (result : list ascii) (g : G) :
    res (list ascii * G) :=
  let '(d, g) := draw 5 g in
  if d =? 0 then
    let '(k, g) := draw 20 g in
    let '(s, g) := random_string (5 + k) g in
    Ok (result ++ s, g)
  else if d =? 1 then '(s, g) ← number g; Ok (result ++ s, g)
  else if d =? 2 then Ok (result ++ kw_true, g)
  else if d =? 3 then Ok (result ++ kw_false, g)
  else if d =? 4 then Ok (result ++ kw_null, g)
  else Ok (result, g).

Definition add_value : list ascii -> G -> res (list ascii * G) := value_with random_number.

(** The loop over the members of an object, from member [i] on. *)
Fixpoint add_pairs (n : nat) (i : Z) (result : list ascii) (g : G) :
    res (list ascii * G) :=
  match n with
  | O => Ok (result, g)
  | S n =>
      let result := if 0 <? i then result ++ [","; " "]%char else result in
      let '(k, g) := draw 8 g in
      let '(s, g) := random_string (4 + k) g in
      let result := result ++ s ++ [":"; " "]%char in
      '(result, g) ← add_value result g;
      add_pairs n (i + 1) result g
  end.

Definition object_body (size_hint : Z) (x : list ascii * G) :
    res (list ascii * G + list ascii * G) :=
  let '(result, g) := x in
  if Z.of_nat (length result) <? u64 (size_hint - 100) then
    let result := result ++ [" "; " "; "{"]%char in
    let '(d, g) := draw 5 g in
    let pairs := 1 + d in
    '(result, g) ← add_pairs (Z.to_nat pairs) 0 result g;
    Ok (inl (result ++ ["}"; ","; "010"]%char, g))
  else Ok (inr (result, g)).

(** The comma after the last object becomes a line break. *)
Definition drop_comma (result : list ascii) : res (list ascii) :=
  let n := Z.of_nat (length result) in
  if 2 <? n then
    c ← result.[n - 2];
    if (c =? ",")%char then
      result ← result.[n - 2 <- "010"%char];
      Ok (removelast result)
    else Ok result
  else Ok result.

Definition generate_json (size_hint : Z) (g : G) : res (list ascii) :=
  let result := ["["; "010"]%char in
  '(result, g) ← loop (object_body size_hint) (S (Z.to_nat size_hint)) (result, g);
  result ← drop_comma result;
  Ok (result ++ ["]"]%char).
End generate.

(** ** JSON documents over tokens *)

Inductive json_value : list JsonToken.t -> Prop :=
  | jv_string : json_value [JsonToken.String]
  | jv_number : json_value [JsonToken.Number]
  | jv_true : json_value [JsonToken.True_]
  | jv_false : json_value [JsonToken.False_]
  | jv_null : json_value [JsonToken.Null]
  | jv_array_empty : json_value [JsonToken.ArrayStart; JsonToken.ArrayEnd]
  | jv_array ts : json_elements ts ->
      json_value (JsonToken.ArrayStart :: ts ++ [JsonToken.ArrayEnd])
  | jv_object_empty : json_value [JsonToken.ObjectStart; JsonToken.ObjectEnd]
  | jv_object ts : json_members ts ->
      json_value (JsonToken.ObjectStart :: ts ++ [JsonToken.ObjectEnd])
with json_elements : list JsonToken.t -> Prop :=
  | je_one ts : json_value ts -> json_elements ts
  | je_more ts us : json_elements ts -> json_value us ->
      json_elements (ts ++ JsonToken.Comma :: us)
with json_members : list JsonToken.t -> Prop :=
  | jm_one ts : json_value ts -> json_members (JsonToken.String :: JsonToken.Colon :: ts)
  | jm_more ts us : json_members ts -> json_value us ->
      json_members (ts ++ JsonToken.Comma :: JsonToken.String :: JsonToken.Colon :: us).

Scheme json_value_mut := Induction for json_value Sort Prop
  with json_elements_mut := Induction for json_elements Sort Prop
  with json_members_mut := Induction for json_members Sort Prop.

#[export] Hint Constructors json_value json_elements json_members : cxx.

(** ** Fragments of text and the tokens they give *)

(** The text [w] gives the tokens [toks], whatever follows it. *)
Definition emits (w : list ascii) (toks : list JsonToken.t) : Prop :=
  forall s rest, lexes false s rest -> lexes false (w ++ s) (toks ++ rest).

(** The same if what follows does not continue a number. *)
Definition emits_before (w : list ascii) (toks : list JsonToken.t) : Prop :=
  forall c s rest, number_char c = false ->
  lexes false (c :: s) rest -> lexes false (w ++ c :: s) (toks ++ rest).

Lemma emits_weaken w toks : emits w toks -> emits_before w toks.
Proof. intros H c s rest _ Hs. by apply H. Qed.

Lemma emits_app w1 w2 t1 t2 : emits w1 t1 -> emits w2 t2 -> emits (w1 ++ w2) (t1 ++ t2).
Proof. intros H1 H2 s rest Hs. rewrite <- !app_assoc. by apply H1, H2. Qed.

Lemma emits_before_app w1 w2 t1 t2 :
  emits w1 t1 -> emits_before w2 t2 -> emits_before (w1 ++ w2) (t1 ++ t2).
Proof. intros H1 H2 c s rest Hc Hs. rewrite <- !app_assoc. by apply H1, H2. Qed.

Lemma emits_close w1 c w2 t1 t2 :
  emits_before w1 t1 -> number_char c = false -> emits (c :: w2) t2 ->
  emits (w1 ++ c :: w2) (t1 ++ t2).
Proof.
  intros H1 Hc H2 s rest Hs. rewrite <- !app_assoc. apply H1; [done|]. by apply (H2 s).
Qed.

Lemma emits_cons c w t1 t2 : emits [c] t1 -> emits w t2 -> emits (c :: w) (t1 ++ t2).
Proof. apply (emits_app [c]). Qed.

Lemma emits_nil : emits [] [].
Proof. intros s rest H. exact H. Qed.

Lemma emits_skip c : kind c = KSkip -> emits [c] [].
Proof.
  intros Hk s rest H. assert (lex false ([c] ++ s) = lex false s) as E.
  { cbn [lex app]. by rewrite Hk. }
  inversion H as [? s' E'|? tok s' toks E' Hne H']; subst; rewrite <- E in E';
    [by eapply lexes_end | by eapply lexes_token].
Qed.

Lemma emits_token (w : list ascii) tok :
  tok <> JsonToken.End -> (forall s, lex false (w ++ s) = (tok, s)) -> emits w [tok].
Proof. intros Hne Hl s rest Hs. eapply lexes_token; [apply Hl | done..]. Qed.

Lemma emits_single c tok : kind c = KSingle tok -> tok <> JsonToken.End -> emits [c] [tok].
Proof. intros Hk Hne. apply emits_token; [done|]. intros s. cbn. by rewrite Hk. Qed.

Lemma emits_keyword k : emits (kw_text k) [kw_token k].
Proof. apply emits_token; by destruct k. Qed.

Definition plain_char (c : ascii) : bool := negb (c =? "034")%char && negb (c =? "\")%char.

Lemma emits_string w :
  forallb plain_char w = true -> emits ("034"%char :: w ++ ["034"%char]) [JsonToken.String].
Proof.
  intros Hw. apply emits_token; [done|]. intros s. cbn [lex app kind]. rewrite <- app_assoc.
  induction w as [|c w IH]; [done|]. cbn in Hw. apply andb_true_iff in Hw as [Hc Hw].
  cbn [lex_string app]. unfold plain_char in Hc. rewrite andb_true_iff, !negb_true_iff in Hc.
  destruct Hc as [-> ->]. by apply IH.
Qed.

Lemma emits_number c w :
  kind c = KNumber -> forallb number_char w = true -> emits_before (c :: w) [JsonToken.Number].
Proof.
  intros Hk Hw d s rest Hd Hs. apply (lexes_token _ _ _ (d :: s)); [|done|done].
  cbn [app lex]. rewrite Hk. f_equal. induction w as [|x w IH]; cbn in *.
  - by rewrite Hd.
  - apply andb_true_iff in Hw as [-> Hw]. by apply IH.
Qed.

Lemma lexes_value w toks : emits w toks -> lexes false w toks.
Proof.
  intros H. rewrite <- (app_nil_r w), <- (app_nil_r toks). apply H.
  by eapply lexes_end.
Qed.

(** ** The text of the generator *)

Section generated_text.
Context {G : Type} `{!Urbg G}.
Implicit Types g : G.

Lemma draw_spec m g : 0 < m -> exists d g', draw m g = (d, g') /\ 0 <= d < m.
Proof.
  intros Hm. unfold draw. destruct (rng g) as [r g']. exists (r mod m), g'.
  split; [done | by apply Z.mod_pos_bound].
Qed.

Lemma add_chars_spec (P : ascii -> bool) base m n s g :
  forallb (fun d => P (to_char (u8 (uchar base + d)))) (seqZ 0 m) = true -> 0 < m ->
  exists ds g', add_chars base m n s g = (s ++ ds, g') /\ length ds = n /\ forallb P ds = true.
Proof.
  intros HP Hm. revert s g. induction n as [|n IH]; intros s g; cbn [add_chars].
  { exists [], g. by rewrite app_nil_r. }
  destruct (draw_spec m g Hm) as (d & g1 & -> & Hd).
  destruct (IH (s ++ [to_char (u8 (uchar base + d))]) g1) as (ds & g2 & -> & <- & Hds).
  exists (to_char (u8 (uchar base + d)) :: ds), g2. rewrite <- app_assoc. cbn.
  by rewrite (range_check _ _ HP d Hd), Hds.
Qed.

Lemma random_string_spec len g :
  exists w g', random_string len g = (w, g') /\ emits w [JsonToken.String].
Proof.
  unfold random_string.
  destruct (add_chars_spec plain_char "a" 26 (Z.to_nat len) ["034"%char] g)
    as (ds & g' & -> & _ & Hds); [done | done |].
  eexists _, g'. split; [done|]. by apply emits_string.
Qed.

Lemma decimals_spec n i s g :
  0 <= i <= 4 -> 4 - i < Z.of_nat n ->
  exists ds g', loop decimals_body n (i, s, g) = Ok (s ++ ds, g') /\
                forallb number_char ds = true.
Proof.
  revert i s g. induction n as [|n IH]; intros i s g Hi Hn; [lia|].
  rewrite loop_S. unfold decimals_body at 2.
  destruct (draw_spec 4 g eq_refl) as (d & g1 & -> & Hd).
  destruct (Z.ltb_spec i (1 + d)).
  - destruct (add_chars_spec number_char "0" 10 1 s g1) as (ds & g2 & -> & _ & Hds);
      [done | done |].
    destruct (IH (i + 1) (s ++ ds) g2) as (es & g3 & E & Hes); [lia | lia |].
    exists (ds ++ es), g3. rewrite app_assoc, forallb_app, Hds. by split.
  - exists [], g1. by rewrite app_nil_r.
Qed.

Lemma random_number_spec g :
  exists w g', random_number g = Ok (w, g') /\ emits_before w [JsonToken.Number].
Proof.
  unfold random_number. destruct (draw_spec 4 g eq_refl) as (d & g1 & -> & _).
  destruct (draw_spec 8 g1 eq_refl) as (e & g2 & -> & He).
  set (s := if d =? 0 then _ else _).
  destruct (add_chars_spec (fun c => number_char c && bool_decide (kind c = KNumber))
              "0" 10 (Z.to_nat (1 + e)) s g2) as (ds & g3 & -> & Hl & Hds); [done | done |].
  assert (exists c w, s ++ ds = c :: w /\ kind c = KNumber /\ forallb number_char w = true)
    as (c & w & -> & Hc & Hw).
  { assert (forallb number_char ds = true) as Hn.
    { apply forallb_forall. intros x Hx. eapply forallb_forall in Hds; [|exact Hx].
      by apply andb_true_iff in Hds as [? _]. }
    subst s. destruct (d =? 0); [by exists "-"%char, ds|].
    destruct ds as [|c ds]; [cbn in Hl; lia|]. cbn in Hds, Hn.
    rewrite !andb_true_iff, bool_decide_eq_true in Hds. rewrite andb_true_iff in Hn.
    destruct Hds as [[_ Hk] _], Hn as [_ Hn]. by exists c, ds. }
  destruct (draw_spec 3 g3 eq_refl) as (f & g4 & -> & _).
  destruct (f =? 0); [|eexists _, _; split; [done | by apply emits_number]].
  destruct (decimals_spec 5 0 ((c :: w) ++ ["."%char]) g4) as (es & g5 & -> & Hes);
    [lia | lia |].
  eexists _, _; split; [done|]. cbn [app]. apply emits_number; [done|].
  by rewrite !forallb_app, Hw, Hes.
Qed.

(** A function that appends a value. *)
Definition appends_value (f : list ascii -> G -> res (list ascii * G)) : Prop :=
  forall result g, exists w ts g', f result g = Ok (result ++ w, g') /\ emits_before w ts /\ json_value ts.

Lemma value_with_spec number :
  (forall g, exists w g', number g = Ok (w, g') /\ emits_before w [JsonToken.Number]) ->
  appends_value (value_with number).
Proof.
  intros Hnum result g. unfold value_with. destruct (draw_spec 5 g eq_refl) as (d & g1 & -> & Hd).
  destruct (Z.eqb_spec d 0).
  { destruct (draw_spec 20 g1 eq_refl) as (k & g2 & -> & _).
    destruct (random_string_spec (5 + k) g2) as (w & g3 & -> & Hw).
    eexists w, _, g3. split_and!; [done | by apply emits_weaken | constructor]. }
  destruct (Z.eqb_spec d 1).
  { destruct (Hnum g1) as (w & g2 & -> & Hw).
    eexists w, _, g2. split_and!; [done | done | constructor]. }
  destruct (Z.eqb_spec d 2).
  { eexists _, _, _. split_and!; [done | | ].
    - apply emits_weaken, (emits_keyword KwTrue). - constructor. }
  destruct (Z.eqb_spec d 3).
  { eexists _, _, _. split_and!; [done | | ].
    - apply emits_weaken, (emits_keyword KwFalse). - constructor. }
  destruct (Z.eqb_spec d 4); [|lia].
  eexists _, _, _. split_and!; [done | | ].
  - apply emits_weaken, (emits_keyword KwNull). - constructor.
Qed.

Lemma emits_colon : emits [":"; " "]%char [JsonToken.Colon].
Proof. apply (emits_cons _ _ [_] []); [by apply emits_single | by apply emits_skip]. Qed.

Lemma emits_comma : emits [","; " "]%char [JsonToken.Comma].
Proof. apply (emits_cons _ _ [_] []); [by apply emits_single | by apply emits_skip]. Qed.

Lemma add_value_spec : appends_value add_value.
Proof. apply value_with_spec, random_number_spec. Qed.

(** One turn of the loop over the members: a name and a value. *)
Lemma member_spec add_value result g :
  appends_value add_value ->
  exists w us g',
    (let '(k, g) := draw 8 g in
     let '(s, g) := random_string (4 + k) g in
     add_value (result ++ s ++ [":"; " "]%char) g) = Ok (result ++ w, g') /\
    emits_before w (JsonToken.String :: JsonToken.Colon :: us) /\ json_value us.
Proof.
  intros Hval. destruct (draw_spec 8 g eq_refl) as (k & g1 & -> & _).
  destruct (random_string_spec (4 + k) g1) as (s & g2 & -> & Hs).
  destruct (Hval (result ++ s ++ [":"; " "]%char) g2) as (v & us & g3 & -> & Hv & Hj).
  exists ((s ++ [":"; " "]%char) ++ v), us, g3. split_and!; [by rewrite <- !app_assoc | | done].
  apply (emits_before_app _ _ [JsonToken.String; JsonToken.Colon]); [|done].
  apply (emits_app _ _ [JsonToken.String]); [done | apply emits_colon].
Qed.

Lemma add_pairs_more n i pre body ts g :
  0 < i -> emits_before body ts -> json_members ts ->
  exists body' ts' g', add_pairs n i (pre ++ body) g = Ok (pre ++ body', g') /\
    emits_before body' ts' /\ json_members ts'.
Proof.
  revert i body ts g. induction n as [|n IH]; intros i body ts g Hi Hb Hm.
  { by exists body, ts, g. }
  cbn [add_pairs]. rewrite (proj2 (Z.ltb_lt 0 i) Hi).
  destruct (member_spec add_value ((pre ++ body) ++ [","; " "]%char) g add_value_spec) as (w & us & g' & E & Hw & Hu).
  destruct (draw 8 g) as [k g1]. destruct (random_string (4 + k) g1) as [s g2]. rewrite E, bind_ok.
  rewrite <- !app_assoc. apply (IH (i + 1) _ (ts ++ [JsonToken.Comma] ++ JsonToken.String :: JsonToken.Colon :: us)).
  - lia.
  - intros c s' rest Hc Hs. rewrite <- !app_assoc. apply Hb; [done|].
    apply emits_comma. by apply Hw.
  - by constructor.
Qed.

Lemma add_pairs_spec n pre g :
  exists body ts g', add_pairs (S n) 0 pre g = Ok (pre ++ body, g') /\
    emits_before body ts /\ json_members ts.
Proof.
  cbn [add_pairs]. rewrite Z.ltb_irrefl.
  destruct (member_spec add_value pre g add_value_spec) as (w & us & g' & E & Hw & Hu).
  destruct (draw 8 g) as [k g1]. destruct (random_string (4 + k) g1) as [s g2]. rewrite E, bind_ok.
  eapply add_pairs_more; [done | exact Hw | by constructor].
Qed.

(** The text between the brackets of the document. *)
Inductive doc_text : list ascii -> Prop :=
  | doc_empty : doc_text ["["; "010"]%char
  | doc_objects w ts : emits w ts -> json_elements ts ->
      doc_text (["["; "010"]%char ++ w ++ [","; "010"]%char).

(** Appending an object to the text of a document. *)
Lemma doc_object result body ts :
  doc_text result -> emits_before body ts -> json_members ts ->
  exists w, (result ++ [" "; " "; "{"]%char ++ body) ++ ["}"; ","; "010"]%char = result ++ w /\
    w <> [] /\ doc_text (result ++ w).
Proof.
  intros Hd Hb Hm. set (o := [" "; " "; "{"]%char ++ body ++ ["}"]%char).
  assert (emits o (JsonToken.ObjectStart :: ts ++ [JsonToken.ObjectEnd])) as Ho.
  { apply (emits_app _ _ [_]).
    - apply (emits_cons _ _ []); [by apply emits_skip|].
      apply (emits_cons _ _ []); [by apply emits_skip | by apply emits_single].
    - apply emits_close; [done | done | by apply emits_single]. }
  exists (o ++ [","; "010"]%char). split_and!; [|by destruct body|].
  - unfold o. by rewrite <- !app_assoc.
  - destruct Hd as [|w us Hw Hu].
    + apply (doc_objects o _ Ho). by repeat constructor.
    + replace ((_ ++ _ ++ _) ++ _) with
        (["["; "010"]%char ++ (w ++ [","; "010"]%char ++ o) ++ [","; "010"]%char)
        by (by rewrite <- !app_assoc).
      apply (doc_objects _ (us ++ [JsonToken.Comma] ++ (JsonToken.ObjectStart :: ts ++ [JsonToken.ObjectEnd]))).
      * apply emits_app; [done|]. apply emits_app; [|done].
        apply (emits_cons _ _ [_] []); [by apply emits_single | by apply emits_skip].
      * cbn [app]. apply je_more; [done | by constructor].
Qed.

(** A loop that appends objects while the text is shorter than [bound]. *)
Lemma objects_spec (body : list ascii * G -> res (list ascii * G + list ascii * G))
    (members : list ascii -> G -> res (list ascii * G)) bound n result g :
  (forall result g, body (result, g) =
     if Z.of_nat (length result) <? bound then
       '(result, g) ← members (result ++ [" "; " "; "{"]%char) g;
       Ok (inl (result ++ ["}"; ","; "010"]%char, g))
     else Ok (inr (result, g))) ->
  (forall pre g, exists b ts g', members pre g = Ok (pre ++ b, g') /\ emits_before b ts /\ json_members ts) ->
  doc_text result -> bound - Z.of_nat (length result) < Z.of_nat n -> (0 < n)%nat ->
  exists result' g', loop body n (result, g) = Ok (result', g') /\ doc_text result'.
Proof.
  intros Hbody Hmem. revert result g. induction n as [|n IH]; intros result g Hd Hn Hp; [lia|].
  rewrite loop_S, Hbody. destruct (Z.ltb_spec (Z.of_nat (length result)) bound).
  - destruct (Hmem (result ++ [" "; " "; "{"]%char) g) as (b & ts & g' & -> & Hb & Hm).
    cbn [mbind res_bind]. rewrite <- (app_assoc result). destruct (doc_object result b ts Hd Hb Hm) as (w & E & Hw & Hd').
    rewrite E. destruct w; [done|]. apply IH; rewrite ?length_app; cbn [length] in *; done || lia.
  - by exists result, g.
Qed.

Lemma drop_comma_objects w :
  drop_comma (["["; "010"]%char ++ w ++ [","; "010"]%char) =
  Ok (["["; "010"]%char ++ w ++ ["010"]%char).
Proof.
  set (pre := ["["; "010"]%char ++ w).
  replace (["["; "010"]%char ++ w ++ [","; "010"]%char)
    with (pre ++ [","; "010"]%char) by (unfold pre; by rewrite <- app_assoc).
  assert (Z.to_nat (Z.of_nat (length (pre ++ [","; "010"]%char)) - 2) = length pre) as E.
  { rewrite length_app. cbn [length]. lia. }
  assert (2 <= length pre)%nat by (unfold pre; cbn; lia).
  unfold drop_comma. rewrite (proj2 (Z.ltb_lt _ _)) by (rewrite length_app; cbn [length]; lia).
  rewrite (at_index_lookup _ _ ","%char); [|rewrite length_app; cbn [length]; lia|].
  2: { by rewrite E, lookup_app_r, Nat.sub_diag by done. }
  rewrite bind_ok. cbn [Ascii.eqb Bool.eqb]. rewrite set_index_ok, E, bind_ok by
    (rewrite length_app; cbn [length]; lia).
  rewrite insert_app_r_alt, Nat.sub_diag by done. cbn [insert list_insert].
  rewrite removelast_app by done. unfold pre. by rewrite <- app_assoc.
Qed.

(** The end of a document. *)
Lemma document_spec result :
  doc_text result ->
  exists text toks, (result ← drop_comma result; Ok (result ++ ["]"]%char)) = Ok text /\
    lexes false text toks /\ json_value toks.
Proof.
  intros Hd. assert (emits ["["; "010"]%char [JsonToken.ArrayStart]) as Hopen.
  { apply (emits_cons _ _ [_] []); [by apply emits_single | by apply emits_skip]. }
  assert (emits ["]"]%char [JsonToken.ArrayEnd]) as Hclose by by apply emits_single.
  destruct Hd as [|w ts Hw Ht].
  - eexists _, _. split_and!; [done | | apply jv_array_empty].
    apply lexes_value, (emits_app ["["; "010"]%char _ [_] [_]); done.
  - rewrite drop_comma_objects, bind_ok. eexists _, _.
    split_and!; [done | | apply jv_array, Ht]. apply lexes_value.
    rewrite <- !app_assoc. apply (emits_app _ _ [_]); [done|].
    apply emits_app; [done|]. apply (emits_app _ _ []); [by apply emits_skip | done].
Qed.

(** For a size hint of at least 100 bytes the generator returns a text that is
    tokenized as one JSON array. *)
Lemma generate_json_spec size_hint g :
  100 <= size_hint < 2 ^ 64 ->
  exists text toks, generate_json size_hint g = Ok text /\ lexes false text toks /\
                    json_value toks.
Proof.
  intros Hs. unfold generate_json.
  destruct (objects_spec (object_body size_hint)
    (fun result g => let '(d, g) := draw 5 g in add_pairs (Z.to_nat (1 + d)) 0 result g)
    (u64 (size_hint - 100)) (S (Z.to_nat size_hint)) ["["; "010"]%char g) as (result & g' & -> & Hd).
  - intros r h. unfold object_body. by destruct (draw 5 h).
  - intros pre h. destruct (draw_spec 5 h eq_refl) as (d & h1 & -> & Hr).
    replace (Z.to_nat (1 + d)) with (S (Z.to_nat d)) by lia. apply add_pairs_spec.
  - constructor.
  - rewrite uwrap_id by lia. cbn [length]. lia.
  - lia.
  - rewrite bind_ok. by apply document_spec.
Qed.
End generated_text.

(** A linear congruential engine, for the examples. *)
#[export] Program Instance lcg_urbg : Urbg Z :=
  {| rng g := (u32 g, u32 (1664525 * g + 1013904223)) |}.
Next Obligation. intros g. by apply uwrap_range. Qed.
