(* ===== verification/JsonVm.v ===== *)
(** * The byte code matchers

    Part 3 of src/perf/threaded_code/json.cpp (namespace json_vm): the switch,
    the table of lambdas and the computed goto.  The same classes are in
    src/perf/threaded_code/json_musttail.cpp over another enumeration of
    tokens, so the type of the tokens is a parameter: [End_] and [Invalid_] are
    the two tokens the code names, [of_value] is the cast of a [uint8_t].

    Every [run] takes the fuel of its main loop; the inner loop over whitespace
    is given a turn per character. *)

From S2P Require Import Prelude JsonChar.
From S2P Require Import JsonLex JsonLexSpec.

Inductive OpCode : Set :=
  | Nop | SkipWhitespace | MatchChar | MatchRange
  | JumpIfMatch | JumpIfNoMatch | Jump | EmitToken | Halt | Count
  | Raw (v : Z).   (** a value of the underlying type that is not enumerated *)

Definition op_value (op : OpCode) : Z :=
  match op with
  | Nop => 0 | SkipWhitespace => 1 | MatchChar => 2 | MatchRange => 3
  | JumpIfMatch => 4 | JumpIfNoMatch => 5 | Jump => 6 | EmitToken => 7 | Halt => 8
  | Count => 9 | Raw v => v
  end.

Record Instruction : Set := mkInst {
  op : OpCode; operand1 : Z; operand2 : Z; operand3 : Z
}.

(** The local variables of [run]. *)
Record Vars : Set := mkVars { pc : Z; pos : Z; matched : bool }.

Definition goto_pc (p : Z) (v : Vars) : Vars := mkVars p (pos v) (matched v).

Section vm.
Context {T : Type} (End_ Invalid_ : T) (of_value : Z -> T).
Context (prog_ : list Instruction) (input_ : list ascii).

Definition prog_size : Z := Z.of_nat (length prog_).
Definition input_size : Z := Z.of_nat (length input_).

Definition skip_body (p : Z) : res (Z + Z) :=
  if p <? input_size then
    c ← input_.[p];
    if (c =? " ")%char || (c =? "009")%char || (c =? "010")%char || (c =? "013")%char
    then Ok (inl (p + 1)) else Ok (inr p)
  else Ok (inr p).

Definition skip_whitespace (p : Z) : res Z := loop skip_body (S (length input_)) p.

(** [pos < input_.size() && input_[pos] == static_cast<char>(v)]. *)
Definition match_char (p : Z) (v : Z) : res bool :=
  if p <? input_size then c ← input_.[p]; Ok (c =? to_char v)%char else Ok false.

(** The comparison of a range is one of plain, that is signed, chars. *)
Definition match_range (p : Z) (lo hi : Z) : res bool :=
  if p <? input_size then c ← input_.[p]; Ok (char_in (to_char lo) (to_char hi) c)
  else Ok false.

(** [match = m; if (match) ++pos; ++pc;]. *)
Definition record_match (m : res bool) (v : Vars) : res Vars :=
  b ← m; Ok (mkVars (pc v + 1) (if (b : bool) then pos v + 1 else pos v) b).

Definition skip_step (v : Vars) : res Vars :=
  p ← skip_whitespace (pos v); Ok (mkVars (pc v + 1) p (matched v)).

(** ** Switch *)

Definition SwitchVM_switch (inst : Instruction) (v : Vars) : res (Vars + T) :=
  match op inst with
  | Nop => Ok (inl (goto_pc (pc v + 1) v))
  | SkipWhitespace => v ← skip_step v; Ok (inl v)
  | MatchChar => v ← record_match (match_char (pos v) (operand1 inst)) v; Ok (inl v)
  | MatchRange =>
      v ← record_match (match_range (pos v) (operand1 inst) (operand2 inst)) v; Ok (inl v)
  | JumpIfMatch =>
      Ok (inl (goto_pc (if matched v then operand1 inst else pc v + 1) v))
  | JumpIfNoMatch =>
      Ok (inl (goto_pc (if matched v then pc v + 1 else operand1 inst) v))
  | Jump => Ok (inl (goto_pc (operand1 inst) v))
  | EmitToken => Ok (inr (of_value (operand1 inst)))
  | Halt => Ok (inr End_)
  | _ => Ok (inr Invalid_)
  end.

Definition SwitchVM_body (v : Vars) : res (Vars + T) :=
  if pc v <? prog_size then inst ← prog_.[pc v]; SwitchVM_switch inst v
  else Ok (inr End_).

Definition SwitchVM_run (fuel : nat) : res T := loop SwitchVM_body fuel (mkVars 0 0 false).

(** ** A table of lambdas *)

Record DirectVM : Type := mkDirect { vars : Vars; halted_ : bool; result_ : T }.

Definition VMHandler : Type := DirectVM -> Instruction -> res DirectVM.

Definition with_vars (vm : DirectVM) (v : Vars) : DirectVM :=
  mkDirect v (halted_ vm) (result_ vm).

Definition vm_nop : VMHandler := fun vm _ =>
  Ok (with_vars vm (goto_pc (pc (vars vm) + 1) (vars vm))).
Definition vm_skip_whitespace : VMHandler := fun vm _ =>
  v ← skip_step (vars vm); Ok (with_vars vm v).
Definition vm_match_char : VMHandler := fun vm i =>
  v ← record_match (match_char (pos (vars vm)) (operand1 i)) (vars vm); Ok (with_vars vm v).
Definition vm_match_range : VMHandler := fun vm i =>
  v ← record_match (match_range (pos (vars vm)) (operand1 i) (operand2 i)) (vars vm);
  Ok (with_vars vm v).
Definition vm_jump_if_match : VMHandler := fun vm i =>
  let v := vars vm in
  Ok (with_vars vm (goto_pc (if matched v then operand1 i else pc v + 1) v)).
Definition vm_jump_if_no_match : VMHandler := fun vm i =>
  let v := vars vm in
  Ok (with_vars vm (goto_pc (if matched v then pc v + 1 else operand1 i) v)).
Definition vm_jump : VMHandler := fun vm i =>
  Ok (with_vars vm (goto_pc (operand1 i) (vars vm))).
Definition vm_emit_token : VMHandler := fun vm i =>
  Ok (mkDirect (vars vm) true (of_value (operand1 i))).
Definition vm_halt : VMHandler := fun vm _ => Ok (mkDirect (vars vm) true (result_ vm)).

(** [init_handlers] on the static table of null pointers. *)
Definition init_handlers (table : list (option VMHandler)) : list (option VMHandler) :=
  let table := <[0%nat := Some vm_nop]> table in
  let table := <[1%nat := Some vm_skip_whitespace]> table in
  let table := <[2%nat := Some vm_match_char]> table in
  let table := <[3%nat := Some vm_match_range]> table in
  let table := <[4%nat := Some vm_jump_if_match]> table in
  let table := <[5%nat := Some vm_jump_if_no_match]> table in
  let table := <[6%nat := Some vm_jump]> table in
  let table := <[7%nat := Some vm_emit_token]> table in
  let table := <[8%nat := Some vm_halt]> table in
  table.

Definition handlers_ : list (option VMHandler) :=
  init_handlers (replicate (Z.to_nat (op_value Count)) None).

Definition DirectVM_body (vm : DirectVM) : res (DirectVM + T) :=
  if (pc (vars vm) <? prog_size) && negb (halted_ vm) then
    inst ← prog_.[pc (vars vm)];
    h ← handlers_.[op_value (op inst)];
    match h with
    | Some f => vm ← f vm inst; Ok (inl vm)
    | None => Ub CodeLabel
    end
  else Ok (inr (result_ vm)).

Definition DirectVM_run (fuel : nat) : res T :=
  loop DirectVM_body fuel (mkDirect (mkVars 0 0 false) false End_).

(** ** Computed goto *)

Inductive Label : Set :=
  | L_nop | L_skip_ws | L_match_char | L_match_range
  | L_jmp_match | L_jmp_no_match | L_jmp | L_emit | L_halt.

Definition dispatch : list Label :=
  [L_nop; L_skip_ws; L_match_char; L_match_range;
   L_jmp_match; L_jmp_no_match; L_jmp; L_emit; L_halt].

(** [if (pc >= prog_.size()) return JsonToken::End; DISPATCH();], where the
    dispatch itself is the start of the next turn. *)
Definition next (v : Vars) : res (Vars + T) :=
  if prog_size <=? pc v then Ok (inr End_) else Ok (inl v).

Definition GotoVM_label (l : Label) (inst : Instruction) (v : Vars) : res (Vars + T) :=
  match l with
  | L_nop => next (goto_pc (pc v + 1) v)
  | L_skip_ws => v ← skip_step v; next v
  | L_match_char => v ← record_match (match_char (pos v) (operand1 inst)) v; next v
  | L_match_range =>
      v ← record_match (match_range (pos v) (operand1 inst) (operand2 inst)) v; next v
  | L_jmp_match => next (goto_pc (if matched v then operand1 inst else pc v + 1) v)
  | L_jmp_no_match => next (goto_pc (if matched v then pc v + 1 else operand1 inst) v)
  | L_jmp => next (goto_pc (operand1 inst) v)
  | L_emit => Ok (inr (of_value (operand1 inst)))
  | L_halt => Ok (inr End_)
  end.

Definition GotoVM_body (v : Vars) : res (Vars + T) :=
  inst ← prog_.[pc v];
  l ← dispatch.[op_value (op inst)];
  GotoVM_label l inst v.

Definition GotoVM_run (fuel : nat) : res T :=
  let v := mkVars 0 0 false in
  if prog_size <=? pc v then Ok End_ else loop GotoVM_body fuel v.
End vm.

(** The program that recognises the start of a number; '-' is 45, '0' is 48 and
    '9' is 57.  [number] and [invalid] are the values of the two tokens. *)
Definition make_number_program (number invalid : Z) : list Instruction :=
  [ mkInst SkipWhitespace 0 0 0;
    mkInst MatchChar (uchar "-") 0 0;
    mkInst MatchRange (uchar "0") (uchar "9") 0;
    mkInst JumpIfNoMatch 8 0 0;
    mkInst MatchRange (uchar "0") (uchar "9") 0;
    mkInst JumpIfMatch 4 0 0;
    mkInst EmitToken number 0 0;
    mkInst Halt 0 0 0;
    mkInst EmitToken invalid 0 0 ].

(** ** The three runs are equivalent *)

Section equivalence.
Context {T : Type} (End_ Invalid_ : T) (of_value : Z -> T).
Context (prog : list Instruction) (input : list ascii).

(** A program of enumerated operations. *)
Definition enumerated (i : Instruction) : bool :=
  match op i with Count | Raw _ => false | _ => true end.

Context (Hprog : forallb enumerated prog = true).

Lemma prog_enumerated p i : prog.[p] = Ok i -> enumerated i = true.
Proof.
  intros [_ Hi]%at_index_inv. apply (forallb_elem _ _ _ Hprog).
  by eapply list_elem_of_In, list_elem_of_lookup_2.
Qed.

(** The handler of an operation, applied to a machine that has not halted. *)
Lemma handler_step i v :
  enumerated i = true ->
  exists f, (handlers_ of_value input).[op_value (op i)] = Ok (Some f) /\
    f (mkDirect v false End_) i =
    (r ← SwitchVM_switch End_ Invalid_ of_value input i v;
     Ok (match r with
         | inl v => mkDirect v false End_
         | inr t => mkDirect v true t
         end)).
Proof.
  unfold enumerated, SwitchVM_switch. intros Hi.
  destruct (op i); try done; eexists; (split; [reflexivity|]); try reflexivity.
  - unfold vm_skip_whitespace. cbn [vars]. by destruct (skip_step _ _).
  - unfold vm_match_char. cbn [vars]. by destruct (record_match _ _).
  - unfold vm_match_range. cbn [vars]. by destruct (record_match _ _).
Qed.

Lemma direct_late :
  SwitchVM_run End_ Invalid_ of_value prog input ≃
  DirectVM_run End_ of_value prog input.
Proof.
  pose (I v vm := vm = mkDirect v false End_).
  assert (forall n,
    (SwitchVM_run End_ Invalid_ of_value prog input n = NoFuel ->
     DirectVM_run End_ of_value prog input n = NoFuel) /\
    (SwitchVM_run End_ Invalid_ of_value prog input n <> NoFuel ->
     res_rel eq (SwitchVM_run End_ Invalid_ of_value prog input n)
                (DirectVM_run End_ of_value prog input (S n)))) as H.
  { intros n. apply (loop_sim_late _ _ I); [|done].
    intros v vm Hvm. unfold I in Hvm. subst vm. unfold SwitchVM_body, DirectVM_body. cbn [vars halted_ result_ negb].
    rewrite andb_true_r. destruct (pc v <? prog_size prog) eqn:Epc; [|left; by repeat constructor].
    destruct (prog.[pc v]) as [i| |] eqn:Ei; [|left; constructor..].
    destruct (handler_step i v (prog_enumerated _ _ Ei)) as (f & Ef & Es).
    rewrite !bind_ok, Ef, bind_ok, Es.
    destruct (SwitchVM_switch _ _ _ _ _ _) as [[v'|t]| |]; cbn [mbind res_bind];
      [left; by repeat constructor| |left; constructor..].
    right. exists (mkDirect v true t). split; [done|]. cbn.
    rewrite Epc. by repeat constructor. }
  apply equiv_late; [apply stable_loop | apply H |].
  intros n Hn. symmetry. by apply res_rel_eq, H.
Qed.

Lemma goto_label i v :
  enumerated i = true ->
  (l ← dispatch.[op_value (op i)]; GotoVM_label End_ of_value prog input l i v) =
  (r ← SwitchVM_switch End_ Invalid_ of_value input i v;
   match r with inl v => next End_ prog v | inr t => Ok (inr t) end).
Proof.
  unfold enumerated, SwitchVM_switch. intros Hi.
  destruct (op i); try done;
    match goal with |- (dispatch.[?n] ≫= _) = _ =>
      let l := eval vm_compute in dispatch.[n] in change (dispatch.[n]) with l
    end; rewrite bind_ok; cbn [GotoVM_label].
  - by destruct (skip_step _ _).
  - by destruct (record_match _ _).
  - by destruct (record_match _ _).
Qed.

Lemma goto_late :
  GotoVM_run End_ of_value prog input ≃
  SwitchVM_run End_ Invalid_ of_value prog input.
Proof.
  destruct (Z.leb_spec (prog_size prog) 0) as [Hz|Hz].
  { assert (forall n, SwitchVM_run End_ Invalid_ of_value prog input (S n) = Ok End_) as E.
    { intros n. unfold SwitchVM_run. rewrite loop_S. unfold SwitchVM_body at 2. cbn [pc].
      by rewrite (proj2 (Z.ltb_ge _ _) Hz). }
    unfold GotoVM_run. cbn [pc]. rewrite (proj2 (Z.leb_le _ _) Hz).
    intros r. split; intros [Hr [n Hn]]; split; try done.
    - exists 1%nat. rewrite E. done.
    - destruct n; [done|]. rewrite E in Hn. by exists 0%nat. }
  unfold GotoVM_run. cbn [pc]. rewrite (proj2 (Z.leb_gt _ _) Hz).
  pose (I (v w : Vars) := v = w /\ pc v < prog_size prog).
  assert (forall n v, pc v < prog_size prog ->
    (loop (GotoVM_body End_ of_value prog input) n v = NoFuel ->
     loop (SwitchVM_body End_ Invalid_ of_value prog input) n v = NoFuel) /\
    (loop (GotoVM_body End_ of_value prog input) n v <> NoFuel ->
     res_rel eq (loop (GotoVM_body End_ of_value prog input) n v)
                (loop (SwitchVM_body End_ Invalid_ of_value prog input) (S n) v))) as H.
  { intros n v Hv. apply (loop_sim_late _ _ I); [|done].
    clear n v Hv. intros v ? [<- Hv]. unfold GotoVM_body, SwitchVM_body.
    rewrite (proj2 (Z.ltb_lt _ _) Hv).
    destruct (prog.[pc v]) as [i| |] eqn:Ei; [|left; constructor..].
    rewrite !bind_ok, (goto_label i v (prog_enumerated _ _ Ei)).
    destruct (SwitchVM_switch _ _ _ _ _ _) as [[v'|t]| |]; cbn [mbind res_bind];
      [|left; by repeat constructor|left; constructor..].
    unfold next. destruct (Z.leb_spec (prog_size prog) (pc v')).
    - right. exists v'. split; [done|]. rewrite (proj2 (Z.ltb_ge _ _)) by done.
      by repeat constructor.
    - left. by repeat constructor. }
  apply equiv_late; [apply stable_loop | intros n; by apply H |].
  intros n Hn. symmetry. by apply res_rel_eq, H.
Qed.
End equivalence.

(** * What the byte code for numbers recognises

    The run of [make_number_program] on every input: optional whitespace, an
    optional minus sign and a digit. *)

Definition digit (c : ascii) : bool := char_in "0" "9" c.

(** The text that the program accepts as the start of a number. *)
Definition number_prefix (s : list ascii) : bool :=
  let s := TableSpec.skip_ws s in
  let s := match s with c :: s' => if (c =? "-")%char then s' else s | [] => [] end in
  match s with c :: _ => digit c | [] => false end.

Section number_program.
Context {T : Type} (End_ Invalid_ : T) (of_value : Z -> T) (number invalid : Z).
Context (input : list ascii).

Let prog := make_number_program number invalid.
Let run := loop (SwitchVM_body End_ Invalid_ of_value prog input).
Let at_ (p : Z) (s : list ascii) : Prop := sees (mkTok input p) s.

Lemma at_start : at_ 0 input.
Proof. by exists []. Qed.

Lemma at_next p c s : at_ p (c :: s) -> at_ (p + 1) s.
Proof. apply (sees_adv (mkTok input p)). Qed.

Lemma at_more p s : at_ p s -> (p <? input_size input) = match s with [] => false | _ => true end.
Proof. apply sees_more. Qed.

Lemma at_read p c s : at_ p (c :: s) -> input.[p] = Ok c.
Proof.
  intros H. pose proof (sees_peek _ _ _ H) as E. unfold peek in E. cbn in E.
  by rewrite Z.add_0_r in E.
Qed.

Lemma skip_whitespace_spec p s :
  at_ p s -> exists p', skip_whitespace input p = Ok p' /\ at_ p' (TableSpec.skip_ws s).
Proof.
  unfold skip_whitespace. intros H.
  assert (length s < S (length input))%nat as Hn by apply (sees_turns _ _ H).
  revert p s H Hn. generalize (S (length input)) as n.
  induction n as [|n IH]; intros p s H Hn; [lia|].
  rewrite loop_S. unfold skip_body at 2. rewrite (at_more _ _ H).
  destruct s as [|c s]; cbn [TableSpec.skip_ws]; [by exists p|].
  rewrite (at_read _ _ _ H), bind_ok.
  replace (_ || _) with (match kind c with KSkip => true | _ => false end)
    by (by destruct c as [[] [] [] [] [] [] [] []]).
  cbn [length] in Hn. destruct (kind c); try by exists p.
  apply (IH (p + 1) s); [by eapply at_next | lia].
Qed.

Lemma match_char_spec p s v :
  at_ p s -> match_char input p v =
             Ok (match s with c :: _ => (c =? to_char v)%char | [] => false end).
Proof.
  intros H. unfold match_char. rewrite (at_more _ _ H).
  destruct s as [|c s]; [done|]. by rewrite (at_read _ _ _ H).
Qed.

Lemma match_range_spec p s lo hi :
  at_ p s -> match_range input p lo hi =
             Ok (match s with c :: _ => char_in (to_char lo) (to_char hi) c | [] => false end).
Proof.
  intros H. unfold match_range. rewrite (at_more _ _ H).
  destruct s as [|c s]; [done|]. by rewrite (at_read _ _ _ H).
Qed.

Lemma run_step n v i :
  pc v < 9 -> prog.[pc v] = Ok i ->
  run (S n) v =
  (r ← SwitchVM_switch End_ Invalid_ of_value input i v;
   match r with inl v => run n v | inr t => Ok t end).
Proof.
  intros Hpc Hi. unfold run. rewrite loop_S. unfold SwitchVM_body at 2.
  rewrite (proj2 (Z.ltb_lt _ _)) by exact Hpc. by rewrite Hi, bind_ok.
Qed.

Local Ltac step i :=
  rewrite (run_step _ _ i) by done;
  cbn [SwitchVM_switch op operand1 operand2 pos pc matched goto_pc];
  rewrite ?bind_ok; cbn [pos pc matched].
Local Ltac digit_step :=
  step (mkInst MatchRange (uchar "0") (uchar "9") 0);
  erewrite match_range_spec by eassumption;
  change (char_in (to_char (uchar "0")) (to_char (uchar "9"))) with digit;
  unfold record_match; rewrite !bind_ok; cbn [pos pc].

(** Instructions 4 and 5 go over the digits, then the token is emitted. *)
Lemma digits_run s p m n :
  at_ p s -> (2 * length s + 3 <= n)%nat -> run n (mkVars 4 p m) = Ok (of_value number).
Proof.
  revert p m n. induction s as [|c s IH]; intros p m n H Hn; cbn [length] in Hn;
    (do 3 (destruct n as [|n]; [lia|])); digit_step; step (mkInst JumpIfMatch 4 0 0).
  - by step (mkInst EmitToken number 0 0).
  - destruct (digit c).
    + apply IH; [by eapply at_next | lia].
    + by step (mkInst EmitToken number 0 0).
Qed.

(** Instructions 2 and 3 require a first digit. *)
Lemma first_digit_run s p m n :
  at_ p s -> (2 * length s + 4 <= n)%nat ->
  run n (mkVars 2 p m) =
  Ok (of_value (if match s with c :: _ => digit c | [] => false end then number else invalid)).
Proof.
  intros H Hn. do 3 (destruct n as [|n]; [lia|]). digit_step.
  step (mkInst JumpIfNoMatch 8 0 0). destruct s as [|c s].
  { by step (mkInst EmitToken invalid 0 0). }
  destruct (digit c); [|by step (mkInst EmitToken invalid 0 0)].
  apply (digits_run s); [by eapply at_next | cbn [length] in Hn; lia].
Qed.

Lemma number_run n :
  (2 * length input + 6 <= n)%nat ->
  SwitchVM_run End_ Invalid_ of_value prog input n =
  Ok (of_value (if number_prefix input then number else invalid)).
Proof.
  intros Hn. do 2 (destruct n as [|n]; [lia|]). unfold SwitchVM_run. fold run.
  step (mkInst SkipWhitespace 0 0 0). unfold skip_step. cbn [pos].
  destruct (skip_whitespace_spec 0 input at_start) as (p & -> & Hp). rewrite !bind_ok.
  step (mkInst MatchChar (uchar "-") 0 0). rewrite (match_char_spec _ _ _ Hp).
  unfold record_match, number_prefix. rewrite !bind_ok. cbn [pc pos].
  pose proof (suffix_length _ _ (TableSpec.skip_ws_suffix input)) as Hl.
  destruct (TableSpec.skip_ws input) as [|c s]; [apply (first_digit_run []); [done | cbn; lia]|].
  change (to_char (uchar "-")) with "-"%char. cbn [length] in Hl. destruct (c =? "-")%char.
  - apply first_digit_run; [by eapply at_next | lia].
  - apply (first_digit_run (c :: s)); [done | cbn [length]; lia].
Qed.
End number_program.
