(* ===== verification/JsonProps.v ===== *)
(** * Properties of the JSON benchmark

    The theorems on src/perf/threaded_code/json.cpp: character classification,
    the tokenizers, the generated documents and the byte code matchers. *)

From S2P Require Import Prelude JsonChar JsonLex JsonLexSpec JsonStream JsonGen.
From S2P Require Import JsonVm.

(** ** Character classification *)

Section classification.
Import char_classify.

Lemma classify_table_spec c : classify_table c = Ok (classify_switch c).
Proof. apply table_lookup. vm_compute. reflexivity. Qed.

Lemma classify_direct_spec c : classify_direct_threaded c = Ok (classify_switch c).
Proof.
  unfold classify_direct_threaded.
  rewrite (table_lookup kFuncTable (fun c _ => classify_switch c)); [done|].
  vm_compute. reflexivity.
Qed.

Lemma classify_hybrid_spec c : classify_hybrid c = Ok (classify_switch c).
Proof.
  assert (bool_decide (classify_hybrid c = Ok (classify_switch c)) = true) as H.
  { revert c. apply char_check. vm_compute. reflexivity. }
  by apply bool_decide_eq_true in H.
Qed.

(** The static table before and after the first call. *)
Definition goto_ready : GotoStatics := mkStatics (init_labels (labels statics0)) true.

Lemma classify_goto_spec st c :
  st = statics0 \/ st = goto_ready ->
  classify_computed_goto st c = Ok (classify_switch c, goto_ready).
Proof.
  intros Hst. unfold classify_computed_goto.
  replace (if initialized st then st else _) with goto_ready by (by destruct Hst as [-> | ->]).
  assert (exists l, (labels goto_ready).[uchar c] = Ok (Some l) /\ at_label l = classify_switch c)
    as (l & -> & <-); [|done].
  assert (match (labels goto_ready).[uchar c] with
          | Ok (Some l) => bool_decide (at_label l = classify_switch c)
          | _ => false end = true) as H.
  { revert c. apply char_check. vm_compute. reflexivity. }
  destruct (_.[uchar c]) as [[l|]| |]; try done. apply bool_decide_eq_true in H. eauto.
Qed.

Lemma sum_classes_ext {St} (f : St -> ascii -> res (CharClass.t * St)) (I : St -> Prop) data :
  (forall st c, I st -> exists st', f st c = Ok (classify_switch c, st') /\ I st') ->
  forall st sum, I st -> exists st', I st' /\
  sum_classes f st sum data =
  (x ← sum_classes (stateless (fun c => Ok (classify_switch c))) tt sum data; Ok (x.1, st')).
Proof.
  intros Hf. induction data as [|c data IH]; intros st sum Hst; cbn [sum_classes].
  { by exists st. }
  destruct (Hf st c Hst) as (st' & E & Hst'). rewrite E. apply (IH _ _ Hst').
Qed.

Lemma sum_switch_total data sum :
  exists total, sum_classes (stateless (fun c => Ok (classify_switch c))) tt sum data = Ok (total, tt).
Proof. revert sum. induction data as [|c data IH]; intros sum; cbn; eauto. Qed.

Lemma sum_stateless f data total :
  (forall c, f c = Ok (classify_switch c)) ->
  sum_classes (stateless (fun c => Ok (classify_switch c))) tt 0 data = Ok (total, tt) ->
  sum_classes (stateless f) tt 0 data = Ok (total, tt).
Proof.
  intros Hf E. destruct (sum_classes_ext (stateless f) (fun _ => True) data) with (st := tt) (sum := 0)
    as ([] & _ & ->); [|done|by rewrite E].
  intros [] c _. exists tt. unfold stateless. by rewrite Hf.
Qed.
End classification.

(** C6: the five classifiers of characters agree on every character, without
    undefined behaviour, and the benchmark loops over a text get the same sum
    from all of them; the classifier with the static table of labels does so
    for its first call, which fills the table, and after any history of
    calls. *)
Theorem classifiers_agree (data : list ascii) (c : ascii) :
  exists total st,
    char_classify.sum_classes
      (char_classify.stateless (fun c => Ok (char_classify.classify_switch c))) tt 0 data
      = Ok (total, tt) /\
    char_classify.sum_classes (char_classify.stateless char_classify.classify_table) tt 0 data
      = Ok (total, tt) /\
    char_classify.sum_classes
      (char_classify.stateless char_classify.classify_direct_threaded) tt 0 data
      = Ok (total, tt) /\
    char_classify.sum_classes (char_classify.stateless char_classify.classify_hybrid) tt 0 data
      = Ok (total, tt) /\
    char_classify.sum_classes char_classify.classify_computed_goto
      char_classify.statics0 0 data = Ok (total, st) /\
    (exists st', char_classify.classify_computed_goto st c =
                 Ok (char_classify.classify_switch c, st')) /\
    char_classify.classify_table c = Ok (char_classify.classify_switch c) /\
    char_classify.classify_direct_threaded c = Ok (char_classify.classify_switch c) /\
    char_classify.classify_hybrid c = Ok (char_classify.classify_switch c).
Proof.
  destruct (sum_switch_total data 0) as [total E].
  pose (I st := st = char_classify.statics0 \/ st = goto_ready).
  destruct (sum_classes_ext char_classify.classify_computed_goto I data)
    with (st := char_classify.statics0) (sum := 0) as (st & Hst & Eg).
  { intros st c' Hst. exists goto_ready. split; [by apply classify_goto_spec | by right]. }
  { by left. }
  exists total, st. rewrite E in Eg. split_and!; try exact E;
    auto using sum_stateless, classify_table_spec, classify_direct_spec, classify_hybrid_spec.
  exists goto_ready. by apply classify_goto_spec.
Qed.

(** ** Tokenizers *)

(** C7: from any position of an input the four tokenizers return the token the
    specification [lex] names and leave the text it leaves, without undefined
    behaviour and within the fuel of their loops: the switch and the table of
    classes by the variant of [lex] that stays at a malformed keyword, the table
    of functions and the computed goto by the one that drops its first
    character. *)
Theorem next_token_refines (t : Tok) :
  0 <= pos_ t <= size t ->
  let s := drop (Z.to_nat (pos_ t)) (input_ t) in
  SwitchTokenizer.next_token t = Ok ((lex false s).1, upto t (lex false s).2) /\
  TableTokenizer.next_token (TableTokenizer.init_tables TableTokenizer.statics0) t =
    Ok ((lex false s).1, upto t (lex false s).2) /\
  DirectThreadedTokenizer.next_token
    (DirectThreadedTokenizer.init_handlers DirectThreadedTokenizer.statics0) t =
    Ok ((lex true s).1, upto t (lex true s).2) /\
  exists st, ComputedGotoTokenizer.next_token ComputedGotoTokenizer.statics0 t =
               Ok ((lex true s).1, (st, upto t (lex true s).2)) /\
             ComputedGotoTokenizer.next_token st t =
               Ok ((lex true s).1, (st, upto t (lex true s).2)).
Proof.
  intros Ht s. pose proof (sees_drop t Ht) as Hs. fold s in Hs. split_and!.
  - by apply switch_next_spec.
  - by apply TableSpec.table_next_spec.
  - by apply DirectSpec.direct_next_spec.
  - exists GotoSpec.ready. split; apply GotoSpec.goto_next_spec; try done; [by left | by right].
Qed.

Definition text_array : list ascii := ["["; "t"; "r"; "u"; "e"; ","; "n"; "o"; "]"]%char.

(** The word "no" starts like null; the two variants leave it differently. *)
Lemma next_token_refines_witness :
  SwitchTokenizer.next_token (mkTok text_array 6) = Ok (JsonToken.Invalid, mkTok text_array 6) /\
  DirectThreadedTokenizer.next_token
    (DirectThreadedTokenizer.init_handlers DirectThreadedTokenizer.statics0)
    (mkTok text_array 6) = Ok (JsonToken.Invalid, mkTok text_array 7).
Proof.
  destruct (next_token_refines (mkTok text_array 6)) as (H1 & _ & H3 & _).
  - by vm_compute.
  - split; [exact H1 | exact H3].
Defined.

(** C8: summing up the tokens of a whole input.  The table of functions and the
    computed goto come to the end of every input, with at most one token per
    character and the same sum.  The switch and the table of classes either get
    that sum as well, or the input has a malformed keyword and they never come
    to an end, however long they run; without an invalid token in the stream the
    first is the case. *)
Theorem tokenizers_agree_or_stick (input : list ascii) :
  exists toks, lexes true input toks /\ (length toks <= length input)%nat /\
    (forall n, (length input < n)%nat ->
       run_direct n input = Ok (token_sum toks 0) /\
       run_goto n input = Ok (token_sum toks 0)) /\
    ((forall n, (length input < n)%nat ->
        run_switch n input = Ok (token_sum toks 0) /\
        run_table n input = Ok (token_sum toks 0)) \/
     (JsonToken.Invalid ∈ toks /\
      (exists pre w, input = pre ++ w /\ malformed w) /\
      forall n, run_switch n input = NoFuel /\ run_table n input = NoFuel)).
Proof.
  destruct (lexes_total input) as (toks & Ht & Hl). exists toks. split_and!; [done..| |].
  - intros n Hn. split; [apply run_direct_spec | apply run_goto_spec]; done || lia.
  - destruct (lexes_or_stuck _ _ Ht) as [Hf|(pre & w & Hw & Hm & Hi & Hno)].
    + left. intros n Hn. split; [apply run_switch_spec | apply run_table_spec]; done || lia.
    + right. split_and!; [done | by exists pre, w |]. intros n. by apply run_stuck.
Qed.

(** C9: whatever the random numbers are, for a size hint from 100 on the
    generator of test documents ends, and the four tokenizers come to the end of
    its text with the same sum, that of a stream of tokens which is a JSON value
    by the grammar. *)
Theorem generated_json_tokenized {G} `{!Urbg G} (size_hint : Z) (g : G) :
  100 <= size_hint < 2 ^ 64 ->
  exists text toks, generate_json size_hint g = Ok text /\ json_value toks /\
    lexes true text toks /\
    forall n, (length toks < n)%nat ->
      run_switch n text = Ok (token_sum toks 0) /\
      run_table n text = Ok (token_sum toks 0) /\
      run_direct n text = Ok (token_sum toks 0) /\
      run_goto n text = Ok (token_sum toks 0).
Proof.
  intros Hs. destruct (generate_json_spec size_hint g Hs) as (text & toks & Et & Hl & Hv).
  exists text, toks. split_and!; [done | done | by apply lexes_variants |].
  intros n Hn. pose proof (lexes_variants _ _ Hl).
  split_and!; [apply run_switch_spec | apply run_table_spec | apply run_direct_spec
              | apply run_goto_spec]; done.
Qed.

Lemma generated_json_tokenized_witness :
  (100 <= 160 < 2 ^ 64) /\
  exists text toks, generate_json 160 42 = Ok text /\ json_value toks /\
    lexes true text toks /\
    forall n, (length toks < n)%nat ->
      run_switch n text = Ok (token_sum toks 0) /\
      run_table n text = Ok (token_sum toks 0) /\
      run_direct n text = Ok (token_sum toks 0) /\
      run_goto n text = Ok (token_sum toks 0).
Proof.
  split; [lia|]. apply (generated_json_tokenized 160 42). lia.
Defined.

(** A word that starts with the first letter of a keyword and is not that
    keyword stops the switch and the table of classes for good: next_token
    returns an invalid token and leaves the object as it was, so that the loop
    over the tokens does not end. *)
Theorem malformed_keyword_never_ends (w : list ascii) :
  malformed w ->
  SwitchTokenizer.next_token (mkTok w 0) = Ok (JsonToken.Invalid, mkTok w 0) /\
  TableTokenizer.next_token (TableTokenizer.init_tables TableTokenizer.statics0) (mkTok w 0) =
    Ok (JsonToken.Invalid, mkTok w 0) /\
  forall n, run_switch n w = NoFuel /\ run_table n w = NoFuel.
Proof.
  intros Hm. pose proof (sees_start w) as Hs.
  assert (lex_result false (mkTok w 0) w = (JsonToken.Invalid, mkTok w 0)) as E.
  { unfold lex_result. rewrite (malformed_stuck w Hm). cbn [fst snd].
    by rewrite <- (sees_upto _ _ Hs). }
  split_and!.
  - by rewrite (switch_next_spec _ _ Hs), E.
  - by rewrite <- E, <- (TableSpec.table_next_spec _ _ Hs).
  - intros n. apply run_stuck. intros toks. by apply malformed_endless.
Qed.

Lemma malformed_keyword_never_ends_witness :
  malformed ["t"; "r"; "u"]%char /\ run_switch 1000 ["t"; "r"; "u"]%char = NoFuel.
Proof.
  assert (malformed ["t"; "r"; "u"]%char) as Hm
    by (exists "t"%char, ["r"; "u"]%char, KwTrue; split_and!; reflexivity).
  split; [exact Hm|].
  destruct (malformed_keyword_never_ends _ Hm) as (_ & _ & H). exact (proj1 (H 1000%nat)).
Defined.

(** ** Byte code matchers *)

(** The three byte code matchers are equivalent on programs of enumerated
    operations: for every input they return the same token, run into the same
    undefined behaviour or all run forever. *)
Theorem matchers_equivalent (prog : list Instruction) (input : list ascii) :
  forallb enumerated prog = true ->
  SwitchVM_run JsonToken.End JsonToken.Invalid JsonToken.of_value prog input ≃
    DirectVM_run JsonToken.End JsonToken.of_value prog input /\
  SwitchVM_run JsonToken.End JsonToken.Invalid JsonToken.of_value prog input ≃
    GotoVM_run JsonToken.End JsonToken.of_value prog input.
Proof.
  intros Hp. split; [by apply direct_late|]. symmetry. by apply goto_late.
Qed.

Lemma matchers_equivalent_witness :
  outcome (GotoVM_run JsonToken.End JsonToken.of_value [mkInst Nop 0 0 0] text_array)
    (Ok JsonToken.End).
Proof.
  destruct (matchers_equivalent [mkInst Nop 0 0 0] text_array) as [_ H]; [reflexivity|].
  apply H. split; [done|]. by exists 2%nat.
Defined.

(** The byte code for numbers, run by any of the three matchers, ends on
    every input; it emits Number exactly if the input is optional whitespace, an
    optional minus sign and a digit, and Invalid otherwise. *)
Theorem number_program_spec (input : list ascii) :
  let prog := make_number_program (JsonToken.value JsonToken.Number)
                (JsonToken.value JsonToken.Invalid) in
  let verdict := Ok (if number_prefix input then JsonToken.Number else JsonToken.Invalid) in
  outcome (SwitchVM_run JsonToken.End JsonToken.Invalid JsonToken.of_value prog input) verdict /\
  outcome (DirectVM_run JsonToken.End JsonToken.of_value prog input) verdict /\
  outcome (GotoVM_run JsonToken.End JsonToken.of_value prog input) verdict.
Proof.
  intros prog verdict.
  assert (outcome (SwitchVM_run JsonToken.End JsonToken.Invalid JsonToken.of_value prog input)
            verdict) as H.
  { split; [done|]. exists (2 * length input + 6)%nat. unfold prog.
    rewrite number_run by done. unfold verdict. by destruct (number_prefix input). }
  split_and!; [done | |].
  - by rewrite <- (direct_late JsonToken.End JsonToken.Invalid JsonToken.of_value prog input eq_refl).
  - by rewrite (goto_late JsonToken.End JsonToken.Invalid JsonToken.of_value prog input eq_refl).
Qed.
