(* ===== verification/Musttail.v ===== *)
(** * The variants with guaranteed tail calls

    src/perf/threaded_code/json_musttail.cpp: the classifier, the tokenizer and
    the byte code matcher in which every handler ends in a tail call of the
    dispatcher or of a function that stops.  A handler gives the state and which
    of the two it calls ([inl] the dispatcher, [inr] the function that stops), so
    that a chain of tail calls is a [loop].  Pointers are offsets from the start
    of the data; [slack] is the number of bytes the underlying array goes on for
    after the view, as pointer arithmetic that leaves the array is undefined. *)

From S2P Require Import Prelude JsonChar JsonLex JsonVm.

Module MtToken.
Inductive t : Set :=
  | Invalid | ObjectStart | ObjectEnd | ArrayStart | ArrayEnd | String | Number
  | True_ | False_ | Null | Colon | Comma | End | Continue | Count
  | Raw (v : Z).

Definition enumerators : list t :=
  [Invalid; ObjectStart; ObjectEnd; ArrayStart; ArrayEnd; String; Number; True_;
   False_; Null; Colon; Comma; End; Continue; Count].

Definition of_value (v : Z) : t := default (Raw v) (enumerators !! Z.to_nat v).

Definition value (tok : t) : Z :=
  match tok with
  | Invalid => 0 | ObjectStart => 1 | ObjectEnd => 2 | ArrayStart => 3
  | ArrayEnd => 4 | String => 5 | Number => 6 | True_ => 7 | False_ => 8 | Null => 9
  | Colon => 10 | Comma => 11 | End => 12 | Continue => 13 | Count => 14
  | Raw v => v
  end.
End MtToken.

Module MtCharClass.
Inductive t : Set :=
  | Whitespace | Digit | Alpha | Quote | Colon | Comma | OpenBrace | CloseBrace
  | OpenBracket | CloseBracket | Minus | Plus | Dot | Backslash | Exponent | Other
  | Count.

Definition value (cls : t) : Z :=
  match cls with
  | Whitespace => 0 | Digit => 1 | Alpha => 2 | Quote => 3 | Colon => 4 | Comma => 5
  | OpenBrace => 6 | CloseBrace => 7 | OpenBracket => 8 | CloseBracket => 9
  | Minus => 10 | Plus => 11 | Dot => 12 | Backslash => 13 | Exponent => 14
  | Other => 15 | Count => 16
  end.
End MtCharClass.

(** ** Character classification *)

Module MtClassify.
Definition make_char_table : list MtCharClass.t :=
  let t := replicate 256 MtCharClass.Other in
  let t := t.<[" " := MtCharClass.Whitespace]> in
  let t := t.<["009" := MtCharClass.Whitespace]> in
  let t := t.<["010" := MtCharClass.Whitespace]> in
  let t := t.<["013" := MtCharClass.Whitespace]> in
  let t := for_chars "0" "9" MtCharClass.Digit t in
  let t := for_chars "a" "z" MtCharClass.Alpha t in
  let t := for_chars "A" "Z" MtCharClass.Alpha t in
  let t := t.<["e" := MtCharClass.Exponent]> in
  let t := t.<["E" := MtCharClass.Exponent]> in
  let t := t.<["034" := MtCharClass.Quote]> in
  let t := t.<[":" := MtCharClass.Colon]> in
  let t := t.<["," := MtCharClass.Comma]> in
  let t := t.<["{" := MtCharClass.OpenBrace]> in
  let t := t.<["}" := MtCharClass.CloseBrace]> in
  let t := t.<["[" := MtCharClass.OpenBracket]> in
  let t := t.<["]" := MtCharClass.CloseBracket]> in
  let t := t.<["-" := MtCharClass.Minus]> in
  let t := t.<["+" := MtCharClass.Plus]> in
  let t := t.<["." := MtCharClass.Dot]> in
  let t := t.<["\" := MtCharClass.Backslash]> in
  t.

Definition classify_table (c : ascii) : res MtCharClass.t := make_char_table.[uchar c].

Definition ClassifyFunc : Type := ascii -> MtCharClass.t.

Definition h_whitespace : ClassifyFunc := fun _ => MtCharClass.Whitespace.
Definition h_digit : ClassifyFunc := fun _ => MtCharClass.Digit.
Definition h_alpha : ClassifyFunc := fun _ => MtCharClass.Alpha.
Definition h_exponent : ClassifyFunc := fun _ => MtCharClass.Exponent.
Definition h_quote : ClassifyFunc := fun _ => MtCharClass.Quote.
Definition h_colon : ClassifyFunc := fun _ => MtCharClass.Colon.
Definition h_comma : ClassifyFunc := fun _ => MtCharClass.Comma.
Definition h_open_brace : ClassifyFunc := fun _ => MtCharClass.OpenBrace.
Definition h_close_brace : ClassifyFunc := fun _ => MtCharClass.CloseBrace.
Definition h_open_bracket : ClassifyFunc := fun _ => MtCharClass.OpenBracket.
Definition h_close_bracket : ClassifyFunc := fun _ => MtCharClass.CloseBracket.
Definition h_minus : ClassifyFunc := fun _ => MtCharClass.Minus.
Definition h_plus : ClassifyFunc := fun _ => MtCharClass.Plus.
Definition h_dot : ClassifyFunc := fun _ => MtCharClass.Dot.
Definition h_backslash : ClassifyFunc := fun _ => MtCharClass.Backslash.
Definition h_other : ClassifyFunc := fun _ => MtCharClass.Other.

Definition make_func_table : list ClassifyFunc :=
  let t := replicate 256 h_other in
  let t := t.<[" " := h_whitespace]> in
  let t := t.<["009" := h_whitespace]> in
  let t := t.<["010" := h_whitespace]> in
  let t := t.<["013" := h_whitespace]> in
  let t := for_chars "0" "9" h_digit t in
  let t := for_chars "a" "z" h_alpha t in
  let t := for_chars "A" "Z" h_alpha t in
  let t := t.<["e" := h_exponent]> in
  let t := t.<["E" := h_exponent]> in
  let t := t.<["034" := h_quote]> in
  let t := t.<[":" := h_colon]> in
  let t := t.<["," := h_comma]> in
  let t := t.<["{" := h_open_brace]> in
  let t := t.<["}" := h_close_brace]> in
  let t := t.<["[" := h_open_bracket]> in
  let t := t.<["]" := h_close_bracket]> in
  let t := t.<["-" := h_minus]> in
  let t := t.<["+" := h_plus]> in
  let t := t.<["." := h_dot]> in
  let t := t.<["\" := h_backslash]> in
  t.

Definition classify_direct (c : ascii) : res MtCharClass.t :=
  f ← make_func_table.[uchar c]; Ok (f c).

Record ClassifyState : Set := mkCS { cur : Z; end_ : Z; sum : Z }.

(** The state and the tail call it goes on with. *)
Definition ClassifyHandler : Type := ClassifyState -> ClassifyState + ClassifyState.

(** [(s.cur < s.end) ? classify_dispatch : classify_done]. *)
Definition classify_next (s : ClassifyState) : ClassifyState + ClassifyState :=
  if cur s <? end_ s then inl s else inr s.

Definition classify_add (cls : MtCharClass.t) : ClassifyHandler := fun s =>
  classify_next (mkCS (cur s + 1) (end_ s) (u64 (sum s + MtCharClass.value cls))).

Definition classify_m_whitespace : ClassifyHandler := classify_add MtCharClass.Whitespace.
Definition classify_m_digit : ClassifyHandler := classify_add MtCharClass.Digit.
Definition classify_m_alpha : ClassifyHandler := classify_add MtCharClass.Alpha.
Definition classify_m_exponent : ClassifyHandler := classify_add MtCharClass.Exponent.
Definition classify_m_quote : ClassifyHandler := classify_add MtCharClass.Quote.
Definition classify_m_colon : ClassifyHandler := classify_add MtCharClass.Colon.
Definition classify_m_comma : ClassifyHandler := classify_add MtCharClass.Comma.
Definition classify_m_open_brace : ClassifyHandler := classify_add MtCharClass.OpenBrace.
Definition classify_m_close_brace : ClassifyHandler := classify_add MtCharClass.CloseBrace.
Definition classify_m_open_bracket : ClassifyHandler := classify_add MtCharClass.OpenBracket.
Definition classify_m_close_bracket : ClassifyHandler := classify_add MtCharClass.CloseBracket.
Definition classify_m_minus : ClassifyHandler := classify_add MtCharClass.Minus.
Definition classify_m_plus : ClassifyHandler := classify_add MtCharClass.Plus.
Definition classify_m_dot : ClassifyHandler := classify_add MtCharClass.Dot.
Definition classify_m_backslash : ClassifyHandler := classify_add MtCharClass.Backslash.
Definition classify_m_other : ClassifyHandler := classify_add MtCharClass.Other.

Record Statics : Type := mkStatics {
  classify_handlers : list (option ClassifyHandler);
  classify_init_flag : bool
}.

Definition statics0 : Statics := mkStatics (replicate 256 None) false.

Definition fill_classify (t : list (option ClassifyHandler)) : list (option ClassifyHandler) :=
  let t := foldl (fun t i => <[i := Some classify_m_other]> t) t (seq 0 256) in
  let t := t.<[" " := (Some classify_m_whitespace)]> in
  let t := t.<["009" := (Some classify_m_whitespace)]> in
  let t := t.<["010" := (Some classify_m_whitespace)]> in
  let t := t.<["013" := (Some classify_m_whitespace)]> in
  let t := for_chars "0" "9" (Some classify_m_digit) t in
  let t := for_chars "a" "z" (Some classify_m_alpha) t in
  let t := for_chars "A" "Z" (Some classify_m_alpha) t in
  let t := t.<["e" := (Some classify_m_exponent)]> in
  let t := t.<["E" := (Some classify_m_exponent)]> in
  let t := t.<["034" := (Some classify_m_quote)]> in
  let t := t.<[":" := (Some classify_m_colon)]> in
  let t := t.<["," := (Some classify_m_comma)]> in
  let t := t.<["{" := (Some classify_m_open_brace)]> in
  let t := t.<["}" := (Some classify_m_close_brace)]> in
  let t := t.<["[" := (Some classify_m_open_bracket)]> in
  let t := t.<["]" := (Some classify_m_close_bracket)]> in
  let t := t.<["-" := (Some classify_m_minus)]> in
  let t := t.<["+" := (Some classify_m_plus)]> in
  let t := t.<["." := (Some classify_m_dot)]> in
  let t := t.<["\" := (Some classify_m_backslash)]> in
  t.

Definition init_classify_handlers (st : Statics) : Statics :=
  if classify_init_flag st then st
  else mkStatics (fill_classify (classify_handlers st)) true.

Definition classify_dispatch (st : Statics) (data : list ascii) (s : ClassifyState) :
    res (ClassifyState + ClassifyState) :=
  c ← data.[cur s];
  h ← (classify_handlers st).[uchar c];
  match h with Some h => Ok (h s) | None => Ub CodeLabel end.

(** The handlers take one character each, so the number of characters bounds
    the chain of calls. *)
Definition classify_musttail_batch (st : Statics) (data : list ascii) : res (Z * Statics) :=
  let st := init_classify_handlers st in
  let len := Z.of_nat (length data) in
  if len =? 0 then Ok (0, st)
  else
    s ← loop (classify_dispatch st data) (length data) (mkCS 0 len 0);
    Ok (sum s, st).

(** The benchmark loops over the classifiers of single characters. *)
Fixpoint sum_with (f : ascii -> res MtCharClass.t) (sum : Z) (data : list ascii) : res Z :=
  match data with
  | [] => Ok sum
  | c :: data => cls ← f c; sum_with f (u64 (sum + MtCharClass.value cls)) data
  end.
End MtClassify.

(** ** Tokenizer *)

Module MtTokenizer.
Record TokenizerState : Set := mkTS { cur : Z; end_ : Z; token_sum : Z; done : bool }.

Section handlers.
Context (input : list ascii) (slack : Z).

Definition TokenHandler : Type := TokenizerState -> res (TokenizerState + TokenizerState).

Definition set_cur (p : Z) (s : TokenizerState) : TokenizerState :=
  mkTS p (end_ s) (token_sum s) (done s).
Definition add_token (tok : MtToken.t) (s : TokenizerState) : TokenizerState :=
  mkTS (cur s) (end_ s) (u64 (token_sum s + MtToken.value tok)) (done s).

Definition tok_done_handler (s : TokenizerState) : TokenizerState :=
  mkTS (cur s) (end_ s) (token_sum s) true.

(** [(s.cur < s.end) ? tok_dispatch : tok_done_handler]. *)
Definition tok_next (s : TokenizerState) : res (TokenizerState + TokenizerState) :=
  Ok (if cur s <? end_ s then inl s else inr (tok_done_handler s)).

(** A pointer [p + n], which has to stay inside the array or one past it. *)
Definition ptr_add (p n : Z) : res Z :=
  if p + n <=? Z.of_nat (length input) + slack then Ok (p + n) else Ub PointerRange.

Definition skip_body (s : TokenizerState) : res (TokenizerState + TokenizerState) :=
  if cur s <? end_ s then
    c ← input.[cur s];
    if (c =? " ")%char || (c =? "009")%char || (c =? "010")%char || (c =? "013")%char
    then Ok (inl (set_cur (cur s + 1) s)) else Ok (inr s)
  else Ok (inr s).

Definition skip_whitespace (s : TokenizerState) : res TokenizerState :=
  loop skip_body (S (length input)) s.

Definition tok_skip : TokenHandler := fun s => s ← skip_whitespace s; tok_next s.

Definition tok_single (tok : MtToken.t) : TokenHandler := fun s =>
  tok_next (set_cur (cur s + 1) (add_token tok s)).

Definition tok_object_start : TokenHandler := tok_single MtToken.ObjectStart.
Definition tok_object_end : TokenHandler := tok_single MtToken.ObjectEnd.
Definition tok_array_start : TokenHandler := tok_single MtToken.ArrayStart.
Definition tok_array_end : TokenHandler := tok_single MtToken.ArrayEnd.
Definition tok_colon : TokenHandler := tok_single MtToken.Colon.
Definition tok_comma : TokenHandler := tok_single MtToken.Comma.

(** The loop of [tok_string] is left with the tail call after the closing
    quote, or at the end of the input with [done] set and no token. *)
Definition string_body (s : TokenizerState) :
    res (TokenizerState + (TokenizerState + TokenizerState)) :=
  if cur s <? end_ s then
    c ← input.[cur s];
    let s := set_cur (cur s + 1) s in
    if (c =? "034")%char then
      r ← tok_next (add_token MtToken.String s); Ok (inr r)
    else if (c =? "\")%char && (cur s <? end_ s) then Ok (inl (set_cur (cur s + 1) s))
    else Ok (inl s)
  else Ok (inr (inr (tok_done_handler s))).

Definition tok_string : TokenHandler := fun s =>
  loop string_body (S (length input)) (set_cur (cur s + 1) s).

Definition number_body (s : TokenizerState) : res (TokenizerState + TokenizerState) :=
  if cur s <? end_ s then
    c ← input.[cur s];
    if number_char c then Ok (inl (set_cur (cur s + 1) s)) else Ok (inr s)
  else Ok (inr s).

Definition tok_number : TokenHandler := fun s =>
  s ← loop number_body (S (length input)) (set_cur (cur s + 1) s);
  tok_next (add_token MtToken.Number s).

(** [a && s.cur[i] == c]. *)
Definition and_char (a : res bool) (i : Z) (c : ascii) (s : TokenizerState) : res bool :=
  b ← a; if (b : bool) then x ← input.[cur s + i]; Ok (x =? c)%char else Ok false.

(** [s.cur + n <= s.end]. *)
Definition room (n : Z) (s : TokenizerState) : res bool :=
  p ← ptr_add (cur s) n; Ok (p <=? end_ s).

Definition keyword (cond : res bool) (n : Z) (tok : MtToken.t) : TokenHandler := fun s =>
  b ← cond;
  if (b : bool) then tok_next (add_token tok (set_cur (cur s + n) s))
  else tok_next (set_cur (cur s + 1) (add_token MtToken.Invalid s)).

Definition tok_true : TokenHandler := fun s =>
  keyword (and_char (and_char (and_char (room 4 s) 1 "r" s) 2 "u" s) 3 "e" s)
    4 MtToken.True_ s.

Definition tok_false : TokenHandler := fun s =>
  keyword (and_char (and_char (and_char (and_char (room 5 s) 1 "a" s) 2 "l" s) 3 "s" s)
             4 "e" s) 5 MtToken.False_ s.

Definition tok_null : TokenHandler := fun s =>
  keyword (and_char (and_char (and_char (room 4 s) 1 "u" s) 2 "l" s) 3 "l" s)
    4 MtToken.Null s.

Definition tok_invalid : TokenHandler := tok_single MtToken.Invalid.

Definition fill_tok (t : list (option TokenHandler)) : list (option TokenHandler) :=
  let t := foldl (fun t i => <[i := Some tok_invalid]> t) t (seq 0 256) in
  let t := t.<[" " := Some tok_skip]> in
  let t := t.<["009" := Some tok_skip]> in
  let t := t.<["010" := Some tok_skip]> in
  let t := t.<["013" := Some tok_skip]> in
  let t := t.<["{" := Some tok_object_start]> in
  let t := t.<["}" := Some tok_object_end]> in
  let t := t.<["[" := Some tok_array_start]> in
  let t := t.<["]" := Some tok_array_end]> in
  let t := t.<[":" := Some tok_colon]> in
  let t := t.<["," := Some tok_comma]> in
  let t := t.<["034" := Some tok_string]> in
  let t := t.<["t" := Some tok_true]> in
  let t := t.<["f" := Some tok_false]> in
  let t := t.<["n" := Some tok_null]> in
  let t := t.<["-" := Some tok_number]> in
  let t := for_chars "0" "9" (Some tok_number) t in
  t.

(** The table after [init_tok_handlers]; its handlers are the functions above,
    which refer to the input at hand. *)
Definition tok_handlers : list (option TokenHandler) := fill_tok (replicate 256 None).

Definition tok_dispatch (s : TokenizerState) : res (TokenizerState + TokenizerState) :=
  s ← skip_whitespace s;
  if cur s <? end_ s then
    c ← input.[cur s];
    h ← tok_handlers.[uchar c];
    match h with Some h => h s | None => Ub CodeLabel end
  else Ok (inr (tok_done_handler s)).

Definition tokenize_musttail : res Z :=
  let size := Z.of_nat (length input) in
  if size =? 0 then Ok 0
  else
    s ← loop tok_dispatch (length input) (mkTS 0 size 0 false);
    Ok (token_sum s).
End handlers.
End MtTokenizer.

(** ** Byte code matcher *)

Module MtVm.
Definition SwitchVM_run := JsonVm.SwitchVM_run MtToken.End MtToken.Invalid MtToken.of_value.
Definition GotoVM_run := JsonVm.GotoVM_run MtToken.End MtToken.of_value.

Record VMState : Type := mkVS { vars : Vars; result : MtToken.t; done : bool }.

Section handlers.
Context (prog : list Instruction) (input : list ascii).

Definition VMHandler : Type := VMState -> res (VMState + VMState).

Definition vm_done (s : VMState) : VMState := mkVS (vars s) (result s) true.

(** [(s.pc < s.prog_size) ? vm_dispatch : vm_done]. *)
Definition vm_next (s : VMState) (v : Vars) : res (VMState + VMState) :=
  let s := mkVS v (result s) (done s) in
  Ok (if pc v <? prog_size prog then inl s else inr (vm_done s)).

(** [s.prog[s.pc]]. *)
Definition inst (s : VMState) : res Instruction := prog.[pc (vars s)].

Definition vm_nop : VMHandler := fun s => vm_next s (goto_pc (pc (vars s) + 1) (vars s)).

Definition vm_skip_ws : VMHandler := fun s =>
  v ← skip_step input (vars s); vm_next s v.

Definition vm_match_char : VMHandler := fun s =>
  i ← inst s;
  v ← record_match (match_char input (pos (vars s)) (operand1 i)) (vars s); vm_next s v.

Definition vm_match_range : VMHandler := fun s =>
  i ← inst s;
  v ← record_match (match_range input (pos (vars s)) (operand1 i) (operand2 i)) (vars s);
  vm_next s v.

Definition vm_jmp_match : VMHandler := fun s =>
  i ← inst s; let v := vars s in
  vm_next s (goto_pc (if matched v then operand1 i else pc v + 1) v).

Definition vm_jmp_no_match : VMHandler := fun s =>
  i ← inst s; let v := vars s in
  vm_next s (goto_pc (if matched v then pc v + 1 else operand1 i) v).

Definition vm_jmp : VMHandler := fun s =>
  i ← inst s; vm_next s (goto_pc (operand1 i) (vars s)).

Definition vm_emit : VMHandler := fun s =>
  i ← inst s; Ok (inr (mkVS (vars s) (MtToken.of_value (operand1 i)) true)).

Definition vm_halt : VMHandler := fun s => Ok (inr (mkVS (vars s) MtToken.End true)).

(** [init_vm_handlers] on the table of null pointers. *)
Definition vm_handlers : list (option VMHandler) :=
  let table := replicate (Z.to_nat (op_value Count)) None in
  let table := <[0%nat := Some vm_nop]> table in
  let table := <[1%nat := Some vm_skip_ws]> table in
  let table := <[2%nat := Some vm_match_char]> table in
  let table := <[3%nat := Some vm_match_range]> table in
  let table := <[4%nat := Some vm_jmp_match]> table in
  let table := <[5%nat := Some vm_jmp_no_match]> table in
  let table := <[6%nat := Some vm_jmp]> table in
  let table := <[7%nat := Some vm_emit]> table in
  let table := <[8%nat := Some vm_halt]> table in
  table.

Definition vm_dispatch (s : VMState) : res (VMState + VMState) :=
  i ← inst s;
  h ← vm_handlers.[op_value (op i)];
  match h with Some h => h s | None => Ub CodeLabel end.

Definition run_musttail_vm (fuel : nat) : res MtToken.t :=
  match prog with
  | [] => Ok MtToken.End
  | _ =>
      s ← loop vm_dispatch fuel (mkVS (mkVars 0 0 false) MtToken.Invalid false);
      Ok (result s)
  end.
End handlers.

Definition make_number_program : list Instruction :=
  JsonVm.make_number_program (MtToken.value MtToken.Number) (MtToken.value MtToken.Invalid).
End MtVm.
