(* ===== verification/MusttailLex.v ===== *)
(** * The tokenizers that the one with tail calls is measured against

    SwitchTokenizer and DirectThreadedTokenizer of src/perf/threaded_code/json_musttail.cpp,
    which give the tokens of that file, with [Continue] for skipped characters.  They are
    those of json.cpp up to the names of the tokens. *)

From S2P Require Import Prelude JsonChar JsonLex JsonLexSpec JsonStream Musttail.

Module MtLex.

Definition found (tok : MtToken.t) (t : Tok) : res (Tok + MtToken.t * Tok) := Ok (inr (tok, t)).

Definition string_body (t : Tok) : res (Tok + MtToken.t * Tok) :=
  if more t then
    c ← peek 0 t;
    let t := adv 1 t in
    if (c =? "034")%char then found MtToken.String t
    else if (c =? "\")%char && more t then Ok (inl (adv 1 t))
    else Ok (inl t)
  else found MtToken.Invalid t.

Definition number_body (t : Tok) : res (Tok + MtToken.t * Tok) :=
  if more t then
    c ← peek 0 t;
    if number_char c then Ok (inl (adv 1 t)) else found MtToken.Number t
  else found MtToken.Number t.

Definition parse_keyword (kw : list ascii) (len : Z) (token : MtToken.t) (t : Tok) :
    res (MtToken.t * Tok) :=
  if size t <? pos_ t + len then Ok (MtToken.Invalid, t)
  else
    same ← loop (keyword_body kw len t) (S (Z.to_nat len)) 0;
    if (same : bool) then Ok (token, adv len t) else Ok (MtToken.Invalid, t).

(** ** SwitchTokenizer *)

Definition parse_string (t : Tok) : res (MtToken.t * Tok) := loop string_body (turns t) (adv 1 t).
Definition parse_number (t : Tok) : res (MtToken.t * Tok) := loop number_body (turns t) (adv 1 t).

Definition tail_call (m : res (MtToken.t * Tok)) : res (Tok + MtToken.t * Tok) := r ← m; Ok (inr r).

Definition switch (c : ascii) (t : Tok) : res (Tok + MtToken.t * Tok) :=
  match c with
  | "{" => found MtToken.ObjectStart (adv 1 t)
  | "}" => found MtToken.ObjectEnd (adv 1 t)
  | "[" => found MtToken.ArrayStart (adv 1 t)
  | "]" => found MtToken.ArrayEnd (adv 1 t)
  | ":" => found MtToken.Colon (adv 1 t)
  | "," => found MtToken.Comma (adv 1 t)
  | "034" => tail_call (parse_string t)
  | "t" => tail_call (parse_keyword kw_true 4 MtToken.True_ t)
  | "f" => tail_call (parse_keyword kw_false 5 MtToken.False_ t)
  | "n" => tail_call (parse_keyword kw_null 4 MtToken.Null t)
  | _ =>
      if char_in "0" "9" c || (c =? "-")%char then tail_call (parse_number t)
      else found MtToken.Invalid (adv 1 t)
  end%char.

Definition switch_body (t : Tok) : res (Tok + MtToken.t * Tok) :=
  if more t then
    c ← peek 0 t;
    if (c =? " ")%char || (c =? "009")%char || (c =? "010")%char || (c =? "013")%char
    then Ok (inl (adv 1 t))
    else switch c t
  else found MtToken.End t.

Definition switch_next_token (t : Tok) : res (MtToken.t * Tok) := loop switch_body (turns t) t.

(** ** DirectThreadedTokenizer *)

Definition Handler : Type := Tok -> res (MtToken.t * Tok).

Definition handle_skip : Handler := fun t => Ok (MtToken.Continue, adv 1 t).
Definition handle_object_start : Handler := fun t => Ok (MtToken.ObjectStart, adv 1 t).
Definition handle_object_end : Handler := fun t => Ok (MtToken.ObjectEnd, adv 1 t).
Definition handle_array_start : Handler := fun t => Ok (MtToken.ArrayStart, adv 1 t).
Definition handle_array_end : Handler := fun t => Ok (MtToken.ArrayEnd, adv 1 t).
Definition handle_colon : Handler := fun t => Ok (MtToken.Colon, adv 1 t).
Definition handle_comma : Handler := fun t => Ok (MtToken.Comma, adv 1 t).
Definition handle_string : Handler := fun t => loop string_body (turns t) (adv 1 t).
Definition handle_number : Handler := fun t => loop number_body (turns t) (adv 1 t).

(** [a && t.input_[t.pos_ + i] == c]. *)
Definition and_char (a : res bool) (i : Z) (c : ascii) (t : Tok) : res bool :=
  b ← a; if (b : bool) then x ← peek i t; Ok (x =? c)%char else Ok false.

Definition room (n : Z) (t : Tok) : res bool := Ok (pos_ t + n <=? size t).

Definition handle_true : Handler := fun t =>
  b ← and_char (and_char (and_char (room 4 t) 1 "r" t) 2 "u" t) 3 "e" t;
  if (b : bool) then Ok (MtToken.True_, adv 4 t) else Ok (MtToken.Invalid, adv 1 t).

Definition handle_false : Handler := fun t =>
  b ← and_char (and_char (and_char (and_char (room 5 t) 1 "a" t) 2 "l" t) 3 "s" t) 4 "e" t;
  if (b : bool) then Ok (MtToken.False_, adv 5 t) else Ok (MtToken.Invalid, adv 1 t).

Definition handle_null : Handler := fun t =>
  b ← and_char (and_char (and_char (room 4 t) 1 "u" t) 2 "l" t) 3 "l" t;
  if (b : bool) then Ok (MtToken.Null, adv 4 t) else Ok (MtToken.Invalid, adv 1 t).

Definition handle_invalid : Handler := fun t => Ok (MtToken.Invalid, adv 1 t).

(** The static members. *)
Record Statics : Type := mkStatics { initialized_ : bool; handlers_ : list (option Handler) }.

Definition statics0 : Statics := mkStatics false (replicate 256 None).

Definition fill_handlers (table : list (option Handler)) : list (option Handler) :=
  let table := foldl (fun tab i => <[i := Some handle_invalid]> tab) table (seq 0 256) in
  let table := table.<["013" := Some handle_skip]> in
  let table := table.<["010" := Some handle_skip]> in
  let table := table.<["009" := Some handle_skip]> in
  let table := table.<[" " := Some handle_skip]> in
  let table := table.<["{" := Some handle_object_start]> in
  let table := table.<["}" := Some handle_object_end]> in
  let table := table.<["[" := Some handle_array_start]> in
  let table := table.<["]" := Some handle_array_end]> in
  let table := table.<[":" := Some handle_colon]> in
  let table := table.<["," := Some handle_comma]> in
  let table := table.<["034" := Some handle_string]> in
  let table := table.<["t" := Some handle_true]> in
  let table := table.<["f" := Some handle_false]> in
  let table := table.<["n" := Some handle_null]> in
  let table := table.<["-" := Some handle_number]> in
  let table := for_chars "0" "9" (Some handle_number) table in
  table.

Definition init_handlers (st : Statics) : Statics :=
  if initialized_ st then st else mkStatics true (fill_handlers (handlers_ st)).

Definition call (h : option Handler) : Handler := fun t =>
  match h with Some f => f t | None => Ub CodeLabel end.

Definition direct_body (st : Statics) (t : Tok) : res (Tok + MtToken.t * Tok) :=
  if more t then
    c ← peek 0 t;
    h ← (handlers_ st).[uchar c];
    '(result, t) ← call h t;
    match result with MtToken.Continue => Ok (inl t) | _ => found result t end
  else found MtToken.End t.

Definition direct_next_token (st : Statics) (t : Tok) : res (MtToken.t * Tok) :=
  loop (direct_body st) (turns t) t.

(** The constructor. *)
Definition create (st : Statics) (input : list ascii) : Statics * Tok := (init_handlers st, mkTok input 0).

(** The loops over the tokens in the benchmarks and the tests: their sum. *)
Definition tokenize_body {T} (next_token : T -> res (MtToken.t * T)) (s : T * Z) : res (T * Z + T * Z) :=
  let '(tok, sum) := s in
  '(t, tok) ← next_token tok;
  match t with
  | MtToken.End => Ok (inr (tok, sum))
  | _ => Ok (inl (tok, u64 (sum + MtToken.value t)))
  end.

Definition tokenize_all {T} (next_token : T -> res (MtToken.t * T)) (fuel : nat) (tok : T) : res Z :=
  snd <$> loop (tokenize_body next_token) fuel (tok, 0).
End MtLex.

(** ** The tokenizers of json.cpp, with other names *)

Definition mt_of (tok : JsonToken.t) : MtToken.t :=
  match tok with
  | JsonToken.Invalid => MtToken.Invalid
  | JsonToken.ObjectStart => MtToken.ObjectStart
  | JsonToken.ObjectEnd => MtToken.ObjectEnd
  | JsonToken.ArrayStart => MtToken.ArrayStart
  | JsonToken.ArrayEnd => MtToken.ArrayEnd
  | JsonToken.String => MtToken.String
  | JsonToken.Number => MtToken.Number
  | JsonToken.True_ => MtToken.True_
  | JsonToken.False_ => MtToken.False_
  | JsonToken.Null => MtToken.Null
  | JsonToken.Colon => MtToken.Colon
  | JsonToken.Comma => MtToken.Comma
  | JsonToken.Whitespace => MtToken.Continue
  | JsonToken.End => MtToken.End
  | JsonToken.Count => MtToken.Count
  | JsonToken.Raw v => MtToken.Raw v
  end.

Definition renamed {T} (r : JsonToken.t * T) : MtToken.t * T := (mt_of r.1, r.2).
Definition rename_exit {S T} (x : S + JsonToken.t * T) : S + MtToken.t * T :=
  match x with inl s => inl s | inr r => inr (renamed r) end.

Lemma loop_renamed {S T} (b1 : S -> res (S + JsonToken.t * T)) (b2 : S -> res (S + MtToken.t * T)) n s :
  (forall s, b2 s = rename_exit <$> b1 s) -> loop b2 n s = renamed <$> loop b1 n s.
Proof.
  intros Hb. revert s. induction n as [|n IH]; intros s; [done|]. rewrite !loop_S, Hb.
  destruct (b1 s) as [[s'|r]| |]; cbn; [apply IH | done..].
Qed.

Lemma string_renamed t : MtLex.string_body t = rename_exit <$> string_body t.
Proof.
  unfold MtLex.string_body, string_body. destruct (more t); [|done].
  destruct (peek 0 t) as [c| |]; cbn; [|done..]. by repeat case_match.
Qed.

Lemma number_renamed t : MtLex.number_body t = rename_exit <$> number_body t.
Proof.
  unfold MtLex.number_body, number_body. destruct (more t); [|done].
  destruct (peek 0 t) as [c| |]; cbn; [|done..]. by case_match.
Qed.

Lemma keyword_renamed kw len tok t :
  MtLex.parse_keyword kw len (mt_of tok) t = renamed <$> parse_keyword kw len tok t.
Proof.
  unfold MtLex.parse_keyword, parse_keyword. case_match; [done|].
  destruct (loop _ _ _) as [[]| |]; done.
Qed.

Lemma tail_call_renamed m m' :
  m' = renamed <$> m -> MtLex.tail_call m' = rename_exit <$> SwitchTokenizer.tail_call m.
Proof. intros ->. by destruct m. Qed.

(** The loops of strings and numbers end with a token that is not skipped. *)
Lemma switch_renamed c t : MtLex.switch c t = rename_exit <$> SwitchTokenizer.switch c t.
Proof.
  assert (MtLex.tail_call (MtLex.parse_string t) =
    rename_exit <$> SwitchTokenizer.tail_call (SwitchTokenizer.parse_string t)) as Hs
    by (apply tail_call_renamed, loop_renamed, string_renamed).
  assert (MtLex.tail_call (MtLex.parse_number t) =
    rename_exit <$> SwitchTokenizer.tail_call (SwitchTokenizer.parse_number t)) as Hn
    by (apply tail_call_renamed, loop_renamed, number_renamed).
  assert (forall kw len tok, MtLex.tail_call (MtLex.parse_keyword kw len (mt_of tok) t) =
    rename_exit <$> SwitchTokenizer.tail_call (parse_keyword kw len tok t)) as Hk
    by (intros; apply tail_call_renamed, keyword_renamed).
  unfold MtLex.switch, SwitchTokenizer.switch.
  destruct c as [[] [] [] [] [] [] [] []];
    first [exact Hs | exact Hn | exact (Hk _ _ JsonToken.True_) | exact (Hk _ _ JsonToken.False_)
          | exact (Hk _ _ JsonToken.Null) | reflexivity].
Qed.

Lemma switch_next_renamed t :
  MtLex.switch_next_token t = renamed <$> SwitchTokenizer.next_token t.
Proof.
  apply loop_renamed. intros u. unfold MtLex.switch_body, SwitchTokenizer.body.
  destruct (more u); [|done]. destruct (peek 0 u) as [c| |]; cbn; [|done..].
  case_match; [done | apply switch_renamed].
Qed.

Module DirectLex.
Import MtLex.

Definition ready : Statics := init_handlers statics0.

Definition handler_of (k : Kind) : Handler :=
  match k with
  | KSkip => handle_skip
  | KSingle JsonToken.ObjectStart => handle_object_start
  | KSingle JsonToken.ObjectEnd => handle_object_end
  | KSingle JsonToken.ArrayStart => handle_array_start
  | KSingle JsonToken.ArrayEnd => handle_array_end
  | KSingle JsonToken.Colon => handle_colon
  | KSingle JsonToken.Comma => handle_comma
  | KString => handle_string
  | KNumber => handle_number
  | KKeyword KwTrue => handle_true
  | KKeyword KwFalse => handle_false
  | KKeyword KwNull => handle_null
  | _ => handle_invalid
  end.

Lemma mt_direct_lookup c : (handlers_ ready).[uchar c] = Ok (Some (handler_of (kind c))).
Proof. apply (table_lookup _ (fun c => Some (handler_of (kind c)))). reflexivity. Qed.

Lemma handler_renamed k t : handler_of k t = renamed <$> DirectSpec.handler_of k t.
Proof.
  destruct k as [|[]| | |[]|]; try done; cbn [handler_of DirectSpec.handler_of].
  - apply loop_renamed, string_renamed.
  - apply loop_renamed, number_renamed.
  - unfold handle_true, DirectThreadedTokenizer.handle_true. change DirectThreadedTokenizer.and_char with and_char.
    change DirectThreadedTokenizer.room with room. by destruct (and_char _ _ _ _) as [[]| |].
  - unfold handle_false, DirectThreadedTokenizer.handle_false. change DirectThreadedTokenizer.and_char with and_char.
    change DirectThreadedTokenizer.room with room. by destruct (and_char _ _ _ _) as [[]| |].
  - unfold handle_null, DirectThreadedTokenizer.handle_null. change DirectThreadedTokenizer.and_char with and_char.
    change DirectThreadedTokenizer.room with room. by destruct (and_char _ _ _ _) as [[]| |].
Qed.

Lemma direct_next_renamed t :
  direct_next_token ready t = renamed <$> DirectThreadedTokenizer.next_token DirectSpec.ready t.
Proof.
  apply loop_renamed. intros u. unfold direct_body, DirectThreadedTokenizer.body.
  destruct (more u); [|done]. destruct (peek 0 u) as [c| |]; cbn [mbind res_bind]; [|done..].
  rewrite mt_direct_lookup, DirectSpec.handler_lookup. cbn [mbind res_bind call DirectThreadedTokenizer.call].
  rewrite handler_renamed. by destruct (DirectSpec.handler_of (kind c) u) as [[[] ?]| |].
Qed.
End DirectLex.

(** ** Sums of tokens *)

(** The tokens of [next] are renamed in [next'], and it never gives the token that stands
    for skipped characters. *)
Lemma tokenize_renamed {T} (next : T -> res (JsonToken.t * T)) (next' : T -> res (MtToken.t * T)) n t sum :
  (forall t, next' t = renamed <$> next t) -> (forall t, okp (fun r => r.1 <> JsonToken.Whitespace) (next t)) ->
  loop (MtLex.tokenize_body next') n (t, sum) = loop (tokenize_body next) n (t, sum).
Proof.
  intros Hr Hw. apply loop_ext. intros [u s]. unfold MtLex.tokenize_body, tokenize_body. rewrite Hr.
  specialize (Hw u). destruct (next u) as [[tok u']| |]; cbn in *; [|done..]. by destruct tok.
Qed.

Lemma loop_not_ws (b : Tok -> res (Tok + JsonToken.t * Tok)) n t :
  (forall t, okp (fun x => match x with inl _ => True | inr r => r.1 <> JsonToken.Whitespace end) (b t)) ->
  okp (fun r : JsonToken.t * Tok => r.1 <> JsonToken.Whitespace) (loop b n t).
Proof. intros Hb. apply (loop_inv b (fun _ => True)); [|done]. intros s _. apply Hb. Qed.

Lemma string_not_ws n t : okp (fun r : JsonToken.t * Tok => r.1 <> JsonToken.Whitespace) (loop string_body n t).
Proof.
  apply loop_not_ws. intros u. unfold string_body. destruct (more u); [|done].
  destruct (peek 0 u); cbn; [|done..]. by repeat case_match.
Qed.

Lemma number_not_ws n t : okp (fun r : JsonToken.t * Tok => r.1 <> JsonToken.Whitespace) (loop number_body n t).
Proof.
  apply loop_not_ws. intros u. unfold number_body. destruct (more u); [|done].
  destruct (peek 0 u); cbn; [|done..]. by repeat case_match.
Qed.

Lemma keyword_not_ws kw len tok t :
  tok <> JsonToken.Whitespace ->
  okp (fun r : JsonToken.t * Tok => r.1 <> JsonToken.Whitespace) (parse_keyword kw len tok t).
Proof.
  intros Ht. unfold parse_keyword. case_match; [done|]. by destruct (loop _ _ _) as [[]| |].
Qed.

Lemma switch_not_ws t :
  okp (fun r : JsonToken.t * Tok => r.1 <> JsonToken.Whitespace) (SwitchTokenizer.next_token t).
Proof.
  apply loop_not_ws. intros u. unfold SwitchTokenizer.body. destruct (more u); [|done].
  destruct (peek 0 u) as [c| |]; cbn [mbind res_bind]; [|done..]. case_match; [done|].
  assert (forall m, okp (fun r : JsonToken.t * Tok => r.1 <> JsonToken.Whitespace) m ->
    okp (fun x => match x with inl _ => True | inr r => r.1 <> JsonToken.Whitespace end)
      (SwitchTokenizer.tail_call m)) as Ht by (by intros []).
  pose proof (Ht _ (string_not_ws (turns u) (adv 1 u))) as Hs.
  pose proof (Ht _ (number_not_ws (turns u) (adv 1 u))) as Hn.
  assert (forall kw len tok, tok <> JsonToken.Whitespace -> okp
    (fun x => match x with inl _ => True | inr r => r.1 <> JsonToken.Whitespace end)
    (SwitchTokenizer.tail_call (parse_keyword kw len tok u))) as Hk by (intros; by apply Ht, keyword_not_ws).
  unfold SwitchTokenizer.switch.
  destruct c as [[] [] [] [] [] [] [] []]; first [exact Hs | exact Hn | by apply Hk | done].
Qed.

Lemma direct_not_ws st t :
  okp (fun r : JsonToken.t * Tok => r.1 <> JsonToken.Whitespace) (DirectThreadedTokenizer.next_token st t).
Proof.
  apply loop_not_ws. intros u. unfold DirectThreadedTokenizer.body. destruct (more u); [|done].
  destruct (peek 0 u) as [c| |]; cbn [mbind res_bind]; [|done..].
  destruct (_.[uchar c]) as [h| |]; cbn [mbind res_bind]; [|done..].
  destruct (DirectThreadedTokenizer.call h u) as [[tok v]| |]; cbn [mbind res_bind]; [|done..].
  case_bool_decide; cbn; done.
Qed.

(** The sums of the tokens of a text, with the two classes of json_musttail.cpp. *)
Definition mt_run_switch (n : nat) (input : list ascii) : res Z :=
  MtLex.tokenize_all MtLex.switch_next_token n (mkTok input 0).
Definition mt_run_direct (n : nat) (input : list ascii) : res Z :=
  let '(st, t) := MtLex.create MtLex.statics0 input in
  MtLex.tokenize_all (MtLex.direct_next_token st) n t.

Lemma mt_switch_run n input : mt_run_switch n input = run_switch n input.
Proof.
  unfold mt_run_switch, run_switch, MtLex.tokenize_all, tokenize_all.
  by rewrite (tokenize_renamed SwitchTokenizer.next_token)
    by (apply switch_next_renamed || apply switch_not_ws).
Qed.

(** The static table is the same at every turn. *)
Lemma direct_next_statics st n t sum :
  snd <$> loop (tokenize_body direct_next) n ((st, t), sum) =
  snd <$> loop (tokenize_body (DirectThreadedTokenizer.next_token st)) n (t, sum).
Proof.
  revert t sum. induction n as [|n IH]; intros t sum; [done|]. rewrite !loop_S.
  unfold tokenize_body at 2 4. unfold direct_next at 2. cbn [fst snd].
  destruct (DirectThreadedTokenizer.next_token st t) as [[tok u]| |]; cbn [mbind res_bind]; [|done..].
  case_bool_decide; cbn [negb mbind res_bind]; [done | apply IH].
Qed.

Lemma mt_direct_run n input : mt_run_direct n input = run_direct n input.
Proof.
  unfold mt_run_direct, run_direct, MtLex.tokenize_all, tokenize_all. cbn [MtLex.create].
  change (MtLex.init_handlers MtLex.statics0) with DirectLex.ready.
  rewrite (tokenize_renamed (DirectThreadedTokenizer.next_token DirectSpec.ready))
    by (apply DirectLex.direct_next_renamed || apply direct_not_ws).
  symmetry. apply direct_next_statics.
Qed.
