(* ===== verification/MusttailGen.v ===== *)
(** * Test data of the two JSON programs

    The generator of src/perf/threaded_code/json_musttail.cpp, which draws the bounds of its
    loops anew at every test, with the proof that what it writes is tokenized as a JSON
    document; and the random texts of both programs. *)

From S2P Require Import Prelude JsonChar JsonLex JsonLexSpec JsonStream JsonGen.

(** ** generate_json *)

Module MtGen.
Section functions.
Context {G : Type} `{!Urbg G}.

(** [for (size_t i = 0; i < 1 + (rng() % m); ++i) s += '0' + (rng() % 10);]. *)
Definition digits_body (m : Z) (x : Z * list ascii * G) : res (Z * list ascii * G + list ascii * G) :=
  let '(i, s, g) := x in
  let '(d, g) := draw m g in
  if i <? 1 + d then
    let '(s, g) := add_chars "0" 10 1 s g in Ok (inl (i + 1, s, g))
  else Ok (inr (s, g)).

Definition digits (m : Z) (s : list ascii) (g : G) : res (list ascii * G) :=
  loop (digits_body m) (S (Z.to_nat m)) (0, s, g).

Definition random_number (g : G) : res (list ascii * G) :=
  let s := [] in
  let '(d, g) := draw 4 g in
  let s := if d =? 0 then s ++ ["-"%char] else s in
  '(s, g) ← digits 8 s g;
  let '(d, g) := draw 3 g in
  if d =? 0 then digits 4 (s ++ ["."%char]) g else Ok (s, g).

Definition add_value : list ascii -> G -> res (list ascii * G) := value_with random_number.

(** The loop over the members of an object. *)
Definition member_body (x : Z * list ascii * G) : res (Z * list ascii * G + list ascii * G) :=
  let '(i, result, g) := x in
  let '(d, g) := draw 5 g in
  if i <? 1 + d then
    let result := if 0 <? i then result ++ [","; " "]%char else result in
    let '(k, g) := draw 8 g in
    let '(s, g) := random_string (4 + k) g in
    '(result, g) ← add_value (result ++ s ++ [":"; " "]%char) g;
    Ok (inl (i + 1, result, g))
  else Ok (inr (result, g)).

Definition add_members (result : list ascii) (g : G) : res (list ascii * G) :=
  loop member_body 6 (0, result, g).

Definition object_body (size_hint : Z) (x : list ascii * G) : res (list ascii * G + list ascii * G) :=
  let '(result, g) := x in
  if Z.of_nat (length result) <? u64 (size_hint - 100) then
    '(result, g) ← add_members (result ++ [" "; " "; "{"]%char) g;
    Ok (inl (result ++ ["}"; ","; "010"]%char, g))
  else Ok (inr (result, g)).

Definition generate_json (size_hint : Z) (g : G) : res (list ascii) :=
  let result := ["["; "010"]%char in
  '(result, g) ← loop (object_body size_hint) (S (Z.to_nat size_hint)) (result, g);
  result ← drop_comma result;
  Ok (result ++ ["]"]%char).
End functions.
End MtGen.

(** ** Its text *)

Section mt_text.
Context {G : Type} `{!Urbg G}.
Implicit Types g : G.

Lemma digits_loop m n i s g :
  0 < m -> 0 <= i <= m -> m - i < Z.of_nat n ->
  exists ds g', loop (MtGen.digits_body m) n (i, s, g) = Ok (s ++ ds, g') /\
    forallb (fun c => number_char c && bool_decide (kind c = KNumber)) ds = true /\ (i = 0 -> ds <> []).
Proof.
  intros Hm. revert i s g. induction n as [|n IH]; intros i s g Hi Hn; [lia|].
  rewrite loop_S. unfold MtGen.digits_body at 2.
  destruct (draw_spec m g Hm) as (d & g1 & -> & Hd). destruct (Z.ltb_spec i (1 + d)).
  - destruct (add_chars_spec (fun c => number_char c && bool_decide (kind c = KNumber)) "0" 10 1 s g1)
      as (ds & g2 & -> & Hl & Hds); [done | done |].
    destruct (IH (i + 1) (s ++ ds) g2) as (es & g3 & E & Hes & _); [lia | lia |].
    exists (ds ++ es), g3. rewrite app_assoc, forallb_app, Hds. split_and!; [done | done |].
    intros _ Hnil. apply app_eq_nil in Hnil as [-> _]. done.
  - exists [], g1. rewrite app_nil_r. split_and!; [done | done | lia].
Qed.

Lemma digits_spec m s g :
  0 < m ->
  exists ds g', MtGen.digits m s g = Ok (s ++ ds, g') /\ forallb number_char ds = true /\
    exists c w, ds = c :: w /\ kind c = KNumber.
Proof.
  intros Hm. unfold MtGen.digits.
  destruct (digits_loop m (S (Z.to_nat m)) 0 s g Hm) as (ds & g' & E & Hds & Hne); [lia | lia |].
  exists ds, g'. split; [done|].
  assert (forallb number_char ds = true) as Hn.
  { apply forallb_forall. intros x Hx. eapply forallb_forall in Hds; [|exact Hx].
    by apply andb_true_iff in Hds as [? _]. }
  split; [done|]. destruct ds as [|c w]; [by specialize (Hne eq_refl)|]. exists c, w. split; [done|].
  cbn in Hds. rewrite !andb_true_iff, bool_decide_eq_true in Hds. tauto.
Qed.

Lemma mt_random_number_spec g :
  exists w g', MtGen.random_number g = Ok (w, g') /\ emits_before w [JsonToken.Number].
Proof.
  unfold MtGen.random_number. destruct (draw_spec 4 g eq_refl) as (d & g1 & -> & _).
  set (s := if d =? 0 then _ else _).
  destruct (digits_spec 8 s g1 eq_refl) as (ds & g2 & -> & Hn & c0 & w0 & Ec & Hk). rewrite bind_ok.
  assert (exists c w, s ++ ds = c :: w /\ kind c = KNumber /\ forallb number_char w = true)
    as (c & w & -> & Hc & Hw).
  { subst s. destruct (d =? 0); [by exists "-"%char, ds|]. subst ds. exists c0, w0.
    cbn in Hn. apply andb_true_iff in Hn as [_ Hn]. done. }
  destruct (draw_spec 3 g2 eq_refl) as (f & g3 & -> & _).
  destruct (f =? 0); [|eexists _, _; split; [done | by apply emits_number]].
  destruct (digits_spec 4 ((c :: w) ++ ["."%char]) g3 eq_refl) as (es & g4 & -> & Hes & _).
  eexists _, _; split; [done|]. cbn [app]. apply emits_number; [done|].
  by rewrite !forallb_app, Hw, Hes.
Qed.

(** The members from [i] on, after the members [body]. *)
Lemma members_loop n i pre body ts g :
  0 < i <= 5 -> 5 - i < Z.of_nat n -> emits_before body ts -> json_members ts ->
  exists body' ts' g', loop MtGen.member_body n (i, pre ++ body, g) = Ok (pre ++ body', g') /\
    emits_before body' ts' /\ json_members ts'.
Proof.
  revert i body ts g. induction n as [|n IH]; intros i body ts g Hi Hn Hb Hm; [lia|].
  rewrite loop_S. unfold MtGen.member_body at 2. destruct (draw_spec 5 g eq_refl) as (d & g0 & -> & Hd).
  destruct (Z.ltb_spec i (1 + d)); [|by exists body, ts, g0]. rewrite (proj2 (Z.ltb_lt 0 i)) by lia.
  destruct (member_spec MtGen.add_value ((pre ++ body) ++ [","; " "]%char) g0) as (w & us & g' & E & Hw & Hu);
    [apply value_with_spec, mt_random_number_spec|].
  destruct (draw 8 g0) as [k g1]. destruct (random_string (4 + k) g1) as [s g2]. rewrite E, bind_ok.
  cbn [mbind res_bind]. rewrite <- !app_assoc.
  apply (IH (i + 1) _ (ts ++ [JsonToken.Comma] ++ JsonToken.String :: JsonToken.Colon :: us)).
  - lia.
  - lia.
  - intros c s' rest Hc Hs. rewrite <- !app_assoc. apply Hb; [done|]. apply emits_comma. by apply Hw.
  - by constructor.
Qed.

Lemma add_members_spec pre g :
  exists body ts g', MtGen.add_members pre g = Ok (pre ++ body, g') /\ emits_before body ts /\ json_members ts.
Proof.
  unfold MtGen.add_members. rewrite loop_S. unfold MtGen.member_body at 2.
  destruct (draw_spec 5 g eq_refl) as (d & g0 & -> & Hd). rewrite (proj2 (Z.ltb_lt 0 (1 + d))) by lia.
  rewrite Z.ltb_irrefl.
  destruct (member_spec MtGen.add_value pre g0) as (w & us & g' & E & Hw & Hu);
    [apply value_with_spec, mt_random_number_spec|].
  destruct (draw 8 g0) as [k g1]. destruct (random_string (4 + k) g1) as [s g2]. rewrite E, bind_ok.
  cbn [mbind res_bind]. eapply members_loop; [lia | lia | exact Hw | by constructor].
Qed.

Lemma mt_generate_json_spec size_hint g :
  100 <= size_hint < 2 ^ 64 ->
  exists text toks, MtGen.generate_json size_hint g = Ok text /\ lexes false text toks /\ json_value toks.
Proof.
  intros Hs. unfold MtGen.generate_json.
  destruct (objects_spec (MtGen.object_body size_hint) MtGen.add_members
    (u64 (size_hint - 100)) (S (Z.to_nat size_hint)) ["["; "010"]%char g) as (result & g' & -> & Hd).
  - done.
  - intros pre h. apply add_members_spec.
  - constructor.
  - rewrite uwrap_id by lia. cbn [length]. lia.
  - lia.
  - rewrite bind_ok. by apply document_spec.
Qed.
End mt_text.

(** ** generate_random_chars *)

(** The literal of json_musttail.cpp, and that of json.cpp, with their terminators. *)
Definition mt_chars : list ascii :=
  ["{"; "}"; "["; "]"; "034"; ":"; ","]%char ++ (to_char <$> seqZ (uchar "0") 10) ++
  (to_char <$> seqZ (uchar "a") 26) ++ [" "; "009"; "010"; "-"; "+"; "."; "\"; "000"]%char.
Definition json_chars : list ascii :=
  ["{"; "}"; "["; "]"; "034"; ":"; ","]%char ++ (to_char <$> seqZ (uchar "0") 10) ++
  (to_char <$> seqZ (uchar "a") 26) ++ (to_char <$> seqZ (uchar "A") 26) ++
  [" "; "009"; "010"; "-"; "+"; "."; "\"; "000"]%char.

Section random_chars.
Context {G : Type} `{!Urbg G}.

Fixpoint add_random (chars : list ascii) (n : nat) (result : list ascii) (g : G) : res (list ascii) :=
  match n with
  | O => Ok result
  | S n =>
      let '(r, g) := draw (Z.of_nat (length chars) - 1) g in
      c ← chars.[r];
      add_random chars n (result ++ [c]) g
  end.

Definition generate_random_chars (chars : list ascii) (size : nat) (g : G) : res (list ascii) :=
  add_random chars size [] g.

Lemma add_random_spec chars n result g :
  (1 < length chars)%nat -> Forall (fun c => c ∈ removelast chars) result ->
  exists text, add_random chars n result g = Ok text /\ length text = (length result + n)%nat /\
    Forall (fun c => c ∈ removelast chars) text.
Proof.
  intros Hl. revert result g. induction n as [|n IH]; intros result g Hr; cbn [add_random].
  { exists result. split_and!; [done | lia | done]. }
  destruct (draw_spec (Z.of_nat (length chars) - 1) g ltac:(lia)) as (r & g1 & -> & Hd).
  destruct (exists_last (l := chars)) as (init & x & ->); [by intros ->; cbn in Hl; lia|].
  rewrite length_app in *. cbn [length] in *. rewrite removelast_last in *.
  destruct (lookup_lt_is_Some_2 init (Z.to_nat r)) as [c Hc]; [lia|].
  rewrite (at_index_lookup _ _ c) by (try lia; by rewrite lookup_app_l by lia). rewrite bind_ok.
  destruct (IH (result ++ [c]) g1) as (text & E & Ht & Hf).
  - apply Forall_app. split; [done|]. constructor; [|done]. by eapply list_elem_of_lookup_2.
  - exists text. rewrite length_app in Ht. cbn [length] in Ht. split_and!; [done | lia | done].
Qed.
End random_chars.
