(* ===== verification/JsonTests.v ===== *)
(** * The tests of the two JSON programs

    run_all_tests of src/perf/threaded_code/json.cpp and json_musttail.cpp: what they report.
    The theorem evaluates them. *)

From S2P Require Import Prelude JsonChar JsonLex JsonStream JsonVm Musttail MusttailLex.

#[export] Instance MtToken_eq_dec : EqDecision MtToken.t.
Proof. solve_decision. Defined.
#[export] Instance MtCharClass_eq_dec : EqDecision MtCharClass.t.
Proof. solve_decision. Defined.

(** [m == expected] of a result. *)
Definition gives {A} `{!EqDecision A} (m : res A) (expected : A) : bool :=
  match m with Ok a => bool_decide (a = expected) | _ => false end.

(** ** json.cpp *)

Module JsonTests.
Import char_classify.

(** The lambda [test] of the first test, with the static table of the computed goto. *)
Definition test (st : GotoStatics) (c : ascii) (expected : CharClass.t) : bool * GotoStatics :=
  match classify_computed_goto st c with
  | Ok (cls, st) =>
      (bool_decide (classify_switch c = expected) && gives (classify_table c) expected
       && gives (classify_direct_threaded c) expected && bool_decide (cls = expected)
       && gives (classify_hybrid c) expected, st)
  | _ => (false, st)
  end.

Definition test_classification : bool :=
  (foldl (fun '(all_ok, st) '(c, expected) =>
     let '(ok, st) := test st c expected in (all_ok && ok, st)) (true, statics0)
   [(" ", CharClass.Whitespace); ("0", CharClass.Digit); ("a", CharClass.Alpha);
    ("e", CharClass.Exponent); ("034", CharClass.Quote); ("{", CharClass.OpenBrace)]%char).1.

(** The text of the second test: {"name": "test", "value": 123, "flag": true, "data": null}. *)
Definition json : list ascii :=
  ["{"; "034"; "n"; "a"; "m"; "e"; "034"; ":"; " "; "034"; "t"; "e"; "s"; "t"; "034"; ",";
   " "; "034"; "v"; "a"; "l"; "u"; "e"; "034"; ":"; " "; "1"; "2"; "3"; ","; " "; "034"; "f";
   "l"; "a"; "g"; "034"; ":"; " "; "t"; "r"; "u"; "e"; ","; " "; "034"; "d"; "a"; "t"; "a";
   "034"; ":"; " "; "n"; "u"; "l"; "l"; "}"]%char.

Definition expected : list JsonToken.t :=
  [JsonToken.ObjectStart; JsonToken.String; JsonToken.Colon; JsonToken.String;
   JsonToken.Comma; JsonToken.String; JsonToken.Colon; JsonToken.Number;
   JsonToken.Comma; JsonToken.String; JsonToken.Colon; JsonToken.True_;
   JsonToken.Comma; JsonToken.String; JsonToken.Colon; JsonToken.Null;
   JsonToken.ObjectEnd; JsonToken.End].

(** A turn of the loop of test_tokenizer, which gives up after 100 tokens: the tokens so far,
    or what the test returns. *)
Definition test_body {T} (next_token : T -> res (JsonToken.t * T)) (s : T * list JsonToken.t) :
    res (T * list JsonToken.t + bool) :=
  let '(tokenizer, tokens) := s in
  '(tok, tokenizer) ← next_token tokenizer;
  if negb (bool_decide (tok = JsonToken.End)) then
    let tokens := tokens ++ [tok] in
    if (100 <? length tokens)%nat then Ok (inr false) else Ok (inl (tokenizer, tokens))
  else Ok (inr (bool_decide (tokens ++ [JsonToken.End] = expected))).

Definition test_tokenizer {T} (next_token : T -> res (JsonToken.t * T)) (tokenizer : T) : res bool :=
  loop (test_body next_token) 102 (tokenizer, []).

Definition test_tokenizers : list (res bool) :=
  [test_tokenizer SwitchTokenizer.next_token (mkTok json 0);
   test_tokenizer table_next (TableTokenizer.create (TableTokenizer.init_tables TableTokenizer.statics0) json);
   test_tokenizer direct_next
     (DirectThreadedTokenizer.create (DirectThreadedTokenizer.init_handlers DirectThreadedTokenizer.statics0) json);
   test_tokenizer goto_next (ComputedGotoTokenizer.statics0, mkTok json 0)].

(** Every instruction of the program is run at most as often as there are characters. *)
Definition test_vm : bool :=
  let program := make_number_program (JsonToken.value JsonToken.Number) (JsonToken.value JsonToken.Invalid) in
  let input := [" "; " "; "-"; "1"; "2"; "3"; "4"; "5"]%char in
  gives (SwitchVM_run JsonToken.End JsonToken.Invalid JsonToken.of_value program input 100) JsonToken.Number
  && gives (DirectVM_run JsonToken.End JsonToken.of_value program input 100) JsonToken.Number
  && gives (GotoVM_run JsonToken.End JsonToken.of_value program input 100) JsonToken.Number.

Definition run_all_tests : list bool :=
  [test_classification; bool_decide (test_tokenizers = replicate 4 (Ok true)); test_vm].
End JsonTests.

(** ** json_musttail.cpp *)

Module MtTests.
Import MtClassify.

Definition test_text : list ascii := ["{"; "}"; "["; "]"; "0"; "1"; "2"; "3"; "a"; "b"; "c"]%char.

Definition test_classification : bool :=
  let st := init_classify_handlers statics0 in
  gives (classify_table " "%char) MtCharClass.Whitespace
  && gives (classify_table "0"%char) MtCharClass.Digit
  && gives (classify_table "{"%char) MtCharClass.OpenBrace
  && match sum_with classify_table 0 test_text with
     | Ok expected => gives (fst <$> classify_musttail_batch st test_text) expected
     | _ => false
     end.

(** {"a": 123, "b": true}. *)
Definition json : list ascii :=
  ["{"; "034"; "a"; "034"; ":"; " "; "1"; "2"; "3"; ","; " "; "034"; "b"; "034"; ":"; " ";
   "t"; "r"; "u"; "e"; "}"]%char.

(** The tokens of the switch tokenizer up to the end. *)
Definition collect_body (s : Tok * list MtToken.t) : res (Tok * list MtToken.t + list MtToken.t) :=
  let '(st, tokens1) := s in
  '(t, st) ← MtLex.switch_next_token st;
  if negb (bool_decide (t = MtToken.End)) then Ok (inl (st, tokens1 ++ [t])) else Ok (inr tokens1).

(** The text of the test is a literal, with its terminator after it. *)
Definition test_tokenizer : res bool :=
  tokens1 ← loop collect_body (S (length json)) (mkTok json 0, []);
  let expected_sum := foldl (fun sum tok => u64 (sum + MtToken.value tok)) 0 tokens1 in
  musttail_sum ← MtTokenizer.tokenize_musttail json 1;
  Ok ((length tokens1 =? 9)%nat && (musttail_sum =? expected_sum)).

Definition test_vm : bool :=
  let prog := MtVm.make_number_program in
  let input := [" "; " "; "-"; "1"; "2"; "3"; "4"; "5"]%char in
  gives (MtVm.SwitchVM_run prog input 100) MtToken.Number
  && gives (MtVm.GotoVM_run prog input 100) MtToken.Number
  && gives (MtVm.run_musttail_vm prog input 100) MtToken.Number.

Definition run_all_tests : list bool :=
  [test_classification; gives test_tokenizer true; test_vm].
End MtTests.

(** All the tests of the two programs report that they have passed. *)
Theorem json_tests_pass :
  JsonTests.run_all_tests = [true; true; true] /\ MtTests.run_all_tests = [true; true; true].
Proof. vm_compute. done. Qed.
