(* ===== verification/MusttailProps.v ===== *)
(** * Properties of the variants with guaranteed tail calls

    The theorems on src/perf/threaded_code/json_musttail.cpp: the batch
    classifier, the tokenizer and the byte code matcher against their
    counterparts. *)

From S2P Require Import Prelude JsonChar JsonLex JsonLexSpec JsonStream JsonVm.
From S2P Require Import JsonGen Musttail MusttailLex MusttailGen.

(** ** Classification *)

Section classify.
Import MtClassify.

(** The classes are those of json.cpp, with other values. *)
Definition class_of (c : ascii) : MtCharClass.t :=
  match char_classify.classify_switch c with
  | CharClass.Whitespace => MtCharClass.Whitespace
  | CharClass.Digit => MtCharClass.Digit
  | CharClass.Alpha => MtCharClass.Alpha
  | CharClass.Quote => MtCharClass.Quote
  | CharClass.Colon => MtCharClass.Colon
  | CharClass.Comma => MtCharClass.Comma
  | CharClass.OpenBrace => MtCharClass.OpenBrace
  | CharClass.CloseBrace => MtCharClass.CloseBrace
  | CharClass.OpenBracket => MtCharClass.OpenBracket
  | CharClass.CloseBracket => MtCharClass.CloseBracket
  | CharClass.Minus => MtCharClass.Minus
  | CharClass.Plus => MtCharClass.Plus
  | CharClass.Dot => MtCharClass.Dot
  | CharClass.Backslash => MtCharClass.Backslash
  | CharClass.Exponent => MtCharClass.Exponent
  | CharClass.Invalid | CharClass.Other | CharClass.Count => MtCharClass.Other
  end.

Definition ready : Statics := init_classify_handlers statics0.

Lemma mt_table_spec c : classify_table c = Ok (class_of c).
Proof. apply table_lookup. vm_compute. reflexivity. Qed.

Lemma mt_direct_spec c : classify_direct c = Ok (class_of c).
Proof.
  unfold classify_direct.
  rewrite (table_lookup make_func_table (fun c _ => class_of c)); [done|].
  vm_compute. reflexivity.
Qed.

Lemma mt_handler c : (classify_handlers ready).[uchar c] = Ok (Some (classify_add (class_of c))).
Proof.
  apply (table_lookup _ (fun c => Some (classify_add (class_of c)))). reflexivity.
Qed.

Definition class_sum (data : list ascii) (sum : Z) : Z :=
  foldl (fun sum c => u64 (sum + MtCharClass.value (class_of c))) sum data.

Lemma sum_with_spec f data sum :
  (forall c, f c = Ok (class_of c)) -> sum_with f sum data = Ok (class_sum data sum).
Proof.
  intros Hf. revert sum. induction data as [|c data IH]; intros sum; [done|].
  cbn [sum_with]. rewrite Hf, bind_ok. apply IH.
Qed.

Lemma classify_turn pre c s sum len :
  classify_dispatch ready (pre ++ c :: s) (mkCS (Z.of_nat (length pre)) len sum) =
  Ok (classify_next (mkCS (Z.of_nat (length (pre ++ [c]))) len
                      (u64 (sum + MtCharClass.value (class_of c))))).
Proof.
  unfold classify_dispatch. cbn [cur].
  rewrite (at_index_lookup _ _ c); [|lia|by rewrite Nat2Z.id, list_lookup_middle].
  rewrite bind_ok, mt_handler, bind_ok. unfold classify_add. cbn [cur end_ MtClassify.sum].
  rewrite length_app, Nat2Z.inj_add. done.
Qed.

(** A chain of handlers goes to the end of the data. *)
Lemma classify_chain s pre c sum n :
  (length s < n)%nat ->
  loop (classify_dispatch ready (pre ++ c :: s)) n
    (mkCS (Z.of_nat (length pre)) (Z.of_nat (length (pre ++ c :: s))) sum) =
  Ok (mkCS (Z.of_nat (length (pre ++ c :: s))) (Z.of_nat (length (pre ++ c :: s)))
        (class_sum (c :: s) sum)).
Proof.
  revert pre c sum n. induction s as [|d s IH]; intros pre c sum n Hn;
    (destruct n as [|n]; [cbn in Hn; lia|]); rewrite loop_S, classify_turn, bind_ok;
    unfold classify_next; cbn [cur end_].
  - by rewrite Z.ltb_irrefl.
  - rewrite (proj2 (Z.ltb_lt _ _)) by (rewrite !length_app; cbn [length]; lia).
    rewrite (cons_middle c pre), app_assoc. apply IH. cbn [length] in Hn. lia.
Qed.

Lemma batch_spec st data :
  st = statics0 \/ st = ready ->
  classify_musttail_batch st data = Ok (class_sum data 0, ready).
Proof.
  intros Hst. unfold classify_musttail_batch.
  replace (init_classify_handlers st) with ready by (by destruct Hst as [-> | ->]).
  destruct data as [|c s]; [done|]. cbn [length].
  rewrite (proj2 (Z.eqb_neq _ _)) by lia.
  by rewrite (classify_chain s [] c 0) by (cbn; lia).
Qed.
End classify.

(** The batch classifier with tail calls computes the sum that the loops over
    the table and over the table of functions compute, without undefined
    behaviour, on its first call and on later ones. *)
Theorem musttail_classifier_sum (data data' : list ascii) :
  exists total st,
    MtClassify.sum_with MtClassify.classify_table 0 data = Ok total /\
    MtClassify.sum_with MtClassify.classify_direct 0 data = Ok total /\
    MtClassify.classify_musttail_batch MtClassify.statics0 data = Ok (total, st) /\
    (x ← MtClassify.classify_musttail_batch st data'; Ok x.1) =
      MtClassify.sum_with MtClassify.classify_table 0 data'.
Proof.
  exists (class_sum data 0), ready.
  rewrite !(sum_with_spec MtClassify.classify_table) by apply mt_table_spec.
  rewrite (sum_with_spec MtClassify.classify_direct) by apply mt_direct_spec.
  rewrite !batch_spec by auto. done.
Qed.

(** ** Tokenizer *)

Section tokenizer.
Import MtTokenizer.
Context (input : list ascii) (slack : Z) (Hslack : 0 <= slack).

(** The state with [s] left to read. *)
Definition posn (s : list ascii) : Z := Z.of_nat (length input) - Z.of_nat (length s).
Definition state (s : list ascii) (sum : Z) : TokenizerState :=
  mkTS (posn s) (Z.of_nat (length input)) sum false.
Definition tok_at (s : list ascii) : Tok := mkTok input (posn s).

Lemma state_sees s : s `suffix_of` input -> sees (tok_at s) s.
Proof. intros Hs. apply (upto_sees (mkTok input 0) input); [apply sees_start | done]. Qed.

Lemma posn_more s : (posn s <? Z.of_nat (length input)) = match s with [] => false | _ => true end.
Proof.
  unfold posn. destruct s; cbn [length]; [apply Z.ltb_ge | apply Z.ltb_lt]; lia.
Qed.

Lemma posn_read c s : (c :: s) `suffix_of` input -> input.[posn (c :: s)] = Ok c.
Proof.
  intros Hs%state_sees. pose proof (sees_peek _ _ _ Hs) as E. unfold peek in E. cbn in E.
  by rewrite Z.add_0_r in E.
Qed.

Lemma posn_next c s : posn (c :: s) + 1 = posn s.
Proof. unfold posn. cbn [length]. lia. Qed.

Lemma suffix_tail c (s : list ascii) : (c :: s) `suffix_of` input -> s `suffix_of` input.
Proof. apply suffix_cons_l. Qed.

Lemma suffix_turns s : s `suffix_of` input -> (length s < S (length input))%nat.
Proof. intros Hs%suffix_length. lia. Qed.

(** What a handler does after it has read up to [s] and taken [sum]. *)
Definition go_on (s : list ascii) (sum : Z) : res (TokenizerState + TokenizerState) :=
  tok_next (state s sum).

Lemma mt_skip_spec s sum n :
  s `suffix_of` input -> (length s < n)%nat ->
  loop (skip_body input) n (state s sum) = Ok (state (TableSpec.skip_ws s) sum).
Proof.
  revert s. induction n as [|n IH]; intros s Hs Hn; [lia|].
  rewrite loop_S. unfold skip_body at 2. cbn [cur end_ state]. rewrite posn_more.
  destruct s as [|c s]; cbn [TableSpec.skip_ws]; [done|].
  rewrite (posn_read _ _ Hs), bind_ok. unfold set_cur. cbn [cur end_ token_sum done state].
  replace (_ || _) with (match kind c with KSkip => true | _ => false end)
    by (by destruct c as [[] [] [] [] [] [] [] []]).
  rewrite posn_next. cbn [length] in Hn.
  destruct (kind c); try done. apply (IH s); [by eapply suffix_tail | lia].
Qed.

Lemma mt_string_spec s sum n :
  s `suffix_of` input -> (length s < n)%nat -> u64 sum = sum ->
  loop (string_body input) n (state s sum) =
  go_on (lex_string s).2 (u64 (sum + JsonToken.value (lex_string s).1)).
Proof.
  intros Hs Hn Hsum. revert s Hs Hn. induction n as [n IH] using lt_wf_ind. intros s Hs Hn.
  destruct n as [|n]; [lia|]. rewrite loop_S. unfold string_body at 2.
  cbn [cur end_ state]. rewrite posn_more. destruct s as [|c s]; cbn [lex_string].
  { cbn [fst snd JsonToken.value mbind res_bind]. rewrite Z.add_0_r, Hsum. unfold go_on, tok_next.
    cbn [cur end_ state]. by rewrite posn_more. }
  rewrite (posn_read _ _ Hs), bind_ok. unfold set_cur. cbn [cur end_ token_sum done state].
  rewrite posn_next, posn_more. pose proof (suffix_tail _ _ Hs) as Hs1. cbn [length] in Hn.
  destruct (c =? "034")%char; [done|].
  destruct (c =? "\")%char, s as [|d s]; cbn [andb]; rewrite bind_ok;
    cbn [length cur end_ token_sum done] in *; rewrite ?posn_next.
  - apply (IH n (Nat.lt_succ_diag_r n) []); [done | cbn; lia].
  - apply (IH n (Nat.lt_succ_diag_r n) s); [by eapply suffix_tail | lia].
  - apply (IH n (Nat.lt_succ_diag_r n) []); [done | cbn; lia].
  - apply (IH n (Nat.lt_succ_diag_r n) (d :: s)); [done | cbn; lia].
Qed.

Lemma mt_number_spec s sum n :
  s `suffix_of` input -> (length s < n)%nat ->
  loop (number_body input) n (state s sum) = Ok (state (lex_number s) sum).
Proof.
  revert s. induction n as [|n IH]; intros s Hs Hn; [lia|].
  rewrite loop_S. unfold number_body at 2. cbn [cur end_ state]. rewrite posn_more.
  destruct s as [|c s]; cbn [lex_number]; [done|].
  rewrite (posn_read _ _ Hs), bind_ok. unfold set_cur. cbn [cur end_ token_sum done state].
  rewrite posn_next. cbn [length] in Hn.
  destruct (number_char c); [|done]. apply (IH s); [by eapply suffix_tail | lia].
Qed.
(** ** The handlers *)

Definition mt_handler_of (k : Kind) : TokenHandler :=
  match k with
  | KSkip => tok_skip input
  | KSingle JsonToken.ObjectStart => tok_object_start
  | KSingle JsonToken.ObjectEnd => tok_object_end
  | KSingle JsonToken.ArrayStart => tok_array_start
  | KSingle JsonToken.ArrayEnd => tok_array_end
  | KSingle JsonToken.Colon => tok_colon
  | KSingle JsonToken.Comma => tok_comma
  | KString => tok_string input
  | KNumber => tok_number input
  | KKeyword KwTrue => tok_true input slack
  | KKeyword KwFalse => tok_false input slack
  | KKeyword KwNull => tok_null input slack
  | _ => tok_invalid
  end.

Lemma mt_handler_lookup c :
  (tok_handlers input slack).[uchar c] = Ok (Some (mt_handler_of (kind c))).
Proof. apply (table_lookup _ (fun c => Some (mt_handler_of (kind c)))). reflexivity. Qed.

(** The condition of a keyword handler, with its pointer arithmetic. *)
Definition mt_matches (w : list ascii) (st : TokenizerState) : res bool :=
  foldl (fun m '(i, c) => and_char input m (Z.of_nat i) c st)
    (room input slack (Z.of_nat (S (length w))) st) (zip (seq 1 (length w)) w).

Lemma mt_room n s sum :
  room input slack n (state s sum) =
  if n <=? Z.of_nat (length s) + slack
  then DirectThreadedTokenizer.room n (tok_at s) else Ub PointerRange.
Proof.
  unfold room, ptr_add, DirectThreadedTokenizer.room, JsonLex.size.
  cbn [cur end_ state tok_at input_ pos_].
  replace (posn s + n <=? Z.of_nat (length input) + slack)
    with (n <=? Z.of_nat (length s) + slack); [by case_match|].
  unfold posn. apply eq_true_iff_eq. rewrite !Z.leb_le. lia.
Qed.

Lemma foldl_ub {X} (l : list X) (f : X -> Z * ascii) u st :
  foldl (fun m x => and_char input m (f x).1 (f x).2 st) (Ub u) l = Ub u.
Proof. induction l; cbn; auto. Qed.

Lemma mt_matches_spec c w s sum :
  (c :: s) `suffix_of` input ->
  mt_matches w (state (c :: s) sum) =
  if Z.of_nat (S (length w)) <=? Z.of_nat (length (c :: s)) + slack
  then Ok (match strip w s with Some _ => true | None => false end)
  else Ub PointerRange.
Proof.
  intros Hs. unfold mt_matches. rewrite mt_room. case_match.
  - rewrite <- (DirectSpec.matches_spec c w _ s (state_sees _ Hs)). reflexivity.
  - generalize (zip (seq 1 (length w)) w) as l.
    induction l as [|[i x] l IH]; cbn [foldl]; [done | exact IH].
Qed.

Definition mt_kw_token (k : Kw) : MtToken.t :=
  match k with KwTrue => MtToken.True_ | KwFalse => MtToken.False_ | KwNull => MtToken.Null end.

Lemma mt_keyword_handler k c w s sum :
  kw_text k = c :: w ->
  mt_handler_of (KKeyword k) (state (c :: s) sum) =
  keyword (mt_matches w (state (c :: s) sum)) (Z.of_nat (S (length w))) (mt_kw_token k)
    (state (c :: s) sum).
Proof. intros Hk. by destruct k; injection Hk as <- <-. Qed.

Lemma mt_single c s tok sum :
  tok_single tok (state (c :: s) sum) = go_on s (u64 (sum + MtToken.value tok)).
Proof.
  unfold tok_single, set_cur, add_token. cbn [cur end_ token_sum done state].
  by rewrite posn_next.
Qed.

(** A handler goes on as the specification says, unless it computes a pointer
    outside of the array. *)
Lemma mt_handler_spec c s sum :
  (c :: s) `suffix_of` input -> u64 sum = sum -> kind c <> KSkip ->
  mt_handler_of (kind c) (state (c :: s) sum) =
    go_on (lex true (c :: s)).2 (u64 (sum + JsonToken.value (lex true (c :: s)).1)) \/
  mt_handler_of (kind c) (state (c :: s) sum) = Ub PointerRange /\
    malformed (c :: s) /\ Z.of_nat (length (c :: s)) + slack < 5.
Proof.
  intros Hs Hsum Hk. pose proof (suffix_tail _ _ Hs) as Hs1. cbn [lex].
  destruct (kind c) as [|tok| | |k|] eqn:E; [done|left|left|left| |left].
  - revert E. clear Hk. destruct c as [[] [] [] [] [] [] [] []]; intros [= <-];
      apply mt_single.
  - unfold mt_handler_of, tok_string, set_cur. cbn [cur end_ token_sum done state].
    rewrite posn_next. apply (mt_string_spec s); [done | by apply suffix_turns | done].
  - unfold mt_handler_of, tok_number, set_cur. cbn [cur end_ token_sum done state].
    rewrite posn_next. change (mkTS (posn s) _ _ _) with (state s sum).
    by rewrite (mt_number_spec s) by (done || by apply suffix_turns).
  - destruct (kind_keyword _ _ E) as [w Hw]. rewrite (mt_keyword_handler k c w) by done.
    unfold keyword. rewrite (mt_matches_spec c w s sum Hs).
    destruct (Z.leb_spec (Z.of_nat (S (length w))) (Z.of_nat (length (c :: s)) + slack)).
    + left. rewrite bind_ok. unfold lex_keyword. rewrite Hw. cbn [strip].
      rewrite Ascii.eqb_refl. destruct (strip w s) as [s'|] eqn:Es; cbn [fst snd tail].
      * apply strip_app in Es as ->. unfold go_on, add_token, set_cur, state.
        cbn [cur end_ token_sum done].
        replace (posn (c :: w ++ s') + Z.of_nat (S (length w))) with (posn s')
          by (unfold posn; cbn [length]; rewrite length_app; lia).
        by destruct k.
      * apply (mt_single c s MtToken.Invalid).
    + right. split_and!; [done | | ].
      * exists c, s, k. split_and!; [done | done |]. rewrite Hw. cbn [strip].
        rewrite Ascii.eqb_refl. destruct (strip w s) eqn:Es; [|done].
        apply strip_app in Es as ->. cbn [length] in *. rewrite length_app in *. lia.
      * assert (length (kw_text k) <= 5)%nat by (destruct k; cbn; lia). rewrite Hw in *.
        cbn [length] in *. lia.
  - apply mt_single.
Qed.

Lemma lexes_nil toks : lexes true [] toks -> toks = [].
Proof. by inversion 1 as [|? ? ? ? E Hne]; [|injection E as <- <-]. Qed.

Lemma u64_u64 z : u64 (u64 z) = u64 z.
Proof. apply uwrap_uwrap. Qed.

Lemma dispatch_spec s sum :
  s `suffix_of` input ->
  tok_dispatch input slack (state s sum) =
  match TableSpec.skip_ws s with
  | [] => Ok (inr (tok_done_handler (state [] sum)))
  | c :: r => mt_handler_of (kind c) (state (c :: r) sum)
  end.
Proof.
  intros Hs. unfold tok_dispatch, skip_whitespace.
  rewrite (mt_skip_spec s sum _ Hs (suffix_turns s Hs)), bind_ok.
  cbn [cur end_ state]. rewrite posn_more.
  destruct (TableSpec.skip_ws s) as [|c r] eqn:E; [done|].
  rewrite posn_read, bind_ok, mt_handler_lookup; [done|].
  etrans; [|exact Hs]. rewrite <- E. apply TableSpec.skip_ws_suffix.
Qed.

Lemma malformed_invalid w : malformed w -> (lex true w).1 = JsonToken.Invalid.
Proof. intros (c & w' & k & -> & Hk & Hs). cbn [lex]. rewrite Hk. unfold lex_keyword. by rewrite Hs. Qed.

(** The chain of handlers from a text that is not empty. *)
Lemma mt_chain s toks :
  lexes true s toks ->
  forall sum n, s `suffix_of` input -> u64 sum = sum -> s <> [] -> (length s <= n)%nat ->
  (exists st, loop (tok_dispatch input slack) n (state s sum) = Ok st /\
              token_sum st = JsonStream.token_sum toks sum) \/
  (loop (tok_dispatch input slack) n (state s sum) = Ub PointerRange /\
   JsonToken.Invalid ∈ toks /\
   exists pre w, s = pre ++ w /\ malformed w /\ Z.of_nat (length w) + slack < 5).
Proof.
  induction 1 as [s s' E|s tok s' toks E Hne H IH]; intros sum n Hs Hsum Hnil Hn;
    (destruct n as [|n]; [destruct s; [done | cbn in Hn; lia]|]);
    rewrite loop_S, (dispatch_spec _ _ Hs);
    pose proof (TableSpec.skip_ws_suffix s) as [k Hk];
    pose proof (lex_suffix true s) as Hsuf; rewrite E in Hsuf; cbn [snd] in Hsuf;
    pose proof E as E'; rewrite <- TableSpec.lex_skip_ws in E';
    destruct (TableSpec.skip_ws s) as [|c r] eqn:Er.
  - left. by eexists.
  - destruct (lex_not_end true c r (TableSpec.skip_ws_head _ _ _ Er)). by rewrite E'.
  - by injection E' as <- <-.
  - pose proof (lex_progress _ _ _ E Hne) as Hlt.
    assert ((c :: r) `suffix_of` input) as Hcr.
    { etrans; [|exact Hs]. rewrite <- Er. apply TableSpec.skip_ws_suffix. }
    destruct (mt_handler_spec c r sum Hcr Hsum (TableSpec.skip_ws_head _ _ _ Er))
      as [->|(-> & Hm & Hl)].
    2: { right. split_and!; [done | | by exists k, (c :: r)].
         pose proof (malformed_invalid _ Hm) as Hi. rewrite E' in Hi. cbn in Hi. subst tok. left. }
    rewrite E'. cbn [fst snd]. unfold go_on, tok_next. cbn [cur end_ state].
    rewrite posn_more. destruct s' as [|d s'].
    + left. rewrite bind_ok. eexists. split; [done|]. by rewrite (lexes_nil _ H).
    + rewrite bind_ok. destruct (IH (u64 (sum + JsonToken.value tok)) n) as [IH'|IH'];
        [by etrans | apply u64_u64 | done | lia | by left |].
      right. destruct IH' as (-> & Hi & pre & w & Hw & Hm & Hl). split_and!; [done | by right |].
      destruct Hsuf as [k' Hk']. exists (k' ++ pre), w. by rewrite Hk', Hw, app_assoc.
Qed.
End tokenizer.

Lemma tokenize_musttail_spec input slack toks :
  0 <= slack -> lexes true input toks ->
  MtTokenizer.tokenize_musttail input slack = Ok (token_sum toks 0) \/
  MtTokenizer.tokenize_musttail input slack = Ub PointerRange /\ JsonToken.Invalid ∈ toks /\
  exists pre w, input = pre ++ w /\ malformed w /\ Z.of_nat (length w) + slack < 5.
Proof.
  intros Hslack Ht. unfold MtTokenizer.tokenize_musttail. destruct (decide (input = [])) as [->|Hne].
  { left. by rewrite (lexes_nil _ Ht). }
  rewrite (proj2 (Z.eqb_neq _ _)) by (destruct input; cbn [length]; [done | lia]).
  replace (MtTokenizer.mkTS 0 _ 0 false) with (state input input 0)
    by (unfold state, posn; f_equal; lia).
  destruct (mt_chain input slack Hslack input toks Ht 0 (length input)) as [(st & -> & Hst)|(-> & H)];
    [done | done | done | done | left | right; by split].
  by rewrite bind_ok, Hst.
Qed.


Definition text_kw : list ascii := ["["; "t"; "r"; "u"; "e"; "]"]%char.


Lemma json_value_valid toks : json_value toks -> JsonToken.Invalid ∉ toks.
Proof.
  intros Hv. assert (Forall (fun t => t <> JsonToken.Invalid) toks) as HF.
  { revert toks Hv. apply (json_value_mut (fun ts _ => Forall (fun t => t <> JsonToken.Invalid) ts)
      (fun ts _ => Forall (fun t => t <> JsonToken.Invalid) ts)
      (fun ts _ => Forall (fun t => t <> JsonToken.Invalid) ts)); intros;
      repeat first [assumption | apply Forall_nil | apply Forall_cons_2; [done|] | apply Forall_app_2]. }
  intros Hi. apply list_elem_of_lookup_1 in Hi as [i Hi].
  by apply (Forall_lookup_1 _ _ _ _ HF Hi).
Qed.

(** Whatever the random numbers are, for a size hint from 100 on the generator of
    json_musttail.cpp, which draws the bounds of its loops at every test, ends, and the three
    tokenizers of that file come to the end of its text, without undefined behaviour, with
    the same sum, that of a stream of tokens which is a JSON value by the grammar. *)
Theorem musttail_generated_json {G} `{!Urbg G} (size_hint slack : Z) (g : G) :
  100 <= size_hint < 2 ^ 64 -> 0 <= slack ->
  exists text toks, MtGen.generate_json size_hint g = Ok text /\ json_value toks /\ lexes true text toks /\
    MtTokenizer.tokenize_musttail text slack = Ok (token_sum toks 0) /\
    forall n, (length toks < n)%nat ->
      mt_run_switch n text = Ok (token_sum toks 0) /\ mt_run_direct n text = Ok (token_sum toks 0).
Proof.
  intros Hs Hslack. destruct (mt_generate_json_spec size_hint g Hs) as (text & toks & E & Hl & Hv).
  pose proof (lexes_variants _ _ Hl) as Ht. exists text, toks. split_and!; [done | done | done | |].
  - destruct (tokenize_musttail_spec text slack toks Hslack Ht) as [H|(_ & Hi & _)]; [done|].
    by apply json_value_valid in Hi.
  - intros n Hn. rewrite mt_switch_run, mt_direct_run.
    split; [by apply run_switch_spec | by apply run_direct_spec].
Qed.

Lemma musttail_generated_json_witness :
  exists text toks, MtGen.generate_json 160 42 = Ok text /\ json_value toks /\ lexes true text toks /\
    MtTokenizer.tokenize_musttail text 0 = Ok (token_sum toks 0) /\
    forall n, (length toks < n)%nat ->
      mt_run_switch n text = Ok (token_sum toks 0) /\ mt_run_direct n text = Ok (token_sum toks 0).
Proof. apply (musttail_generated_json 160 0 42); lia. Defined.

(** ** Byte code matcher *)

(** The instruction at [i] does not lead to the end of a program of [size]
    instructions. *)
Definition stays (size : Z) (i : nat) (inst : Instruction) : bool :=
  match op inst with
  | Nop | SkipWhitespace | MatchChar | MatchRange => Z.of_nat i + 1 <? size
  | JumpIfMatch | JumpIfNoMatch => (Z.of_nat i + 1 <? size) && (operand1 inst <? size)
  | Jump => operand1 inst <? size
  | _ => true
  end.

Definition never_falls (prog : list Instruction) : bool :=
  forallb id (imap (stays (prog_size prog)) prog).

Section matcher.
Import MtVm.
Context (prog : list Instruction) (input : list ascii).

Definition vm_state (v : Vars) : VMState := mkVS v MtToken.Invalid false.

Context (Hprog : forallb enumerated prog = true).

Lemma mt_label i v :
  prog.[pc v] = Ok i ->
  (h ← (vm_handlers prog input).[op_value (op i)];
   match h with Some h => h (vm_state v) | None => Ub CodeLabel end) =
  (r ← SwitchVM_switch MtToken.End MtToken.Invalid MtToken.of_value input i v;
   match r with
   | inl v' => vm_next prog (vm_state v) v'
   | inr t => Ok (inr (mkVS v t true))
   end).
Proof.
  intros Ei. pose proof (prog_enumerated prog Hprog _ _ Ei) as He.
  unfold enumerated, SwitchVM_switch in *.
  assert (inst prog (vm_state v) = Ok i) as Hi by exact Ei.
  destruct (op i); try done;
    match goal with |- (_.[?n] ≫= _) = _ => set (k := n) end; cbv in k; subst k.
  - change (vm_skip_ws prog input (vm_state v) = (r ← (v ← skip_step input v; Ok (inl v));
      match r with inl v' => vm_next prog (vm_state v) v' | inr t => Ok (inr (mkVS v t true)) end)).
    unfold vm_skip_ws. cbn [MtVm.vars vm_state]. by destruct (skip_step input v).
  - etrans; [apply (eq_refl (vm_match_char prog input (vm_state v)))|].
    unfold vm_match_char. rewrite Hi, bind_ok. cbn [MtVm.vars vm_state]. by destruct (record_match _ v).
  - etrans; [apply (eq_refl (vm_match_range prog input (vm_state v)))|].
    unfold vm_match_range. rewrite Hi, bind_ok. cbn [MtVm.vars vm_state]. by destruct (record_match _ v).
  - etrans; [apply (eq_refl (vm_jmp_match prog (vm_state v)))|].
    unfold vm_jmp_match. by rewrite Hi.
  - etrans; [apply (eq_refl (vm_jmp_no_match prog (vm_state v)))|].
    unfold vm_jmp_no_match. by rewrite Hi.
  - etrans; [apply (eq_refl (vm_jmp prog (vm_state v)))|].
    unfold vm_jmp. by rewrite Hi.
  - etrans; [apply (eq_refl (vm_emit prog (vm_state v)))|].
    unfold vm_emit. by rewrite Hi.
Qed.

(** The tokens the two machines return: they agree, or the computed goto has run
    off the end of a program that allows it. *)
Definition tokens_agree (t : MtToken.t) (s : VMState) : Prop :=
  result s = t \/ (t = MtToken.End /\ result s = MtToken.Invalid /\ never_falls prog = false).

Lemma stays_at i inst :
  never_falls prog = true -> prog !! i = Some inst -> stays (prog_size prog) i inst = true.
Proof.
  unfold never_falls. intros H Hi.
  apply (forallb_elem id _ (stays (prog_size prog) i inst) H).
  apply list_elem_of_In, list_elem_of_lookup. exists i. by rewrite list_lookup_imap, Hi.
Qed.

Lemma switch_stays i v v' :
  never_falls prog = true -> prog.[pc v] = Ok i ->
  SwitchVM_switch MtToken.End MtToken.Invalid MtToken.of_value input i v = Ok (inl v') ->
  pc v' < prog_size prog.
Proof.
  intros Hf Ei E. apply at_index_inv in Ei as [Hpc Hi].
  pose proof (stays_at _ _ Hf Hi) as Hst. unfold stays, SwitchVM_switch in *.
  rewrite Z2Nat.id in Hst by lia.
  destruct (op i); try done; try (injection E as <-; cbn [pc goto_pc]);
    try (apply andb_true_iff in Hst as [Hst Hst2]; apply Z.ltb_lt in Hst2);
    apply Z.ltb_lt in Hst; try (destruct (matched v); lia); try lia;
    apply bind_ok_inv in E as (w & E & [= <-]).
  - unfold skip_step in E. by apply bind_ok_inv in E as (p & _ & [= <-]).
  - unfold record_match in E. by apply bind_ok_inv in E as (p & _ & [= <-]).
  - unfold record_match in E. by apply bind_ok_inv in E as (p & _ & [= <-]).
Qed.

Lemma mt_vm_turn v :
  res_rel (sum_rel (fun v s => s = vm_state v) tokens_agree)
    (GotoVM_body MtToken.End MtToken.of_value prog input v)
    (vm_dispatch prog input (vm_state v)).
Proof.
  unfold GotoVM_body, vm_dispatch, inst. cbn [MtVm.vars vm_state].
  destruct (prog.[pc v]) as [i| |] eqn:Ei; [|constructor..].
  rewrite !bind_ok, (mt_label i v Ei).
  rewrite (goto_label _ MtToken.Invalid _ _ _ i v (prog_enumerated prog Hprog _ _ Ei)).
  destruct (SwitchVM_switch _ _ _ _ _ _) as [[v'|t]| |] eqn:Es; cbn [mbind res_bind];
    [|constructor; constructor; by left | constructor..].
  unfold next, vm_next. destruct (Z.leb_spec (prog_size prog) (pc v')),
    (Z.ltb_spec (pc v') (prog_size prog)); try lia.
  - constructor. constructor. right. split_and!; [done | done |].
    destruct (never_falls prog) eqn:E; [|done].
    pose proof (switch_stays i v v' E Ei Es). lia.
  - by repeat constructor.
Qed.

Lemma run_nonempty n :
  prog <> [] ->
  run_musttail_vm prog input n =
  (s ← loop (vm_dispatch prog input) n (vm_state (mkVars 0 0 false)); Ok (result s)).
Proof. clear Hprog. unfold run_musttail_vm. by destruct prog. Qed.

Lemma mt_vm_run n :
  res_rel (fun t t' => t' = t \/ (t = MtToken.End /\ t' = MtToken.Invalid /\ never_falls prog = false))
    (MtVm.GotoVM_run prog input n) (run_musttail_vm prog input n).
Proof.
  unfold MtVm.GotoVM_run, JsonVm.GotoVM_run.
  destruct (decide (prog = [])) as [E|Hne].
  { clear Hprog. unfold run_musttail_vm. rewrite E. constructor. by left. }
  rewrite (run_nonempty n Hne).
  rewrite (proj2 (Z.leb_gt _ _)); [|destruct prog; [done|unfold prog_size; cbn; lia]].
  assert (res_rel tokens_agree
    (loop (GotoVM_body MtToken.End MtToken.of_value prog input) n (mkVars 0 0 false))
    (loop (vm_dispatch prog input) n (vm_state (mkVars 0 0 false)))) as H.
  { apply (loop_sim _ _ (fun v s => s = vm_state v)); [|done].
    intros v s ->. apply mt_vm_turn. }
  destruct H as [t s H| |]; constructor. exact H.
Qed.
End matcher.

(** On programs of enumerated operations that do not run off their end the
    matcher with tail calls is equivalent to the switch and to the computed
    goto; in particular it decides as they do with the byte code for numbers. *)
Theorem musttail_matcher_equivalent (prog : list Instruction) (input : list ascii) :
  forallb enumerated prog = true -> never_falls prog = true ->
  MtVm.run_musttail_vm prog input ≃ MtVm.SwitchVM_run prog input /\
  MtVm.run_musttail_vm prog input ≃ MtVm.GotoVM_run prog input.
Proof.
  intros He Hf.
  assert (MtVm.run_musttail_vm prog input ≃ MtVm.GotoVM_run prog input) as H.
  { apply equiv_lockstep. intros n.
    destruct (mt_vm_run prog input He n) as [t t' [->|(_ & _ & Hn)]| |]; try done. congruence. }
  split; [|exact H]. rewrite H. by apply goto_late.
Qed.

Lemma musttail_matcher_equivalent_witness :
  outcome (MtVm.run_musttail_vm MtVm.make_number_program [" "; "-"; "7"]%char) (Ok MtToken.Number).
Proof.
  destruct (musttail_matcher_equivalent MtVm.make_number_program [" "; "-"; "7"]%char)
    as [H _]; [reflexivity | reflexivity |].
  apply H. split; [done|]. by exists 12%nat.
Defined.

(** An operation that is followed by the next instruction. *)
Definition straight (i : Instruction) : bool :=
  match op i with Nop | SkipWhitespace | MatchChar | MatchRange => true | _ => false end.

Section straight_line.
Context (prog : list Instruction) (input : list ascii).
Context (Hprog : forallb straight prog = true).

(** Reading at a position of the input that may be its end. *)
Lemma straight_step i v :
  straight i = true -> 0 <= pos v ->
  exists v', SwitchVM_switch MtToken.End MtToken.Invalid MtToken.of_value input i v = Ok (inl v') /\
             pc v' = pc v + 1 /\ 0 <= pos v'.
Proof.
  intros Hi Hp. unfold straight, SwitchVM_switch in *.
  assert (forall m : bool, 0 <= (if m then pos v + 1 else pos v)) as Hm by (intros []; lia).
  destruct (op i); try done.
  - by eexists.
  - assert (exists p, skip_whitespace input (pos v) = Ok p /\ 0 <= p) as (p & Ep & Hp').
    { destruct (Z.leb_spec (pos v) (Z.of_nat (length input))).
      - destruct (skip_whitespace_spec input (pos v) (drop (Z.to_nat (pos v)) input))
          as (p & Ep & Hs).
        + apply (sees_drop (mkTok input (pos v))). unfold JsonLex.size. cbn. lia.
        + exists p. split; [done|]. apply sees_range in Hs. cbn in Hs. lia.
      - exists (pos v). split; [|done]. unfold skip_whitespace. rewrite loop_S.
        unfold skip_body at 2, input_size. by rewrite (proj2 (Z.ltb_ge _ _)) by lia. }
    eexists. unfold skip_step. rewrite Ep. by split.
  - assert (exists b, match_char input (pos v) (operand1 i) = Ok b) as [b Eb].
    { unfold match_char, input_size. destruct (Z.ltb_spec (pos v) (Z.of_nat (length input))); [|eauto].
      destruct (at_index_ok input (pos v)) as (c & -> & _); [lia|]. eauto. }
    eexists. unfold record_match. rewrite Eb. split_and!; [done | done | apply Hm].
  - assert (exists b, match_range input (pos v) (operand1 i) (operand2 i) = Ok b) as [b Eb].
    { unfold match_range, input_size. destruct (Z.ltb_spec (pos v) (Z.of_nat (length input))); [|eauto].
      destruct (at_index_ok input (pos v)) as (c & -> & _); [lia|]. eauto. }
    eexists. unfold record_match. rewrite Eb. split_and!; [done | done | apply Hm].
Qed.

Lemma straight_enumerated : forallb enumerated prog = true.
Proof.
  apply forallb_forall. intros i Hi. eapply forallb_forall in Hprog; [|exact Hi].
  unfold straight, enumerated in *. by destruct (op i).
Qed.

Lemma straight_at v i : prog.[pc v] = Ok i -> straight i = true.
Proof.
  intros [_ Hi]%at_index_inv. eapply forallb_forall in Hprog; [exact Hprog|].
  by eapply list_elem_of_In, list_elem_of_lookup_2.
Qed.

(** The rest of a straight program is run to its end. *)
Lemma straight_switch k v :
  (k <= length prog)%nat -> pc v = Z.of_nat (length prog - k) -> 0 <= pos v ->
  loop (SwitchVM_body MtToken.End MtToken.Invalid MtToken.of_value prog input) (S k) v =
  Ok MtToken.End.
Proof.
  revert v. induction k as [|k IH]; intros v Hk Hpc Hp; rewrite loop_S;
    unfold SwitchVM_body at 2, prog_size.
  - by rewrite (proj2 (Z.ltb_ge _ _)) by lia.
  - rewrite (proj2 (Z.ltb_lt _ _)) by lia.
    destruct (at_index_ok prog (pc v)) as (i & Ei & _); [lia|].
    destruct (straight_step i v (straight_at v i Ei) Hp) as (v' & Es & Hpc' & Hp').
    rewrite Ei, bind_ok, Es, bind_ok. apply IH; lia.
Qed.

Lemma straight_run k v :
  (k < length prog)%nat -> pc v = Z.of_nat (length prog - S k) -> 0 <= pos v ->
  exists s, loop (MtVm.vm_dispatch prog input) (S k) (vm_state v) = Ok s /\
            MtVm.result s = MtToken.Invalid.
Proof.
  revert v. induction k as [|k IH]; intros v Hk Hpc Hp.
  all: destruct (at_index_ok prog (pc v)) as (i & Ei & _); [lia|].
  all: destruct (straight_step i v (straight_at v i Ei) Hp) as (v' & Es & Hpc' & Hp').
  all: rewrite loop_S; unfold MtVm.vm_dispatch at 2, MtVm.inst; cbn [MtVm.vars vm_state].
  all: rewrite Ei, bind_ok, (mt_label prog input straight_enumerated i v Ei), Es, bind_ok.
  all: unfold MtVm.vm_next, prog_size.
  - rewrite (proj2 (Z.ltb_ge _ _)) by lia. rewrite bind_ok. by eexists.
  - rewrite (proj2 (Z.ltb_lt _ _)) by lia. rewrite bind_ok. apply IH; lia.
Qed.
End straight_line.

(** A program without jumps that runs off its end is a match for the switch,
    which returns End, and not for the matcher with tail calls, which returns
    the Invalid its state starts with. *)
Theorem musttail_matcher_falls_off (prog : list Instruction) (input : list ascii) :
  prog <> [] -> forallb straight prog = true ->
  outcome (MtVm.SwitchVM_run prog input) (Ok MtToken.End) /\
  outcome (MtVm.run_musttail_vm prog input) (Ok MtToken.Invalid).
Proof.
  intros Hne Hst. pose proof (straight_enumerated prog Hst) as He.
  destruct (straight_run prog input Hst (length prog - 1) (mkVars 0 0 false)) as (s & Es & Hs).
  { destruct prog; [done | cbn; lia]. } { cbn [pc]. lia. } { done. }
  assert (MtVm.run_musttail_vm prog input (S (length prog - 1)) = Ok MtToken.Invalid) as Em.
  { unfold MtVm.run_musttail_vm. destruct prog; [done|]. unfold vm_state in Es.
    by rewrite Es, bind_ok, Hs. }
  split; [|by split; [|eexists]]. split; [done|].
  exists (S (length prog)). apply straight_switch; [done | done | cbn; lia | done].
Qed.

Lemma musttail_matcher_falls_off_witness :
  outcome (MtVm.SwitchVM_run [mkInst MatchChar 45 0 0] ["-"]%char) (Ok MtToken.End) /\
  outcome (MtVm.run_musttail_vm [mkInst MatchChar 45 0 0] ["-"]%char) (Ok MtToken.Invalid).
Proof.
  apply (musttail_matcher_falls_off [mkInst MatchChar 45 0 0] ["-"]%char);
    [discriminate | reflexivity].
Defined.
