(* ===== verification/LinkElf.v ===== *)
(** * The linker: bytes, ELF structures, input objects

    src/llm4fun/linker/mini_elf_linker.cpp.  A file is a list of bytes.  The
    structures of <elf.h> that the linker overlays on its buffers are records
    that are decoded from the bytes at an offset; an access that leaves the
    buffer is undefined behaviour.  A step of the linker that can report an
    error and leave main has the type [lres]. *)

From stdpp Require Import gmap.
From S2P Require Import Prelude Bytes.

(** ** Strings and alignment *)

(** A string that ends with the first zero byte from an offset on. *)
Definition c_string (buf : list Z) (off : Z) : res (list Z) :=
  snd <$> loop (fun '(p, s) =>
    b ← buf.[p]; if b =? 0 then Ok (inr (p, s)) else Ok (inl (p + 1, s ++ [b])))
    (S (length buf)) (off, []).

(** [align_up]. *)
Definition align_up (v a : Z) : Z :=
  if a =? 0 then v else Z.land (u64 (v + a - 1)) (u64 (Z.lnot (u64 (a - 1)))).

(** ** Constants of <elf.h> *)

Definition ET_REL : Z := 1.
Definition ET_EXEC : Z := 2.
Definition EM_X86_64 : Z := 62.
Definition EV_CURRENT : Z := 1.
Definition SHT_PROGBITS : Z := 1.
Definition SHT_SYMTAB : Z := 2.
Definition SHT_RELA : Z := 4.
Definition SHT_NOBITS : Z := 8.
Definition SHT_INIT_ARRAY : Z := 14.
Definition SHT_FINI_ARRAY : Z := 15.
Definition SHT_PREINIT_ARRAY : Z := 16.
Definition SHF_WRITE : Z := 1.
Definition SHF_ALLOC : Z := 2.
Definition SHF_EXECINSTR : Z := 4.
Definition SHN_UNDEF : Z := 0.
Definition SHN_LORESERVE : Z := 65280.   (* 0xff00 *)
Definition SHN_ABS : Z := 65521.         (* 0xfff1 *)
Definition STB_LOCAL : Z := 0.
Definition STB_GLOBAL : Z := 1.
Definition STB_WEAK : Z := 2.
Definition R_X86_64_NONE : Z := 0.
Definition R_X86_64_64 : Z := 1.
Definition R_X86_64_PC32 : Z := 2.
Definition R_X86_64_PLT32 : Z := 4.
Definition R_X86_64_32 : Z := 10.
Definition R_X86_64_32S : Z := 11.
Definition PT_LOAD : Z := 1.
Definition PT_GNU_STACK : Z := 1685382481.   (* 0x6474e551 *)
Definition PF_X : Z := 1.
Definition PF_W : Z := 2.
Definition PF_R : Z := 4.
Definition sizeof_Ehdr : Z := 64.
Definition sizeof_Phdr : Z := 56.
Definition sizeof_Shdr : Z := 64.
Definition sizeof_Sym : Z := 24.
Definition sizeof_Rela : Z := 24.
Definition ELFMAG : list Z := [127; 69; 76; 70].

(** The constants of the linker. *)
Definition BASE_ADDR : Z := 4194304.   (* 0x400000 *)
Definition PAGE_SIZE : Z := 4096.      (* 0x1000 *)

(** ** Structures of <elf.h>, with the members the linker reads *)

Record Elf64_Ehdr : Set := mkEhdr {
  e_ident : list Z; e_type : Z; e_machine : Z; e_shoff : Z; e_shnum : Z; e_shstrndx : Z
}.

Definition decode_ehdr (buf : list Z) : res Elf64_Ehdr :=
  ident ← slice buf 0 16;
  type ← read_le 2 buf 16;
  machine ← read_le 2 buf 18;
  shoff ← read_le 8 buf 40;
  shnum ← read_le 2 buf 60;
  shstrndx ← read_le 2 buf 62;
  Ok (mkEhdr ident type machine shoff shnum shstrndx).

Record Elf64_Shdr : Set := mkShdr {
  sh_name : Z; sh_type : Z; sh_flags : Z; sh_offset : Z; sh_size : Z; sh_link : Z;
  sh_info : Z; sh_addralign : Z
}.

Definition decode_shdr (buf : list Z) (off : Z) : res Elf64_Shdr :=
  _ ← slice buf off sizeof_Shdr;
  name ← read_le 4 buf off;
  type ← read_le 4 buf (off + 4);
  flags ← read_le 8 buf (off + 8);
  offset ← read_le 8 buf (off + 24);
  size ← read_le 8 buf (off + 32);
  link ← read_le 4 buf (off + 40);
  info ← read_le 4 buf (off + 44);
  addralign ← read_le 8 buf (off + 48);
  Ok (mkShdr name type flags offset size link info addralign).

Record Elf64_Sym : Set := mkSym {
  st_name : Z; st_info : Z; st_shndx : Z; st_value : Z
}.

Definition decode_sym (buf : list Z) (off : Z) : res Elf64_Sym :=
  _ ← slice buf off sizeof_Sym;
  name ← read_le 4 buf off;
  info ← read_le 1 buf (off + 4);
  shndx ← read_le 2 buf (off + 6);
  value ← read_le 8 buf (off + 8);
  Ok (mkSym name info shndx value).

Record Elf64_Rela : Set := mkRela { r_offset : Z; r_info : Z; r_addend : Z }.

Definition decode_rela (buf : list Z) (off : Z) : res Elf64_Rela :=
  _ ← slice buf off sizeof_Rela;
  offset ← read_le 8 buf off;
  info ← read_le 8 buf (off + 8);
  addend ← read_le 8 buf (off + 16);
  Ok (mkRela offset info (s64 addend)).

(** ** Errors *)

(** The ways main returns 1; the messages are not modelled. *)
Inductive LinkError : Set :=
  | FileTooSmall | NotElf | NotRelocatable | NotX86_64 | InvalidShstrndx
  | InvalidSymtabLink | DuplicateSymbol (name : list Z) | UndefinedSymbol
  | InvalidSymbolIndex | RelocOutOfBounds | RelocOverflow | UnsupportedReloc
  | LengthError.   (** an exception of std::vector::resize, which nothing catches *)

Definition lres (A : Type) : Type := res (LinkError + A).

Definition lret {A} (a : A) : lres A := Ok (inr a).
Definition lfail {A} (e : LinkError) : lres A := Ok (inl e).
Definition lbind {A B} (m : lres A) (f : A -> lres B) : lres B :=
  match m with
  | Ok (inl e) => Ok (inl e)
  | Ok (inr a) => f a
  | Ub u => Ub u
  | NoFuel => NoFuel
  end.
Definition lift {A} (m : res A) : lres A :=
  match m with Ok a => Ok (inr a) | Ub u => Ub u | NoFuel => NoFuel end.

Notation "x ⇐ m ; k" := (lbind m (fun x => k))
  (at level 20, m at level 100, k at level 200, only parsing) : cxx_scope.
Notation "' x ⇐ m ; k" := (lbind m (fun x => k))
  (at level 20, x pattern, m at level 100, k at level 200, only parsing) : cxx_scope.

(** A loop over a list that can fail. *)
Fixpoint foldM {A B} (f : B -> A -> lres B) (b : B) (l : list A) : lres B :=
  match l with
  | [] => lret b
  | a :: l => b ⇐ f b a; foldM f b l
  end.

(** ** Input objects *)

Record InputObject : Set := mkObject { filename : list Z; buf : list Z }.

Definition ehdr (o : InputObject) : res Elf64_Ehdr := decode_ehdr (buf o).

Definition shnum (o : InputObject) : res Z := e ← ehdr o; Ok (e_shnum e).

(** [None] is the null pointer. *)
Definition shdr (o : InputObject) (i : Z) : res (option Elf64_Shdr) :=
  n ← shnum o;
  if (i <? 0) || (n <=? i) then Ok None
  else e ← ehdr o; sh ← decode_shdr (buf o) (e_shoff e + i * sizeof_Shdr); Ok (Some sh).

(** The section name table as an offset into the buffer; the empty string
    literal is no part of it. *)
Definition shstrtab (o : InputObject) : res (option Z) :=
  e ← ehdr o; sh ← shdr o (e_shstrndx e);
  Ok (match sh with None => None | Some sh => Some (sh_offset sh) end).

Definition sec_name (o : InputObject) (i : Z) : res (list Z) :=
  sh ← shdr o i;
  match sh with
  | None => Ok []
  | Some sh =>
      t ← shstrtab o;
      match t with
      | None => if sh_name sh =? 0 then Ok [] else Ub PointerRange
      | Some t => c_string (buf o) (t + sh_name sh)
      end
  end.

(** The data of a section as an offset into the buffer. *)
Definition sec_data (o : InputObject) (i : Z) : res (option Z) :=
  sh ← shdr o i;
  match sh with
  | None => Ok None
  | Some sh =>
      if sh_offset sh <=? Z.of_nat (length (buf o)) then Ok (Some (sh_offset sh))
      else Ub PointerRange
  end.

(** Step 1 of main: the checks of one input. *)
Definition validate (o : InputObject) : lres unit :=
  if Z.of_nat (length (buf o)) <? sizeof_Ehdr then lfail FileTooSmall
  else
    e ⇐ lift (ehdr o);
    if negb (bool_decide (take 4 (e_ident e) = ELFMAG)) then lfail NotElf
    else if negb (e_type e =? ET_REL) then lfail NotRelocatable
    else if negb (e_machine e =? EM_X86_64) then lfail NotX86_64
    else if e_shnum e <=? e_shstrndx e then lfail InvalidShstrndx
    else lret tt.

Definition is_alloc_section_type (type : Z) : bool :=
  (type =? SHT_PROGBITS) || (type =? SHT_NOBITS) || (type =? SHT_INIT_ARRAY)
  || (type =? SHT_FINI_ARRAY) || (type =? SHT_PREINIT_ARRAY).
