(* ===== verification/LinkSections.v ===== *)
(** * The linker: chunks and output sections

    Steps 2 to 4 of main in src/llm4fun/linker/mini_elf_linker.cpp: the chunks
    of the input sections, the output sections they are merged into, their
    order, and the addresses and file offsets they get. *)

From stdpp Require Import gmap.
From S2P Require Import Prelude Bytes LinkElf.

Record Chunk : Set := mkChunk {
  obj_idx : Z; shdr_idx : Z;
  c_name : list Z; c_size : Z; c_align : Z; c_flags : Z; c_type : Z;
  c_data : list Z;
  offset_in_osec : Z
}.

Record OutputSection : Set := mkOsec {
  o_name : list Z; o_flags : Z; o_align : Z; o_vaddr : Z; o_foff : Z; o_size : Z;
  o_filesz : Z; is_bss : bool;
  chunk_ids : list Z
}.

Definition set_offset (off : Z) (c : Chunk) : Chunk :=
  mkChunk (obj_idx c) (shdr_idx c) (c_name c) (c_size c) (c_align c) (c_flags c)
    (c_type c) (c_data c) off.

Definition set_data (d : list Z) (c : Chunk) : Chunk :=
  mkChunk (obj_idx c) (shdr_idx c) (c_name c) (c_size c) (c_align c) (c_flags c)
    (c_type c) d (offset_in_osec c).

(** ** Step 2: chunks *)

(** The state of the loop: the chunks and the map from section to chunk. *)
Record Chunks : Set := mkChunks { chunks : list Chunk; sec2chunk : gmap (Z * Z) Z }.

Definition section_data (o : InputObject) (si : Z) (sh : Elf64_Shdr) : res (list Z) :=
  if sh_type sh =? SHT_NOBITS then Ok (replicate (Z.to_nat (sh_size sh)) 0)
  else
    data ← sec_data o si;
    match data with
    | Some p => slice (buf o) p (sh_size sh)
    | None => Ok (replicate (Z.to_nat (sh_size sh)) 0)
    end.

Definition collect_section (oi : Z) (o : InputObject) (st : Chunks) (si : Z) :
    lres Chunks :=
  sh ⇐ lift (shdr o si);
  match sh with
  | None => lret st
  | Some sh =>
      if Z.land (sh_flags sh) SHF_ALLOC =? 0 then lret st
      else if negb (is_alloc_section_type (sh_type sh)) then lret st
      else
        name ⇐ lift (sec_name o si);
        data ⇐ lift (section_data o si sh);
        let c := mkChunk oi si name (sh_size sh)
                   (if sh_addralign sh =? 0 then 1 else sh_addralign sh)
                   (sh_flags sh) (sh_type sh) data 0 in
        lret (mkChunks (chunks st ++ [c])
                (<[(oi, si) := Z.of_nat (length (chunks st))]> (sec2chunk st)))
  end.

Definition collect_object (st : Chunks) (x : Z * InputObject) : lres Chunks :=
  let '(oi, o) := x in
  n ⇐ lift (shnum o);
  foldM (collect_section oi o) st (seqZ 1 (n - 1)).

Definition collect_chunks (objects : list InputObject) : lres Chunks :=
  foldM collect_object (mkChunks [] ∅) (indexed objects).

(** ** Step 3: output sections *)

Record Osecs : Set := mkOsecs { osecs : list OutputSection; osec_map : gmap (list Z) Z }.

Definition new_osec (name : list Z) (flags al : Z) (bss : bool) : OutputSection :=
  mkOsec name flags al 0 0 0 0 bss [].

Definition raise_align (al : Z) (s : OutputSection) : OutputSection :=
  mkOsec (o_name s) (o_flags s) (Z.max (o_align s) al) (o_vaddr s) (o_foff s) (o_size s)
    (o_filesz s) (is_bss s) (chunk_ids s).

(** [osecs[id].chunk_ids.push_back(ci)] and the flag of the section. *)
Definition add_chunk (ci : Z) (bss : bool) (s : OutputSection) : OutputSection :=
  mkOsec (o_name s) (o_flags s) (o_align s) (o_vaddr s) (o_foff s) (o_size s)
    (o_filesz s) (if bss then true else is_bss s) (chunk_ids s ++ [ci]).

Definition get_or_create (st : Osecs) (name : list Z) (flags al : Z) (bss : bool) :
    res (Osecs * Z) :=
  match osec_map st !! name with
  | Some id =>
      s ← (osecs st).[id];
      l ← (osecs st).[id <- raise_align al s];
      Ok (mkOsecs l (osec_map st), id)
  | None =>
      let id := Z.of_nat (length (osecs st)) in
      Ok (mkOsecs (osecs st ++ [new_osec name flags al bss]) (<[name := id]> (osec_map st)), id)
  end.

Definition place_chunk (st : Osecs) (x : Z * Chunk) : res Osecs :=
  let '(ci, ch) := x in
  let bss := c_type ch =? SHT_NOBITS in
  '(st, id) ← get_or_create st (c_name ch) (c_flags ch) (c_align ch) bss;
  s ← (osecs st).[id];
  l ← (osecs st).[id <- add_chunk ci bss s];
  Ok (mkOsecs l (osec_map st)).

Definition merge_chunks (cs : list Chunk) : res Osecs :=
  foldR place_chunk (mkOsecs [] ∅) (indexed cs).

(** std::erase_if of the sections without chunks. *)
Definition erase_empty (l : list OutputSection) : list OutputSection :=
  filter (fun s => chunk_ids s <> []) l.

Definition rank (s : OutputSection) : Z :=
  if negb (Z.land (o_flags s) SHF_EXECINSTR =? 0) then 0
  else if Z.land (o_flags s) SHF_WRITE =? 0 then 1
  else if is_bss s then 3
  else 2.

(** std::stable_sort by rank: a section goes after those of its rank that come
    before it. *)
Fixpoint insert_by_rank (s : OutputSection) (l : list OutputSection) : list OutputSection :=
  match l with
  | [] => [s]
  | x :: l' => if rank s <? rank x then s :: l else x :: insert_by_rank s l'
  end.

Definition sort_sections (l : list OutputSection) : list OutputSection :=
  foldl (fun acc s => insert_by_rank s acc) [] l.

Definition build_map (l : list OutputSection) : gmap (list Z) Z :=
  foldl (fun m '(i, s) => <[o_name s := i]> m) ∅ (indexed l).

(** The offsets of the chunks of one section. *)
Fixpoint layout_chunks (ids : list Z) (cs : list Chunk) (off : Z) : res (list Chunk * Z) :=
  match ids with
  | [] => Ok (cs, off)
  | ci :: ids =>
      c ← cs.[ci];
      let off := align_up off (c_align c) in
      cs ← cs.[ci <- set_offset off c];
      layout_chunks ids cs (u64 (off + c_size c))
  end.

Definition set_sizes (size : Z) (s : OutputSection) : OutputSection :=
  mkOsec (o_name s) (o_flags s) (o_align s) (o_vaddr s) (o_foff s) size
    (if is_bss s then 0 else size) (is_bss s) (chunk_ids s).

Fixpoint layout_sections (cs : list Chunk) (l : list OutputSection) :
    res (list Chunk * list OutputSection) :=
  match l with
  | [] => Ok (cs, [])
  | s :: l =>
      '(cs, size) ← layout_chunks (chunk_ids s) cs 0;
      '(cs, l) ← layout_sections cs l;
      Ok (cs, set_sizes size s :: l)
  end.

(** ** Step 4: addresses and file offsets *)

Definition num_phdrs : Z := 2.
Definition hdr_size : Z := sizeof_Ehdr + num_phdrs * sizeof_Phdr.

Definition set_place (vaddr foff : Z) (s : OutputSection) : OutputSection :=
  mkOsec (o_name s) (o_flags s) (o_align s) vaddr foff (o_size s) (o_filesz s) (is_bss s)
    (chunk_ids s).

(** [file_cur] and [vaddr_cur] are the cursors before and after the sections. *)
Fixpoint assign_addresses (file_cur vaddr_cur : Z) (l : list OutputSection) :
    list OutputSection * Z * Z :=
  match l with
  | [] => ([], file_cur, vaddr_cur)
  | s :: l =>
      let vaddr := align_up vaddr_cur (o_align s) in
      let foff := if is_bss s then file_cur else align_up file_cur (o_align s) in
      let file_cur := if is_bss s then file_cur else u64 (foff + o_filesz s) in
      let '(l, fc, vc) := assign_addresses file_cur (u64 (vaddr + o_size s)) l in
      (set_place vaddr foff s :: l, fc, vc)
  end.

Record Layout : Set := mkLayout {
  l_chunks : list Chunk; l_sec2chunk : gmap (Z * Z) Z;
  l_osecs : list OutputSection; l_osec_map : gmap (list Z) Z;
  total_filesz : Z; total_memsz : Z
}.

(** Steps 2 to 4. *)
Definition make_layout (objects : list InputObject) : lres Layout :=
  st ⇐ collect_chunks objects;
  m ⇐ lift (merge_chunks (chunks st));
  let l := sort_sections (erase_empty (osecs m)) in
  '(cs, l) ⇐ lift (layout_sections (chunks st) l);
  let file_cur := align_up hdr_size 16 in
  let '(l, fc, vc) := assign_addresses file_cur (u64 (BASE_ADDR + file_cur)) l in
  lret (mkLayout cs (sec2chunk st) l (build_map l) fc (u64 (vc - BASE_ADDR))).
