(* ===== verification/LinkSymbols.v ===== *)
(** * The linker: symbols

    Step 5 of main in src/llm4fun/linker/mini_elf_linker.cpp: the symbols of the
    objects with their values, the table of global symbols with its rules for
    weak and duplicate definitions, the resolution of references and the check
    for undefined symbols. *)

From stdpp Require Import gmap.
From S2P Require Import Prelude Bytes LinkElf LinkSections.

Record SymInfo : Set := mkSymInfo {
  s_name : list Z; s_value : Z; s_obj_idx : Z; s_shndx : Z; s_bind : Z; s_type : Z;
  resolved : bool
}.

(** The value-initialised element that [resize] makes. *)
Definition SymInfo0 : SymInfo := mkSymInfo [] 0 (-1) SHN_UNDEF STB_LOCAL 0 false.

Definition ELF64_ST_BIND (info : Z) : Z := Z.shiftr info 4.
Definition ELF64_ST_TYPE (info : Z) : Z := Z.land info 15.

(** The index of the first symbol table among the sections [sis], or -1. *)
Fixpoint find_symtab (o : InputObject) (sis : list Z) : res Z :=
  match sis with
  | [] => Ok (-1)
  | si :: sis =>
      sh ← shdr o si;
      match sh with
      | Some sh => if sh_type sh =? SHT_SYMTAB then Ok si else find_symtab o sis
      | None => find_symtab o sis
      end
  end.

(** The value of a symbol and whether it has been computed. *)
Definition symbol_value (L : Layout) (oi : Z) (s : Elf64_Sym) : res (Z * bool) :=
  if negb (st_shndx s =? SHN_UNDEF) && (st_shndx s <? SHN_LORESERVE) then
    match l_sec2chunk L !! (oi, st_shndx s) with
    | Some ci =>
        c ← (l_chunks L).[ci];
        match l_osec_map L !! c_name c with
        | Some osi =>
            os ← (l_osecs L).[osi];
            Ok (u64 (o_vaddr os + offset_in_osec c + st_value s), true)
        | None => Ok (0, false)
        end
    | None => Ok (st_value s, false)
    end
  else if st_shndx s =? SHN_ABS then Ok (st_value s, true)
  else Ok (0, false).

Definition symbol_info (L : Layout) (oi : Z) (o : InputObject) (strtab : Z) (s : Elf64_Sym) :
    res SymInfo :=
  name ← c_string (buf o) (strtab + st_name s);
  '(value, ok) ← symbol_value L oi s;
  Ok (mkSymInfo name value oi (st_shndx s) (ELF64_ST_BIND (st_info s))
        (ELF64_ST_TYPE (st_info s)) ok).

(** ** The table of global symbols *)

Abbreviation Globals := (gmap (list Z) SymInfo).

Definition defined (i : SymInfo) : bool := negb (s_shndx i =? SHN_UNDEF).
Definition is_weak (i : SymInfo) : bool := s_bind i =? STB_WEAK.

Definition register (g : Globals) (info : SymInfo) : lres Globals :=
  if (s_bind info =? STB_GLOBAL) || (s_bind info =? STB_WEAK) then
    let old := g !! s_name info in
    let new_defined := defined info in
    let old_exists := match old with Some _ => true | None => false end in
    let old_defined := match old with Some i => defined i | None => false end in
    let old_is_weak := match old with Some i => is_weak i | None => false end in
    let new_is_weak := is_weak info in
    if new_defined then
      if old_defined && negb old_is_weak && negb new_is_weak
      then lfail (DuplicateSymbol (s_name info))
      else if negb old_exists || negb old_defined || (old_is_weak && negb new_is_weak)
      then lret (<[s_name info := info]> g)
      else lret g
    else if negb old_exists then lret (<[s_name info := info]> g) else lret g
  else lret g.

(** The loop over the symbols of an object: what has been read of it, and the
    global symbols. *)
Definition symbol_step (L : Layout) (oi : Z) (o : InputObject) (strtab symtab : Z)
    (st : list SymInfo * Globals) (si : Z) : lres (list SymInfo * Globals) :=
  let '(syms, g) := st in
  s ⇐ lift (decode_sym (buf o) (symtab + si * sizeof_Sym));
  info ⇐ lift (symbol_info L oi o strtab s);
  syms ⇐ lift (syms.[si <- info]);
  g ⇐ register g info;
  lret (syms, g).

Definition object_symbols (L : Layout) (g : Globals) (oi : Z) (o : InputObject) :
    lres (list SymInfo * Globals) :=
  n ⇐ lift (shnum o);
  stidx ⇐ lift (find_symtab o (seqZ 1 (n - 1)));
  if stidx <? 0 then lret ([], g)
  else
    stsh ⇐ lift (shdr o stidx);
    match stsh with
    | None => lret ([], g)
    | Some stsh =>
        if n <=? sh_link stsh then lfail InvalidSymtabLink
        else
          strtab ⇐ lift (sec_data o (sh_link stsh));
          match strtab with
          | None => lfail InvalidSymtabLink
          | Some strtab =>
              let nsym := s32 (sh_size stsh / sizeof_Sym) in
              symtab ⇐ lift (sec_data o stidx);
              match symtab with
              | None => lret ([], g)
              | Some symtab =>
                  if nsym <? 0 then lfail LengthError
                  else foldM (symbol_step L oi o strtab symtab)
                         (replicate (Z.to_nat nsym) SymInfo0, g) (seqZ 0 nsym)
              end
          end
    end.

(** The loop over the objects. *)
Definition all_symbols_step (L : Layout) (st : list (list SymInfo) * Globals)
    (x : Z * InputObject) : lres (list (list SymInfo) * Globals) :=
  let '(all_syms, g) := st in
  let '(oi, o) := x in
  '(syms, g) ⇐ object_symbols L g oi o;
  lret (all_syms ++ [syms], g).

(** ** References and undefined symbols *)

Definition resolve_reference (g : Globals) (si : SymInfo) : SymInfo :=
  if (s_shndx si =? SHN_UNDEF) && negb (bool_decide (s_name si = [])) then
    match g !! s_name si with
    | Some i =>
        if defined i
        then mkSymInfo (s_name si) (s_value i) (s_obj_idx si) (s_shndx si) (s_bind si)
               (s_type si) true
        else si
    | None => si
    end
  else si.

(** An entry of the table for which main reports an undefined symbol. *)
Definition is_undefined (name : list Z) (i : SymInfo) : bool :=
  (s_shndx i =? SHN_UNDEF) && negb (bool_decide (name = [])) && negb (is_weak i).

Definition check_undefined (g : Globals) : lres Globals :=
  if existsb (fun '(name, i) => is_undefined name i) (map_to_list g)
  then lfail UndefinedSymbol
  else lret ((fun i => if (s_shndx i =? SHN_UNDEF) && negb (bool_decide (s_name i = []))
                       then mkSymInfo (s_name i) 0 (s_obj_idx i) (s_shndx i) (s_bind i)
                              (s_type i) true
                       else i) <$> g).

Definition start_name : list Z := [95; 115; 116; 97; 114; 116].   (* "_start" *)

Definition entry_point (g : Globals) : Z :=
  match g !! start_name with Some i => s_value i | None => 0 end.

Record Symbols : Set := mkSymbols {
  all_syms : list (list SymInfo); globals : Globals; entry : Z
}.

(** Step 5. *)
Definition link_symbols (L : Layout) (objects : list InputObject) : lres Symbols :=
  '(syms, g) ⇐ foldM (all_symbols_step L) ([], ∅) (indexed objects);
  let syms := map (map (resolve_reference g)) syms in
  g ⇐ check_undefined g;
  lret (mkSymbols syms g (entry_point g)).
