(* ===== verification/LinkReloc.v ===== *)
(** * The linker: relocations

    Step 6 of main in src/llm4fun/linker/mini_elf_linker.cpp. *)

From stdpp Require Import gmap.
From S2P Require Import Prelude Bytes LinkElf LinkSections LinkSymbols.

Definition ELF64_R_SYM (info : Z) : Z := Z.shiftr info 32.
Definition ELF64_R_TYPE (info : Z) : Z := Z.land info 4294967295.

(** [off + n > chunk.data.size()] in 64-bit arithmetic. *)
Definition out_of_bounds (off n : Z) (data : list Z) : bool :=
  Z.of_nat (length data) <? u64 (off + n).

(** One relocation: [S] is the value of the symbol, [A] the addend, [P] the
    address of the place and [off] its offset in the data of the chunk. *)
Definition relocate (rel_type S A P off : Z) (data : list Z) : lres (list Z) :=
  if rel_type =? R_X86_64_NONE then lret data
  else if rel_type =? R_X86_64_64 then
    if out_of_bounds off 8 data then lfail RelocOutOfBounds
    else lift (write_bytes data off (le_bytes 8 (u64 (S + A))))
  else if (rel_type =? R_X86_64_PC32) || (rel_type =? R_X86_64_PLT32) then
    if out_of_bounds off 4 data then lfail RelocOutOfBounds
    else
      let val := s64 (S + A) - s64 P in
      _ ⇐ lift (check (sfits 64 val) SignedOverflow);
      if negb (sfits 32 val) then lfail RelocOverflow
      else lift (write_bytes data off (le_bytes 4 (u32 val)))
  else if rel_type =? R_X86_64_32 then
    if out_of_bounds off 4 data then lfail RelocOutOfBounds
    else
      let val := u64 (S + A) in
      if 4294967295 <? val then lfail RelocOverflow
      else lift (write_bytes data off (le_bytes 4 val))
  else if rel_type =? R_X86_64_32S then
    if out_of_bounds off 4 data then lfail RelocOutOfBounds
    else
      let val := s64 (S + A) in
      if negb (sfits 32 val) then lfail RelocOverflow
      else lift (write_bytes data off (le_bytes 4 (u32 val)))
  else lfail UnsupportedReloc.

(** One turn of the loop over the entries of a relocation section for the chunk
    [ci]; the state is the chunks. *)
Definition reloc_step (syms : list SymInfo) (o : InputObject) (rels ci chunk_vaddr : Z)
    (cs : list Chunk) (ri : Z) : lres (list Chunk) :=
  r ⇐ lift (decode_rela (buf o) (rels + ri * sizeof_Rela));
  let sym_idx := s32 (ELF64_R_SYM (r_info r)) in
  let rel_type := s32 (ELF64_R_TYPE (r_info r)) in
  if (sym_idx <? 0) || (Z.of_nat (length syms) <=? sym_idx) then lfail InvalidSymbolIndex
  else
    sym ⇐ lift (syms.[sym_idx]);
    c ⇐ lift (cs.[ci]);
    data ⇐ relocate rel_type (s_value sym) (r_addend r) (u64 (chunk_vaddr + r_offset r))
             (r_offset r) (c_data c);
    lift (cs.[ci <- set_data data c]).

Definition reloc_section (L : Layout) (all_syms : list (list SymInfo)) (oi : Z)
    (o : InputObject) (cs : list Chunk) (si : Z) : lres (list Chunk) :=
  sh ⇐ lift (shdr o si);
  match sh with
  | None => lret cs
  | Some sh =>
      if negb (sh_type sh =? SHT_RELA) then lret cs
      else
        let target_sec := s32 (sh_info sh) in
        match l_sec2chunk L !! (oi, target_sec) with
        | None => lret cs
        | Some ci =>
            c ⇐ lift (cs.[ci]);
            match l_osec_map L !! c_name c with
            | None => lret cs
            | Some osi =>
                os ⇐ lift ((l_osecs L).[osi]);
                let chunk_vaddr := u64 (o_vaddr os + offset_in_osec c) in
                let nrel := s32 (sh_size sh / sizeof_Rela) in
                rels ⇐ lift (sec_data o si);
                match rels with
                | None => lret cs
                | Some rels =>
                    syms ⇐ lift (all_syms.[oi]);
                    foldM (reloc_step syms o rels ci chunk_vaddr) cs (seqZ 0 nrel)
                end
            end
        end
  end.

Definition reloc_object (L : Layout) (all_syms : list (list SymInfo)) (cs : list Chunk)
    (x : Z * InputObject) : lres (list Chunk) :=
  let '(oi, o) := x in
  n ⇐ lift (shnum o);
  foldM (reloc_section L all_syms oi o) cs (seqZ 1 (n - 1)).

(** Step 6. *)
Definition apply_relocations (L : Layout) (all_syms : list (list SymInfo))
    (objects : list InputObject) : lres (list Chunk) :=
  foldM (reloc_object L all_syms) (l_chunks L) (indexed objects).
