(* ===== verification/LinkOutput.v ===== *)
(** * The linker: the output file, and the whole run

    Step 7 of main in src/llm4fun/linker/mini_elf_linker.cpp, and the sequence of
    the steps from the contents of the input files to the contents of the output
    file.  Reading and writing the files, their permissions and the printed map
    are not modelled. *)

From stdpp Require Import gmap.
From S2P Require Import Prelude Bytes LinkElf LinkSections LinkSymbols LinkReloc.

(** The bytes of the ELF header: e_ident, then the members of the structure with
    their widths. *)
Definition ehdr_bytes (entry : Z) : list Z :=
  ELFMAG ++ [2; 1; 1; 0] ++ replicate 8 0
  ++ le_bytes 2 ET_EXEC ++ le_bytes 2 EM_X86_64 ++ le_bytes 4 EV_CURRENT
  ++ le_bytes 8 entry ++ le_bytes 8 sizeof_Ehdr ++ le_bytes 8 0 ++ le_bytes 4 0
  ++ le_bytes 2 sizeof_Ehdr ++ le_bytes 2 sizeof_Phdr ++ le_bytes 2 num_phdrs
  ++ le_bytes 2 sizeof_Shdr ++ le_bytes 2 0 ++ le_bytes 2 SHN_UNDEF.

Definition phdr_bytes (type flags offset vaddr paddr filesz memsz align : Z) : list Z :=
  le_bytes 4 type ++ le_bytes 4 flags ++ le_bytes 8 offset ++ le_bytes 8 vaddr
  ++ le_bytes 8 paddr ++ le_bytes 8 filesz ++ le_bytes 8 memsz ++ le_bytes 8 align.

Definition phdr1 (filesz memsz : Z) : list Z :=
  phdr_bytes PT_LOAD (Z.lor PF_R (Z.lor PF_W PF_X)) 0 BASE_ADDR BASE_ADDR filesz memsz PAGE_SIZE.

Definition phdr2 : list Z := phdr_bytes PT_GNU_STACK (Z.lor PF_R PF_W) 0 0 0 0 0 0.

(** The chunks of one section, copied to the file. *)
Definition copy_chunk (cs : list Chunk) (foff : Z) (out : list Z) (ci : Z) : res (list Z) :=
  ch ← cs.[ci];
  if c_type ch =? SHT_NOBITS then Ok out
  else write_bytes out (foff + offset_in_osec ch) (c_data ch).

Definition copy_section (cs : list Chunk) (out : list Z) (os : OutputSection) : res (list Z) :=
  if is_bss os then Ok out
  else foldR (copy_chunk cs (o_foff os)) out (chunk_ids os).

(** Step 7. *)
Definition write_image (L : Layout) (cs : list Chunk) (entry : Z) : res (list Z) :=
  let out := replicate (Z.to_nat (total_filesz L)) 0 in
  out ← write_bytes out 0 (ehdr_bytes entry);
  out ← write_bytes out sizeof_Ehdr (phdr1 (total_filesz L) (total_memsz L));
  out ← write_bytes out (sizeof_Ehdr + sizeof_Phdr) phdr2;
  foldR (copy_section cs) out (l_osecs L).

(** Steps 1 to 7: the contents of the output file, or the error with which main
    returns. *)
Definition link (objects : list InputObject) : lres (list Z) :=
  _ ⇐ foldM (fun _ o => validate o) tt objects;
  L ⇐ make_layout objects;
  S ⇐ link_symbols L objects;
  cs ⇐ apply_relocations L (all_syms S) objects;
  lift (write_image L cs (entry S)).
