(* ===== verification/LinkRelocProofs.v ===== *)
(** * The linker: sequences of writes into a buffer *)

From S2P Require Import Prelude Bytes LinkElf LinkSections.
From stdpp Require Import list_relations list.
From S2P Require Import LinkSymbols LinkReloc.
#[local] Open Scope Z_scope.

(** ** Sequences of writes *)

(** The writes [ws] go to ranges that lie one after the other between two
    offsets. *)
Fixpoint ascending (ws : list (Z * list Z)) (lo hi : Z) : Prop :=
  match ws with
  | [] => lo <= hi
  | (off, bs) :: ws => lo <= off /\ ascending ws (off + Z.of_nat (length bs)) hi
  end.

Definition write_all (buf : list Z) (ws : list (Z * list Z)) : res (list Z) :=
  foldR (fun buf '(off, bs) => write_bytes buf off bs) buf ws.

Lemma ascending_le ws lo hi : ascending ws lo hi -> lo <= hi.
Proof.
  revert lo. induction ws as [|[off bs] ws IH]; intros lo; cbn [ascending]; [done|].
  intros [? H]. apply IH in H. lia.
Qed.

(** After ascending writes every range holds its bytes and what lies before the
    first is unchanged. *)
Lemma write_all_spec ws buf lo hi :
  0 <= lo -> ascending ws lo hi -> hi <= Z.of_nat (length buf) ->
  exists buf', write_all buf ws = Ok buf' /\ length buf' = length buf /\
    (forall i, Z.of_nat i < lo -> buf' !! i = buf !! i) /\
    Forall (fun '(off, bs) => slice buf' off (Z.of_nat (length bs)) = Ok bs) ws.
Proof.
  revert buf lo. induction ws as [|[off bs] ws IH]; intros buf lo Hlo Ha Hhi.
  { exists buf. split_and!; [done | done | done | constructor]. }
  cbn [ascending] in Ha. destruct Ha as [Hoff Ha].
  pose proof (ascending_le _ _ _ Ha) as Hle.
  destruct (write_bytes_ok buf off bs) as (b1 & E1 & Hl1 & Hs1 & Hr1); [lia | lia |].
  destruct (IH b1 (off + Z.of_nat (length bs))) as (b2 & E2 & Hl2 & Hr2 & Hall);
    [lia | done | lia |].
  exists b2. unfold write_all in *. cbn [foldR]. rewrite E1, bind_ok.
  split_and!; [done | congruence | |].
  - intros i Hi. rewrite Hr2 by lia. apply Hr1. lia.
  - constructor; [|done]. rewrite <- Hs1. apply slice_ext; [done|].
    intros i Hi. apply Hr2. lia.
Qed.

Lemma ascending_app ws1 ws2 lo mid hi :
  ascending ws1 lo mid -> ascending ws2 mid hi -> ascending (ws1 ++ ws2) lo hi.
Proof.
  revert lo. induction ws1 as [|[off bs] ws1 IH]; intros lo H1 H2; cbn [app ascending] in *.
  - destruct ws2 as [|[off bs] ws2]; cbn [ascending] in *; [lia|]. split; [lia | tauto].
  - split; [tauto|]. apply IH; tauto.
Qed.

Lemma ascending_weaken ws lo lo' hi hi' :
  lo' <= lo -> hi <= hi' -> ascending ws lo hi -> ascending ws lo' hi'.
Proof.
  revert lo lo'. induction ws as [|[off bs] ws IH]; intros lo lo' H1 H2; cbn [ascending]; [lia|].
  intros [? Ha]. split; [lia|]. by eapply IH; [|exact H2|exact Ha].
Qed.

(** * The linker: correctness of relocations *)
#[local] Open Scope Z_scope.

(** The data of a chunk after a relocation: [n] bytes at [off] hold [v]. *)
Definition patched (data data' : list Z) (off n v : Z) : Prop :=
  length data' = length data /\ read_le n data' off = Ok v /\
  forall i, Z.of_nat i < off \/ off + n <= Z.of_nat i -> data' !! i = data !! i.

Lemma in_bounds off n data :
  0 <= off -> 0 <= n -> off + n <= Z.of_nat (length data) < 2 ^ 64 ->
  out_of_bounds off n data = false.
Proof. intros. unfold out_of_bounds. rewrite uwrap_id by lia. apply Z.ltb_ge. lia. Qed.

Lemma patch_ok data off (n : nat) v :
  0 <= off -> off + Z.of_nat n <= Z.of_nat (length data) ->
  exists data', lift (write_bytes data off (le_bytes n v)) = lret data' /\
    patched data data' off (Z.of_nat n) (uwrap (8 * Z.of_nat n) v).
Proof.
  intros Ho Hb. destruct (write_bytes_ok data off (le_bytes n v)) as (d & E & Hl & Hs & Hr);
    [done | by rewrite length_le_bytes |].
  rewrite length_le_bytes in *. rewrite E. exists d. split; [done|]. split_and!; [done | | done].
  unfold read_le. rewrite Hs, bind_ok. by rewrite le_value_bytes.
Qed.

(** ** The relocation types, on places inside the data *)

Section in_place.
Context (S A P off : Z) (data : list Z).
Context (Hoff : 0 <= off) (Hsize : Z.of_nat (length data) < 2 ^ 64).

Lemma relocate_64 :
  off + 8 <= Z.of_nat (length data) ->
  exists data', relocate R_X86_64_64 S A P off data = lret data' /\
    patched data data' off 8 (u64 (S + A)).
Proof.
  intros Hb. unfold relocate. cbn [Z.eqb R_X86_64_64 R_X86_64_NONE].
  rewrite in_bounds by lia.
  destruct (patch_ok data off 8 (u64 (S + A))) as (d & E & Hp); [done | lia |].
  exists d. split; [exact E|]. revert Hp. change (8 * Z.of_nat 8) with 64.
  by rewrite uwrap_uwrap.
Qed.

(** The displacement is such that adding it to the place gives the target. *)
Lemma relocate_pc32 t :
  t = R_X86_64_PC32 \/ t = R_X86_64_PLT32 ->
  off + 4 <= Z.of_nat (length data) -> sfits 64 (s64 (S + A) - s64 P) = true ->
  if sfits 32 (s64 (S + A) - s64 P) then
    exists data' v, relocate t S A P off data = lret data' /\ patched data data' off 4 v /\
      u64 (P + s32 v) = u64 (S + A)
  else relocate t S A P off data = lfail RelocOverflow.
Proof.
  intros Ht Hb Hf.
  assert (relocate t S A P off data =
    if negb (sfits 32 (s64 (S + A) - s64 P)) then lfail RelocOverflow
    else lift (write_bytes data off (le_bytes 4 (u32 (s64 (S + A) - s64 P))))) as ->.
  { unfold relocate. destruct Ht as [-> | ->]; cbn [Z.eqb R_X86_64_64 R_X86_64_NONE
      R_X86_64_PC32 R_X86_64_PLT32 Pos.eqb orb]; rewrite in_bounds by lia; rewrite Hf; done. }
  destruct (sfits 32 _) eqn:Ev; [|done]. cbn [negb].
  set (val := s64 (S + A) - s64 P) in *.
  destruct (patch_ok data off 4 (u32 val)) as (d & E & Hp); [done | lia |].
  exists d, (u32 val). split; [exact E|]. split.
  - revert Hp. change (8 * Z.of_nat 4) with 32. by rewrite uwrap_uwrap.
  - rewrite swrap_uwrap, swrap_id by done. unfold val.
    rewrite <- (uwrap_swrap 64 (S + A)) by lia.
    rewrite <- (uwrap_add_l 64 P) by lia. rewrite <- (uwrap_swrap 64 P) by lia.
    rewrite uwrap_add_l by lia. f_equal. lia.
Qed.

Lemma relocate_32 :
  off + 4 <= Z.of_nat (length data) ->
  if u64 (S + A) <=? 4294967295 then
    exists data', relocate R_X86_64_32 S A P off data = lret data' /\
      patched data data' off 4 (u64 (S + A))
  else relocate R_X86_64_32 S A P off data = lfail RelocOverflow.
Proof.
  intros Hb. unfold relocate. cbn [Z.eqb R_X86_64_64 R_X86_64_NONE R_X86_64_PC32
    R_X86_64_PLT32 R_X86_64_32 Pos.eqb orb]. rewrite in_bounds by lia.
  destruct (Z.leb_spec (u64 (S + A)) 4294967295);
    [rewrite (proj2 (Z.ltb_ge _ _)) by done|by rewrite (proj2 (Z.ltb_lt _ _))].
  destruct (patch_ok data off 4 (u64 (S + A))) as (d & E & Hp); [done | lia |].
  exists d. split; [exact E|]. revert Hp. change (8 * Z.of_nat 4) with 32.
  pose proof (uwrap_range 64 (S + A)). rewrite (uwrap_id 32) by lia. done.
Qed.

Lemma relocate_32s :
  off + 4 <= Z.of_nat (length data) ->
  if sfits 32 (s64 (S + A)) then
    exists data' v, relocate R_X86_64_32S S A P off data = lret data' /\
      patched data data' off 4 v /\ s32 v = s64 (S + A)
  else relocate R_X86_64_32S S A P off data = lfail RelocOverflow.
Proof.
  intros Hb. unfold relocate. cbn [Z.eqb R_X86_64_64 R_X86_64_NONE R_X86_64_PC32
    R_X86_64_PLT32 R_X86_64_32 R_X86_64_32S Pos.eqb orb]. rewrite in_bounds by lia.
  destruct (sfits 32 (s64 (S + A))) eqn:Ev; [|done]. cbn [negb].
  destruct (patch_ok data off 4 (u32 (s64 (S + A)))) as (d & E & Hp); [done | lia |].
  exists d, (u32 (s64 (S + A))). split; [exact E|]. split.
  - revert Hp. change (8 * Z.of_nat 4) with 32. by rewrite uwrap_uwrap.
  - by rewrite swrap_uwrap, swrap_id.
Qed.
End in_place.
