(* ===== verification/LinkLayoutProofs.v ===== *)
(** * The linker: correctness of the layout

    [align_up], the offsets of the chunks in a section, the order of the sections
    and the addresses and file offsets they get. *)

From S2P Require Import Prelude Bytes LinkElf LinkSections.
From stdpp Require Import gmap list_relations list.
#[local] Open Scope Z_scope.

(** ** Alignment *)

(** An alignment the ELF format allows: a power of two that is an address. *)
Definition pow2 (a : Z) : Prop := exists k, 0 <= k < 64 /\ a = 2 ^ k.

Lemma pow2_pos a : pow2 a -> 0 < a < 2 ^ 64.
Proof.
  intros (k & Hk & ->). split; [apply Z.pow_pos_nonneg; lia|].
  apply Z.pow_lt_mono_r; lia.
Qed.

Lemma land_u64_r x y : 0 <= x < 2 ^ 64 -> Z.land x (u64 y) = Z.land x y.
Proof.
  intros Hx. unfold uwrap. rewrite <- (Z.land_ones y 64) by lia.
  rewrite (Z.land_comm y), Z.land_assoc, Z.land_ones by lia. by rewrite Z.mod_small.
Qed.

Lemma align_up_eq v a :
  pow2 a -> 0 <= v -> v + a - 1 < 2 ^ 64 -> align_up v a = (v + a - 1) / a * a.
Proof.
  intros Ha Hv Hb. pose proof (pow2_pos a Ha) as Hp. unfold align_up.
  rewrite (proj2 (Z.eqb_neq a 0)) by lia. rewrite (uwrap_id 64 (v + a - 1)) by lia.
  rewrite (uwrap_id 64 (a - 1)) by lia. rewrite land_u64_r by lia.
  destruct Ha as (k & Hk & ->). rewrite <- Z.ldiff_land.
  replace (2 ^ k - 1) with (Z.ones k) by (rewrite Z.ones_equiv; lia).
  by rewrite Z.ldiff_ones_r, Z.shiftl_mul_pow2, Z.shiftr_div_pow2 by lia.
Qed.

(** The least multiple of [a] that is not below [v]. *)
Lemma align_up_bounds v a :
  pow2 a -> 0 <= v -> v + a - 1 < 2 ^ 64 ->
  v <= align_up v a < v + a /\ (a | align_up v a).
Proof.
  intros Ha Hv Hb. rewrite align_up_eq by done. pose proof (pow2_pos a Ha).
  pose proof (Z.div_mod (v + a - 1) a). pose proof (Z.mod_pos_bound (v + a - 1) a).
  split; [lia | by exists ((v + a - 1) / a)].
Qed.

Lemma align_up_least v a m :
  pow2 a -> 0 <= v -> v + a - 1 < 2 ^ 64 -> (a | m) -> v <= m -> align_up v a <= m.
Proof.
  intros Ha Hv Hb [q ->] Hm. rewrite align_up_eq by done. pose proof (pow2_pos a Ha).
  apply Z.mul_le_mono_nonneg_r; [lia|]. apply Zlt_succ_le, Z.div_lt_upper_bound; lia.
Qed.

(** ** Chunks of a section *)

Definition chunk_at (cs : list Chunk) (ci : Z) : option Chunk :=
  if 0 <=? ci then cs !! Z.to_nat ci else None.

(** The space the chunks [ids] can take at most. *)
Definition room_for (cs : list Chunk) (ids : list Z) : Z :=
  foldr (fun ci n => match chunk_at cs ci with
                     | Some c => c_size c + c_align c + n | None => n end) 0 ids.

Definition chunk_ok (c : Chunk) : Prop := pow2 (c_align c) /\ 0 <= c_size c.

(** The chunks [ids] lie one after the other, aligned, between two offsets. *)
Fixpoint placed (cs : list Chunk) (ids : list Z) (off end_ : Z) : Prop :=
  match ids with
  | [] => off = end_
  | ci :: ids =>
      exists c, chunk_at cs ci = Some c /\ off <= offset_in_osec c < off + c_align c /\
        (c_align c | offset_in_osec c) /\ placed cs ids (offset_in_osec c + c_size c) end_
  end.

(** Two lists of chunks that differ in the offsets of some chunks only. *)
Definition same_but_offsets (cs cs' : list Chunk) : Prop :=
  length cs = length cs' /\
  forall ci c, chunk_at cs ci = Some c ->
    exists c', chunk_at cs' ci = Some c' /\ c' = set_offset (offset_in_osec c') c.

Lemma chunk_at_index cs ci c : chunk_at cs ci = Some c <-> cs.[ci] = Ok c.
Proof.
  unfold chunk_at, at_index. destruct (Z.leb_spec 0 ci), (Z.ltb_spec ci 0); try lia; [|done].
  destruct (cs !! Z.to_nat ci); split; congruence.
Qed.

Lemma chunk_at_insert cs ci c cj :
  is_Some (chunk_at cs ci) ->
  chunk_at (<[Z.to_nat ci := c]> cs) cj = if decide (ci = cj) then Some c else chunk_at cs cj.
Proof.
  unfold chunk_at. intros [x Hx]. destruct (Z.leb_spec 0 ci); [|done].
  apply lookup_lt_Some in Hx. destruct (decide (ci = cj)) as [->|Hne].
  - rewrite (proj2 (Z.leb_le _ _)) by done. by apply list_lookup_insert_eq.
  - destruct (Z.leb_spec 0 cj); [|done]. apply list_lookup_insert_ne. lia.
Qed.

Lemma set_chunk cs ci c c' :
  chunk_at cs ci = Some c -> set_index cs ci c' = Ok (<[Z.to_nat ci := c']> cs).
Proof. intros [Hr _]%chunk_at_index%at_index_inv. by apply set_index_ok. Qed.

Lemma set_offset_twice x y c : set_offset x (set_offset y c) = set_offset x c.
Proof. reflexivity. Qed.

Lemma set_offset_self c : c = set_offset (offset_in_osec c) c.
Proof. by destruct c. Qed.

Lemma same_but_offsets_refl cs : same_but_offsets cs cs.
Proof. split; [done|]. intros ci c Hc. exists c. split; [done | apply set_offset_self]. Qed.

Lemma same_but_offsets_trans cs1 cs2 cs3 :
  same_but_offsets cs1 cs2 -> same_but_offsets cs2 cs3 -> same_but_offsets cs1 cs3.
Proof.
  intros [L1 H1] [L2 H2]. split; [congruence|]. intros ci c Hc.
  destruct (H1 ci c Hc) as (c2 & Hc2 & E2). destruct (H2 ci c2 Hc2) as (c3 & Hc3 & E3).
  exists c3. split; [done|]. rewrite E3 at 1. by rewrite E2, set_offset_twice.
Qed.

Lemma same_but_offsets_insert cs ci c off :
  chunk_at cs ci = Some c -> same_but_offsets cs (<[Z.to_nat ci := set_offset off c]> cs).
Proof.
  intros Hc. split; [by rewrite length_insert|]. intros cj d Hd.
  rewrite (chunk_at_insert _ _ _ cj) by eauto. destruct (decide (ci = cj)) as [->|].
  - exists (set_offset off c). split; [done|]. by replace d with c by congruence.
  - exists d. split; [done | apply set_offset_self].
Qed.

(** The offset of a chunk does not depend on the chunks after it. *)
Lemma room_for_same cs cs' ids :
  same_but_offsets cs cs' -> Forall (fun ci => is_Some (chunk_at cs ci)) ids ->
  room_for cs' ids = room_for cs ids.
Proof.
  intros [_ H]. induction 1 as [|ci ids [c Hc] _ IH]; [done|]. cbn [room_for foldr].
  destruct (H ci c Hc) as (c' & Hc' & E). rewrite Hc, Hc'. fold (room_for cs' ids).
  fold (room_for cs ids). rewrite IH, E. done.
Qed.

Lemma placed_frame cs cs' ids off end_ :
  Forall (fun ci => chunk_at cs' ci = chunk_at cs ci) ids ->
  placed cs ids off end_ -> placed cs' ids off end_.
Proof.
  intros H. revert off. induction H as [|ci ids Hci _ IH]; intros off; cbn [placed]; [done|].
  rewrite Hci. intros (c & Hc & Ho & Ha & Hp). eauto 6.
Qed.

Lemma layout_chunks_spec ids cs off :
  NoDup ids ->
  Forall (fun ci => exists c, chunk_at cs ci = Some c /\ chunk_ok c) ids ->
  0 <= off -> off + room_for cs ids < 2 ^ 64 ->
  exists cs' end_, layout_chunks ids cs off = Ok (cs', end_) /\
    placed cs' ids off end_ /\ off <= end_ <= off + room_for cs ids /\
    same_but_offsets cs cs' /\
    (forall ci, ci ∉ ids -> chunk_at cs' ci = chunk_at cs ci).
Proof.
  revert cs off. induction ids as [|ci ids IH]; intros cs off Hnd Hok Hoff Hroom.
  { exists cs, off. cbn [room_for foldr] in *. split_and!; [done | done | lia | lia |
      apply same_but_offsets_refl | done]. }
  inversion_clear Hnd as [|? ? Hnotin Hnd']. rename Hnd' into Hnd.
  inversion_clear Hok as [|? ? (c & Hc & Ha & Hs) Hok']. rename Hok' into Hok.
  cbn [room_for foldr layout_chunks] in *. rewrite Hc in *. fold (room_for cs ids) in *.
  assert (0 <= room_for cs ids) as Hr0.
  { clear -Hok. induction Hok as [|cj ids (d & Hd & Ha & Hs) _ IHr]; [done|].
    cbn [room_for foldr]. rewrite Hd. fold (room_for cs ids). apply pow2_pos in Ha. lia. }
  pose proof (pow2_pos _ Ha) as Hap.
  destruct (align_up_bounds off (c_align c)) as [Hb Hdiv]; [done | lia | lia |].
  rewrite (proj1 (chunk_at_index _ _ _) Hc), bind_ok, (set_chunk _ _ _ _ Hc), bind_ok.
  set (o := align_up off (c_align c)) in *. set (cs1 := <[_ := _]> cs).
  rewrite uwrap_id by lia.
  assert (same_but_offsets cs cs1) as Hsame by by apply same_but_offsets_insert.
  assert (forall cj, cj ∈ ids -> chunk_at cs1 cj = chunk_at cs cj) as Hold.
  { intros cj Hj. unfold cs1. rewrite chunk_at_insert by eauto. by case_decide; [subst|]. }
  assert (room_for cs1 ids = room_for cs ids) as Er.
  { apply room_for_same; [done|]. eapply Forall_impl; [exact Hok|]. intros cj (d & Hd & _). eauto. }
  destruct (IH cs1 (o + c_size c)) as (cs' & e & E & Hp & He & Hs' & Hrest); [done| |lia|lia|].
  { apply Forall_forall. intros cj Hj. rewrite Hold by done.
    by eapply Forall_forall in Hok. }
  exists cs', e. split_and!; [done | | lia | lia | by eapply same_but_offsets_trans |].
  - exists (set_offset o c). rewrite Hrest by done. unfold cs1. rewrite chunk_at_insert by eauto.
    rewrite decide_True by done. done.
  - intros cj [Hne Hj]%not_elem_of_cons. rewrite Hrest by done. unfold cs1.
    rewrite chunk_at_insert by eauto. by rewrite decide_False by done.
Qed.

(** Chunks that are placed are inside the section, aligned and disjoint. *)
Lemma placed_end cs ids off end_ :
  Forall (fun ci => forall c, chunk_at cs ci = Some c -> 0 <= c_size c) ids ->
  placed cs ids off end_ -> off <= end_.
Proof.
  intros H. revert off. induction H as [|ci ids Hci _ IH]; intros off; cbn [placed]; [lia|].
  intros (c & Hc & Ho & _ & Hp). apply IH in Hp. specialize (Hci c Hc). lia.
Qed.

Lemma placed_lookup cs ids off end_ i ci :
  Forall (fun ci => forall c, chunk_at cs ci = Some c -> 0 <= c_size c) ids ->
  placed cs ids off end_ -> ids !! i = Some ci ->
  exists c, chunk_at cs ci = Some c /\ off <= offset_in_osec c /\
    (c_align c | offset_in_osec c) /\
    placed cs (drop (S i) ids) (offset_in_osec c + c_size c) end_.
Proof.
  intros H. revert off i. induction H as [|cj ids Hcj Hids IH]; intros off i Hp Hi; [done|].
  cbn [placed] in Hp. destruct Hp as (c & Hc & Ho & Ha & Hp).
  destruct i as [|i]; [injection Hi as ->; exists c; split_and!; [done | lia | done | done]|].
  destruct (IH _ _ Hp Hi) as (d & Hd & Hod & Had & Hpd).
  exists d. specialize (Hcj c Hc). split_and!; [done | lia | done | done].
Qed.

Lemma Forall2_impl_in {A B} (P Q : A -> B -> Prop) l k :
  Forall2 P l k -> (forall x y, x ∈ l -> y ∈ k -> P x y -> Q x y) -> Forall2 Q l k.
Proof.
  induction 1 as [|x y l k Hxy H IH]; intros HQ; constructor.
  - apply HQ; [left | left | done].
  - apply IH. intros ????. apply HQ; by right.
Qed.

(** All sections of a list, with their chunks in one pool. *)
Lemma layout_sections_spec l cs :
  NoDup (concat (chunk_ids <$> l)) ->
  Forall (fun s => Forall (fun ci => exists c, chunk_at cs ci = Some c /\ chunk_ok c)
                     (chunk_ids s) /\ room_for cs (chunk_ids s) < 2 ^ 64) l ->
  exists cs' l', layout_sections cs l = Ok (cs', l') /\ same_but_offsets cs cs' /\
    (forall ci, ci ∉ concat (chunk_ids <$> l) -> chunk_at cs' ci = chunk_at cs ci) /\
    Forall2 (fun s s' => s' = set_sizes (o_size s') s /\
                         placed cs' (chunk_ids s) 0 (o_size s') /\
                         0 <= o_size s' <= room_for cs (chunk_ids s)) l l'.
Proof.
  revert cs. induction l as [|s l IH]; intros cs Hnd Hok; cbn [layout_sections].
  { exists cs, []. split_and!; [done | apply same_but_offsets_refl | done | constructor]. }
  cbn [fmap list_fmap concat] in Hnd. apply NoDup_app in Hnd as (Hnd1 & Hdisj & Hnd2).
  inversion_clear Hok as [|? ? [Hids Hroom] Hok'].
  destruct (layout_chunks_spec (chunk_ids s) cs 0) as (cs1 & e & E & Hp & He & Hsame & Hrest);
    [done | done | done | lia |]. rewrite E, bind_ok.
  destruct (IH cs1 Hnd2) as (cs2 & l2 & E2 & Hsame2 & Hrest2 & Hp2).
  { eapply Forall_impl; [exact Hok'|]. intros s' [Hc Hr]. split.
    - eapply Forall_impl; [exact Hc|]. intros ci (c & Hci & Hcok).
      destruct (proj2 Hsame ci c Hci) as (c' & Hc' & Ec). exists c'. split; [done|]. by rewrite Ec.
    - rewrite (room_for_same cs); [done | done |]. eapply Forall_impl; [exact Hc|].
      intros ci (c & Hci & _). eauto. }
  rewrite E2, bind_ok. exists cs2, (set_sizes e s :: l2).
  split_and!; [done | by eapply same_but_offsets_trans | |].
  - intros ci [H1 H2]%not_elem_of_app. rewrite Hrest2 by done. by apply Hrest.
  - constructor.
    + split_and!; [done | | cbn; lia | cbn; lia]. apply (placed_frame cs1); [|done].
      apply Forall_forall. intros ci Hci. apply Hrest2. intros H. by eapply Hdisj.
    + eapply Forall2_impl_in; [exact Hp2|]. intros s1 s2 Hin _ (H1 & H2 & H3).
      split_and!; [done | done | lia |]. rewrite <- (room_for_same cs cs1); [lia | done |].
      eapply Forall_forall in Hok'; [|exact Hin]. destruct Hok' as [Hc _].
      eapply Forall_impl; [exact Hc|]. intros ci (c & Hci & _). eauto.
Qed.

(** ** The order of the sections *)

Definition of_rank (r : Z) (l : list OutputSection) : list OutputSection :=
  filter (fun s => rank s = r) l.

Lemma rank_range s : 0 <= rank s <= 3.
Proof. unfold rank. repeat case_match; lia. Qed.

Lemma insert_between s a b :
  Forall (fun x => rank x <= rank s) a -> Forall (fun x => rank s < rank x) b ->
  insert_by_rank s (a ++ b) = a ++ s :: b.
Proof.
  intros Ha Hb. induction Ha as [|x a Hx _ IH]; cbn [app insert_by_rank].
  - destruct Hb as [|y b Hy _]; [done|]. cbn [insert_by_rank].
    by rewrite (proj2 (Z.ltb_lt _ _)).
  - rewrite (proj2 (Z.ltb_ge _ _)) by done. by rewrite IH.
Qed.

Lemma of_rank_all r l : Forall (fun s => rank s = r) (of_rank r l).
Proof. apply Forall_forall. intros s Hs. by apply list_elem_of_filter in Hs as [? _]. Qed.

Lemma of_rank_snoc r l s :
  of_rank r (l ++ [s]) = of_rank r l ++ (if decide (rank s = r) then [s] else []).
Proof. unfold of_rank. by rewrite filter_app. Qed.

(** The result of the stable sort: the sections by rank, and those of one rank
    in the order they had. *)
Definition by_rank (l : list OutputSection) : list OutputSection :=
  of_rank 0 l ++ of_rank 1 l ++ of_rank 2 l ++ of_rank 3 l.

Lemma sort_sections_by_rank l : sort_sections l = by_rank l.
Proof.
  induction l as [|s l IH] using rev_ind; [done|].
  unfold sort_sections in *. rewrite foldl_app. cbn [foldl]. rewrite IH.
  assert (forall r (P : OutputSection -> Prop), (forall x, rank x = r -> P x) ->
            Forall P (of_rank r l)) as Hr.
  { intros r P HP. eapply Forall_impl; [apply of_rank_all|]. intros x Hx. by apply HP. }
  pose proof (rank_range s) as Hs. unfold by_rank. rewrite !of_rank_snoc.
  assert (rank s = 0 \/ rank s = 1 \/ rank s = 2 \/ rank s = 3) as [E|[E|[E|E]]] by lia;
    rewrite E; cbn [decide]; repeat (destruct (decide _) as [?|?]; try lia);
    rewrite ?app_nil_r, <- ?app_assoc; cbn [app].
  - apply (insert_between s (of_rank 0 l)); rewrite ?Forall_app; split_and?; apply Hr; lia.
  - rewrite (app_assoc (of_rank 0 l) (of_rank 1 l)).
    rewrite insert_between; [by rewrite <- !app_assoc|..];
      rewrite ?Forall_app; split_and?; apply Hr; lia.
  - rewrite (app_assoc (of_rank 1 l)), (app_assoc (of_rank 0 l)).
    rewrite insert_between; [by rewrite <- !app_assoc|..];
      rewrite ?Forall_app; split_and?; apply Hr; lia.
  - rewrite <- (app_nil_r (of_rank 3 l)) at 1.
    rewrite (app_assoc (of_rank 2 l)), (app_assoc (of_rank 1 l)), (app_assoc (of_rank 0 l)).
    rewrite insert_between; [by rewrite <- !app_assoc| |constructor];
      rewrite ?Forall_app; split_and?; apply Hr; lia.
Qed.

(** ** Addresses and file offsets *)

(** A section after step 3: its alignment is one the image base respects, and it
    takes space in the file unless it is bss. *)
Definition section_ok (s : OutputSection) : Prop :=
  pow2 (o_align s) /\ (o_align s | BASE_ADDR) /\ 0 <= o_size s /\
  o_filesz s = (if is_bss s then 0 else o_size s).

Definition room_sections (l : list OutputSection) : Z :=
  foldr (fun s n => o_size s + o_align s + n) 0 l.

(** The sections lie in memory one after the other, aligned. *)
Fixpoint in_memory (l : list OutputSection) (vc vc' : Z) : Prop :=
  match l with
  | [] => vc = vc'
  | s :: l => vc <= o_vaddr s < vc + o_align s /\ (o_align s | o_vaddr s) /\
              in_memory l (o_vaddr s + o_size s) vc'
  end.

Lemma align_up_base x a :
  pow2 a -> (a | BASE_ADDR) -> 0 <= x -> BASE_ADDR + x + a - 1 < 2 ^ 64 ->
  align_up (BASE_ADDR + x) a = BASE_ADDR + align_up x a.
Proof.
  intros Ha [q Hq] Hx Hb. pose proof (pow2_pos a Ha).
  assert (0 <= BASE_ADDR) by done.
  rewrite !align_up_eq by (done || lia). rewrite Hq in *.
  replace (q * a + x + a - 1) with (q * a + (x + a - 1)) by lia.
  rewrite Z.div_add_l by lia. lia.
Qed.

Lemma room_sections_nonneg l : Forall section_ok l -> 0 <= room_sections l.
Proof.
  induction 1 as [|s l (Ha & _ & Hs & _) _ IH]; cbn [room_sections foldr]; [done|].
  fold (room_sections l). apply pow2_pos in Ha. lia.
Qed.

Lemma room_sections_app l1 l2 : room_sections (l1 ++ l2) = room_sections l1 + room_sections l2.
Proof. induction l1 as [|s l1 IH]; cbn; [done|]. unfold room_sections in *. lia. Qed.

Lemma assign_addresses_app l1 l2 fc vc :
  assign_addresses fc vc (l1 ++ l2) =
  (let '(l1', fc1, vc1) := assign_addresses fc vc l1 in
   let '(l2', fc2, vc2) := assign_addresses fc1 vc1 l2 in (l1' ++ l2', fc2, vc2)).
Proof.
  revert fc vc. induction l1 as [|s l1 IH]; intros fc vc; cbn [app assign_addresses].
  { by destruct (assign_addresses fc vc l2) as [[? ?] ?]. }
  rewrite IH. destruct (assign_addresses _ _ l1) as [[l1' fc1] vc1].
  by destruct (assign_addresses fc1 vc1 l2) as [[l2' fc2] vc2].
Qed.

(** Sections that are not bss keep the file and the memory in step. *)
Lemma assign_data l fc :
  Forall section_ok l -> Forall (fun s => is_bss s = false) l ->
  0 <= fc -> BASE_ADDR + fc + room_sections l < 2 ^ 64 ->
  exists l' fc', assign_addresses fc (BASE_ADDR + fc) l = (l', fc', BASE_ADDR + fc') /\
    fc <= fc' <= fc + room_sections l /\ in_memory l' (BASE_ADDR + fc) (BASE_ADDR + fc') /\
    Forall (fun s => is_bss s = false /\ o_vaddr s = BASE_ADDR + o_foff s /\
                     fc <= o_foff s /\ o_foff s + o_size s <= fc' /\ 0 <= o_size s) l'.
Proof.
  intros Hok. revert fc. induction Hok as [|s l (Ha & Hd & Hs & Hf) Hok IH]; intros fc Hbss Hfc Hr.
  { exists [], fc. cbn [room_sections foldr] in *. split_and!; [done | lia | lia | done | constructor]. }
  apply Forall_cons in Hbss as [Hb Hbss]. cbn [room_sections foldr assign_addresses] in *.
  fold (room_sections l) in *. pose proof (pow2_pos _ Ha) as Hap.
  pose proof (room_sections_nonneg l Hok) as Hr0. assert (BASE_ADDR = 4194304) as HB by done.
  rewrite Hb, align_up_base by (done || lia).
  destruct (align_up_bounds fc (o_align s)) as [Hbd Hdiv]; [done | lia | lia |].
  set (o := align_up fc (o_align s)) in *. rewrite Hf, Hb.
  rewrite !uwrap_id by lia. rewrite <- Z.add_assoc.
  destruct (IH (o + o_size s)) as (l' & fc' & E & Hle & Hm & Hall); [done | lia | lia |].
  rewrite E. exists (set_place (BASE_ADDR + o) o s :: l'), fc'.
  split_and!; [done | lia | lia | |].
  - cbn [in_memory o_vaddr o_align o_size set_place]. rewrite Z.add_assoc in Hm.
    split_and!; [lia | lia | by apply Z.divide_add_r | done].
  - constructor.
    + cbn [is_bss o_vaddr o_foff o_size set_place]. split_and!; done || lia.
    + eapply Forall_impl; [exact Hall|]. intros t (H1 & H2 & H3 & H4 & H5).
      split_and!; done || lia.
Qed.

(** Sections of bss take memory only. *)
Lemma assign_bss l fc vc :
  Forall section_ok l -> Forall (fun s => is_bss s = true) l ->
  0 <= vc -> vc + room_sections l < 2 ^ 64 ->
  exists l' vc', assign_addresses fc vc l = (l', fc, vc') /\
    vc <= vc' <= vc + room_sections l /\ in_memory l' vc vc' /\
    Forall (fun s => is_bss s = true /\ vc <= o_vaddr s /\ 0 <= o_size s) l'.
Proof.
  intros Hok. revert vc. induction Hok as [|s l (Ha & Hd & Hs & Hf) Hok IH]; intros vc Hbss Hvc Hr.
  { exists [], vc. split_and!; [done | lia | cbn; lia | done | constructor]. }
  apply Forall_cons in Hbss as [Hb Hbss]. cbn [room_sections foldr assign_addresses] in *.
  fold (room_sections l) in *. pose proof (pow2_pos _ Ha) as Hap.
  pose proof (room_sections_nonneg l Hok) as Hr0.
  destruct (align_up_bounds vc (o_align s)) as [Hbd Hdiv]; [done | lia | lia |].
  set (o := align_up vc (o_align s)) in *. rewrite Hb, uwrap_id by lia.
  destruct (IH (o + o_size s)) as (l' & vc' & E & Hle & Hm & Hall); [done | lia | lia |].
  rewrite E. exists (set_place o fc s :: l'), vc'. split_and!; [done | lia | lia | |].
  - cbn [in_memory o_vaddr o_align o_size set_place]. split_and!; done || lia.
  - constructor; [cbn; split_and!; done || lia|].
    eapply Forall_impl; [exact Hall|]. intros t (H1 & H2 & H3). split_and!; done || lia.
Qed.

Lemma in_memory_app l1 l2 a b c :
  in_memory l1 a b -> in_memory l2 b c -> in_memory (l1 ++ l2) a c.
Proof.
  revert a. induction l1 as [|s l1 IH]; intros a; cbn [in_memory app]; [by intros ->|].
  intros (H1 & H2 & H3) H. split_and!; try done; try lia. by apply IH.
Qed.

Lemma in_memory_end l a b : Forall (fun s => 0 <= o_size s) l -> in_memory l a b -> a <= b.
Proof.
  intros H. revert a. induction H as [|s l Hs _ IH]; intros a; cbn [in_memory]; [lia|].
  intros (? & _ & Hm). apply IH in Hm. lia.
Qed.

Lemma in_memory_lookup l a b i s :
  Forall (fun s => 0 <= o_size s) l -> in_memory l a b -> l !! i = Some s ->
  (o_align s | o_vaddr s) /\ a <= o_vaddr s /\
  in_memory (drop (S i) l) (o_vaddr s + o_size s) b.
Proof.
  intros H. revert a i. induction H as [|t l Ht _ IH]; intros a i Hm Hi; [done|].
  destruct Hm as (H1 & H2 & H3). destruct i as [|i]; [injection Hi as ->; split_and!; done || lia|].
  destruct (IH _ _ H3 Hi) as (? & ? & ?). split_and!; done || lia.
Qed.

(** The sections with content come first if all bss sections are of rank 3. *)
Lemma by_rank_split l :
  Forall (fun s => is_bss s = true -> rank s = 3) l ->
  exists l1 l2, by_rank l = l1 ++ l2 /\ Forall (fun s => is_bss s = false) l1 /\
    Forall (fun s => is_bss s = true) l2 /\ room_sections (by_rank l) = room_sections l /\
    (Forall section_ok l -> Forall section_ok l1 /\ Forall section_ok l2).
Proof.
  intros Hb. exists (of_rank 0 l ++ of_rank 1 l ++ of_rank 2 l), (of_rank 3 l).
  assert (forall r, r <> 3 -> Forall (fun s => is_bss s = false) (of_rank r l)) as Hn.
  { intros r Hr. apply Forall_forall. intros s [E Hs]%list_elem_of_filter.
    eapply Forall_forall in Hb; [|exact Hs]. destruct (is_bss s); [|done].
    specialize (Hb eq_refl). congruence. }
  assert (forall P r, Forall P l -> Forall P (of_rank r l)) as HP.
  { intros P r H. apply Forall_forall. intros s [_ Hs]%list_elem_of_filter.
    by eapply Forall_forall in H. }
  split_and!.
  - unfold by_rank. by rewrite <- !app_assoc.
  - rewrite !Forall_app. split_and!; apply Hn; lia.
  - apply Forall_forall. intros s [E _]%list_elem_of_filter. unfold rank in E.
    repeat case_match; done || lia.
  - unfold by_rank. rewrite !room_sections_app. clear Hb Hn HP.
    induction l as [|s l IH]; [done|]. pose proof (rank_range s) as Hs. unfold of_rank in *.
    rewrite !filter_cons. cbn [room_sections foldr]. fold (room_sections l). rewrite <- IH.
    repeat case_decide; try lia; cbn [room_sections foldr];
      repeat match goal with |- context [foldr _ 0 ?k] => fold (room_sections k) end; lia.
  - intros Hok. split; [rewrite !Forall_app; split_and!|]; by apply HP.
Qed.
