(* ===== verification/LinkSymProofs.v ===== *)
(** * The linker: correctness of symbol resolution

    What the table of global symbols promises, as a function of all symbols in
    the order in which they are met, and that the loop of the linker computes
    it. *)

From S2P Require Import Prelude Bytes LinkElf LinkSections LinkSymbols.
From stdpp Require Import gmap list_relations list.
#[local] Open Scope Z_scope.

(** ** The monad *)

Lemma lbind_ret {A B} (a : A) (f : A -> lres B) : lbind (lret a) f = f a.
Proof. reflexivity. Qed.

Lemma foldM_app {A B} (f : B -> A -> lres B) b l1 l2 :
  foldM f b (l1 ++ l2) = lbind (foldM f b l1) (fun b => foldM f b l2).
Proof.
  revert b. induction l1 as [|a l1 IH]; intros b; [done|]. cbn [app foldM].
  destruct (f b a) as [[e|b']| |]; cbn [lbind]; done || apply IH.
Qed.

Lemma foldM_snoc {A B} (f : B -> A -> lres B) b l a :
  foldM f b (l ++ [a]) = lbind (foldM f b l) (fun b => f b a).
Proof.
  rewrite foldM_app. destruct (foldM f b l) as [[e|b']| |]; cbn [lbind foldM]; try done.
  by destruct (f b' a) as [[?|?]| |].
Qed.

(** ** The specification of the table *)

Definition global_bind (i : SymInfo) : bool :=
  (s_bind i =? STB_GLOBAL) || (s_bind i =? STB_WEAK).

(** The global symbols of a name, in order. *)
Definition entries (n : list Z) (infos : list SymInfo) : list SymInfo :=
  filter (fun i => global_bind i = true /\ s_name i = n) infos.

Definition strong_def (i : SymInfo) : bool := defined i && negb (is_weak i).

(** The entry a name stands for: its first strong definition, else its first
    definition, else its first mention. *)
Definition winner (es : list SymInfo) : option SymInfo :=
  match List.find strong_def es with
  | Some i => Some i
  | None => match List.find defined es with Some i => Some i | None => head es end
  end.

Lemma find_snoc {A} (f : A -> bool) l x :
  List.find f (l ++ [x]) =
  match List.find f l with Some y => Some y | None => if f x then Some x else None end.
Proof. induction l as [|a l IH]; cbn; [done|]. destruct (f a); [done | apply IH]. Qed.

Lemma find_true {A} (f : A -> bool) l x : List.find f l = Some x -> f x = true /\ x ∈ l.
Proof. intros [H1 H2]%List.find_some. split; [done | by apply list_elem_of_In]. Qed.

Lemma find_defined_head es o :
  List.find defined es = None -> head es = Some o -> defined o = false.
Proof.
  destruct es as [|x es]; [done|]. cbn. intros H [= ->]. by destruct (defined o).
Qed.

(** How the winner changes with one more entry: the rule the loop follows. *)
Lemma winner_snoc es x :
  winner (es ++ [x]) =
  match winner es with
  | None => Some x
  | Some o =>
      if strong_def o then Some o
      else if strong_def x then Some x
      else if defined o then Some o
      else if defined x then Some x else Some o
  end.
Proof.
  unfold winner. rewrite !find_snoc.
  destruct (List.find strong_def es) as [o|] eqn:Es.
  { by destruct (find_true _ _ _ Es) as [-> _]. }
  destruct (List.find defined es) as [o|] eqn:Ed.
  - destruct (find_true _ _ _ Ed) as [Ho Hin].
    assert (strong_def o = false) as Hso.
    { apply list_elem_of_In in Hin. by apply (List.find_none _ _ Es). }
    rewrite Hso, Ho. by destruct (strong_def x).
  - destruct es as [|o es]; cbn [head app].
    + by destruct (strong_def x), (defined x).
    + assert (defined o = false) as Ho by (eapply find_defined_head; done).
      unfold strong_def at 2. rewrite Ho. cbn [andb].
      by destruct (strong_def x), (defined x).
Qed.

Lemma winner_strong es o :
  winner es = Some o -> strong_def o = true <-> exists i, i ∈ es /\ strong_def i = true.
Proof.
  intros H. split.
  - intros Ho. exists o. split; [|done]. revert H. unfold winner.
    destruct (List.find strong_def es) eqn:Es; [intros [= <-]; apply (find_true _ _ _ Es)|].
    destruct (List.find defined es) eqn:Ed; [intros [= <-]; apply (find_true _ _ _ Ed)|].
    destruct es; [done|]. intros [= ->]. by left.
  - intros (i & Hi & Hs). revert H. unfold winner.
    destruct (List.find strong_def es) eqn:Es; [intros [= <-]; apply (find_true _ _ _ Es)|].
    apply list_elem_of_In in Hi. by rewrite (List.find_none _ _ Es i Hi) in Hs.
Qed.

Lemma winner_defined es o :
  winner es = Some o -> defined o = false -> Forall (fun i => defined i = false) es /\ head es = Some o.
Proof.
  unfold winner. destruct (List.find strong_def es) eqn:Es.
  { intros [= ->] Hd. apply find_true in Es as [Hs _]. unfold strong_def in Hs. by rewrite Hd in Hs. }
  destruct (List.find defined es) eqn:Ed.
  { intros [= ->] Hd. apply find_true in Ed as [? _]. congruence. }
  intros H _. split; [|done]. apply Forall_forall. intros i Hi%list_elem_of_In.
  exact (List.find_none _ _ Ed i Hi).
Qed.

Lemma winner_undefined es :
  Forall (fun i => defined i = false) es -> winner es = head es.
Proof.
  intros H. unfold winner.
  assert (List.find defined es = None) as Ed.
  { destruct (List.find defined es) eqn:E; [|done]. apply find_true in E as [Ht Hin].
    eapply Forall_forall in H; [|exact Hin]. congruence. }
  rewrite Ed. destruct (List.find strong_def es) eqn:Es; [|done].
  apply find_true in Es as [Ht Hin]. eapply Forall_forall in H; [|exact Hin].
  unfold strong_def in Ht. cbn in H. by rewrite H in Ht.
Qed.

(** ** The loop computes the specification *)

Lemma entries_snoc n infos i :
  entries n (infos ++ [i]) =
  entries n infos ++ (if decide (global_bind i = true /\ s_name i = n) then [i] else []).
Proof. unfold entries. by rewrite filter_app. Qed.

(** The entry of a name after one registration. *)
Definition next_entry (old : option SymInfo) (x : SymInfo) : option SymInfo :=
  match old with
  | None => Some x
  | Some o =>
      if strong_def o then Some o
      else if strong_def x then Some x
      else if defined o then Some o
      else if defined x then Some x else Some o
  end.

Lemma register_spec g x :
  global_bind x = true ->
  match g !! s_name x with
  | Some o => if strong_def o && strong_def x
              then register g x = lfail (DuplicateSymbol (s_name x))
              else exists g', register g x = lret g' /\
                   g' !! s_name x = next_entry (Some o) x /\
                   forall n, n <> s_name x -> g' !! n = g !! n
  | None => exists g', register g x = lret g' /\ g' !! s_name x = Some x /\
                       forall n, n <> s_name x -> g' !! n = g !! n
  end.
Proof.
  intros Hb. unfold register, next_entry, strong_def. unfold global_bind in Hb. rewrite Hb.
  assert (forall n, n <> s_name x -> <[s_name x := x]> g !! n = g !! n) as Hi.
  { intros n Hn. by apply lookup_insert_ne. }
  assert (<[s_name x := x]> g !! s_name x = Some x) as He by apply lookup_insert_eq.
  destruct (g !! s_name x) as [o|] eqn:Eo; cbn [negb].
  - destruct (defined x) eqn:Ex, (defined o) eqn:Ed, (is_weak o) eqn:Ew, (is_weak x) eqn:Exw;
      cbn [andb orb negb]; try done; eexists; split_and!; done.
  - destruct (defined x); cbn [andb orb negb]; eexists; split_and!; done.
Qed.

(** What the loop over the symbols has done: the table has the winners, or there
    are two strong definitions of a name. *)
Definition registered (infos : list SymInfo) (r : lres Globals) : Prop :=
  match r with
  | Ok (inr g) =>
      (forall n, g !! n = winner (entries n infos)) /\
      (forall n, (length (List.filter strong_def (entries n infos)) <= 1)%nat)
  | Ok (inl (DuplicateSymbol n)) =>
      (2 <= length (List.filter strong_def (entries n infos)))%nat
  | _ => False
  end.

Lemma filter_strong_snoc es x :
  length (List.filter strong_def (es ++ [x])) =
  (length (List.filter strong_def es) + if strong_def x then 1 else 0)%nat.
Proof.
  rewrite List.filter_app, length_app. cbn. by destruct (strong_def x).
Qed.

Lemma filter_strong_nil es :
  (forall i, i ∈ es -> strong_def i = false) -> length (List.filter strong_def es) = 0%nat.
Proof.
  intros H. destruct (List.filter strong_def es) as [|i l] eqn:E; [done|].
  assert (In i (List.filter strong_def es)) as Hi by (rewrite E; by left).
  apply List.filter_In in Hi as [Hi%list_elem_of_In Hs]. rewrite H in Hs; done.
Qed.

Lemma filter_strong_pos es i :
  i ∈ es -> strong_def i = true -> (1 <= length (List.filter strong_def es))%nat.
Proof.
  intros Hi%list_elem_of_In Hs. assert (In i (List.filter strong_def es)) as H
    by (by apply List.filter_In). destruct (List.filter strong_def es); [done | cbn; lia].
Qed.

Lemma registered_step infos g x :
  registered infos (lret g) -> registered (infos ++ [x]) (register g x).
Proof.
  intros [Hg Hd]. destruct (global_bind x) eqn:Hb.
  2: { assert (register g x = lret g) as ->.
       { unfold register. unfold global_bind in Hb. by rewrite Hb. }
       assert (forall n, entries n (infos ++ [x]) = entries n infos) as E.
       { intros n. rewrite entries_snoc, decide_False, app_nil_r; [done | by rewrite Hb; intros []]. }
       cbn. split; intros n; rewrite E; done. }
  assert (forall n, n <> s_name x -> entries n (infos ++ [x]) = entries n infos) as Eother.
  { intros n Hn. rewrite entries_snoc, decide_False, app_nil_r; [done | by intros [_ ?]]. }
  assert (entries (s_name x) (infos ++ [x]) = entries (s_name x) infos ++ [x]) as Ex.
  { by rewrite entries_snoc, decide_True. }
  assert (forall g', register g x = lret g' ->
            g' !! s_name x = next_entry (g !! s_name x) x ->
            (forall n, n <> s_name x -> g' !! n = g !! n) ->
            (length (List.filter strong_def (entries (s_name x) infos)) +
              (if strong_def x then 1 else 0) <= 1)%nat ->
            registered (infos ++ [x]) (register g x)) as Hdone.
  { intros g' -> E1 E2 Hl. cbn. split; intros n; destruct (decide (n = s_name x)) as [->|Hn].
    - rewrite E1, Hg, Ex, winner_snoc. done.
    - by rewrite E2, Hg, Eother.
    - by rewrite Ex, filter_strong_snoc.
    - by rewrite Eother. }
  pose proof (register_spec g x Hb) as Hr. specialize (Hg (s_name x)) as Hgx.
  destruct (g !! s_name x) as [o|] eqn:Eo.
  - symmetry in Hgx. pose proof (winner_strong _ _ Hgx) as Hws.
    destruct (strong_def o) eqn:Eso; cbn [andb] in Hr.
    + destruct (proj1 Hws eq_refl) as (i & Hi & Hs). destruct (strong_def x) eqn:Esx.
      * rewrite Hr. cbn. rewrite Ex, filter_strong_snoc, Esx.
        pose proof (filter_strong_pos _ _ Hi Hs). lia.
      * destruct Hr as (g' & E & E1 & E2). apply (Hdone g'); try done. specialize (Hd (s_name x)). lia.
    + destruct Hr as (g' & E & E1 & E2). apply (Hdone g'); try done.
      rewrite filter_strong_nil; [destruct (strong_def x); lia|].
      intros i Hi. destruct (strong_def i) eqn:Es; [|done].
      symmetry. apply (proj2 Hws). by exists i.
  - destruct Hr as (g' & E & E1 & E2). apply (Hdone g'); try done.
    assert (entries (s_name x) infos = []) as ->; [|destruct (strong_def x); cbn; lia].
    revert Hgx. unfold winner. destruct (List.find strong_def _); [done|].
    destruct (List.find defined _); [done|]. destruct (entries (s_name x) infos); cbn; congruence.
Qed.

Lemma register_all infos : registered infos (foldM register ∅ infos).
Proof.
  induction infos as [|x infos IH] using rev_ind.
  { split; intros n; [exact (lookup_empty n) | cbn; lia]. }
  rewrite foldM_snoc. destruct (foldM register ∅ infos) as [[e|g]| |]; try done.
  - cbn [lbind]. destruct e; try done. cbn in *. rewrite entries_snoc, List.filter_app, length_app. lia.
  - cbn [lbind]. by apply registered_step.
Qed.

(** ** Undefined symbols *)

Lemma check_undefined_spec g :
  (exists g', check_undefined g = lret g') /\
    (forall n i, g !! n = Some i -> is_undefined n i = false) \/
  check_undefined g = lfail UndefinedSymbol /\
    exists n i, g !! n = Some i /\ is_undefined n i = true.
Proof.
  unfold check_undefined. destruct (existsb _ _) eqn:E.
  - right. split; [done|]. apply existsb_exists in E as ([n i] & Hin & Hu).
    exists n, i. split; [|done]. by apply elem_of_map_to_list, list_elem_of_In.
  - left. split; [by eexists|]. intros n i Hi. destruct (is_undefined n i) eqn:Hu; [|done].
    assert (existsb (fun '(name, i) => is_undefined name i) (map_to_list g) = true) as H.
    { apply existsb_exists. exists (n, i). split; [|done].
      by apply list_elem_of_In, elem_of_map_to_list. }
    congruence.
Qed.
