(* ===== verification/LinkImageProofs.v ===== *)
(** * The linker: correctness of the image

    The output file, loaded as its program header says, has the data of every
    chunk at the address the layout gives it. *)

From S2P Require Import Prelude Bytes LinkElf LinkSections LinkSymbols LinkReloc LinkOutput.
From S2P Require Import LinkRelocProofs LinkLayoutProofs.
From stdpp Require Import gmap list_relations list.
#[local] Open Scope Z_scope.

(** ** The writes of step 7 *)

Definition chunk_writes (cs : list Chunk) (foff ci : Z) : list (Z * list Z) :=
  match chunk_at cs ci with
  | Some c => if c_type c =? SHT_NOBITS then [] else [(foff + offset_in_osec c, c_data c)]
  | None => []
  end.

Definition section_writes (cs : list Chunk) (s : OutputSection) : list (Z * list Z) :=
  if is_bss s then [] else chunk_ids s ≫= chunk_writes cs (o_foff s).

Lemma write_all_app buf ws1 ws2 :
  write_all buf (ws1 ++ ws2) = (buf ← write_all buf ws1; write_all buf ws2).
Proof. apply foldR_app. Qed.

Lemma chunk_writes_at cs foff ci c :
  chunk_at cs ci = Some c ->
  chunk_writes cs foff ci =
  if c_type c =? SHT_NOBITS then [] else [(foff + offset_in_osec c, c_data c)].
Proof. intros Hc. unfold chunk_writes. by rewrite Hc. Qed.

Lemma copy_section_writes cs s out :
  Forall (fun ci => is_Some (chunk_at cs ci)) (chunk_ids s) ->
  copy_section cs out s = write_all out (section_writes cs s).
Proof.
  unfold copy_section, section_writes. destruct (is_bss s); [done|].
  intros H. revert out. induction H as [|ci ids [c Hc] _ IH]; intros out; [done|].
  cbn [foldR mbind list_bind]. rewrite write_all_app, (chunk_writes_at _ _ _ _ Hc).
  unfold copy_chunk at 2. rewrite (proj1 (chunk_at_index _ _ _) Hc), bind_ok.
  destruct (c_type c =? SHT_NOBITS); [exact (IH out)|].
  unfold write_all at 2. cbn [foldR].
  destruct (write_bytes out (o_foff s + offset_in_osec c) (c_data c)) as [out'| |];
    [exact (IH out') | done..].
Qed.

Lemma copy_sections_writes cs l out :
  Forall (fun s => Forall (fun ci => is_Some (chunk_at cs ci)) (chunk_ids s)) l ->
  foldR (copy_section cs) out l = write_all out (l ≫= section_writes cs).
Proof.
  intros H. revert out. induction H as [|s l Hs _ IH]; intros out; [done|].
  cbn [foldR mbind list_bind]. rewrite write_all_app, copy_section_writes by done.
  apply bind_ext. intros out'. apply IH.
Qed.

(** ** They are ascending *)

(** The data of a chunk has the size of the section it comes from. *)
Definition data_ok (c : Chunk) : Prop :=
  0 <= c_size c /\ (c_type c <> SHT_NOBITS -> Z.of_nat (length (c_data c)) = c_size c).

Lemma chunk_writes_ascending cs foff ids off end_ :
  Forall (fun ci => forall c, chunk_at cs ci = Some c -> data_ok c) ids ->
  placed cs ids off end_ ->
  ascending (ids ≫= chunk_writes cs foff) (foff + off) (foff + end_).
Proof.
  intros H. revert off. induction H as [|ci ids Hci _ IH]; intros off Hp; cbn [placed] in Hp.
  { subst. cbn. lia. }
  destruct Hp as (c & Hc & Ho & _ & Hp). destruct (Hci c Hc) as [Hs Hd].
  apply IH in Hp. cbn [mbind list_bind]. rewrite (chunk_writes_at _ _ _ _ Hc).
  destruct (Z.eqb_spec (c_type c) SHT_NOBITS); cbn [app ascending].
  - eapply ascending_weaken; [| |exact Hp]; lia.
  - rewrite Hd by done. split; [lia|]. eapply ascending_weaken; [| |exact Hp]; lia.
Qed.

(** The sections with content lie in the file as they lie in memory. *)
Lemma data_writes_ascending cs l fc fc' :
  Forall (fun s => is_bss s = false /\ o_vaddr s = BASE_ADDR + o_foff s /\
            placed cs (chunk_ids s) 0 (o_size s) /\
            Forall (fun ci => forall c, chunk_at cs ci = Some c -> data_ok c) (chunk_ids s)) l ->
  in_memory l (BASE_ADDR + fc) (BASE_ADDR + fc') ->
  ascending (l ≫= section_writes cs) fc fc'.
Proof.
  intros H. revert fc. induction H as [|s l (Hb & Hv & Hp & Hd) _ IH]; intros fc Hm;
    cbn [in_memory] in Hm; [cbn; lia|].
  destruct Hm as (H1 & _ & Hm). rewrite Hv in Hm, H1.
  replace (BASE_ADDR + o_foff s + o_size s) with (BASE_ADDR + (o_foff s + o_size s)) in Hm by lia.
  apply IH in Hm. cbn [mbind list_bind]. eapply ascending_app; [|exact Hm].
  unfold section_writes. rewrite Hb.
  eapply ascending_weaken; [| |apply (chunk_writes_ascending _ _ _ _ _ Hd Hp)]; lia.
Qed.

Lemma bss_writes cs l : Forall (fun s => is_bss s = true) l -> l ≫= section_writes cs = [].
Proof.
  induction 1 as [|s l Hs _ IH]; [done|]. cbn [mbind list_bind]. unfold section_writes at 1.
  by rewrite Hs.
Qed.

(** ** The headers *)

Lemma length_ehdr_bytes entry : length (ehdr_bytes entry) = 64%nat.
Proof. reflexivity. Qed.

Lemma length_phdr_bytes t f o v p fs ms a : length (phdr_bytes t f o v p fs ms a) = 56%nat.
Proof. reflexivity. Qed.

Definition header_writes (L : Layout) (entry : Z) : list (Z * list Z) :=
  [(0, ehdr_bytes entry); (64, phdr1 (total_filesz L) (total_memsz L)); (120, phdr2)].

Lemma header_ascending L entry : ascending (header_writes L entry) 0 176.
Proof.
  cbn [ascending header_writes]. unfold phdr1, phdr2.
  rewrite length_ehdr_bytes, !length_phdr_bytes. lia.
Qed.

Lemma write_image_writes L cs entry :
  Forall (fun s => Forall (fun ci => is_Some (chunk_at cs ci)) (chunk_ids s)) (l_osecs L) ->
  write_image L cs entry =
  write_all (replicate (Z.to_nat (total_filesz L)) 0)
    (header_writes L entry ++ (l_osecs L ≫= section_writes cs)).
Proof.
  intros H. unfold write_image. rewrite write_all_app.
  unfold write_all at 2, header_writes. cbn [foldR]. rewrite !bind_assoc.
  apply bind_ext. intros o1. rewrite !bind_assoc. apply bind_ext. intros o2.
  rewrite !bind_assoc. apply bind_ext. intros o3. by apply copy_sections_writes.
Qed.

(** ** The image *)

(** Chunks that differ in their data only, as relocations leave them. *)
Definition same_but_data (cs cs' : list Chunk) : Prop :=
  forall ci c, chunk_at cs ci = Some c ->
    exists c', chunk_at cs' ci = Some c' /\ c' = set_data (c_data c') c /\
               length (c_data c') = length (c_data c).

(** The layout of sections that are sorted, with the data sections in step. *)
Record laid_out (cs : list Chunk) (l : list OutputSection) (fc : Z) : Prop := {
  lo_split : exists l1 l2, l = l1 ++ l2 /\
    Forall (fun s => is_bss s = false /\ o_vaddr s = BASE_ADDR + o_foff s) l1 /\
    Forall (fun s => is_bss s = true) l2 /\
    in_memory l1 (BASE_ADDR + 176) (BASE_ADDR + fc);
  lo_placed : Forall (fun s => placed cs (chunk_ids s) 0 (o_size s)) l;
  lo_data : Forall (fun s => Forall (fun ci => exists c, chunk_at cs ci = Some c /\ data_ok c)
                               (chunk_ids s)) l
}.

Lemma placed_data cs cs' ids off end_ :
  same_but_data cs cs' -> placed cs ids off end_ -> placed cs' ids off end_.
Proof.
  intros Hs. revert off. induction ids as [|ci ids IH]; intros off; cbn [placed]; [done|].
  intros (c & Hc & Ho & Ha & Hp). destruct (Hs ci c Hc) as (c' & Hc' & E & _).
  exists c'. split; [done|]. rewrite E. cbn [set_data offset_in_osec c_align c_size].
  split; [exact Ho|]. split; [exact Ha | by apply IH].
Qed.

Lemma data_ok_data cs cs' ci c :
  same_but_data cs cs' -> chunk_at cs ci = Some c -> data_ok c ->
  exists c', chunk_at cs' ci = Some c' /\ data_ok c'.
Proof.
  intros Hs Hc [H1 H2]. destruct (Hs ci c Hc) as (c' & Hc' & E & El). exists c'. split; [done|].
  unfold data_ok. rewrite El, E. done.
Qed.

Lemma laid_out_data cs cs' l fc :
  same_but_data cs cs' -> laid_out cs l fc -> laid_out cs' l fc.
Proof.
  intros Hs [H1 H2 H3]. split; [done | |].
  - eapply Forall_impl; [exact H2|]. intros s. by apply placed_data.
  - eapply Forall_impl; [exact H3|]. intros s Hsec. eapply Forall_impl; [exact Hsec|].
    intros ci (c & Hc & Hd). by eapply data_ok_data.
Qed.

(** The file of a layout holds every chunk at its place. *)
Lemma image_spec L cs entry :
  laid_out cs (l_osecs L) (total_filesz L) ->
  exists out, write_image L cs entry = Ok out /\
    Z.of_nat (length out) = total_filesz L /\
    slice out 0 64 = Ok (ehdr_bytes entry) /\
    slice out 64 56 = Ok (phdr1 (total_filesz L) (total_memsz L)) /\
    forall s ci c, s ∈ l_osecs L -> is_bss s = false -> ci ∈ chunk_ids s ->
      chunk_at cs ci = Some c -> c_type c <> SHT_NOBITS ->
      o_vaddr s = BASE_ADDR + o_foff s /\
      slice out (o_vaddr s + offset_in_osec c - BASE_ADDR) (Z.of_nat (length (c_data c)))
        = Ok (c_data c).
Proof.
  intros [(l1 & l2 & El & Hd & Hb & Hm) Hp Hc]. rewrite write_image_writes.
  2: { eapply Forall_impl; [exact Hc|]. intros s Hs. eapply Forall_impl; [exact Hs|].
       intros ci (c & Hci & _). eauto. }
  assert (ascending (header_writes L entry ++ (l_osecs L ≫= section_writes cs)) 0 (total_filesz L))
    as Ha.
  { eapply ascending_app; [apply header_ascending|].
    rewrite El, bind_app, (bss_writes cs l2 Hb), app_nil_r.
    apply data_writes_ascending; [|done]. rewrite El in Hp, Hc.
    apply Forall_app in Hp as [Hp _]. apply Forall_app in Hc as [Hc _].
    apply Forall_forall. intros s Hs. repeat match goal with
      H : Forall _ l1 |- _ => eapply Forall_forall in H; [|exact Hs] end.
    destruct Hd as [? ?]. split_and!; [done | done | done |].
    eapply Forall_impl; [exact Hc|]. intros ci (c & Hci & Hok) c' Hc'. congruence. }
  pose proof (ascending_le _ _ _ Ha) as Hfc.
  destruct (write_all_spec _ (replicate (Z.to_nat (total_filesz L)) 0) _ _ (Z.le_refl 0) Ha)
    as (out & E & Hl & _ & Hall); [rewrite length_replicate; lia|].
  rewrite length_replicate in Hl. exists out. apply Forall_app in Hall as [Hh Hs].
  inversion_clear Hh as [|? ? He Hh']. inversion_clear Hh' as [|? ? He1 _].
  split_and!; [done | lia | done | done |].
  intros s ci c Hin Hnb Hci Hcc Ht.
  assert (o_vaddr s = BASE_ADDR + o_foff s) as Hv.
  { rewrite El in Hin. apply elem_of_app in Hin as [Hin|Hin].
    - by eapply Forall_forall in Hd as [_ ?].
    - eapply Forall_forall in Hb; [|exact Hin]. congruence. }
  split; [done|]. rewrite Hv.
  replace (BASE_ADDR + o_foff s + offset_in_osec c - BASE_ADDR)
    with (o_foff s + offset_in_osec c) by lia.
  eapply Forall_forall in Hs; [|apply list_elem_of_bind; exists s; split; [|exact Hin]].
  2: { unfold section_writes. rewrite Hnb. apply list_elem_of_bind. exists ci. split; [|exact Hci].
       rewrite (chunk_writes_at _ _ _ _ Hcc), (proj2 (Z.eqb_neq _ _) Ht). by left. }
  exact Hs.
Qed.

(** * The linker: from merged sections to the image

    Sorting, layout and addresses, composed as steps 3 and 4 of main compose
    them, establish what the correctness of the image needs. *)
#[local] Open Scope Z_scope.

(** The space the sections can take at most. *)
Definition room_all (cs : list Chunk) (l : list OutputSection) : Z :=
  foldr (fun s n => room_for cs (chunk_ids s) + o_align s + n) 0 l.

(** Sections as merging makes them, of an input the linker can lay out. *)
Record linkable (cs : list Chunk) (l : list OutputSection) : Prop := {
  lk_nodup : NoDup (concat (chunk_ids <$> l));
  lk_chunks : Forall (fun s => Forall (fun ci => exists c, chunk_at cs ci = Some c /\
                                 chunk_ok c /\ data_ok c) (chunk_ids s)) l;
  lk_align : Forall (fun s => pow2 (o_align s) /\ (o_align s | BASE_ADDR)) l;
  lk_bss : Forall (fun s => is_bss s = true -> rank s = 3) l;
  lk_room : BASE_ADDR + 176 + room_all cs l < 2 ^ 64
}.

Lemma Forall2_transfer {A B} (P : A -> B -> Prop) (Q : A -> Prop) (R : B -> Prop) l k :
  Forall2 P l k -> Forall Q l -> (forall x y, P x y -> Q x -> R y) -> Forall R k.
Proof. intros H HQ HR. induction H; inversion_clear HQ; constructor; eauto. Qed.

(** ** Sorting is a permutation *)

Lemma by_rank_perm l : by_rank l ≡ₚ l.
Proof.
  induction l as [|s l IH]; [done|]. transitivity (s :: by_rank l); [|by rewrite IH].
  unfold by_rank, of_rank. rewrite !filter_cons. pose proof (rank_range s).
  repeat case_decide; try lia; cbn [app];
    rewrite ?app_assoc, <- ?Permutation_middle; by rewrite ?app_assoc.
Qed.

Lemma concat_perm {A B} (f : A -> list B) l l' : l ≡ₚ l' -> concat (f <$> l) ≡ₚ concat (f <$> l').
Proof.
  induction 1 as [|x l l' _ IH|x y l|l l' l'' _ IH1 _ IH2]; cbn [fmap list_fmap concat].
  - done.
  - by rewrite IH.
  - by rewrite !app_assoc, (Permutation_app_comm (f y)).
  - by rewrite IH1.
Qed.

Lemma room_all_perm cs l l' : l ≡ₚ l' -> room_all cs l = room_all cs l'.
Proof.
  induction 1 as [|x l l' _ IH|x y l|l l' l'' _ IH1 _ IH2]; cbn [room_all foldr] in *; try done.
  - unfold room_all in *. lia.
  - lia.
  - congruence.
Qed.

Lemma linkable_sorted cs l : linkable cs l -> linkable cs (sort_sections l).
Proof.
  intros [H1 H2 H3 H4 H5]. rewrite sort_sections_by_rank.
  pose proof (by_rank_perm l) as Hp. split.
  - by rewrite (concat_perm _ _ _ Hp).
  - by rewrite Hp.
  - by rewrite Hp.
  - by rewrite Hp.
  - by rewrite (room_all_perm _ _ _ Hp).
Qed.

(** ** The room of the sections *)

Lemma room_for_nonneg cs ids :
  Forall (fun ci => exists c, chunk_at cs ci = Some c /\ chunk_ok c /\ data_ok c) ids ->
  0 <= room_for cs ids.
Proof.
  induction 1 as [|ci ids (c & Hc & [Ha Hs] & _) _ IH]; cbn [room_for foldr]; [done|].
  rewrite Hc. fold (room_for cs ids). apply pow2_pos in Ha. lia.
Qed.

Lemma room_bound cs l :
  Forall (fun s => Forall (fun ci => exists c, chunk_at cs ci = Some c /\ chunk_ok c /\ data_ok c)
                     (chunk_ids s)) l ->
  Forall (fun s => pow2 (o_align s) /\ (o_align s | BASE_ADDR)) l ->
  0 <= room_all cs l /\ Forall (fun s => room_for cs (chunk_ids s) <= room_all cs l) l.
Proof.
  induction 1 as [|s l Hs Hl IH]; intros Ha; [split; [done | constructor]|].
  apply Forall_cons in Ha as [[Ha _] Ha']. destruct (IH Ha') as [IH1 IH2].
  apply pow2_pos in Ha. pose proof (room_for_nonneg _ _ Hs). cbn [room_all foldr].
  fold (room_all cs l). split; [lia|]. constructor; [lia|].
  eapply Forall_impl; [exact IH2|]. cbn. intros; lia.
Qed.

(** ** Addresses keep what the layout has set *)

Lemma assign_place l fc vc :
  Forall2 (fun s s' => s' = set_place (o_vaddr s') (o_foff s') s) l
    (assign_addresses fc vc l).1.1.
Proof.
  revert fc vc. induction l as [|s l IH]; intros fc vc; cbn [assign_addresses]; [constructor|].
  match goal with |- context [assign_addresses ?a ?b l] => specialize (IH a b) end.
  destruct (assign_addresses _ _ l) as [[l' fc'] vc']. by constructor.
Qed.

(** The sections after [layout_sections]: sizes that fit the room. *)
Lemma sized_sections cs cs' l l' :
  Forall (fun s => pow2 (o_align s) /\ (o_align s | BASE_ADDR)) l ->
  Forall2 (fun s s' => s' = set_sizes (o_size s') s /\
             placed cs' (chunk_ids s) 0 (o_size s') /\
             0 <= o_size s' <= room_for cs (chunk_ids s)) l l' ->
  Forall section_ok l' /\ room_sections l' <= room_all cs l /\
  Forall (fun s => placed cs' (chunk_ids s) 0 (o_size s)) l'.
Proof.
  intros Ha H. induction H as [|s s' l l' (E & Hp & Hs) H IH].
  { split_and!; [constructor | cbn; lia | constructor]. }
  apply Forall_cons in Ha as [[Ha1 Ha2] Ha]. destruct (IH Ha) as (IH1 & IH2 & IH3).
  assert (o_align s' = o_align s) as Eal by (by rewrite E).
  assert (chunk_ids s' = chunk_ids s) as Eid by (by rewrite E).
  split_and!.
  - constructor; [|done]. split_and!; [by rewrite Eal | by rewrite Eal | lia | by rewrite E].
  - cbn [room_sections foldr room_all]. fold (room_sections l'). fold (room_all cs l). lia.
  - constructor; [by rewrite Eid | done].
Qed.

Lemma data_ok_offsets cs cs' l l' :
  same_but_offsets cs cs' ->
  Forall2 (fun s s' => chunk_ids s' = chunk_ids s) l l' ->
  Forall (fun s => Forall (fun ci => exists c, chunk_at cs ci = Some c /\
                             chunk_ok c /\ data_ok c) (chunk_ids s)) l ->
  Forall (fun s => Forall (fun ci => exists c, chunk_at cs' ci = Some c /\ data_ok c)
                     (chunk_ids s)) l'.
Proof.
  intros [_ Hsame] H2 Hl. apply (Forall2_transfer _ _ _ _ _ H2 Hl). intros s s' -> Hs.
  eapply Forall_impl; [exact Hs|]. intros ci (c & Hc & _ & Hd).
  destruct (Hsame ci c Hc) as (c' & Hc' & E). exists c'. split; [done|]. by rewrite E.
Qed.

(** A section and the same section with its sizes and its place. *)
Definition same_section (s s' : OutputSection) : Prop :=
  o_name s' = o_name s /\ chunk_ids s' = chunk_ids s /\ o_align s' = o_align s /\
  is_bss s' = is_bss s.

Lemma placed_section l l1 l2 (P : OutputSection -> OutputSection -> Prop) :
  Forall2 (fun s s' => s' = set_sizes (o_size s') s /\ P s s') l l1 ->
  Forall2 (fun s s' => s' = set_place (o_vaddr s') (o_foff s') s) l1 l2 ->
  Forall2 same_section l l2.
Proof.
  intros H. revert l2. induction H as [|s s1 l l1 [E _] _ IH]; intros l2 H2;
    inversion_clear H2 as [|? s2 ? ? E2 H2']; constructor; [|by apply IH].
  rewrite E2, E. by repeat split.
Qed.

(** The result of the layout of the sections [l]. *)
Record backend_ok (cs : list Chunk) (l : list OutputSection) (cs' : list Chunk)
    (l' : list OutputSection) (fc vc : Z) : Prop := {
  bk_chunks : same_but_offsets cs cs';
  bk_sections : Forall2 same_section (sort_sections l) l';
  bk_laid : laid_out cs' l' fc;
  bk_memory : in_memory l' (BASE_ADDR + 176) vc;
  bk_sizes : Forall (fun s => 0 <= o_size s) l';
  bk_end : BASE_ADDR + 176 <= BASE_ADDR + fc <= vc /\ vc < 2 ^ 64
}.

Lemma backend cs l :
  linkable cs l ->
  exists cs' l1 l2 fc vc,
    layout_sections cs (sort_sections l) = Ok (cs', l1) /\
    assign_addresses (align_up hdr_size 16) (u64 (BASE_ADDR + align_up hdr_size 16)) l1 =
      (l2, fc, vc) /\ backend_ok cs l cs' l2 fc vc.
Proof.
  intros Hlk. apply linkable_sorted in Hlk as Hs. destruct Hs as [H1 H2 H3 H4 H5].
  destruct (room_bound _ _ H2 H3) as [Hr0 Hr]. assert (BASE_ADDR = 4194304) as HB by done.
  destruct (layout_sections_spec (sort_sections l) cs H1) as (cs' & l1 & E1 & Hsame & _ & Hl1).
  { apply Forall_forall. intros s Hin. repeat match goal with
      H : Forall _ (sort_sections l) |- _ => eapply Forall_forall in H; [|exact Hin] end.
    split; [|lia]. eapply Forall_impl; [exact H2|]. intros ci (c & Hc & Hok & _). eauto. }
  destruct (sized_sections cs cs' _ _ H3 Hl1) as (Hok & Hroom & Hpl).
  assert (Forall2 (fun s s' => chunk_ids s' = chunk_ids s) (sort_sections l) l1) as Hids
    by (eapply Forall2_impl; [exact Hl1|intros s s' [E _]; by rewrite E]).
  pose proof (data_ok_offsets cs cs' _ _ Hsame Hids H2) as Hdat.
  destruct (by_rank_split l (lk_bss _ _ Hlk)) as (a & b & Eab & Ha & Hb & _).
  rewrite sort_sections_by_rank, Eab in Hl1.
  apply Forall2_app_inv_l in Hl1 as (a' & b' & Ha' & Hb' & ->).
  assert (Forall (fun s => is_bss s = false) a') as Hna.
  { apply (Forall2_transfer _ _ _ _ _ Ha' Ha). intros s s' [E _] Hs. cbn in *. by rewrite E. }
  assert (Forall (fun s => is_bss s = true) b') as Hnb.
  { apply (Forall2_transfer _ _ _ _ _ Hb' Hb). intros s s' [E _] Hs. cbn in *. by rewrite E. }
  rewrite room_sections_app in Hroom. apply Forall_app in Hok as [Hoka Hokb].
  pose proof (room_sections_nonneg _ Hoka). pose proof (room_sections_nonneg _ Hokb).
  destruct (assign_data a' 176 Hoka Hna) as (la & fc & Ea & Hfc & Hma & Hda); [lia | lia |].
  destruct (assign_bss b' fc (BASE_ADDR + fc) Hokb Hnb) as (lb & vc & Eb & Hvc & Hmb & Hdb);
    [lia | lia |].
  assert (assign_addresses (align_up hdr_size 16) (u64 (BASE_ADDR + align_up hdr_size 16))
            (a' ++ b') = (la ++ lb, fc, vc)) as E2.
  { change (align_up hdr_size 16) with 176. change (u64 (BASE_ADDR + 176)) with (BASE_ADDR + 176).
    rewrite assign_addresses_app, Ea, Eb. done. }
  pose proof (assign_place (a' ++ b') (align_up hdr_size 16) (u64 (BASE_ADDR + align_up hdr_size 16)))
    as Hplace. rewrite E2 in Hplace. cbn [fst] in Hplace.
  exists cs', (a' ++ b'), (la ++ lb), fc, vc.
  pose proof (in_memory_app _ _ _ _ _ Hma Hmb) as Hm.
  split; [by rewrite E1|]. split; [done|]. split; try done.
  - rewrite sort_sections_by_rank, Eab. eapply placed_section; [|exact Hplace].
    exact (Forall2_app Ha' Hb').
  - split; [exists la, lb; split_and!; [done | | | done] | |].
    + eapply Forall_impl; [exact Hda|]. by intros s (? & ? & _).
    + eapply Forall_impl; [exact Hdb|]. by intros s (? & _).
    + apply (Forall2_transfer _ _ _ _ _ Hplace Hpl). intros s s' E Hs. cbn in *. by rewrite E.
    + apply (Forall2_transfer _ _ _ _ _ Hplace Hdat). intros s s' E Hs. cbn in *. by rewrite E.
  - apply Forall_app. split; [eapply Forall_impl; [exact Hda|] | eapply Forall_impl; [exact Hdb|]];
      cbn; tauto.
  - split; lia.
Qed.
