(* ===== verification/LinkMerge.v ===== *)
(** * The linker: merging chunks by name

    The output sections that the loop of step 3 builds, against the grouping of
    the chunks by name that it stands for. *)

From S2P Require Import Prelude Bytes LinkElf LinkSections LinkRelocProofs LinkLayoutProofs LinkImageProofs.
From stdpp Require Import gmap list_relations list.
#[local] Open Scope Z_scope.

(** ** The specification *)

Definition named (name : list Z) (xs : list (Z * Chunk)) : list (Z * Chunk) :=
  filter (fun x => c_name x.2 = name) xs.

(** The names of the chunks in the order of their first occurrence. *)
Definition names (xs : list (Z * Chunk)) : list (list Z) :=
  foldl (fun ns x => if decide (c_name x.2 ∈ ns) then ns else ns ++ [c_name x.2]) [] xs.

Definition max_align (g : list (Z * Chunk)) : Z :=
  match g with
  | [] => 0
  | x :: g => foldl (fun a y => Z.max a (c_align y.2)) (c_align x.2) g
  end.

(** The section of a name: the flags of its first chunk, the largest alignment,
    bss if one of the chunks is, and all its chunks in order. *)
Definition osec_of (xs : list (Z * Chunk)) (name : list Z) : OutputSection :=
  let g := named name xs in
  mkOsec name (match g with x :: _ => c_flags x.2 | [] => 0 end) (max_align g) 0 0 0 0
    (existsb (fun x => c_type x.2 =? SHT_NOBITS) g) g.*1.

(** ** Names *)

Lemma names_snoc xs x :
  names (xs ++ [x]) =
  if decide (c_name x.2 ∈ names xs) then names xs else names xs ++ [c_name x.2].
Proof. unfold names. by rewrite foldl_app. Qed.

Lemma names_elem xs name : name ∈ names xs <-> exists x, x ∈ xs /\ c_name x.2 = name.
Proof.
  induction xs as [|x xs IH] using rev_ind.
  { split; [by intros ?%elem_of_nil | by intros (? & ?%elem_of_nil & _)]. }
  rewrite names_snoc. split.
  - intros H. assert (name ∈ names xs \/ name = c_name x.2) as [Hn| ->].
    { case_decide; [by left|]. by apply elem_of_app in H as [?| ->%list_elem_of_singleton]; auto. }
    + apply IH in Hn as (y & Hy & E). exists y. split; [by apply elem_of_app; left | done].
    + exists x. split; [apply elem_of_app; right; by left | done].
  - intros (y & Hy & E). apply elem_of_app in Hy as [Hy| ->%list_elem_of_singleton].
    + assert (name ∈ names xs) by (apply IH; eauto). case_decide; [done|]. by apply elem_of_app; left.
    + subst. case_decide; [done|]. apply elem_of_app. right. by left.
Qed.

Lemma names_nodup xs : NoDup (names xs).
Proof.
  induction xs as [|x xs IH] using rev_ind; [constructor|]. rewrite names_snoc. case_decide; [done|].
  apply NoDup_app. split_and!; [done | | apply NoDup_singleton].
  by intros n Hn ->%list_elem_of_singleton.
Qed.

Lemma named_snoc name xs x :
  named name (xs ++ [x]) = named name xs ++ (if decide (c_name x.2 = name) then [x] else []).
Proof. unfold named. by rewrite filter_app. Qed.

Lemma named_nil xs name : name ∉ names xs -> named name xs = [].
Proof.
  intros H. destruct (named name xs) as [|x g] eqn:E; [done|]. destruct H. apply names_elem.
  exists x. assert (x ∈ named name xs) as [? ?]%list_elem_of_filter by (rewrite E; by left). done.
Qed.

Lemma named_cons xs name : name ∈ names xs -> exists x g, named name xs = x :: g.
Proof.
  intros (x & Hx & E)%names_elem. destruct (named name xs) as [|y g] eqn:Eg; [|eauto].
  assert (x ∈ named name xs) as H by (by apply list_elem_of_filter). rewrite Eg in H.
  by apply elem_of_nil in H.
Qed.

(** ** The section of a name, with one more chunk *)

Lemma osec_of_other xs x name : c_name x.2 <> name -> osec_of (xs ++ [x]) name = osec_of xs name.
Proof. intros H. unfold osec_of. by rewrite named_snoc, decide_False, app_nil_r. Qed.

Lemma osec_of_first xs x :
  c_name x.2 ∉ names xs ->
  osec_of (xs ++ [x]) (c_name x.2) =
  add_chunk x.1 (c_type x.2 =? SHT_NOBITS)
    (new_osec (c_name x.2) (c_flags x.2) (c_align x.2) (c_type x.2 =? SHT_NOBITS)).
Proof.
  intros H. unfold osec_of. rewrite named_snoc, named_nil, decide_True by done.
  unfold add_chunk, new_osec. cbn. by destruct (c_type x.2 =? SHT_NOBITS).
Qed.

Lemma osec_of_next xs x :
  c_name x.2 ∈ names xs ->
  osec_of (xs ++ [x]) (c_name x.2) =
  add_chunk x.1 (c_type x.2 =? SHT_NOBITS) (raise_align (c_align x.2) (osec_of xs (c_name x.2))).
Proof.
  intros H. unfold osec_of. rewrite named_snoc, decide_True by done.
  destruct (named_cons _ _ H) as (y & g & ->). unfold add_chunk, raise_align, max_align. cbn [app].
  cbn [o_name o_flags o_align o_vaddr o_foff o_size o_filesz is_bss chunk_ids existsb].
  rewrite existsb_app, foldl_app, fmap_cons, fmap_cons, fmap_app. cbn [existsb foldl].
  f_equal. destruct (c_type x.2 =? SHT_NOBITS); by rewrite ?orb_true_r, ?orb_false_r.
Qed.

(** ** The loop *)

Record merged (xs : list (Z * Chunk)) (st : Osecs) : Prop := {
  mg_osecs : osecs st = osec_of xs <$> names xs;
  mg_map : forall name id,
    osec_map st !! name = Some id <-> exists i, id = Z.of_nat i /\ names xs !! i = Some name
}.

Lemma at_nat {A} (l : list A) i x : l !! i = Some x -> l.[Z.of_nat i] = Ok x.
Proof. intros H. apply at_index_lookup; [lia|]. by rewrite Nat2Z.id. Qed.

Lemma set_nat {A} (l : list A) i x y : l !! i = Some x -> l.[Z.of_nat i <- y] = Ok (<[i := y]> l).
Proof. intros H%lookup_lt_Some. rewrite set_index_ok by lia. by rewrite Nat2Z.id. Qed.

Lemma update_section xs x i :
  names xs !! i = Some (c_name x.2) ->
  <[i := osec_of (xs ++ [x]) (c_name x.2)]> (osec_of xs <$> names xs) =
  osec_of (xs ++ [x]) <$> names xs.
Proof.
  intros Hi. apply list_eq. intros j. destruct (decide (i = j)) as [<-|Hne].
  - rewrite list_lookup_insert_eq by (rewrite length_fmap; by eapply lookup_lt_Some).
    by rewrite list_lookup_fmap, Hi.
  - rewrite list_lookup_insert_ne, !list_lookup_fmap by done.
    destruct (names xs !! j) as [n|] eqn:Ej; [|done]. cbn. f_equal. symmetry. apply osec_of_other.
    intros <-. destruct Hne. by eapply NoDup_lookup; [apply names_nodup|..].
Qed.

Lemma index_new (m : gmap (list Z) Z) (ns : list (list Z)) new :
  new ∉ ns ->
  (forall name id, m !! name = Some id <-> exists i, id = Z.of_nat i /\ ns !! i = Some name) ->
  forall name id, <[new := Z.of_nat (length ns)]> m !! name = Some id <->
    exists i, id = Z.of_nat i /\ (ns ++ [new]) !! i = Some name.
Proof.
  intros Hin Hm name id. rewrite lookup_insert. case_decide as E.
  - subst name. split.
    + intros [= <-]. exists (length ns). split; [done|]. by apply list_lookup_middle.
    + intros (i & -> & Hi). apply lookup_app_Some in Hi as [Hi|[Hi1 Hi2]].
      * destruct Hin. by eapply list_elem_of_lookup_2.
      * apply list_lookup_singleton_Some in Hi2 as [? _]. f_equal. lia.
  - rewrite Hm. split; intros (i & -> & Hi); exists i; (split; [done|]).
    + by apply lookup_app_l_Some.
    + apply lookup_app_Some in Hi as [?|[_ Hi]]; [done|].
      by apply list_lookup_singleton_Some in Hi as [_ ?].
Qed.

Lemma place_chunk_spec xs st x :
  merged xs st -> exists st', place_chunk st x = Ok st' /\ merged (xs ++ [x]) st'.
Proof.
  intros [Ho Hm].
  assert (place_chunk st x =
    ('(st, id) ← get_or_create st (c_name x.2) (c_flags x.2) (c_align x.2)
                   (c_type x.2 =? SHT_NOBITS);
     s ← (osecs st).[id];
     l ← (osecs st).[id <- add_chunk x.1 (c_type x.2 =? SHT_NOBITS) s];
     Ok (mkOsecs l (osec_map st)))) as -> by (by destruct x).
  unfold get_or_create.
  destruct (osec_map st !! c_name x.2) as [id|] eqn:Eid.
  - apply Hm in Eid as (i & -> & Hi).
    assert (c_name x.2 ∈ names xs) as Hin by (by eapply list_elem_of_lookup_2).
    assert (osecs st !! i = Some (osec_of xs (c_name x.2))) as Hs
      by (by rewrite Ho, list_lookup_fmap, Hi).
    rewrite (at_nat _ _ _ Hs), bind_ok, (set_nat _ _ _ _ Hs), !bind_ok. cbn [osecs osec_map].
    assert (forall s, <[i := s]> (osecs st) !! i = Some s) as Hi2
      by (intros s; apply list_lookup_insert_eq; by eapply lookup_lt_Some).
    rewrite (at_nat _ _ _ (Hi2 _)), bind_ok, (set_nat _ _ _ _ (Hi2 _)), bind_ok, list_insert_insert_eq.
    eexists. split; [reflexivity|]. split; cbn [osecs osec_map]; rewrite names_snoc, decide_True by done.
    + by rewrite <- (update_section _ _ _ Hi), (osec_of_next _ _ Hin), Ho.
    + exact Hm.
  - assert (c_name x.2 ∉ names xs) as Hin.
    { intros [i Hi]%list_elem_of_lookup_1. assert (osec_map st !! c_name x.2 = Some (Z.of_nat i))
        by (apply Hm; eauto). congruence. }
    rewrite bind_ok. cbn [osecs osec_map].
    assert (forall s, (osecs st ++ [s]) !! length (osecs st) = Some s) as Hl
      by (intros s; by apply list_lookup_middle).
    rewrite (at_nat _ _ _ (Hl _)), bind_ok, (set_nat _ _ _ _ (Hl _)), bind_ok.
    eexists. split; [reflexivity|]. split; cbn [osecs osec_map]; rewrite names_snoc, decide_False by done.
    + rewrite insert_app_r_alt, Nat.sub_diag, fmap_app by done. cbn [list_insert insert fmap list_fmap].
      rewrite (osec_of_first _ _ Hin), Ho. f_equal. apply list_fmap_ext. intros j n Hj. symmetry.
      apply osec_of_other. intros <-. apply Hin. by eapply list_elem_of_lookup_2.
    + rewrite Ho, length_fmap. by apply index_new.
Qed.

Lemma merge_loop xs ys st :
  merged xs st -> exists st', foldR place_chunk st ys = Ok st' /\ merged (xs ++ ys) st'.
Proof.
  revert xs st. induction ys as [|y ys IH]; intros xs st H; cbn [foldR].
  { exists st. by rewrite app_nil_r. }
  destruct (place_chunk_spec xs st y H) as (st1 & -> & H1). rewrite bind_ok.
  rewrite cons_middle, app_assoc. by apply IH.
Qed.

Lemma merge_chunks_spec cs :
  exists st, merge_chunks cs = Ok st /\ merged (indexed cs) st.
Proof.
  apply (merge_loop [] (indexed cs)). split; [done|]. intros name id. cbn.
  rewrite lookup_empty. split; [done|]. by intros (? & _ & ?).
Qed.

(** ** What merging gives to the layout *)

Lemma filter_or {A} (P Q : A -> Prop) `{!forall x, Decision (P x), !forall x, Decision (Q x)} l :
  (forall x, P x -> ~ Q x) ->
  filter P l ++ filter Q l ≡ₚ filter (fun x => P x \/ Q x) l.
Proof.
  intros Hpq. induction l as [|x l IH]; [done|]. rewrite !filter_cons.
  specialize (Hpq x). repeat case_decide; try tauto; cbn [app].
  - by rewrite IH.
  - by rewrite <- Permutation_middle, IH.
Qed.

Lemma filter_all {A} (P : A -> Prop) `{!forall x, Decision (P x)} l :
  Forall P l -> filter P l = l.
Proof. induction 1 as [|x l Hx _ IH]; [done|]. by rewrite filter_cons_True, IH. Qed.

Lemma groups_perm xs ns :
  NoDup ns -> concat ((fun n => named n xs) <$> ns) ≡ₚ filter (fun x => c_name x.2 ∈ ns) xs.
Proof.
  induction 1 as [|n ns Hn _ IH]; cbn [fmap list_fmap concat].
  - induction xs as [|x xs IH]; [done|]. rewrite filter_cons, decide_False; [done|].
    apply not_elem_of_nil.
  - rewrite IH. unfold named. rewrite filter_or by (by intros x <-).
    apply reflexive_eq, list_filter_iff. intros x. by rewrite elem_of_cons.
Qed.

Lemma groups_all xs : concat ((fun n => named n xs) <$> names xs) ≡ₚ xs.
Proof.
  rewrite groups_perm by apply names_nodup. apply reflexive_eq, filter_all.
  apply Forall_forall. intros x Hx. apply names_elem. eauto.
Qed.

Lemma indexed_elem {A} (l : list A) i x :
  (i, x) ∈ indexed l <-> 0 <= i /\ l !! Z.to_nat i = Some x.
Proof.
  unfold indexed. rewrite list_elem_of_lookup. split.
  - intros [k Hk]. apply lookup_zip_Some in Hk as [H1 H2]. apply lookup_seqZ in H1 as [-> ?].
    split; [lia|]. by rewrite Z.add_0_l, Nat2Z.id.
  - intros [Hi Hx]. exists (Z.to_nat i). apply lookup_zip_Some. split; [|done].
    apply lookup_seqZ. apply lookup_lt_Some in Hx. lia.
Qed.

Lemma indexed_chunk cs ci c : (ci, c) ∈ indexed cs <-> chunk_at cs ci = Some c.
Proof.
  rewrite indexed_elem. unfold chunk_at. destruct (Z.leb_spec 0 ci); [|split; [lia|done]].
  split; [by intros []|done].
Qed.

Lemma indexed_fst {A} (l : list A) : (indexed l).*1 = seqZ 0 (Z.of_nat (length l)).
Proof. apply fst_zip. rewrite length_seqZ. lia. Qed.

Lemma indexed_snd {A} (l : list A) : (indexed l).*2 = l.
Proof. apply snd_zip. rewrite length_seqZ. lia. Qed.

Lemma max_align_elem g : g <> [] -> exists x, x ∈ g /\ max_align g = c_align x.2.
Proof.
  destruct g as [|x g]; [done|]. intros _. induction g as [|y g IH] using rev_ind.
  { exists x. split; [by left | done]. }
  unfold max_align in *. rewrite foldl_app. cbn [foldl].
  destruct (Z.max_spec (foldl (fun a y => Z.max a (c_align y.2)) (c_align x.2) g) (c_align y.2))
    as [[_ ->]|[_ ->]].
  - exists y. split; [|done]. right. apply elem_of_app. right. by left.
  - destruct IH as (z & Hz & E). exists z. split; [|done].
    rewrite app_comm_cons. apply elem_of_app. by left.
Qed.

Lemma max_align_ge g x : x ∈ g -> c_align x.2 <= max_align g.
Proof.
  destruct g as [|y g]; [by intros ?%elem_of_nil|]. induction g as [|z g IH] using rev_ind.
  { by intros ->%list_elem_of_singleton. }
  unfold max_align in *. rewrite app_comm_cons, foldl_app. cbn [foldl].
  intros [H| ->%list_elem_of_singleton]%elem_of_app; [apply IH in H|]; lia.
Qed.

(** ** The inputs the linker can lay out *)

(** The space the chunks can take, with their alignment and that of their section. *)
Definition space (cs : list Chunk) : Z :=
  foldr (fun c n => c_size c + 2 * c_align c + n) 0 cs.

Record inputs_ok (cs : list Chunk) : Prop := {
  in_chunks : Forall (fun c => chunk_ok c /\ (c_align c | BASE_ADDR)) cs;
  in_bss : forall c c', c ∈ cs -> c' ∈ cs -> c_type c = SHT_NOBITS -> c_name c' = c_name c ->
    Z.land (c_flags c') SHF_EXECINSTR = 0 /\ Z.land (c_flags c') SHF_WRITE <> 0;
  in_room : BASE_ADDR + 176 + space cs < 2 ^ 64
}.

Lemma space_app l1 l2 : space (l1 ++ l2) = space l1 + space l2.
Proof. induction l1 as [|c l1 IH]; [done|]. unfold space in *. cbn [app foldr]. lia. Qed.

Lemma space_perm l l' : l ≡ₚ l' -> space l = space l'.
Proof.
  induction 1 as [|x l l' _ IH|x y l|l l' l'' _ IH1 _ IH2]; unfold space in *; cbn [foldr]; lia.
Qed.

Lemma room_group cs g :
  Forall (fun x => chunk_at cs x.1 = Some x.2 /\ 0 < c_align x.2 /\ 0 <= c_size x.2) g ->
  room_for cs g.*1 + max_align g <= space g.*2.
Proof.
  intros H. assert (room_for cs g.*1 <= space g.*2 - foldr (fun x n => c_align x.2 + n) 0 g /\
    max_align g <= foldr (fun x n => c_align x.2 + n) 0 g) as [? ?]; [|lia].
  split.
  - induction H as [|x g (Hc & Ha & Hs) _ IH]; [done|].
    unfold room_for, space in *. cbn [fmap list_fmap foldr]. rewrite Hc. lia.
  - destruct (decide (g = [])) as [->|Hg]; [done|].
    destruct (max_align_elem g Hg) as (x & Hx & ->). clear Hg.
    assert (0 <= foldr (fun x n => c_align x.2 + n) 0 g /\
            c_align x.2 <= foldr (fun x n => c_align x.2 + n) 0 g) as [_ ?]; [|done].
    revert Hx. induction H as [|y g (Hc & Ha & Hs) H IH]; [by intros ?%elem_of_nil|].
    assert (0 <= foldr (fun x n => c_align x.2 + n) 0 g).
    { clear -H. induction H as [|y g (? & ? & ?) _ IH]; cbn [foldr]; lia. }
    cbn [foldr]. intros [->|Hx]%elem_of_cons; [lia|]. apply IH in Hx. lia.
Qed.

Section merged_inputs.
Context (cs : list Chunk) (Hin : inputs_ok cs) (Hdata : Forall data_ok cs).
Let xs := indexed cs.

Lemma group_elem n x :
  x ∈ named n xs ->
  chunk_at cs x.1 = Some x.2 /\ x.2 ∈ cs /\ c_name x.2 = n /\
  chunk_ok x.2 /\ data_ok x.2 /\ (c_align x.2 | BASE_ADDR).
Proof.
  intros [Hn Hx]%list_elem_of_filter. destruct x as [ci c]. cbn in *.
  assert (c ∈ cs) as Hcs.
  { rewrite <- (indexed_snd cs). by apply (list_elem_of_fmap_2 snd _ (ci, c)). }
  split; [by apply indexed_chunk|]. split; [done|]. split; [done|].
  pose proof (in_chunks _ Hin) as Hc. eapply Forall_forall in Hc as [? ?]; [|exact Hcs].
  by eapply Forall_forall in Hdata.
Qed.

Lemma merged_ids : concat (chunk_ids <$> (osec_of xs <$> names xs)) ≡ₚ xs.*1.
Proof.
  transitivity ((concat ((fun n => named n xs) <$> names xs)).*1); [|by rewrite groups_all].
  apply reflexive_eq. induction (names xs) as [|n ns IH]; [done|].
  cbn [fmap list_fmap concat]. rewrite fmap_app. f_equal. exact IH.
Qed.

Lemma merged_room ns :
  room_all cs (osec_of xs <$> ns) <= space (concat ((fun n => named n xs) <$> ns)).*2.
Proof.
  induction ns as [|n ns IH]; [done|]. cbn [fmap list_fmap concat room_all foldr] in *.
  rewrite fmap_app, space_app. change (chunk_ids (osec_of xs n)) with ((named n xs).*1).
  change (o_align (osec_of xs n)) with (max_align (named n xs)).
  assert (room_for cs (named n xs).*1 + max_align (named n xs) <= space (named n xs).*2);
    [|unfold room_all in IH; lia].
  apply room_group, Forall_forall. intros x (? & _ & _ & [Ha ?] & _)%group_elem.
  split; [done|]. split; [by apply pow2_pos | done].
Qed.

Lemma merged_bss n : n ∈ names xs -> is_bss (osec_of xs n) = true -> rank (osec_of xs n) = 3.
Proof.
  intros (y & g & E)%named_cons Hb. pose proof Hb as Hb'. cbn [osec_of is_bss] in Hb'.
  apply existsb_exists in Hb' as (x & (_ & Hx & Hxn & _)%list_elem_of_In%group_elem & Ht%Z.eqb_eq).
  assert (y ∈ named n xs) as (_ & Hy & Hyn & _)%group_elem by (rewrite E; by left).
  destruct (in_bss _ Hin x.2 y.2) as [H1 H2]; [done | done | done | congruence |].
  assert (o_flags (osec_of xs n) = c_flags y.2) as Hf by (cbn [osec_of o_flags]; by rewrite E).
  unfold rank. rewrite Hb, Hf, H1, (proj2 (Z.eqb_neq _ _) H2). done.
Qed.

Lemma merged_align n x : x ∈ named n xs -> c_align x.2 <= o_align (osec_of xs n).
Proof. apply max_align_ge. Qed.

Lemma linkable_merged : linkable cs (osec_of xs <$> names xs).
Proof.
  split.
  - rewrite merged_ids. unfold xs. rewrite indexed_fst. apply NoDup_seqZ.
  - apply Forall_fmap, Forall_forall. intros n _. apply Forall_fmap, Forall_forall.
    intros x (? & _ & _ & ? & ? & _)%group_elem. cbn. eauto.
  - apply Forall_fmap, Forall_forall. intros n (y & g & E)%named_cons.
    destruct (max_align_elem (named n xs)) as (x & Hx & Em); [by rewrite E|].
    apply group_elem in Hx as (_ & _ & _ & [? _] & _ & ?).
    unfold compose. cbn [osec_of o_align]. by rewrite Em.
  - apply Forall_fmap, Forall_forall. intros n Hn. exact (merged_bss n Hn).
  - pose proof (merged_room (names xs)) as Hr. pose proof (in_room _ Hin).
    rewrite (space_perm _ cs) in Hr; [lia|]. rewrite groups_all. unfold xs. by rewrite indexed_snd.
Qed.

Lemma erase_empty_merged :
  erase_empty (osec_of xs <$> names xs) = osec_of xs <$> names xs.
Proof.
  apply filter_all, Forall_fmap, Forall_forall. intros n (y & g & E)%named_cons. cbn. by rewrite E.
Qed.
End merged_inputs.
