(* ===== verification/LinkMain.v ===== *)
(** * The linker: the loops over the objects

    What the loops of steps 2, 5 and 6 give when they come to their end: the
    chunks hold the sections of the objects, the table of global symbols is that
    of all symbols, and relocations change nothing but data. *)

From S2P Require Import Prelude Bytes LinkElf LinkSections LinkSymbols LinkReloc LinkOutput.
From S2P Require Import LinkRelocProofs LinkLayoutProofs LinkImageProofs LinkSymProofs.
From stdpp Require Import gmap list_relations list.
From S2P Require Import LinkMerge.
#[local] Open Scope Z_scope.

(** ** Steps that succeed *)

Lemma lbind_inv {A B} (m : lres A) (f : A -> lres B) b :
  lbind m f = lret b -> exists a, m = lret a /\ f a = lret b.
Proof. destruct m as [[e|a]| |]; try done. eauto. Qed.

Lemma lift_inv {A} (m : res A) a : lift m = lret a -> m = Ok a.
Proof. destruct m; by intros [= ->]. Qed.

Lemma lret_inj {A} (a b : A) : lret a = lret b -> a = b.
Proof. by intros [= ->]. Qed.

Lemma foldM_inv {A B} (I : B -> Prop) (f : B -> A -> lres B) l b b' :
  (forall b a b', a ∈ l -> I b -> f b a = lret b' -> I b') ->
  I b -> foldM f b l = lret b' -> I b'.
Proof.
  revert b. induction l as [|a l IH]; intros b Hf Hb; cbn [foldM].
  { by intros <-%lret_inj. }
  intros (b1 & E1 & E2)%lbind_inv. eapply (IH b1); [|eapply Hf; [by left | done..]|done].
  intros b2 a2 b3 Ha. apply Hf. by right.
Qed.

Ltac linv :=
  repeat match goal with
  | H : lbind _ _ = lret _ |- _ => apply lbind_inv in H as (? & ? & ?)
  | H : lift _ = lret _ |- _ => apply lift_inv in H
  | H : lret _ = lret _ |- _ => apply lret_inj in H
  | H : lfail _ = lret _ |- _ => discriminate H
  | H : (_ ≫= _) = Ok _ |- _ => apply bind_ok_inv in H as (? & ? & ?)
  end.

(** ** Step 2: the chunks *)

(** The chunk [c] holds section [si] of the object [o]. *)
Definition holds (o : InputObject) (si : Z) (c : Chunk) : Prop :=
  exists sh, shdr o si = Ok (Some sh) /\ Z.land (sh_flags sh) SHF_ALLOC <> 0 /\
    is_alloc_section_type (sh_type sh) = true /\ sec_name o si = Ok (c_name c) /\
    section_data o si sh = Ok (c_data c) /\ c_size c = sh_size sh /\
    c_flags c = sh_flags sh /\ c_type c = sh_type sh /\
    c_align c = (if sh_addralign sh =? 0 then 1 else sh_addralign sh).

Record collected (objects : list InputObject) (st : Chunks) : Prop := {
  cl_chunks : Forall (fun c => exists o, (obj_idx c, o) ∈ indexed objects /\
                                         holds o (shdr_idx c) c) (chunks st);
  cl_map : forall oi si ci, sec2chunk st !! (oi, si) = Some ci ->
    exists c, chunk_at (chunks st) ci = Some c /\ obj_idx c = oi /\ shdr_idx c = si
}.

Lemma chunk_at_snoc cs c : chunk_at (cs ++ [c]) (Z.of_nat (length cs)) = Some c.
Proof.
  unfold chunk_at. rewrite (proj2 (Z.leb_le _ _)) by lia. rewrite Nat2Z.id. by apply list_lookup_middle.
Qed.

Lemma chunk_at_app_l cs ys ci c : chunk_at cs ci = Some c -> chunk_at (cs ++ ys) ci = Some c.
Proof. unfold chunk_at. destruct (0 <=? ci); [|done]. apply lookup_app_l_Some. Qed.

Lemma collect_section_inv objects oi o st si st' :
  (oi, o) ∈ indexed objects -> collected objects st ->
  collect_section oi o st si = lret st' -> collected objects st'.
Proof.
  intros Hin [H1 H2] E. unfold collect_section in E. linv.
  destruct x as [sh|]; [|by linv; subst].
  destruct (Z.eqb_spec (Z.land (sh_flags sh) SHF_ALLOC) 0); [by linv; subst|].
  destruct (is_alloc_section_type (sh_type sh)) eqn:Et; [|by cbn [negb] in *; linv; subst].
  cbn [negb] in *. linv. subst st'. split; cbn [chunks sec2chunk].
  - apply Forall_app. split; [done|]. apply Forall_singleton. exists o. split; [done|].
    exists sh. by split_and!.
  - intros oi' si' ci. rewrite lookup_insert. case_decide as Ek.
    + injection Ek as <- <-. intros [= <-]. rewrite chunk_at_snoc. eauto.
    + intros (c & Hc & ?)%H2. exists c. split; [by apply chunk_at_app_l | done].
Qed.

Lemma collect_chunks_inv objects st : collect_chunks objects = lret st -> collected objects st.
Proof.
  apply foldM_inv; [|split; cbn; [by apply Forall_nil | by intros ???; rewrite lookup_empty]].
  intros b [oi o] b' Hin Hb E. unfold collect_object in E. linv.
  eapply foldM_inv; [|exact Hb|done]. intros b1 si b2 _ ? ?. by eapply collect_section_inv.
Qed.

Lemma holds_data o si c : holds o si c -> 0 <= c_size c -> data_ok c.
Proof.
  intros (sh & _ & _ & _ & _ & Hd & Hs & _) Hc. split; [done|]. intros _. rewrite Hs in *.
  unfold section_data in Hd. destruct (sh_type sh =? SHT_NOBITS).
  - injection Hd as <-. rewrite length_replicate. lia.
  - apply bind_ok_inv in Hd as ([p|] & _ & Hd); [by eapply slice_length|].
    injection Hd as <-. rewrite length_replicate. lia.
Qed.

(** ** Step 6: relocations change nothing but data *)

Lemma relocate_length t S A P off data d :
  relocate t S A P off data = lret d -> length d = length data.
Proof.
  unfold relocate. intros H. repeat (case_match; try done); linv; subst; try done;
    by eapply write_bytes_length.
Qed.

Lemma same_but_data_refl cs : same_but_data cs cs.
Proof. intros ci c Hc. exists c. split; [done|]. by destruct c. Qed.

Lemma same_but_data_trans cs1 cs2 cs3 :
  same_but_data cs1 cs2 -> same_but_data cs2 cs3 -> same_but_data cs1 cs3.
Proof.
  intros H1 H2 ci c Hc. destruct (H1 ci c Hc) as (c2 & Hc2 & E2 & L2).
  destruct (H2 ci c2 Hc2) as (c3 & Hc3 & E3 & L3). exists c3. split; [done|].
  split; [|congruence]. rewrite E3, E2. done.
Qed.

Lemma reloc_step_inv syms o rels ci va cs ri cs' :
  reloc_step syms o rels ci va cs ri = lret cs' -> same_but_data cs cs'.
Proof.
  unfold reloc_step. intros H. linv. destruct (_ || _); [done|]. linv.
  match goal with H : relocate _ _ _ _ _ _ = _ |- _ => apply relocate_length in H end.
  match goal with H : cs.[ci] = Ok _ |- _ => apply chunk_at_index in H as Hc end.
  erewrite set_chunk in * by exact Hc.
  match goal with H : Ok _ = Ok cs' |- _ => injection H as <- end.
  intros cj c Hj. rewrite chunk_at_insert by eauto. case_decide as E.
  - subst cj. rewrite Hc in Hj. injection Hj as ->. eexists. split; [done|]. by split.
  - exists c. split; [done|]. by destruct c.
Qed.

Lemma apply_relocations_inv L syms objects cs :
  apply_relocations L syms objects = lret cs -> same_but_data (l_chunks L) cs.
Proof.
  unfold apply_relocations.
  apply (foldM_inv (same_but_data (l_chunks L))); [|apply same_but_data_refl].
  intros b [oi o] b' _ Hb E. unfold reloc_object in E. linv.
  eapply (foldM_inv (same_but_data (l_chunks L))); [|exact Hb|done].
  intros b1 si b2 _ Hb1 E1. unfold reloc_section in E1. linv.
  repeat (case_match; linv; subst; try done).
  eapply (foldM_inv (same_but_data (l_chunks L))); [|exact Hb1|done].
  intros b3 ri b4 _ Hb3 E3. eapply same_but_data_trans; [exact Hb3|]. by eapply reloc_step_inv.
Qed.

(** ** Step 5: the table of global symbols is that of all symbols *)

Lemma register_more infos g x g' :
  registered infos (lret g) -> register g x = lret g' -> registered (infos ++ [x]) (lret g').
Proof. intros H E. rewrite <- E. by apply registered_step. Qed.

Lemma symbol_loop L oi o strtab symtab prev m : forall acc g syms' g',
  foldM (symbol_step L oi o strtab symtab) (acc ++ replicate m SymInfo0, g)
    (seqZ (Z.of_nat (length acc)) (Z.of_nat m)) = lret (syms', g') ->
  registered (prev ++ acc) (lret g) ->
  registered (prev ++ syms') (lret g').
Proof.
  induction m as [|m IH]; intros acc g syms' g' E Hr.
  { cbn [replicate] in E. rewrite app_nil_r in E. injection E as <- <-. done. }
  rewrite seqZ_cons in E by lia. cbn [foldM replicate] in E.
  apply lbind_inv in E as ([syms1 g1] & E1 & E2). unfold symbol_step in E1. linv. simplify_eq.
  match goal with H : set_index _ _ _ = Ok _ |- _ => apply set_index_inv in H as [_ ->] end.
  rewrite Nat2Z.id, insert_app_r_alt, Nat.sub_diag in E2 by done. cbn [insert list_insert] in E2.
  eapply (IH (acc ++ [_])).
  - rewrite length_app. cbn [length]. rewrite <- app_assoc. cbn [app].
    replace (Z.of_nat (length acc + 1)) with (Z.succ (Z.of_nat (length acc))) by lia.
    replace (Z.of_nat m) with (Z.pred (Z.of_nat (S m))) by lia. exact E2.
  - rewrite app_assoc. by eapply register_more.
Qed.

Lemma object_symbols_inv L g oi o prev syms g' :
  registered prev (lret g) -> object_symbols L g oi o = lret (syms, g') ->
  registered (prev ++ syms) (lret g').
Proof.
  intros Hr E. unfold object_symbols in E. linv.
  repeat (case_match; linv; simplify_eq; rewrite ?app_nil_r; try done).
  match goal with H : foldM _ _ (seqZ 0 ?n) = _ |- _ =>
    eapply (symbol_loop L oi o _ _ prev (Z.to_nat n) [] g) end.
  - cbn [app length]. rewrite Z2Nat.id by lia. done.
  - by rewrite app_nil_r.
Qed.

Lemma all_symbols_inv L objects syms g :
  foldM (all_symbols_step L) ([], ∅) (indexed objects) = lret (syms, g) ->
  registered (concat syms) (lret g).
Proof.
  intros E. refine (foldM_inv (fun st => registered (concat st.1) (lret st.2)) _ _ _ _ _ _ E).
  - intros [syms1 g1] [oi o] [syms2 g2] _ Hr Es. cbn [fst snd] in *. unfold all_symbols_step in Es.
    apply lbind_inv in Es as ([s g3] & E1 & E2). linv. simplify_eq.
    rewrite concat_app. cbn [concat]. rewrite app_nil_r. by eapply object_symbols_inv.
  - split; intros n; cbn; [exact (lookup_empty n) | lia].
Qed.

(** * The linker: the layout of an input, from end to end *)
#[local] Open Scope Z_scope.

(** ** Steps 2 to 4 *)

Lemma collected_data objects st :
  collected objects st -> inputs_ok (chunks st) -> Forall data_ok (chunks st).
Proof.
  intros [Hc _] [Hi _ _]. apply Forall_forall. intros c Hin.
  eapply Forall_forall in Hc as (o & _ & Hh); [|exact Hin].
  eapply Forall_forall in Hi as [[_ ?] _]; [|exact Hin]. by eapply holds_data.
Qed.

(** What the layout of the chunks [cs] promises. *)
Record well_laid (cs : list Chunk) (L : Layout) : Prop := {
  wl_chunks : same_but_offsets cs (l_chunks L);
  wl_laid : laid_out (l_chunks L) (l_osecs L) (total_filesz L);
  wl_memory : in_memory (l_osecs L) (BASE_ADDR + 176) (BASE_ADDR + total_memsz L);
  wl_sizes : Forall (fun s => 0 <= o_size s) (l_osecs L);
  wl_filesz : 176 <= total_filesz L <= total_memsz L;
  wl_end : BASE_ADDR + total_memsz L < 2 ^ 64;
  wl_section : forall ci c, chunk_at cs ci = Some c ->
    exists s, s ∈ l_osecs L /\ ci ∈ chunk_ids s /\ o_name s = c_name c /\
              (c_align c | o_align s) /\
              (is_bss s = true -> exists c', c' ∈ cs /\ c_name c' = c_name c /\ c_type c' = SHT_NOBITS)
}.

Lemma pow2_divide a b : pow2 a -> pow2 b -> a <= b -> (a | b).
Proof.
  intros (i & Hi & ->) (j & Hj & ->) Hle. apply Z.pow_le_mono_r_iff in Hle; [|lia..].
  exists (2 ^ (j - i)). rewrite <- Z.pow_add_r by lia. f_equal. lia.
Qed.

Lemma same_section_elem l l' s :
  Forall2 same_section l l' -> s ∈ l -> exists s', s' ∈ l' /\ same_section s s'.
Proof.
  intros H [i Hi]%list_elem_of_lookup_1. destruct (Forall2_lookup_l _ _ _ _ _ H Hi) as (s' & ? & ?).
  exists s'. split; [by eapply list_elem_of_lookup_2 | done].
Qed.

Lemma chunk_section cs l' ci c :
  inputs_ok cs -> Forall data_ok cs ->
  Forall2 same_section (sort_sections (osec_of (indexed cs) <$> names (indexed cs))) l' ->
  chunk_at cs ci = Some c ->
  exists s, s ∈ l' /\ ci ∈ chunk_ids s /\ o_name s = c_name c /\ (c_align c | o_align s) /\
    (is_bss s = true -> exists c', c' ∈ cs /\ c_name c' = c_name c /\ c_type c' = SHT_NOBITS).
Proof.
  intros Hin Hd H2 Hc%indexed_chunk. set (xs := indexed cs) in *.
  assert ((ci, c) ∈ named (c_name c) xs) as Hg by (by apply list_elem_of_filter).
  assert (c_name c ∈ names xs) as Hn by (apply names_elem; eauto).
  destruct (same_section_elem _ _ (osec_of xs (c_name c)) H2) as (s' & Hs' & En & Ei & Ea & Eb).
  { rewrite sort_sections_by_rank, by_rank_perm. by apply list_elem_of_fmap_2. }
  exists s'. split; [done|]. split; [rewrite Ei; by apply (list_elem_of_fmap_2 fst _ (ci, c))|].
  split; [by rewrite En|]. split.
  - destruct (group_elem cs Hin Hd _ _ Hg) as (_ & _ & _ & [Hp _] & _).
    pose proof (lk_align _ _ (linkable_merged cs Hin Hd)) as Hal.
    eapply Forall_fmap, Forall_forall in Hal as [Hps _]; [|exact Hn].
    rewrite Ea. apply pow2_divide; [done | done | by apply (max_align_ge _ (ci, c))].
  - rewrite Eb. cbn [osec_of is_bss].
    intros (x & (_ & Hx & En' & _)%list_elem_of_In%(group_elem cs Hin Hd) & Ht%Z.eqb_eq)%existsb_exists.
    eauto.
Qed.

Lemma make_layout_spec objects st :
  collect_chunks objects = lret st -> inputs_ok (chunks st) ->
  exists L, make_layout objects = lret L /\ well_laid (chunks st) L.
Proof.
  intros Hst Hin. pose proof (collect_chunks_inv _ _ Hst) as Hcl.
  pose proof (collected_data _ _ Hcl Hin) as Hd.
  destruct (merge_chunks_spec (chunks st)) as (m & Em & [Eo _]).
  pose proof (linkable_merged _ Hin Hd) as Hlk.
  destruct (backend _ _ Hlk) as (cs' & l1 & l2 & fc & vc & El & Ea & Hb).
  destruct Hb as [H1 H2 H3 H4 H5 [H6 H7]].
  exists (mkLayout cs' (sec2chunk st) l2 (build_map l2) fc (u64 (vc - BASE_ADDR))). split.
  - unfold make_layout. rewrite Hst. cbn [lbind lret]. rewrite Em. cbn [lbind lift].
    rewrite Eo, erase_empty_merged, El. cbn [lbind lift]. by rewrite Ea.
  - assert (u64 (vc - BASE_ADDR) = vc - BASE_ADDR) as E.
    { assert (BASE_ADDR = 4194304) by done. apply uwrap_id. lia. }
    split; cbn [l_chunks l_osecs total_filesz total_memsz]; rewrite ?E; try done; try lia.
    + by replace (BASE_ADDR + (vc - BASE_ADDR)) with vc by lia.
    + intros ci c Hc. by apply (chunk_section (chunks st)).
Qed.

(** ** Addresses *)

(** The chunk [ci] has the [n] bytes from address [a] on. *)
Definition at_address (L : Layout) (ci a n : Z) : Prop :=
  exists s c, s ∈ l_osecs L /\ ci ∈ chunk_ids s /\ chunk_at (l_chunks L) ci = Some c /\
    a = o_vaddr s + offset_in_osec c /\ n = c_size c.

Section addresses.
Context (cs : list Chunk) (L : Layout) (HL : well_laid cs L).

Lemma chunk_sizes s : s ∈ l_osecs L ->
  placed (l_chunks L) (chunk_ids s) 0 (o_size s) /\
  Forall (fun ci => forall c, chunk_at (l_chunks L) ci = Some c -> 0 <= c_size c) (chunk_ids s).
Proof.
  intros Hs. destruct (wl_laid _ _ HL) as [_ Hp Hd].
  eapply Forall_forall in Hp; [|exact Hs]. eapply Forall_forall in Hd; [|exact Hs]. split; [done|].
  eapply Forall_impl; [exact Hd|]. intros ci (c & Hc & [? _]) c' Hc'. congruence.
Qed.

Lemma chunk_place s p ci c :
  s ∈ l_osecs L -> chunk_ids s !! p = Some ci -> chunk_at (l_chunks L) ci = Some c ->
  0 <= offset_in_osec c /\ (c_align c | offset_in_osec c) /\
  offset_in_osec c + c_size c <= o_size s /\
  forall q cj d, (p < q)%nat -> chunk_ids s !! q = Some cj -> chunk_at (l_chunks L) cj = Some d ->
    offset_in_osec c + c_size c <= offset_in_osec d.
Proof.
  intros Hs Hp Hc. destruct (chunk_sizes s Hs) as [Hpl Hsz].
  destruct (placed_lookup _ _ _ _ _ _ Hsz Hpl Hp) as (c' & Hc' & Ho & Ha & Hrest).
  rewrite Hc in Hc'. injection Hc' as <-. pose proof (Forall_drop _ (S p) _ Hsz) as Hsz'.
  split_and!; [done | done | by apply placed_end in Hrest|].
  intros q cj d Hq Hj Hd.
  destruct (placed_lookup _ _ _ _ (q - S p) cj Hsz' Hrest) as (d' & Hd' & Hod & _).
  { rewrite lookup_drop. by replace (S p + (q - S p))%nat with q by lia. }
  congruence.
Qed.

Lemma section_place i s :
  l_osecs L !! i = Some s ->
  BASE_ADDR + 176 <= o_vaddr s /\ (o_align s | o_vaddr s) /\ 0 <= o_size s /\
  o_vaddr s + o_size s <= BASE_ADDR + total_memsz L /\
  forall j t, (i < j)%nat -> l_osecs L !! j = Some t -> o_vaddr s + o_size s <= o_vaddr t.
Proof.
  intros Hi. pose proof (wl_sizes _ _ HL) as Hsz. pose proof (wl_memory _ _ HL) as Hm.
  destruct (in_memory_lookup _ _ _ _ _ Hsz Hm Hi) as (Ha & Hv & Hrest).
  pose proof (Forall_drop _ (S i) _ Hsz) as Hsz'.
  split_and!; [done | done | | by apply in_memory_end in Hrest|].
  { eapply Forall_forall in Hsz; [done | by eapply list_elem_of_lookup_2]. }
  intros j t Hj Ht.
  destruct (in_memory_lookup _ _ _ (j - S i) t Hsz' Hrest) as (_ & ? & _); [|done].
  rewrite lookup_drop. by replace (S i + (j - S i))%nat with j by lia.
Qed.

Lemma address_range ci a n :
  at_address L ci a n ->
  BASE_ADDR + 176 <= a /\ 0 <= n /\ a + n <= BASE_ADDR + total_memsz L.
Proof.
  intros (s & c & [i Hi]%list_elem_of_lookup_1 & [p Hp]%list_elem_of_lookup_1 & Hc & -> & ->).
  pose proof (list_elem_of_lookup_2 _ _ _ Hi) as Hs.
  destruct (section_place i s Hi) as (? & _ & _ & ? & _).
  destruct (chunk_place s p ci c Hs Hp Hc) as (? & _ & ? & _).
  destruct (chunk_sizes s Hs) as [_ Hsz]. eapply Forall_lookup_1 in Hsz; [|exact Hp].
  specialize (Hsz c Hc). lia.
Qed.

Lemma address_disjoint ci cj a b n m :
  ci <> cj -> at_address L ci a n -> at_address L cj b m -> a + n <= b \/ b + m <= a.
Proof.
  intros Hne (s & c & [i Hi]%list_elem_of_lookup_1 & [p Hp]%list_elem_of_lookup_1 & Hc & -> & ->)
    (t & d & [j Hj]%list_elem_of_lookup_1 & [q Hq]%list_elem_of_lookup_1 & Hd & -> & ->).
  destruct (chunk_place s p ci c) as (? & _ & ? & Hpc); [by eapply list_elem_of_lookup_2 | done..|].
  destruct (chunk_place t q cj d) as (? & _ & ? & Hqd); [by eapply list_elem_of_lookup_2 | done..|].
  destruct (section_place i s Hi) as (_ & _ & _ & _ & Hsi).
  destruct (section_place j t Hj) as (_ & _ & _ & _ & Hsj).
  destruct (Nat.lt_trichotomy i j) as [Hij|[<-|Hij]].
  - specialize (Hsi j t Hij Hj). lia.
  - rewrite Hi in Hj. injection Hj as <-. destruct (Nat.lt_trichotomy p q) as [Hpq|[<-|Hpq]].
    + specialize (Hpc q cj d Hpq Hq Hd). lia.
    + congruence.
    + specialize (Hqd p ci c Hpq Hp Hc). lia.
  - specialize (Hsj i s Hij Hi). lia.
Qed.

(** Every chunk has an address, a multiple of its alignment. *)
Lemma address_exists ci c :
  chunk_at cs ci = Some c ->
  exists a, at_address L ci a (c_size c) /\ (c_align c | a) /\
    exists s d, s ∈ l_osecs L /\ ci ∈ chunk_ids s /\ chunk_at (l_chunks L) ci = Some d /\
      a = o_vaddr s + offset_in_osec d.
Proof.
  intros Hc. destruct (wl_section _ _ HL ci c Hc) as (s & Hs & Hci & _ & Ha & _).
  destruct (wl_chunks _ _ HL) as [_ Hsame]. destruct (Hsame ci c Hc) as (d & Hd & E).
  exists (o_vaddr s + offset_in_osec d). split_and!.
  - exists s, d. split_and!; [done.. | by rewrite E].
  - pose proof Hs as [i Hi]%list_elem_of_lookup_1. pose proof Hci as [p Hp]%list_elem_of_lookup_1.
    destruct (section_place i s Hi) as (_ & Hva & _).
    destruct (chunk_place s p ci d Hs Hp Hd) as (_ & Hoa & _). rewrite E in Hoa at 1.
    apply Z.divide_add_r; [by apply (Z.divide_trans _ (o_align s)) | done].
  - by exists s, d.
Qed.
End addresses.

(** ** The image *)

Lemma image_chunk cs L cs' out ci c :
  well_laid cs L -> same_but_data (l_chunks L) cs' ->
  (forall s ci c, s ∈ l_osecs L -> is_bss s = false -> ci ∈ chunk_ids s ->
     chunk_at cs' ci = Some c -> c_type c <> SHT_NOBITS ->
     o_vaddr s = BASE_ADDR + o_foff s /\
     slice out (o_vaddr s + offset_in_osec c - BASE_ADDR) (Z.of_nat (length (c_data c)))
       = Ok (c_data c)) ->
  chunk_at cs ci = Some c ->
  (forall c', c' ∈ cs -> c_name c' = c_name c -> c_type c' <> SHT_NOBITS) ->
  exists a c', at_address L ci a (c_size c) /\ chunk_at cs' ci = Some c' /\
    obj_idx c' = obj_idx c /\ shdr_idx c' = shdr_idx c /\
    slice out (a - BASE_ADDR) (c_size c) = Ok (c_data c').
Proof.
  intros HL Hd Hall Hc Hty. destruct (wl_section _ _ HL ci c Hc) as (s & Hs & Hci & _ & _ & Hb).
  destruct (wl_chunks _ _ HL) as [_ Hsame]. destruct (Hsame ci c Hc) as (d & Hcd & E).
  destruct (Hd ci d Hcd) as (e & Hce & E' & Hlen).
  assert (is_bss s = false) as Hnb.
  { destruct (is_bss s); [|done]. destruct (Hb eq_refl) as (c' & ? & ? & ?). by destruct (Hty c'). }
  assert (c ∈ cs) as Hcs.
  { unfold chunk_at in Hc. destruct (0 <=? ci); [|done]. by eapply list_elem_of_lookup_2. }
  assert (c_type e <> SHT_NOBITS) as Ht by (rewrite E', E; exact (Hty c Hcs eq_refl)).
  destruct (Hall s ci e Hs Hnb Hci Hce Ht) as [_ Hsl].
  assert (Z.of_nat (length (c_data e)) = c_size c) as Hsz.
  { destruct (wl_laid _ _ HL) as [_ _ Hdat]. eapply Forall_forall in Hdat; [|exact Hs].
    eapply Forall_forall in Hdat as (d' & Hd' & [_ Hl]); [|exact Hci].
    rewrite Hcd in Hd'. injection Hd' as <-. rewrite Hlen, Hl; [by rewrite E|].
    rewrite E. exact (Hty c Hcs eq_refl). }
  assert (offset_in_osec e = offset_in_osec d) as Ho by (by rewrite E').
  rewrite Hsz, Ho in Hsl.
  exists (o_vaddr s + offset_in_osec d), e. split_and!; [|done| | |done].
  - exists s, d. split_and!; [done.. | by rewrite E].
  - by rewrite E', E.
  - by rewrite E', E.
Qed.
