(* ===== verification/LinkProps.v ===== *)
(** * The linker: theorems

    First two objects to link, concrete inputs for the theorems: a call of a function of another
    object, a pointer to it in the data, and uninitialised data. *)

From S2P Require Import Prelude Bytes LinkElf LinkSections LinkOutput.
From S2P Require Import LinkSymbols LinkReloc.
From S2P Require Import LinkRelocProofs LinkLayoutProofs LinkSymProofs LinkImageProofs.
From S2P Require Import LinkMerge LinkMain.
From stdpp Require Import gmap list_relations list.
#[local] Open Scope Z_scope.

(** ** Writing an object file *)

Record Section_ : Set := mkSection {
  x_name : Z; x_type : Z; x_flags : Z; x_link : Z; x_info : Z; x_align : Z;
  x_size : Z; x_content : list Z
}.

Definition shdr_bytes (x : Section_) (off : Z) : list Z :=
  le_bytes 4 (x_name x) ++ le_bytes 4 (x_type x) ++ le_bytes 8 (x_flags x) ++ le_bytes 8 0
  ++ le_bytes 8 off ++ le_bytes 8 (x_size x) ++ le_bytes 4 (x_link x) ++ le_bytes 4 (x_info x)
  ++ le_bytes 8 (x_align x) ++ le_bytes 8 0.

Fixpoint shdrs_bytes (l : list Section_) (off : Z) : list Z :=
  match l with
  | [] => []
  | x :: l => shdr_bytes x off ++ shdrs_bytes l (off + Z.of_nat (length (x_content x)))
  end.

Definition object_bytes (l : list Section_) (shstrndx : Z) : list Z :=
  let contents := concat (x_content <$> l) in
  ELFMAG ++ [2; 1; 1; 0] ++ replicate 8 0
  ++ le_bytes 2 ET_REL ++ le_bytes 2 EM_X86_64 ++ le_bytes 4 EV_CURRENT
  ++ le_bytes 8 0 ++ le_bytes 8 0 ++ le_bytes 8 (sizeof_Ehdr + Z.of_nat (length contents))
  ++ le_bytes 4 0 ++ le_bytes 2 sizeof_Ehdr ++ le_bytes 2 0 ++ le_bytes 2 0
  ++ le_bytes 2 sizeof_Shdr ++ le_bytes 2 (1 + Z.of_nat (length l)) ++ le_bytes 2 shstrndx
  ++ contents ++ replicate 64 0 ++ shdrs_bytes l sizeof_Ehdr.

Definition section_ (name type flags link info align : Z) (content : list Z) : Section_ :=
  mkSection name type flags link info align (Z.of_nat (length content)) content.

Definition symbol_bytes (name info shndx value : Z) : list Z :=
  le_bytes 4 name ++ [info; 0] ++ le_bytes 2 shndx ++ le_bytes 8 value ++ le_bytes 8 0.

Definition rela_bytes (offset sym type addend : Z) : list Z :=
  le_bytes 8 offset ++ le_bytes 8 (sym * 2 ^ 32 + type) ++ le_bytes 8 addend.

(** ** The objects *)

(** ".text", ".data", ".bss", "_start" and "f", after an empty string. *)
Definition strings : list Z :=
  [0; 46; 116; 101; 120; 116; 0; 46; 100; 97; 116; 97; 0; 46; 98; 115; 115; 0;
   95; 115; 116; 97; 114; 116; 0; 102; 0].

(** [_start: call f; ret], and 16 bytes of bss. *)
Definition caller : InputObject := mkObject [97] (object_bytes
  [section_ 1 SHT_PROGBITS 6 0 0 16 [232; 0; 0; 0; 0; 195];
   mkSection 13 SHT_NOBITS 3 0 0 8 16 [];
   section_ 0 SHT_SYMTAB 0 4 1 8
     (replicate 24 0 ++ symbol_bytes 18 18 1 0 ++ symbol_bytes 25 16 0 0);
   section_ 0 3 0 0 0 1 strings;
   section_ 0 SHT_RELA 0 3 1 8 (rela_bytes 1 2 R_X86_64_PLT32 (-4))] 4).

(** [nop; f: ret], and a pointer to [f] in the data. *)
Definition callee : InputObject := mkObject [98] (object_bytes
  [section_ 1 SHT_PROGBITS 6 0 0 4 [144; 195];
   section_ 7 SHT_PROGBITS 3 0 0 8 (replicate 8 0);
   section_ 0 SHT_SYMTAB 0 4 1 8 (replicate 24 0 ++ symbol_bytes 25 18 1 1);
   section_ 0 3 0 0 0 1 strings;
   section_ 0 SHT_RELA 0 3 2 8 (rela_bytes 0 1 R_X86_64_64 0)] 4).

Definition sample : list InputObject := [caller; callee].

(** Their chunks, as step 2 collects them. *)
Definition sample_list : list Chunk :=
  [mkChunk 0 1 [46; 116; 101; 120; 116] 6 16 6 SHT_PROGBITS [232; 0; 0; 0; 0; 195] 0;
   mkChunk 0 2 [46; 98; 115; 115] 16 8 3 SHT_NOBITS (replicate 16 0) 0;
   mkChunk 1 1 [46; 116; 101; 120; 116] 2 4 6 SHT_PROGBITS [144; 195] 0;
   mkChunk 1 2 [46; 100; 97; 116; 97] 8 8 3 SHT_PROGBITS (replicate 8 0) 0].

Definition sample_chunks : Chunks :=
  mkChunks sample_list
    (<[(1, 2) := 3]> (<[(1, 1) := 2]> (<[(0, 2) := 1]> (<[(0, 1) := 0]> ∅)))).

(** The file they link to: the call reaches [f] at 0x4000b9, and so does the pointer. *)
Definition sample_image : list Z :=
  ehdr_bytes 4194480 ++ phdr1 200 216 ++ phdr2
  ++ [232; 4; 0; 0; 0; 195; 0; 0; 144; 195] ++ replicate 6 0 ++ le_bytes 8 4194489.


(** ** The sample as an input *)

Lemma collect_sample : collect_chunks sample = lret sample_chunks.
Proof. vm_compute. reflexivity. Qed.

Lemma chunk_ok_by k m c :
  0 <= k < 64 -> c_align c = 2 ^ k -> 0 <= c_size c -> BASE_ADDR = m * c_align c ->
  chunk_ok c /\ (c_align c | BASE_ADDR).
Proof. intros Hk Ha Hs Hm. split; [split; [by exists k | done] | by exists m]. Qed.

Lemma sample_inputs : inputs_ok (chunks sample_chunks).
Proof.
  split.
  - apply Forall_cons; split; [by apply (chunk_ok_by 4 262144)|].
    apply Forall_cons; split; [by apply (chunk_ok_by 3 524288)|].
    apply Forall_cons; split; [by apply (chunk_ok_by 2 1048576)|].
    apply Forall_cons; split; [by apply (chunk_ok_by 3 524288)|]. by apply Forall_nil.
  - intros c c' Hc Hc'. change (chunks sample_chunks) with sample_list in *. unfold sample_list in *.
    rewrite !elem_of_cons, elem_of_nil in Hc, Hc'.
    intuition (subst; try discriminate; vm_compute; done).
  - done.
Qed.

(** ** Layout *)

(** C11: On inputs whose alignments are powers of two that divide the base
    address, whose uninitialised sections are writable, not executable and do not
    share a name with other kinds, and that fit the address space, steps 2 to 4
    give every allocated input section an address that is a multiple of its
    alignment; the address ranges lie behind the headers and inside the memory
    size of the program header, and no two of them overlap. *)
Theorem layout_places_inputs objects st :
  collect_chunks objects = lret st -> inputs_ok (chunks st) ->
  exists L, make_layout objects = lret L /\
    (forall ci c, chunk_at (chunks st) ci = Some c ->
       exists a, at_address L ci a (c_size c) /\ (c_align c | a)) /\
    (forall ci a n, at_address L ci a n ->
       BASE_ADDR + hdr_size <= a /\ 0 <= n /\ a + n <= BASE_ADDR + total_memsz L) /\
    (forall ci cj a b n m, ci <> cj -> at_address L ci a n -> at_address L cj b m ->
       a + n <= b \/ b + m <= a) /\
    total_filesz L <= total_memsz L.
Proof.
  intros Hst Hin. destruct (make_layout_spec _ _ Hst Hin) as (L & HL & Hw). exists L.
  split; [done|]. split_and!.
  - intros ci c Hc. destruct (address_exists _ _ Hw ci c Hc) as (a & ? & ? & _). eauto.
  - intros ci a n Ha. exact (address_range _ _ Hw ci a n Ha).
  - intros ci cj a b n m. by apply (address_disjoint _ _ Hw).
  - apply (wl_filesz _ _ Hw).
Qed.

Lemma layout_places_inputs_witness :
  inputs_ok (chunks sample_chunks) /\
  exists L, make_layout sample = lret L /\ exists a, at_address L 3 a 8 /\ (8 | a).
Proof.
  split; [exact sample_inputs|].
  destruct (layout_places_inputs sample sample_chunks collect_sample sample_inputs)
    as (L & HL & Hc & _).
  exists L. split; [exact HL|].
  exact (Hc 3 (mkChunk 1 2 [46; 100; 97; 116; 97] 8 8 3 SHT_PROGBITS (replicate 8 0) 0) eq_refl).
Defined.

(** When the linker succeeds on such inputs, the output file has the size
    and the headers that the layout says, and every allocated input section with
    content, in an output section that is not bss, has its relocated bytes in the
    file at the distance of its address from the base address: loading the file
    at the base address puts each section where the symbols and relocations
    expect it. *)
Theorem image_holds_inputs objects st out :
  collect_chunks objects = lret st -> inputs_ok (chunks st) -> link objects = lret out ->
  exists L S cs, make_layout objects = lret L /\ link_symbols L objects = lret S /\
    apply_relocations L (all_syms S) objects = lret cs /\
    Z.of_nat (length out) = total_filesz L /\
    slice out 0 64 = Ok (ehdr_bytes (entry S)) /\
    slice out 64 56 = Ok (phdr1 (total_filesz L) (total_memsz L)) /\
    forall ci c, chunk_at (chunks st) ci = Some c ->
      (forall c', c' ∈ chunks st -> c_name c' = c_name c -> c_type c' <> SHT_NOBITS) ->
      exists a c', at_address L ci a (c_size c) /\ chunk_at cs ci = Some c' /\
        obj_idx c' = obj_idx c /\ shdr_idx c' = shdr_idx c /\
        slice out (a - BASE_ADDR) (c_size c) = Ok (c_data c').
Proof.
  intros Hst Hin E. destruct (make_layout_spec _ _ Hst Hin) as (L & HL & Hw).
  unfold link in E. linv. simplify_eq.
  match goal with H : make_layout _ = lret ?x |- _ => rewrite HL in H; apply lret_inj in H; subst x end.
  match goal with H : link_symbols _ _ = lret ?x, H' : apply_relocations _ _ _ = lret ?y |- _ =>
    exists L, x, y; pose proof (apply_relocations_inv _ _ _ _ H') as Hd end.
  pose proof (laid_out_data _ _ _ _ Hd (wl_laid _ _ Hw)) as Hlo.
  destruct (image_spec L _ (entry x1) Hlo) as (out' & E' & Hlen & He & Hp & Hall).
  assert (out' = out) as -> by congruence.
  do 6 (split; [done|]). intros ci c Hc Hty. by apply (image_chunk (chunks st) L).
Qed.

Lemma image_holds_inputs_witness :
  link sample = lret sample_image /\
  exists a d, slice sample_image (a - BASE_ADDR) 8 = Ok d.
Proof.
  assert (link sample = lret sample_image) as E by (vm_compute; reflexivity).
  split; [exact E|].
  destruct (image_holds_inputs sample sample_chunks sample_image collect_sample sample_inputs E)
    as (L & S & cs & _ & _ & _ & _ & _ & _ & Hc).
  destruct (Hc 3 (mkChunk 1 2 [46; 100; 97; 116; 97] 8 8 3 SHT_PROGBITS (replicate 8 0) 0) eq_refl)
    as (a & c' & _ & _ & _ & _ & Hs).
  - intros c' Hc'. change (chunks sample_chunks) with sample_list in *. unfold sample_list in *.
    rewrite !elem_of_cons, elem_of_nil in Hc'. intuition (subst; discriminate).
  - exists a, (c_data c'). exact Hs.
Defined.

(** Merging the chunks never fails, and the output sections are exactly one
    per name, in the order of the first occurrence, with the flags of the first
    chunk, the largest alignment, and all chunks of the name in order; a section
    is bss as soon as one of its chunks is.  No section is empty, and the stable
    sort puts executable sections first, then read-only, then data, then bss,
    each in the order of before. *)
Theorem sections_by_name cs :
  exists st, merge_chunks cs = Ok st /\
    osecs st = osec_of (indexed cs) <$> names (indexed cs) /\
    erase_empty (osecs st) = osecs st /\
    concat (chunk_ids <$> osecs st) ≡ₚ seqZ 0 (Z.of_nat (length cs)) /\
    sort_sections (osecs st) =
      filter (fun s => rank s = 0) (osecs st) ++ filter (fun s => rank s = 1) (osecs st) ++
      filter (fun s => rank s = 2) (osecs st) ++ filter (fun s => rank s = 3) (osecs st).
Proof.
  destruct (merge_chunks_spec cs) as (st & E & [Ho _]). exists st. rewrite Ho.
  split_and!; [done | done | apply erase_empty_merged | | apply sort_sections_by_rank].
  rewrite merged_ids. by rewrite indexed_fst.
Qed.

(** ** Symbols *)

(** C12: The table of global symbols that the registrations build, one after the
    other, has for each name its first strong definition, else its first
    definition, else its first mention; the registrations fail with a duplicate
    symbol exactly when a name has two strong definitions. *)
Theorem globals_refine infos :
  match foldM register ∅ infos with
  | Ok (inr g) =>
      (forall n, g !! n = winner (entries n infos)) /\
      (forall n, (length (List.filter strong_def (entries n infos)) <= 1)%nat)
  | Ok (inl (DuplicateSymbol n)) =>
      (2 <= length (List.filter strong_def (entries n infos)))%nat
  | _ => False
  end.
Proof. apply (register_all infos). Qed.

(** C13: When step 5 succeeds, the global symbols are those of all symbols of all
    objects in order, no name has two strong definitions or is left undefined by
    the entry that stands for it, and every reference to a name that some object
    defines has the value of the definition that stands for the name. *)
Theorem references_resolved L objects S :
  link_symbols L objects = lret S ->
  exists syms g,
    foldM (all_symbols_step L) ([], ∅) (indexed objects) = lret (syms, g) /\
    all_syms S = map (map (resolve_reference g)) syms /\
    (forall n, g !! n = winner (entries n (concat syms))) /\
    (forall n, (length (List.filter strong_def (entries n (concat syms))) <= 1)%nat) /\
    (forall n i, g !! n = Some i -> is_undefined n i = false) /\
    (forall i w, i ∈ concat syms -> defined i = false -> s_name i <> [] ->
       winner (entries (s_name i) (concat syms)) = Some w -> defined w = true ->
       s_value (resolve_reference g i) = s_value w /\ resolved (resolve_reference g i) = true).
Proof.
  intros E. unfold link_symbols in E. apply lbind_inv in E as ([syms g] & Ef & E).
  destruct (check_undefined_spec g) as [[[g' Eg] Hu]|[Eg _]]; rewrite Eg in E; [|done].
  apply lret_inj in E as <-. exists syms, g.
  destruct (all_symbols_inv _ _ _ _ Ef) as [Hw Hd].
  split_and!; [done | done | done | done | done |].
  intros i w _ Hi Hn Hwi Hwd. unfold resolve_reference. unfold defined in Hi.
  rewrite negb_false_iff in Hi. rewrite Hi, bool_decide_false by done. cbn [andb negb].
  by rewrite Hw, Hwi, Hwd.
Qed.

Definition sample_layout : Layout :=
  match make_layout sample with Ok (inr L) => L | _ => mkLayout [] ∅ [] ∅ 0 0 end.

Lemma references_resolved_witness :
  exists S, link_symbols sample_layout sample = lret S /\
  exists syms, length (all_syms S) = length (syms : list (list SymInfo)).
Proof.
  destruct (link_symbols sample_layout sample) as [[e|S]| |] eqn:E;
    [exfalso; revert E; vm_compute; discriminate | | exfalso; revert E; vm_compute; discriminate..].
  exists S. split; [reflexivity|].
  destruct (references_resolved sample_layout sample S E) as (syms & g & _ & Ha & _).
  exists syms. rewrite Ha. apply length_map.
Defined.

(** The check for undefined symbols fails exactly when some entry of the
    table, with a name, is undefined and not weak; when it passes, every other
    undefined entry has the value 0 and the defined ones keep theirs. *)
Theorem undefined_reported g :
  (check_undefined g = lfail UndefinedSymbol /\
     exists n i, g !! n = Some i /\ is_undefined n i = true) \/
  (exists g', check_undefined g = lret g' /\
     (forall n i, g !! n = Some i -> is_undefined n i = false) /\
     forall n i, g !! n = Some i -> exists i', g' !! n = Some i' /\
       (if defined i then i' = i else s_name i <> [] -> s_value i' = 0 /\ resolved i' = true)).
Proof.
  destruct (check_undefined_spec g) as [[[g' Eg] Hu]|[Eg He]]; [right | by left].
  exists g'. split; [done|]. split; [done|]. intros n i Hi. unfold check_undefined in Eg.
  destruct (existsb _ _); [done|]. apply lret_inj in Eg as <-.
  eexists. split; [exact (eq_trans (lookup_fmap _ g n) (f_equal (fmap _) Hi))|]. cbn beta. unfold defined. destruct (s_shndx i =? SHN_UNDEF); [|done].
  cbn [negb andb]. intros Hn. by rewrite bool_decide_false.
Qed.

(** Whether a name that nothing defines is reported depends on the order of
    the objects: a weak reference before a strong one hides it, the other order
    reports it. *)
Theorem undefined_order_dependent n w s :
  n <> [] -> s_name w = n -> s_name s = n ->
  s_bind w = STB_WEAK -> s_bind s = STB_GLOBAL -> defined w = false -> defined s = false ->
  (exists g g', foldM register ∅ [w; s] = lret g /\ check_undefined g = lret g') /\
  (exists g, foldM register ∅ [s; w] = lret g /\ check_undefined g = lfail UndefinedSymbol).
Proof.
  intros Hn Hw Hs Bw Bs Dw Ds.
  assert (forall x y, global_bind x = true -> global_bind y = true -> s_name x = n ->
    s_name y = n -> defined x = false -> defined y = false ->
    foldM register ∅ [x; y] = lret (<[n := x]> ∅)) as Hreg.
  { intros x y Bx By Nx Ny Dx Dy. cbn [foldM]. unfold register, global_bind in *.
    rewrite Bx, By, Nx, Ny, Dx, Dy, lookup_empty. cbn [lbind lret negb]. by rewrite lookup_insert_eq. }
  assert (forall x, defined x = false -> is_undefined n x = negb (is_weak x)) as Hu.
  { intros x Dx. unfold is_undefined, defined in *. rewrite negb_false_iff in Dx.
    by rewrite Dx, bool_decide_false. }
  split.
  - exists (<[n := w]> ∅). destruct (check_undefined_spec (<[n := w]> ∅)) as [[[g' Eg] _]|[_ Hx]].
    + exists g'. split; [|done]. apply Hreg; try done; unfold global_bind; by rewrite ?Bw, ?Bs.
    + destruct Hx as (m & i & [[<- <-]|[_ He]]%lookup_insert_Some & Ht);
        [|by rewrite lookup_empty in He].
      rewrite Hu in Ht by done. unfold is_weak in Ht. by rewrite Bw in Ht.
  - exists (<[n := s]> ∅). split; [apply Hreg; try done; unfold global_bind; by rewrite ?Bw, ?Bs|].
    destruct (check_undefined_spec (<[n := s]> ∅)) as [[_ Hx]|[Eg _]]; [|done].
    specialize (Hx n s (lookup_insert_eq _ _ _)). rewrite Hu in Hx by done.
    unfold is_weak in Hx. by rewrite Bs in Hx.
Qed.

Lemma undefined_order_dependent_witness :
  exists g, foldM register ∅ [mkSymInfo [102] 0 0 0 STB_WEAK 0 false;
                              mkSymInfo [102] 0 1 0 STB_GLOBAL 0 false] = lret g.
Proof.
  destruct (undefined_order_dependent [102] (mkSymInfo [102] 0 0 0 STB_WEAK 0 false)
    (mkSymInfo [102] 0 1 0 STB_GLOBAL 0 false)) as [(g & g' & E & _) _];
    [discriminate | reflexivity.. |]. exists g. exact E.
Defined.

(** ** Relocations *)



(** The bounds check of a relocation adds the width of the field to the
    offset in 64-bit arithmetic: an offset within 8 of the top of the address
    space passes the check and the linker writes outside the data. *)
Theorem relocation_bound_wraps S A P off data :
  2 ^ 64 - 8 <= off < 2 ^ 64 -> off + 8 - 2 ^ 64 <= Z.of_nat (length data) < 2 ^ 63 ->
  relocate R_X86_64_64 S A P off data = Ub ArrayIndex.
Proof.
  intros Ho Hl. unfold relocate, out_of_bounds. cbn [Z.eqb R_X86_64_64 R_X86_64_NONE].
  assert (u64 (off + 8) = off + 8 - 2 ^ 64) as ->.
  { unfold uwrap. symmetry. apply Z.mod_unique with 1; lia. }
  rewrite (proj2 (Z.ltb_ge _ _)) by lia. cbn [lift].
  by rewrite write_bytes_out by (rewrite ?length_le_bytes; lia).
Qed.

Lemma relocation_bound_wraps_witness :
  relocate R_X86_64_64 0 0 0 (2 ^ 64 - 8) [1; 2] = Ub ArrayIndex.
Proof. apply (relocation_bound_wraps 0 0 0 (2 ^ 64 - 8) [1; 2]); cbn; lia. Defined.

(** ** Sections the layout does not handle *)

(** An uninitialised section that is read-only comes before the data in the
    order of the sections.  It takes memory and no space in the file, so the data
    behind it is not at the distance of its address from the base address in the
    file, and the one segment of the program header loads it elsewhere. *)
Theorem readonly_bss_shifts_data b d fc :
  section_ok b -> section_ok d -> is_bss b = true -> is_bss d = false ->
  Z.land (o_flags b) (Z.lor SHF_EXECINSTR SHF_WRITE) = 0 ->
  Z.land (o_flags d) SHF_EXECINSTR = 0 -> Z.land (o_flags d) SHF_WRITE <> 0 ->
  o_align d <= o_size b -> 0 <= fc ->
  BASE_ADDR + fc + room_sections [b; d] < 2 ^ 64 ->
  sort_sections [d; b] = [b; d] /\
  exists b' d' fc' vc', assign_addresses fc (BASE_ADDR + fc) [b; d] = ([b'; d'], fc', vc') /\
    o_vaddr d' <> BASE_ADDR + o_foff d'.
Proof.
  intros (Ab & Db & Sb & _) (Ad & Dd & Sd & Fd) Hb Hd Fb Hx Hw Hs Hfc Hr.
  assert (rank b = 1) as Rb.
  { assert (forall m, Z.lor (Z.lor SHF_EXECINSTR SHF_WRITE) m = Z.lor SHF_EXECINSTR SHF_WRITE ->
      Z.land (o_flags b) m = 0) as Hm.
    { intros m Em. rewrite <- (Z.land_diag m) at 1. apply Z.bits_inj'. intros k _.
      rewrite Z.bits_0, !Z.land_spec. apply (f_equal (fun z => Z.testbit z k)) in Fb, Em.
      rewrite Z.land_spec, Z.bits_0 in Fb. rewrite Z.lor_spec in Em.
      destruct (Z.testbit (o_flags b) k), (Z.testbit m k); cbn in *; try done.
      rewrite orb_true_r in Em. congruence. }
    unfold rank. by rewrite !Hm. }
  assert (rank d = 2) as Rd
    by (unfold rank; rewrite Hx, Hd, (proj2 (Z.eqb_neq _ _) Hw); done).
  split; [cbn [sort_sections foldl insert_by_rank]; by rewrite Rb, Rd|].
  apply pow2_pos in Ab as Pb. apply pow2_pos in Ad as Pd. assert (BASE_ADDR = 4194304) as HB by done.
  cbn [room_sections foldr] in Hr.
  destruct (align_up_bounds (BASE_ADDR + fc) (o_align b)) as [Hvb _]; [done | lia | lia |].
  destruct (align_up_bounds fc (o_align d)) as [Hfd _]; [done | lia | lia |].
  set (vb := align_up (BASE_ADDR + fc) (o_align b)) in *.
  destruct (align_up_bounds (vb + o_size b) (o_align d)) as [Hvd _]; [done | lia | lia |].
  cbn [assign_addresses]. rewrite Hb, Hd. fold vb. rewrite (uwrap_id 64 (vb + o_size b)) by lia.
  do 4 eexists. split; [reflexivity|]. cbn [set_place o_vaddr o_foff]. lia.
Qed.

Definition readonly_bss : OutputSection := mkOsec [46; 114] 2 8 0 0 16 0 true [].
Definition small_data : OutputSection := mkOsec [46; 100] 3 8 0 0 8 8 false [].

Lemma readonly_bss_shifts_data_witness :
  sort_sections [small_data; readonly_bss] = [readonly_bss; small_data].
Proof.
  apply (readonly_bss_shifts_data readonly_bss small_data 176); try reflexivity; try discriminate.
  - split; [exists 3; split; [lia | reflexivity]|]. split; [exists 524288; reflexivity|].
    split; [discriminate | reflexivity].
  - split; [exists 3; split; [lia | reflexivity]|]. split; [exists 524288; reflexivity|].
    split; [discriminate | reflexivity].
Defined.

(** One chunk without content makes bss of the whole output section of its
    name: it gets no space in the file and the contents of the other chunks of
    the name are not written. *)
Theorem mixed_section_dropped cs c ci d st :
  chunk_at cs ci = Some c -> c_type c = SHT_NOBITS -> d ∈ cs -> c_name d = c_name c ->
  merge_chunks cs = Ok st ->
  exists s, s ∈ osecs st /\ ci ∈ chunk_ids s /\ o_name s = c_name d /\ is_bss s = true /\
    (forall size, o_filesz (set_sizes size s) = 0) /\
    (forall cs' out, copy_section cs' out s = Ok out).
Proof.
  intros Hc Ht Hd Hn E. destruct (merge_chunks_spec cs) as (st' & E' & [Ho _]).
  rewrite E in E'. injection E' as <-. apply indexed_chunk in Hc.
  assert ((ci, c) ∈ named (c_name c) (indexed cs)) as Hg by (by apply list_elem_of_filter).
  assert (is_bss (osec_of (indexed cs) (c_name c)) = true) as Hb.
  { cbn [osec_of is_bss]. apply existsb_exists. exists (ci, c).
    split; [by apply list_elem_of_In | cbn; by rewrite Ht]. }
  exists (osec_of (indexed cs) (c_name c)). rewrite Ho. split_and!.
  - apply list_elem_of_fmap_2, names_elem. eauto.
  - by apply (list_elem_of_fmap_2 fst _ (ci, c)).
  - by rewrite Hn.
  - done.
  - intros size. unfold set_sizes. cbn [o_filesz]. by rewrite Hb.
  - intros cs' out. unfold copy_section. by rewrite Hb.
Qed.

Definition mixed : list Chunk :=
  [mkChunk 0 1 [46; 100] 1 1 3 SHT_PROGBITS [7] 0; mkChunk 1 1 [46; 100] 1 1 3 SHT_NOBITS [0] 0].

Lemma mixed_section_dropped_witness :
  exists st s, merge_chunks mixed = Ok st /\ s ∈ osecs st /\ is_bss s = true.
Proof.
  destruct (merge_chunks mixed) as [st| |] eqn:E;
    [|exfalso; revert E; vm_compute; discriminate..].
  destruct (mixed_section_dropped mixed (mkChunk 1 1 [46; 100] 1 1 3 SHT_NOBITS [0] 0) 1
    (mkChunk 0 1 [46; 100] 1 1 3 SHT_PROGBITS [7] 0) st) as (s & Hs & _ & _ & Hb & _);
    [reflexivity | reflexivity | left | reflexivity | exact E |].
  exists st, s. split; [reflexivity|]. split; assumption.
Defined.

(** ** Alignment and input sections *)

(** For a power of two, align_up is the least multiple that is not below
    the value, when it fits 64 bits; for 0 it is the value. *)
Theorem align_up_least_multiple v a :
  pow2 a -> 0 <= v -> v + a <= 2 ^ 64 ->
  v <= align_up v a < v + a /\ (a | align_up v a) /\
  (forall m, (a | m) -> v <= m -> align_up v a <= m) /\ align_up v 0 = v.
Proof.
  intros Ha Hv Hr. destruct (align_up_bounds v a Ha Hv) as [Hb Hd]; [lia|].
  split_and!; [lia | lia | done | | done]. intros m Hm Hle. apply (align_up_least v a m); done || lia.
Qed.

Lemma align_up_least_multiple_witness : 13 <= align_up 13 8 < 13 + 8.
Proof.
  apply (align_up_least_multiple 13 8); [exists 3; split; [lia | reflexivity] | lia | lia].
Defined.

(** The chunks that step 2 collects are sections of the objects: each is an
    allocated section of a type that is loaded, with the name, size, flags, type,
    alignment and bytes of that section, and the map from sections to chunks
    leads to them. *)
Theorem chunks_are_sections objects st :
  collect_chunks objects = lret st ->
  Forall (fun c => exists o, (obj_idx c, o) ∈ indexed objects /\ holds o (shdr_idx c) c)
    (chunks st) /\
  (forall oi si ci, sec2chunk st !! (oi, si) = Some ci ->
    exists c, chunk_at (chunks st) ci = Some c /\ obj_idx c = oi /\ shdr_idx c = si).
Proof. intros H. by destruct (collect_chunks_inv _ _ H). Qed.

Lemma chunks_are_sections_witness :
  exists c, chunk_at (chunks sample_chunks) 3 = Some c /\ obj_idx c = 1 /\ shdr_idx c = 2.
Proof. apply (chunks_are_sections sample sample_chunks collect_sample). reflexivity. Defined.
