(* ===== verification/CuckooFilter.v ===== *)
(** * The cuckoo filter

    The class template Cuckoo of src/Algorithm/cuckoo_filter.cpp: a table of [N]
    buckets with four 16-bit fingerprints each.  The hash functions of the
    standard library are parameters; so is the random engine of any_entry. *)

From S2P Require Import Prelude.

(** [fbits _buckets[N][4]]. *)
Abbreviation Buckets := (list (list Z)).

Section cuckoo.
Context {T : Type}.
(** [std::hash<T>], [std::hash<std::string>] and [std::hash<fbits>]. *)
Context (hash_T hash_string : T -> Z) (hash_fbits : Z -> Z).
Context (N : Z).
Context {G : Type} `{RandomEngine G}.

Definition magic_code : Z := 23130.   (* 0x5a5a *)
Definition npos : Z := u64 (-1).

(** The object with the variables that are static in its functions: the round of
    [add] and the engine of [any_entry]. *)
Record Cuckoo : Type := mkCuckoo { _buckets : Buckets; s_round : bool; re : G }.

Definition create (round : bool) (g : G) : Cuckoo :=
  mkCuckoo (replicate (Z.to_nat N) (replicate 4 magic_code)) round g.

(** ** Hashes *)

Definition fingerprint (x : T) : Z :=
  let bitmask := u64 (Z.lnot (u64 (Z.shiftl (u64 (-1)) 16))) in
  uwrap 16 (Z.land (hash_T x) bitmask).

Definition hash_f (f : Z) : Z := hash_fbits f mod N.
Definition hash (x : T) : Z := hash_string x mod N.

(** ** Buckets *)

Definition get_entry (b : Buckets) (i e : Z) : res Z := row ← b.[i]; row.[e].

Definition set_entry (b : Buckets) (i e f : Z) : res Buckets :=
  row ← b.[i]; row ← row.[e <- f]; b.[i <- row].

(** The loop [for(j = 0; j < 4; ++j) if(_buckets[i][j] == f) return j;]. *)
Fixpoint find_entry (b : Buckets) (i f : Z) (js : list Z) : res Z :=
  match js with
  | [] => Ok npos
  | j :: js => x ← get_entry b i j; if x =? f then Ok j else find_entry b i f js
  end.

Definition bucket_has (b : Buckets) (i f : Z) : res Z := find_entry b i f (seqZ 0 4).
Definition bucket_has_hole (b : Buckets) (i : Z) : res Z :=
  find_entry b i magic_code (seqZ 0 4).

Definition add_entry (b : Buckets) (i e f : Z) : res Buckets :=
  x ← get_entry b i e;
  _ ← check (x =? magic_code) AssertFailed;
  set_entry b i e f.

Definition reset_entry (b : Buckets) (i e : Z) : res Buckets := set_entry b i e magic_code.

(** The index of the entry that any_entry returns a reference to. *)
Definition any_entry (b : Buckets) (i : Z) (g : G) : res (Z * G) :=
  let '(e, g) := uniform_int 0 3 g in
  x ← get_entry b i e;
  _ ← check (negb (x =? magic_code)) AssertFailed;
  Ok (e, g).

(** ** Operations *)

(** The loop over the two buckets; [None] when none has a hole. *)
Fixpoint add_hole (b : Buckets) (f : Z) (itable : list Z) : res (option Buckets) :=
  match itable with
  | [] => Ok None
  | i :: itable =>
      e ← bucket_has_hole b i;
      if negb (e =? npos) then b ← add_entry b i e f; Ok (Some b)
      else add_hole b f itable
  end.

(** The loop of relocations, with [retry] turns left. *)
Fixpoint relocate_loop (retry : nat) (b : Buckets) (g : G) (i f : Z) :
    res (bool * Buckets * G) :=
  match retry with
  | O => Ok (false, b, g)
  | S retry =>
      '(e, g) ← any_entry b i g;
      entry ← get_entry b i e;
      b ← set_entry b i e f;
      let f := entry in
      let i := Z.lxor i (hash_f f) in
      next_e ← bucket_has_hole b i;
      if negb (next_e =? npos) then b ← add_entry b i next_e f; Ok (true, b, g)
      else relocate_loop retry b g i f
  end.

Definition add (c : Cuckoo) (item : T) : res (bool * Cuckoo) :=
  let f := fingerprint item in
  let i1 := hash item in
  let i2 := Z.lxor i1 (hash_f f) in
  let round := negb (s_round c) in
  let '(j1, j2) := if round then (i2, i1) else (i1, i2) in
  r ← add_hole (_buckets c) f [j1; j2];
  match r with
  | Some b => Ok (true, mkCuckoo b round (re c))
  | None =>
      '(ok, b, g) ← relocate_loop 100 (_buckets c) (re c) j1 f;
      Ok (ok, mkCuckoo b round g)
  end.

(** The loop over the two buckets ends in [assert(false)]. *)
Fixpoint remove_from (b : Buckets) (f : Z) (itable : list Z) : res Buckets :=
  match itable with
  | [] => Ub AssertFailed
  | i :: itable =>
      e ← bucket_has b i f;
      if negb (e =? npos) then reset_entry b i e else remove_from b f itable
  end.

Definition remove (c : Cuckoo) (item : T) : res Cuckoo :=
  let f := fingerprint item in
  let i1 := hash item in
  let i2 := Z.lxor i1 (hash_f f) in
  b ← remove_from (_buckets c) f [i1; i2];
  Ok (mkCuckoo b (s_round c) (re c)).

Definition lookup (c : Cuckoo) (item : T) : res bool :=
  let f := fingerprint item in
  let i1 := hash item in
  let i2 := Z.lxor i1 (hash_f f) in
  e1 ← bucket_has (_buckets c) i1 f;
  if negb (e1 =? npos) then Ok true
  else e2 ← bucket_has (_buckets c) i2 f; Ok (negb (e2 =? npos)).
End cuckoo.

Arguments Cuckoo G : clear implicits.

(** * The cuckoo filter: the table as a multiset

    What the table of fingerprints stands for is the multiset of the fingerprints
    in it, each with the pair of buckets it can be in; lists up to permutation
    stand for multisets.  Relocation moves a fingerprint within its pair. *)

From stdpp Require Import list_relations list.
#[local] Open Scope Z_scope.

Lemma found_not_npos r : 0 <= r < 4 -> negb (r =? npos) = true.
Proof. intros Hr. assert (npos = 2 ^ 64 - 1) by done. destruct (Z.eqb_spec r npos); [lia | done]. Qed.

Section proofs.
Context {T : Type} (hash_T hash_string : T -> Z) (hash_fbits : Z -> Z) (k : Z).
Context (Hk : 0 <= k < 64).
Context {G : Type} `{!RandomEngine G}.
Let N : Z := 2 ^ k.
Let hf : Z -> Z := hash_f hash_fbits N.

(** ** The pair of buckets of a fingerprint *)

(** The name of the pair: its smaller bucket. *)
Definition key (f i : Z) : Z * Z := (f, Z.min i (Z.lxor i (hf f))).

Lemma other_involutive i f : Z.lxor (Z.lxor i (hf f)) (hf f) = i.
Proof. by rewrite Z.lxor_assoc, Z.lxor_nilpotent, Z.lxor_0_r. Qed.

Lemma key_other i f : key f (Z.lxor i (hf f)) = key f i.
Proof. unfold key. rewrite other_involutive. f_equal. lia. Qed.

Lemma key_inj i j f : key f i = key f j -> i = j \/ i = Z.lxor j (hf f).
Proof.
  unfold key. intros [= E].
  destruct (Z.min_spec i (Z.lxor i (hf f))) as [[_ Ei]|[_ Ei]],
    (Z.min_spec j (Z.lxor j (hf f))) as [[_ Ej]|[_ Ej]]; rewrite Ei, Ej in E.
  - by left.
  - by right.
  - right. by rewrite <- E, other_involutive.
  - left. rewrite <- (other_involutive i f), E. apply other_involutive.
Qed.

Lemma N_pos : 0 < N.
Proof. apply Z.pow_pos_nonneg; lia. Qed.

Lemma lxor_range a b : 0 <= a < N -> 0 <= b < N -> 0 <= Z.lxor a b < N.
Proof.
  intros Ha Hb. assert (Z.lxor a b = Z.lxor a b mod N) as ->; [|apply Z.mod_pos_bound, N_pos].
  rewrite <- (Z.mod_small a N Ha), <- (Z.mod_small b N Hb) at 1.
  apply Z.bits_inj'. intros n Hn. unfold N. rewrite Z.lxor_spec. destruct (Z.lt_ge_cases n k).
  - by rewrite !Z.mod_pow2_bits_low, Z.lxor_spec.
  - by rewrite !Z.mod_pow2_bits_high by lia.
Qed.

Lemma hf_range f : 0 <= hf f < N.
Proof. apply Z.mod_pos_bound, N_pos. Qed.

Lemma other_range i f : 0 <= i < N -> 0 <= Z.lxor i (hf f) < N.
Proof. intros Hi. apply lxor_range; [done | apply hf_range]. Qed.

(** ** The contents of a table *)

Definition row_keys (i : Z) (row : list Z) : list (Z * Z) :=
  omap (fun f => if f =? magic_code then None else Some (key f i)) row.

Definition contents (b : Buckets) : list (Z * Z) :=
  concat (imap (fun i row => row_keys (Z.of_nat i) row) b).

(** A table of [N] buckets of four entries. *)
Definition table_ok (b : Buckets) : Prop :=
  Z.of_nat (length b) = N /\ Forall (fun row => length row = 4%nat) b.

Lemma row_keys_app i l1 l2 : row_keys i (l1 ++ l2) = row_keys i l1 ++ row_keys i l2.
Proof. apply omap_app. Qed.

Lemma row_keys_cons i x l : row_keys i (x :: l) = row_keys i [x] ++ row_keys i l.
Proof. apply (row_keys_app i [x]). Qed.

Lemma row_update i row e x f :
  row !! e = Some x ->
  row_keys i [x] ++ row_keys i (<[e := f]> row) ≡ₚ row_keys i [f] ++ row_keys i row.
Proof.
  intros He. apply lookup_lt_Some in He as Hlt.
  rewrite <- (take_drop_middle row e x He) at 2. rewrite insert_take_drop by done.
  rewrite !row_keys_app, (row_keys_cons i f), (row_keys_cons i x (drop _ _)). solve_Permutation.
Qed.

Lemma contents_split b i row :
  b !! i = Some row -> forall row',
  contents (<[i := row']> b) =
  concat (imap (fun i row => row_keys (Z.of_nat i) row) (take i b)) ++
  row_keys (Z.of_nat i) row' ++
  concat (imap (fun j row => row_keys (Z.of_nat (i + S j)) row) (drop (S i) b)).
Proof.
  intros Hi row'. apply lookup_lt_Some in Hi as Hlt. unfold contents.
  rewrite insert_take_drop by done. rewrite imap_app, concat_app. cbn [imap concat].
  rewrite length_take_le by lia. by rewrite Nat.add_0_r.
Qed.

Lemma contents_update b i row e x f :
  b !! i = Some row -> row !! e = Some x ->
  row_keys (Z.of_nat i) [x] ++ contents (<[i := <[e := f]> row]> b) ≡ₚ
  row_keys (Z.of_nat i) [f] ++ contents b.
Proof.
  intros Hi He. pose proof (contents_split _ _ _ Hi row) as Eb.
  rewrite (list_insert_id b i row Hi) in Eb. rewrite Eb, (contents_split _ _ _ Hi).
  pose proof (row_update (Z.of_nat i) row e x f He) as Hr.
  set (A := concat _). set (B := concat _).
  transitivity (A ++ (row_keys (Z.of_nat i) [x] ++ row_keys (Z.of_nat i) (<[e := f]> row)) ++ B);
    [solve_Permutation|]. rewrite Hr. solve_Permutation.
Qed.

(** ** Entries *)

Lemma get_entry_ok b i e :
  table_ok b -> 0 <= i < N -> 0 <= e < 4 ->
  exists row x, b !! Z.to_nat i = Some row /\ row !! Z.to_nat e = Some x /\
    length row = 4%nat /\ get_entry b i e = Ok x.
Proof.
  intros [Hl Hr] Hi He. destruct (at_index_ok b i) as (row & E & Hrow); [lia|].
  pose proof (Forall_lookup_1 _ _ _ _ Hr Hrow) as H4. cbn in H4.
  destruct (at_index_ok row e) as (x & E' & Hx); [lia|].
  exists row, x. split_and!; try done. unfold get_entry. by rewrite E, bind_ok.
Qed.

(** An assignment to an entry. *)
Lemma set_entry_ok b i e x f :
  table_ok b -> 0 <= i < N -> 0 <= e < 4 -> get_entry b i e = Ok x ->
  exists b', set_entry b i e f = Ok b' /\ table_ok b' /\
    row_keys i [x] ++ contents b' ≡ₚ row_keys i [f] ++ contents b /\
    get_entry b' i e = Ok f /\
    (forall j d, (j, d) <> (i, e) -> 0 <= j < N -> 0 <= d < 4 ->
       get_entry b' j d = get_entry b j d).
Proof.
  intros Hb Hi He Hx. destruct (get_entry_ok b i e Hb Hi He) as (row & x' & Hrow & Hx' & H4 & E).
  rewrite Hx in E. injection E as <-. destruct Hb as [Hl Hr].
  assert (set_entry b i e f = Ok (<[Z.to_nat i := <[Z.to_nat e := f]> row]> b)) as E.
  { unfold set_entry. rewrite (at_index_lookup b i row) by (done || lia). rewrite bind_ok.
    rewrite set_index_ok by lia. rewrite bind_ok. apply set_index_ok. lia. }
  exists (<[Z.to_nat i := <[Z.to_nat e := f]> row]> b).
  assert (table_ok (<[Z.to_nat i := <[Z.to_nat e := f]> row]> b)) as Hok.
  { split; [by rewrite length_insert|]. apply Forall_insert; [done|]. by rewrite length_insert. }
  split; [done|]. split; [done|]. split_and!.
  - rewrite <- (Z2Nat.id i) at 1 3 by lia. by apply contents_update.
  - unfold get_entry. erewrite at_index_lookup; [|lia|]. 2: { apply list_lookup_insert_eq. lia. }
    rewrite bind_ok. apply at_index_lookup; [lia|]. apply list_lookup_insert_eq. lia.
  - intros j d Hne Hj Hd. unfold get_entry. destruct (decide (j = i)) as [->|Hij].
    + rewrite (at_index_lookup b i row) by (done || lia).
      erewrite at_index_lookup; [|lia|apply list_lookup_insert_eq; lia]. rewrite !bind_ok.
      unfold at_index. rewrite list_lookup_insert_ne; [done|]. intros E'. apply Hne. f_equal. lia.
    + assert (forall row', (<[Z.to_nat i := row']> b).[j] = b.[j]) as ->; [|done].
      intros row'. unfold at_index. by rewrite list_lookup_insert_ne by lia.
Qed.

(** ** Searching a bucket *)

Definition full (b : Buckets) (i : Z) : Prop :=
  forall e, 0 <= e < 4 -> get_entry b i e <> Ok magic_code.

Lemma find_entry_spec b i f js :
  table_ok b -> 0 <= i < N -> Forall (fun j => 0 <= j < 4) js ->
  exists r, find_entry b i f js = Ok r /\
    (r = npos /\ Forall (fun j => get_entry b i j <> Ok f) js \/
     0 <= r < 4 /\ get_entry b i r = Ok f).
Proof.
  intros Hb Hi. induction 1 as [|j js Hj _ IH]; cbn [find_entry].
  { exists npos. split; [done|]. left. split; [done | by apply Forall_nil]. }
  destruct (get_entry_ok b i j Hb Hi Hj) as (_ & x & _ & _ & _ & E). rewrite E, bind_ok.
  destruct (Z.eqb_spec x f) as [->|Hne]; [by exists j; auto|].
  destruct IH as (r & Er & Hr). exists r. split; [done|].
  destruct Hr as [[-> Hn]|Hr]; [left | by right]. split; [done|]. apply Forall_cons. split; [congruence | done].
Qed.

Lemma bucket_has_spec b i f :
  table_ok b -> 0 <= i < N ->
  exists r, bucket_has b i f = Ok r /\
    (r = npos /\ (forall e, 0 <= e < 4 -> get_entry b i e <> Ok f) \/
     0 <= r < 4 /\ get_entry b i r = Ok f).
Proof.
  intros Hb Hi. destruct (find_entry_spec b i f (seqZ 0 4) Hb Hi) as (r & E & H).
  { by repeat (apply Forall_cons; split; [lia|]). }
  exists r. split; [done|]. destruct H as [[-> H]|H]; [left | by right]. split; [done|].
  intros e He. eapply Forall_forall in H; [exact H|]. apply elem_of_seqZ. lia.
Qed.

(** Filling a hole adds the fingerprint to the contents. *)
Lemma add_entry_ok b i e f :
  table_ok b -> 0 <= i < N -> 0 <= e < 4 -> get_entry b i e = Ok magic_code ->
  exists b', add_entry b i e f = Ok b' /\ table_ok b' /\
    contents b' ≡ₚ row_keys i [f] ++ contents b.
Proof.
  intros Hb Hi He E. destruct (set_entry_ok b i e magic_code f Hb Hi He E) as (b' & E' & Hb' & Hc & _).
  exists b'. unfold add_entry. by rewrite E, bind_ok.
Qed.

Lemma row_keys_one i f : f <> magic_code -> row_keys i [f] = [key f i].
Proof. intros Hf. cbn. by rewrite (proj2 (Z.eqb_neq _ _) Hf). Qed.

Lemma add_hole_spec b f tab :
  table_ok b -> Forall (fun i => 0 <= i < N) tab ->
  (add_hole b f tab = Ok None /\ Forall (full b) tab) \/
  exists b' i, add_hole b f tab = Ok (Some b') /\ i ∈ tab /\ table_ok b' /\
    contents b' ≡ₚ row_keys i [f] ++ contents b.
Proof.
  intros Hb. induction 1 as [|i tab Hi _ IH]; cbn [add_hole]; [by left|].
  destruct (bucket_has_spec b i magic_code Hb Hi) as (r & E & Hr).
  unfold bucket_has_hole. unfold bucket_has in E. rewrite E, bind_ok.
  destruct Hr as [[-> Hn]|[Hr Hh]].
  - rewrite Z.eqb_refl. cbn [negb]. destruct IH as [[-> Hf]|(b' & j & -> & Hj & ?)].
    + left. split; [done|]. by apply Forall_cons.
    + right. exists b', j. split; [done|]. split; [by right | done].
  - rewrite (found_not_npos r Hr). destruct (add_entry_ok b i r f Hb Hi Hr Hh) as (b' & -> & ? & ?).
    right. exists b', i. split; [done|]. split; [by left | done].
Qed.

(** ** Relocation *)

(** A turn in a full bucket puts the fingerprint in and takes another one out. *)
Lemma any_entry_ok b i g :
  table_ok b -> 0 <= i < N -> full b i ->
  exists e g' x, any_entry b i g = Ok (e, g') /\ 0 <= e < 4 /\ get_entry b i e = Ok x /\
    x <> magic_code.
Proof.
  intros Hb Hi Hf. unfold any_entry. pose proof (uniform_int_range 0 3 g ltac:(lia)) as He.
  destruct (uniform_int 0 3 g) as [e g']. cbn [fst] in He.
  destruct (get_entry_ok b i e Hb Hi ltac:(lia)) as (_ & x & _ & _ & _ & E).
  assert (x <> magic_code) as Hx by (intros ->; by apply (Hf e); [lia|]).
  exists e, g', x. rewrite E, bind_ok, (proj2 (Z.eqb_neq _ _) Hx). split_and!; done || lia.
Qed.

Lemma relocate_spec n : forall b g i f,
  table_ok b -> 0 <= i < N -> full b i -> f <> magic_code ->
  exists ok b' g', relocate_loop hash_fbits N n b g i f = Ok (ok, b', g') /\ table_ok b' /\
    (if (ok : bool) then contents b' ≡ₚ key f i :: contents b
     else exists f' i', f' <> magic_code /\ 0 <= i' < N /\
       key f' i' :: contents b' ≡ₚ key f i :: contents b).
Proof.
  induction n as [|n IH]; intros b g i f Hb Hi Hfull Hf; cbn [relocate_loop].
  { exists false, b, g. split; [done|]. split; [done|]. by exists f, i. }
  destruct (any_entry_ok b i g Hb Hi Hfull) as (e & g1 & x & -> & He & Ex & Hx).
  rewrite bind_ok. cbn beta iota. rewrite Ex, bind_ok.
  destruct (set_entry_ok b i e x f Hb Hi He Ex) as (b1 & E1 & Hb1 & Hc1 & _). rewrite E1, bind_ok.
  rewrite !row_keys_one in Hc1 by done. cbn [app] in Hc1. fold (hf x).
  pose proof (other_range i x Hi) as Hi1.
  destruct (bucket_has_spec b1 (Z.lxor i (hf x)) magic_code Hb1 Hi1) as (r & Er & Hr).
  unfold bucket_has_hole. unfold bucket_has in Er. rewrite Er, bind_ok.
  destruct Hr as [[-> Hn]|[Hr Hh]].
  - rewrite Z.eqb_refl. cbn [negb].
    destruct (IH b1 g1 (Z.lxor i (hf x)) x Hb1 Hi1 Hn Hx) as (ok & b2 & g2 & E2 & Hb2 & Hc2).
    rewrite key_other in Hc2. exists ok, b2, g2. split; [done|]. split; [done|].
    destruct ok.
    + by rewrite Hc2, Hc1.
    + destruct Hc2 as (f' & i' & ? & ? & Hc2). exists f', i'. by rewrite Hc2, Hc1.
  - rewrite (found_not_npos r Hr).
    destruct (add_entry_ok b1 _ r x Hb1 Hi1 Hr Hh) as (b2 & -> & Hb2 & Hc2).
    rewrite row_keys_one, key_other in Hc2 by done.
    exists true, b2, g1. split; [done|]. split; [done|]. by rewrite Hc2.
Qed.

(** ** Membership *)

Lemma contents_elem b f i :
  table_ok b -> f <> magic_code ->
  key f i ∈ contents b <->
  exists j e, 0 <= j < N /\ 0 <= e < 4 /\ get_entry b j e = Ok f /\ key f j = key f i.
Proof.
  intros Hb Hf. unfold contents. rewrite list_elem_of_In, in_concat. split.
  - intros (l & Hl & Hin). apply list_elem_of_In in Hl, Hin.
    apply elem_of_lookup_imap in Hl as (j & row & -> & Hj).
    apply list_elem_of_omap in Hin as (x & Hx & Ex). destruct (x =? magic_code); [done|].
    injection Ex as -> E. apply list_elem_of_lookup_1 in Hx as [e He]. destruct Hb as [Hl Hr].
    apply lookup_lt_Some in Hj as Hjl. apply lookup_lt_Some in He as Hel.
    pose proof (Forall_lookup_1 _ _ _ _ Hr Hj) as H4. cbn in H4.
    exists (Z.of_nat j), (Z.of_nat e). split_and!; try lia; [|by unfold key; f_equal].
    unfold get_entry. rewrite (at_index_lookup b _ row), bind_ok by (lia || by rewrite Nat2Z.id).
    apply at_index_lookup; [lia | by rewrite Nat2Z.id].
  - intros (j & e & Hj & He & E & Ek).
    destruct (get_entry_ok b j e Hb Hj He) as (row & x & Hrow & Hx & _ & E').
    rewrite E in E'. injection E' as <-. exists (row_keys j row). split; apply list_elem_of_In.
    + apply elem_of_lookup_imap. exists (Z.to_nat j), row. by rewrite Z2Nat.id by lia.
    + apply list_elem_of_omap. exists f. split; [by eapply list_elem_of_lookup_2|].
      by rewrite (proj2 (Z.eqb_neq _ _) Hf), Ek.
Qed.

(** A fingerprint is in the contents if one of its two buckets has it. *)
Lemma in_buckets b f i :
  table_ok b -> 0 <= i < N -> f <> magic_code ->
  key f i ∈ contents b <->
  exists j e, (j = i \/ j = Z.lxor i (hf f)) /\ 0 <= e < 4 /\ get_entry b j e = Ok f.
Proof.
  intros Hb Hi Hf. rewrite contents_elem by done. split.
  - intros (j & e & _ & He & E & Ek%key_inj). by exists j, e.
  - intros (j & e & Hj & He & E). exists j, e. split; [|split; [done|split; [done|]]].
    + destruct Hj as [->| ->]; [done | by apply other_range].
    + destruct Hj as [->| ->]; [done | apply key_other].
Qed.

(** ** The operations as operations on the contents *)

(** The fingerprint of an item with its pair of buckets. *)
Definition item_key (x : T) : Z * Z :=
  key (fingerprint hash_T x) (hash hash_string N x).

Lemma hash_range x : 0 <= hash hash_string N x < N.
Proof. apply Z.mod_pos_bound, N_pos. Qed.

Lemma lookup_spec (c : Cuckoo G) x :
  table_ok (_buckets c) -> fingerprint hash_T x <> magic_code ->
  exists r, CuckooFilter.lookup hash_T hash_string hash_fbits N c x = Ok r /\
    (r = true <-> item_key x ∈ contents (_buckets c)).
Proof.
  intros Hb Hf. unfold CuckooFilter.lookup, item_key. set (f := fingerprint hash_T x) in *.
  set (i := hash hash_string N x). fold (hf f). pose proof (hash_range x) as Hi. fold i in Hi.
  setoid_rewrite (in_buckets (_buckets c) f i Hb Hi Hf).
  destruct (bucket_has_spec _ i f Hb Hi) as (r1 & -> & H1).
  destruct (bucket_has_spec _ _ f Hb (other_range i f Hi)) as (r2 & -> & H2).
  rewrite !bind_ok. destruct H1 as [[-> H1]|[Hr1 H1]].
  - rewrite Z.eqb_refl. cbn [negb]. destruct H2 as [[-> H2]|[Hr2 H2]].
    + exists false. split; [done|]. split; [done|].
      intros (j & e & [->| ->] & He & E); exfalso; [by apply (H1 e) | by apply (H2 e)].
    + rewrite (found_not_npos r2 Hr2). exists true. split; [done|]. split; [|done].
      intros _. exists (Z.lxor i (hf f)), r2. auto.
  - rewrite (found_not_npos r1 Hr1). exists true. split; [done|]. split; [|done].
    intros _. exists i, r1. auto.
Qed.

(** Taking a fingerprint out of a bucket that has it. *)
Lemma reset_entry_ok b i e f :
  table_ok b -> 0 <= i < N -> 0 <= e < 4 -> get_entry b i e = Ok f -> f <> magic_code ->
  exists b', reset_entry b i e = Ok b' /\ table_ok b' /\ contents b ≡ₚ key f i :: contents b'.
Proof.
  intros Hb Hi He E Hf.
  destruct (set_entry_ok b i e f magic_code Hb Hi He E) as (b' & E' & Hb' & Hc & _).
  exists b'. split; [done|]. split; [done|]. rewrite row_keys_one in Hc by done. by symmetry.
Qed.

Lemma remove_spec (c : Cuckoo G) x :
  table_ok (_buckets c) -> fingerprint hash_T x <> magic_code ->
  (item_key x ∈ contents (_buckets c) ->
     exists c', CuckooFilter.remove hash_T hash_string hash_fbits N c x = Ok c' /\ table_ok (_buckets c') /\
       contents (_buckets c) ≡ₚ item_key x :: contents (_buckets c')) /\
  (item_key x ∉ contents (_buckets c) ->
     CuckooFilter.remove hash_T hash_string hash_fbits N c x = Ub AssertFailed).
Proof.
  intros Hb Hf. unfold CuckooFilter.remove, item_key. set (f := fingerprint hash_T x) in *.
  set (i := hash hash_string N x). fold (hf f). pose proof (hash_range x) as Hi. fold i in Hi.
  pose proof (other_range i f Hi) as Hj. rewrite in_buckets by done. cbn [remove_from].
  destruct (bucket_has_spec _ i f Hb Hi) as (r1 & -> & H1).
  destruct (bucket_has_spec _ _ f Hb Hj) as (r2 & -> & H2). rewrite !bind_ok.
  destruct H1 as [[-> H1]|[Hr1 H1]]; [rewrite Z.eqb_refl; cbn [negb];
    destruct H2 as [[-> H2]|[Hr2 H2]]|].
  - rewrite Z.eqb_refl. cbn [negb]. rewrite bind_ub. split; [|done].
    intros (j & e & [->| ->] & He & E); exfalso; [by apply (H1 e) | by apply (H2 e)].
  - rewrite (found_not_npos r2 Hr2).
    destruct (reset_entry_ok _ _ r2 f Hb Hj Hr2 H2 Hf) as (b' & -> & Hb' & Hc).
    rewrite bind_ok. rewrite key_other in Hc. split; [eauto|]. intros Hn. destruct Hn.
    exists (Z.lxor i (hf f)), r2. auto.
  - rewrite (found_not_npos r1 Hr1).
    destruct (reset_entry_ok _ _ r1 f Hb Hi Hr1 H1 Hf) as (b' & -> & Hb' & Hc).
    rewrite bind_ok. split; [eauto|]. intros Hn. destruct Hn. exists i, r1. auto.
Qed.

Lemma add_spec (c : Cuckoo G) x :
  table_ok (_buckets c) -> fingerprint hash_T x <> magic_code ->
  exists ok c', add hash_T hash_string hash_fbits N c x = Ok (ok, c') /\ table_ok (_buckets c') /\
    (if (ok : bool) then contents (_buckets c') ≡ₚ item_key x :: contents (_buckets c)
     else exists f' i', f' <> magic_code /\ 0 <= i' < N /\
       key f' i' :: contents (_buckets c') ≡ₚ item_key x :: contents (_buckets c)).
Proof.
  intros Hb Hf. unfold add, item_key. set (f := fingerprint hash_T x) in *.
  set (i := hash hash_string N x). fold (hf f). pose proof (hash_range x) as Hi. fold i in Hi.
  pose proof (other_range i f Hi) as Hj.
  assert (forall j1 j2 round, 0 <= j1 < N -> 0 <= j2 < N -> key f j1 = key f i ->
    key f j2 = key f i -> exists ok c',
    (r ← add_hole (_buckets c) f [j1; j2];
     match r with
     | Some b => Ok (true, mkCuckoo b round (re c))
     | None => '(ok, b, g) ← relocate_loop hash_fbits N 100 (_buckets c) (re c) j1 f;
               Ok (ok, mkCuckoo b round g)
     end) = Ok (ok, c') /\ table_ok (_buckets c') /\
    (if (ok : bool) then contents (_buckets c') ≡ₚ key f i :: contents (_buckets c)
     else exists f' i', f' <> magic_code /\ 0 <= i' < N /\
       key f' i' :: contents (_buckets c') ≡ₚ key f i :: contents (_buckets c))) as Hadd.
  { intros j1 j2 round H1 H2 E1 E2.
    destruct (add_hole_spec (_buckets c) f [j1; j2] Hb) as [[-> Hfull]|(b' & j & -> & Hjj & Hb' & Hc)].
    { by repeat (apply Forall_cons; split; [done|]). }
    - rewrite bind_ok. apply Forall_cons in Hfull as [Hfull _].
      destruct (relocate_spec 100 _ (re c) j1 f Hb H1 Hfull Hf) as (ok & b' & g' & -> & Hb' & Hc).
      rewrite bind_ok. eexists ok, _. split; [done|]. rewrite E1 in Hc. by split.
    - rewrite bind_ok. eexists true, _. split; [done|]. split; [done|]. cbn [_buckets].
      rewrite Hc, row_keys_one by done. cbn [app].
      rewrite !elem_of_cons, elem_of_nil in Hjj. destruct Hjj as [->|[->|[]]]; by rewrite ?E1, ?E2. }
  destruct (negb (s_round c)); apply Hadd; try done; apply key_other.
Qed.

(** ** Histories *)

(** A filter after a sequence of operations, with the items that were added and
    not removed; items with the fingerprint that marks a hole are left out. *)
Inductive history : Cuckoo G -> list T -> Prop :=
  | hist_new round g : history (create N round g) []
  | hist_add c c' h x :
      history c h -> fingerprint hash_T x <> magic_code ->
      add hash_T hash_string hash_fbits N c x = Ok (true, c') -> history c' (x :: h)
  | hist_remove c c' h x h' :
      history c h -> h ≡ₚ x :: h' ->
      CuckooFilter.remove hash_T hash_string hash_fbits N c x = Ok c' -> history c' h'.

Lemma no_contents n (p : nat -> Z) :
  concat (imap (fun i row => row_keys (p i) row) (replicate n (replicate 4 magic_code))) = [].
Proof. revert p. induction n as [|n IH]; intros p; [done|]. exact (IH (p ∘ S)). Qed.

Lemma create_ok round (g : G) :
  table_ok (_buckets (create N round g)) /\ contents (_buckets (create N round g)) = [].
Proof.
  unfold create. cbn [_buckets]. pose proof N_pos. split.
  - split; [rewrite length_replicate; lia | by apply Forall_replicate].
  - apply (no_contents (Z.to_nat N) Z.of_nat).
Qed.

Lemma history_ok c h :
  history c h ->
  table_ok (_buckets c) /\ Forall (fun x => fingerprint hash_T x <> magic_code) h /\
  contents (_buckets c) ≡ₚ item_key <$> h.
Proof.
  induction 1 as [round g|c c' h x _ (Hb & Hf & Hc) Hx E|c c' h x h' _ (Hb & Hf & Hc) Hp E].
  - destruct (create_ok round g) as [? Ec]. split; [done|]. split; [by apply Forall_nil|].
    by rewrite Ec.
  - destruct (add_spec c x Hb Hx) as (ok & c1 & E1 & Hb1 & Hc1).
    rewrite E in E1. injection E1 as <- <-. split; [done|]. split; [by apply Forall_cons|].
    cbn [fmap list_fmap]. by rewrite Hc1, Hc.
  - rewrite Hp in Hf, Hc. apply Forall_cons in Hf as [Hx Hf]. cbn [fmap list_fmap] in Hc.
    destruct (remove_spec c x Hb Hx) as [Hr _].
    destruct Hr as (c1 & E1 & Hb1 & Hc1); [rewrite Hc; by left|].
    rewrite E in E1. injection E1 as <-. split; [done|]. split; [done|].
    apply (Permutation_cons_inv (a := item_key x)). by rewrite <- Hc1.
Qed.

(** ** The fingerprint that marks a hole *)

Lemma set_entry_same b i e x :
  table_ok b -> 0 <= i < N -> 0 <= e < 4 -> get_entry b i e = Ok x -> set_entry b i e x = Ok b.
Proof.
  intros Hb Hi He E. destruct (get_entry_ok b i e Hb Hi He) as (row & y & Hrow & Hy & H4 & E').
  rewrite E in E'. injection E' as <-. destruct Hb as [Hl _].
  unfold set_entry. rewrite (at_index_lookup b i row), bind_ok by (done || lia).
  rewrite set_index_ok, bind_ok by lia. rewrite (list_insert_id row) by done.
  rewrite set_index_ok by lia. by rewrite list_insert_id.
Qed.

Lemma add_hole_magic b tab :
  table_ok b -> Forall (fun i => 0 <= i < N) tab -> ~ Forall (full b) tab ->
  add_hole b magic_code tab = Ok (Some b).
Proof.
  intros Hb. induction 1 as [|i tab Hi _ IH]; intros Hn; [by destruct Hn; apply Forall_nil|].
  cbn [add_hole]. destruct (bucket_has_spec b i magic_code Hb Hi) as (r & E & Hr).
  unfold bucket_has_hole. unfold bucket_has in E. rewrite E, bind_ok.
  destruct Hr as [[-> Hf]|[Hr Hh]].
  - rewrite Z.eqb_refl. cbn [negb]. apply IH. intros Hall. apply Hn. by apply Forall_cons.
  - rewrite (found_not_npos r Hr). unfold add_entry. rewrite Hh, bind_ok.
    cbn [check Z.eqb]. rewrite Z.eqb_refl. cbn [check]. rewrite bind_ok.
    by rewrite set_entry_same, bind_ok.
Qed.
End proofs.
