(* ===== verification/CuckooProps.v ===== *)
(** * The cuckoo filter: theorems *)

From S2P Require Import Prelude CuckooFilter.
From stdpp Require Import list_relations list.
#[local] Open Scope Z_scope.

(** An engine that draws the lower bound. *)
#[export] Instance lowest_engine : RandomEngine unit.
Proof.
  refine {| uniform_int a _ g := (a, g); below_percent _ g := (false, g) |}. cbn. lia.
Defined.

(** A filter of four buckets for numbers that are their own hashes. *)
Definition id_filter : Cuckoo unit := create 4 false tt.





(** An item whose fingerprint is the mark of a hole is not stored: while one
    of its buckets has a hole, add reports success and leaves the table as it
    is, and lookup finds the item whether or not it was added; once both buckets
    are full, lookup does not find it, even if it was added. *)
Theorem cuckoo_magic_not_stored {T} (hash_T hash_string : T -> Z) (hash_fbits : Z -> Z) k
    {G} `{!RandomEngine G} (c : Cuckoo G) x :
  0 <= k < 64 -> table_ok k (_buckets c) -> fingerprint hash_T x = magic_code ->
  let N := 2 ^ k in
  let i1 := hash hash_string N x in
  let i2 := Z.lxor i1 (hash_f hash_fbits N magic_code) in
  (~ (full (_buckets c) i1 /\ full (_buckets c) i2) ->
     (exists c', add hash_T hash_string hash_fbits N c x = Ok (true, c') /\
        _buckets c' = _buckets c) /\
     CuckooFilter.lookup hash_T hash_string hash_fbits N c x = Ok true) /\
  (full (_buckets c) i1 -> full (_buckets c) i2 ->
     CuckooFilter.lookup hash_T hash_string hash_fbits N c x = Ok false).
Proof.
  intros Hk Hb Hf N i1 i2.
  assert (0 <= i1 < N) as H1 by (apply hash_range; done).
  assert (0 <= i2 < N) as H2 by (apply other_range; done).
  destruct (bucket_has_spec k Hk (_buckets c) i1 magic_code Hb H1) as (r1 & E1 & R1).
  destruct (bucket_has_spec k Hk (_buckets c) i2 magic_code Hb H2) as (r2 & E2 & R2).
  assert (CuckooFilter.lookup hash_T hash_string hash_fbits N c x =
    Ok (negb (r1 =? npos) || negb (r2 =? npos))) as El.
  { unfold CuckooFilter.lookup. rewrite Hf. fold i1 i2. rewrite E1, bind_ok.
    destruct (negb (r1 =? npos)); [done|]. by rewrite E2. }
  rewrite El. split.
  - intros Hn. split.
    + unfold add. rewrite Hf. fold i1 i2.
      destruct (negb (s_round c)); rewrite (add_hole_magic k Hk (_buckets c)); try done;
        try (by repeat (apply Forall_cons; split; [done|]));
        try (rewrite !Forall_cons; tauto); by eexists.
    + f_equal. destruct R1 as [[-> R1]|[R1 _]], R2 as [[-> R2]|[R2 _]];
        try rewrite (found_not_npos _ R1); try rewrite (found_not_npos _ R2);
        rewrite ?orb_true_r; [by destruct Hn | done..].
  - intros F1 F2. f_equal. destruct R1 as [[-> _]|[R1 B1]]; [|by destruct (F1 r1 R1)].
    by destruct R2 as [[-> _]|[R2 B2]]; [|destruct (F2 r2 R2)].
Qed.

Lemma cuckoo_magic_not_stored_witness :
  CuckooFilter.lookup (fun x => x) (fun x => x) (fun f => f) 4 id_filter magic_code = Ok true.
Proof.
  apply (cuckoo_magic_not_stored (fun x : Z => x) (fun x => x) (fun f => f) 2 id_filter magic_code);
    [lia | apply (create_ok (fun f => f) 2); lia | reflexivity |].
  intros [H _]. apply (H 0); [lia | reflexivity].
Defined.
