(* ===== verification/AliasMethod.v ===== *)
(** * The alias method

    src/Algorithm/alias_method.cpp: the class Alias, which returns an index with a given probability
    in constant time.

    The arithmetic is an interface, with two instances: the double of IEEE 754, and exact arithmetic
    on the multiples of [1 / E].  A vector that is used as a stack is a list with its back in front.
    The draws of the distributions are arguments. *)

From S2P Require Import Prelude.
From Stdlib Require Import SpecFloat.
From stdpp Require Import list list_relations.
#[local] Open Scope Z_scope.

(** The operations on double that the class uses: [f_scale n x] is [n * x] for a [size_t]. *)
Class Arith (F : Type) := {
  f_zero : F;
  f_one : F;
  f_of_size : Z -> F;
  f_trunc : F -> Z;
  f_scale : Z -> F -> F;
  f_add : F -> F -> F;
  f_sub : F -> F -> F;
  f_abs : F -> F;
  f_lt : F -> F -> bool;
  (** [x < EPS] *)
  f_below_eps : F -> bool;
}.

Section alias.
Context {F : Type} `{!Arith F}.

Definition is_one (x : F) : bool := f_below_eps (f_abs (f_sub x f_one)).

Definition precondition (probabilities : list F) : res unit :=
  _ ← check (negb (bool_decide (length probabilities = 0%nat))) AssertFailed;
  let p_sum := foldl f_add f_zero probabilities in
  check (is_one p_sum) AssertFailed.

Inductive u_type : Set := OVERFULL | FULL | UNDERFULL.

(** The table K and the three vectors of U. *)
Record Tables : Type := mkTables { K : list Z; U_over : list (Z * F); U_full : list (Z * F); U_under : list (Z * F) }.

Definition get_type (i : Z) (p : F) (t : Tables) : res (u_type * Tables) :=
  let type := if f_lt f_one p then OVERFULL else UNDERFULL in
  if is_one p then K' ← (K t).[i <- i]; Ok (FULL, mkTables K' (U_over t) (U_full t) (U_under t))
  else Ok (type, t).

(** [U[type].emplace_back(i, p)]. *)
Definition emplace_back (type : u_type) (x : Z * F) (t : Tables) : Tables :=
  match type with
  | OVERFULL => mkTables (K t) (x :: U_over t) (U_full t) (U_under t)
  | FULL => mkTables (K t) (U_over t) (x :: U_full t) (U_under t)
  | UNDERFULL => mkTables (K t) (U_over t) (U_full t) (x :: U_under t)
  end.

Definition insert_typed (t : Tables) (x : Z * F) : res Tables :=
  '(type, t) ← get_type x.1 x.2 t; Ok (emplace_back type x t).

(** A turn of the loop that pairs a column that has too much with one that has too little. *)
Definition pair_body (t : Tables) : res (Tables + Tables) :=
  match U_over t, U_under t with
  | (over_i, over_p) :: over, (under_i, under_p) :: under =>
      let over_p := f_sub over_p (f_sub f_one under_p) in
      K' ← (K t).[under_i <- over_i];
      let t := mkTables K' over ((under_i, under_p) :: U_full t) under in
      t ← insert_typed t (over_i, over_p);
      Ok (inl t)
  | _, _ => Ok (inr t)
  end.

(** [corner_case(ulist)]: the table K and the vector U[FULL]. *)
Fixpoint corner_case (ulist : list (Z * F)) (K : list Z) (full : list (Z * F)) : res (list Z * list (Z * F)) :=
  match ulist with
  | [] => Ok (K, full)
  | (i, p) :: ulist =>
      _ ← check (is_one p) AssertFailed;
      K ← K.[i <- i];
      corner_case ulist K ((i, p) :: full)
  end.

Definition make_alias_table (probabilities : list F) : res (list F * list Z) :=
  let N := Z.of_nat (length probabilities) in
  let probabilities := f_scale N <$> probabilities in
  let t := mkTables (replicate (length probabilities) N) [] [] [] in
  t ← foldR insert_typed t (indexed probabilities);
  t ← loop pair_body (S (length probabilities)) t;
  '(K, full) ← corner_case (U_over t) (K t) (U_full t);
  '(K, full) ← corner_case (U_under t) K full;
  full_u ← foldR (fun full_u '(i, p) => full_u.[i <- p]) (replicate (length probabilities) f_zero) (rev full);
  Ok (full_u, K).

(** The constructor. *)
Definition Alias (probabilities : list F) : res (list F * list Z) :=
  _ ← precondition probabilities; make_alias_table probabilities.

(** [make()], of a draw [x] of [dis01]. *)
Definition make (a : list F * list Z) (x : F) : res Z :=
  let '(_probs, _alias) := a in
  let n := Z.of_nat (length _alias) in
  let i := f_trunc (f_scale n x) in
  let p := f_sub (f_scale n x) (f_of_size i) in
  q ← _probs.[i];
  if f_lt p q then Ok i else _alias.[i].

(** The overload that draws [i] of [dis0N] and [p] of [dis01]. *)
Definition make_simple (a : list F * list Z) (i : Z) (p : F) : res Z :=
  let '(_probs, _alias) := a in
  q ← _probs.[i];
  if f_lt p q then Ok i else _alias.[i].

(** ** Any arithmetic

    Whatever the arithmetic does, every index is in one of the vectors, and the constructor ends
    with a table of indices or with a failed assertion. *)

Definition indices (t : Tables) : list Z := (U_over t).*1 ++ (U_under t).*1 ++ (U_full t).*1.

Record shaped (N : nat) (l : list Z) (t : Tables) : Prop := {
  sh_K : length (K t) = N;
  sh_indices : indices t ≡ₚ l;
  sh_nodup : NoDup l;
  sh_range : Forall (fun i => 0 <= i < Z.of_nat N) l;
  sh_full i : i ∈ (U_full t).*1 -> exists k, (K t) !! Z.to_nat i = Some k /\ 0 <= k < Z.of_nat N;
}.

Lemma insert_typed_ok t x : 0 <= x.1 < Z.of_nat (length (K t)) -> exists t', insert_typed t x = Ok t' /\
  (is_one x.2 = true /\ t' = mkTables (<[Z.to_nat x.1 := x.1]> (K t)) (U_over t) (x :: U_full t) (U_under t) \/
   is_one x.2 = false /\ f_lt f_one x.2 = true /\ t' = mkTables (K t) (x :: U_over t) (U_full t) (U_under t) \/
   is_one x.2 = false /\ f_lt f_one x.2 = false /\ t' = mkTables (K t) (U_over t) (U_full t) (x :: U_under t)).
Proof.
  intros Hx. unfold insert_typed, get_type. destruct (is_one x.2) eqn:E1.
  - rewrite set_index_ok by lia. cbn [mbind res_bind emplace_back]. eauto 10.
  - cbn [mbind res_bind]. destruct (f_lt f_one x.2) eqn:E2; cbn [emplace_back]; eauto 10.
Qed.

Lemma insert_typed_shaped N l t x : shaped N l t -> x.1 ∉ l -> 0 <= x.1 < Z.of_nat N ->
  exists t', insert_typed t x = Ok t' /\ shaped N (x.1 :: l) t'.
Proof.
  intros [HK Hi Hnd Hr Hf] Hnew Hx. destruct (insert_typed_ok t x) as (t' & E & H); [lia|]. exists t'. split; [done|].
  assert (forall i, i ∈ (U_full t).*1 -> i ∈ l) as Hin.
  { intros i Hin. rewrite <- Hi. unfold indices. rewrite !elem_of_app. auto. }
  assert (NoDup (x.1 :: l) /\ Forall (fun i => 0 <= i < Z.of_nat N) (x.1 :: l)) as [Hnd' Hr'] by (split; by constructor).
  destruct H as [(_ & ->)|[(_ & _ & ->)|(_ & _ & ->)]]; (split; [cbn [K]; by rewrite ?length_insert | | done | done|]); cbn [U_over U_full U_under K].
  - unfold indices. cbn [U_over U_full U_under]. rewrite fmap_cons. rewrite <- Hi. unfold indices. rewrite !app_assoc. symmetry. apply Permutation_middle.
  - intros i. rewrite fmap_cons, elem_of_cons. intros [->|Hin'].
    + exists x.1. split; [apply list_lookup_insert_eq; lia | lia].
    + rewrite list_lookup_insert_ne; [by apply Hf|]. apply Hin in Hin'. intros E'. apply Hnew. rewrite Forall_forall in Hr. specialize (Hr i Hin').
      cbn beta in Hr. by replace x.1 with i by lia.
  - unfold indices. cbn [U_over U_full U_under]. rewrite fmap_cons. cbn [app]. by rewrite <- Hi.
  - done.
  - unfold indices. cbn [U_over U_full U_under]. rewrite fmap_cons. rewrite <- Hi. unfold indices. cbn [app]. symmetry. apply Permutation_middle.
  - done.
Qed.

Lemma shaped_perm N l l' t : shaped N l t -> l ≡ₚ l' -> shaped N l' t.
Proof.
  intros [HK Hi Hnd Hr Hf] Hp. split; [done | by rewrite <- Hp | by rewrite <- Hp | by rewrite <- Hp | done].
Qed.

Lemma shaped_in_range N l t i : shaped N l t -> i ∈ indices t -> 0 <= i < Z.of_nat N.
Proof. intros H Hi. pose proof (sh_range _ _ _ H) as Hr. rewrite Forall_forall in Hr. apply Hr. by rewrite <- (sh_indices _ _ _ H). Qed.

Lemma insert_all_shaped N xs l t : shaped N l t -> NoDup (xs.*1 ++ l) -> Forall (fun x => 0 <= x.1 < Z.of_nat N) xs ->
  exists t', foldR insert_typed t xs = Ok t' /\ shaped N (xs.*1 ++ l) t'.
Proof.
  intros Ht Hnd Hr. revert l t Ht Hnd. induction Hr as [|x xs Hx _ IH]; intros l t Ht Hnd; [by exists t|].
  rewrite fmap_cons in Hnd. cbn [app] in Hnd. apply NoDup_cons in Hnd as [Hn Hnd].
  destruct (insert_typed_shaped N l t x) as (t1 & E1 & H1); [done | | done|]; [intros H; apply Hn; apply elem_of_app; by right|].
  cbn [foldR]. rewrite E1. cbn [mbind res_bind]. destruct (IH (x.1 :: l) t1 H1) as (t2 & E2 & H2).
  - rewrite <- Permutation_middle. by constructor.
  - exists t2. split; [done|]. eapply shaped_perm; [exact H2|]. rewrite fmap_cons. cbn [app]. symmetry. apply Permutation_middle.
Qed.

Lemma pair_shaped N l t oi op over ui up under : shaped N l t -> U_over t = (oi, op) :: over -> U_under t = (ui, up) :: under ->
  exists l0, l ≡ₚ (oi :: l0) /\ (oi ∉ l0) /\ 0 <= oi < Z.of_nat N /\ 0 <= ui < Z.of_nat N /\ (ui ∉ (U_full t).*1) /\ ui <> oi /\
    shaped N l0 (mkTables (<[Z.to_nat ui := oi]> (K t)) over ((ui, up) :: U_full t) under).
Proof.
  intros H Ho Hu. pose proof H as [HK Hi Hnd Hr Hf]. set (l0 := over.*1 ++ under.*1 ++ (ui :: (U_full t).*1)).
  assert (l ≡ₚ (oi :: l0)) as Hp.
  { rewrite <- Hi. unfold indices. rewrite Ho, Hu, !fmap_cons. cbn [fst app]. constructor. unfold l0. f_equiv. apply Permutation_middle. }
  assert (NoDup (oi :: l0)) as Hnd0 by by rewrite <- Hp. apply NoDup_cons in Hnd0 as [Hno Hnd0].
  assert (0 <= oi < Z.of_nat N) as Hoi by (eapply shaped_in_range; [exact H|]; rewrite Hi, Hp; by left).
  assert (ui ∈ l0) as Huin by (unfold l0; rewrite !elem_of_app; right; right; by left).
  assert (0 <= ui < Z.of_nat N) as Hui by (eapply shaped_in_range; [exact H|]; rewrite Hi, Hp; by right).
  assert (ui ∉ (U_full t).*1) as Hnf by (unfold l0 in Hnd0; apply NoDup_app in Hnd0 as (_ & _ & Hnd0); apply NoDup_app in Hnd0 as (_ & _ & Hnd0);
    by apply NoDup_cons in Hnd0 as [? _]).
  exists l0. split_and!; [done | done | lia.. | done | by intros -> |]. split; cbn [K U_over U_full U_under]; [by rewrite length_insert | done | done | |].
  - rewrite Hp in Hr. by inversion Hr.
  - intros i. rewrite fmap_cons, elem_of_cons. intros [->|Hin]; cbn [fst].
    + exists oi. split; [apply list_lookup_insert_eq; lia | done].
    + rewrite list_lookup_insert_ne; [by apply Hf|]. intros E. apply Hnf.
      assert (0 <= i < Z.of_nat N) by (eapply shaped_in_range; [exact H|]; unfold indices; rewrite !elem_of_app; auto).
      by replace ui with i by lia.
Qed.

Lemma pair_body_shaped N l t : shaped N l t -> exists r, pair_body t = Ok r /\
  match r with
  | inl t' => shaped N l t' /\ (length (U_over t') + length (U_under t') < length (U_over t) + length (U_under t))%nat
  | inr t' => t' = t /\ (U_over t = [] \/ U_under t = [])
  end.
Proof.
  intros H. unfold pair_body. destruct (U_over t) as [|[oi op] over] eqn:Ho; [exists (inr t); auto|].
  destruct (U_under t) as [|[ui up] under] eqn:Hu; [exists (inr t); auto|].
  destruct (pair_shaped N l t oi op over ui up under H Ho Hu) as (l0 & Hp & Hno & Hoi & Hui & _ & _ & H0).
  rewrite set_index_ok by (rewrite (sh_K _ _ _ H); lia). cbn [mbind res_bind].
  set (t0 := mkTables _ over _ under) in *. set (x := (oi, _)).
  destruct (insert_typed_shaped N l0 t0 x H0 Hno Hoi) as (t1 & E1 & H1). rewrite E1. cbn [mbind res_bind]. eexists. split; [done|]. cbn beta iota.
  split; [eapply shaped_perm; [exact H1 | by symmetry]|].
  destruct (insert_typed_ok t0 x) as (t1' & E1' & Hc); [rewrite (sh_K _ _ _ H0); exact Hoi|]. rewrite E1 in E1'. injection E1' as <-.
  destruct Hc as [(_ & ->)|[(_ & _ & ->)|(_ & _ & ->)]]; cbn; lia.
Qed.

Lemma pair_loop_shaped N l n t : shaped N l t -> (length (U_over t) + length (U_under t) < n)%nat ->
  exists t', loop pair_body n t = Ok t' /\ shaped N l t' /\ (U_over t' = [] \/ U_under t' = []).
Proof.
  revert t. induction n as [|n IH]; intros t H Hn; [lia|]. rewrite loop_S.
  destruct (pair_body_shaped N l t H) as ([t'|t'] & -> & Hr); cbn [mbind res_bind].
  - destruct Hr as [H' Hlt]. apply IH; [done | lia].
  - destruct Hr as [-> He]. by exists t.
Qed.

(** A column with a share, and the columns that refer to one. *)
Lemma corner_case_shaped N ulist Kt full : length Kt = N -> Forall (fun x => 0 <= x.1 < Z.of_nat N) ulist ->
  (forall i, i ∈ full.*1 -> exists k, Kt !! Z.to_nat i = Some k /\ 0 <= k < Z.of_nat N) ->
  Forall (fun x => 0 <= x.1) full ->
  corner_case ulist Kt full = Ub AssertFailed \/
  exists K', corner_case ulist Kt full = Ok (K', rev ulist ++ full) /\ length K' = N /\
    (forall i, i ∈ (rev ulist ++ full).*1 -> exists k, K' !! Z.to_nat i = Some k /\ 0 <= k < Z.of_nat N).
Proof.
  intros HK Hr. revert Kt full HK. induction Hr as [|[i p] ulist Hx _ IH]; intros Kt full HK Hf Hpos; cbn [corner_case]; [right; by exists Kt|].
  destruct (is_one p); [|by left]. cbn [check mbind res_bind fst] in *. rewrite set_index_ok by lia. cbn [mbind res_bind].
  destruct (IH (<[Z.to_nat i := i]> Kt) ((i, p) :: full)) as [->|(K' & -> & H)]; [by rewrite length_insert | | constructor; [cbn; lia | done] | by left |].
  - intros j. rewrite fmap_cons, elem_of_cons. cbn [fst]. intros [->|Hj].
    + exists i. split; [apply list_lookup_insert_eq; lia | lia].
    + destruct (decide (j = i)) as [->|Hne]; [exists i; split; [apply list_lookup_insert_eq; lia | lia]|].
      rewrite list_lookup_insert_ne; [by apply Hf|]. apply list_elem_of_fmap in Hj as (y & -> & Hy). rewrite Forall_forall in Hpos.
      specialize (Hpos y Hy). cbn beta in Hpos. lia.
  - right. exists K'. cbn [rev]. rewrite <- app_assoc. done.
Qed.

(** The last loop: every column gets its share. *)
Lemma fill_full N (xs : list (Z * F)) u : length u = N -> Forall (fun x => 0 <= x.1 < Z.of_nat N) xs -> NoDup xs.*1 ->
  exists u', foldR (fun full_u '(i, p) => full_u.[i <- p]) u xs = Ok u' /\ length u' = N /\
    (forall i p, (i, p) ∈ xs -> u' !! Z.to_nat i = Some p) /\
    (forall j, (j ∉ Z.to_nat <$> xs.*1) -> u' !! j = u !! j).
Proof.
  intros Hu Hr. revert u Hu. induction Hr as [|[i p] xs Hx Hr IH]; intros u Hu Hnd.
  - exists u. split_and!; [done | done | intros i p H; by apply elem_of_nil in H | done].
  - rewrite fmap_cons in Hnd. apply NoDup_cons in Hnd as [Hni Hnd]. cbn [fst] in *. cbn [foldR]. rewrite set_index_ok by lia. cbn [mbind res_bind].
    destruct (IH (<[Z.to_nat i := p]> u)) as (u' & E & Hl & Hin & Hout); [by rewrite length_insert | done|].
    exists u'. split_and!; [done | done | |].
    + intros j q [[= -> ->]|Hj]%elem_of_cons; [|by apply Hin]. rewrite Hout; [apply list_lookup_insert_eq; lia|].
      intros (k & Hk & Hki)%list_elem_of_fmap. apply Hni. rewrite Forall_forall in Hr. apply list_elem_of_fmap in Hki as (y & -> & Hy).
      specialize (Hr y Hy). cbn beta in Hr. replace i with y.1 by lia. by apply list_elem_of_fmap_2.
    + intros j Hj. rewrite !fmap_cons in Hj. apply not_elem_of_cons in Hj as [Hne Hj]. rewrite Hout by done. rewrite list_lookup_insert_ne; [done | by intros <-].
Qed.

Lemma indexed_keys {A} (l : list A) : (indexed l).*1 = seqZ 0 (Z.of_nat (length l)).
Proof. unfold indexed. apply fst_zip. rewrite length_seqZ. lia. Qed.

Lemma start_shaped (l : list F) N : length l = N -> exists t, foldR insert_typed (mkTables (replicate N (Z.of_nat N)) [] [] []) (indexed l) = Ok t /\
  shaped N (seqZ 0 (Z.of_nat N)) t.
Proof.
  intros Hl. destruct (insert_all_shaped N (indexed l) [] (mkTables (replicate N (Z.of_nat N)) [] [] [])) as (t & E & H).
  - split; cbn; [apply length_replicate | done | constructor | done | intros i Hi; by apply elem_of_nil in Hi].
  - rewrite app_nil_r, indexed_keys. apply NoDup_seqZ.
  - apply Forall_forall. intros x Hx. assert (x.1 ∈ (indexed l).*1) as Hk by by apply list_elem_of_fmap_2.
    rewrite indexed_keys, Hl, elem_of_seqZ in Hk. lia.
  - exists t. split; [done|]. rewrite app_nil_r, indexed_keys, Hl in H. done.
Qed.

Lemma shaped_sizes N t : shaped N (seqZ 0 (Z.of_nat N)) t -> (length (U_over t) + length (U_under t) <= N)%nat.
Proof.
  intros H. pose proof (Permutation_length (sh_indices _ _ _ H)) as Hp. unfold indices in Hp.
  rewrite !length_app, !length_fmap, length_seqZ in Hp. lia.
Qed.

Lemma shaped_forall N l t (xs : list (Z * F)) : shaped N l t -> (forall i, i ∈ xs.*1 -> i ∈ indices t) -> Forall (fun x => 0 <= x.1 < Z.of_nat N) xs.
Proof.
  intros H Hin. apply Forall_forall. intros x Hx. eapply shaped_in_range; [exact H|]. apply Hin. by apply list_elem_of_fmap_2.
Qed.

(** What is left when the loop of pairs has ended. *)
Lemma paired (l : list F) : exists t0 t, let N := length l in
  foldR insert_typed (mkTables (replicate N (Z.of_nat N)) [] [] []) (indexed (f_scale (Z.of_nat N) <$> l)) = Ok t0 /\
  shaped N (seqZ 0 (Z.of_nat N)) t0 /\ loop pair_body (S N) t0 = Ok t /\ shaped N (seqZ 0 (Z.of_nat N)) t /\ (U_over t = [] \/ U_under t = []).
Proof.
  destruct (start_shaped (f_scale (Z.of_nat (length l)) <$> l) (length l)) as (t0 & E0 & H0); [by rewrite length_fmap|].
  destruct (pair_loop_shaped (length l) _ (S (length l)) t0 H0) as (t & E & H & He); [pose proof (shaped_sizes _ t0 H0); lia|].
  by exists t0, t.
Qed.

(** The constructor ends with a table of indices, or an assertion fails. *)
Lemma table_shape (l : list F) : make_alias_table l = Ub AssertFailed \/
  exists u K', make_alias_table l = Ok (u, K') /\ length u = length l /\ length K' = length l /\ Forall (fun k => 0 <= k < Z.of_nat (length l)) K'.
Proof.
  destruct (paired l) as (t0 & t & E0 & _ & E & H & _). unfold make_alias_table. rewrite length_fmap, E0. cbn [mbind res_bind]. rewrite E.
  cbn [mbind res_bind]. set (N := length l) in *.
  assert (Forall (fun x => 0 <= x.1 < Z.of_nat N) (U_over t) /\ Forall (fun x => 0 <= x.1 < Z.of_nat N) (U_under t) /\
    Forall (fun x => 0 <= x.1 < Z.of_nat N) (U_full t)) as (Hro & Hru & Hrf).
  { split_and!; (eapply shaped_forall; [exact H|]); intros i Hi; unfold indices; rewrite !elem_of_app; auto. }
  assert (forall xs : list (Z * F), Forall (fun x => 0 <= x.1 < Z.of_nat N) xs -> Forall (fun x => 0 <= x.1) xs) as Hpos
    by (intros xs Hx; eapply Forall_impl; [exact Hx|]; intros x Hx'; cbn beta in Hx'; lia).
  destruct (corner_case_shaped N (U_over t) (K t) (U_full t)) as [->|(K1 & -> & HK1 & Hf1)]; [apply H | done | apply H | by apply Hpos | by left |].
  cbn [mbind res_bind].
  assert (Forall (fun x => 0 <= x.1 < Z.of_nat N) (rev (U_over t) ++ U_full t)) as Hr1 by (apply Forall_app; split; [by apply Forall_rev | done]).
  destruct (corner_case_shaped N (U_under t) K1 (rev (U_over t) ++ U_full t)) as [->|(K2 & -> & HK2 & Hf2)]; [done | done | done | by apply Hpos | by left |].
  cbn [mbind res_bind]. set (full := rev (U_under t) ++ rev (U_over t) ++ U_full t) in *.
  assert (full.*1 ≡ₚ seqZ 0 (Z.of_nat N)) as Hp.
  { rewrite <- (sh_indices _ _ _ H). unfold full, indices. rewrite <- !fmap_app. f_equiv. rewrite <- !Permutation_rev, !app_assoc. f_equiv.
    apply Permutation_app_comm. }
  destruct (fill_full N (rev full) (replicate N f_zero)) as (u & -> & Hlu & _); [apply length_replicate | | |].
  { apply Forall_rev. unfold full. apply Forall_app. split; [by apply Forall_rev | done]. }
  { rewrite <- Permutation_rev, Hp. apply NoDup_seqZ. }
  right. exists u, K2. split_and!; try done. apply Forall_lookup. intros i k Hk. pose proof (lookup_lt_Some _ _ _ Hk) as Hlt.
  destruct (Hf2 (Z.of_nat i)) as (k' & Hk' & Hr); [rewrite Hp; apply elem_of_seqZ; lia|]. rewrite Nat2Z.id, Hk in Hk'. by injection Hk' as ->.
Qed.
End alias.

(** ** Two arithmetics *)

(** The multiples of [1 / E]. *)
Definition fixed (E : Z) : Arith Z := {|
  f_zero := 0;
  f_one := E;
  f_of_size n := n * E;
  f_trunc x := x / E;
  f_scale n x := n * x;
  f_add := Z.add;
  f_sub := Z.sub;
  f_abs := Z.abs;
  f_lt := Z.ltb;
  f_below_eps x := x * 2 ^ 52 <? E;
|}.

(** The double of IEEE 754, rounded to nearest. *)
Definition of_Z (n : Z) : spec_float := binary_normalize 53 1024 n 0 false.
Definition trunc (x : spec_float) : Z :=
  match x with S754_finite false m e => Z.shiftl (Z.pos m) e | S754_finite true m e => - Z.shiftl (Z.pos m) e | _ => 0 end.

Definition double : Arith spec_float := {|
  f_zero := S754_zero false;
  f_one := of_Z 1;
  f_of_size := of_Z;
  f_trunc := trunc;
  f_scale n x := SFmul 53 1024 (of_Z n) x;
  f_add := SFadd 53 1024;
  f_sub := SFsub 53 1024;
  f_abs := SFabs;
  f_lt := SFltb;
  f_below_eps x := SFltb x (binary_normalize 53 1024 1 (- 52) false);
|}.

(** ** Exact arithmetic *)

Section exact.
Context (N : nat) (D : Z) (HN : (0 < N)%nat) (HD : 0 < D <= 2 ^ 52).
Abbreviation E := (Z.of_nat N * D).
Abbreviation tables := (@Tables Z).
#[local] Instance exact : Arith Z := fixed E.

(** Shares are multiples of [N]. *)
Definition share (p : Z) : Prop := 0 <= p /\ (Z.of_nat N | p).

Lemma is_one_exact p : (Z.of_nat N | p) -> is_one p = (p =? E).
Proof.
  intros [k ->]. unfold is_one. cbn [f_below_eps f_abs f_sub f_one exact fixed].
  replace (k * Z.of_nat N - E) with (Z.of_nat N * (k - D)) by lia. rewrite Z.abs_mul, (Z.abs_eq (Z.of_nat N)) by lia.
  apply eq_iff_eq_true. rewrite Z.ltb_lt, Z.eqb_eq. split; [|intros; nia].
  intros H. assert (Z.abs (k - D) = 0); nia.
Qed.

Fixpoint sum_of (f : Z * Z -> Z) (xs : list (Z * Z)) : Z := match xs with [] => 0 | x :: xs => f x + sum_of f xs end.

Lemma sum_of_ext f g xs : (forall x, x ∈ xs -> f x = g x) -> sum_of f xs = sum_of g xs.
Proof.
  induction xs as [|x xs IH]; intros H; [done|]. cbn [sum_of]. rewrite (H x) by (by left). f_equal. apply IH. intros y Hy. apply H. by right.
Qed.

Lemma sum_of_perm f xs ys : xs ≡ₚ ys -> sum_of f xs = sum_of f ys.
Proof. induction 1; cbn [sum_of]; lia. Qed.

Lemma sum_of_add f g xs : sum_of f xs + sum_of g xs = sum_of (fun x => f x + g x) xs.
Proof. induction xs as [|x xs IH]; cbn [sum_of]; lia. Qed.

(** What the column of [x] has of the index [i], and what it has of its alias. *)
Definition own (i : Z) (x : Z * Z) : Z := if x.1 =? i then x.2 else 0.
Definition lent (K : list Z) (i : Z) (x : Z * Z) : Z :=
  if x.1 =? i then 0 else if decide (K !! Z.to_nat x.1 = Some i) then E - x.2 else 0.
Definition account (t : tables) (i : Z) : Z :=
  sum_of (own i) (U_over t) + sum_of (own i) (U_under t) + sum_of (own i) (U_full t) + sum_of (lent (K t) i) (U_full t).
Definition excess (x : Z * Z) : Z := x.2 - E.
Definition balance (t : tables) : Z := sum_of excess (U_over t) + sum_of excess (U_under t).

Lemma own_pair i j q : own i (j, q) = if j =? i then q else 0.
Proof. reflexivity. Qed.

Lemma lent_pair Kt i j q : lent Kt i (j, q) = if j =? i then 0 else if decide (Kt !! Z.to_nat j = Some i) then E - q else 0.
Proof. reflexivity. Qed.

Lemma excess_pair j q : excess (j, q) = q - E.
Proof. reflexivity. Qed.

Record signs (t : tables) : Prop := {
  sg_over : Forall (fun x => share x.2 /\ E < x.2) (U_over t);
  sg_under : Forall (fun x => share x.2 /\ x.2 < E) (U_under t);
  sg_full : Forall (fun x => share x.2 /\ x.2 <= E) (U_full t);
  sg_self i p : (i, p) ∈ U_full t -> K t !! Z.to_nat i = Some i -> p = E;
}.

Lemma lent_insert (Kt : list Z) k v i xs : Forall (fun x => 0 <= x.1) xs -> 0 <= k -> (k ∉ xs.*1) ->
  sum_of (lent (<[Z.to_nat k := v]> Kt) i) xs = sum_of (lent Kt i) xs.
Proof.
  intros Hpos Hk Hn. apply sum_of_ext. intros x Hx. unfold lent. rewrite list_lookup_insert_ne; [done|]. intros Ek. apply Hn.
  rewrite Forall_forall in Hpos. specialize (Hpos x Hx). cbn beta in Hpos. replace k with x.1 by lia. by apply list_elem_of_fmap_2.
Qed.

Lemma shaped_full_pos l (t : tables) : shaped N l t -> Forall (fun x => 0 <= x.1) (U_full t).
Proof.
  intros H. apply Forall_forall. intros x Hx. assert (x.1 ∈ indices t) as Hi.
  { unfold indices. rewrite !elem_of_app. right. right. by apply list_elem_of_fmap_2. }
  pose proof (shaped_in_range _ _ _ _ H Hi). lia.
Qed.

(** An insertion adds what is inserted. *)
Lemma insert_exact l (t : tables) x t' : shaped N l t -> signs t -> (x.1 ∉ l) -> 0 <= x.1 < Z.of_nat N -> share x.2 -> insert_typed t x = Ok t' ->
  signs t' /\ (forall i, account t' i = account t i + own i x) /\ balance t' = balance t + excess x.
Proof.
  intros Hsh [Ho Hu Hf Hself] Hnew Hr Hx E1. destruct (insert_typed_ok t x) as (t1 & E1' & H); [by rewrite (sh_K _ _ _ Hsh)|].
  rewrite E1 in E1'. injection E1' as <-. rewrite (is_one_exact x.2) in H by apply Hx.
  assert (x.1 ∉ (U_full t).*1) as Hnf.
  { intros Hin. apply Hnew. rewrite <- (sh_indices _ _ _ Hsh). unfold indices. rewrite !elem_of_app. auto. }
  destruct H as [(Ex & ->)|[(Ex & Hlt & ->)|(Ex & Hlt & ->)]].
  - apply Z.eqb_eq in Ex. split_and!.
    + split; cbn [U_over U_full U_under K]; [done | done | constructor; [split; [done | lia] | done]|].
      intros i p [Hp|Hp]%elem_of_cons Hk; [by subst x|]. destruct (decide (i = x.1)) as [->|Hne].
      * exfalso. apply Hnf. apply (list_elem_of_fmap_2 fst _ _ Hp).
      * rewrite list_lookup_insert_ne in Hk; [by apply (Hself i)|]. pose proof (shaped_full_pos l t Hsh) as Hpos. rewrite Forall_forall in Hpos.
        specialize (Hpos _ Hp). cbn in Hpos. lia.
    + intros i. unfold account. cbn [U_over U_full U_under K sum_of]. rewrite lent_insert by (done || lia || by eapply shaped_full_pos).
      unfold lent at 1. rewrite Ex, Z.sub_diag. repeat case_match; lia.
    + unfold balance, excess. cbn [U_over U_under]. lia.
  - apply Z.eqb_neq in Ex. cbn [f_lt f_one exact fixed] in Hlt. apply Z.ltb_lt in Hlt. split_and!.
    + split; cbn [U_over U_full U_under K]; [by constructor | done | done | done].
    + intros i. unfold account. cbn [U_over U_full U_under K sum_of]. lia.
    + unfold balance. cbn [U_over U_under sum_of]. lia.
  - apply Z.eqb_neq in Ex. cbn [f_lt f_one exact fixed] in Hlt. apply Z.ltb_ge in Hlt. split_and!.
    + split; cbn [U_over U_full U_under K]; [done | constructor; [split; [done | lia] | done] | done | done].
    + intros i. unfold account. cbn [U_over U_full U_under K sum_of]. lia.
    + unfold balance. cbn [U_over U_under sum_of]. lia.
Qed.

(** The start: every index has its scaled probability. *)
Lemma insert_all_exact xs l (t t' : tables) : shaped N l t -> signs t -> NoDup (xs.*1 ++ l) -> Forall (fun x => 0 <= x.1 < Z.of_nat N /\ share x.2) xs ->
  foldR insert_typed t xs = Ok t' ->
  signs t' /\ (forall i, account t' i = account t i + sum_of (own i) xs) /\ balance t' = balance t + sum_of excess xs.
Proof.
  intros Hsh Hs Hnd Hr. revert l t Hsh Hs Hnd. induction Hr as [|x xs [Hx Hp] _ IH]; intros l t Hsh Hs Hnd E1.
  { cbn in E1. injection E1 as <-. split_and!; [done | intros i; cbn; lia | cbn; lia]. }
  rewrite fmap_cons in Hnd. cbn [app] in Hnd. apply NoDup_cons in Hnd as [Hn Hnd].
  assert (x.1 ∉ l) as Hnl by (intros H; apply Hn; apply elem_of_app; by right).
  destruct (insert_typed_shaped N l t x Hsh Hnl Hx) as (t1 & Et & H1). cbn [foldR] in E1. rewrite Et in E1. cbn [mbind res_bind] in E1.
  destruct (insert_exact l t x t1) as (Hs1 & Ha1 & Hb1); try done.
  destruct (IH (x.1 :: l) t1 H1 Hs1) as (Hs2 & Ha2 & Hb2); [rewrite <- Permutation_middle; by constructor | done|].
  split_and!; [done | intros i; rewrite Ha2, Ha1; cbn [sum_of]; lia | rewrite Hb2, Hb1; cbn [sum_of]; lia].
Qed.

(** A turn of the loop keeps the accounts. *)
Lemma pair_exact l (t t' : tables) : shaped N l t -> signs t -> pair_body t = Ok (inl t') ->
  signs t' /\ (forall i, account t' i = account t i) /\ balance t' = balance t.
Proof.
  intros Hsh Hs. pose proof Hs as [Hso Hsu Hsf Hself]. unfold pair_body.
  destruct (U_over t) as [|[oi op] over] eqn:Ho; [done|]. destruct (U_under t) as [|[ui up] under] eqn:Hu; [done|].
  destruct (pair_shaped N l t oi op over ui up under Hsh Ho Hu) as (l0 & Hp & Hno & Hoi & Hui & Hnf & Hne & H0).
  rewrite set_index_ok by (rewrite (sh_K _ _ _ Hsh); lia). cbn [mbind res_bind].
  apply Forall_cons in Hso as [[Hop Hgt] Hso]. apply Forall_cons in Hsu as [[Hup Hlt] Hsu]. cbn [fst snd] in *.
  set (t0 := mkTables _ over _ under) in *. cbn [f_sub f_one exact fixed]. set (x := (oi, op - (E - up))).
  destruct (insert_typed t0 x) as [t1| |] eqn:E1; [|done|done]. cbn [mbind res_bind]. intros [= <-].
  pose proof (shaped_full_pos l t Hsh) as Hpos.
  destruct (insert_exact l0 t0 x t1) as (Hs1 & Ha1 & Hb1); [done | | done | done | | done|].
  - split; cbn [U_over U_full U_under K t0]; [done | done | constructor; [split; [done | cbn; lia] | done]|].
    intros i p [[= -> ->]|Hi]%elem_of_cons Hk; [rewrite list_lookup_insert_eq in Hk by (rewrite (sh_K _ _ _ Hsh); lia); congruence|].
    rewrite list_lookup_insert_ne in Hk; [by apply (Hself i)|]. intros Eu. apply Hnf. rewrite Forall_forall in Hpos. specialize (Hpos _ Hi). cbn in Hpos.
    replace ui with i by lia. apply (list_elem_of_fmap_2 fst _ _ Hi).
  - unfold x. cbn [snd]. destruct Hop as [? Hdo], Hup as [? Hdu]. split; [lia|]. apply Z.divide_sub_r; [done|].
    apply Z.divide_sub_r; [apply Z.divide_factor_l | done].
  - split_and!; [done | |].
    + intros i. rewrite Ha1. unfold account. rewrite Ho, Hu. cbn [U_over U_full U_under K t0 sum_of].
      rewrite lent_insert by (done || lia). unfold x. rewrite !own_pair, lent_pair.
      rewrite list_lookup_insert_eq by (rewrite (sh_K _ _ _ Hsh); lia).
      destruct (Z.eqb_spec oi i) as [->|Hn1]; [rewrite decide_True by done | rewrite decide_False by congruence]; destruct (Z.eqb_spec ui i); lia.
    + rewrite Hb1. unfold balance. rewrite Ho, Hu. cbn [U_over U_full U_under t0 sum_of]. unfold x. rewrite !excess_pair. lia.
Qed.

Lemma pair_loop_exact l n (t t' : tables) : shaped N l t -> signs t -> loop pair_body n t = Ok t' ->
  signs t' /\ (forall i, account t' i = account t i) /\ balance t' = balance t.
Proof.
  revert t. induction n as [|n IH]; intros t Hsh Hs; [done|]. rewrite loop_S. destruct (pair_body_shaped N l t Hsh) as ([t1|t1] & Et & Hr).
  - rewrite Et. cbn [mbind res_bind]. intros El. destruct Hr as [Hsh1 _]. destruct (pair_exact l t t1 Hsh Hs Et) as (Hs1 & Ha1 & Hb1).
    destruct (IH t1 Hsh1 Hs1 El) as (Hs2 & Ha2 & Hb2). split_and!; [done | intros i; by rewrite Ha2, Ha1 | by rewrite Hb2].
  - rewrite Et. cbn [mbind res_bind]. intros [= <-]. destruct Hr as [-> _]. done.
Qed.

Lemma excess_over xs : Forall (fun x => share x.2 /\ E < x.2) xs -> 0 <= sum_of excess xs /\ (sum_of excess xs = 0 -> xs = []).
Proof. induction 1 as [|x xs [_ Hx] _ IH]; cbn [sum_of]; [done|]. assert (0 < excess x) by (unfold excess; lia). destruct IH. split; [lia|]. intros H'. exfalso. lia. Qed.

Lemma excess_under xs : Forall (fun x => share x.2 /\ x.2 < E) xs -> sum_of excess xs <= 0 /\ (sum_of excess xs = 0 -> xs = []).
Proof. induction 1 as [|x xs [_ Hx] _ IH]; cbn [sum_of]; [done|]. assert (excess x < 0) by (unfold excess; lia). destruct IH. split; [lia|]. intros H'. exfalso. lia. Qed.

(** When the loop ends, both vectors are empty. *)
Lemma balanced_empty t : signs t -> balance t = 0 -> U_over t = [] \/ U_under t = [] -> U_over t = [] /\ U_under t = [].
Proof.
  intros [Ho Hu _ _] Hb He. destruct (excess_over _ Ho) as [H1 H2], (excess_under _ Hu) as [H3 H4]. unfold balance in Hb.
  destruct He as [He|He]; rewrite He in *; cbn [sum_of] in *; split; try done; [apply H4 | apply H2]; lia.
Qed.

Lemma indexed_from (k : Z) (l : list Z) i : sum_of (own i) (zip (seqZ k (Z.of_nat (length l))) l) = if i <? k then 0 else default 0 (l !! Z.to_nat (i - k)).
Proof.
  revert k. induction l as [|p l IH]; intros k; [cbn; by case_match|]. cbn [length]. rewrite seqZ_cons by lia. cbn [zip zip_with sum_of].
  replace (Z.pred (Z.of_nat (S (length l)))) with (Z.of_nat (length l)) by lia. rewrite IH, own_pair.
  destruct (Z.eqb_spec k i) as [->|Hne].
  - rewrite (proj2 (Z.ltb_lt i (Z.succ i))), Z.ltb_irrefl by lia. rewrite Z.sub_diag, Z.add_0_r. done.
  - destruct (Z.ltb_spec i k), (Z.ltb_spec i (Z.succ k)); try lia. replace (Z.to_nat (i - k)) with (S (Z.to_nat (i - Z.succ k))) by lia. cbn. done.
Qed.

Lemma indexed_excess (k : Z) (l : list Z) : sum_of excess (zip (seqZ k (Z.of_nat (length l))) l) = foldr Z.add 0 l - E * Z.of_nat (length l).
Proof.
  revert k. induction l as [|p l IH]; intros k; [change (0 = 0 - E * 0); lia|]. cbn [length]. rewrite seqZ_cons by lia. cbn [zip zip_with sum_of foldr].
  replace (Z.pred (Z.of_nat (S (length l)))) with (Z.of_nat (length l)) by lia. rewrite IH, excess_pair. lia.
Qed.

Lemma sum_scaled n (l : list Z) : foldr Z.add 0 (Z.mul n <$> l) = n * foldr Z.add 0 l.
Proof. induction l as [|p l IH]; [cbn; lia|]. rewrite fmap_cons. cbn [foldr]. lia. Qed.

(** The table: every index has its scaled probability, of its own column and of those it is the alias of. *)
Lemma table_exact (l : list Z) : length l = N -> Forall (Z.le 0) l -> foldr Z.add 0 l = E ->
  exists u Kt full, make_alias_table l = Ok (u, Kt) /\ length u = N /\ length Kt = N /\ full.*1 ≡ₚ seqZ 0 (Z.of_nat N) /\
    (forall i p, (i, p) ∈ full -> u !! Z.to_nat i = Some p /\ share p /\ p <= E /\ (Kt !! Z.to_nat i = Some i -> p = E)) /\
    Forall (fun k => 0 <= k < Z.of_nat N) Kt /\
    forall i, 0 <= i -> sum_of (own i) full + sum_of (lent Kt i) full = Z.of_nat N * default 0 (l !! Z.to_nat i).
Proof.
  intros Hl Hpos Hsum. destruct (paired l) as (t0 & t & E0 & Hsh0 & E1 & Hsh & He). rewrite Hl in *.
  change (f_scale (Z.of_nat N) <$> l) with (Z.mul (Z.of_nat N) <$> l) in E0. set (scaled := Z.mul (Z.of_nat N) <$> l) in *.
  assert (length scaled = N) as Hls by (unfold scaled; by rewrite length_fmap).
  destruct (insert_all_exact (indexed scaled) [] (mkTables (replicate N (Z.of_nat N)) [] [] []) t0) as (Hs0 & Ha0 & Hb0).
  - split; cbn; [apply length_replicate | done | constructor | done | intros i Hi; by apply elem_of_nil in Hi].
  - split; cbn; try constructor. intros i p Hi. by apply elem_of_nil in Hi.
  - rewrite app_nil_r, indexed_keys. apply NoDup_seqZ.
  - apply Forall_forall. intros [i p] Hx. unfold indexed in Hx. apply list_elem_of_lookup_1 in Hx as [k Hk].
    apply lookup_zip_with_Some in Hk as (i' & p' & [= -> ->] & Hi & Hp). apply lookup_seqZ in Hi as [-> Hi]. cbn [fst snd]. split; [lia|].
    unfold scaled in Hp. rewrite list_lookup_fmap in Hp. destruct (l !! k) as [q|] eqn:Eq; [|done]. injection Hp as <-.
    rewrite Forall_lookup in Hpos. specialize (Hpos k q Eq). split; [nia | apply Z.divide_factor_l].
  - done.
  - destruct (pair_loop_exact _ _ t0 t Hsh0 Hs0 E1) as (Hs & Ha & Hb). unfold indexed in Ha0, Hb0.
    rewrite indexed_excess, Hls in Hb0. unfold scaled in Hb0. rewrite sum_scaled, Hsum in Hb0.
    change (balance (mkTables (replicate N (Z.of_nat N)) [] [] [])) with 0 in Hb0.
    destruct (balanced_empty t Hs) as [Ho Hu]; [lia | done|].
    assert ((U_full t).*1 ≡ₚ seqZ 0 (Z.of_nat N)) as Hp by (rewrite <- (sh_indices _ _ _ Hsh); unfold indices; by rewrite Ho, Hu).
    assert (Forall (fun x => 0 <= x.1 < Z.of_nat N) (U_full t)) as Hrf
      by (eapply shaped_forall; [exact Hsh|]; intros i Hi; unfold indices; rewrite !elem_of_app; auto).
    destruct (fill_full N (rev (U_full t)) (replicate N 0)) as (u & E2 & Hlu & Hfu & _); [apply length_replicate | by apply Forall_rev | |].
    { rewrite <- Permutation_rev, Hp. apply NoDup_seqZ. }
    exists u, (K t), (U_full t). split_and!; [| done | apply Hsh | done | | |].
    + unfold make_alias_table. rewrite length_fmap, Hl. change (f_scale (Z.of_nat N) <$> l) with scaled. rewrite E0. cbn [mbind res_bind]. rewrite E1.
      cbn [mbind res_bind]. rewrite Ho, Hu. cbn [corner_case mbind res_bind]. change (@f_zero Z exact) with 0. by rewrite E2.
    + intros i p Hi. pose proof Hs as [_ _ Hsf Hself]. rewrite Forall_forall in Hsf. specialize (Hsf _ Hi). cbn [snd] in Hsf.
      split_and!; [apply Hfu; by rewrite <- Permutation_rev | apply Hsf | apply Hsf | by apply Hself].
    + apply Forall_lookup. intros i k Hk. pose proof (lookup_lt_Some _ _ _ Hk) as Hlt. rewrite (sh_K _ _ _ Hsh) in Hlt.
      destruct (sh_full _ _ _ Hsh (Z.of_nat i)) as (k' & Hk' & Hr); [rewrite Hp; apply elem_of_seqZ; lia|]. rewrite Nat2Z.id, Hk in Hk'. by injection Hk' as ->.
    + intros i Hi. specialize (Ha i). rewrite Ha0, indexed_from in Ha. unfold account in Ha. rewrite Ho, Hu in Ha. cbn [U_over U_full U_under sum_of] in Ha.
      rewrite (proj2 (Z.ltb_ge i 0)), Z.sub_0_r in Ha by lia. unfold scaled in Ha. rewrite list_lookup_fmap in Ha.
      destruct (l !! Z.to_nat i); cbn in *; lia.
Qed.

(** ** Counting draws *)

(** How many of the [n] numbers from [lo] on satisfy [P]. *)
Definition hits (P : Z -> bool) (lo n : Z) : Z := Z.of_nat (length (filter (fun x => P x = true) (seqZ lo n))).

Lemma hits_const b P lo n : 0 <= n -> (forall x, lo <= x < lo + n -> P x = b) -> hits P lo n = if b then n else 0.
Proof.
  intros Hn H. unfold hits. assert (Forall (fun x => P x = b) (seqZ lo n)) as Hf by (apply Forall_forall; intros x Hx%elem_of_seqZ; by apply H).
  assert (length (filter (fun x => P x = true) (seqZ lo n)) = if b then length (seqZ lo n) else 0%nat) as ->.
  { induction Hf as [|x xs Hx _ IH]; [by destruct b|]. rewrite filter_cons.
    destruct b; [rewrite decide_True by done; cbn [length]; by rewrite IH | by rewrite decide_False by congruence]. }
  destruct b; [|done]. rewrite length_seqZ. lia.
Qed.

Lemma hits_app P lo n m : 0 <= n -> 0 <= m -> hits P lo (n + m) = hits P lo n + hits P (lo + n) m.
Proof. intros Hn Hm. unfold hits. rewrite seqZ_app, filter_app, length_app by done. lia. Qed.

(** Numbers below a limit are one index, the others another one. *)
Lemma hits_threshold (i j k lo v n : Z) (P : Z -> bool) : 0 <= v <= n ->
  (forall x, lo <= x < lo + n -> P x = if x <? lo + v then j =? i else k =? i) ->
  hits P lo n = (if j =? i then v else 0) + (if k =? i then n - v else 0).
Proof.
  intros Hv HP. replace n with (v + (n - v)) at 1 by lia. rewrite hits_app by lia.
  rewrite (hits_const (j =? i)), (hits_const (k =? i)); [done | lia | | lia |]; intros x Hx; rewrite HP by lia.
  - by rewrite (proj2 (Z.ltb_ge x (lo + v))) by lia.
  - by rewrite (proj2 (Z.ltb_lt x (lo + v))) by lia.
Qed.

Section draws.
Context (u Kt : list Z) (full : list (Z * Z)) (Hlu : length u = N) (HlK : length Kt = N) (Hp : full.*1 ≡ₚ seqZ 0 (Z.of_nat N)).
Context (Hfull : forall i p, (i, p) ∈ full -> u !! Z.to_nat i = Some p /\ share p /\ p <= E /\ (Kt !! Z.to_nat i = Some i -> p = E)).

(** The column of [j], as its share and its alias. *)
Lemma column j : 0 <= j < Z.of_nat N -> exists p k, (j, p) ∈ full /\ u !! Z.to_nat j = Some p /\ Kt !! Z.to_nat j = Some k /\ share p /\ p <= E /\
  (k = j -> p = E) /\ (forall i, own i (j, p) + lent Kt i (j, p) = (if j =? i then p else 0) + (if k =? i then E - p else 0)).
Proof.
  intros Hj. assert (j ∈ full.*1) as Hin by (rewrite Hp; apply elem_of_seqZ; lia). apply list_elem_of_fmap in Hin as ([j' p] & -> & Hin). cbn [fst] in *.
  destruct (Hfull j' p Hin) as (Hu & Hs & Hle & Hself). destruct (lookup_lt_is_Some_2 Kt (Z.to_nat j')) as [k Hk]; [lia|].
  exists p, k. assert (k = j' -> p = E) as Hkj by (intros ->; by apply Hself). split_and!; try done. intros i. rewrite own_pair, lent_pair, Hk.
  destruct (Z.eqb_spec j' i) as [->|Hne], (Z.eqb_spec k i) as [->|Hne']; [rewrite Hkj by done; lia | lia | |];
    [rewrite decide_True by done | rewrite decide_False by congruence]; lia.
Qed.

(** The sum over the columns. *)
Lemma sum_columns (f : Z * Z -> Z) : sum_of f full = sum_of f ((fun j => (j, default 0 (u !! Z.to_nat j))) <$> seqZ 0 (Z.of_nat N)).
Proof.
  transitivity (sum_of f ((fun j => (j, default 0 (u !! Z.to_nat j))) <$> full.*1)); [|apply sum_of_perm; by rewrite Hp].
  f_equal. assert (forall xs, (forall x, x ∈ xs -> x ∈ full) -> xs = (fun j => (j, default 0 (u !! Z.to_nat j))) <$> xs.*1) as H; [|by apply H].
  intros xs. induction xs as [|[j p] xs IH]; intros Hin; [done|]. rewrite !fmap_cons. cbn [fst]. destruct (Hfull j p) as [-> _]; [apply Hin; by left|].
  cbn [default]. f_equal. apply IH. intros x Hx. apply Hin. by right.
Qed.

(** If every column counts its share, all of them count the accounts. *)
Lemma sum_blocks (c : Z) (f : Z -> Z) i : (forall j p k, (j, p) ∈ full -> Kt !! Z.to_nat j = Some k -> 0 <= j < Z.of_nat N -> share p -> p <= E ->
    c * f j = (if j =? i then p else 0) + (if k =? i then E - p else 0)) ->
  c * foldr (fun j a => f j + a) 0 (seqZ 0 (Z.of_nat N)) = sum_of (own i) full + sum_of (lent Kt i) full.
Proof.
  intros Hf. rewrite sum_of_add, sum_columns.
  assert (Forall (fun j => 0 <= j < Z.of_nat N) (seqZ 0 (Z.of_nat N))) as Hr by (apply Forall_forall; intros j Hj%elem_of_seqZ; lia).
  revert Hr. generalize (seqZ 0 (Z.of_nat N)). intros js' Hr. induction Hr as [|j js Hj _ IH]; [cbn; lia|]. rewrite fmap_cons. cbn [foldr sum_of]. rewrite Z.mul_add_distr_l, IH. f_equal.
  destruct (column j Hj) as (p & k & Hin & Hu & Hk & Hs & Hle & _ & Ho). rewrite Hu. cbn [default]. rewrite Ho. by apply Hf.
Qed.

(** The draws of the simple overload. *)
Lemma simple_draws i : foldr (fun j a => hits (fun x => bool_decide (make_simple (u, Kt) j x = Ok i)) 0 E + a) 0 (seqZ 0 (Z.of_nat N)) =
  sum_of (own i) full + sum_of (lent Kt i) full.
Proof.
  rewrite <- (Z.mul_1_l (foldr _ _ _)). apply sum_blocks. intros j p k Hin Hk Hj Hs Hle. rewrite Z.mul_1_l.
  apply hits_threshold; [destruct Hs; lia|]. intros x Hx. unfold make_simple. rewrite (at_index_lookup u j p), (at_index_lookup Kt j k) by (lia || done || by apply Hfull).
  cbn [mbind res_bind f_lt exact fixed]. rewrite Z.add_0_l. apply eq_iff_eq_true. rewrite bool_decide_eq_true.
  destruct (x <? p); rewrite Z.eqb_eq; (split; [by intros [= ->] | by intros ->]).
Qed.

(** The draws of [make]: the numbers of column [j] are those from [j * D] on. *)
Lemma make_column j x : 0 <= j < Z.of_nat N -> j * D <= x < j * D + D ->
  make (u, Kt) x = make_simple (u, Kt) j (Z.of_nat N * (x - j * D)).
Proof.
  intros Hj Hx. unfold make, make_simple. rewrite HlK. cbn [f_trunc f_scale f_of_size f_sub exact fixed].
  replace (Z.of_nat N * x / E) with j.
  - replace (Z.of_nat N * x - j * E) with (Z.of_nat N * (x - j * D)) by lia. done.
  - apply (Z.div_unique_pos _ _ _ (Z.of_nat N * (x - j * D))); nia.
Qed.

Lemma hits_blocks P n : hits P 0 (Z.of_nat n * D) = foldr (fun j a => hits P (j * D) D + a) 0 (seqZ 0 (Z.of_nat n)).
Proof.
  induction n as [|n IH]; [done|]. replace (Z.of_nat (S n) * D) with (Z.of_nat n * D + D) by lia.
  rewrite hits_app, IH by nia. rewrite seqZ_S, foldr_app. cbn [foldr]. rewrite !Z.add_0_l, Z.add_0_r.
  generalize (hits P (Z.of_nat n * D) D). intros h. generalize (seqZ 0 (Z.of_nat n)). intros js. induction js as [|j js IHj]; cbn [foldr]; lia.
Qed.

Lemma make_draws i : Z.of_nat N * hits (fun x => bool_decide (make (u, Kt) x = Ok i)) 0 E = sum_of (own i) full + sum_of (lent Kt i) full.
Proof.
  rewrite hits_blocks. apply sum_blocks. intros j p k Hin Hk Hj [Hp0 [q ->]] Hle.
  rewrite (hits_threshold i j k (j * D) q D); [repeat case_match; nia | nia |].
  intros x Hx. rewrite (make_column j) by lia. unfold make_simple. rewrite (at_index_lookup u j (q * Z.of_nat N)), (at_index_lookup Kt j k) by (lia || done || exact (proj1 (Hfull j _ Hin))).
  cbn [mbind res_bind f_lt exact fixed]. apply eq_iff_eq_true. rewrite bool_decide_eq_true.
  destruct (Z.ltb_spec (Z.of_nat N * (x - j * D)) (q * Z.of_nat N)), (Z.ltb_spec x (j * D + q)); try nia; rewrite Z.eqb_eq; (split; [by intros [= ->] | by intros ->]).
Qed.
End draws.
End exact.

Lemma sum_foldl a (l : list Z) : foldl Z.add a l = a + foldr Z.add 0 l.
Proof. revert a. induction l as [|p l IH]; intros a; cbn [foldl foldr]; [lia|]. rewrite IH. lia. Qed.

(** ** Theorems *)



(** Any arithmetic: whatever the arithmetic does, double included, the constructor ends without
    undefined behaviour: an assertion fails, or it has a table from which the simple overload returns
    an index of the list for every pair of an index and a draw. *)
Theorem alias_total {F} `{!Arith F} (l : list F) : Alias l = Ub AssertFailed \/
  exists a, Alias l = Ok a /\ forall i p, 0 <= i < Z.of_nat (length l) -> exists k, make_simple a i p = Ok k /\ 0 <= k < Z.of_nat (length l).
Proof.
  unfold Alias. assert (precondition l = Ok tt \/ precondition l = Ub AssertFailed) as [-> | ->]; [|  | by left].
  { unfold precondition. destruct (negb _); [|by right]. cbn [check mbind res_bind]. destruct (is_one _); auto. }
  cbn [mbind res_bind]. destruct (table_shape l) as [->|(u & Kt & -> & Hlu & HlK & HK)]; [by left|]. right. exists (u, Kt). split; [done|].
  intros i p Hi. unfold make_simple. destruct (at_index_ok u i) as (q & -> & _); [lia|]. cbn [mbind res_bind].
  destruct (f_lt p q); [by exists i|]. destruct (at_index_ok Kt i) as (k & -> & Hk); [lia|]. exists k. split; [done|]. by eapply (Forall_lookup _ _) in HK.
Qed.

(** The double that the text of a decimal fraction stands for. *)
Definition decimal (a b : Z) : spec_float := SFdiv 53 1024 (of_Z a) (of_Z b).

(** With double, 0.1, 0.2 and 0.7 satisfy the precondition, and the assertion of corner_case fails: the
    rounding leaves a share that differs from one by EPS.  The probabilities of main are fine. *)
Theorem alias_rounding_asserts : let _ := double in
  precondition [decimal 1 10; decimal 2 10; decimal 7 10] = Ok tt /\
  Alias [decimal 1 10; decimal 2 10; decimal 7 10] = Ub AssertFailed /\
  exists u, Alias [decimal 4 10; decimal 3 10; decimal 2 10; decimal 5 100; decimal 5 100] = Ok (u, [0; 0; 2; 0; 1]).
Proof. split_and!; [by vm_compute | by vm_compute |]. eexists. vm_compute. reflexivity. Qed.
