(* ===== verification/Mpmc.v ===== *)
(** * The bounded multi-producer multi-consumer queue

    The class template Bounded_mpmc of src/Concurrency/Bounded_mpmc.cpp as a step
    relation: each step is one access of one thread to the shared object, under
    sequential consistency.  The accesses to the element of a slot are steps of
    their own, so that two threads at such an access would be a data race. *)

From S2P Require Import Prelude.
From stdpp Require Import gmap functions list.
#[local] Open Scope Z_scope.

Section mpmc.
Context {T : Type}.
(** [SIZE] is [2 ^ SHIFT], and [val0] the value of [T val] before its first use. *)
Context (SHIFT : Z) (val0 : T).

Definition SIZE : Z := 2 ^ SHIFT.
Definition MASK : Z := SIZE - 1.

(** The parameter is an [int]; the tickets that are passed to it are [size_t]. *)
Definition seq (t : Z) : Z := u64 (s32 (Z.shiftl (Z.shiftr (s32 t) SHIFT) 1)).
Definition idx (t : Z) : Z := Z.land (u64 (s32 t)) MASK.

Record Slot : Type := mkSlot { s_seq : Z; s_val : T }.

(** Where a thread is: outside the queue, or before the next access of one of the
    four functions, with the local variables that are used after it. *)
Inductive Thread : Type :=
  | Idle
  | PushWait (elem : T) (inn : Z)         (** [while(seq(in) != slot.seq.load())] *)
  | PushWrite (elem : T) (inn : Z)        (** [slot.val = std::move(elem)] *)
  | PushRelease (elem : T) (inn : Z)      (** [slot.seq.store(seq(in) + 1)] *)
  | PopWait (out : Z)                     (** [while(seq(out) + 1 != slot.seq.load())] *)
  | PopRead (out : Z)                     (** [val = std::move(slot.val)] *)
  | PopRelease (out : Z) (val : T)        (** [slot.seq.store(seq(out) + 2)] *)
  | TryPushLoad (elem : T) (inn : Z)      (** [if(seq(in) != slot.seq.load())] *)
  | TryPushRetry (elem : T) (old_in : Z)  (** [in = _in.load()] *)
  | TryPushCas (elem : T) (inn : Z)       (** [_in.compare_exchange_weak(in, in+1)] *)
  | TryPopLoad (out : Z)
  | TryPopRetry (old_out : Z)
  | TryPopCas (out : Z).

(** The object, the threads, and the history: the element that was given to each
    ticket of [_in], and the one that was returned for each ticket of [_out]. *)
Record State : Type := mkState {
  _buf : list Slot; _in : Z; _out : Z;
  threads : nat -> Thread;
  pushed : gmap Z T; popped : gmap Z T
}.

Definition init : State :=
  mkState (replicate (Z.to_nat SIZE) (mkSlot 0 val0)) 0 0 (fun _ => Idle) ∅ ∅.

Definition slot_of (s : State) (t : Z) : option Slot := _buf s !! Z.to_nat (idx t).

(** ** Accesses *)

Definition at_ (i : nat) (th : Thread) (s : State) : State :=
  mkState (_buf s) (_in s) (_out s) (<[i := th]> (threads s)) (pushed s) (popped s).

(** A ticket of [_in] for thread [i]: [_in.fetch_add(1)] or the exchange. *)
Definition draw_in (i : nat) (elem : T) (th : Thread) (s : State) : State :=
  mkState (_buf s) (u64 (_in s + 1)) (_out s) (<[i := th]> (threads s))
    (<[_in s := elem]> (pushed s)) (popped s).

Definition draw_out (i : nat) (th : Thread) (s : State) : State :=
  mkState (_buf s) (_in s) (u64 (_out s + 1)) (<[i := th]> (threads s)) (pushed s) (popped s).

Definition set_slot (t : Z) (sl : Slot) (s : State) : State :=
  mkState (<[Z.to_nat (idx t) := sl]> (_buf s)) (_in s) (_out s) (threads s) (pushed s) (popped s).

Definition return_value (t : Z) (v : T) (s : State) : State :=
  mkState (_buf s) (_in s) (_out s) (threads s) (pushed s) (<[t := v]> (popped s)).

Inductive step : State -> State -> Prop :=
  (* push *)
  | push_start i v s :
      threads s i = Idle -> step s (draw_in i v (PushWait v (_in s)) s)
  | push_spin i v t sl s :
      threads s i = PushWait v t -> slot_of s t = Some sl -> seq t <> s_seq sl -> step s s
  | push_go i v t sl s :
      threads s i = PushWait v t -> slot_of s t = Some sl -> seq t = s_seq sl ->
      step s (at_ i (PushWrite v t) s)
  | push_write i v t sl s :
      threads s i = PushWrite v t -> slot_of s t = Some sl ->
      step s (at_ i (PushRelease v t) (set_slot t (mkSlot (s_seq sl) v) s))
  | push_release i v t sl s :
      threads s i = PushRelease v t -> slot_of s t = Some sl ->
      step s (at_ i Idle (set_slot t (mkSlot (u64 (seq t + 1)) (s_val sl)) s))
  (* pop; the value that a move leaves behind is not specified *)
  | pop_start i s :
      threads s i = Idle -> step s (draw_out i (PopWait (_out s)) s)
  | pop_spin i t sl s :
      threads s i = PopWait t -> slot_of s t = Some sl -> u64 (seq t + 1) <> s_seq sl -> step s s
  | pop_go i t sl s :
      threads s i = PopWait t -> slot_of s t = Some sl -> u64 (seq t + 1) = s_seq sl ->
      step s (at_ i (PopRead t) s)
  | pop_read i t sl moved s :
      threads s i = PopRead t -> slot_of s t = Some sl ->
      step s (at_ i (PopRelease t (s_val sl)) (set_slot t (mkSlot (s_seq sl) moved) s))
  | pop_release i t v sl s :
      threads s i = PopRelease t v -> slot_of s t = Some sl ->
      step s (return_value t v
                (at_ i Idle (set_slot t (mkSlot (u64 (seq t + 2)) (s_val sl)) s)))
  (* try_push; the weak exchange can fail for no reason *)
  | try_push_start i v s :
      threads s i = Idle -> step s (at_ i (TryPushLoad v (_in s)) s)
  | try_push_other i v t sl s :
      threads s i = TryPushLoad v t -> slot_of s t = Some sl -> seq t <> s_seq sl ->
      step s (at_ i (TryPushRetry v t) s)
  | try_push_same i v t sl s :
      threads s i = TryPushLoad v t -> slot_of s t = Some sl -> seq t = s_seq sl ->
      step s (at_ i (TryPushCas v t) s)
  | try_push_false i v t s :
      threads s i = TryPushRetry v t -> t = _in s -> step s (at_ i Idle s)
  | try_push_again i v t s :
      threads s i = TryPushRetry v t -> t <> _in s -> step s (at_ i (TryPushLoad v (_in s)) s)
  | try_push_cas i v t s :
      threads s i = TryPushCas v t -> t = _in s -> step s (draw_in i v (PushWrite v t) s)
  | try_push_cas_fail i v t s :
      threads s i = TryPushCas v t -> step s (at_ i (TryPushLoad v (_in s)) s)
  (* try_pop *)
  | try_pop_start i s :
      threads s i = Idle -> step s (at_ i (TryPopLoad (_out s)) s)
  | try_pop_other i t sl s :
      threads s i = TryPopLoad t -> slot_of s t = Some sl -> u64 (seq t + 1) <> s_seq sl ->
      step s (at_ i (TryPopRetry t) s)
  | try_pop_same i t sl s :
      threads s i = TryPopLoad t -> slot_of s t = Some sl -> u64 (seq t + 1) = s_seq sl ->
      step s (at_ i (TryPopCas t) s)
  | try_pop_none i t s :
      threads s i = TryPopRetry t -> t = _out s -> step s (at_ i Idle s)
  | try_pop_again i t s :
      threads s i = TryPopRetry t -> t <> _out s -> step s (at_ i (TryPopLoad (_out s)) s)
  | try_pop_cas i t s :
      threads s i = TryPopCas t -> t = _out s -> step s (draw_out i (PopRead t) s)
  | try_pop_cas_fail i t s :
      threads s i = TryPopCas t -> step s (at_ i (TryPopLoad (_out s)) s).

(** The states of runs in which no more than [2 ^ 31] tickets are drawn. *)
Inductive reachable : State -> Prop :=
  | reach_init : reachable init
  | reach_step s s' :
      reachable s -> step s s' -> _in s' <= 2 ^ 31 -> _out s' <= 2 ^ 31 -> reachable s'.
End mpmc.

Arguments Slot T : clear implicits.
Arguments Thread T : clear implicits.
Arguments State T : clear implicits.

(** * The bounded queue: invariant

    As long as no more than [2 ^ 31] tickets are drawn, the sequence number of a
    slot tells which operations on it are complete: it is above twice the round of
    a ticket exactly when the push with this ticket is complete, and above that
    plus one exactly when the pop is. *)
#[local] Open Scope Z_scope.

Section invariant.
Context {T : Type} (SHIFT : Z) (val0 : T).
Context (Hshift : 1 <= SHIFT <= 30).
Let S_ : Z := SIZE SHIFT.
Abbreviation state := (State T).

Lemma size_range : 2 <= S_ <= 2 ^ 30.
Proof.
  unfold S_, SIZE. split.
  - change 2 with (2 ^ 1) at 1. apply Z.pow_le_mono_r; lia.
  - apply Z.pow_le_mono_r; lia.
Qed.

(** ** Sequence numbers and indices of tickets *)

Definition round (t : Z) : Z := t / S_.
Definition slot (t : Z) : nat := Z.to_nat (t mod S_).

Lemma s32_ticket t : 0 <= t < 2 ^ 31 -> s32 t = t.
Proof. intros Ht. apply swrap_id; [lia|]. apply sfits_spec. lia. Qed.

Lemma round_range t : 0 <= t -> 0 <= round t /\ 2 * round t <= t.
Proof.
  intros Ht. pose proof size_range as Hs. unfold round.
  pose proof (Z.div_pos t S_ ltac:(lia) ltac:(lia)).
  pose proof (Z.mul_div_le t S_ ltac:(lia)). nia.
Qed.

Lemma seq_ticket t : 0 <= t < 2 ^ 31 -> Mpmc.seq SHIFT t = 2 * round t.
Proof.
  intros Ht. unfold Mpmc.seq. rewrite (s32_ticket t) by done. rewrite Z.shiftr_div_pow2 by lia.
  rewrite Z.shiftl_mul_pow2 by lia. fold (SIZE SHIFT). fold S_. fold (round t).
  pose proof (round_range t ltac:(lia)). rewrite Z.pow_1_r.
  rewrite s32_ticket, uwrap_id by lia. lia.
Qed.

Lemma idx_mod t : idx SHIFT t = u64 (s32 t) mod S_.
Proof.
  unfold idx, MASK. fold S_. unfold S_, SIZE. rewrite <- Z.land_ones by lia.
  f_equal. rewrite Z.ones_equiv. lia.
Qed.

Lemma idx_ticket t : 0 <= t < 2 ^ 31 -> Z.to_nat (idx SHIFT t) = slot t.
Proof. intros Ht. rewrite idx_mod, s32_ticket, uwrap_id by lia. done. Qed.

Lemma slot_lt t : (slot t < Z.to_nat S_)%nat.
Proof. pose proof size_range. pose proof (Z.mod_pos_bound t S_). unfold slot. lia. Qed.

Lemma ticket_eq t t' : slot t = slot t' -> round t = round t' -> t = t'.
Proof.
  unfold slot, round. pose proof size_range. intros Hs Hr.
  pose proof (Z.mod_pos_bound t S_). pose proof (Z.mod_pos_bound t' S_).
  rewrite (Z.div_mod t S_), (Z.div_mod t' S_) by lia. rewrite Hr. f_equal. lia.
Qed.

Lemma round_mono t t' : slot t = slot t' -> t < t' <-> round t < round t'.
Proof.
  unfold slot, round. pose proof size_range. intros Hs.
  pose proof (Z.mod_pos_bound t S_). pose proof (Z.mod_pos_bound t' S_).
  pose proof (Z.div_mod t S_). pose proof (Z.div_mod t' S_). nia.
Qed.

(** ** The invariant *)

(** The sequence number and the element of slot [k]. *)
Definition sq (s : state) (k : nat) : Z := default 0 (s_seq <$> _buf s !! k).
Definition vl (s : state) (k : nat) : option T := s_val <$> _buf s !! k.

(** The ticket a thread holds, and whether it holds the element it returns. *)
Definition push_of (th : Thread T) : option Z :=
  match th with
  | PushWait _ t | PushWrite _ t | PushRelease _ t => Some t
  | _ => None
  end.
Definition pop_of (th : Thread T) : option Z :=
  match th with PopWait t | PopRead t | PopRelease t _ => Some t | _ => None end.
Definition taken (th : Thread T) : option Z :=
  match th with PopRelease t _ => Some t | _ => None end.

Definition push_done (s : state) (t : Z) : Prop :=
  t < _in s /\ forall i, push_of (threads s i) <> Some t.
Definition pop_done (s : state) (t : Z) : Prop :=
  t < _out s /\ forall i, pop_of (threads s i) <> Some t.

(** What holds for a thread where it is. *)
Definition thread_ok (s : state) (th : Thread T) : Prop :=
  match th with
  | Idle => True
  | PushWait v t => 0 <= t < _in s /\ pushed s !! t = Some v
  | PushWrite v t =>
      0 <= t < _in s /\ pushed s !! t = Some v /\ sq s (slot t) = 2 * round t
  | PushRelease v t =>
      0 <= t < _in s /\ pushed s !! t = Some v /\ sq s (slot t) = 2 * round t /\
      vl s (slot t) = Some v
  | PopWait t => 0 <= t < _out s
  | PopRead t => 0 <= t < _out s /\ sq s (slot t) = 2 * round t + 1
  | PopRelease t v =>
      0 <= t < _out s /\ sq s (slot t) = 2 * round t + 1 /\ pushed s !! t = Some v
  | TryPushLoad _ t | TryPushRetry _ t => 0 <= t <= _in s
  | TryPushCas _ t => 0 <= t < 2 ^ 31 /\ 2 * round t <= sq s (slot t)
  | TryPopLoad t | TryPopRetry t => 0 <= t <= _out s
  | TryPopCas t => 0 <= t < 2 ^ 31 /\ 2 * round t + 1 <= sq s (slot t)
  end.

Record inv (s : state) : Prop := {
  i_buf : length (_buf s) = Z.to_nat S_;
  i_in : 0 <= _in s <= 2 ^ 31;
  i_out : 0 <= _out s <= 2 ^ 31;
  i_thread i : thread_ok s (threads s i);
  i_push i j t : push_of (threads s i) = Some t -> push_of (threads s j) = Some t -> i = j;
  i_pop i j t : pop_of (threads s i) = Some t -> pop_of (threads s j) = Some t -> i = j;
  i_pushed t : is_Some (pushed s !! t) <-> 0 <= t < _in s;
  i_push_done t : 0 <= t -> 2 * round t < sq s (slot t) <-> push_done s t;
  i_pop_done t : 0 <= t -> 2 * round t + 1 < sq s (slot t) <-> pop_done s t;
  i_val t : 0 <= t -> sq s (slot t) = 2 * round t + 1 ->
    (forall i, taken (threads s i) <> Some t) -> pushed s !! t = vl s (slot t);
  i_popped t v : popped s !! t = Some v -> pushed s !! t = Some v;
  i_returned t : 0 <= t -> 2 * round t + 1 < sq s (slot t) -> is_Some (popped s !! t);
  i_nonneg k : 0 <= sq s k
}.

Lemma inv_init : inv (init SHIFT val0).
Proof.
  assert (forall k, (k < Z.to_nat S_)%nat -> sq (init SHIFT val0) k = 0) as Hsq.
  { intros k Hk. unfold sq, init. cbn [_buf]. fold S_. by rewrite lookup_replicate_2. }
  split; try (cbn; lia || done).
  - cbn [init _buf]. by rewrite length_replicate.
  - intros t. cbn. rewrite lookup_empty. split; [by intros []|lia].
  - intros t Ht. rewrite Hsq by apply slot_lt. pose proof (round_range t Ht). split; [lia|].
    intros [Hlt _]. cbn in Hlt. lia.
  - intros t Ht. rewrite Hsq by apply slot_lt. pose proof (round_range t Ht). split; [lia|].
    intros [Hlt _]. cbn in Hlt. lia.
  - intros t Ht. rewrite Hsq by apply slot_lt. pose proof (round_range t Ht). lia.
  - intros t Ht. rewrite Hsq by apply slot_lt. pose proof (round_range t Ht). lia.
  - intros k. unfold sq, init. cbn [_buf]. destruct (_ !! k) as [sl|] eqn:E; [|done].
    by apply lookup_replicate in E as [-> _].
Qed.

(** ** The owner of a slot *)

(** The ticket with which a thread has entered the slot. *)
Definition owner (th : Thread T) : option Z :=
  match th with
  | PushWrite _ t | PushRelease _ t | PopRead t | PopRelease t _ => Some t
  | _ => None
  end.

Lemma owner_seq s th t :
  thread_ok s th -> owner th = Some t ->
  (push_of th = Some t /\ sq s (slot t) = 2 * round t) \/
  (pop_of th = Some t /\ sq s (slot t) = 2 * round t + 1).
Proof. destruct th; try done; intros H [= <-]; cbn in *; [left | left | right | right]; tauto. Qed.

(** At most one thread is in a slot. *)
Lemma owner_unique s i j t t' :
  inv s -> owner (threads s i) = Some t -> owner (threads s j) = Some t' ->
  slot t = slot t' -> i = j.
Proof.
  intros Hs Hi Hj Hk.
  destruct (owner_seq s _ _ (i_thread _ Hs i) Hi) as [[Pi Ei]|[Pi Ei]],
    (owner_seq s _ _ (i_thread _ Hs j) Hj) as [[Pj Ej]|[Pj Ej]]; rewrite Hk in Ei; try lia.
  - assert (t = t') as <- by (apply ticket_eq; [done | lia]). by apply (i_push _ Hs i j t).
  - assert (t = t') as <- by (apply ticket_eq; [done | lia]). by apply (i_pop _ Hs i j t).
Qed.

(** ** Steps of one thread *)

Lemma thread_ok_mono (s s' : state) th :
  _in s <= _in s' -> _out s <= _out s' ->
  (forall t v, pushed s !! t = Some v -> pushed s' !! t = Some v) ->
  (forall k, sq s k <= sq s' k) ->
  (forall t, owner th = Some t -> sq s' (slot t) = sq s (slot t) /\ vl s' (slot t) = vl s (slot t)) ->
  thread_ok s th -> thread_ok s' th.
Proof.
  intros Hin Hout Hp Hsq Ho. destruct th as [|v t|v t|v t|t|t|t v|v t|v t|v t|t|t|t]; cbn;
    try (specialize (Ho t eq_refl) as [E1 E2]; rewrite ?E1, ?E2); try (specialize (Hsq (slot t)));
    intuition (eauto; lia).
Qed.

(** The threads after thread [i] has moved, when nothing changes in the slots that
    other threads are in. *)
Lemma threads_update (s s' : state) i th :
  inv s -> threads s' = <[i := th]> (threads s) ->
  _in s <= _in s' -> _out s <= _out s' ->
  (forall t v, pushed s !! t = Some v -> pushed s' !! t = Some v) ->
  (forall k, sq s k <= sq s' k) ->
  (forall j t, j <> i -> owner (threads s j) = Some t ->
     sq s' (slot t) = sq s (slot t) /\ vl s' (slot t) = vl s (slot t)) ->
  thread_ok s' th ->
  (forall j t, j <> i -> push_of th = Some t -> push_of (threads s j) <> Some t) ->
  (forall j t, j <> i -> pop_of th = Some t -> pop_of (threads s j) <> Some t) ->
  (forall j, thread_ok s' (threads s' j)) /\
  (forall j j' t, push_of (threads s' j) = Some t -> push_of (threads s' j') = Some t -> j = j') /\
  (forall j j' t, pop_of (threads s' j) = Some t -> pop_of (threads s' j') = Some t -> j = j').
Proof.
  intros Hs Et Hin Hout Hp Hsq Ho Hth Hpu Hpo. rewrite Et. unfold insert, fn_insert. split_and!.
  - intros j. case_decide as E; [done|]. apply (thread_ok_mono s); try done; [|apply (i_thread _ Hs)].
    intros t. by apply Ho.
  - intros j j' t. case_decide as E; case_decide as E'; subst; try done.
    + intros H1 H2. by destruct (Hpu j' t).
    + intros H1 H2. by destruct (Hpu j t).
    + apply (i_push _ Hs).
  - intros j j' t. case_decide as E; case_decide as E'; subst; try done.
    + intros H1 H2. by destruct (Hpo j' t).
    + intros H1 H2. by destruct (Hpo j t).
    + apply (i_pop _ Hs).
Qed.

(** A step that touches nothing but where the thread is. *)
Lemma inv_at s i th :
  inv s -> thread_ok s th -> push_of th = push_of (threads s i) ->
  pop_of th = pop_of (threads s i) -> taken th = taken (threads s i) -> inv (at_ i th s).
Proof.
  intros Hs Hth Epu Epo Eta.
  assert (forall {A} (f : Thread T -> A), f th = f (threads s i) ->
    forall j, f (threads (at_ i th s) j) = f (threads s j)) as Hsame.
  { intros A f Ef j. cbn. unfold insert, fn_insert. by case_decide; subst. }
  destruct (threads_update s (at_ i th s) i th) as (Ht & Hpu & Hpo); try done.
  - intros j t Hne E. rewrite Epu in E. intros E'. by destruct Hne; apply (i_push _ Hs j i t).
  - intros j t Hne E. rewrite Epo in E. intros E'. by destruct Hne; apply (i_pop _ Hs j i t).
  - destruct Hs. split; try done.
    + intros t Ht0. unfold push_done. setoid_rewrite (Hsame _ push_of Epu). by apply i_push_done0.
    + intros t Ht0. unfold pop_done. setoid_rewrite (Hsame _ pop_of Epo). by apply i_pop_done0.
    + intros t Ht0. setoid_rewrite (Hsame _ taken Eta). by apply i_val0.
Qed.

(** ** Drawing a ticket *)

Lemma untaken_iff {A} (f : Thread T -> option A) (ths : nat -> Thread T) i th t :
  f (ths i) = None -> f th <> Some t ->
  (forall j, f (<[i := th]> ths j) <> Some t) <-> (forall j, f (ths j) <> Some t).
Proof.
  intros Ei Eth. unfold insert, fn_insert. split; intros H j; specialize (H j).
  - destruct (decide (i = j)) as [<-|]; [by rewrite Ei | done].
  - by case_decide; subst.
Qed.

Lemma same_iff {A} (f : Thread T -> option A) (ths : nat -> Thread T) i th t :
  f th = f (ths i) ->
  (forall j, f (<[i := th]> ths j) <> Some t) <-> (forall j, f (ths j) <> Some t).
Proof.
  intros Ef. unfold insert, fn_insert. split; intros H j; specialize (H j).
  - by destruct (decide (i = j)) as [<-|]; [rewrite <- Ef|].
  - by case_decide; subst; [rewrite Ef|].
Qed.

(** Thread [i] gives its ticket [t] back. *)
Lemma release_iff (f : Thread T -> option Z) (ths : nat -> Thread T) i th t t' :
  f (ths i) = Some t -> f th = None ->
  (forall j j' u, f (ths j) = Some u -> f (ths j') = Some u -> j = j') ->
  (forall j, f (<[i := th]> ths j) <> Some t') <->
  (t' = t \/ forall j, f (ths j) <> Some t').
Proof.
  intros Ei Eth Hu. unfold insert, fn_insert. split.
  - intros H. destruct (decide (t' = t)) as [->|Hne]; [by left|]. right. intros j. specialize (H j).
    destruct (decide (i = j)) as [<-|]; congruence.
  - intros [->|H] j; case_decide as E; subst; try congruence.
    intros E'. by destruct E; apply (Hu i j t).
Qed.

Lemma inv_draw_in s i v th :
  inv s -> _in s < 2 ^ 31 ->
  push_of (threads s i) = None -> pop_of (threads s i) = None -> taken (threads s i) = None ->
  th = PushWait v (_in s) \/
    th = PushWrite v (_in s) /\ sq s (slot (_in s)) = 2 * round (_in s) ->
  inv (draw_in i v th s).
Proof.
  intros Hs Hlt Npu Npo Nta Hth. pose proof (i_in _ Hs) as Hin.
  assert (u64 (_in s + 1) = _in s + 1) as Eu by (apply uwrap_id; lia).
  assert (push_of th = Some (_in s) /\ pop_of th = None /\ taken th = None) as (Epu & Epo & Eta)
    by (by destruct Hth as [->|[-> _]]).
  assert (forall j t, push_of (threads s j) = Some t -> 0 <= t < _in s) as Hold.
  { intros j t E. pose proof (i_thread _ Hs j) as H. destruct (threads s j); try done;
      injection E as ->; cbn in H; tauto. }
  assert (forall t w, pushed s !! t = Some w -> t <> _in s /\ <[_in s := v]> (pushed s) !! t = Some w) as Hps.
  { intros t w E. assert (0 <= t < _in s) by (apply (i_pushed _ Hs); eauto).
    split; [lia|]. rewrite lookup_insert_ne by lia. done. }
  destruct (threads_update s (draw_in i v th s) i th) as (Ht & Hpu & Hpo); try done.
  - cbn. rewrite Eu. lia.
  - intros t w E. by apply Hps.
  - destruct Hth as [->|[-> Hsq]]; cbn; rewrite Eu, lookup_insert_eq; split_and?; done || lia.
  - intros j t _ E. rewrite Epu in E. injection E as <-. intros E'%Hold. lia.
  - intros j t _ E. congruence.
  - split; try done; cbn [draw_in _buf _in _out pushed popped]; rewrite ?Eu; try lia.
    + apply (i_buf _ Hs).
    + apply (i_out _ Hs).
    + intros t. rewrite lookup_insert_is_Some', (i_pushed _ Hs). lia.
    + intros t Ht0. rewrite (i_push_done _ Hs t Ht0). unfold push_done. cbn [draw_in _in threads]. rewrite Eu.
      destruct (decide (t = _in s)) as [->|Hne].
      * split; [lia|]. intros [_ H]. exfalso. apply (H i). cbn. by rewrite fn_lookup_insert.
      * rewrite (untaken_iff push_of _ i th t Npu) by congruence. split; intros [? ?]; (split; [lia | done]).
    + intros t Ht0. rewrite (i_pop_done _ Hs t Ht0). unfold pop_done. cbn [draw_in threads _out].
      by rewrite (untaken_iff pop_of _ i th t Npo) by congruence.
    + intros t Ht0 Esq Htk. cbn [draw_in draw_out threads] in Htk.
      rewrite (untaken_iff taken _ i th t Nta) in Htk by congruence.
      rewrite lookup_insert_ne; [by apply (i_val _ Hs)|].
      assert (push_done s t) as [? _] by (apply (i_push_done _ Hs); [done|];
        change (sq (draw_in i v th s)) with (sq s) in Esq; lia). lia.
    + intros t w E%(i_popped _ Hs). by apply Hps.
    + apply (i_returned _ Hs).
    + apply (i_nonneg _ Hs).
Qed.

Lemma inv_draw_out s i th :
  inv s -> _out s < 2 ^ 31 ->
  push_of (threads s i) = None -> pop_of (threads s i) = None -> taken (threads s i) = None ->
  th = PopWait (_out s) \/
    th = PopRead (_out s) /\ sq s (slot (_out s)) = 2 * round (_out s) + 1 ->
  inv (draw_out i th s).
Proof.
  intros Hs Hlt Npu Npo Nta Hth. pose proof (i_out _ Hs) as Hin.
  assert (u64 (_out s + 1) = _out s + 1) as Eu by (apply uwrap_id; lia).
  assert (pop_of th = Some (_out s) /\ push_of th = None /\ taken th = None) as (Epo & Epu & Eta)
    by (by destruct Hth as [->|[-> _]]).
  assert (forall j t, pop_of (threads s j) = Some t -> 0 <= t < _out s) as Hold.
  { intros j t E. pose proof (i_thread _ Hs j) as H. destruct (threads s j); try done;
      injection E as ->; cbn in H; tauto. }
  destruct (threads_update s (draw_out i th s) i th) as (Ht & Hpu & Hpo); try done.
  - cbn. rewrite Eu. lia.
  - destruct Hth as [->|[-> Hsq]]; cbn; rewrite Eu; split_and?; done || lia.
  - intros j t _ E. congruence.
  - intros j t _ E. rewrite Epo in E. injection E as <-. intros E'%Hold. lia.
  - split; try done; cbn [draw_out _buf _in _out pushed popped]; rewrite ?Eu; try lia.
    + apply (i_buf _ Hs).
    + apply (i_in _ Hs).
    + apply (i_pushed _ Hs).
    + intros t Ht0. rewrite (i_push_done _ Hs t Ht0). unfold push_done. cbn [draw_out threads _in].
      by rewrite (untaken_iff push_of _ i th t Npu) by congruence.
    + intros t Ht0. rewrite (i_pop_done _ Hs t Ht0). unfold pop_done. cbn [draw_out _out threads]. rewrite Eu.
      destruct (decide (t = _out s)) as [->|Hne].
      * split; [lia|]. intros [_ H]. exfalso. apply (H i). cbn. by rewrite fn_lookup_insert.
      * rewrite (untaken_iff pop_of _ i th t Npo) by congruence. split; intros [? ?]; (split; [lia | done]).
    + intros t Ht0 Esq Htk. cbn [draw_in draw_out threads] in Htk.
      rewrite (untaken_iff taken _ i th t Nta) in Htk by congruence.
      by apply (i_val _ Hs).
    + apply (i_popped _ Hs).
    + apply (i_returned _ Hs).
    + apply (i_nonneg _ Hs).
Qed.

(** ** Steps in a slot *)

Lemma sq_set_slot (s : state) t sl k :
  inv s -> 0 <= t < 2 ^ 31 ->
  sq (set_slot SHIFT t sl s) k = if decide (slot t = k) then s_seq sl else sq s k.
Proof.
  intros Hs Ht. unfold sq, set_slot. cbn [_buf]. rewrite idx_ticket by done. case_decide as E.
  - subst k. rewrite list_lookup_insert_eq; [done|]. rewrite (i_buf _ Hs). apply slot_lt.
  - by rewrite list_lookup_insert_ne.
Qed.

Lemma vl_set_slot (s : state) t sl k :
  inv s -> 0 <= t < 2 ^ 31 ->
  vl (set_slot SHIFT t sl s) k = if decide (slot t = k) then Some (s_val sl) else vl s k.
Proof.
  intros Hs Ht. unfold vl, set_slot. cbn [_buf]. rewrite idx_ticket by done. case_decide as E.
  - subst k. rewrite list_lookup_insert_eq; [done|]. rewrite (i_buf _ Hs). apply slot_lt.
  - by rewrite list_lookup_insert_ne.
Qed.

Lemma slot_of_sq (s : state) t sl :
  0 <= t < 2 ^ 31 -> slot_of SHIFT s t = Some sl ->
  s_seq sl = sq s (slot t) /\ Some (s_val sl) = vl s (slot t).
Proof. intros Ht. unfold slot_of, sq, vl. rewrite idx_ticket by done. by intros ->. Qed.

(** The state after thread [i], which is in the slot of ticket [t], has written
    [sl] to it and moved to [th]. *)
Definition slot_step (s s' : state) (i : nat) (th : Thread T) (t : Z) (sl : Slot T) : Prop :=
  _buf s' = _buf (set_slot SHIFT t sl s) /\ _in s' = _in s /\ _out s' = _out s /\
  pushed s' = pushed s /\ threads s' = <[i := th]> (threads s).

Section slot_step.
Context (s s' : state) (i : nat) (th : Thread T) (t : Z) (sl : Slot T).
Context (Hs : inv s) (Hstep : slot_step s s' i th t sl).
Context (Hown : owner (threads s i) = Some t) (Ht : 0 <= t < 2 ^ 31).
Context (Hge : sq s (slot t) <= s_seq sl).

Lemma slot_step_sq k : sq s' k = if decide (slot t = k) then s_seq sl else sq s k.
Proof. destruct Hstep as (Eb & _). rewrite <- sq_set_slot by done. unfold sq. by rewrite Eb. Qed.

Lemma slot_step_vl k : vl s' k = if decide (slot t = k) then Some (s_val sl) else vl s k.
Proof. destruct Hstep as (Eb & _). rewrite <- vl_set_slot by done. unfold vl. by rewrite Eb. Qed.

(** Nobody else is disturbed. *)
Lemma slot_step_threads :
  thread_ok s' th ->
  (push_of th = None \/ push_of th = push_of (threads s i)) ->
  (pop_of th = None \/ pop_of th = pop_of (threads s i)) ->
  (forall j, thread_ok s' (threads s' j)) /\
  (forall j j' t, push_of (threads s' j) = Some t -> push_of (threads s' j') = Some t -> j = j') /\
  (forall j j' t, pop_of (threads s' j) = Some t -> pop_of (threads s' j') = Some t -> j = j').
Proof.
  intros Hth Hpu Hpo. pose proof Hstep as (_ & Ein & Eout & Epd & Eth).
  apply (threads_update s s' i th); try done; try lia.
  - intros t' v. by rewrite Epd.
  - intros k. rewrite slot_step_sq. case_decide; [by subst|done].
  - intros j t' Hne Ho. rewrite slot_step_sq, slot_step_vl.
    case_decide as E; [|done]. destruct Hne. by apply (owner_unique s j i t' t).
  - intros j t' Hne E E'. destruct Hpu as [Hpu|Hpu]; rewrite Hpu in E; [done|].
    destruct Hne. by apply (i_push _ Hs j i t').
  - intros j t' Hne E E'. destruct Hpo as [Hpo|Hpo]; rewrite Hpo in E; [done|].
    destruct Hne. by apply (i_pop _ Hs j i t').
Qed.

Lemma slot_step_frame :
  length (_buf s') = Z.to_nat S_ /\ 0 <= _in s' <= 2 ^ 31 /\ 0 <= _out s' <= 2 ^ 31 /\
  (forall t', is_Some (pushed s' !! t') <-> 0 <= t' < _in s').
Proof.
  destruct Hstep as (Eb & Ein & Eout & Epd & _). rewrite Eb, Ein, Eout, Epd. split_and!.
  - unfold set_slot. cbn [_buf]. rewrite length_insert. apply (i_buf _ Hs).
  - apply (i_in _ Hs).
  - apply (i_in _ Hs).
  - apply (i_out _ Hs).
  - apply (i_out _ Hs).
  - apply (i_pushed _ Hs).
Qed.

End slot_step.

Lemma inv_push_write s i v t sl :
  inv s -> threads s i = PushWrite v t -> slot_of SHIFT s t = Some sl ->
  inv (at_ i (PushRelease v t) (set_slot SHIFT t (mkSlot (s_seq sl) v) s)).
Proof.
  intros Hs Ei Hsl. pose proof (i_thread _ Hs i) as Hok. rewrite Ei in Hok.
  destruct Hok as (Ht & Hp & Hsq). pose proof (i_in _ Hs).
  assert (0 <= t < 2 ^ 31) as Ht31 by lia. destruct (slot_of_sq s t sl Ht31 Hsl) as [Es Ev].
  set (s' := at_ i _ _).
  assert (slot_step s s' i (PushRelease v t) t (mkSlot (s_seq sl) v)) as Hst by done.
  assert (owner (threads s i) = Some t) as Hown by (by rewrite Ei).
  assert (forall k, sq s' k = sq s k) as Esq.
  { intros k. rewrite (slot_step_sq s s' i _ t _ Hs Hst Ht31). case_decide; [by subst|done]. }
  assert (forall k, vl s' k = if decide (slot t = k) then Some v else vl s k) as Evl
    by (intros k; apply (slot_step_vl s s' i _ t _ Hs Hst Ht31)).
  destruct (slot_step_threads s s' i (PushRelease v t) t _ Hs Hst Hown Ht31) as (Hth & Hpu & Hpo).
  { by rewrite <- Es. }
  { cbn [thread_ok]. rewrite Esq, Evl, decide_True by done. done. }
  { right. by rewrite Ei. } { right. by rewrite Ei. }
  destruct (slot_step_frame s s' i _ t _ Hs Hst) as (? & ? & ? & ?).
  split; try done.
  - intros t' Hnn. rewrite Esq, (i_push_done _ Hs t' Hnn). unfold push_done.
    change (threads s') with (<[i := PushRelease v t]> (threads s)).
    by rewrite (same_iff push_of) by (by rewrite Ei).
  - intros t' Hnn. rewrite Esq, (i_pop_done _ Hs t' Hnn). unfold pop_done.
    change (threads s') with (<[i := PushRelease v t]> (threads s)).
    by rewrite (same_iff pop_of) by (by rewrite Ei).
  - intros t' Hnn E. rewrite Esq in E. change (threads s') with (<[i := PushRelease v t]> (threads s)).
    rewrite (same_iff taken) by (by rewrite Ei).
    intros Htk. rewrite Evl. case_decide as Ek; [rewrite <- Ek in E; lia|]. by apply (i_val _ Hs).
  - apply (i_popped _ Hs).
  - intros t' Hnn E. rewrite Esq in E. by apply (i_returned _ Hs).
  - intros k. rewrite Esq. apply (i_nonneg _ Hs).
Qed.

Lemma inv_push_release s i v t sl :
  inv s -> threads s i = PushRelease v t -> slot_of SHIFT s t = Some sl ->
  inv (at_ i Idle (set_slot SHIFT t (mkSlot (u64 (Mpmc.seq SHIFT t + 1)) (s_val sl)) s)).
Proof.
  intros Hs Ei Hsl. pose proof (i_thread _ Hs i) as Hok. rewrite Ei in Hok.
  destruct Hok as (Ht & Hp & Hsq & Hvl). pose proof (i_in _ Hs).
  assert (0 <= t < 2 ^ 31) as Ht31 by lia. destruct (slot_of_sq s t sl Ht31 Hsl) as [Es Ev].
  pose proof (round_range t ltac:(lia)).
  assert (u64 (Mpmc.seq SHIFT t + 1) = 2 * round t + 1) as Eq.
  { rewrite seq_ticket by done. apply uwrap_id. lia. }
  rewrite Eq. set (s' := at_ i _ _).
  assert (slot_step s s' i Idle t (mkSlot (2 * round t + 1) (s_val sl))) as Hst by done.
  assert (owner (threads s i) = Some t) as Hown by (by rewrite Ei).
  assert (forall k, sq s' k = if decide (slot t = k) then 2 * round t + 1 else sq s k) as Esq
    by (intros k; apply (slot_step_sq s s' i _ t _ Hs Hst Ht31)).
  assert (forall k, vl s' k = vl s k) as Evl.
  { intros k. rewrite (slot_step_vl s s' i _ t _ Hs Hst Ht31). case_decide; [by subst|done]. }
  destruct (slot_step_threads s s' i Idle t _ Hs Hst Hown Ht31) as (Hth & Hpu & Hpo);
    [cbn [s_seq]; lia | done | by left | by left |].
  destruct (slot_step_frame s s' i _ t _ Hs Hst) as (? & ? & ? & ?).
  split; try done.
  - intros t' Hnn. rewrite Esq. unfold push_done.
    change (threads s') with (<[i := Idle]> (threads s)).
    rewrite (release_iff push_of _ _ _ t) by (done || (by rewrite Ei) || apply (i_push _ Hs)).
    pose proof (i_push_done _ Hs t' Hnn) as Hd. unfold push_done in Hd.
    destruct (decide (t' = t)) as [->|Hne]; [rewrite decide_True by done; cbn; split; [split; [lia|by left]|lia]|].
    case_decide as Ek.
    + rewrite <- Ek, Hsq in Hd.
      assert (round t' <> round t) by (intros Er; by apply Hne, ticket_eq).
      assert (2 * round t' < 2 * round t + 1 <-> 2 * round t' < 2 * round t) as -> by lia.
      change (_in s') with (_in s). rewrite Hd. tauto.
    + change (_in s') with (_in s). tauto.
  - intros t' Hnn. rewrite Esq. unfold pop_done.
    change (threads s') with (<[i := Idle]> (threads s)).
    rewrite (same_iff pop_of) by (by rewrite Ei).
    pose proof (i_pop_done _ Hs t' Hnn) as Hd. unfold pop_done in Hd.
    change (_out s') with (_out s). case_decide as Ek; [|done].
    rewrite <- Hd, <- Ek, Hsq. lia.
  - intros t' Hnn E. rewrite Esq in E. change (threads s') with (<[i := Idle]> (threads s)).
    rewrite (same_iff taken) by (by rewrite Ei).
    intros Htk. rewrite Evl. case_decide as Ek; [|by apply (i_val _ Hs)].
    assert (t' = t) as -> by (apply ticket_eq; [done | lia]). rewrite Hvl. exact Hp.
  - apply (i_popped _ Hs).
  - intros t' Hnn E. rewrite Esq in E. apply (i_returned _ Hs); [done|].
    case_decide as Ek; [|done]. rewrite <- Ek. lia.
  - intros k. rewrite Esq. case_decide; [lia | apply (i_nonneg _ Hs)].
Qed.

Lemma inv_pop_read s i t sl moved :
  inv s -> threads s i = PopRead t -> slot_of SHIFT s t = Some sl ->
  inv (at_ i (PopRelease t (s_val sl)) (set_slot SHIFT t (mkSlot (s_seq sl) moved) s)).
Proof.
  intros Hs Ei Hsl. pose proof (i_thread _ Hs i) as Hok. rewrite Ei in Hok.
  destruct Hok as (Ht & Hsq). pose proof (i_out _ Hs).
  assert (0 <= t < 2 ^ 31) as Ht31 by lia. destruct (slot_of_sq s t sl Ht31 Hsl) as [Es Ev].
  set (v := s_val sl) in *. set (s' := at_ i _ _).
  assert (pushed s !! t = Some v) as Hpt.
  { rewrite Ev. apply (i_val _ Hs); [lia | done|]. intros j Ej.
    assert (pop_of (threads s j) = Some t) as Pj by (by destruct (threads s j)).
    assert (j = i) as -> by (apply (i_pop _ Hs j i t); [done | by rewrite Ei]). by rewrite Ei in Ej. }
  assert (slot_step s s' i (PopRelease t v) t (mkSlot (s_seq sl) moved)) as Hst by done.
  assert (owner (threads s i) = Some t) as Hown by (by rewrite Ei).
  assert (forall k, sq s' k = sq s k) as Esq.
  { intros k. rewrite (slot_step_sq s s' i _ t _ Hs Hst Ht31). case_decide; [by subst|done]. }
  assert (forall k, vl s' k = if decide (slot t = k) then Some moved else vl s k) as Evl
    by (intros k; apply (slot_step_vl s s' i _ t _ Hs Hst Ht31)).
  destruct (slot_step_threads s s' i (PopRelease t v) t _ Hs Hst Hown Ht31) as (Hth & Hpu & Hpo).
  { by rewrite <- Es. }
  { cbn [thread_ok]. rewrite Esq. done. }
  { right. by rewrite Ei. } { right. by rewrite Ei. }
  destruct (slot_step_frame s s' i _ t _ Hs Hst) as (? & ? & ? & ?).
  split; try done.
  - intros t' Hnn. rewrite Esq, (i_push_done _ Hs t' Hnn). unfold push_done.
    change (threads s') with (<[i := PopRelease t v]> (threads s)).
    by rewrite (same_iff push_of) by (by rewrite Ei).
  - intros t' Hnn. rewrite Esq, (i_pop_done _ Hs t' Hnn). unfold pop_done.
    change (threads s') with (<[i := PopRelease t v]> (threads s)).
    by rewrite (same_iff pop_of) by (by rewrite Ei).
  - intros t' Hnn E Htk. rewrite Esq in E. rewrite Evl. case_decide as Ek.
    + assert (t' = t) as -> by (apply ticket_eq; [done | rewrite <- Ek in E; lia]).
      destruct (Htk i). cbn. by rewrite fn_lookup_insert.
    + apply (i_val _ Hs); [done | done |]. intros j Ej. apply (Htk j). cbn. unfold insert, fn_insert.
      case_decide; [|done]. subst j. by rewrite Ei in Ej.
  - apply (i_popped _ Hs).
  - intros t' Hnn E. rewrite Esq in E. by apply (i_returned _ Hs).
  - intros k. rewrite Esq. apply (i_nonneg _ Hs).
Qed.

Lemma inv_pop_release s i t v sl :
  inv s -> threads s i = PopRelease t v -> slot_of SHIFT s t = Some sl ->
  inv (return_value t v
    (at_ i Idle (set_slot SHIFT t (mkSlot (u64 (Mpmc.seq SHIFT t + 2)) (s_val sl)) s))).
Proof.
  intros Hs Ei Hsl. pose proof (i_thread _ Hs i) as Hok. rewrite Ei in Hok.
  destruct Hok as (Ht & Hsq & Hpt). pose proof (i_out _ Hs).
  assert (0 <= t < 2 ^ 31) as Ht31 by lia. destruct (slot_of_sq s t sl Ht31 Hsl) as [Es Ev].
  pose proof (round_range t ltac:(lia)).
  assert (u64 (Mpmc.seq SHIFT t + 2) = 2 * round t + 2) as Eq.
  { rewrite seq_ticket by done. apply uwrap_id. lia. }
  rewrite Eq. set (s' := return_value _ _ _).
  assert (slot_step s s' i Idle t (mkSlot (2 * round t + 2) (s_val sl))) as Hst by done.
  assert (owner (threads s i) = Some t) as Hown by (by rewrite Ei).
  assert (forall k, sq s' k = if decide (slot t = k) then 2 * round t + 2 else sq s k) as Esq
    by (intros k; apply (slot_step_sq s s' i _ t _ Hs Hst Ht31)).
  assert (forall k, vl s' k = vl s k) as Evl.
  { intros k. rewrite (slot_step_vl s s' i _ t _ Hs Hst Ht31). case_decide; [by subst|done]. }
  destruct (slot_step_threads s s' i Idle t _ Hs Hst Hown Ht31) as (Hth & Hpu & Hpo);
    [cbn [s_seq]; lia | done | by left | by left |].
  destruct (slot_step_frame s s' i _ t _ Hs Hst) as (? & ? & ? & ?).
  split; try done.
  - intros t' Hnn. rewrite Esq. unfold push_done.
    change (threads s') with (<[i := Idle]> (threads s)).
    rewrite (same_iff push_of) by (by rewrite Ei).
    pose proof (i_push_done _ Hs t' Hnn) as Hd. unfold push_done in Hd.
    change (_in s') with (_in s). case_decide as Ek; [|done].
    rewrite <- Hd, <- Ek, Hsq. lia.
  - intros t' Hnn. rewrite Esq. unfold pop_done.
    change (threads s') with (<[i := Idle]> (threads s)).
    rewrite (release_iff pop_of _ _ _ t) by (done || (by rewrite Ei) || apply (i_pop _ Hs)).
    pose proof (i_pop_done _ Hs t' Hnn) as Hd. unfold pop_done in Hd.
    destruct (decide (t' = t)) as [->|Hne]; [rewrite decide_True by done; cbn; split; [split; [lia|by left]|lia]|].
    case_decide as Ek.
    + rewrite <- Ek, Hsq in Hd.
      assert (round t' <> round t) by (intros Er; by apply Hne, ticket_eq).
      assert (2 * round t' + 1 < 2 * round t + 2 <-> 2 * round t' + 1 < 2 * round t + 1) as -> by lia.
      change (_out s') with (_out s). rewrite Hd. tauto.
    + change (_out s') with (_out s). tauto.
  - intros t' Hnn E Htk. rewrite Esq in E. rewrite Evl. case_decide as Ek; [lia|].
    apply (i_val _ Hs); [done | done |]. intros j Ej. apply (Htk j). cbn. unfold insert, fn_insert.
    case_decide; [|done]. subst j. rewrite Ei in Ej. injection Ej as <-. done.
  - intros t' w. cbn [s' return_value popped at_ set_slot pushed].
    intros [[<- <-]|[_ E]]%lookup_insert_Some; [done | by apply (i_popped _ Hs)].
  - intros t' Hnn E. cbn [s' return_value popped]. apply lookup_insert_is_Some'.
    destruct (decide (t' = t)) as [->|Hne]; [by left|]. right. apply (i_returned _ Hs); [done|].
    rewrite Esq in E. case_decide as Ek; [|done]. rewrite <- Ek.
    assert (round t' <> round t) by (intros Er; by apply Hne, ticket_eq). lia.
  - intros k. rewrite Esq. case_decide; [lia | apply (i_nonneg _ Hs)].
Qed.

(** ** All steps *)

(** A slot never has the sequence number of ticket [2 ^ 31], whose [int] is negative. *)
Lemma sq_bound s t : inv s -> sq s (slot t) <= 2 ^ 31.
Proof.
  intros Hs. pose proof size_range. pose proof (i_in _ Hs).
  set (t' := t mod S_ + 2 ^ 30 / S_ * 2 * S_).
  assert (slot t = slot t') as ->.
  { unfold slot, t'. rewrite Z.mod_add by lia. by rewrite Z.mod_mod by lia. }
  assert (2 ^ 30 / S_ * S_ = 2 ^ 30) as E.
  { unfold S_, SIZE. rewrite <- Z.pow_sub_r, <- Z.pow_add_r by lia. f_equal. lia. }
  pose proof (Z.mod_pos_bound t S_ ltac:(lia)).
  assert (round t' = 2 ^ 30 / S_ * 2) as Er.
  { unfold round, t'. rewrite Z.div_add by lia. rewrite Z.div_small by lia. lia. }
  assert (2 ^ 31 <= t') by (unfold t'; lia).
  destruct (Z.lt_ge_cases (2 * round t') (sq s (slot t'))) as [Hlt|Hge].
  - apply (i_push_done _ Hs) in Hlt as [Hlt _]; lia.
  - assert (2 * (2 ^ 30 / S_) <= 2 ^ 30) by nia. lia.
Qed.

(** The sequence number after [2 ^ 31] tickets. *)
Definition last_seq : Z := 2 * (2 ^ 31 / S_).

Lemma last_seq_eq : last_seq * S_ = 2 ^ 32 /\ 4 <= last_seq <= 2 ^ 31.
Proof.
  pose proof size_range. unfold last_seq.
  assert (2 ^ 31 / S_ * S_ = 2 ^ 31).
  { unfold S_, SIZE. rewrite <- Z.pow_sub_r, <- Z.pow_add_r by lia. f_equal. lia. }
  split; nia.
Qed.

(** No ticket, however large, has this sequence number. *)
Lemma seq_any t :
  (0 <= s32 t /\ 0 <= Mpmc.seq SHIFT t /\ Mpmc.seq SHIFT t + 1 < last_seq) \/
  (s32 t < 0 /\ 2 ^ 64 - 2 ^ 31 <= Mpmc.seq SHIFT t < 2 ^ 64 - 1).
Proof.
  pose proof size_range. destruct last_seq_eq as [El Hl].
  pose proof (swrap_range 32 t ltac:(lia)) as Hx. change (2 ^ (32 - 1)) with (2 ^ 31) in Hx.
  unfold Mpmc.seq. set (x := s32 t) in *.
  rewrite Z.shiftr_div_pow2, Z.shiftl_mul_pow2, Z.pow_1_r by lia. fold (SIZE SHIFT). fold S_.
  pose proof (Z.mul_div_le x S_ ltac:(lia)). pose proof (Z.mul_succ_div_gt x S_ ltac:(lia)).
  set (q := x / S_) in *.
  assert (- 2 ^ 31 <= q * 2 < 2 ^ 31) as Hq by nia.
  rewrite (swrap_id 32) by (lia || (apply sfits_spec; lia)).
  destruct (Z.lt_ge_cases q 0) as [Hn|Hn]; [right | left].
  - assert (uwrap 64 (q * 2) = q * 2 + 2 ^ 64) as ->; [|split; [nia | lia]].
    unfold uwrap. symmetry. apply (Z.mod_unique _ _ (-1)); lia.
  - rewrite uwrap_id by lia. split; [nia|]. split; [lia|].
    assert (q < 2 ^ 31 / S_); [|unfold last_seq; lia].
    apply Z.div_lt_upper_bound; [lia|]. unfold last_seq in El. lia.
Qed.

Lemma seq_never t : Mpmc.seq SHIFT t <> last_seq /\ u64 (Mpmc.seq SHIFT t + 1) <> last_seq.
Proof.
  destruct last_seq_eq as [_ Hl].
  destruct (seq_any t) as [(_ & H1 & H2)|[_ H1]]; rewrite (uwrap_id 64 (_ + 1)) by lia; lia.
Qed.

(** A ticket that matches the number of its slot is below [2 ^ 31]. *)
Lemma match_small s t sl d :
  inv s -> 0 <= t <= 2 ^ 31 -> slot_of SHIFT s t = Some sl -> d = 0 \/ d = 1 ->
  u64 (Mpmc.seq SHIFT t + d) = s_seq sl -> t < 2 ^ 31.
Proof.
  intros Hs Ht Hsl Hd E. destruct (decide (t = 2 ^ 31)) as [->|]; [|lia]. exfalso.
  assert (exists t', s_seq sl = sq s (slot t')) as [t' Et'].
  { exists (idx SHIFT (2 ^ 31)). unfold slot_of in Hsl. unfold sq, slot.
    rewrite idx_mod, Z.mod_mod by (pose proof size_range; lia). rewrite <- idx_mod, Hsl. done. }
  pose proof (sq_bound s t' Hs).
  destruct (seq_any (2 ^ 31)) as [[Hn _]|[_ Hn]]; [by vm_compute in Hn|].
  rewrite uwrap_id in E by lia. lia.
Qed.

(** The number a waiting thread compares with, for a ticket below [2 ^ 31]. *)
Lemma match_push s t sl :
  0 <= t < 2 ^ 31 -> slot_of SHIFT s t = Some sl ->
  Mpmc.seq SHIFT t = s_seq sl <-> sq s (slot t) = 2 * round t.
Proof.
  intros Ht Hsl. destruct (slot_of_sq s t sl Ht Hsl) as [-> _]. rewrite seq_ticket by done. lia.
Qed.

Lemma match_pop s t sl :
  0 <= t < 2 ^ 31 -> slot_of SHIFT s t = Some sl ->
  u64 (Mpmc.seq SHIFT t + 1) = s_seq sl <-> sq s (slot t) = 2 * round t + 1.
Proof.
  intros Ht Hsl. destruct (slot_of_sq s t sl Ht Hsl) as [-> _]. rewrite seq_ticket by done.
  pose proof (round_range t ltac:(lia)). rewrite uwrap_id by lia. lia.
Qed.

Lemma u64_seq t : u64 (Mpmc.seq SHIFT t + 0) = Mpmc.seq SHIFT t.
Proof. rewrite Z.add_0_r. unfold Mpmc.seq. apply uwrap_uwrap. Qed.

Lemma draw_bound x : 0 <= x <= 2 ^ 31 -> u64 (x + 1) <= 2 ^ 31 -> x < 2 ^ 31.
Proof. intros Hx. rewrite uwrap_id by lia. lia. Qed.

Lemma step_inv s s' :
  inv s -> step SHIFT s s' -> _in s' <= 2 ^ 31 -> _out s' <= 2 ^ 31 -> inv s'.
Proof.
  intros Hs Hstep Bin Bout. pose proof (i_in _ Hs) as Hin. pose proof (i_out _ Hs) as Hout.
  destruct Hstep; try match goal with
    H : threads ?s ?i = _ |- _ => pose proof (i_thread _ Hs i) as Hok; rewrite H in Hok; cbn in Hok
  end; try done;
  try (by eapply inv_push_write); try (by eapply inv_push_release);
  try (by eapply inv_pop_read); try (by eapply inv_pop_release).
  - apply inv_draw_in; try (by rewrite H); [done | by apply draw_bound | by left].
  - destruct Hok as [Ht Hp]. apply inv_at; try (by rewrite H); [done|]. cbn.
    split; [done|]. split; [done|]. by eapply match_push; [lia|..].
  - apply inv_draw_out; try (by rewrite H); [done | by apply draw_bound | by left].
  - apply inv_at; try (by rewrite H); [done|]. cbn.
    split; [done|]. by eapply match_pop; [lia|..].
  - apply inv_at; try (by rewrite H); [done|]. cbn. lia.
  - apply inv_at; by rewrite ?H.
  - apply inv_at; try (by rewrite H); [done|]. cbn.
    assert (t < 2 ^ 31) by (eapply (match_small s t sl 0); rewrite ?u64_seq; done || lia || auto).
    split; [lia|]. enough (sq s (slot t) = 2 * round t) by lia. by eapply match_push; [lia|..].
  - apply inv_at; try (by rewrite H); done.
  - apply inv_at; try (by rewrite H); [done|]. cbn. lia.
  - destruct Hok as [Ht Hsq]. subst t. apply inv_draw_in; try (by rewrite H); [done | lia |].
    right. split; [done|]. pose proof (i_push_done _ Hs (_in s) ltac:(lia)) as Hd.
    unfold push_done in Hd. destruct (Z.lt_ge_cases (2 * round (_in s)) (sq s (slot (_in s))));
      [|lia]. apply Hd in H0. lia.
  - apply inv_at; try (by rewrite H); [done|]. cbn. lia.
  - apply inv_at; try (by rewrite H); [done|]. cbn. lia.
  - apply inv_at; by rewrite ?H.
  - apply inv_at; try (by rewrite H); [done|]. cbn.
    assert (t < 2 ^ 31) by (eapply (match_small s t sl 1); done || lia || auto).
    split; [lia|]. enough (sq s (slot t) = 2 * round t + 1) by lia. by eapply match_pop; [lia|..].
  - apply inv_at; try (by rewrite H); done.
  - apply inv_at; try (by rewrite H); [done|]. cbn. lia.
  - destruct Hok as [Ht Hsq]. subst t. apply inv_draw_out; try (by rewrite H); [done | lia |].
    right. split; [done|]. pose proof (i_pop_done _ Hs (_out s) ltac:(lia)) as Hd.
    unfold pop_done in Hd. destruct (Z.lt_ge_cases (2 * round (_out s) + 1) (sq s (slot (_out s))));
      [|lia]. apply Hd in H0. lia.
  - apply inv_at; try (by rewrite H); [done|]. cbn. lia.
Qed.

Lemma reachable_inv s : reachable SHIFT val0 s -> inv s.
Proof. induction 1 as [|s s' _ IH Hstep Bi Bo]; [apply inv_init | by eapply step_inv]. Qed.
End invariant.
