(* ===== verification/MpmcProps.v ===== *)
(** * The bounded queue: theorems *)

From S2P Require Import Prelude Mpmc.
From stdpp Require Import gmap functions list relations.
#[local] Open Scope Z_scope.

Section queue.
Context {T : Type} (SHIFT : Z) (val0 : T) (Hshift : 1 <= SHIFT <= 30).
Let S_ : Z := SIZE SHIFT.

Lemma slot_back t : slot SHIFT (t - S_) = slot SHIFT t /\ round SHIFT (t - S_) = round SHIFT t - 1.
Proof.
  pose proof (size_range SHIFT Hshift) as Hs. fold S_ in Hs. unfold slot, round. fold S_.
  replace (t - S_) with (t + (-1) * S_) by lia.
  by rewrite Z.mod_add, Z.div_add by lia.
Qed.

Lemma slot_some (s : State T) t : inv SHIFT s -> exists sl, slot_of SHIFT s t = Some sl.
Proof.
  intros Hs. unfold slot_of. apply lookup_lt_is_Some_2. rewrite (i_buf _ _ Hs), idx_mod by done.
  pose proof (size_range SHIFT Hshift).
  pose proof (Z.mod_pos_bound (u64 (s32 t)) (SIZE SHIFT) ltac:(lia)). lia.
Qed.

(** A push can go on when the element one round before it has been popped. *)
Lemma push_ready (s : State T) i v t :
  inv SHIFT s -> threads s i = PushWait v t ->
  sq s (slot SHIFT t) = 2 * round SHIFT t <-> (S_ <= t -> pop_done s (t - S_)).
Proof.
  intros Hs Ei. pose proof (i_thread _ _ Hs i) as Hok. rewrite Ei in Hok. destruct Hok as [Ht _].
  assert (~ push_done s t) as Hn by (intros [_ H]; apply (H i); by rewrite Ei).
  rewrite <- (i_push_done _ _ Hs) in Hn by lia. pose proof (i_nonneg _ _ Hs (slot SHIFT t)).
  pose proof (size_range SHIFT Hshift) as Hsz. fold S_ in Hsz.
  destruct (slot_back t) as [Ek Er]. split.
  - intros E Hge. apply (i_pop_done _ _ Hs); [lia|]. rewrite Ek, Er, E. lia.
  - intros H'. destruct (Z.lt_ge_cases t S_) as [Hlt|Hge].
    + assert (round SHIFT t = 0) by (unfold round; fold S_; apply Z.div_small; lia). lia.
    + apply (i_pop_done _ _ Hs) in H'; [rewrite Ek, Er in H'; lia | lia | lia].
Qed.

Lemma pop_ready (s : State T) i t :
  inv SHIFT s -> threads s i = PopWait t ->
  sq s (slot SHIFT t) = 2 * round SHIFT t + 1 <-> push_done s t.
Proof.
  intros Hs Ei. pose proof (i_thread _ _ Hs i) as Hok. rewrite Ei in Hok. cbn in Hok.
  assert (~ pop_done s t) as Hn by (intros [_ H]; apply (H i); by rewrite Ei).
  rewrite <- (i_pop_done _ _ Hs) in Hn by lia. rewrite <- (i_push_done _ _ Hs) by lia. lia.
Qed.

(** ** A queue through which [n] elements have passed *)

Definition quiet (n : Z) (s : State T) : Prop :=
  reachable SHIFT val0 s /\ _in s = n /\ _out s = n /\ forall i, threads s i = Idle.

Lemma reach_next s s' :
  reachable SHIFT val0 s -> step SHIFT s s' -> _in s' = _in s -> _out s' = _out s ->
  reachable SHIFT val0 s'.
Proof.
  intros Hr Hs Ei Eo. pose proof (reachable_inv _ _ Hshift _ Hr) as Hinv.
  pose proof (i_in _ _ Hinv). pose proof (i_out _ _ Hinv). eapply reach_step; [done | done | lia | lia].
Qed.

(** A thread that can go on comes to the end of its operation. *)
Lemma push_finish s i v t :
  reachable SHIFT val0 s -> threads s i = PushWait v t ->
  sq s (slot SHIFT t) = 2 * round SHIFT t ->
  exists s', reachable SHIFT val0 s' /\ rtc (step SHIFT) s s' /\ _in s' = _in s /\
    _out s' = _out s /\ threads s' i = Idle /\ forall j, j <> i -> threads s' j = threads s j.
Proof.
  intros Hr Ei Esq. pose proof (reachable_inv _ _ Hshift _ Hr) as Hs.
  pose proof (i_thread _ _ Hs i) as Hok. rewrite Ei in Hok. destruct Hok as [Ht _].
  pose proof (i_in _ _ Hs). destruct (slot_some s t Hs) as [sl Hsl].
  set (s1 := at_ i (PushWrite v t) s).
  assert (step SHIFT s s1) as St1.
  { apply (push_go SHIFT i v t sl); [done | done|]. apply (match_push SHIFT Hshift s); [lia | done | done]. }
  assert (reachable SHIFT val0 s1) as Hr1 by (by apply (reach_next s)).
  set (s2 := at_ i (PushRelease v t) (set_slot SHIFT t (mkSlot (s_seq sl) v) s1)).
  assert (step SHIFT s1 s2) as St2 by (apply push_write; [apply fn_lookup_insert | done]).
  assert (reachable SHIFT val0 s2) as Hr2 by (by apply (reach_next s1)).
  destruct (slot_some s2 t (reachable_inv _ _ Hshift _ Hr2)) as [sl2 Hsl2].
  set (s3 := at_ i Idle (set_slot SHIFT t (mkSlot (u64 (Mpmc.seq SHIFT t + 1)) (s_val sl2)) s2)).
  assert (step SHIFT s2 s3) as St3 by (apply (push_release SHIFT i v); [apply fn_lookup_insert | done]).
  exists s3. split_and!; [by apply (reach_next s2) | | done | done | |].
  - by do 3 (eapply rtc_l; [done|]).
  - apply fn_lookup_insert.
  - intros j Hj. cbn. by rewrite !fn_lookup_insert_ne.
Qed.

Lemma pop_finish s i t :
  reachable SHIFT val0 s -> threads s i = PopWait t ->
  sq s (slot SHIFT t) = 2 * round SHIFT t + 1 ->
  exists s', reachable SHIFT val0 s' /\ rtc (step SHIFT) s s' /\ _in s' = _in s /\
    _out s' = _out s /\ threads s' i = Idle /\ forall j, j <> i -> threads s' j = threads s j.
Proof.
  intros Hr Ei Esq. pose proof (reachable_inv _ _ Hshift _ Hr) as Hs.
  pose proof (i_thread _ _ Hs i) as Hok. rewrite Ei in Hok. cbn in Hok.
  pose proof (i_out _ _ Hs). destruct (slot_some s t Hs) as [sl Hsl].
  set (s1 := at_ i (PopRead t) s).
  assert (step SHIFT s s1) as St1.
  { apply (pop_go SHIFT i t sl); [done | done|]. apply (match_pop SHIFT Hshift s); [lia | done | done]. }
  assert (reachable SHIFT val0 s1) as Hr1 by (by apply (reach_next s)).
  set (s2 := at_ i (PopRelease t (s_val sl)) (set_slot SHIFT t (mkSlot (s_seq sl) (s_val sl)) s1)).
  assert (step SHIFT s1 s2) as St2 by (apply pop_read; [apply fn_lookup_insert | done]).
  assert (reachable SHIFT val0 s2) as Hr2 by (by apply (reach_next s1)).
  destruct (slot_some s2 t (reachable_inv _ _ Hshift _ Hr2)) as [sl2 Hsl2].
  set (s3 := return_value t (s_val sl)
    (at_ i Idle (set_slot SHIFT t (mkSlot (u64 (Mpmc.seq SHIFT t + 2)) (s_val sl2)) s2))).
  assert (step SHIFT s2 s3) as St3 by (apply pop_release; [apply fn_lookup_insert | done]).
  exists s3. split_and!; [by apply (reach_next s2) | | done | done | |].
  - by do 3 (eapply rtc_l; [done|]).
  - apply fn_lookup_insert.
  - intros j Hj. cbn. by rewrite !fn_lookup_insert_ne.
Qed.

Lemma quiet_step n s : quiet n s -> 0 <= n < 2 ^ 31 -> exists s', quiet (n + 1) s'.
Proof.
  intros (Hr & Ein & Eout & Hidle) Hn.
  assert (u64 (n + 1) = n + 1) as Eu by (apply uwrap_id; lia).
  set (s1 := draw_in 0%nat val0 (PushWait val0 (_in s)) s).
  assert (reachable SHIFT val0 s1) as Hr1.
  { apply (reach_step _ _ s); [done | by apply push_start | cbn; rewrite Ein, Eu; lia | cbn; lia]. }
  assert (threads s1 0%nat = PushWait val0 n) as E1 by (cbn; by rewrite fn_lookup_insert, Ein).
  destruct (push_finish s1 0%nat val0 n Hr1 E1) as (s2 & Hr2 & _ & Ein2 & Eout2 & Et2 & Hj2).
  { apply (push_ready s1 0%nat val0); [by eapply reachable_inv | done |]. intros Hge. split.
    - cbn. pose proof (size_range SHIFT Hshift). unfold S_. lia.
    - intros j. cbn. unfold insert, fn_insert. case_decide; [done|]. by rewrite Hidle. }
  assert (forall i, threads s2 i = Idle) as Hidle2.
  { intros j. destruct (decide (j = 0%nat)) as [->|Hj]; [done|]. rewrite Hj2 by done.
    cbn. by rewrite fn_lookup_insert_ne. }
  cbn in Ein2, Eout2. rewrite Ein, Eu in Ein2. rewrite Eout in Eout2.
  set (s3 := draw_out 0%nat (PopWait (_out s2)) s2).
  assert (reachable SHIFT val0 s3) as Hr3.
  { apply (reach_step _ _ s2); [done | by apply pop_start | cbn; lia | cbn; rewrite Eout2, Eu; lia]. }
  assert (threads s3 0%nat = PopWait n) as E3 by (cbn; by rewrite fn_lookup_insert, Eout2).
  destruct (pop_finish s3 0%nat n Hr3 E3) as (s4 & Hr4 & _ & Ein4 & Eout4 & Et4 & Hj4).
  { apply (pop_ready s3 0%nat); [by eapply reachable_inv | done |]. split; [cbn; lia|].
    intros j. cbn. unfold insert, fn_insert. case_decide; [done|]. by rewrite Hidle2. }
  exists s4. split; [done|]. cbn in Ein4, Eout4. rewrite Eout2, Eu in Eout4.
  split; [lia|]. split; [lia|]. intros j. destruct (decide (j = 0%nat)) as [->|Hj]; [done|].
  rewrite Hj4 by done. cbn. by rewrite fn_lookup_insert_ne.
Qed.

Lemma quiet_exists n : 0 <= n <= 2 ^ 31 -> exists s, quiet n s.
Proof.
  intros [Hn Hle]. revert Hle. pattern n. apply natlike_ind; [| |done].
  - intros _. exists (init SHIFT val0). by split; [apply reach_init|].
  - intros m Hm IH Hle. destruct IH as [s Hq]; [lia|]. apply (quiet_step m s); [done | lia].
Qed.

(** ** The queue after [2 ^ 31] elements *)

(** Threads that are in none of the slots and about to enter none. *)
Definition outside (th : Thread T) : Prop :=
  match th with
  | Idle | PushWait _ _ | PopWait _ | TryPushLoad _ _ | TryPushRetry _ _
  | TryPopLoad _ | TryPopRetry _ => True
  | _ => False
  end.

Definition stuck (s0 s : State T) : Prop :=
  _buf s = _buf s0 /\ popped s = popped s0 /\ forall i, outside (threads s i).

Lemma quiet_last s :
  quiet (2 ^ 31) s -> forall k sl, _buf s !! k = Some sl -> s_seq sl = last_seq SHIFT.
Proof.
  intros (Hr & Ein & Eout & Hidle) k sl Hk.
  pose proof (reachable_inv _ _ Hshift _ Hr) as Hs. pose proof (size_range SHIFT Hshift) as Hsz.
  destruct (last_seq_eq SHIFT Hshift) as [El _]. unfold last_seq in El |- *.
  fold S_ in Hsz, El |- *.
  set (m := 2 ^ 31 / S_) in *. apply lookup_lt_Some in Hk as Hlt. rewrite (i_buf _ _ Hs) in Hlt.
  fold S_ in Hlt.
  assert (forall q, 0 <= q -> slot SHIFT (Z.of_nat k + q * S_) = k /\
    round SHIFT (Z.of_nat k + q * S_) = q) as Hkq.
  { intros q Hq. unfold slot, round. fold S_. rewrite Z.mod_add, Z.div_add by lia.
    rewrite Z.mod_small, Z.div_small by lia. lia. }
  assert (sq s k = s_seq sl) as Esq by (unfold sq; by rewrite Hk).
  destruct (Hkq m) as [Em Rm]; [lia|]. destruct (Hkq (m - 1)) as [Em1 Rm1]; [lia|].
  assert (~ push_done s (Z.of_nat k + m * S_)) as Hn by (intros [Hlt' _]; lia).
  assert (pop_done s (Z.of_nat k + (m - 1) * S_)) as Hd
    by (split; [lia | intros j; by rewrite Hidle]).
  rewrite <- (i_push_done _ _ Hs), Em, Rm in Hn by lia.
  rewrite <- (i_pop_done _ _ Hs), Em1, Rm1 in Hd by lia. lia.
Qed.

Lemma stuck_step s0 s s' :
  (forall k sl, _buf s0 !! k = Some sl -> s_seq sl = last_seq SHIFT) ->
  stuck s0 s -> step SHIFT s s' -> stuck s0 s'.
Proof.
  intros Hlast (Eb & Ep & Hout) Hstep.
  assert (forall t sl, slot_of SHIFT s t = Some sl -> s_seq sl = last_seq SHIFT) as Hsl.
  { intros t sl. unfold slot_of. rewrite Eb. apply Hlast. }
  destruct Hstep; try match goal with
    H : threads ?s ?i = _ |- _ => pose proof (Hout i) as Ho; rewrite H in Ho; try done end;
    try match goal with
    | H : slot_of _ _ ?t = Some _, H' : Mpmc.seq _ ?t = _ |- _ =>
        rewrite (Hsl _ _ H) in H'; by destruct (seq_never SHIFT Hshift t)
    | H : slot_of _ _ ?t = Some _, H' : uwrap 64 (Mpmc.seq _ ?t + 1) = _ |- _ =>
        rewrite (Hsl _ _ H) in H'; by destruct (seq_never SHIFT Hshift t) end;
    (split; [done|]; split; [done|]; intros j; cbn; unfold insert, fn_insert;
     case_decide; [done | apply Hout]).
Qed.

Lemma stuck_run s0 s :
  (forall k sl, _buf s0 !! k = Some sl -> s_seq sl = last_seq SHIFT) ->
  stuck s0 s0 -> rtc (step SHIFT) s0 s -> stuck s0 s.
Proof.
  intros Hlast H0 Hrun. revert s Hrun. apply (rtc_ind_r (R := step SHIFT) (fun s => stuck s0 s)); [done|].
  intros s1 s2 _ Hstep H1. by eapply stuck_step.
Qed.
End queue.

(** C18: While no more than [2 ^ 31] tickets are drawn, and whatever the
    interleaving of push, pop, try_push and try_pop: two threads are never inside
    the same slot, so that the accesses to the elements do not race; the element
    that a pop returns is the one that was pushed with the same ticket, so that
    elements come out in the order of their tickets; a pop that is complete has
    returned an element; and a complete push is at most SIZE tickets ahead of the
    complete pops. *)
Theorem mpmc_fifo {T} SHIFT (val0 : T) s :
  1 <= SHIFT <= 30 -> reachable SHIFT val0 s ->
  (forall i j t t', owner (threads s i) = Some t -> owner (threads s j) = Some t' ->
     idx SHIFT t = idx SHIFT t' -> i = j) /\
  (forall t v, popped s !! t = Some v -> pushed s !! t = Some v) /\
  (forall t, 0 <= t -> pop_done s t -> is_Some (popped s !! t)) /\
  (forall t, SIZE SHIFT <= t -> push_done s t -> pop_done s (t - SIZE SHIFT)).
Proof.
  intros Hshift Hr. pose proof (reachable_inv _ _ Hshift _ Hr) as Hs.
  pose proof (size_range SHIFT Hshift). split_and!.
  - intros i j t t' Hi Hj Eidx.
    assert (forall i t, owner (threads s i) = Some t -> 0 <= t < 2 ^ 31) as Hrange.
    { intros k u Hk. pose proof (i_thread _ _ Hs k) as Hok. pose proof (i_in _ _ Hs).
      pose proof (i_out _ _ Hs). destruct (threads s k); try done; injection Hk as <-; cbn in Hok; lia. }
    apply (owner_unique SHIFT Hshift s i j t t'); [done..|].
    rewrite <- !(idx_ticket SHIFT Hshift) by (by eapply Hrange). by rewrite Eidx.
  - apply (i_popped _ _ Hs).
  - intros t Ht Hd. apply (i_returned _ _ Hs); [done|]. by apply (i_pop_done _ _ Hs).
  - intros t Ht Hd. destruct (slot_back SHIFT Hshift t) as [Ek Er].
    apply (i_push_done _ _ Hs) in Hd; [|lia]. apply (i_pop_done _ _ Hs); [lia|]. rewrite Ek, Er. lia.
Qed.

Lemma mpmc_fifo_witness :
  exists s, reachable 1 0 s /\ forall t v, popped s !! t = Some v -> pushed s !! t = Some (v : Z).
Proof.
  destruct (quiet_exists 1 0 ltac:(lia) 5 ltac:(lia)) as [s [Hr _]]. exists s. split; [exact Hr|].
  apply (mpmc_fifo 1 0 s); [lia | exact Hr].
Defined.

(** While no more than [2 ^ 31] tickets are drawn, a blocking push with
    ticket [t] waits exactly as long as the element SIZE tickets before it has
    not been popped, and a blocking pop with ticket [t] exactly as long as the
    push with this ticket is not complete; when it need not wait, the thread can
    finish its operation by itself. *)
Theorem mpmc_waits_only_when_needed {T} SHIFT (val0 : T) s i :
  1 <= SHIFT <= 30 -> reachable SHIFT val0 s ->
  (forall v t, threads s i = PushWait v t ->
     exists sl, slot_of SHIFT s t = Some sl /\
       (Mpmc.seq SHIFT t = s_seq sl <-> (SIZE SHIFT <= t -> pop_done s (t - SIZE SHIFT))) /\
       (Mpmc.seq SHIFT t = s_seq sl ->
        exists s', rtc (step SHIFT) s s' /\ threads s' i = Idle)) /\
  (forall t, threads s i = PopWait t ->
     exists sl, slot_of SHIFT s t = Some sl /\
       (u64 (Mpmc.seq SHIFT t + 1) = s_seq sl <-> push_done s t) /\
       (u64 (Mpmc.seq SHIFT t + 1) = s_seq sl ->
        exists s', rtc (step SHIFT) s s' /\ threads s' i = Idle)).
Proof.
  intros Hshift Hr. pose proof (reachable_inv _ _ Hshift _ Hr) as Hs. split.
  - intros v t Ei. destruct (slot_some SHIFT Hshift s t Hs) as [sl Hsl]. exists sl. split; [done|].
    pose proof (i_thread _ _ Hs i) as Hok. rewrite Ei in Hok. destruct Hok as [Ht _].
    pose proof (i_in _ _ Hs). rewrite (match_push SHIFT Hshift s t sl) by (done || lia).
    split; [by eapply push_ready|]. intros E.
    destruct (push_finish SHIFT val0 Hshift s i v t Hr Ei E) as (s' & _ & ? & _ & _ & ? & _). eauto.
  - intros t Ei. destruct (slot_some SHIFT Hshift s t Hs) as [sl Hsl]. exists sl. split; [done|].
    pose proof (i_thread _ _ Hs i) as Hok. rewrite Ei in Hok. cbn in Hok.
    pose proof (i_out _ _ Hs). rewrite (match_pop SHIFT Hshift s t sl) by (done || lia).
    split; [by eapply pop_ready|]. intros E.
    destruct (pop_finish SHIFT val0 Hshift s i t Hr Ei E) as (s' & _ & ? & _ & _ & ? & _). eauto.
Qed.

(** Thread 0 of an empty queue has drawn a ticket to push 7. *)
Definition one_push : State Z := draw_in 0%nat 7 (PushWait 7 0) (init 1 0).

Lemma mpmc_waits_only_when_needed_witness :
  exists sl, slot_of 1 one_push 0 = Some sl /\
    (Mpmc.seq 1 0 = s_seq sl -> exists s', rtc (step 1) one_push s' /\ threads s' 0%nat = Idle).
Proof.
  destruct (mpmc_waits_only_when_needed 1 0 one_push 0%nat) as [H _]; [lia | |].
  - apply (reach_step _ _ (init 1 0)); [apply reach_init | | discriminate | discriminate].
    apply (push_start 1 0%nat 7 (init 1 0)). reflexivity.
  - destruct (H 7 0 eq_refl) as (sl & Hsl & _ & Hf). exists sl. split; [exact Hsl | exact Hf].
Defined.

(** Seq takes its ticket as an int, which is negative from ticket [2 ^ 31] on.
    When [2 ^ 31] elements have passed through the queue and it is empty and idle,
    it is stuck: in every continuation no thread gets into a slot again, so no
    push and no pop completes, although the queue is empty. *)
Theorem mpmc_stuck_after_int_max {T} SHIFT (val0 : T) s s' :
  1 <= SHIFT <= 30 -> reachable SHIFT val0 s -> _in s = 2 ^ 31 -> _out s = 2 ^ 31 ->
  (forall i, threads s i = Idle) -> rtc (step SHIFT) s s' ->
  _buf s' = _buf s /\ popped s' = popped s /\ forall i, owner (threads s' i) = None.
Proof.
  intros Hshift Hr Ein Eout Hidle Hrun.
  assert (stuck s s') as (Eb & Ep & Hout).
  { apply (stuck_run SHIFT Hshift); [by apply (quiet_last SHIFT val0 Hshift) | | done].
    split_and!; [done | done | intros i; by rewrite Hidle]. }
  split; [done|]. split; [done|]. intros i. specialize (Hout i). by destruct (threads s' i).
Qed.

Lemma mpmc_stuck_after_int_max_witness :
  exists s : State Z, reachable 10 0 s /\ _in s = 2 ^ 31 /\ _out s = 2 ^ 31 /\
    forall s', rtc (step 10) s s' -> popped s' = popped s.
Proof.
  destruct (quiet_exists 10 0 ltac:(lia) (2 ^ 31) ltac:(lia)) as [s (Hr & Ein & Eout & Hidle)].
  exists s. split; [exact Hr|]. split; [exact Ein|]. split; [exact Eout|]. intros s' Hrun.
  apply (mpmc_stuck_after_int_max 10 0 s s'); [lia | exact Hr | exact Ein | exact Eout | exact Hidle | exact Hrun].
Defined.
