(* ===== verification/Fifo.v ===== *)
(** * The FIFO of one producer and one consumer

    The class template Fifo of src/Concurrency/Fifo.cpp as a step relation: a step is one access
    of the producer or of the consumer to the shared object, under sequential consistency, and
    carries the call or the return it makes.  The accesses to an element of the buffer are steps
    of their own, so that both threads at the same element would be a data race. *)

From S2P Require Import Prelude.
#[local] Open Scope Z_scope.

Section fifo.
Context {T : Type}.
(** [SIZE] is [2 ^ SHIFT], and [val0] an element before its first use. *)
Context (SHIFT : Z) (val0 : T).

Definition SIZE : Z := 2 ^ SHIFT.
Definition MASK : Z := SIZE - 1.

Inductive Producer : Type :=
  | NoPush
  | PushIn (elem : T)                      (** [_in.load()] *)
  | PushOut (elem : T) (inn : Z)           (** [next_in == _out.load()] *)
  | PushWrite (elem : T) (inn : Z)         (** [_buffer[in] = std::move(elem)] *)
  | PushStore (elem : T) (inn : Z)         (** [_in.store(next_in)] *)
  | PushDone (b : bool).

Inductive Consumer : Type :=
  | NoPop
  | PopIn                                  (** [_in.load()] *)
  | PopOut (inn : Z)                       (** [_out.load()], [in == out] *)
  | PopRead (out : Z)                      (** [std::move(_buffer[out])] *)
  | PopStore (out : Z) (v : T)             (** [_out.store(out+1 & MASK)] *)
  | PopDone (r : option T).

Inductive event : Type :=
  | CallPush (v : T) | RetPush (b : bool) | CallPop | RetPop (r : option T).

Record State : Type := mkState {
  _buffer : list T; _in : Z; _out : Z; producer : Producer; consumer : Consumer
}.

Definition init : State := mkState (replicate (Z.to_nat SIZE) val0) 0 0 NoPush NoPop.

Definition next (i : Z) : Z := Z.land (u64 (i + 1)) MASK.

Definition produce (p : Producer) (s : State) : State :=
  mkState (_buffer s) (_in s) (_out s) p (consumer s).
Definition consume (c : Consumer) (s : State) : State :=
  mkState (_buffer s) (_in s) (_out s) (producer s) c.
Definition set_elem (i : Z) (v : T) (s : State) : State :=
  mkState (<[Z.to_nat i := v]> (_buffer s)) (_in s) (_out s) (producer s) (consumer s).
Definition set_in (i : Z) (s : State) : State :=
  mkState (_buffer s) i (_out s) (producer s) (consumer s).
Definition set_out (i : Z) (s : State) : State :=
  mkState (_buffer s) (_in s) i (producer s) (consumer s).

Inductive step (s : State) : option event -> State -> Prop :=
  (* push *)
  | push_call v : producer s = NoPush -> step s (Some (CallPush v)) (produce (PushIn v) s)
  | push_in v : producer s = PushIn v -> step s None (produce (PushOut v (_in s)) s)
  | push_full v i :
      producer s = PushOut v i -> next i = _out s -> step s None (produce (PushDone false) s)
  | push_room v i :
      producer s = PushOut v i -> next i <> _out s -> step s None (produce (PushWrite v i) s)
  | push_write v i x :
      producer s = PushWrite v i -> _buffer s !! Z.to_nat i = Some x ->
      step s None (produce (PushStore v i) (set_elem i v s))
  | push_store v i :
      producer s = PushStore v i -> step s None (produce (PushDone true) (set_in (next i) s))
  | push_ret b : producer s = PushDone b -> step s (Some (RetPush b)) (produce NoPush s)
  (* pop; the value that a move leaves behind is not specified *)
  | pop_call : consumer s = NoPop -> step s (Some CallPop) (consume PopIn s)
  | pop_in : consumer s = PopIn -> step s None (consume (PopOut (_in s)) s)
  | pop_empty i :
      consumer s = PopOut i -> i = _out s -> step s None (consume (PopDone None) s)
  | pop_some i :
      consumer s = PopOut i -> i <> _out s -> step s None (consume (PopRead (_out s)) s)
  | pop_read o v moved :
      consumer s = PopRead o -> _buffer s !! Z.to_nat o = Some v ->
      step s None (consume (PopStore o v) (set_elem o moved s))
  | pop_store o v :
      consumer s = PopStore o v -> step s None (consume (PopDone (Some v)) (set_out (next o) s))
  | pop_ret r : consumer s = PopDone r -> step s (Some (RetPop r)) (consume NoPop s).

Inductive runs : list event -> State -> Prop :=
  | runs_init : runs [] init
  | runs_step tr s l s' : runs tr s -> step s l s' -> runs (tr ++ option_list l) s'.

(** ** The atomic bounded queue *)

Inductive AProducer : Type := ANoPush | APush (v : T) | APushed (b : bool).
Inductive AConsumer : Type := ANoPop | APop | APopped (r : option T).

Record AState : Type := mkAState { queue : list T; aproducer : AProducer; aconsumer : AConsumer }.

Definition ainit : AState := mkAState [] ANoPush ANoPop.

(** The queue holds up to [SIZE - 1] elements. *)
Inductive astep (a : AState) : option event -> AState -> Prop :=
  | a_push_call v :
      aproducer a = ANoPush -> astep a (Some (CallPush v)) (mkAState (queue a) (APush v) (aconsumer a))
  | a_push v :
      aproducer a = APush v -> Z.of_nat (length (queue a)) < SIZE - 1 ->
      astep a None (mkAState (queue a ++ [v]) (APushed true) (aconsumer a))
  | a_full v :
      aproducer a = APush v -> Z.of_nat (length (queue a)) = SIZE - 1 ->
      astep a None (mkAState (queue a) (APushed false) (aconsumer a))
  | a_push_ret b :
      aproducer a = APushed b -> astep a (Some (RetPush b)) (mkAState (queue a) ANoPush (aconsumer a))
  | a_pop_call :
      aconsumer a = ANoPop -> astep a (Some CallPop) (mkAState (queue a) (aproducer a) APop)
  | a_pop :
      aconsumer a = APop ->
      astep a None (mkAState (tail (queue a)) (aproducer a) (APopped (head (queue a))))
  | a_pop_ret r :
      aconsumer a = APopped r -> astep a (Some (RetPop r)) (mkAState (queue a) (aproducer a) ANoPop).

Inductive aruns : list event -> AState -> Prop :=
  | aruns_init : aruns [] ainit
  | aruns_step tr a l a' : aruns tr a -> astep a l a' -> aruns (tr ++ option_list l) a'.
End fifo.
