(* ===== verification/FifoProps.v ===== *)
(** * What the FIFO promises

    The invariant of the ring buffer, the simulation by an atomic bounded queue, and the
    theorems. *)

From stdpp Require Import list.
From S2P Require Import Prelude Fifo.
#[local] Open Scope Z_scope.

Section ring.
Context {T : Type} (SHIFT : Z) (val0 : T).
Hypothesis HSHIFT : 1 <= SHIFT < 64.
#[local] Abbreviation SIZE := (SIZE SHIFT).

(** ** Indices *)

Lemma SIZE_range : 2 <= SIZE <= 2 ^ 63.
Proof.
  unfold Fifo.SIZE. split; [apply (Z.pow_le_mono_r 2 1); lia|apply Z.pow_le_mono_r; lia].
Qed.

Lemma next_mod i : 0 <= i < SIZE -> next SHIFT i = (i + 1) mod SIZE.
Proof.
  intros Hi. pose proof SIZE_range. unfold next, MASK. unfold Fifo.SIZE at 1. rewrite Z.sub_1_r, <- Z.ones_equiv.
  rewrite Z.land_ones by lia. unfold u64, uwrap. rewrite (Z.mod_small (i + 1) (2 ^ 64)) by lia. done.
Qed.

Lemma ring_inj o j k :
  0 <= j < SIZE -> 0 <= k < SIZE -> (o + j) mod SIZE = (o + k) mod SIZE -> j = k.
Proof.
  intros Hj Hk E. pose proof SIZE_range.
  pose proof (Z.div_mod (o + j) SIZE ltac:(lia)). pose proof (Z.div_mod (o + k) SIZE ltac:(lia)).
  assert ((o + j) / SIZE = (o + k) / SIZE); nia.
Qed.

Lemma ring_range o : 0 <= o mod SIZE < SIZE.
Proof. pose proof SIZE_range. apply Z.mod_pos_bound. lia. Qed.

Lemma ring_self o : 0 <= o < SIZE -> (o + 0) mod SIZE = o.
Proof. intros. rewrite Z.add_0_r. by apply Z.mod_small. Qed.

Lemma next_ring o k : next SHIFT ((o + k) mod SIZE) = (o + (k + 1)) mod SIZE.
Proof.
  pose proof SIZE_range. rewrite next_mod by apply ring_range. rewrite Z.add_mod_idemp_l by lia.
  f_equal. lia.
Qed.

(** The queue of [n] elements is full when the next index is that of its front. *)
Lemma ring_full o n :
  0 <= o < SIZE -> 0 <= n < SIZE -> next SHIFT ((o + n) mod SIZE) = o <-> n = SIZE - 1.
Proof.
  intros Ho Hn. pose proof SIZE_range. rewrite next_ring. split.
  - intros E. destruct (decide (n = SIZE - 1)); [done|].
    assert (n + 1 = 0); [|lia]. apply (ring_inj o); [lia|lia|]. by rewrite E, ring_self.
  - intros ->. replace (o + (SIZE - 1 + 1)) with (o + 1 * SIZE) by lia.
    rewrite Z.mod_add by lia. by apply Z.mod_small.
Qed.

Lemma ring_empty o n : 0 <= o < SIZE -> 0 <= n < SIZE -> (o + n) mod SIZE = o <-> n = 0.
Proof.
  intros Ho Hn. split; [|intros ->; by apply ring_self].
  intros E. apply (ring_inj o); [done|lia|]. by rewrite E, ring_self.
Qed.

(** ** The invariant *)

Implicit Types (s : @State T) (a : @AState T).

Definition taken s : Prop := match consumer s with PopStore _ _ => True | _ => False end.

Definition producer_ok s a : Prop :=
  match producer s with
  | NoPush => aproducer a = ANoPush
  | PushIn v => aproducer a = APush v
  | PushOut v i => aproducer a = APush v /\ i = _in s
  | PushWrite v i => aproducer a = APush v /\ i = _in s /\ Z.of_nat (length (queue a)) < SIZE - 1
  | PushStore v i =>
      aproducer a = APush v /\ i = _in s /\ Z.of_nat (length (queue a)) < SIZE - 1 /\
      _buffer s !! Z.to_nat i = Some v
  | PushDone b => aproducer a = APushed b
  end.

Definition consumer_ok s a : Prop :=
  match consumer s with
  | NoPop => aconsumer a = ANoPop
  | PopIn => aconsumer a = APop
  | PopOut i =>
      if decide (i = _out s) then aconsumer a = APopped None else aconsumer a = APop /\ queue a <> []
  | PopRead o => o = _out s /\ aconsumer a = APop /\ queue a <> []
  | PopStore o v => o = _out s /\ aconsumer a = APop /\ queue a !! 0%nat = Some v
  | PopDone r => aconsumer a = APopped r
  end.

Record inv s a : Prop := {
  i_len : length (_buffer s) = Z.to_nat SIZE;
  i_out : 0 <= _out s < SIZE;
  i_room : Z.of_nat (length (queue a)) < SIZE;
  i_in : _in s = (_out s + Z.of_nat (length (queue a))) mod SIZE;
  i_elems k v : queue a !! k = Some v -> (k = 0%nat -> ~ taken s) ->
    _buffer s !! Z.to_nat ((_out s + Z.of_nat k) mod SIZE) = Some v;
  i_producer : producer_ok s a;
  i_consumer : consumer_ok s a
}.

Lemma fifo_inv_init : inv (init SHIFT val0) ainit.
Proof.
  pose proof SIZE_range. split; cbn; try done; try lia. apply length_replicate.
Qed.

(** A step of the producer that changes nothing else. *)
Lemma inv_produce s a p ap :
  inv s a -> producer_ok (produce p s) (mkAState (queue a) ap (aconsumer a)) ->
  inv (produce p s) (mkAState (queue a) ap (aconsumer a)).
Proof. intros [Hlen Hout Hroom Hin Helems Hprod Hcons] Hp. by split. Qed.

Lemma inv_consume s a c ac :
  inv s a -> ~ taken s -> ~ taken (consume c s) ->
  consumer_ok (consume c s) (mkAState (queue a) (aproducer a) ac) ->
  inv (consume c s) (mkAState (queue a) (aproducer a) ac).
Proof. intros [Hlen Hout Hroom Hin Helems Hprod Hcons] Ht Ht' Hc. split; cbn; try done. intros k v Hk _. by apply Helems. Qed.

Lemma elem_index s a k :
  inv s a -> (k < length (queue a))%nat -> (Z.to_nat ((_out s + Z.of_nat k) mod SIZE) < length (_buffer s))%nat.
Proof. intros [Hlen Hout Hroom Hin Helems Hprod Hcons] Hk. rewrite Hlen. pose proof (ring_range (_out s + Z.of_nat k)). lia. Qed.

(** The producer writes behind the last element. *)
Lemma ring_push_write s a v x :
  inv s a -> producer s = PushWrite v (_in s) -> _buffer s !! Z.to_nat (_in s) = Some x ->
  inv (produce (PushStore v (_in s)) (set_elem (_in s) v s)) a.
Proof.
  intros [Hlen Hout Hroom Hin Helems Hprod Hcons] Hp Hx. unfold producer_ok in Hprod. rewrite Hp in Hprod. destruct Hprod as (Ha & _ & Hl).
  split; cbn; try done.
  - by rewrite length_insert.
  - intros k w Hk Ht. pose proof (lookup_lt_Some _ _ _ Hk). rewrite list_lookup_insert_ne; [by apply Helems|].
    rewrite Hin. intros E.
    pose proof (ring_range (_out s + Z.of_nat k)). pose proof (ring_range (_out s + Z.of_nat (length (queue a)))).
    assert (Z.of_nat (length (queue a)) = Z.of_nat k); [|lia]. apply (ring_inj (_out s)); lia.
  - unfold producer_ok. cbn. split_and!; try done. rewrite list_lookup_insert_eq; [done|by eapply lookup_lt_Some].
Qed.

(** The store of [_in] appends the element. *)
Lemma inv_push s a v :
  inv s a -> producer s = PushStore v (_in s) ->
  aproducer a = APush v /\ Z.of_nat (length (queue a)) < SIZE - 1 /\
  inv (produce (PushDone true) (set_in (next SHIFT (_in s)) s)) (mkAState (queue a ++ [v]) (APushed true) (aconsumer a)).
Proof.
  intros [Hlen Hout Hroom Hin Helems Hprod Hcons] Hp. unfold producer_ok in Hprod. rewrite Hp in Hprod.
  destruct Hprod as (Ha & _ & Hl & Hv). split; [done|]. split; [done|].
  split; cbn; try done.
  - rewrite length_app. cbn. lia.
  - rewrite Hin, next_ring, length_app. cbn. f_equal. lia.
  - intros k w Hk Ht. destruct (decide (k < length (queue a))%nat) as [Hlt|Hge].
    + rewrite lookup_app_l in Hk by done. by apply Helems.
    + rewrite lookup_app_r in Hk by lia. apply list_lookup_singleton_Some in Hk as [Hk <-].
      assert (k = length (queue a)) as -> by lia. by rewrite <- Hin.
  - unfold consumer_ok in *. cbn. destruct (consumer s) as [| |i|o|o w|r]; try done.
    + case_decide; [done|]. destruct Hcons as [? _]. split; [done|]. by destruct (queue a).
    + destruct Hcons as (? & ? & _). split_and!; try done. by destruct (queue a).
    + destruct Hcons as (? & ? & Hq). split_and!; try done. by apply lookup_app_l_Some.
Qed.

(** The consumer takes the first element. *)
Lemma inv_read s a v moved :
  inv s a -> consumer s = PopRead (_out s) -> _buffer s !! Z.to_nat (_out s) = Some v ->
  inv (consume (PopStore (_out s) v) (set_elem (_out s) moved s)) a.
Proof.
  intros Hinv Hc Hv. pose proof Hinv as [Hlen Hout Hroom Hin Helems Hprod Hcons]. unfold consumer_ok in Hcons. rewrite Hc in Hcons.
  destruct Hcons as (_ & Ha & Hq). destruct (queue a) as [|w q] eqn:Eq; [done|].
  assert (~ taken s) as Hnt by (unfold taken; rewrite Hc; tauto).
  assert (w = v) as ->.
  { pose proof (Helems 0%nat w eq_refl (fun _ => Hnt)) as H. change (Z.of_nat 0) with 0 in H.
    rewrite ring_self in H by done. congruence. }
  split; cbn [_buffer _in _out producer consumer consume set_elem]; rewrite ?Eq; try done.
  - by rewrite length_insert.
  - intros k x Hk Ht. pose proof (lookup_lt_Some _ _ _ Hk). pose proof (ring_range (_out s + Z.of_nat k)).
    rewrite list_lookup_insert_ne; [by apply Helems|]. intros E. apply Ht; [|done].
    apply Nat2Z.inj, (ring_empty (_out s)); lia.
  - unfold producer_ok in *. cbn [_buffer _in _out producer consumer consume set_elem]. rewrite Eq in *.
    destruct (producer s) as [|x|x i|x i|x i|b]; try done.
    destruct Hprod as (Hx & Hi & Hl & Hb). split_and!; try done. rewrite list_lookup_insert_ne; [done|].
    intros E. rewrite Hi, Hin in E. pose proof (ring_range (_out s + Z.of_nat (length (v :: q)))).
    assert (Z.of_nat (length (v :: q)) = 0); [|cbn in *; lia]. apply (ring_empty (_out s)); lia.
  - unfold consumer_ok. cbn. by rewrite Eq.
Qed.

(** The store of [_out] removes it from the queue. *)
Lemma inv_pop s a v :
  inv s a -> consumer s = PopStore (_out s) v ->
  aconsumer a = APop /\ list.head (queue a) = Some v /\
  inv (consume (PopDone (Some v)) (set_out (next SHIFT (_out s)) s))
    (mkAState (list.tail (queue a)) (aproducer a) (APopped (Some v))).
Proof.
  intros [Hlen Hout Hroom Hin Helems Hprod Hcons] Hc. unfold consumer_ok in Hcons. rewrite Hc in Hcons.
  destruct Hcons as (_ & Ha & Hq). destruct (queue a) as [|w q] eqn:Eq; [done|]. injection Hq as ->.
  split; [done|]. split; [done|]. pose proof SIZE_range.
  assert (forall k, (next SHIFT (_out s) + k) mod SIZE = (_out s + (k + 1)) mod SIZE) as Hnext.
  { intros k. rewrite next_mod by done. rewrite Z.add_mod_idemp_l by lia. f_equal. lia. }
  split; cbn [_buffer _in _out producer consumer consume set_out queue list.tail]; try done.
  - rewrite next_mod by done. apply ring_range.
  - cbn in Hroom. lia.
  - rewrite Hnext, Hin. f_equal. cbn. lia.
  - intros k x Hk _. rewrite Hnext. replace (Z.of_nat k + 1) with (Z.of_nat (S k)) by lia.
    apply Helems; [done|done].
  - unfold producer_ok in *. cbn. rewrite Eq in *. cbn in *.
    destruct (producer s) as [|x|x i|x i|x i|b]; try done.
    + destruct Hprod as (? & ? & ?). split_and!; [done|done|lia].
    + destruct Hprod as (? & ? & ? & ?). split_and!; [done|done|lia|done].
Qed.

(** ** The simulation *)

(** A step of the atomic queue, or none. *)
#[local] Tactic Notation "atomic" uconstr(c) := right; eexists; split; [by eapply c|].

Lemma fifo_step_sim s a l s' :
  inv s a -> step SHIFT s l s' ->
  (l = None /\ inv s' a) \/ (exists a', astep SHIFT a l a' /\ inv s' a').
Proof.
  intros Hinv Hs. pose proof Hinv as [Hlen Hout Hroom Hin Helems Hprod Hcons].
  unfold producer_ok in Hprod. unfold consumer_ok in Hcons.
  assert (a = mkAState (queue a) (aproducer a) (aconsumer a)) as Ea by (by destruct a).
  destruct Hs as [v Hi|v Hi|v i Hi Hf|v i Hi Hf|v i x Hi Hx|v i Hi|b Hi|Hi|Hi|i Hi Hf|i Hi Hf|o v moved Hi Hv|o v Hi|r Hi];
    rewrite Hi in *.
  - atomic a_push_call. by apply inv_produce.
  - left. split; [done|]. rewrite Ea. by apply inv_produce.
  - destruct Hprod as [Ha ->]. rewrite Hin in Hf. apply ring_full in Hf; [|done|lia].
    atomic a_full. by apply inv_produce.
  - destruct Hprod as [Ha ->]. left. split; [done|]. rewrite Ea. apply inv_produce; [done|].
    split; [done|]. split; [done|]. cbn. rewrite Hin in Hf. rewrite ring_full in Hf by (done || lia). lia.
  - destruct Hprod as (Ha & -> & Hl). left. split; [done|]. by eapply ring_push_write.
  - destruct Hprod as (Ha & -> & Hl & Hv). destruct (inv_push s a v Hinv Hi) as (_ & _ & Hinv').
    by atomic a_push.
  - atomic a_push_ret. by apply inv_produce.
  - atomic a_pop_call. apply inv_consume; [done|unfold taken; rewrite Hi; tauto|tauto|done].
  - destruct (decide (_in s = _out s)) as [E|E].
    + assert (queue a = []) as Hq.
      { rewrite E in Hin. symmetry in Hin. apply ring_empty in Hin; [|done|lia]. by destruct (queue a). }
      right. eexists. split; [by apply a_pop|]. rewrite Hq. cbn [list.tail list.head]. rewrite <- Hq.
      apply inv_consume; [done|unfold taken; rewrite Hi; tauto|tauto|].
      unfold consumer_ok. cbn. by rewrite decide_True.
    + left. split; [done|]. rewrite Ea. apply inv_consume; [done|unfold taken; rewrite Hi; tauto|tauto|].
      unfold consumer_ok. cbn. rewrite decide_False by done. split; [done|].
      intros Hq. apply E. rewrite Hin, Hq. by apply ring_self.
  - rewrite decide_True in Hcons by done. left. split; [done|]. rewrite Ea.
    apply inv_consume; [done|unfold taken; rewrite Hi; tauto|tauto|done].
  - rewrite decide_False in Hcons by done. left. split; [done|]. rewrite Ea.
    apply inv_consume; [done|unfold taken; rewrite Hi; tauto|tauto|]. by split.
  - destruct Hcons as (-> & Ha & Hq). left. split; [done|]. by apply inv_read.
  - destruct Hcons as (-> & Ha & Hq). destruct (inv_pop s a v Hinv Hi) as (_ & Hh & Hinv').
    right. eexists. split; [by apply a_pop|]. by rewrite Hh.
  - atomic a_pop_ret. apply inv_consume; [done|unfold taken; rewrite Hi; tauto|tauto|done].
Qed.

Lemma fifo_runs_inv tr s : runs SHIFT val0 tr s -> exists a, aruns SHIFT tr a /\ inv s a.
Proof.
  induction 1 as [|tr s l s' _ (a & Ha & Hinv) Hs]; [exists ainit; split; [constructor|apply fifo_inv_init]|].
  destruct (fifo_step_sim s a l s' Hinv Hs) as [[-> Hinv']|(a' & Hs' & Hinv')].
  - exists a. cbn. by rewrite app_nil_r.
  - exists a'. split; [|done]. by eapply aruns_step.
Qed.

(** What the threads access. *)
Lemma inv_accesses s a :
  inv s a ->
  (forall v i, producer s = PushWrite v i -> 0 <= i < SIZE) /\
  (forall o, consumer s = PopRead o -> 0 <= o < SIZE) /\
  (forall v i o, producer s = PushWrite v i -> consumer s = PopRead o -> i <> o).
Proof.
  intros [Hlen Hout Hroom Hin Helems Hprod Hcons]. unfold producer_ok in Hprod. unfold consumer_ok in Hcons.
  split_and!.
  - intros v i Hp. rewrite Hp in Hprod. destruct Hprod as (_ & -> & _). rewrite Hin. apply ring_range.
  - intros o Hc. rewrite Hc in Hcons. by destruct Hcons as (-> & _).
  - intros v i o Hp Hc. rewrite Hp in Hprod. rewrite Hc in Hcons.
    destruct Hprod as (_ & -> & _), Hcons as (-> & _ & Hq). rewrite Hin. intros E.
    apply ring_empty in E; [|done|lia]. by destruct (queue a).
Qed.
End ring.

(** ** Claims *)

(** C19: for a buffer of a power of two of elements, the calls and returns of every run of a
    producer and a consumer are those of an atomic queue that holds up to [SIZE - 1] elements,
    in which a push fails exactly when the queue is full and a pop exactly when it is empty;
    the indices are in the buffer, and the two threads are never at the same element. *)
Theorem fifo_refines_queue (T : Type) (SHIFT : Z) (val0 : T) (tr : list event) s :
  1 <= SHIFT < 64 -> runs SHIFT val0 tr s ->
  (exists a, aruns SHIFT tr a) /\
  (forall v i, producer s = PushWrite v i -> 0 <= i < SIZE SHIFT) /\
  (forall o, consumer s = PopRead o -> 0 <= o < SIZE SHIFT) /\
  (forall v i o, producer s = PushWrite v i -> consumer s = PopRead o -> i <> o).
Proof.
  intros HS H. destruct (fifo_runs_inv SHIFT val0 HS tr s H) as (a & Ha & Hinv).
  split; [by exists a|]. by apply (inv_accesses SHIFT HS s a).
Qed.

(** A run in a buffer of two elements: a push, a pop that has begun, and a push that fails. *)
Lemma fifo_refines_queue_witness :
  exists s, runs 1 0 [CallPush 5; RetPush true; CallPop; CallPush 6; RetPush false] s /\
    exists a, aruns 1 [CallPush 5; RetPush true; CallPop; CallPush 6; RetPush false] a.
Proof.
  pose proof (runs_init 1 0) as H.
  eapply runs_step in H; [|by apply (push_call 1 _ 5)]. eapply runs_step in H; [|by apply (push_in 1 _ 5)].
  eapply runs_step in H; [|apply (push_room 1 _ 5 0); [reflexivity|done]].
  eapply runs_step in H; [|apply (push_write 1 _ 5 0 0); reflexivity].
  eapply runs_step in H; [|apply (push_store 1 _ 5 0); reflexivity].
  eapply runs_step in H; [|apply (push_ret 1 _ true); reflexivity].
  eapply runs_step in H; [|apply (pop_call 1 _); reflexivity].
  eapply runs_step in H; [|apply (pop_in 1 _); reflexivity].
  eapply runs_step in H; [|apply (push_call 1 _ 6); reflexivity].
  eapply runs_step in H; [|apply (push_in 1 _ 6); reflexivity].
  eapply runs_step in H; [|apply (push_full 1 _ 6 1); reflexivity].
  eapply runs_step in H; [|apply (push_ret 1 _ false); reflexivity].
  eexists. split; [exact H|].
  destruct (fifo_refines_queue Z 1 0 _ _ ltac:(lia) H) as [Ha _]. exact Ha.
Defined.
