(* ===== verification/Simd.v ===== *)
(** * Vector registers

    The operations of the vector unit that the programs of src/simd use.  They are
    built into the compiler; each is defined here by lanes, as the manual of the
    instruction set does, under the name that <x86intrin.h> gives it.

    A register is the list of its bytes, the lowest first: 16 of them for
    [__m128i], 32 for [__m256i].  A byte is a [Z] from 0 to 255. *)

From S2P Require Import Prelude Bytes.
From stdpp Require Import list_relations list.
#[local] Open Scope Z_scope.

(** ** Lanes *)

(** The 16-bit and the 32-bit lanes of a register. *)
Fixpoint epi16 (v : list Z) : list Z :=
  match v with a :: b :: v => le_value [a; b] :: epi16 v | _ => [] end.

Fixpoint epi32 (v : list Z) : list Z :=
  match v with a :: b :: c :: d :: v => le_value [a; b; c; d] :: epi32 v | _ => [] end.

Definition of_epi16 (l : list Z) : list Z := l ≫= le_bytes 2.
Definition of_epi32 (l : list Z) : list Z := l ≫= le_bytes 4.

(** The 128-bit halves of a 256-bit register, and an operation on both. *)
Definition lo128 (v : list Z) : list Z := take 16 v.
Definition hi128 (v : list Z) : list Z := drop 16 v.
Definition halves (f : list Z -> list Z) (v : list Z) : list Z := f (lo128 v) ++ f (hi128 v).

(** ** Constants *)

Definition _mm_setzero_si128 : list Z := replicate 16 0.
Definition _mm256_setzero_si256 : list Z := replicate 32 0.
Definition _mm_set1_epi8 (c : Z) : list Z := replicate 16 (u8 c).
Definition _mm256_set1_epi8 (c : Z) : list Z := replicate 32 (u8 c).
Definition _mm_set1_epi16 (c : Z) : list Z := of_epi16 (replicate 8 c).
Definition _mm_set1_epi32 (c : Z) : list Z := of_epi32 (replicate 4 c).
Definition _mm_setr_epi8 (l : list Z) : list Z := (uwrap 8) <$> l.
Definition _mm256_setr_epi8 (l : list Z) : list Z := (uwrap 8) <$> l.

(** ** Memory *)

Definition _mm_loadu_si128 (mem : list Z) (addr : Z) : res (list Z) := slice mem addr 16.
Definition _mm256_loadu_si256 (mem : list Z) (addr : Z) : res (list Z) := slice mem addr 32.
Definition _mm_storeu_si128 (mem : list Z) (addr : Z) (v : list Z) : res (list Z) :=
  write_bytes mem addr v.
Definition _mm256_storeu_si256 (mem : list Z) (addr : Z) (v : list Z) : res (list Z) :=
  write_bytes mem addr v.

(** An array of [int] holds signed values; a register has their bytes. *)
Definition load_epi32 (mem : list Z) (addr : Z) : res (list Z) :=
  v ← slice mem addr 8; Ok (of_epi32 v).
Definition store_epi32 (mem : list Z) (addr : Z) (v : list Z) : res (list Z) :=
  write_bytes mem addr ((swrap 32) <$> epi32 v).

(** ** Halves and quarters *)

Definition _mm256_castsi256_si128 (v : list Z) : list Z := lo128 v.
Definition _mm256_extracti128_si256 (v : list Z) (imm : Z) : list Z :=
  if imm =? 0 then lo128 v else hi128 v.
Definition _mm256_set_m128i (hi lo : list Z) : list Z := lo ++ hi.
Definition _mm256_broadcastsi128_si256 (v : list Z) : list Z := v ++ v.
Definition _mm_unpacklo_epi64 (a b : list Z) : list Z := take 8 a ++ take 8 b.

(** The lane of [n] bytes that the two bits of [imm] at position [2 * j] select. *)
Definition select_lane (n : nat) (v : list Z) (imm : Z) (j : Z) : list Z :=
  take n (drop (n * Z.to_nat (Z.land (Z.shiftr imm (2 * j)) 3)) v).

Definition _MM_SHUFFLE (z y x w : Z) : Z :=
  Z.lor (Z.shiftl z 6) (Z.lor (Z.shiftl y 4) (Z.lor (Z.shiftl x 2) w)).
Definition _mm_shuffle_epi32 (v : list Z) (imm : Z) : list Z :=
  seqZ 0 4 ≫= select_lane 4 v imm.
Definition _mm256_shuffle_epi32 (v : list Z) (imm : Z) : list Z :=
  halves (fun h => _mm_shuffle_epi32 h imm) v.
Definition _mm256_permute4x64_epi64 (v : list Z) (imm : Z) : list Z :=
  seqZ 0 4 ≫= select_lane 8 v imm.

(** ** Bytes *)

Definition _mm_and_si128 (a b : list Z) : list Z := zip_with Z.land a b.
Definition _mm256_and_si256 (a b : list Z) : list Z := zip_with Z.land a b.
Definition _mm256_or_si256 (a b : list Z) : list Z := zip_with Z.lor a b.
(** [~a & b]. *)
Definition _mm256_andnot_si256 (a b : list Z) : list Z := zip_with (fun x y => Z.ldiff y x) a b.
Definition _mm256_cmpeq_epi8 (a b : list Z) : list Z :=
  zip_with (fun x y => if x =? y then 255 else 0) a b.

(** One bit per byte, the highest of it. *)
Fixpoint bits_value (bs : list bool) : Z :=
  match bs with [] => 0 | b :: bs => Z.b2z b + 2 * bits_value bs end.
Definition sign_bit (x : Z) : bool := Z.testbit x 7.
Definition _mm256_movemask_epi8 (v : list Z) : Z := s32 (bits_value (sign_bit <$> v)).

(** [b] where the mask has its highest bit, else [a]. *)
Definition blend_byte (x y : Z) (m : bool) : Z := if m then y else x.
Definition _mm_blendv_epi8 (a b mask : list Z) : list Z :=
  zip_with (fun p m => blend_byte p.1 p.2 (sign_bit m)) (zip a b) mask.
Definition _mm256_blendv_epi8 (a b mask : list Z) : list Z := _mm_blendv_epi8 a b mask.

(** A table of 16 bytes, looked up by the low four bits of each index; 0 for an
    index with the highest bit set.  The 256-bit form uses the table in its half. *)
Definition shuffle_byte (table : list Z) (i : Z) : Z :=
  if sign_bit i then 0 else nth (Z.to_nat (Z.land i 15)) table 0.
Definition _mm_shuffle_epi8 (table index : list Z) : list Z := shuffle_byte table <$> index.
Definition _mm256_shuffle_epi8 (table index : list Z) : list Z :=
  _mm_shuffle_epi8 (lo128 table) (lo128 index) ++ _mm_shuffle_epi8 (hi128 table) (hi128 index).

Definition _mm_cvtsi32_si128 (x : Z) : list Z := le_bytes 4 x ++ replicate 12 0.
Definition _mm_insert_epi8 (v : list Z) (x i : Z) : list Z := <[Z.to_nat i := u8 x]> v.
Definition _mm_srli_si128 (v : list Z) (n : nat) : list Z := drop n v ++ replicate n 0.
Definition _mm256_slli_si256 (v : list Z) (n : nat) : list Z :=
  halves (fun h => replicate n 0 ++ take (16 - n) h) v.

(** ** 16-bit and 32-bit lanes *)

Definition _mm_srli_epi16 (v : list Z) (n : Z) : list Z :=
  of_epi16 ((fun x => Z.shiftr x n) <$> epi16 v).
Definition _mm256_srli_epi16 (v : list Z) (n : Z) : list Z := _mm_srli_epi16 v n.
Definition _mm256_slli_epi16 (v : list Z) (n : Z) : list Z :=
  of_epi16 ((fun x => uwrap 16 (Z.shiftl x n)) <$> epi16 v).

(** Signed 16-bit lanes to unsigned bytes, with saturation. *)
Definition saturate_u8 (x : Z) : Z := Z.max 0 (Z.min 255 (swrap 16 x)).
Definition _mm_packus_epi16 (a b : list Z) : list Z := saturate_u8 <$> epi16 a ++ epi16 b.

Definition _mm_add_epi32 (a b : list Z) : list Z :=
  of_epi32 (zip_with (fun x y => u32 (x + y)) (epi32 a) (epi32 b)).
Definition _mm256_add_epi32 (a b : list Z) : list Z := _mm_add_epi32 a b.
Definition _mm_cmpeq_epi32 (a b : list Z) : list Z :=
  of_epi32 (zip_with (fun x y => if x =? y then 2 ^ 32 - 1 else 0) (epi32 a) (epi32 b)).
(** The lanes of [b] at the bits of [imm], else those of [a]. *)
Definition _mm256_blend_epi32 (a b : list Z) (imm : Z) : list Z :=
  of_epi32 (zip_with (fun '(x, y) j => if Z.testbit imm j then y else x)
              (zip (epi32 a) (epi32 b)) (seqZ 0 8)).
Definition _mm256_cvtsi256_si32 (v : list Z) : Z := s32 (hd 0 (epi32 v)).

(** [std::countr_zero] of an unsigned value of [n] bits. *)
Fixpoint countr_zero (n : nat) (x : Z) : Z :=
  match n with
  | O => 0
  | S n => if Z.odd x then 0 else 1 + countr_zero n (x / 2)
  end.
