(* ===== verification/SimdView.v ===== *)
(** * Views of a range, in the steps of a vector

    The adaptor simdify of src/simd, and the search for the first element with a
    property, a vector at a time. *)

From S2P Require Import Prelude Bytes Simd.
From stdpp Require Import list_relations list.
#[local] Open Scope Z_scope.

(** A view is the list of the addresses of its elements.  A range of [n] elements
    has the addresses from 0 on. *)
Definition views_all {A} (rng : list A) : list Z := seqZ 0 (Z.of_nat (length rng)).

(** [simdify<Lane>]: the elements at the multiples of [Lane], as many as there are
    full groups. *)
Definition simdify (Lane : nat) (v : list Z) : list Z :=
  (fun index => nth (index * Lane) v 0) <$> seq 0 (length v / Lane).

Lemma at_index_nth (l : list Z) i :
  0 <= i < Z.of_nat (length l) -> l.[i] = Ok (nth (Z.to_nat i) l 0).
Proof.
  intros Hi. destruct (at_index_ok l i Hi) as (x & -> & Hx). f_equal.
  symmetry. by apply nth_lookup_Some.
Qed.

Lemma nth_seqZ a n k : (Z.of_nat k < n) -> nth k (seqZ a n) 0 = a + Z.of_nat k.
Proof.
  intros Hk. apply nth_lookup_Some. rewrite lookup_seqZ_lt by lia. done.
Qed.

Lemma simdify_seqZ Lane a n :
  (0 < Lane)%nat ->
  simdify Lane (seqZ a (Z.of_nat n)) =
  (fun i => a + Z.of_nat (i * Lane)) <$> seq 0 (n / Lane).
Proof.
  intros HL. unfold simdify. rewrite length_seqZ, Nat2Z.id. apply list_fmap_ext.
  intros k i Hi. apply lookup_seq in Hi as [-> Hk]. apply nth_seqZ.
  pose proof (Nat.Div0.mul_div_le n Lane). nia.
Qed.

(** Groups of groups. *)
Lemma simdify_simdify ILP Lane a n :
  (0 < Lane)%nat -> (0 < ILP)%nat ->
  simdify ILP (simdify Lane (seqZ a (Z.of_nat n))) = simdify (ILP * Lane) (seqZ a (Z.of_nat n)).
Proof.
  intros HL HI. rewrite !simdify_seqZ by lia. unfold simdify.
  rewrite length_fmap, length_seq, Nat.Div0.div_div, (Nat.mul_comm Lane). apply list_fmap_ext.
  intros k i Hi. apply lookup_seq in Hi as [-> Hk]. apply nth_lookup_Some.
  rewrite list_lookup_fmap, lookup_seq_lt; cbn; [f_equal; lia|].
  rewrite (Nat.mul_comm ILP), <- Nat.Div0.div_div in Hk.
  pose proof (Nat.Div0.mul_div_le (n / Lane) ILP). nia.
Qed.

Lemma drop_seqZ k a n : drop k (seqZ a (Z.of_nat n)) = seqZ (a + Z.of_nat k) (Z.of_nat (n - k)).
Proof.
  apply list_eq. intros i. rewrite lookup_drop.
  destruct (decide (k + i < n)%nat).
  - rewrite !lookup_seqZ_lt by lia. f_equal. lia.
  - rewrite !lookup_seqZ_ge by lia. done.
Qed.

(** ** Loops over a view

    [R k] holds of the state when the first [k] elements have been dealt with. *)

Section view_loops.
Context {S : Type} (R : nat -> S -> Prop) (f : S -> Z -> res S) (W n : nat).
Context (Hstep : forall k s, (k + W <= n)%nat -> R k s ->
  exists s', f s (Z.of_nat k) = Ok s' /\ R (k + W) s').

(** [W] elements at a time. *)
Lemma view_fold a s :
  (0 < W)%nat -> (a <= n)%nat -> R a s ->
  let v := simdify W (seqZ (Z.of_nat a) (Z.of_nat (n - a))) in
  exists s', foldR f s v = Ok s' /\ R (a + W * length v) s' /\
    (a + W * length v <= n)%nat /\ (n - (a + W * length v) < W)%nat.
Proof.
  intros HW Ha Hs v. unfold v. rewrite simdify_seqZ by done. rewrite length_fmap, length_seq.
  pose proof (Nat.Div0.mul_div_le (n - a) W) as Hle.
  pose proof (Nat.mul_succ_div_gt (n - a) W ltac:(lia)) as Hgt.
  set (m := ((n - a) / W)%nat) in *. clearbody m.
  enough (forall j k s, (k + j = m)%nat -> R (a + W * k) s ->
    exists s', foldR f s ((fun i => Z.of_nat a + Z.of_nat (i * W)) <$> seq k j) = Ok s' /\
      R (a + W * m) s') as H.
  { destruct (H m 0%nat s) as (s' & E & Hs'); [done | by rewrite Nat.mul_0_r, Nat.add_0_r |].
    exists s'. split_and!; [done | done | lia | lia]. }
  intros j. induction j as [|j IH]; intros k s0 Hk Hs0.
  { exists s0. split; [done|]. by replace m with k by lia. }
  rewrite <- cons_seq, fmap_cons. cbn [foldR].
  destruct (Hstep (a + W * k) s0) as (s1 & E1 & Hs1); [nia | done |].
  replace (Z.of_nat a + Z.of_nat (k * W)) with (Z.of_nat (a + W * k)) by lia.
  rewrite E1. cbn [mbind res_bind]. apply IH; [lia|].
  by replace (a + W * Datatypes.S k)%nat with (a + W * k + W)%nat by lia.
Qed.

(** A group of [g] steps from an address on. *)
Lemma group_fold g k s :
  (k + W * g <= n)%nat -> R k s ->
  exists s', foldR (fun s Index => f s (Z.of_nat k + Z.of_nat W * Index)) s (seqZ 0 (Z.of_nat g)) = Ok s' /\
    R (k + W * g) s'.
Proof.
  intros Hg Hs.
  enough (forall j i s, (i + j = g)%nat -> R (k + W * i) s ->
    exists s', foldR (fun s Index => f s (Z.of_nat k + Z.of_nat W * Index)) s
      (seqZ (Z.of_nat i) (Z.of_nat j)) = Ok s' /\ R (k + W * g) s') as H.
  { apply (H g 0%nat s); [done|]. by rewrite Nat.mul_0_r, Nat.add_0_r. }
  intros j. induction j as [|j IH]; intros i s0 Hi Hs0.
  { exists s0. split; [done|]. by replace g with i by lia. }
  rewrite seqZ_cons by lia. cbn [foldR].
  destruct (Hstep (k + W * i) s0) as (s1 & E1 & Hs1); [nia | done |].
  replace (Z.of_nat k + Z.of_nat W * Z.of_nat i) with (Z.of_nat (k + W * i)) by lia.
  rewrite E1. cbn [mbind res_bind].
  replace (Z.succ (Z.of_nat i)) with (Z.of_nat (Datatypes.S i)) by lia.
  replace (Z.pred (Z.of_nat (Datatypes.S j))) with (Z.of_nat j) by lia.
  apply IH; [lia|]. by replace (k + W * Datatypes.S i)%nat with (k + W * i + W)%nat by lia.
Qed.
End view_loops.

(** One element at a time. *)
Lemma element_fold {S} (R : nat -> S -> Prop) (f : S -> Z -> res S) n a s :
  (forall k s, (k < n)%nat -> R k s -> exists s', f s (Z.of_nat k) = Ok s' /\ R (Datatypes.S k) s') ->
  (a <= n)%nat -> R a s ->
  exists s', foldR f s (seqZ (Z.of_nat a) (Z.of_nat (n - a))) = Ok s' /\ R n s'.
Proof.
  intros Hstep Ha Hs.
  destruct (view_fold R f 1 n) with (a := a) (s := s) as (s' & E & Hs' & Hle & Hlt);
    [|lia | done | done |].
  - intros k s0 Hk Hs0. rewrite Nat.add_1_r. apply Hstep; [lia | done].
  - assert (simdify 1 (seqZ (Z.of_nat a) (Z.of_nat (n - a))) = seqZ (Z.of_nat a) (Z.of_nat (n - a))) as Ev.
    { rewrite simdify_seqZ by lia. rewrite Nat.div_1_r. apply list_eq. intros i.
      rewrite list_lookup_fmap. destruct (decide (i < n - a)%nat).
      - rewrite lookup_seq_lt, lookup_seqZ_lt by lia. cbn. f_equal. lia.
      - rewrite lookup_seq_ge, lookup_seqZ_ge by lia. done. }
    rewrite Ev in *. exists s'. split; [done|]. rewrite length_seqZ in Hs', Hlt.
    by replace n with (a + 1 * Z.to_nat (Z.of_nat (n - a)))%nat by lia.
Qed.

(** ** Search *)

(** The index of the first element with the property [P]. *)
Fixpoint find_index (P : Z -> bool) (l : list Z) : option Z :=
  match l with
  | [] => None
  | x :: l => if P x then Some 0 else Z.succ <$> find_index P l
  end.

Lemma find_index_app P l1 l2 :
  find_index P (l1 ++ l2) =
  match find_index P l1 with
  | Some i => Some i
  | None => Z.add (Z.of_nat (length l1)) <$> find_index P l2
  end.
Proof.
  induction l1 as [|x l1 IH]; cbn [app find_index length].
  { by destruct (find_index P l2). }
  destruct (P x); [done|]. rewrite IH.
  destruct (find_index P l1), (find_index P l2); cbn; try done. f_equal. lia.
Qed.

Lemma find_index_ext P Q l : (forall x, x ∈ l -> P x = Q x) -> find_index P l = find_index Q l.
Proof.
  induction l as [|x l IH]; intros H; [done|]. cbn. rewrite H, IH; [done | | by left].
  intros. apply H. by right.
Qed.

(** What it means: the element has the property and none before it does. *)
Lemma find_index_Some P l i :
  find_index P l = Some i <->
  0 <= i /\ exists x, l !! Z.to_nat i = Some x /\ P x = true /\
    forall j y, (j < Z.to_nat i)%nat -> l !! j = Some y -> P y = false.
Proof.
  revert i. induction l as [|x l IH]; intros i; cbn [find_index].
  { split; [done|]. intros (_ & ? & ? & _). done. }
  destruct (P x) eqn:E.
  - split.
    + intros [= <-]. split; [done|]. exists x. split_and!; [done | done | lia].
    + intros (Hi & y & Hy & HP & Hbefore). destruct (decide (i = 0)) as [->|Hne]; [done|].
      by rewrite (Hbefore 0%nat x) in E by (done || lia).
  - rewrite fmap_Some. setoid_rewrite IH. split.
    + intros (k & (Hk & y & Hy & HP & Hb) & ->). split; [lia|]. exists y.
      rewrite Z2Nat.inj_succ by lia. split_and!; [done | done |].
      intros [|j] z Hj; [by intros [= <-] | apply Hb; lia].
    + intros (Hi & y & Hy & HP & Hb). destruct (decide (i = 0)) as [->|Hne].
      { change (Some x = Some y) in Hy. congruence. }
      exists (i - 1). split; [|lia]. split; [lia|]. exists y.
      replace (Z.to_nat i) with (S (Z.to_nat (i - 1))) in * by lia.
      split_and!; [done | done |]. intros j z Hj. apply (Hb (S j)). lia.
Qed.

Lemma find_index_None P l : find_index P l = None <-> Forall (fun x => P x = false) l.
Proof.
  induction l as [|x l IH]; cbn [find_index]; [done|]. rewrite Forall_cons.
  destruct (P x); [split; [done | by intros []]|]. rewrite fmap_None, IH. tauto.
Qed.

Definition byte (c : Z) : Prop := 0 <= c < 256.

(** Decides that the elements of a list are in a range. *)
Lemma range_Forall b l :
  forallb (fun c => (0 <=? c) && (c <? b)) l = true -> Forall (fun c => 0 <= c < b) l.
Proof.
  intros H. rewrite forallb_Forall in H. eapply Forall_impl; [exact H|]. intros c Hc. cbn in Hc. lia.
Qed.

(** The [k]-th vector of a text. *)
Lemma load_vector src k :
  (k * 32 + 32 <= length src)%nat ->
  _mm256_loadu_si256 src (0 + Z.of_nat (k * 32)) = Ok (take 32 (drop (k * 32) src)).
Proof. intros Hk. unfold _mm256_loadu_si256. rewrite slice_ok by lia. do 3 f_equal. lia. Qed.

(** The loop over the vectors of a text, when [scan] searches one of them. *)
Lemma simd_search P (scan : list Z -> option Z) rng :
  (forall chunk, length chunk = 32%nat -> Forall byte chunk -> scan chunk = find_index P chunk) ->
  Forall byte rng ->
  for_find (fun '(index, addr) =>
      chars ← _mm256_loadu_si256 rng addr; Ok (Z.add (index * 32) <$> scan chars))
    (indexed (simdify 32 (views_all rng))) =
  Ok (find_index P (take (length (simdify 32 (views_all rng)) * 32) rng)).
Proof.
  intros Hscan Hb. unfold views_all. rewrite simdify_seqZ by lia. unfold indexed.
  rewrite length_fmap, length_seq. set (m := (length rng / 32)%nat).
  assert (m * 32 <= length rng)%nat as Hm by (pose proof (Nat.Div0.mul_div_le (length rng) 32); lia).
  clearbody m.
  enough (forall k j, (k + j = m)%nat ->
    for_find (fun '(index, addr) =>
        chars ← _mm256_loadu_si256 rng addr; Ok (Z.add (index * 32) <$> scan chars))
      (zip (seqZ (Z.of_nat k) (Z.of_nat j)) ((fun i => 0 + Z.of_nat (i * 32)) <$> seq k j)) =
    Ok (Z.add (Z.of_nat k * 32) <$> find_index P (take (j * 32) (drop (k * 32) rng)))) as H.
  { specialize (H 0%nat m eq_refl). change (Z.of_nat 0) with 0 in H. rewrite H, drop_0.
    by destruct (find_index P _). }
  intros k j. revert k. induction j as [|j IH]; intros k Hkj; [done|].
  rewrite seqZ_cons, <- cons_seq by lia. rewrite fmap_cons. cbn [zip zip_with for_find].
  rewrite load_vector by lia.
  cbn [mbind res_bind].
  assert (length (drop (k * 32) rng) = length rng - k * 32)%nat as Hd by apply length_drop.
  rewrite Hscan; [| rewrite length_take; lia | by apply Forall_take, Forall_drop].
  replace (S j * 32)%nat with (32 + j * 32)%nat by lia.
  rewrite <- take_take_drop, find_index_app.
  destruct (find_index P (take 32 _)) as [i|] eqn:E; [done|]. cbn [fmap option_fmap option_map].
  replace (Z.succ (Z.of_nat k)) with (Z.of_nat (S k)) by lia.
  replace (Z.pred (Z.of_nat (S j))) with (Z.of_nat j) by lia.
  rewrite IH, drop_drop, length_take, Hd, Nat.min_l by lia. replace (k * 32 + 32)%nat with (S k * 32)%nat by lia.
  destruct (find_index P (take (j * 32) _)); [|done]. cbn [fmap option_fmap option_map]. do 2 f_equal. lia.
Qed.

(** The loop over the elements that are left. *)
Lemma scalar_search (P : Z -> bool) (f : Z * Z -> res (option Z)) (rng : list Z) off :
  (forall (index addr : Z) (c : Z), rng !! Z.to_nat addr = Some c -> 0 <= addr ->
     f (index, addr) = Ok (if P c then Some (Z.of_nat off + index) else None)) ->
  for_find f (indexed (drop off (views_all rng))) =
  Ok (Z.add (Z.of_nat off) <$> find_index P (drop off rng)).
Proof.
  intros Hf. unfold views_all, indexed. rewrite drop_seqZ, length_seqZ, Nat2Z.id.
  set (m := (length rng - off)%nat).
  enough (forall k j, (k + j = m)%nat ->
    for_find f (zip (seqZ (Z.of_nat k) (Z.of_nat j))
                  (seqZ (0 + Z.of_nat off + Z.of_nat k) (Z.of_nat j))) =
    Ok (Z.add (Z.of_nat off + Z.of_nat k) <$> find_index P (drop (off + k) rng))) as H.
  { specialize (H 0%nat m eq_refl). rewrite !Z.add_0_r, Nat.add_0_r in H. done. }
  intros k j. revert k. induction j as [|j IH]; intros k Hkj.
  { rewrite drop_ge by lia. done. }
  destruct (lookup_lt_is_Some_2 rng (off + k)) as [c Hc]; [lia|].
  rewrite (seqZ_cons (Z.of_nat k)), (seqZ_cons (0 + _ + _)) by lia. cbn [zip zip_with for_find].
  rewrite (drop_S _ _ _ Hc). cbn [find_index].
  rewrite (Hf _ _ c) by (try lia; rewrite <- Hc; f_equal; lia). cbn [mbind res_bind].
  destruct (P c); [cbn; do 2 f_equal; lia|].
  replace (Z.succ (Z.of_nat k)) with (Z.of_nat (S k)) by lia.
  replace (Z.succ (0 + Z.of_nat off + Z.of_nat k)) with (0 + Z.of_nat off + Z.of_nat (S k)) by lia.
  replace (Z.pred (Z.of_nat (S j))) with (Z.of_nat j) by lia.
  rewrite IH by lia. replace (off + S k)%nat with (S (off + k)) by lia.
  destruct (find_index P _); cbn; [|done]. do 2 f_equal. lia.
Qed.

(** ** Masks *)

Lemma bits_value_range bs : 0 <= bits_value bs < 2 ^ Z.of_nat (length bs).
Proof.
  induction bs as [|b bs IH]; [done|]. cbn [bits_value length].
  rewrite Nat2Z.inj_succ, Z.pow_succ_r by lia. destruct b; cbn [Z.b2z]; lia.
Qed.

(** The lowest bit of a mask is the first lane that has the property. *)
Lemma mask_search (P : Z -> bool) l n :
  (length l <= n)%nat ->
  (if negb (bits_value (P <$> l) =? 0) then Some (countr_zero n (bits_value (P <$> l))) else None) =
  find_index P l.
Proof.
  revert n. induction l as [|x l IH]; intros n Hn; [done|]. destruct n as [|n]; [cbn in Hn; lia|].
  rewrite fmap_cons. cbn [bits_value find_index countr_zero].
  specialize (IH n ltac:(cbn in Hn; lia)). set (b := bits_value (P <$> l)) in *.
  assert (0 <= b) as Hb by apply bits_value_range.
  rewrite Z.odd_add_mul_2. destruct (P x); cbn [Z.b2z Z.odd].
  - by destruct (Z.eqb_spec (1 + 2 * b) 0); [lia|].
  - rewrite <- IH. replace ((0 + 2 * b) / 2) with b by (rewrite Z.add_0_l, Z.mul_comm, Z.div_mul; done).
    destruct (Z.eqb_spec (0 + 2 * b) 0), (Z.eqb_spec b 0); cbn; try lia; try done.
    f_equal. lia.
Qed.

Lemma u32_mask bs : length bs = 32%nat -> u32 (s32 (bits_value bs)) = bits_value bs.
Proof.
  intros Hl. rewrite uwrap_swrap by lia. apply uwrap_id.
  pose proof (bits_value_range bs). rewrite Hl in *. done.
Qed.

Lemma s32_mask_zero bs : length bs = 32%nat -> (s32 (bits_value bs) =? 0) = (bits_value bs =? 0).
Proof.
  intros Hl. pose proof (u32_mask bs Hl) as E.
  destruct (Z.eqb_spec (bits_value bs) 0) as [->|Hne]; [done|].
  apply Z.eqb_neq. intros E'. rewrite E' in E. by rewrite <- E in Hne.
Qed.

Lemma bits_value_negb bs : bits_value bs + bits_value (negb <$> bs) = 2 ^ Z.of_nat (length bs) - 1.
Proof.
  induction bs as [|b bs IH]; [done|]. rewrite fmap_cons. cbn [bits_value length].
  rewrite Nat2Z.inj_succ, Z.pow_succ_r by lia. destruct b; cbn [negb Z.b2z]; lia.
Qed.

(** [unsigned(~movemask)]. *)
Lemma u32_lnot_mask bs :
  length bs = 32%nat -> u32 (Z.lnot (s32 (bits_value bs))) = bits_value (negb <$> bs).
Proof.
  intros Hl. pose proof (bits_value_negb bs) as E. rewrite Hl in E.
  pose proof (bits_value_range (negb <$> bs)) as Hr. rewrite length_fmap, Hl in Hr.
  rewrite <- (uwrap_id 32 (bits_value (negb <$> bs))) by done.
  replace (bits_value (negb <$> bs)) with (2 ^ 32 - 1 - bits_value bs) by (change (2 ^ 32) with (2 ^ Z.of_nat 32); lia).
  unfold Z.lnot, Z.pred, uwrap. rewrite <- (Z.mod_add (- _ + _) 1 (2 ^ 32)) by done.
  replace (- s32 (bits_value bs) + -1 + 1 * 2 ^ 32) with (2 ^ 32 - 1 - s32 (bits_value bs)) by lia.
  rewrite <- (Zminus_mod_idemp_r _ (s32 _)), <- (Zminus_mod_idemp_r _ (bits_value bs)).
  change (s32 (bits_value bs) mod 2 ^ 32) with (u32 (s32 (bits_value bs))).
  by rewrite uwrap_swrap by lia.
Qed.
