(* ===== verification/SimdLanes.v ===== *)
(** * Facts on vector registers

    A chain of operations on a register computes, lane by lane, a function of the
    bytes it starts from: the lemmas below rewrite each operation to an [fmap]. *)

From S2P Require Import Prelude Bytes Simd SimdView.
From stdpp Require Import list_relations list.
#[local] Open Scope Z_scope.

(** Equations between quotients and remainders by numerals. *)
Ltac div_lia := Z.to_euclidean_division_equations; lia.

(** ** Bits *)

Lemma land_low x n : 0 <= n -> Z.land x (2 ^ n - 1) = x mod 2 ^ n.
Proof. intros. rewrite <- Z.land_ones by done. f_equal. rewrite Z.ones_equiv. lia. Qed.

Lemma land_15 x : Z.land x 15 = x mod 16.
Proof. apply (land_low x 4). done. Qed.

Lemma land_7 x : Z.land x 7 = x mod 8.
Proof. apply (land_low x 3). done. Qed.

(** A number and a power of two have a bit in common exactly if the bit is set. *)
Lemma land_pow2_zero x n : 0 <= n -> (Z.land x (2 ^ n) =? 0) = negb (Z.testbit x n).
Proof.
  intros Hn. destruct (Z.testbit x n) eqn:E; cbn [negb].
  - apply Z.eqb_neq. intros H. apply (f_equal (fun y => Z.testbit y n)) in H.
    by rewrite Z.land_spec, E, Z.pow2_bits_true, Z.bits_0 in H.
  - apply Z.eqb_eq, Z.bits_inj'. intros k Hk. rewrite Z.land_spec, Z.bits_0.
    destruct (decide (k = n)) as [->|Hne]; [by rewrite E|].
    by rewrite Z.pow2_bits_false, andb_false_r by done.
Qed.

Lemma ldiff_pow2_zero x n : 0 <= n -> (Z.ldiff (2 ^ n) x =? 0) = Z.testbit x n.
Proof.
  intros Hn. destruct (Z.testbit x n) eqn:E.
  - apply Z.eqb_eq, Z.bits_inj'. intros k Hk. rewrite Z.ldiff_spec, Z.bits_0.
    destruct (decide (k = n)) as [->|Hne]; [by rewrite E, andb_false_r|].
    by rewrite Z.pow2_bits_false by done.
  - apply Z.eqb_neq. intros H. apply (f_equal (fun y => Z.testbit y n)) in H.
    by rewrite Z.ldiff_spec, E, Z.pow2_bits_true, Z.bits_0 in H.
Qed.

Lemma shiftr_land_1 x n : 0 <= n -> negb (Z.land (Z.shiftr x n) 1 =? 0) = Z.testbit x n.
Proof.
  intros Hn. rewrite (land_pow2_zero _ 0), negb_involutive, Z.shiftr_spec by done. done.
Qed.

Lemma testbit_high_byte a b n : byte a -> 0 <= n -> Z.testbit (a + 256 * b) (8 + n) = Z.testbit b n.
Proof.
  intros Ha Hn. unfold byte in Ha. rewrite (Z.add_comm 8 n), <- Z.div_pow2_bits by lia.
  f_equal. change (2 ^ 8) with 256. div_lia.
Qed.

Lemma testbit_low_byte a b n : 0 <= n < 8 -> Z.testbit (a + 256 * b) n = Z.testbit a n.
Proof.
  intros Hn. rewrite <- (Z.mod_pow2_bits_low (a + 256 * b) 8), <- (Z.mod_pow2_bits_low a 8) by lia.
  f_equal. change (2 ^ 8) with 256. div_lia.
Qed.

(** ** Lanewise operations *)

Lemma zip_with_same {A B C D} (f : B -> C -> D) (g : A -> B) (h : A -> C) v :
  zip_with f (g <$> v) (h <$> v) = (fun c => f (g c) (h c)) <$> v.
Proof. induction v as [|x v IH]; cbn; [done|]. f_equal. exact IH. Qed.

Lemma zip_with_const {A B C D} (f : B -> C -> D) (g : A -> B) k n v :
  length v = n -> zip_with f (g <$> v) (replicate n k) = (fun c => f (g c) k) <$> v.
Proof.
  intros <-. induction v as [|x v IH]; cbn; [done|]. f_equal. exact IH.
Qed.

Lemma zip_with_const_id {A C D} (f : A -> C -> D) k n (v : list A) :
  length v = n -> zip_with f v (replicate n k) = (fun c => f c k) <$> v.
Proof. intros H. rewrite <- (list_fmap_id v) at 1. by apply (zip_with_const f (fun c => c)). Qed.

Lemma fmap_bytes (f g : Z -> Z) v :
  Forall byte v -> (forall c, byte c -> f c = g c) -> f <$> v = g <$> v.
Proof. intros Hv H. apply list_fmap_ext. intros i c Hi. apply H. by eapply Forall_lookup. Qed.

Lemma fmap_bytes_bool (f g : Z -> bool) v :
  Forall byte v -> (forall c, byte c -> f c = g c) -> f <$> v = g <$> v.
Proof. intros Hv H. apply list_fmap_ext. intros i c Hi. apply H. by eapply Forall_lookup. Qed.

(** Registers have an even number of bytes. *)
Lemma pairs_ind (P : list Z -> Prop) :
  P [] -> (forall a b l, byte a -> byte b -> P l -> P (a :: b :: l)) ->
  forall l, Nat.Even (length l) -> Forall byte l -> P l.
Proof.
  intros H0 H2 l. induction l as [l IH] using (induction_ltof1 _ length). intros He Hb.
  destruct l as [|a [|b l]]; [done | destruct He as [m Hm]; cbn in Hm; lia |].
  inversion Hb as [|? ? Ha Hb']; inversion Hb'; subst. apply H2; [done | done |].
  apply IH; [unfold ltof; cbn; lia | by apply Nat.Even_succ_succ | done].
Qed.

Lemma even_16 : Nat.Even 16.
Proof. by exists 8%nat. Qed.
Lemma even_32 : Nat.Even 32.
Proof. by exists 16%nat. Qed.

Lemma epi16_cons a b v : epi16 (a :: b :: v) = le_value [a; b] :: epi16 v.
Proof. done. Qed.

Lemma of_epi16_cons x l : of_epi16 (x :: l) = x mod 256 :: (x / 256) mod 256 :: of_epi16 l.
Proof. done. Qed.

(** The high nibbles. *)
Lemma srli4_and_15 v n :
  Nat.Even (length v) -> Forall byte v -> length v = n ->
  zip_with Z.land (_mm_srli_epi16 v 4) (replicate n 15) = (fun c => c / 16) <$> v.
Proof.
  intros He Hb <-. revert v He Hb. apply pairs_ind; [done|].
  intros a b l Ha Hb IH. unfold _mm_srli_epi16 in *. rewrite epi16_cons, !fmap_cons, of_epi16_cons.
  cbn [length replicate zip_with le_value]. rewrite IH, !land_15, Z.shiftr_div_pow2 by done.
  unfold byte in *. f_equal; [|f_equal]; change (2 ^ 4) with 16; div_lia.
Qed.

(** A shift by 3 of bytes that have nothing in the low three bits. *)
Lemma srli3_bytes v :
  Nat.Even (length v) -> Forall byte v -> Forall (fun c => c mod 8 = 0) v ->
  _mm_srli_epi16 v 3 = (fun c => c / 8) <$> v.
Proof.
  intros He Hb. revert v He Hb. apply (pairs_ind (fun v => Forall _ v -> _)); [done|].
  intros a b l Ha Hb IH H8. rewrite !Forall_cons in H8. destruct H8 as (Ha8 & Hb8 & H8).
  unfold _mm_srli_epi16 in *. rewrite epi16_cons, !fmap_cons, of_epi16_cons, IH by done.
  cbn [le_value]. rewrite Z.shiftr_div_pow2 by done. change (2 ^ 3) with 8.
  unfold byte in *. f_equal; [|f_equal]; div_lia.
Qed.

Lemma sign_bit_mod x : sign_bit (x mod 256) = Z.testbit x 7.
Proof. apply (Z.mod_pow2_bits_low x 8). done. Qed.

(** Shifted by 4, bit 3 is where the mask of a blend is taken from. *)
Lemma slli4_sign v :
  Nat.Even (length v) -> Forall byte v ->
  sign_bit <$> _mm256_slli_epi16 v 4 = (fun c => Z.testbit c 3) <$> v.
Proof.
  intros He Hb. revert v He Hb. apply pairs_ind; [done|].
  intros a b l Ha Hb IH. unfold _mm256_slli_epi16 in *.
  rewrite epi16_cons, !fmap_cons, of_epi16_cons, !fmap_cons, IH. cbn [le_value].
  unfold uwrap. rewrite !sign_bit_mod, Z.mul_0_r, Z.add_0_r, Z.shiftl_mul_pow2 by done.
  f_equal; [|f_equal].
  - rewrite Z.mod_pow2_bits_low, Z.mul_pow2_bits by lia. by apply testbit_low_byte.
  - rewrite (Z.div_pow2_bits _ 8), Z.mod_pow2_bits_low, Z.mul_pow2_bits by lia.
    by apply (testbit_high_byte a b 3).
Qed.

Lemma blendv_fmap (g h : Z -> Z) (t : Z -> bool) v m :
  sign_bit <$> m = t <$> v ->
  _mm_blendv_epi8 (g <$> v) (h <$> v) m = (fun c => if t c then h c else g c) <$> v.
Proof.
  unfold _mm_blendv_epi8. revert m. induction v as [|c v IH]; intros m Hm.
  { done. }
  destruct m as [|x m]; [done|]. rewrite !fmap_cons in Hm. injection Hm as Hx Hm.
  cbn [fmap list_fmap zip zip_with fst snd]. f_equal; [by rewrite Hx | by apply IH].
Qed.

Lemma shuffle_fmap t (g : Z -> Z) v :
  length t = 16%nat -> length v = 32%nat ->
  _mm256_shuffle_epi8 (t ++ t) (g <$> v) = (fun c => shuffle_byte t (g c)) <$> v.
Proof.
  intros Ht Hv. unfold _mm256_shuffle_epi8, _mm_shuffle_epi8, lo128, hi128.
  rewrite take_app_length', drop_app_length' by done. rewrite <- fmap_app, take_drop.
  by rewrite <- list_fmap_compose.
Qed.

Lemma movemask_eq0 (f : Z -> Z) v :
  length v = 32%nat ->
  _mm256_movemask_epi8 (_mm256_cmpeq_epi8 (f <$> v) _mm256_setzero_si256) =
  s32 (bits_value ((fun c => f c =? 0) <$> v)).
Proof.
  intros Hv. unfold _mm256_movemask_epi8, _mm256_cmpeq_epi8, _mm256_setzero_si256.
  rewrite zip_with_const by done. rewrite <- list_fmap_compose. do 2 f_equal.
  apply list_fmap_ext. intros i c _. unfold compose. by destruct (f c =? 0).
Qed.

(** ** Even and odd bytes *)

Fixpoint evens {A} (v : list A) : list A :=
  match v with a :: _ :: v => a :: evens v | _ => [] end.
Fixpoint odds {A} (v : list A) : list A :=
  match v with _ :: b :: v => b :: odds v | _ => [] end.

Lemma saturate_byte c : byte c -> saturate_u8 c = c.
Proof.
  intros Hc. unfold saturate_u8, byte in *. rewrite swrap_id; [lia | done |].
  apply sfits_spec. lia.
Qed.

Lemma saturate_bytes l : Forall byte l -> saturate_u8 <$> l = l.
Proof.
  intros Hl. rewrite <- (list_fmap_id l) at 2. by apply fmap_bytes; [|apply saturate_byte].
Qed.

Lemma epi16_and_255 v k :
  Nat.Even (length v) -> Forall byte v -> length v = (2 * k)%nat ->
  epi16 (_mm_and_si128 v (of_epi16 (replicate k 255))) = evens v.
Proof.
  intros He Hb. revert k. revert v He Hb.
  apply (pairs_ind (fun v => forall k, _ -> _)); [done|].
  intros a b l Ha Hb IH [|k] Hk; [done|]. unfold _mm_and_si128 in *.
  cbn [replicate]. rewrite of_epi16_cons.
  change (255 mod 256) with 255. change ((255 / 256) mod 256) with 0.
  cbn [zip_with evens epi16 le_value]. rewrite IH by (cbn in Hk; lia). f_equal.
  change 255 with (2 ^ 8 - 1). rewrite land_low, Z.land_0_r by done.
  unfold byte in Ha. rewrite Z.mod_small by (change (2 ^ 8) with 256; lia). lia.
Qed.

Lemma epi16_srli_8 v :
  Nat.Even (length v) -> Forall byte v -> epi16 (_mm_srli_epi16 v 8) = odds v.
Proof.
  intros He Hb. revert v He Hb. apply pairs_ind; [done|].
  intros a b l Ha Hb IH. unfold _mm_srli_epi16 in *.
  rewrite epi16_cons, fmap_cons, of_epi16_cons. cbn [odds epi16 le_value].
  rewrite IH, Z.shiftr_div_pow2 by done. f_equal. unfold byte in *.
  change (2 ^ 8) with 256. div_lia.
Qed.

Lemma evens_app {A} (u v : list A) : Nat.Even (length u) -> evens (u ++ v) = evens u ++ evens v.
Proof.
  induction u as [u IH] using (induction_ltof1 _ (@length A)). intros He.
  destruct u as [|a [|b u]]; [done | destruct He as [m Hm]; cbn in Hm; lia |].
  cbn. f_equal. apply IH; [unfold ltof; cbn; lia | by apply Nat.Even_succ_succ].
Qed.

Lemma odds_app {A} (u v : list A) : Nat.Even (length u) -> odds (u ++ v) = odds u ++ odds v.
Proof.
  induction u as [u IH] using (induction_ltof1 _ (@length A)). intros He.
  destruct u as [|a [|b u]]; [done | destruct He as [m Hm]; cbn in Hm; lia |].
  cbn. f_equal. apply IH; [unfold ltof; cbn; lia | by apply Nat.Even_succ_succ].
Qed.

Lemma evens_odds_Forall (P : Z -> Prop) v : Forall P v -> Forall P (evens v) /\ Forall P (odds v).
Proof.
  induction v as [v IH] using (induction_ltof1 _ length). intros Hv.
  destruct v as [|a [|b v]]; [done | done |]. rewrite !Forall_cons in Hv. destruct Hv as (? & ? & Hv).
  destruct (IH v) as [? ?]; [unfold ltof; cbn; lia | done |]. cbn. by split; constructor.
Qed.

Lemma evens_nth v k : nth k (evens v) 0 = nth (2 * k) v 0 \/ (length v <= 2 * k + 1)%nat.
Proof.
  revert k. induction v as [v IH] using (induction_ltof1 _ length). intros k.
  destruct v as [|a [|b v]]; [cbn; lia | cbn; lia |]. destruct k as [|k]; [by left|].
  replace (2 * S k)%nat with (S (S (2 * k))) by lia. cbn [evens nth].
  destruct (IH v ltac:(unfold ltof; cbn; lia) k) as [->|H]; [by left | right; cbn; lia].
Qed.

Lemma odds_nth v k : nth k (odds v) 0 = nth (2 * k + 1) v 0.
Proof.
  revert k. induction v as [v IH] using (induction_ltof1 _ length). intros k.
  destruct v as [|a [|b v]]; [by rewrite !nth_overflow by (cbn; lia).. |].
  destruct k as [|k]; [done|].
  replace (2 * S k + 1)%nat with (S (S (2 * k + 1))) by lia. cbn [odds nth].
  apply IH. unfold ltof; cbn; lia.
Qed.

Lemma length_evens_odds {A} (v : list A) k :
  length v = (2 * k)%nat -> length (evens v) = k /\ length (odds v) = k.
Proof.
  revert k. induction v as [v IH] using (induction_ltof1 _ (@length A)). intros k Hk.
  destruct v as [|a [|b v]]; [cbn in *; lia | cbn in *; lia |].
  destruct k as [|k]; [done|]. cbn in Hk.
  destruct (IH v ltac:(unfold ltof; cbn; lia) k) as [<- E]; [lia|]. cbn. by rewrite E.
Qed.

(** The even and the odd bytes of two registers, packed into one. *)
Lemma pack_evens a b :
  length a = 16%nat -> length b = 16%nat -> Forall byte a -> Forall byte b ->
  _mm_packus_epi16 (_mm_and_si128 a (_mm_set1_epi16 255)) (_mm_and_si128 b (_mm_set1_epi16 255)) =
  evens (a ++ b).
Proof.
  intros La Lb Ha Hb. unfold _mm_packus_epi16, _mm_set1_epi16.
  rewrite !epi16_and_255 by (rewrite ?La, ?Lb; done || apply even_16).
  rewrite <- evens_app by (rewrite La; apply even_16).
  by rewrite saturate_bytes by (apply evens_odds_Forall, Forall_app_2; done).
Qed.

Lemma pack_odds a b :
  length a = 16%nat -> length b = 16%nat -> Forall byte a -> Forall byte b ->
  _mm_packus_epi16 (_mm_srli_epi16 a 8) (_mm_srli_epi16 b 8) = odds (a ++ b).
Proof.
  intros La Lb Ha Hb. unfold _mm_packus_epi16.
  rewrite !epi16_srli_8 by (rewrite ?La, ?Lb; done || apply even_16).
  rewrite <- odds_app by (rewrite La; apply even_16).
  by rewrite saturate_bytes by (apply evens_odds_Forall, Forall_app_2; done).
Qed.
