(* ===== verification/SimdCharset.v ===== *)
(** * Search for a character of a set

    src/simd/find_charset.hpp: four searches of a text for the first character of
    a set that is given as a bitmap, three of them with vector registers; and the
    bitmaps and further scalar searches of src/simd/find_charset_benchmark.cpp.

    A text is the list of its characters as unsigned bytes.  A range has fewer than
    [2 ^ 63] elements, so that indices do not wrap around. *)

From S2P Require Import Prelude Bytes Simd SimdView.
From stdpp Require Import list_relations list.
#[local] Open Scope Z_scope.

Definition lane : nat := 32.

(** ** find_charset_avx2 *)

(** The tables of the even and of the odd bytes of the bitmap. *)
Definition filter_even (charset : list Z) : res (list Z) :=
  filter_lo ← _mm_loadu_si128 charset 0;
  filter_hi ← _mm_loadu_si128 charset 16;
  let filter_mask := _mm_set1_epi16 255 in
  let filter_lo_even := _mm_and_si128 filter_lo filter_mask in
  let filter_hi_even := _mm_and_si128 filter_hi filter_mask in
  let filter_even_128 := _mm_packus_epi16 filter_lo_even filter_hi_even in
  Ok (_mm256_set_m128i filter_even_128 filter_even_128).

Definition filter_odd (charset : list Z) : res (list Z) :=
  filter_lo ← _mm_loadu_si128 charset 0;
  filter_hi ← _mm_loadu_si128 charset 16;
  let filter_lo_odd := _mm_srli_epi16 filter_lo 8 in
  let filter_hi_odd := _mm_srli_epi16 filter_hi 8 in
  let filter_odd_128 := _mm_packus_epi16 filter_lo_odd filter_hi_odd in
  Ok (_mm256_set_m128i filter_odd_128 filter_odd_128).

Definition shift_mod : list Z := _mm256_setr_epi8
  [1; 2; 4; 8; 16; 32; 64; -128;
   1; 2; 4; 8; 16; 32; 64; -128;
   1; 2; 4; 8; 16; 32; 64; -128;
   1; 2; 4; 8; 16; 32; 64; -128].

(** The mask of the characters of a vector that are in the set. *)
Definition avx2_movemask (filter_even filter_odd chars : list Z) : Z :=
  let bit_index := _mm256_and_si256 chars (_mm256_set1_epi8 15) in
  let byte_index := _mm256_and_si256 (_mm256_srli_epi16 chars 4) (_mm256_set1_epi8 15) in
  let col := _mm256_shuffle_epi8 shift_mod bit_index in
  let row_even := _mm256_shuffle_epi8 filter_even byte_index in
  let row_odd := _mm256_shuffle_epi8 filter_odd byte_index in
  let parity := _mm256_slli_epi16 chars 4 in
  let row := _mm256_blendv_epi8 row_even row_odd parity in
  _mm256_movemask_epi8
    (_mm256_cmpeq_epi8 (_mm256_andnot_si256 row col) _mm256_setzero_si256).

(** [charset[v / 8] & 1 << v % 8]. *)
Definition in_row (charset : list Z) (v : Z) : res bool :=
  v_row ← charset.[v / 8];
  let v_col := Z.shiftl 1 (v mod 8) in
  Ok (negb (Z.land v_row v_col =? 0)).

Definition find_charset_avx2 (rng charset : list Z) : res Z :=
  even ← filter_even charset;
  odd ← filter_odd charset;
  let simd_view := simdify lane (views_all rng) in
  r ← for_find (fun '(index, addr) =>
        chars ← _mm256_loadu_si256 rng addr;
        let movemask := avx2_movemask even odd chars in
        Ok (if negb (movemask =? 0)
            then Some (index * Z.of_nat lane + countr_zero 32 (u32 movemask)) else None))
      (indexed simd_view);
  match r with
  | Some i => Ok i
  | None =>
      let offset := (length simd_view * lane)%nat in
      let scalar_view := drop offset (views_all rng) in
      r ← for_find (fun '(index, addr) =>
            v ← rng.[addr];
            b ← in_row charset v;
            Ok (if b : bool then Some (Z.of_nat offset + index) else None))
          (indexed scalar_view);
      Ok (default (-1) r)
  end.

(** ** find_charset_avx2_ascii128 *)

Definition filter256 (charset : list Z) : res (list Z) :=
  filter128 ← _mm_loadu_si128 charset 0;
  Ok (_mm256_set_m128i filter128 filter128).

Definition shift : list Z := _mm256_setr_epi8
  [1; 2; 4; 8; 16; 32; 64; -128;
   0; 0; 0; 0; 0; 0; 0; 0;
   1; 2; 4; 8; 16; 32; 64; -128;
   0; 0; 0; 0; 0; 0; 0; 0].

(** [overflow] is the member of the template argument Config; the result is
    [~movemask] as an unsigned number. *)
Definition ascii128_counter (overflow : bool) (filter256 chars : list Z) : Z :=
  let bit_index := _mm256_and_si256 chars (_mm256_set1_epi8 7) in
  let byte_index := _mm256_and_si256 chars (_mm256_set1_epi8 120) in
  let byte_index := _mm256_srli_epi16 byte_index 3 in
  let byte_index :=
    if overflow then
      let sign_bits := _mm256_and_si256 chars (_mm256_set1_epi8 128) in
      _mm256_or_si256 byte_index sign_bits
    else byte_index in
  let col := _mm256_shuffle_epi8 shift bit_index in
  let row := _mm256_shuffle_epi8 filter256 byte_index in
  let movemask := _mm256_movemask_epi8
    (_mm256_cmpeq_epi8 (_mm256_and_si256 row col) _mm256_setzero_si256) in
  u32 (Z.lnot movemask).

Definition find_charset_avx2_ascii128 (overflow : bool) (rng charset : list Z) : res Z :=
  filter ← filter256 charset;
  let simd_view := simdify lane (views_all rng) in
  r ← for_find (fun '(index, addr) =>
        chars ← _mm256_loadu_si256 rng addr;
        let counter := ascii128_counter overflow filter chars in
        Ok (if negb (counter =? 0)
            then Some (index * Z.of_nat lane + countr_zero 32 counter) else None))
      (indexed simd_view);
  match r with
  | Some i => Ok i
  | None =>
      let offset := (length simd_view * lane)%nat in
      let scalar_view := drop offset (views_all rng) in
      r ← for_find (fun '(index, addr) =>
            v ← rng.[addr];
            if overflow && (128 <=? v) then Ok None
            else
              b ← in_row charset v;
              Ok (if b : bool then Some (Z.of_nat offset + index) else None))
          (indexed scalar_view);
      Ok (default (-1) r)
  end.

(** ** find_charset_avx2_ascii128_transposed *)

(** The turn of the loop that transposes a bitmap for the character [c]. *)
Definition transpose_step (charset transposed : list Z) (c : Z) : res (list Z) :=
  x ← charset.[c / 8];
  if negb (Z.land (Z.shiftr x (c mod 8)) 1 =? 0) then
    y ← transposed.[c mod 16];
    transposed.[c mod 16 <- u8 (Z.lor y (Z.shiftl 1 (c / 16)))]
  else Ok transposed.

Definition transpose_local (charset : list Z) : res (list Z) :=
  foldR (transpose_step charset) (replicate 16 0) (seqZ 0 128).

Definition copy_local (charset : list Z) : res (list Z) :=
  foldR (fun local i => x ← charset.[i]; local.[i <- x]) (replicate 16 0) (seqZ 0 16).

Definition transposed_counter (filter256 chars : list Z) : Z :=
  let byte_index := chars in
  let bit_index := _mm256_and_si256 (_mm256_srli_epi16 chars 4) (_mm256_set1_epi8 15) in
  let row := _mm256_shuffle_epi8 filter256 byte_index in
  let col := _mm256_shuffle_epi8 shift bit_index in
  let movemask := _mm256_movemask_epi8
    (_mm256_cmpeq_epi8 (_mm256_and_si256 row col) _mm256_setzero_si256) in
  u32 (Z.lnot movemask).

Definition find_charset_avx2_ascii128_transposed (transposed : bool) (rng _charset : list Z) :
    res Z :=
  charset ← (if transposed then copy_local _charset else transpose_local _charset);
  filter ← filter256 charset;
  let simd_view := simdify lane (views_all rng) in
  r ← for_find (fun '(index, addr) =>
        chars ← _mm256_loadu_si256 rng addr;
        let counter := transposed_counter filter chars in
        Ok (if negb (counter =? 0)
            then Some (index * Z.of_nat lane + countr_zero 32 counter) else None))
      (indexed simd_view);
  match r with
  | Some i => Ok i
  | None =>
      let offset := (length simd_view * lane)%nat in
      let scalar_view := drop offset (views_all rng) in
      r ← for_find (fun '(index, addr) =>
            v ← rng.[addr];
            v_row ← charset.[v mod 16];
            let v_col := Z.shiftl 1 (v / 16) in
            Ok (if negb (Z.land v_row v_col =? 0) then Some (Z.of_nat offset + index) else None))
          (indexed scalar_view);
      Ok (default (-1) r)
  end.

(** ** find_charset_scalar *)

(** [charset[c / 8] >> c % 8 & 1]. *)
Definition test_bit (charset : list Z) (c : Z) : res bool :=
  x ← charset.[c / 8]; Ok (negb (Z.land (Z.shiftr x (c mod 8)) 1 =? 0)).

Definition find_charset_scalar (rng charset : list Z) : res Z :=
  r ← for_find (fun '(index, c) =>
        b ← test_bit charset c; Ok (if b : bool then Some index else None))
      (indexed rng);
  Ok (default (-1) r).

(** ** The benchmark: bitmaps *)

Definition set_bit (bs : list Z) (c : Z) : res (list Z) :=
  x ← bs.[c / 8]; bs.[c / 8 <- u8 (Z.lor x (Z.shiftl 1 (c mod 8)))].

Inductive Preset : Set :=
  | Random | Json | Html | Whitespace | LineBreak | Digits | Vowels | ControlChars.

Definition get_preset_chars (p : Preset) : list Z :=
  match p with
  | Json => [34; 92; 123; 125; 91; 93; 58; 44]
  | Html => [60; 62; 38; 34; 39]
  | Whitespace => [32; 9; 10; 13]
  | LineBreak => [10; 13]
  | Digits => [48; 49; 50; 51; 52; 53; 54; 55; 56; 57]
  | Vowels => [97; 101; 105; 111; 117; 65; 69; 73; 79; 85]
  | ControlChars => seqZ 0 32
  | Random => []
  end.

Definition preset_to_charset (p : Preset) : res (list Z) :=
  foldR set_bit (replicate 32 0) (get_preset_chars p).

Definition charset32_to_16 (bs32 : list Z) : res (list Z) :=
  foldR (fun bs16 i => x ← bs32.[i]; bs16.[i <- x]) (replicate 16 0) (seqZ 0 16).

Definition transpose_charset16 (bs : list Z) : res (list Z) :=
  foldR (fun transposed c =>
    x ← bs.[c / 8];
    if negb (Z.land (Z.shiftr x (c mod 8)) 1 =? 0) then
      y ← transposed.[c mod 16];
      transposed.[c mod 16 <- u8 (Z.lor y (Z.shiftl 1 (c / 16)))]
    else Ok transposed) (replicate 16 0) (seqZ 0 128).

(** StaticCharset<Chars...>. *)
Definition contains (Chars : list Z) (c : Z) : bool :=
  fold_right (fun ch b => (c =? ch) || b) false Chars.
Definition to_charset (Chars : list Z) : res (list Z) := foldR set_bit (replicate 32 0) Chars.

(** ** The benchmark: scalar searches *)

Fixpoint find_chars_static_ct (Chars : list Z) (rng : list Z) (i : Z) : Z :=
  match rng with
  | [] => -1
  | c :: rng => if contains Chars c then i else find_chars_static_ct Chars rng (i + 1)
  end.

Fixpoint find_chars_loop_rt (rng chars : list Z) (i : Z) : res Z :=
  match rng with
  | [] => Ok (-1)
  | c :: rng =>
      r ← for_find (fun j => x ← chars.[j]; Ok (if c =? x then Some i else None))
            (seqZ 0 (Z.of_nat (length chars)));
      match r with Some i => Ok i | None => find_chars_loop_rt rng chars (i + 1) end
  end.

(** [std::find(first, last, c)] is the position of the first element equal to [c],
    or the end. *)
Fixpoint std_find (c : Z) (l : list Z) : Z :=
  match l with [] => 0 | x :: l => if x =? c then 0 else 1 + std_find c l end.

Fixpoint find_chars_stdfind_rt (rng chars : list Z) (i : Z) : Z :=
  match rng with
  | [] => -1
  | c :: rng =>
      if negb (std_find c chars =? Z.of_nat (length chars)) then i
      else find_chars_stdfind_rt rng chars (i + 1)
  end.

Fixpoint bitmap_search (charset rng : list Z) (i : Z) : res Z :=
  match rng with
  | [] => Ok (-1)
  | c :: rng =>
      b ← test_bit charset c; if b : bool then Ok i else bitmap_search charset rng (i + 1)
  end.

Definition find_chars_bitmap_ct (Chars rng : list Z) : res Z :=
  charset ← to_charset Chars; bitmap_search charset rng 0.
