(* ===== verification/SimdCharsetProofs.v ===== *)
(** * Search for a character of a set: the searches find the first one *)

From S2P Require Import Prelude Bytes Simd SimdView SimdLanes SimdCharset.
From stdpp Require Import list_relations list.
#[local] Open Scope Z_scope.

(** The set that a bitmap stands for. *)
Definition member (charset : list Z) (c : Z) : bool :=
  Z.testbit (nth (Z.to_nat (c / 8)) charset 0) (c mod 8).

(** What a search returns. *)
Definition first_of (P : Z -> bool) (rng : list Z) : Z := default (-1) (find_index P rng).

(** ** Scalar tests *)

Lemma mod8_range v : 0 <= v mod 8.
Proof. div_lia. Qed.

Lemma in_row_member charset v :
  0 <= v / 8 < Z.of_nat (length charset) -> in_row charset v = Ok (member charset v).
Proof.
  intros Hv. unfold in_row, member. rewrite at_index_nth by done. cbn [mbind res_bind].
  rewrite Z.shiftl_1_l, land_pow2_zero by apply mod8_range. by rewrite negb_involutive.
Qed.

Lemma test_bit_member charset v :
  0 <= v / 8 < Z.of_nat (length charset) -> test_bit charset v = Ok (member charset v).
Proof.
  intros Hv. unfold test_bit, member. rewrite at_index_nth by done. cbn [mbind res_bind].
  by rewrite shiftr_land_1 by apply mod8_range.
Qed.

Lemma scalar_first charset rng :
  length charset = 32%nat -> Forall byte rng ->
  find_charset_scalar rng charset = Ok (first_of (member charset) rng).
Proof.
  intros Hc Hb. unfold find_charset_scalar, first_of, indexed.
  enough (forall k, for_find (fun '(index, c) =>
      b ← test_bit charset c; Ok (if b : bool then Some index else None))
    (zip (seqZ k (Z.of_nat (length rng))) rng) =
    Ok (Z.add k <$> find_index (member charset) rng)) as ->.
  { by destruct (find_index _ _). }
  induction Hb as [|c rng Hcb Hb IH]; intros k; [done|]. cbn [length].
  rewrite seqZ_cons by lia. cbn [zip zip_with for_find find_index].
  unfold byte in Hcb. rewrite test_bit_member by (rewrite Hc; div_lia). cbn [mbind res_bind].
  destruct (member charset c); [cbn; do 2 f_equal; lia|].
  replace (Z.pred (Z.of_nat (S (length rng)))) with (Z.of_nat (length rng)) by lia.
  rewrite IH. destruct (find_index _ _); [|done]. cbn. do 2 f_equal. lia.
Qed.

(** ** find_charset_avx2 *)

Lemma load_halves charset :
  length charset = 32%nat ->
  _mm_loadu_si128 charset 0 = Ok (take 16 charset) /\
  _mm_loadu_si128 charset 16 = Ok (drop 16 charset).
Proof.
  intros Hc. unfold _mm_loadu_si128. rewrite !slice_ok by lia. split; [done|]. f_equal.
  change (Z.to_nat 16) with 16%nat. apply take_ge. rewrite length_drop. lia.
Qed.

Lemma filter_even_spec charset :
  length charset = 32%nat -> Forall byte charset ->
  filter_even charset = Ok (evens charset ++ evens charset).
Proof.
  intros Hc Hb. unfold filter_even. destruct (load_halves charset Hc) as [-> ->]. cbn [mbind res_bind].
  rewrite pack_evens, take_drop
    by (rewrite ?length_take, ?length_drop, ?Hc; done || by apply Forall_take || by apply Forall_drop).
  done.
Qed.

Lemma filter_odd_spec charset :
  length charset = 32%nat -> Forall byte charset ->
  filter_odd charset = Ok (odds charset ++ odds charset).
Proof.
  intros Hc Hb. unfold filter_odd. destruct (load_halves charset Hc) as [-> ->]. cbn [mbind res_bind].
  rewrite pack_odds, take_drop
    by (rewrite ?length_take, ?length_drop, ?Hc; done || by apply Forall_take || by apply Forall_drop).
  done.
Qed.

Definition powers : list Z := [1; 2; 4; 8; 16; 32; 64; 128].

Lemma column_mod c : byte c -> shuffle_byte (powers ++ powers) (Z.land c 15) = 2 ^ (c mod 8).
Proof.
  intros Hc. apply Z.eqb_eq. revert c Hc. by apply range_check.
Qed.

(** A nibble as an index into a table. *)
Lemma shuffle_nibble t i : 0 <= i < 16 -> shuffle_byte t i = nth (Z.to_nat i) t 0.
Proof.
  intros Hi. unfold shuffle_byte. rewrite land_15, Z.mod_small by done.
  by rewrite (proj1 (negb_true_iff _) (range_check (fun i => negb (sign_bit i)) 16 eq_refl i Hi)).
Qed.

Lemma row_member charset c :
  length charset = 32%nat -> byte c ->
  nth (Z.to_nat (c / 8)) charset 0 =
  if Z.testbit c 3 then nth (Z.to_nat (c / 16)) (odds charset) 0
  else nth (Z.to_nat (c / 16)) (evens charset) 0.
Proof.
  intros Hc Hb. assert (Z.testbit c 3 = Z.odd (c / 8)) as ->.
  { rewrite <- Z.bit0_odd. symmetry. by apply (Z.div_pow2_bits c 3 0). }
  unfold byte in Hb.
  destruct (Z.odd (c / 8)) eqn:E.
  - apply Zodd_bool_iff, Zodd_ex_iff in E as [k Hk]. rewrite odds_nth. f_equal. div_lia.
  - assert (Z.even (c / 8) = true) as Ev by (by rewrite <- Z.negb_odd, E).
    apply Zeven_bool_iff, Zeven_ex_iff in Ev as [k Hk].
    destruct (evens_nth charset (Z.to_nat (c / 16))) as [->|Hl]; [f_equal; div_lia|].
    rewrite Hc in Hl. div_lia.
Qed.

Lemma avx2_mask charset chars :
  length charset = 32%nat -> length chars = 32%nat -> Forall byte chars ->
  avx2_movemask (evens charset ++ evens charset) (odds charset ++ odds charset) chars =
  s32 (bits_value (member charset <$> chars)).
Proof.
  intros Hc Hl Hb. destruct (length_evens_odds charset 16) as [HE HO]; [done|].
  assert (Nat.Even (length chars)) as He by (rewrite Hl; apply even_32).
  unfold avx2_movemask, _mm256_and_si256, _mm256_set1_epi8, _mm256_andnot_si256,
    _mm256_blendv_epi8, _mm256_srli_epi16. change (u8 15) with 15.
  rewrite srli4_and_15, zip_with_const_id by done.
  change shift_mod with ((powers ++ powers) ++ (powers ++ powers)).
  rewrite !shuffle_fmap by done.
  rewrite (blendv_fmap _ _ (fun c => Z.testbit c 3)) by (by apply slli4_sign).
  rewrite zip_with_same, movemask_eq0 by done. do 2 f_equal.
  apply fmap_bytes_bool; [done|]. intros c Hcb. unfold byte in Hcb.
  rewrite column_mod, !shuffle_nibble by (try done; div_lia).
  unfold member. rewrite (row_member charset c) by done. apply ldiff_pow2_zero, mod8_range.
Qed.

(** The two loops of a search: [h] looks at a vector, [f] at a character. *)
Lemma search_first (P : Z -> bool) (h : Z -> list Z -> option Z) (f : Z * Z -> res (option Z)) rng :
  let n := (length (simdify lane (views_all rng)) * lane)%nat in
  (forall index chars, length chars = 32%nat -> Forall byte chars ->
     h index chars = Z.add (index * 32) <$> find_index P chars) ->
  Forall byte rng ->
  (forall index addr c, rng !! Z.to_nat addr = Some c -> 0 <= addr ->
     f (index, addr) = Ok (if P c then Some (Z.of_nat n + index) else None)) ->
  (r ← for_find (fun '(index, addr) => chars ← _mm256_loadu_si256 rng addr; Ok (h index chars))
         (indexed (simdify lane (views_all rng)));
   match r with
   | Some i => Ok i
   | None => r ← for_find f (indexed (drop n (views_all rng))); Ok (default (-1) r)
   end) = Ok (first_of P rng).
Proof.
  intros n Hh Hb Hf. change lane with 32%nat in *.
  rewrite (for_find_ext (fun '(index, addr) => chars ← _mm256_loadu_si256 rng addr; Ok (h index chars))
    (fun '(index, addr) =>
    chars ← _mm256_loadu_si256 rng addr; Ok (Z.add (index * 32) <$> find_index P chars))).
  2: { intros [index addr] _. destruct (_mm256_loadu_si256 rng addr) as [chars| |] eqn:E; [|done..].
       cbn [mbind res_bind]. f_equal. unfold _mm256_loadu_si256 in E.
       apply Hh; [apply slice_length in E; lia | by eapply slice_Forall]. }
  rewrite (simd_search P) by done. fold n. cbn [mbind res_bind].
  assert (find_index P rng = match find_index P (take n rng) with
    | Some i => Some i
    | None => Z.add (Z.of_nat n) <$> find_index P (drop n rng) end) as E.
  { rewrite <- (take_drop n rng) at 1. rewrite find_index_app, length_take, Nat.min_l; [done|].
    unfold n, views_all. rewrite simdify_seqZ, length_fmap, length_seq by lia.
    pose proof (Nat.Div0.mul_div_le (length rng) 32). lia. }
  unfold first_of. rewrite E. destruct (find_index P (take n rng)); [done|].
  by rewrite (scalar_search P).
Qed.

Lemma mask_scan (P : Z -> bool) chunk index movemask :
  length chunk = 32%nat -> movemask = s32 (bits_value (P <$> chunk)) ->
  (if negb (movemask =? 0) then Some (index * 32 + countr_zero 32 (u32 movemask)) else None) =
  Z.add (index * 32) <$> find_index P chunk.
Proof.
  intros Hl ->. rewrite s32_mask_zero, u32_mask by (by rewrite length_fmap).
  rewrite <- (mask_search P chunk 32) by lia. by destruct (_ =? 0).
Qed.

Lemma counter_scan (P : Z -> bool) chunk index counter :
  length chunk = 32%nat -> counter = bits_value (P <$> chunk) ->
  (if negb (counter =? 0) then Some (index * 32 + countr_zero 32 counter) else None) =
  Z.add (index * 32) <$> find_index P chunk.
Proof.
  intros Hl ->. rewrite <- (mask_search P chunk 32) by lia. by destruct (_ =? 0).
Qed.

(** A character of the text. *)
Lemma text_byte rng addr c :
  Forall byte rng -> rng !! Z.to_nat addr = Some c -> 0 <= addr -> rng.[addr] = Ok c /\ byte c.
Proof. intros Hb Hc Ha. split; [by apply at_index_lookup | by eapply Forall_lookup]. Qed.

Lemma avx2_first charset rng :
  length charset = 32%nat -> Forall byte charset -> Forall byte rng ->
  find_charset_avx2 rng charset = Ok (first_of (member charset) rng).
Proof.
  intros Hc Hcb Hb. unfold find_charset_avx2.
  rewrite filter_even_spec, filter_odd_spec by done. cbn [mbind res_bind].
  refine (search_first (member charset) (fun index chars => _) _ _ _ Hb _).
  - intros index chars Hl Hch. apply mask_scan; [done|]. by apply avx2_mask.
  - intros index addr c Hl Ha. destruct (text_byte rng addr c Hb Hl Ha) as [-> Hcc].
    cbn [mbind res_bind]. unfold byte in Hcc. by rewrite in_row_member by (rewrite Hc; div_lia).
Qed.

(** ** find_charset_avx2_ascii128 *)

Lemma filter256_spec charset :
  length charset = 16%nat -> filter256 charset = Ok (charset ++ charset).
Proof.
  intros Hc. unfold filter256, _mm_loadu_si128. rewrite slice_ok by lia. cbn [mbind res_bind].
  rewrite take_ge by (rewrite length_drop; lia). done.
Qed.

(** The members below 128 of a bitmap of 16 bytes. *)
Definition member128 (charset : list Z) (c : Z) : bool := (c <? 128) && member charset c.

Lemma column_low c : byte c -> shuffle_byte (powers ++ replicate 8 0) (Z.land c 7) = 2 ^ (c mod 8).
Proof. intros Hc. apply Z.eqb_eq. revert c Hc. by apply range_check. Qed.

(** The index of the row: the rows of characters from 128 on are 0 when they are
    to be ignored, else those of the characters that are 128 below. *)
Lemma row_index_low charset c :
  byte c -> shuffle_byte charset (Z.land c 120 / 8) = nth (Z.to_nat (c mod 128 / 8)) charset 0.
Proof.
  intros Hc. assert (Z.land c 120 / 8 = c mod 128 / 8) as ->.
  { apply Z.eqb_eq. revert c Hc. by apply range_check. }
  apply shuffle_nibble. div_lia.
Qed.

Lemma row_index_sign charset c :
  byte c -> shuffle_byte charset (Z.lor (Z.land c 120 / 8) (Z.land c 128)) =
  if c <? 128 then nth (Z.to_nat (c / 8)) charset 0 else 0.
Proof.
  intros Hc. unfold shuffle_byte.
  assert (sign_bit (Z.lor (Z.land c 120 / 8) (Z.land c 128)) = negb (c <? 128)) as ->.
  { apply eqb_prop. revert c Hc. by apply range_check. }
  destruct (Z.ltb_spec c 128); [|done]. cbn [negb]. do 2 f_equal. unfold byte in Hc.
  apply Z.eqb_eq. assert (0 <= c < 128) as Hc' by lia. clear H Hc. revert c Hc'. by apply range_check.
Qed.

Lemma not_movemask (f : Z -> Z) (P : Z -> bool) chars :
  length chars = 32%nat -> Forall byte chars -> (forall c, byte c -> (f c =? 0) = negb (P c)) ->
  u32 (Z.lnot (_mm256_movemask_epi8 (_mm256_cmpeq_epi8 (f <$> chars) _mm256_setzero_si256))) =
  bits_value (P <$> chars).
Proof.
  intros Hl Hb HP. rewrite movemask_eq0, u32_lnot_mask by (done || by rewrite length_fmap).
  rewrite <- list_fmap_compose. f_equal. apply fmap_bytes_bool; [done|].
  intros c Hc. unfold compose. by rewrite HP, negb_involutive.
Qed.

Lemma ascii128_byte_index chars :
  length chars = 32%nat -> Forall byte chars ->
  _mm256_srli_epi16 (_mm256_and_si256 chars (_mm256_set1_epi8 120)) 3 =
  (fun c => Z.land c 120 / 8) <$> chars.
Proof.
  intros Hl Hb. unfold _mm256_and_si256, _mm256_set1_epi8, _mm256_srli_epi16.
  change (u8 120) with 120. rewrite zip_with_const_id by done.
  rewrite srli3_bytes, <- list_fmap_compose; [done | rewrite length_fmap, Hl; apply even_32 | |].
  - apply Forall_fmap. eapply Forall_impl; [exact Hb|]. intros c Hc.
    enough ((0 <=? Z.land c 120) && (Z.land c 120 <? 256) = true) as H.
    { unfold byte, compose. lia. }
    revert c Hc. by apply range_check.
  - apply Forall_fmap. eapply Forall_impl; [exact Hb|]. intros c Hc.
    apply Z.eqb_eq. revert c Hc. by apply range_check.
Qed.

Lemma ascii128_mask (overflow : bool) charset chars :
  length charset = 16%nat -> length chars = 32%nat -> Forall byte chars ->
  ascii128_counter overflow (charset ++ charset) chars =
  bits_value ((if overflow then member128 charset else fun c => member charset (c mod 128)) <$> chars).
Proof.
  intros Hc Hl Hb. unfold ascii128_counter. rewrite ascii128_byte_index by done.
  unfold _mm256_and_si256, _mm256_or_si256, _mm256_set1_epi8.
  change (u8 7) with 7. change (u8 128) with 128.
  change SimdCharset.shift with ((powers ++ replicate 8 0) ++ (powers ++ replicate 8 0)).
  rewrite !zip_with_const_id by done. destruct overflow.
  - rewrite (zip_with_same Z.lor), !shuffle_fmap, (zip_with_same Z.land) by done.
    apply not_movemask; [done..|]. intros c Hcb. rewrite column_low, row_index_sign by done.
    unfold member128. destruct (c <? 128); [|by rewrite Z.land_0_l].
    rewrite land_pow2_zero by apply mod8_range. done.
  - rewrite !shuffle_fmap, zip_with_same by done.
    apply not_movemask; [done..|]. intros c Hcb. rewrite column_low, row_index_low by done.
    rewrite land_pow2_zero by apply mod8_range. unfold member. do 2 f_equal. div_lia.
Qed.

Lemma ascii128_overflow_first charset rng :
  length charset = 16%nat -> Forall byte rng ->
  find_charset_avx2_ascii128 true rng charset = Ok (first_of (member128 charset) rng).
Proof.
  intros Hc Hb. unfold find_charset_avx2_ascii128. rewrite filter256_spec by done.
  cbn [mbind res_bind].
  refine (search_first (member128 charset) (fun index chars => _) _ _ _ Hb _).
  - intros index chars Hl Hch. apply counter_scan; [done|].
    by apply (ascii128_mask true).
  - intros index addr c Hl Ha. destruct (text_byte rng addr c Hb Hl Ha) as [-> Hcc].
    cbn [mbind res_bind andb]. unfold byte in Hcc. unfold member128.
    destruct (Z.leb_spec 128 c), (Z.ltb_spec c 128); try lia; [done|].
    by rewrite in_row_member by (rewrite Hc; div_lia).
Qed.

Lemma ascii128_first charset rng :
  length charset = 16%nat -> Forall (fun c => 0 <= c < 128) rng ->
  find_charset_avx2_ascii128 false rng charset = Ok (first_of (member charset) rng).
Proof.
  intros Hc Hb. unfold find_charset_avx2_ascii128. rewrite filter256_spec by done.
  cbn [mbind res_bind].
  assert (Forall byte rng) as Hb' by (eapply Forall_impl; [exact Hb | unfold byte; lia]).
  assert (first_of (member charset) rng = first_of (fun c => member charset (c mod 128)) rng) as ->.
  { unfold first_of. f_equal. apply find_index_ext. intros c Hin.
    eapply Forall_forall in Hb; [|exact Hin]. by rewrite Z.mod_small. }
  refine (search_first (fun c => member charset (c mod 128)) (fun index chars => _) _ _ _ Hb' _).
  - intros index chars Hl Hch. apply counter_scan; [done|].
    by apply (ascii128_mask false).
  - intros index addr c Hl Ha. destruct (text_byte rng addr c Hb' Hl Ha) as [-> _].
    cbn [mbind res_bind andb].
    assert (0 <= c < 128) as Hcc by (by eapply (Forall_lookup (fun c => 0 <= c < 128))).
    rewrite in_row_member by (rewrite Hc; div_lia). by rewrite Z.mod_small.
Qed.

(** ** find_charset_avx2_ascii128_transposed *)

(** The set of a transposed bitmap: the bit of [c] is bit [c / 16] of byte
    [c mod 16]. *)
Definition member_t (charset : list Z) (c : Z) : bool :=
  Z.testbit (nth (Z.to_nat (c mod 16)) charset 0) (c / 16).

Lemma byte_high_bits x n : byte x -> 8 <= n -> Z.testbit x n = false.
Proof.
  intros Hx Hn. unfold byte in Hx. destruct (decide (x = 0)) as [->|]; [apply Z.bits_0|].
  apply Z.bits_above_log2; [lia|]. apply Z.log2_lt_pow2; [lia|].
  apply Z.lt_le_trans with (2 ^ 8); [change (2 ^ 8) with 256; lia|]. apply Z.pow_le_mono_r; lia.
Qed.

Lemma nth_byte l i : Forall byte l -> byte (nth i l 0).
Proof.
  intros Hl. destruct (l !! i) as [x|] eqn:E.
  - erewrite nth_lookup_Some by exact E. by eapply Forall_lookup.
  - apply lookup_ge_None_1 in E. rewrite nth_overflow by lia. done.
Qed.

Lemma column_high c :
  byte c -> shuffle_byte (powers ++ replicate 8 0) (c / 16) = if c <? 128 then 2 ^ (c / 16) else 0.
Proof. intros Hc. apply Z.eqb_eq. revert c Hc. by apply range_check. Qed.

Lemma row_low_nibble t c :
  byte c -> shuffle_byte t c = if c <? 128 then nth (Z.to_nat (c mod 16)) t 0 else 0.
Proof.
  intros Hc. unfold shuffle_byte. rewrite land_15.
  assert (sign_bit c = negb (c <? 128)) as ->; [|by destruct (c <? 128)].
  apply eqb_prop. revert c Hc. by apply range_check.
Qed.

Lemma transposed_mask t chars :
  length t = 16%nat -> Forall byte t -> length chars = 32%nat -> Forall byte chars ->
  transposed_counter (t ++ t) chars = bits_value (member_t t <$> chars).
Proof.
  intros Ht Htb Hl Hb. unfold transposed_counter, _mm256_and_si256, _mm256_set1_epi8,
    _mm256_srli_epi16. change (u8 15) with 15.
  rewrite srli4_and_15 by (done || (rewrite Hl; apply even_32)).
  change SimdCharset.shift with ((powers ++ replicate 8 0) ++ (powers ++ replicate 8 0)).
  rewrite shuffle_fmap by done. rewrite <- (list_fmap_id chars) at 1.
  rewrite shuffle_fmap, (zip_with_same Z.land) by done.
  apply not_movemask; [done..|]. intros c Hc. unfold id.
  rewrite column_high, row_low_nibble by done. unfold member_t. destruct (Z.ltb_spec c 128).
  - apply land_pow2_zero. unfold byte in Hc. div_lia.
  - rewrite byte_high_bits; [done | by apply nth_byte | div_lia].
Qed.

Lemma transposed_first t rng :
  length t = 16%nat -> Forall byte t -> Forall byte rng -> forall (b : bool) charset,
  (if b then copy_local charset else transpose_local charset) = Ok t ->
  find_charset_avx2_ascii128_transposed b rng charset = Ok (first_of (member_t t) rng).
Proof.
  intros Ht Htb Hb b charset E. unfold find_charset_avx2_ascii128_transposed. rewrite E.
  cbn [mbind res_bind]. rewrite filter256_spec by done. cbn [mbind res_bind].
  refine (search_first (member_t t) (fun index chars => _) _ _ _ Hb _).
  - intros index chars Hl Hch. apply counter_scan; [done|]. by apply transposed_mask.
  - intros index addr c Hl Ha. destruct (text_byte rng addr c Hb Hl Ha) as [-> Hc].
    cbn [mbind res_bind]. unfold byte in Hc. rewrite at_index_nth by (rewrite Ht; div_lia).
    cbn [mbind res_bind]. rewrite Z.shiftl_1_l, land_pow2_zero by div_lia.
    by rewrite negb_involutive.
Qed.

(** Transposition: the turn for the character [d]. *)
Lemma transpose_step_spec charset t d :
  (16 <= length charset)%nat -> 0 <= d < 128 -> length t = 16%nat -> Forall byte t ->
  exists t1, transpose_step charset t d = Ok t1 /\ length t1 = 16%nat /\ Forall byte t1 /\
    forall c, 0 <= c < 128 ->
      member_t t1 c = member_t t c || (bool_decide (c = d) && member charset c).
Proof.
  intros Hc Hd Ht Htb. unfold transpose_step. rewrite (at_index_nth charset) by div_lia.
  cbn [mbind res_bind].
  rewrite shiftr_land_1 by apply mod8_range. fold (member charset d).
  destruct (member charset d) eqn:E.
  - rewrite (at_index_nth t) by (rewrite Ht; div_lia). cbn [mbind res_bind].
    rewrite set_index_ok by (rewrite Ht; div_lia). rewrite Z.shiftl_1_l.
    set (j := Z.to_nat (d mod 16)). set (y := nth j t 0). eexists. split; [done|].
    split; [by rewrite length_insert|]. split.
    { apply Forall_insert; [done|]. apply (uwrap_range 8). done. }
    intros c Hcr. unfold member_t. destruct (decide (c mod 16 = d mod 16)) as [Em|Em].
    + rewrite Em. fold j. fold y.
      erewrite (nth_lookup_Some (<[_ := _]> t)); [|apply list_lookup_insert_eq; unfold j; rewrite Ht; div_lia].
      unfold uwrap. rewrite Z.mod_pow2_bits_low, Z.lor_spec, Z.pow2_bits_eqb by div_lia. f_equal.
      destruct (Z.eqb_spec (d / 16) (c / 16)).
      * assert (c = d) as -> by div_lia. by rewrite bool_decide_true, E.
      * rewrite bool_decide_false; [done|]. intros ->. done.
    + rewrite bool_decide_false by (intros ->; done). rewrite orb_false_r. f_equal.
      rewrite !nth_lookup, list_lookup_insert_ne; [done|]. unfold j. div_lia.
  - exists t. split_and!; [done..|]. intros c Hcr. destruct (decide (c = d)) as [->|Hne].
    + by rewrite E, andb_false_r, orb_false_r.
    + by rewrite bool_decide_false, orb_false_r by done.
Qed.

(** After the turns for the characters of [l], the bits of those members of the set
    are there. *)
Lemma transpose_fold charset l t :
  (16 <= length charset)%nat -> Forall (fun c => 0 <= c < 128) l ->
  length t = 16%nat -> Forall byte t ->
  exists t', foldR (transpose_step charset) t l = Ok t' /\ length t' = 16%nat /\ Forall byte t' /\
    forall c, 0 <= c < 128 -> member_t t' c = member_t t c || (bool_decide (c ∈ l) && member charset c).
Proof.
  intros Hc Hl. revert t. induction Hl as [|d l Hd Hl IH]; intros t Ht Htb.
  { exists t. split_and!; [done..|]. intros c Hcr. rewrite bool_decide_false by apply not_elem_of_nil.
    by rewrite orb_false_r. }
  cbn [foldR].
  destruct (transpose_step_spec charset t d Hc Hd Ht Htb) as (t1 & -> & Ht1 & Htb1 & Hm1).
  cbn [mbind res_bind]. destruct (IH t1 Ht1 Htb1) as (t' & -> & Ht' & Htb' & Hm').
  exists t'. split_and!; [done..|]. intros c Hcr. rewrite Hm', Hm1 by done.
  rewrite <- orb_assoc, <- andb_orb_distrib_l. do 2 f_equal.
  rewrite <- bool_decide_or. apply bool_decide_ext. by rewrite elem_of_cons.
Qed.

Lemma nth_zeros n i : nth i (replicate n 0) 0 = 0.
Proof.
  rewrite nth_lookup. destruct (replicate n 0 !! i) as [x|] eqn:E; [|done].
  by apply lookup_replicate in E as [-> _].
Qed.

Lemma transpose_spec charset :
  (16 <= length charset)%nat ->
  exists t, transpose_local charset = Ok t /\ length t = 16%nat /\ Forall byte t /\
    forall c, byte c -> member_t t c = member128 charset c.
Proof.
  intros Hc. destruct (transpose_fold charset (seqZ 0 128) (replicate 16 0)) as (t & E & Ht & Htb & Hm);
    [done | | done | by apply Forall_replicate |].
  { apply Forall_forall. intros c Hin%elem_of_seqZ. lia. }
  exists t. split_and!; [done..|]. intros c Hcb. unfold member128. destruct (Z.ltb_spec c 128).
  - rewrite Hm by (unfold byte in Hcb; lia).
    rewrite bool_decide_true by (apply elem_of_seqZ; unfold byte in Hcb; lia).
    unfold member_t. rewrite nth_zeros, Z.bits_0. done.
  - apply byte_high_bits; [by apply nth_byte | div_lia].
Qed.

Lemma copy_local_spec t : length t = 16%nat -> copy_local t = Ok t.
Proof.
  intros Ht. do 16 (destruct t as [|? t]; [done|]). by destruct t.
Qed.

(** ** Bitmaps of lists of characters *)

Lemma set_bit_spec bs d :
  length bs = 32%nat -> Forall byte bs -> byte d ->
  exists bs', set_bit bs d = Ok bs' /\ length bs' = 32%nat /\ Forall byte bs' /\
    forall c, byte c -> member bs' c = (c =? d) || member bs c.
Proof.
  intros Hl Hb Hd. unfold byte in Hd. unfold set_bit.
  rewrite (at_index_nth bs) by (rewrite Hl; div_lia). cbn [mbind res_bind].
  rewrite set_index_ok by (rewrite Hl; div_lia). rewrite Z.shiftl_1_l.
  eexists. split; [done|]. split; [by rewrite length_insert|]. split.
  { apply Forall_insert; [done|]. apply (uwrap_range 8). done. }
  intros c Hc. unfold byte in Hc. unfold member. destruct (decide (c / 8 = d / 8)) as [E|E].
  - rewrite E. erewrite (nth_lookup_Some (<[_ := _]> bs));
      [|apply list_lookup_insert_eq; rewrite Hl; div_lia].
    unfold uwrap. rewrite Z.mod_pow2_bits_low, Z.lor_spec, Z.pow2_bits_eqb by div_lia.
    rewrite orb_comm. f_equal. destruct (Z.eqb_spec c d) as [->|]; [apply Z.eqb_refl|].
    apply Z.eqb_neq. div_lia.
  - rewrite (proj2 (Z.eqb_neq c d)) by (intros ->; done). cbn [orb]. f_equal.
    rewrite !nth_lookup, list_lookup_insert_ne; [done|]. div_lia.
Qed.

Lemma set_bits_spec chars bs :
  length bs = 32%nat -> Forall byte bs -> Forall byte chars ->
  exists bs', foldR set_bit bs chars = Ok bs' /\ length bs' = 32%nat /\ Forall byte bs' /\
    forall c, byte c -> member bs' c = contains chars c || member bs c.
Proof.
  intros Hl Hb Hch. revert bs Hl Hb. induction Hch as [|d chars Hd Hch IH]; intros bs Hl Hb.
  { by exists bs. }
  cbn [foldR]. destruct (set_bit_spec bs d Hl Hb Hd) as (b1 & -> & Hl1 & Hb1 & Hm1).
  cbn [mbind res_bind]. destruct (IH b1 Hl1 Hb1) as (b2 & -> & Hl2 & Hb2 & Hm2).
  exists b2. split_and!; [done..|]. intros c Hc. rewrite Hm2, Hm1 by done. cbn [contains fold_right].
  fold (contains chars c). by destruct (c =? d), (contains chars c), (member bs c).
Qed.

Lemma to_charset_spec chars :
  Forall byte chars ->
  exists bs, to_charset chars = Ok bs /\ length bs = 32%nat /\ Forall byte bs /\
    forall c, byte c -> member bs c = contains chars c.
Proof.
  intros Hch. destruct (set_bits_spec chars (replicate 32 0)) as (bs & E & Hl & Hb & Hm);
    [done | by apply Forall_replicate | done |].
  exists bs. split_and!; [done..|]. intros c Hc. rewrite Hm by done. unfold member at 1.
  by rewrite nth_zeros, Z.bits_0, orb_false_r.
Qed.

(** ** The scalar searches of the benchmark *)

Lemma first_of_ext P Q rng :
  Forall byte rng -> (forall c, byte c -> P c = Q c) -> first_of P rng = first_of Q rng.
Proof.
  intros Hb H. unfold first_of. f_equal. apply find_index_ext. intros c Hc. apply H.
  by eapply Forall_forall.
Qed.

(** A search that counts from [i] on. *)
Definition counted (P : Z -> bool) (rng : list Z) (i : Z) : Z :=
  default (-1) (Z.add i <$> find_index P rng).

Lemma counted_0 P rng : counted P rng 0 = first_of P rng.
Proof. unfold counted, first_of. by destruct (find_index P rng). Qed.

Lemma counted_cons P c rng i :
  counted P (c :: rng) i = if P c then i else counted P rng (i + 1).
Proof.
  unfold counted. cbn [find_index]. destruct (P c); cbn; [lia|].
  destruct (find_index P rng); cbn; lia.
Qed.

Lemma static_ct_first chars rng i :
  find_chars_static_ct chars rng i = counted (contains chars) rng i.
Proof.
  revert i. induction rng as [|c rng IH]; intros i; [done|].
  rewrite counted_cons. cbn [find_chars_static_ct]. by rewrite IH.
Qed.

Lemma std_find_contains c chars :
  0 <= std_find c chars <= Z.of_nat (length chars) /\
  negb (std_find c chars =? Z.of_nat (length chars)) = contains chars c.
Proof.
  induction chars as [|x chars [Hr IH]]; [done|]. cbn [std_find contains fold_right length].
  fold (contains chars c). rewrite (Z.eqb_sym c x). destruct (x =? c); cbn [orb].
  - split; [lia|]. rewrite (proj2 (Z.eqb_neq _ _)) by lia. done.
  - split; [lia|]. rewrite <- IH. f_equal.
    destruct (Z.eqb_spec (std_find c chars) (Z.of_nat (length chars))).
    + apply Z.eqb_eq. lia.
    + apply Z.eqb_neq. lia.
Qed.

Lemma stdfind_rt_first chars rng i :
  find_chars_stdfind_rt rng chars i = counted (contains chars) rng i.
Proof.
  revert i. induction rng as [|c rng IH]; intros i; [done|].
  rewrite counted_cons. cbn [find_chars_stdfind_rt]. by rewrite IH, (proj2 (std_find_contains c chars)).
Qed.

Lemma inner_loop c (i : Z) (chars : list Z) :
  for_find (fun j => x ← chars.[j]; Ok (if c =? x then Some i else None))
    (seqZ 0 (Z.of_nat (length chars))) = Ok (if contains chars c then Some i else None).
Proof.
  enough (forall pre suf, chars = pre ++ suf ->
    for_find (fun j => x ← chars.[j]; Ok (if c =? x then Some i else None))
      (seqZ (Z.of_nat (length pre)) (Z.of_nat (length suf))) =
    Ok (if contains suf c then Some i else None)) as H by (by apply (H [] chars)).
  intros pre suf. revert pre. induction suf as [|x suf IH]; intros pre E; [done|].
  cbn [length]. rewrite seqZ_cons by lia. cbn [for_find contains fold_right]. fold (contains suf c).
  rewrite (at_index_lookup chars _ x); [|lia|].
  2: { rewrite E, Nat2Z.id, lookup_app_r, Nat.sub_diag by lia. done. }
  cbn [mbind res_bind]. destruct (c =? x); [done|]. cbn [orb].
  specialize (IH (pre ++ [x])). rewrite length_app in IH. cbn [length] in IH.
  replace (Z.succ (Z.of_nat (length pre))) with (Z.of_nat (length pre + 1)) by lia.
  replace (Z.pred (Z.of_nat (S (length suf)))) with (Z.of_nat (length suf)) by lia.
  apply IH. by rewrite <- app_assoc.
Qed.

Lemma loop_rt_first chars rng i :
  find_chars_loop_rt rng chars i = Ok (counted (contains chars) rng i).
Proof.
  revert i. induction rng as [|c rng IH]; intros i; [done|].
  rewrite counted_cons. cbn [find_chars_loop_rt]. rewrite inner_loop. cbn [mbind res_bind].
  destruct (contains chars c); [done | apply IH].
Qed.

Lemma bitmap_search_first charset rng i :
  length charset = 32%nat -> Forall byte rng ->
  bitmap_search charset rng i = Ok (counted (member charset) rng i).
Proof.
  intros Hc Hb. revert i. induction Hb as [|c rng Hcb Hb IH]; intros i; [done|].
  rewrite counted_cons. cbn [bitmap_search]. unfold byte in Hcb.
  rewrite test_bit_member by (rewrite Hc; div_lia). cbn [mbind res_bind].
  destruct (member charset c); [done | apply IH].
Qed.

Lemma bitmap_ct_first chars rng :
  Forall byte chars -> Forall byte rng ->
  find_chars_bitmap_ct chars rng = Ok (first_of (contains chars) rng).
Proof.
  intros Hch Hb. unfold find_chars_bitmap_ct.
  destruct (to_charset_spec chars Hch) as (bs & -> & Hl & _ & Hm). cbn [mbind res_bind].
  rewrite bitmap_search_first, counted_0 by done. f_equal. by apply first_of_ext.
Qed.

Lemma preset_bytes p : Forall byte (get_preset_chars p).
Proof.
  by apply range_Forall; destruct p.
Qed.
