(* ===== verification/SimdEscape.v ===== *)
(** * Escaping quotes and backslashes

    src/simd/escape.hpp: a text is copied with a backslash before every quote and
    every backslash, 32 characters at a time.  The vectors with something to escape
    are expanded eight characters at a time by tables of shuffles and blends.  Also
    the scalar version that src/simd/escape_test.cpp compares it with. *)

From S2P Require Import Prelude Bytes Simd SimdView.
From stdpp Require Import list_relations list.
From S2P Require Import SimdLanes.
#[local] Open Scope Z_scope.

(** ** The tables *)

(** The rows of for_shuffle and for_blend for one mask, and the length so far. *)
Record Row : Set := mkRow { r_shuffle : list Z; r_blend : list Z; r_length : Z }.

Definition set_entry (row : Row) (j s b : Z) : res Row :=
  sh ← (r_shuffle row).[j <- s]; bl ← (r_blend row).[j <- b]; Ok (mkRow sh bl (r_length row)).

Definition push_entry (row : Row) (s b : Z) : res Row :=
  row ← set_entry row (r_length row) s b;
  Ok (mkRow (r_shuffle row) (r_blend row) (r_length row + 1)).

(** The body of the loop over the eight characters. *)
Definition row_step (mask : Z) (row : Row) (index : Z) : res Row :=
  row ← (if negb (Z.land (Z.shiftr mask index) 1 =? 0) then push_entry row 128 255 else Ok row);
  push_entry row index 0.

Definition escape_row (mask : Z) : res Row :=
  row ← foldR (row_step mask) (mkRow (replicate 16 0) (replicate 16 0) 0) (seqZ 0 8);
  foldR (fun row index => set_entry row index 128 0) row
    (seqZ (r_length row) (16 - r_length row)).

(** escape_mask_predefined::escape_mask_predefined. *)
Definition escape_table : list (res Row) := escape_row <$> seqZ 0 256.
Definition escape_lut (mask : Z) : res Row := r ← escape_table.[mask]; r.

(** ** escape_avx2 *)

Definition QUOTE : Z := 34.
Definition BACKSLASH : Z := 92.

(** The destination and the length of what has been written to it. *)
Record Dst : Set := mkDst { d_data : list Z; d_length : Z }.

Definition escape_8x (dst : Dst) (chunk128 : list Z) (mask : Z) : res Dst :=
  row ← escape_lut (u8 mask);
  let expanded := _mm_shuffle_epi8 chunk128 (r_shuffle row) in
  let result := _mm_blendv_epi8 expanded (_mm_set1_epi8 BACKSLASH) (r_blend row) in
  data ← _mm_storeu_si128 (d_data dst) (d_length dst) result;
  Ok (mkDst data (d_length dst + r_length row)).

(** One vector of the source. *)
Definition escape_chunk (dst : Dst) (chunk : list Z) : res Dst :=
  let mask := _mm256_movemask_epi8 (_mm256_or_si256
    (_mm256_cmpeq_epi8 chunk (_mm256_set1_epi8 QUOTE))
    (_mm256_cmpeq_epi8 chunk (_mm256_set1_epi8 BACKSLASH))) in
  if mask =? 0 then
    data ← _mm256_storeu_si256 (d_data dst) (d_length dst) chunk;
    Ok (mkDst data (d_length dst + 32))
  else
    let lo := _mm256_castsi256_si128 chunk in
    let hi := _mm256_extracti128_si256 chunk 1 in
    dst ← escape_8x dst lo mask;
    dst ← escape_8x dst (_mm_srli_si128 lo 8) (Z.shiftr mask 8);
    dst ← escape_8x dst hi (Z.shiftr mask 16);
    escape_8x dst (_mm_srli_si128 hi 8) (Z.shiftr mask 24).

(** One character of the rest. *)
Definition escape_char (dst : Dst) (v : Z) : res Dst :=
  let cond := Z.b2z ((v =? BACKSLASH) || (v =? QUOTE)) in
  data ← (d_data dst).[d_length dst <- BACKSLASH];
  data ← data.[d_length dst + cond <- v];
  Ok (mkDst data (d_length dst + cond + 1)).

Definition escape_avx2 (src dst : list Z) : res Dst :=
  let simd_view := simdify 32 (views_all src) in
  d ← foldR (fun d addr => chunk ← _mm256_loadu_si256 src addr; escape_chunk d chunk)
        (mkDst dst 0) simd_view;
  let scalar_view := drop (32 * length simd_view) (views_all src) in
  foldR (fun d addr => v ← src.[addr]; escape_char d v) d scalar_view.

(** ** escape_scalar *)

Definition scalar_char (dst : Dst) (c : Z) : res Dst :=
  dst ← (if (c =? QUOTE) || (c =? BACKSLASH) then
           data ← (d_data dst).[d_length dst <- BACKSLASH]; Ok (mkDst data (d_length dst + 1))
         else Ok dst);
  data ← (d_data dst).[d_length dst <- c]; Ok (mkDst data (d_length dst + 1)).

Definition escape_scalar (src dst : list Z) : res Dst := foldR scalar_char (mkDst dst 0) src.

(** * Escaping quotes and backslashes: what is written *)
#[local] Open Scope Z_scope.

Definition special (c : Z) : bool := (c =? BACKSLASH) || (c =? QUOTE).

(** The text with its escapes. *)
Definition escaped (src : list Z) : list Z :=
  src ≫= fun c => if special c then [BACKSLASH; c] else [c].

Lemma escaped_app s1 s2 : escaped (s1 ++ s2) = escaped s1 ++ escaped s2.
Proof. apply bind_app. Qed.

Lemma escaped_one c : escaped [c] = if special c then [BACKSLASH; c] else [c].
Proof. unfold escaped. cbn. by destruct (special c). Qed.

Lemma length_escaped s : (length s <= length (escaped s) <= 2 * length s)%nat.
Proof.
  induction s as [|c s IH]; [done|]. unfold escaped in *. rewrite bind_cons, length_app.
  cbn [length]. destruct (special c); cbn [length]; lia.
Qed.

Lemma escaped_plain s : forallb (fun c => negb (special c)) s = true -> escaped s = s.
Proof.
  induction s as [|c s IH]; [done|]. cbn. rewrite andb_true_iff. intros [Hc Hs].
  destruct (special c); [done|]. cbn. f_equal. by apply IH.
Qed.

(** ** The destination *)

(** The destination has [n] elements and starts with [out]. *)
Definition holds (n : nat) (d : Dst) (out : list Z) : Prop :=
  length (d_data d) = n /\ d_length d = Z.of_nat (length out) /\
  take (length out) (d_data d) = out.

(** Writing [bs], of which the first [k] count. *)
Lemma holds_write n d out bs k :
  holds n d out -> (length out + length bs <= n)%nat -> (k <= length bs)%nat ->
  exists data, write_bytes (d_data d) (d_length d) bs = Ok data /\
    holds n (mkDst data (d_length d + Z.of_nat k)) (out ++ take k bs).
Proof.
  intros (Hn & Hl & Ht) Hfit Hk. unfold write_bytes. rewrite Hl, Nat2Z.id, Hn.
  rewrite !(proj2 (Z.leb_le _ _)) by lia. cbn [andb]. eexists. split; [done|].
  rewrite Ht. split_and!; cbn [d_data d_length].
  - rewrite !length_app, length_drop, Hn. lia.
  - rewrite length_app, length_take. lia.
  - rewrite length_app, length_take, Nat.min_l by lia. rewrite take_app_add.
    f_equal. rewrite take_app_le by lia. done.
Qed.

Lemma write_one (l : list Z) i x :
  0 <= i < Z.of_nat (length l) -> l.[i <- x] = write_bytes l i [x].
Proof.
  intros Hi. rewrite set_index_ok by done. unfold write_bytes. cbn [length].
  rewrite !(proj2 (Z.leb_le _ _)) by lia. cbn [andb]. f_equal.
  rewrite insert_take_drop by lia. replace (S (Z.to_nat i)) with (Z.to_nat i + 1)%nat by lia. done.
Qed.

Lemma holds_push n d out x :
  holds n d out -> (length out < n)%nat ->
  exists data, (d_data d).[d_length d <- x] = Ok data /\
    holds n (mkDst data (d_length d + 1)) (out ++ [x]).
Proof.
  intros Hd Hlt. destruct Hd as (Hn & Hl & Ht) eqn:E. rewrite write_one by lia.
  apply (holds_write n d out [x] 1); [done | cbn; lia | cbn; lia].
Qed.

(** ** The tables *)

#[local] Instance Row_eq_dec : EqDecision Row.
Proof. solve_decision. Defined.

(** The entries of the row of a mask that are used: a shuffle and a blend. *)
Definition entries (mask : Z) : list (Z * Z) :=
  seqZ 0 8 ≫= fun i => if Z.testbit mask i then [(128, 255); (i, 0)] else [(i, 0)].

Definition padded (mask : Z) : list (Z * Z) :=
  entries mask ++ replicate (16 - length (entries mask)) (128, 0).

Lemma escape_row_spec m :
  0 <= m < 256 ->
  escape_row m = Ok (mkRow (padded m).*1 (padded m).*2 (Z.of_nat (length (entries m)))).
Proof.
  intros Hm. apply (bool_decide_eq_true_1 (escape_row m = _)). revert m Hm. apply range_check. by vm_compute.
Qed.

Lemma escape_lut_row m : 0 <= m < 256 -> escape_lut m = escape_row m.
Proof.
  intros Hm. unfold escape_lut, escape_table.
  rewrite (at_index_lookup _ _ (escape_row m)); [done | lia |].
  rewrite list_lookup_fmap, lookup_seqZ_lt by lia. cbn. do 2 f_equal. lia.
Qed.

Lemma length_padded m : 0 <= m < 256 -> length (padded m) = 16%nat /\ (length (entries m) <= 16)%nat.
Proof.
  intros Hm. assert ((length (entries m) <= 16)%nat) as H.
  { apply Nat.leb_le. revert m Hm. apply range_check. by vm_compute. }
  split; [|done]. unfold padded. rewrite length_app, length_replicate. lia.
Qed.

(** What an entry selects. *)
Definition entry_byte (chunk : list Z) (e : Z * Z) : Z :=
  if sign_bit e.2 then BACKSLASH else shuffle_byte chunk e.1.

Lemma expand_row chunk m :
  0 <= m < 256 ->
  _mm_blendv_epi8 (_mm_shuffle_epi8 chunk (padded m).*1) (_mm_set1_epi8 BACKSLASH) (padded m).*2 =
  entry_byte chunk <$> padded m.
Proof.
  intros Hm. destruct (length_padded m Hm) as [Hl _]. unfold _mm_blendv_epi8, _mm_shuffle_epi8,
    _mm_set1_epi8. change (u8 BACKSLASH) with BACKSLASH. revert Hl.
  generalize (padded m). intros l <-. induction l as [|e l IH]; [done|]. cbn. f_equal. apply IH.
Qed.

(** The bytes of the entries are the first eight characters with their escapes. *)
Lemma entries_escaped chunk m :
  (8 <= length chunk)%nat ->
  (forall i, (i < 8)%nat -> Z.testbit m (Z.of_nat i) = special (nth i chunk 0)) ->
  entry_byte chunk <$> entries m = escaped (take 8 chunk).
Proof.
  intros Hl Hm. do 8 (destruct chunk as [|? chunk]; [cbn in Hl; lia|]). clear Hl.
  unfold entries, escaped. change (seqZ 0 8) with [0; 1; 2; 3; 4; 5; 6; 7].
  cbn [mbind list_bind take].
  pose proof (Hm 0%nat ltac:(lia) : Z.testbit m 0 = special _) as H0.
  pose proof (Hm 1%nat ltac:(lia) : Z.testbit m 1 = special _) as H1.
  pose proof (Hm 2%nat ltac:(lia) : Z.testbit m 2 = special _) as H2.
  pose proof (Hm 3%nat ltac:(lia) : Z.testbit m 3 = special _) as H3.
  pose proof (Hm 4%nat ltac:(lia) : Z.testbit m 4 = special _) as H4.
  pose proof (Hm 5%nat ltac:(lia) : Z.testbit m 5 = special _) as H5.
  pose proof (Hm 6%nat ltac:(lia) : Z.testbit m 6 = special _) as H6.
  pose proof (Hm 7%nat ltac:(lia) : Z.testbit m 7 = special _) as H7.
  cbn [nth] in *. clear Hm.
  rewrite H0, H1, H2, H3, H4, H5, H6, H7. rewrite !fmap_app.
  clear. repeat (apply (f_equal2 app); [by destruct (special _)|]). done.
Qed.

Lemma escape_8x_spec n d out chunk mask :
  holds n d out -> (length out + 16 <= n)%nat -> (8 <= length chunk)%nat ->
  (forall i, (i < 8)%nat -> Z.testbit mask (Z.of_nat i) = special (nth i chunk 0)) ->
  exists d', escape_8x d chunk mask = Ok d' /\ holds n d' (out ++ escaped (take 8 chunk)).
Proof.
  intros Hd Hfit Hl Hm. unfold escape_8x.
  pose proof (uwrap_range 8 mask ltac:(lia)) as Hu. change (2 ^ 8) with 256 in Hu.
  rewrite escape_lut_row, escape_row_spec by done. cbn [mbind res_bind r_shuffle r_blend r_length].
  rewrite expand_row by done. destruct (length_padded (u8 mask) Hu) as [Hp He].
  destruct (holds_write n d out (entry_byte chunk <$> padded (u8 mask)) (length (entries (u8 mask))))
    as (data & E & Hh); [done | rewrite length_fmap; lia | rewrite length_fmap; lia |].
  unfold _mm_storeu_si128. rewrite E. cbn [mbind res_bind]. eexists. split; [done|].
  rewrite <- fmap_take in Hh. unfold padded in Hh. rewrite take_app_length in Hh.
  rewrite entries_escaped in Hh; [exact Hh | done |].
  intros i Hi. rewrite <- Hm by done. apply Z.mod_pow2_bits_low. lia.
Qed.

(** ** One vector *)

Lemma testbit_bits_value bs i : Z.testbit (bits_value bs) (Z.of_nat i) = nth i bs false.
Proof.
  revert i. induction bs as [|b bs IH]; intros i; [by rewrite Z.bits_0; destruct i|].
  cbn [bits_value]. rewrite Z.add_comm. destruct i as [|i]; [apply Z.testbit_0_r|].
  rewrite Nat2Z.inj_succ, Z.testbit_succ_r by lia. apply IH.
Qed.

Lemma testbit_s32 x i : 0 <= i < 32 -> Z.testbit (s32 x) i = Z.testbit x i.
Proof.
  intros Hi. rewrite <- (Z.mod_pow2_bits_low (s32 x) 32), <- (Z.mod_pow2_bits_low x 32) by lia.
  f_equal. change (u32 (s32 x) = u32 x). by apply uwrap_swrap.
Qed.

Lemma special_mask chunk :
  length chunk = 32%nat ->
  _mm256_movemask_epi8 (_mm256_or_si256
    (_mm256_cmpeq_epi8 chunk (_mm256_set1_epi8 QUOTE))
    (_mm256_cmpeq_epi8 chunk (_mm256_set1_epi8 BACKSLASH))) = s32 (bits_value (special <$> chunk)).
Proof.
  intros Hl. unfold _mm256_or_si256, _mm256_cmpeq_epi8, _mm256_set1_epi8, _mm256_movemask_epi8.
  change (u8 QUOTE) with QUOTE. change (u8 BACKSLASH) with BACKSLASH.
  rewrite !zip_with_const_id, (zip_with_same Z.lor) by done. rewrite <- list_fmap_compose.
  do 2 f_equal. apply list_fmap_ext. intros i c _. unfold compose, special.
  by destruct (c =? BACKSLASH), (c =? QUOTE).
Qed.

(** Bit [k + i] of the mask is about the character there. *)
Lemma mask_bit chunk k i :
  length chunk = 32%nat -> 0 <= k -> (Z.to_nat k + i < 32)%nat ->
  Z.testbit (Z.shiftr (s32 (bits_value (special <$> chunk))) k) (Z.of_nat i) =
  special (nth (Z.to_nat k + i) chunk 0).
Proof.
  intros Hl Hk Hi. rewrite Z.shiftr_spec, testbit_s32 by lia.
  replace (Z.of_nat i + k) with (Z.of_nat (Z.to_nat k + i)) by lia. rewrite testbit_bits_value.
  destruct (lookup_lt_is_Some_2 chunk (Z.to_nat k + i)) as [c Hc]; [lia|].
  rewrite (nth_lookup_Some _ _ _ c Hc). apply nth_lookup_Some. by rewrite list_lookup_fmap, Hc.
Qed.

Lemma nth_take_lt (l : list Z) n i : (i < n)%nat -> nth i (take n l) 0 = nth i l 0.
Proof. intros H. by rewrite !nth_lookup, lookup_take_lt. Qed.

Lemma nth_drop (l : list Z) n i : nth i (drop n l) 0 = nth (n + i) l 0.
Proof. by rewrite !nth_lookup, lookup_drop. Qed.

Lemma bits_zero bs : bits_value bs = 0 -> forallb negb bs = true.
Proof.
  induction bs as [|b bs IH]; [done|]. cbn. pose proof (bits_value_range bs).
  intros E. destruct b; cbn [Z.b2z] in E; [lia|]. apply IH. lia.
Qed.

(** The four groups of eight that a vector is taken apart into. *)
Lemma groups_of_8 (v : list Z) :
  length v = 32%nat ->
  take 8 (take 16 v) ++ take 8 (drop 8 (take 16 v) ++ replicate 8 0) ++
  take 8 (drop 16 v) ++ take 8 (drop 8 (drop 16 v) ++ replicate 8 0) = v.
Proof.
  intros Hl. rewrite !take_app_le by (rewrite !length_drop, ?length_take; lia).
  rewrite (take_ge (drop 8 (take 16 v))), (take_ge (drop 8 (drop 16 v)))
    by (rewrite !length_drop, ?length_take; lia).
  rewrite take_drop, app_assoc, !take_drop. done.
Qed.

Lemma escape_chunk_slow n d out chunk :
  let mask := s32 (bits_value (special <$> chunk)) in
  let lo := _mm256_castsi256_si128 chunk in
  let hi := _mm256_extracti128_si256 chunk 1 in
  holds n d out -> (length out + 64 <= n)%nat -> length chunk = 32%nat ->
  exists d',
    (d ← escape_8x d lo mask;
     d ← escape_8x d (_mm_srli_si128 lo 8) (Z.shiftr mask 8);
     d ← escape_8x d hi (Z.shiftr mask 16);
     escape_8x d (_mm_srli_si128 hi 8) (Z.shiftr mask 24)) = Ok d' /\
    holds n d' (out ++ escaped chunk).
Proof.
  intros mask lo hi Hd Hfit Hl.
  change lo with (take 16 chunk). change hi with (drop 16 chunk). unfold _mm_srli_si128.
  assert (length (take 16 chunk) = 16%nat /\ length (drop 16 chunk) = 16%nat) as [Hlo Hhi]
    by (rewrite length_take, length_drop; lia).
  (* the four groups of eight *)
  assert (forall d out v k, holds n d out -> (length out + 16 <= n)%nat -> (8 <= length v)%nat ->
    0 <= k -> (forall i, (i < 8)%nat -> nth i v 0 = nth (Z.to_nat k + i) chunk 0) ->
    (Z.to_nat k + 8 <= 32)%nat ->
    exists d', escape_8x d v (Z.shiftr mask k) = Ok d' /\ holds n d' (out ++ escaped (take 8 v))) as H8.
  { intros d0 out0 v k H0 Hf Hv Hk Hn Hk8. apply escape_8x_spec; [done..|].
    intros i Hi. unfold mask. rewrite mask_bit by (done || lia). by rewrite Hn. }
  set (g1 := take 8 (take 16 chunk)). set (g2 := take 8 (drop 8 (take 16 chunk) ++ replicate 8 0)).
  set (g3 := take 8 (drop 16 chunk)). set (g4 := take 8 (drop 8 (drop 16 chunk) ++ replicate 8 0)).
  pose proof (length_escaped g1) as L1. pose proof (length_escaped g2) as L2.
  pose proof (length_escaped g3) as L3.
  assert (length g1 <= 8 /\ length g2 <= 8 /\ length g3 <= 8)%nat as (? & ? & ?)
    by (unfold g1, g2, g3; rewrite !length_take; lia).
  destruct (H8 d out (take 16 chunk) 0) as (d1 & E1 & D1); [done | lia | lia | done | | lia |].
  { intros i Hi. by rewrite nth_take_lt by lia. }
  rewrite Z.shiftr_0_r in E1. rewrite E1. cbn [mbind res_bind]. fold g1 in D1.
  destruct (H8 d1 (out ++ escaped g1) (drop 8 (take 16 chunk) ++ replicate 8 0) 8) as (d2 & E2 & D2);
    [done | rewrite length_app; lia | rewrite length_app, length_drop; lia | done | | lia |].
  { intros i Hi. rewrite app_nth1 by (rewrite length_drop; lia).
    rewrite nth_drop, nth_take_lt by lia. done. }
  rewrite E2. cbn [mbind res_bind]. fold g2 in D2.
  destruct (H8 d2 ((out ++ escaped g1) ++ escaped g2) (drop 16 chunk) 16) as (d3 & E3 & D3);
    [done | rewrite !length_app; lia | lia | done | | lia |].
  { intros i Hi. by rewrite nth_drop. }
  rewrite E3. cbn [mbind res_bind]. fold g3 in D3.
  destruct (H8 d3 (((out ++ escaped g1) ++ escaped g2) ++ escaped g3)
    (drop 8 (drop 16 chunk) ++ replicate 8 0) 24) as (d4 & E4 & D4);
    [done | rewrite !length_app; lia | rewrite length_app, !length_drop; lia | done | | lia |].
  { intros i Hi. rewrite app_nth1 by (rewrite !length_drop; lia). by rewrite !nth_drop. }
  exists d4. split; [done|]. fold g4 in D4. rewrite <- !app_assoc, <- !escaped_app in D4.
  unfold g1, g2, g3, g4 in D4. by rewrite groups_of_8 in D4.
Qed.

Lemma escape_chunk_spec n d out chunk :
  holds n d out -> (length out + 64 <= n)%nat -> length chunk = 32%nat ->
  exists d', escape_chunk d chunk = Ok d' /\ holds n d' (out ++ escaped chunk).
Proof.
  intros Hd Hfit Hl. unfold escape_chunk. rewrite special_mask by done.
  rewrite s32_mask_zero by (by rewrite length_fmap).
  destruct (Z.eqb_spec (bits_value (special <$> chunk)) 0) as [E|_].
  - apply bits_zero in E. assert (escaped chunk = chunk) as ->.
    { apply escaped_plain. clear Hl. induction chunk as [|c chunk IH]; [done|].
      cbn in *. apply andb_true_iff in E as [-> E]. by apply IH. }
    destruct (holds_write n d out chunk 32) as (data & E' & Hh); [done | lia | lia |].
    unfold _mm256_storeu_si256. rewrite E'. cbn [mbind res_bind]. eexists. split; [done|].
    by rewrite take_ge in Hh by lia.
  - by apply escape_chunk_slow.
Qed.

(** ** The loops *)

Lemma escape_vector_step n src k d :
  (2 * length src <= n)%nat -> (k + 32 <= length src)%nat -> holds n d (escaped (take k src)) ->
  exists d', (chunk ← _mm256_loadu_si256 src (Z.of_nat k); escape_chunk d chunk) = Ok d' /\
    holds n d' (escaped (take (k + 32) src)).
Proof.
  intros Hn Hk Hd. unfold _mm256_loadu_si256. rewrite slice_ok, Nat2Z.id by lia. cbn [mbind res_bind].
  change (Z.to_nat 32) with 32%nat.
  pose proof (length_escaped (take k src)) as Hle. rewrite length_take in Hle.
  rewrite <- take_take_drop, escaped_app.
  apply escape_chunk_spec; [done | lia | rewrite length_take, length_drop; lia].
Qed.

Lemma escape_char_spec n d out v :
  holds n d out -> (length out + 2 <= n)%nat ->
  exists d', escape_char d v = Ok d' /\ holds n d' (out ++ escaped [v]).
Proof.
  intros Hd Hfit. unfold escape_char. fold (special v). rewrite escaped_one.
  destruct (holds_push n d out BACKSLASH) as (data & -> & D1); [done | lia |].
  cbn [mbind res_bind]. destruct (special v) eqn:E; cbn [Z.b2z].
  - destruct (holds_push n (mkDst data (d_length d + 1)) (out ++ [BACKSLASH]) v)
      as (data' & E' & D2); [done | rewrite length_app; cbn; lia |].
    cbn [d_data d_length] in E', D2. rewrite E'. cbn [mbind res_bind]. eexists. split; [done|].
    by rewrite <- app_assoc in D2.
  - destruct D1 as (Hn & Hl & Ht). cbn [d_data d_length] in *. rewrite length_app in Hl. cbn in Hl.
    destruct (holds_push n (mkDst data (d_length d)) out v) as (data' & E' & D2); [|lia|].
    { split_and!; [done | cbn; lia |]. cbn [d_data]. rewrite length_app in Ht.
      apply (f_equal (take (length out))) in Ht. rewrite take_app_length in Ht.
      by rewrite take_take, Nat.min_l in Ht by lia. }
    cbn [d_data d_length] in E', D2. rewrite Z.add_0_r, E'. cbn [mbind res_bind]. eexists.
    split; [done | exact D2].
Qed.

Lemma escape_char_step n src k d :
  (2 * length src <= n)%nat -> (k < length src)%nat -> holds n d (escaped (take k src)) ->
  exists d', (v ← src.[Z.of_nat k]; escape_char d v) = Ok d' /\ holds n d' (escaped (take (S k) src)).
Proof.
  intros Hn Hk Hd. destruct (lookup_lt_is_Some_2 src k) as [v Hv]; [lia|].
  rewrite (at_index_lookup src _ v) by (lia || by rewrite Nat2Z.id). cbn [mbind res_bind].
  pose proof (length_escaped (take k src)) as Hle. rewrite length_take in Hle.
  rewrite (take_S_r _ _ _ Hv), escaped_app. apply escape_char_spec; [done | lia].
Qed.

Lemma escape_avx2_spec src dst :
  (2 * length src <= length dst)%nat ->
  exists d, escape_avx2 src dst = Ok d /\ holds (length dst) d (escaped src).
Proof.
  intros Hn. unfold escape_avx2, views_all.
  set (R := fun k d => holds (length dst) d (escaped (take k src))).
  destruct (view_fold R (fun d addr => chunk ← _mm256_loadu_si256 src addr; escape_chunk d chunk)
    32 (length src)) with (a := 0%nat) (s := mkDst dst 0) as (d & E & Hd & Hle & _);
    [intros; by apply escape_vector_step | lia | lia | by split_and! |].
  rewrite Nat.sub_0_r in E, Hd, Hle. change (Z.of_nat 0) with 0 in E, Hd, Hle. rewrite E. cbn [mbind res_bind]. rewrite drop_seqZ.
  destruct (element_fold R (fun d addr => v ← src.[addr]; escape_char d v) (length src)
    _ d ltac:(intros; by apply escape_char_step) Hle Hd) as (d' & E' & Hd').
  exists d'. split; [exact E'|]. unfold R in Hd'. by rewrite take_ge in Hd'.
Qed.

Lemma scalar_char_spec n d out c :
  holds n d out -> (length out + 2 <= n)%nat ->
  exists d', scalar_char d c = Ok d' /\ holds n d' (out ++ escaped [c]).
Proof.
  intros Hd Hfit. unfold scalar_char. rewrite orb_comm. fold (special c). rewrite escaped_one.
  destruct (special c).
  - destruct (holds_push n d out BACKSLASH) as (data & -> & D1); [done | lia |].
    cbn [mbind res_bind].
    destruct (holds_push n (mkDst data (d_length d + 1)) (out ++ [BACKSLASH]) c)
      as (data' & E' & D2); [done | rewrite length_app; cbn; lia |].
    cbn [d_data d_length] in *. rewrite E'. cbn [mbind res_bind]. eexists. split; [done|].
    by rewrite <- app_assoc in D2.
  - cbn [mbind res_bind].
    destruct (holds_push n d out c) as (data & -> & D1); [done | lia |]. cbn [mbind res_bind]. eauto.
Qed.

Lemma escape_scalar_spec src dst :
  (2 * length src <= length dst)%nat ->
  exists d, escape_scalar src dst = Ok d /\ holds (length dst) d (escaped src).
Proof.
  intros Hn. unfold escape_scalar.
  enough (forall suf pre d, src = pre ++ suf -> holds (length dst) d (escaped pre) ->
    exists d', foldR scalar_char d suf = Ok d' /\ holds (length dst) d' (escaped src)) as H
    by (by apply (H src []); [|split_and!]).
  induction suf as [|c suf IH]; intros pre d E Hd.
  { exists d. by rewrite E, app_nil_r. }
  pose proof (length_escaped pre) as Hle. rewrite E, length_app in Hn. cbn [length] in Hn.
  cbn [foldR]. destruct (scalar_char_spec (length dst) d (escaped pre) c) as (d1 & -> & D1);
    [done | lia |].
  cbn [mbind res_bind]. rewrite <- escaped_app in D1. apply (IH (pre ++ [c])); [|done].
  by rewrite <- app_assoc.
Qed.
