(* ===== verification/SimdLookup.v ===== *)
(** * Table lookup of every byte

    src/simd/lookup.hpp: every byte of a range is replaced by the entry of a table
    of 256 bytes that it indexes.  A register holds 16 entries, so that the table is
    in 16 registers; each is looked up by the low four bits, and the results are
    blended pairwise by bits 4 to 7 until one is left. *)

From S2P Require Import Prelude Bytes Simd SimdView.
From stdpp Require Import list_relations list.
From S2P Require Import SimdLanes.
#[local] Open Scope Z_scope.

(** The contents of [__m256i arenas[8]] before its first use: indeterminate. *)
Section lookup.
Context (indeterminate : list (list Z)).

(** [luts]: the table, 16 bytes in both halves of each register. *)
Definition load_luts (lookup_table : list Z) : res (list (list Z)) :=
  foldR (fun luts Index =>
    buffer128 ← _mm_loadu_si128 lookup_table (16 * Index);
    Ok (luts ++ [_mm256_broadcastsi128_si256 buffer128])) [] (seqZ 0 16).

(** The two operands of a blend: from the tables in the first round, then from the
    results of the round before. *)
Definition emit (luts : list (list Z)) (nibble : list Z) (round : Z) (arenas : list (list Z)) (i : Z) :
    res (list Z) :=
  if 0 <? round then arenas.[i] else lut ← luts.[i]; Ok (_mm256_shuffle_epi8 lut nibble).

Definition tree_level (em : list (list Z) -> Z -> res (list Z)) (blend_mask : list Z)
    (arenas : list (list Z)) (Level : Z) : res (list (list Z)) :=
  lo ← em arenas (Level * 2);
  hi ← em arenas (Level * 2 + 1);
  arenas.[Level <- _mm256_blendv_epi8 hi lo blend_mask].

(** The body of for_each_bit. *)
Definition tree_round (luts : list (list Z)) (full nibble : list Z) (arenas : list (list Z))
    (Bit : Z) : res (list (list Z)) :=
  let bit_shift := s8 (Z.shiftl 1 Bit) in
  let test1 := _mm256_and_si256 full (_mm256_set1_epi8 bit_shift) in
  let blend_mask := _mm256_cmpeq_epi8 test1 _mm256_setzero_si256 in
  let round := Bit - 4 in
  let tree_depth := Z.shiftr 8 round in
  foldR (tree_level (emit luts nibble round) blend_mask) arenas (seqZ 0 tree_depth).

(** The vector at [simd_addr] is replaced. *)
Definition reduce (luts : list (list Z)) (arenas : list (list Z)) (mem : list Z) (simd_addr : Z) :
    res (list (list Z) * list Z) :=
  full ← _mm256_loadu_si256 mem simd_addr;
  let nibble := _mm256_and_si256 full (_mm256_set1_epi8 15) in
  arenas ← foldR (tree_round luts full nibble) arenas (seqZ 4 4);
  result ← arenas.[0];
  mem ← _mm256_storeu_si256 mem simd_addr result;
  Ok (arenas, mem).

Definition scalar_step (lookup_table mem : list Z) (addr : Z) : res (list Z) :=
  v ← mem.[addr]; x ← lookup_table.[v]; mem.[addr <- x].

(** ** lookup_ilp *)

(** process_simd with [constexpr_for<0, n>]: [n] vectors from each address on, each
    with arenas of its own. *)
Definition process_simd (luts : list (list Z)) (n : nat) (mem : list Z) (simd_view : list Z) :
    res (list Z) :=
  foldR (fun mem addr =>
    foldR (fun mem Index => snd <$> reduce luts indeterminate mem (addr + 32 * Index)) mem
      (seqZ 0 (Z.of_nat n))) mem simd_view.

Definition lookup_ilp (ILP : nat) (source lookup_table : list Z) : res (list Z) :=
  _ ← check (256 <=? Z.of_nat (length lookup_table)) AssertFailed;
  luts ← load_luts lookup_table;
  let bulk_simd_view := simdify ILP (simdify 32 (views_all source)) in
  mem ← process_simd luts ILP source bulk_simd_view;
  let rest := drop (ILP * 32 * length bulk_simd_view) (views_all source) in
  let single_simd_view := simdify 32 rest in
  mem ← process_simd luts 1 mem single_simd_view;
  let scalar_view := drop (32 * length single_simd_view) rest in
  foldR (scalar_step lookup_table) mem scalar_view.

(** ** lookup_avx2 *)

(** The arenas are kept from vector to vector. *)
Definition lookup_avx2 (source lookup_table : list Z) : res (list Z) :=
  _ ← check (256 <=? Z.of_nat (length lookup_table)) AssertFailed;
  luts ← load_luts lookup_table;
  let simd_view := simdify 32 (views_all source) in
  '(_, mem) ← foldR (fun '(arenas, mem) addr => reduce luts arenas mem addr)
                (indeterminate, source) simd_view;
  let scalar_view := drop (32 * length simd_view) (views_all source) in
  foldR (scalar_step lookup_table) mem scalar_view.

(** ** lookup_scalar *)

Definition lookup_scalar (rng lut : list Z) : res (list Z) :=
  foldR (scalar_step lut) rng (views_all rng).
End lookup.

(** * Table lookup of every byte: the tree of blends selects the entry *)
#[local] Open Scope Z_scope.

Section lookup_proofs.
Context (table : list Z) (Htable : (256 <= length table)%nat).

(** The entry of a byte. *)
Definition entry (c : Z) : Z := nth (Z.to_nat c) table 0.

(** The entry that the registers with number [L] hold after [r] rounds: bits 4 to
    [3 + r] of the byte have been used. *)
Definition partial (r L c : Z) : Z :=
  nth (Z.to_nat ((L * 2 ^ r + c / 16 mod 2 ^ r) * 16 + c mod 16)) table 0.

Lemma partial_all c : byte c -> partial 4 0 c = entry c.
Proof.
  intros Hc. unfold partial, entry, byte in *. do 2 f_equal. change (2 ^ 4) with 16. div_lia.
Qed.

(** A round. *)
Lemma tree_partial_step r L c :
  0 <= r < 4 -> byte c ->
  (if Z.testbit c (4 + r) then partial r (L * 2 + 1) c else partial r (L * 2) c) =
  partial (r + 1) L c.
Proof.
  intros Hr Hc. unfold partial.
  assert (c / 16 mod 2 ^ (r + 1) = Z.b2z (Z.testbit c (4 + r)) * 2 ^ r + c / 16 mod 2 ^ r) as ->.
  { assert (r = 0 \/ r = 1 \/ r = 2 \/ r = 3) as [->|[->|[->| ->]]] by lia;
      apply Z.eqb_eq; revert c Hc; by apply range_check. }
  rewrite Z.pow_add_r, Z.pow_1_r by lia.
  destruct (Z.testbit c (4 + r)); cbn [Z.b2z]; do 2 f_equal; lia.
Qed.

Lemma luts_spec :
  exists luts, load_luts table = Ok luts /\ length luts = 16%nat /\
    forall i, 0 <= i < 16 -> luts.[i] = Ok (take 16 (drop (Z.to_nat (16 * i)) table) ++
                                           take 16 (drop (Z.to_nat (16 * i)) table)).
Proof.
  unfold load_luts.
  set (lut := fun i => take 16 (drop (Z.to_nat (16 * i)) table)).
  enough (forall k j acc, Z.of_nat k + Z.of_nat j = 16 -> acc = (fun i => lut i ++ lut i) <$> seqZ 0 (Z.of_nat k) ->
    foldR (fun luts Index => buffer128 ← _mm_loadu_si128 table (16 * Index);
      Ok (luts ++ [_mm256_broadcastsi128_si256 buffer128])) acc (seqZ (Z.of_nat k) (Z.of_nat j)) =
    Ok ((fun i => lut i ++ lut i) <$> seqZ 0 16)) as H.
  { eexists. split; [apply (H 0%nat 16%nat []); done|]. split; [done|]. intros i Hi.
    apply at_index_lookup; [lia|]. rewrite list_lookup_fmap, lookup_seqZ_lt by lia.
    cbn [fmap option_fmap option_map]. by rewrite Z2Nat.id, Z.add_0_l by lia. }
  intros k j. revert k. induction j as [|j IH]; intros k acc Hk ->.
  { cbn [foldR seqZ]. by replace (Z.of_nat k) with 16 by lia. }
  rewrite (seqZ_cons (Z.of_nat k)) by lia. cbn [foldR].
  assert (_mm_loadu_si128 table (16 * Z.of_nat k) = Ok (lut (Z.of_nat k))) as ->.
  { unfold _mm_loadu_si128. by rewrite slice_ok by lia. }
  cbn [mbind res_bind].
  replace (Z.succ (Z.of_nat k)) with (Z.of_nat (S k)) by lia.
  replace (Z.pred (Z.of_nat (S j))) with (Z.of_nat j) by lia.
  apply IH; [lia|]. rewrite Nat2Z.inj_succ, <- Z.add_1_r, seqZ_app, fmap_app by lia. done.
Qed.

(** ** A round of blends *)

(** [E i] are the operands; a level reads what the levels before it have not
    overwritten. *)
Lemma tree_fold em (E : Z -> list Z) mask depth arenas :
  length arenas = 8%nat -> (depth <= 8)%nat ->
  (forall arenas' i, 0 <= i < 2 * Z.of_nat depth -> length arenas' = 8%nat ->
     (forall j, (Z.to_nat (i / 2) <= j)%nat -> arenas' !! j = arenas !! j) ->
     em arenas' i = Ok (E i)) ->
  exists arenas', foldR (tree_level em mask) arenas (seqZ 0 (Z.of_nat depth)) = Ok arenas' /\
    length arenas' = 8%nat /\
    forall L, 0 <= L < Z.of_nat depth ->
      arenas'.[L] = Ok (_mm256_blendv_epi8 (E (L * 2 + 1)) (E (L * 2)) mask).
Proof.
  intros Hl Hd Hem.
  enough (forall j k cur, (k + j = depth)%nat -> length cur = 8%nat ->
    (forall i, (k <= i)%nat -> cur !! i = arenas !! i) ->
    (forall L, 0 <= L < Z.of_nat k -> cur.[L] = Ok (_mm256_blendv_epi8 (E (L * 2 + 1)) (E (L * 2)) mask)) ->
    exists arenas', foldR (tree_level em mask) cur (seqZ (Z.of_nat k) (Z.of_nat j)) = Ok arenas' /\
      length arenas' = 8%nat /\ forall L, 0 <= L < Z.of_nat depth ->
        arenas'.[L] = Ok (_mm256_blendv_epi8 (E (L * 2 + 1)) (E (L * 2)) mask)) as H.
  { apply (H depth 0%nat arenas); [done | done | done | lia]. }
  intros j. induction j as [|j IH]; intros k cur Hk Hcl Hold Hnew.
  { exists cur. split_and!; [done..|]. intros L HL. apply Hnew. lia. }
  rewrite seqZ_cons by lia. cbn [foldR].
  assert (tree_level em mask cur (Z.of_nat k) = Ok (<[k := _mm256_blendv_epi8
    (E (Z.of_nat k * 2 + 1)) (E (Z.of_nat k * 2)) mask]> cur)) as ->.
  { unfold tree_level. rewrite !(Hem cur) by (try lia; intros i Hi; apply Hold; div_lia).
    cbn [mbind res_bind]. by rewrite set_index_ok, Nat2Z.id by lia. }
  cbn [mbind res_bind].
  replace (Z.succ (Z.of_nat k)) with (Z.of_nat (S k)) by lia.
  replace (Z.pred (Z.of_nat (S j))) with (Z.of_nat j) by lia.
  apply IH; [lia | by rewrite length_insert | |].
  - intros i Hi. rewrite list_lookup_insert_ne by lia. apply Hold. lia.
  - intros L HL. destruct (decide (L = Z.of_nat k)) as [->|Hne].
    + apply at_index_lookup; [lia|]. rewrite Nat2Z.id. apply list_lookup_insert_eq. lia.
    + specialize (Hnew L ltac:(lia)). apply at_index_inv in Hnew as [? Hnew].
      apply at_index_lookup; [lia|]. by rewrite list_lookup_insert_ne by lia.
Qed.

(** The mask of a round has the lanes whose bit is not set. *)
Lemma round_mask full Bit :
  length full = 32%nat -> 4 <= Bit < 8 ->
  sign_bit <$> _mm256_cmpeq_epi8 (_mm256_and_si256 full (_mm256_set1_epi8 (s8 (Z.shiftl 1 Bit))))
    _mm256_setzero_si256 = (fun c => negb (Z.testbit c Bit)) <$> full.
Proof.
  intros Hl HB. unfold _mm256_cmpeq_epi8, _mm256_and_si256, _mm256_set1_epi8, _mm256_setzero_si256.
  assert (u8 (s8 (Z.shiftl 1 Bit)) = 2 ^ Bit) as ->.
  { rewrite uwrap_swrap, Z.shiftl_1_l by lia. apply uwrap_id. split; [apply Z.pow_nonneg; lia|].
    apply Z.pow_lt_mono_r; lia. }
  rewrite (zip_with_const_id Z.land), zip_with_const by done. rewrite <- list_fmap_compose.
  apply list_fmap_ext. intros i c _. unfold compose. rewrite land_pow2_zero by lia.
  by destruct (Z.testbit c Bit).
Qed.

Section vector.
Context (luts : list (list Z)) (full : list Z).
Context (Hluts : forall i, 0 <= i < 16 ->
  luts.[i] = Ok (take 16 (drop (Z.to_nat (16 * i)) table) ++ take 16 (drop (Z.to_nat (16 * i)) table))).
Context (Hfull : length full = 32%nat) (Hbytes : Forall byte full).

Let nibble : list Z := _mm256_and_si256 full (_mm256_set1_epi8 15).

(** The operands of round [r]. *)
Lemma emit_spec r arenas i :
  0 <= r < 4 -> 0 <= i < 2 ^ (4 - r) ->
  (0 < r -> arenas.[i] = Ok (partial r i <$> full)) ->
  emit luts nibble r arenas i = Ok (partial r i <$> full).
Proof.
  intros Hr Hi Ha. unfold emit. destruct (Z.ltb_spec 0 r); [by apply Ha|].
  assert (r = 0) as -> by lia. change (2 ^ (4 - 0)) with 16 in Hi.
  rewrite Hluts by lia. cbn [mbind res_bind]. f_equal.
  unfold nibble, _mm256_and_si256, _mm256_set1_epi8. change (u8 15) with 15.
  rewrite zip_with_const_id, shuffle_fmap by (done || (rewrite length_take, length_drop; lia)).
  apply fmap_bytes; [done|]. intros c Hc. unfold partial, shuffle_byte, byte in *.
  assert (sign_bit (Z.land c 15) = false) as ->.
  { apply negb_true_iff. revert c Hc. by apply range_check. }
  rewrite !land_15, Z.mod_mod by done. rewrite Z.pow_0_r, Z.mod_1_r, Z.mul_1_r, Z.add_0_r.
  rewrite !nth_lookup, lookup_take_lt, lookup_drop by div_lia. do 2 f_equal. div_lia.
Qed.

Lemma tree_round_spec r arenas :
  0 <= r < 4 -> length arenas = 8%nat ->
  (0 < r -> forall i, 0 <= i < 2 ^ (4 - r) -> arenas.[i] = Ok (partial r i <$> full)) ->
  exists arenas', tree_round luts full nibble arenas (4 + r) = Ok arenas' /\ length arenas' = 8%nat /\
    forall L, 0 <= L < 2 ^ (3 - r) -> arenas'.[L] = Ok (partial (r + 1) L <$> full).
Proof.
  intros Hr Hl Ha. unfold tree_round. replace (4 + r - 4) with r by lia.
  assert (Z.shiftr 8 r = Z.of_nat (Z.to_nat (2 ^ (3 - r))) /\ 2 ^ (4 - r) = 2 * 2 ^ (3 - r) /\
    2 ^ (3 - r) <= 8) as (-> & Ep & Hp).
  { assert (r = 0 \/ r = 1 \/ r = 2 \/ r = 3) as [->|[->|[->| ->]]] by lia; done. }
  set (mask := _mm256_cmpeq_epi8 _ _).
  destruct (tree_fold (emit luts nibble r) (fun i => partial r i <$> full) mask
    (Z.to_nat (2 ^ (3 - r))) arenas) as (arenas' & E & Hl' & Hv); [done | lia | |].
  - intros arenas' i Hi Hl' Hsame. apply emit_spec; [done | lia |]. intros Hr0.
    specialize (Ha Hr0 i ltac:(lia)). apply at_index_inv in Ha as [? Ha].
    apply at_index_lookup; [lia|]. rewrite Hsame; [done|]. div_lia.
  - exists arenas'. split; [done|]. split; [done|]. intros L HL. rewrite Hv by lia. f_equal.
    unfold _mm256_blendv_epi8, mask.
    rewrite (blendv_fmap _ _ (fun c => negb (Z.testbit c (4 + r)))) by (apply round_mask; [done | lia]).
    apply fmap_bytes; [done|]. intros c Hc. rewrite <- tree_partial_step by done.
    by destruct (Z.testbit c (4 + r)).
Qed.

Lemma reduce_spec arenas mem addr :
  length arenas = 8%nat -> _mm256_loadu_si256 mem addr = Ok full ->
  exists arenas', length arenas' = 8%nat /\
    reduce luts arenas mem addr =
      (mem ← _mm256_storeu_si256 mem addr (entry <$> full); Ok (arenas', mem)).
Proof.
  intros Hl E. unfold reduce. rewrite E. cbn [mbind res_bind]. fold nibble.
  change (seqZ 4 4) with [4 + 0; 4 + 1; 4 + 2; 4 + 3]. cbn [foldR].
  destruct (tree_round_spec 0 arenas) as (a1 & -> & L1 & H1); [lia | done | lia |].
  cbn [mbind res_bind].
  destruct (tree_round_spec 1 a1) as (a2 & -> & L2 & H2); [lia | done | intros _; apply H1 |].
  cbn [mbind res_bind].
  destruct (tree_round_spec 2 a2) as (a3 & -> & L3 & H3); [lia | done | intros _; apply H2 |].
  cbn [mbind res_bind].
  destruct (tree_round_spec 3 a3) as (a4 & -> & L4 & H4); [lia | done | intros _; apply H3 |].
  cbn [mbind res_bind]. rewrite H4 by (cbn; lia). cbn [mbind res_bind].
  exists a4. split; [done|]. by rewrite (fmap_bytes (partial (3 + 1) 0) entry) by (try done; apply partial_all).
Qed.
End vector.

(** ** The range *)

(** The first [k] bytes of [src] have been replaced. *)
Definition replaced (src : list Z) (k : nat) : list Z := (entry <$> take k src) ++ drop k src.

Lemma length_replaced src k : length (replaced src k) = length src.
Proof. unfold replaced. rewrite length_app, length_fmap, length_take, length_drop. lia. Qed.

Lemma reduce_replaced luts src arenas k :
  (forall i, 0 <= i < 16 -> luts.[i] =
     Ok (take 16 (drop (Z.to_nat (16 * i)) table) ++ take 16 (drop (Z.to_nat (16 * i)) table))) ->
  Forall byte src -> length arenas = 8%nat -> (k + 32 <= length src)%nat ->
  exists arenas', length arenas' = 8%nat /\
    reduce luts arenas (replaced src k) (Z.of_nat k) = Ok (arenas', replaced src (k + 32)).
Proof.
  intros Hluts Hb Hl Hk. set (full := take 32 (drop k src)).
  assert (length (entry <$> take k src) = k) as Hek by (rewrite length_fmap, length_take; lia).
  assert (length full = 32%nat) as Hf by (unfold full; rewrite length_take, length_drop; lia).
  assert (_mm256_loadu_si256 (replaced src k) (Z.of_nat k) = Ok full) as E.
  { unfold _mm256_loadu_si256. rewrite slice_ok by (rewrite ?length_replaced; lia).
    unfold replaced. rewrite Nat2Z.id, drop_app_length' by done. done. }
  destruct (reduce_spec luts full Hluts Hf ltac:(by apply Forall_take, Forall_drop) arenas
    (replaced src k) (Z.of_nat k) Hl E) as (arenas' & Hl' & ->).
  exists arenas'. split; [done|]. unfold _mm256_storeu_si256, write_bytes.
  rewrite length_fmap, Hf, length_replaced, !(proj2 (Z.leb_le _ _)) by lia. cbn [andb mbind res_bind].
  do 2 f_equal. unfold replaced. rewrite Nat2Z.id, take_app_length' by done.
  rewrite (drop_app_ge _ _ (k + 32)) by lia. rewrite Hek, drop_drop.
  replace (k + (k + 32 - k))%nat with (k + 32)%nat by lia.
  rewrite app_assoc, <- fmap_app. unfold full. rewrite take_take_drop. done.
Qed.

Lemma scalar_replaced src k c :
  src !! k = Some c -> byte c -> scalar_step table (replaced src k) (Z.of_nat k) = Ok (replaced src (S k)).
Proof.
  intros Hc Hb. apply lookup_lt_Some in Hc as Hk. unfold scalar_step, byte in *.
  assert (length (entry <$> take k src) = k) as Hek by (rewrite length_fmap, length_take; lia).
  rewrite (at_index_lookup _ _ c); [|lia|].
  2: { unfold replaced. rewrite Nat2Z.id, lookup_app_r by lia. rewrite Hek, Nat.sub_diag.
       rewrite lookup_drop, Nat.add_0_r. done. }
  cbn [mbind res_bind]. destruct (at_index_ok table c) as (x & -> & Hx); [lia|].
  cbn [mbind res_bind]. rewrite set_index_ok by (rewrite length_replaced; lia). f_equal.
  unfold replaced. rewrite Nat2Z.id, (drop_S _ _ _ Hc), (take_S_r _ _ _ Hc), fmap_app.
  rewrite insert_app_r_alt by lia. rewrite Hek, Nat.sub_diag. cbn. rewrite <- app_assoc. cbn.
  do 2 f_equal. unfold entry. symmetry. by apply nth_lookup_Some.
Qed.

Lemma replaced_all src : replaced src (length src) = entry <$> src.
Proof. unfold replaced. by rewrite take_ge, drop_ge, app_nil_r. Qed.

(** The state of the loops: the arenas and the memory. *)
Definition progress (src : list Z) (k : nat) (s : list (list Z) * list Z) : Prop :=
  length s.1 = 8%nat /\ s.2 = replaced src k.

Lemma scalar_rest src k mem :
  Forall byte src -> (k <= length src)%nat -> mem = replaced src k ->
  foldR (scalar_step table) mem (seqZ (Z.of_nat k) (Z.of_nat (length src - k))) = Ok (entry <$> src).
Proof.
  intros Hb Hk ->.
  destruct (element_fold (fun k mem => mem = replaced src k) (scalar_step table) (length src) k
    (replaced src k)) as (s' & E & ->); [|done | done |].
  - intros i s Hi ->. destruct (lookup_lt_is_Some_2 src i) as [c Hc]; [done|].
    eexists. split; [|done]. apply (scalar_replaced src i c); [done|]. by eapply Forall_lookup.
  - by rewrite E, replaced_all.
Qed.

Lemma lookup_scalar_spec src : Forall byte src -> lookup_scalar src table = Ok (entry <$> src).
Proof.
  intros Hb. unfold lookup_scalar, views_all. rewrite <- (Nat.sub_0_r (length src)) at 1.
  apply (scalar_rest src 0); [done | lia |]. done.
Qed.

Lemma table_assert : (256 <=? Z.of_nat (length table)) = true.
Proof. apply Z.leb_le. lia. Qed.

Lemma lookup_avx2_spec indeterminate src :
  length indeterminate = 8%nat -> Forall byte src ->
  lookup_avx2 indeterminate src table = Ok (entry <$> src).
Proof.
  intros Hl Hb. unfold lookup_avx2, views_all. rewrite table_assert. cbn [check mbind res_bind].
  destruct luts_spec as (luts & -> & _ & Hluts). cbn [mbind res_bind].
  destruct (view_fold (progress src) (fun '(arenas, mem) addr => reduce luts arenas mem addr)
    32 (length src)) with (a := 0%nat) (s := (indeterminate, src)) as ([arenas mem] & E & [_ Hd] & Hle & _);
    [|lia | lia | by split |].
  - intros k [arenas mem] Hk [Ha Hm]. cbn [fst snd] in Ha, Hm. subst mem.
    destruct (reduce_replaced luts src arenas k Hluts Hb Ha Hk) as (arenas' & Ha' & E).
    exists (arenas', replaced src (k + 32)). by split.
  - rewrite Nat.sub_0_r in E, Hd, Hle. change (Z.of_nat 0) with 0 in E, Hd, Hle. rewrite E. cbn [mbind res_bind]. rewrite drop_seqZ.
    by apply scalar_rest.
Qed.

Lemma process_simd_spec indeterminate luts src g a mem :
  (forall i, 0 <= i < 16 -> luts.[i] =
     Ok (take 16 (drop (Z.to_nat (16 * i)) table) ++ take 16 (drop (Z.to_nat (16 * i)) table))) ->
  length indeterminate = 8%nat -> Forall byte src -> (0 < g)%nat -> (a <= length src)%nat ->
  mem = replaced src a ->
  let v := simdify (g * 32) (seqZ (Z.of_nat a) (Z.of_nat (length src - a))) in
  process_simd indeterminate luts g mem v = Ok (replaced src (a + g * 32 * length v)) /\
  (a + g * 32 * length v <= length src)%nat.
Proof.
  intros Hluts Hl Hb Hg Ha -> v. unfold process_simd.
  destruct (view_fold (fun k mem => mem = replaced src k) (fun mem addr =>
    foldR (fun mem Index => snd <$> reduce luts indeterminate mem (addr + 32 * Index)) mem
      (seqZ 0 (Z.of_nat g))) (g * 32) (length src)) with (a := a) (s := replaced src a)
    as (mem' & E & -> & Hle & _); [|lia | done | done | by split].
  intros k s Hk ->. rewrite (Nat.mul_comm g) in *.
  apply (group_fold (fun k mem => mem = replaced src k)
    (fun mem addr => snd <$> reduce luts indeterminate mem addr) 32 (length src)); [|done | done].
  intros i s Hi ->.
  destruct (reduce_replaced luts src indeterminate i Hluts Hb Hl Hi) as (arenas' & _ & ->). by eexists.
Qed.

Lemma lookup_ilp_spec indeterminate ILP src :
  length indeterminate = 8%nat -> (0 < ILP)%nat -> Forall byte src ->
  lookup_ilp indeterminate ILP src table = Ok (entry <$> src).
Proof.
  intros Hl HI Hb. unfold lookup_ilp, views_all. rewrite table_assert. cbn [check mbind res_bind].
  destruct luts_spec as (luts & -> & _ & Hluts). cbn [mbind res_bind].
  rewrite simdify_simdify by lia.
  destruct (process_simd_spec indeterminate luts src ILP 0 src) as [E1 L1]; [done.. | lia | done |].
  rewrite Nat.sub_0_r in E1, L1. change (Z.of_nat 0) with 0 in E1, L1. rewrite E1. cbn [mbind res_bind].
  set (k := (ILP * 32 * length (simdify (ILP * 32) (seqZ 0 (Z.of_nat (length src)))))%nat) in *.
  rewrite Nat.add_0_l in *. rewrite drop_seqZ, Z.add_0_l.
  destruct (process_simd_spec indeterminate luts src 1 k (replaced src k)) as [E2 L2]; [done | done | done | lia | done | done |].
  rewrite Nat.mul_1_l in E2, L2. rewrite E2. cbn [mbind res_bind]. rewrite drop_seqZ.
  rewrite <- Nat2Z.inj_add, <- Nat.sub_add_distr. by apply scalar_rest.
Qed.
End lookup_proofs.
