(* ===== verification/SimdScan.v ===== *)
(** * Prefix sums and sums

    src/simd/scan.hpp and src/simd/reduce.hpp: the prefix sums of an array of [int],
    in place, and its sum, with eight lanes of 32 bits; and the scalar loop that
    src/simd/scan_benchmark.cpp measures them against.  The lanes wrap around; the
    scalar additions of [int] are undefined when they overflow. *)

From S2P Require Import Prelude Bytes Simd SimdView.
From stdpp Require Import list_relations list.
From S2P Require Import SimdLanes.
#[local] Open Scope Z_scope.

Definition int_lane : nat := 8.

(** [std::plus] of [int]. *)
Definition plus_int (x y : Z) : res Z := _ ← check (sfits 32 (x + y)) SignedOverflow; Ok (x + y).

(** [std::ranges::fold_left(r, init, std::plus())]. *)
Definition fold_left_plus (r : list Z) (init : Z) : res Z := foldR plus_int init r.

(** A turn of [std::inclusive_scan] in place: the sum so far and the memory. *)
Definition scan_element (s : Z * list Z) (addr : Z) : res (Z * list Z) :=
  let '(acc, mem) := s in
  v ← mem.[addr]; acc ← plus_int acc v; mem ← mem.[addr <- acc]; Ok (acc, mem).

Definition inclusive_scan (mem : list Z) (view : list Z) (init : Z) : res (list Z) :=
  snd <$> foldR scan_element (init, mem) view.

(** The lane 7 in all lanes. *)
Definition get_carry (result : list Z) : list Z :=
  let buffer := _mm256_permute4x64_epi64 result (_MM_SHUFFLE 3 3 3 3) in
  _mm256_shuffle_epi32 buffer (_MM_SHUFFLE 1 1 1 1).

(** ** scan_ilp *)

Module scan_ilp.

(** The prefix sums of the lanes of one register. *)
Definition inner_scan (v1 : list Z) : list Z :=
  let s1 := _mm256_slli_si256 v1 4 in
  let v2 := _mm256_add_epi32 v1 s1 in
  let s2 := _mm256_slli_si256 v2 8 in
  let v3 := _mm256_add_epi32 v2 s2 in
  let lo := _mm256_castsi256_si128 v3 in
  let hi := _mm256_extracti128_si256 v3 1 in
  let lo_fixed := _mm_shuffle_epi32 lo (_MM_SHUFFLE 3 3 3 3) in
  let hi_fixed := _mm_add_epi32 hi lo_fixed in
  _mm256_set_m128i hi_fixed lo.

(** What process_simd works on: the memory, the carried sum and the two arrays. *)
Record State : Type := mkState {
  mem : list Z; sum : list Z; results : list (list Z); carries : list (list Z)
}.

Definition load_result (addr : Z) (s : State) (Index : Z) : res State :=
  loadu ← load_epi32 (mem s) (addr + Index * 8);
  r ← (results s).[Index <- inner_scan loadu];
  Ok (mkState (mem s) (sum s) r (carries s)).

Definition set_carry (s : State) (Index : Z) : res State :=
  x ← (results s).[Index];
  c ← (carries s).[Index <- get_carry x];
  Ok (mkState (mem s) (sum s) (results s) c).

Definition store_result (addr : Z) (s : State) (Index : Z) : res State :=
  x ← (results s).[Index];
  let result := _mm256_add_epi32 x (sum s) in
  m ← store_epi32 (mem s) (addr + Index * 8) result;
  c ← (carries s).[Index];
  Ok (mkState m (_mm256_add_epi32 (sum s) c) (results s) (carries s)).

(** The body of the loop of process_simd with [static_for] from 0 to [size]. *)
Definition process_group (size : nat) (s : State) (addr : Z) : res State :=
  let static_for := seqZ 0 (Z.of_nat size) in
  s ← foldR (load_result addr) s static_for;
  s ← foldR set_carry s static_for;
  foldR (store_result addr) s static_for.

Definition process_simd (size : nat) (simd_view : list Z) (mem sum : list Z) : res State :=
  let zeros := replicate size _mm256_setzero_si256 in
  foldR (process_group size) (mkState mem sum zeros zeros) simd_view.

Definition scan (ILP : nat) (rng : list Z) : res (list Z) :=
  let bulk := (ILP * int_lane)%nat in
  let bulk_simd_view := simdify ILP (simdify int_lane (views_all rng)) in
  s ← process_simd ILP bulk_simd_view rng _mm256_setzero_si256;
  let rest := drop (bulk * length bulk_simd_view) (views_all rng) in
  let single_simd_view := simdify int_lane rest in
  s ← process_simd 1 single_simd_view (mem s) (sum s);
  let scalar_view := drop (int_lane * length single_simd_view) rest in
  inclusive_scan (mem s) scalar_view (_mm256_cvtsi256_si32 (sum s)).
End scan_ilp.

(** ** scan_avx2 *)

Module scan_avx2.

Definition inner_scan (v1 : list Z) : list Z :=
  let s1 := _mm256_slli_si256 v1 4 in
  let v2 := _mm256_add_epi32 v1 s1 in
  let s2 := _mm256_slli_si256 v2 8 in
  let v3 := _mm256_add_epi32 v2 s2 in
  let p3 := _mm256_permute4x64_epi64 v3 (_MM_SHUFFLE 1 1 1 1) in
  let s3 := _mm256_shuffle_epi32 p3 (_MM_SHUFFLE 3 3 3 3) in
  let a3 := _mm256_add_epi32 v3 s3 in
  _mm256_blend_epi32 v3 a3 240.

Definition body (s : list Z * list Z) (addr : Z) : res (list Z * list Z) :=
  let '(mem, sum) := s in
  block_v ← load_epi32 mem addr;
  let result := inner_scan block_v in
  let carry := get_carry result in
  let result := _mm256_add_epi32 result sum in
  mem ← store_epi32 mem addr result;
  Ok (mem, _mm256_add_epi32 sum carry).

Definition scan (rng : list Z) : res (list Z) :=
  let single_simd_view := simdify int_lane (views_all rng) in
  '(mem, sum) ← foldR body (rng, _mm256_setzero_si256) single_simd_view;
  let scalar_view := drop (int_lane * length single_simd_view) (views_all rng) in
  inclusive_scan mem scalar_view (_mm256_cvtsi256_si32 sum).
End scan_avx2.

(** ** tusenpo *)

Definition tusenpo (rng : list Z) : res (list Z) :=
  '(_, mem) ← foldR (fun s addr => let '(sum, mem) := s in
      v ← mem.[addr]; sum ← plus_int sum v; mem ← mem.[addr <- sum]; Ok (sum, mem))
    (0, rng) (views_all rng);
  Ok mem.

(** ** sum_avx2 *)

Definition sum_avx2 (rng : list Z) : res Z :=
  let simd_view := simdify int_lane (views_all rng) in
  partial_sum ← foldR (fun partial_sum addr =>
      loadu ← load_epi32 rng addr; Ok (_mm256_add_epi32 partial_sum loadu))
    _mm256_setzero_si256 simd_view;
  let scalar_view := drop (int_lane * length simd_view) (views_all rng) in
  scalars ← foldR (fun l addr => v ← rng.[addr]; Ok (l ++ [v])) [] scalar_view;
  sum ← fold_left_plus scalars 0;
  temp ← store_epi32 (replicate int_lane 0) 0 partial_sum;
  fold_left_plus temp sum.

(** ** sum_avx2_ilp *)

Definition sum_group (size : nat) (rng : list Z) (partial_sum : list (list Z)) (addr : Z) :
    res (list (list Z)) :=
  foldR (fun partial_sum Index =>
    partial ← partial_sum.[Index];
    loadu ← load_epi32 rng (addr + Index * 8);
    partial_sum.[Index <- _mm256_add_epi32 partial loadu]) partial_sum (seqZ 0 (Z.of_nat size)).

Definition sum_avx2_ilp (ILP : nat) (rng : list Z) : res Z :=
  let bulk := (int_lane * ILP)%nat in
  let bulk_simd_view := simdify ILP (simdify int_lane (views_all rng)) in
  partial_sum ← foldR (sum_group ILP rng) (replicate ILP _mm256_setzero_si256) bulk_simd_view;
  let rest := drop (bulk * length bulk_simd_view) (views_all rng) in
  let single_simd_view := simdify int_lane rest in
  partial_sum ← foldR (sum_group 1 rng) partial_sum single_simd_view;
  let scalar_view := drop (int_lane * length single_simd_view) rest in
  scalars ← foldR (fun l addr => v ← rng.[addr]; Ok (l ++ [v])) [] scalar_view;
  sum ← fold_left_plus scalars 0;
  partial_sum ← foldR (fun partial_sum Index =>
      x ← partial_sum.[0]; y ← partial_sum.[Index];
      partial_sum.[0 <- _mm256_add_epi32 x y]) partial_sum (seqZ 1 (Z.of_nat ILP - 1));
  x ← partial_sum.[0];
  temp ← store_epi32 (replicate int_lane 0) 0 x;
  fold_left_plus temp sum.

(** * Prefix sums and sums: lanes add up *)
#[local] Open Scope Z_scope.

(** ** 32-bit lanes *)

Lemma le_bytes_u32 x : le_bytes 4 (u32 x) = le_bytes 4 x.
Proof. apply (le_bytes_uwrap 4 x). Qed.

Lemma of_epi32_u32 l : of_epi32 (uwrap 32 <$> l) = of_epi32 l.
Proof.
  unfold of_epi32. induction l as [|x l IH]; [done|]. rewrite fmap_cons, !bind_cons, IH.
  by rewrite le_bytes_u32.
Qed.

Lemma epi32_of l : epi32 (of_epi32 l) = uwrap 32 <$> l.
Proof.
  unfold of_epi32. induction l as [|x l IH]; [done|]. rewrite bind_cons, fmap_cons, <- IH.
  change (le_value (le_bytes 4 x) :: epi32 (l ≫= le_bytes 4) = u32 x :: epi32 (l ≫= le_bytes 4)).
  by rewrite (le_value_bytes 4 x).
Qed.

(** Addition of registers is addition of their lanes, modulo [2 ^ 32]. *)
Lemma add_epi32_of l1 l2 :
  _mm256_add_epi32 (of_epi32 l1) (of_epi32 l2) = of_epi32 (zip_with Z.add l1 l2).
Proof.
  unfold _mm256_add_epi32, _mm_add_epi32. rewrite !epi32_of, <- (of_epi32_u32 (zip_with Z.add l1 l2)).
  f_equal. revert l2. induction l1 as [|x l1 IH]; intros [|y l2]; cbn; [done..|].
  f_equal; [|apply IH]. by rewrite uwrap_add_l, uwrap_add_r.
Qed.

Lemma cvtsi256_of x l : _mm256_cvtsi256_si32 (of_epi32 (x :: l)) = s32 x.
Proof. unfold _mm256_cvtsi256_si32. rewrite epi32_of. cbn. by rewrite swrap_uwrap. Qed.

Lemma store_lanes l : (swrap 32 <$> epi32 (of_epi32 l)) = swrap 32 <$> l.
Proof.
  rewrite epi32_of, <- list_fmap_compose. apply list_fmap_ext. intros i x _. unfold compose.
  by rewrite swrap_uwrap.
Qed.

(** ** One register *)

(** The prefix sums of a list, from [acc] on. *)
Fixpoint prefix (acc : Z) (l : list Z) : list Z :=
  match l with [] => [] | x :: l => (acc + x) :: prefix (acc + x) l end.

Definition total (l : list Z) : Z := foldr Z.add 0 l.

Lemma length_prefix acc l : length (prefix acc l) = length l.
Proof. revert acc. induction l as [|x l IH]; intros acc; cbn; [done|]. by rewrite IH. Qed.

Lemma total_app l1 l2 : total (l1 ++ l2) = total l1 + total l2.
Proof. induction l1 as [|x l1 IH]; cbn; [done|]. unfold total in *. lia. Qed.

Lemma prefix_app acc l1 l2 : prefix acc (l1 ++ l2) = prefix acc l1 ++ prefix (acc + total l1) l2.
Proof.
  revert acc. induction l1 as [|x l1 IH]; intros acc; cbn; [by rewrite Z.add_0_r|].
  f_equal. rewrite IH. do 2 f_equal. unfold total. lia.
Qed.

Lemma prefix_shift acc l : prefix acc l = (fun x => x + acc) <$> prefix 0 l.
Proof.
  enough (forall b, prefix (b + acc) l = (fun x => x + acc) <$> prefix b l) as H by apply (H 0).
  induction l as [|x l IH]; intros b; cbn; [done|].
  replace (b + acc + x) with (b + x + acc) by lia. f_equal. apply IH.
Qed.

Lemma eight (l : list Z) : length l = 8%nat ->
  exists a b c d e f g h, l = [a; b; c; d; e; f; g; h].
Proof. intros Hl. do 8 (destruct l as [|? l]; [done|]). destruct l; [|done]. by repeat eexists. Qed.

Lemma sums_step a b c d e f g h :
  let v2 := _mm256_add_epi32 (of_epi32 [a; b; c; d; e; f; g; h])
              (_mm256_slli_si256 (of_epi32 [a; b; c; d; e; f; g; h]) 4) in
  _mm256_add_epi32 v2 (_mm256_slli_si256 v2 8) =
  of_epi32 [a + 0 + 0; b + a + 0; c + b + (a + 0); d + c + (b + a);
            e + 0 + 0; f + e + 0; g + f + (e + 0); h + g + (f + e)].
Proof.
  change (_mm256_slli_si256 (of_epi32 [a; b; c; d; e; f; g; h]) 4)
    with (of_epi32 [0; a; b; c; 0; e; f; g]).
  rewrite add_epi32_of. cbn [zip_with].
  set (a1 := a + 0). set (b1 := b + a). set (c1 := c + b). set (d1 := d + c).
  set (e1 := e + 0). set (f1 := f + e). set (g1 := g + f). set (h1 := h + g).
  change (_mm256_slli_si256 (of_epi32 [a1; b1; c1; d1; e1; f1; g1; h1]) 8)
    with (of_epi32 [0; 0; a1; b1; 0; 0; e1; f1]).
  by rewrite add_epi32_of.
Qed.

Lemma ilp_inner_scan l : length l = 8%nat -> scan_ilp.inner_scan (of_epi32 l) = of_epi32 (prefix 0 l).
Proof.
  intros Hl. destruct (eight l Hl) as (a & b & c & d & e & f & g & h & ->). clear Hl.
  unfold scan_ilp.inner_scan. cbv zeta. rewrite sums_step.
  set (a1 := a + 0 + 0). set (b1 := b + a + 0). set (c1 := c + b + (a + 0)). set (d1 := d + c + (b + a)).
  set (e1 := e + 0 + 0). set (f1 := f + e + 0). set (g1 := g + f + (e + 0)). set (h1 := h + g + (f + e)).
  change (_mm256_castsi256_si128 (of_epi32 [a1; b1; c1; d1; e1; f1; g1; h1]))
    with (of_epi32 [a1; b1; c1; d1]).
  change (_mm256_extracti128_si256 (of_epi32 [a1; b1; c1; d1; e1; f1; g1; h1]) 1)
    with (of_epi32 [e1; f1; g1; h1]).
  change (_mm_shuffle_epi32 (of_epi32 [a1; b1; c1; d1]) (_MM_SHUFFLE 3 3 3 3))
    with (of_epi32 [d1; d1; d1; d1]).
  change _mm_add_epi32 with _mm256_add_epi32. rewrite add_epi32_of.
  unfold _mm256_set_m128i, of_epi32. rewrite <- bind_app. f_equal. cbn [zip_with app prefix].
  unfold a1, b1, c1, d1, e1, f1, g1, h1. repeat (apply (f_equal2 cons); [lia|]). done.
Qed.

Lemma avx2_inner_scan l : length l = 8%nat -> scan_avx2.inner_scan (of_epi32 l) = of_epi32 (prefix 0 l).
Proof.
  intros Hl. destruct (eight l Hl) as (a & b & c & d & e & f & g & h & ->). clear Hl.
  unfold scan_avx2.inner_scan. cbv zeta. rewrite sums_step.
  set (a1 := a + 0 + 0). set (b1 := b + a + 0). set (c1 := c + b + (a + 0)). set (d1 := d + c + (b + a)).
  set (e1 := e + 0 + 0). set (f1 := f + e + 0). set (g1 := g + f + (e + 0)). set (h1 := h + g + (f + e)).
  change (_mm256_permute4x64_epi64 (of_epi32 [a1; b1; c1; d1; e1; f1; g1; h1]) (_MM_SHUFFLE 1 1 1 1))
    with (of_epi32 [c1; d1; c1; d1; c1; d1; c1; d1]).
  change (_mm256_shuffle_epi32 (of_epi32 [c1; d1; c1; d1; c1; d1; c1; d1]) (_MM_SHUFFLE 3 3 3 3))
    with (of_epi32 [d1; d1; d1; d1; d1; d1; d1; d1]).
  rewrite add_epi32_of. unfold _mm256_blend_epi32. rewrite !epi32_of.
  change (seqZ 0 8) with [0; 1; 2; 3; 4; 5; 6; 7].
  rewrite <- (of_epi32_u32 (prefix 0 _)). f_equal.
  cbn [zip_with zip fmap list_fmap prefix Z.testbit Pos.testbit Pos.pred_N Pos.pred_double Pos.pred].
  unfold a1, b1, c1, d1, e1, f1, g1, h1. repeat (apply (f_equal2 cons); [f_equal; lia|]). done.
Qed.

Lemma carry_of l x :
  length l = 8%nat -> last l = Some x -> get_carry (of_epi32 l) = of_epi32 (replicate 8 x).
Proof.
  intros Hl Hx. destruct (eight l Hl) as (a & b & c & d & e & f & g & h & ->). injection Hx as ->.
  unfold get_carry. cbv zeta. reflexivity.
Qed.

(** ** The array *)

(** The first [k] elements of [src] are prefix sums, wrapped to [int]. *)
Definition scanned (src : list Z) (k : nat) : list Z :=
  (swrap 32 <$> prefix 0 (take k src)) ++ drop k src.

(** The sum of the first [k] elements in every lane. *)
Definition carried (src : list Z) (k : nat) : list Z := of_epi32 (replicate 8 (total (take k src))).

Definition block (src : list Z) (k : nat) : list Z := take 8 (drop k src).

Lemma length_scanned src k : length (scanned src k) = length src.
Proof. unfold scanned. rewrite length_app, length_fmap, length_prefix, length_take, length_drop. lia. Qed.

Lemma length_block src k : (k + 8 <= length src)%nat -> length (block src k) = 8%nat.
Proof. intros. unfold block. rewrite length_take, length_drop. lia. Qed.

Lemma scanned_drop src k j : (k <= j)%nat -> (k <= length src)%nat -> drop j (scanned src k) = drop j src.
Proof.
  intros Hj Hk. unfold scanned.
  assert (length (swrap 32 <$> prefix 0 (take k src)) = k) as Hl
    by (rewrite length_fmap, length_prefix, length_take; lia).
  rewrite drop_app_ge by lia. rewrite Hl, drop_drop. f_equal. lia.
Qed.

Lemma load_scanned src k j :
  (k <= j)%nat -> (j + 8 <= length src)%nat ->
  load_epi32 (scanned src k) (Z.of_nat j) = Ok (of_epi32 (block src j)).
Proof.
  intros Hj Hl. unfold load_epi32. rewrite slice_ok by (rewrite ?length_scanned; lia).
  cbn [mbind res_bind]. rewrite Nat2Z.id, scanned_drop by lia. done.
Qed.

Lemma take_block src k : take (k + 8) src = take k src ++ block src k.
Proof. unfold block. by rewrite take_take_drop. Qed.

Lemma store_scanned src k :
  (k + 8 <= length src)%nat ->
  store_epi32 (scanned src k) (Z.of_nat k) (of_epi32 (prefix (total (take k src)) (block src k))) =
  Ok (scanned src (k + 8)).
Proof.
  intros Hk. unfold store_epi32, write_bytes. rewrite store_lanes, length_scanned, length_fmap, length_prefix.
  rewrite length_block by done. rewrite !(proj2 (Z.leb_le _ _)) by lia. cbn [andb]. f_equal.
  rewrite Nat2Z.id, scanned_drop by lia. unfold scanned at 1 2.
  rewrite take_app_length' by (rewrite length_fmap, length_prefix, length_take; lia).
  rewrite take_block, prefix_app, fmap_app, <- app_assoc, Z.add_0_l. done.
Qed.

Lemma zip_with_add_const l x n :
  length l = n -> zip_with Z.add l (replicate n x) = (fun y => y + x) <$> l.
Proof. intros. by apply zip_with_const_id. Qed.

(** The prefix sums of a block, with the sum before it. *)
Lemma add_carried src k :
  (k + 8 <= length src)%nat ->
  _mm256_add_epi32 (of_epi32 (prefix 0 (block src k))) (carried src k) =
  of_epi32 (prefix (total (take k src)) (block src k)).
Proof.
  intros Hk. unfold carried. rewrite add_epi32_of, zip_with_add_const, <- prefix_shift; [done|].
  rewrite length_prefix. by apply length_block.
Qed.

Lemma last_prefix l : l <> [] -> last (prefix 0 l) = Some (total l).
Proof.
  intros Hl. destruct (exists_last Hl) as (l' & x & ->). rewrite prefix_app, total_app. cbn.
  rewrite last_snoc. f_equal. lia.
Qed.

Lemma carry_block src k :
  (k + 8 <= length src)%nat ->
  _mm256_add_epi32 (carried src k) (get_carry (of_epi32 (prefix 0 (block src k)))) = carried src (k + 8).
Proof.
  intros Hk. pose proof (length_block src k Hk) as Hb.
  rewrite (carry_of _ (total (block src k))); [|by rewrite length_prefix|].
  - unfold carried. by rewrite add_epi32_of, take_block, total_app, zip_with_replicate.
  - apply last_prefix. intros E. by rewrite E in Hb.
Qed.

Lemma carried_0 src : _mm256_setzero_si256 = carried src 0.
Proof. done. Qed.

Lemma avx2_body src k :
  (k + 8 <= length src)%nat ->
  scan_avx2.body (scanned src k, carried src k) (Z.of_nat k) = Ok (scanned src (k + 8), carried src (k + 8)).
Proof.
  intros Hk. unfold scan_avx2.body. rewrite load_scanned by lia. cbn [mbind res_bind].
  rewrite avx2_inner_scan by (by apply length_block).
  rewrite add_carried, store_scanned by done. cbn [mbind res_bind]. by rewrite carry_block.
Qed.

(** ** The scalar part *)

Definition fits (l : list Z) : Prop := Forall (fun x => sfits 32 x = true) l.

Lemma total_S src k x : src !! k = Some x -> total (take (S k) src) = total (take k src) + x.
Proof. intros H. rewrite (take_S_r _ _ _ H), total_app. change (total [x]) with (x + 0). lia. Qed.

Lemma prefix_lookup src k acc x :
  src !! k = Some x -> prefix acc src !! k = Some (acc + total (take (S k) src)).
Proof.
  revert k acc. induction src as [|y src IH]; intros [|k] acc Hx; [done..| |].
  - injection Hx as ->. change (Some (acc + x) = Some (acc + (x + 0))). f_equal. lia.
  - change (prefix (acc + y) src !! k = Some (acc + (y + total (take (S k) src)))).
    rewrite (IH k (acc + y) Hx). f_equal. lia.
Qed.

Lemma set_scanned src k x :
  src !! k = Some x -> sfits 32 (total (take (S k) src)) = true ->
  (scanned src k).[Z.of_nat k <- total (take (S k) src)] = Ok (scanned src (S k)).
Proof.
  intros Hx Hf. apply lookup_lt_Some in Hx as Hk. rewrite set_index_ok by (rewrite length_scanned; lia).
  f_equal. unfold scanned. rewrite Nat2Z.id, (drop_S _ _ _ Hx).
  assert (length (swrap 32 <$> prefix 0 (take k src)) = k) as Hl
    by (rewrite length_fmap, length_prefix, length_take; lia).
  rewrite insert_app_r_alt by lia. rewrite Hl, Nat.sub_diag. cbn [insert list_insert].
  rewrite (total_S _ _ _ Hx) in *. rewrite (take_S_r _ _ _ Hx), prefix_app, fmap_app, <- app_assoc.
  cbn [prefix fmap list_fmap app]. by rewrite Z.add_0_l, swrap_id.
Qed.

Lemma scan_element_scanned src k x :
  src !! k = Some x ->
  scan_element (total (take k src), scanned src k) (Z.of_nat k) =
  if sfits 32 (total (take (S k) src)) then Ok (total (take (S k) src), scanned src (S k))
  else Ub SignedOverflow.
Proof.
  intros Hx. apply lookup_lt_Some in Hx as Hk. unfold scan_element, plus_int.
  rewrite (at_index_lookup _ _ x); [|lia|].
  2: { unfold scanned. rewrite Nat2Z.id, lookup_app_r; rewrite length_fmap, length_prefix, length_take; [|lia].
       rewrite lookup_drop, <- Hx. f_equal. lia. }
  cbn [mbind res_bind]. rewrite <- (total_S _ _ _ Hx).
  destruct (sfits 32 (total (take (S k) src))) eqn:E; [|done]. cbn [check mbind res_bind].
  by rewrite (set_scanned _ _ _ Hx E).
Qed.

(** The scalar loop from element [k] on: it ends well exactly if the sums fit. *)
Lemma scalar_scan src k :
  (k <= length src)%nat ->
  inclusive_scan (scanned src k) (seqZ (Z.of_nat k) (Z.of_nat (length src - k))) (total (take k src)) =
  if forallb (fun x => sfits 32 x) (drop k (prefix 0 src)) then Ok (scanned src (length src))
  else Ub SignedOverflow.
Proof.
  intros Hk. unfold inclusive_scan. remember (length src - k)%nat as j eqn:Ej.
  revert k Hk Ej. induction j as [|j IH]; intros k Hk Ej.
  { rewrite drop_ge by (rewrite length_prefix; lia). cbn. by replace (length src) with k by lia. }
  destruct (lookup_lt_is_Some_2 src k) as [x Hx]; [lia|].
  rewrite seqZ_cons by lia. cbn [foldR]. rewrite (scan_element_scanned _ _ _ Hx).
  rewrite (drop_S _ _ _ (prefix_lookup _ _ 0 _ Hx)), Z.add_0_l. cbn [forallb].
  destruct (sfits 32 (total (take (S k) src))); [|done]. cbn [mbind res_bind andb].
  replace (Z.succ (Z.of_nat k)) with (Z.of_nat (S k)) by lia.
  replace (Z.pred (Z.of_nat (S j))) with (Z.of_nat j) by lia.
  apply IH; lia.
Qed.

Lemma scanned_0 src : scanned src 0 = src.
Proof. done. Qed.

Lemma scanned_fits src : fits (prefix 0 src) -> scanned src (length src) = prefix 0 src.
Proof.
  intros Hf. unfold scanned. rewrite take_ge, drop_ge, app_nil_r by done.
  rewrite <- (list_fmap_id (prefix 0 src)) at 2. apply list_fmap_ext. intros i x Hi. apply swrap_id; [done|].
  by eapply (Forall_lookup (fun x => sfits 32 x = true)).
Qed.

Lemma tusenpo_spec src :
  tusenpo src = if forallb (fun x => sfits 32 x) (prefix 0 src) then Ok (prefix 0 src)
                else Ub SignedOverflow.
Proof.
  pose proof (scalar_scan src 0 ltac:(lia)) as E. unfold inclusive_scan in E.
  rewrite Nat.sub_0_r, scanned_0 in E. change (total (take 0 src)) with 0 in E.
  unfold tusenpo, views_all. change (Z.of_nat 0) with 0 in E. fold scan_element.
  rewrite drop_0 in E. destruct (forallb _ (prefix 0 src)) eqn:Ef.
  - rewrite scanned_fits in E by (by apply forallb_Forall).
    change (foldR _ (0, src) _) with (foldR scan_element (0, src) (seqZ 0 (Z.of_nat (length src)))).
    destruct (foldR scan_element _ _) as [[? ?]| |]; cbn in *; congruence.
  - change (foldR _ (0, src) _) with (foldR scan_element (0, src) (seqZ 0 (Z.of_nat (length src)))).
    destruct (foldR scan_element _ _) as [[? ?]| |]; cbn in *; congruence.
Qed.

(** The rest after the vectors, from a wrapped sum. *)
Lemma scan_rest src k :
  (k <= length src)%nat -> fits (prefix 0 src) \/ k = length src ->
  inclusive_scan (scanned src k) (seqZ (Z.of_nat k) (Z.of_nat (length src - k)))
    (_mm256_cvtsi256_si32 (carried src k)) = Ok (scanned src (length src)).
Proof.
  intros Hk Hor. unfold carried. cbn [replicate]. rewrite cvtsi256_of. destruct Hor as [Hf| ->].
  - assert (s32 (total (take k src)) = total (take k src)) as ->.
    { destruct k as [|k]; [done|]. destruct (lookup_lt_is_Some_2 src k) as [x Hx]; [lia|].
      apply swrap_id; [done|]. apply prefix_lookup with (acc := 0) in Hx.
      by eapply (Forall_lookup (fun x => sfits 32 x = true)) in Hx. }
    rewrite scalar_scan by done.
    rewrite (proj2 (forallb_Forall _ _)); [done|]. by apply Forall_drop.
  - by rewrite Nat.sub_diag.
Qed.

Lemma scan_avx2_spec src :
  fits (prefix 0 src) \/ (length src mod 8 = 0)%nat ->
  scan_avx2.scan src = Ok (scanned src (length src)).
Proof.
  intros Hor. unfold scan_avx2.scan, views_all, int_lane.
  destruct (view_fold (fun k s => s = (scanned src k, carried src k)) scan_avx2.body 8 (length src))
    with (a := 0%nat) (s := (src, _mm256_setzero_si256)) as (s' & E & -> & Hle & Hlt);
    [|lia | lia | done |].
  { intros k s Hk ->. eexists. split; [by apply avx2_body | done]. }
  rewrite Nat.sub_0_r in E, Hle, Hlt. change (Z.of_nat 0) with 0 in E, Hle, Hlt. rewrite E.
  cbn [mbind res_bind]. rewrite drop_seqZ, Z.add_0_l. apply scan_rest; [done|].
  destruct Hor as [Hf|Hm]; [by left | right].
  apply Nat.Div0.mod_divides in Hm as [q Hq]. lia.
Qed.

(** ** scan_ilp *)

Import scan_ilp.

Section group.
Context (src : list Z) (size k : nat) (Hk : (k + 8 * size <= length src)%nat).

(** The state before the turn [i] of each of the three inner loops. *)
Definition loaded (i : nat) (s : State) : Prop :=
  mem s = scanned src k /\ sum s = carried src k /\ length (results s) = size /\
  length (carries s) = size /\
  forall j, (j < i)%nat -> results s !! j = Some (of_epi32 (prefix 0 (block src (k + 8 * j)))).

Definition with_carries (i : nat) (s : State) : Prop :=
  loaded size s /\
  forall j, (j < i)%nat ->
    carries s !! j = Some (get_carry (of_epi32 (prefix 0 (block src (k + 8 * j))))).

Definition stored (i : nat) (s : State) : Prop :=
  mem s = scanned src (k + 8 * i) /\ sum s = carried src (k + 8 * i) /\
  length (results s) = size /\ length (carries s) = size /\
  (forall j, (j < size)%nat -> results s !! j = Some (of_epi32 (prefix 0 (block src (k + 8 * j))))) /\
  forall j, (j < size)%nat ->
    carries s !! j = Some (get_carry (of_epi32 (prefix 0 (block src (k + 8 * j))))).

Lemma lookup_insert_upto {A} (l : list A) (x : A) (f : nat -> A) i :
  (i < length l)%nat -> x = f i -> (forall j, (j < i)%nat -> l !! j = Some (f j)) ->
  forall j, (j < S i)%nat -> <[i := x]> l !! j = Some (f j).
Proof.
  intros Hi -> H j Hj. destruct (decide (j = i)) as [->|Hne].
  - by apply list_lookup_insert_eq.
  - rewrite list_lookup_insert_ne by done. apply H. lia.
Qed.

Lemma load_step i s :
  (i < size)%nat -> loaded i s ->
  exists s', load_result (Z.of_nat k) s (Z.of_nat i) = Ok s' /\ loaded (S i) s'.
Proof.
  intros Hi (Hm & Hsum & Hr & Hc & Hv). unfold load_result. rewrite Hm.
  replace (Z.of_nat k + Z.of_nat i * 8) with (Z.of_nat (k + 8 * i)) by lia.
  rewrite load_scanned by lia. cbn [mbind res_bind].
  rewrite ilp_inner_scan by (apply length_block; lia).
  rewrite set_index_ok, Nat2Z.id by lia. cbn [mbind res_bind]. eexists. split; [done|].
  split_and!; [done | done | by cbn; rewrite length_insert | done |]. cbn [results].
  by apply (lookup_insert_upto _ _ (fun j => of_epi32 (prefix 0 (block src (k + 8 * j))))); [lia|..].
Qed.

Lemma carry_step i s :
  (i < size)%nat -> with_carries i s ->
  exists s', set_carry s (Z.of_nat i) = Ok s' /\ with_carries (S i) s'.
Proof.
  intros Hi ((Hm & Hsum & Hr & Hc & Hv) & Hcv). unfold set_carry.
  rewrite (at_index_lookup (results s) _ (of_epi32 (prefix 0 (block src (k + 8 * i)))))
    by (try lia; rewrite Nat2Z.id; by apply Hv). cbn [mbind res_bind].
  rewrite set_index_ok, Nat2Z.id by lia. cbn [mbind res_bind]. eexists. split; [done|].
  split; [split_and!; [done | done | done | by cbn; rewrite length_insert | done]|]. cbn [carries].
  by apply (lookup_insert_upto _ _ (fun j => get_carry (of_epi32 (prefix 0 (block src (k + 8 * j))))));
    [lia|..].
Qed.

Lemma store_step i s :
  (i < size)%nat -> stored i s ->
  exists s', store_result (Z.of_nat k) s (Z.of_nat i) = Ok s' /\ stored (S i) s'.
Proof.
  intros Hi (Hm & Hsum & Hr & Hc & Hv & Hcv). unfold store_result.
  rewrite (at_index_lookup (results s) _ (of_epi32 (prefix 0 (block src (k + 8 * i)))))
    by (try lia; rewrite Nat2Z.id; by apply Hv). cbn [mbind res_bind].
  rewrite Hm, Hsum, add_carried by lia.
  replace (Z.of_nat k + Z.of_nat i * 8) with (Z.of_nat (k + 8 * i)) by lia.
  rewrite store_scanned by lia. cbn [mbind res_bind].
  rewrite (at_index_lookup (carries s) _ (get_carry (of_epi32 (prefix 0 (block src (k + 8 * i))))))
    by (try lia; rewrite Nat2Z.id; by apply Hcv). cbn [mbind res_bind].
  eexists. split; [done|]. unfold stored. replace (k + 8 * S i)%nat with (k + 8 * i + 8)%nat by lia.
  split_and!; [done | cbn [sum]; apply carry_block; lia | done | done | done | done].
Qed.

Lemma process_group_spec s :
  loaded 0 s -> exists s', process_group size s (Z.of_nat k) = Ok s' /\ stored size s'.
Proof.
  intros Hs. unfold process_group.
  destruct (element_fold loaded (load_result (Z.of_nat k)) size 0 s) as (s1 & E1 & H1);
    [intros; by apply load_step | lia | done |].
  rewrite Nat.sub_0_r in E1. change (Z.of_nat 0) with 0 in E1. rewrite E1. cbn [mbind res_bind].
  destruct (element_fold with_carries set_carry size 0 s1) as (s2 & E2 & H2 & Hc2);
    [intros; by apply carry_step | lia | split; [done | lia] |].
  rewrite Nat.sub_0_r in E2. change (Z.of_nat 0) with 0 in E2. rewrite E2. cbn [mbind res_bind].
  destruct (element_fold stored (store_result (Z.of_nat k)) size 0 s2) as (s3 & E3 & H3);
    [intros; by apply store_step | lia | |].
  { destruct H2 as (? & ? & ? & ? & ?). unfold stored. rewrite Nat.mul_0_r, Nat.add_0_r. by split_and!. }
  rewrite Nat.sub_0_r in E3. exists s3. split; [exact E3 | done].
Qed.
End group.

Lemma process_simd_scan src size a :
  (0 < size)%nat -> (a <= length src)%nat ->
  let v := simdify (size * 8) (seqZ (Z.of_nat a) (Z.of_nat (length src - a))) in
  exists s, process_simd size v (scanned src a) (carried src a) = Ok s /\
    mem s = scanned src (a + size * 8 * length v) /\ sum s = carried src (a + size * 8 * length v) /\
    (a + size * 8 * length v <= length src)%nat /\
    (length src - (a + size * 8 * length v) < size * 8)%nat.
Proof.
  intros Hsz Ha v. unfold process_simd.
  set (zeros := replicate size _mm256_setzero_si256).
  destruct (view_fold (fun k s => loaded src size k 0 s) (process_group size) (size * 8) (length src))
    with (a := a) (s := mkState (scanned src a) (carried src a) zeros zeros)
    as (s & E & (Hm & Hs & _) & Hle & Hlt); [|lia | done | | by exists s].
  - intros k s Hk Hs. destruct (process_group_spec src size k ltac:(lia) s Hs) as (s' & E & Hst).
    exists s'. split; [done|]. destruct Hst as (? & ? & ? & ? & _).
    rewrite (Nat.mul_comm size). split_and!; [done | done | done | done | lia].
  - split_and!; [done | done | apply length_replicate | apply length_replicate | lia].
Qed.

Lemma scan_ilp_spec ILP src :
  (0 < ILP)%nat -> fits (prefix 0 src) \/ (length src mod 8 = 0)%nat ->
  scan ILP src = Ok (scanned src (length src)).
Proof.
  intros HI Hor. unfold scan, views_all, int_lane. rewrite simdify_simdify by lia.
  destruct (process_simd_scan src ILP 0) as (s1 & E1 & Hm1 & Hs1 & L1 & _); [done | lia |].
  rewrite Nat.sub_0_r in *. change (Z.of_nat 0) with 0 in *. rewrite scanned_0, <- carried_0 in E1.
  rewrite E1. cbn [mbind res_bind]. rewrite Hm1, Hs1. rewrite Nat.add_0_l in *.
  set (k := (ILP * 8 * length (simdify (ILP * 8) (seqZ 0 (Z.of_nat (length src)))))%nat) in *.
  rewrite drop_seqZ, Z.add_0_l.
  destruct (process_simd_scan src 1 k) as (s2 & E2 & Hm2 & Hs2 & L2 & Hlt); [lia | done |].
  rewrite Nat.mul_1_l in *. rewrite E2. cbn [mbind res_bind]. rewrite Hm2, Hs2, drop_seqZ.
  rewrite <- Nat2Z.inj_add, <- Nat.sub_add_distr. apply scan_rest; [done|].
  destruct Hor as [Hf|Hmod]; [by left | right].
  apply Nat.Div0.mod_divides in Hmod as [q Hq]. unfold k in *. lia.
Qed.

(** * Sums: the lanes of the registers hold the sum of the elements read *)
#[local] Open Scope Z_scope.

(** The sum of the absolute values, which bounds every partial sum. *)
Definition norm (l : list Z) : Z := foldr (fun x acc => Z.abs x + acc) 0 l.

Lemma norm_app l1 l2 : norm (l1 ++ l2) = norm l1 + norm l2.
Proof. induction l1 as [|x l1 IH]; cbn; [done|]. unfold norm in *. lia. Qed.

Lemma norm_nonneg l : 0 <= norm l.
Proof. induction l as [|x l IH]; cbn; [done|]. unfold norm in *. lia. Qed.

Lemma norm_elem l x : x ∈ l -> Z.abs x <= norm l.
Proof.
  induction 1 as [x l|x y l _ IH]; cbn; pose proof (norm_nonneg l); unfold norm in *; lia.
Qed.

Lemma abs_total l : Z.abs (total l) <= norm l.
Proof. induction l as [|x l IH]; cbn; [done|]. unfold norm, total in *. lia. Qed.

(** Adding two registers of lanes. *)
Lemma total_zip_add l1 l2 :
  length l1 = length l2 -> total (zip_with Z.add l1 l2) = total l1 + total l2.
Proof.
  revert l2. induction l1 as [|x l1 IH]; intros [|y l2] Hl; try done.
  specialize (IH l2 ltac:(cbn in Hl; lia)). cbn. unfold total in *. lia.
Qed.

Lemma norm_zip_add l1 l2 :
  length l1 = length l2 -> norm (zip_with Z.add l1 l2) <= norm l1 + norm l2.
Proof.
  revert l2. induction l1 as [|x l1 IH]; intros [|y l2] Hl; try done.
  specialize (IH l2 ltac:(cbn in Hl; lia)). cbn. unfold norm in *. lia.
Qed.

(** [std::ranges::fold_left] with [std::plus]: exact when defined, and defined when the
    absolute values stay below [2 ^ 31]. *)
Lemma fold_left_plus_exact l a r :
  sfits 32 a = true -> fold_left_plus l a = Ok r -> r = a + total l /\ sfits 32 r = true.
Proof.
  unfold fold_left_plus. revert a. induction l as [|x l IH]; intros a Ha E; cbn in E.
  - injection E as <-. cbn. by rewrite Z.add_0_r.
  - unfold plus_int in E. destruct (sfits 32 (a + x)) eqn:Ex; [|done]. cbn in E.
    apply IH in E as [-> Hr]; [|done]. cbn. unfold total in *. split; [lia|].
    by replace (a + (x + foldr Z.add 0 l)) with (a + x + foldr Z.add 0 l) by lia.
Qed.

Lemma sfits_norm x : Z.abs x < 2 ^ 31 -> sfits 32 x = true.
Proof. intros Hx. unfold sfits. change (2 ^ (32 - 1)) with (2 ^ 31) in *. lia. Qed.

Lemma fold_left_plus_total l a :
  Z.abs a + norm l < 2 ^ 31 -> fold_left_plus l a = Ok (a + total l).
Proof.
  unfold fold_left_plus. revert a. induction l as [|x l IH]; intros a Ha; cbn in *.
  - by rewrite Z.add_0_r.
  - pose proof (norm_nonneg l). unfold norm in *. unfold plus_int.
    rewrite sfits_norm by lia. cbn. rewrite IH by lia. f_equal. unfold total. lia.
Qed.

(** ** Registers of partial sums *)

(** [k] elements of [src] are in the lanes [Ls] of the registers. *)
Definition partial (src : list Z) (k : nat) (Ls : list (list Z)) : Prop :=
  Forall (fun L => length L = 8%nat) Ls /\ total (concat Ls) = total (take k src) /\
  norm (concat Ls) <= norm (take k src).

(** Adding the next block of elements to one of the registers. *)
Lemma partial_step src k Ls i L :
  (k + 8 <= length src)%nat -> partial src k Ls -> Ls !! i = Some L ->
  partial src (k + 8) (<[i := zip_with Z.add L (block src k)]> Ls).
Proof.
  intros Hk (HF & Ht & Hn) Hi.
  assert (length L = length (block src k)) as HL.
  { rewrite length_block by done. by eapply (Forall_lookup (fun L => length L = 8%nat)). }
  assert (i < length Ls)%nat as Hlt by (by eapply lookup_lt_Some). split_and!.
  - apply Forall_insert; [done|]. rewrite length_zip_with, HL, Nat.min_id. by apply length_block.
  - rewrite insert_take_drop, concat_app, total_app by done. cbn [concat].
    rewrite total_app, total_zip_add, take_block, total_app, <- Ht by done.
    rewrite <- (take_drop_middle _ _ _ Hi) at 3. rewrite concat_app, total_app. cbn [concat].
    rewrite total_app. lia.
  - rewrite insert_take_drop, concat_app, norm_app by done. cbn [concat].
    rewrite norm_app, take_block, norm_app.
    pose proof (norm_zip_add _ _ HL) as Hz.
    rewrite <- (take_drop_middle _ _ _ Hi), concat_app, norm_app in Hn. cbn [concat] in Hn.
    rewrite norm_app in Hn. lia.
Qed.

Lemma load_block src k :
  (k + 8 <= length src)%nat -> load_epi32 src (Z.of_nat k) = Ok (of_epi32 (block src k)).
Proof. intros Hk. rewrite <- (load_scanned src 0 k) by lia. by rewrite scanned_0. Qed.

(** The scalars after the vectors. *)
Lemma read_scalars (src : list Z) (k : nat) :
  (k <= length src)%nat ->
  foldR (fun l addr => v ← src.[addr]; Ok (l ++ [v])) [] (seqZ (Z.of_nat k) (Z.of_nat (length src - k))) =
  Ok (drop k src).
Proof.
  intros Hk.
  destruct (element_fold (fun j l => (k <= j)%nat /\ l = take (j - k) (drop k src))
    (fun l addr => v ← src.[addr]; Ok (l ++ [v])) (length src) k []) as (l & E & _ & ->);
    [| done | by rewrite Nat.sub_diag | ].
  - intros j l Hj (Hkj & ->). destruct (lookup_lt_is_Some_2 src j Hj) as [x Hx].
    rewrite (at_index_lookup _ _ x) by (try lia; by rewrite Nat2Z.id). cbn [mbind res_bind].
    eexists. split; [done|]. split; [lia|]. rewrite Nat.sub_succ_l by done.
    rewrite (take_S_r _ _ x); [done|]. rewrite lookup_drop. by replace (k + (j - k))%nat with j by lia.
  - rewrite E. f_equal. apply take_ge. by rewrite length_drop.
Qed.

Lemma store_temp L :
  length L = 8%nat -> store_epi32 (replicate int_lane 0) 0 (of_epi32 L) = Ok (swrap 32 <$> L).
Proof.
  intros HL. unfold store_epi32, write_bytes. rewrite store_lanes, length_fmap, HL. cbn. by rewrite app_nil_r.
Qed.

(** What both functions compute: the sum of the scalars [T], then of the lanes [L]. *)
Definition summed (src : list Z) (r : res Z) : Prop :=
  exists L T, length L = 8%nat /\ total L + total T = total src /\ norm L + norm T <= norm src /\
    r = (sum ← fold_left_plus T 0; fold_left_plus (swrap 32 <$> L) sum).

Lemma summed_total src r : summed src r -> norm src < 2 ^ 31 -> r = Ok (total src).
Proof.
  intros (L & T & _ & Ht & Hn & ->) Hs. pose proof (norm_nonneg L). pose proof (norm_nonneg T).
  rewrite fold_left_plus_total by (cbn; lia). cbn [mbind res_bind].
  assert (swrap 32 <$> L = L) as ->.
  { rewrite <- (list_fmap_id L) at 2. apply list_fmap_ext. intros i x Hi. change (s32 x = x). apply swrap_id; [done|].
    apply sfits_norm. apply list_elem_of_lookup_2, norm_elem in Hi. lia. }
  pose proof (abs_total T). rewrite fold_left_plus_total by lia. f_equal. lia.
Qed.

Lemma total_swrap l : u32 (total (swrap 32 <$> l)) = u32 (total l).
Proof.
  induction l as [|x l IH]; [done|]. rewrite fmap_cons. cbn [total foldr].
  fold (total (swrap 32 <$> l)). fold (total l).
  by rewrite <- uwrap_add_r, IH, uwrap_add_r, <- uwrap_add_l, uwrap_swrap, uwrap_add_l.
Qed.

Lemma summed_mod src r s : summed src r -> r = Ok s -> s = s32 (total src).
Proof.
  intros (L & T & _ & Ht & Hn & ->) E.
  destruct (fold_left_plus T 0) as [t| |] eqn:ET; [|done..]. cbn [mbind res_bind] in E.
  apply fold_left_plus_exact in ET as [-> Hft]; [|done].
  apply fold_left_plus_exact in E as [-> Hf]; [|done].
  rewrite <- (swrap_id 32 _ ltac:(lia) Hf), <- swrap_uwrap by lia.
  rewrite <- uwrap_add_r, total_swrap, uwrap_add_r, swrap_uwrap by lia. f_equal. lia.
Qed.

(** ** sum_avx2 *)

Lemma sum_avx2_summed src : summed src (sum_avx2 src).
Proof.
  unfold sum_avx2, views_all, int_lane.
  set (body := fun partial_sum addr => loadu ← load_epi32 src addr; Ok (_mm256_add_epi32 partial_sum loadu)).
  destruct (view_fold (fun k p => exists L, p = of_epi32 L /\ partial src k [L]) body 8 (length src))
    with (a := 0%nat) (s := _mm256_setzero_si256) as (p & E & (L & -> & HF & Ht & Hn) & Hle & _); [|lia | lia | |].
  { intros k p Hk (L & -> & HP). unfold body. rewrite load_block by done. cbn [mbind res_bind].
    rewrite add_epi32_of. eexists. split; [done|]. eexists. split; [done|].
    by apply (partial_step _ _ _ 0 _ Hk HP). }
  { exists (replicate 8 0). split; [done|]. split; [by repeat constructor | done]. }
  rewrite Nat.sub_0_r in *. change (Z.of_nat 0) with 0 in *. rewrite E. cbn [mbind res_bind].
  rewrite drop_seqZ, Z.add_0_l, Nat.add_0_l in *. set (k := (8 * _)%nat) in *.
  rewrite read_scalars by done. cbn [mbind res_bind concat] in *. rewrite app_nil_r in *.
  apply Forall_cons_1 in HF as [HL _]. exists L, (drop k src). split_and!; [done | | |].
  - rewrite Ht, <- total_app. by rewrite take_drop.
  - rewrite <- (take_drop k src) at 2. rewrite norm_app. lia.
  - destruct (fold_left_plus (drop k src) 0); [|done..]. cbn [mbind res_bind].
    change (replicate 8 0) with (replicate int_lane 0). by rewrite store_temp.
Qed.

(** ** sum_avx2_ilp *)

Definition registers (size : nat) (src : list Z) (k : nat) (ps : list (list Z)) : Prop :=
  exists Ls, ps = of_epi32 <$> Ls /\ length Ls = size /\ partial src k Ls.

Lemma sum_group_step ILP size src k ps :
  (size <= ILP)%nat -> (k + size * 8 <= length src)%nat -> registers ILP src k ps ->
  exists ps', sum_group size src ps (Z.of_nat k) = Ok ps' /\ registers ILP src (k + size * 8) ps'.
Proof.
  intros Hs Hk Hr. unfold sum_group.
  destruct (element_fold (fun i ps => registers ILP src (k + i * 8) ps)
    (fun partial_sum Index =>
      partial ← partial_sum.[Index];
      loadu ← load_epi32 src (Z.of_nat k + Index * 8);
      partial_sum.[Index <- _mm256_add_epi32 partial loadu]) size 0 ps) as (ps' & E & Hp);
    [| lia | by rewrite Nat.mul_0_l, Nat.add_0_r | rewrite Nat.sub_0_r in E; by exists ps'].
  intros i p Hi (Ls & -> & HLs & HP). destruct (lookup_lt_is_Some_2 Ls i) as [L HL]; [lia|].
  rewrite (at_index_lookup _ _ (of_epi32 L)) by (try lia; by rewrite Nat2Z.id, list_lookup_fmap, HL).
  replace (Z.of_nat k + Z.of_nat i * 8) with (Z.of_nat (k + i * 8)) by lia.
  cbn [mbind res_bind]. rewrite load_block by lia. cbn [mbind res_bind].
  rewrite add_epi32_of, set_index_ok, Nat2Z.id by (rewrite ?length_fmap; lia).
  rewrite <- list_fmap_insert. eexists. split; [done|]. eexists. split; [done|].
  rewrite length_insert. split; [done|]. replace (k + S i * 8)%nat with (k + i * 8 + 8)%nat by lia.
  apply partial_step; [lia | done | done].
Qed.

Lemma sum_groups ILP size src a ps :
  (0 < size <= ILP)%nat -> (a <= length src)%nat -> registers ILP src a ps ->
  let v := simdify (size * 8) (seqZ (Z.of_nat a) (Z.of_nat (length src - a))) in
  exists ps', foldR (sum_group size src) ps v = Ok ps' /\ registers ILP src (a + size * 8 * length v) ps' /\
    (a + size * 8 * length v <= length src)%nat.
Proof.
  intros Hs Ha Hr v.
  destruct (view_fold (fun k ps => registers ILP src k ps) (sum_group size src) (size * 8) (length src))
    with (a := a) (s := ps) as (ps' & E & Hp & Hle & _); [| lia | done | done | by exists ps'].
  intros k p Hk Hp. apply sum_group_step; [lia | lia | done].
Qed.

(** The last loop adds the registers from 1 on to the register 0. *)
Lemma add_registers ILP src k ps :
  (0 < ILP)%nat -> registers ILP src k ps ->
  exists ps' L, foldR (fun partial_sum Index =>
      x ← partial_sum.[0]; y ← partial_sum.[Index];
      partial_sum.[0 <- _mm256_add_epi32 x y]) ps (seqZ 1 (Z.of_nat ILP - 1)) = Ok ps' /\
    ps'.[0] = Ok (of_epi32 L) /\ partial src k [L].
Proof.
  intros HI (Ls & -> & HLs & HF & Ht & Hn). destruct Ls as [|L0 Ls]; [cbn in HLs; lia|].
  destruct (element_fold (fun i ps => exists L, ps = of_epi32 <$> (L :: Ls) /\ (0 < i)%nat /\ length L = 8%nat /\
      total L + total (concat (drop (i - 1) Ls)) = total (take k src) /\
      norm L + norm (concat (drop (i - 1) Ls)) <= norm (take k src))
    (fun partial_sum Index =>
      x ← partial_sum.[0]; y ← partial_sum.[Index];
      partial_sum.[0 <- _mm256_add_epi32 x y]) ILP 1 (of_epi32 <$> (L0 :: Ls)))
    as (ps' & E & L & -> & _ & HL & Ht' & Hn'); [| lia | |].
  - intros i p Hi (L & -> & Hi0 & HL & HtL & HnL).
    destruct (lookup_lt_is_Some_2 Ls (i - 1)) as [M HM]; [cbn in HLs; lia|].
    assert (length M = length L) as HML.
    { rewrite HL. apply Forall_cons_1 in HF as [_ HF]. by eapply (Forall_lookup (fun L => length L = 8%nat)). }
    rewrite (at_index_lookup _ 0 (of_epi32 L)) by done. cbn [mbind res_bind].
    rewrite (at_index_lookup _ (Z.of_nat i) (of_epi32 M)).
    2: lia. 2: { rewrite Nat2Z.id. rewrite list_lookup_fmap. destruct i as [|i]; [lia|].
      replace (S i - 1)%nat with i in HM by lia. change ((L :: Ls) !! S i) with (Ls !! i). by rewrite HM. }
    cbn [mbind res_bind]. rewrite set_index_ok by (cbn; lia). eexists. split; [done|].
    exists (zip_with Z.add L M). rewrite add_epi32_of. split; [done|]. split; [lia|].
    rewrite length_zip_with, HML, Nat.min_id. split; [done|].
    replace (S i - 1)%nat with (S (i - 1)) by lia. rewrite (drop_S _ _ _ HM) in HtL, HnL.
    cbn [concat] in *. rewrite total_app in HtL. rewrite norm_app in HnL.
    rewrite total_zip_add by done. pose proof (norm_zip_add L M (eq_sym HML)). lia.
  - exists L0. apply Forall_cons_1 in HF as [HL0 HF]. cbn [concat] in *. rewrite total_app in Ht.
    rewrite norm_app in Hn. split_and!; [done | lia | done | done | done].
  - exists (of_epi32 <$> (L :: Ls)), L. split_and!; [|done|].
    + rewrite Nat2Z.inj_sub in E by lia. exact E.
    + rewrite drop_ge in Ht', Hn' by (cbn in HLs; lia). split; [by repeat constructor|].
      cbn [concat] in *. rewrite app_nil_r. cbn in Ht', Hn'. lia.
Qed.

Lemma sum_avx2_ilp_summed ILP src : (0 < ILP)%nat -> summed src (sum_avx2_ilp ILP src).
Proof.
  intros HI. unfold sum_avx2_ilp, views_all, int_lane. rewrite simdify_simdify by lia.
  destruct (sum_groups ILP ILP src 0 (replicate ILP _mm256_setzero_si256)) as (p1 & E1 & H1 & L1); [lia | lia | |].
  { exists (replicate ILP (replicate 8 0)). rewrite length_replicate. split_and!.
    - by rewrite fmap_replicate.
    - done.
    - split; [by apply Forall_replicate|]. cbn.
      clear. induction ILP as [|n [IH1 IH2]]; [done|]. cbn [replicate concat].
      rewrite total_app, norm_app. cbn. cbn in IH1, IH2. lia. }
  rewrite Nat.sub_0_r, Nat.add_0_l in *. change (Z.of_nat 0) with 0 in *. rewrite E1. cbn [mbind res_bind].
  rewrite (Nat.mul_comm 8 ILP).
  set (k := (ILP * 8 * _)%nat) in *. rewrite drop_seqZ, Z.add_0_l.
  destruct (sum_groups ILP 1 src k p1) as (p2 & E2 & H2 & L2); [lia | done | done |].
  rewrite Nat.mul_1_l in *. rewrite E2. cbn [mbind res_bind]. rewrite drop_seqZ.
  rewrite <- Nat2Z.inj_add, <- Nat.sub_add_distr. set (k2 := (k + _)%nat) in *.
  rewrite read_scalars by done. cbn [mbind res_bind].
  destruct (add_registers ILP src k2 p2 HI H2) as (p3 & L & E3 & E4 & HF & Ht & Hn).
  cbn [concat] in *. rewrite app_nil_r in *. apply Forall_cons_1 in HF as [HL _].
  exists L, (drop k2 src). split_and!; [done | | |].
  - rewrite Ht, <- total_app. by rewrite take_drop.
  - rewrite <- (take_drop k2 src) at 2. rewrite norm_app. lia.
  - destruct (fold_left_plus (drop k2 src) 0); [|done..]. cbn [mbind res_bind].
    rewrite E3. cbn [mbind res_bind]. rewrite E4. cbn [mbind res_bind].
    change (replicate 8 0) with (replicate int_lane 0). by rewrite store_temp.
Qed.
