(* ===== verification/SimdSplit.v ===== *)
(** * Splitting bytes by the parity of their index

    src/simd/odd_even_broadcast.cpp: six ways to put the bytes of even index of 32 bytes
    into both halves of a register and those of odd index into another.  A function
    gives the two registers it passes to [do_stuff], in the order of the arguments. *)

From S2P Require Import Prelude Bytes Simd SimdView SimdLanes.
From stdpp Require Import list_relations list.
#[local] Open Scope Z_scope.

(** ** The functions *)

(** A chain of _mm_insert_epi8 of the bytes [ptr[first + 2 * i]] into the byte [i]. *)
Definition insert_chain (mem : list Z) (ptr first : Z) : res (list Z) :=
  x ← mem.[ptr + first];
  foldR (fun xmm i => x ← mem.[ptr + first + 2 * i]; Ok (_mm_insert_epi8 xmm (s8 x) i))
    (_mm_cvtsi32_si128 (u8 x)) (seqZ 1 15).

(** _mm256_castsi128_si256 leaves the upper half undefined: the parameter [undefined]. *)
Definition split_insert_clang20 (undefined : list Z) (mem : list Z) (ptr : Z) : res (list Z * list Z) :=
  xmm0 ← insert_chain mem ptr 0;
  xmm1 ← insert_chain mem ptr 1;
  let ymm0 := _mm256_permute4x64_epi64 (xmm0 ++ undefined) 68 in
  let ymm1 := _mm256_permute4x64_epi64 (xmm1 ++ undefined) 68 in
  Ok (ymm0, ymm1).

Definition split_shuffle_gcc15 (mem : list Z) (ptr : Z) : res (list Z * list Z) :=
  src_lo ← _mm_loadu_si128 mem ptr;
  src_hi ← _mm_loadu_si128 mem (ptr + 16);
  let mask_evens := _mm_setr_epi8 [0; 2; 4; 6; 8; 10; 12; 14; -1; -1; -1; -1; -1; -1; -1; -1] in
  let mask_odds := _mm_setr_epi8 [1; 3; 5; 7; 9; 11; 13; 15; -1; -1; -1; -1; -1; -1; -1; -1] in
  let e1 := _mm_shuffle_epi8 src_lo mask_evens in
  let e2 := _mm_shuffle_epi8 src_hi mask_evens in
  let xmm_evens := _mm_unpacklo_epi64 e1 e2 in
  let o1 := _mm_shuffle_epi8 src_lo mask_odds in
  let o2 := _mm_shuffle_epi8 src_hi mask_odds in
  let xmm_odds := _mm_unpacklo_epi64 o1 o2 in
  Ok (_mm256_broadcastsi128_si256 xmm_evens, _mm256_broadcastsi128_si256 xmm_odds).

(** The two halves of a variable on the stack, written one after the other. *)
Definition store_both (stack_var xmm : list Z) : res (list Z) :=
  v ← _mm_storeu_si128 stack_var 0 xmm; _mm_storeu_si128 v 16 xmm.

(** The variables start out indeterminate: the parameters [v0] and [v1]. *)
Definition split_bitwise_gcc15_old (v0 v1 : list Z) (mem : list Z) (input : Z) : res (list Z * list Z) :=
  let xmm1 := _mm_setzero_si128 in
  let xmm1 := _mm_cmpeq_epi32 xmm1 xmm1 in
  let xmm1 := _mm_srli_epi16 xmm1 8 in
  xmm0 ← _mm_loadu_si128 mem input;
  xmm3 ← _mm_loadu_si128 mem (input + 16);
  let xmm2 := _mm_and_si128 xmm0 xmm1 in
  let xmm1 := _mm_and_si128 xmm3 xmm1 in
  let xmm0 := _mm_srli_epi16 xmm0 8 in
  let xmm3 := _mm_srli_epi16 xmm3 8 in
  let xmm1 := _mm_packus_epi16 xmm2 xmm1 in
  let xmm0 := _mm_packus_epi16 xmm0 xmm3 in
  stack_var1 ← store_both v1 xmm1;
  stack_var0 ← store_both v0 xmm0;
  Ok (stack_var0, stack_var1).

Definition split_bitwise_gcc14_old (v0 v1 : list Z) (mem : list Z) (input : Z) : res (list Z * list Z) :=
  let mask := _mm_set1_epi32 16711935 in
  xmm0 ← _mm_loadu_si128 mem input;
  xmm3 ← _mm_loadu_si128 mem (input + 16);
  let xmm2 := _mm_and_si128 xmm0 mask in
  let xmm1 := _mm_and_si128 xmm3 mask in
  let xmm0 := _mm_srli_epi16 xmm0 8 in
  let xmm3 := _mm_srli_epi16 xmm3 8 in
  let xmm1 := _mm_packus_epi16 xmm2 xmm1 in
  let xmm0 := _mm_packus_epi16 xmm0 xmm3 in
  arg1 ← store_both v1 xmm1;
  arg0 ← store_both v0 xmm0;
  Ok (arg0, arg1).

Definition split_bitwise_gcc15 (mem : list Z) (input : Z) : res (list Z * list Z) :=
  let mask := _mm_setzero_si128 in
  let mask := _mm_cmpeq_epi32 mask mask in
  let mask := _mm_srli_epi16 mask 8 in
  xmm0 ← _mm_loadu_si128 mem input;
  xmm3 ← _mm_loadu_si128 mem (input + 16);
  let xmm2 := _mm_and_si128 xmm0 mask in
  let xmm1 := _mm_and_si128 xmm3 mask in
  let xmm0 := _mm_srli_epi16 xmm0 8 in
  let xmm3 := _mm_srli_epi16 xmm3 8 in
  let xmm1 := _mm_packus_epi16 xmm2 xmm1 in
  let xmm0 := _mm_packus_epi16 xmm0 xmm3 in
  let arg0 := _mm256_set_m128i xmm0 xmm0 in
  let arg1 := _mm256_set_m128i xmm1 xmm1 in
  Ok (arg0, arg1).

Definition split_bitwise_gcc14 (mem : list Z) (input : Z) : res (list Z * list Z) :=
  let mask := _mm_set1_epi32 16711935 in
  xmm0 ← _mm_loadu_si128 mem input;
  xmm3 ← _mm_loadu_si128 mem (input + 16);
  let xmm2 := _mm_and_si128 xmm0 mask in
  let xmm1 := _mm_and_si128 xmm3 mask in
  let xmm0 := _mm_srli_epi16 xmm0 8 in
  let xmm3 := _mm_srli_epi16 xmm3 8 in
  let xmm1 := _mm_packus_epi16 xmm2 xmm1 in
  let xmm0 := _mm_packus_epi16 xmm0 xmm3 in
  let arg0 := _mm256_set_m128i xmm0 xmm0 in
  let arg1 := _mm256_set_m128i xmm1 xmm1 in
  Ok (arg0, arg1).

(** The loop that runs such a function over a range, with the calls of [do_stuff]. *)
Definition split_range (f : list Z -> Z -> res (list Z * list Z)) (r : list Z) : res (list (list Z * list Z)) :=
  let size := Z.of_nat (length r) in
  loop (fun '(i, calls) =>
    if i + 32 <=? size then c ← f r i; Ok (inl (i + 32, calls ++ [c])) else Ok (inr calls))
    (S (length r)) (0, []).

(** ** What they compute *)

Section window.
Context (mem : list Z) (ptr : nat) (Hl : (ptr + 32 <= length mem)%nat) (Hb : Forall byte mem).

(** The 32 bytes at [ptr]. *)
Definition window : list Z := take 32 (drop ptr mem).

Lemma length_window : length window = 32%nat.
Proof. unfold window. rewrite length_take, length_drop. lia. Qed.

Lemma byte_window : Forall byte window.
Proof. by apply Forall_take, Forall_drop. Qed.

Lemma window_at i x :
  window !! i = Some x -> mem.[Z.of_nat ptr + Z.of_nat i] = Ok x.
Proof.
  unfold window. intros Hx. assert (i < 32)%nat as Hi.
  { apply lookup_lt_Some in Hx. rewrite length_take in Hx. lia. }
  rewrite lookup_take_lt, lookup_drop in Hx by done.
  apply at_index_lookup; [lia|]. by rewrite <- Nat2Z.inj_add, Nat2Z.id.
Qed.

Lemma load_window :
  _mm_loadu_si128 mem (Z.of_nat ptr) = Ok (take 16 window) /\
  _mm_loadu_si128 mem (Z.of_nat ptr + 16) = Ok (drop 16 window).
Proof.
  unfold _mm_loadu_si128, window. rewrite !slice_ok by lia. split; f_equal.
  - rewrite Nat2Z.id, take_take. done.
  - replace (Z.to_nat (Z.of_nat ptr + 16)) with (ptr + 16)%nat by lia.
    change (Z.to_nat 16) with 16%nat. by rewrite skipn_firstn_comm, drop_drop.
Qed.

Lemma window_nth i : (i < 32)%nat -> mem.[Z.of_nat ptr + Z.of_nat i] = Ok (nth i window 0).
Proof.
  intros Hi. apply window_at. destruct (lookup_lt_is_Some_2 window i) as [x Hx].
  { by rewrite length_window. }
  by rewrite (nth_lookup_Some _ _ _ _ Hx).
Qed.

Lemma byte_nth i : byte (nth i window 0).
Proof.
  destruct (window !! i) as [x|] eqn:Hx.
  - rewrite (nth_lookup_Some _ _ _ _ Hx). by eapply (Forall_lookup byte); [apply byte_window|].
  - rewrite nth_lookup, Hx. done.
Qed.

(** Byte [i] of the chain is the byte [first + 2 * i] of the window. *)
Lemma insert_chain_nth (first : nat) :
  (first < 2)%nat ->
  insert_chain mem (Z.of_nat ptr) (Z.of_nat first) =
  Ok ((fun i => nth (first + 2 * i) window 0) <$> seq 0 16).
Proof.
  intros Hf. unfold insert_chain. set (g := fun i => nth (first + 2 * i) window 0).
  assert (forall i, (i < 16)%nat -> mem.[Z.of_nat ptr + Z.of_nat first + 2 * Z.of_nat i] = Ok (g i)) as H.
  { intros i Hi. replace (Z.of_nat ptr + Z.of_nat first + 2 * Z.of_nat i)
      with (Z.of_nat ptr + Z.of_nat (first + 2 * i)) by lia. apply window_nth. lia. }
  assert (forall i, u8 (s8 (g i)) = g i) as Hg.
  { intros i. rewrite uwrap_swrap by done. apply Z.mod_small, byte_nth. }
  rewrite (window_nth first) by lia. cbn [mbind res_bind].
  replace (nth first window 0) with (g 0%nat) by (unfold g; by rewrite Nat.mul_0_r, Nat.add_0_r).
  rewrite <- (uwrap_swrap 8 (g 0%nat)), Hg by done.
  destruct (element_fold (fun i v => v = (g <$> seq 0 i) ++ replicate (16 - i) 0)
    (fun xmm i => x ← mem.[Z.of_nat ptr + Z.of_nat first + 2 * i]; Ok (_mm_insert_epi8 xmm (s8 x) i))
    16 1 (_mm_cvtsi32_si128 (g 0%nat))) as (v & E & ->).
  - intros i v Hi ->. rewrite H by done. cbn [mbind res_bind]. eexists. split; [done|].
    unfold _mm_insert_epi8. rewrite Hg, Nat2Z.id, seq_S, fmap_app, insert_app_r_alt;
      rewrite ?length_fmap, ?length_seq; [|done].
    rewrite Nat.sub_diag, <- app_assoc. replace (16 - i)%nat with (S (16 - S i)) by lia. done.
  - lia.
  - unfold _mm_cvtsi32_si128. pose proof (byte_nth (first + 2 * 0)) as Hby. fold (g 0%nat) in Hby.
    unfold byte in Hby. cbn [le_bytes app fmap list_fmap seq replicate Nat.sub].
    rewrite !Z.div_div, !(Z.div_small (g 0%nat)), Z.mod_small by lia. done.
  - etransitivity; [exact E|]. by rewrite app_nil_r.
Qed.

Lemma evens_seq : evens window = (fun i => nth (0 + 2 * i) window 0) <$> seq 0 16.
Proof.
  pose proof length_window as Hw. destruct window as [|? l]; [done|].
  do 31 (destruct l as [|? l]; [done|]). by destruct l.
Qed.

Lemma odds_seq : odds window = (fun i => nth (1 + 2 * i) window 0) <$> seq 0 16.
Proof.
  pose proof length_window as Hw. destruct window as [|? l]; [done|].
  do 31 (destruct l as [|? l]; [done|]). by destruct l.
Qed.
End window.

(** The register with [half] in both halves. *)
Definition both (half : list Z) : list Z := half ++ half.

Section functions.
Context (mem : list Z) (ptr : nat) (Hl : (ptr + 32 <= length mem)%nat) (Hb : Forall byte mem).
#[local] Abbreviation w := (window mem ptr).

Lemma permute_both half undefined :
  length half = 16%nat -> _mm256_permute4x64_epi64 (half ++ undefined) 68 = both half.
Proof.
  intros Hh. unfold _mm256_permute4x64_epi64, both. do 16 (destruct half as [|? half]; [done|]).
  by destruct half.
Qed.

Lemma clang20_spec undefined :
  split_insert_clang20 undefined mem (Z.of_nat ptr) = Ok (both (evens w), both (odds w)).
Proof.
  unfold split_insert_clang20. change 0 with (Z.of_nat 0) at 1. change 1 with (Z.of_nat 1).
  rewrite !insert_chain_nth by (done || lia).
  rewrite <- evens_seq, <- odds_seq by done. cbn [mbind res_bind].
  destruct (length_evens_odds w 16) as [HE HO]; [by apply length_window|].
  by rewrite !permute_both.
Qed.

Lemma shuffle_spec : split_shuffle_gcc15 mem (Z.of_nat ptr) = Ok (both (evens w), both (odds w)).
Proof.
  unfold split_shuffle_gcc15. destruct (load_window mem ptr Hl) as [-> ->]. cbn [mbind res_bind].
  pose proof (length_window mem ptr Hl) as Hw. destruct w as [|? l]; [done|].
  do 31 (destruct l as [|? l]; [done|]). by destruct l.
Qed.

(** The odd bytes first. *)
Lemma bitwise_pack :
  (_mm_packus_epi16 (_mm_and_si128 (take 16 w) (_mm_set1_epi16 255))
    (_mm_and_si128 (drop 16 w) (_mm_set1_epi16 255)) = evens w) /\
  (_mm_packus_epi16 (_mm_srli_epi16 (take 16 w) 8) (_mm_srli_epi16 (drop 16 w) 8) = odds w).
Proof.
  pose proof (length_window mem ptr Hl) as Hw. pose proof (byte_window mem ptr Hb) as Hbw.
  rewrite pack_evens, pack_odds, take_drop
    by (rewrite ?length_take, ?length_drop, ?Hw; done || by apply Forall_take || by apply Forall_drop).
  done.
Qed.

Lemma store_both_ok v xmm :
  length v = 32%nat -> length xmm = 16%nat -> store_both v xmm = Ok (both xmm).
Proof.
  intros Hv Hx. unfold store_both, _mm_storeu_si128, write_bytes. rewrite Hx, Hv. cbn [mbind res_bind].
  do 32 (destruct v as [|? v]; [done|]). destruct v; [|done].
  do 16 (destruct xmm as [|? xmm]; [done|]). by destruct xmm.
Qed.

Lemma bitwise_spec v0 v1 :
  length v0 = 32%nat -> length v1 = 32%nat ->
  split_bitwise_gcc15_old v0 v1 mem (Z.of_nat ptr) = Ok (both (odds w), both (evens w)) /\
  split_bitwise_gcc14_old v0 v1 mem (Z.of_nat ptr) = Ok (both (odds w), both (evens w)) /\
  split_bitwise_gcc15 mem (Z.of_nat ptr) = Ok (both (odds w), both (evens w)) /\
  split_bitwise_gcc14 mem (Z.of_nat ptr) = Ok (both (odds w), both (evens w)).
Proof.
  intros H0 H1. destruct bitwise_pack as [E O].
  destruct (length_evens_odds w 16) as [HE HO]; [by apply length_window|].
  unfold split_bitwise_gcc15_old, split_bitwise_gcc14_old, split_bitwise_gcc15, split_bitwise_gcc14.
  destruct (load_window mem ptr Hl) as [-> ->]. cbn [mbind res_bind].
  change (_mm_srli_epi16 (_mm_cmpeq_epi32 _mm_setzero_si128 _mm_setzero_si128) 8) with (_mm_set1_epi16 255).
  change (_mm_set1_epi32 16711935) with (_mm_set1_epi16 255).
  rewrite E, O, !store_both_ok by done. done.
Qed.
End functions.

(** The loop over a range splits every whole block of 32 bytes, in order. *)
Lemma split_range_spec f (g : list Z -> list Z * list Z) (r : list Z) :
  (forall ptr, (ptr + 32 <= length r)%nat -> f r (Z.of_nat ptr) = Ok (g (window r ptr))) ->
  split_range f r = Ok ((fun j => g (window r (32 * j))) <$> seq 0 (length r / 32)).
Proof.
  intros Hf. unfold split_range.
  pose proof (Nat.Div0.mul_div_le (length r) 32). pose proof (Nat.mul_succ_div_gt (length r) 32 ltac:(lia)).
  set (m := (length r / 32)%nat) in *.
  enough (forall n k, (k <= m)%nat -> (m - k < n)%nat ->
    loop (fun '(i, calls) =>
      if i + 32 <=? Z.of_nat (length r) then c ← f r i; Ok (inl (i + 32, calls ++ [c])) else Ok (inr calls))
      n (Z.of_nat (32 * k), (fun j => g (window r (32 * j))) <$> seq 0 k) =
    Ok ((fun j => g (window r (32 * j))) <$> seq 0 m)) as HL.
  { apply (HL _ 0%nat); lia. }
  intros n. induction n as [|n IH]; intros k Hk Hn; [lia|]. rewrite loop_S.
  destruct (decide (k = m)) as [->|Hne].
  - rewrite (proj2 (Z.leb_gt _ _)) by lia. done.
  - rewrite (proj2 (Z.leb_le _ _)), Hf by lia. cbn [mbind res_bind].
    replace (Z.of_nat (32 * k) + 32) with (Z.of_nat (32 * S k)) by lia.
    rewrite <- IH with (k := S k) by lia. by rewrite seq_S, fmap_app.
Qed.
