(* ===== verification/SimdStd.v ===== *)
(** * Data-parallel types of the standard library

    src/simd/stdsimd: the maximum of an array (simd_max_element.cpp), the words of a text
    (simd_word_count.cpp) and a bitonic sort (simd_sort.cpp) with [native_simd<T>].
    A vector is the list of its lanes; [step], the number of lanes of [native_simd], is
    the implementation's choice and a parameter here. *)

From S2P Require Import Prelude Bytes SimdView.
From stdpp Require Import list_relations list.
#[local] Open Scope Z_scope.

(** [stdv::stride(n)]: every [n]-th element. *)
Definition stride (n : nat) (v : list Z) : list Z :=
  (fun i => nth (i * n) v 0) <$> seq 0 ((length v + n - 1) / n).

Section native_simd.
Context (step : nat).

(** ** simd_max_element.cpp *)

(** [*stdr::max_element(r)]. *)
Definition max_element (r : list Z) : res Z :=
  match r with
  | [] => Ub PointerRange
  | x :: r => Ok (foldl (fun largest y => if largest <? y then y else largest) x r)
  end.

(** [stdx::hmax]. *)
Definition hmax (v : list Z) : Z :=
  match v with [] => 0 | x :: v => foldl Z.max x v end.

(** The instance for [int]: the lanes start with the least value of the type. *)
Definition simd_max_element (arr : list Z) : res Z :=
  let tile := (length arr / step)%nat in
  let left := (length arr mod step)%nat in
  max_value ← foldR (fun max_value batch =>
      temp ← slice arr batch (Z.of_nat step);
      Ok (zip_with (fun m t => if m <? t then t else m) max_value temp))
    (replicate step (- 2 ^ 31)) (take tile (stride step (views_all arr)));
  if (left =? 0)%nat then Ok (hmax max_value) else
  let left_view := drop (tile * step) arr in
  v ← max_element left_view;
  if forallb (fun m => negb (v <? m)) max_value then Ok v else Ok (hmax max_value).

(** ** simd_word_count.cpp *)

Definition isspace (c : Z) : bool := (c =? 32) || (c =? 10).

Definition count_true (bits : list bool) : nat := length (filter (fun b => b = true) bits).

(** A number of words is at most the size of the text, so [std::size_t] holds it. *)
Definition std_nvda_word_count (s : list Z) : nat :=
  match s with
  | [] => 0
  | c :: s' =>
      (Nat.b2n (negb (isspace c)) + count_true (zip_with (fun l r => isspace l && negb (isspace r)) s s'))%nat
  end.

(** The ends of words inside a vector: [(bits & (~bits << 1)).count()]. *)
Definition simd_transform (temp : list Z) : nat :=
  let bits := isspace <$> temp in
  count_true (zip_with andb bits (false :: (negb <$> bits))).

(** [stdv::drop(n)] with [n] of type [std::size_t], converted to the signed difference type. *)
Definition views_drop (n : Z) (s : list Z) : res (list Z) :=
  let n := s64 n in
  _ ← check (0 <=? n) PointerRange; Ok (drop (Z.to_nat n) s).

Definition simd_word_count (s : list Z) : res nat :=
  let tile := (length s / step)%nat in
  let simdify v := take tile (stride step v) in
  let simd_view := simdify (views_all s) in
  count ← foldR (fun count to_simd =>
      temp ← slice s to_simd (Z.of_nat step); Ok (count + simd_transform temp)%nat) 0%nat simd_view;
  let x := drop 1 (simdify (views_all s)) in
  let y := simdify (drop (step - 1) (views_all s)) in
  count ← foldR (fun count '(curr, prev) =>
      c ← s.[curr]; p ← s.[prev];
      Ok (count + Nat.b2n (isspace c && negb (isspace p)))%nat) count (zip x y);
  let batch := (step * tile)%nat in
  if (length s =? batch)%nat then Ok count else
  left_view ← views_drop (Z.of_nat batch) s;
  prev_view ← views_drop (u64 (Z.of_nat batch - 1)) s;
  let count := (count + std_nvda_word_count left_view)%nat in
  c ← left_view.[0]; p ← prev_view.[0];
  Ok (count + Nat.b2n (isspace c && negb (isspace p)))%nat.

(** ** simd_sort.cpp *)

Inductive directional : Set := incr | decr.

Definition default_scale_hint : Z := 2 ^ 20.
Definition enable_parallel (hint : Z) : bool := default_scale_hint <=? hint.

(** Two jobs on the shared array.  Above the scale the second one runs in a thread of its
    own; [schedule] says for a job size whether it happens to run first. *)
Context (schedule : Z -> bool).

Definition parallel (scale_hint : Z) (job1 job2 : list Z -> res (list Z)) (mem : list Z) : res (list Z) :=
  if negb (enable_parallel scale_hint) then mem ← job1 mem; job2 mem
  else if schedule scale_hint then mem ← job2 mem; job1 mem
  else mem ← job1 mem; job2 mem.

(** A range is the address of its first element and its size. *)
Definition cut (range : Z * nat) : (Z * nat) * (Z * nat) :=
  let '(first, size) := range in
  let half := (size / 2)%nat in
  ((first, half), (first + Z.of_nat half, (size - half)%nat)).

Definition perform (dir : directional) (mem : list Z) (p : Z * Z) : res (list Z) :=
  let '(lhs, rhs) := p in
  x ← mem.[lhs]; y ← mem.[rhs];
  let compare := match dir with incr => x <? y | decr => y <? x end in
  if negb compare then mem ← mem.[lhs <- y]; mem.[rhs <- x] else Ok mem.

Definition perform_simd (dir : directional) (mem : list Z) (p : Z * Z) : res (list Z) :=
  let '(lhs, rhs) := p in
  x ← slice mem lhs (Z.of_nat step);
  y ← slice mem rhs (Z.of_nat step);
  let '(x, y) := (zip_with Z.min x y, zip_with Z.max x y) in
  match dir with
  | incr => mem ← write_bytes mem lhs x; write_bytes mem rhs y
  | decr => mem ← write_bytes mem rhs x; write_bytes mem lhs y
  end.

(** [stdv::zip(lo, hi)]: pairs of addresses. *)
Definition zip_view (lo hi : Z * nat) : list (Z * Z) :=
  zip (seqZ (fst lo) (Z.of_nat (snd lo))) (seqZ (fst hi) (Z.of_nat (snd hi))).

(** [stdv::stride(step) | stdv::take(tile)] of a view of pairs. *)
Definition simdify_zip (view : list (Z * Z)) : list (Z * Z) :=
  let tile := (length view / step)%nat in
  take tile ((fun i => nth (i * step) view (0, 0)) <$> seq 0 ((length view + step - 1) / step)).

(** parallel_for with [enable_parallel_for] false: the loop runs in order. *)
Definition parallel_for_simd (view : list (Z * Z)) (func : list Z -> Z * Z -> res (list Z)) (mem : list Z) :
    res (list Z * nat) :=
  let tile := (length view / step)%nat in
  let consumed := (step * tile)%nat in
  mem ← foldR func mem (simdify_zip view);
  Ok (mem, consumed).

Fixpoint merge (fuel : nat) (range : Z * nat) (dir : directional) (mem : list Z) : res (list Z) :=
  match fuel with
  | O => NoFuel
  | S fuel =>
      if (snd range <? 2)%nat then Ok mem else
      let '(lo, hi) := cut range in
      let zip_view := zip_view lo hi in
      '(mem, consumed) ← parallel_for_simd zip_view (perform_simd dir) mem;
      mem ← foldR (perform dir) mem (drop consumed zip_view);
      parallel (Z.of_nat (snd range)) (merge fuel lo dir) (merge fuel hi dir) mem
  end.

Fixpoint sort (fuel : nat) (range : Z * nat) (dir : directional) (mem : list Z) : res (list Z) :=
  match fuel with
  | O => NoFuel
  | S fuel =>
      if (snd range <? 2)%nat then Ok mem else
      let '(lo, hi) := cut range in
      mem ← parallel (Z.of_nat (snd range)) (sort fuel lo incr) (sort fuel hi decr) mem;
      merge (S fuel) range dir mem
  end.

(** [std::has_single_bit]. *)
Definition has_single_bit (n : Z) : bool := (0 <? n) && (Z.land n (n - 1) =? 0).

(** Every call halves the range, so the size is fuel enough. *)
Definition simd_sort (range : list Z) : res (list Z) :=
  if (length range <? 2)%nat then Ok range else
  _ ← check (has_single_bit (Z.of_nat (length range))) AssertFailed;
  sort (length range) (0, length range) incr range.
End native_simd.

(** * The maximum of an array, and the words of a text *)
From S2P Require Import Prelude Bytes SimdView.
#[local] Open Scope Z_scope.

(** A stride cut to its full groups is simdify. *)
Lemma take_stride step n a :
  (0 < step)%nat ->
  take (n / step) (stride step (seqZ a (Z.of_nat n))) = simdify step (seqZ a (Z.of_nat n)).
Proof.
  intros Hs. unfold stride, simdify. rewrite length_seqZ, Nat2Z.id, <- fmap_take, take_seq.
  do 2 f_equal. apply Nat.min_l. apply Nat.Div0.div_le_mono. lia.
Qed.

(** ** simd_max_element *)

(** The largest of the elements, [- 2 ^ 31] if there are none. *)
Definition largest (l : list Z) : Z := foldr Z.max (- 2 ^ 31) l.

Lemma largest_app l1 l2 : largest (l1 ++ l2) = Z.max (largest l1) (largest l2).
Proof.
  unfold largest. induction l1 as [|x l1 IH]; cbn [app foldr]; [|lia].
  enough (- 2 ^ 31 <= foldr Z.max (- 2 ^ 31) l2) by lia.
  clear. induction l2 as [|x l2 IH]; cbn [foldr]; lia.
Qed.

Lemma largest_ge l x : x ∈ l -> x <= largest l.
Proof. unfold largest. induction 1 as [x l|x y l _ IH]; cbn [foldr]; lia. Qed.

Lemma largest_in l : Forall (fun x => - 2 ^ 31 <= x) l -> l <> [] -> largest l ∈ l.
Proof.
  unfold largest. induction 1 as [|x l Hx Hl IH]; intros Hne; [done|]. cbn [foldr].
  destruct l as [|y l]; [cbn [foldr]; rewrite Z.max_l by done; left|]. specialize (IH ltac:(done)).
  destruct (Z.max_spec x (foldr Z.max (- 2 ^ 31) (y :: l))) as [[_ ->]|[_ ->]]; [by right | left].
Qed.

Lemma foldl_max x l : foldl Z.max x l = foldr Z.max x l.
Proof.
  revert x. induction l as [|y l IH]; intros x; cbn [foldl foldr]; [done|]. rewrite IH.
  clear. induction l as [|z l IH]; cbn [foldr]; lia.
Qed.

Lemma foldr_max_largest x l : - 2 ^ 31 <= x -> foldr Z.max x l = Z.max x (largest l).
Proof. intros Hx. unfold largest. induction l as [|y l IH]; cbn [foldr]; lia. Qed.

Lemma hmax_largest v : v <> [] -> Forall (fun x => - 2 ^ 31 <= x) v -> hmax v = largest v.
Proof.
  intros Hne Hv. destruct v as [|x v]; [done|]. apply Forall_cons_1 in Hv as [Hx _]. cbn [hmax].
  rewrite foldl_max, foldr_max_largest by done. done.
Qed.

Lemma max_element_largest r :
  r <> [] -> Forall (fun x => - 2 ^ 31 <= x) r -> max_element r = Ok (largest r).
Proof.
  intros Hne Hr. destruct r as [|x r]; [done|]. apply Forall_cons_1 in Hr as [Hx _]. cbn [max_element]. f_equal.
  change (largest (x :: r)) with (Z.max x (largest r)). rewrite <- foldr_max_largest, <- foldl_max by done.
  clear. revert x. induction r as [|y r IH]; intros x; cbn [foldl]; [done|]. rewrite IH. f_equal.
  destruct (x <? y) eqn:E; lia.
Qed.

Lemma largest_zip l1 l2 :
  length l1 = length l2 ->
  largest (zip_with (fun m t => if m <? t then t else m) l1 l2) = Z.max (largest l1) (largest l2).
Proof.
  revert l2. induction l1 as [|x l1 IH]; intros [|y l2] Hl; try done.
  cbn [zip_with]. specialize (IH l2 ltac:(cbn in Hl; lia)). unfold largest in *. cbn [foldr].
  rewrite IH. destruct (x <? y) eqn:E; lia.
Qed.

Lemma at_least_zip l1 l2 :
  Forall (fun x => - 2 ^ 31 <= x) l1 -> Forall (fun x => - 2 ^ 31 <= x) l2 ->
  Forall (fun x => - 2 ^ 31 <= x) (zip_with (fun m t => if m <? t then t else m) l1 l2).
Proof.
  intros H1. revert l2. induction H1 as [|x l1 Hx _ IH]; intros [|y l2] H2; cbn [zip_with]; try by constructor.
  apply Forall_cons_1 in H2 as [Hy H2]. constructor; [by destruct (x <? y) | by apply IH].
Qed.

Lemma largest_replicate n : largest (replicate n (- 2 ^ 31)) = - 2 ^ 31.
Proof. unfold largest. induction n as [|n IH]; [done|]. cbn [replicate foldr]. by rewrite IH. Qed.

Lemma simd_max_spec step arr :
  (0 < step)%nat -> Forall (fun x => - 2 ^ 31 <= x) arr -> simd_max_element step arr = Ok (largest arr).
Proof.
  intros Hs Ha. unfold simd_max_element, views_all. rewrite take_stride by done.
  destruct (view_fold (fun k v => length v = step /\ largest v = largest (take k arr) /\
      Forall (fun x => - 2 ^ 31 <= x) v)
    (fun max_value batch => temp ← slice arr batch (Z.of_nat step);
      Ok (zip_with (fun m t => if m <? t then t else m) max_value temp)) step (length arr))
    with (a := 0%nat) (s := replicate step (- 2 ^ 31)) as (v & E & (Hv & Hm & Hf) & Hle & Hlt); [|done|lia| |].
  { intros k v Hk (Hv & Hm & Hf). rewrite slice_ok, !Nat2Z.id by lia. cbn [mbind res_bind].
    assert (length v = length (take step (drop k arr))) as Hl by (rewrite length_take, length_drop; lia).
    eexists. split; [done|]. rewrite length_zip_with, <- Hl, Nat.min_id, largest_zip by done.
    split_and!; [done | by rewrite <- take_take_drop, largest_app, Hm |].
    apply at_least_zip; [done | by apply Forall_take, Forall_drop]. }
  { rewrite length_replicate. split_and!; [done | apply largest_replicate | by apply Forall_replicate]. }
  rewrite Nat.sub_0_r in *. change (Z.of_nat 0) with 0 in *. rewrite E. cbn [mbind res_bind].
  rewrite simdify_seqZ, length_fmap, length_seq, Nat.add_0_l in * by done.
  assert (v <> []) as Hne by (intros ->; cbn in Hv; lia).
  pose proof (Nat.div_mod_eq (length arr) step) as Hdm.
  assert (largest arr = Z.max (largest v) (largest (drop (step * (length arr / step)) arr))) as ->.
  { by rewrite Hm, <- largest_app, take_drop. }
  destruct (length arr mod step =? 0)%nat eqn:El.
  - apply Nat.eqb_eq in El. rewrite hmax_largest, drop_ge by (done || lia). f_equal.
    unfold largest at 3. cbn [foldr]. destruct v as [|x v]; [done|]. apply Forall_cons_1 in Hf as [Hx _].
    unfold largest. cbn [foldr]. lia.
  - apply Nat.eqb_neq in El. rewrite (Nat.mul_comm (_ / _)). set (rest := drop _ arr).
    assert (rest <> []) as Hr.
    { intros Hnil. apply (f_equal length) in Hnil. unfold rest in Hnil. rewrite length_drop in Hnil. cbn in Hnil. lia. }
    rewrite max_element_largest by (done || by apply Forall_drop). cbn [mbind res_bind].
    destruct (forallb _ v) eqn:Ef.
    + f_equal. apply forallb_Forall in Ef. apply largest_in, list_elem_of_In in Hf; [|done].
      rewrite Forall_forall in Ef. specialize (Ef _ Hf). cbn in Ef. lia.
    + rewrite hmax_largest by done. f_equal. apply not_true_iff_false in Ef.
      apply Z.le_antisymm; [lia|]. apply Z.max_lub; [done|]. apply Z.nlt_ge. intros Hlt'. apply Ef.
      apply forallb_Forall, Forall_forall. intros x Hx. apply list_elem_of_In, largest_ge in Hx.
      cbn. lia.
Qed.

(** ** simd_word_count *)

(** The characters of [s] that end a word, the character before being [prev], and those
    that start one. *)
Fixpoint ends (prev : Z) (s : list Z) : nat :=
  match s with [] => 0 | c :: s => (Nat.b2n (isspace c && negb (isspace prev)) + ends c s)%nat end.
Fixpoint starts (prev : Z) (s : list Z) : nat :=
  match s with [] => 0 | c :: s => (Nat.b2n (isspace prev && negb (isspace c)) + starts c s)%nat end.

(** A text has a word for every character that starts one; before the text is a space. *)
Definition words (s : list Z) : nat := starts 32 s.

Lemma count_true_cons b bs : count_true (b :: bs) = (Nat.b2n b + count_true bs)%nat.
Proof. unfold count_true. by destruct b. Qed.

Lemma starts_zip c s :
  count_true (zip_with (fun l r => isspace l && negb (isspace r)) (c :: s) s) = starts c s.
Proof.
  revert c. induction s as [|d s IH]; intros c; [done|]. cbn [zip_with starts].
  rewrite count_true_cons. f_equal. apply IH.
Qed.

Lemma std_words s : std_nvda_word_count s = words s.
Proof. destruct s as [|c s]; [done|]. unfold std_nvda_word_count. by rewrite starts_zip. Qed.

Lemma transform_ends c s : simd_transform (c :: s) = ends c s.
Proof.
  unfold simd_transform. cbn [fmap list_fmap zip_with]. rewrite count_true_cons, andb_false_r.
  cbn [Nat.b2n Nat.add]. revert c. induction s as [|d s IH]; intros c; [done|].
  cbn [fmap list_fmap zip_with ends]. rewrite count_true_cons. f_equal. apply IH.
Qed.

Lemma ends_app prev s1 p s2 :
  ends prev ((s1 ++ [p]) ++ s2) = (ends prev (s1 ++ [p]) + ends p s2)%nat.
Proof.
  revert prev. induction s1 as [|c s1 IH]; intros prev; cbn [app ends]; [lia|]. rewrite IH. lia.
Qed.

Lemma starts_app prev s1 p s2 :
  starts prev ((s1 ++ [p]) ++ s2) = (starts prev (s1 ++ [p]) + starts p s2)%nat.
Proof.
  revert prev. induction s1 as [|c s1 IH]; intros prev; cbn [app starts]; [lia|]. rewrite IH. lia.
Qed.

(** Every word that starts ends, but for one that reaches the end of the text. *)
Lemma starts_ends prev s1 p :
  (starts prev (s1 ++ [p]) + Nat.b2n (negb (isspace prev)) =
   ends prev (s1 ++ [p]) + Nat.b2n (negb (isspace p)))%nat.
Proof.
  revert prev. induction s1 as [|c s1 IH]; intros prev; cbn [app starts ends].
  - destruct (isspace prev), (isspace p); done.
  - specialize (IH c). destruct (isspace prev), (isspace c); cbn [andb negb Nat.b2n] in *; lia.
Qed.

Lemma foldR_sum {A B} (f : nat -> B -> res nat) (a : A -> B) (h : A -> nat) (l : list A) c :
  Forall (fun i => forall c, f c (a i) = Ok (c + h i)%nat) l ->
  foldR f c (a <$> l) = Ok (c + sum_list_with h l)%nat.
Proof.
  intros Hf. revert c. induction Hf as [|i l Hi _ IH]; intros c; cbn [fmap list_fmap foldR sum_list_with].
  - by rewrite Nat.add_0_r.
  - rewrite Hi. cbn [mbind res_bind]. rewrite IH. f_equal. lia.
Qed.

Section text.
Context (step : nat) (s : list Z) (Hs : (0 < step)%nat).
#[local] Abbreviation tile := (length s / step)%nat.

Definition inner (j : nat) : nat := simd_transform (take step (drop (j * step) s)).
Definition border (j : nat) : nat :=
  Nat.b2n (isspace (nth (j * step) s 0) && negb (isspace (nth (j * step - 1) s 0))).

Lemma take_snoc k : (0 < k <= length s)%nat -> take k s = take (k - 1) s ++ [nth (k - 1) s 0].
Proof.
  intros Hk. replace k with (S (k - 1)) at 1 by lia. apply take_S_r.
  destruct (lookup_lt_is_Some_2 s (k - 1)) as [x Hx]; [lia|]. by rewrite (nth_lookup_Some _ _ _ _ Hx).
Qed.

Lemma drop_nth k : (k < length s)%nat -> drop k s = nth k s 0 :: drop (S k) s.
Proof.
  intros Hk. destruct (lookup_lt_is_Some_2 s k Hk) as [x Hx].
  rewrite (nth_lookup_Some _ _ _ _ Hx). by apply drop_S.
Qed.

Lemma next_vector j :
  (S j * step + step <= length s)%nat ->
  (border (S j) + inner (S j) = ends (nth (S j * step - 1) s 0%Z) (take step (drop (S j * step) s)))%nat.
Proof.
  intros Hj. unfold border, inner. rewrite (drop_nth (S j * step)) by lia. set (k := (S j * step)%nat).
  destruct step as [|n]; [lia|]. cbn [take]. rewrite transform_ends. done.
Qed.

(** The vectors and the borders between them count the ends of words. *)
Lemma ends_vectors j :
  (S j * step <= length s)%nat ->
  (sum_list_with inner (seq 0 (S j)) + sum_list_with border (seq 1 j) = ends 32 (take (S j * step) s))%nat.
Proof.
  intros Hj. induction j as [|j IH].
  - cbn [seq sum_list_with]. unfold inner. rewrite Nat.mul_0_l, Nat.mul_1_l, drop_0.
    rewrite <- (drop_0 s), drop_nth by lia. destruct step as [|n]; [lia|]. cbn [take].
    rewrite transform_ends. cbn [ends]. rewrite andb_false_r. cbn [Nat.b2n]. lia.
  - specialize (IH ltac:(lia)). rewrite (seq_S (S j) 0), (seq_S j 1), !sum_list_with_app.
    replace (S (S j) * step)%nat with (S j * step + step)%nat by lia.
    rewrite <- take_take_drop, (take_snoc (S j * step)), ends_app, <- take_snoc, <- IH, <- next_vector by lia.
    change (0 + S j)%nat with (S j). change (1 + j)%nat with (S j). cbn [sum_list_with]. lia.
Qed.

Lemma count_vectors c :
  foldR (fun count to_simd =>
      temp ← slice s to_simd (Z.of_nat step); Ok (count + simd_transform temp)%nat) c
    (take tile (stride step (views_all s))) = Ok (c + sum_list_with inner (seq 0 tile))%nat.
Proof.
  unfold views_all. rewrite take_stride, simdify_seqZ by done. apply foldR_sum. apply Forall_seq.
  intros j Hj c'. rewrite slice_ok by (pose proof (Nat.Div0.mul_div_le (length s) step); nia).
  cbn [mbind res_bind]. unfold inner. by rewrite Z.add_0_l, !Nat2Z.id.
Qed.

Lemma zip_borders :
  zip (drop 1 (take tile (stride step (views_all s))))
    (take tile (stride step (drop (step - 1) (views_all s)))) =
  (fun j => (Z.of_nat (j * step), Z.of_nat (j * step - 1))) <$> seq 1 (tile - 1).
Proof.
  unfold views_all. rewrite take_stride, simdify_seqZ, drop_seqZ by done.
  apply list_eq. intros i. rewrite list_lookup_fmap.
  rewrite lookup_zip_with, lookup_drop, list_lookup_fmap.
  pose proof (Nat.Div0.mul_div_le (length s) step).
  destruct (decide (i < tile - 1)%nat) as [Hi|Hi].
  - rewrite !lookup_seq_lt by lia. cbn [fmap option_fmap option_map mbind option_bind].
    rewrite lookup_take_lt by lia. unfold stride. rewrite list_lookup_fmap, lookup_seq_lt.
    + cbn. rewrite nth_seqZ by nia. do 3 f_equal; nia.
    + rewrite length_seqZ, Nat2Z.id.
      apply Nat.lt_le_trans with tile; [lia|]. apply Nat.Div0.div_le_mono. lia.
  - rewrite !lookup_seq_ge by lia. done.
Qed.

Lemma count_borders c :
  foldR (fun count '(curr, prev) =>
      c ← s.[curr]; p ← s.[prev];
      Ok (count + Nat.b2n (isspace c && negb (isspace p)))%nat) c
    (zip (drop 1 (take tile (stride step (views_all s))))
      (take tile (stride step (drop (step - 1) (views_all s))))) =
  Ok (c + sum_list_with border (seq 1 (tile - 1)))%nat.
Proof.
  rewrite zip_borders. apply foldR_sum. apply Forall_seq. intros j Hj c'.
  pose proof (Nat.Div0.mul_div_le (length s) step).
  rewrite !at_index_nth by nia. cbn [mbind res_bind]. by rewrite !Nat2Z.id.
Qed.

(** What the vectors count, in all. *)
Lemma vectors_count :
  (sum_list_with inner (seq 0 tile) + sum_list_with border (seq 1 (tile - 1)) =
   ends 32 (take (step * tile) s))%nat.
Proof.
  pose proof (Nat.Div0.mul_div_le (length s) step) as Hle.
  destruct tile as [|j] eqn:Et; [by rewrite Nat.mul_0_r|].
  rewrite Nat.sub_succ, Nat.sub_0_r, (Nat.mul_comm step). apply ends_vectors. lia.
Qed.

Lemma words_ends k :
  (0 < k <= length s)%nat -> words (take k s) = (ends 32 (take k s) + Nat.b2n (negb (isspace (nth (k - 1) s 0%Z))))%nat.
Proof.
  intros Hk. rewrite take_snoc by done.
  pose proof (starts_ends 32 (take (k - 1) s) (nth (k - 1) s 0)) as E. unfold words. cbn in E |- *. lia.
Qed.

(** The words of a text, cut after its first [k] characters. *)
Lemma words_cut k :
  (0 < k < length s)%nat ->
  (ends 32 (take k s) + words (drop k s) +
    Nat.b2n (isspace (nth k s 0%Z) && negb (isspace (nth (k - 1) s 0%Z))) = words s)%nat.
Proof.
  intros Hk. pose proof (words_ends k ltac:(lia)) as Hw.
  assert (words s = words (take k s) + starts (nth (k - 1) s 0%Z) (drop k s))%nat as ->.
  { unfold words. by rewrite (take_snoc k), <- starts_app, <- take_snoc, take_drop by lia. }
  rewrite Hw. unfold words. rewrite drop_nth by lia. cbn [starts].
  destruct (isspace (nth k s 0)), (isspace (nth (k - 1) s 0)); cbn; lia.
Qed.

Lemma views_drop_ok k : Z.of_nat k < 2 ^ 63 -> views_drop (Z.of_nat k) s = Ok (drop k s).
Proof.
  intros Hk. unfold views_drop. rewrite swrap_id, (proj2 (Z.leb_le _ _)) by (unfold sfits; lia). cbn.
  by rewrite Nat2Z.id.
Qed.

Lemma simd_word_count_spec :
  Z.of_nat (length s) < 2 ^ 63 ->
  simd_word_count step s =
  if (length s =? 0)%nat then Ok 0%nat
  else if (length s <? step)%nat then Ub PointerRange
  else if (length s mod step =? 0)%nat then Ok (words s - Nat.b2n (negb (isspace (nth (length s - 1) s 0%Z))))%nat
  else Ok (words s).
Proof.
  intros Hlen. unfold simd_word_count. rewrite count_vectors. cbn [mbind res_bind].
  rewrite count_borders. cbn [mbind res_bind]. rewrite Nat.add_0_l, vectors_count.
  pose proof (Nat.div_mod_eq (length s) step) as Hdm. pose proof (Nat.mod_upper_bound (length s) step ltac:(lia)).
  pose proof (Nat.Div0.mul_div_le (length s) step) as Hle. set (k := (step * tile)%nat) in *.
  destruct (Nat.eqb_spec (length s) 0) as [H0|H0].
  { rewrite (proj2 (Nat.eqb_eq _ _)) by lia. by rewrite (nil_length_inv s H0), take_nil. }
  destruct (Nat.eqb_spec (length s mod step) 0) as [Hm|Hm].
  - destruct (Nat.ltb_spec (length s) step); [rewrite Nat.mod_small in Hm; lia|].
    rewrite (proj2 (Nat.eqb_eq _ _)) by lia. pose proof (words_ends (length s) ltac:(lia)) as Hw.
    replace k with (length s) by lia. rewrite take_ge in Hw |- * by done. f_equal. lia.
  - rewrite (proj2 (Nat.eqb_neq _ _)), views_drop_ok by lia. cbn [mbind res_bind].
    destruct (Nat.ltb_spec (length s) step) as [Hlt|Hge].
    + replace k with 0%nat by (unfold k; rewrite Nat.div_small by done; lia). done.
    + assert (0 < k)%nat by (pose proof (Nat.div_str_pos (length s) step ltac:(lia)); nia).
      replace (u64 (Z.of_nat k - 1)) with (Z.of_nat (k - 1)) by (unfold uwrap; rewrite Z.mod_small; lia).
      rewrite views_drop_ok by lia. cbn [mbind res_bind].
      rewrite std_words, !at_index_nth by (rewrite length_drop; lia). cbn [mbind res_bind Z.to_nat].
      assert (forall j, (j < length s)%nat -> nth 0 (drop j s) 0 = nth j s 0) as Hn
        by (intros j Hj; by rewrite drop_nth).
      change (Z.to_nat 0) with 0%nat. by rewrite <- (words_cut k), !Hn by lia.
Qed.
End text.
