(* ===== verification/SimdSortProofs.v ===== *)
(** * The bitonic sort sorts

    The network of comparisons is a function of lists with the two operations of a
    comparison as parameters.  On [bool] the network sorts every bitonic list; a
    threshold maps it from [Z] to [bool], so it sorts on [Z]; and the array code is
    the network on its range of the array. *)

From stdpp Require Import list_relations list sorting.
From S2P Require Import Prelude Bytes SimdView SimdStd.
#[local] Open Scope nat_scope.

(** ** The network *)

Section network.
Context {A : Type}.

(** Comparisons between the halves, then both halves: [2 ^ k] elements. *)
Fixpoint bmerge (mn mx : A -> A -> A) (k : nat) (l : list A) : list A :=
  match k with
  | 0 => l
  | S k =>
      let lo := take (2 ^ k) l in
      let hi := drop (2 ^ k) l in
      bmerge mn mx k (zip_with mn lo hi) ++ bmerge mn mx k (zip_with mx lo hi)
  end.

Definition bmerge_dir (mn mx : A -> A -> A) (dir : directional) (k : nat) (l : list A) : list A :=
  match dir with incr => bmerge mn mx k l | decr => bmerge mx mn k l end.

Fixpoint bsort (mn mx : A -> A -> A) (dir : directional) (k : nat) (l : list A) : list A :=
  match k with
  | 0 => l
  | S k' =>
      bmerge_dir mn mx dir k
        (bsort mn mx incr k' (take (2 ^ k') l) ++ bsort mn mx decr k' (drop (2 ^ k') l))
  end.

Lemma halves_length k (l : list A) :
  length l = 2 ^ S k -> length (take (2 ^ k) l) = 2 ^ k /\ length (drop (2 ^ k) l) = 2 ^ k.
Proof. intros Hl. rewrite length_take, length_drop, Hl. cbn [Nat.pow]. lia. Qed.

Lemma length_bmerge mn mx k l : length l = 2 ^ k -> length (bmerge mn mx k l) = 2 ^ k.
Proof.
  revert l. induction k as [|k IH]; intros l Hl; [done|]. destruct (halves_length k l Hl) as [H1 H2].
  cbn [bmerge]. rewrite length_app, !IH by (rewrite length_zip_with; lia). cbn [Nat.pow]. lia.
Qed.

Lemma length_bsort mn mx dir k l : length l = 2 ^ k -> length (bsort mn mx dir k l) = 2 ^ k.
Proof.
  revert dir l. induction k as [|k IH]; intros dir l Hl; [done|]. destruct (halves_length k l Hl) as [H1 H2].
  cbn [bsort]. unfold bmerge_dir.
  destruct dir; apply length_bmerge; rewrite length_app, !IH by done; cbn [Nat.pow]; lia.
Qed.

(** A comparison keeps the elements. *)
Definition exchange (mn mx : A -> A -> A) : Prop :=
  forall x y, (mn x y = x /\ mx x y = y) \/ (mn x y = y /\ mx x y = x).

Lemma exchange_sym mn mx : exchange mn mx -> exchange mx mn.
Proof. intros H x y. destruct (H x y) as [[? ?]|[? ?]]; [by right | by left]. Qed.

Lemma zip_exchange mn mx lo hi :
  exchange mn mx -> length lo = length hi -> zip_with mn lo hi ++ zip_with mx lo hi ≡ₚ lo ++ hi.
Proof.
  intros Hx. revert hi. induction lo as [|x lo IH]; intros [|y hi] Hl; try done. cbn [zip_with app].
  specialize (IH hi ltac:(cbn in Hl; lia)). rewrite <- !Permutation_middle, IH.
  destruct (Hx x y) as [[-> ->]|[-> ->]]; [done | constructor].
Qed.

Lemma bmerge_perm mn mx k l : exchange mn mx -> length l = 2 ^ k -> bmerge mn mx k l ≡ₚ l.
Proof.
  intros Hx. revert l. induction k as [|k IH]; intros l Hl; [done|].
  destruct (halves_length k l Hl) as [H1 H2]. cbn [bmerge].
  rewrite !IH, zip_exchange, take_drop by (rewrite ?length_zip_with; done || lia). done.
Qed.

Lemma bsort_perm mn mx dir k l : exchange mn mx -> length l = 2 ^ k -> bsort mn mx dir k l ≡ₚ l.
Proof.
  intros Hx. revert dir l. induction k as [|k IH]; intros dir l Hl; [done|].
  destruct (halves_length k l Hl) as [H1 H2]. cbn [bsort]. unfold bmerge_dir.
  destruct dir; rewrite bmerge_perm, !IH, take_drop;
    try done; try (by apply exchange_sym);
    rewrite length_app, !length_bsort by done; cbn [Nat.pow]; lia.
Qed.
End network.

(** ** The zero-one principle *)

Section transfer.
Context {A B : Type} (f : A -> B) (mn mx : A -> A -> A) (mn' mx' : B -> B -> B).

Lemma zip_fmap (op : A -> A -> A) (op' : B -> B -> B) l1 l2 :
  (forall x y, f (op x y) = op' (f x) (f y)) ->
  f <$> zip_with op l1 l2 = zip_with op' (f <$> l1) (f <$> l2).
Proof.
  intros Hop. revert l2. induction l1 as [|x l1 IH]; intros [|y l2]; [done..|].
  cbn. by rewrite Hop, <- IH.
Qed.
End transfer.

Lemma fmap_bmerge {A B} (f : A -> B) mn mx mn' mx' k l :
  (forall x y, f (mn x y) = mn' (f x) (f y)) -> (forall x y, f (mx x y) = mx' (f x) (f y)) ->
  f <$> bmerge mn mx k l = bmerge mn' mx' k (f <$> l).
Proof.
  intros Hn Hx. revert l. induction k as [|k IH]; intros l; [done|]. cbn [bmerge].
  by rewrite fmap_app, !IH, <- fmap_take, <- fmap_drop, (zip_fmap f _ _ _ _ Hn), (zip_fmap f _ _ _ _ Hx).
Qed.

Lemma fmap_bsort {A B} (f : A -> B) mn mx mn' mx' dir k l :
  (forall x y, f (mn x y) = mn' (f x) (f y)) -> (forall x y, f (mx x y) = mx' (f x) (f y)) ->
  f <$> bsort mn mx dir k l = bsort mn' mx' dir k (f <$> l).
Proof.
  intros Hn Hx. revert dir l. induction k as [|k IH]; intros dir l; [done|].
  cbn [bsort]. unfold bmerge_dir.
  destruct dir; erewrite fmap_bmerge by done; by rewrite fmap_app, !IH, fmap_take, fmap_drop.
Qed.

Definition threshold (t x : Z) : bool := (t <=? x)%Z.

Lemma threshold_min t x y : threshold t (Z.min x y) = threshold t x && threshold t y.
Proof. unfold threshold. lia. Qed.

Lemma threshold_max t x y : threshold t (Z.max x y) = threshold t x || threshold t y.
Proof. unfold threshold. lia. Qed.

(** Zeros, then ones. *)
Definition bsorted (l : list bool) : Prop := exists a b, l = replicate a false ++ replicate b true.

Lemma bsorted_true l : bsorted (true :: l) -> Forall (fun b => b = true) l.
Proof.
  intros (a & b & E). destruct a as [|a]; [|done]. destruct b as [|b]; [done|].
  cbn in E. injection E as ->. by apply Forall_replicate.
Qed.

Lemma bsorted_tail b l : bsorted (b :: l) -> bsorted l.
Proof.
  intros (x & y & E). destruct x as [|x]; [destruct y as [|y]; [done|]|]; injection E as -> ->.
  - by exists 0, y.
  - by exists x, y.
Qed.

Lemma zero_one l : (forall t, bsorted (threshold t <$> l)) -> StronglySorted Z.le l.
Proof.
  induction l as [|x l IH]; intros H; constructor.
  - apply IH. intros t. by eapply bsorted_tail, H.
  - specialize (H x). rewrite fmap_cons in H. unfold threshold in H at 1. rewrite Z.leb_refl in H.
    apply bsorted_true in H. rewrite Forall_fmap in H. eapply Forall_impl; [|exact H].
    intros y Hy. unfold compose, threshold in Hy. lia.
Qed.

(** ** Bitonic lists of bits *)

(** The bits of [l] are [p] but on the places from [s] to [e]. *)
Definition bitonic (l : list bool) : Prop :=
  exists p s e, s <= e <= length l /\
    forall i, i < length l -> l !! i = Some (xorb p ((s <=? i) && (i <? e))).

Lemma bitonic_intro l p s e :
  s <= e <= length l -> (forall i, i < length l -> l !! i = Some (xorb p ((s <=? i) && (i <? e)))) -> bitonic l.
Proof. intros. by exists p, s, e. Qed.

Lemma lookup_zip_halves (op : bool -> bool -> bool) lo hi p s e i :
  length lo = length hi ->
  (forall i, i < length (lo ++ hi) -> (lo ++ hi) !! i = Some (xorb p ((s <=? i) && (i <? e)))) ->
  i < length lo ->
  zip_with op lo hi !! i =
  Some (op (xorb p ((s <=? i) && (i <? e))) (xorb p ((s <=? length lo + i) && (length lo + i <? e)))).
Proof.
  intros Hl H Hi. rewrite lookup_zip_with.
  pose proof (H i) as H1. pose proof (H (length lo + i)) as H2. rewrite length_app in H1, H2.
  rewrite lookup_app_l in H1 by done. rewrite lookup_app_r in H2 by lia.
  replace (length lo + i - length lo) with i in H2 by lia. rewrite H1, H2 by lia. done.
Qed.

(** Decides equations between bits given by comparisons of naturals. *)
Ltac bits :=
  repeat match goal with
  | |- context [?a <=? ?b] => destruct (Nat.leb_spec a b)
  | |- context [?a <? ?b] => destruct (Nat.ltb_spec a b)
  end; try lia; try done.

Section clean.
Context (lo hi : list bool) (p : bool) (s e : nat).
Context (Hl : length lo = length hi) (He : s <= e <= length (lo ++ hi)).
Context (H : forall i, i < length (lo ++ hi) -> (lo ++ hi) !! i = Some (xorb p ((s <=? i) && (i <? e)))).
#[local] Abbreviation m := (length lo).

Lemma clean_bitonic (op : bool -> bool -> bool) p' s' e' :
  s' <= e' <= m ->
  (forall i, i < m ->
    op (xorb p ((s <=? i) && (i <? e))) (xorb p ((s <=? m + i) && (m + i <? e))) =
    xorb p' ((s' <=? i) && (i <? e'))) ->
  bitonic (zip_with op lo hi).
Proof.
  intros He' Hop. apply (bitonic_intro _ p' s' e').
  - by rewrite length_zip_with, <- Hl, Nat.min_id.
  - intros i. rewrite length_zip_with, <- Hl, Nat.min_id. intros Hi.
    by rewrite (lookup_zip_halves op lo hi p s e), Hop.
Qed.

Lemma clean_const (op : bool -> bool -> bool) c :
  (forall i, i < m ->
    op (xorb p ((s <=? i) && (i <? e))) (xorb p ((s <=? m + i) && (m + i <? e))) = c) ->
  Forall (fun b => b = c) (zip_with op lo hi).
Proof.
  intros Hop. apply Forall_lookup_2. intros i b Hb.
  assert (i < m) as Hi. { apply lookup_lt_Some in Hb. rewrite length_zip_with in Hb. lia. }
  rewrite (lookup_zip_halves op lo hi p s e), Hop in Hb by done. by injection Hb.
Qed.
End clean.

(** The comparisons between the halves of a bitonic list leave two bitonic halves, of
    which the first is all zeros or the second all ones. *)
Lemma clean_halves lo hi :
  length lo = length hi -> bitonic (lo ++ hi) ->
  bitonic (zip_with andb lo hi) /\ bitonic (zip_with orb lo hi) /\
  (Forall (fun b => b = false) (zip_with andb lo hi) \/ Forall (fun b => b = true) (zip_with orb lo hi)).
Proof.
  intros Hl (p & s & e & He & H). pose proof He as He'. rewrite length_app in He'.
  pose proof (clean_bitonic lo hi p s e Hl H) as B. pose proof (clean_const lo hi p s e Hl He H) as C.
  set (m := length lo) in *. clearbody m. clear H He.
  destruct (Nat.le_gt_cases e m) as [H1|H1]; [|destruct (Nat.le_gt_cases m s) as [H2|H2];
    [|destruct (Nat.le_gt_cases (e - m) s) as [H3|H3]]]; destruct p.
  - split_and!; [apply (B _ true s e) | apply (B _ true 0 0) | right; apply C]; try lia; intros i Hi; bits.
  - split_and!; [apply (B _ false 0 0) | apply (B _ false s e) | left; apply C]; try lia; intros i Hi; bits.
  - split_and!; [apply (B _ true (s - m) (e - m)) | apply (B _ true 0 0) | right; apply C]; try lia; intros i Hi; bits.
  - split_and!; [apply (B _ false 0 0) | apply (B _ false (s - m) (e - m)) | left; apply C]; try lia; intros i Hi; bits.
  - split_and!; [apply (B _ false (e - m) s) | apply (B _ true 0 0) | right; apply C]; try lia; intros i Hi; bits.
  - split_and!; [apply (B _ false 0 0) | apply (B _ true (e - m) s) | left; apply C]; try lia; intros i Hi; bits.
  - split_and!; [apply (B _ false 0 0) | apply (B _ true s (e - m)) | left; apply C]; try lia; intros i Hi; bits.
  - split_and!; [apply (B _ false s (e - m)) | apply (B _ true 0 0) | right; apply C]; try lia; intros i Hi; bits.
Qed.

Lemma exchange_bool : exchange andb orb.
Proof. intros [] []; [by left | by right | by left | by left]. Qed.

Lemma exchange_Z : exchange Z.min Z.max.
Proof. intros x y. lia. Qed.

Lemma Forall_const c (l : list bool) : Forall (fun b => b = c) l -> l = replicate (length l) c.
Proof. induction 1 as [|x l -> _ IH]; [done|]. cbn. by f_equal. Qed.

(** Every bitonic list of bits is sorted by the merge. *)
Lemma bmerge_bitonic k l : length l = 2 ^ k -> bitonic l -> bsorted (bmerge andb orb k l).
Proof.
  revert l. induction k as [|k IH]; intros l Hl Hb.
  { destruct l as [|[] [|? ?]]; try done; [by exists 0, 1 | by exists 1, 0]. }
  destruct (halves_length k l Hl) as [H1 H2]. rewrite <- (take_drop (2 ^ k) l) in Hb. cbn [bmerge].
  set (lo := take _ l) in *. set (hi := drop _ l) in *.
  destruct (clean_halves lo hi ltac:(lia) Hb) as (Ba & Bo & Hc).
  assert (length (zip_with andb lo hi) = 2 ^ k /\ length (zip_with orb lo hi) = 2 ^ k) as [La Lo].
  { rewrite !length_zip_with. lia. }
  destruct (IH _ La Ba) as (a1 & b1 & Ea), (IH _ Lo Bo) as (a2 & b2 & Eo).
  pose proof (bmerge_perm andb orb k _ exchange_bool La) as Pa.
  pose proof (bmerge_perm andb orb k _ exchange_bool Lo) as Po.
  destruct Hc as [Hc|Hc].
  - rewrite <- Pa in Hc. apply Forall_const in Hc. rewrite Hc, Eo, app_assoc, <- replicate_add.
    by eexists _, _.
  - rewrite <- Po in Hc. apply Forall_const in Hc. rewrite Hc, Ea, <- app_assoc, <- replicate_add.
    by eexists _, _.
Qed.

(** Ones, then zeros. *)
Definition brev (l : list bool) : Prop := exists a b, l = replicate a true ++ replicate b false.

Lemma bitonic_negb l : bitonic l -> bitonic (negb <$> l).
Proof.
  intros (p & s & e & He & H). apply (bitonic_intro _ (negb p) s e); rewrite length_fmap; [done|].
  intros i Hi. rewrite list_lookup_fmap, H by done. cbn. f_equal. by rewrite negb_xorb_l.
Qed.

Lemma bmerge_bitonic_decr k l : length l = 2 ^ k -> bitonic l -> brev (bmerge orb andb k l).
Proof.
  intros Hl Hb. destruct (bmerge_bitonic k (negb <$> l)) as (a & b & E);
    [by rewrite length_fmap | by apply bitonic_negb |]. exists a, b.
  assert (negb <$> bmerge orb andb k l = bmerge andb orb k (negb <$> l)) as E'.
  { apply fmap_bmerge; intros [] []; done. }
  rewrite E in E'. apply (f_equal (fmap negb)) in E'.
  rewrite <- list_fmap_compose, fmap_app, !fmap_replicate in E'. cbn [negb] in E'. rewrite <- E'.
  rewrite <- (list_fmap_id (bmerge orb andb k l)) at 1. apply list_fmap_ext. by intros i [] _.
Qed.

Lemma sorted_bitonic l1 l2 : bsorted l1 -> brev l2 -> bitonic (l1 ++ l2).
Proof.
  intros (a & b & ->) (c & d & ->). apply (bitonic_intro _ false a (a + b + c)).
  - rewrite !length_app, !length_replicate. lia.
  - intros i. rewrite !length_app, !length_replicate. intros Hi.
    rewrite <- app_assoc, (app_assoc (replicate b true)), <- replicate_add.
    destruct (Nat.lt_ge_cases i a); [|destruct (Nat.lt_ge_cases i (a + b + c))].
    + rewrite lookup_app_l, lookup_replicate_2 by (rewrite ?length_replicate; lia). f_equal. bits.
    + rewrite lookup_app_r, lookup_app_l, lookup_replicate_2 by (rewrite ?length_replicate; lia). f_equal. bits.
    + rewrite !lookup_app_r, lookup_replicate_2 by (rewrite ?length_replicate; lia). f_equal. bits.
Qed.

Lemma bsort_bool k l :
  length l = 2 ^ k -> bsorted (bsort andb orb incr k l) /\ brev (bsort andb orb decr k l).
Proof.
  revert l. induction k as [|k IH]; intros l Hl.
  { destruct l as [|[] [|? ?]]; try done; split; (by exists 0, 1) || (by exists 1, 0). }
  destruct (halves_length k l Hl) as [H1 H2]. cbn [bsort bmerge_dir].
  set (u := bsort andb orb incr k _ ++ _).
  assert (length u = 2 ^ S k) as Hu.
  { unfold u. rewrite length_app, !length_bsort by done. cbn [Nat.pow]. lia. }
  assert (bitonic u) as Hb by (apply sorted_bitonic; apply IH; done).
  split; [by apply bmerge_bitonic | by apply bmerge_bitonic_decr].
Qed.

Lemma bsort_sorted k l : length l = 2 ^ k -> StronglySorted Z.le (bsort Z.min Z.max incr k l).
Proof.
  intros Hl. apply zero_one. intros t.
  rewrite (fmap_bsort _ _ _ andb orb) by (apply threshold_min || apply threshold_max).
  apply bsort_bool. by rewrite length_fmap.
Qed.

(** * The bitonic sort on its array is the network *)
#[local] Open Scope Z_scope.

(** ** Parts of an array *)

Lemma slice_part {A} (P X R : list A) a n :
  a = Z.of_nat (length P) -> n = Z.of_nat (length X) -> slice (P ++ X ++ R) a n = Ok X.
Proof.
  intros -> ->. rewrite slice_ok by (rewrite ?length_app; lia).
  by rewrite !Nat2Z.id, drop_app_length, take_app_length.
Qed.

Lemma write_part {A} (P X Y R : list A) a :
  a = Z.of_nat (length P) -> length X = length Y -> write_bytes (P ++ X ++ R) a Y = Ok (P ++ Y ++ R).
Proof.
  intros -> HXY. unfold write_bytes. rewrite !(proj2 (Z.leb_le _ _)) by (rewrite ?length_app; lia). cbn [andb].
  rewrite Nat2Z.id, take_app_length, <- drop_drop, drop_app_length, <- HXY, drop_app_length. done.
Qed.

(** What a comparison puts in the first and in the second place. *)
Definition op1 (dir : directional) : Z -> Z -> Z := match dir with incr => Z.min | decr => Z.max end.
Definition op2 (dir : directional) : Z -> Z -> Z := match dir with incr => Z.max | decr => Z.min end.

Lemma perform_simd_part step dir P X Q Y R a b :
  length X = step -> length Y = step -> a = Z.of_nat (length P) -> b = Z.of_nat (length (P ++ X ++ Q)) ->
  perform_simd step dir (P ++ X ++ Q ++ Y ++ R) (a, b) =
  Ok (P ++ zip_with (op1 dir) X Y ++ Q ++ zip_with (op2 dir) X Y ++ R).
Proof.
  intros HX HY Ha Hb. unfold perform_simd.
  assert (forall op : Z -> Z -> Z, length (zip_with op X Y) = step) as Hz by (intros; rewrite length_zip_with; lia).
  assert (forall X' Y', P ++ X' ++ Q ++ Y' ++ R = (P ++ X' ++ Q) ++ Y' ++ R) as E
    by (intros; by rewrite <- !app_assoc).
  rewrite (slice_part P X _ a) by (done || lia). cbn [mbind res_bind].
  rewrite E, (slice_part _ Y R b) by (done || lia). cbn [mbind res_bind]. destruct dir.
  - rewrite <- E, (write_part P X _ _ a) by (done || by rewrite Hz). cbn [mbind res_bind].
    rewrite E, (write_part _ Y _ R b); [by rewrite <- E | | by rewrite Hz]. by rewrite Hb, !length_app, Hz, HX.
  - rewrite (write_part _ Y _ R b) by (done || by rewrite Hz). cbn [mbind res_bind].
    rewrite <- E, (write_part P X _ _ a) by (done || by rewrite Hz). done.
Qed.

Lemma perform_part dir P x Q y R a b :
  a = Z.of_nat (length P) -> b = Z.of_nat (length (P ++ [x] ++ Q)) ->
  perform dir (P ++ [x] ++ Q ++ [y] ++ R) (a, b) = Ok (P ++ [op1 dir x y] ++ Q ++ [op2 dir x y] ++ R).
Proof.
  intros Ha Hb. unfold perform.
  assert (forall x' y', P ++ [x'] ++ Q ++ [y'] ++ R = (P ++ [x'] ++ Q) ++ [y'] ++ R) as E
    by (intros; by rewrite <- !app_assoc).
  assert (forall x', length (P ++ [x'] ++ Q) = length (P ++ [x] ++ Q)) as HL by (intros; by rewrite !length_app).
  rewrite (at_index_lookup _ a x) by (try lia; rewrite Ha, Nat2Z.id; by apply list_lookup_middle). cbn [mbind res_bind].
  rewrite (at_index_lookup _ b y) by (try lia; rewrite E, Hb, Nat2Z.id; by apply list_lookup_middle).
  cbn [mbind res_bind].
  assert ((if negb match dir with incr => x <? y | decr => y <? x end then (y, x) else (x, y)) =
    (op1 dir x y, op2 dir x y)) as Hop by (destruct dir; cbn; destruct (_ <? _) eqn:?; cbn; f_equal; lia).
  destruct (negb _); injection Hop as <- <-; [|done].
  rewrite set_index_ok by (rewrite !length_app in *; cbn in *; lia). cbn [mbind res_bind].
  rewrite Ha, Nat2Z.id, insert_app_r_alt, Nat.sub_diag by done. cbn [app insert list_insert].
  change (P ++ y :: Q ++ y :: R) with (P ++ [y] ++ Q ++ [y] ++ R).
  rewrite E, set_index_ok by (rewrite Hb, !length_app; cbn; lia).
  rewrite Hb, Nat2Z.id, <- (HL y), insert_app_r_alt, Nat.sub_diag by done. cbn [app insert list_insert].
  by rewrite <- app_assoc.
Qed.

(** ** The comparisons between the halves *)

Section halves.
Context (step : nat) (Hs : (0 < step)%nat) (dir : directional).
Context (A lo hi B : list Z) (m : nat) (Hlo : length lo = m) (Hhi : length hi = m).
#[local] Abbreviation lo' := (zip_with (op1 dir) lo hi).
#[local] Abbreviation hi' := (zip_with (op2 dir) lo hi).

(** The array after the first [j] comparisons. *)
Definition compared (j : nat) : list Z :=
  A ++ take j lo' ++ drop j lo ++ take j hi' ++ drop j hi ++ B.

Lemma split_at {X} (l : list X) j w : drop j l = take w (drop j l) ++ drop (j + w) l.
Proof. by rewrite <- drop_drop, take_drop. Qed.

Lemma take_zip (op : Z -> Z -> Z) j w :
  take (j + w) (zip_with op lo hi) =
  take j (zip_with op lo hi) ++ zip_with op (take w (drop j lo)) (take w (drop j hi)).
Proof. by rewrite <- zip_with_take, <- zip_with_drop, take_take_drop. Qed.

Lemma length_take_zip (op : Z -> Z -> Z) j : (j <= m)%nat -> length (take j (zip_with op lo hi)) = j.
Proof. intros Hj. rewrite length_take, length_zip_with. lia. Qed.

(** The array around the [w] elements from [j] on of both halves. *)
Lemma compared_split j w :
  compared j = (A ++ take j lo') ++ take w (drop j lo) ++ (drop (j + w) lo ++ take j hi') ++
    take w (drop j hi) ++ (drop (j + w) hi ++ B).
Proof.
  unfold compared. rewrite (split_at lo j w) at 1. rewrite (split_at hi j w) at 1. by rewrite <- !app_assoc.
Qed.

Lemma compared_next j w :
  compared (j + w) = (A ++ take j lo') ++ zip_with (op1 dir) (take w (drop j lo)) (take w (drop j hi)) ++
    (drop (j + w) lo ++ take j hi') ++ zip_with (op2 dir) (take w (drop j lo)) (take w (drop j hi)) ++
    (drop (j + w) hi ++ B).
Proof. unfold compared. rewrite !take_zip. by rewrite <- !app_assoc. Qed.

Lemma compare_simd j :
  (j + step <= m)%nat ->
  perform_simd step dir (compared j) (Z.of_nat (length A) + Z.of_nat j, Z.of_nat (length A + m) + Z.of_nat j) =
  Ok (compared (j + step)).
Proof.
  intros Hj. rewrite (compared_split j step), compared_next. apply perform_simd_part.
  - rewrite length_take, length_drop. lia.
  - rewrite length_take, length_drop. lia.
  - rewrite length_app, length_take_zip; lia.
  - rewrite !length_app, !length_take_zip, length_take, !length_drop by lia. lia.
Qed.

Lemma compare_scalar j :
  (j < m)%nat ->
  perform dir (compared j) (Z.of_nat (length A) + Z.of_nat j, Z.of_nat (length A + m) + Z.of_nat j) =
  Ok (compared (S j)).
Proof.
  intros Hj. rewrite <- Nat.add_1_r, (compared_split j 1), compared_next.
  destruct (lookup_lt_is_Some_2 lo j) as [x Hx]; [lia|]. destruct (lookup_lt_is_Some_2 hi j) as [y Hy]; [lia|].
  rewrite (drop_S _ _ _ Hx), (drop_S _ _ _ Hy), Nat.add_1_r. apply perform_part.
  - rewrite length_app, length_take_zip; lia.
  - rewrite !length_app, !length_take_zip, !length_drop by lia. cbn [length]. lia.
Qed.
End halves.

(** ** The views *)

Lemma foldR_fmap {S A B} (f : S -> B -> res S) (g : A -> B) s l :
  foldR f s (g <$> l) = foldR (fun s x => f s (g x)) s l.
Proof.
  revert s. induction l as [|x l IH]; intros s; [done|]. cbn [fmap list_fmap foldR].
  destruct (f s (g x)); [apply IH | done | done].
Qed.

Definition pair_at (a b j : Z) : Z * Z := (a + j, b + j).

Lemma zip_view_pairs a b m :
  zip_view (a, m) (b, m) = pair_at a b <$> seqZ 0 (Z.of_nat m).
Proof.
  unfold zip_view. cbn [fst snd]. apply list_eq. intros i. rewrite lookup_zip_with, list_lookup_fmap.
  destruct (decide (i < m)%nat).
  - rewrite !lookup_seqZ_lt by lia. done.
  - rewrite !lookup_seqZ_ge by lia. done.
Qed.

Lemma simdify_pairs step a b m :
  (0 < step)%nat ->
  simdify_zip step (pair_at a b <$> seqZ 0 (Z.of_nat m)) =
  pair_at a b <$> simdify step (seqZ 0 (Z.of_nat m)).
Proof.
  intros Hs. unfold simdify_zip. rewrite simdify_seqZ, length_fmap, length_seqZ, Nat2Z.id by done.
  rewrite <- fmap_take, take_seq, Nat.min_l by (apply Nat.Div0.div_le_mono; lia).
  rewrite <- list_fmap_compose. apply list_fmap_ext. intros k i Hi. apply lookup_seq in Hi as [-> Hk].
  apply nth_lookup_Some. pose proof (Nat.Div0.mul_div_le m step).
  rewrite list_lookup_fmap, lookup_seqZ_lt by nia. done.
Qed.

(** The comparisons of merge: first with vectors, the rest one by one. *)
Lemma compare_all step dir A lo hi B m (k : list Z -> res (list Z)) :
  (0 < step)%nat -> length lo = m -> length hi = m ->
  let a := Z.of_nat (length A) in
  let v := zip_view (a, m) (a + Z.of_nat m, m) in
  ('(mem, consumed) ← parallel_for_simd step v (perform_simd step dir) (A ++ lo ++ hi ++ B);
   mem ← foldR (perform dir) mem (drop consumed v); k mem) =
  k (A ++ zip_with (op1 dir) lo hi ++ zip_with (op2 dir) lo hi ++ B).
Proof.
  intros Hs Hlo Hhi a v. unfold v, parallel_for_simd. rewrite zip_view_pairs, simdify_pairs by done.
  rewrite foldR_fmap, length_fmap, length_seqZ, Nat2Z.id. unfold a. rewrite <- Nat2Z.inj_add.
  destruct (view_fold (fun j mem => mem = compared dir A lo hi B j)
    (fun mem j => perform_simd step dir mem (pair_at (Z.of_nat (length A)) (Z.of_nat (length A + m)) j))
    step m) with (a := 0%nat) (s := A ++ lo ++ hi ++ B) as (mem & E & -> & Hle & _); [|done | lia | done |].
  { intros j s Hj ->. eexists. split; [by apply compare_simd | done]. }
  rewrite Nat.sub_0_r in *. change (Z.of_nat 0) with 0 in *. rewrite E. cbn [mbind res_bind].
  rewrite simdify_seqZ, length_fmap, length_seq, Nat.add_0_l in * by done.
  rewrite <- fmap_drop, drop_seqZ, foldR_fmap, Z.add_0_l.
  destruct (element_fold (fun j mem => mem = compared dir A lo hi B j)
    (fun mem j => perform dir mem (pair_at (Z.of_nat (length A)) (Z.of_nat (length A + m)) j))
    m (step * (m / step)) (compared dir A lo hi B (step * (m / step)))) as (mem & E2 & ->); [|done | done |].
  { intros j s Hj ->. eexists. split; [by apply (compare_scalar step Hs dir A lo hi B m) | done]. }
  rewrite E2. cbn [mbind res_bind]. f_equal. unfold compared.
  rewrite !take_ge, !drop_ge by (rewrite ?length_zip_with; lia). done.
Qed.

(** ** merge and sort *)

Lemma parallel_both schedule hint job1 job2 A l1 l2 l1' l2' B :
  (forall X, length X = length l2 -> job1 (A ++ l1 ++ X ++ B) = Ok (A ++ l1' ++ X ++ B)) ->
  (forall X, length X = length l1 -> job2 (A ++ X ++ l2 ++ B) = Ok (A ++ X ++ l2' ++ B)) ->
  length l1' = length l1 -> length l2' = length l2 ->
  parallel schedule hint job1 job2 (A ++ l1 ++ l2 ++ B) = Ok (A ++ l1' ++ l2' ++ B).
Proof.
  intros H1 H2 L1 L2. unfold parallel.
  destruct (negb _); [|destruct (schedule hint)]; rewrite ?H1, ?H2 by done; cbn [mbind res_bind];
    rewrite ?H1, ?H2 by done; done.
Qed.

Section array.
Context (step : nat) (Hs : (0 < step)%nat) (schedule : Z -> bool).

Lemma half_pow k : (2 ^ S k / 2 = 2 ^ k)%nat.
Proof. rewrite Nat.pow_succ_r', Nat.mul_comm. by apply Nat.div_mul. Qed.

Lemma bmerge_dir_ops dir k l : bmerge_dir Z.min Z.max dir k l = bmerge (op1 dir) (op2 dir) k l.
Proof. by destruct dir. Qed.

Lemma cut_pow a k : cut (a, (2 ^ S k)%nat) = ((a, (2 ^ k)%nat), (a + Z.of_nat (2 ^ k), (2 ^ k)%nat)).
Proof. unfold cut. rewrite half_pow. do 2 f_equal. cbn [Nat.pow]. lia. Qed.

Lemma pow2_ge_2 k : (2 <= 2 ^ S k)%nat.
Proof. pose proof (Nat.pow_nonzero 2 k). cbn [Nat.pow]. lia. Qed.

Lemma merge_network fuel dir k A l B :
  (k < fuel)%nat -> length l = (2 ^ k)%nat ->
  merge step schedule fuel (Z.of_nat (length A), 2 ^ k)%nat dir (A ++ l ++ B) =
  Ok (A ++ bmerge (op1 dir) (op2 dir) k l ++ B).
Proof.
  revert fuel A l B. induction k as [|k IH]; intros [|fuel] A l B Hf Hl; try lia; [done|].
  cbn [merge]. cbn [snd]. rewrite (proj2 (Nat.ltb_ge _ _)) by apply pow2_ge_2. rewrite cut_pow.
  destruct (halves_length k l Hl) as [H1 H2]. rewrite <- (take_drop (2 ^ k) l) at 1. rewrite <- app_assoc.
  rewrite compare_all by done. cbn [bmerge]. rewrite <- app_assoc.
  set (x := zip_with (op1 dir) _ _). set (y := zip_with (op2 dir) _ _).
  assert (length x = 2 ^ k /\ length y = 2 ^ k)%nat as [Lx Ly] by (unfold x, y; rewrite !length_zip_with; lia).
  apply parallel_both; try by rewrite length_bmerge.
  - intros X HX. apply IH; [lia | done].
  - intros X HX. rewrite (app_assoc A X), (app_assoc A X).
    replace (Z.of_nat (length A) + Z.of_nat (2 ^ k)) with (Z.of_nat (length (A ++ X))) by (rewrite length_app; lia).
    apply IH; [lia | done].
Qed.

Lemma sort_network fuel dir k A l B :
  (k < fuel)%nat -> length l = (2 ^ k)%nat ->
  sort step schedule fuel (Z.of_nat (length A), 2 ^ k)%nat dir (A ++ l ++ B) =
  Ok (A ++ bsort Z.min Z.max dir k l ++ B).
Proof.
  revert fuel dir A l B. induction k as [|k IH]; intros [|fuel] dir A l B Hf Hl; try lia; [done|].
  cbn [sort]. cbn [snd]. rewrite (proj2 (Nat.ltb_ge _ _)) by apply pow2_ge_2. rewrite cut_pow.
  destruct (halves_length k l Hl) as [H1 H2]. rewrite <- (take_drop (2 ^ k) l) at 1. rewrite <- app_assoc.
  rewrite (parallel_both _ _ _ _ A _ _ (bsort Z.min Z.max incr k (take (2 ^ k) l))
    (bsort Z.min Z.max decr k (drop (2 ^ k) l))); try by rewrite length_bsort.
  - cbn [mbind res_bind bsort]. rewrite bmerge_dir_ops, (app_assoc (bsort _ _ incr _ _)).
    apply merge_network; [lia|]. rewrite length_app, !length_bsort by done. cbn [Nat.pow]. lia.
  - intros X HX. apply IH; [lia | done].
  - intros X HX. rewrite (app_assoc A X), (app_assoc A X).
    replace (Z.of_nat (length A) + Z.of_nat (2 ^ k)) with (Z.of_nat (length (A ++ X))) by (rewrite length_app; lia).
    apply IH; [lia | done].
Qed.

Lemma simd_sort_spec k l :
  length l = (2 ^ k)%nat -> simd_sort step schedule l = Ok (bsort Z.min Z.max incr k l).
Proof.
  intros Hl. unfold simd_sort. destruct k as [|k].
  { rewrite Hl. done. }
  rewrite Hl, (proj2 (Nat.ltb_ge _ _)) by apply pow2_ge_2.
  assert (has_single_bit (Z.of_nat (2 ^ S k)) = true) as ->.
  { unfold has_single_bit. rewrite Nat2Z.inj_pow. change (Z.of_nat 2) with 2.
    rewrite (proj2 (Z.ltb_lt _ _)) by (apply Z.pow_pos_nonneg; lia). cbn [andb].
    rewrite Z.sub_1_r, <- Z.ones_equiv, Z.land_ones, Z_mod_same_full by lia. done. }
  cbn [check mbind res_bind]. pose proof (sort_network (2 ^ S k) incr (S k) [] l []) as E.
  rewrite !app_nil_r in E. apply E; [|done]. apply Nat.pow_gt_lin_r. lia.
Qed.
End array.

Lemma has_single_bit_pow n : has_single_bit n = true -> exists k, n = 2 ^ Z.of_nat k.
Proof.
  unfold has_single_bit. intros H. apply andb_true_iff in H as [Hn%Z.ltb_lt Hl%Z.eqb_eq].
  exists (Z.to_nat (Z.log2 n)). rewrite Z2Nat.id by apply Z.log2_nonneg.
  pose proof (Z.log2_spec n Hn) as [H1 H2]. destruct (Z.eq_dec n (2 ^ Z.log2 n)) as [E|E]; [done|].
  exfalso. assert (Z.log2 (n - 1) = Z.log2 n) as EL by (apply Z.log2_unique; [apply Z.log2_nonneg | lia]).
  assert (0 < n - 1) as Hn1 by (pose proof (Z.pow_pos_nonneg 2 (Z.log2 n) ltac:(lia) (Z.log2_nonneg n)); lia).
  apply (f_equal (fun x => Z.testbit x (Z.log2 n))) in Hl. rewrite Z.land_spec, Z.bits_0 in Hl.
  rewrite Z.bit_log2, <- EL, Z.bit_log2 in Hl by done. done.
Qed.

(** The sort of an array of any size. *)
Lemma simd_sort_cases (step : nat) (schedule : Z -> bool) (l : list Z) :
  (0 < step)%nat ->
  if (length l <? 2)%nat || has_single_bit (Z.of_nat (length l)) then
    exists out, simd_sort step schedule l = Ok out /\ StronglySorted Z.le out /\ out ≡ₚ l
  else simd_sort step schedule l = Ub AssertFailed.
Proof.
  intros Hs. destruct (Nat.ltb_spec (length l) 2) as [H2|H2]; cbn [orb].
  - exists l. unfold simd_sort. rewrite (proj2 (Nat.ltb_lt _ _)) by done. split_and!; [done | | done].
    destruct l as [|x [|y l]]; cbn in H2; [constructor | repeat constructor | lia].
  - destruct (has_single_bit _) eqn:Eb.
    + apply has_single_bit_pow in Eb as [k Ek].
      assert (length l = (2 ^ k)%nat) as Hl by (apply Nat2Z.inj; by rewrite Ek, Nat2Z.inj_pow).
      exists (bsort Z.min Z.max incr k l). split_and!; [by apply simd_sort_spec | by apply bsort_sorted |].
      by apply bsort_perm; [apply exchange_Z|].
    + unfold simd_sort. rewrite (proj2 (Nat.ltb_ge _ _)) by done. by rewrite Eb.
Qed.
