(* ===== verification/SimdProps.v ===== *)
(** * What the vector routines compute

    The properties of src/simd: every vector routine against its scalar reference. *)

From stdpp Require Import list_relations list sorting.
From S2P Require Import Prelude Bytes Simd SimdView SimdLanes.
From S2P Require Import SimdCharset SimdCharsetProofs SimdEscape.
From S2P Require Import SimdLookup SimdScan.
From S2P Require Import SimdSplit SimdStd SimdSortProofs.
#[local] Open Scope Z_scope.

(** ** Searches *)

Lemma charset32_to_16_take bs : length bs = 32%nat -> charset32_to_16 bs = Ok (take 16 bs).
Proof. intros Hl. do 32 (destruct bs as [|? bs]; [done|]). by destruct bs. Qed.

Lemma member_take16 bs c : 0 <= c < 128 -> member (take 16 bs) c = member bs c.
Proof.
  intros Hc. unfold member. f_equal. rewrite !nth_lookup, lookup_take_lt; [done|]. div_lia.
Qed.

Lemma first_of_small P Q rng :
  Forall (fun c => 0 <= c < 128) rng -> (forall c, 0 <= c < 128 -> P c = Q c) -> first_of P rng = first_of Q rng.
Proof.
  intros Hb H. unfold first_of. f_equal. apply find_index_ext. intros c Hc. apply H.
  apply list_elem_of_lookup_1 in Hc as [i Hi]. by eapply (Forall_lookup (fun c => 0 <= c < 128)).
Qed.

Lemma contains_small Chars c :
  Forall (fun c => 0 <= c < 128) Chars -> contains Chars c = (c <? 128) && contains Chars c.
Proof.
  intros H. induction H as [|x Chars Hx _ IH]; [by rewrite andb_false_r|]. cbn [contains fold_right].
  fold (contains Chars c). rewrite IH. destruct (Z.eqb_spec c x), (Z.ltb_spec c 128); try done. lia.
Qed.

Lemma member16 bs Chars c :
  Forall (fun c => 0 <= c < 128) Chars -> (forall c, byte c -> member bs c = contains Chars c) -> byte c ->
  member128 (take 16 bs) c = contains Chars c.
Proof.
  intros HC Hm Hc. unfold member128. rewrite (contains_small _ _ HC). destruct (Z.ltb_spec c 128); [|done].
  unfold byte in Hc. rewrite member_take16, Hm by (unfold byte; lia). done.
Qed.

(** For a bitmap of 256 bits and any text, the vector search and the scalar one return
    the index of the first character of the text whose bit is set, or -1. *)
Theorem charset_search_first (charset rng : list Z) :
  length charset = 32%nat -> Forall byte charset -> Forall byte rng ->
  find_charset_avx2 rng charset = Ok (first_of (member charset) rng) /\
  find_charset_scalar rng charset = Ok (first_of (member charset) rng).
Proof. intros. split; [by apply avx2_first | by apply scalar_first]. Qed.

Definition sample_text : list Z := seqZ 60 40 ++ [34; 200; 65].
Definition sample_charset : list Z := <[4%nat := 4]> (replicate 32 0).

Lemma charset_search_first_witness :
  find_charset_avx2 sample_text sample_charset = Ok 40 /\
  find_charset_scalar sample_text sample_charset = Ok 40.
Proof.
  apply (charset_search_first sample_charset sample_text); [done | by apply range_Forall | by apply range_Forall].
Defined.



(** ** Escapes *)

(** With a destination of at least twice the size of the source, the vector function and
    the scalar one of the test return the same length, and write the same text: the source
    with a backslash before every quote and every backslash. *)
Theorem escape_equivalent (src dst : list Z) :
  (2 * length src <= length dst)%nat ->
  exists d1 d2, escape_avx2 src dst = Ok d1 /\ escape_scalar src dst = Ok d2 /\
    d_length d1 = Z.of_nat (length (escaped src)) /\ d_length d2 = d_length d1 /\
    take (length (escaped src)) (d_data d1) = escaped src /\
    take (length (escaped src)) (d_data d2) = escaped src.
Proof.
  intros Hl. destruct (escape_avx2_spec src dst Hl) as (d1 & E1 & _ & L1 & T1).
  destruct (escape_scalar_spec src dst Hl) as (d2 & E2 & _ & L2 & T2).
  exists d1, d2. split_and!; [done | done | done | by rewrite L1 | done | done].
Qed.

Lemma escape_equivalent_witness :
  exists d1, escape_avx2 (seqZ 60 40 ++ [34; 200; 65]) (replicate 90 0) = Ok d1 /\ d_length d1 = 45.
Proof.
  destruct (escape_equivalent (seqZ 60 40 ++ [34; 200; 65]) (replicate 90 0)) as (d1 & d2 & E & _ & L & _);
    [vm_compute; lia|].
  exists d1. split; [exact E|]. rewrite L. vm_compute. reflexivity.
Defined.

(** A reader of escapes: what the backslashes stand for. *)
Fixpoint unescaped (s : list Z) : list Z :=
  match s with
  | [] => []
  | [c] => [c]
  | c :: (d :: s') as t => if c =? BACKSLASH then d :: unescaped s' else c :: unescaped t
  end.

(** C27: reading the escapes of what the vector function writes gives the source back. *)
Theorem escape_roundtrip (src dst : list Z) :
  (2 * length src <= length dst)%nat ->
  exists d, escape_avx2 src dst = Ok d /\ unescaped (take (Z.to_nat (d_length d)) (d_data d)) = src.
Proof.
  intros Hl. destruct (escape_avx2_spec src dst Hl) as (d & E & _ & L & T). exists d. split; [done|].
  rewrite L, Nat2Z.id, T. clear. induction src as [|c src IH]; [done|].
  change (escaped (c :: src)) with ((if special c then [BACKSLASH; c] else [c]) ++ escaped src).
  destruct (special c) eqn:Hs; cbn [app].
  - cbn [unescaped]. rewrite Z.eqb_refl. by rewrite IH.
  - unfold special in Hs. apply orb_false_iff in Hs as [Hb _].
    destruct (escaped src) as [|x t]; cbn [unescaped] in *; [by rewrite <- IH|]. by rewrite Hb, IH.
Qed.

Lemma escape_roundtrip_witness :
  exists d, escape_avx2 (seqZ 60 40 ++ [34; 200; 65]) (replicate 90 0) = Ok d /\
    unescaped (take (Z.to_nat (d_length d)) (d_data d)) = seqZ 60 40 ++ [34; 200; 65].
Proof. apply (escape_roundtrip (seqZ 60 40 ++ [34; 200; 65]) (replicate 90 0)). vm_compute. lia. Defined.

(** ** Lookups *)

(** With a table of at least 256 bytes, the search in registers, with any number of
    vectors at once, replaces every byte by its entry, as the scalar loop does, whatever
    the uninitialized registers hold. *)
Theorem lookup_equivalent (table src : list Z) (indeterminate : list (list Z)) (ILP : nat) :
  (256 <= length table)%nat -> Forall byte src -> length indeterminate = 8%nat -> (0 < ILP)%nat ->
  lookup_scalar src table = Ok (entry table <$> src) /\
  lookup_avx2 indeterminate src table = Ok (entry table <$> src) /\
  lookup_ilp indeterminate ILP src table = Ok (entry table <$> src).
Proof.
  intros. split_and!; [by apply lookup_scalar_spec | by apply lookup_avx2_spec | by apply lookup_ilp_spec].
Qed.

Lemma lookup_equivalent_witness :
  lookup_ilp (replicate 8 []) 2 sample_text (rev (seqZ 0 256)) = Ok ((fun c => 255 - c) <$> sample_text).
Proof.
  apply (lookup_equivalent (rev (seqZ 0 256)) sample_text (replicate 8 []) 2);
    [vm_compute; lia | by apply range_Forall | done | lia].
Defined.

(** ** Prefix sums and sums *)

(** Wherever the scalar loop is defined, which is where every prefix sum fits in an
    [int], both vector functions give the prefix sums too, for any number of vectors at
    once; and on arrays of whole vectors they are defined even where it is not, with the
    prefix sums modulo [2 ^ 32]. *)
Theorem scan_equivalent (ILP : nat) (src : list Z) :
  (0 < ILP)%nat ->
  (fits (prefix 0 src) -> tusenpo src = Ok (prefix 0 src)) /\
  (forall out, tusenpo src = Ok out ->
     out = prefix 0 src /\ scan_avx2.scan src = Ok out /\ scan_ilp.scan ILP src = Ok out) /\
  ((length src mod 8 = 0)%nat ->
     scan_avx2.scan src = Ok (swrap 32 <$> prefix 0 src) /\
     scan_ilp.scan ILP src = Ok (swrap 32 <$> prefix 0 src)).
Proof.
  intros HI. rewrite tusenpo_spec. split_and!.
  - intros Hf. by rewrite (proj2 (forallb_Forall _ _)).
  - destruct (forallb _ _) eqn:Ef; [|done]. intros out [= <-]. apply forallb_Forall in Ef.
    by rewrite scan_avx2_spec, scan_ilp_spec, scanned_fits by (done || by left).
  - intros Hm. rewrite scan_avx2_spec, scan_ilp_spec by (done || by right).
    unfold scanned. by rewrite take_ge, drop_ge, app_nil_r by done.
Qed.

Lemma scan_equivalent_witness :
  scan_ilp.scan 2 (seqZ 1 35) = Ok (prefix 0 (seqZ 1 35)).
Proof.
  destruct (scan_equivalent 2 (seqZ 1 35)) as (_ & H & _); [lia|]. apply H. vm_compute. reflexivity.
Defined.

(** Both sums are the sum of the elements wherever the absolute values of the elements
    add up to less than [2 ^ 31]; and a result they give is always the sum modulo
    [2 ^ 32]. *)
Theorem sum_correct (ILP : nat) (src : list Z) :
  (0 < ILP)%nat ->
  (norm src < 2 ^ 31 -> sum_avx2 src = Ok (total src) /\ sum_avx2_ilp ILP src = Ok (total src)) /\
  (forall r, sum_avx2 src = Ok r \/ sum_avx2_ilp ILP src = Ok r -> r = s32 (total src)).
Proof.
  intros HI. pose proof (sum_avx2_summed src) as H1. pose proof (sum_avx2_ilp_summed ILP src HI) as H2. split.
  - intros Hn. split; by apply summed_total.
  - intros r [E|E]; [by apply (summed_mod _ _ _ H1) | by apply (summed_mod _ _ _ H2)].
Qed.

Lemma sum_correct_witness : sum_avx2_ilp 2 (seqZ (-10) 35) = Ok 245.
Proof. destruct (sum_correct 2 (seqZ (-10) 35)) as [H _]; [lia|]. apply H. vm_compute. reflexivity. Defined.

(** ** Splits *)

(** Over a range, the six functions call [do_stuff] once for every block of 32 bytes, in
    order, with the bytes of even index and those of odd index, each in both halves of a
    register; whatever the indeterminate halves and variables hold.  The first two pass the
    even bytes first, the other four the odd ones. *)
Theorem split_blocks (undefined v0 v1 r : list Z) :
  length v0 = 32%nat -> length v1 = 32%nat -> Forall byte r ->
  let blocks := window r <$> (Nat.mul 32 <$> seq 0 (length r / 32)) in
  let evens_odds := Ok ((fun w => (both (evens w), both (odds w))) <$> blocks) in
  let odds_evens := Ok ((fun w => (both (odds w), both (evens w))) <$> blocks) in
  split_range (split_insert_clang20 undefined) r = evens_odds /\
  split_range split_shuffle_gcc15 r = evens_odds /\
  split_range (split_bitwise_gcc15_old v0 v1) r = odds_evens /\
  split_range (split_bitwise_gcc14_old v0 v1) r = odds_evens /\
  split_range split_bitwise_gcc15 r = odds_evens /\
  split_range split_bitwise_gcc14 r = odds_evens.
Proof.
  intros H0 H1 Hb blocks eo oe. unfold eo, oe, blocks. rewrite <- !list_fmap_compose.
  set (f := fun w => (both (evens w), both (odds w))). set (g := fun w => (both (odds w), both (evens w))).
  split_and!; (apply (split_range_spec _ f) || apply (split_range_spec _ g)); intros ptr Hp.
  - by apply clang20_spec.
  - by apply shuffle_spec.
  - by apply bitwise_spec.
  - by apply bitwise_spec.
  - by apply (bitwise_spec r ptr Hp Hb v0 v1).
  - by apply (bitwise_spec r ptr Hp Hb v0 v1).
Qed.

Lemma split_blocks_witness :
  split_range split_bitwise_gcc14 (seqZ 100 35) =
  Ok [(both ((fun i => 101 + 2 * i) <$> seqZ 0 16), both ((fun i => 100 + 2 * i) <$> seqZ 0 16))].
Proof.
  pose proof (split_blocks [] (replicate 32 0) (replicate 32 0) (seqZ 100 35) eq_refl eq_refl
    ltac:(by apply range_Forall)) as (_ & _ & _ & _ & _ & H). exact H.
Defined.

(** ** Data-parallel types of the standard library *)

(** For any number of lanes, the maximum of an array of [int] is the largest of its
    elements, and the least [int] for an empty array. *)
Theorem simd_max_correct (step : nat) (arr : list Z) :
  (0 < step)%nat -> Forall (fun x => - 2 ^ 31 <= x) arr ->
  exists v, simd_max_element step arr = Ok v /\ (forall x, x ∈ arr -> x <= v) /\
    (arr <> [] -> v ∈ arr) /\ (arr = [] -> v = - 2 ^ 31).
Proof.
  intros Hs Ha. exists (largest arr). split_and!; [by apply simd_max_spec | by apply largest_ge | by apply largest_in | by intros ->].
Qed.

Lemma simd_max_correct_witness : exists v, simd_max_element 4 [3; -9; 2; 7; 8; -1] = Ok v.
Proof.
  destruct (simd_max_correct 4 [3; -9; 2; 7; 8; -1]) as (v & E & _); [lia | repeat constructor; lia |].
  exists v. exact E.
Defined.

(** For any number of lanes, the vector count of the words of a text agrees with the
    count of the standard algorithm, the number of characters that start a word, if the
    text has more than one vector and not a whole number of them.  A text of whole vectors
    that ends in a word has that word left out, and for a text shorter than a vector the
    function drops a negative number of characters, which is undefined. *)
Theorem word_count_cases (step : nat) (s : list Z) :
  (0 < step)%nat -> Z.of_nat (length s) < 2 ^ 63 ->
  std_nvda_word_count s = words s /\
  simd_word_count step s =
  if (length s =? 0)%nat then Ok 0%nat
  else if (length s <? step)%nat then Ub PointerRange
  else if (length s mod step =? 0)%nat
    then Ok (words s - Nat.b2n (negb (isspace (nth (length s - 1) s 0%Z))))%nat
  else Ok (words s).
Proof. intros Hs Hl. split; [apply std_words | by apply simd_word_count_spec]. Qed.

Lemma word_count_cases_witness :
  simd_word_count 4 [97; 98; 32; 97] = Ok 1%nat /\ std_nvda_word_count [97; 98; 32; 97] = 2%nat.
Proof.
  destruct (word_count_cases 4 [97; 98; 32; 97]) as [E1 E2]; [lia | done |].
  split; [exact E2 | exact E1].
Defined.

(** C28: for any number of lanes and any order in which concurrent jobs run, the bitonic
    sort returns a sorted permutation of an array whose size is a power of two, and fails
    its assertion on any other array of two or more elements. *)
Theorem simd_sort_sorts (step : nat) (schedule : Z -> bool) (l : list Z) :
  (0 < step)%nat ->
  if (length l <? 2)%nat || has_single_bit (Z.of_nat (length l)) then
    exists out, simd_sort step schedule l = Ok out /\ StronglySorted Z.le out /\ out ≡ₚ l
  else simd_sort step schedule l = Ub AssertFailed.
Proof. apply simd_sort_cases. Qed.

Lemma simd_sort_sorts_witness :
  exists out, simd_sort 2 (fun _ => true) [5; 3; 9; -1; 5; 0; 2; 8] = Ok out /\
    StronglySorted Z.le out /\ out ≡ₚ [5; 3; 9; -1; 5; 0; 2; 8].
Proof. apply (simd_sort_sorts 2 (fun _ => true) [5; 3; 9; -1; 5; 0; 2; 8]). lia. Defined.
