(* ===== verification/SimdBench.v ===== *)
(** * The benchmark of the searches

    src/simd/find_charset_benchmark.cpp: the generators of texts and bitmaps, what a benchmark runs,
    the names under which the benchmarks are registered, and the arguments of the program.

    The engine is a parameter; [seed] is [std::mt19937 gen{42}].  A benchmark is its name and the
    result of its search, which takes fuel for the loops that draw until a condition holds. *)

From S2P Require Import Prelude Simd SimdCharset.
From stdpp Require Import list pretty strings.
#[local] Open Scope Z_scope.

Inductive Mode : Set := NoMatch | MatchLast | MatchMiddle | MatchFirst1P | Mode_Random.
Inductive CharRange : Set := CharRange_Full | Ascii | HighAscii | Low64 | Printable.
Inductive SetSize : Set := N1 | N2 | N4 | N8 | N16 | N32 | SetSize_Full.
Inductive Prob : Set := P0_001 | P0_01 | P0_1 | P1 | P5 | P10 | P25 | P50.

#[export] Instance Mode_eq_dec : EqDecision Mode.
Proof. solve_decision. Defined.
#[export] Instance Preset_eq_dec : EqDecision Preset.
Proof. solve_decision. Defined.

Definition mode_name (m : Mode) : string :=
  match m with
  | NoMatch => "NoMatch" | MatchLast => "MatchLast" | MatchMiddle => "MatchMid" | MatchFirst1P => "Match1%" | Mode_Random => "Random"
  end.

Definition range_name (r : CharRange) : string :=
  match r with
  | CharRange_Full => "0-255" | Ascii => "0-127" | HighAscii => "128-255" | Low64 => "0-63" | Printable => "print"
  end.

Definition preset_name (p : Preset) : string :=
  match p with
  | Random => "rand" | Json => "json" | Html => "html" | Whitespace => "ws" | LineBreak => "lf" | Digits => "digit"
  | Vowels => "vowel" | ControlChars => "ctrl"
  end.

Definition SetSize_value (s : SetSize) : Z :=
  match s with N1 => 1 | N2 => 2 | N4 => 4 | N8 => 8 | N16 => 16 | N32 => 32 | SetSize_Full => 0 end.

Definition setsize_name (s : SetSize) : string :=
  match s with SetSize_Full => "full" | _ => pretty (SetSize_value s) +:+ "ch" end.

Definition prob_name (p : Prob) : string :=
  match p with
  | P0_001 => "0.001%" | P0_01 => "0.01%" | P0_1 => "0.1%" | P1 => "1%" | P5 => "5%" | P10 => "10%" | P25 => "25%" | P50 => "50%"
  end.

(** In units of 0.00001. *)
Definition prob_value (p : Prob) : Z :=
  match p with P0_001 => 1 | P0_01 => 10 | P0_1 => 100 | P1 => 1000 | P5 => 5000 | P10 => 10000 | P25 => 25000 | P50 => 50000 end.

Definition get_char_range (r : CharRange) : Z * Z :=
  match r with Ascii => (0, 127) | HighAscii => (128, 255) | Low64 => (0, 63) | Printable => (32, 126) | _ => (0, 255) end.

(** [std::uniform_real_distribution<double>(0.0, 1.0)(gen) < z * 0.00001]. *)
Class RealEngine (G : Type) := real_below : Z -> G -> bool * G.

(** ** Generators *)

Section generators.
Context {G : Type} `{!RandomEngine G} `{!RealEngine G} (seed : G).

(** [for(auto &c : data) c = f()], on an array of [n] characters. *)
Fixpoint fill (f : G -> res (Z * G)) (n : nat) (g : G) : res (list Z * G) :=
  match n with
  | O => Ok ([], g)
  | S n => '(c, g) ← f g; '(l, g) ← fill f n g; Ok (c :: l, g)
  end.

(** [static_cast<unsigned char>(dist(gen))], of a distribution from [lo] to [hi]. *)
Definition draw (lo hi : Z) (g : G) : res (Z * G) := let '(c, g) := uniform_int lo hi g in Ok (u8 c, g).

(** [do c = draw(); while(!stop(c))]. *)
Definition draw_until (stop : Z -> res bool) (fuel : nat) (g : G) : res (Z * G) :=
  loop (fun g => '(c, g) ← draw 0 255 g; b ← stop c; Ok (if b : bool then inr (c, g) else inl g)) fuel g.

(** [do temp = draw(); while(in_set(temp) && ++tries < 1000)]; [rest] is [999 - tries]. *)
Fixpoint try_draw (in_set : Z -> res bool) (lo hi : Z) (rest : nat) (g : G) : res (Z * G) :=
  '(temp, g) ← draw lo hi g;
  b ← in_set temp;
  match rest with
  | S rest => if b : bool then try_draw in_set lo hi rest g else Ok (temp, g)
  | O => Ok (temp, g)
  end.

(** [for(int c = lo; c <= hi; ++c) if(in_set(c)) { data[idx] = c; return; }]. *)
Definition insert_first (in_set : Z -> res bool) (lo hi idx : Z) (data : list Z) : res (list Z) :=
  r ← for_find (fun c => b ← in_set c; Ok (if b : bool then Some c else None)) (seqZ lo (hi - lo + 1));
  match r with Some c => data.[idx <- c] | None => Ok data end.

(** [data[idx] = chars[dist(gen)]], of a distribution over the indices. *)
Definition insert_any (chars : list Z) (idx : Z) (data : list Z) (g : G) : res (list Z) :=
  let '(i, _) := uniform_int 0 (Z.of_nat (length chars) - 1) g in c ← chars.[i]; data.[idx <- c].

(** The index of insert_match that a mode asks for. *)
Definition match_index (Size : Z) (M : Mode) : option Z :=
  match M with
  | MatchLast => Some (u64 (Size - 1))
  | MatchMiddle => Some (Size / 2)
  | MatchFirst1P => Some (Size / 100)
  | _ => None
  end.

(** [if(idx >= Size) return; insert(idx)], at the index of the mode. *)
Definition insert_match (Size : Z) (M : Mode) (insert : Z -> res (list Z)) (data : list Z) : res (list Z) :=
  match match_index Size M with
  | Some idx => if Size <=? idx then Ok data else insert idx
  | None => Ok data
  end.

(** [for(int i = 0; i < 32; ++i) charset[i] = char_dist(gen)]. *)
Definition random_charset (lo hi : Z) (g : G) : res (list Z * G) := fill (draw lo hi) 32 g.

(** [for(int i = 0; i < n; ++i) set_bit(charset, char_dist(gen))]. *)
Definition random_bits (lo hi n : Z) (g : G) : res (list Z * G) :=
  foldR (fun '(charset, g) _ => '(c, g) ← draw lo hi g; charset ← set_bit charset c; Ok (charset, g))
    (replicate 32 0, g) (seqZ 0 n).

Definition not_in (charset : list Z) (c : Z) : res bool := b ← test_bit charset c; Ok (negb b).

Definition generate_data (Size : Z) (M : Mode) (fuel : nat) : res (list Z * list Z) :=
  '(charset, g) ← random_charset 0 255 seed;
  if decide (M = Mode_Random) then '(data, _) ← fill (draw 0 255) (Z.to_nat Size) g; Ok (data, charset)
  else
    '(data, g) ← fill (draw_until (not_in charset) fuel) (Z.to_nat Size) g;
    data ← insert_match Size M (fun idx => '(c, _) ← draw_until (test_bit charset) fuel g; data.[idx <- c]) data;
    Ok (data, charset).

Definition generate_data_ranged (Size : Z) (M : Mode) (Range : CharRange) : res (list Z * list Z) :=
  let '(rmin, rmax) := get_char_range Range in
  let range_size := rmax - rmin + 1 in
  '(charset, g) ← random_bits rmin rmax (range_size / 2) seed;
  let in_set := test_bit charset in
  if decide (M = Mode_Random) then '(data, _) ← fill (draw rmin rmax) (Z.to_nat Size) g; Ok (data, charset)
  else
    '(data, _) ← fill (try_draw in_set rmin rmax 999) (Z.to_nat Size) g;
    data ← insert_match Size M (fun idx => insert_first in_set rmin rmax idx data) data;
    Ok (data, charset).

(** A character from 128 on is in no set. *)
Definition in_ascii_set (charset : list Z) (c : Z) : res bool := if 127 <? c then Ok false else test_bit charset c.

Definition generate_data_ascii128 (Size : Z) (M : Mode) (AsciiOnlyData : bool) : res (list Z * list Z) :=
  let hi := if AsciiOnlyData then 127 else 255 in
  '(charset, g) ← random_bits 0 127 64 seed;
  if decide (M = Mode_Random) then '(data, _) ← fill (draw 0 hi) (Z.to_nat Size) g; Ok (data, charset)
  else
    '(data, _) ← fill (try_draw (in_ascii_set charset) 0 hi 999) (Z.to_nat Size) g;
    data ← insert_match Size M (fun idx => insert_first (in_ascii_set charset) 0 127 idx data) data;
    Ok (data, charset).

Definition generate_data_preset (Size : Z) (M : Mode) (P : Preset) : res (list Z * list Z) :=
  '(charset, g) ← (if decide (P = Random) then random_charset 0 255 seed else charset ← preset_to_charset P; Ok (charset, seed));
  let in_set := test_bit charset in
  let preset_chars := get_preset_chars P in
  if decide (M = Mode_Random) then '(data, _) ← fill (draw 0 255) (Z.to_nat Size) g; Ok (data, charset)
  else
    '(data, g) ← fill (try_draw in_set 0 255 999) (Z.to_nat Size) g;
    data ← insert_match Size M (fun idx =>
      if negb (bool_decide (preset_chars = [])) then insert_any preset_chars idx data g
      else insert_first in_set 0 255 idx data) data;
    Ok (data, charset).

Definition generate_data_ascii128_preset (Size : Z) (M : Mode) (P : Preset) (AsciiOnlyData : bool) : res (list Z * list Z) :=
  let hi := if AsciiOnlyData then 127 else 255 in
  '(charset, g) ← (if decide (P = Random) then random_bits 0 127 64 seed else charset ← preset_to_charset P; Ok (charset, seed));
  let preset_chars := get_preset_chars P in
  if decide (M = Mode_Random) then '(data, _) ← fill (draw 0 hi) (Z.to_nat Size) g; Ok (data, charset)
  else
    '(data, g) ← fill (try_draw (in_ascii_set charset) 0 hi 999) (Z.to_nat Size) g;
    data ← insert_match Size M (fun idx =>
      if negb (bool_decide (P = Random)) && negb (bool_decide (preset_chars = [])) then insert_any preset_chars idx data g
      else insert_first (in_ascii_set charset) 0 127 idx data) data;
    Ok (data, charset).

(** The characters of a set, and the others. *)
Definition match_chars (charset : list Z) : res (list Z * list Z) :=
  foldR (fun '(m, n) c => b ← test_bit charset c; Ok (if b : bool then (m ++ [c], n) else (m, n ++ [c]))) ([], []) (seqZ 0 256).

Definition pick (chars : list Z) (g : G) : res (Z * G) :=
  let '(i, g) := uniform_int 0 (Z.of_nat (length chars) - 1) g in c ← chars.[i]; Ok (c, g).

Definition generate_data_prob (Size : Z) (P : Prob) : res (list Z * list Z) :=
  '(charset, g) ← random_charset 0 255 seed;
  '(match_chars, nomatch_chars) ← match_chars charset;
  '(match_chars, charset) ← (if decide (match_chars = []) then charset ← set_bit charset 0; Ok ([0], charset) else Ok (match_chars, charset));
  let nomatch_chars := if decide (nomatch_chars = []) then [255] else nomatch_chars in
  '(data, _) ← fill (fun g => let '(b, g) := real_below (prob_value P) g in pick (if b : bool then match_chars else nomatch_chars) g) (Z.to_nat Size) g;
  Ok (data, charset).

(** [for(int i = 0; i < num_chars;) { c = draw(); if(!test_bit(c)) { set_bit(c); ++i; } }]. *)
Definition sized_body (lo hi num_chars : Z) (st : Z * list Z * G) : res ((Z * list Z * G) + (list Z * G)) :=
  let '(i, charset, g) := st in
  if i <? num_chars then
    '(c, g) ← draw lo hi g;
    b ← test_bit charset c;
    if b : bool then Ok (inl (i, charset, g)) else charset ← set_bit charset c; Ok (inl (i + 1, charset, g))
  else Ok (inr (charset, g)).

Definition sized_charset (lo hi num_chars : Z) (fuel : nat) (g : G) : res (list Z * G) :=
  loop (sized_body lo hi num_chars) fuel (0, replicate 32 0, g).

Definition generate_data_sized (Size : Z) (M : Mode) (S : SetSize) (Range : CharRange) (fuel : nat) : res (list Z * list Z) :=
  let '(rmin, rmax) := get_char_range Range in
  '(charset, g) ← match S with SetSize_Full => random_charset rmin rmax seed | _ => sized_charset rmin rmax (SetSize_value S) fuel seed end;
  let in_set := test_bit charset in
  if decide (M = Mode_Random) then '(data, _) ← fill (draw rmin rmax) (Z.to_nat Size) g; Ok (data, charset)
  else
    '(data, _) ← fill (try_draw in_set rmin rmax 999) (Z.to_nat Size) g;
    data ← insert_match Size M (fun idx => insert_first in_set rmin rmax idx data) data;
    Ok (data, charset).

Definition generate_data_for_static_charset (Size : Z) (M : Mode) (Chars : list Z) : res (list Z * list Z) :=
  charset ← to_charset Chars;
  let in_set := test_bit charset in
  if decide (M = Mode_Random) then '(data, _) ← fill (draw 0 255) (Z.to_nat Size) seed; Ok (data, charset)
  else
    '(data, g) ← fill (try_draw in_set 0 255 999) (Z.to_nat Size) seed;
    data ← insert_match Size M (fun idx => if bool_decide (Chars = []) then Ok data else insert_any Chars idx data g) data;
    Ok (data, charset).

(** ** What a benchmark runs *)

(** [func(data, charset)]. *)
Abbreviation search := (list Z -> list Z -> res Z).

Definition BM_run (Size : Z) (M : Mode) (func : search) (fuel : nat) : res Z :=
  '(data, charset) ← generate_data Size M fuel; func data charset.

Definition BM_run_preset (Size : Z) (M : Mode) (P : Preset) (func : search) (fuel : nat) : res Z :=
  '(data, charset) ← generate_data_preset Size M P; func data charset.

Definition BM_run_prob (Size : Z) (P : Prob) (func : search) (fuel : nat) : res Z :=
  '(data, charset) ← generate_data_prob Size P; func data charset.

Definition BM_run_ranged (Size : Z) (M : Mode) (R : CharRange) (func : search) (fuel : nat) : res Z :=
  '(data, charset) ← generate_data_ranged Size M R; func data charset.

Definition BM_run_sized (Size : Z) (M : Mode) (S : SetSize) (func : search) (fuel : nat) : res Z :=
  '(data, charset) ← generate_data_sized Size M S CharRange_Full fuel; func data charset.

Definition BM_run_static_ct (Size : Z) (M : Mode) (Chars : list Z) (fuel : nat) : res Z :=
  '(data, charset) ← generate_data_for_static_charset Size M Chars; Ok (find_chars_static_ct Chars data 0).

Definition BM_run_bitmap_ct (Size : Z) (M : Mode) (Chars : list Z) (fuel : nat) : res Z :=
  '(data, charset) ← generate_data_for_static_charset Size M Chars; find_chars_bitmap_ct Chars data.

Definition BM_run_loop_rt (Size : Z) (M : Mode) (Chars : list Z) (fuel : nat) : res Z :=
  '(data, charset) ← generate_data_for_static_charset Size M Chars; find_chars_loop_rt data Chars 0.

Definition BM_run_ascii128_no_overflow (Size : Z) (M : Mode) (func : search) (fuel : nat) : res Z :=
  '(data, charset32) ← generate_data_ascii128 Size M true; charset16 ← charset32_to_16 charset32; func data charset16.

Definition BM_run_ascii128_overflow (Size : Z) (M : Mode) (func : search) (fuel : nat) : res Z :=
  '(data, charset32) ← generate_data_ascii128 Size M false; charset16 ← charset32_to_16 charset32; func data charset16.

Definition BM_run_ascii128_transposed_convert (Size : Z) (M : Mode) (func : search) (fuel : nat) : res Z :=
  '(data, charset32) ← generate_data_ascii128 Size M false; charset16 ← charset32_to_16 charset32; func data charset16.

Definition BM_run_ascii128_transposed_pre (Size : Z) (M : Mode) (func : search) (fuel : nat) : res Z :=
  '(data, charset32) ← generate_data_ascii128 Size M false;
  charset16 ← charset32_to_16 charset32;
  charset16_transposed ← transpose_charset16 charset16;
  func data charset16_transposed.

Definition BM_run_ascii128_preset (Size : Z) (M : Mode) (P : Preset) (AsciiOnlyData : bool) (func : search) (fuel : nat) : res Z :=
  '(data, charset32) ← generate_data_ascii128_preset Size M P AsciiOnlyData; charset16 ← charset32_to_16 charset32; func data charset16.

Definition BM_run_ascii128_preset_transposed (Size : Z) (M : Mode) (P : Preset) (AsciiOnlyData : bool) (func : search) (fuel : nat) : res Z :=
  '(data, charset32) ← generate_data_ascii128_preset Size M P AsciiOnlyData;
  charset16 ← charset32_to_16 charset32;
  charset16_transposed ← transpose_charset16 charset16;
  func data charset16_transposed.

(** ** Registration *)

(** A benchmark: its name, and the result of its search with the given fuel. *)
Abbreviation benchmark := (string * (nat -> res Z))%type.

Definition register_tests_for_mode (M : Mode) (Is : list Z) (alg_name : string) (func : search) : list benchmark :=
  (fun I => (alg_name +:+ "/" +:+ mode_name M +:+ "/" +:+ pretty I, BM_run I M func)) <$> Is.

Definition register_preset_tests (M : Mode) (P : Preset) (Is : list Z) (alg_name : string) (func : search) : list benchmark :=
  (fun I => (alg_name +:+ "/preset/" +:+ preset_name P +:+ "/" +:+ mode_name M +:+ "/" +:+ pretty I, BM_run_preset I M P func)) <$> Is.

Definition register_prob_tests (P : Prob) (Is : list Z) (alg_name : string) (func : search) : list benchmark :=
  (fun I => (alg_name +:+ "/prob/" +:+ prob_name P +:+ "/" +:+ pretty I, BM_run_prob I P func)) <$> Is.

Definition register_range_tests (M : Mode) (R : CharRange) (Is : list Z) (alg_name : string) (func : search) : list benchmark :=
  (fun I => (alg_name +:+ "/range/" +:+ range_name R +:+ "/" +:+ mode_name M +:+ "/" +:+ pretty I, BM_run_ranged I M R func)) <$> Is.

Definition register_sized_tests (M : Mode) (S : SetSize) (Is : list Z) (alg_name : string) (func : search) : list benchmark :=
  (fun I => (alg_name +:+ "/sized/" +:+ setsize_name S +:+ "/" +:+ mode_name M +:+ "/" +:+ pretty I, BM_run_sized I M S func)) <$> Is.

Definition register_static_ct_tests (M : Mode) (Chars : list Z) (Is : list Z) (charset_name : string) : list benchmark :=
  (fun I => ("scalar_static_ct/" +:+ charset_name +:+ "/" +:+ mode_name M +:+ "/" +:+ pretty I, BM_run_static_ct I M Chars)) <$> Is.

Definition register_bitmap_ct_tests (M : Mode) (Chars : list Z) (Is : list Z) (charset_name : string) : list benchmark :=
  (fun I => ("scalar_bitmap_ct/" +:+ charset_name +:+ "/" +:+ mode_name M +:+ "/" +:+ pretty I, BM_run_bitmap_ct I M Chars)) <$> Is.

Definition register_loop_rt_tests (M : Mode) (Chars : list Z) (Is : list Z) (charset_name : string) : list benchmark :=
  (fun I => ("scalar_loop_rt/" +:+ charset_name +:+ "/" +:+ mode_name M +:+ "/" +:+ pretty I, BM_run_loop_rt I M Chars)) <$> Is.

Definition register_ascii128_no_overflow_tests (M : Mode) (Is : list Z) (alg_name : string) (func : search) : list benchmark :=
  (fun I => (alg_name +:+ "/" +:+ mode_name M +:+ "/" +:+ pretty I, BM_run_ascii128_no_overflow I M func)) <$> Is.

Definition register_ascii128_overflow_tests (M : Mode) (Is : list Z) (alg_name : string) (func : search) : list benchmark :=
  (fun I => (alg_name +:+ "/" +:+ mode_name M +:+ "/" +:+ pretty I, BM_run_ascii128_overflow I M func)) <$> Is.

Definition register_ascii128_transposed_convert_tests (M : Mode) (Is : list Z) (alg_name : string) (func : search) : list benchmark :=
  (fun I => (alg_name +:+ "/" +:+ mode_name M +:+ "/" +:+ pretty I, BM_run_ascii128_transposed_convert I M func)) <$> Is.

Definition register_ascii128_transposed_pre_tests (M : Mode) (Is : list Z) (alg_name : string) (func : search) : list benchmark :=
  (fun I => (alg_name +:+ "/" +:+ mode_name M +:+ "/" +:+ pretty I, BM_run_ascii128_transposed_pre I M func)) <$> Is.

Definition register_ascii128_preset_tests (M : Mode) (P : Preset) (AsciiOnlyData : bool) (Is : list Z) (alg_name : string) (func : search) :
    list benchmark :=
  (fun I => (alg_name +:+ "/preset/" +:+ preset_name P +:+ "/" +:+ mode_name M +:+ "/" +:+ pretty I,
             BM_run_ascii128_preset I M P AsciiOnlyData func)) <$> Is.

Definition register_ascii128_preset_transposed_tests (M : Mode) (P : Preset) (AsciiOnlyData : bool) (Is : list Z) (alg_name : string)
    (func : search) : list benchmark :=
  (fun I => (alg_name +:+ "/preset/" +:+ preset_name P +:+ "/" +:+ mode_name M +:+ "/" +:+ pretty I,
             BM_run_ascii128_preset_transposed I M P AsciiOnlyData func)) <$> Is.

(** ** main *)

(** The searches of the registered benchmarks. *)
Definition avx2_fn : search := find_charset_avx2.
Definition scalar_fn : search := find_charset_scalar.
Definition std_fn : search := fun rng set =>
  it ← for_find (fun '(i, c) => b ← test_bit set c; Ok (if b : bool then Some i else None)) (indexed rng);
  Ok (default (- 1) it).

Section groups.
(** [should_run_mode] and the sizes. *)
Context (mode : Mode -> bool) (seq : list Z).

Definition when (b : bool) (l : list benchmark) : list benchmark := if b then l else [].

Definition all_modes : list Mode := [NoMatch; MatchLast; MatchMiddle; MatchFirst1P; Mode_Random].

(** [if (should_run_mode(M)) f<M>(seq, name, func)], for every mode. *)
Definition register_modes (f : Mode -> list Z -> string -> search -> list benchmark) (name : string) (func : search) : list benchmark :=
  all_modes ≫= fun M => when (mode M) (f M seq name func).

Definition group_basic : list benchmark :=
  let register_all_modes := register_modes register_tests_for_mode in
  register_all_modes "avx2" avx2_fn ++ register_all_modes "scalar" scalar_fn ++ register_all_modes "std" std_fn.

Definition group_preset : list benchmark :=
  let register_all_presets name func :=
    when (mode NoMatch) ([Json; Html; Whitespace; LineBreak; Digits] ≫= fun P => register_preset_tests NoMatch P seq name func) ++
    when (mode MatchMiddle) ([Json; Html; Whitespace] ≫= fun P => register_preset_tests MatchMiddle P seq name func) in
  register_all_presets "avx2" avx2_fn ++ register_all_presets "scalar" scalar_fn.

Definition group_prob : list benchmark :=
  let register_all_probs name func := [P0_001; P0_01; P0_1; P1; P10; P50] ≫= fun P => register_prob_tests P seq name func in
  register_all_probs "avx2" avx2_fn ++ register_all_probs "scalar" scalar_fn.

Definition group_range : list benchmark :=
  let register_all_ranges name func :=
    when (mode NoMatch) ([Ascii; HighAscii; Low64; Printable] ≫= fun R => register_range_tests NoMatch R seq name func) in
  register_all_ranges "avx2" avx2_fn ++ register_all_ranges "scalar" scalar_fn.

Definition group_sized : list benchmark :=
  let register_all_sizes name func :=
    when (mode NoMatch) ([N1; N2; N4; N8; N16; N32] ≫= fun S => register_sized_tests NoMatch S seq name func) ++
    when (mode MatchMiddle) ([N1; N4; N8] ≫= fun S => register_sized_tests MatchMiddle S seq name func) in
  register_all_sizes "avx2" avx2_fn ++ register_all_sizes "scalar" scalar_fn.

(** The lists of characters of the types StaticCharset<...>, with the names they are registered by. *)
Definition JsonCharsStatic : list Z := [34; 92; 123; 125; 91; 93; 58; 44].
Definition HtmlCharsStatic : list Z := [60; 62; 38; 34; 39].
Definition WsCharsStatic : list Z := [32; 9; 10; 13].
Definition LfCharsStatic : list Z := [10; 13].
Definition DigitCharsStatic : list Z := [48; 49; 50; 51; 52; 53; 54; 55; 56; 57].

Definition group_static : list benchmark :=
  when (mode NoMatch) (
    ([(JsonCharsStatic, "json"); (HtmlCharsStatic, "html"); (WsCharsStatic, "ws"); (LfCharsStatic, "lf"); (DigitCharsStatic, "digit")]
       ≫= fun x => register_static_ct_tests NoMatch x.1 seq x.2) ++
    ([(JsonCharsStatic, "json"); (HtmlCharsStatic, "html"); (WsCharsStatic, "ws"); (LfCharsStatic, "lf")]
       ≫= fun x => register_bitmap_ct_tests NoMatch x.1 seq x.2) ++
    ([(JsonCharsStatic, "json"); (HtmlCharsStatic, "html"); (WsCharsStatic, "ws"); (LfCharsStatic, "lf")]
       ≫= fun x => register_loop_rt_tests NoMatch x.1 seq x.2)) ++
  when (mode MatchMiddle) (
    ([(JsonCharsStatic, "json"); (HtmlCharsStatic, "html"); (WsCharsStatic, "ws"); (LfCharsStatic, "lf")]
       ≫= fun x => register_static_ct_tests MatchMiddle x.1 seq x.2) ++
    ([(JsonCharsStatic, "json"); (WsCharsStatic, "ws")] ≫= fun x => register_bitmap_ct_tests MatchMiddle x.1 seq x.2) ++
    ([(JsonCharsStatic, "json"); (WsCharsStatic, "ws")] ≫= fun x => register_loop_rt_tests MatchMiddle x.1 seq x.2)).

Definition group_ascii128 : list benchmark :=
  let avx2_a128_no_of_fn := find_charset_avx2_ascii128 false in
  let avx2_a128_of_fn := find_charset_avx2_ascii128 true in
  let avx2_a128T_cvt_fn := find_charset_avx2_ascii128_transposed false in
  let avx2_a128T_pre_fn := find_charset_avx2_ascii128_transposed true in
  let presets (f : Mode -> Preset -> list Z -> string -> search -> list benchmark) name func :=
    when (mode NoMatch) ([Json; Html; Whitespace; LineBreak] ≫= fun P => f NoMatch P seq name func) ++
    when (mode MatchMiddle) ([Json; Html; Whitespace] ≫= fun P => f MatchMiddle P seq name func) in
  register_modes register_ascii128_no_overflow_tests "avx2_a128" avx2_a128_no_of_fn ++
  register_modes register_ascii128_overflow_tests "avx2_a128_of" avx2_a128_of_fn ++
  register_modes register_ascii128_transposed_convert_tests "avx2_a128T_cvt" avx2_a128T_cvt_fn ++
  register_modes register_ascii128_transposed_pre_tests "avx2_a128T_pre" avx2_a128T_pre_fn ++
  presets (fun M P => register_ascii128_preset_tests M P true) "avx2_a128" avx2_a128_no_of_fn ++
  presets (fun M P => register_ascii128_preset_tests M P false) "avx2_a128_of" avx2_a128_of_fn ++
  presets (fun M P => register_ascii128_preset_transposed_tests M P false) "avx2_a128T_pre" avx2_a128T_pre_fn.
End groups.

(** The arguments of the program, without its name. *)
Record Args : Type := mkArgs { enabled_groups : list string; enabled_modes : list Mode; valid_args : list string }.

Definition mode_map : list (string * Mode) :=
  [("nomatch", NoMatch); ("last", MatchLast); ("mid", MatchMiddle); ("1%", MatchFirst1P); ("rand", Mode_Random)].

(** [while(std::getline(ss, item, ','))]; [item] is what was read since the last comma. *)
Fixpoint getline_items (item s : string) : list string :=
  match s with
  | EmptyString => if decide (item = EmptyString) then [] else [item]
  | String c s => if decide (String c EmptyString = ",") then item :: getline_items EmptyString s else getline_items (item +:+ String c EmptyString) s
  end.

Definition lookup_mode (item : string) : option Mode := snd <$> find (fun x => bool_decide (x.1 = item)) mode_map.

(** [arg.find(p) == 0]. *)
Definition after (p arg : string) : option string :=
  if String.prefix p arg then Some (String.substring (String.length p) (String.length arg - String.length p) arg) else None.

(** [None] for --list-groups, which ends the program. *)
Definition parse_arg (a : Args) (arg : string) : option Args :=
  match after "--groups=" arg with
  | Some content => Some (mkArgs (enabled_groups a ++ getline_items EmptyString content) (enabled_modes a) (valid_args a))
  | None =>
      match after "--modes=" arg with
      | Some content =>
          let modes := if decide (content = "all") then mode_map.*2 else omap lookup_mode (getline_items EmptyString content) in
          Some (mkArgs (enabled_groups a) (enabled_modes a ++ modes) (valid_args a))
      | None =>
          if decide (arg = "--list-groups") then None else Some (mkArgs (enabled_groups a) (enabled_modes a) (valid_args a ++ [arg]))
      end
  end.

Fixpoint parse_args (a : Args) (args : list string) : option Args :=
  match args with [] => Some a | arg :: args => a ← parse_arg a arg; parse_args a args end.

Definition Sizes : list Z := [35; 350; 3502; 35023; 350234].

(** The arguments that are left for the library, and the registered benchmarks. *)
Definition main (argv0 : string) (args : list string) : option (list string * list benchmark) :=
  a ← parse_args (mkArgs [] [] [argv0]) args;
  let run_all_groups := bool_decide (enabled_groups a = []) || bool_decide ("all" ∈ enabled_groups a) in
  let enabled_modes := if decide (enabled_modes a = []) then [NoMatch] else enabled_modes a in
  let should_run group := run_all_groups || bool_decide (group ∈ enabled_groups a) in
  let should_run_mode m := bool_decide (m ∈ enabled_modes) in
  Some (valid_args a,
    when (should_run "basic") (group_basic should_run_mode Sizes) ++
    when (should_run "preset") (group_preset should_run_mode Sizes) ++
    when (should_run "prob") (group_prob Sizes) ++
    when (should_run "range") (group_range should_run_mode Sizes) ++
    when (should_run "sized") (group_sized should_run_mode Sizes) ++
    when (should_run "static") (group_static should_run_mode Sizes) ++
    when (should_run "ascii128") (group_ascii128 should_run_mode Sizes)).
End generators.
