(* ===== verification/SimdBenchProps.v ===== *)
(** * Every benchmark searches what its name says

    Proofs on src/simd/find_charset_benchmark.cpp: what the generators produce, and what the search of
    a registered benchmark returns. *)

From S2P Require Import Prelude Bytes Simd SimdView SimdLanes SimdCharset SimdCharsetProofs SimdProps SimdBench.
From stdpp Require Import list_relations list pretty strings.
#[local] Open Scope Z_scope.

(** ** Computations with enough fuel *)

Definition settles {A} (e : nat -> res A) (a : A) : Prop := exists n, forall m, (n <= m)%nat -> e m = Ok a.

Lemma settles_const {A} (e : nat -> res A) a : (forall n, e n = Ok a) -> settles e a.
Proof. intros H. exists 0%nat. intros. apply H. Qed.

Lemma settles_bind {A B} (e : nat -> res A) (f : nat -> A -> res B) a b :
  settles e a -> settles (fun n => f n a) b -> settles (fun n => e n ≫= f n) b.
Proof.
  intros [n Hn] [m Hm]. exists (n + m)%nat. intros k Hk. rewrite Hn by lia. cbn [mbind res_bind]. apply Hm. lia.
Qed.

Lemma settles_outcome {A} (e : nat -> res A) a : settles e a -> outcome e (Ok a).
Proof. intros [n Hn]. split; [done|]. exists n. by apply Hn. Qed.

Lemma settles_loop {St R} (body : St -> res (St + R)) n s r : loop body n s = Ok r -> settles (fun fuel => loop body fuel s) r.
Proof. intros E. exists n. intros m Hm. rewrite <- E. apply loop_mono; [by rewrite E | done]. Qed.

(** One turn of a loop. *)
Lemma settles_turn {St R} (body : St -> res (St + R)) s s' r : body s = Ok (inl s') -> settles (fun fuel => loop body fuel s') r ->
  settles (fun fuel => loop body fuel s) r.
Proof.
  intros Hb [n Hn]. apply (settles_loop body (S n)). rewrite loop_S, Hb. cbn [mbind res_bind]. by apply Hn.
Qed.

(** ** Counting *)

Lemma contains_elem l c : contains l c = true <-> c ∈ l.
Proof.
  induction l as [|x l IH]; [by rewrite elem_of_nil|]. cbn [contains fold_right]. fold (contains l c).
  rewrite orb_true_iff, Z.eqb_eq, IH, elem_of_cons. done.
Qed.

(** A list leaves out most of a larger range. *)
Definition count (P : Z -> bool) (lo hi : Z) : Z := Z.of_nat (length (filter (fun c => P c = true) (seqZ lo (hi - lo + 1)))).

Lemma count_out l lo hi : lo <= hi -> hi - lo + 1 - Z.of_nat (length l) <= count (fun c => negb (contains l c)) lo hi.
Proof.
  intros Hr. unfold count. set (r := seqZ lo (hi - lo + 1)).
  assert (length (filter (fun c => contains l c = true) r) <= length l)%nat as H1.
  { apply submseteq_length, NoDup_submseteq; [apply NoDup_filter, NoDup_seqZ|]. intros c [Hc _]%list_elem_of_filter. by apply contains_elem. }
  assert (length (filter (fun c => contains l c = true) r) + length (filter (fun c => negb (contains l c) = true) r) = length r)%nat as H2.
  { clear H1. induction r as [|c r IH]; [done|]. rewrite !filter_cons. destruct (contains l c); cbn [negb];
      repeat (case_decide; try done); cbn [length]; lia. }
  unfold r in *. rewrite length_seqZ in H2. lia.
Qed.

Lemma count_ext P Q lo hi : (forall c, lo <= c <= hi -> P c = Q c) -> count P lo hi = count Q lo hi.
Proof.
  intros H. unfold count. do 2 f_equal. assert (Forall (fun c => P c = Q c) (seqZ lo (hi - lo + 1))) as Hf
    by (apply Forall_forall; intros c Hc%elem_of_seqZ; apply H; lia).
  induction Hf as [|c l Hc _ IH]; [done|]. rewrite !filter_cons, IH. repeat case_decide; congruence.
Qed.

Lemma count_pos P lo hi : 0 < count P lo hi -> exists c, lo <= c <= hi /\ P c = true.
Proof.
  unfold count. intros H. destruct (filter (fun c => P c = true) (seqZ lo (hi - lo + 1))) as [|c l] eqn:E; [cbn in H; lia|].
  assert (c ∈ filter (fun c => P c = true) (seqZ lo (hi - lo + 1))) as [Hc Hin%elem_of_seqZ]%list_elem_of_filter by (rewrite E; by left).
  exists c. split; [lia | done].
Qed.

(** ** The first character of a set *)

Lemma first_none P l : Forall (fun c => P c = false) l -> first_of P l = - 1.
Proof.
  intros H. unfold first_of. replace (find_index P l) with (@None Z); [done|].
  induction H as [|c l Hc _ IH]; [done|]. cbn [find_index]. by rewrite Hc, <- IH.
Qed.

Lemma first_insert P l i c : Forall (fun c => P c = false) l -> 0 <= i < Z.of_nat (length l) -> P c = true ->
  first_of P (<[Z.to_nat i := c]> l) = i.
Proof.
  intros H Hi Hc. unfold first_of. enough (find_index P (<[Z.to_nat i := c]> l) = Some i) as -> by done.
  revert i Hi. induction H as [|x l Hx H IH]; intros i Hi; cbn [length] in Hi; [lia|]. destruct (decide (i = 0)) as [->|Hne].
  { change (<[Z.to_nat 0 := c]> (x :: l)) with (c :: l). cbn [find_index]. by rewrite Hc. }
  replace (Z.to_nat i) with (S (Z.to_nat (i - 1))) by lia. change (<[S (Z.to_nat (i - 1)) := c]> (x :: l)) with (x :: <[Z.to_nat (i - 1) := c]> l).
  cbn [find_index]. rewrite Hx.
  rewrite (IH (i - 1)) by lia. cbn. f_equal. lia.
Qed.

Lemma first_range P l : - 1 <= first_of P l < Z.of_nat (length l) \/ l = [] /\ first_of P l = - 1.
Proof.
  unfold first_of. enough (match find_index P l with Some i => 0 <= i < Z.of_nat (length l) | None => True end) as H
    by (destruct (find_index P l); cbn in *; [|destruct l; [by right|cbn]]; lia).
  induction l as [|x l IH]; [done|]. cbn [find_index length]. destruct (P x); [lia|].
  destruct (find_index P l); cbn [fmap option_fmap option_map]; [lia | done].
Qed.

(** ** Draws *)

Section draws.
Context {G : Type} `{!RandomEngine G}.

Fixpoint after_draws (lo hi : Z) (n : nat) (g : G) : G :=
  match n with O => g | S n => after_draws lo hi n (uniform_int lo hi g).2 end.
Definition nth_draw (lo hi : Z) (n : nat) (g : G) : Z := (uniform_int lo hi (after_draws lo hi n g)).1.

(** Every number of the range is drawn at some time. *)
Definition fair : Prop := forall lo hi c g, lo <= c <= hi -> exists n, nth_draw lo hi n g = c.

(** Of a thousand numbers one has a property that at least half of a small range has. *)
Definition mixing : Prop := forall lo hi (P : Z -> bool) g, lo <= hi -> hi - lo < 256 -> hi - lo + 1 <= 2 * count P lo hi ->
  exists n, (n < 1000)%nat /\ P (nth_draw lo hi n g) = true.

Lemma draw_char_spec lo hi g : 0 <= lo <= hi -> hi < 256 ->
  draw lo hi g = Ok ((uniform_int lo hi g).1, (uniform_int lo hi g).2) /\ lo <= (uniform_int lo hi g).1 <= hi.
Proof.
  intros Hlo Hhi. pose proof (uniform_int_range lo hi g) as H. unfold draw. destruct (uniform_int lo hi g) as [c g']. cbn [fst snd] in *.
  split; [|lia]. by rewrite uwrap_id by lia.
Qed.

(** An array that is filled. *)
Lemma fill_spec (f : nat -> G -> res (Z * G)) (Q : Z -> Prop) n g : (forall g, exists c g', settles (fun k => f k g) (c, g') /\ Q c) ->
  exists l g', settles (fun k => fill (f k) n g) (l, g') /\ length l = n /\ Forall Q l.
Proof.
  intros Hf. revert g. induction n as [|n IH]; intros g; [exists [], g; split; [by apply settles_const | done]|].
  destruct (Hf g) as (c & g1 & Hc & HQ). destruct (IH g1) as (l & g2 & Hl & Hn & HQs). exists (c :: l), g2.
  split_and!; [|cbn; lia | by constructor]. cbn [fill].
  apply (settles_bind _ (fun k '(c, g) => '(l, g) ← fill (f k) n g; Ok (c :: l, g)) (c, g1)); [done|].
  apply (settles_bind _ (fun k '(l, g) => Ok (c :: l, g)) (l, g2)); [done | by apply settles_const].
Qed.

Lemma fill_const (f : G -> res (Z * G)) (Q : Z -> Prop) n g : (forall g, exists c g', f g = Ok (c, g') /\ Q c) ->
  exists l g', fill f n g = Ok (l, g') /\ length l = n /\ Forall Q l.
Proof.
  intros Hf. destruct (fill_spec (fun _ => f) Q n g) as (l & g' & [k Hk] & H); [|exists l, g'; split; [by apply (Hk k) | done]].
  intros g0. destruct (Hf g0) as (c & g' & E & HQ). exists c, g'. split; [by apply settles_const | done].
Qed.

Lemma fill_draw lo hi n g : 0 <= lo <= hi -> hi < 256 -> exists l g', fill (draw lo hi) n g = Ok (l, g') /\ length l = n /\ Forall (fun c => lo <= c <= hi) l.
Proof. intros Hlo Hhi. apply fill_const. intros g0. destruct (draw_char_spec lo hi g0 Hlo Hhi) as [E H]. eauto. Qed.

Lemma random_charset_spec lo hi g : 0 <= lo <= hi -> hi < 256 ->
  exists cs g', random_charset lo hi g = Ok (cs, g') /\ length cs = 32%nat /\ Forall byte cs.
Proof.
  intros Hlo Hhi. destruct (fill_draw lo hi 32 g Hlo Hhi) as (l & g' & E & Hl & Hb). exists l, g'. split_and!; [done | done|].
  eapply Forall_impl; [exact Hb|]. intros c Hc. cbn beta in Hc. unfold byte. lia.
Qed.

(** A draw that is repeated while the character is in the set, and one that is repeated until it is. *)
Lemma try_draw_spec in_set P lo hi k g : 0 <= lo <= hi -> hi < 256 -> (forall c, lo <= c <= hi -> in_set c = Ok (P c)) ->
  exists c g', try_draw in_set lo hi k g = Ok (c, g') /\ lo <= c <= hi /\
    ((exists n, (n <= k)%nat /\ P (nth_draw lo hi n g) = false) -> P c = false).
Proof.
  intros Hlo Hhi Hin. revert g. induction k as [|k IH]; intros g; cbn [try_draw];
    destruct (draw_char_spec lo hi g Hlo Hhi) as [-> Hr]; cbn [mbind res_bind]; rewrite (Hin _ Hr); cbn [mbind res_bind].
  - do 2 eexists. split_and!; [done | lia | lia|]. intros (n & Hn & Hp). by replace n with 0%nat in Hp by lia.
  - destruct (P (uniform_int lo hi g).1) eqn:Ep.
    + destruct (IH (uniform_int lo hi g).2) as (c & g' & E & Hc & Hp). exists c, g'. split_and!; [done | lia | lia|].
      intros (n & Hn & Hpn). apply Hp. destruct n as [|n]; [unfold nth_draw in Hpn; cbn in Hpn; congruence|].
      exists n. split; [lia | exact Hpn].
    + do 2 eexists. split_and!; [done | lia | lia | done].
Qed.

Lemma draw_until_spec stop P g : fair -> (forall c, byte c -> stop c = Ok (P c)) -> (exists c, byte c /\ P c = true) ->
  exists c g', settles (fun fuel => draw_until stop fuel g) (c, g') /\ byte c /\ P c = true.
Proof.
  intros Hfair Hstop (c & Hc & HPc). destruct (Hfair 0 255 c g) as [n Hn]; [unfold byte in Hc; lia|]. revert g Hn.
  induction n as [|n IH]; intros g Hn.
  - destruct (draw_char_spec 0 255 g) as [E Hr]; [lia | lia|]. exists c, (uniform_int 0 255 g).2. split_and!; [|done | done].
    apply (settles_loop _ 1). rewrite loop_S, E. cbn [mbind res_bind]. unfold nth_draw in Hn. cbn in Hn. rewrite Hn, Hstop by done.
    cbn [mbind res_bind]. by rewrite HPc.
  - destruct (draw_char_spec 0 255 g) as [E Hr]; [lia | lia|]. destruct (P (uniform_int 0 255 g).1) eqn:Ep.
    + exists (uniform_int 0 255 g).1, (uniform_int 0 255 g).2. split_and!; [|unfold byte; lia | done].
      apply (settles_loop _ 1). rewrite loop_S, E. cbn [mbind res_bind]. rewrite Hstop by (unfold byte; lia). cbn [mbind res_bind]. by rewrite Ep.
    + destruct (IH (uniform_int 0 255 g).2 Hn) as (c' & g' & Hs & H). exists c', g'. split; [|done].
      eapply settles_turn; [|exact Hs]. rewrite E. cbn [mbind res_bind]. rewrite Hstop by (unfold byte; lia). cbn [mbind res_bind]. by rewrite Ep.
Qed.
End draws.
Arguments fair G {_}.
Arguments mixing G {_}.

(** ** Texts *)

(** What the search of a benchmark returns in a mode. *)
Definition verdict (M : Mode) (Size v : Z) : Prop :=
  match M with
  | NoMatch => v = - 1
  | MatchLast => v = Size - 1
  | MatchMiddle => v = Size / 2
  | MatchFirst1P => v = Size / 100
  | Mode_Random => - 1 <= v < Size
  end.

Definition bitmap (cs : list Z) : Prop := length cs = 32%nat /\ Forall byte cs.

(** A generator produces a bitmap and a text of the size, in a range, for the mode. *)
Definition generates (e : nat -> res (list Z * list Z)) (M : Mode) (Size lo hi : Z) (R : list Z -> Prop) : Prop :=
  exists d cs, settles e (d, cs) /\ bitmap cs /\ R cs /\ length d = Z.to_nat Size /\ Forall (fun c => lo <= c <= hi) d /\
    verdict M Size (first_of (member cs) d).

Lemma random_verdict Size P d : 0 < Size -> length d = Z.to_nat Size -> verdict Mode_Random Size (first_of P d).
Proof. intros HS Hl. destruct (first_range P d) as [H|[-> _]]; cbn in *; lia. Qed.

Lemma match_index_range Size M : 0 < Size < 2 ^ 64 -> M <> Mode_Random ->
  match match_index Size M with Some i => 0 <= i < Size /\ verdict M Size i | None => M = NoMatch end.
Proof.
  intros HS HM. destruct M; cbn [match_index verdict]; try done.
  - rewrite uwrap_id by lia. lia.
  - split; [|done]. split; [apply Z.div_pos; lia | apply Z.div_lt; lia].
  - split; [|done]. split; [apply Z.div_pos; lia | apply Z.div_lt; lia].
Qed.

(** A text without characters of the set, into which one is put at the place of the mode. *)
Lemma insert_match_spec Size M (insert : nat -> Z -> res (list Z)) l P (Q : Z -> Prop) : 0 < Size < 2 ^ 64 -> M <> Mode_Random ->
  length l = Z.to_nat Size -> Forall Q l -> Forall (fun c => P c = false) l ->
  (forall i, 0 <= i < Size -> exists c, settles (fun k => insert k i) (<[Z.to_nat i := c]> l) /\ P c = true /\ Q c) ->
  exists d, settles (fun k => insert_match Size M (insert k) l) d /\ length d = Z.to_nat Size /\ Forall Q d /\ verdict M Size (first_of P d).
Proof.
  intros HS HM Hl HQ HP Hins. pose proof (match_index_range Size M HS HM) as Hi. unfold insert_match.
  destruct (match_index Size M) as [i|].
  - destruct Hi as [Hi Hv]. rewrite (proj2 (Z.leb_gt Size i)) by lia. destruct (Hins i Hi) as (c & Hs & Hc & Hq).
    exists (<[Z.to_nat i := c]> l). split_and!; [done | by rewrite length_insert | by apply Forall_insert|].
    by rewrite first_insert by (done || lia).
  - subst M. exists l. split_and!; [by apply settles_const | done | done|]. cbn. by apply first_none.
Qed.

(** The first character of a range that is in the set. *)
Lemma insert_first_spec in_set P lo hi i l : (forall c, lo <= c <= hi -> in_set c = Ok (P c)) -> (exists c, lo <= c <= hi /\ P c = true) ->
  0 <= i < Z.of_nat (length l) ->
  exists c, insert_first in_set lo hi i l = Ok (<[Z.to_nat i := c]> l) /\ P c = true /\ lo <= c <= hi.
Proof.
  intros Hin (c0 & Hc0 & HP0) Hi. unfold insert_first.
  assert (exists c, for_find (fun c => b ← in_set c; Ok (if b : bool then Some c else None)) (seqZ lo (hi - lo + 1)) = Ok (Some c) /\
    P c = true /\ lo <= c <= hi) as (c & -> & Hc).
  { assert (Forall (fun c => lo <= c <= hi) (seqZ lo (hi - lo + 1))) as Hr by (apply Forall_forall; intros c Hc%elem_of_seqZ; lia).
    assert (c0 ∈ seqZ lo (hi - lo + 1)) as H0 by (apply elem_of_seqZ; lia).
    induction Hr as [|c l' Hc _ IH]; [by apply elem_of_nil in H0|]. cbn [for_find]. rewrite (Hin c Hc). cbn [mbind res_bind].
    destruct (P c) eqn:E; [by exists c|]. apply elem_of_cons in H0 as [->|H0]; [congruence | by apply IH]. }
  cbn [mbind res_bind]. rewrite set_index_ok by lia. by exists c.
Qed.

Lemma bitmap_test cs c : bitmap cs -> byte c -> test_bit cs c = Ok (member cs c).
Proof. intros [Hl _] Hc. apply test_bit_member. rewrite Hl. unfold byte in Hc. div_lia. Qed.

Section texts.
Context {G : Type} `{!RandomEngine G}.

Lemma insert_any_spec (chars : list Z) (Q : Z -> Prop) i l (g : G) : chars <> [] -> Forall Q chars -> 0 <= i < Z.of_nat (length l) ->
  exists c, insert_any chars i l g = Ok (<[Z.to_nat i := c]> l) /\ c ∈ chars /\ Q c.
Proof.
  intros Hne HQ Hi. unfold insert_any. assert (0 < Z.of_nat (length chars)) as Hpos by (destruct chars; [done | cbn; lia]).
  pose proof (uniform_int_range 0 (Z.of_nat (length chars) - 1) g) as Hr. destruct (uniform_int _ _ g) as [j g']. cbn [fst] in Hr.
  destruct (at_index_ok chars j) as (c & E & El); [lia|]. rewrite E. cbn [mbind res_bind]. rewrite set_index_ok by lia.
  exists c. split_and!; [done | by eapply list_elem_of_lookup_2 | by eapply (Forall_lookup Q)].
Qed.

(** The bits of characters that are drawn. *)
Lemma random_bits_spec lo hi n (g : G) : 0 <= lo <= hi -> hi < 256 -> 0 <= n ->
  exists cs chars g', random_bits lo hi n g = Ok (cs, g') /\ bitmap cs /\ Z.of_nat (length chars) = n /\
    Forall (fun c => lo <= c <= hi) chars /\ forall c, byte c -> member cs c = contains chars c.
Proof.
  intros Hlo Hhi Hn. unfold random_bits.
  enough (forall l cs0 chars0 g0, bitmap cs0 -> Forall (fun c => lo <= c <= hi) chars0 -> (forall c, byte c -> member cs0 c = contains chars0 c) ->
    exists cs chars g', foldR (fun '(charset, g) (_ : Z) => '(c, g) ← draw lo hi g; charset ← set_bit charset c; Ok (charset, g)) (cs0, g0) l = Ok (cs, g') /\
      bitmap cs /\ length chars = (length chars0 + length l)%nat /\ Forall (fun c => lo <= c <= hi) chars /\ forall c, byte c -> member cs c = contains chars c) as H.
  { destruct (H (seqZ 0 n) (replicate 32 0) [] g) as (cs & chars & g' & E & Hb & Hlen & Hf & Hm).
    - split; [done | by apply Forall_replicate].
    - done.
    - intros c _. unfold member. by rewrite nth_zeros, Z.bits_0.
    - exists cs, chars, g'. rewrite length_seqZ in Hlen. cbn [length] in Hlen. split_and!; [done | done | lia | done | done]. }
  induction l as [|x l IH]; intros cs0 chars0 g0 [Hl Hb] Hf Hm.
  - exists cs0, chars0, g0. cbn [foldR length]. split_and!; [done | done | lia | done | done].
  - cbn [foldR]. destruct (draw_char_spec lo hi g0 Hlo Hhi) as [-> Hr]. cbn [mbind res_bind]. set (d := (uniform_int lo hi g0).1) in *.
    destruct (set_bit_spec cs0 d Hl Hb) as (cs1 & -> & Hl1 & Hb1 & Hm1); [unfold byte; lia|]. cbn [mbind res_bind].
    destruct (IH cs1 (d :: chars0) (uniform_int lo hi g0).2) as (cs & chars & g' & E & H & Hlen & H'); [done | by constructor | |].
    { intros c Hc. rewrite Hm1, Hm by done. done. }
    exists cs, chars, g'. cbn [length] in *. split_and!; [done | done | lia | apply H' | apply H'].
Qed.

(** The text of a generator that gives up after a thousand tries. *)
Lemma tried_text cs in_set lo hi Size (g : G) : mixing G -> bitmap cs -> 0 <= lo <= hi -> hi < 256 ->
  (forall c, lo <= c <= hi -> in_set c = Ok (member cs c)) -> hi - lo + 1 <= 2 * count (fun c => negb (member cs c)) lo hi ->
  exists l g', fill (try_draw in_set lo hi 999) (Z.to_nat Size) g = Ok (l, g') /\ length l = Z.to_nat Size /\
    Forall (fun c => lo <= c <= hi) l /\ Forall (fun c => member cs c = false) l.
Proof.
  intros Hmix Hcs Hlo Hhi Hin Hcount.
  destruct (fill_const (try_draw in_set lo hi 999) (fun c => lo <= c <= hi /\ member cs c = false) (Z.to_nat Size) g) as (l & g' & E & Hl & Hf).
  - intros g0. destruct (try_draw_spec in_set (member cs) lo hi 999 g0 Hlo Hhi Hin) as (c & g1 & E & Hr & Hp). exists c, g1.
    split_and!; [done | lia | lia |]. apply Hp. destruct (Hmix lo hi (fun c => negb (member cs c)) g0) as (n & Hn & Hneg); [lia | lia | done|].
    exists n. split; [lia|]. by apply negb_true_iff.
  - exists l, g'. apply Forall_and in Hf as [H1 H2]. done.
Qed.
End texts.

(** ** Generators *)

Section generators.
Context {G : Type} `{!RandomEngine G} `{!RealEngine G} (seed : G).
Context (Hmix : mixing G).

(** The second half of the generators that try a thousand times. *)
Definition text_of (Size : Z) (M : Mode) (in_set : Z -> res bool) (lo hi : Z) (ins : list Z -> G -> Z -> res (list Z)) (cs : list Z) (g : G) :
    res (list Z * list Z) :=
  if decide (M = Mode_Random) then '(data, _) ← fill (draw lo hi) (Z.to_nat Size) g; Ok (data, cs)
  else
    '(data, g) ← fill (try_draw in_set lo hi 999) (Z.to_nat Size) g;
    data ← insert_match Size M (ins data g) data;
    Ok (data, cs).

Lemma text_of_spec Size M in_set lo hi ins cs g (R : list Z -> Prop) : 0 < Size < 2 ^ 64 -> bitmap cs -> R cs -> 0 <= lo <= hi -> hi < 256 ->
  (forall c, lo <= c <= hi -> in_set c = Ok (member cs c)) -> hi - lo + 1 <= 2 * count (fun c => negb (member cs c)) lo hi ->
  (forall l g i, 0 <= i < Z.of_nat (length l) -> exists c, ins l g i = Ok (<[Z.to_nat i := c]> l) /\ member cs c = true /\ lo <= c <= hi) ->
  generates (fun _ => text_of Size M in_set lo hi ins cs g) M Size lo hi R.
Proof.
  intros HS Hcs HR Hlo Hhi Hin Hcount Hins. unfold text_of, generates. case_decide as HM.
  - subst M. destruct (fill_draw lo hi (Z.to_nat Size) g Hlo Hhi) as (l & g' & -> & Hl & Hf). exists l, cs.
    split_and!; [by apply settles_const | done | done | done | done|]. apply random_verdict; [lia | done].
  - destruct (tried_text cs in_set lo hi Size g) as (l & g' & -> & Hl & Hf & Hno); try done. cbn [mbind res_bind].
    destruct (insert_match_spec Size M (fun _ => ins l g') l (member cs) (fun c => lo <= c <= hi)) as (d & Hd & Hld & Hfd & Hv); try done.
    { intros i Hi. destruct (Hins l g' i) as (c & E & Hc & Hr); [lia|]. exists c. split_and!; [by apply settles_const | done | lia | lia]. }
    exists d, cs. split_and!; [|done..].
    exact (settles_bind _ (fun _ data => Ok (data, cs)) d _ Hd (settles_const _ _ (fun _ => eq_refl))).
Qed.

Lemma member_bit cs lo hi c : bitmap cs -> 0 <= lo <= hi -> hi < 256 -> lo <= c <= hi -> test_bit cs c = Ok (member cs c).
Proof. intros Hcs Hlo Hhi Hc. apply bitmap_test; [done|]. unfold byte. lia. Qed.

Lemma count_drawn cs chars lo hi : 0 <= lo <= hi -> hi < 256 -> (forall c, byte c -> member cs c = contains chars c) ->
  2 * Z.of_nat (length chars) <= hi - lo + 1 -> hi - lo + 1 <= 2 * count (fun c => negb (member cs c)) lo hi.
Proof.
  intros Hlo Hhi Hm Hl. pose proof (count_out chars lo hi (proj2 Hlo)) as H.
  rewrite (count_ext (fun c => negb (member cs c)) (fun c => negb (contains chars c))); [lia|]. intros c Hc. rewrite Hm; [done|]. unfold byte. lia.
Qed.

(** A character that was drawn. *)
Lemma drawn_member cs chars lo hi : 0 <= lo <= hi -> hi < 256 -> (forall c, byte c -> member cs c = contains chars c) ->
  Forall (fun c => lo <= c <= hi) chars -> chars <> [] -> exists c, lo <= c <= hi /\ member cs c = true.
Proof.
  intros Hlo Hhi Hm Hf Hne. destruct chars as [|c chars]; [done|]. inversion Hf as [|?? Hc _]; subst. exists c. split; [lia|].
  rewrite Hm by (unfold byte; lia). apply contains_elem. by left.
Qed.

Definition any_bitmap (cs : list Z) : Prop := True.

(** No bit of a character from 128 on. *)
Definition ascii_bitmap (cs : list Z) : Prop := forall c, 128 <= c < 256 -> member cs c = false.

Lemma ranged_spec Size M Range : 0 < Size < 2 ^ 64 ->
  generates (fun _ => generate_data_ranged seed Size M Range) M Size (get_char_range Range).1 (get_char_range Range).2 any_bitmap.
Proof.
  intros HS. unfold generate_data_ranged.
  assert (0 <= (get_char_range Range).1 <= (get_char_range Range).2 /\ (get_char_range Range).2 < 256 /\
    1 <= ((get_char_range Range).2 - (get_char_range Range).1 + 1) / 2) as (Hlo & Hhi & H2) by (destruct Range; cbn; lia || (split_and!; by vm_compute)).
  destruct (get_char_range Range) as [lo hi]. cbn [fst snd] in *.
  destruct (random_bits_spec lo hi ((hi - lo + 1) / 2) seed) as (cs & chars & g & -> & Hcs & Hlen & Hf & Hm); [done | done | lia|].
  cbn [mbind res_bind]. eapply (text_of_spec Size M (test_bit cs) lo hi (fun data _ idx => insert_first (test_bit cs) lo hi idx data)); try done.
  - intros c. by apply (member_bit cs lo hi).
  - apply (count_drawn _ chars); [done | done | done|]. rewrite Hlen. apply Z.mul_div_le. lia.
  - intros l _ i Hi. apply insert_first_spec; [intros c; by apply (member_bit cs lo hi) | | done].
    apply (drawn_member _ chars); try done. intros ->. cbn in Hlen. lia.
Qed.

Lemma ascii_test cs c : bitmap cs -> ascii_bitmap cs -> byte c -> in_ascii_set cs c = Ok (member cs c).
Proof.
  intros Hcs Ha Hc. unfold in_ascii_set. destruct (Z.ltb_spec 127 c); [|by apply bitmap_test]. rewrite Ha; [done|]. unfold byte in Hc. lia.
Qed.

Lemma ascii_chars cs chars : (forall c, byte c -> member cs c = contains chars c) -> Forall (fun c => 0 <= c <= 127) chars -> ascii_bitmap cs.
Proof.
  intros Hm Hf c Hc. rewrite Hm by (unfold byte; lia). destruct (contains chars c) eqn:E; [|done]. apply contains_elem in E.
  rewrite Forall_forall in Hf. specialize (Hf c E). cbn beta in Hf. lia.
Qed.

Definition ascii_hi (AsciiOnlyData : bool) : Z := if AsciiOnlyData then 127 else 255.

Lemma ascii128_spec Size M (A : bool) : 0 < Size < 2 ^ 64 ->
  generates (fun _ => generate_data_ascii128 seed Size M A) M Size 0 (ascii_hi A) ascii_bitmap.
Proof.
  intros HS. unfold generate_data_ascii128. fold (ascii_hi A). assert (127 <= ascii_hi A < 256) as Hhi by (destruct A; cbn; lia).
  destruct (random_bits_spec 0 127 64 seed) as (cs & chars & g & -> & Hcs & Hlen & Hf & Hm); [lia | lia | lia|].
  cbn [mbind res_bind]. pose proof (ascii_chars cs chars Hm Hf) as Ha.
  eapply (text_of_spec Size M (in_ascii_set cs) 0 (ascii_hi A) (fun data _ idx => insert_first (in_ascii_set cs) 0 127 idx data)); try done; [lia | lia|..].
  - intros c Hc. apply ascii_test; [done | done|]. unfold byte. lia.
  - apply (count_drawn _ chars); [lia | lia | done|]. lia.
  - intros l _ i Hi. destruct (insert_first_spec (in_ascii_set cs) (member cs) 0 127 i l) as (c & E & Hc & Hr); [| |done|].
    + intros c Hc. apply ascii_test; [done | done|]. unfold byte. lia.
    + apply (drawn_member _ chars); [lia | lia | done | done|]. intros ->. cbn in Hlen. lia.
    + exists c. split_and!; [done | done | lia | lia].
Qed.

(** *** Lists of characters *)

(** A list of at most 64 characters, all below 128. *)
Definition short_list (Chars : list Z) : Prop := Chars <> [] /\ (length Chars <= 64)%nat /\ Forall (fun c => 0 <= c <= 127) Chars.

Lemma preset_short P : P <> Random -> short_list (get_preset_chars P).
Proof.
  intros HP. split_and!; [by destruct P | apply Nat.leb_le; by destruct P|]. apply Forall_forall. intros c Hc. apply list_elem_of_lookup_1 in Hc as [i Hi].
  assert (forallb (fun c => (0 <=? c) && (c <=? 127)) (get_preset_chars P) = true) as H by by destruct P.
  rewrite forallb_forall in H. specialize (H c). apply list_elem_of_lookup_2, list_elem_of_In in Hi. apply H in Hi. lia.
Qed.

Lemma list_text Size M (A : bool) Chars cs (in_set : Z -> res bool) (ins : list Z -> G -> Z -> res (list Z)) g : 0 < Size < 2 ^ 64 ->
  short_list Chars -> bitmap cs -> (forall c, byte c -> member cs c = contains Chars c) -> (forall c, byte c -> in_set c = Ok (member cs c)) ->
  (forall l g i, ins l g i = insert_any Chars i l g) ->
  generates (fun _ => text_of Size M in_set 0 (ascii_hi A) ins cs g) M Size 0 (ascii_hi A) ascii_bitmap.
Proof.
  intros HS (Hne & Hlen & Hf) Hcs Hm Hin Hins. assert (127 <= ascii_hi A < 256) as Hhi by (destruct A; cbn; lia).
  apply text_of_spec; try done; [by apply (ascii_chars cs Chars) | lia | lia | intros c Hc; apply Hin; unfold byte; lia | |].
  - apply (count_drawn _ Chars); [lia | lia | done | lia].
  - intros l g0 i Hi. rewrite Hins.
    destruct (insert_any_spec Chars (fun c => 0 <= c <= 127) i l g0) as (c & E & Hc & Hr); [done | done | done|]. exists c.
    split_and!; [done | | lia | lia]. rewrite Hm by (unfold byte; lia). by apply contains_elem.
Qed.

Lemma short_charset Chars : short_list Chars ->
  exists cs, to_charset Chars = Ok cs /\ bitmap cs /\ forall c, byte c -> member cs c = contains Chars c.
Proof.
  intros (_ & _ & Hf). destruct (to_charset_spec Chars) as (cs & E & Hl & Hb & Hm).
  - eapply Forall_impl; [exact Hf|]. intros c Hc. cbn beta in Hc. unfold byte. lia.
  - exists cs. done.
Qed.

Lemma preset_spec Size M P : 0 < Size < 2 ^ 64 -> P <> Random ->
  generates (fun _ => generate_data_preset seed Size M P) M Size 0 255 any_bitmap.
Proof.
  intros HS HP. pose proof (preset_short P HP) as Hshort. destruct (short_charset _ Hshort) as (cs & E & Hcs & Hm).
  unfold generate_data_preset. rewrite decide_False by done. change (preset_to_charset P) with (to_charset (get_preset_chars P)). rewrite E.
  cbn [mbind res_bind]. rewrite bool_decide_eq_false_2 by apply Hshort. cbn [negb].
  destruct (list_text Size M false (get_preset_chars P) cs (test_bit cs) (fun data g idx => insert_any (get_preset_chars P) idx data g) seed)
    as (d & cs' & H1 & H2 & _ & H3); try done; [intros c; by apply bitmap_test | by exists d, cs'].
Qed.

Lemma ascii128_preset_spec Size M P (A : bool) : 0 < Size < 2 ^ 64 -> P <> Random ->
  generates (fun _ => generate_data_ascii128_preset seed Size M P A) M Size 0 (ascii_hi A) ascii_bitmap.
Proof.
  intros HS HP. pose proof (preset_short P HP) as Hshort. destruct (short_charset _ Hshort) as (cs & E & Hcs & Hm).
  unfold generate_data_ascii128_preset. fold (ascii_hi A). rewrite decide_False by done.
  change (preset_to_charset P) with (to_charset (get_preset_chars P)). rewrite E. cbn [mbind res_bind].
  rewrite (bool_decide_eq_false_2 (get_preset_chars P = [])) by apply Hshort. rewrite (bool_decide_eq_false_2 (P = Random)) by done. cbn [negb andb].
  apply (list_text Size M A (get_preset_chars P) cs (in_ascii_set cs) (fun data g idx => insert_any (get_preset_chars P) idx data g) seed); try done.
  intros c Hc. apply ascii_test; [done | | done]. apply (ascii_chars cs (get_preset_chars P)); [done | apply Hshort].
Qed.

Lemma static_spec Size M Chars : 0 < Size < 2 ^ 64 -> short_list Chars ->
  exists d cs, generate_data_for_static_charset seed Size M Chars = Ok (d, cs) /\ Forall byte d /\ verdict M Size (first_of (contains Chars) d).
Proof.
  intros HS Hshort. destruct (short_charset _ Hshort) as (cs & E & Hcs & Hm). unfold generate_data_for_static_charset. rewrite E.
  cbn [mbind res_bind]. rewrite bool_decide_eq_false_2 by apply Hshort.
  destruct (list_text Size M false Chars cs (test_bit cs) (fun data g idx => insert_any Chars idx data g) seed)
    as (d & cs' & [n Hn] & _ & _ & _ & Hd & Hv); try done; [intros c; by apply bitmap_test|].
  assert (cs' = cs) as ->.
  { specialize (Hn n ltac:(done)). unfold text_of in Hn. case_decide; [destruct (fill _ _ _) as [[? ?]| |]; try done; by injection Hn|].
    destruct (fill _ _ _) as [[l g]| |]; try done. cbn [mbind res_bind] in Hn. destruct (insert_match _ _ _ _); try done. by injection Hn. }
  assert (Forall byte d) as Hb by (eapply Forall_impl; [exact Hd|]; intros c Hc; unfold ascii_hi in Hc; cbn beta in Hc; unfold byte; lia).
  exists d, cs. split_and!; [exact (Hn n ltac:(done)) | done|]. by rewrite <- (first_of_ext (member cs)).
Qed.

(** *** Probabilities *)

Lemma match_chars_spec cs : bitmap cs -> exists m n, match_chars cs = Ok (m, n) /\ Forall byte m /\ Forall byte n.
Proof.
  intros Hcs. unfold match_chars.
  enough (forall l m n, Forall byte l -> Forall byte m -> Forall byte n -> exists m' n',
    foldR (fun '(m, n) c => b ← test_bit cs c; Ok (if b : bool then (m ++ [c], n) else (m, n ++ [c]))) (m, n) l = Ok (m', n') /\
    Forall byte m' /\ Forall byte n') as H.
  { apply H; [|done..]. apply Forall_forall. intros c Hc%elem_of_seqZ. unfold byte. lia. }
  intros l. induction l as [|c l IH]; intros m n Hl Hm Hn; [by exists m, n|]. inversion Hl as [|?? Hc Hl']; subst. cbn [foldR].
  rewrite bitmap_test by done. cbn [mbind res_bind]. destruct (member cs c); apply IH; try done; apply Forall_app; auto.
Qed.

Lemma pick_spec chars (g : G) : chars <> [] -> Forall byte chars -> exists c g', pick chars g = Ok (c, g') /\ byte c.
Proof.
  intros Hne Hb. unfold pick. assert (0 < Z.of_nat (length chars)) as Hpos by (destruct chars; [done | cbn; lia]).
  pose proof (uniform_int_range 0 (Z.of_nat (length chars) - 1) g) as Hr. destruct (uniform_int _ _ g) as [j g']. cbn [fst] in Hr.
  destruct (at_index_ok chars j) as (c & E & El); [lia|]. rewrite E. cbn [mbind res_bind]. exists c, g'. split; [done | by eapply (Forall_lookup byte)].
Qed.

Lemma prob_spec Size P : 0 < Size < 2 ^ 64 -> generates (fun _ => generate_data_prob seed Size P) Mode_Random Size 0 255 any_bitmap.
Proof.
  intros HS. unfold generate_data_prob. destruct (random_charset_spec 0 255 seed) as (cs & g & -> & Hcs); [lia | lia|]. cbn [mbind res_bind].
  destruct (match_chars_spec cs Hcs) as (m & n & -> & Hm & Hn). cbn [mbind res_bind].
  assert (exists m' cs', (if decide (m = []) then charset ← set_bit cs 0; Ok ([0], charset) else Ok (m, cs)) = Ok (m', cs') /\
    m' <> [] /\ Forall byte m' /\ bitmap cs') as (m' & cs' & -> & Hne & Hm' & Hcs').
  { case_decide; [|by exists m, cs]. destruct (set_bit_spec cs 0) as (cs' & -> & Hl & Hb & _); [apply Hcs | apply Hcs | unfold byte; lia|].
    cbn [mbind res_bind]. exists [0], cs'. split_and!; [done | done | repeat constructor; unfold byte; lia | done]. }
  cbn [mbind res_bind]. set (n' := if decide (n = []) then [255] else n).
  assert (n' <> [] /\ Forall byte n') as [Hne' Hn'] by (unfold n'; case_decide; [split; [done | repeat constructor; unfold byte; lia] | done]).
  destruct (fill_const (fun g => let '(b, g) := real_below (prob_value P) g in pick (if b : bool then m' else n') g) byte (Z.to_nat Size) g)
    as (l & g' & -> & Hl & Hb).
  { intros g0. destruct (real_below (prob_value P) g0) as [[] g1]; by apply pick_spec. }
  exists l, cs'. split_and!; [by apply settles_const | done | done | done | | apply random_verdict; [lia | done]].
  eapply Forall_impl; [exact Hb|]. intros c Hc. unfold byte in Hc. lia.
Qed.

(** *** Sets of a size *)

Context (Hfair : fair G).

(** The next new character. *)
Lemma sized_turn lo hi k chars cs g : 0 <= lo <= hi -> hi < 256 -> bitmap cs -> (forall c, byte c -> member cs c = contains chars c) ->
  (exists c, lo <= c <= hi /\ contains chars c = false) -> Z.of_nat (length chars) < k ->
  exists c cs' g', bitmap cs' /\ lo <= c <= hi /\ (forall x, byte x -> member cs' x = contains (c :: chars) x) /\
    forall r, settles (fun fuel => loop (sized_body lo hi k) fuel (Z.of_nat (length (c :: chars)), cs', g')) r ->
      settles (fun fuel => loop (sized_body lo hi k) fuel (Z.of_nat (length chars), cs, g)) r.
Proof.
  intros Hlo Hhi Hcs Hm (c & Hc & Hnc) Hk. destruct (Hfair lo hi c g Hc) as [n Hn].
  assert (forall g, contains chars (uniform_int lo hi g).1 = false -> exists c cs' g', bitmap cs' /\ lo <= c <= hi /\
    (forall x, byte x -> member cs' x = contains (c :: chars) x) /\
    forall r, settles (fun fuel => loop (sized_body lo hi k) fuel (Z.of_nat (length (c :: chars)), cs', g')) r ->
      settles (fun fuel => loop (sized_body lo hi k) fuel (Z.of_nat (length chars), cs, g)) r) as Hnew.
  { clear g Hn. intros g Ed. destruct (draw_char_spec lo hi g Hlo Hhi) as [E Hr]. set (d := (uniform_int lo hi g).1) in *.
    exists d. destruct (set_bit_spec cs d) as (cs' & Es & Hl' & Hb' & Hm'); [apply Hcs | apply Hcs | unfold byte; lia|].
    exists cs', (uniform_int lo hi g).2. split; [done|]. split; [done|]. split; [intros x Hx; by rewrite Hm', Hm by done|].
    intros r Hset. eapply settles_turn; [|exact Hset]. unfold sized_body. rewrite (proj2 (Z.ltb_lt _ _) Hk), E. cbn [mbind res_bind].
    rewrite (member_bit cs lo hi), Hm, Ed by (done || unfold byte; lia). cbn [mbind res_bind]. rewrite Es. cbn [mbind res_bind length]. do 4 f_equal. lia. }
  revert g Hn. induction n as [|n IH]; intros g Hn.
  all: destruct (draw_char_spec lo hi g Hlo Hhi) as [E Hr]; set (d := (uniform_int lo hi g).1) in *;
    assert (test_bit cs d = Ok (contains chars d)) as Et by (rewrite (member_bit cs lo hi) by done; rewrite Hm by (unfold byte; lia); done);
    destruct (contains chars d) eqn:Ed.
  - change (nth_draw lo hi 0 g) with d in Hn. congruence.
  - by apply Hnew.
  - destruct (IH (uniform_int lo hi g).2 Hn) as (c' & cs' & g' & H1 & H2 & H3 & H4). exists c', cs', g'. split; [done|]. split; [done|]. split; [done|].
    intros r Hset. eapply settles_turn; [|exact (H4 r Hset)]. unfold sized_body. rewrite (proj2 (Z.ltb_lt _ _) Hk), E. cbn [mbind res_bind].
    by rewrite Et.
  - by apply Hnew.
Qed.

Lemma sized_charset_spec lo hi k g : 0 <= lo <= hi -> hi < 256 -> 0 <= k -> k <= hi - lo ->
  exists cs chars g', settles (fun fuel => sized_charset lo hi k fuel g) (cs, g') /\ bitmap cs /\ Z.of_nat (length chars) = k /\
    Forall (fun c => lo <= c <= hi) chars /\ forall c, byte c -> member cs c = contains chars c.
Proof.
  intros Hlo Hhi Hk Hkr.
  enough (forall n cs chars g, bitmap cs -> (forall c, byte c -> member cs c = contains chars c) -> Forall (fun c => lo <= c <= hi) chars ->
    Z.of_nat (length chars) + Z.of_nat n = k -> exists cs' chars' g',
    settles (fun fuel => loop (sized_body lo hi k) fuel (Z.of_nat (length chars), cs, g)) (cs', g') /\ bitmap cs' /\ Z.of_nat (length chars') = k /\
    Forall (fun c => lo <= c <= hi) chars' /\ forall c, byte c -> member cs' c = contains chars' c) as H.
  { apply (H (Z.to_nat k) (replicate 32 0) [] g); [split; [done | by apply Forall_replicate] | | done | cbn; lia].
    intros c _. unfold member. by rewrite nth_zeros, Z.bits_0. }
  intros n. induction n as [|n IH]; intros cs chars g0 Hcs Hm Hf Hn.
  - exists cs, chars, g0. split; [|split_and!; done || lia]. apply (settles_loop _ 1). rewrite loop_S. unfold sized_body.
    by rewrite (proj2 (Z.ltb_ge _ _)) by lia.
  - destruct (sized_turn lo hi k chars cs g0) as (c & cs1 & g1 & Hcs1 & Hc & Hm1 & Hset); try done; [|lia|].
    { destruct (count_pos (fun c => negb (contains chars c)) lo hi) as (c & Hc & H); [pose proof (count_out chars lo hi (proj2 Hlo)); lia|].
      exists c. split; [lia|]. by apply negb_true_iff. }
    destruct (IH cs1 (c :: chars) g1) as (cs' & chars' & g' & Hs & H); [done | done | by constructor | cbn [length]; lia|].
    exists cs', chars', g'. split; [by apply Hset | done].
Qed.

Lemma generates_bind (e : nat -> res (list Z * G)) (f : list Z -> G -> res (list Z * list Z)) cs g M Size lo hi R : settles e (cs, g) ->
  generates (fun _ => f cs g) M Size lo hi R -> generates (fun fuel => '(cs, g) ← e fuel; f cs g) M Size lo hi R.
Proof.
  intros He (d & cs' & Hs & H). exists d, cs'. split; [|done]. exact (settles_bind e (fun _ '(cs, g) => f cs g) (cs, g) _ He Hs).
Qed.

Lemma sized_spec Size M S : 0 < Size < 2 ^ 64 -> S <> SetSize_Full ->
  generates (fun fuel => generate_data_sized seed Size M S CharRange_Full fuel) M Size 0 255 any_bitmap.
Proof.
  intros HS HN. unfold generate_data_sized. cbn [get_char_range].
  destruct (sized_charset_spec 0 255 (SetSize_value S) seed) as (cs & chars & g & Hs & Hcs & Hlen & Hf & Hm); [lia | lia | by destruct S | by destruct S|].
  assert (forall fuel, match S with SetSize_Full => random_charset 0 255 seed | _ => sized_charset 0 255 (SetSize_value S) fuel seed end =
    sized_charset 0 255 (SetSize_value S) fuel seed) as Hsel by by destruct S.
  assert (1 <= SetSize_value S <= 32) as Hv by by destruct S.
  assert (generates (fun fuel => '(charset, g) ← sized_charset 0 255 (SetSize_value S) fuel seed;
    text_of Size M (test_bit charset) 0 255 (fun data _ idx => insert_first (test_bit charset) 0 255 idx data) charset g) M Size 0 255 any_bitmap) as Hg.
  { apply (generates_bind _ (fun charset g => text_of Size M (test_bit charset) 0 255
      (fun data _ idx => insert_first (test_bit charset) 0 255 idx data) charset g) cs g); [done|]. apply text_of_spec; try done.
    - intros c. by apply (member_bit cs 0 255).
    - apply (count_drawn _ chars); [lia | lia | done | lia].
    - intros l _ i Hi. apply insert_first_spec; [intros c; by apply (member_bit cs 0 255) | | done].
      apply (drawn_member _ chars); try done. intros ->. cbn in Hlen. lia. }
  destruct Hg as (d & cs' & [n Hn] & H). exists d, cs'. split; [|done]. exists n. intros m Hle. rewrite Hsel. exact (Hn m Hle).
Qed.

(** *** Random bitmaps *)

(** The first bitmap that is drawn has a set bit and one that is not set. *)
Definition mixed_bitmap : Prop := exists cs g, random_charset 0 255 seed = Ok (cs, g) /\
  (exists c, byte c /\ member cs c = true) /\ exists c, byte c /\ member cs c = false.

Lemma data_spec Size M : 0 < Size < 2 ^ 64 -> mixed_bitmap ->
  generates (fun fuel => generate_data seed Size M fuel) M Size 0 255 any_bitmap.
Proof.
  intros HS (cs & g & E & Hin & Hout). destruct (random_charset_spec 0 255 seed) as (cs' & g' & E' & Hcs); [lia | lia|].
  rewrite E in E'. injection E' as <- <-. unfold generate_data. rewrite E. cbn [mbind res_bind]. case_decide as HM.
  - subst M. destruct (fill_draw 0 255 (Z.to_nat Size) g) as (l & g' & -> & Hl & Hf); [lia | lia|]. exists l, cs.
    split_and!; [by apply settles_const | done..|]. apply random_verdict; [lia | done].
  - destruct (fill_spec (fun fuel => draw_until (not_in cs) fuel) (fun c => byte c /\ member cs c = false) (Z.to_nat Size) g) as (l & g' & Hs & Hl & Hf).
    { intros g0. destruct (draw_until_spec (not_in cs) (fun c => negb (member cs c)) g0) as (c & g1 & Hs & Hc & Hn); [done | | |].
      - intros c Hc. unfold not_in. by rewrite bitmap_test by done.
      - destruct Hout as (c & Hc & Hn). exists c. by rewrite Hn.
      - exists c, g1. split_and!; [done | done | by apply negb_true_iff]. }
    apply Forall_and in Hf as [Hb Hno].
    destruct (insert_match_spec Size M (fun fuel idx => '(c, _) ← draw_until (test_bit cs) fuel g'; l.[idx <- c]) l (member cs) byte) as (d & Hd & Hld & Hfd & Hv);
      try done.
    { intros i Hi. destruct (draw_until_spec (test_bit cs) (member cs) g') as (c & g1 & Hsc & Hc & Hn); [done | intros c; by apply bitmap_test | done|].
      exists c. split; [|done]. apply (settles_bind _ (fun _ '(c, _) => l.[i <- c]) (c, g1)); [done|]. apply settles_const. intros _.
      apply set_index_ok. lia. }
    exists d, cs. split_and!; [|done| done | done | |done].
    + apply (settles_bind _ (fun fuel '(data, g) => data ← insert_match Size M (fun idx => '(c, _) ← draw_until (test_bit cs) fuel g; data.[idx <- c]) data;
        Ok (data, cs)) (l, g')); [done|].
      exact (settles_bind _ (fun _ data => Ok (data, cs)) d _ Hd (settles_const _ _ (fun _ => eq_refl))).
    + eapply Forall_impl; [exact Hfd|]. intros c Hc. unfold byte in Hc. lia.
Qed.

(** ** Benchmarks *)

(** The search of a benchmark ends with what its mode says. *)
Definition runs_to (M : Mode) (Size : Z) (e : nat -> res Z) : Prop := exists v, settles e v /\ verdict M Size v.

Lemma generates_run e M Size lo hi (R : list Z -> Prop) (func : list Z -> list Z -> res Z) : generates e M Size lo hi R -> 0 <= lo -> hi < 256 ->
  (forall d cs, bitmap cs -> R cs -> Forall byte d -> Forall (fun c => lo <= c <= hi) d -> func d cs = Ok (first_of (member cs) d)) ->
  runs_to M Size (fun fuel => '(d, cs) ← e fuel; func d cs).
Proof.
  intros (d & cs & Hs & Hcs & HR & Hl & Hd & Hv) Hlo Hhi Hfunc. exists (first_of (member cs) d). split; [|done].
  apply (settles_bind e (fun _ '(d, cs) => func d cs) (d, cs)); [done|]. apply settles_const. intros _. apply Hfunc; try done.
  eapply Forall_impl; [exact Hd|]. intros c Hc. cbn beta in Hc. unfold byte. lia.
Qed.

(** A search of the whole bitmap. *)
Definition finds (func : list Z -> list Z -> res Z) : Prop :=
  forall d cs, bitmap cs -> Forall byte d -> func d cs = Ok (first_of (member cs) d).

Lemma avx2_finds : finds avx2_fn.
Proof. intros d cs [Hl Hb] Hd. by apply avx2_first. Qed.

Lemma scalar_finds : finds scalar_fn.
Proof. intros d cs [Hl Hb] Hd. by apply scalar_first. Qed.

Lemma std_finds : finds std_fn.
Proof. intros d cs [Hl Hb] Hd. by apply (scalar_first cs d). Qed.

Lemma find16 (func : list Z -> list Z -> res Z) d cs : bitmap cs -> func d (take 16 cs) = Ok (first_of (member cs) d) ->
  (charset16 ← charset32_to_16 cs; func d charset16) = Ok (first_of (member cs) d).
Proof. intros [Hl _] H. by rewrite charset32_to_16_take. Qed.

Lemma member128_take cs c : ascii_bitmap cs -> byte c -> member128 (take 16 cs) c = member cs c.
Proof.
  intros Ha Hc. unfold byte in Hc. unfold member128. destruct (Z.ltb_spec c 128); cbn [andb]; [apply member_take16; lia|].
  by rewrite Ha by lia.
Qed.

Lemma a128_finds d cs : bitmap cs -> ascii_bitmap cs -> Forall byte d -> find_charset_avx2_ascii128 true d (take 16 cs) = Ok (first_of (member cs) d).
Proof.
  intros [Hl Hb] Ha Hd. rewrite ascii128_overflow_first by (done || rewrite length_take; lia). f_equal. apply first_of_ext; [done|].
  intros c. by apply member128_take.
Qed.

Lemma a128_ascii_finds d cs : bitmap cs -> Forall (fun c => 0 <= c <= 127) d ->
  find_charset_avx2_ascii128 false d (take 16 cs) = Ok (first_of (member cs) d).
Proof.
  intros [Hl Hb] Hd. assert (Forall (fun c => 0 <= c < 128) d) as Hd' by (eapply Forall_impl; [exact Hd|]; intros c Hc; cbn beta in *; lia).
  rewrite ascii128_first by (done || rewrite length_take; lia). f_equal. apply first_of_small; [done|]. intros c Hc. by apply member_take16.
Qed.

Lemma a128T_finds d cs : bitmap cs -> ascii_bitmap cs -> Forall byte d ->
  exists t, transpose_charset16 (take 16 cs) = Ok t /\ find_charset_avx2_ascii128_transposed true d t = Ok (first_of (member cs) d) /\
    find_charset_avx2_ascii128_transposed false d (take 16 cs) = Ok (first_of (member cs) d).
Proof.
  intros [Hl Hb] Ha Hd. destruct (transpose_spec (take 16 cs)) as (t & Et & Lt & Bt & Mt); [rewrite length_take; lia|].
  exists t. split; [done|].
  rewrite (transposed_first t d Lt Bt Hd false (take 16 cs) Et), (transposed_first t d Lt Bt Hd true t (copy_local_spec t Lt)).
  rewrite (first_of_ext (member_t t) (member cs)); [done | done|]. intros c Hc. rewrite Mt by done. by apply member128_take.
Qed.

(** ** The registered benchmarks *)

Context (Hbitmap : mixed_bitmap).

(** A benchmark returns what its name says: its size and its mode, or a probability. *)
Definition as_named (b : string * (nat -> res Z)) : Prop :=
  exists pre Size, (exists M, b.1 = pre +:+ mode_name M +:+ "/" +:+ pretty Size /\ runs_to M Size b.2) \/
    (exists P, b.1 = pre +:+ "/prob/" +:+ prob_name P +:+ "/" +:+ pretty Size /\ runs_to Mode_Random Size b.2).

Lemma string_assoc (a b c : string) : (a +:+ b) +:+ c = a +:+ b +:+ c.
Proof. induction a as [|x a IH]; [done|]. change (String x ((a +:+ b) +:+ c) = String x (a +:+ b +:+ c)). by rewrite IH. Qed.

Lemma registered (f : Z -> string * (nat -> res Z)) (seq : list Z) : Forall (fun I => 0 < I < 2 ^ 64) seq ->
  (forall I, 0 < I < 2 ^ 64 -> as_named (f I)) -> Forall as_named (f <$> seq).
Proof. intros Hs Hf. apply Forall_fmap. eapply Forall_impl; [exact Hs|]. intros I HI. by apply Hf. Qed.

Lemma named_mode pre M Size name e : runs_to M Size e -> name = pre +:+ mode_name M +:+ "/" +:+ pretty Size -> as_named (name, e).
Proof. intros Hr ->. exists pre, Size. left. by exists M. Qed.

Lemma when_named b l : Forall as_named l -> Forall as_named (when b l).
Proof. by destruct b. Qed.

Lemma bind_named {A} (l : list A) (f : A -> list (string * (nat -> res Z))) : (forall x, x ∈ l -> Forall as_named (f x)) -> Forall as_named (l ≫= f).
Proof.
  intros H. induction l as [|x l IH]; [constructor|]. rewrite bind_cons. apply Forall_app. split; [apply H; by left|].
  apply IH. intros y Hy. apply H. by right.
Qed.

Section sizes.
Context (mode : Mode -> bool) (seq : list Z) (Hseq : Forall (fun I => 0 < I < 2 ^ 64) seq).

Lemma basic_named M alg func : finds func -> Forall as_named (register_tests_for_mode seed M seq alg func).
Proof.
  intros Hf. apply registered; [done|]. intros I HI. apply (named_mode (alg +:+ "/") M I); [|by rewrite string_assoc].
  eapply generates_run; [by apply data_spec | lia | lia|]. intros d cs Hcs _ Hd _. by apply Hf.
Qed.

Lemma preset_named M P alg func : P <> Random -> finds func -> Forall as_named (register_preset_tests seed M P seq alg func).
Proof.
  intros HP Hf. apply registered; [done|]. intros I HI.
  apply (named_mode (alg +:+ "/preset/" +:+ preset_name P +:+ "/") M I); [|by rewrite !string_assoc].
  eapply (generates_run (fun _ => generate_data_preset seed I M P)); [by apply preset_spec | lia | lia|]. intros d cs Hcs _ Hd _. by apply Hf.
Qed.

Lemma prob_named P alg func : finds func -> Forall as_named (register_prob_tests seed P seq alg func).
Proof.
  intros Hf. apply registered; [done|]. intros I HI. exists alg, I. right. exists P. split; [done|].
  eapply (generates_run (fun _ => generate_data_prob seed I P)); [by apply prob_spec | lia | lia|]. intros d cs Hcs _ Hd _. by apply Hf.
Qed.

Lemma range_named M R alg func : finds func -> Forall as_named (register_range_tests seed M R seq alg func).
Proof.
  intros Hf. apply registered; [done|]. intros I HI.
  apply (named_mode (alg +:+ "/range/" +:+ range_name R +:+ "/") M I); [|by rewrite !string_assoc].
  eapply (generates_run (fun _ => generate_data_ranged seed I M R)); [by apply ranged_spec | by destruct R | by destruct R|].
  intros d cs Hcs _ Hd _. by apply Hf.
Qed.

Lemma sized_named M S alg func : S <> SetSize_Full -> finds func -> Forall as_named (register_sized_tests seed M S seq alg func).
Proof.
  intros HS Hf. apply registered; [done|]. intros I HI.
  apply (named_mode (alg +:+ "/sized/" +:+ setsize_name S +:+ "/") M I); [|by rewrite !string_assoc].
  eapply generates_run; [by apply sized_spec | lia | lia|]. intros d cs Hcs _ Hd _. by apply Hf.
Qed.

(** The searches for the characters of a type. *)
Lemma static_named M Chars name : short_list Chars ->
  Forall as_named (register_static_ct_tests seed M Chars seq name) /\ Forall as_named (register_bitmap_ct_tests seed M Chars seq name) /\
  Forall as_named (register_loop_rt_tests seed M Chars seq name).
Proof.
  intros Hshort. assert (Forall byte Chars) as HCb.
  { destruct Hshort as (_ & _ & Hf). eapply Forall_impl; [exact Hf|]. intros c Hc. cbn beta in Hc. unfold byte. lia. }
  split_and!; (apply registered; [done|]); intros I HI; destruct (static_spec I M Chars HI Hshort) as (d & cs & E & Hd & Hv).
  - apply (named_mode ("scalar_static_ct/" +:+ name +:+ "/") M I); [|by rewrite !string_assoc]. exists (first_of (contains Chars) d).
    split; [|done]. apply settles_const. intros k. unfold BM_run_static_ct. rewrite E. cbn [mbind res_bind]. by rewrite static_ct_first, counted_0.
  - apply (named_mode ("scalar_bitmap_ct/" +:+ name +:+ "/") M I); [|by rewrite !string_assoc]. exists (first_of (contains Chars) d).
    split; [|done]. apply settles_const. intros k. unfold BM_run_bitmap_ct. rewrite E. cbn [mbind res_bind]. by apply bitmap_ct_first.
  - apply (named_mode ("scalar_loop_rt/" +:+ name +:+ "/") M I); [|by rewrite !string_assoc]. exists (first_of (contains Chars) d).
    split; [|done]. apply settles_const. intros k. unfold BM_run_loop_rt. rewrite E. cbn [mbind res_bind]. by rewrite loop_rt_first, counted_0.
Qed.

(** The searches with 128 bits. *)
Lemma ascii_named M alg :
  Forall as_named (register_ascii128_no_overflow_tests seed M seq alg (find_charset_avx2_ascii128 false)) /\
  Forall as_named (register_ascii128_overflow_tests seed M seq alg (find_charset_avx2_ascii128 true)) /\
  Forall as_named (register_ascii128_transposed_convert_tests seed M seq alg (find_charset_avx2_ascii128_transposed false)) /\
  Forall as_named (register_ascii128_transposed_pre_tests seed M seq alg (find_charset_avx2_ascii128_transposed true)).
Proof.
  split_and!; (apply registered; [done|]); intros I HI; (apply (named_mode (alg +:+ "/") M I); [|by rewrite !string_assoc]).
  - eapply (generates_run (fun _ => generate_data_ascii128 seed I M true)); [by apply ascii128_spec | done | done|]. intros d cs Hcs Ha Hd Hr.
    apply find16; [done|]. by apply a128_ascii_finds.
  - eapply (generates_run (fun _ => generate_data_ascii128 seed I M false)); [by apply ascii128_spec | done | done|]. intros d cs Hcs Ha Hd Hr.
    apply find16; [done|]. by apply a128_finds.
  - eapply (generates_run (fun _ => generate_data_ascii128 seed I M false)); [by apply ascii128_spec | done | done|]. intros d cs Hcs Ha Hd Hr.
    apply find16; [done|]. by destruct (a128T_finds d cs Hcs Ha Hd) as (t & _ & _ & ?).
  - eapply (generates_run (fun _ => generate_data_ascii128 seed I M false)); [by apply ascii128_spec | done | done|]. intros d cs Hcs Ha Hd Hr.
    destruct (a128T_finds d cs Hcs Ha Hd) as (t & Et & ? & _). rewrite charset32_to_16_take by apply Hcs. cbn [mbind res_bind]. by rewrite Et.
Qed.

Lemma ascii_preset_named M P alg : P <> Random ->
  Forall as_named (register_ascii128_preset_tests seed M P true seq alg (find_charset_avx2_ascii128 false)) /\
  Forall as_named (register_ascii128_preset_tests seed M P false seq alg (find_charset_avx2_ascii128 true)) /\
  Forall as_named (register_ascii128_preset_transposed_tests seed M P false seq alg (find_charset_avx2_ascii128_transposed true)).
Proof.
  intros HP. split_and!; (apply registered; [done|]); intros I HI;
    (apply (named_mode (alg +:+ "/preset/" +:+ preset_name P +:+ "/") M I); [|by rewrite !string_assoc]).
  - eapply (generates_run (fun _ => generate_data_ascii128_preset seed I M P true)); [by apply ascii128_preset_spec | done | done|].
    intros d cs Hcs Ha Hd Hr. apply find16; [done|]. by apply a128_ascii_finds.
  - eapply (generates_run (fun _ => generate_data_ascii128_preset seed I M P false)); [by apply ascii128_preset_spec | done | done|].
    intros d cs Hcs Ha Hd Hr. apply find16; [done|]. by apply a128_finds.
  - eapply (generates_run (fun _ => generate_data_ascii128_preset seed I M P false)); [by apply ascii128_preset_spec | done | done|].
    intros d cs Hcs Ha Hd Hr. destruct (a128T_finds d cs Hcs Ha Hd) as (t & Et & ? & _). rewrite charset32_to_16_take by apply Hcs.
    cbn [mbind res_bind]. by rewrite Et.
Qed.

(** The groups. *)
Lemma modes_named f alg func : (forall M, Forall as_named (f M seq alg func)) -> Forall as_named (register_modes mode seq f alg func).
Proof. intros Hf. apply bind_named. intros M _. apply when_named, Hf. Qed.

Lemma group_basic_named : Forall as_named (group_basic seed mode seq).
Proof.
  unfold group_basic. cbv zeta. rewrite !Forall_app. split_and!; apply modes_named; intros M; apply basic_named;
    [apply avx2_finds | apply scalar_finds | apply std_finds].
Qed.

Ltac not_random := intros ? H; repeat (apply elem_of_cons in H as [->|H]); [done..|]; by apply elem_of_nil in H.

Lemma presets_not_random P : P ∈ [Json; Html; Whitespace; LineBreak; Digits] -> P <> Random.
Proof. revert P. not_random. Qed.

Lemma sizes_not_full S : S ∈ [N1; N2; N4; N8; N16; N32] -> S <> SetSize_Full.
Proof. revert S. not_random. Qed.

Lemma group_preset_named : Forall as_named (group_preset seed mode seq).
Proof.
  assert (forall name func, finds func -> Forall as_named (
    when (mode NoMatch) ([Json; Html; Whitespace; LineBreak; Digits] ≫= fun P => register_preset_tests seed NoMatch P seq name func) ++
    when (mode MatchMiddle) ([Json; Html; Whitespace] ≫= fun P => register_preset_tests seed MatchMiddle P seq name func))) as H.
  { intros name func Hf. apply Forall_app. split; apply when_named, bind_named; intros P HP; (apply preset_named; [|done]);
      apply presets_not_random; [done|]. rewrite !elem_of_cons in *. tauto. }
  apply Forall_app. split; apply H; [apply avx2_finds | apply scalar_finds].
Qed.

Lemma group_prob_named : Forall as_named (group_prob seed seq).
Proof.
  apply Forall_app. split; apply bind_named; intros P _; apply prob_named; [apply avx2_finds | apply scalar_finds].
Qed.

Lemma group_range_named : Forall as_named (group_range seed mode seq).
Proof.
  apply Forall_app. split; apply when_named, bind_named; intros R _; apply range_named; [apply avx2_finds | apply scalar_finds].
Qed.

Lemma group_sized_named : Forall as_named (group_sized seed mode seq).
Proof.
  assert (forall name func, finds func -> Forall as_named (
    when (mode NoMatch) ([N1; N2; N4; N8; N16; N32] ≫= fun S => register_sized_tests seed NoMatch S seq name func) ++
    when (mode MatchMiddle) ([N1; N4; N8] ≫= fun S => register_sized_tests seed MatchMiddle S seq name func))) as H.
  { intros name func Hf. apply Forall_app. split; apply when_named, bind_named; intros S HS; (apply sized_named; [|done]);
      apply sizes_not_full; [done|]. rewrite !elem_of_cons in *. tauto. }
  apply Forall_app. split; apply H; [apply avx2_finds | apply scalar_finds].
Qed.

Lemma short_list_dec Chars : negb (bool_decide (Chars = [])) && (length Chars <=? 64)%nat && forallb (fun c => (0 <=? c) && (c <=? 127)) Chars = true ->
  short_list Chars.
Proof.
  rewrite !andb_true_iff, negb_true_iff, bool_decide_eq_false, Nat.leb_le, forallb_forall. intros [[H1 H2] H3]. split_and!; [done | done|].
  apply Forall_forall. intros c Hc. apply list_elem_of_In, H3 in Hc. lia.
Qed.

Lemma group_static_named : Forall as_named (group_static seed mode seq).
Proof.
  assert (forall M (l : list (list Z * string)), forallb (fun x => negb (bool_decide (x.1 = [])) && (length x.1 <=? 64)%nat &&
      forallb (fun c => (0 <=? c) && (c <=? 127)) x.1) l = true ->
    Forall as_named (l ≫= fun x => register_static_ct_tests seed M x.1 seq x.2) /\
    Forall as_named (l ≫= fun x => register_bitmap_ct_tests seed M x.1 seq x.2) /\
    Forall as_named (l ≫= fun x => register_loop_rt_tests seed M x.1 seq x.2)) as H.
  { intros M l Hl. rewrite forallb_forall in Hl. split_and!; apply bind_named; intros x Hx; apply static_named, short_list_dec, Hl, list_elem_of_In, Hx. }
  apply Forall_app. split; apply when_named, Forall_app; (split; [by apply H|]); apply Forall_app; split; by apply H.
Qed.

Lemma group_ascii128_named : Forall as_named (group_ascii128 seed mode seq).
Proof.
  assert (forall (f : Mode -> Preset -> list Z -> string -> (list Z -> list Z -> res Z) -> list (string * (nat -> res Z))) name func, (forall M P, P <> Random -> Forall as_named (f M P seq name func)) -> Forall as_named (
    when (mode NoMatch) ([Json; Html; Whitespace; LineBreak] ≫= fun P => f NoMatch P seq name func) ++
    when (mode MatchMiddle) ([Json; Html; Whitespace] ≫= fun P => f MatchMiddle P seq name func))) as H.
  { intros f name func Hf. apply Forall_app. split; apply when_named, bind_named; intros P HP; apply Hf, presets_not_random;
      rewrite !elem_of_cons in *; tauto. }
  pose proof ascii_named as Ha. pose proof ascii_preset_named as Hp.
  unfold group_ascii128. cbv zeta.
  apply Forall_app; split; [apply modes_named; intros M; exact (proj1 (Ha M _))|].
  apply Forall_app; split; [apply modes_named; intros M; exact (proj1 (proj2 (Ha M _)))|].
  apply Forall_app; split; [apply modes_named; intros M; exact (proj1 (proj2 (proj2 (Ha M _))))|].
  apply Forall_app; split; [apply modes_named; intros M; exact (proj2 (proj2 (proj2 (Ha M _))))|].
  apply Forall_app; split; [|apply Forall_app; split].
  - apply (H (fun M P => register_ascii128_preset_tests seed M P true)). intros M P HP. exact (proj1 (Hp M P _ HP)).
  - apply (H (fun M P => register_ascii128_preset_tests seed M P false)). intros M P HP. exact (proj1 (proj2 (Hp M P _ HP))).
  - apply (H (fun M P => register_ascii128_preset_transposed_tests seed M P false)). intros M P HP. exact (proj2 (proj2 (Hp M P _ HP))).
Qed.
End sizes.

Lemma main_named argv0 args rest bs : main seed argv0 args = Some (rest, bs) -> Forall as_named bs.
Proof.
  unfold main. destruct (parse_args _ args) as [a|]; [|done]. cbn [mbind option_bind]. intros [= _ <-].
  assert (Forall (fun I => 0 < I < 2 ^ 64) Sizes) as Hs by (repeat (constructor; [lia|]); constructor).
  apply Forall_app; split; [by apply when_named, group_basic_named|].
  apply Forall_app; split; [by apply when_named, group_preset_named|].
  apply Forall_app; split; [by apply when_named, group_prob_named|].
  apply Forall_app; split; [by apply when_named, group_range_named|].
  apply Forall_app; split; [by apply when_named, group_sized_named|].
  apply Forall_app; split; [by apply when_named, group_static_named|].
  by apply when_named, group_ascii128_named.
Qed.
End generators.

(** ** Names and arguments *)

Section names.
Context {G : Type} `{!RandomEngine G} `{!RealEngine G} (seed : G).

Lemma when_sublist (b : bool) (l : list (string * (nat -> res Z))) k : (b = true -> k = true) -> (when b l).*1 `sublist_of` (when k l).*1.
Proof. intros H. destruct b; [by rewrite H | apply sublist_nil_l]. Qed.

Lemma bind_sublist {A} (l : list A) (f f' : A -> list (string * (nat -> res Z))) : (forall x, (f x).*1 `sublist_of` (f' x).*1) ->
  (l ≫= f).*1 `sublist_of` (l ≫= f').*1.
Proof. intros H. induction l as [|x l IH]; [done|]. rewrite !bind_cons, !fmap_app. by apply sublist_app. Qed.

(** With more modes more benchmarks are registered. *)
Lemma modes_sublist (mode : Mode -> bool) seq f alg func :
  (register_modes mode seq f alg func).*1 `sublist_of` (register_modes (fun _ => true) seq f alg func).*1.
Proof. apply bind_sublist. intros M. by apply when_sublist. Qed.

Lemma groups_sublist (mode : Mode -> bool) seq :
  (group_basic seed mode seq).*1 `sublist_of` (group_basic seed (fun _ => true) seq).*1 /\
  (group_preset seed mode seq).*1 `sublist_of` (group_preset seed (fun _ => true) seq).*1 /\
  (group_range seed mode seq).*1 `sublist_of` (group_range seed (fun _ => true) seq).*1 /\
  (group_sized seed mode seq).*1 `sublist_of` (group_sized seed (fun _ => true) seq).*1 /\
  (group_static seed mode seq).*1 `sublist_of` (group_static seed (fun _ => true) seq).*1 /\
  (group_ascii128 seed mode seq).*1 `sublist_of` (group_ascii128 seed (fun _ => true) seq).*1.
Proof.
  split_and!; cbv beta zeta delta [group_basic group_preset group_range group_sized group_static group_ascii128]; rewrite !fmap_app;
    repeat apply sublist_app; first [apply modes_sublist | by apply when_sublist].
Qed.

(** The names of all benchmarks. *)
Definition all_names : list string :=
  (group_basic seed (fun _ => true) Sizes ++ group_preset seed (fun _ => true) Sizes ++ group_prob seed Sizes ++
   group_range seed (fun _ => true) Sizes ++ group_sized seed (fun _ => true) Sizes ++ group_static seed (fun _ => true) Sizes ++
   group_ascii128 seed (fun _ => true) Sizes).*1.

Lemma main_names argv0 args rest bs : main seed argv0 args = Some (rest, bs) -> bs.*1 `sublist_of` all_names.
Proof.
  unfold main. destruct (parse_args _ args) as [a|]; [|done]. cbn [mbind option_bind]. intros [= _ <-]. unfold all_names. rewrite !fmap_app.
  assert (forall b (l l' : list (string * (nat -> res Z))), l.*1 `sublist_of` l'.*1 -> (when b l).*1 `sublist_of` l'.*1) as Hw
    by (intros [] l l' H; [done | apply sublist_nil_l]).
  destruct (groups_sublist (fun m => bool_decide (m ∈ (if decide (enabled_modes a = []) then [NoMatch] else enabled_modes a))) Sizes)
    as (H1 & H2 & H4 & H5 & H6 & H7).
  repeat apply sublist_app; apply Hw; done.
Qed.
End names.

(** The names are distinct. *)
Fixpoint distinct (l : list string) : bool := match l with [] => true | x :: l => negb (existsb (String.eqb x) l) && distinct l end.

Lemma distinct_NoDup l : distinct l = true -> NoDup l.
Proof.
  induction l as [|x l IH]; [constructor|]. cbn [distinct]. rewrite andb_true_iff, negb_true_iff. intros [H1 H2]. constructor; [|by apply IH].
  intros Hin. rewrite <- not_true_iff_false, existsb_exists in H1. apply H1. exists x. split; [by apply list_elem_of_In | apply String.eqb_refl].
Qed.

(** What std::getline reads from a list of items that are separated by commas. *)
Fixpoint has_comma (s : string) : bool := match s with EmptyString => false | String c s => bool_decide (String c EmptyString = ",") || has_comma s end.

Fixpoint comma_list (items : list string) : string :=
  match items with [] => EmptyString | [x] => x | x :: items => x +:+ "," +:+ comma_list items end.

Lemma string_app_nil (s : string) : s +:+ EmptyString = s.
Proof. induction s as [|c s IH]; [done|]. change (String c (s +:+ EmptyString) = String c s). by rewrite IH. Qed.

Lemma getline_item item x s : has_comma x = false -> getline_items item (x +:+ s) = getline_items (item +:+ x) s.
Proof.
  revert item. induction x as [|c x IH]; intros item Hx; [by rewrite string_app_nil|].
  cbn [has_comma] in Hx. apply orb_false_iff in Hx as [Hc Hx]. apply bool_decide_eq_false in Hc.
  change (String c x +:+ s) with (String c (x +:+ s)). cbn [getline_items]. rewrite decide_False by done. rewrite IH by done. by rewrite string_assoc.
Qed.

Lemma getline_comma_list items : Forall (fun x => has_comma x = false /\ x <> EmptyString) items ->
  getline_items EmptyString (comma_list items) = items.
Proof.
  intros H. induction H as [|x items [Hx Hne] Hf IH]; [done|]. destruct items as [|y items].
  - cbn [comma_list]. rewrite <- (string_app_nil x) at 1. rewrite getline_item by done. change (EmptyString +:+ x) with x.
    cbn [getline_items]. by rewrite decide_False by done.
  - change (comma_list (x :: y :: items)) with (x +:+ "," +:+ comma_list (y :: items)). rewrite getline_item by done.
    change ("," +:+ comma_list (y :: items)) with (String (Ascii.Ascii false false true true false true false false) (comma_list (y :: items))).
    cbn [getline_items]. rewrite decide_True by done. by rewrite IH.
Qed.

Lemma substring_all s : String.substring 0 (String.length s) s = s.
Proof. induction s as [|c s IH]; [done|]. cbn. by rewrite IH. Qed.

Lemma after_prefix p s : after p (p +:+ s) = Some s.
Proof.
  unfold after. assert (String.prefix p (p +:+ s) = true) as ->.
  { induction p as [|c p IH]; [by destruct s|]. change (String c p +:+ s) with (String c (p +:+ s)). cbn [String.prefix]. by destruct (Ascii.ascii_dec c c). }
  f_equal. induction p as [|c p IH].
  - change (EmptyString +:+ s) with s. cbn [String.length]. rewrite Nat.sub_0_r. apply substring_all.
  - change (String c p +:+ s) with (String c (p +:+ s)). exact IH.
Qed.

Lemma after_modes s : after "--groups=" ("--modes=" +:+ s) = None.
Proof. reflexivity. Qed.

(** An argument that is not one of the program. *)
Definition foreign (arg : string) : Prop := after "--groups=" arg = None /\ after "--modes=" arg = None /\ arg <> "--list-groups".

Lemma parse_foreign a args : Forall foreign args -> parse_args a args = Some (mkArgs (enabled_groups a) (enabled_modes a) (valid_args a ++ args)).
Proof.
  intros H. revert a. induction H as [|arg args (H1 & H2 & H3) _ IH]; intros a; [rewrite app_nil_r; by destruct a|].
  cbn [parse_args]. unfold parse_arg. rewrite H1, H2, decide_False by done. cbn [mbind option_bind]. rewrite IH. cbn. by rewrite <- app_assoc.
Qed.

(** ** Theorems *)

(** The lists of groups and modes that are given are those that are read, and the other arguments are
    left for the library. *)
Theorem benchmark_arguments (argv0 : string) (groups modes others : list string) :
  Forall (fun x => has_comma x = false /\ x <> EmptyString) groups -> Forall (fun x => has_comma x = false /\ x <> EmptyString) modes ->
  comma_list modes <> "all" -> Forall foreign others ->
  parse_args (mkArgs [] [] [argv0]) (["--groups=" +:+ comma_list groups; "--modes=" +:+ comma_list modes] ++ others) =
  Some (mkArgs groups (omap lookup_mode modes) (argv0 :: others)).
Proof.
  intros Hg Hm Hall Ho. cbn [app parse_args]. unfold parse_arg at 1. rewrite after_prefix. cbn [mbind option_bind]. unfold parse_arg at 1.
  rewrite after_modes, after_prefix. cbn [mbind option_bind]. rewrite parse_foreign by done. cbn.
  rewrite getline_comma_list by done. rewrite decide_False by done. by rewrite getline_comma_list by done.
Qed.

(** An engine that goes through every range in turn. *)
#[export] Instance counter_engine : RandomEngine Z.
Proof.
  refine {| uniform_int lo hi g := (if lo <=? hi then lo + g mod (hi - lo + 1) else lo, g + 1); below_percent _ g := (false, g + 1) |}.
  intros a b g Hab. cbn. rewrite (proj2 (Z.leb_le a b)) by lia. pose proof (Z.mod_pos_bound g (b - a + 1)). lia.
Defined.

#[export] Instance counter_real : RealEngine Z := fun _ g => (Z.even g, g + 1).

Lemma counter_after lo hi n (g : Z) : after_draws lo hi n g = g + Z.of_nat n.
Proof. revert g. induction n as [|n IH]; intros g; cbn [after_draws]; [lia|]. rewrite IH. cbn. lia. Qed.

Lemma counter_draw lo hi n (g : Z) : lo <= hi -> nth_draw lo hi n g = lo + (g + Z.of_nat n) mod (hi - lo + 1).
Proof. intros H. unfold nth_draw. rewrite counter_after. cbn. by rewrite (proj2 (Z.leb_le lo hi)) by lia. Qed.

Lemma counter_reaches lo hi c (g : Z) : lo <= c <= hi -> exists n, (Z.of_nat n < hi - lo + 1) /\ nth_draw lo hi n g = c.
Proof.
  intros Hc. set (k := hi - lo + 1). exists (Z.to_nat ((c - lo - g) mod k)). pose proof (Z.mod_pos_bound (c - lo - g) k). split; [lia|].
  rewrite counter_draw by lia. fold k. rewrite Z2Nat.id by lia. rewrite Zplus_mod_idemp_r.
  replace (g + (c - lo - g)) with (c - lo) by lia. rewrite Z.mod_small by lia. lia.
Qed.

Lemma counter_fair : fair Z.
Proof. intros lo hi c g Hc. destruct (counter_reaches lo hi c g Hc) as (n & _ & Hn). by exists n. Qed.

Lemma counter_mixing : mixing Z.
Proof.
  intros lo hi P g Hr Hs Hc. destruct (count_pos P lo hi) as (c & Hcr & HP); [lia|]. destruct (counter_reaches lo hi c g Hcr) as (n & Hn & E).
  exists n. split; [lia|]. by rewrite E.
Qed.

Lemma counter_bitmap : mixed_bitmap (0 : Z).
Proof.
  eexists _, _. split; [reflexivity|]. split; [exists 8 | exists 0]; (split; [unfold byte; lia | by vm_compute]).
Qed.



(** The loop of generate_data has no limit: with a bitmap that has all bits it does not end. *)
Theorem full_bitmap_never_ends {G} `{!RandomEngine G} (seed g : G) (cs : list Z) (Size : Z) (M : Mode) (fuel : nat) :
  random_charset 0 255 seed = Ok (cs, g) -> (forall c, byte c -> member cs c = true) -> 0 < Size -> M <> Mode_Random ->
  generate_data seed Size M fuel = NoFuel.
Proof.
  intros E Hall HS HM. destruct (random_charset_spec 0 255 seed) as (cs' & g' & E' & Hcs); [lia | lia|]. rewrite E in E'. injection E' as <- <-.
  unfold generate_data. rewrite E. cbn [mbind res_bind]. rewrite decide_False by done.
  assert (forall c, byte c -> not_in cs c = Ok false) as Hnot by (intros c Hc; unfold not_in; by rewrite bitmap_test, Hall by done).
  assert (forall g, draw_until (not_in cs) fuel g = NoFuel) as Hu.
  { clear E. unfold draw_until. induction fuel as [|n IH]; intros g0; [done|]. rewrite loop_S. destruct (draw_char_spec 0 255 g0) as [-> Hr]; [lia | lia|].
    cbn [mbind res_bind]. rewrite Hnot by (unfold byte; lia). cbn [mbind res_bind]. apply IH. }
  destruct (Z.to_nat Size) as [|n] eqn:En; [lia|]. cbn [fill]. by rewrite Hu.
Qed.
