(* ===== verification/Meminfo.v ===== *)
(** * The parser of /proc/meminfo

    src/memory/meminfo_parser.hpp.  The union of fifty fields and the array of fifty values
    is the list of the values.  A pointer into the buffer is its offset; the buffer is what
    [read] has put there, so that a read of a character after it, which is uninitialized,
    is an index out of bounds here.  The system calls are the parameter of meminfo_parse. *)

From Stdlib Require Import Ascii String.
From S2P Require Import Prelude JsonChar.

(** ** Names *)

Definition meminfo_names : list (list ascii) :=
  list_ascii_of_string <$>
  ["MemTotal"; "MemFree"; "MemAvailable"; "Buffers"; "Cached"; "SwapCached"; "Active"; "Inactive";
   "Active(anon)"; "Inactive(anon)"; "Active(file)"; "Inactive(file)"; "Unevictable"; "Mlocked";
   "SwapTotal"; "SwapFree"; "Dirty"; "Writeback"; "AnonPages"; "Mapped"; "Shmem"; "KReclaimable";
   "Slab"; "SReclaimable"; "SUnreclaim"; "KernelStack"; "PageTables"; "NFS_Unstable"; "Bounce";
   "WritebackTmp"; "CommitLimit"; "Committed_AS"; "VmallocTotal"; "VmallocUsed"; "VmallocChunk";
   "Percpu"; "AnonHugePages"; "ShmemHugePages"; "ShmemPmdMapped"; "FileHugePages";
   "FilePmdMapped"; "HugePages_Total"; "HugePages_Free"; "HugePages_Rsvd"; "HugePages_Surp";
   "Hugepagesize"; "Hugetlb"; "DirectMap4k"; "DirectMap2M"; "DirectMap1G"]%string.

Definition MEMINFO_TYPES : nat := length meminfo_names.

Definition Meminfo : Type := list Z.

(** ** Characters *)

Definition isblank (c : ascii) : bool := (c =? " ")%char || (c =? "009")%char.
Definition isspace (c : ascii) : bool := (c =? " ")%char || char_in "009" "013" c.
Definition isdigit (c : ascii) : bool := char_in "0" "9" c.
Definition iscolon (c : ascii) : bool := (c =? ":")%char.
Definition isline (c : ascii) : bool := (c =? "010")%char || (c =? "013")%char.

(** ** Lines *)

Section buffer.
Context (buf : list ascii).

(** The pointer is never null, so that only the characters end the loop. *)
Definition find_first_not (f : ascii -> bool) (text : Z) : res Z :=
  loop (fun text => c ← buf.[text]; Ok (if f c then inl (text + 1) else inr text))
    (S (length buf)) text.

Definition find_first (f : ascii -> bool) (text : Z) : res Z :=
  find_first_not (fun c => negb (f c)) text.

(** [!::strncmp(name, cursor, strlen(name))]. *)
Fixpoint same_name (name : list ascii) (cursor : Z) : res bool :=
  match name with
  | [] => Ok true
  | x :: name =>
      c ← buf.[cursor]; if (c =? x)%char then same_name name (cursor + 1) else Ok false
  end.

(** The digits from [pos] on, after the value [v]. *)
Definition digits_body (s : Z * Z) : res (Z * Z + Z) :=
  let '(pos, v) := s in
  c ← buf.[pos];
  Ok (if isdigit c then inl (pos + 1, 10 * v + (uchar c - uchar "0")) else inr v).

(** [::sscanf(pos, "%lld", &x)]: white space, a sign and digits; nothing is stored when there
    is no digit, and a number that does not fit is undefined. *)
Definition sscanf_lld (pos : Z) : res (option Z) :=
  pos ← find_first_not isspace pos;
  c ← buf.[pos];
  let '(negative, pos) :=
    if (c =? "-")%char then (true, pos + 1) else if (c =? "+")%char then (false, pos + 1)
    else (false, pos) in
  d ← buf.[pos];
  if isdigit d then
    v ← loop digits_body (S (length buf)) (pos, 0);
    let v := if negative : bool then - v else v in
    _ ← check (sfits 64 v) SignedOverflow;
    Ok (Some v)
  else Ok None.

(** The next line, or the null pointer. *)
Definition meminfo_parse_line (meminfo : Meminfo) (cursor : Z) (arr_index : nat) :
    res (Meminfo * option Z) :=
  match meminfo_names !! arr_index with
  | None => Ok (meminfo, None)
  | Some meminfo_name =>
      pos_colon ← find_first iscolon cursor;
      pos_val ← find_first_not (fun c => iscolon c || isblank c) pos_colon;
      verified ← same_name meminfo_name cursor;
      if verified : bool then
        x ← sscanf_lld pos_val;
        meminfo ← match x with Some v => meminfo.[Z.of_nat arr_index <- v] | None => Ok meminfo end;
        nextline ← find_first isline pos_val;
        c ← buf.[nextline];
        Ok (meminfo, Some (if isline c then nextline + 1 else nextline))
      else Ok (meminfo, None)
  end.

(** The turn of the loop of meminfo_parse; it is left with the index. *)
Definition parse_body (s : Meminfo * Z * nat) : res (Meminfo * Z * nat + Meminfo * nat) :=
  let '(meminfo, cursor, index) := s in
  if (index <? MEMINFO_TYPES)%nat then
    '(meminfo, next) ← meminfo_parse_line meminfo cursor index;
    Ok (match next with
        | Some cursor => inl (meminfo, cursor, S index)
        | None => inr (meminfo, S index)
        end)
  else Ok (inr (meminfo, index)).
End buffer.

(** [content] is what the file holds, [None] if it cannot be opened or read; the result is
    [false], the number 0, on success. *)
Definition meminfo_parse (content : option (list ascii)) (meminfo : Meminfo) : res (bool * Meminfo) :=
  match content with
  | None | Some [] => Ok (true, meminfo)
  | Some buf =>
      let meminfo := replicate MEMINFO_TYPES 0 in
      '(meminfo, index) ← loop (parse_body buf) (S MEMINFO_TYPES) (meminfo, 0, 0%nat);
      Ok (negb (index =? MEMINFO_TYPES)%nat, meminfo)
  end.

(** ** Output *)

(** A number in decimal digits. *)
Fixpoint digits_of (fuel : nat) (v : Z) (acc : list ascii) : list ascii :=
  match fuel with
  | O => acc
  | S fuel =>
      let acc := to_char (uchar "0" + v mod 10) :: acc in
      if v <? 10 then acc else digits_of fuel (v / 10) acc
  end.

(** [os << v] for a [long long], which has at most 19 digits. *)
Definition put_lld (v : Z) : list ascii :=
  if v <? 0 then "-"%char :: digits_of 19 (- v) [] else digits_of 19 v [].

Definition dump_line (name : list ascii) (v : Z) : list ascii :=
  name ++ [":"; "009"]%char ++ put_lld v ++ [" "; "k"; "B"; "010"]%char.

Definition dump (meminfo : Meminfo) : res (list ascii) :=
  foldR (fun os i =>
    name ← meminfo_names.[i]; v ← meminfo.[i]; Ok (os ++ dump_line name v))
    [] (seqZ 0 (Z.of_nat MEMINFO_TYPES)).

(** A difference of [long long]. *)
Definition minus_lld (a b : Z) : res Z := _ ← check (sfits 64 (a - b)) SignedOverflow; Ok (a - b).

Definition dump_diff (before after : Meminfo) (diff_kb : Z) : res (list ascii) :=
  diff_kb ← (if diff_kb <? 0 then minus_lld 0 diff_kb else Ok diff_kb);
  foldR (fun os i =>
    a ← after.[i]; b ← before.[i];
    calc ← minus_lld a b;
    if (diff_kb <? calc) || (calc <? - diff_kb) then
      name ← meminfo_names.[i];
      '(op, calc) ← (if 0 <? calc then Ok ("+"%char, calc)
                     else calc ← minus_lld 0 calc; Ok ("-"%char, calc));
      Ok (os ++ op :: dump_line name calc)
    else Ok os) [] (seqZ 0 (Z.of_nat MEMINFO_TYPES)).
