(* ===== verification/MeminfoProps.v ===== *)
(** * What the parser of /proc/meminfo accepts

    The lines of the kernel's file, and with them those that dump writes, are parsed to their
    values. *)

From Stdlib Require Import Ascii String.
From S2P Require Import Prelude JsonChar Meminfo.

(** ** Reading a buffer *)

Lemma read_at (buf pre : list ascii) c s k :
  buf = pre ++ c :: s -> k = Z.of_nat (length pre) -> buf.[k] = Ok c.
Proof.
  intros -> ->. apply at_index_lookup; [lia|]. by rewrite Nat2Z.id, list_lookup_middle.
Qed.

Lemma find_first_not_spec f (buf pre w : list ascii) c s :
  buf = pre ++ w ++ c :: s -> Forall (fun x => f x = true) w -> f c = false ->
  find_first_not buf f (Z.of_nat (length pre)) = Ok (Z.of_nat (length (pre ++ w))).
Proof.
  intros E Hw Hc. unfold find_first_not.
  enough (forall n pre, buf = pre ++ w ++ c :: s -> (length w < n)%nat ->
    loop (fun text => c ← buf.[text]; Ok (if f c then inl (text + 1) else inr text)) n (Z.of_nat (length pre)) =
    Ok (Z.of_nat (length (pre ++ w)))) as H.
  { apply H; [done|]. rewrite E, !length_app. cbn. lia. }
  clear E pre. induction Hw as [|x w Hx _ IH]; intros n pre E Hn; (destruct n as [|n]; [lia|]); rewrite loop_S.
  - rewrite (read_at _ pre c s) by done. cbn. by rewrite Hc, app_nil_r.
  - rewrite (read_at _ pre x (w ++ c :: s)) by done. cbn [mbind res_bind]. rewrite Hx.
    replace (Z.of_nat (length pre) + 1) with (Z.of_nat (length (pre ++ [x]))) by (rewrite length_app; cbn; lia).
    rewrite IH; [by rewrite <- app_assoc | by rewrite <- app_assoc | cbn in Hn; lia].
Qed.

Lemma find_first_spec f (buf pre w : list ascii) c s :
  buf = pre ++ w ++ c :: s -> Forall (fun x => f x = false) w -> f c = true ->
  find_first buf f (Z.of_nat (length pre)) = Ok (Z.of_nat (length (pre ++ w))).
Proof.
  intros E Hw Hc. apply (find_first_not_spec _ _ _ _ c s E); [|by rewrite Hc].
  eapply Forall_impl; [|exact Hw]. intros x Hx. cbn in *. by rewrite Hx.
Qed.

Lemma same_name_spec (buf pre name s : list ascii) :
  buf = pre ++ name ++ s -> same_name buf name (Z.of_nat (length pre)) = Ok true.
Proof.
  revert pre. induction name as [|x name IH]; intros pre E; [done|]. cbn [same_name].
  rewrite (read_at _ pre x (name ++ s)) by done. cbn [mbind res_bind]. rewrite Ascii.eqb_refl.
  replace (Z.of_nat (length pre) + 1) with (Z.of_nat (length (pre ++ [x]))) by (rewrite length_app; cbn; lia).
  apply IH. by rewrite <- app_assoc.
Qed.

(** ** Decimal numbers *)

Definition decimal (v : Z) (ds : list ascii) : Z := foldl (fun v c => 10 * v + (uchar c - uchar "0")) v ds.

Lemma decimal_app v ds es : decimal v (ds ++ es) = decimal (decimal v ds) es.
Proof. apply foldl_app. Qed.

Lemma digits_loop_spec (buf pre ds : list ascii) c s v :
  buf = pre ++ ds ++ c :: s -> Forall (fun x => isdigit x = true) ds -> isdigit c = false ->
  loop (digits_body buf) (S (length buf)) (Z.of_nat (length pre), v) = Ok (decimal v ds).
Proof.
  intros E Hds Hc.
  enough (forall n pre v, buf = pre ++ ds ++ c :: s -> (length ds < n)%nat ->
    loop (digits_body buf) n (Z.of_nat (length pre), v) = Ok (decimal v ds)) as H.
  { apply H; [done|]. rewrite E, !length_app. cbn. lia. }
  clear E pre v. induction Hds as [|x ds Hx _ IH]; intros n pre v E Hn; (destruct n as [|n]; [lia|]);
    rewrite loop_S; unfold digits_body at 2.
  - rewrite (read_at _ pre c s) by done. cbn. by rewrite Hc.
  - rewrite (read_at _ pre x (ds ++ c :: s)) by done. cbn [mbind res_bind]. rewrite Hx.
    replace (Z.of_nat (length pre) + 1) with (Z.of_nat (length (pre ++ [x]))) by (rewrite length_app; cbn; lia).
    rewrite IH; [done | by rewrite <- app_assoc | cbn in Hn; lia].
Qed.

Lemma digit_char d : 0 <= d < 10 -> isdigit (to_char (uchar "0" + d)) = true /\ uchar (to_char (uchar "0" + d)) = uchar "0" + d.
Proof.
  intros Hd. assert (forallb (fun d => isdigit (to_char (uchar "0" + d)) && (uchar (to_char (uchar "0" + d)) =? uchar "0" + d))
    (seqZ 0 10) = true) as H by reflexivity.
  pose proof (range_check _ _ H d Hd) as Hb. cbn in Hb. apply andb_true_iff in Hb as [H1 H2]. by apply Z.eqb_eq in H2.
Qed.

Lemma digits_of_spec fuel v acc :
  0 <= v < 10 ^ Z.of_nat fuel -> (0 < fuel)%nat ->
  exists ds, digits_of fuel v acc = ds ++ acc /\ ds <> [] /\ Forall (fun c => isdigit c = true) ds /\ decimal 0 ds = v.
Proof.
  revert v acc. induction fuel as [|fuel IH]; intros v acc Hv Hf; [lia|]. cbn [digits_of].
  destruct (digit_char (v mod 10)) as [Hd Hu]; [apply Z.mod_pos_bound; lia|].
  set (d := to_char (uchar "0" + v mod 10)) in *. destruct (Z.ltb_spec v 10) as [Hlt|Hge].
  - exists [d]. split_and!; [done | done | by constructor |]. unfold decimal. cbn [foldl]. rewrite Hu, Z.mod_small; lia.
  - rewrite Nat2Z.inj_succ, Z.pow_succ_r in Hv by lia.
    assert (0 < fuel)%nat by (destruct fuel; [cbn in Hv; lia | lia]).
    destruct (IH (v / 10) (d :: acc)) as (ds & -> & Hne & Hds & Hval);
      [split; [apply Z.div_pos; lia | apply Z.div_lt_upper_bound; lia] | done |].
    exists (ds ++ [d]). split_and!; [by rewrite <- app_assoc | by destruct ds | |].
    + apply Forall_app. split; [done | by constructor].
    + rewrite decimal_app, Hval. unfold decimal. cbn [foldl]. rewrite Hu. pose proof (Z.div_mod v 10). lia.
Qed.

(** ** Lines *)

(** A line of the file: a name, a colon, blanks, a number and whatever is up to the end of the
    line. *)
Inductive line (name : list ascii) : Z -> list ascii -> Prop :=
  | line_intro (blanks ds suffix : list ascii) (negative : bool) nl v :
      Forall (fun c => isblank c = true) blanks ->
      ds <> [] -> Forall (fun c => isdigit c = true) ds ->
      Forall (fun c => isline c = false) suffix -> isline nl = true ->
      (forall c, head suffix = Some c -> isdigit c = false) ->
      v = (if negative then - decimal 0 ds else decimal 0 ds) -> sfits 64 v = true ->
      line name v (name ++ ":"%char :: blanks ++ (if negative then ["-"%char] else []) ++ ds ++ suffix ++ [nl]).

(** Characters of two kinds are different. *)
Lemma digit_kinds c : isdigit c = true ->
  isblank c = false /\ iscolon c = false /\ isspace c = false /\ isline c = false /\
  (c =? "-")%char = false /\ (c =? "+")%char = false.
Proof. by destruct c as [[] [] [] [] [] [] [] []]. Qed.

Lemma line_digit c : isline c = true -> isdigit c = false.
Proof. by destruct c as [[] [] [] [] [] [] [] []]. Qed.

Lemma blank_kinds c : isblank c = true -> iscolon c || isblank c = true.
Proof. intros ->. apply orb_true_r. Qed.

Definition sign (negative : bool) : list ascii := if negative then ["-"%char] else [].

(** The number at [pre]. *)
Lemma sscanf_spec (buf pre ds s : list ascii) (negative : bool) c :
  buf = pre ++ sign negative ++ ds ++ c :: s -> ds <> [] -> Forall (fun c => isdigit c = true) ds ->
  isdigit c = false -> sfits 64 (if negative then - decimal 0 ds else decimal 0 ds) = true ->
  sscanf_lld buf (Z.of_nat (length pre)) = Ok (Some (if negative then - decimal 0 ds else decimal 0 ds)).
Proof.
  intros E Hne Hds Hc Hfit. unfold sscanf_lld.
  destruct ds as [|d ds]; [done|]. pose proof (Forall_inv Hds) as Hd. cbn in Hd.
  destruct (digit_kinds d Hd) as (_ & _ & Hsp & _ & Hm & Hp). destruct negative; cbn [sign app] in E.
  - rewrite (find_first_not_spec isspace _ pre [] "-"%char (d :: ds ++ c :: s)) by done.
    rewrite app_nil_r. cbn [mbind res_bind]. rewrite (read_at _ pre "-"%char (d :: ds ++ c :: s)) by done.
    cbn [mbind res_bind Ascii.eqb Bool.eqb].
    replace (Z.of_nat (length pre) + 1) with (Z.of_nat (length (pre ++ ["-"%char]))) by (rewrite length_app; cbn; lia).
    assert (buf = (pre ++ ["-"%char]) ++ (d :: ds) ++ c :: s) as E' by (by rewrite <- app_assoc).
    rewrite (read_at _ _ d (ds ++ c :: s) _ E') by done. cbn [mbind res_bind]. rewrite Hd.
    rewrite (digits_loop_spec _ _ _ _ _ _ E') by done. cbn [mbind res_bind]. by rewrite Hfit.
  - rewrite (find_first_not_spec isspace _ pre [] d (ds ++ c :: s)) by done.
    rewrite app_nil_r. cbn [mbind res_bind]. rewrite (read_at _ pre d (ds ++ c :: s)) by done.
    cbn [mbind res_bind]. rewrite Hm, Hp. rewrite (read_at _ pre d (ds ++ c :: s)) by done.
    cbn [mbind res_bind]. rewrite Hd.
    rewrite (digits_loop_spec _ _ (d :: ds) c s) by done. cbn [mbind res_bind]. by rewrite Hfit.
Qed.

Lemma parse_line_spec (buf pre w s name : list ascii) m i v :
  buf = pre ++ w ++ s -> line name v w -> meminfo_names !! i = Some name ->
  Forall (fun c => iscolon c = false) name -> (i < length m)%nat ->
  meminfo_parse_line buf m (Z.of_nat (length pre)) i = Ok (<[i := v]> m, Some (Z.of_nat (length (pre ++ w)))).
Proof.
  intros E Hline Hi Hcol Hlen. revert E.
  destruct Hline as [blanks ds suffix negative nl v' Hb Hne Hds Hsuf Hnl Hhd Hv Hfit]. intros E.
  unfold meminfo_parse_line. rewrite Hi.
  set (num := sign negative ++ ds).
  assert (exists d t, num = d :: t /\ iscolon d || isblank d = false) as (d & t & En & Hd).
  { unfold num. destruct negative; cbn [sign app]; [by eexists _, _|]. destruct ds as [|d ds]; [done|].
    exists d, ds. split; [done|]. destruct (digit_kinds d (Forall_inv Hds)) as (-> & -> & _). done. }
  assert (exists c u, suffix ++ [nl] ++ s = c :: u /\ isdigit c = false) as (c & u & Ec & Hc).
  { destruct suffix as [|c suffix]; [eexists _, _; split; [done | by apply line_digit] |].
    eexists _, _. split; [done | by apply Hhd]. }
  assert (buf = pre ++ name ++ ":"%char :: blanks ++ num ++ suffix ++ [nl] ++ s) as E1.
  { rewrite E. unfold num. repeat (rewrite <- ?app_assoc; cbn [app]). done. }
  rewrite (find_first_spec iscolon buf pre name ":"%char _ E1 Hcol) by done. cbn [mbind res_bind].
  assert (buf = (pre ++ name) ++ (":"%char :: blanks) ++ d :: t ++ suffix ++ [nl] ++ s) as E2.
  { rewrite E1, En, <- app_assoc. done. }
  rewrite (find_first_not_spec _ buf (pre ++ name) (":"%char :: blanks) d _ E2);
    [|constructor; [done|]; eapply Forall_impl; [|exact Hb]; apply blank_kinds | done].
  cbn [mbind res_bind]. rewrite (same_name_spec buf pre name _ E1). cbn [mbind res_bind].
  set (p := (pre ++ name) ++ ":"%char :: blanks).
  assert (buf = p ++ sign negative ++ ds ++ c :: u) as E3.
  { rewrite E1, <- Ec. unfold p, num. by rewrite <- !app_assoc. }
  rewrite (sscanf_spec buf p ds u negative c E3 Hne Hds Hc) by (by rewrite <- Hv). cbn [mbind res_bind].
  rewrite set_index_ok, Nat2Z.id by lia. cbn [mbind res_bind].
  assert (buf = p ++ (num ++ suffix) ++ nl :: s) as E4.
  { rewrite E1. unfold p. by rewrite <- !app_assoc. }
  rewrite (find_first_spec isline buf p (num ++ suffix) nl s E4); [|apply Forall_app; split; [|done] | done].
  - cbn [mbind res_bind]. rewrite (read_at buf (p ++ num ++ suffix) nl s) by (by rewrite ?E4, <- ?app_assoc).
    cbn [mbind res_bind]. rewrite Hnl, <- Hv. do 3 f_equal. unfold p, num, sign.
    rewrite !length_app. cbn [length]. rewrite !length_app. cbn [length]. lia.
  - unfold num. apply Forall_app. split; [by destruct negative; constructor|].
    eapply Forall_impl; [|exact Hds]. intros x Hx. by destruct (digit_kinds x Hx) as (_ & _ & _ & ? & _).
Qed.

(** ** Files *)

(** The lines of the fields from [i] on. *)
Inductive lines : nat -> list Z -> list ascii -> Prop :=
  | lines_nil i : lines i [] []
  | lines_cons i name v w vs t :
      meminfo_names !! i = Some name -> line name v w -> lines (S i) vs t -> lines i (v :: vs) (w ++ t).

Lemma names_no_colon i name : meminfo_names !! i = Some name -> Forall (fun c => iscolon c = false) name.
Proof.
  intros Hi. assert (forallb (forallb (fun c => negb (iscolon c))) meminfo_names = true) as H by (vm_compute; reflexivity).
  rewrite forallb_Forall in H. eapply (Forall_lookup_1 _ _ _ _ H) in Hi. rewrite forallb_Forall in Hi.
  eapply Forall_impl; [|exact Hi]. intros c Hc. cbn in Hc. by destruct (iscolon c).
Qed.

(** The values [vs] stored from [i] on. *)
Definition stored (m : list Z) (i : nat) (vs : list Z) : list Z := take i m ++ vs ++ drop (i + length vs) m.

Lemma stored_cons m i v vs : (i < length m)%nat -> stored (<[i := v]> m) (S i) vs = stored m i (v :: vs).
Proof.
  intros Hi. unfold stored. rewrite insert_take_drop by done.
  assert (length (take i m ++ [v]) = S i) as Hl by (rewrite length_app, length_take; cbn; lia).
  rewrite (app_assoc _ [v] (drop (S i) m) : take i m ++ v :: drop (S i) m = _).
  rewrite take_app_le, take_ge, drop_app_ge by lia. rewrite Hl, drop_drop, <- app_assoc. cbn [app length].
  by replace (S i + (S i + length vs - S i))%nat with (i + S (length vs))%nat by lia.
Qed.

Lemma parse_lines i vs t :
  lines i vs t -> forall (buf pre s : list ascii) m n,
  buf = pre ++ t ++ s -> length m = MEMINFO_TYPES ->
  loop (parse_body buf) (length vs + n) (m, Z.of_nat (length pre), i) =
  loop (parse_body buf) n (stored m i vs, Z.of_nat (length (pre ++ t)), (i + length vs)%nat).
Proof.
  induction 1 as [i|i name v w vs t Hi Hw _ IH]; intros buf pre s m n E Hm.
  { rewrite app_nil_r. unfold stored. cbn [length app]. by rewrite Nat.add_0_r, take_drop. }
  pose proof (lookup_lt_Some _ _ _ Hi) as Hlt. cbn [length Nat.add]. rewrite loop_S. unfold parse_body at 2.
  rewrite (proj2 (Nat.ltb_lt _ _)) by done.
  rewrite (parse_line_spec buf pre w (t ++ s) name m i v);
    [| by rewrite E, <- app_assoc | done | done | by eapply names_no_colon | by rewrite Hm].
  cbn [mbind res_bind]. rewrite (IH buf (pre ++ w) s (<[i := v]> m) n);
    [|by rewrite E, <- !app_assoc | by rewrite length_insert].
  rewrite stored_cons, <- app_assoc by (by rewrite Hm). by replace (i + S (length vs))%nat with (S i + length vs)%nat by lia.
Qed.

Lemma lines_length i vs t : lines i vs t -> (i <= MEMINFO_TYPES)%nat -> (i + length vs <= MEMINFO_TYPES)%nat.
Proof.
  induction 1 as [i|i name v w vs t Hi Hw _ IH]; intros Hle; cbn [length]; [lia|].
  apply lookup_lt_Some in Hi. unfold MEMINFO_TYPES in *. lia.
Qed.

Lemma stored_zeros vs :
  (length vs <= MEMINFO_TYPES)%nat ->
  stored (replicate MEMINFO_TYPES 0) 0 vs = vs ++ replicate (MEMINFO_TYPES - length vs) 0.
Proof. intros Hl. unfold stored. cbn [take app]. by rewrite Nat.add_0_l, drop_replicate. Qed.

Lemma parse_nonempty buf m :
  buf <> [] -> meminfo_parse (Some buf) m =
  ('(m', index) ← loop (parse_body buf) (S MEMINFO_TYPES) (replicate MEMINFO_TYPES 0, 0, 0%nat);
   Ok (negb (index =? MEMINFO_TYPES)%nat, m')).
Proof. by destruct buf. Qed.

Lemma parse_prefix vs t buf s n :
  lines 0 vs t -> buf = t ++ s -> (length vs + n = S MEMINFO_TYPES)%nat ->
  loop (parse_body buf) (S MEMINFO_TYPES) (replicate MEMINFO_TYPES 0, 0, 0%nat) =
  loop (parse_body buf) n (vs ++ replicate (MEMINFO_TYPES - length vs) 0, Z.of_nat (length t), length vs).
Proof.
  intros Ht E Hn. pose proof (lines_length _ _ _ Ht ltac:(lia)).
  rewrite <- Hn. change 0 with (Z.of_nat (length (@nil ascii))) at 2.
  rewrite (parse_lines 0 vs t Ht buf [] s) by (done || by rewrite length_replicate).
  by rewrite stored_zeros by lia.
Qed.

(** A line that is not that of the field [name]: it has a colon and a value, and another name. *)
Definition other_line (name : list ascii) (w : list ascii) : Prop :=
  (exists a b c r, w = a ++ ":"%char :: b ++ c :: r /\ Forall (fun c => iscolon c = false) a /\
     Forall (fun c => iscolon c || isblank c = true) b /\ iscolon c || isblank c = false) /\
  exists x d y e z, name = x ++ d :: y /\ w = x ++ e :: z /\ d <> e.

Lemma same_name_other (buf pre x : list ascii) d y e z :
  buf = pre ++ x ++ e :: z -> d <> e -> same_name buf (x ++ d :: y) (Z.of_nat (length pre)) = Ok false.
Proof.
  intros E Hne. revert pre E. induction x as [|a x IH]; intros pre E; cbn [app same_name].
  - rewrite (read_at _ pre e z) by done. cbn [mbind res_bind]. destruct (Ascii.eqb_spec e d); [by subst | done].
  - rewrite (read_at _ pre a (x ++ e :: z)) by done. cbn [mbind res_bind]. rewrite Ascii.eqb_refl.
    replace (Z.of_nat (length pre) + 1) with (Z.of_nat (length (pre ++ [a]))) by (rewrite length_app; cbn; lia).
    apply IH. by rewrite <- app_assoc.
Qed.

Lemma parse_other_line (buf pre w s name : list ascii) m i :
  buf = pre ++ w ++ s -> other_line name w -> meminfo_names !! i = Some name ->
  meminfo_parse_line buf m (Z.of_nat (length pre)) i = Ok (m, None).
Proof.
  intros E ((a & b & c & r & Ew & Ha & Hb & Hc) & x & d & y & e & z & -> & Ew' & Hne) Hi.
  unfold meminfo_parse_line. rewrite Hi.
  assert (buf = pre ++ a ++ ":"%char :: b ++ c :: r ++ s) as E1.
  { rewrite E, Ew. repeat (rewrite <- ?app_assoc; cbn [app]). done. }
  rewrite (find_first_spec iscolon buf pre a ":"%char _ E1 Ha) by done. cbn [mbind res_bind].
  assert (buf = (pre ++ a) ++ (":"%char :: b) ++ c :: r ++ s) as E2 by (by rewrite E1, <- app_assoc).
  rewrite (find_first_not_spec _ buf (pre ++ a) (":"%char :: b) c _ E2) by (done || by constructor).
  cbn [mbind res_bind]. rewrite (same_name_other buf pre x d y e (z ++ s)); [done | | done].
  rewrite E, Ew'. by rewrite <- app_assoc.
Qed.

Lemma other_line_nonempty name w : other_line name w -> w <> [].
Proof. intros ((a & b & c & r & -> & _) & _) H. by destruct a. Qed.

(** ** Output *)

Lemma foldR_append (f : list ascii -> Z -> res (list ascii)) (g : nat -> list ascii) k n os :
  (forall os i, (k <= i < k + n)%nat -> f os (Z.of_nat i) = Ok (os ++ g i)) ->
  foldR f os (seqZ (Z.of_nat k) (Z.of_nat n)) = Ok (os ++ concat (g <$> seq k n)).
Proof.
  revert k os. induction n as [|n IH]; intros k os Hf; [by rewrite app_nil_r|].
  rewrite seqZ_cons by lia. cbn [foldR seq fmap list_fmap concat]. rewrite Hf by lia. cbn [mbind res_bind].
  replace (Z.succ (Z.of_nat k)) with (Z.of_nat (S k)) by lia.
  replace (Z.pred (Z.of_nat (S n))) with (Z.of_nat n) by lia.
  rewrite IH by (intros; apply Hf; lia). by rewrite <- app_assoc.
Qed.

Definition name_at (i : nat) : list ascii := default [] (meminfo_names !! i).

Lemma name_at_index i : (i < MEMINFO_TYPES)%nat -> meminfo_names.[Z.of_nat i] = Ok (name_at i).
Proof.
  intros Hi. destruct (lookup_lt_is_Some_2 meminfo_names i Hi) as [x Hx].
  apply at_index_lookup; [lia|]. unfold name_at. by rewrite Nat2Z.id, Hx.
Qed.

Lemma value_at_index (m : list Z) i : (i < length m)%nat -> m.[Z.of_nat i] = Ok (nth i m 0).
Proof.
  intros Hi. destruct (lookup_lt_is_Some_2 m i Hi) as [x Hx].
  apply at_index_lookup; [lia|]. by rewrite Nat2Z.id, (nth_lookup_Some _ _ _ _ Hx).
Qed.

Lemma dump_spec m :
  length m = MEMINFO_TYPES ->
  dump m = Ok (concat ((fun i => dump_line (name_at i) (nth i m 0)) <$> seq 0 MEMINFO_TYPES)).
Proof.
  intros Hm. unfold dump. apply (foldR_append _ (fun i => dump_line (name_at i) (nth i m 0)) 0).
  intros os i Hi. rewrite name_at_index, value_at_index by lia. done.
Qed.

Lemma put_lld_spec v :
  sfits 64 v = true ->
  exists ds, put_lld v = sign (v <? 0) ++ ds /\ ds <> [] /\ Forall (fun c => isdigit c = true) ds /\
    v = (if v <? 0 then - decimal 0 ds else decimal 0 ds).
Proof.
  intros Hf. unfold sfits in Hf. change (2 ^ (64 - 1)) with 9223372036854775808 in Hf.
  assert (10 ^ Z.of_nat 19 = 10000000000000000000) as E10 by reflexivity.
  unfold put_lld. destruct (Z.ltb_spec v 0).
  - destruct (digits_of_spec 19 (- v) []) as (ds & -> & Hne & Hds & Hv); [lia | lia |].
    exists ds. rewrite app_nil_r. split_and!; [done..| lia].
  - destruct (digits_of_spec 19 v []) as (ds & -> & Hne & Hds & Hv); [lia | lia |].
    exists ds. rewrite app_nil_r. split_and!; [done..| lia].
Qed.

Lemma dump_line_line name v : sfits 64 v = true -> line name v (dump_line name v).
Proof.
  intros Hf. destruct (put_lld_spec v Hf) as (ds & E & Hne & Hds & Hv). unfold dump_line. rewrite E.
  pose proof (line_intro name ["009"%char] ds [" "; "k"; "B"]%char (v <? 0) "010"%char v) as L.
  replace (name ++ [":"; "009"]%char ++ (sign (v <? 0) ++ ds) ++ [" "; "k"; "B"; "010"]%char)
    with (name ++ ":"%char :: ["009"%char] ++ (if v <? 0 then ["-"%char] else []) ++ ds ++ [" "; "k"; "B"]%char ++ ["010"%char])
    by (unfold sign; by rewrite <- !app_assoc).
  apply L; try done; try by repeat constructor. intros c [= <-]. done.
Qed.

Lemma dump_lines m i :
  Forall (fun v => sfits 64 v = true) m -> (length m <= MEMINFO_TYPES)%nat -> (i <= length m)%nat ->
  lines i (drop i m) (concat ((fun i => dump_line (name_at i) (nth i m 0)) <$> seq i (length m - i))).
Proof.
  intros Hf Hm Hi. remember (length m - i)%nat as n eqn:En. revert i Hi En.
  induction n as [|n IH]; intros i Hi En.
  - rewrite drop_ge by lia. constructor.
  - destruct (lookup_lt_is_Some_2 m i) as [v Hv]; [lia|].
    destruct (lookup_lt_is_Some_2 meminfo_names i) as [name Hn]; [unfold MEMINFO_TYPES in *; lia|].
    cbn [seq fmap list_fmap concat]. rewrite (drop_S _ _ _ Hv). apply (lines_cons i name); [done | | apply IH; lia].
    unfold name_at. rewrite Hn. rewrite (nth_lookup_Some _ _ _ _ Hv). apply dump_line_line.
    by eapply (Forall_lookup_1 _ _ _ _ Hf).
Qed.

Lemma line_nonempty name v w : line name v w -> w <> [].
Proof. intros [] Hw. by destruct name. Qed.

Lemma parse_all vs t rest m :
  lines 0 vs t -> length vs = MEMINFO_TYPES -> meminfo_parse (Some (t ++ rest)) m = Ok (false, vs).
Proof.
  intros Ht Hl. rewrite parse_nonempty.
  - rewrite (parse_prefix vs t (t ++ rest) rest 1) by (done || lia). rewrite loop_S. unfold parse_body at 2.
    rewrite Hl, Nat.ltb_irrefl, Nat.sub_diag, app_nil_r. cbn. done.
  - destruct Ht as [|i name v w vs t _ Hw _]; [done|]. apply line_nonempty in Hw. by destruct w.
Qed.

(** The difference of a field, as dump_diff writes it. *)
Definition diff_line (before after : list Z) (diff_kb : Z) (i : nat) : list ascii :=
  let calc := nth i after 0 - nth i before 0 in
  if diff_kb <? Z.abs calc
  then (if 0 <? calc then "+"%char else "-"%char) :: dump_line (name_at i) (Z.abs calc) else [].

Lemma dump_diff_spec before after diff_kb :
  length before = MEMINFO_TYPES -> length after = MEMINFO_TYPES -> 0 <= diff_kb ->
  (forall i, (i < MEMINFO_TYPES)%nat -> Z.abs (nth i after 0 - nth i before 0) < 2 ^ 63) ->
  dump_diff before after diff_kb = Ok (concat (diff_line before after diff_kb <$> seq 0 MEMINFO_TYPES)).
Proof.
  intros Hb Ha Hd Hfit. unfold dump_diff. rewrite (proj2 (Z.ltb_ge diff_kb 0)) by done. cbn [mbind res_bind].
  apply (foldR_append _ (diff_line before after diff_kb) 0). intros os i Hi. specialize (Hfit i ltac:(lia)).
  rewrite !value_at_index, name_at_index by lia. cbn [mbind res_bind]. unfold diff_line.
  set (calc := nth i after 0 - nth i before 0) in *. unfold minus_lld. fold calc.
  assert (sfits 64 calc = true /\ sfits 64 (0 - calc) = true) as [-> E]
    by (unfold sfits; change (2 ^ (64 - 1)) with (2 ^ 63); lia).
  cbn [check mbind res_bind]. replace ((diff_kb <? calc) || (calc <? - diff_kb)) with (diff_kb <? Z.abs calc) by lia.
  destruct (diff_kb <? Z.abs calc) eqn:Ed; [|by rewrite app_nil_r].
  destruct (Z.ltb_spec 0 calc).
  - cbn [mbind res_bind]. by rewrite Z.abs_eq by lia.
  - rewrite E. cbn [check mbind res_bind]. by rewrite Z.abs_neq by lia.
Qed.

(** ** Properties *)

(** A file with a line for each of the fifty fields, in order, is parsed to the values of
    the lines, whatever the numbers of blanks and the units, and whatever follows. *)
Theorem meminfo_parses_lines (vs : list Z) (t rest : list ascii) (m : Meminfo) :
  lines 0 vs t -> length vs = MEMINFO_TYPES ->
  meminfo_parse (Some (t ++ rest)) m = Ok (false, vs).
Proof. apply parse_all. Qed.

Definition sample_values : list Z := seqZ 1000 50.

Lemma meminfo_parses_lines_witness :
  exists t, meminfo_parse (Some (t ++ ["x"%char])) [] = Ok (false, sample_values).
Proof.
  eexists. apply (meminfo_parses_lines sample_values _ ["x"%char] []); [|vm_compute; reflexivity].
  change sample_values with (drop 0 sample_values). apply dump_lines; [by apply forallb_Forall | vm_compute; lia | lia].
Defined.

(** C29: parsing what dump writes gives the values back. *)
Theorem meminfo_roundtrip (m m' : Meminfo) :
  length m = MEMINFO_TYPES -> Forall (fun v => sfits 64 v = true) m ->
  exists text, dump m = Ok text /\ meminfo_parse (Some text) m' = Ok (false, m).
Proof.
  intros Hm Hf. eexists. split; [by apply dump_spec|]. rewrite <- (app_nil_r (concat _)).
  apply parse_all; [|done]. rewrite <- Hm, <- (Nat.sub_0_r (length m)). by apply (dump_lines m 0); [|lia|lia].
Qed.

Lemma meminfo_roundtrip_witness :
  exists text, dump sample_values = Ok text /\ meminfo_parse (Some text) [] = Ok (false, sample_values).
Proof. apply (meminfo_roundtrip sample_values []); [vm_compute; reflexivity | by apply forallb_Forall]. Defined.

(** When the line of the field [i] is not that of the field, the fields before it are set,
    the others are 0, and meminfo_parse reports the failure, except for the last field: its
    failure is reported as a success. *)
Theorem meminfo_wrong_line (vs : list Z) (t w rest name : list ascii) (m : Meminfo) :
  lines 0 vs t -> meminfo_names !! length vs = Some name -> other_line name w ->
  meminfo_parse (Some (t ++ w ++ rest)) m =
  Ok (negb (S (length vs) =? MEMINFO_TYPES)%nat, vs ++ replicate (MEMINFO_TYPES - length vs) 0).
Proof.
  intros Ht Hn Hw. pose proof (lookup_lt_Some _ _ _ Hn) as Hlt. fold MEMINFO_TYPES in Hlt.
  rewrite parse_nonempty by (intros E; apply app_eq_nil in E as [_ E]; apply app_eq_nil in E as [E _];
    by apply (other_line_nonempty _ _ Hw)).
  rewrite (parse_prefix vs t _ (w ++ rest) (S MEMINFO_TYPES - length vs)) by (done || lia).
  replace (S MEMINFO_TYPES - length vs)%nat with (S (MEMINFO_TYPES - length vs)) by lia.
  rewrite loop_S. unfold parse_body at 2. rewrite (proj2 (Nat.ltb_lt _ _)) by done.
  by rewrite (parse_other_line _ t w rest name) by done.
Qed.

(** The last line of a file of another machine: "Zswap: 5\n" instead of DirectMap1G. *)
Lemma meminfo_wrong_line_witness :
  exists t, meminfo_parse (Some (t ++ ["Z"; "s"; "w"; "a"; "p"; ":"; " "; "5"; "010"]%char ++ [])) [] =
    Ok (false, seqZ 1000 49 ++ [0]).
Proof.
  eexists. apply (meminfo_wrong_line (seqZ 1000 49) _ ["Z"; "s"; "w"; "a"; "p"; ":"; " "; "5"; "010"]%char []
    (name_at 49) []); [|reflexivity|split].
  - change (seqZ 1000 49) with (drop 0 (seqZ 1000 49)).
    apply dump_lines; [by apply forallb_Forall | vm_compute; lia | lia].
  - exists ["Z"; "s"; "w"; "a"; "p"]%char, [" "%char], "5"%char, ["010"%char]. split; [reflexivity|].
    split_and!; [by repeat constructor | by repeat constructor | done].
  - exists [], "D"%char, (list_ascii_of_string "irectMap1G"), "Z"%char. eexists.
    split_and!; [reflexivity | reflexivity | done].
Defined.
