(* ===== verification/ParallelSort.v ===== *)
(** * The bitonic sort without vectors

    src/Algorithm/parallel_sort.cpp, on [int]; the ranges are parts of one array, as in
    SimdStd. *)

From stdpp Require Import list_relations list sorting.
From S2P Require Import Prelude Bytes SimdView SimdStd SimdSortProofs.
#[local] Open Scope Z_scope.

Module ParSort.
Section sort.

(** The order in which two concurrent jobs of a size happen to run. *)
Context (schedule : Z -> bool).

Definition default_scale_hint : Z := 2 ^ 20.
Definition enable_parallel (hint : Z) : bool := default_scale_hint <=? hint.

Definition parallel (scale_hint : Z) (job1 job2 : list Z -> res (list Z)) (mem : list Z) : res (list Z) :=
  if negb (enable_parallel scale_hint) then mem ← job1 mem; job2 mem
  else if schedule scale_hint then mem ← job2 mem; job1 mem
  else mem ← job1 mem; job2 mem.

(** [enable_parallel_for] is false. *)
Definition parallel_for (view : list (Z * Z)) (func : list Z -> Z * Z -> res (list Z)) (mem : list Z) :
    res (list Z) := foldR func mem view.

Definition cut (range : Z * nat) : (Z * nat) * (Z * nat) :=
  let '(first, size) := range in
  let half := (size / 2)%nat in
  ((first, half), (first + Z.of_nat half, (size - half)%nat)).

(** [dir(lhs, rhs)] with [std::less] or [std::greater]. *)
Definition dir_holds (dir : directional) (lhs rhs : Z) : bool :=
  match dir with incr => lhs <? rhs | decr => rhs <? lhs end.

Definition perform (dir : directional) (mem : list Z) (bitonic_pair : Z * Z) : res (list Z) :=
  let '(lhs, rhs) := bitonic_pair in
  x ← mem.[lhs]; y ← mem.[rhs];
  if negb (dir_holds dir x y) then mem ← mem.[lhs <- y]; mem.[rhs <- x] else Ok mem.

Fixpoint merge (fuel : nat) (range : Z * nat) (dir : directional) (mem : list Z) : res (list Z) :=
  match fuel with
  | O => NoFuel
  | S fuel =>
      if (snd range <? 2)%nat then Ok mem else
      let '(lo, hi) := cut range in
      mem ← parallel_for (zip_view lo hi) (perform dir) mem;
      parallel (Z.of_nat (snd range)) (merge fuel lo dir) (merge fuel hi dir) mem
  end.

Fixpoint sort (fuel : nat) (range : Z * nat) (dir : directional) (mem : list Z) : res (list Z) :=
  match fuel with
  | O => NoFuel
  | S fuel =>
      if (snd range <? 2)%nat then Ok mem else
      let '(lo, hi) := cut range in
      mem ← parallel (Z.of_nat (snd range)) (sort fuel lo incr) (sort fuel hi decr) mem;
      merge (S fuel) range dir mem
  end.

Definition parallel_sort (range : list Z) : res (list Z) :=
  if (length range <? 2)%nat then Ok range else
  _ ← check (has_single_bit (Z.of_nat (length range))) AssertFailed;
  sort (length range) (0, length range) incr range.
End sort.
End ParSort.

(** ** It is the vector sort with vectors that are never full *)

(** Without a full vector all comparisons are done one by one. *)
Lemma no_full_vector step v func mem :
  (length v < step)%nat -> parallel_for_simd step v func mem = Ok (mem, 0%nat).
Proof.
  intros Hs. unfold parallel_for_simd, simdify_zip. by rewrite Nat.div_small, Nat.mul_0_r by done.
Qed.

Lemma length_zip_view lo hi : (length (zip_view lo hi) <= snd lo)%nat.
Proof. unfold zip_view. rewrite length_zip_with, length_seqZ. lia. Qed.

Lemma cut_lo_le range : (snd (cut range).1 <= snd range)%nat /\ (snd (cut range).2 <= snd range)%nat.
Proof.
  destruct range as [a n]. unfold cut. cbn [fst snd]. pose proof (Nat.Div0.div_le_upper_bound n 2 n). lia.
Qed.

Lemma merge_same step schedule fuel range dir mem :
  (snd range < step)%nat ->
  ParSort.merge schedule fuel range dir mem = merge step schedule fuel range dir mem.
Proof.
  revert range mem. induction fuel as [|fuel IH]; intros range mem Hr; [done|].
  cbn [ParSort.merge merge]. destruct (_ <? 2)%nat; [done|].
  pose proof (cut_lo_le range) as [Hlo Hhi]. change ParSort.cut with cut.
  destruct (cut range) as [lo hi]. cbn [fst snd] in *.
  rewrite no_full_vector by (pose proof (length_zip_view lo hi); lia). cbn [mbind res_bind drop].
  unfold ParSort.parallel_for.
  change (ParSort.perform dir) with (perform dir).
  apply bind_ext. intros m. unfold ParSort.parallel, parallel.
  change ParSort.enable_parallel with enable_parallel.
  destruct (negb _); [|destruct (schedule _)]; rewrite IH by lia; apply bind_ext; intros; apply IH; lia.
Qed.

Lemma sort_same step schedule fuel range dir mem :
  (snd range < step)%nat ->
  ParSort.sort schedule fuel range dir mem = sort step schedule fuel range dir mem.
Proof.
  revert range dir mem. induction fuel as [|fuel IH]; intros range dir mem Hr; [done|].
  cbn [ParSort.sort sort]. destruct (_ <? 2)%nat; [done|].
  pose proof (cut_lo_le range) as [Hlo Hhi]. change ParSort.cut with cut.
  destruct (cut range) as [lo hi]. cbn [fst snd] in *.
  assert (ParSort.parallel schedule (Z.of_nat (snd range)) (ParSort.sort schedule fuel lo incr)
      (ParSort.sort schedule fuel hi decr) mem =
    parallel schedule (Z.of_nat (snd range)) (sort step schedule fuel lo incr)
      (sort step schedule fuel hi decr) mem) as ->.
  { unfold ParSort.parallel, parallel. change ParSort.enable_parallel with enable_parallel.
    destruct (negb _); [|destruct (schedule _)]; rewrite IH by lia; apply bind_ext; intros; apply IH; lia. }
  apply bind_ext. intros m. by apply merge_same.
Qed.

Lemma parallel_sort_same schedule l :
  ParSort.parallel_sort schedule l = simd_sort (S (length l)) schedule l.
Proof.
  unfold ParSort.parallel_sort, simd_sort. destruct (_ <? 2)%nat; [done|].
  apply bind_ext. intros _. apply sort_same. cbn. lia.
Qed.

(** Whatever the order in which concurrent jobs run, parallel_sort returns a sorted
    permutation of an array whose size is a power of two, and fails its assertion on any other
    array of two or more elements. *)
Theorem parallel_sort_sorts (schedule : Z -> bool) (l : list Z) :
  if (length l <? 2)%nat || has_single_bit (Z.of_nat (length l)) then
    exists out, ParSort.parallel_sort schedule l = Ok out /\ StronglySorted Z.le out /\ out ≡ₚ l
  else ParSort.parallel_sort schedule l = Ub AssertFailed.
Proof. rewrite parallel_sort_same. apply simd_sort_cases. lia. Qed.
