(* ===== verification/Lisp.v ===== *)
(** * A Lisp interpreter

    src/Algorithm/lisp.cpp: the reader and evaluator in one pass over the text.  The text is
    the parameter of the section; the position and the stack of scopes are the state.  The
    object that [defer] makes runs its function when the scope is left, so that the pop of a
    closing parenthesis and of a scope come last.  The order of the two operands of an
    addition or a multiplication is unspecified in C++: the first that runs reads the first
    operand, and the operation is commutative, so that the model runs them in order.  The
    position, an [int], does not wrap: texts are shorter than 2^31.  A character above 127 is
    neither a digit nor a letter. *)

From Stdlib Require Import Ascii String.
From stdpp Require Import gmap strings.
From S2P Require Import Prelude JsonChar.
#[local] Open Scope Z_scope.

Definition isdigit (c : ascii) : bool := char_in "0" "9" c.
Definition isalpha (c : ascii) : bool := char_in "a" "z" c || char_in "A" "Z" c.

Record State : Type := mkState { pos : Z; symbols : list (gmap string Z) }.

Definition at_pos (p : Z) (st : State) : State := mkState p (symbols st).

(** [long long] arithmetic. *)
Definition fit (v : Z) : res Z := _ ← check (sfits 64 v) SignedOverflow; Ok v.

Section text.
Context (s : list ascii).

(** ** ctl *)

(** [s[pos]]: the character after the last one is the terminator. *)
Definition peek (st : State) : res ascii :=
  if pos st =? Z.of_nat (length s) then Ok "000"%char else s.[pos st].

Definition pop (st : State) : res (ascii * State) := c ← peek st; Ok (c, at_pos (pos st + 1) st).

Definition pop_step (step : Z) (st : State) : State := at_pos (pos st + step) st.

Definition eat (st : State) : res State :=
  loop (fun st => c ← peek st; if (c =? " ")%char then '(_, st) ← pop st; Ok (inl st) else Ok (inr st))
    (S (length s)) st.

(** [accept(all...)] with the conditions as one predicate. *)
Definition accept (p : ascii -> bool) (st : State) : res bool := c ← peek st; Ok (p c).

Definition first_accept (p : ascii -> bool) (st : State) : res (bool * State) :=
  st ← eat st; b ← accept p st; Ok (b, st).

(** ** Numbers and names *)

Definition number_body (x : Z * State) : res (Z * State + Z * State) :=
  let '(ans, st) := x in
  b ← accept isdigit st;
  if b : bool then
    ans ← fit (ans * 10);
    '(c, st) ← pop st;
    ans ← fit (ans + (uchar c - uchar "0"));
    Ok (inl (ans, st))
  else Ok (inr (ans, st)).

Definition number (st : State) : res (option Z * State) :=
  '(b, st) ← first_accept (fun c => isdigit c || (c =? "-")%char || (c =? "+")%char) st;
  if negb b then Ok (None, st) else
  b ← accept (fun c => (c =? "-")%char || (c =? "+")%char) st;
  '(negative, st) ← (if b : bool then '(c, st) ← pop st; Ok ((c =? "-")%char, st) else Ok (false, st));
  '(ans, st) ← loop number_body (S (length s)) (0, st);
  Ok (Some (if negative : bool then - ans else ans), st).

(** The first scope that has the name. *)
Fixpoint find_scope (name : string) (scopes : list (gmap string Z)) : Z :=
  match scopes with
  | [] => 0
  | scope :: scopes => match scope !! name with Some v => v | None => find_scope name scopes end
  end.

Definition variant_value (name : string) (st : State) : Z := find_scope name (symbols st).

Definition variant_name (st : State) : res (string * State) :=
  loop (fun '(name, st) =>
    b ← accept (fun c => isdigit c || isalpha c) st;
    if b : bool then '(c, st) ← pop st; Ok (inl (String.append name (String c EmptyString), st))
    else Ok (inr (name, st))) (S (length s)) (EmptyString, st).

Definition variant (st : State) : res (option Z * State) :=
  '(b, st) ← first_accept isalpha st;
  if negb b then Ok (None, st) else
  '(name, st) ← variant_name st;
  Ok (Some (variant_value name st), st).

(** ** Expressions *)

(** [local[name] = v], where [local] is the scope in front. *)
Definition assign (name : string) (v : Z) (st : State) : State :=
  match symbols st with
  | [] => st
  | local :: scopes => mkState (pos st) (<[name := v]> local :: scopes)
  end.

Definition emplace_front (st : State) : State := mkState (pos st) (∅ :: symbols st).
Definition pop_front (st : State) : State := mkState (pos st) (tail (symbols st)).

Definition let_body (expression : State -> res (Z * State)) (st : State) : res (State + Z * State) :=
  '(b, st) ← first_accept isalpha st;
  if b : bool then
    '(name, st) ← variant_name st;
    st ← eat st;
    c ← peek st;
    if (c =? ")")%char then Ok (inr (variant_value name st, st))
    else '(v, st) ← expression st; Ok (inl (assign name v st))
  else '(v, st) ← expression st; Ok (inr (v, st)).

Definition let_ (expression : State -> res (Z * State)) (st : State) : res (Z * State) :=
  '(v, st) ← loop (let_body expression) (S (length s)) (emplace_front st);
  Ok (v, pop_front st).

Fixpoint expression (fuel : nat) (st : State) : res (Z * State) :=
  match fuel with
  | O => NoFuel
  | S fuel =>
      '(num, st) ← number st;
      match num with Some v => Ok (v, st) | None =>
      '(var, st) ← variant st;
      match var with Some v => Ok (v, st) | None =>
      '(_, st) ← pop st;
      c ← peek st;
      '(v, st) ← (if (c =? "l")%char then let_ (expression fuel) (pop_step 3 st)
        else if (c =? "a")%char then
          '(a, st) ← expression fuel (pop_step 3 st);
          '(b, st) ← expression fuel st;
          v ← fit (a + b); Ok (v, st)
        else if (c =? "m")%char then
          '(a, st) ← expression fuel (pop_step 5 st);
          '(b, st) ← expression fuel st;
          v ← fit (a * b); Ok (v, st)
        else Ok (0, st));
      '(_, st) ← pop st;
      Ok (v, st)
      end end
  end.
End text.

(** Every level of nesting takes a character of the text.  The result is converted to [int]. *)
Definition evaluate (symbols : list (gmap string Z)) (e : list ascii) :
    res (Z * list (gmap string Z)) :=
  '(v, st) ← expression e (S (length e)) (mkState 0 symbols);
  Ok (s32 v, Lisp.symbols st).

(** * Reading Lisp expressions

    The values of expressions, the texts that denote them, and what the interpreter does on
    such a text. *)
#[local] Open Scope Z_scope.

(** ** Expressions and their values *)

Inductive expr : Type :=
  | Num (v : Z)
  | Var (x : string)
  | Let (b : binds)
  | Add (a b : expr)
  | Multi (a b : expr)
with binds : Type :=
  | In (e : expr)
  | Bind (x : string) (e : expr) (b : binds).

Definition exact (v : Z) : option Z := if sfits 64 v then Some v else None.

(** Lexical scoping; a name that is not bound is zero, and there is no value when an
    operation overflows. *)
Fixpoint eval (env : gmap string Z) (e : expr) : option Z :=
  match e with
  | Num v => if sfits 64 (Z.abs v) then Some v else None
  | Var x => Some (default 0 (env !! x))
  | Let b => evalb env b
  | Add a b => v ← eval env a; w ← eval env b; exact (v + w)
  | Multi a b => v ← eval env a; w ← eval env b; exact (v * w)
  end
with evalb (env : gmap string Z) (b : binds) : option Z :=
  match b with
  | In e => eval env e
  | Bind x e b => v ← eval env e; evalb (<[x := v]> env) b
  end.

(** ** Texts *)

Definition alnum (c : ascii) : bool := isdigit c || isalpha c.

Definition name_text (x : string) (w : list ascii) : Prop :=
  w = list_ascii_of_string x /\ exists c w', w = c :: w' /\ isalpha c = true /\ Forall (fun c => alnum c = true) w'.

Definition decimal (v : Z) (ds : list ascii) : Z :=
  foldl (fun v c => v * 10 + (uchar c - uchar "0")) v ds.

Inductive number_text : Z -> list ascii -> Prop :=
  | T_plain ds : ds <> [] -> Forall (fun c => isdigit c = true) ds -> number_text (decimal 0 ds) ds
  | T_plus ds : Forall (fun c => isdigit c = true) ds -> number_text (decimal 0 ds) ("+"%char :: ds)
  | T_minus ds : Forall (fun c => isdigit c = true) ds -> number_text (- decimal 0 ds) ("-"%char :: ds).

(** [text e w]: the expression is written [w], with any number of blanks before each part. *)
Inductive text : expr -> list ascii -> Prop :=
  | T_blank e w : text e w -> text e (" "%char :: w)
  | T_num v w : number_text v w -> text (Num v) w
  | T_var x w : name_text x w -> text (Var x) w
  | T_let b w : textb b w -> text (Let b) (list_ascii_of_string "(let" ++ w ++ [")"%char])
  | T_add a b v w : text a v -> text b w ->
      text (Add a b) (list_ascii_of_string "(add" ++ (" "%char :: v) ++ (" "%char :: w) ++ [")"%char])
  | T_multi a b v w : text a v -> text b w ->
      text (Multi a b) (list_ascii_of_string "(multi" ++ (" "%char :: v) ++ (" "%char :: w) ++ [")"%char])
with textb : binds -> list ascii -> Prop :=
  | T_in e w : text e w -> textb (In e) (" "%char :: w)
  | T_bind x e b k n v w : name_text x n -> text e v -> textb b w ->
      textb (Bind x e b) (" "%char :: replicate k " "%char ++ n ++ (" "%char :: v) ++ w).

Scheme text_mut := Induction for text Sort Prop
with textb_mut := Induction for textb Sort Prop.
Combined Scheme text_textb_ind from text_mut, textb_mut.

(** The character that the interpreter sees before [post]. *)
Definition next (post : list ascii) : ascii := match post with [] => "000"%char | c :: _ => c end.

(** A state whose position is after [pre]. *)
Definition after (pre : list ascii) (sym : list (gmap string Z)) : State :=
  mkState (Z.of_nat (length pre)) sym.

Lemma after_app pre w sym : mkState (Z.of_nat (length pre) + Z.of_nat (length w)) sym = after (pre ++ w) sym.
Proof. unfold after. by rewrite length_app, Nat2Z.inj_add. Qed.

(** ** Digits *)

Lemma digit_range c : isdigit c = true -> 0 <= uchar c - uchar "0" <= 9.
Proof.
  intros H. assert (implb (isdigit c) ((0 <=? uchar c - uchar "0") && (uchar c - uchar "0" <=? 9)) = true) as H'.
  { clear H. destruct c as [[] [] [] [] [] [] [] []]; vm_compute; reflexivity. }
  rewrite H in H'. cbn [implb] in H'. lia.
Qed.

Lemma decimal_le ds v : Forall (fun c => isdigit c = true) ds -> 0 <= v -> v <= decimal v ds.
Proof.
  intros Hd. revert v. induction Hd as [|c ds Hc _ IH]; intros v Hv; [done|].
  pose proof (digit_range c Hc). specialize (IH (v * 10 + (uchar c - uchar "0"))).
  change (decimal v (c :: ds)) with (decimal (v * 10 + (uchar c - uchar "0")) ds). lia.
Qed.

Lemma sfits_above v w : sfits 64 v = false -> 0 <= v <= w -> sfits 64 w = false.
Proof. unfold sfits. lia. Qed.

(** ** The first character *)

Lemma digit_start c :
  isdigit c = true -> c <> " "%char /\ Ascii.eqb c "-" = false /\ Ascii.eqb c "+" = false.
Proof. destruct c as [[] [] [] [] [] [] [] []]; vm_compute; intros; try discriminate; done. Qed.

Lemma alpha_start c :
  isalpha c = true -> c <> " "%char /\ isdigit c = false /\ c <> "-"%char /\ c <> "+"%char.
Proof. destruct c as [[] [] [] [] [] [] [] []]; vm_compute; intros; try discriminate; done. Qed.

Lemma name_start x w post :
  name_text x w ->
  isalpha (next (w ++ post)) = true /\ next (w ++ post) <> " "%char /\ isdigit (next (w ++ post)) = false /\
  next (w ++ post) <> "-"%char /\ next (w ++ post) <> "+"%char.
Proof. intros (_ & c & w' & -> & Hc & _). cbn [app next]. split; [done|by apply alpha_start]. Qed.

(** ** Scanning *)

Lemma foldl_string w acc :
  foldl (fun name c => String.append name (String c EmptyString)) acc w = String.append acc (string_of_list_ascii w).
Proof.
  revert acc. induction w as [|c w IH]; intros acc; cbn [foldl string_of_list_ascii].
  - induction acc as [|x acc IHa]; [done|].
    change (String x acc = String x (String.append acc EmptyString)). by f_equal.
  - rewrite IH. induction acc as [|x acc IHa]; [done|].
    change (String x (String.append (String.append acc (String c EmptyString)) (string_of_list_ascii w)) =
      String x (String.append acc (String c (string_of_list_ascii w)))). by f_equal.
Qed.

Section scanning.
Context (s : list ascii).
Implicit Types (pre post w : list ascii) (sym : list (gmap string Z)).

Lemma peek_after pre post sym : s = pre ++ post -> peek s (after pre sym) = Ok (next post).
Proof.
  intros E. unfold peek, after. cbn [pos]. destruct post as [|c post].
  - rewrite app_nil_r in E. by rewrite E, Z.eqb_refl.
  - rewrite E at 1. rewrite length_app. cbn [length]. rewrite (proj2 (Z.eqb_neq _ _)) by lia.
    apply at_index_lookup; [lia|]. by rewrite Nat2Z.id, E, list_lookup_middle.
Qed.

Lemma pop_after pre c post sym :
  s = pre ++ c :: post -> pop s (after pre sym) = Ok (c, after (pre ++ [c]) sym).
Proof.
  intros E. unfold pop. rewrite (peek_after pre (c :: post)) by done. cbn [mbind res_bind next].
  unfold at_pos. by rewrite <- (after_app pre [c]).
Qed.

(** A loop that takes the characters of [w] and stops at the next one. *)
Lemma scan_after {A R} (body : A * State -> res (A * State + R)) (f : A -> ascii -> A)
    (done : A * State -> R) w post sym :
  (forall a pre c post', s = pre ++ c :: post' -> c ∈ w ->
     body (a, after pre sym) = Ok (inl (f a c, after (pre ++ [c]) sym))) ->
  (forall a pre, s = pre ++ post -> body (a, after pre sym) = Ok (inr (done (a, after pre sym)))) ->
  forall n a pre, s = pre ++ w ++ post -> (length w < n)%nat ->
  loop body n (a, after pre sym) = Ok (done (foldl f a w, after (pre ++ w) sym)).
Proof.
  intros Hb Hd. induction w as [|c w IH]; intros n a pre E Hn;
    (destruct n as [|n]; [cbn in Hn; lia|]); rewrite loop_S.
  - rewrite Hd by done. cbn. by rewrite app_nil_r.
  - rewrite (Hb a pre c (w ++ post)) by (done || by left). cbn [mbind res_bind].
    rewrite IH; [by rewrite <- app_assoc| |by rewrite <- app_assoc|cbn in Hn; lia].
    intros. eapply Hb; [done|by right].
Qed.

Lemma eat_after k pre post sym :
  s = pre ++ replicate k " "%char ++ post -> next post <> " "%char ->
  eat s (after pre sym) = Ok (after (pre ++ replicate k " "%char) sym).
Proof.
  intros E Hp. unfold eat.
  assert (k < S (length s))%nat as Hn by (rewrite E, !length_app, length_replicate; lia).
  revert Hn pre E. generalize (S (length s)). induction k as [|k IH]; intros [|n] Hn pre E; try lia; rewrite loop_S.
  - rewrite (peek_after pre post) by done. cbn [mbind res_bind replicate].
    rewrite (proj2 (Ascii.eqb_neq _ _)) by done. by rewrite app_nil_r.
  - rewrite (peek_after pre (" "%char :: replicate k " "%char ++ post)) by done. cbn [mbind res_bind next].
    rewrite (pop_after pre " "%char (replicate k " "%char ++ post)) by done. cbn [mbind res_bind].
    change (Ascii.eqb " " " ") with true. cbn [mbind res_bind].
    rewrite IH; [by rewrite <- app_assoc|lia|by rewrite <- app_assoc].
Qed.

Lemma accept_after p pre post sym :
  s = pre ++ post -> accept s p (after pre sym) = Ok (p (next post)).
Proof. intros E. unfold accept. by rewrite (peek_after pre post). Qed.

Lemma first_accept_after p k pre post sym :
  s = pre ++ replicate k " "%char ++ post -> next post <> " "%char ->
  first_accept s p (after pre sym) = Ok (p (next post), after (pre ++ replicate k " "%char) sym).
Proof.
  intros E Hp. unfold first_accept. rewrite (eat_after k pre post) by done. cbn [mbind res_bind].
  rewrite (accept_after _ _ post) by (by rewrite <- app_assoc). done.
Qed.

Lemma variant_name_after w pre post sym :
  s = pre ++ w ++ post -> Forall (fun c => alnum c = true) w -> alnum (next post) = false ->
  variant_name s (after pre sym) = Ok (string_of_list_ascii w, after (pre ++ w) sym).
Proof.
  intros E Hw Hp. unfold variant_name.
  rewrite (scan_after _ (fun name c => String.append name (String c EmptyString)) id w post sym).
  - unfold id. f_equal. f_equal. by rewrite (foldl_string w EmptyString).
  - intros a pre' c post' E' Hc. rewrite (accept_after _ pre' (c :: post')) by done. cbn [mbind res_bind next].
    rewrite (pop_after pre' c post') by done.
    pose proof (proj1 (List.Forall_forall _ _) Hw c (proj1 (list_elem_of_In _ _) Hc)) as Hc'.
    cbn beta in Hc'. unfold alnum in Hc'. by rewrite Hc'.
  - intros a pre' E'. rewrite (accept_after _ pre' post) by done. cbn [mbind res_bind].
    unfold alnum in Hp. by rewrite Hp.
  - done.
  - rewrite E, !length_app. lia.
Qed.

Lemma number_body_end pre post sym v :
  s = pre ++ post -> isdigit (next post) = false ->
  number_body s (v, after pre sym) = Ok (inr (v, after pre sym)).
Proof. intros E Hp. unfold number_body. rewrite (accept_after _ pre post) by done. cbn. by rewrite Hp. Qed.

Lemma number_body_digit pre c post sym v :
  s = pre ++ c :: post -> isdigit c = true -> 0 <= v ->
  let v' := v * 10 + (uchar c - uchar "0") in
  number_body s (v, after pre sym) =
  if sfits 64 v' then Ok (inl (v', after (pre ++ [c]) sym)) else Ub SignedOverflow.
Proof.
  intros E Hc Hv v'. unfold number_body.
  rewrite (accept_after _ pre (c :: post)) by done. cbn [mbind res_bind next]. rewrite Hc.
  rewrite (pop_after pre c post) by done. pose proof (digit_range c Hc). unfold fit. subst v'.
  destruct (sfits 64 (v * 10)) eqn:E1; cbn [check mbind res_bind].
  - by destruct (sfits 64 (v * 10 + (uchar c - uchar "0"))).
  - by rewrite (sfits_above _ _ E1) by lia.
Qed.

Lemma number_loop_after ds pre post sym n v :
  s = pre ++ ds ++ post -> Forall (fun c => isdigit c = true) ds -> isdigit (next post) = false ->
  (length ds < n)%nat -> 0 <= v -> sfits 64 v = true ->
  loop (number_body s) n (v, after pre sym) =
  if sfits 64 (decimal v ds) then Ok (decimal v ds, after (pre ++ ds) sym) else Ub SignedOverflow.
Proof.
  intros E Hd Hp. revert n v pre E. induction Hd as [|c ds Hc Hd IH]; intros n v pre E Hn Hv Hf;
    (destruct n as [|n]; [cbn in Hn; lia|]); rewrite loop_S.
  - rewrite (number_body_end pre post) by done. cbn. by rewrite Hf, app_nil_r.
  - rewrite (number_body_digit pre c (ds ++ post)) by done.
    pose proof (digit_range c Hc).
    change (decimal v (c :: ds)) with (decimal (v * 10 + (uchar c - uchar "0")) ds).
    destruct (sfits 64 (v * 10 + (uchar c - uchar "0"))) eqn:E2; cbn [mbind res_bind].
    + rewrite IH; [by rewrite <- app_assoc|by rewrite <- app_assoc|cbn in Hn; lia|lia|done].
    + by rewrite (sfits_above _ _ E2) by (split; [lia|]; apply decimal_le; [done|lia]).
Qed.

Lemma number_none k pre post sym :
  s = pre ++ replicate k " "%char ++ post ->
  isdigit (next post) = false -> next post <> " "%char -> next post <> "-"%char -> next post <> "+"%char ->
  number s (after pre sym) = Ok (None, after (pre ++ replicate k " "%char) sym).
Proof.
  intros E Hd Hs Hm Hp. unfold number. rewrite (first_accept_after _ k pre post) by done.
  cbn [mbind res_bind]. rewrite Hd, (proj2 (Ascii.eqb_neq _ _) Hm), (proj2 (Ascii.eqb_neq _ _) Hp). done.
Qed.

Lemma lisp_number_spec v w k pre post sym :
  number_text v w -> s = pre ++ replicate k " "%char ++ w ++ post -> isdigit (next post) = false ->
  number s (after pre sym) =
  if sfits 64 (Z.abs v) then Ok (Some v, after (pre ++ replicate k " "%char ++ w) sym) else Ub SignedOverflow.
Proof.
  intros Hw E Hp. assert (length s >= length w)%nat as Hl by (rewrite E, !length_app; lia).
  unfold number. destruct Hw as [ds Hne Hd|ds Hd|ds Hd]; pose proof (decimal_le ds 0 Hd ltac:(lia)).
  - destruct ds as [|c ds]; [done|]. pose proof (Forall_inv Hd) as Hc. cbn beta in Hc.
    destruct (digit_start c Hc) as (Hs & Hm & Hq).
    rewrite (first_accept_after _ k pre ((c :: ds) ++ post)) by done. cbn [mbind res_bind next app negb].
    rewrite Hc. cbn [orb negb].
    rewrite (accept_after _ _ ((c :: ds) ++ post)) by (by rewrite <- app_assoc). cbn [mbind res_bind next app].
    rewrite Hm, Hq. cbn [orb mbind res_bind].
    rewrite (number_loop_after (c :: ds) _ post) by (done || lia || by rewrite <- app_assoc).
    rewrite Z.abs_eq, <- app_assoc by done. by destruct (sfits 64 _).
  - rewrite (first_accept_after _ k pre ("+"%char :: ds ++ post)) by done. cbn [mbind res_bind next app].
    rewrite orb_true_r. cbn [negb].
    rewrite (accept_after _ _ ("+"%char :: ds ++ post)) by (by rewrite <- app_assoc). cbn [mbind res_bind next].
    change (Ascii.eqb "+" "-" || Ascii.eqb "+" "+") with true. cbn iota.
    rewrite (pop_after _ "+" (ds ++ post)) by (by rewrite <- app_assoc). cbn [mbind res_bind].
    rewrite (number_loop_after ds _ post) by (done || (cbn in Hl; lia) || by rewrite <- !app_assoc).
    change (Ascii.eqb "+" "-") with false. cbn iota.
    rewrite Z.abs_eq, <- !app_assoc by done. by destruct (sfits 64 _).
  - rewrite (first_accept_after _ k pre ("-"%char :: ds ++ post)) by done. cbn [mbind res_bind next app].
    rewrite orb_true_r. cbn [orb negb].
    rewrite (accept_after _ _ ("-"%char :: ds ++ post)) by (by rewrite <- app_assoc). cbn [mbind res_bind next].
    change (Ascii.eqb "-" "-" || Ascii.eqb "-" "+") with true. cbn iota.
    rewrite (pop_after _ "-" (ds ++ post)) by (by rewrite <- app_assoc). cbn [mbind res_bind].
    rewrite (number_loop_after ds _ post) by (done || (cbn in Hl; lia) || by rewrite <- !app_assoc).
    change (Ascii.eqb "-" "-") with true. cbn iota.
    rewrite Z.abs_opp, Z.abs_eq, <- !app_assoc by done. by destruct (sfits 64 _).
Qed.

Lemma variant_none k pre post sym :
  s = pre ++ replicate k " "%char ++ post -> isalpha (next post) = false -> next post <> " "%char ->
  variant s (after pre sym) = Ok (None, after (pre ++ replicate k " "%char) sym).
Proof.
  intros E Hd Hs. unfold variant. rewrite (first_accept_after _ k pre post) by done.
  cbn [mbind res_bind]. by rewrite Hd.
Qed.

Lemma name_after x w pre post sym :
  name_text x w -> s = pre ++ w ++ post -> alnum (next post) = false ->
  variant_name s (after pre sym) = Ok (x, after (pre ++ w) sym).
Proof.
  intros (-> & c & w' & Ew & Hc & Hw) E Hp.
  rewrite (variant_name_after (list_ascii_of_string x) pre post), string_of_list_ascii_of_string; try done.
  rewrite Ew. constructor; [|done]. unfold alnum. by rewrite Hc, orb_true_r.
Qed.

Lemma variant_spec x w k pre post sym :
  name_text x w -> s = pre ++ replicate k " "%char ++ w ++ post -> alnum (next post) = false ->
  variant s (after pre sym) =
  Ok (Some (find_scope x sym), after (pre ++ replicate k " "%char ++ w) sym).
Proof.
  intros Hw E Hp. destruct (name_start x w post Hw) as (Ha & Hs & _).
  unfold variant. rewrite (first_accept_after _ k pre (w ++ post)) by done. cbn [mbind res_bind].
  rewrite Ha. cbn [negb]. rewrite (name_after x w _ post) by (done || by rewrite <- app_assoc).
  cbn [mbind res_bind]. by rewrite <- app_assoc.
Qed.

End scanning.

(** ** Scopes *)

Definition env_of (sym : list (gmap string Z)) : gmap string Z := foldr (∪) ∅ sym.

Lemma find_scope_env x sym : find_scope x sym = default 0 (env_of sym !! x).
Proof.
  induction sym as [|scope sym IH]; [done|]. cbn [find_scope env_of foldr]. fold (env_of sym).
  rewrite lookup_union, IH. destruct (scope !! x), (env_of sym !! x); done.
Qed.

(** ** The shape of a text *)

(** After the blanks there is a name, for a variable, or a character that starts no name. *)
Lemma text_start e w :
  text e w -> exists k w', w = replicate k " "%char ++ w' /\
  ((exists x, e = Var x /\ name_text x w') \/
   (forall post, isalpha (next (w' ++ post)) = false /\ next (w' ++ post) <> " "%char /\
      next (w' ++ post) <> ")"%char)).
Proof.
  induction 1 as [e w _ IH|v w Hw|x w Hw|b w _|a b v w _ _ _ _|a b v w _ _ _ _].
  - destruct IH as (k & w' & -> & H). by exists (S k), w'.
  - exists 0%nat, w. split; [done|]. right. intros post.
    destruct Hw as [ds Hne Hd|ds Hd|ds Hd]; [|done..].
    destruct ds as [|c ds]; [done|]. pose proof (Forall_inv Hd) as Hc. cbn [app next] in *.
    clear -Hc. destruct c as [[] [] [] [] [] [] [] []]; revert Hc; vm_compute; intros; done.
  - exists 0%nat, w. split; [done|]. left. by exists x.
  - by exists 0%nat, (list_ascii_of_string "(let" ++ w ++ [")"%char]); eauto.
  - by exists 0%nat, (list_ascii_of_string "(add" ++ (" "%char :: v) ++ (" "%char :: w) ++ [")"%char]); eauto.
  - by exists 0%nat, (list_ascii_of_string "(multi" ++ (" "%char :: v) ++ (" "%char :: w) ++ [")"%char]); eauto.
Qed.

(** ** Expressions *)

Ltac text_eq E := rewrite E; cbn; rewrite <- ?app_assoc; cbn; rewrite <- ?app_assoc; reflexivity.

Section expressions.
Context (s : list ascii).

Definition result (r : option Z) (pre : list ascii) (sym : list (gmap string Z)) : res (Z * State) :=
  match r with Some v => Ok (v, after pre sym) | None => Ub SignedOverflow end.

Definition reads (e : expr) (w : list ascii) : Prop :=
  forall k fuel pre post sym,
    s = pre ++ replicate k " "%char ++ w ++ post -> alnum (next post) = false -> (length w < fuel)%nat ->
    expression s fuel (after pre sym) = result (eval (env_of sym) e) (pre ++ replicate k " "%char ++ w) sym.

Definition readsb (b : binds) (w : list ascii) : Prop :=
  forall fuel n pre post scope sym,
    s = pre ++ w ++ ")"%char :: post -> (length w < fuel)%nat -> (length w < n)%nat ->
    exists scope', loop (let_body s (expression s fuel)) n (after pre (scope :: sym)) =
      result (evalb (env_of (scope :: sym)) b) (pre ++ w) (scope' :: sym).

Lemma expression_call fuel k pre op w post sym :
  s = pre ++ replicate k " "%char ++ "("%char :: op :: w ++ post ->
  expression s (S fuel) (after pre sym) =
  let st := after (pre ++ replicate k " "%char ++ ["("%char]) sym in
  '(v, st) ← (if (op =? "l")%char then let_ s (expression s fuel) (pop_step 3 st)
    else if (op =? "a")%char then
      '(a, st) ← expression s fuel (pop_step 3 st);
      '(b, st) ← expression s fuel st;
      v ← fit (a + b); Ok (v, st)
    else if (op =? "m")%char then
      '(a, st) ← expression s fuel (pop_step 5 st);
      '(b, st) ← expression s fuel st;
      v ← fit (a * b); Ok (v, st)
    else Ok (0, st));
  '(_, st) ← pop s st;
  Ok (v, st).
Proof.
  intros E. cbn [expression].
  rewrite (number_none s k pre ("("%char :: op :: w ++ post)) by done. cbn [mbind res_bind].
  rewrite (variant_none s 0 _ ("("%char :: op :: w ++ post)) by (done || by rewrite <- app_assoc).
  cbn [mbind res_bind replicate]. rewrite app_nil_r.
  rewrite (pop_after s _ "(" (op :: w ++ post)) by (by rewrite <- app_assoc). cbn [mbind res_bind].
  rewrite <- app_assoc.
  rewrite (peek_after s _ (op :: w ++ post)) by (by rewrite <- !app_assoc). done.
Qed.

Lemma pop_step_after pre w sym : pop_step (Z.of_nat (length w)) (after pre sym) = after (pre ++ w) sym.
Proof. apply after_app. Qed.

(** Two operands, the operation and the closing parenthesis. *)
Lemma operands_spec (f : Z -> Z -> Z) fuel a b v w pre post sym :
  reads a v -> reads b w ->
  s = pre ++ (" "%char :: v) ++ (" "%char :: w) ++ ")"%char :: post ->
  (length v < fuel)%nat -> (length w < fuel)%nat ->
  ('(v, st) ← ('(a, st) ← expression s fuel (after pre sym);
     '(b, st) ← expression s fuel st;
     v ← fit (f a b); Ok (v, st));
   '(_, st) ← pop s st; Ok (v, st)) =
  result (x ← eval (env_of sym) a; y ← eval (env_of sym) b; exact (f x y))
    (pre ++ (" "%char :: v) ++ (" "%char :: w) ++ [")"%char]) sym.
Proof.
  intros Ha Hb E Hv Hw.
  rewrite (Ha 1%nat fuel pre ((" "%char :: w) ++ ")"%char :: post)) by (done || by rewrite E).
  destruct (eval (env_of sym) a) as [x|]; [|done]. cbn [result mbind res_bind option_bind].
  rewrite (Hb 1%nat fuel _ (")"%char :: post)) by (done || by rewrite E, <- !app_assoc).
  destruct (eval (env_of sym) b) as [y|]; [|done]. cbn [result mbind res_bind option_bind].
  unfold fit, exact. destruct (sfits 64 (f x y)); [|done]. cbn [check result mbind res_bind].
  rewrite (pop_after s _ ")" post) by (by rewrite E, <- !app_assoc). cbn [mbind res_bind].
  by rewrite <- !app_assoc.
Qed.

Lemma reads_num v w : number_text v w -> reads (Num v) w.
Proof.
  intros Hw k [|fuel] pre post sym E Hp Hf; [lia|]. cbn [expression eval].
  apply orb_false_iff in Hp as [Hd _].
  rewrite (lisp_number_spec s v w k pre post) by done. by destruct (sfits 64 (Z.abs v)).
Qed.

Lemma reads_var x w : name_text x w -> reads (Var x) w.
Proof.
  intros Hw k [|fuel] pre post sym E Hp Hf; [lia|]. cbn [expression eval].
  destruct (name_start x w post Hw) as (Ha & Hs & Hd & Hm & Hq).
  rewrite (number_none s k pre (w ++ post)) by done. cbn [mbind res_bind].
  rewrite (variant_spec s x w 0 _ post) by (done || by rewrite E, <- !app_assoc). cbn [mbind res_bind result].
  by rewrite find_scope_env, <- !app_assoc.
Qed.

Lemma reads_let b w : readsb b w -> reads (Let b) (list_ascii_of_string "(let" ++ w ++ [")"%char]).
Proof.
  intros Hb k [|fuel] pre post sym E Hp Hf; [lia|]. rewrite !length_app in Hf. cbn [length] in Hf.
  rewrite (expression_call fuel k pre "l" (list_ascii_of_string "et" ++ w ++ [")"%char]) post) by done.
  cbn zeta. change (Ascii.eqb "l" "l") with true. cbn iota.
  rewrite (pop_step_after _ (list_ascii_of_string "let")). unfold let_.
  change (emplace_front (after ?p sym)) with (after p (∅ :: sym)).
  destruct (Hb fuel (S (length s)) ((pre ++ replicate k " "%char ++ ["("%char]) ++ list_ascii_of_string "let") post ∅ sym)
    as (scope & ->).
  { by rewrite E, <- !app_assoc. }
  { cbn in Hf. lia. }
  { rewrite E, !length_app. lia. }
  cbn [env_of foldr]. fold (env_of sym). rewrite map_empty_union. cbn [eval].
  destruct (evalb (env_of sym) b) as [v|]; [|done]. cbn [result mbind res_bind].
  change (pop_front (after ?p (scope :: sym))) with (after p sym).
  rewrite (pop_after s _ ")" post) by (by rewrite E, <- !app_assoc). cbn [mbind res_bind].
  by rewrite <- !app_assoc.
Qed.

Lemma reads_add a b v w :
  reads a v -> reads b w ->
  reads (Add a b) (list_ascii_of_string "(add" ++ (" "%char :: v) ++ (" "%char :: w) ++ [")"%char]).
Proof.
  intros Ha Hb k [|fuel] pre post sym E Hp Hf; [lia|]. rewrite !length_app in Hf. cbn in Hf.
  rewrite (expression_call fuel k pre "a" (list_ascii_of_string "dd" ++ (" "%char :: v) ++ (" "%char :: w) ++ [")"%char]) post) by done.
  cbn zeta. change (Ascii.eqb "a" "l") with false. change (Ascii.eqb "a" "a") with true. cbn iota.
  rewrite (pop_step_after _ (list_ascii_of_string "add")).
  rewrite (operands_spec Z.add fuel a b v w _ post) by (done || lia || by rewrite E, <- !app_assoc).
  by rewrite <- !app_assoc.
Qed.

Lemma reads_multi a b v w :
  reads a v -> reads b w ->
  reads (Multi a b) (list_ascii_of_string "(multi" ++ (" "%char :: v) ++ (" "%char :: w) ++ [")"%char]).
Proof.
  intros Ha Hb k [|fuel] pre post sym E Hp Hf; [lia|]. rewrite !length_app in Hf. cbn in Hf.
  rewrite (expression_call fuel k pre "m" (list_ascii_of_string "ulti" ++ (" "%char :: v) ++ (" "%char :: w) ++ [")"%char]) post) by done.
  cbn zeta. change (Ascii.eqb "m" "l") with false. change (Ascii.eqb "m" "a") with false.
  change (Ascii.eqb "m" "m") with true. cbn iota.
  rewrite (pop_step_after _ (list_ascii_of_string "multi")).
  rewrite (operands_spec Z.mul fuel a b v w _ post) by (done || lia || by rewrite E, <- !app_assoc).
  by rewrite <- !app_assoc.
Qed.

(** Blanks before an expression make no difference. *)
Lemma expression_blanks fuel k pre post sym :
  s = pre ++ replicate k " "%char ++ post -> next post <> " "%char ->
  expression s fuel (after (pre ++ replicate k " "%char) sym) = expression s fuel (after pre sym).
Proof.
  intros E Hp. destruct fuel as [|fuel]; [done|]. cbn [expression].
  assert (number s (after (pre ++ replicate k " "%char) sym) = number s (after pre sym)) as ->; [|done].
  unfold number. rewrite (first_accept_after s _ k pre post) by done.
  rewrite (first_accept_after s _ 0 _ post) by (done || by rewrite <- app_assoc).
  cbn [replicate]. by rewrite app_nil_r.
Qed.

(** The three forms of a turn of the loop of a let. *)
Lemma let_body_name ex x w k pre post sym :
  name_text x w -> s = pre ++ replicate k " "%char ++ w ++ ")"%char :: post ->
  let_body s ex (after pre sym) = Ok (inr (find_scope x sym, after (pre ++ replicate k " "%char ++ w) sym)).
Proof.
  intros Hx E. destruct (name_start x w (")"%char :: post) Hx) as (Ha & Hs & _). unfold let_body.
  rewrite (first_accept_after s _ k pre (w ++ ")"%char :: post)) by done. cbn [mbind res_bind]. rewrite Ha.
  rewrite (name_after s x w _ (")"%char :: post)) by (done || text_eq E). cbn [mbind res_bind].
  rewrite (eat_after s 0 _ (")"%char :: post)) by (done || text_eq E). cbn [mbind res_bind replicate].
  rewrite app_nil_r, (peek_after s _ (")"%char :: post)) by text_eq E. cbn. by rewrite <- app_assoc.
Qed.

Lemma let_body_other ex k pre post sym :
  s = pre ++ replicate k " "%char ++ post -> isalpha (next post) = false -> next post <> " "%char ->
  let_body s ex (after pre sym) =
  ('(v, st) ← ex (after (pre ++ replicate k " "%char) sym); Ok (inr (v, st))).
Proof.
  intros E Ha Hs. unfold let_body. rewrite (first_accept_after s _ k pre post) by done.
  cbn [mbind res_bind]. by rewrite Ha.
Qed.

Lemma let_body_bind ex x w k j pre post sym :
  name_text x w -> s = pre ++ replicate k " "%char ++ w ++ replicate (S j) " "%char ++ post ->
  next post <> " "%char -> next post <> ")"%char ->
  let_body s ex (after pre sym) =
  ('(v, st) ← ex (after ((pre ++ replicate k " "%char ++ w) ++ replicate (S j) " "%char) sym);
   Ok (inl (assign x v st))).
Proof.
  intros Hx E Hs Hp. destruct (name_start x w (replicate (S j) " "%char ++ post) Hx) as (Ha & Hb & _).
  unfold let_body.
  rewrite (first_accept_after s _ k pre (w ++ replicate (S j) " "%char ++ post)) by done.
  cbn [mbind res_bind]. rewrite Ha.
  rewrite (name_after s x w _ (replicate (S j) " "%char ++ post)) by (done || text_eq E). cbn [mbind res_bind].
  rewrite (eat_after s (S j) _ post) by (done || text_eq E). cbn [mbind res_bind].
  rewrite (peek_after s _ post) by text_eq E. cbn [mbind res_bind].
  rewrite (proj2 (Ascii.eqb_neq _ _) Hp). by rewrite <- !app_assoc.
Qed.

Lemma readsb_in e w : text e w -> reads e w -> readsb (In e) (" "%char :: w).
Proof.
  intros Ht He fuel [|n] pre post scope sym E Hf Hn; [lia|]. exists scope. rewrite loop_S.
  cbn [length] in Hf. cbn [evalb].
  destruct (text_start e w Ht) as (k & w' & -> & [(x & -> & Hx)|Hstart]).
  - rewrite (let_body_name _ x w' (S k) pre post) by (done || text_eq E).
    cbn [mbind res_bind eval result]. by rewrite <- find_scope_env.
  - destruct (Hstart (")"%char :: post)) as (Ha & Hs & _).
    rewrite (let_body_other _ (S k) pre (w' ++ ")"%char :: post)) by (done || text_eq E).
    rewrite (expression_blanks fuel (S k) pre (w' ++ ")"%char :: post)) by (done || text_eq E).
    rewrite (He 1%nat fuel pre (")"%char :: post)) by (done || lia).
    by destruct (eval (env_of (scope :: sym)) e).
Qed.

Lemma text_first e w post :
  text e w -> exists k post', w ++ post = replicate k " "%char ++ post' /\
  next post' <> " "%char /\ next post' <> ")"%char.
Proof.
  intros Ht. destruct (text_start e w Ht) as (k & w' & -> & H). exists k, (w' ++ post).
  split; [by rewrite app_assoc|]. destruct H as [(x & _ & Hx)|H]; [|by destruct (H post)].
  destruct (name_start x w' post Hx) as (Ha & Hs & _). split; [done|].
  intros E. by rewrite E in Ha.
Qed.

Lemma readsb_bind x e b k n v w :
  name_text x n -> text e v -> textb b w -> reads e v -> readsb b w ->
  readsb (Bind x e b) (" "%char :: replicate k " "%char ++ n ++ (" "%char :: v) ++ w).
Proof.
  intros Hx Ht Hw He Hb fuel [|m] pre post scope sym E Hf Hm; [lia|].
  cbn [length] in Hf, Hm. rewrite !length_app in Hf, Hm. cbn [length] in Hf, Hm. rewrite loop_S.
  destruct (text_first e v (w ++ ")"%char :: post) Ht) as (j & post' & Ej & Hs & Hp).
  assert (s = pre ++ replicate (S k) " "%char ++ n ++ replicate (S j) " "%char ++ post') as E'
    by (rewrite E; cbn; rewrite <- !app_assoc; cbn; by rewrite <- app_assoc, Ej).
  rewrite (let_body_bind _ x n (S k) j pre post') by done.
  rewrite (expression_blanks fuel (S j) _ post') by (done || text_eq E').
  rewrite (He 1%nat fuel _ (w ++ ")"%char :: post)) by (done || lia || text_eq E || by destruct Hw).
  cbn [evalb]. destruct (eval (env_of (scope :: sym)) e) as [y|]; [|by exists scope].
  cbn [result mbind res_bind option_bind]. change (assign x y (after ?p (scope :: sym))) with (after p (<[x := y]> scope :: sym)).
  cbn [env_of foldr]. fold (env_of sym). rewrite insert_union_l.
  destruct (Hb fuel m (((pre ++ replicate (S k) " "%char ++ n) ++ replicate 1 " "%char ++ v)) post (<[x := y]> scope) sym)
    as (scope' & ->); [text_eq E|lia|lia|].
  exists scope'. f_equal. cbn. rewrite <- !app_assoc. cbn. by rewrite <- app_assoc.
Qed.

Lemma text_reads : (forall e w, text e w -> reads e w) /\ (forall b w, textb b w -> readsb b w).
Proof.
  apply text_textb_ind; intros.
  - intros k fuel pre post sym E Hp Hf. cbn [length] in Hf.
    rewrite (H (S k) fuel pre post) by (done || lia || rewrite E, replicate_S_end, <- !app_assoc; done).
    by rewrite replicate_S_end, <- !app_assoc.
  - by apply reads_num.
  - by apply reads_var.
  - by apply reads_let.
  - by apply reads_add.
  - by apply reads_multi.
  - by apply readsb_in.
  - by apply readsb_bind.
Qed.

End expressions.
