(* ===== verification/LispProps.v ===== *)
(** * What the Lisp interpreter computes

    The interpreter computes the value of the expressions that its grammar describes, and stops
    on every text. *)

From Stdlib Require Import Ascii String.
From stdpp Require Import gmap strings.
From S2P Require Import Prelude JsonChar Lisp.
#[local] Open Scope Z_scope.

(** ** Progress *)

(** The computation stops and leaves a position that is not before [p]. *)
Definition adv {X} (p : Z) (m : res (X * State)) : Prop :=
  m <> NoFuel /\ okp (fun r => p <= pos r.2) m.

Lemma adv_bind {X Y} p q (m : res (X * State)) (f : X * State -> res (Y * State)) :
  adv p m -> (forall x st, p <= pos st -> adv q (f (x, st))) -> adv q (m ≫= f).
Proof. intros [Hn Ho] Hf. destruct m as [[x st]|u|]; [by apply Hf|done|done]. Qed.

Lemma adv_ok {X} p (x : X) st : p <= pos st -> adv p (Ok (x, st)).
Proof. done. Qed.

Lemma adv_fit {X} p v (f : Z -> res (X * State)) : (forall v, adv p (f v)) -> adv p (fit v ≫= f).
Proof. intros Hf. unfold fit. destruct (sfits 64 v); [apply Hf|done]. Qed.

Section progress.
Context (s : list ascii).
#[local] Abbreviation len := (Z.of_nat (length s)).

(** What a character that is read says of the position. *)
Lemma peek_cases st :
  match peek s st with
  | Ok c => pos st <= len /\ (c <> "000"%char -> pos st < len)
  | Ub _ => True
  | NoFuel => False
  end.
Proof.
  unfold peek, at_index. destruct (Z.eqb_spec (pos st) len) as [E|E]; [split; [lia|done]|].
  destruct (pos st <? 0) eqn:Hneg; [done|]. destruct (s !! Z.to_nat (pos st)) eqn:Hl; [|done].
  apply lookup_lt_Some in Hl. lia.
Qed.

Lemma pop_adv st : adv (pos st + 1) (pop s st).
Proof.
  unfold pop. pose proof (peek_cases st). destruct (peek s st); [|done|done].
  apply adv_ok. cbn. lia.
Qed.

(** A loop that either stops or moves on from a position in the text. *)
Lemma loop_adv {A R} (body : A -> res (A + R)) (ps : A -> Z) (pr : R -> Z) p :
  (forall a, p <= ps a -> body a <> NoFuel /\
     okp (fun r => match r with inl a' => ps a < ps a' /\ ps a < len | inr r => ps a <= pr r end) (body a)) ->
  0 <= p -> forall a, p <= ps a ->
  loop body (S (length s)) a <> NoFuel /\ okp (fun r => p <= pr r) (loop body (S (length s)) a).
Proof.
  intros Hb Hp a Ha. split.
  - apply (loop_measure body (fun x => p <= ps x) (fun x => Z.to_nat (len - ps x))); [|done|lia].
    intros a' Ha'. destruct (Hb a' Ha') as [Hn Ho]. split; [done|].
    eapply okp_mono; [|exact Ho]. intros [a''|r]; [|done]. lia.
  - apply (loop_inv body (fun x => p <= ps x)); [|done].
    intros a' Ha'. destruct (Hb a' Ha') as [_ Ho].
    eapply okp_mono; [|exact Ho]. intros [a''|r]; lia.
Qed.

(** A turn that reads a character and takes it when it satisfies [f]. *)
Lemma accept_cases f st :
  f "000"%char = false ->
  match accept s f st with
  | Ok b => pos st <= len /\ (b = true -> pos st < len)
  | Ub _ => True
  | NoFuel => False
  end.
Proof.
  intros Hf. unfold accept. pose proof (peek_cases st) as H. destruct (peek s st) as [c|u|]; [|done|done].
  destruct H as [H1 H2]. split; [done|]. intros Hc. apply H2. intros ->. cbn in Hc. congruence.
Qed.

Lemma eat_adv st : 0 <= pos st -> eat s st <> NoFuel /\ okp (fun st' => pos st <= pos st') (eat s st).
Proof.
  intros Hst. apply (loop_adv _ pos pos (pos st)); [|done|lia]. intros st' _.
  pose proof (peek_cases st') as H. destruct (peek s st') as [c|u|] eqn:Ec; [|done|done]. cbn [mbind res_bind].
  destruct (Ascii.eqb_spec c " ") as [->|_]; [|split; [done|cbn; lia]].
  unfold pop. rewrite Ec. cbn. split; [done|]. split; [lia|]. by apply H.
Qed.

Lemma first_accept_cases f st :
  0 <= pos st -> f "000"%char = false ->
  match first_accept s f st with
  | Ok (b, st') => pos st <= pos st' /\ pos st' <= len /\ (b = true -> pos st' < len)
  | Ub _ => True
  | NoFuel => False
  end.
Proof.
  intros Hst Hf. unfold first_accept. destruct (eat_adv st Hst) as [Hn Ho].
  destruct (eat s st) as [st'|u|]; [|done|done]. cbn [okp mbind res_bind] in *.
  pose proof (accept_cases f st' Hf). destruct (accept s f st'); [cbn; tauto|done|done].
Qed.

Lemma number_adv st : 0 <= pos st -> adv (pos st) (number s st).
Proof.
  intros Hst. unfold number.
  pose proof (first_accept_cases (fun c => isdigit c || (c =? "-")%char || (c =? "+")%char) st Hst eq_refl) as H.
  destruct (first_accept s _ st) as [[b st1]|u|]; [|done|done]. cbn [mbind res_bind].
  destruct H as (H1 & _ & _). destruct b; [|by apply adv_ok]. cbn [negb].
  pose proof (accept_cases (fun c => (c =? "-")%char || (c =? "+")%char) st1 eq_refl) as H.
  destruct (accept s _ st1) as [b|u|]; [|done|done]. cbn [mbind res_bind].
  apply (adv_bind (pos st1)).
  { destruct b; [|apply adv_ok; lia]. apply (adv_bind (pos st1 + 1)); [apply pop_adv|].
    intros c st2 H2. apply adv_ok. lia. }
  intros negative st2 H2. apply (adv_bind (pos st2)).
  - apply (loop_adv _ (fun x => pos x.2) (fun x => pos x.2) (pos st2)); [|lia|cbn; lia].
    intros [ans st3] _. cbn [snd]. unfold number_body.
    pose proof (accept_cases isdigit st3 eq_refl) as H3.
    destruct (accept s _ st3) as [b'|u|]; [|done|done]. cbn [mbind res_bind].
    destruct b'; [|split; [done|cbn; lia]]. unfold fit, pop.
    destruct (sfits 64 (ans * 10)); [|done]. cbn [check mbind res_bind].
    pose proof (peek_cases st3) as H4. destruct (peek s st3) as [c|u|]; [|done|done]. cbn [mbind res_bind].
    destruct (sfits 64 (ans * 10 + (uchar c - uchar "0"))); [|done]. cbn. split; [done|]. split; [lia|tauto].
  - intros ans st3 H3. apply adv_ok. lia.
Qed.

Lemma variant_name_adv st : 0 <= pos st -> adv (pos st) (variant_name s st).
Proof.
  intros Hst. apply (loop_adv _ (fun x => pos x.2) (fun x => pos x.2) (pos st)); [|done|cbn; lia].
  intros [name st1] _. cbn [snd].
  pose proof (accept_cases (fun c => isdigit c || isalpha c) st1 eq_refl) as H1.
  destruct (accept s _ st1) as [b|u|]; [|done|done]. cbn [mbind res_bind].
  destruct b; [|split; [done|cbn; lia]]. unfold pop.
  pose proof (peek_cases st1) as H2. destruct (peek s st1) as [c|u|]; [|done|done]. cbn.
  split; [done|]. split; [lia|tauto].
Qed.

Lemma variant_adv st : 0 <= pos st -> adv (pos st) (variant s st).
Proof.
  intros Hst. unfold variant. pose proof (first_accept_cases isalpha st Hst eq_refl) as H.
  destruct (first_accept s _ st) as [[b st1]|u|]; [|done|done]. cbn [mbind res_bind].
  destruct H as (H1 & _ & _). destruct b; [|by apply adv_ok]. cbn [negb].
  apply (adv_bind (pos st1)); [apply variant_name_adv; lia|]. intros name st2 H2. apply adv_ok. lia.
Qed.

Lemma assign_pos x v st : pos (assign x v st) = pos st.
Proof. unfold assign. by destruct (symbols st). Qed.

(** A name takes at least its first letter. *)
Lemma variant_name_alpha st st' :
  0 <= pos st -> first_accept s isalpha st = Ok (true, st') ->
  variant_name s st' <> NoFuel /\ okp (fun r => pos st' < pos r.2) (variant_name s st').
Proof.
  intros Hst H. pose proof (first_accept_cases isalpha st Hst eq_refl) as Hc. rewrite H in Hc.
  destruct Hc as (H1 & H2 & H3). destruct (variant_name_adv st' ltac:(lia)) as [Hn _]. split; [done|].
  unfold first_accept in H. apply bind_ok_inv in H as (st1 & _ & H). apply bind_ok_inv in H as (b & Hb & [= -> ->]).
  unfold accept in Hb. apply bind_ok_inv in Hb as (c & Hc & [= Ha]).
  assert (accept s (fun c => isdigit c || isalpha c) st' = Ok true) as Hacc
    by (unfold accept; rewrite Hc; cbn; by rewrite Ha, orb_true_r).
  assert (pop s st' = Ok (c, at_pos (pos st' + 1) st')) as Hpop by (unfold pop; by rewrite Hc).
  unfold variant_name. rewrite loop_S, Hacc. cbn [mbind res_bind]. rewrite Hpop. cbn [mbind res_bind].
  apply (loop_inv _ (fun x => pos st' < pos x.2)); [|cbn; lia].
  intros [name st2] Hlt. cbn in Hlt. unfold accept, pop. destruct (peek s st2) as [c2|u|]; [|done|done]. cbn.
  destruct (isdigit c2 || isalpha c2); cbn; lia.
Qed.

(** The loop of a let, when the expressions it reads stop. *)
Lemma let_adv ex st :
  0 <= pos st -> (forall st', pos st <= pos st' -> adv (pos st') (ex st')) -> adv (pos st) (let_ s ex st).
Proof.
  intros Hst Hex. unfold let_. apply (adv_bind (pos st)); [|by intros; apply adv_ok].
  apply (loop_adv _ pos (fun x => pos x.2) (pos st)); [|done|cbn; lia].
  intros st1 H1. unfold let_body. pose proof (first_accept_cases isalpha st1 ltac:(lia) eq_refl) as H.
  destruct (first_accept s _ st1) as [[b st2]|u|] eqn:Eb; [|done|done]. cbn [mbind res_bind].
  destruct H as (H2 & _ & Hb). destruct b.
  - destruct (variant_name_alpha st1 st2 ltac:(lia) Eb) as [Hn Ho].
    destruct (variant_name s st2) as [[name st3]|u|]; [|done|done]. cbn [mbind res_bind okp snd] in *.
    destruct (eat_adv st3 ltac:(lia)) as [Hn4 Ho4].
    destruct (eat s st3) as [st4|u|]; [|done|done]. cbn [mbind res_bind okp] in *.
    pose proof (peek_cases st4). destruct (peek s st4) as [c|u|]; [|done|done]. cbn [mbind res_bind].
    destruct (Ascii.eqb c ")"); [split; [done|cbn; lia]|].
    destruct (Hex st4 ltac:(lia)) as [Hn5 Ho5]. destruct (ex st4) as [[v st5]|u|]; [|done|done]. cbn in *.
    split; [done|]. rewrite assign_pos. specialize (Hb eq_refl). lia.
  - destruct (Hex st2 ltac:(lia)) as [Hn3 Ho3]. destruct (ex st2) as [[v st3]|u|]; [|done|done]. cbn in *.
    split; [done|lia].
Qed.

Lemma expression_adv fuel st :
  0 <= pos st -> (0 < fuel)%nat -> len - pos st < Z.of_nat fuel -> adv (pos st) (expression s fuel st).
Proof.
  revert st. induction fuel as [|fuel IH]; intros st Hst Hf Hl; [lia|]. cbn [expression].
  apply (adv_bind (pos st)); [by apply number_adv|]. intros [v|] st1 H1; [by apply adv_ok|].
  apply (adv_bind (pos st1)); [apply variant_adv; lia|]. intros [v|] st2 H2; [apply adv_ok; lia|].
  apply (adv_bind (pos st2 + 1)); [apply pop_adv|]. intros _ st3 H3.
  pose proof (peek_cases st3) as Hc. destruct (peek s st3) as [c|u|]; [|done|done]. cbn [mbind res_bind].
  assert (forall st', pos st3 <= pos st' -> adv (pos st') (expression s fuel st')) as Hex
    by (intros; apply IH; lia).
  assert (forall k (f : Z -> Z -> Z), 0 <= k -> adv (pos st3) (
    '(a, st) ← expression s fuel (pop_step k st3);
    '(b, st) ← expression s fuel st;
    v ← fit (f a b); Ok (v, st))) as Hop.
  { intros k f Hk. apply (adv_bind (pos (pop_step k st3))); [apply Hex; cbn; lia|]. cbn. intros a st4 H4.
    apply (adv_bind (pos st4)); [apply Hex; lia|]. intros b st5 H5. apply adv_fit. intros v. apply adv_ok. lia. }
  apply (adv_bind (pos st3)).
  - destruct (Ascii.eqb c "l").
    { destruct (let_adv (expression s fuel) (pop_step 3 st3)) as [Hn Ho]; [cbn; lia|intros; apply Hex; cbn in *; lia|].
      split; [done|]. eapply okp_mono; [|exact Ho]. cbn. lia. }
    destruct (Ascii.eqb c "a"); [by apply (Hop 3 Z.add)|].
    destruct (Ascii.eqb c "m"); [by apply (Hop 5 Z.mul)|]. by apply adv_ok.
  - intros v st4 H4. apply (adv_bind (pos st4 + 1)); [apply pop_adv|]. intros c' st5 H5. apply adv_ok. lia.
Qed.
End progress.

(** ** Claims *)

#[local] Abbreviation chars := list_ascii_of_string.



(** The text of main. *)
Example lisp_main :
  evaluate [] (chars "(let y 2 x (let q 2 z y 200) (add x (multi x y)))") = Ok (600, []).
Proof. vm_compute. reflexivity. Qed.

(** C24: evaluate stops on every text, of the grammar or not: with a value or with an
    undefined behaviour (the text ends too early, or an overflow). *)
Theorem lisp_terminates sym w : evaluate sym w <> NoFuel.
Proof.
  unfold evaluate. destruct (expression_adv w (S (length w)) (mkState 0 sym)) as [Hn _]; [cbn; lia..|].
  by destruct (expression w (S (length w)) (mkState 0 sym)) as [[v st]|u|].
Qed.
