(* ===== verification/TaggedPtr.v ===== *)
(** * Pointers with a tag

    The class template Tagged_ptr of src/Concurrency/Tagged_ptr.hpp: a word with a pointer in
    its low 48 bits and a tag in its high 16 bits. *)

From S2P Require Import Prelude.
#[local] Open Scope Z_scope.

Definition PTR_MASK : Z := Z.shiftl 1 48 - 1.
Definition TAG_MASK : Z := Z.shiftl 1 16 - 1.

(** The union: the fourth 16-bit part of the word, which is little-endian, is replaced. *)
Definition make (p t : Z) : Z := Z.lor (Z.land p (2 ^ 48 - 1)) (Z.shiftl t 48).

Definition get_tag (w : Z) : Z := Z.land (Z.shiftr w 48) (2 ^ 16 - 1).
Definition next_tag (w : Z) : Z := Z.land (get_tag w + 1) TAG_MASK.
Definition get_ptr (w : Z) : Z := Z.land w PTR_MASK.
Definition set_ptr (p w : Z) : Z := make p (get_tag w).
Definition set_tag (t w : Z) : Z := make (get_ptr w) t.
Definition to_bool (w : Z) : bool := negb (get_ptr w =? 0).
Definition eq_ptr (w p : Z) : bool := make (get_ptr w) 0 =? make p 0.

(** ** Arithmetic *)

Lemma get_ptr_mod w : get_ptr w = w mod 2 ^ 48.
Proof. apply (Z.land_ones w 48). lia. Qed.

Lemma get_tag_mod w : get_tag w = (w / 2 ^ 48) mod 2 ^ 16.
Proof. unfold get_tag. rewrite Z.shiftr_div_pow2 by lia. apply (Z.land_ones _ 16). lia. Qed.

Lemma next_tag_mod w : next_tag w = (get_tag w + 1) mod 2 ^ 16.
Proof. apply (Z.land_ones _ 16). lia. Qed.

Lemma make_sum p t : make p t = p mod 2 ^ 48 + t * 2 ^ 48.
Proof.
  unfold make. change (2 ^ 48 - 1) with (Z.ones 48). rewrite Z.land_ones, Z.shiftl_mul_pow2 by lia.
  assert (Z.land (p mod 2 ^ 48) (t * 2 ^ 48) = 0) as H.
  { apply Z.bits_inj'. intros n Hn. rewrite Z.land_spec, Z.bits_0.
    destruct (Z.lt_ge_cases n 48) as [Hl|Hl].
    - by rewrite Z.mul_pow2_bits_low, andb_false_r.
    - by rewrite Z.mod_pow2_bits_high by lia. }
  rewrite <- Z.lxor_lor by done. symmetry. by apply Z.add_nocarry_lxor.
Qed.

Lemma get_ptr_range w : 0 <= get_ptr w < 2 ^ 48.
Proof. rewrite get_ptr_mod. apply Z.mod_pos_bound. lia. Qed.

Lemma get_tag_range w : 0 <= get_tag w < 2 ^ 16.
Proof. rewrite get_tag_mod. apply Z.mod_pos_bound. lia. Qed.

(** ** Reading what was written *)

Lemma get_ptr_make p t : 0 <= p < 2 ^ 48 -> get_ptr (make p t) = p.
Proof. intros Hp. rewrite get_ptr_mod, make_sum, Z.mod_add, Z.mod_mod by lia. by apply Z.mod_small. Qed.

Lemma get_tag_make p t : 0 <= t < 2 ^ 16 -> get_tag (make p t) = t.
Proof.
  intros Ht. rewrite get_tag_mod, make_sum, Z.div_add by lia.
  rewrite Z.div_small by (apply Z.mod_pos_bound; lia). by apply Z.mod_small.
Qed.

Lemma make_range p t : 0 <= t < 2 ^ 16 -> 0 <= make p t < 2 ^ 64.
Proof. intros Ht. rewrite make_sum. pose proof (Z.mod_pos_bound p (2 ^ 48)). lia. Qed.

(** A word is its pointer and its tag. *)
Lemma make_get w : 0 <= w < 2 ^ 64 -> make (get_ptr w) (get_tag w) = w.
Proof.
  intros Hw. rewrite make_sum, get_ptr_mod, get_tag_mod, Z.mod_mod by lia.
  rewrite (Z.mod_small (w / 2 ^ 48)) by (split; [apply Z.div_pos; lia|apply Z.div_lt_upper_bound; lia]).
  pose proof (Z.div_mod w (2 ^ 48)). lia.
Qed.

Lemma get_ptr_set_tag t w : get_ptr (set_tag t w) = get_ptr w.
Proof. apply get_ptr_make, get_ptr_range. Qed.

Lemma get_tag_set_tag t w : 0 <= t < 2 ^ 16 -> get_tag (set_tag t w) = t.
Proof. apply get_tag_make. Qed.

Lemma next_tag_range w : 0 <= next_tag w < 2 ^ 16.
Proof. rewrite next_tag_mod. apply Z.mod_pos_bound. lia. Qed.

(** The comparison with a pointer ignores the tag. *)
Lemma eq_ptr_spec w p : 0 <= p < 2 ^ 48 -> eq_ptr w p = (get_ptr w =? p).
Proof.
  intros Hp. unfold eq_ptr. rewrite !make_sum. pose proof (get_ptr_range w).
  rewrite !Z.mod_small by done. by rewrite !Z.add_0_r.
Qed.

(** A pointer of 48 bits and a tag of 16 are read back from the word that is made of them,
    the word has 64 bits, and setting either of the two keeps the other. *)
Theorem tagged_ptr_roundtrip p t q u :
  0 <= p < 2 ^ 48 -> 0 <= t < 2 ^ 16 -> 0 <= q < 2 ^ 48 -> 0 <= u < 2 ^ 16 ->
  let w := make p t in
  0 <= w < 2 ^ 64 /\ get_ptr w = p /\ get_tag w = t /\
  set_ptr q w = make q t /\ set_tag u w = make p u /\
  make (get_ptr w) (get_tag w) = w /\ eq_ptr w q = (p =? q).
Proof.
  intros Hp Ht Hq Hu w. subst w. unfold set_ptr, set_tag.
  rewrite get_ptr_make, get_tag_make, eq_ptr_spec, get_ptr_make by done. pose proof (make_range p t Ht). done.
Qed.

Lemma tagged_ptr_roundtrip_witness :
  get_ptr (make 140737488355327 65535) = 140737488355327 /\ get_tag (make 140737488355327 65535) = 65535.
Proof.
  destruct (tagged_ptr_roundtrip 140737488355327 65535 0 0) as (_ & H1 & H2 & _); [lia..|].
  split; [exact H1|exact H2].
Defined.
