(* ===== verification/LockfreeStack.v ===== *)
(** * The lock-free stack

    The class templates Freelist of src/Concurrency/Freelist.hpp and Stack of
    src/Concurrency/Stack_lockfree.cpp as a step relation: a step is one access of one thread
    to the shared memory, under sequential consistency, and carries the call or the return it
    makes.  A node that is taken from the allocator goes back to it only in the destructor of
    the freelist.  The next pointer of a node in the freelist is at offset 0, where the object
    of the stack has its data: a write to the one leaves an unspecified value in the other.
    The allocator can return any unused address below 2^48, or null. *)

From S2P Require Import Prelude TaggedPtr.
From stdpp Require Import gmap functions.
#[local] Open Scope Z_scope.

Section stack.
Context {T : Type}.

(** A node: the object, when it is alive, and the two next pointers. *)
Record Cell : Type := mkCell { c_data : option T; c_next : Z; c_free : Z }.

(** Where a thread is: before the next access, with the local variables used after it.  The
    last number of a thread that has read a head is the number of nodes that had been taken
    from the list. *)
Inductive Thread : Type :=
  | Idle
  | AllocLoad (v : T)                        (** [_pool.load()] in allocate *)
  | AllocRead (v : T) (old c : Z)            (** [old_head->next] *)
  | AllocCas (v : T) (old next c : Z)        (** [_pool.compare_exchange_weak] *)
  | AllocNew (v : T)                         (** [Custom_alloc::allocate(1)] *)
  | Construct (v : T) (p : Z)                (** [_pool.construct(ptr, args...)] *)
  | PushLoad (v : T) (p : Z)                 (** [_head.load()] in push *)
  | PushWrite (v : T) (p old : Z)            (** [new_head->next = old_head] *)
  | PushCas (v : T) (p old : Z)              (** [_head.compare_exchange_weak] *)
  | PushDone (b : bool)
  | PopLoad                                  (** [_head.load()] in pop *)
  | PopRead (old c : Z)                      (** [old_head->next] *)
  | PopCas (old next c : Z)                  (** [_head.compare_exchange_weak] *)
  | PopData (p : Z)                          (** [std::make_optional<T>(old_head->data)] *)
  | Destroy (v : T) (p : Z)                  (** [_pool.destroy(ptr)] *)
  | FreeLoad (v : T) (p : Z)                 (** [_pool.load()] in deallocate *)
  | FreeWrite (v : T) (p old : Z)            (** [new_head->next = old_head] *)
  | FreeCas (v : T) (p old : Z)              (** [_pool.compare_exchange_weak] *)
  | PopDone (r : option T)
  | EmptyLoad                                (** [_head.load()] in empty *)
  | EmptyDone (b : bool).

Inductive event : Type :=
  | CallPush (i : nat) (v : T) | RetPush (i : nat) (b : bool)
  | CallPop (i : nat) | RetPop (i : nat) (r : option T)
  | CallEmpty (i : nat) | RetEmpty (i : nat) (b : bool).

(** The memory, the two heads, and how many nodes were taken from each list. *)
Record State : Type := mkState {
  cells : gmap Z Cell; head : Z; pool : Z; pops : Z; allocs : Z; threads : nat -> Thread
}.

Definition init : State := mkState ∅ (make 0 0) (make 0 0) 0 0 (fun _ => Idle).

Definition at_ (i : nat) (th : Thread) (s : State) : State :=
  mkState (cells s) (head s) (pool s) (pops s) (allocs s) (<[i := th]> (threads s)).

Definition set_cell (p : Z) (c : Cell) (s : State) : State :=
  mkState (<[p := c]> (cells s)) (head s) (pool s) (pops s) (allocs s) (threads s).

Definition set_head (w pops : Z) (s : State) : State :=
  mkState (cells s) w (pool s) pops (allocs s) (threads s).

Definition set_pool (w allocs : Z) (s : State) : State :=
  mkState (cells s) (head s) w (pops s) allocs (threads s).

(** What allocate and pop do with a head they have read. *)
Definition alloc_seen (v : T) (s : State) : Thread :=
  if to_bool (pool s) then AllocRead v (pool s) (allocs s) else AllocNew v.

Definition pop_seen (s : State) : Thread :=
  if to_bool (head s) then PopRead (head s) (pops s) else PopDone None.

(** The accesses of [Freelist::allocate] and [Freelist::deallocate]. *)
Inductive pool_step (i : nat) (s : State) : State -> Prop :=
  (* allocate *)
  | alloc_load v :
      threads s i = AllocLoad v -> pool_step i s (at_ i (alloc_seen v s) s)
  | alloc_new v p junk :
      threads s i = AllocNew v -> cells s !! p = None -> 0 < p < 2 ^ 48 -> c_data junk = None ->
      pool_step i s (at_ i (Construct v p) (set_cell p junk s))
  | alloc_null v :
      threads s i = AllocNew v -> pool_step i s (at_ i (PushDone false) s)
  | alloc_read v old c x :
      threads s i = AllocRead v old c -> cells s !! get_ptr old = Some x ->
      pool_step i s (at_ i (AllocCas v old (c_free x) c) s)
  | alloc_cas v old next c :
      threads s i = AllocCas v old next c -> pool s = old ->
      pool_step i s
        (at_ i (Construct v (get_ptr old)) (set_pool (set_tag (next_tag old) next) (allocs s + 1) s))
  | alloc_cas_fail v old next c :
      threads s i = AllocCas v old next c -> pool_step i s (at_ i (alloc_seen v s) s)
  (* deallocate *)
  | free_load v p :
      threads s i = FreeLoad v p -> pool_step i s (at_ i (FreeWrite v p (pool s)) s)
  | free_write v p old x :
      threads s i = FreeWrite v p old -> cells s !! p = Some x ->
      pool_step i s (at_ i (FreeCas v p old) (set_cell p (mkCell (c_data x) (c_next x) old) s))
  | free_cas v p old :
      threads s i = FreeCas v p old -> pool s = old ->
      pool_step i s (at_ i (PopDone (Some v)) (set_pool (make p (get_tag old)) (allocs s) s))
  | free_cas_fail v p old :
      threads s i = FreeCas v p old -> pool_step i s (at_ i (FreeWrite v p (pool s)) s).

Inductive step (i : nat) (s : State) : option event -> State -> Prop :=
  (* push *)
  | push_call v :
      threads s i = Idle -> step i s (Some (CallPush i v)) (at_ i (AllocLoad v) s)
  | freelist s' : pool_step i s s' -> step i s None s'
  | construct v p x junk :
      threads s i = Construct v p -> cells s !! p = Some x ->
      step i s None (at_ i (PushLoad v p) (set_cell p (mkCell (Some v) (make 0 0) junk) s))
  | push_load v p :
      threads s i = PushLoad v p -> step i s None (at_ i (PushWrite v p (head s)) s)
  | push_write v p old x :
      threads s i = PushWrite v p old -> cells s !! p = Some x ->
      step i s None (at_ i (PushCas v p old) (set_cell p (mkCell (c_data x) old (c_free x)) s))
  | push_cas v p old :
      threads s i = PushCas v p old -> head s = old ->
      step i s None (at_ i (PushDone true) (set_head (make p (get_tag old)) (pops s) s))
  | push_cas_fail v p old :
      threads s i = PushCas v p old -> step i s None (at_ i (PushWrite v p (head s)) s)
  | push_ret b :
      threads s i = PushDone b -> step i s (Some (RetPush i b)) (at_ i Idle s)
  (* pop *)
  | pop_call :
      threads s i = Idle -> step i s (Some (CallPop i)) (at_ i PopLoad s)
  | pop_load :
      threads s i = PopLoad -> step i s None (at_ i (pop_seen s) s)
  | pop_read old c x :
      threads s i = PopRead old c -> cells s !! get_ptr old = Some x ->
      step i s None (at_ i (PopCas old (c_next x) c) s)
  | pop_cas old next c :
      threads s i = PopCas old next c -> head s = old ->
      step i s None
        (at_ i (PopData (get_ptr old)) (set_head (set_tag (next_tag old) next) (pops s + 1) s))
  | pop_cas_fail old next c :
      threads s i = PopCas old next c -> step i s None (at_ i (pop_seen s) s)
  | pop_data p x v :
      threads s i = PopData p -> cells s !! p = Some x -> c_data x = Some v ->
      step i s None (at_ i (Destroy v p) s)
  | destroy v p x :
      threads s i = Destroy v p -> cells s !! p = Some x ->
      step i s None (at_ i (FreeLoad v p) (set_cell p (mkCell None (c_next x) (c_free x)) s))
  | pop_ret r :
      threads s i = PopDone r -> step i s (Some (RetPop i r)) (at_ i Idle s)
  (* empty *)
  | empty_call :
      threads s i = Idle -> step i s (Some (CallEmpty i)) (at_ i EmptyLoad s)
  | empty_load :
      threads s i = EmptyLoad -> step i s None (at_ i (EmptyDone (negb (to_bool (head s)))) s)
  | empty_ret b :
      threads s i = EmptyDone b -> step i s (Some (RetEmpty i b)) (at_ i Idle s).

(** A tag has 16 bits: it tells two heads apart when fewer than 2^16 nodes were taken between
    the load of a head and its exchange. *)
Definition prompt (s : State) : Prop :=
  forall i, match threads s i with
  | AllocCas _ _ _ c => allocs s - c < 2 ^ 16
  | PopCas _ _ c => pops s - c < 2 ^ 16
  | _ => True
  end.

(** Runs from the empty stack, with the calls and returns that were made. *)
Inductive runs : list event -> State -> Prop :=
  | runs_init : runs [] init
  | runs_step tr s i l s' :
      runs tr s -> prompt s -> step i s l s' -> runs (tr ++ option_list l) s'.

(** The destructor of the freelist: the addresses that are given back, in order. *)
Definition freelist_body (m : gmap Z Cell) (x : Z * list Z) : res (Z * list Z + list Z) :=
  let '(cur, freed) := x in
  if to_bool cur then
    match m !! get_ptr cur with
    | Some c => Ok (inl (c_free c, freed ++ [get_ptr cur]))
    | None => Ub PointerRange
    end
  else Ok (inr freed).

Definition freelist_destroy (s : State) : res (list Z) :=
  loop (freelist_body (cells s)) (S (size (cells s))) (pool s, []).

(** ** The atomic stack *)

Inductive AThread : Type :=
  | AIdle
  | APush (v : T) | APushed (b : bool)
  | APop | APopped (r : option T)
  | AEmpty | AEmptied (b : bool).

Record AState : Type := mkAState { astack : list T; athreads : nat -> AThread }.

Definition ainit : AState := mkAState [] (fun _ => AIdle).

Definition a_at (i : nat) (th : AThread) (l : list T) (a : AState) : AState :=
  mkAState l (<[i := th]> (athreads a)).

(** An operation takes effect in one step between its call and its return.  A push without
    memory fails. *)
Inductive astep (i : nat) (a : AState) : option event -> AState -> Prop :=
  | a_push_call v :
      athreads a i = AIdle -> astep i a (Some (CallPush i v)) (a_at i (APush v) (astack a) a)
  | a_push v :
      athreads a i = APush v -> astep i a None (a_at i (APushed true) (v :: astack a) a)
  | a_push_fails v :
      athreads a i = APush v -> astep i a None (a_at i (APushed false) (astack a) a)
  | a_push_ret b :
      athreads a i = APushed b -> astep i a (Some (RetPush i b)) (a_at i AIdle (astack a) a)
  | a_pop_call :
      athreads a i = AIdle -> astep i a (Some (CallPop i)) (a_at i APop (astack a) a)
  | a_pop :
      athreads a i = APop ->
      astep i a None (a_at i (APopped (hd_error (astack a))) (tail (astack a)) a)
  | a_pop_ret r :
      athreads a i = APopped r -> astep i a (Some (RetPop i r)) (a_at i AIdle (astack a) a)
  | a_empty_call :
      athreads a i = AIdle -> astep i a (Some (CallEmpty i)) (a_at i AEmpty (astack a) a)
  | a_empty :
      athreads a i = AEmpty ->
      astep i a None (a_at i (AEmptied (bool_decide (length (astack a) = 0%nat))) (astack a) a)
  | a_empty_ret b :
      athreads a i = AEmptied b -> astep i a (Some (RetEmpty i b)) (a_at i AIdle (astack a) a).

Inductive aruns : list event -> AState -> Prop :=
  | aruns_init : aruns [] ainit
  | aruns_step tr a i l a' : aruns tr a -> astep i a l a' -> aruns (tr ++ option_list l) a'.
End stack.
