(* ===== verification/LockfreeStackInv.v ===== *)
(** * The invariant of the lock-free stack

    The two lists, who owns the other nodes, and what a thread that has read a head knows; the
    invariant relates the stack with the atomic one. *)

From stdpp Require Import gmap functions.
From S2P Require Import Prelude TaggedPtr LockfreeStack.
#[local] Open Scope Z_scope.

(** ** Linked lists *)

Section linked.
Context {T : Type} (next : @Cell T -> Z).
Implicit Types (m : gmap Z (@Cell T)) (w p : Z) (l : list Z).

Fixpoint linked m w l : Prop :=
  match l with
  | [] => get_ptr w = 0
  | p :: l => get_ptr w = p /\ p <> 0 /\ exists c, m !! p = Some c /\ linked m (next c) l
  end.

Lemma linked_ptr m w w' l : get_ptr w = get_ptr w' -> linked m w l -> linked m w' l.
Proof. intros E. destruct l as [|p l]; cbn; [by rewrite E|]. rewrite <- E. done. Qed.

(** A write to a node that is not in the list, or that keeps its next pointer. *)
Lemma linked_write m w l p c :
  (p ∈ l -> exists c0, m !! p = Some c0 /\ next c = next c0) ->
  linked m w l -> linked (<[p := c]> m) w l.
Proof.
  revert w. induction l as [|q l IH]; intros w Hp; [done|].
  intros (Hq & Hz & c' & Hc & Hl). split; [done|]. split; [done|].
  destruct (decide (q = p)) as [->|Hne].
  - destruct Hp as (c0 & Hc0 & En); [by left|]. exists c. rewrite lookup_insert_eq. split; [done|].
    assert (next c = next c') as -> by congruence. apply IH; [|done]. intros _. exists c0. by split.
  - exists c'. rewrite lookup_insert_ne by done. split; [done|]. apply IH; [|done]. intros H. apply Hp. by right.
Qed.

Lemma linked_elem m w l p : linked m w l -> p ∈ l -> is_Some (m !! p).
Proof.
  revert w. induction l as [|q l IH]; intros w Hl Hp; [by apply not_elem_of_nil in Hp|].
  destruct Hl as (_ & _ & c & Hc & Hl). apply elem_of_cons in Hp as [->|Hp]; [by exists c|by eapply IH].
Qed.

Lemma linked_null m w l : linked m w l -> to_bool w = bool_decide (l <> []).
Proof.
  unfold to_bool. destruct l as [|p l]; cbn; [intros ->; done|].
  intros (-> & Hz & _). rewrite (proj2 (Z.eqb_neq _ _) Hz). done.
Qed.
End linked.

(** ** What the threads own and know *)

Section inv.
Context {T : Type}.
Implicit Types (m : gmap Z (@Cell T)) (th : @Thread T) (ath : @AThread T) (s : @State T) (a : @AState T).

(** The node that a thread has to itself. *)
Definition owned th : option Z :=
  match th with
  | Construct _ p | PushLoad _ p | PushWrite _ p _ | PushCas _ p _
  | PopData p | Destroy _ p | FreeLoad _ p | FreeWrite _ p _ | FreeCas _ p _ => Some p
  | _ => None
  end.

(** A head [w] that was read when [c] nodes had been taken from the list, which is now [l] after
    [n] nodes. *)
Definition seen m (n : Z) (l : list Z) (w c : Z) : Prop :=
  c <= n /\ get_tag w = c mod 2 ^ 16 /\ is_Some (m !! get_ptr w) /\ (n = c -> get_ptr w ∈ l).

Definition knows m (n : Z) (l : list Z) (f : @Cell T -> Z) (w nx c : Z) : Prop :=
  seen m n l w c /\ (n = c -> exists x, m !! get_ptr w = Some x /\ f x = nx).

Definition holds m (p : Z) (P : @Cell T -> Prop) : Prop := exists x, m !! p = Some x /\ P x.

Definition thread_ok m (n k : Z) (l fl : list Z) th ath : Prop :=
  match th with
  | Idle => ath = AIdle
  | AllocLoad v | AllocNew v | Construct v _ => ath = APush v
  | AllocRead v old c => ath = APush v /\ seen m k fl old c
  | AllocCas v old nx c => ath = APush v /\ knows m k fl c_free old nx c
  | PushLoad v p | PushWrite v p _ => ath = APush v /\ holds m p (fun x => c_data x = Some v)
  | PushCas v p old => ath = APush v /\ holds m p (fun x => c_data x = Some v /\ c_next x = old)
  | PushDone b => ath = APushed b
  | PopLoad => ath = APop
  | PopRead old c => ath = APop /\ seen m n l old c
  | PopCas old nx c => ath = APop /\ knows m n l c_next old nx c
  | PopData p => exists v, ath = APopped (Some v) /\ holds m p (fun x => c_data x = Some v)
  | Destroy v _ | FreeLoad v _ | FreeWrite v _ _ => ath = APopped (Some v)
  | FreeCas v p old => ath = APopped (Some v) /\ holds m p (fun x => c_free x = old)
  | PopDone r => ath = APopped r
  | EmptyLoad => ath = AEmpty
  | EmptyDone b => ath = AEmptied b
  end.

(** Every node is in exactly one of the two lists or owned by exactly one thread. *)
Record parted m (ths : nat -> @Thread T) (l fl : list Z) : Prop := {
  p_nodup : NoDup (l ++ fl);
  p_owned i p : owned (ths i) = Some p -> (p ∉ l ++ fl) /\ is_Some (m !! p) /\ 0 < p < 2 ^ 48;
  p_owner i j p : owned (ths i) = Some p -> owned (ths j) = Some p -> i = j;
  p_all p : is_Some (m !! p) -> (p ∈ l ++ fl) \/ (exists i, owned (ths i) = Some p)
}.

Record inv_with s a (l fl : list Z) : Prop := {
  i_head : linked c_next (cells s) (head s) l;
  i_pool : linked c_free (cells s) (pool s) fl;
  i_tag : get_tag (head s) = pops s mod 2 ^ 16;
  i_ptag : get_tag (pool s) = allocs s mod 2 ^ 16;
  i_parted : parted (cells s) (threads s) l fl;
  i_values : Forall2 (fun p v => holds (cells s) p (fun x => c_data x = Some v)) l (astack a);
  i_threads i : thread_ok (cells s) (pops s) (allocs s) l fl (threads s i) (athreads a i)
}.

Definition inv s a : Prop := exists l fl, inv_with s a l fl.

(** ** Frames *)

Lemma cell_holds_write m p q c P : q <> p -> holds m q P -> holds (<[p := c]> m) q P.
Proof. intros Hne (x & Hx & HP). exists x. by rewrite lookup_insert_ne. Qed.

Lemma is_Some_write m p q c : is_Some (m !! q) -> is_Some (<[p := c]> m !! q).
Proof. intros. destruct (decide (q = p)) as [->|]; [rewrite lookup_insert_eq; eauto|by rewrite lookup_insert_ne]. Qed.

Lemma seen_write m n l w c p x : seen m n l w c -> seen (<[p := x]> m) n l w c.
Proof. intros (H1 & H2 & H3 & H4). repeat split; try done. by apply is_Some_write. Qed.

Lemma knows_write m n l f w nx c p x :
  p ∉ l -> knows m n l f w nx c -> knows (<[p := x]> m) n l f w nx c.
Proof.
  intros Hp [Hs Hk]. split; [by apply seen_write|]. intros E. destruct Hs as (_ & _ & _ & Hin).
  apply cell_holds_write; [|by apply Hk]. intros Eq. subst p. by apply Hp, Hin.
Qed.

(** A write to a node that is in no list and that the thread does not own. *)
Lemma thread_ok_write m n k l fl th ath p x :
  p ∉ l ++ fl -> owned th <> Some p ->
  thread_ok m n k l fl th ath -> thread_ok (<[p := x]> m) n k l fl th ath.
Proof.
  rewrite elem_of_app. intros Hp Ho.
  destruct th; cbn in *; try done;
    repeat match goal with
    | |- (exists _, _) -> _ => let v := fresh "v" in intros [v Hv]; exists v; revert Hv
    | |- _ /\ _ -> _ => intros [? ?]; split; [done|]
    end; eauto using seen_write.
  all: try (apply knows_write; tauto).
  all: try (apply cell_holds_write; [congruence|done]).
Qed.

(** A list that grows at its front, or from which a node was taken. *)
Definition grows (n : Z) (l : list Z) (n' : Z) (l' : list Z) : Prop := (n' = n /\ l ⊆ l') \/ n < n'.

Lemma grows_refl n l : grows n l n l.
Proof. by left. Qed.

Lemma grows_cons n l p : grows n l n (p :: l).
Proof. left. split; [done|]. intros q Hq. by right. Qed.

Lemma seen_grows m n l n' l' w c : grows n l n' l' -> seen m n l w c -> seen m n' l' w c.
Proof.
  intros Hg (H1 & H2 & H3 & H4). destruct Hg as [[-> Hl]|Hn].
  - repeat split; try done. intros E. by apply Hl, H4.
  - repeat split; try done; lia.
Qed.

Lemma knows_grows m n l n' l' f w nx c : grows n l n' l' -> knows m n l f w nx c -> knows m n' l' f w nx c.
Proof.
  intros Hg [Hs Hk]. split; [by eapply seen_grows|]. destruct Hg as [[-> _]|Hn]; [done|].
  destruct Hs as (H1 & _). lia.
Qed.

Lemma thread_ok_grows m n k l fl n' k' l' fl' th ath :
  grows n l n' l' -> grows k fl k' fl' ->
  thread_ok m n k l fl th ath -> thread_ok m n' k' l' fl' th ath.
Proof.
  intros Hl Hf. destruct th; cbn; try done; intros [? ?]; split; try done;
    solve [by eapply seen_grows | by eapply knows_grows].
Qed.

(** ** The partition *)

Lemma parted_ext m ths ths' l fl :
  (forall j, owned (ths' j) = owned (ths j)) -> parted m ths l fl -> parted m ths' l fl.
Proof.
  intros E [H1 H2 H3 H4]. split; [done| | |].
  - intros i p. rewrite E. apply H2.
  - intros i j p. rewrite !E. apply H3.
  - intros p Hp. destruct (H4 p Hp) as [|[i Hi]]; [by left|right]. exists i. by rewrite E.
Qed.

Lemma parted_swap m ths l fl : parted m ths l fl -> parted m ths fl l.
Proof.
  intros [H1 H2 H3 H4]. assert (fl ++ l ≡ₚ l ++ fl) as E by apply Permutation_app_comm.
  split; [by rewrite E| |done|].
  - intros i p Hp. rewrite E. by eapply H2.
  - intros p Hp. rewrite E. by apply H4.
Qed.

Lemma parted_write m ths l fl p c :
  is_Some (m !! p) -> parted m ths l fl -> parted (<[p := c]> m) ths l fl.
Proof.
  intros Hm [H1 H2 H3 H4]. split; [done| |done|].
  - intros i q Hq. destruct (H2 i q Hq) as (? & ? & ?). repeat split; try done; try lia. by apply is_Some_write.
  - intros q Hq. apply H4. destruct (decide (q = p)) as [->|]; [done|by rewrite lookup_insert_ne in Hq].
Qed.

(** Thread [i] gives its node to a list. *)
Lemma parted_give m ths ths' l fl i p :
  owned (ths i) = Some p -> owned (ths' i) = None -> (forall j, j <> i -> owned (ths' j) = owned (ths j)) ->
  parted m ths l fl -> parted m ths' (p :: l) fl.
Proof.
  intros Hi Hi' Hj [H1 H2 H3 H4]. destruct (H2 i p Hi) as (Hp & _ & _). split.
  - by constructor.
  - intros j q Hq. destruct (decide (j = i)) as [->|Hne]; [congruence|]. rewrite Hj in Hq by done.
    destruct (H2 j q Hq) as (Hq1 & Hq2 & Hq3). split; [|done]. cbn. rewrite elem_of_cons. intros [->|Hin]; [|done].
    by apply Hne, (H3 j i p).
  - intros j j' q Hq Hq'. destruct (decide (j = i)) as [->|Hne]; [congruence|].
    destruct (decide (j' = i)) as [->|Hne']; [congruence|]. rewrite Hj in Hq, Hq' by done. by eapply H3.
  - intros q Hq. cbn. rewrite elem_of_cons. destruct (H4 q Hq) as [|[j Hj']]; [by left; right|].
    destruct (decide (j = i)) as [->|Hne]; [left; left; congruence|]. right. exists j. by rewrite Hj.
Qed.

(** Thread [i] takes the first node of a list. *)
Lemma parted_take m ths ths' l fl i p :
  owned (ths i) = None -> owned (ths' i) = Some p -> (forall j, j <> i -> owned (ths' j) = owned (ths j)) ->
  is_Some (m !! p) -> 0 < p < 2 ^ 48 -> parted m ths (p :: l) fl -> parted m ths' l fl.
Proof.
  intros Hi Hi' Hj Hm Hr [H1 H2 H3 H4]. cbn in H1. inversion H1 as [|? ? Hp H1']; subst. split; [done| | |].
  - intros j q Hq. destruct (decide (j = i)) as [->|Hne].
    + assert (q = p) as -> by congruence. done.
    + rewrite Hj in Hq by done. destruct (H2 j q Hq) as (Hq1 & Hq2). split; [|done].
      intros Hin. apply Hq1. cbn. by right.
  - intros j j' q Hq Hq'. destruct (decide (j = i)) as [->|Hne], (decide (j' = i)) as [->|Hne']; try done.
    + rewrite Hj in Hq' by done. assert (q = p) as -> by congruence.
      destruct (H2 j' p Hq') as [Hq1 _]. exfalso. apply Hq1. cbn. by left.
    + rewrite Hj in Hq by done. assert (q = p) as -> by congruence.
      destruct (H2 j p Hq) as [Hq1 _]. exfalso. apply Hq1. cbn. by left.
    + rewrite Hj in Hq, Hq' by done. by eapply H3.
  - intros q Hq. destruct (H4 q Hq) as [Hin|[j Hj']].
    + cbn in Hin. apply elem_of_cons in Hin as [->|]; [right; by exists i|by left].
    + destruct (decide (j = i)) as [->|Hne]; [congruence|]. right. exists j. by rewrite Hj.
Qed.

(** Thread [i] gets a new node. *)
Lemma parted_new m ths ths' l fl i p c :
  owned (ths i) = None -> owned (ths' i) = Some p -> (forall j, j <> i -> owned (ths' j) = owned (ths j)) ->
  m !! p = None -> 0 < p < 2 ^ 48 -> (p ∉ l ++ fl) -> parted m ths l fl -> parted (<[p := c]> m) ths' l fl.
Proof.
  intros Hi Hi' Hj Hm Hr Hp [H1 H2 H3 H4].
  assert (forall j, owned (ths j) <> Some p) as Hno.
  { intros j Hq. destruct (H2 j p Hq) as (_ & [x Hx] & _). congruence. }
  split; [done| | |].
  - intros j q Hq. destruct (decide (j = i)) as [->|Hne].
    + assert (q = p) as -> by congruence. rewrite lookup_insert_eq. eauto.
    + rewrite Hj in Hq by done. destruct (H2 j q Hq) as (? & ? & ?). repeat split; try done; try lia.
      by apply is_Some_write.
  - intros j j' q Hq Hq'. destruct (decide (j = i)) as [->|Hne], (decide (j' = i)) as [->|Hne']; try done.
    + rewrite Hj in Hq' by done. exfalso. apply (Hno j'). congruence.
    + rewrite Hj in Hq by done. exfalso. apply (Hno j). congruence.
    + rewrite Hj in Hq, Hq' by done. by eapply H3.
  - intros q Hq. destruct (decide (q = p)) as [->|Hne]; [right; by exists i|].
    rewrite lookup_insert_ne in Hq by done. destruct (H4 q Hq) as [|[j Hj']]; [by left|].
    destruct (decide (j = i)) as [->|Hne']; [congruence|]. right. exists j. by rewrite Hj.
Qed.
End inv.
