(* ===== verification/LockfreeStackSim.v ===== *)
(** * The steps of the lock-free stack

    Every step keeps the invariant, and is a step of the atomic stack or none. *)

From stdpp Require Import gmap functions.
From S2P Require Import Prelude TaggedPtr LockfreeStack LockfreeStackInv.
#[local] Open Scope Z_scope.

Section sim.
Context {T : Type}.
Implicit Types (th : @Thread T) (s : @State T) (a : @AState T).

#[local] Ltac fields := cbn [cells head pool pops allocs threads at_ set_head set_pool set_cell linked].

Definition others (i : nat) a a' : Prop := forall j, j <> i -> athreads a' j = athreads a j.

Lemma a_at_self i (th : @AThread T) l a : athreads (a_at i th l a) i = th.
Proof. apply fn_lookup_insert. Qed.

Lemma a_at_others i (th : @AThread T) l a : others i a (a_at i th l a).
Proof. intros j Hj. by apply fn_lookup_insert_ne. Qed.

Lemma owned_at ths i th' (j : nat) :
  owned th' = owned (ths i) -> owned (<[i := th']> ths j) = owned (ths j : @Thread T).
Proof.
  intros E. destruct (decide (j = i)) as [->|Hne]; [by rewrite fn_lookup_insert|by rewrite fn_lookup_insert_ne].
Qed.

Lemma owned_other (ths : nat -> @Thread T) i th' j : j <> i -> owned (<[i := th']> ths j) = owned (ths j).
Proof. intros. by rewrite fn_lookup_insert_ne. Qed.

(** The threads after a step of thread [i]: [ok] for it, and frames for the others. *)
Lemma threads_ok i (ths : nat -> @Thread T) th' a a' m n k l fl m' n' k' l' fl' :
  others i a a' ->
  (forall j, j <> i -> thread_ok m n k l fl (ths j) (athreads a j) ->
     thread_ok m' n' k' l' fl' (ths j) (athreads a j)) ->
  (forall j, thread_ok m n k l fl (ths j) (athreads a j)) ->
  thread_ok m' n' k' l' fl' th' (athreads a' i) ->
  forall j, thread_ok m' n' k' l' fl' (<[i := th']> ths j) (athreads a' j).
Proof.
  intros Ho Hf Hok Hi j. destruct (decide (j = i)) as [->|Hne]; [by rewrite fn_lookup_insert|].
  rewrite fn_lookup_insert_ne, Ho by done. by apply Hf.
Qed.

(** ** Steps that leave the memory alone *)

Lemma inv_local s a a' i th' :
  inv s a -> owned th' = owned (threads s i) -> astack a' = astack a -> others i a a' ->
  (forall l fl, inv_with s a l fl ->
     thread_ok (cells s) (pops s) (allocs s) l fl th' (athreads a' i)) ->
  inv (at_ i th' s) a'.
Proof.
  intros (l & fl & Hinv) Ho Es Hoth Hok. specialize (Hok l fl Hinv). destruct Hinv.
  exists l, fl. split; fields; try done.
  - eapply parted_ext; [|done]. intros j. by apply owned_at.
  - by rewrite Es.
  - by eapply threads_ok.
Qed.

(** ** Writes to an owned node *)

Lemma values_write (m : gmap Z (@Cell T)) l vs p x :
  p ∉ l -> Forall2 (fun q v => holds m q (fun y => c_data y = Some v)) l vs ->
  Forall2 (fun q v => holds (<[p := x]> m) q (fun y => c_data y = Some v)) l vs.
Proof.
  intros Hp H. induction H as [|q v l vs Hq _ IH]; [constructor|].
  rewrite elem_of_cons in Hp. constructor; [apply cell_holds_write; [|done]; intros ->; tauto|tauto].
Qed.

Lemma inv_write s a i th' p x x' :
  inv s a -> owned (threads s i) = Some p -> owned th' = Some p -> cells s !! p = Some x ->
  (forall l fl, thread_ok (<[p := x']> (cells s)) (pops s) (allocs s) l fl th' (athreads a i)) ->
  inv (at_ i th' (set_cell p x' s)) a.
Proof.
  intros (l & fl & Hinv) Hi Hi' Hx Hok. specialize (Hok l fl). destruct Hinv.
  destruct (p_owned _ _ _ _ i_parted i p Hi) as (Hp & _ & _). pose proof Hp as Hp'. rewrite elem_of_app in Hp'.
  exists l, fl. split; fields; try done.
  - apply linked_write; [tauto|done].
  - apply linked_write; [tauto|done].
  - apply parted_write; [by exists x|]. eapply parted_ext; [|done]. intros j. apply owned_at. congruence.
  - apply values_write; [tauto|done].
  - eapply threads_ok; [done| |done|done]. intros j Hne. apply thread_ok_write; [done|].
    intros Hj. by apply Hne, (p_owner _ _ _ _ i_parted j i p).
Qed.

(** ** Exchanges *)

(** A tag names the number of nodes that were taken, among fewer than 2^16. *)
Lemma tag_eq c n : c <= n -> n - c < 2 ^ 16 -> c mod 2 ^ 16 = n mod 2 ^ 16 -> n = c.
Proof.
  intros H1 H2 E. assert ((n - c) mod 2 ^ 16 = 0) as H by (rewrite Zminus_mod, E, Z.sub_diag; done).
  rewrite Z.mod_small in H by lia. lia.
Qed.

Lemma next_tag_count w n : get_tag w = n mod 2 ^ 16 -> next_tag w = (n + 1) mod 2 ^ 16.
Proof. intros E. rewrite next_tag_mod, E. by rewrite Z.add_mod_idemp_l. Qed.

(** The list behind a head that has not changed since it was read. *)
Lemma linked_knows (f : @Cell T -> Z) m n l w nx c :
  linked f m w l -> get_tag w = n mod 2 ^ 16 -> knows m n l f w nx c -> n - c < 2 ^ 16 ->
  exists l', l = get_ptr w :: l' /\ get_ptr w <> 0 /\ is_Some (m !! get_ptr w) /\
    linked f m (set_tag (next_tag w) nx) l'.
Proof.
  intros Hl Ht [(Hc & Hw & Hm & Hin) Hk] Hn. assert (n = c) as E by (apply tag_eq; congruence || lia).
  destruct (Hk E) as (x & Hx & Hf). specialize (Hin E).
  destruct l as [|p l]; [by apply not_elem_of_nil in Hin|]. destruct Hl as (Hp & Hz & y & Hy & Hl).
  exists l. rewrite Hp in *. split; [done|]. split; [done|]. split; [done|].
  assert (y = x) as -> by congruence. eapply linked_ptr; [|exact Hl]. by rewrite get_ptr_set_tag, Hf.
Qed.

Lemma inv_push_cas s a i v p :
  inv s a -> threads s i = PushCas v p (head s) ->
  athreads a i = APush v /\
  inv (at_ i (PushDone true) (set_head (make p (get_tag (head s))) (pops s) s))
      (a_at i (APushed true) (v :: astack a) a).
Proof.
  intros (l & fl & []) Hi. pose proof (i_threads i) as Hok. rewrite Hi in Hok.
  destruct Hok as (Ha & x & Hx & Hv & Hn). split; [done|].
  assert (owned (threads s i) = Some p) as Ho by (by rewrite Hi).
  destruct (p_owned _ _ _ _ i_parted i p Ho) as (Hp & Hs & Hr).
  exists (p :: l), fl. split; fields; try done.
  - rewrite get_ptr_make by lia. split; [done|]. split; [lia|]. exists x. by rewrite Hn.
  - rewrite get_tag_make by apply get_tag_range. done.
  - eapply parted_give; [exact Ho|by rewrite fn_lookup_insert|intros; by apply owned_other|done].
  - cbn [astack a_at]. constructor; [by exists x|done].
  - eapply threads_ok; [apply a_at_others| |done|by rewrite a_at_self].
    intros j _. apply thread_ok_grows; [apply grows_cons|apply grows_refl].
Qed.

Lemma inv_free_cas s a i v p :
  inv s a -> threads s i = FreeCas v p (pool s) ->
  inv (at_ i (PopDone (Some v)) (set_pool (make p (get_tag (pool s))) (allocs s) s)) a.
Proof.
  intros (l & fl & []) Hi. pose proof (i_threads i) as Hok. rewrite Hi in Hok.
  destruct Hok as (Ha & x & Hx & Hn).
  assert (owned (threads s i) = Some p) as Ho by (by rewrite Hi).
  destruct (p_owned _ _ _ _ i_parted i p Ho) as (Hp & Hs & Hr).
  exists l, (p :: fl). split; fields; try done.
  - rewrite get_ptr_make by lia. split; [done|]. split; [lia|]. exists x. by rewrite Hn.
  - rewrite get_tag_make by apply get_tag_range. done.
  - apply parted_swap. eapply parted_give; [exact Ho|by rewrite fn_lookup_insert|intros; by apply owned_other|].
    by apply parted_swap.
  - eapply threads_ok; [done| |done|done].
    intros j _. apply thread_ok_grows; [apply grows_refl|apply grows_cons].
Qed.

Lemma inv_pop_cas s a i nx c :
  inv s a -> threads s i = PopCas (head s) nx c -> pops s - c < 2 ^ 16 ->
  athreads a i = APop /\
  inv (at_ i (PopData (get_ptr (head s))) (set_head (set_tag (next_tag (head s)) nx) (pops s + 1) s))
      (a_at i (APopped (hd_error (astack a))) (tail (astack a)) a).
Proof.
  intros (l & fl & []) Hi Hc. pose proof (i_threads i) as Hok. rewrite Hi in Hok.
  destruct Hok as (Ha & Hk). split; [done|].
  destruct (linked_knows _ _ _ _ _ _ _ i_head i_tag Hk Hc) as (l' & -> & Hz & Hm & Hl).
  inversion i_values as [|? v ? vs Hv Hvs Ep Es].
  pose proof (get_ptr_range (head s)).
  exists l', fl. split; fields; try done.
  - rewrite get_tag_set_tag by apply next_tag_range. by apply next_tag_count.
  - eapply parted_take; [by rewrite Hi|by rewrite fn_lookup_insert|intros; by apply owned_other|done|lia|done].
  - eapply threads_ok; [apply a_at_others| |done|].
    + intros j _. apply thread_ok_grows; [right; lia|apply grows_refl].
    + rewrite a_at_self. exists v. by split.
Qed.

Lemma inv_alloc_cas s a i v nx c :
  inv s a -> threads s i = AllocCas v (pool s) nx c -> allocs s - c < 2 ^ 16 ->
  inv (at_ i (Construct v (get_ptr (pool s))) (set_pool (set_tag (next_tag (pool s)) nx) (allocs s + 1) s)) a.
Proof.
  intros (l & fl & []) Hi Hc. pose proof (i_threads i) as Hok. rewrite Hi in Hok.
  destruct Hok as (Ha & Hk).
  destruct (linked_knows _ _ _ _ _ _ _ i_pool i_ptag Hk Hc) as (fl' & -> & Hz & Hm & Hl).
  pose proof (get_ptr_range (pool s)).
  exists l, fl'. split; fields; try done.
  - rewrite get_tag_set_tag by apply next_tag_range. by apply next_tag_count.
  - apply parted_swap. eapply parted_take; [by rewrite Hi|by rewrite fn_lookup_insert|intros; by apply owned_other|done|lia|].
    by apply parted_swap.
  - eapply threads_ok; [done| |done|done].
    intros j _. apply thread_ok_grows; [apply grows_refl|right; lia].
Qed.

Lemma inv_alloc_new s a i v p x :
  inv s a -> threads s i = AllocNew v -> cells s !! p = None -> 0 < p < 2 ^ 48 ->
  inv (at_ i (Construct v p) (set_cell p x s)) a.
Proof.
  intros (l & fl & []) Hi Hp Hr. pose proof (i_threads i) as Hok. rewrite Hi in Hok. cbn in Hok.
  assert (p ∉ l) as Hl by (intros Hin; destruct (linked_elem _ _ _ _ _ i_head Hin); congruence).
  assert (p ∉ fl) as Hfl by (intros Hin; destruct (linked_elem _ _ _ _ _ i_pool Hin); congruence).
  assert (p ∉ l ++ fl) as Hlf by (rewrite elem_of_app; tauto).
  exists l, fl. split; fields; try done.
  - by apply linked_write.
  - by apply linked_write.
  - eapply parted_new; [by rewrite Hi|by rewrite fn_lookup_insert|intros; by apply owned_other|done..].
  - by apply values_write.
  - eapply threads_ok; [done| |done|done]. intros j _. apply thread_ok_write; [done|].
    intros Hj. destruct (p_owned _ _ _ _ i_parted j p Hj) as (_ & [y Hy] & _). congruence.
Qed.

(** ** The simulation *)

(** What a thread knows of a head that it has just read. *)
Lemma seen_now (f : @Cell T -> Z) m n l w :
  linked f m w l -> get_tag w = n mod 2 ^ 16 -> to_bool w = true -> seen m n l w n.
Proof.
  intros Hl Ht Hb. rewrite (linked_null _ _ _ _ Hl) in Hb. apply bool_decide_eq_true in Hb.
  destruct l as [|p l]; [done|]. destruct Hl as (Hp & Hz & x & Hx & _).
  unfold seen. rewrite Hp. repeat split; [lia|done|by exists x|]. intros _. by left.
Qed.

Lemma inv_alloc_seen s a i v :
  inv s a -> owned (threads s i) = None -> athreads a i = APush v -> inv (at_ i (alloc_seen v s) s) a.
Proof.
  intros Hinv Ho Ha. apply (inv_local s a a); [done| |done|done|].
  - rewrite Ho. unfold alloc_seen. by destruct (to_bool (pool s)).
  - intros l fl []. unfold alloc_seen. destruct (to_bool (pool s)) eqn:E; cbn; [|done].
    split; [done|]. by eapply seen_now.
Qed.

(** pop reads a head: the stack is empty, which is when the pop takes effect, or not. *)
Lemma inv_pop_seen s a i :
  inv s a -> owned (threads s i) = None -> athreads a i = APop ->
  inv (at_ i (pop_seen s) s) a \/
  exists a', astep i a None a' /\ inv (at_ i (pop_seen s) s) a'.
Proof.
  intros Hinv Ho Ha. unfold pop_seen. destruct (to_bool (head s)) eqn:E; [left|right].
  - apply (inv_local s a a); [done|by rewrite Ho|done|done|]. intros l fl []. cbn. split; [done|].
    by eapply seen_now.
  - eexists. split; [by apply a_pop|]. pose proof Hinv as (l & fl & []).
    rewrite (linked_null _ _ _ _ i_head) in E. apply bool_decide_eq_false, dec_stable in E as ->.
    inversion i_values as [Es|]. apply (inv_local s a); [done|by rewrite Ho|done|apply a_at_others|].
    intros. cbn. by rewrite fn_lookup_insert.
Qed.

Lemma thread_of s a i : inv s a -> exists l fl,
  thread_ok (cells s) (pops s) (allocs s) l fl (threads s i) (athreads a i).
Proof. intros (l & fl & []). eauto. Qed.

(** A step that changes only the thread and the thread of the atomic stack. *)
Lemma sim_local s a i l th' ath' :
  inv s a -> owned th' = None -> owned (threads s i) = None ->
  astep i a l (a_at i ath' (astack a) a) ->
  (forall l fl, inv_with s a l fl -> thread_ok (cells s) (pops s) (allocs s) l fl th' ath') ->
  exists a', astep i a l a' /\ inv (at_ i th' s) a'.
Proof.
  intros Hinv H1 H2 Hs Hok. eexists. split; [exact Hs|].
  apply (inv_local s a); [done|congruence|done|apply a_at_others|]. intros. rewrite a_at_self. eauto.
Qed.

Lemma holds_at (m : gmap Z (@Cell T)) p x (P : @Cell T -> Prop) : P x -> holds (<[p := x]> m) p P.
Proof. intros. exists x. by rewrite lookup_insert_eq. Qed.

(** A step of the atomic stack; a step of the thread alone; a write to its node. *)
#[local] Tactic Notation "atomic" hyp(Hi) uconstr(c) :=
  right; eapply sim_local; [done|done|by rewrite Hi|by eapply c|done].
#[local] Ltac stays Hi :=
  try (left; split; [done|]);
  match goal with H : inv ?s ?a |- _ => apply (inv_local s a a); [done|by rewrite Hi|done|done|] end.
#[local] Ltac writes Hi := eapply inv_write; [done|by rewrite Hi|done|done|].

Lemma pool_step_inv s a i s' : inv s a -> prompt s -> pool_step i s s' -> inv s' a \/ exists a', astep i a None a' /\ inv s' a'.
Proof.
  intros Hinv Hpr Hstep. destruct (thread_of s a i Hinv) as (ls & fl & Hok). specialize (Hpr i).
  destruct Hstep as [v Hi|v p junk Hi Hp Hr Hj|v Hi|v old c x Hi Hx|v old nx c Hi Hh|v old nx c Hi
    |v p Hi|v p old x Hi Hx|v p old Hi Hh|v p old Hi];
    rewrite Hi in Hok, Hpr; cbn in Hok, Hpr.
  - left. apply inv_alloc_seen; [done|by rewrite Hi|done].
  - left. by apply inv_alloc_new.
  - atomic Hi a_push_fails.
  - left. destruct Hok as [Ha _]. stays Hi.
    intros l' fl' []. pose proof (i_threads i) as H. rewrite Hi in H. destruct H as [_ H].
    cbn. split; [done|]. split; [done|]. intros _. by exists x.
  - left. subst old. by eapply inv_alloc_cas.
  - left. apply inv_alloc_seen; [done|by rewrite Hi|by destruct Hok].
  - left. stays Hi. done.
  - left. writes Hi. intros l' fl'. cbn. split; [done|]. by apply holds_at.
  - left. subst old. by apply inv_free_cas.
  - left. stays Hi. intros. by destruct Hok.
Qed.

Lemma step_sim s a i l s' :
  inv s a -> prompt s -> step i s l s' ->
  (l = None /\ inv s' a) \/ (exists a', astep i a l a' /\ inv s' a').
Proof.
  intros Hinv Hpr Hstep. destruct (thread_of s a i Hinv) as (ls & fl & Hok). pose proof Hpr as Hprs. specialize (Hpr i).
  destruct Hstep as [v Hi|s' Hp
    |v p x junk Hi Hx|v p Hi|v p old x Hi Hx|v p old Hi Hh|v p old Hi|b Hi
    |Hi|Hi|old c x Hi Hx|old nx c Hi Hh|old nx c Hi|p x v Hi Hx Hv
    |v p x Hi Hx|r Hi|Hi|Hi|b Hi];
    try (rewrite Hi in Hok, Hpr; cbn in Hok, Hpr).
  - atomic Hi a_push_call.
  - destruct (pool_step_inv s a i s' Hinv Hprs Hp); [by left|by right].
  - left. split; [done|]. writes Hi. intros l' fl'. cbn. split; [done|]. by apply holds_at.
  - stays Hi. done.
  - left. split; [done|]. destruct Hok as (Ha & y & Hy & Hd). assert (y = x) as -> by congruence.
    writes Hi. intros l' fl'. cbn. split; [done|]. by apply holds_at.
  - right. subst old. destruct (inv_push_cas s a i v p Hinv Hi) as [Ha Hinv'].
    eexists. split; [by apply a_push|done].
  - left. split; [done|]. destruct Hok as (Ha & y & Hy & Hd & _).
    stays Hi. intros. cbn. split; [done|]. by exists y.
  - atomic Hi a_push_ret.
  - atomic Hi a_pop_call.
  - destruct (inv_pop_seen s a i Hinv) as [|]; [by rewrite Hi|done|by left|by right].
  - left. split; [done|]. destruct Hok as [Ha _]. stays Hi.
    intros l' fl' []. pose proof (i_threads i) as H. rewrite Hi in H. destruct H as [_ H].
    cbn. split; [done|]. split; [done|]. intros _. by exists x.
  - right. subst old. destruct (inv_pop_cas s a i nx c Hinv Hi Hpr) as [Ha Hinv'].
    eexists. split; [by apply a_pop|done].
  - destruct (inv_pop_seen s a i Hinv) as [|]; [by rewrite Hi|by destruct Hok|by left|by right].
  - left. split; [done|]. destruct Hok as (v' & Ha & y & Hy & Hd).
    stays Hi. intros. cbn. congruence.
  - left. split; [done|]. by writes Hi.
  - atomic Hi a_pop_ret.
  - atomic Hi a_empty_call.
  - right. eapply sim_local; [done|done|by rewrite Hi|by apply a_empty|]. intros l' fl' []. cbn.
    rewrite (linked_null _ _ _ _ i_head), <- (Forall2_length i_values). by destruct l'.
  - atomic Hi a_empty_ret.
Qed.
End sim.
