(* ===== verification/LockfreeStackProps.v ===== *)
(** * What the lock-free stack promises

    Its calls and returns are those of an atomic stack; no thread follows a pointer that is not
    a node; and the destructors give back every node once. *)

From stdpp Require Import gmap functions.
From S2P Require Import Prelude TaggedPtr LockfreeStack LockfreeStackInv LockfreeStackSim.
#[local] Open Scope Z_scope.

Section reachable.
Context {T : Type}.
Implicit Types (s : @State T) (a : @AState T).

Lemma stack_inv_init : inv (@init T) ainit.
Proof.
  exists [], []. split; try done.
  split; [constructor|done|done|]. intros p [x Hx]. cbn [cells init] in Hx. by rewrite lookup_empty in Hx.
Qed.

Lemma runs_inv tr s : runs tr s -> exists a, aruns tr a /\ inv s a.
Proof.
  induction 1 as [|tr s i l s' _ (a & Ha & Hinv) Hp Hs]; [exists ainit; split; [constructor|apply stack_inv_init]|].
  destruct (step_sim s a i l s' Hinv Hp Hs) as [[-> Hinv']|(a' & Hs' & Hinv')].
  - exists a. cbn. by rewrite app_nil_r.
  - exists a'. split; [|done]. by eapply aruns_step.
Qed.

Lemma inv_steps s a i : inv s a -> threads s i <> Idle -> exists l s', step i s l s'.
Proof.
  intros (l & fl & Hi) Hne. destruct Hi as [_ _ _ _ Hp _ Hok]. specialize (Hok i).
  assert (forall p, owned (threads s i) = Some p -> is_Some (cells s !! p)) as Ho
    by (intros p H; by destruct (p_owned _ _ _ _ Hp i p H) as (_ & ? & _)).
  destruct (threads s i) as [ |v|v old c|v old nx c|v|v p|v p|v p old|v p old|b| |old c|old nx c|p|v p|v p|v p old|v p old|r| |b] eqn:E;
    cbn in Hok; try (destruct (Ho _ eq_refl) as [x Hx]).
  - done.
  - eexists _, _. by eapply freelist, alloc_load.
  - destruct Hok as (_ & _ & _ & [x Hx] & _). eexists _, _. by eapply freelist, alloc_read.
  - eexists _, _. by eapply freelist, alloc_cas_fail.
  - eexists _, _. by eapply freelist, alloc_null.
  - eexists _, _. by eapply (construct i s v p x 0).
  - eexists _, _. by eapply push_load.
  - eexists _, _. by eapply push_write.
  - eexists _, _. by eapply push_cas_fail.
  - eexists _, _. by eapply push_ret.
  - eexists _, _. by eapply pop_load.
  - destruct Hok as (_ & _ & _ & [x Hx] & _). eexists _, _. by eapply pop_read.
  - eexists _, _. by eapply pop_cas_fail.
  - destruct Hok as (v & _ & y & Hy & Hv). eexists _, _. by apply (pop_data i s p y v).
  - eexists _, _. by eapply destroy.
  - eexists _, _. by eapply freelist, free_load.
  - eexists _, _. by eapply freelist, free_write.
  - eexists _, _. by eapply freelist, free_cas_fail.
  - eexists _, _. by eapply pop_ret.
  - eexists _, _. by eapply empty_load.
  - eexists _, _. by eapply empty_ret.
Qed.

(** The destructor of the freelist walks its list. *)
Lemma freelist_loop_spec (m : gmap Z (@Cell T)) fl w freed n :
  linked c_free m w fl -> (length fl < n)%nat ->
  loop (freelist_body m) n (w, freed) = Ok (freed ++ fl).
Proof.
  revert w freed n. induction fl as [|p fl IH]; intros w freed [|n] Hl Hn; try (cbn in Hn; lia); rewrite loop_S;
    cbn [freelist_body].
  - rewrite (linked_null _ _ _ _ Hl). cbn. by rewrite app_nil_r.
  - rewrite (linked_null _ _ _ _ Hl). destruct Hl as (-> & _ & x & Hx & Hl). cbn.
    rewrite Hx. cbn. rewrite IH; [by rewrite <- app_assoc|done|cbn in Hn; lia].
Qed.

Lemma NoDup_size (m : gmap Z (@Cell T)) fl :
  NoDup fl -> (forall p, p ∈ fl <-> is_Some (m !! p)) -> fl ≡ₚ elements (dom m).
Proof.
  intros Hn Hin. apply NoDup_Permutation; [done|apply NoDup_elements|].
  intros p. by rewrite elem_of_elements, elem_of_dom.
Qed.

Lemma destroy_spec s a :
  inv s a -> (forall i, owned (threads s i) = None) -> to_bool (head s) = false ->
  exists fl, freelist_destroy s = Ok fl /\ fl ≡ₚ elements (dom (cells s)).
Proof.
  intros (l & fl & []) Ho Hh. rewrite (linked_null _ _ _ _ i_head) in Hh.
  apply bool_decide_eq_false, dec_stable in Hh as ->. destruct i_parted. cbn [app] in p_nodup, p_all.
  assert (fl ≡ₚ elements (dom (cells s))) as Hfl.
  { apply NoDup_size; [done|]. intros p. split; [by eapply linked_elem|].
    intros Hp. destruct (p_all p Hp) as [|[i Hi]]; [done|]. by rewrite Ho in Hi. }
  exists fl. split; [|done]. unfold freelist_destroy. rewrite (freelist_loop_spec _ fl); [done|done|].
  rewrite (Permutation_length Hfl). change (length (elements (dom (cells s)))) with (size (dom (cells s))).
  rewrite size_dom. lia.
Qed.
End reachable.

(** ** A run *)

(** One thread pushes 7 and pops it. *)
Definition demo_calls : list (@event Z) := [CallPush 0 7; RetPush 0 true; CallPop 0; RetPop 0 (Some 7)].

#[local] Tactic Notation "demo_step" hyp(H) uconstr(c) :=
  eapply runs_step in H;
    [|intros [|?]; vm_compute; first [exact I | reflexivity]
     |eapply c; vm_compute; first [reflexivity | split; reflexivity]];
  cbn [option_list app] in H.

#[local] Tactic Notation "demo_pool" hyp(H) uconstr(c) :=
  eapply runs_step in H;
    [|intros [|?]; vm_compute; first [exact I | reflexivity]
     |eapply freelist; eapply c; vm_compute; first [reflexivity | split; reflexivity]];
  cbn [option_list app] in H.

Lemma demo_run :
  exists s, runs demo_calls s /\ (forall i, threads s i = Idle) /\ to_bool (head s) = false /\
    elements (dom (cells s)) = [4096].
Proof.
  pose proof (@runs_init Z) as H.
  demo_step H (push_call 0 _ 7). demo_pool H (alloc_load 0 _ 7).
  demo_pool H (alloc_new 0 _ 7 4096 (mkCell None 0 0)). demo_step H (construct 0 _ 7 4096 _ 0).
  demo_step H (push_load 0 _ 7 4096). demo_step H (push_write 0 _ 7 4096 _).
  demo_step H (push_cas 0 _ 7 4096 _). demo_step H (push_ret 0 _ true).
  demo_step H (pop_call 0 _). demo_step H (pop_load 0 _). demo_step H (pop_read 0 _ 4096 0 _).
  demo_step H (pop_cas 0 _ 4096 0 0). demo_step H (pop_data 0 _ 4096 _ 7).
  demo_step H (destroy 0 _ 7 4096 _). demo_pool H (free_load 0 _ 7 4096).
  demo_pool H (free_write 0 _ 7 4096 _ _). demo_pool H (free_cas 0 _ 7 4096 _).
  demo_step H (pop_ret 0 _ (Some 7)).
  eexists. split; [exact H|]. split; [by intros [|i]|]. split; vm_compute; reflexivity.
Qed.

(** C20: the calls and returns of every run, by any number of threads with any interleaving of
    their accesses and any failures of the exchanges, are those of a run of the atomic stack,
    in which a push, a pop or an empty takes effect in one step between its call and its
    return; as long as fewer than 2^16 nodes are taken from a list between the load of its head
    and the exchange. *)
Theorem stack_linearizable (T : Type) (tr : list (@event T)) s : runs tr s -> exists a, aruns tr a.
Proof. intros H. destruct (runs_inv tr s H) as (a & Ha & _). by exists a. Qed.

Lemma stack_linearizable_witness : exists a, aruns demo_calls a.
Proof. destruct demo_run as (s & H & _). exact (stack_linearizable Z demo_calls s H). Defined.

(** C21: in every such run a thread in a call can make its next access: a pointer that it
    follows is a node that was allocated and not given back, and the object that pop copies is
    alive. *)
Theorem stack_memory_safe (T : Type) (tr : list (@event T)) s i :
  runs tr s -> threads s i <> Idle -> exists l s', step i s l s'.
Proof. intros H. destruct (runs_inv tr s H) as (a & _ & Hinv). by apply (inv_steps s a). Qed.

Lemma stack_memory_safe_witness :
  exists s : @State Z, runs [CallPop 0] s /\ exists l s', step 0 s l s'.
Proof.
  pose proof (@runs_init Z) as H. eapply runs_step in H;
    [|intros i; exact I|apply (pop_call 0 init); reflexivity].
  eexists. split; [exact H|]. apply (stack_memory_safe Z _ _ 0 H). intros E. vm_compute in E. discriminate E.
Defined.

(** When no call is running and the stack is empty, as after the pops of its destructor,
    the destructor of the freelist gives back every node that was allocated, once. *)
Theorem stack_destroy_frees_all (T : Type) (tr : list (@event T)) s :
  runs tr s -> (forall i, threads s i = Idle) -> to_bool (head s) = false ->
  exists fl, freelist_destroy s = Ok fl /\ fl ≡ₚ elements (dom (cells s)).
Proof.
  intros H Hi Hh. destruct (runs_inv tr s H) as (a & _ & Hinv). apply (destroy_spec s a); [done| |done].
  intros i. by rewrite Hi.
Qed.

Lemma stack_destroy_frees_all_witness :
  exists s : @State Z, runs demo_calls s /\ exists fl, freelist_destroy s = Ok fl /\ fl ≡ₚ [4096].
Proof.
  destruct demo_run as (s & H & Hi & Hh & Hd). exists s. split; [exact H|].
  rewrite <- Hd. exact (stack_destroy_frees_all Z demo_calls s H Hi Hh).
Defined.
