(* ===== verification/MsQueue.v ===== *)
(** * The lock-free queue

    The class template Queue of src/Concurrency/Queue_lockfree.cpp as a step relation: a step is
    one access of one thread to the shared memory, under sequential consistency, and carries the
    call or the return it makes.  The freelist is used by its contract (its accesses are those of
    [LockfreeStack.pool_step]): allocate takes any free node, a new one or null, deallocate adds
    one.  Nodes keep their memory, so that threads may read a node that was given back: its next
    pointer stays, its data is unspecified.

    The two tests [tail != tail2] and [head != head2] compare words of a class that has no such
    operator: both sides are converted to [bool], so that the tags are not compared. *)

From S2P Require Import Prelude TaggedPtr.
From stdpp Require Import gmap functions.
#[local] Open Scope Z_scope.

Section queue.
Context {T : Type}.

(** A node: its object, when it is alive, and the word [next]. *)
Record Node : Type := mkNode { n_data : option T; n_next : Z }.

(** Where a thread is: before the next access, with the local variables used after it. *)
Inductive Thread : Type :=
  | Idle
  | PushAlloc (v : T)                     (** [_pool.allocate()] *)
  | PushConstruct (v : T) (p : Z)         (** [_pool.construct(node_ptr, args...)] *)
  | PushTail (v : T) (p : Z)              (** [_tail.load()] *)
  | PushNext (v : T) (p t : Z)            (** [tail->next.load()] *)
  | PushTail2 (v : T) (p t nx : Z)        (** [_tail.load()], the second one *)
  | PushLink (v : T) (p t nx : Z)         (** L2 *)
  | PushSwing (p t : Z)                   (** L3 *)
  | PushHelp (v : T) (p t nx : Z)         (** L4 *)
  | PushDone (b : bool)
  | PopHead                               (** [_head.load()] *)
  | PopTail (h : Z)                       (** [_tail.load()] *)
  | PopNext (h t : Z)                     (** [head->next.load()] *)
  | PopHead2 (h t nx : Z)                 (** [_head.load()], the second one *)
  | PopHelp (h t nx : Z)                  (** the exchange of [_tail] *)
  | PopData (h nx : Z)                    (** [std::make_optional<T>(next->data)] *)
  | PopCas (h nx : Z) (v : T)             (** the exchange of [_head] *)
  | PopDestroy (v : T) (p : Z)            (** [_pool.destroy(old_head_ptr)] *)
  | PopFree (v : T) (p : Z)               (** [_pool.deallocate(old_head_ptr)] *)
  | PopDone (r : option T).

Inductive event : Type :=
  | CallPush (i : nat) (v : T) | RetPush (i : nat) (b : bool)
  | CallPop (i : nat) | RetPop (i : nat) (r : option T).

(** The memory, the free nodes, and the two words of the queue. *)
Record State : Type := mkState { nodes : gmap Z Node; pool : gset Z; head : Z; tail : Z; threads : nat -> Thread }.

(** The constructor: the dummy node, at any address, with the tag 0x5a5a; [d0] is the value [T()]. *)
Definition init (dummy : Z) (d0 : T) : State :=
  let w := make dummy 23130 in mkState {[dummy := mkNode (Some d0) (make 0 0)]} ∅ w w (fun _ => Idle).

Definition at_ (i : nat) (th : Thread) (s : State) : State :=
  mkState (nodes s) (pool s) (head s) (tail s) (<[i := th]> (threads s)).
Definition set_node (p : Z) (n : Node) (s : State) : State :=
  mkState (<[p := n]> (nodes s)) (pool s) (head s) (tail s) (threads s).
Definition set_pool (f : gset Z) (s : State) : State := mkState (nodes s) f (head s) (tail s) (threads s).
Definition set_head (w : Z) (s : State) : State := mkState (nodes s) (pool s) w (tail s) (threads s).
Definition set_tail (w : Z) (s : State) : State := mkState (nodes s) (pool s) (head s) w (threads s).

(** After the second load: the two words are compared as booleans. *)
Definition push_seen (v : T) (p t nx t2 : Z) : Thread :=
  if xorb (to_bool t) (to_bool t2) then PushTail v p
  else if negb (to_bool nx) then PushLink v p t nx else PushHelp v p t nx.

Definition pop_seen (h t nx h2 : Z) : Thread :=
  if xorb (to_bool h) (to_bool h2) then PopHead
  else if get_ptr h =? get_ptr t then (if to_bool nx then PopHelp h t nx else PopDone None)
  else if to_bool nx then PopData h nx else PopHead.

Inductive step (i : nat) (s : State) : option event -> State -> Prop :=
  (* push *)
  | push_call v : threads s i = Idle -> step i s (Some (CallPush i v)) (at_ i (PushAlloc v) s)
  | push_reuse v p : threads s i = PushAlloc v -> p ∈ pool s ->
      step i s None (at_ i (PushConstruct v p) (set_pool (pool s ∖ {[p]}) s))
  | push_new v p junk : threads s i = PushAlloc v -> nodes s !! p = None -> 0 < p < 2 ^ 48 ->
      step i s None (at_ i (PushConstruct v p) (set_node p junk s))
  | push_null v : threads s i = PushAlloc v -> step i s None (at_ i (PushDone false) s)
  | push_construct v p : threads s i = PushConstruct v p ->
      step i s None (at_ i (PushTail v p) (set_node p (mkNode (Some v) (make 0 0)) s))
  | push_tail v p : threads s i = PushTail v p -> step i s None (at_ i (PushNext v p (tail s)) s)
  | push_next v p t n : threads s i = PushNext v p t -> nodes s !! get_ptr t = Some n ->
      step i s None (at_ i (PushTail2 v p t (n_next n)) s)
  | push_tail2 v p t nx : threads s i = PushTail2 v p t nx ->
      step i s None (at_ i (push_seen v p t nx (tail s)) s)
  | push_link v p t nx n : threads s i = PushLink v p t nx -> nodes s !! get_ptr t = Some n -> n_next n = nx ->
      step i s None (at_ i (PushSwing p t) (set_node (get_ptr t) (mkNode (n_data n) (make p (next_tag nx))) s))
  | push_link_fail v p t nx : threads s i = PushLink v p t nx -> step i s None (at_ i (PushTail v p) s)
  | push_swing p t : threads s i = PushSwing p t -> tail s = t ->
      step i s None (at_ i (PushDone true) (set_tail (make p (next_tag t)) s))
  | push_swing_fail p t : threads s i = PushSwing p t -> tail s <> t -> step i s None (at_ i (PushDone true) s)
  | push_help v p t nx : threads s i = PushHelp v p t nx -> tail s = t ->
      step i s None (at_ i (PushTail v p) (set_tail (set_tag (next_tag t) nx) s))
  | push_help_fail v p t nx : threads s i = PushHelp v p t nx -> tail s <> t -> step i s None (at_ i (PushTail v p) s)
  | push_ret b : threads s i = PushDone b -> step i s (Some (RetPush i b)) (at_ i Idle s)
  (* pop *)
  | pop_call : threads s i = Idle -> step i s (Some (CallPop i)) (at_ i PopHead s)
  | pop_head : threads s i = PopHead -> step i s None (at_ i (PopTail (head s)) s)
  | pop_tail h : threads s i = PopTail h -> step i s None (at_ i (PopNext h (tail s)) s)
  | pop_next h t n : threads s i = PopNext h t -> nodes s !! get_ptr h = Some n ->
      step i s None (at_ i (PopHead2 h t (n_next n)) s)
  | pop_head2 h t nx : threads s i = PopHead2 h t nx -> step i s None (at_ i (pop_seen h t nx (head s)) s)
  | pop_help h t nx : threads s i = PopHelp h t nx -> tail s = t ->
      step i s None (at_ i PopHead (set_tail (set_tag (next_tag t) nx) s))
  | pop_help_fail h t nx : threads s i = PopHelp h t nx -> tail s <> t -> step i s None (at_ i PopHead s)
  | pop_data h nx n v : threads s i = PopData h nx -> nodes s !! get_ptr nx = Some n ->
      (n_data n = Some v \/ n_data n = None) -> step i s None (at_ i (PopCas h nx v) s)
  | pop_cas h nx v : threads s i = PopCas h nx v -> head s = h ->
      step i s None (at_ i (PopDestroy v (get_ptr h)) (set_head (set_tag (next_tag h) nx) s))
  | pop_cas_fail h nx v : threads s i = PopCas h nx v -> step i s None (at_ i PopHead s)
  | pop_destroy v p n : threads s i = PopDestroy v p -> nodes s !! p = Some n ->
      step i s None (at_ i (PopFree v p) (set_node p (mkNode None (n_next n)) s))
  | pop_free v p : threads s i = PopFree v p ->
      step i s None (at_ i (PopDone (Some v)) (set_pool ({[p]} ∪ pool s) s))
  | pop_ret r : threads s i = PopDone r -> step i s (Some (RetPop i r)) (at_ i Idle s).

(** Runs from an empty queue, with the calls and returns that were made. *)
Inductive runs (P : State -> Prop) (dummy : Z) (d0 : T) : list event -> State -> Prop :=
  | runs_init : runs P dummy d0 [] (init dummy d0)
  | runs_step tr s i l s' : runs P dummy d0 tr s -> step i s l s' -> P s' -> runs P dummy d0 (tr ++ option_list l) s'.

(** ** Executable steps *)

(** What the scheduler decides: the operation a thread calls, and what allocate returns. *)
Inductive choice : Type := Go | CPush (v : T) | CPop | CNew (p : Z) | CReuse (p : Z).

Definition act (i : nat) (c : choice) (s : State) : option (option event * State) :=
  match threads s i, c with
  | Idle, CPush v => Some (Some (CallPush i v), at_ i (PushAlloc v) s)
  | Idle, CPop => Some (Some (CallPop i), at_ i PopHead s)
  | PushAlloc v, CReuse p => if decide (p ∈ pool s) then Some (None, at_ i (PushConstruct v p) (set_pool (pool s ∖ {[p]}) s)) else None
  | PushAlloc v, CNew p =>
      if decide (nodes s !! p = None /\ 0 < p < 2 ^ 48)
      then Some (None, at_ i (PushConstruct v p) (set_node p (mkNode None (make 0 0)) s)) else None
  | PushAlloc v, Go => Some (None, at_ i (PushDone false) s)
  | PushConstruct v p, Go => Some (None, at_ i (PushTail v p) (set_node p (mkNode (Some v) (make 0 0)) s))
  | PushTail v p, Go => Some (None, at_ i (PushNext v p (tail s)) s)
  | PushNext v p t, Go => n ← nodes s !! get_ptr t; Some (None, at_ i (PushTail2 v p t (n_next n)) s)
  | PushTail2 v p t nx, Go => Some (None, at_ i (push_seen v p t nx (tail s)) s)
  | PushLink v p t nx, Go =>
      n ← nodes s !! get_ptr t;
      Some (None, if decide (n_next n = nx)
                  then at_ i (PushSwing p t) (set_node (get_ptr t) (mkNode (n_data n) (make p (next_tag nx))) s)
                  else at_ i (PushTail v p) s)
  | PushSwing p t, Go =>
      Some (None, at_ i (PushDone true) (if decide (tail s = t) then set_tail (make p (next_tag t)) s else s))
  | PushHelp v p t nx, Go =>
      Some (None, at_ i (PushTail v p) (if decide (tail s = t) then set_tail (set_tag (next_tag t) nx) s else s))
  | PushDone b, Go => Some (Some (RetPush i b), at_ i Idle s)
  | PopHead, Go => Some (None, at_ i (PopTail (head s)) s)
  | PopTail h, Go => Some (None, at_ i (PopNext h (tail s)) s)
  | PopNext h t, Go => n ← nodes s !! get_ptr h; Some (None, at_ i (PopHead2 h t (n_next n)) s)
  | PopHead2 h t nx, Go => Some (None, at_ i (pop_seen h t nx (head s)) s)
  | PopHelp h t nx, Go =>
      Some (None, at_ i PopHead (if decide (tail s = t) then set_tail (set_tag (next_tag t) nx) s else s))
  | PopData h nx, Go => n ← nodes s !! get_ptr nx; v ← n_data n; Some (None, at_ i (PopCas h nx v) s)
  | PopCas h nx v, Go =>
      Some (None, if decide (head s = h) then at_ i (PopDestroy v (get_ptr h)) (set_head (set_tag (next_tag h) nx) s)
                  else at_ i PopHead s)
  | PopDestroy v p, Go => n ← nodes s !! p; Some (None, at_ i (PopFree v p) (set_node p (mkNode None (n_next n)) s))
  | PopFree v p, Go => Some (None, at_ i (PopDone (Some v)) (set_pool ({[p]} ∪ pool s) s))
  | PopDone r, Go => Some (Some (RetPop i r), at_ i Idle s)
  | _, _ => None
  end.

(** A pop without other threads, after its call: at most one round that moves [_tail], of 5 steps,
    and one of 9 steps that returns. *)
Fixpoint pop_alone (fuel i : nat) (s : State) : option (option T * State) :=
  match fuel with
  | O => None
  | S fuel' =>
      '(l, s') ← act i Go s;
      match l with Some (RetPop _ r) => Some (r, s') | _ => pop_alone fuel' i s' end
  end.

(** The destructor: pop until there is no value. *)
Fixpoint destroy_queue (fuel i : nat) (s : State) : option State :=
  match fuel with
  | O => None
  | S fuel' =>
      '(_, s1) ← act i CPop s;
      '(r, s2) ← pop_alone 14 i s1;
      match r with Some _ => destroy_queue fuel' i s2 | None => Some s2 end
  end.

(** ** The atomic queue *)

Inductive AThread : Type :=
  | AIdle | APush (v : T) | APushed (b : bool) | APop | APopped (r : option T).

Record AState : Type := mkAState { aqueue : list T; athreads : nat -> AThread }.

Definition ainit : AState := mkAState [] (fun _ => AIdle).

Definition a_at (i : nat) (th : AThread) (q : list T) (a : AState) : AState := mkAState q (<[i := th]> (athreads a)).

(** An operation takes effect in one step between its call and its return.  A push without memory
    fails. *)
Inductive astep (i : nat) (a : AState) : option event -> AState -> Prop :=
  | a_push_call v : athreads a i = AIdle -> astep i a (Some (CallPush i v)) (a_at i (APush v) (aqueue a) a)
  | a_push v : athreads a i = APush v -> astep i a None (a_at i (APushed true) (aqueue a ++ [v]) a)
  | a_push_fails v : athreads a i = APush v -> astep i a None (a_at i (APushed false) (aqueue a) a)
  | a_push_ret b : athreads a i = APushed b -> astep i a (Some (RetPush i b)) (a_at i AIdle (aqueue a) a)
  | a_pop_call : athreads a i = AIdle -> astep i a (Some (CallPop i)) (a_at i APop (aqueue a) a)
  | a_pop : athreads a i = APop ->
      astep i a None (a_at i (APopped (hd_error (aqueue a))) (List.tl (aqueue a)) a)
  | a_pop_ret r : athreads a i = APopped r -> astep i a (Some (RetPop i r)) (a_at i AIdle (aqueue a) a).

Inductive aruns : list event -> AState -> Prop :=
  | aruns_init : aruns [] ainit
  | aruns_step tr a i l a' : aruns tr a -> astep i a l a' -> aruns (tr ++ option_list l) a'.
End queue.
