(* ===== verification/MsQueueProps.v ===== *)
(** * The lock-free queue: linearizable as long as no node in use is recycled

    The invariant relates the nodes between [_head] and the end of the list with an atomic queue.
    It needs that allocate does not return a node that another thread still has as its [head] or
    [tail]; the second part is a run in which this happens and a pop fails on a queue that is not
    empty. *)

From S2P Require Import Prelude.
From stdpp Require Import gmap functions list.
From S2P Require Import TaggedPtr MsQueue.
#[local] Open Scope Z_scope.

Section queue.
Context {T : Type}.
Implicit Types (m : gmap Z (@Node T)) (th : @Thread T) (ath : @AThread T) (s : @State T) (a : @AState T) (L : list Z).

(** ** What the threads own and refer to *)

(** The node of a push that is not linked yet. *)
Definition pushing th : option Z :=
  match th with
  | PushConstruct _ p | PushTail _ p | PushNext _ p _ | PushTail2 _ p _ _ | PushLink _ p _ _ | PushHelp _ p _ _ => Some p
  | _ => None
  end.

(** The node that a thread has to itself. *)
Definition owned th : option Z :=
  match th with PopDestroy _ p | PopFree _ p => Some p | _ => pushing th end.

(** The node a thread has read as the tail (push) or as the head (pop). *)
Definition refers th : option Z :=
  match th with
  | PushNext _ _ t | PushTail2 _ _ t _ | PushLink _ _ t _ | PushSwing _ t | PushHelp _ _ t _ => Some (get_ptr t)
  | PopTail h | PopNext h _ | PopHead2 h _ _ | PopHelp h _ _ | PopData h _ | PopCas h _ _ => Some (get_ptr h)
  | _ => None
  end.

(** No node that was allocated for a push is one that a thread still refers to. *)
Definition unshared s : Prop := forall i j p, pushing (threads s i) = Some p -> refers (threads s j) <> Some p.

(** ** The list *)

Fixpoint chain m L : Prop :=
  match L with
  | [] => False
  | [p] => exists n, m !! p = Some n /\ get_ptr (n_next n) = 0
  | p :: (q :: _) as L' => (exists n, m !! p = Some n /\ get_ptr (n_next n) = q) /\ chain m L'
  end.

Definition next_is m (p x : Z) : Prop := exists n, m !! p = Some n /\ get_ptr (n_next n) = x.
Definition data_is m (p : Z) (v : T) : Prop := exists n, m !! p = Some n /\ n_data n = Some v.

(** A node that was taken from the list: its next pointer stays. *)
Definition dead m L (q : Z) : Prop := (q ∉ L) /\ exists x, next_is m q x /\ x <> 0.

Definition tref m L (q : Z) : Prop := q ∈ L \/ dead m L q.
Definition href m L (q : Z) : Prop := hd_error L = Some q \/ dead m L q.

Lemma chain_cons m p q L : chain m (p :: q :: L) <-> next_is m p q /\ chain m (q :: L).
Proof. done. Qed.

Lemma chain_one m p : chain m [p] <-> next_is m p 0.
Proof. done. Qed.

Lemma chain_elem m L p : chain m L -> p ∈ L -> exists x, next_is m p x.
Proof.
  induction L as [|q [|r L] IH]; [done| |].
  - intros H Hp. apply list_elem_of_singleton in Hp as ->. by exists 0.
  - rewrite chain_cons. intros [Hq Hc] Hp. apply elem_of_cons in Hp as [->|Hp]; [by exists r | by apply IH].
Qed.

(** The successor of a node of the list is in the list, behind its head. *)
Lemma chain_next m L p x : chain m L -> NoDup L -> p ∈ L -> next_is m p x -> x <> 0 -> x ∈ L /\ hd_error L <> Some x.
Proof.
  induction L as [|q [|r L] IH]; [done| |].
  - intros (n & Hn & E) _ Hp (n' & Hn' & E') Hx. apply list_elem_of_singleton in Hp as ->. congruence.
  - rewrite chain_cons. intros [(n & Hn & E) Hc] Hd Hp (n' & Hn' & E') Hx. apply NoDup_cons in Hd as [Hq Hd].
    apply elem_of_cons in Hp as [->|Hp].
    + assert (x = r) as -> by congruence. split; [right; left|]. cbn. intros [= ->]. by destruct Hq; left.
    + destruct (IH Hc Hd Hp) as [H1 _]; [by exists n' | done|]. split; [by right|]. cbn. intros [= ->]. by apply Hq.
Qed.

(** Only the last node has no successor. *)
Lemma chain_last m L p : chain m L -> (0 ∉ L) -> p ∈ L -> next_is m p 0 -> exists L', L = L' ++ [p].
Proof.
  induction L as [|q [|r L] IH]; [done| |].
  - intros _ _ Hp _. apply list_elem_of_singleton in Hp as ->. by exists [].
  - rewrite chain_cons. intros [(n & Hn & E) Hc] H0 Hp (n' & Hn' & E'). apply elem_of_cons in Hp as [->|Hp].
    + assert (r = 0) as -> by congruence. destruct H0. right. left.
    + destruct IH as [L' E2]; [done | intros Hz; apply H0; by right | done | by exists n'|].
      exists (q :: L'). by rewrite E2.
Qed.

(** Changes of nodes outside of the list, and of what is not the next pointer. *)
Lemma chain_frame m m' L : (forall p x, p ∈ L -> next_is m p x -> next_is m' p x) -> chain m L -> chain m' L.
Proof.
  induction L as [|q [|r L] IH]; [done| |].
  - intros H. rewrite !chain_one. apply H. left.
  - intros H. rewrite !chain_cons. intros [Hq Hc]. split; [apply H; [left | done]|]. apply IH; [|done].
    intros p x Hp. apply H. by right.
Qed.

Lemma next_write m p q n x : p <> q -> next_is m q x -> next_is (<[p := n]> m) q x.
Proof. intros Hne (k & Hk & E). exists k. by rewrite lookup_insert_ne. Qed.

Lemma data_write m p q n v : p <> q -> data_is m q v -> data_is (<[p := n]> m) q v.
Proof. intros Hne (k & Hk & E). exists k. by rewrite lookup_insert_ne. Qed.

(** The end of the list gets a node. *)
Lemma chain_snoc m L t p nt np : chain m (L ++ [t]) -> (p ∉ L ++ [t]) -> NoDup (L ++ [t]) ->
  get_ptr (n_next nt) = p -> m !! p = Some np -> get_ptr (n_next np) = 0 -> chain (<[t := nt]> m) (L ++ [t; p]).
Proof.
  intros Hc Hp Hd Ht Hnp E. assert (t <> p) by (intros ->; apply Hp, elem_of_app; right; left).
  induction L as [|q L IH]; cbn [app] in *.
  - rewrite chain_cons, chain_one. split; [exists nt; by rewrite lookup_insert_eq|]. exists np. by rewrite lookup_insert_ne.
  - apply NoDup_cons in Hd as [Hq Hd]. assert (q <> t) by (intros ->; apply Hq, elem_of_app; right; left).
    assert (p ∉ L ++ [t]) by (intros Hin; apply Hp; by right).
    destruct L as [|r L]; cbn [app] in *.
    + destruct Hc as [(n & Hn & E2) Hc]. rewrite !chain_cons. split; [exists n; by rewrite lookup_insert_ne | by apply IH].
    + destruct Hc as [(n & Hn & E2) Hc]. rewrite chain_cons. split; [exists n; by rewrite lookup_insert_ne | by apply IH].
Qed.

(** ** The invariant *)

(** What a thread knows, with the word [tw] of [_tail]. *)
Definition fresh m (p : Z) (v : T) : Prop := next_is m p 0 /\ data_is m p v.
Definition saw m (w nx : Z) : Prop := get_ptr nx <> 0 -> next_is m (get_ptr w) (get_ptr nx).
Definition behind L (tw h : Z) : Prop := hd_error L = Some (get_ptr h) -> get_ptr tw <> get_ptr h.

Definition thread_ok m (tw : Z) L th ath : Prop :=
  match th with
  | Idle => ath = AIdle
  | PushAlloc v | PushConstruct v _ => ath = APush v
  | PushTail v p => ath = APush v /\ fresh m p v
  | PushNext v p t => ath = APush v /\ fresh m p v /\ tref m L (get_ptr t)
  | PushTail2 v p t nx => ath = APush v /\ fresh m p v /\ tref m L (get_ptr t) /\ saw m t nx
  | PushLink v p t nx => ath = APush v /\ fresh m p v /\ tref m L (get_ptr t) /\ get_ptr nx = 0
  | PushHelp v p t nx => ath = APush v /\ fresh m p v /\ tref m L (get_ptr t) /\ saw m t nx /\ get_ptr nx <> 0
  | PushSwing p t => ath = APushed true /\ tref m L (get_ptr t) /\ next_is m (get_ptr t) p /\ 0 < p < 2 ^ 48
  | PushDone b => ath = APushed b
  | PopHead => ath = APop
  | PopTail h => ath = APop /\ href m L (get_ptr h)
  | PopNext h t => ath = APop /\ href m L (get_ptr h) /\ (get_ptr h <> get_ptr t -> behind L tw h)
  | PopHead2 h t nx =>
      ath = (if (get_ptr h =? get_ptr t) && (get_ptr nx =? 0) then APopped None else APop) /\
      href m L (get_ptr h) /\ saw m h nx /\ (get_ptr h <> get_ptr t -> behind L tw h)
  | PopHelp h t nx => ath = APop /\ href m L (get_ptr h) /\ saw m h nx /\ get_ptr h = get_ptr t /\ get_ptr nx <> 0
  | PopData h nx => ath = APop /\ href m L (get_ptr h) /\ saw m h nx /\ get_ptr nx <> 0 /\ behind L tw h
  | PopCas h nx v => ath = APop /\ href m L (get_ptr h) /\ saw m h nx /\ get_ptr nx <> 0 /\ behind L tw h /\
      (hd_error L = Some (get_ptr h) -> data_is m (get_ptr nx) v)
  | PopDestroy v _ | PopFree v _ => ath = APopped (Some v)
  | PopDone r => ath = APopped r
  end.

(** Every node is in the list, free, or owned by one thread. *)
Record parted m (ths : nat -> @Thread T) (pl : gset Z) L : Prop := {
  p_nodup : NoDup L;
  p_range p : is_Some (m !! p) -> 0 < p < 2 ^ 48;
  p_pool p : p ∈ pl -> (p ∉ L) /\ is_Some (m !! p);
  p_owned i p : owned (ths i) = Some p -> (p ∉ L) /\ (p ∉ pl) /\ is_Some (m !! p);
  p_owner i j p : owned (ths i) = Some p -> owned (ths j) = Some p -> i = j;
}.

Record inv_with s a L : Prop := {
  i_chain : chain (nodes s) L;
  i_head : hd_error L = Some (get_ptr (head s));
  i_tail : get_ptr (tail s) ∈ L;
  i_parted : parted (nodes s) (threads s) (pool s) L;
  i_values : Forall2 (data_is (nodes s)) (List.tl L) (aqueue a);
  i_threads i : thread_ok (nodes s) (tail s) L (threads s i) (athreads a i);
}.

Definition inv s a : Prop := exists L, inv_with s a L.

(** A thread keeps what it knows when the rest of the state changes. *)
Record framed m m' (tw tw' : Z) L L' th : Prop := {
  f_push p : pushing th = Some p -> m' !! p = m !! p;
  f_tref q : refers th = Some q -> tref m L q -> tref m' L' q;
  f_href q : refers th = Some q -> href m L q -> href m' L' q;
  f_next q x : refers th = Some q -> x <> 0 -> next_is m q x -> next_is m' q x;
  f_hd q : refers th = Some q -> href m L q -> hd_error L' = Some q -> hd_error L = Some q;
  f_tail q : refers th = Some q -> hd_error L' = Some q -> hd_error L = Some q -> get_ptr tw <> q -> get_ptr tw' <> q;
  f_data q x v : refers th = Some q -> hd_error L' = Some q -> hd_error L = Some q -> x <> 0 -> next_is m q x ->
    data_is m x v -> data_is m' x v;
}.

Lemma frame_fresh m m' tw tw' L L' th p v : framed m m' tw tw' L L' th -> pushing th = Some p -> fresh m p v -> fresh m' p v.
Proof. intros F Hp. unfold fresh, next_is, data_is. by rewrite (f_push _ _ _ _ _ _ _ F p Hp). Qed.

Lemma frame_saw m m' tw tw' L L' th w nx : framed m m' tw tw' L L' th -> refers th = Some (get_ptr w) -> saw m w nx -> saw m' w nx.
Proof. intros F Hr Hs Hn. eapply f_next; [exact F | done | done | by apply Hs]. Qed.

Lemma frame_behind m m' tw tw' L L' th h : framed m m' tw tw' L L' th -> refers th = Some (get_ptr h) ->
  href m L (get_ptr h) -> behind L tw h -> behind L' tw' h.
Proof.
  intros F Hr Hh Hb Hd. pose proof (f_hd _ _ _ _ _ _ _ F _ Hr Hh Hd) as Hd0.
  eapply f_tail; [exact F | done | done | done | by apply Hb].
Qed.

Lemma thread_frame m m' tw tw' L L' th ath : framed m m' tw tw' L L' th ->
  thread_ok m tw L th ath -> thread_ok m' tw' L' th ath.
Proof.
  intros F. pose proof (f_tref _ _ _ _ _ _ _ F) as Ht.
  pose proof (f_href _ _ _ _ _ _ _ F) as Hh.
  destruct th; cbn [thread_ok]; try done.
  - intros (-> & H). split; [done|]. by eapply frame_fresh.
  - intros (-> & H1 & H2). split_and!; [done | by eapply frame_fresh | by apply Ht].
  - intros (-> & H1 & H2 & H3). split_and!; [done | by eapply frame_fresh | by apply Ht | by eapply frame_saw].
  - intros (-> & H1 & H2 & H3). split_and!; [done | by eapply frame_fresh | by apply Ht | done].
  - intros (-> & H1 & H2 & H3). split_and!; [done | by apply Ht | | lia | lia]. eapply f_next; [exact F | done | lia | done].
  - intros (-> & H1 & H2 & H3 & H4). split_and!; [done | by eapply frame_fresh | by apply Ht | by eapply frame_saw | done].
  - intros (-> & H1). split; [done | by apply Hh].
  - intros (-> & H1 & H2). split_and!; [done | by apply Hh |]. intros Hne. eapply frame_behind; eauto.
  - intros (-> & H1 & H2 & H3). split_and!; [done | by apply Hh | by eapply frame_saw |]. intros Hne. eapply frame_behind; eauto.
  - intros (-> & H1 & H2 & H3 & H4). split_and!; [done | by apply Hh | by eapply frame_saw | done | done].
  - intros (-> & H1 & H2 & H3 & H4). split_and!; [done | by apply Hh | by eapply frame_saw | done |]. by eapply frame_behind.
  - intros (-> & H1 & H2 & H3 & H4 & H5). split_and!; [done | by apply Hh | by eapply frame_saw | done | by eapply frame_behind |].
    intros Hd. pose proof (f_hd _ _ _ _ _ _ _ F _ eq_refl H1 Hd) as Hd0.
    eapply f_data; [exact F | done | done | done | done | by apply H2 | by apply H5].
Qed.

(** ** Changes of the state *)

Lemma frame_same m tw L th : framed m m tw tw L L th.
Proof. by split. Qed.

Lemma frame_tail m tw tw' L th : hd_error L <> Some (get_ptr tw') -> framed m m tw tw' L L th.
Proof. intros Hne. split; try done. intros q _ Hq _ _ E. congruence. Qed.

(** A node outside of the list is written, that the thread does not refer to or that keeps its next
    pointer. *)
Lemma frame_write m tw L th p n : chain m L -> NoDup L -> (p ∉ L) -> pushing th <> Some p ->
  (refers th <> Some p \/ exists x, next_is m p x /\ get_ptr (n_next n) = x) -> framed m (<[p := n]> m) tw tw L L th.
Proof.
  intros Hc Hd Hp Hpu Hr.
  assert (forall q x, refers th = Some q -> next_is m q x -> next_is (<[p := n]> m) q x) as Hn.
  { intros q x Hq Hx. destruct (decide (p = q)) as [->|Hne]; [|by apply next_write].
    destruct Hr as [Hr|(y & Hy & E)]; [by destruct Hr|]. exists n. rewrite lookup_insert_eq. split; [done|].
    destruct Hx as (k & Hk & <-), Hy as (k' & Hk' & E'). congruence. }
  split; try done.
  - intros p' Hp'. apply lookup_insert_ne. congruence.
  - intros q Hq [H|(H & x & Hx & H0)]; [by left|]. right. split; [done|]. exists x. split; [by apply Hn | done].
  - intros q Hq [H|(H & x & Hx & H0)]; [by left|]. right. split; [done|]. exists x. split; [by apply Hn | done].
  - intros q x Hq H0 Hx. by apply Hn.
  - intros q x v Hq Hh _ H0 Hx. apply data_write. intros ->.
    apply Hp, (chain_next m L q x Hc Hd); [by destruct L as [|? ?]; [|injection Hh as ->; left] | done | done].
Qed.

(** The last node [t] gets the successor [p]. *)
Lemma frame_link m tw L th t p n n' : m !! t = Some n -> n_data n' = n_data n -> get_ptr (n_next n) = 0 -> t ∈ L ->
  (forall p', pushing th = Some p' -> p' ∉ L) -> refers th <> Some p -> framed m (<[t := n']> m) tw tw L (L ++ [p]) th.
Proof.
  intros Hn Hd H0 Ht Hpu Hr. assert (hd_error (L ++ [p]) = hd_error L) as Eh by (destruct L; [by apply elem_of_nil in Ht | done]).
  assert (forall q x, x <> 0 -> next_is m q x -> next_is (<[t := n']> m) q x) as Hnx.
  { intros q x Hx Hq. destruct (decide (t = q)) as [<-|Hne]; [|by apply next_write].
    destruct Hq as (k & Hk & E). congruence. }
  assert (forall q, refers th = Some q -> dead m L q -> dead (<[t := n']> m) (L ++ [p]) q) as Hdead.
  { intros q Hq (H & x & Hx & Hx0). split.
    - rewrite elem_of_app, list_elem_of_singleton. intros [| ->]; [done | by apply Hr].
    - exists x. split; [by apply Hnx | done]. }
  split; try done.
  - intros p' Hp'. apply lookup_insert_ne. intros ->. by apply (Hpu p').
  - intros q Hq [H|H]; [left; apply elem_of_app; by left | right; by apply Hdead].
  - intros q Hq [H|H]; [left; congruence | right; by apply Hdead].
  - intros q x Hq. apply Hnx.
  - intros q Hq Hh. congruence.
  - intros q x v _ _ _ _ _ (k & Hk & E). destruct (decide (t = x)) as [<-|Hne].
    + exists n'. rewrite lookup_insert_eq. split; [done | congruence].
    + exists k. by rewrite lookup_insert_ne.
Qed.

(** The head [h] is taken from the list. *)
Lemma frame_pop m tw L th h x : NoDup (h :: L) -> next_is m h x -> x <> 0 -> framed m m tw tw (h :: L) L th.
Proof.
  intros Hd Hx H0. apply NoDup_cons in Hd as [Hh _].
  assert (forall q, dead m (h :: L) q -> dead m L q) as Hdead by (intros q (H & Hq); split; [intros Hin; apply H; by right | done]).
  assert (dead m L h) by (split; [done | by exists x]).
  assert (forall q, href m (h :: L) q -> dead m L q) as Hhref by (intros q [E|H']; [injection E as <-; done | by apply Hdead]).
  split; try done.
  - intros q _ [[->|Hin]%elem_of_cons|H']; [by right | by left | right; by apply Hdead].
  - intros q _ H'. right. by apply Hhref.
  - intros q _ H' Hq. destruct (Hhref q H') as [Hn _]. destruct Hn. destruct L; [done|]. injection Hq as ->. left.
Qed.

(** *** Who has which node *)

Lemma owned_insert (ths : nat -> @Thread T) i th' j : owned (<[i := th']> ths j) = if decide (j = i) then owned th' else owned (ths j).
Proof. destruct (decide (j = i)) as [->|Hne]; [by rewrite fn_lookup_insert | by rewrite fn_lookup_insert_ne]. Qed.

Lemma parted_same m ths pl L i th' : parted m ths pl L -> owned th' = owned (ths i) -> parted m (<[i := th']> ths) pl L.
Proof.
  intros [H1 H2 H3 H4 H5] E.
  assert (forall j, owned (<[i := th']> ths j) = owned (ths j)) as Ho by (intros j; rewrite owned_insert; case_decide; congruence).
  split; try done; intros *; rewrite !Ho; [apply H4 | apply H5].
Qed.

(** A node is written. *)
Lemma q_parted_write m ths pl L p n : parted m ths pl L -> 0 < p < 2 ^ 48 -> parted (<[p := n]> m) ths pl L.
Proof.
  intros [H1 H2 H3 H4 H5] Hp. assert (forall q, is_Some (m !! q) -> is_Some (<[p := n]> m !! q)) as Hs.
  { intros q Hq. destruct (decide (p = q)) as [->|]; [rewrite lookup_insert_eq; eauto | by rewrite lookup_insert_ne]. }
  split; try done.
  - intros q. destruct (decide (p = q)) as [->|]; [done | rewrite lookup_insert_ne by done; apply H2].
  - intros q Hq. destruct (H3 q Hq). split; auto.
  - intros i q Hq. destruct (H4 i q Hq) as (? & ? & ?). split_and!; auto.
Qed.

(** Thread [i], which owned nothing, gets a node that nobody has. *)
Lemma q_parted_take m ths pl pl' L L' i th' p : parted m ths pl L -> owned (ths i) = None -> owned th' = Some p ->
  NoDup L' -> L' ⊆ L -> pl' ⊆ pl -> (p ∉ L') -> (p ∉ pl') -> is_Some (m !! p) -> (forall j, owned (ths j) <> Some p) ->
  parted m (<[i := th']> ths) pl' L'.
Proof.
  intros [H1 H2 H3 H4 H5] Hi Hp Hd HL Hpl Hl' Hp' Hs Hno. split; try done.
  - intros q Hq. destruct (H3 q (Hpl q Hq)) as [Hq1 Hq2]. split; [intros Hin; by apply Hq1, HL | done].
  - intros j q. rewrite owned_insert. case_decide.
    + intros E. assert (q = p) as -> by congruence. done.
    + intros E. destruct (H4 j q E) as (Hq1 & Hq2 & Hq3). split_and!; [intros Hin; by apply Hq1, HL | intros Hin; by apply Hq2, Hpl | done].
  - intros j k q. rewrite !owned_insert. repeat case_decide; intros E1 E2; try congruence. by eapply H5.
Qed.

(** Thread [i] gives its node to the list or to the free nodes. *)
Lemma q_parted_give m ths pl pl' L L' i th' p : parted m ths pl L -> owned (ths i) = Some p -> owned th' = None ->
  (forall q, q ∈ L' -> q ∈ L \/ q = p) -> (forall q, q ∈ pl' -> q ∈ pl \/ q = p) -> NoDup L' ->
  (forall q, q ∈ pl' -> q ∉ L') -> parted m (<[i := th']> ths) pl' L'.
Proof.
  intros [H1 H2 H3 H4 H5] Hi Hn HL Hpl Hd Hdis. destruct (H4 i p Hi) as (_ & _ & Hs). split; try done.
  - intros q Hq. split; [by apply Hdis|]. destruct (Hpl q Hq) as [Hq'| ->]; [by apply H3 | done].
  - intros j q. rewrite owned_insert. case_decide; [congruence|]. intros E. destruct (H4 j q E) as (H6 & H7 & H8).
    assert (q <> p) by (intros ->; pose proof (H5 _ _ _ E Hi); congruence). split_and!; [| |done].
    + intros Hin. by destruct (HL q Hin).
    + intros Hin. by destruct (Hpl q Hin).
  - intros j k q. rewrite !owned_insert. repeat case_decide; try congruence. apply H5.
Qed.

(** ** The steps *)

Lemma inv_gen s a L i th' a' m' pl' hw' tw' L' : inv_with s a L ->
  (forall j, j <> i -> athreads a' j = athreads a j) ->
  (forall j, j <> i -> framed (nodes s) m' (tail s) tw' L L' (threads s j)) ->
  chain m' L' -> hd_error L' = Some (get_ptr hw') -> get_ptr tw' ∈ L' -> parted m' (<[i := th']> (threads s)) pl' L' ->
  Forall2 (data_is m') (List.tl L') (aqueue a') -> thread_ok m' tw' L' th' (athreads a' i) ->
  inv_with (mkState m' pl' hw' tw' (<[i := th']> (threads s))) a' L'.
Proof.
  intros H Ha Hf Hc Hh Ht Hp Hv Hi. split; cbn; try done. intros j. destruct (decide (j = i)) as [->|Hne].
  - by rewrite fn_lookup_insert.
  - rewrite fn_lookup_insert_ne, Ha by done. eapply thread_frame; [by apply Hf | apply (i_threads s a L H)].
Qed.

(** The thread alone moves. *)
Lemma q_inv_local s a L i th' a' : inv_with s a L -> (forall j, j <> i -> athreads a' j = athreads a j) -> aqueue a' = aqueue a ->
  owned th' = owned (threads s i) -> thread_ok (nodes s) (tail s) L th' (athreads a' i) -> inv_with (at_ i th' s) a' L.
Proof.
  intros H Ha Hq Ho Hi. pose proof H as [H1 H2 H3 H4 H5 H6]. apply (inv_gen s a L); try done.
  - by apply parted_same.
  - by rewrite Hq.
Qed.

Lemma a_at_same i ath q a : athreads (a_at i ath q a) i = ath.
Proof. apply fn_lookup_insert. Qed.
Lemma a_at_other i ath q a j : j <> i -> athreads (a_at i ath q a) j = athreads a j.
Proof. intros. by apply fn_lookup_insert_ne. Qed.

(** The state follows with the same, or with one step of, the atomic queue. *)
Definition follows i (l : option (@event T)) a s' : Prop := exists a', (l = None /\ a' = a \/ astep i a l a') /\ inv s' a'.

Lemma follows_stay i a s' L : inv_with s' a L -> follows i None a s'.
Proof. intros H. exists a. split; [by left | by exists L]. Qed.

Lemma follows_step i l a a' s' L : astep i a l a' -> inv_with s' a' L -> follows i l a s'.
Proof. intros Hs H. exists a'. split; [by right | by exists L]. Qed.

Lemma chain_some m L p : chain m L -> p ∈ L -> is_Some (m !! p).
Proof. intros Hc Hp. destruct (chain_elem m L p Hc Hp) as (x & n & -> & _). by eexists. Qed.

Lemma hd_in L p : hd_error L = Some p -> p ∈ L.
Proof. destruct L; [done|]. intros E. injection E as ->. left. Qed.

Lemma zero_not_in m ths pl L : parted m ths pl L -> chain m L -> 0 ∉ L.
Proof. intros Hp Hc H0. pose proof (p_range _ _ _ _ Hp 0 (chain_some m L 0 Hc H0)). lia. Qed.

(** The node a thread refers to has its memory. *)
Lemma refers_some s a L i q : inv_with s a L -> refers (threads s i) = Some q -> is_Some (nodes s !! q).
Proof.
  intros H Hr. pose proof (i_threads s a L H i) as Hok. pose proof (i_chain s a L H) as Hc.
  assert (forall q, tref (nodes s) L q -> is_Some (nodes s !! q)) as Ht.
  { intros q' [Hq|(_ & x & (n & -> & _) & _)]; [by apply (chain_some _ L) | by eexists]. }
  assert (forall q, href (nodes s) L q -> is_Some (nodes s !! q)) as Hh.
  { intros q' [Hq|(_ & x & (n & -> & _) & _)]; [by apply (chain_some _ L), hd_in | by eexists]. }
  destruct (threads s i); cbn in *; try done; injection Hr as <-; (apply Ht; tauto) || (apply Hh; tauto).
Qed.

Lemma values_frame m m' (l : list Z) (q : list T) : (forall p v, p ∈ l -> data_is m p v -> data_is m' p v) ->
  Forall2 (data_is m) l q -> Forall2 (data_is m') l q.
Proof.
  intros Hd Hf. induction Hf as [|p v l q Hp Hf IH]; constructor; [apply Hd; [left | done]|].
  apply IH. intros p' v' Hp'. apply Hd. by right.
Qed.

Lemma tl_in L (p : Z) : p ∈ List.tl L -> p ∈ L.
Proof. destruct L; [done|]. by right. Qed.

Section steps.
Context (s : @State T) (a : @AState T) (L : list Z) (i : nat).
Hypothesis H : inv_with s a L.

#[local] Ltac start Hi Hok := pose proof (i_threads s a L H i) as Hok; rewrite Hi in Hok; cbn in Hok.
#[local] Ltac local_ Hi := apply (q_inv_local s a L i); [exact H | try done | try done | by rewrite Hi |].

Lemma sim_push_reuse v p : threads s i = PushAlloc v -> p ∈ pool s ->
  follows i None a (at_ i (PushConstruct v p) (set_pool (pool s ∖ {[p]}) s)).
Proof.
  intros Hi Hp. start Hi Hok. pose proof H as [H1 H2 H3 H4 H5 H6]. apply (follows_stay _ _ _ L).
  apply (inv_gen s a L); cbn [nodes pool head tail threads at_ set_pool set_node set_head set_tail]; try done. destruct (p_pool _ _ _ _ H4 p Hp) as [Hl Hs].
  apply (q_parted_take _ _ (pool s) _ L _ _ _ p); try done.
  - by rewrite Hi.
  - apply (p_nodup _ _ _ _ H4).
  - intros q Hq. by apply elem_of_difference in Hq as [? _].
  - rewrite elem_of_difference, elem_of_singleton. tauto.
  - intros j Hj. by destruct (p_owned _ _ _ _ H4 j p Hj) as (_ & Hn & _).
Qed.

Lemma sim_push_new v p junk : threads s i = PushAlloc v -> nodes s !! p = None -> 0 < p < 2 ^ 48 ->
  follows i None a (at_ i (PushConstruct v p) (set_node p junk s)).
Proof.
  intros Hi Hp Hr. start Hi Hok. pose proof H as [H1 H2 H3 H4 H5 H6]. apply (follows_stay _ _ _ L).
  assert (p ∉ L) as Hl by (intros Hin; destruct (chain_some _ L p H1 Hin); congruence).
  assert (forall q, is_Some (nodes s !! q) -> p <> q) as Hne by (intros q [n Hn] ->; congruence).
  apply (inv_gen s a L); cbn [nodes pool head tail threads at_ set_pool set_node set_head set_tail]; try done.
  - intros j Hj. apply frame_write; try done; [apply (p_nodup _ _ _ _ H4) | |].
    + intros E. assert (owned (threads s j) = Some p) as E' by (by destruct (threads s j)).
      destruct (p_owned _ _ _ _ H4 j p E') as (_ & _ & Hs). by apply (Hne p Hs).
    + left. intros E. by apply (Hne p (refers_some s a L j p H E)).
  - eapply chain_frame; [|exact H1]. intros q x Hq Hx. apply next_write; [|done]. by apply Hne, (chain_some _ L).
  - apply (q_parted_take _ (threads s) (pool s) _ L _ _ _ p); try done.
    + by apply q_parted_write.
    + by rewrite Hi.
    + apply (p_nodup _ _ _ _ H4).
    + intros Hin. destruct (p_pool _ _ _ _ H4 p Hin) as [_ Hs]. by apply (Hne p Hs).
    + rewrite lookup_insert_eq. by eexists.
    + intros j Hj. destruct (p_owned _ _ _ _ H4 j p Hj) as (_ & _ & Hs). by apply (Hne p Hs).
  - eapply Forall2_impl; [exact H5|]. intros q w (n & Hn & E). exists n. rewrite lookup_insert_ne; [done | apply Hne; by eexists].
Qed.

#[local] Ltac gen := apply (inv_gen s a L); cbn [nodes pool head tail threads at_ set_pool set_node set_head set_tail]; try done.

Lemma pushing_owned th p : pushing th = Some p -> owned th = Some p.
Proof. by destruct th. Qed.

Lemma sim_construct v p : unshared s -> threads s i = PushConstruct v p ->
  follows i None a (at_ i (PushTail v p) (set_node p (mkNode (Some v) (make 0 0)) s)).
Proof.
  intros Hun Hi. start Hi Hok. pose proof H as [H1 H2 H3 H4 H5 H6]. apply (follows_stay _ _ _ L).
  destruct (p_owned _ _ _ _ H4 i p) as (Hl & Hpl & Hs); [by rewrite Hi|].
  assert (forall q, q ∈ L -> p <> q) as Hne by (intros q Hq ->; done). gen.
  - intros j Hj. apply frame_write; try done; [apply (p_nodup _ _ _ _ H4) | |].
    + intros E%pushing_owned. apply Hj, (p_owner _ _ _ _ H4 j i p); [done | by rewrite Hi].
    + left. apply (Hun i). by rewrite Hi.
  - eapply chain_frame; [|exact H1]. intros q x Hq Hx. apply next_write; [by apply Hne | done].
  - apply parted_same; [|by rewrite Hi]. apply q_parted_write; [done | by apply (p_range _ _ _ _ H4)].
  - eapply values_frame; [|exact H5]. intros q w Hq. apply data_write. by apply Hne, tl_in.
  - split; [done|]. split; eexists; (split; [apply lookup_insert_eq|]); [|done]. cbn. apply get_ptr_make. lia.
Qed.

Lemma sim_push_tail v p : threads s i = PushTail v p -> follows i None a (at_ i (PushNext v p (tail s)) s).
Proof.
  intros Hi. start Hi Hok. destruct Hok as [Ha Hf]. apply (follows_stay _ _ _ L). local_ Hi. cbn.
  split_and!; [done | done | left; apply (i_tail s a L H)].
Qed.

Lemma sim_push_next v p t n : threads s i = PushNext v p t -> nodes s !! get_ptr t = Some n ->
  follows i None a (at_ i (PushTail2 v p t (n_next n)) s).
Proof.
  intros Hi Hn. start Hi Hok. destruct Hok as (Ha & Hf & Hr). apply (follows_stay _ _ _ L). local_ Hi. cbn.
  split_and!; [done | done | done |]. intros _. by exists n.
Qed.

Lemma sim_push_tail2 v p t nx t2 : threads s i = PushTail2 v p t nx -> follows i None a (at_ i (push_seen v p t nx t2) s).
Proof.
  intros Hi. start Hi Hok. destruct Hok as (Ha & Hf & Hr & Hs). apply (follows_stay _ _ _ L). unfold push_seen, to_bool.
  case_match; [local_ Hi; done|]. destruct (Z.eqb_spec (get_ptr nx) 0) as [E|E]; cbn [negb].
  - local_ Hi. cbn. by split_and!.
  - local_ Hi. cbn. by split_and!.
Qed.

(** A node of the list whose next pointer is null is the last one; the others keep theirs. *)
Lemma sim_push_link v p t nx n : unshared s -> threads s i = PushLink v p t nx -> nodes s !! get_ptr t = Some n -> n_next n = nx ->
  follows i None a (at_ i (PushSwing p t) (set_node (get_ptr t) (mkNode (n_data n) (make p (next_tag nx))) s)).
Proof.
  intros Hun Hi Hn Hnx. start Hi Hok. destruct Hok as (Ha & Hf & Hr & H0). pose proof H as [H1 H2 H3 H4 H5 H6].
  destruct (p_owned _ _ _ _ H4 i p) as (Hl & Hpl & Hs); [by rewrite Hi|]. pose proof (p_range _ _ _ _ H4 p Hs) as Hrange.
  assert (next_is (nodes s) (get_ptr t) 0) as Hn0 by (exists n; split; [done | congruence]).
  destruct Hr as [Hr|(_ & x & (n' & Hn' & E) & Hx)]; [|congruence].
  destruct (chain_last _ L _ H1 (zero_not_in _ _ _ _ H4 H1) Hr Hn0) as [L0 EL].
  apply (follows_step _ _ _ (a_at i (APushed true) (aqueue a ++ [v]) a) _ (L ++ [p])); [by apply a_push|].
  apply (inv_gen s a L); cbn [nodes pool head tail threads at_ set_pool set_node set_head set_tail].
  - done.
  - intros j Hj. by apply a_at_other.
  - intros j Hj. apply (frame_link _ _ _ _ _ _ n); try done; [congruence | |].
    + intros p' Hp'%pushing_owned. by apply (p_owned _ _ _ _ H4 j p').
    + apply (Hun i). by rewrite Hi.
  - destruct Hf as [(np & Hnp & Enp) _]. rewrite EL in H1, Hl |- *. rewrite <- app_assoc.
    apply (chain_snoc _ _ _ _ _ np); try done; [rewrite <- EL; apply (p_nodup _ _ _ _ H4) | cbn; apply get_ptr_make; lia].
  - destruct L; [by apply elem_of_nil in Hr | done].
  - apply elem_of_app. by left.
  - apply (q_parted_give _ _ (pool s) _ L _ _ _ p); try done.
    + apply q_parted_write; [done|]. apply (p_range _ _ _ _ H4). by eexists.
    + by rewrite Hi.
    + intros q. rewrite elem_of_app, list_elem_of_singleton. tauto.
    + by left.
    + apply NoDup_app. split; [apply (p_nodup _ _ _ _ H4)|]. split; [|apply NoDup_singleton].
      intros q Hq Hq'%list_elem_of_singleton. by subst q.
    + intros q Hq. rewrite elem_of_app, list_elem_of_singleton. destruct (p_pool _ _ _ _ H4 q Hq) as [Hq' _].
      intros [| ->]; done.
  - assert (List.tl (L ++ [p]) = List.tl L ++ [p]) as -> by (destruct L; [by apply elem_of_nil in Hr | done]).
    assert (forall q w, data_is (nodes s) q w -> data_is (<[get_ptr t := mkNode (n_data n) (make p (next_tag nx))]> (nodes s)) q w) as Hd.
    { intros q w (k & Hk & Ek). destruct (decide (get_ptr t = q)) as [<-|Hne].
      - eexists. split; [apply lookup_insert_eq|]. cbn. congruence.
      - exists k. by rewrite lookup_insert_ne. }
    apply Forall2_app; [eapply Forall2_impl; [exact H5 | apply Hd]|]. constructor; [|constructor]. apply Hd, Hf.
  - rewrite a_at_same. split_and!; [done | | | lia | lia].
    + left. apply elem_of_app. by left.
    + eexists. split; [apply lookup_insert_eq|]. cbn. apply get_ptr_make. lia.
Qed.

(** [_tail] moves to the successor of its node. *)
Lemma sim_swing th' w x : get_ptr w = x -> x <> 0 -> next_is (nodes s) (get_ptr (tail s)) x ->
  owned th' = owned (threads s i) -> thread_ok (nodes s) w L th' (athreads a i) -> follows i None a (at_ i th' (set_tail w s)).
Proof.
  intros Hw Hx Hn Ho Hth. pose proof H as [H1 H2 H3 H4 H5 H6]. apply (follows_stay _ _ _ L).
  destruct (chain_next _ L _ _ H1 (p_nodup _ _ _ _ H4) H3 Hn Hx) as [Hin Hhd]. gen.
  - intros j Hj. apply frame_tail. by rewrite Hw.
  - by rewrite Hw.
  - by apply parted_same.
Qed.

Lemma sim_push_swing p t : threads s i = PushSwing p t -> tail s = t ->
  follows i None a (at_ i (PushDone true) (set_tail (make p (next_tag t)) s)).
Proof.
  intros Hi Ht. start Hi Hok. destruct Hok as (Ha & _ & Hn & Hr).
  apply (sim_swing _ _ p); [apply get_ptr_make; lia | lia | by rewrite Ht | by rewrite Hi | done].
Qed.

Lemma sim_push_help v p t nx : threads s i = PushHelp v p t nx -> tail s = t ->
  follows i None a (at_ i (PushTail v p) (set_tail (set_tag (next_tag t) nx) s)).
Proof.
  intros Hi Ht. start Hi Hok. destruct Hok as (Ha & Hf & _ & Hs & Hx).
  apply (sim_swing _ _ (get_ptr nx)); [apply get_ptr_set_tag | done | rewrite Ht; by apply Hs | by rewrite Hi | done].
Qed.

Lemma sim_pop_help h t nx : threads s i = PopHelp h t nx -> tail s = t ->
  follows i None a (at_ i PopHead (set_tail (set_tag (next_tag t) nx) s)).
Proof.
  intros Hi Ht. start Hi Hok. destruct Hok as (Ha & _ & Hs & Eh & Hx).
  apply (sim_swing _ _ (get_ptr nx)); [apply get_ptr_set_tag | done | rewrite Ht, <- Eh; by apply Hs | by rewrite Hi | done].
Qed.

Lemma sim_pop_head : threads s i = PopHead -> follows i None a (at_ i (PopTail (head s)) s).
Proof.
  intros Hi. start Hi Hok. apply (follows_stay _ _ _ L). local_ Hi. split; [done|]. left. apply (i_head s a L H).
Qed.

Lemma sim_pop_tail h : threads s i = PopTail h -> follows i None a (at_ i (PopNext h (tail s)) s).
Proof.
  intros Hi. start Hi Hok. destruct Hok as [Ha Hh]. apply (follows_stay _ _ _ L). local_ Hi. split_and!; [done | done|].
  intros Hne _ E. by apply Hne.
Qed.

(** A head whose next pointer is null is the only node of the list. *)
Lemma head_alone h n : href (nodes s) L h -> nodes s !! h = Some n -> get_ptr (n_next n) = 0 -> aqueue a = [].
Proof.
  intros Hh Hn E. pose proof H as [H1 H2 H3 H4 H5 H6].
  destruct Hh as [Hh|(_ & x & (n' & Hn' & E') & Hx)]; [|congruence].
  destruct (chain_last _ L h H1 (zero_not_in _ _ _ _ H4 H1) (hd_in _ _ Hh)) as [L' EL]; [by exists n|].
  assert (L' = []) as ->.
  { destruct L' as [|q L']; [done|]. exfalso. rewrite EL in Hh. injection Hh as ->.
    pose proof (p_nodup _ _ _ _ H4) as Hd. rewrite EL in Hd. cbn in Hd. apply NoDup_cons in Hd as [Hd _].
    apply Hd, elem_of_app. right. left. }
  rewrite EL in H5. cbn in H5. by inversion H5.
Qed.

Lemma sim_pop_next h t n : threads s i = PopNext h t -> nodes s !! get_ptr h = Some n ->
  follows i None a (at_ i (PopHead2 h t (n_next n)) s).
Proof.
  intros Hi Hn. start Hi Hok. destruct Hok as (Ha & Hh & Hb).
  assert (saw (nodes s) h (n_next n)) as Hs by (intros _; by exists n).
  destruct ((get_ptr h =? get_ptr t) && (get_ptr (n_next n) =? 0)) eqn:E.
  - apply andb_true_iff in E as E'. rewrite !Z.eqb_eq in E'. pose proof (head_alone _ _ Hh Hn (proj2 E')) as Hq.
    apply (follows_step _ _ _ (a_at i (APopped (hd_error (aqueue a))) (List.tl (aqueue a)) a) _ L); [by apply a_pop|].
    apply (q_inv_local s a L i); [exact H | intros; by apply a_at_other | by rewrite Hq | by rewrite Hi|].
    rewrite a_at_same, Hq. cbn. by rewrite E.
  - apply (follows_stay _ _ _ L). local_ Hi. cbn. by rewrite E.
Qed.

Lemma sim_pop_head2 h t nx h2 : threads s i = PopHead2 h t nx -> to_bool h2 = true -> to_bool h = true ->
  follows i None a (at_ i (pop_seen h t nx h2) s).
Proof.
  intros Hi E1 E2. start Hi Hok. destruct Hok as (Ha & Hh & Hs & Hb). apply (follows_stay _ _ _ L).
  unfold pop_seen. rewrite E1, E2. cbn [xorb]. unfold to_bool in *.
  destruct (Z.eqb_spec (get_ptr h) (get_ptr t)) as [Et|Et], (Z.eqb_spec (get_ptr nx) 0) as [E|E]; cbn [andb negb] in *; local_ Hi; cbn.
  - done.
  - by split_and!.
  - done.
  - split_and!; try done. by apply Hb.
Qed.

Lemma sim_pop_data h nx n v : threads s i = PopData h nx -> nodes s !! get_ptr nx = Some n ->
  (n_data n = Some v \/ n_data n = None) -> follows i None a (at_ i (PopCas h nx v) s).
Proof.
  intros Hi Hn Hd. start Hi Hok. destruct Hok as (Ha & Hh & Hs & Hx & Hb). apply (follows_stay _ _ _ L). local_ Hi. cbn.
  split_and!; try done. intros Hhd. exists n. split; [done|]. pose proof H as [H1 H2 H3 H4 H5 H6].
  destruct (chain_next _ L _ _ H1 (p_nodup _ _ _ _ H4) (hd_in _ _ Hhd) (Hs Hx) Hx) as [Hin Hne].
  assert (get_ptr nx ∈ List.tl L) as Htl.
  { destruct L as [|q L']; [done|]. apply elem_of_cons in Hin as [E|Hin]; [destruct Hne; cbn; congruence | done]. }
  apply list_elem_of_lookup_1 in Htl as [k Hk]. destruct (Forall2_lookup_l _ _ _ _ _ H5 Hk) as (w & _ & n' & Hn' & E').
  destruct Hd as [Hd|Hd]; [done | congruence].
Qed.

Lemma sim_pop_cas h nx v : threads s i = PopCas h nx v -> head s = h ->
  follows i None a (at_ i (PopDestroy v (get_ptr h)) (set_head (set_tag (next_tag h) nx) s)).
Proof.
  intros Hi Ehd. start Hi Hok. destruct Hok as (Ha & Hh & Hs & Hx & Hb & Hd). pose proof H as [H1 H2 H3 H4 H5 H6].
  rewrite Ehd in H2. specialize (Hd H2). specialize (Hb H2). specialize (Hs Hx). pose proof (p_nodup _ _ _ _ H4) as Hnd.
  destruct L as [|q L'] eqn:EL; [done|]. injection H2 as ->. destruct L' as [|r L'].
  { exfalso. destruct Hs as (n & Hn & E), H1 as (n' & Hn' & E'). congruence. }
  rewrite chain_cons in H1. destruct H1 as [(n1 & Hn1 & E1) H1]. destruct Hs as (n2 & Hn2 & E2).
  assert (r = get_ptr nx) as -> by congruence.
  inversion H5 as [|? v' ? q Hv' Hq Ez Eq]; subst.
  assert (v' = v) as -> by (destruct Hd as (k & Hk & Ek), Hv' as (k' & Hk' & Ek'); congruence).
  apply (follows_step _ _ _ (a_at i (APopped (hd_error (aqueue a))) (List.tl (aqueue a)) a) _ (get_ptr nx :: L')); [by apply a_pop|].
  rewrite <- Eq. apply (inv_gen s a (get_ptr (head s) :: get_ptr nx :: L')); cbn [nodes pool head tail threads at_ set_head]; try done.
  - intros j Hj. by apply a_at_other.
  - intros j Hj. apply (frame_pop _ _ _ _ _ (get_ptr nx)); try done. by exists n1.
  - cbn. by rewrite get_ptr_set_tag.
  - apply elem_of_cons in H3 as [H3|H3]; [by destruct Hb | done].
  - apply (q_parted_take _ _ (pool s) _ (get_ptr (head s) :: get_ptr nx :: L') _ _ _ (get_ptr (head s))); try done.
    + by rewrite Hi.
    + by apply NoDup_cons in Hnd as [_ Hnd].
    + intros z Hz. by right.
    + by apply NoDup_cons in Hnd as [Hnd _].
    + intros Hin. destruct (p_pool _ _ _ _ H4 _ Hin) as [Hn _]. apply Hn. left.
    + intros j Hj. destruct (p_owned _ _ _ _ H4 j _ Hj) as [Hn _]. apply Hn. left.
  - by rewrite a_at_same.
Qed.

Lemma sim_pop_destroy v p n : threads s i = PopDestroy v p -> nodes s !! p = Some n ->
  follows i None a (at_ i (PopFree v p) (set_node p (mkNode None (n_next n)) s)).
Proof.
  intros Hi Hn. start Hi Hok. pose proof H as [H1 H2 H3 H4 H5 H6]. apply (follows_stay _ _ _ L).
  destruct (p_owned _ _ _ _ H4 i p) as (Hl & Hpl & Hs); [by rewrite Hi|].
  assert (forall q, q ∈ L -> p <> q) as Hne by (intros q Hq ->; done). gen.
  - intros j Hj. apply frame_write; try done; [apply (p_nodup _ _ _ _ H4) | |].
    + intros E%pushing_owned. apply Hj, (p_owner _ _ _ _ H4 j i p); [done | by rewrite Hi].
    + right. eexists. split; [exists n; split; [done | reflexivity] | done].
  - eapply chain_frame; [|exact H1]. intros q x Hq Hx. apply next_write; [by apply Hne | done].
  - apply parted_same; [|by rewrite Hi]. apply q_parted_write; [done | by apply (p_range _ _ _ _ H4)].
  - eapply values_frame; [|exact H5]. intros q w Hq. apply data_write. by apply Hne, tl_in.
Qed.

Lemma sim_pop_free v p : threads s i = PopFree v p ->
  follows i None a (at_ i (PopDone (Some v)) (set_pool ({[p]} ∪ pool s) s)).
Proof.
  intros Hi. start Hi Hok. pose proof H as [H1 H2 H3 H4 H5 H6]. apply (follows_stay _ _ _ L).
  destruct (p_owned _ _ _ _ H4 i p) as (Hl & Hpl & Hs); [by rewrite Hi|]. gen.
  apply (q_parted_give _ _ (pool s) _ L _ _ _ p); try done.
  - by rewrite Hi.
  - by left.
  - intros q. rewrite elem_of_union, elem_of_singleton. tauto.
  - apply (p_nodup _ _ _ _ H4).
  - intros q [->%elem_of_singleton|Hq]%elem_of_union; [done | by apply (p_pool _ _ _ _ H4)].
Qed.

(** Calls, returns, and steps of the thread alone. *)
Lemma q_sim_local l th' ath' q' : astep i a l (a_at i ath' q' a) -> q' = aqueue a -> owned th' = owned (threads s i) ->
  thread_ok (nodes s) (tail s) L th' ath' -> follows i l a (at_ i th' s).
Proof.
  intros Hs Hq Ho Hok. apply (follows_step _ _ _ (a_at i ath' q' a) _ L Hs).
  apply (q_inv_local s a L i); [exact H | intros; by apply a_at_other | by rewrite Hq | done | by rewrite a_at_same].
Qed.

Lemma sim_retry th' : owned th' = owned (threads s i) -> thread_ok (nodes s) (tail s) L th' (athreads a i) ->
  follows i None a (at_ i th' s).
Proof. intros Ho Hok. apply (follows_stay _ _ _ L). by apply (q_inv_local s a L i). Qed.

(** The head is never null. *)
Lemma to_bool_head : to_bool (head s) = true.
Proof.
  pose proof H as [H1 H2 _ H4 _ _]. unfold to_bool. destruct (Z.eqb_spec (get_ptr (head s)) 0) as [E|]; [|done].
  destruct (zero_not_in _ _ _ _ H4 H1). rewrite E in H2. by apply hd_in.
Qed.

Lemma to_bool_refers w : refers (threads s i) = Some (get_ptr w) -> to_bool w = true.
Proof.
  intros Hr. pose proof (p_range _ _ _ _ (i_parted s a L H) _ (refers_some s a L i _ H Hr)). unfold to_bool.
  by destruct (Z.eqb_spec (get_ptr w) 0); [lia|].
Qed.

Lemma sim_step l s' : unshared s -> step i s l s' -> follows i l a s'.
Proof.
  intros Hun Hst. destruct Hst as [v Hi|v p Hi Hp|v p junk Hi Hp Hr|v Hi|v p Hi|v p Hi|v p t n Hi Hn|v p t nx Hi
    |v p t nx n Hi Hn Hx|v p t nx Hi|p t Hi Ht|p t Hi Ht|v p t nx Hi Ht|v p t nx Hi Ht|b Hi
    |Hi|Hi|h Hi|h t n Hi Hn|h t nx Hi|h t nx Hi Ht|h t nx Hi Ht|h nx n v Hi Hn Hd|h nx v Hi Hh|h nx v Hi|v p n Hi Hn|v p Hi|r Hi];
    pose proof (i_threads s a L H i) as Hok; rewrite Hi in Hok; cbn in Hok.
  - by apply (q_sim_local _ _ (APush v) (aqueue a)); [constructor | | rewrite Hi |].
  - by apply sim_push_reuse.
  - by apply sim_push_new.
  - by apply (q_sim_local _ _ (APushed false) (aqueue a)); [apply (a_push_fails _ _ v) | | rewrite Hi |].
  - by apply sim_construct.
  - by apply sim_push_tail.
  - by apply sim_push_next.
  - by apply sim_push_tail2.
  - by apply (sim_push_link v).
  - apply sim_retry; [by rewrite Hi | cbn; tauto].
  - by apply sim_push_swing.
  - apply sim_retry; [by rewrite Hi | cbn; tauto].
  - by apply sim_push_help.
  - apply sim_retry; [by rewrite Hi | cbn; tauto].
  - by apply (q_sim_local _ _ AIdle (aqueue a)); [constructor | | rewrite Hi |].
  - by apply (q_sim_local _ _ APop (aqueue a)); [constructor | | rewrite Hi |].
  - by apply sim_pop_head.
  - by apply sim_pop_tail.
  - by apply sim_pop_next.
  - apply sim_pop_head2; [done | apply to_bool_head | apply to_bool_refers; by rewrite Hi].
  - by apply (sim_pop_help h).
  - apply sim_retry; [by rewrite Hi | cbn; tauto].
  - by apply (sim_pop_data _ _ n).
  - by apply sim_pop_cas.
  - apply sim_retry; [by rewrite Hi | cbn; tauto].
  - by apply sim_pop_destroy.
  - by apply sim_pop_free.
  - by apply (q_sim_local _ _ AIdle (aqueue a)); [constructor | | rewrite Hi |].
Qed.
End steps.

Lemma q_inv_init dummy d0 : 0 < dummy < 2 ^ 48 -> inv (init dummy d0) ainit.
Proof.
  intros Hd. exists [dummy]. assert (get_ptr (make dummy 23130) = dummy) as E by (apply get_ptr_make; lia).
  split; cbn; try done.
  - eexists. split; [apply lookup_insert_eq|]. cbn. apply get_ptr_make. lia.
  - by rewrite E.
  - rewrite E. left.
  - split; try done.
    + apply NoDup_singleton.
    + intros p [n Hp]. apply lookup_singleton_Some in Hp as [<- _]. done.
Qed.

Lemma unshared_init dummy d0 : unshared (init dummy d0).
Proof. by intros i j p. Qed.

(** Every run without a shared node follows a run of the atomic queue. *)
Lemma q_runs_inv dummy d0 tr s : 0 < dummy < 2 ^ 48 -> runs unshared dummy d0 tr s -> unshared s /\ exists a, aruns tr a /\ inv s a.
Proof.
  intros Hd. induction 1 as [|tr s i l s' Hr [Hun (a & Ha & L & HL)] Hs Hs'].
  - split; [apply unshared_init|]. exists ainit. split; [constructor | by apply q_inv_init].
  - split; [done|]. destruct (sim_step s a L i HL l s' Hun Hs) as (a' & [[-> E]|Ha'] & Hi); exists a'.
    + subst a'. cbn. rewrite app_nil_r. by split.
    + split; [by econstructor | done].
Qed.

(** ** No access outside of the nodes *)

(** [G]: the nodes that were constructed. *)
Implicit Type G : Z -> Prop.
Definition link_ok G (w : Z) : Prop := get_ptr w = 0 \/ G (get_ptr w).

(** The pointers that a thread will follow are such nodes. *)
Definition thread_mem m G th : Prop :=
  match th with
  | PushConstruct _ p => 0 < p < 2 ^ 48 /\ is_Some (m !! p)
  | PushTail _ p | PushSwing p _ | PopDestroy _ p | PopFree _ p => G p
  | PushNext _ p t | PushLink _ p t _ => G p /\ G (get_ptr t)
  | PushTail2 _ p t nx => G p /\ G (get_ptr t) /\ link_ok G nx
  | PushHelp _ p t nx => G p /\ G (get_ptr nx)
  | PopTail h | PopNext h _ => G (get_ptr h)
  | PopHead2 h _ nx => G (get_ptr h) /\ link_ok G nx
  | PopHelp _ _ nx => G (get_ptr nx)
  | PopData h nx | PopCas h nx _ => G (get_ptr h) /\ G (get_ptr nx)
  | _ => True
  end.

Record memory s G : Prop := {
  g_node q : G q -> 0 < q < 2 ^ 48 /\ exists n, nodes s !! q = Some n /\ link_ok G (n_next n);
  g_head : G (get_ptr (head s));
  g_tail : G (get_ptr (tail s));
  g_pool p : p ∈ pool s -> G p;
  g_threads i : thread_mem (nodes s) G (threads s i);
}.

Lemma link_mono G G' w : (forall q, G q -> G' q) -> link_ok G w -> link_ok G' w.
Proof. intros HG [E|E]; [by left | right; auto]. Qed.

Lemma thread_mem_mono m m' G G' th : (forall q, G q -> G' q) -> (forall q, is_Some (m !! q) -> is_Some (m' !! q)) ->
  thread_mem m G th -> thread_mem m' G' th.
Proof. intros HG Hm. pose proof (link_mono G G') as Hl. destruct th; cbn; intuition auto. Qed.

Lemma write_some m p n q : is_Some (m !! q) -> is_Some (<[p := n]> m !! q).
Proof. intros Hq. destruct (decide (p = q)) as [->|]; [rewrite lookup_insert_eq; by eexists | by rewrite lookup_insert_ne]. Qed.

Lemma mem_gen s G G' m' pl' hw' tw' i th' : memory s G -> (forall q, G q -> G' q) ->
  (forall q, is_Some (nodes s !! q) -> is_Some (m' !! q)) ->
  (forall q, G' q -> 0 < q < 2 ^ 48 /\ exists n, m' !! q = Some n /\ link_ok G' (n_next n)) ->
  G' (get_ptr hw') -> G' (get_ptr tw') -> (forall p, p ∈ pl' -> G' p) -> thread_mem m' G' th' ->
  memory (mkState m' pl' hw' tw' (<[i := th']> (threads s))) G'.
Proof.
  intros [H1 H2 H3 H4 H5] HG Hm Hn Hh Ht Hp Hth. split; cbn; try done. intros j. destruct (decide (j = i)) as [->|Hne].
  - by rewrite fn_lookup_insert.
  - rewrite fn_lookup_insert_ne by done. by eapply thread_mem_mono.
Qed.

(** The thread alone moves. *)
Lemma mem_local s G i th' : memory s G -> thread_mem (nodes s) G th' -> memory (at_ i th' s) G.
Proof. intros H Hth. pose proof H as [H1 H2 H3 H4 H5]. by apply (mem_gen s G). Qed.

(** A constructed node is written. *)
Lemma mem_write s G q n : (forall q, G q -> 0 < q < 2 ^ 48 /\ exists n, nodes s !! q = Some n /\ link_ok G (n_next n)) ->
  link_ok G (n_next n) -> forall q', G q' -> 0 < q' < 2 ^ 48 /\ exists n', <[q := n]> (nodes s) !! q' = Some n' /\ link_ok G (n_next n').
Proof.
  intros H1 Hn q' Hq'. destruct (H1 q' Hq') as (Hr & n' & Hn' & Hl). split; [done|]. destruct (decide (q = q')) as [->|Hne].
  - exists n. by rewrite lookup_insert_eq.
  - exists n'. by rewrite lookup_insert_ne.
Qed.

Lemma mem_new s G i v p junk : memory s G -> nodes s !! p = None -> 0 < p < 2 ^ 48 ->
  memory (at_ i (PushConstruct v p) (set_node p junk s)) G.
Proof.
  intros H Hp Hr. pose proof H as [H1 H2 H3 H4 H5]. apply (mem_gen s G); try done.
  - intros q. apply write_some.
  - intros q Hq. destruct (H1 q Hq) as (Hr' & n & Hn & Hl). split; [done|]. exists n. cbn. rewrite lookup_insert_ne; [done | congruence].
  - cbn. split; [done|]. rewrite lookup_insert_eq. by eexists.
Qed.

Lemma mem_construct s G i v p : memory s G -> threads s i = PushConstruct v p ->
  exists G', memory (at_ i (PushTail v p) (set_node p (mkNode (Some v) (make 0 0)) s)) G'.
Proof.
  intros H Hi. pose proof H as [H1 H2 H3 H4 H5]. pose proof (H5 i) as Hok. rewrite Hi in Hok. destruct Hok as [Hr Hs].
  exists (fun q => G q \/ q = p). apply (mem_gen s G); cbn; auto.
  - intros q. apply write_some.
  - intros q Hq. destruct (decide (p = q)) as [->|Hne].
    + split; [done|]. eexists. split; [apply lookup_insert_eq|]. left. apply get_ptr_make. lia.
    + destruct Hq as [Hq| ->]; [|done]. destruct (H1 q Hq) as (Hr' & n & Hn & Hl). split; [done|]. exists n.
      rewrite lookup_insert_ne by done. split; [done|]. eapply link_mono; [|exact Hl]. by left.
Qed.

Lemma mem_set s G i p n th' : memory s G -> link_ok G (n_next n) -> thread_mem (nodes s) G th' -> memory (at_ i th' (set_node p n s)) G.
Proof.
  intros H Hn Hth. pose proof H as [H1 H2 H3 H4 H5]. apply (mem_gen s G); try done.
  - intros q. apply write_some.
  - by apply mem_write.
  - cbn. eapply thread_mem_mono; [| |exact Hth]; [done | apply write_some].
Qed.

Lemma mem_tail s G i w th' : memory s G -> G (get_ptr w) -> thread_mem (nodes s) G th' -> memory (at_ i th' (set_tail w s)) G.
Proof. intros H Hw Hth. pose proof H as [H1 H2 H3 H4 H5]. by apply (mem_gen s G). Qed.

Lemma mem_head s G i w th' : memory s G -> G (get_ptr w) -> thread_mem (nodes s) G th' -> memory (at_ i th' (set_head w s)) G.
Proof. intros H Hw Hth. pose proof H as [H1 H2 H3 H4 H5]. by apply (mem_gen s G). Qed.

Lemma mem_pool s G i f th' : memory s G -> (forall p, p ∈ f -> G p) -> thread_mem (nodes s) G th' -> memory (at_ i th' (set_pool f s)) G.
Proof. intros H Hw Hth. pose proof H as [H1 H2 H3 H4 H5]. by apply (mem_gen s G). Qed.

Lemma link_bool G w : link_ok G w -> to_bool w = true -> G (get_ptr w).
Proof. unfold to_bool. intros [->|Hw]; done. Qed.

Lemma mem_step s G i l s' : memory s G -> step i s l s' -> exists G', memory s' G'.
Proof.
  intros H Hst. pose proof H as [H1 H2 H3 H4 H5]. destruct Hst as [v Hi|v p Hi Hp|v p junk Hi Hp Hr|v Hi|v p Hi|v p Hi|v p t n Hi Hn|v p t nx Hi
    |v p t nx n Hi Hn Hx|v p t nx Hi|p t Hi Ht|p t Hi Ht|v p t nx Hi Ht|v p t nx Hi Ht|b Hi
    |Hi|Hi|h Hi|h t n Hi Hn|h t nx Hi|h t nx Hi Ht|h t nx Hi Ht|h nx n v Hi Hn Hd|h nx v Hi Hh|h nx v Hi|v p n Hi Hn|v p Hi|r Hi];
    pose proof (H5 i) as Hok; rewrite Hi in Hok; cbn in Hok; try (exists G; apply mem_local; cbn; tauto).
  - exists G. apply mem_pool; [done | |].
    + intros q [Hq _]%elem_of_difference. by apply H4.
    + cbn. destruct (H1 p (H4 p Hp)) as (Hr & n & Hn & _). rewrite Hn. split; [done | by eexists].
  - exists G. by apply mem_new.
  - by apply (mem_construct s G).
  - exists G. apply mem_local; [done|]. cbn. destruct Hok as [Hp Ht]. destruct (H1 _ Ht) as (_ & n' & Hn' & Hl).
    assert (n' = n) as -> by congruence. done.
  - exists G. apply mem_local; [done|]. unfold push_seen. destruct Hok as (Hp & Ht & Hl).
    repeat case_match; cbn; try done. split; [done|]. apply link_bool; [done | by apply negb_false_iff].
  - exists G. apply mem_set; [done | | by apply Hok]. cbn. right. destruct Hok as [Hp _], (H1 _ Hp) as [Hr _].
    rewrite get_ptr_make; [done | lia].
  - exists G. apply mem_tail; [done | | done]. destruct (H1 _ Hok) as [Hr _]. rewrite get_ptr_make; [done | lia].
  - exists G. apply mem_tail; [done | rewrite get_ptr_set_tag; by apply Hok | by apply Hok].
  - exists G. apply mem_local; [done|]. cbn. destruct (H1 _ Hok) as (_ & n' & Hn' & Hl).
    assert (n' = n) as -> by congruence. done.
  - exists G. apply mem_local; [done|]. unfold pop_seen. destruct Hok as (Hh & Hl).
    repeat case_match; cbn; try done; [by apply link_bool | split; [done | by apply link_bool]].
  - exists G. apply mem_tail; [done | by rewrite get_ptr_set_tag | done].
  - exists G. apply mem_head; [done | rewrite get_ptr_set_tag; by apply Hok | by apply Hok].
  - exists G. apply mem_set; [done | | done]. cbn. destruct (H1 _ Hok) as (_ & n' & Hn' & Hl). congruence.
  - exists G. apply mem_pool; [done | | done]. intros q [->%elem_of_singleton|Hq]%elem_of_union; [done | by apply H4].
Qed.

Lemma mem_init dummy d0 : 0 < dummy < 2 ^ 48 -> exists G, memory (init dummy d0) G.
Proof.
  intros Hd. assert (get_ptr (make dummy 23130) = dummy) as E by (apply get_ptr_make; lia).
  exists (fun q => q = dummy). split; cbn; try done. intros q ->. split; [done|]. eexists. split; [apply lookup_insert_eq|].
  left. apply get_ptr_make. lia.
Qed.

Lemma mem_runs P dummy d0 tr s : 0 < dummy < 2 ^ 48 -> runs P dummy d0 tr s -> exists G, memory s G.
Proof. intros Hd. induction 1 as [|tr s i l s' Hr [G HG] Hs Hs']; [by apply mem_init | by eapply mem_step]. Qed.

(** The node that the next access of a thread reads or writes. *)
Definition deref th : option Z :=
  match th with
  | PushConstruct _ p | PopDestroy _ p | PopFree _ p => Some p
  | PushNext _ _ t | PushLink _ _ t _ => Some (get_ptr t)
  | PopNext h _ => Some (get_ptr h)
  | PopData _ nx => Some (get_ptr nx)
  | _ => None
  end.

Lemma mem_deref s G i p : memory s G -> deref (threads s i) = Some p -> is_Some (nodes s !! p).
Proof.
  intros [H1 H2 H3 H4 H5] Hd. pose proof (H5 i) as Hok.
  assert (forall q, G q -> is_Some (nodes s !! q)) as HG by (intros q Hq; destruct (H1 q Hq) as (_ & n & -> & _); by eexists).
  destruct (threads s i); try discriminate Hd; injection Hd as <-; cbn in Hok; (apply HG; tauto) || tauto.
Qed.

(** ** Executable runs of two threads *)

Lemma act_step i c s l s' : act i c s = Some (l, s') -> step i s l s'.
Proof.
  unfold act. intros Ha.
  repeat match type of Ha with
  | context [match threads s i with _ => _ end] => destruct (threads s i) eqn:Hi
  | context [match c with _ => _ end] => destruct c
  | (nodes s !! ?p ≫= _) = _ => let H := fresh in destruct (nodes s !! p) eqn:H; cbn [mbind option_bind] in Ha
  | (n_data ?n ≫= _) = _ => let H := fresh in destruct (n_data n) eqn:H; cbn [mbind option_bind] in Ha
  | context [decide ?P] => destruct (decide P)
  | None = _ => discriminate Ha
  | Some _ = Some _ => injection Ha as <- <-
  end; try (by econstructor); try (econstructor; by eauto).
  match goal with H : _ /\ _ |- _ => destruct H as [Hn Hr] end. by apply push_new.
Qed.

(** A schedule of the threads 0 and 1, whose states all pass the test. *)
Fixpoint exec (ok : @State T -> bool) (cs : list (bool * choice)) s : option (list (@event T) * @State T) :=
  match cs with
  | [] => Some ([], s)
  | (b, c) :: cs' =>
      '(l, s') ← act (if b then 1 else 0)%nat c s;
      if ok s' then '(tr, s'') ← exec ok cs' s'; Some (option_list l ++ tr, s'') else None
  end.

Definition quiet s : Prop := forall i, (2 <= i)%nat -> threads s i = Idle.

Lemma step_others i s l s' j : step i s l s' -> j <> i -> threads s' j = threads s j.
Proof. intros Hs Hj. destruct Hs; cbn; by apply fn_lookup_insert_ne. Qed.

Lemma exec_runs ok P dummy d0 cs s tr tr' s' : (forall s, quiet s -> ok s = true -> P s) ->
  runs P dummy d0 tr s -> quiet s -> exec ok cs s = Some (tr', s') -> runs P dummy d0 (tr ++ tr') s' /\ quiet s'.
Proof.
  intros HP. revert tr s tr'. induction cs as [|[b c] cs IH]; intros tr s tr' Hr Hq E; cbn in E.
  - injection E as <- <-. by rewrite app_nil_r.
  - destruct (act _ c s) as [[l s1]|] eqn:Ha; [|done]. cbn in E. destruct (ok s1) eqn:Hok; [|done].
    destruct (exec ok cs s1) as [[tr1 s2]|] eqn:He; [|done]. cbn in E. injection E as <- <-.
    apply act_step in Ha. assert (quiet s1) as Hq1.
    { intros j Hj. rewrite (step_others _ _ _ _ _ Ha); [by apply Hq | destruct b; lia]. }
    rewrite app_assoc. apply (IH _ s1); [|done | done]. eapply runs_step; [done | done | by apply HP].
Qed.

Lemma quiet_init dummy (d0 : T) : quiet (init dummy d0).
Proof. done. Qed.

(** The test of [unshared] for two threads. *)
Definition apart th th' : bool :=
  match pushing th, refers th' with Some p, Some q => negb (p =? q) | _, _ => true end.

Definition unshared_b s : bool :=
  let t0 := threads s 0%nat in let t1 := threads s 1%nat in apart t0 t0 && apart t0 t1 && apart t1 t0 && apart t1 t1.

Lemma apart_ok th th' p : apart th th' = true -> pushing th = Some p -> refers th' <> Some p.
Proof. unfold apart. intros Ha Hp Hr. rewrite Hp, Hr, Z.eqb_refl in Ha. done. Qed.

Lemma unshared_b_ok s : quiet s -> unshared_b s = true -> unshared s.
Proof.
  unfold unshared_b. rewrite !andb_true_iff. intros Hq [[[H00 H01] H10] H11] i j p Hp Hr.
  assert (forall k, threads s k = Idle \/ k = 0%nat \/ k = 1%nat) as Hk.
  { intros [|[|k]]; [tauto | tauto | left; apply Hq; lia]. }
  destruct (Hk i) as [E|[->| ->]]; [by rewrite E in Hp | |]; (destruct (Hk j) as [E|[->| ->]]; [by rewrite E in Hr | |]);
    (eapply apart_ok; [| exact Hp | exact Hr]; assumption).
Qed.
End queue.

(** ** Schedules *)

Definition thread0 (cs : list (@choice Z)) : list (bool * choice) := map (pair false) cs.
Definition thread1 (cs : list (@choice Z)) : list (bool * choice) := map (pair true) cs.

(** A push at a new node, and a pop, each up to its return. *)
Definition push_at (v p : Z) : list choice := CPush v :: CNew p :: repeat Go 7.
Definition push_again (v p : Z) : list choice := CPush v :: CReuse p :: repeat Go 7.
Definition pop_all : list (@choice Z) := CPop :: repeat Go 9.

(** Thread 1 has read [_head]; thread 0 pops that node and gets it back for its push. *)
Definition recycling : list (bool * choice) :=
  thread0 (push_at 10 2 ++ push_at 20 3) ++ thread1 [CPop; Go] ++ thread0 (pop_all ++ push_again 30 1) ++ thread1 (repeat Go 4).

Definition recycled : list (@event Z) :=
  [CallPush 0 10; RetPush 0 true; CallPush 0 20; RetPush 0 true; CallPop 1; CallPop 0; RetPop 0 (Some 10);
   CallPush 0 30; RetPush 0 true; RetPop 1 None].

(** Thread 1 is about to read the object of the node after the head it has seen, which thread 0 has
    popped and destroyed. *)
Definition destroying : list (bool * choice) :=
  thread0 (push_at 10 2 ++ push_at 20 3) ++ thread1 (CPop :: repeat Go 4) ++ thread0 (pop_all ++ pop_all).

Lemma exec_trace {A B} (x : option (A * B)) t : fst <$> x = Some t -> exists s, x = Some (t, s).
Proof. destruct x as [[t' s]|]; [|done]. cbn. intros [= ->]. by exists s. Qed.

Lemma exec_view {A B C} (f : B -> C) (x : option (A * B)) y : (fun r => f (snd r)) <$> x = Some y -> exists t s, x = Some (t, s) /\ f s = y.
Proof. destruct x as [[t s]|]; [|done]. cbn. intros [= <-]. by exists t, s. Qed.

Lemma recycling_runs : exists s, exec (fun _ => true) recycling (init 1 0) = Some (recycled, s).
Proof. apply exec_trace. by vm_compute. Qed.

(** *** No atomic queue has that history *)

(** What the atomic queue can be after the first [k] events: how many values it has, or has given to
    a pop that has not returned. *)
Definition after (k n : nat) (t0 t1 : @AThread Z) : Prop :=
  match k with
  | 0%nat => n = 0%nat /\ t0 = AIdle /\ t1 = AIdle
  | 1%nat => t1 = AIdle /\ (n = 0%nat /\ t0 = APush 10 \/ n = 1%nat /\ t0 = APushed true \/ t0 = APushed false)
  | 2%nat => n = 1%nat /\ t0 = AIdle /\ t1 = AIdle
  | 3%nat => t1 = AIdle /\ (n = 1%nat /\ t0 = APush 20 \/ n = 2%nat /\ t0 = APushed true \/ t0 = APushed false)
  | 4%nat => n = 2%nat /\ t0 = AIdle /\ t1 = AIdle
  | 5%nat => t0 = AIdle /\ (n = 2%nat /\ t1 = APop \/ n = 1%nat /\ exists v, t1 = APopped (Some v))
  | 6%nat => (t1 = APop /\ (n = 2%nat /\ t0 = APop \/ n = 1%nat /\ exists v, t0 = APopped (Some v))) \/
             ((exists v, t1 = APopped (Some v)) /\ (n = 1%nat /\ t0 = APop \/ exists v, t0 = APopped v))
  | 7%nat => t0 = AIdle /\ (n = 1%nat /\ t1 = APop \/ exists v, t1 = APopped (Some v))
  | 8%nat => (t0 = APush 30 \/ exists b, t0 = APushed b) /\ ((1 <= n)%nat /\ t1 = APop \/ exists v, t1 = APopped (Some v))
  | 9%nat => t0 = AIdle /\ ((1 <= n)%nat /\ t1 = APop \/ exists v, t1 = APopped (Some v))
  | _ => False
  end.

Definition after_k (k : nat) (a : @AState Z) : Prop :=
  after k (length (aqueue a)) (athreads a 0%nat) (athreads a 1%nat) /\ forall i, (2 <= i)%nat -> athreads a i = AIdle.

Lemma others_idle (a : @AState Z) i th q : (forall j, (2 <= j)%nat -> athreads a j = AIdle) -> (i < 2)%nat ->
  forall j, (2 <= j)%nat -> athreads (a_at i th q a) j = AIdle.
Proof. intros Ho Hi j Hj. rewrite a_at_other by lia. by apply Ho. Qed.

#[local] Ltac cases k := do 10 (try destruct k as [|k]); cbn in *.
#[local] Ltac decided := repeat match goal with
  | H : _ /\ _ |- _ => destruct H
  | H : _ \/ _ |- _ => destruct H
  | H : exists _, _ |- _ => destruct H
  end; try congruence; try discriminate; try lia; intuition (eauto; try congruence; try lia).

Lemma after_push k n v t1 : after k n (APush v) t1 -> after k (n + 1) (APushed true) t1 /\ after k n (APushed false) t1.
Proof. intros H. cases k; decided. Qed.

Lemma after_push1 k n t0 v : ~ after k n t0 (APush v).
Proof. intros H. cases k; decided. Qed.

Lemma after_pop0 k (q : list Z) t1 : after k (length q) APop t1 -> after k (length (List.tl q)) (APopped (hd_error q)) t1.
Proof. intros H. destruct q as [|x q]; cases k; decided. Qed.

Lemma after_pop1 k (q : list Z) t0 : after k (length q) t0 APop -> after k (length (List.tl q)) t0 (APopped (hd_error q)).
Proof. intros H. destruct q as [|x q]; cases k; decided. Qed.

Lemma after_silent k a i a' : after_k k a -> astep i a None a' -> after_k k a'.
Proof.
  intros [Ha Ho] Hs. assert (i = 0 \/ i = 1)%nat as Hi.
  { destruct i as [|[|i]]; [tauto | tauto|]. exfalso. pose proof (Ho (S (S i)) ltac:(lia)) as E. inversion Hs; congruence. }
  inversion Hs as [|v Et|v Et| | |Et|]; subst; (split; [|apply others_idle; [done | lia]]);
    destruct Hi as [-> | ->]; rewrite a_at_same, a_at_other by done; cbn [aqueue a_at]; rewrite Et in Ha; rewrite ?length_app.
  - by eapply after_push.
  - by apply after_push1 in Ha.
  - by eapply after_push.
  - by apply after_push1 in Ha.
  - by apply after_pop0.
  - by apply after_pop1.
Qed.

Lemma after_event k a i e a' : after_k k a -> recycled !! k = Some e -> astep i a (Some e) a' -> after_k (S k) a'.
Proof.
  intros [Ha Ho] He Hs. assert (i < 2)%nat as Hi.
  { do 10 (destruct k as [|k]; [injection He as <-; inversion Hs; lia|]). done. }
  split; [|inversion Hs; subst; by apply others_idle].
  do 10 (destruct k as [|k]; [injection He as <-; inversion Hs as [? Et| | |? Et|Et| |? Et]; subst; rewrite a_at_same, a_at_other by done;
    rewrite Et in Ha; cbn in *; decided|]). done.
Qed.

Lemma prefix_snoc {A} (l tr : list A) (e : A) k : take k l = tr ++ [e] -> (k <= length l)%nat ->
  exists k', k = S k' /\ take k' l = tr /\ l !! k' = Some e.
Proof.
  intros E Hk. assert (length tr + 1 = k)%nat as <- by (apply (f_equal length) in E; rewrite length_take, length_app in E; cbn in E; lia).
  exists (length tr). split; [lia|]. split.
  - apply (f_equal (take (length tr))) in E. rewrite take_take in E. replace (length tr `min` (length tr + 1))%nat with (length tr) in E by lia.
    by rewrite take_app_length in E.
  - rewrite <- (lookup_take_lt _ (length tr + 1)), E by lia. rewrite lookup_app_r, Nat.sub_diag by lia. done.
Qed.

Lemma after_aruns tr a : aruns tr a -> forall k, (k <= 10)%nat -> take k recycled = tr -> after_k k a.
Proof.
  induction 1 as [|tr a i l a' Hr IH Hs]; intros k Hk E.
  - destruct k; [|done]. split; [done|]. done.
  - destruct l as [e|]; cbn [option_list] in E.
    + apply prefix_snoc in E as (k' & -> & E & He); [|done]. eapply after_event; [apply IH; [lia | done] | done | done].
    + rewrite app_nil_r in E. eapply after_silent; [by apply IH | done].
Qed.

(** ** Theorems *)

(** C22: (linearizable) the lock-free queue of Queue_lockfree.cpp, as long as no node allocated for a
    push is one that a thread still has as its [tail] (in push) or [head] (in pop): the calls and
    returns of every run are those of a run of a queue whose push and pop each take effect in one
    step, and the values of that queue are the objects of the nodes after the dummy node, in order. *)
Theorem queue_linearizable {T : Type} (dummy : Z) (d0 : T) (tr : list event) (s : State) :
  0 < dummy < 2 ^ 48 -> runs unshared dummy d0 tr s ->
  exists a L, aruns tr a /\ chain (nodes s) (get_ptr (head s) :: L) /\ (get_ptr (tail s) ∈ get_ptr (head s) :: L) /\
    Forall2 (data_is (nodes s)) L (aqueue a).
Proof.
  intros Hd Hr. destruct (q_runs_inv dummy d0 tr s Hd Hr) as (_ & a & Ha & L & [H1 H2 H3 _ H5 _]).
  destruct L as [|p L]; [done|]. injection H2 as ->. by exists a, L.
Qed.

(** Two threads push and pop at the same time. *)
Definition sharing : list (bool * choice) :=
  thread0 (firstn 6 (push_at 10 2)) ++ thread1 [CPop; Go; Go] ++ thread0 (repeat Go 3) ++ thread1 (repeat Go 12).

Lemma queue_linearizable_witness : exists s a L,
  aruns [CallPush 0 10; CallPop 1; RetPush 0 true; RetPop 1 (Some 10)] a /\ chain (nodes s) (get_ptr (head s) :: L) /\
  (get_ptr (tail s) ∈ get_ptr (head s) :: L) /\ Forall2 (data_is (nodes s)) L (aqueue a).
Proof.
  assert (exists s, exec unshared_b sharing (init 1 0) = Some ([CallPush 0 10; CallPop 1; RetPush 0 true; RetPop 1 (Some 10)], s)) as [s E]
    by (apply exec_trace; vm_compute; reflexivity).
  exists s. apply (queue_linearizable 1 0); [lia|].
  apply (exec_runs unshared_b unshared 1 0 sharing _ [] _ s unshared_b_ok (runs_init _ _ _) (quiet_init _ _) E).
Defined.

(** (memory safety) in every run, also when nodes are recycled, the node that a thread reads or
    writes in its next access is one that was allocated. *)
Theorem queue_memory_safe {T : Type} (dummy : Z) (d0 : T) (tr : list event) (s : State) (i : nat) (p : Z) :
  0 < dummy < 2 ^ 48 -> runs (fun _ => True) dummy d0 tr s -> deref (threads s i) = Some p -> is_Some (nodes s !! p).
Proof. intros Hd Hr. destruct (mem_runs _ dummy d0 tr s Hd Hr) as [G HG]. by apply (mem_deref s G i). Qed.

Lemma queue_memory_safe_witness : exists s : @State Z, deref (threads s 1%nat) = Some 2 /\ is_Some (nodes s !! 2).
Proof.
  assert (exists tr s, exec (fun _ => true) destroying (init 1 0) = Some (tr, s) /\ deref (threads s 1%nat) = Some 2) as (tr & s & E & Hd)
    by (apply (exec_view (fun s => deref (threads s 1%nat))); vm_compute; reflexivity).
  exists s. split; [exact Hd|]. apply (queue_memory_safe 1 0 tr s 1%nat); [lia | | exact Hd].
  apply (exec_runs _ (fun _ => True) 1 0 destroying _ [] _ s (fun _ _ _ => I) (runs_init _ _ _) (quiet_init _ _) E).
Defined.

(** (recycling) without that condition the queue is not linearizable: a pop reads [_head],
    another thread pops that node and gets it back for a push, which appends it with a null next
    pointer; the second test compares the heads as booleans, and the pop returns nullopt, although
    at no time between its call and its return the queue was empty. *)
Theorem queue_recycling_not_linearizable : (exists s, runs (fun _ => True) 1 0 recycled s) /\ forall a, ~ aruns recycled a.
Proof.
  split.
  - destruct recycling_runs as [s E]. exists s.
    apply (exec_runs _ (fun _ => True) 1 0 recycling _ [] _ s (fun _ _ _ => I) (runs_init _ _ _) (quiet_init _ _) E).
  - intros a Ha. by destruct (after_aruns _ _ Ha 10%nat) as [[] _].
Qed.

(** Thread 1 is about to read an object that was destroyed. *)
Definition reads_destroyed (s : @State Z) : bool :=
  match threads s 1%nat with
  | PopData _ nx => match nodes s !! get_ptr nx with Some n => match n_data n with None => true | _ => false end | None => false end
  | _ => false
  end.

Lemma reads_destroyed_ok s : reads_destroyed s = true ->
  exists h nx n, threads s 1%nat = PopData h nx /\ nodes s !! get_ptr nx = Some n /\ n_data n = None.
Proof.
  unfold reads_destroyed. destruct (threads s 1%nat) as [| | | | | | | | | | | | | | |h nx| | | |]; try done.
  destruct (nodes s !! get_ptr nx) as [n|] eqn:En; [|done]. destruct (n_data n) eqn:Ed; [done|]. intros _. by exists h, nx, n.
Qed.

(** A pop may read an object whose destructor has run: the copy [next->data] is made before the
    exchange that shows whether the node was still there, so that T has to be trivial, as Requirements
    says. *)
Theorem queue_reads_destroyed : exists tr s h nx n, runs unshared 1 0 tr s /\ threads s 1%nat = PopData h nx /\
  nodes s !! get_ptr nx = Some n /\ n_data n = None.
Proof.
  assert (exists tr s, exec unshared_b destroying (init 1 0) = Some (tr, s) /\ reads_destroyed s = true) as (tr & s & E & H)
    by (apply (exec_view reads_destroyed); vm_compute; reflexivity).
  destruct (reads_destroyed_ok s H) as (h & nx & n & Hs). exists tr, s, h, nx, n. split; [|done].
  apply (exec_runs _ unshared 1 0 destroying _ [] _ s unshared_b_ok (runs_init _ _ _) (quiet_init _ _) E).
Qed.

(** After the destructor, the node of [_head] is neither free nor in a list that will be freed: the
    freelist, destroyed next, frees the nodes in the pool. *)
Example queue_leaks_dummy : (fun s => (elements (dom (nodes s) ∖ pool s), get_ptr (head s))) <$>
  (exec (fun _ => true) (thread0 (push_at 10 2 ++ push_at 20 3)) (init 1 0) ≫= fun r => destroy_queue 3 0 (snd r)) = Some ([3], 3).
Proof. by vm_compute. Qed.
