(* ===== verification/FluentAlgo.v ===== *)
(** * Algorithms and strings of the network library

    The functions of src/net/fluent/include/utils/Algorithms.h and StringUtils.h, on the type
    [int] of the source, with what they compute. *)

From S2P Require Import Prelude.
From stdpp Require Import list.
#[local] Open Scope Z_scope.

(** ** Algorithms.h *)

Definition roundToPowerOfTwo (v : Z) : res Z :=
  v ← sint 32 (v - 1);
  let v := Z.lor v (Z.shiftr v 1) in let v := Z.lor v (Z.shiftr v 2) in
  let v := Z.lor v (Z.shiftr v 4) in let v := Z.lor v (Z.shiftr v 8) in
  let v := Z.lor v (Z.shiftr v 16) in
  sint 32 (v + 1).

Definition lowbit (v : Z) : res Z := m ← sint 32 (- v); Ok (Z.land v m).

Definition isPowerOfTwo (v : Z) : res bool := l ← lowbit v; Ok (v =? l).

(** The loop [for(int i = 31; ~i; --i)]. *)
Fixpoint highest_from (n : nat) (v : Z) : Z :=
  match n with
  | O => 0
  | S i => if negb (Z.land (Z.shiftr v (Z.of_nat i)) 1 =? 0) then Z.of_nat i else highest_from i v
  end.

Definition highestBitPosition (v : Z) : Z := highest_from 32 v.

Definition ceilOfPowerOfTwo (v : Z) : res Z :=
  let n := highestBitPosition v in
  p ← isPowerOfTwo v;
  Ok (if (p : bool) then n else n + 1).

Definition floorOfPowerOfTwo (v : Z) : res Z :=
  let n := highestBitPosition v in
  p ← isPowerOfTwo v;
  Ok (if (p : bool) then n else n - 1).

(** [buf[i] + primes[1]] converts a [char] to [size_t]. *)
Definition hash (buf : list Z) : Z :=
  foldl (fun h c => u64 (h + (c + 233) * h + 998244353)) 19260817 buf.

(** The state is the variable [seed] of the thread. *)
Definition random (seed : Z) : Z * Z :=
  let seed := u64 (seed * 998244353 + 12345) in (seed / 1024, seed).

(** ** StringUtils.h

    A pointer into a text is the rest of the text from there on. *)

(** The two inner loops of the first [split]: on a text that ends with a zero. *)
Fixpoint cstr_while (f : Z -> bool) (str : list Z) : nat * list Z :=
  match str with
  | c :: rest => if negb (c =? 0) && f c then let '(n, s) := cstr_while f rest in (S n, s) else (O, str)
  | [] => (O, [])
  end.

Definition split_cstr_body (pivot : Z) (st : list Z * Z * list (Z * Z)) :
    res (list Z * Z * list (Z * Z) + list (Z * Z)) :=
  let '(str, lo, result) := st in
  match str with
  | c :: _ =>
      if c =? 0 then Ok (inr result) else
      let '(n, str) := cstr_while (fun c => c =? pivot) str in
      lo ← sint 32 (lo + Z.of_nat n);
      let '(m, str) := cstr_while (fun c => negb (c =? pivot)) str in
      hi ← sint 32 (lo + Z.of_nat m);
      Ok (inl (str, hi, if lo <? hi then result ++ [(lo, hi)] else result))
  | [] => Ub ArrayIndex
  end.

(** [split(str, pivot)] of the array [str], which holds a zero. *)
Definition split_cstr (str : list Z) (pivot : Z) : res (list (Z * Z)) :=
  loop (split_cstr_body pivot) (S (length str)) (str, 0, []).

(** The inner loops of the second [split], with the rest of the length. *)
Fixpoint counted_while (f : Z -> bool) (length : nat) (str : list Z) : res (nat * nat * list Z) :=
  match length with
  | O => Ok (O, O, str)
  | S k =>
      match str with
      | [] => Ub ArrayIndex
      | c :: rest => if f c then '(n, k', s) ← counted_while f k rest; Ok (S n, k', s) else Ok (O, length, str)
      end
  end.

Definition split_body (pivot : Z) (st : nat * list Z * Z * list (Z * Z)) :
    res (nat * list Z * Z * list (Z * Z) + list (Z * Z)) :=
  let '(len, str, lo, result) := st in
  match len with
  | O => Ok (inr result)
  | S _ =>
      '(n, len, str) ← counted_while (fun c => c =? pivot) len str;
      let lo := lo + Z.of_nat n in
      '(m, len, str) ← counted_while (fun c => negb (c =? pivot)) len str;
      let hi := lo + Z.of_nat m in
      Ok (inl (len, str, hi, if lo <? hi then result ++ [(lo, hi)] else result))
  end.

(** [split(str, length, pivot)]; the positions do not exceed [length].  A negative length runs
    past the end of every array. *)
Definition split (str : list Z) (len : Z) (pivot : Z) : res (list (Z * Z)) :=
  if len <? 0 then Ub ArrayIndex
  else loop (split_body pivot) (S (Z.to_nat len)) (Z.to_nat len, str, 0, []).

Definition split_string (str : list Z) (pivot : Z) : res (list (Z * Z)) :=
  split str (s32 (Z.of_nat (length str))) pivot.

(** [toDec<T>] for a signed type of [w] bits. *)
Definition toDec (w : Z) (str : list Z) : res Z :=
  foldR (fun dec c => t ← sint w (dec * 10); sint w (t + (c - 48))) 0 str.

(** ** Powers of two *)

(** [y] has the bits of [x] spread to the [n - 1] positions below them. *)
Definition spread (n : Z) (x y : Z) : Prop :=
  forall i, 0 <= i -> Z.testbit y i = true <-> exists j, 0 <= j < n /\ Z.testbit x (i + j) = true.

Lemma spread_one x : spread 1 x x.
Proof.
  intros i Hi. split; [intros H; exists 0; rewrite Z.add_0_r; split; [lia | done]|].
  intros (j & Hj & H). replace (i + j) with i in H by lia. done.
Qed.

Lemma spread_double n x y : 0 < n -> spread n x y -> spread (2 * n) x (Z.lor y (Z.shiftr y n)).
Proof.
  intros Hn H i Hi. rewrite Z.lor_spec, orb_true_iff, Z.shiftr_spec, (H i), (H (i + n)) by lia. split.
  - intros [(j & Hj & E)|(j & Hj & E)]; [exists j | exists (n + j); rewrite Z.add_assoc];
      (split; [lia | done]).
  - intros (j & Hj & E). destruct (decide (j < n)); [left; exists j | right; exists (j - n)];
      (split; [lia|]); [done|]. by replace (i + n + (j - n)) with (i + j) by lia.
Qed.

Lemma spread_all x y k : 0 <= x < 2 ^ k -> 0 <= k -> spread k x y -> 0 <= y ->
  y = if x =? 0 then 0 else Z.ones (Z.log2 x + 1).
Proof.
  intros Hx Hk H Hy. apply Z.bits_inj'. intros i Hi. destruct (Z.eqb_spec x 0) as [->|Hx0].
  { cbn [Z.eqb]. rewrite Z.bits_0. apply not_true_iff_false. rewrite (H i) by done. intros (j & _ & E). by rewrite Z.bits_0 in E. }
  assert (0 < x) by lia. pose proof (Z.log2_nonneg x).
  assert (Z.log2 x < k) by (apply Z.log2_lt_pow2; lia).
  apply eq_true_iff_eq. rewrite (H i) by done. split.
  - intros (j & Hj & E). apply Z.ones_spec_low.
    destruct (decide (i + j <= Z.log2 x)); [lia|]. rewrite Z.bits_above_log2 in E by lia. done.
  - intros E. assert (i <= Z.log2 x).
    { destruct (decide (i <= Z.log2 x)); [done|]. rewrite Z.ones_spec_high in E by lia. done. }
    exists (Z.log2 x - i). split; [lia|]. replace (i + (Z.log2 x - i)) with (Z.log2 x) by lia.
    by apply Z.bit_log2.
Qed.

Definition fill (v : Z) : Z :=
  let v := Z.lor v (Z.shiftr v 1) in let v := Z.lor v (Z.shiftr v 2) in
  let v := Z.lor v (Z.shiftr v 4) in let v := Z.lor v (Z.shiftr v 8) in
  Z.lor v (Z.shiftr v 16).

Lemma fill_spread x : spread 32 x (fill x).
Proof.
  unfold fill. change 32 with (2 * 16). apply spread_double; [done|].
  change 16 with (2 * 8) at 1. apply spread_double; [done|].
  change 8 with (2 * 4) at 1. apply spread_double; [done|].
  change 4 with (2 * 2) at 1. apply spread_double; [done|].
  change 2 with (2 * 1) at 1. apply spread_double; [done|]. apply spread_one.
Qed.

Lemma fill_nonneg x : 0 <= x -> 0 <= fill x.
Proof.
  intros H. unfold fill. repeat first [apply Z.lor_nonneg; split | apply Z.shiftr_nonneg]; done.
Qed.

Lemma fill_negative x : - 2 ^ 31 <= x < 0 -> fill x = - 1.
Proof.
  intros H. apply Z.bits_inj'. intros i Hi. rewrite Z.bits_m1 by done.
  apply fill_spread; [done|]. exists 31. split; [lia|].
  replace x with (Z.lnot (Z.lnot x)) by apply Z.lnot_involutive. rewrite Z.lnot_spec by lia.
  apply negb_true_iff, Z.testbit_false; [lia|]. rewrite Z.div_small; [done|].
  unfold Z.lnot. assert (2 ^ 31 <= 2 ^ (i + 31)) by (apply Z.pow_le_mono_r; lia). lia.
Qed.

(** Every case of [roundToPowerOfTwo]: the least power of two not below a positive argument,
    where it is an [int]. *)
Lemma round_spec v : - 2 ^ 31 <= v < 2 ^ 31 ->
  roundToPowerOfTwo v =
  if v =? - 2 ^ 31 then Ub SignedOverflow else if v <=? 0 then Ok 0
  else if v <=? 2 ^ 30 then Ok (2 ^ Z.log2_up v) else Ub SignedOverflow.
Proof.
  intros Hv. unfold roundToPowerOfTwo. destruct (Z.eqb_spec v (- 2 ^ 31)) as [->|Hm]; [done|].
  rewrite (sint_ok 32) by lia. cbn [mbind res_bind].
  change (sint 32 (fill (v - 1) + 1) = if v <=? 0 then Ok 0
    else if v <=? 2 ^ 30 then Ok (2 ^ Z.log2_up v) else Ub SignedOverflow).
  destruct (Z.leb_spec v 0).
  { rewrite fill_negative by lia. done. }
  rewrite (spread_all (v - 1) (fill (v - 1)) 32) by (lia || apply fill_spread || apply fill_nonneg; lia).
  destruct (Z.eqb_spec (v - 1) 0) as [E|E].
  { replace v with 1 by lia. done. }
  rewrite Z.log2_up_eqn by lia. replace (Z.pred v) with (v - 1) by lia.
  rewrite Z.ones_equiv. pose proof (Z.log2_nonneg (v - 1)).
  replace (Z.pred (2 ^ (Z.log2 (v - 1) + 1)) + 1) with (2 ^ Z.succ (Z.log2 (v - 1))) by (rewrite <- Z.add_1_r; lia).
  destruct (Z.leb_spec v (2 ^ 30)).
  - apply sint_ok. assert (Z.log2 (v - 1) < 30) by (apply Z.log2_lt_pow2; lia).
    assert (2 ^ Z.succ (Z.log2 (v - 1)) <= 2 ^ 30) by (apply Z.pow_le_mono_r; lia). lia.
  - apply sint_out. right. assert (30 <= Z.log2 (v - 1)) by (apply Z.log2_le_pow2; lia).
    apply Z.pow_le_mono_r; lia.
Qed.

Lemma land_neg v : Z.land v (- v) = Z.ldiff v (v - 1).
Proof.
  rewrite Z.ldiff_land. f_equal. unfold Z.lnot. lia.
Qed.

Lemma is_power_spec v : 0 <= v < 2 ^ 31 ->
  isPowerOfTwo v = Ok (bool_decide (v = 0 \/ v = 2 ^ Z.log2 v)).
Proof.
  intros Hv. unfold isPowerOfTwo, lowbit. rewrite sint_ok by lia. cbn [mbind res_bind]. f_equal.
  rewrite land_neg. apply eq_true_iff_eq. rewrite Z.eqb_eq, bool_decide_eq_true.
  destruct (decide (v = 0)) as [->|H0]; [by split; [left|]|]. split.
  - intros E. right. pose proof (Z.log2_spec v ltac:(lia)) as [Hlo Hhi].
    destruct (decide (v = 2 ^ Z.log2 v)) as [|Hne]; [done|]. exfalso.
    assert (0 < 2 ^ Z.log2 v) by (apply Z.pow_pos_nonneg; [done | apply Z.log2_nonneg]).
    assert (Z.log2 (v - 1) = Z.log2 v) as Hl by (apply Z.log2_unique; [apply Z.log2_nonneg | lia..]).
    assert (Z.testbit (Z.ldiff v (v - 1)) (Z.log2 v) = true) as E'.
    { rewrite <- E. apply Z.bit_log2. lia. }
    rewrite Z.ldiff_spec in E'. rewrite <- Hl in E'. rewrite (Z.bit_log2 (v - 1)) in E' by lia.
    by rewrite andb_false_r in E'.
  - intros [|E]; [done|]. set (k := Z.log2 v) in *. assert (0 <= k) by apply Z.log2_nonneg.
    rewrite E. replace (2 ^ k - 1) with (Z.ones k) by (rewrite Z.ones_equiv; lia).
    rewrite Z.ldiff_ones_r by done. rewrite Z.shiftr_div_pow2, Z.div_same, Z.shiftl_1_l; try done.
    apply Z.pow_nonzero; lia.
Qed.

Lemma highest_from_spec n v : 0 < v < 2 ^ Z.of_nat n -> highest_from n v = Z.log2 v.
Proof.
  induction n as [|n IH]; intros Hv; [cbn in Hv; lia|]. cbn [highest_from].
  destruct (decide (v < 2 ^ Z.of_nat n)).
  - rewrite Z.shiftr_div_pow2, Z.div_small by lia. cbn. apply IH. lia.
  - rewrite Nat2Z.inj_succ, Z.pow_succ_r in Hv by lia.
    rewrite Z.shiftr_div_pow2 by lia.
    replace (v / 2 ^ Z.of_nat n) with 1 by (apply Z.div_unique with (v - 2 ^ Z.of_nat n); lia).
    change (Z.land 1 1 =? 0) with false. cbn [negb]. symmetry. apply Z.log2_unique; [lia|].
    rewrite Z.pow_succ_r by lia. lia.
Qed.

Lemma highest_spec v : 0 < v < 2 ^ 31 -> highestBitPosition v = Z.log2 v.
Proof. intros. apply highest_from_spec. change (Z.of_nat 32) with 32. lia. Qed.

(** The helpers on the positive numbers: [ceilOfPowerOfTwo] is the logarithm rounded up;
    [floorOfPowerOfTwo] is one less than the logarithm rounded down, except on powers of two. *)
Lemma logarithms_spec v : 0 < v < 2 ^ 31 ->
  highestBitPosition v = Z.log2 v /\
  ceilOfPowerOfTwo v = Ok (Z.log2_up v) /\
  floorOfPowerOfTwo v = Ok (if bool_decide (v = 2 ^ Z.log2 v) then Z.log2 v else Z.log2 v - 1).
Proof.
  intros Hv. unfold ceilOfPowerOfTwo, floorOfPowerOfTwo. rewrite is_power_spec, highest_spec by lia.
  cbn [mbind res_bind]. split; [done|].
  rewrite (bool_decide_ext (v = 0 \/ v = 2 ^ Z.log2 v) (v = 2 ^ Z.log2 v)) by lia.
  split; [|done]. f_equal. case_bool_decide as H.
  - rewrite H at 2. rewrite Z.log2_up_pow2; [done | apply Z.log2_nonneg].
  - assert (v <> 1) by (by intros ->). pose proof (Z.log2_spec v ltac:(lia)). rewrite Z.log2_up_eqn by lia.
    rewrite <- Z.add_1_r. f_equal. symmetry. apply Z.log2_unique; [apply Z.log2_nonneg | lia..].
Qed.

(** ** Splitting *)

(** The maximal runs of other characters than the pivot, in a text that starts at [k]. *)
Fixpoint runs_of (pivot k : Z) (str : list Z) : list (Z * Z) :=
  match str with
  | [] => []
  | c :: s =>
      if c =? pivot then runs_of pivot (k + 1) s
      else match runs_of pivot (k + 1) s with
           | (lo, hi) :: r => if lo =? k + 1 then (k, hi) :: r else (k, k + 1) :: (lo, hi) :: r
           | [] => [(k, k + 1)]
           end
  end.

Lemma runs_skip pivot k w s :
  Forall (fun c => (c =? pivot) = true) w -> runs_of pivot k (w ++ s) = runs_of pivot (k + Z.of_nat (length w)) s.
Proof.
  intros H. revert k. induction H as [|c w Hc _ IH]; intros k; cbn [app runs_of length].
  - f_equal. lia.
  - rewrite Hc, IH. f_equal. lia.
Qed.

Lemma runs_start pivot k s : hd_error s = None \/ hd_error s = Some pivot ->
  match runs_of pivot k s with [] => True | p :: _ => k < p.1 end.
Proof.
  assert (forall s k, match runs_of pivot k s with [] => True | p :: _ => k <= p.1 end) as Hle.
  { clear. induction s as [|c s IH]; intros k; cbn [runs_of]; [done|]. specialize (IH (k + 1)).
    destruct (c =? pivot), (runs_of pivot (k + 1) s) as [|[lo hi] r]; cbn in *; try lia; try done.
    destruct (lo =? k + 1); cbn; lia. }
  intros H. destruct s as [|c s]; [done|]. destruct H as [[=]|[= ->]]. cbn [runs_of]. rewrite Z.eqb_refl.
  specialize (Hle s (k + 1)). destruct (runs_of pivot (k + 1) s); [done | lia].
Qed.

Lemma runs_run pivot k w s :
  Forall (fun c => negb (c =? pivot) = true) w -> w <> [] -> hd_error s = None \/ hd_error s = Some pivot ->
  runs_of pivot k (w ++ s) = (k, k + Z.of_nat (length w)) :: runs_of pivot (k + Z.of_nat (length w)) s.
Proof.
  intros H. revert k. induction H as [|c w Hc Hw IH]; intros k Hne Hs; [done|].
  apply negb_true_iff in Hc. cbn [app runs_of length]. rewrite Hc. destruct w as [|c' w].
  - cbn [app length]. pose proof (runs_start pivot (k + 1) s Hs) as Hr. change (Z.of_nat 1) with 1.
    destruct (runs_of pivot (k + 1) s) as [|[lo hi] r]; [done|]. cbn in Hr.
    destruct (Z.eqb_spec lo (k + 1)); [lia | done].
  - rewrite IH by done. rewrite Z.eqb_refl.
    replace (k + 1 + Z.of_nat (length (c' :: w))) with (k + Z.of_nat (S (length (c' :: w)))) by lia. done.
Qed.

(** What the two loops of [split] leave: the runs are separated, and a position is in one of
    them when the character there is not the pivot. *)
Definition separated (r : list (Z * Z)) : Prop :=
  (forall i p, r !! i = Some p -> p.1 < p.2) /\
  (forall i p q, r !! i = Some p -> r !! S i = Some q -> p.2 < q.1).

Definition in_run (r : list (Z * Z)) (i : Z) : Prop := exists p, p ∈ r /\ p.1 <= i < p.2.

Lemma separated_cons p r : p.1 < p.2 -> match r with [] => True | q :: _ => p.2 < q.1 end ->
  separated r -> separated (p :: r).
Proof.
  intros Hp Hq [H1 H2]. split.
  - intros [|i] p' E; [by injection E as <- | by apply (H1 i)].
  - intros [|i] p' q E E'; [|by apply (H2 i)]. injection E as <-. destruct r; [done|]. by injection E' as <-.
Qed.

Lemma separated_extend k p r : k < p.1 -> separated (p :: r) -> separated ((k, p.2) :: r).
Proof.
  intros Hk [H1 H2]. pose proof (H1 O p eq_refl). apply separated_cons; [cbn; lia | |].
  - destruct r as [|q r]; [done|]. by apply (H2 O p q).
  - split; [intros i; apply (H1 (S i)) | intros i; apply (H2 (S i))].
Qed.

Lemma runs_separated pivot k s :
  separated (runs_of pivot k s) /\ match runs_of pivot k s with [] => True | p :: _ => k <= p.1 end.
Proof.
  revert k. induction s as [|c s IH]; intros k; cbn [runs_of].
  { split; [|done]. by split; intros [|]. }
  destruct (IH (k + 1)) as [Hs Hk]. clear IH. destruct (c =? pivot).
  { split; [done|]. destruct (runs_of pivot (k + 1) s); [done | lia]. }
  destruct (runs_of pivot (k + 1) s) as [|[lo hi] r]; cbn in Hk.
  - split; [|cbn; lia]. apply separated_cons; cbn; [lia | done | done].
  - destruct (Z.eqb_spec lo (k + 1)); (split; [|cbn; lia]).
    + apply (separated_extend k (lo, hi)); [cbn; lia | done].
    + apply separated_cons; cbn; [lia | lia | done].
Qed.

Lemma in_run_cons p r i : in_run (p :: r) i <-> p.1 <= i < p.2 \/ in_run r i.
Proof.
  unfold in_run. split.
  - intros (q & Hq & H). apply elem_of_cons in Hq as [->|Hq]; [by left | right; by exists q].
  - intros [H|(q & Hq & H)]; [exists p | exists q]; (split; [|done]); [by left | by right].
Qed.

Lemma runs_cover pivot k s i :
  in_run (runs_of pivot k s) i <-> exists j c, s !! j = Some c /\ i = k + Z.of_nat j /\ c <> pivot.
Proof.
  revert k. induction s as [|c s IH]; intros k.
  { split; [by intros (p & Hp%elem_of_nil & _) | by intros (j & c & [=] & _)]. }
  assert (in_run (runs_of pivot k (c :: s)) i <-> (i = k /\ c <> pivot) \/ in_run (runs_of pivot (k + 1) s) i) as ->.
  { pose proof (runs_separated pivot (k + 1) s) as [[Hs _] Hk]. cbn [runs_of].
    destruct (Z.eqb_spec c pivot) as [->|Hc]; [tauto|].
    destruct (runs_of pivot (k + 1) s) as [|[lo hi] r]; cbn in Hk.
    - rewrite in_run_cons. cbn. assert (k <= i < k + 1 <-> i = k) by lia. tauto.
    - specialize (Hs O _ eq_refl). cbn in Hs.
      destruct (Z.eqb_spec lo (k + 1)) as [->|]; rewrite !in_run_cons; cbn.
      + assert (k <= i < hi <-> i = k \/ k + 1 <= i < hi) by lia. tauto.
      + assert (k <= i < k + 1 <-> i = k) by lia. tauto. }
  rewrite IH. split.
  - intros [[-> Hc]|(j & d & E & -> & Hd)]; [exists O, c | exists (S j), d]; (split_and!; [done | lia | done]).
  - intros ([|j] & d & E & -> & Hd); [injection E as ->; left; split; [lia | done]|].
    right. exists j, d. split_and!; [done | lia | done].
Qed.

Lemma counted_while_spec f str :
  exists w rest, str = w ++ rest /\ Forall (fun c => f c = true) w /\
    match rest with [] => True | c :: _ => f c = false end /\
    counted_while f (length str) str = Ok (length w, length rest, rest).
Proof.
  induction str as [|c str (w & rest & -> & Hw & Hr & E)]; [by exists [], []|].
  cbn [length counted_while]. destruct (f c) eqn:Ec.
  - exists (c :: w), rest. split_and!; [done | by constructor | done|]. by rewrite E.
  - exists [], (c :: w ++ rest). split_and!; [done | constructor | done | done].
Qed.

(** One turn of the outer loop passes a run of pivots and a run of other characters. *)
Lemma split_turn f g pivot str lo :
  (forall c, f c = (c =? pivot)) -> (forall c, g c = negb (c =? pivot)) ->
  forall w1 w2 rest, str = w1 ++ w2 ++ rest ->
  Forall (fun c => f c = true) w1 -> Forall (fun c => g c = true) w2 ->
  match w2 ++ rest with [] => True | c :: _ => f c = false end ->
  match rest with [] => True | c :: _ => g c = false end ->
  let lo1 := lo + Z.of_nat (length w1) in let hi := lo1 + Z.of_nat (length w2) in
  runs_of pivot lo str = (if lo1 <? hi then [(lo1, hi)] else []) ++ runs_of pivot hi rest /\
  (str <> [] -> (length rest < length str)%nat).
Proof.
  intros Hf Hg w1 w2 rest -> H1 H2 Hh Hr lo1 hi.
  rewrite runs_skip by (eapply Forall_impl; [exact H1|]; intros c; cbn; by rewrite Hf).
  fold lo1. rewrite !length_app. split.
  - destruct w2 as [|c w2].
    + destruct (Z.ltb_spec lo1 hi); [cbn in *; lia|]. cbn [app]. f_equal. cbn in *. lia.
    + destruct (Z.ltb_spec lo1 hi); [|cbn in *; lia]. rewrite runs_run; [done | | done |].
      * eapply Forall_impl; [exact H2|]. intros d. cbn. by rewrite Hg.
      * destruct rest as [|d rest]; [by left|]. right. rewrite Hg in Hr. cbn. f_equal. lia.
  - intros Hne. destruct w1, w2; cbn in *; try lia. destruct rest as [|d rest]; [done|].
    rewrite Hf in Hh. rewrite Hg, Hh in Hr. done.
Qed.

Lemma split_body_spec pivot str lo r : str <> [] ->
  exists str' lo' ws, split_body pivot (length str, str, lo, r) = Ok (inl (length str', str', lo', r ++ ws)) /\
    runs_of pivot lo str = ws ++ runs_of pivot lo' str' /\ (length str' < length str)%nat.
Proof.
  intros Hne. unfold split_body. destruct (length str) as [|k] eqn:El; [by destruct str|]. rewrite <- El.
  destruct (counted_while_spec (fun c => c =? pivot) str) as (w1 & s1 & E1 & Hw1 & Hh & ->). cbn [mbind res_bind].
  destruct (counted_while_spec (fun c => negb (c =? pivot)) s1) as (w2 & rest & -> & Hw2 & Hr & ->). cbn [mbind res_bind].
  destruct (split_turn _ _ pivot str lo ltac:(done) ltac:(done) w1 w2 rest E1 Hw1 Hw2 Hh Hr) as [E Hlt].
  eexists rest, _, _. split_and!; [|exact E | by apply Hlt].
  do 2 f_equal. case_match; [done | by rewrite app_nil_r].
Qed.

Lemma split_loop pivot n str lo r : (length str < n)%nat ->
  loop (split_body pivot) n (length str, str, lo, r) = Ok (r ++ runs_of pivot lo str).
Proof.
  revert str lo r. induction n as [|n IH]; intros str lo r Hn; [lia|]. rewrite loop_S.
  destruct (decide (str = [])) as [->|Hne]; [cbn; by rewrite app_nil_r|].
  destruct (split_body_spec pivot str lo r Hne) as (str' & lo' & ws & -> & -> & Hlt). cbn [mbind res_bind].
  rewrite IH by lia. by rewrite <- app_assoc.
Qed.

Lemma split_runs str pivot : Z.of_nat (length str) < 2 ^ 31 -> split_string str pivot = Ok (runs_of pivot 0 str).
Proof.
  intros H. unfold split_string, split. rewrite swrap_id by (try done; apply sfits_spec; lia).
  destruct (Z.ltb_spec (Z.of_nat (length str)) 0); [lia|]. rewrite Nat2Z.id. rewrite split_loop; [done | lia].
Qed.

Lemma cstr_while_spec f str tl : Forall (fun c => c <> 0) str ->
  exists w rest, str = w ++ rest /\ Forall (fun c => f c = true) w /\
    match rest with [] => True | c :: _ => f c = false end /\
    cstr_while f (str ++ 0 :: tl) = (length w, rest ++ 0 :: tl).
Proof.
  induction 1 as [|c str Hc _ (w & rest & -> & Hw & Hr & E)]; [by exists [], []|].
  cbn [app cstr_while]. rewrite (proj2 (Z.eqb_neq c 0)) by done. cbn [negb andb]. destruct (f c) eqn:Ec.
  - exists (c :: w), rest. split_and!; [done | by constructor | done|]. by rewrite E.
  - exists [], (c :: w ++ rest). split_and!; [done | apply List.Forall_nil | done | done].
Qed.

Lemma split_cstr_body_spec pivot str tl lo r :
  Forall (fun c => c <> 0) str -> 0 <= lo -> lo + Z.of_nat (length str) < 2 ^ 31 -> str <> [] ->
  exists str' lo' ws, split_cstr_body pivot (str ++ 0 :: tl, lo, r) = Ok (inl (str' ++ 0 :: tl, lo', r ++ ws)) /\
    runs_of pivot lo str = ws ++ runs_of pivot lo' str' /\ (length str' < length str)%nat /\
    Forall (fun c => c <> 0) str' /\ 0 <= lo' /\ lo' + Z.of_nat (length str') = lo + Z.of_nat (length str).
Proof.
  intros Hz Hlo Hmax Hne. unfold split_cstr_body.
  destruct (str ++ 0 :: tl) as [|c s] eqn:E; [by destruct str|].
  assert (c <> 0) as Hc by (destruct Hz; [done | by injection E as ->]).
  rewrite (proj2 (Z.eqb_neq c 0)) by done. rewrite <- E. clear c s E Hc.
  destruct (cstr_while_spec (fun c => c =? pivot) str tl Hz) as (w1 & s1 & E1 & Hw1 & Hh & ->).
  rewrite E1, length_app in *. apply Forall_app in Hz as [_ Hz].
  rewrite sint_ok by lia. cbn [mbind res_bind].
  destruct (cstr_while_spec (fun c => negb (c =? pivot)) s1 tl Hz) as (w2 & rest & -> & Hw2 & Hr & ->).
  apply Forall_app in Hz as [_ Hz]. rewrite length_app in *. rewrite sint_ok by lia. cbn [mbind res_bind].
  destruct (split_turn _ _ pivot str lo ltac:(done) ltac:(done) w1 w2 rest E1 Hw1 Hw2 Hh Hr) as [E Hlt].
  rewrite E1, !length_app in Hlt. rewrite E1 in E. specialize (Hlt Hne).
  eexists rest, _, _. split_and!; [|exact E | lia | done | lia | lia].
  do 2 f_equal. case_match; [done | by rewrite app_nil_r].
Qed.

Lemma split_cstr_loop pivot n str tl lo r :
  Forall (fun c => c <> 0) str -> 0 <= lo -> lo + Z.of_nat (length str) < 2 ^ 31 -> (length str < n)%nat ->
  loop (split_cstr_body pivot) n (str ++ 0 :: tl, lo, r) = Ok (r ++ runs_of pivot lo str).
Proof.
  revert str lo r. induction n as [|n IH]; intros str lo r Hz Hlo Hmax Hn; [lia|]. rewrite loop_S.
  destruct (decide (str = [])) as [->|Hne]; [cbn; by rewrite app_nil_r|].
  destruct (split_cstr_body_spec pivot str tl lo r Hz Hlo Hmax Hne) as (str' & lo' & ws & -> & -> & Hlt & Hz' & Hlo' & E).
  cbn [mbind res_bind]. rewrite IH by (done || lia). by rewrite <- app_assoc.
Qed.

(** The two functions agree on the texts that are C strings. *)
Lemma split_cstr_runs str tl pivot : Forall (fun c => c <> 0) str -> Z.of_nat (length str) < 2 ^ 31 ->
  split_cstr (str ++ 0 :: tl) pivot = Ok (runs_of pivot 0 str).
Proof.
  intros Hz Hl. unfold split_cstr. rewrite split_cstr_loop; [done..| rewrite length_app; cbn; lia].
Qed.
