(* ===== verification/FluentBuffer.v ===== *)
(** * The buffer of a connection

    The class Buffer of src/net/fluent/include/network/Buffer.h: bytes that came and were not
    read yet, in a vector with a read and a write position.  What the system calls return is an
    argument of the operations that make them. *)

From S2P Require Import Prelude Bytes FluentAlgo.
From stdpp Require Import list.
#[local] Open Scope Z_scope.

Record Buffer : Type := mkBuffer { _buf : list Z; _capacity : Z; _r : Z; _w : Z }.

(** The vector holds zeros where nothing was written yet. *)
Definition Buffer_new (size : Z) : Buffer := mkBuffer (replicate (Z.to_nat size) 0) size 0 0.

Definition unread (b : Buffer) : Z := _w b - _r b.
Definition unwrite (b : Buffer) : Z := _capacity b - _w b.
Definition available (b : Buffer) : Z := _capacity b - unread b.

Definition clear (b : Buffer) : Buffer := mkBuffer (_buf b) (_capacity b) 0 0.

(** [gc()]: memmove of the unread bytes to the front. *)
Definition gc (b : Buffer) : res Buffer :=
  if 0 <? _r b then
    bs ← slice (_buf b) (_r b) (unread b);
    buf ← write_bytes (_buf b) 0 bs;
    Ok (mkBuffer buf (_capacity b) 0 (unread b))
  else Ok b.

Definition reuseIfPossible (b : Buffer) : res Buffer :=
  if _r b =? _w b then Ok (clear b)
  else
    let bufferRest := unread b in
    if (bufferRest <? Z.shiftr (_capacity b) 4) && (Z.shiftr (_capacity b) 4 <? _r b) then gc b
    else Ok b.

(** [std::vector::resize]; an exception ends the program. *)
Definition resize (buf : list Z) (n : Z) : res (list Z) :=
  if n <? 0 then Ub AssertFailed
  else Ok (take (Z.to_nat n) buf ++ replicate (Z.to_nat n - length buf) 0).

Definition expandTo (size : Z) (b : Buffer) : res Buffer :=
  buf ← resize (_buf b) size; Ok (mkBuffer buf size (_r b) (_w b)).

Definition expand (b : Buffer) : res Buffer := expandTo (_capacity b * 2) b.

(** [gc(hint)]; the argument of [roundToPowerOfTwo] is converted to [int]. *)
Definition gc_hint (hint : Z) (b : Buffer) : res Buffer :=
  if hint <=? unwrite b then Ok b
  else
    b ← gc b;
    if available b <? hint then
      let appendSize := hint - available b in
      let expectSize := Z.of_nat (length (_buf b)) + appendSize in
      size ← roundToPowerOfTwo (s32 expectSize);
      expandTo size b
    else Ok b.

Definition hasRead (n : Z) (b : Buffer) : res Buffer :=
  reuseIfPossible (mkBuffer (_buf b) (_capacity b) (_r b + n) (_w b)).

Definition hasWritten (n : Z) (b : Buffer) : Buffer :=
  mkBuffer (_buf b) (_capacity b) (_r b) (_w b + n).

Definition append (data : list Z) (b : Buffer) : res Buffer :=
  let size := Z.of_nat (length data) in
  b ← gc_hint size b;
  buf ← write_bytes (_buf b) (_w b) data;
  Ok (hasWritten size (mkBuffer buf (_capacity b) (_r b) (_w b))).

(** [readBuffer()] with [unread()]: the bytes that can be read. *)
Definition readable (b : Buffer) : res (list Z) := slice (_buf b) (_r b) (unread b).

(** What [readv] returns: a failure, or the bytes it has stored, first into the space of the
    buffer and then into [localBuffer]. *)
Inductive readv_result : Type := ReadvFailed | ReadvBytes (bs : list Z).

Definition LOCAL_SIZE : Z := 2 ^ 16.

Definition readFrom (k : readv_result) (b : Buffer) : res (Z * Buffer) :=
  let bufferLimit := unwrite b in
  match k with
  | ReadvFailed => Ok (- 1, b)
  | ReadvBytes bs =>
      let n := Z.of_nat (length bs) in
      buf ← write_bytes (_buf b) (_w b) (take (Z.to_nat bufferLimit) bs);
      let b := mkBuffer buf (_capacity b) (_r b) (_w b) in
      if 0 <? n then
        if n <=? bufferLimit then Ok (n, hasWritten n b)
        else
          let b := hasWritten bufferLimit b in
          b ← append (drop (Z.to_nat bufferLimit) bs) b;
          Ok (n, b)
      else Ok (n, b)
  end.

(** What [write] returns: an error number, or how many bytes it has taken. *)
Inductive write_result : Type := WriteFailed (errno : Z) | Wrote (n : Z).

Definition EINTR : Z := 4.
Definition EAGAIN : Z := 11.

(** The value returned with the buffer after, or the exception WriteException. *)
Inductive wrote : Type := WriteException (errno : Z) | WroteTo (n : Z) (b : Buffer).

Definition writeTo (k : write_result) (b : Buffer) : res wrote :=
  match k with
  | WriteFailed errno =>
      if (errno =? EAGAIN) || (errno =? EINTR)
      then b ← hasRead 0 b; Ok (WroteTo 0 b)
      else Ok (WriteException errno)
  | Wrote n => b ← hasRead n b; Ok (WroteTo n b)
  end.

(** ** The queue of bytes that it implements *)

Definition content (b : Buffer) : list Z := take (Z.to_nat (unread b)) (drop (Z.to_nat (_r b)) (_buf b)).

Record wf (b : Buffer) : Prop := {
  wf_size : Z.of_nat (length (_buf b)) = _capacity b;
  wf_read : 0 <= _r b <= _w b;
  wf_write : _w b <= _capacity b;
}.

#[local] Ltac bsimpl := cbn [_buf _capacity _r _w] in *.

Lemma length_content b : wf b -> Z.of_nat (length (content b)) = unread b.
Proof. intros [H1 H2 H3]. unfold content, unread. rewrite length_take, length_drop. lia. Qed.

Lemma new_wf size : 0 <= size -> wf (Buffer_new size) /\ content (Buffer_new size) = [].
Proof.
  intros H. split; [|done]. unfold Buffer_new. constructor; bsimpl; [rewrite length_replicate|..]; cbn; lia.
Qed.

Lemma readable_content b : wf b -> readable b = Ok (content b).
Proof. intros [H1 H2 H3]. unfold readable, content. apply slice_ok; unfold unread; lia. Qed.

(** [b'] holds the same bytes as [b]. *)
Record same (b b' : Buffer) : Prop := {
  same_wf : wf b';
  same_content : content b' = content b;
}.

Lemma same_refl b : wf b -> same b b.
Proof. by constructor. Qed.

Lemma same_trans b1 b2 b3 : same b1 b2 -> same b2 b3 -> same b1 b3.
Proof. intros [_ E] [H E']. constructor; [done | by rewrite E']. Qed.

Lemma same_unread b b' : wf b -> same b b' -> unread b' = unread b.
Proof. intros H [H' E]. rewrite <- !length_content by done. by rewrite E. Qed.

(** A write in front of the bytes of a prefix. *)
Lemma write_front {A} (buf bs : list A) : (length bs <= length buf)%nat ->
  write_bytes buf 0 bs = Ok (bs ++ drop (length bs) buf).
Proof. intros H. unfold write_bytes. rewrite !(proj2 (Z.leb_le _ _)) by lia. done. Qed.

Lemma gc_spec b : wf b ->
  exists b', gc b = Ok b' /\ same b b' /\ _capacity b' = _capacity b /\ _r b' = 0.
Proof.
  intros H. pose proof H as [H1 H2 H3]. unfold gc. destruct (Z.ltb_spec 0 (_r b)).
  2:{ exists b. split_and!; [done | by apply same_refl | done | lia]. }
  change (slice (_buf b) (_r b) (unread b)) with (readable b). rewrite readable_content by done. cbn [mbind res_bind].
  pose proof (length_content b H) as Hl. unfold unread in Hl.
  rewrite write_front by lia. cbn [mbind res_bind]. eexists. split_and!; [done| |done..].
  constructor; [constructor|]; bsimpl.
  - rewrite length_app, length_drop. lia.
  - unfold unread. lia.
  - unfold unread. lia.
  - unfold content at 1. bsimpl. unfold unread at 1. bsimpl. rewrite Z.sub_0_r, <- (length_content b H), Nat2Z.id.
    change (Z.to_nat 0) with O. by rewrite drop_0, take_app_length.
Qed.

Lemma clear_same b : wf b -> unread b = 0 -> same b (clear b).
Proof.
  intros H E. pose proof H as [H1 H2 H3]. constructor; [constructor; cbn; lia|].
  unfold content. rewrite E. done.
Qed.

Lemma reuse_spec b : wf b -> exists b', reuseIfPossible b = Ok b' /\ same b b' /\ _capacity b' = _capacity b.
Proof.
  intros H. unfold reuseIfPossible. destruct (Z.eqb_spec (_r b) (_w b)).
  { eexists. split_and!; [done| |done]. apply clear_same; [done | unfold unread; lia]. }
  case_match; [|exists b; split_and!; [done | by apply same_refl | done]].
  destruct (gc_spec b H) as (b' & ? & ? & ? & _). by exists b'.
Qed.

Lemma resize_grow buf n : Z.of_nat (length buf) <= n -> resize buf n = Ok (buf ++ replicate (Z.to_nat n - length buf) 0).
Proof.
  intros H. unfold resize. destruct (Z.ltb_spec n 0); [lia|]. by rewrite take_ge by lia.
Qed.

Lemma expandTo_spec size b : wf b -> _capacity b <= size ->
  exists b', expandTo size b = Ok b' /\ same b b' /\ _capacity b' = size /\ _w b' = _w b.
Proof.
  intros H Hs. pose proof H as [H1 H2 H3]. unfold expandTo. rewrite resize_grow by lia. cbn [mbind res_bind].
  eexists. split_and!; [done| |done..]. constructor; [constructor|]; bsimpl.
  - rewrite length_app, length_replicate. lia.
  - lia.
  - lia.
  - unfold content, unread. bsimpl. rewrite drop_app_le, take_app_le; [done | rewrite length_drop; lia | lia].
Qed.

Lemma log2_up_bounds e : 1 <= e -> e <= 2 ^ Z.log2_up e <= 2 * e.
Proof.
  intros H. destruct (decide (e = 1)) as [->|]; [done|].
  pose proof (Z.log2_up_spec e ltac:(lia)) as [Hlo Hhi]. split; [done|].
  assert (0 < Z.log2_up e) by (apply Z.log2_up_pos; lia).
  replace (2 ^ Z.log2_up e) with (2 * 2 ^ Z.pred (Z.log2_up e)); [lia|].
  rewrite <- Z.pow_succ_r by lia. f_equal. lia.
Qed.

(** How far a buffer may have grown when it holds [n] bytes. *)
Definition grown (b b' : Buffer) (n : Z) : Prop :=
  _capacity b <= _capacity b' /\ (_capacity b' = _capacity b \/ n <= _capacity b' <= 2 * n).

(** The number of bytes a buffer can be made to hold: up to its size, or up to the powers of
    two of the type [int]. *)
Definition holdable (b : Buffer) (n : Z) : Prop := n <= 2 ^ 30 \/ n <= _capacity b.

Lemma gc_hint_spec hint b : wf b -> 0 <= hint -> holdable b (unread b + hint) ->
  exists b', gc_hint hint b = Ok b' /\ same b b' /\ hint <= unwrite b' /\ grown b b' (unread b + hint).
Proof.
  intros H Hh Hmax. unfold gc_hint. destruct (Z.leb_spec hint (unwrite b)).
  { exists b. split_and!; [done | by apply same_refl | done | by split; [|left]]. }
  destruct (gc_spec b H) as (b1 & -> & S1 & C1 & R1). cbn [mbind res_bind].
  pose proof (same_unread _ _ H S1) as U1. pose proof (same_wf _ _ S1) as W1. pose proof W1 as [G1 G2 G3].
  assert (available b1 = unwrite b1) as A1 by (unfold available, unwrite, unread; lia).
  destruct (Z.ltb_spec (available b1) hint).
  2:{ exists b1. split_and!; [done | done | lia | split; [lia | by left]]. }
  assert (available b1 = _capacity b1 - unread b) as A2 by (unfold available; lia).
  assert (0 <= unread b) by (rewrite <- U1; unfold unread; lia).
  set (e := unread b + hint) in *. replace (_ + (hint - available b1)) with e by lia.
  assert (e <= 2 ^ 30) by (destruct Hmax; lia).
  rewrite swrap_id by (try done; apply sfits_spec; lia). rewrite round_spec by lia.
  destruct (Z.eqb_spec e (- 2 ^ 31)); [lia|]. destruct (Z.leb_spec e 0); [lia|].
  rewrite (proj2 (Z.leb_le e (2 ^ 30))) by done. cbn [mbind res_bind].
  pose proof (log2_up_bounds e ltac:(lia)) as Hb.
  destruct (expandTo_spec (2 ^ Z.log2_up e) b1 W1) as (b2 & -> & S2 & C2 & E2); [lia|].
  exists b2. split_and!; [done | by apply (same_trans _ b1) | | split; [lia | right; lia]].
  assert (_w b1 = unread b) by (rewrite <- U1; unfold unread; lia). unfold unwrite. rewrite C2, E2. lia.
Qed.

(** Bytes stored behind the content become part of it. *)
Lemma store_spec bs b : wf b -> Z.of_nat (length bs) <= unwrite b ->
  exists buf, write_bytes (_buf b) (_w b) bs = Ok buf /\
    let b' := hasWritten (Z.of_nat (length bs)) (mkBuffer buf (_capacity b) (_r b) (_w b)) in
    wf b' /\ content b' = content b ++ bs /\ _capacity b' = _capacity b.
Proof.
  intros [H1 H2 H3] Hb. unfold unwrite in Hb. unfold write_bytes.
  rewrite !(proj2 (Z.leb_le _ _)) by lia. cbn [andb]. eexists. split; [done|]. cbn zeta. split_and!; [constructor| |done].
  - unfold hasWritten. bsimpl. rewrite !length_app, length_take, length_drop. lia.
  - unfold hasWritten. bsimpl. lia.
  - unfold hasWritten. bsimpl. lia.
  - unfold content, unread, hasWritten. bsimpl.
    rewrite drop_app_le by (rewrite length_take; lia).
    rewrite app_assoc, take_app_le by (rewrite length_app, length_drop, length_take; lia).
    rewrite take_ge by (rewrite length_app, length_drop, length_take; lia).
    f_equal. rewrite skipn_firstn_comm. f_equal. lia.
Qed.

Lemma append_spec data b : wf b -> holdable b (unread b + Z.of_nat (length data)) ->
  exists b', append data b = Ok b' /\ wf b' /\ content b' = content b ++ data /\
    grown b b' (unread b + Z.of_nat (length data)).
Proof.
  intros H Hm. unfold append.
  destruct (gc_hint_spec (Z.of_nat (length data)) b H ltac:(lia) Hm) as (b1 & -> & [W1 E1] & U1 & G1). cbn [mbind res_bind].
  destruct (store_spec data b1 W1 U1) as (buf & -> & W2 & E2 & C2). cbn [mbind res_bind].
  eexists. split_and!; [done | done | by rewrite E2, E1 |]. unfold grown in *. by rewrite C2.
Qed.

Lemma hasRead_spec n b : wf b -> 0 <= n <= unread b ->
  exists b', hasRead n b = Ok b' /\ wf b' /\ content b' = drop (Z.to_nat n) (content b) /\ _capacity b' = _capacity b.
Proof.
  intros H Hn. pose proof H as [H1 H2 H3]. unfold hasRead. set (b1 := mkBuffer _ _ _ _).
  assert (wf b1) as W1 by (unfold unread in Hn; constructor; unfold b1; bsimpl; lia).
  destruct (reuse_spec b1 W1) as (b2 & -> & [W2 E2] & C2). exists b2. split_and!; [done | done | | by rewrite C2].
  rewrite E2. unfold content, unread, b1 in *. bsimpl.
  rewrite skipn_firstn_comm, drop_drop. f_equal; [lia|]. f_equal. lia.
Qed.

(** Everything a [readv] into the buffer has stored, in the order of the vector. *)
Lemma readFrom_spec bs b : wf b -> holdable b (unread b + Z.of_nat (length bs)) ->
  exists b', readFrom (ReadvBytes bs) b = Ok (Z.of_nat (length bs), b') /\ wf b' /\
    content b' = content b ++ bs /\ grown b b' (unread b + Z.of_nat (length bs)).
Proof.
  intros H Hm. pose proof H as [H1 H2 H3]. unfold readFrom.
  assert (0 <= unwrite b) by (unfold unwrite; lia).
  set (l := Z.to_nat (unwrite b)) in *. set (n := Z.of_nat (length bs)) in *.
  destruct (store_spec (take l bs) b H) as (buf & -> & W1 & E1 & C1); [rewrite length_take; lia|].
  cbn [mbind res_bind]. destruct (Z.ltb_spec 0 n).
  2:{ destruct bs; [|cbn in *; lia]. rewrite take_nil in *. cbn [length] in *.
      unfold hasWritten in *. bsimpl. rewrite Z.add_0_r in *.
      eexists. split_and!; [done | done | done | by split; [|left]]. }
  destruct (Z.leb_spec n (unwrite b)).
  - rewrite take_ge in E1, W1, C1 by lia. eexists. split_and!; [done | done | done | by split; [|left]].
  - assert (Z.of_nat (length (take l bs)) = unwrite b) as El by (rewrite length_take; lia). rewrite El in *.
    pose proof (length_content _ W1) as U1. rewrite E1, length_app, Nat2Z.inj_add, (length_content b H) in U1.
    edestruct (append_spec (drop l bs)) as (b2 & -> & W2 & E2 & G2); [exact W1 | unfold holdable in *; rewrite C1, length_drop; lia |].
    cbn [mbind res_bind]. exists b2. split_and!; [done | done | |].
    + rewrite E2, E1, <- app_assoc, take_drop. done.
    + unfold grown in *. rewrite length_drop, <- U1 in G2. rewrite C1 in G2.
      replace (unread b + n) with (unread b + Z.of_nat (length (take l bs)) + Z.of_nat (length bs - l)) by lia. done.
Qed.

(** Growing past the powers of two of the type [int] overflows. *)
Lemma append_overflow data b : wf b -> ~ holdable b (unread b + Z.of_nat (length data)) ->
  unread b + Z.of_nat (length data) < 2 ^ 31 -> append data b = Ub SignedOverflow.
Proof.
  intros H Hh Hm. unfold append, gc_hint. pose proof H as [H1 H2 H3]. unfold holdable in Hh.
  destruct (Z.leb_spec (Z.of_nat (length data)) (unwrite b)); [unfold unwrite, unread in *; lia|].
  destruct (gc_spec b H) as (b1 & -> & S1 & C1 & R1). cbn [mbind res_bind].
  pose proof (same_unread _ _ H S1) as U1. pose proof (same_wf _ _ S1) as [G1 G2 G3].
  assert (available b1 = _capacity b1 - unread b) as A1 by (unfold available; lia).
  destruct (Z.ltb_spec (available b1) (Z.of_nat (length data))); [|lia].
  set (e := unread b + Z.of_nat (length data)) in *. replace (_ + (_ - available b1)) with e by lia.
  rewrite swrap_id by (try done; apply sfits_spec; lia). rewrite round_spec by lia.
  destruct (Z.eqb_spec e (- 2 ^ 31)); [lia|]. destruct (Z.leb_spec e 0); [lia|].
  destruct (Z.leb_spec e (2 ^ 30)); [lia | done].
Qed.

(** ** Sequences of operations *)

Inductive buffer_op : Type :=
  | Append (data : list Z)
  | HasRead (n : Z)
  | ReadFrom (k : readv_result)
  | WriteTo (k : write_result).

(** An operation with the bytes that leave the buffer: those the caller has read from
    [readBuffer()], and those [write] has taken. *)
Definition bstep (o : buffer_op) (b : Buffer) : res (list Z * Buffer) :=
  match o with
  | Append data => b ← append data b; Ok ([], b)
  | HasRead n => bs ← slice (_buf b) (_r b) n; b ← hasRead n b; Ok (bs, b)
  | ReadFrom k => '(_, b) ← readFrom k b; Ok ([], b)
  | WriteTo k =>
      bs ← slice (_buf b) (_r b) (match k with Wrote n => n | WriteFailed _ => 0 end);
      r ← writeTo k b;
      Ok (bs, match r with WroteTo _ b => b | WriteException _ => b end)
  end.

Definition brun (ops : list buffer_op) (b : Buffer) : res (list Z * Buffer) :=
  foldR (fun '(out, b) o => '(bs, b) ← bstep o b; Ok (out ++ bs, b)) ([], b) ops.

(** The queue of at most [M] bytes that a buffer stands for: what arrives, and how many
    bytes leave it. *)
Definition arrives (o : buffer_op) : list Z :=
  match o with Append data => data | ReadFrom (ReadvBytes bs) => bs | _ => [] end.

Definition leaves (o : buffer_op) : Z :=
  match o with HasRead n => n | WriteTo (Wrote n) => n | _ => 0 end.

Fixpoint qrun (M : Z) (ops : list buffer_op) (q : list Z) : option (list Z * list Z) :=
  match ops with
  | [] => Some ([], q)
  | o :: ops =>
      let n := leaves o in
      if (0 <=? n) && (n <=? Z.of_nat (length q)) &&
         (Z.of_nat (length q) + Z.of_nat (length (arrives o)) <=? M) then
        '(out, q') ← qrun M ops (drop (Z.to_nat n) q ++ arrives o);
        Some (take (Z.to_nat n) q ++ out, q')
      else None
  end.

Lemma slice_content b n : wf b -> 0 <= n <= unread b -> slice (_buf b) (_r b) n = Ok (take (Z.to_nat n) (content b)).
Proof.
  intros [H1 H2 H3] Hn. unfold unread in Hn. rewrite slice_ok by lia. f_equal. unfold content, unread.
  rewrite take_take. f_equal. lia.
Qed.

Lemma bstep_spec o b M : wf b -> M <= 2 ^ 30 -> 0 <= leaves o <= unread b ->
  unread b + Z.of_nat (length (arrives o)) <= M ->
  exists b', bstep o b = Ok (take (Z.to_nat (leaves o)) (content b), b') /\ wf b' /\
    content b' = drop (Z.to_nat (leaves o)) (content b) ++ arrives o /\
    _capacity b' <= Z.max (_capacity b) (2 * M).
Proof.
  intros H HM Hl Ha. pose proof (length_content b H) as Hc.
  assert (forall n, 0 <= n <= unread b -> exists b', hasRead n b = Ok b' /\ wf b' /\
    content b' = drop (Z.to_nat n) (content b) ++ [] /\ _capacity b' <= Z.max (_capacity b) (2 * M)) as Hread.
  { intros n Hn. destruct (hasRead_spec n b H Hn) as (b' & -> & W & E & C). exists b'. rewrite app_nil_r.
    split_and!; [done..| lia]. }
  destruct o as [data|n|[|bs]|[errno|n]]; cbn [bstep arrives leaves] in *; try rewrite slice_content by (done || lia).
  - destruct (append_spec data b H) as (b' & -> & W & E & G); [left; lia|].
    exists b'. cbn. rewrite take_0, drop_0. unfold grown in G. split_and!; [done..| lia].
  - destruct (Hread n Hl) as (b' & E & ?). exists b'. cbn. by rewrite E.
  - exists b. cbn. rewrite take_0, drop_0, app_nil_r. split_and!; [done..| lia].
  - destruct (readFrom_spec bs b H) as (b' & -> & W & E & G); [left; lia|].
    exists b'. cbn. rewrite take_0, drop_0. unfold grown in G. split_and!; [done..| lia].
  - cbn [mbind res_bind writeTo]. destruct (_ || _).
    + destruct (Hread 0 ltac:(lia)) as (b' & E & ?). exists b'. cbn. by rewrite E.
    + exists b. cbn. rewrite take_0, drop_0, app_nil_r. split_and!; [done..| lia].
  - destruct (Hread n Hl) as (b' & E & ?). exists b'. cbn. by rewrite E.
Qed.

Lemma brun_spec M ops q out q' b pre : M <= 2 ^ 30 -> wf b -> content b = q -> qrun M ops q = Some (out, q') ->
  exists b', foldR (fun '(out, b) o => '(bs, b) ← bstep o b; Ok (out ++ bs, b)) (pre, b) ops = Ok (pre ++ out, b') /\
    wf b' /\ content b' = q' /\ q ++ concat (arrives <$> ops) = out ++ q' /\
    _capacity b' <= Z.max (_capacity b) (2 * M).
Proof.
  intros HM. revert q out q' b pre. induction ops as [|o ops IH]; intros q out q' b pre H Hq E; cbn [qrun] in E.
  { injection E as <- <-. exists b. rewrite app_nil_r. cbn. rewrite app_nil_r. split_and!; [done..| lia]. }
  destruct (_ && _) eqn:Hc; [|done]. rewrite !andb_true_iff, !Z.leb_le in Hc. destruct Hc as [[Hc1 Hc2] Hc3].
  rewrite <- Hq in *. rewrite (length_content b H) in *.
  destruct (qrun M ops _) as [[out1 q1]|] eqn:E1; [|done]. cbn in E. injection E as <- <-.
  destruct (bstep_spec o b M H HM (conj Hc1 Hc2) Hc3) as (b1 & Eb & W1 & C1 & K1).
  destruct (IH _ _ _ b1 (pre ++ take (Z.to_nat (leaves o)) (content b)) W1 C1 E1) as (b2 & Er & W2 & C2 & A2 & K2).
  exists b2. cbn [foldR]. rewrite Eb. cbn [mbind res_bind]. rewrite Er, app_assoc. split_and!; [done..| |lia].
  rewrite <- app_assoc, <- A2. cbn. rewrite !app_assoc, take_drop. done.
Qed.
