(* ===== verification/FluentFuture.v ===== *)
(** * Futures on an event loop

    src/net/fluent/include/future: Looper, ControlBlock, Promise, Future, Futures and
    FuturesInternal.  The control blocks that promises and futures share are a heap, a promise or
    a future is the position of its block.  Callbacks are data: the lambda that [then], [poll],
    [cancelIf] or [whenAll] makes, with what it captures.  The functions of a user are programs
    over the operations of the library, so that they can make, chain and complete futures
    themselves. *)

From S2P Require Import Prelude.
From stdpp Require Import list.
#[local] Open Scope Z_scope.
#[local] Set Warnings "-register-all".

Section future.
(** The names of the functions a user passes, and the state of the user's program. *)
Context {F U : Type}.

(** ** Values and functions *)

(** The values of futures: those of the user, tuples and vectors, pairs of an index and a value,
    and shared control blocks. *)
Inductive val : Type :=
  | Int (z : Z)
  | Block (c : nat)
  | Tuple (l : list val).

(** A function a future calls: one of the user, or one of FuturesInternal.h or Futures.h. *)
Inductive functor : Type :=
  | User (f : F)
  | Wait (start duration remain : Z) (f : F)    (** the poll of [wait(count, duration, f)] *)
  | WaitUntil (timePoint : Z) (f : F)           (** the poll of [wait(timePoint, f)] *)
  | AllPoll                               (** the poll of [whenAllTemplate] *)
  | AllThen                               (** its [then] *)
  | NPoll (noresponse : list val) (remain : nat) (cond : F)  (** the poll of [whenNTemplate] *)
  | NThen                                 (** its [then]: sort by index *)
  | AnyThen.                              (** the [then] of [whenAny] *)

(** ** ControlBlock.h *)

Inductive State : Set := NEW | READY | POSTED | DONE | DEAD | CANCEL.

#[export] Instance State_eq_dec : EqDecision State.
Proof. solve_decision. Defined.

(** The lambdas stored in [_then]: of [then], [poll], [poll] with a count, and [cancelIf], with
    the promise they own; or one given to [Promise::setCallback]. *)
Inductive callback : Type :=
  | OnThen (f : functor) (promise : nat)
  | OnPoll (f : functor) (promise : nat)
  | OnPollN (count : Z) (f : functor) (promise : nat)
  | OnCancelIf (f : functor) (promise : nat)
  | OnUser (f : functor).

Record ControlBlock : Type := mkBlock { _state : State; _value : val; _then : option callback }.

Definition new_block : ControlBlock := mkBlock NEW (Tuple []) None.

(** ** The state *)

(** An event of the loop: the lambda of [postRequest] for a block, or a function posted by the
    user.  A [std::function] can be empty. *)
Inductive event : Type := Request (c : nat) | Posted (f : F).

Record Sys : Type := mkSys {
  blocks : list ControlBlock;
  _mq : list (option event);
  _lastEvent : option event;
  user : U;
  completed : list nat;      (** ghost: the blocks whose callback has done its work *)
}.

(** A computation returns a value, throws, or is undefined. *)
Inductive out (A : Type) : Type :=
  | Done (a : A) (s : Sys)
  | Throw (s : Sys)
  | Undefined.
#[global] Arguments Done {A}.
#[global] Arguments Throw {A}.
#[global] Arguments Undefined {A}.

Definition M (A : Type) : Type := Sys -> out A.

#[export] Instance M_ret : MRet M := fun A a s => Done a s.
#[export] Instance M_bind : MBind M := fun A B f m s =>
  match m s with Done a s' => f a s' | Throw s' => Throw s' | Undefined => Undefined end.

Definition throw {A} : M A := fun s => Throw s.

Definition get_block (c : nat) : M ControlBlock := fun s =>
  match blocks s !! c with Some b => Done b s | None => Undefined end.

Definition set_blocks (bs : list ControlBlock) (s : Sys) : Sys :=
  mkSys bs (_mq s) (_lastEvent s) (user s) (completed s).

Definition update (c : nat) (g : ControlBlock -> ControlBlock) : M unit := fun s =>
  match blocks s !! c with Some b => Done tt (set_blocks (<[c := g b]> (blocks s)) s) | None => Undefined end.

Definition with_state (st : State) (b : ControlBlock) : ControlBlock := mkBlock st (_value b) (_then b).
Definition with_value (v : val) (b : ControlBlock) : ControlBlock := mkBlock (_state b) v (_then b).
Definition with_then (k : option callback) (b : ControlBlock) : ControlBlock := mkBlock (_state b) (_value b) k.

(** ** Looper.h, the queue *)

Definition enqueue (e : option event) : M unit := fun s =>
  Done tt (mkSys (blocks s) (_mq s ++ [e]) (_lastEvent s) (user s) (completed s)).

(** The move leaves [_lastEvent] empty. *)
Definition yield : M unit := fun s =>
  Done tt (mkSys (blocks s) (_mq s ++ [_lastEvent s]) None (user s) (completed s)).

Definition post (e : option event) : M unit :=
  match e with Some _ => enqueue e | None => mret tt end.

(** ** Promise.h *)

Definition make_promise : M nat := fun s =>
  Done (length (blocks s)) (set_blocks (blocks s ++ [new_block]) s).

Definition postRequest (c : nat) : M unit :=
  update c (with_state POSTED) ≫= fun _ => post (Some (Request c)).

Definition setValue (c : nat) (v : val) : M unit :=
  b ← get_block c;
  match _state b with
  | NEW =>
      update c (fun b => with_state READY (with_value v b)) ≫= fun _ =>
      match _then b with Some _ => postRequest c | None => mret tt end
  | CANCEL => mret tt
  | _ => throw
  end.

Definition setCallback (c : nat) (k : callback) : M unit := update c (with_then (Some k)).

Definition cancel (c : nat) : M unit := update c (with_state CANCEL).

(** ** Future.h *)

Definition hasResult (c : nat) : M bool := b ← get_block c; mret (bool_decide (_state b = READY)).

(** [get]; a moved value is not specified, the model leaves it. *)
Definition get (c : nat) : M val := b ← get_block c; update c (with_state DEAD) ≫= fun _ => mret (_value b).

(** [then], [poll] and [cancelIf] differ in the lambda they store: [mk] makes it of the promise. *)
Definition attach (c : nat) (mk : nat -> callback) : M nat :=
  promise ← make_promise;
  b ← get_block c;
  (match _state b with
   | NEW => setCallback c (mk promise)
   | READY => setCallback c (mk promise) ≫= fun _ => postRequest c
   | CANCEL => cancel promise
   | _ => mret tt
   end) ≫= fun _ =>
  mret promise.

Definition future_then (c : nat) (f : functor) : M nat := attach c (OnThen f).
Definition poll (c : nat) (f : functor) : M nat := attach c (OnPoll f).
Definition poll_count (c : nat) (count : Z) (f : functor) : M nat := attach c (OnPollN count f).
Definition cancelIf (c : nat) (f : functor) : M nat := attach c (OnCancelIf f).

(** Time points are counted from the epoch, at which [start] stands before the first poll. *)
Definition wait_count (c : nat) (count duration : Z) (f : F) : M nat := poll c (Wait 0 duration count f).
Definition wait (c : nat) (duration : Z) (f : F) : M nat := wait_count c 1 duration f.
Definition wait_until (c : nat) (timePoint : Z) (f : F) : M nat := poll c (WaitUntil timePoint f).

(** ** Futures.h *)

Definition makeFuture (v : val) : M nat :=
  promise ← make_promise; setValue promise v ≫= fun _ => mret promise.

Definition whenAll (cs : list nat) : M nat :=
  c ← makeFuture (Tuple [Tuple (Block <$> cs); Tuple []]);
  c ← poll c AllPoll;
  future_then c AllThen.

Definition whenNIf (n : nat) (cs : list nat) (cond : F) : M nat :=
  let queries := imap (fun i c => Tuple [Int (Z.of_nat i); Block c]) cs in
  c ← makeFuture (Tuple [Tuple queries; Tuple []]);
  c ← poll c (NPoll [] n cond);
  future_then c NThen.

Definition whenAnyIf (cs : list nat) (cond : F) : M nat :=
  c ← whenNIf 1 cs cond; future_then c AnyThen.

(** ** The functions of a user *)

(** What a function can do: the operations above, and use the state of its program. *)
Inductive cmd : Type -> Type :=
  | CPromise : cmd nat
  | CSetValue (c : nat) (v : val) : cmd unit
  | CSetCallback (c : nat) (f : F) : cmd unit
  | CCancel (c : nat) : cmd unit
  | CHasResult (c : nat) : cmd bool
  | CGet (c : nat) : cmd val
  | CThen (c : nat) (f : F) : cmd nat
  | CPoll (c : nat) (f : F) : cmd nat
  | CPollN (c : nat) (count : Z) (f : F) : cmd nat
  | CCancelIf (c : nat) (f : F) : cmd nat
  | CWait (c : nat) (count duration : Z) (f : F) : cmd nat
  | CWaitUntil (c : nat) (timePoint : Z) (f : F) : cmd nat
  | CMakeFuture (v : val) : cmd nat
  | CWhenAll (cs : list nat) : cmd nat
  | CWhenNIf (n : nat) (cs : list nat) (cond : F) : cmd nat
  | CWhenAnyIf (cs : list nat) (cond : F) : cmd nat
  | CPost (f : F) : cmd unit
  | CUser (A : Type) (g : U -> A * U) : cmd A.

Inductive prog (A : Type) : Type :=
  | Ret (a : A)
  | Op (B : Type) (o : cmd B) (k : B -> prog A).
#[global] Arguments Ret {A}.
#[global] Arguments Op {A B}.

Definition do_cmd {A} (o : cmd A) : M A :=
  match o with
  | CPromise => make_promise
  | CSetValue c v => setValue c v
  | CSetCallback c f => setCallback c (OnUser (User f))
  | CCancel c => cancel c
  | CHasResult c => hasResult c
  | CGet c => get c
  | CThen c f => future_then c (User f)
  | CPoll c f => poll c (User f)
  | CPollN c n f => poll_count c n (User f)
  | CCancelIf c f => cancelIf c (User f)
  | CWait c n d f => wait_count c n d f
  | CWaitUntil c t f => wait_until c t f
  | CMakeFuture v => makeFuture v
  | CWhenAll cs => whenAll cs
  | CWhenNIf n cs cond => whenNIf n cs cond
  | CWhenAnyIf cs cond => whenAnyIf cs cond
  | CPost f => post (Some (Posted f))
  | CUser _ g => fun s => let '(a, u) := g (user s) in
      Done a (mkSys (blocks s) (_mq s) (_lastEvent s) u (completed s))
  end.

Fixpoint exec {A} (p : prog A) : M A :=
  match p with
  | Ret a => mret a
  | Op o k => do_cmd o ≫= fun b => exec (k b)
  end.

(** What the functions of the user do: called with the value of a future, they return a result
    and leave the value they got by reference; conditions are called by [whenNIf]; tasks are
    posted to the loop.  [now] reads the system clock. *)
Context (body : F -> val -> prog (val * val)) (condition : F -> val -> prog bool) (task : F -> prog unit).
Context (now : U -> Z * U).

Definition truth (v : val) : bool := match v with Int z => negb (z =? 0) | _ => false end.
Definition of_bool (b : bool) : val := Int (if b then 1 else 0).

(** ** FuturesInternal.h *)

Definition has_value (st : State) : bool :=
  match st with READY | POSTED | DONE => true | _ => false end.

(** [TupleHelper::forEach] with the lambda of [whenAllTemplate]. *)
Fixpoint all_pass (cbs : list val) : M bool :=
  match cbs with
  | [] => mret true
  | Block c :: cbs => b ← get_block c; if has_value (_state b) then all_pass cbs else mret false
  | _ => fun _ => Undefined
  end.

Fixpoint makeResultTuple (cbs : list val) : M (list val) :=
  match cbs with
  | [] => mret []
  | Block c :: cbs => b ← get_block c; vs ← makeResultTuple cbs; mret (_value b :: vs)
  | _ => fun _ => Undefined
  end.

(** The loop of [whenNTemplate] over the queries, the last of them first. *)
Fixpoint n_loop (cond : F) (queries results noresponse : list val) (remain : nat) :
    M (list val * list val * list val * nat) :=
  match remain, queries with
  | S remain', Tuple [i; Block c] :: queries' =>
      b ← get_block c;
      ok ← (if has_value (_state b) then exec (condition cond (_value b)) else mret false);
      if (ok : bool) then b ← get_block c; n_loop cond queries' (results ++ [Tuple [i; _value b]]) noresponse remain'
      else n_loop cond queries' results (noresponse ++ [Tuple [i; Block c]]) remain
  | S _, _ :: _ => fun _ => Undefined
  | _, _ => mret (queries, results, noresponse, remain)
  end.

(** [std::sort] by the index of the pairs. *)
Definition key (v : val) : Z := match v with Tuple [Int i; _] => i | _ => 0 end.

Fixpoint insert_by_key (v : val) (l : list val) : list val :=
  match l with
  | [] => [v]
  | w :: l' => if key v <? key w then v :: l else w :: insert_by_key v l'
  end.

Definition sort_by_key (l : list val) : list val := foldr insert_by_key [] l.

Definition read_clock : M Z := fun s =>
  let '(t, u) := now (user s) in Done t (mkSys (blocks s) (_mq s) (_lastEvent s) u (completed s)).

(** The lambda of [wait(count, duration, f)]. *)
Definition wait_poll (start duration remain : Z) (f : F) (self : val) : M (val * val * functor) :=
  current ← read_clock;
  if (start =? 0) && (remain =? 0) then mret (of_bool true, self, Wait start duration remain f)
  else
    let start := if start =? 0 then current else start in
    if duration <=? current - start then
      '(_, self) ← exec (body f self);
      let remain := u64 (remain - 1) in
      if remain =? 0 then mret (of_bool true, self, Wait start duration remain f)
      else start ← read_clock; mret (of_bool false, self, Wait start duration remain f)
    else mret (of_bool false, self, Wait start duration remain f).

(** A call of a function with the value of a future: its result, the value after it, and the
    function after it, as the lambdas with captures are [mutable]. *)
Definition call (f : functor) (v : val) : M (val * val * functor) :=
  match f, v with
  | User g, _ => '(r, v') ← exec (body g v); mret (r, v', f)
  | Wait start duration remain g, _ => wait_poll start duration remain g v
  | WaitUntil timePoint g, _ =>
      current ← read_clock;
      if timePoint <=? current then '(_, v') ← exec (body g v); mret (of_bool true, v', f)
      else mret (of_bool false, v, f)
  | AllPoll, Tuple [Tuple cbs; _] =>
      pass ← all_pass cbs;
      if (pass : bool) then res ← makeResultTuple cbs; mret (of_bool true, Tuple [Tuple cbs; Tuple res], f)
      else mret (of_bool false, v, f)
  | AllThen, Tuple [_; res] => mret (res, v, f)
  | NPoll noresponse remain cond, Tuple [Tuple queries; Tuple results] =>
      '(queries, results, noresponse, remain) ← n_loop cond (rev queries) results noresponse remain;
      mret (of_bool (bool_decide (remain = O)), Tuple [Tuple noresponse; Tuple results], NPoll (rev queries) remain cond)
  | NThen, Tuple [_; Tuple res] => mret (Tuple (sort_by_key res), v, f)
  | AnyThen, Tuple (r :: _) => mret (r, v, f)
  | _, _ => fun _ => Undefined
  end.

Definition complete (c : nat) : M unit := fun s =>
  Done tt (mkSys (blocks s) (_mq s) (_lastEvent s) (user s) (completed s ++ [c])).

(** After a call: the value that was passed by reference, and the captures of the lambda. *)
Definition write_back (c : nat) (v : val) (k : callback) : M unit :=
  update c (fun b => with_then (Some k) (with_value v b)).

(** [shared->_then(static_cast<T&&>(shared->_value))] *)
Definition invoke (c : nat) (k : callback) : M unit :=
  b ← get_block c;
  match k with
  | OnThen f p =>
      '(r, v, f) ← call f (_value b);
      write_back c v (OnThen f p) ≫= fun _ => setValue p r ≫= fun _ => complete c
  | OnPoll f p =>
      '(r, v, f) ← call f (_value b);
      write_back c v (OnPoll f p) ≫= fun _ =>
      if truth r then setValue p v ≫= fun _ => complete c else yield
  | OnPollN count f p =>
      if count =? 0 then
        write_back c (_value b) (OnPollN (u64 (count - 1)) f p) ≫= fun _ =>
        setValue p (_value b) ≫= fun _ => complete c
      else
        '(r, v, f) ← call f (_value b);
        write_back c v (OnPollN (u64 (count - 1)) f p) ≫= fun _ =>
        if truth r then setValue p v ≫= fun _ => complete c else yield
  | OnCancelIf f p =>
      '(r, v, f) ← call f (_value b);
      write_back c v (OnCancelIf f p) ≫= fun _ =>
      (if truth r then cancel p else setValue p v) ≫= fun _ => complete c
  | OnUser f =>
      '(_, v, f) ← call f (_value b);
      write_back c v (OnUser f) ≫= fun _ => complete c
  end.

(** An empty [std::function] throws when it is called. *)
Definition run_event (e : option event) : M unit :=
  match e with
  | None => throw
  | Some (Posted f) => exec (task f)
  | Some (Request c) =>
      b ← get_block c;
      match _then b with
      | None => throw
      | Some k => invoke c k ≫= fun _ => update c (with_state DONE)
      end
  end.

(** ** Looper.h, the loop *)

Definition loopOnceUnchecked : M unit := fun s =>
  match _mq s with
  | [] => Undefined
  | e :: q => run_event e (mkSys (blocks s) q e (user s) (completed s))
  end.

Definition loopOnce : M unit := fun s =>
  match _mq s with [] => Done tt s | _ => loopOnceUnchecked s end.

Fixpoint times (n : nat) (m : M unit) : M unit :=
  match n with O => mret tt | S n => m ≫= fun _ => times n m end.

Definition CATURRA_2X (m : M unit) : M unit := m ≫= fun _ => m.
Definition CATURRA_4X (m : M unit) : M unit := CATURRA_2X m ≫= fun _ => CATURRA_2X m.

(** [unroll4x], with the macro SKYWIND3000_CPU_LOOP_UNROLL_4X. *)
Definition unroll4x : M unit := fun s =>
  let width := Z.of_nat (length (_mq s)) in
  (times (Z.to_nat (Z.shiftr width 2)) (CATURRA_4X loopOnceUnchecked) ≫= fun _ =>
   (if negb (Z.land width 2 =? 0) then CATURRA_2X loopOnceUnchecked else mret tt) ≫= fun _ =>
   (if negb (Z.land width 1 =? 0) then loopOnceUnchecked else mret tt)) s.

Definition run_loop : M unit := unroll4x.
End future.
