(* ===== verification/FluentFutureProofs.v ===== *)
(** * Futures: the batch of a loop, and callbacks that are done once

    A call of the loop runs the events that are queued when it starts, in order.  Whatever
    the programs of a user do, the callback of a block completes at most once. *)

From S2P Require Import Prelude.
From stdpp Require Import list.
From S2P Require Import FluentFuture.
#[local] Open Scope Z_scope.

Section proofs.
Context {F U : Type}.
Context (body : F -> val -> prog (F := F) (U := U) (val * val)) (condition : F -> val -> prog (F := F) (U := U) bool).
Context (task : F -> prog (F := F) (U := U) unit) (now : U -> Z * U).

#[local] Abbreviation Sys := (Sys (F := F) (U := U)).
#[local] Abbreviation M := (M (F := F) (U := U)).
#[local] Abbreviation call := (call body condition now).
#[local] Abbreviation invoke := (invoke body condition now).
#[local] Abbreviation run_event := (run_event body condition task now).
#[local] Abbreviation loopOnceUnchecked := (loopOnceUnchecked body condition task now).
#[local] Abbreviation run_loop := (run_loop body condition task now).
Implicit Types (s : Sys) (r : option nat).

(** ** Computations *)

Lemma M_bind_Done {A B} (m : M A) (f : A -> M B) s a s' : m s = Done a s' -> (m ≫= f) s = f a s'.
Proof. intros E. unfold mbind, M_bind. by rewrite E. Qed.

Lemma M_assoc {A B C} (m : M A) (f : A -> M B) (g : B -> M C) s :
  ((m ≫= f) ≫= g) s = (m ≫= fun a => f a ≫= g) s.
Proof. unfold mbind, M_bind. by destruct (m s). Qed.

Lemma M_ext {A B} (m : M A) (f g : A -> M B) s : (forall a s', f a s' = g a s') -> (m ≫= f) s = (m ≫= g) s.
Proof. intros H. unfold mbind, M_bind. destruct (m s); auto. Qed.

Lemma times_add n m (p : M unit) s : times (n + m) p s = (times n p ≫= fun _ => times m p) s.
Proof.
  revert s. induction n as [|n IH]; intros s; [done|]. cbn [Nat.add times].
  rewrite M_assoc. apply M_ext. intros _ s'. apply IH.
Qed.

Lemma times_1 (p : M unit) s : times 1 p s = p s.
Proof. cbn [times]. unfold mbind, M_bind, mret, M_ret. by destruct (p s) as [[] | |]. Qed.

Lemma times_2 (p : M unit) s : CATURRA_2X p s = times 2 p s.
Proof.
  change 2%nat with (1 + 1)%nat. rewrite times_add. unfold CATURRA_2X, mbind, M_bind. rewrite times_1.
  destruct (p s) as [[] s'| |]; [by rewrite times_1 | done..].
Qed.

Lemma times_4 n (p : M unit) s : times n (CATURRA_4X p) s = times (4 * n) p s.
Proof.
  revert s. induction n as [|n IH]; intros s; [done|].
  replace (4 * S n)%nat with (2 + 2 + 4 * n)%nat by lia. rewrite times_add. cbn [times].
  unfold mbind, M_bind. rewrite times_add. unfold CATURRA_4X, mbind, M_bind. rewrite times_2.
  destruct (times 2 p s) as [_ s1| |]; [|done..]. rewrite times_2.
  destruct (times 2 p s1) as [_ s2| |]; [apply IH | done..].
Qed.

(** The two low bits. *)
Lemma land_rest (q m k : nat) : (k = 1 \/ k = 2)%nat ->
  Z.land (Z.of_nat (4 * q + m)) (Z.of_nat k) = Z.land (Z.of_nat m) (Z.of_nat k).
Proof.
  intros Hk. rewrite Nat2Z.inj_add, Nat2Z.inj_mul. change (Z.of_nat 4) with (2 ^ 2).
  apply Z.bits_inj'. intros i Hi. rewrite !Z.land_spec. destruct (decide (i < 2)) as [Hi2|].
  - f_equal. rewrite <- (Z.mod_pow2_bits_low _ 2 i) by lia. rewrite <- (Z.mod_pow2_bits_low (Z.of_nat m) 2 i) by lia.
    f_equal. rewrite Z.add_comm, Z.mul_comm. apply Z.mod_add. done.
  - rewrite (Z.bits_above_log2 (Z.of_nat k) i), !andb_false_r; [done | lia |].
    destruct Hk as [-> | ->]; [change (Z.log2 (Z.of_nat 1)) with 0 | change (Z.log2 (Z.of_nat 2)) with 1]; lia.
Qed.

(** The unrolled loop makes as many turns as there are events. *)
Lemma run_loop_times s : run_loop s = times (length (_mq s)) loopOnceUnchecked s.
Proof.
  unfold FluentFuture.run_loop, unroll4x. set (n := length (_mq s)). set (p := loopOnceUnchecked).
  set (q := (n / 4)%nat).
  assert (Z.to_nat (Z.shiftr (Z.of_nat n) 2) = q) as ->.
  { rewrite Z.shiftr_div_pow2 by done. change (2 ^ 2) with (Z.of_nat 4). by rewrite <- Nat2Z.inj_div, Nat2Z.id. }
  assert (n = 4 * q + n mod 4)%nat as En by (apply Nat.div_mod_eq).
  pose proof (Nat.mod_upper_bound n 4 ltac:(lia)) as Hm. set (m := (n mod 4)%nat) in *.
  assert (Z.land (Z.of_nat n) 2 = Z.land (Z.of_nat m) 2) as -> by (rewrite En; apply (land_rest q m 2); lia).
  assert (Z.land (Z.of_nat n) 1 = Z.land (Z.of_nat m) 1) as -> by (rewrite En; apply (land_rest q m 1); lia).
  transitivity (times (4 * q + m) p s); [|by rewrite <- En]. rewrite times_add.
  unfold mbind, M_bind. rewrite times_4. destruct (times (4 * q) p s) as [_ s'| |]; [|done..].
  assert (m = 0 \/ m = 1 \/ m = 2 \/ m = 3)%nat as [->|[->|[->| ->]]] by lia; cbn -[times CATURRA_2X].
  - done.
  - by rewrite times_1.
  - change (Z.land (Z.of_nat 2) 2) with 2. change (Z.land (Z.of_nat 2) 1) with 0. cbn -[times CATURRA_2X].
    rewrite times_2. by destruct (times 2 p s') as [[] | |].
  - change (Z.land (Z.of_nat 3) 2) with 2. change (Z.land (Z.of_nat 3) 1) with 1. cbn -[times CATURRA_2X].
    change 3%nat with (2 + 1)%nat. rewrite times_add. unfold mbind, M_bind. rewrite times_2.
    destruct (times 2 p s') as [[] s2| |]; [by rewrite times_1 | done..].
Qed.

(** ** Predicates that the operations keep *)

(** Whatever [m] ends with, [Q] holds after it. *)
Definition spec {A} (P : Sys -> Prop) (m : M A) (Q : Sys -> Prop) : Prop :=
  forall s, P s -> match m s with Done _ s' | Throw s' => Q s' | Undefined => True end.

Lemma spec_ret {A} (a : A) (P Q : Sys -> Prop) : (forall s, P s -> Q s) -> spec P (mret a) Q.
Proof. by intros H s Hs; apply H. Qed.

Lemma spec_bind {A B} (m : M A) (f : A -> M B) (P R Q : Sys -> Prop) :
  spec P m R -> (forall a, spec R (f a) Q) -> (forall s, R s -> Q s) -> spec P (m ≫= f) Q.
Proof.
  intros Hm Hf HRQ s Hs. specialize (Hm s Hs). unfold mbind, M_bind. destruct (m s) as [a s'|s'|]; [|by apply HRQ | done].
  by apply Hf.
Qed.

Lemma spec_read {A B} (g : Sys -> option A) (m : M A) (f : A -> M B) (P Q : Sys -> Prop) :
  (forall s, m s = match g s with Some a => Done a s | None => Undefined end) ->
  (forall a, spec (fun s => P s /\ g s = Some a) (f a) Q) -> spec P (m ≫= f) Q.
Proof.
  intros Hm Hf s Hs. unfold mbind, M_bind. rewrite Hm. destruct (g s) as [a|] eqn:E; [|done]. by apply Hf.
Qed.

Lemma spec_block {B} c (f : ControlBlock -> M B) (P Q : Sys -> Prop) :
  (forall b, spec (fun s => P s /\ blocks s !! c = Some b) (f b) Q) -> spec P (get_block c ≫= f) Q.
Proof. apply spec_read. done. Qed.

Lemma spec_pre {A} (m : M A) (P P' Q : Sys -> Prop) : (forall s, P s -> P' s) -> spec P' m Q -> spec P m Q.
Proof. intros H Hm s Hs. by apply Hm, H. Qed.

(** The state of a block whose callback was given to the loop. *)
Definition launched (st : State) : bool := match st with NEW | READY => false | _ => true end.

(** A predicate that the steps of the library, except for the completion of a callback, keep:
    new blocks, changes of a block that do not take it back before its launch, the launch of a
    block, tasks, and changes of the user's state. *)
Record Closed (P : Sys -> Prop) : Prop := {
  closed_new s : P s -> P (set_blocks (blocks s ++ [new_block]) s);
  closed_update s c b b' : P s -> blocks s !! c = Some b -> (launched (_state b) = true -> launched (_state b') = true) ->
    P (set_blocks (<[c := b']> (blocks s)) s);
  closed_launch s c b : P s -> blocks s !! c = Some b -> launched (_state b) = false ->
    P (mkSys (<[c := with_state POSTED b]> (blocks s)) (_mq s ++ [Some (Request c)]) (_lastEvent s) (user s) (completed s));
  closed_task s f : P s -> P (mkSys (blocks s) (_mq s ++ [Some (Posted f)]) (_lastEvent s) (user s) (completed s));
  closed_user s u : P s -> P (mkSys (blocks s) (_mq s) (_lastEvent s) u (completed s));
}.

Section closed.
Context (P : Sys -> Prop) (HP : Closed P).

Lemma keeps_bind {A B} (m : M A) (f : A -> M B) : spec P m P -> (forall a, spec P (f a) P) -> spec P (m ≫= f) P.
Proof. intros. by apply spec_bind with P. Qed.

Lemma keeps_ret {A} (a : A) : spec P (mret a) P.
Proof. by apply spec_ret. Qed.

Lemma keeps_throw {A} : spec P (throw (A := A)) P.
Proof. by intros s Hs. Qed.

Lemma keeps_block {B} c (f : ControlBlock -> M B) : (forall b, spec P (f b) P) -> spec P (get_block c ≫= f) P.
Proof. intros H. apply spec_block. intros b. eapply spec_pre; [|apply H]. by intros s []. Qed.

Lemma keeps_update c g :
  (forall b, launched (_state b) = true -> launched (_state (g b)) = true) -> spec P (update c g) P.
Proof.
  intros Hg s Hs. unfold update. destruct (blocks s !! c) as [b|] eqn:E; [|done].
  eapply closed_update; [done | done | exact E | apply Hg].
Qed.

(** [postRequest] is called on blocks that were not launched. *)
Lemma keeps_postRequest c :
  spec (fun s => P s /\ exists b, blocks s !! c = Some b /\ launched (_state b) = false) (postRequest c) P.
Proof.
  intros s [Hs (b & E & Hb)]. unfold postRequest, update, mbind, M_bind. rewrite E. cbn.
  by apply closed_launch.
Qed.

Lemma update_then_post c g (f : unit -> M unit) :
  (forall b, launched (_state b) = false -> launched (_state (g b)) = false) ->
  (forall u, f u = postRequest c) ->
  spec (fun s => P s /\ exists b, blocks s !! c = Some b /\ launched (_state b) = false) (update c g ≫= f) P.
Proof.
  intros Hg Hf s [Hs (b & E & Hb)]. unfold mbind, M_bind. unfold update at 1. rewrite E, Hf.
  apply keeps_postRequest. split.
  - apply (closed_update _ HP s c b); [done | done |]. by rewrite Hb.
  - exists (g b). cbn [blocks set_blocks]. rewrite list_lookup_insert_eq by (by eapply lookup_lt_Some).
    split; [done | by apply Hg].
Qed.

Lemma keeps_setValue c v : spec P (setValue c v) P.
Proof.
  unfold setValue. apply spec_block. intros b. destruct (_state b) eqn:Es; try (by intros s []).
  destruct (_then b).
  - eapply spec_pre; [|apply update_then_post]; [|done|done].
    intros s [Hs E]. split; [done|]. exists b. by rewrite E, Es.
  - apply spec_bind with P; [|intros; apply keeps_ret|done]. intros s [Hs E]. unfold update. rewrite E.
    eapply closed_update; [done | done | exact E | by rewrite Es].
Qed.

Lemma keeps_make_promise : spec P make_promise P.
Proof. intros s Hs. exact (closed_new _ HP s Hs). Qed.

Lemma keeps_cancel c : spec P (cancel c) P.
Proof. by apply keeps_update. Qed.

Lemma keeps_attach c mk : spec P (attach c mk) P.
Proof.
  unfold attach. apply keeps_bind; [apply keeps_make_promise|]. intros p. apply spec_block. intros b.
  apply spec_bind with P; [|intros; apply keeps_ret|done].
  destruct (_state b) eqn:Es; try (by intros s []).
  - eapply spec_pre; [|by apply keeps_update]. by intros s [].
  - eapply spec_pre; [|by apply update_then_post]. intros s [Hs E]. split; [done|]. exists b. by rewrite E, Es.
  - eapply spec_pre; [|by apply keeps_cancel]. by intros s [].
Qed.

Lemma keeps_makeFuture v : spec P (makeFuture v) P.
Proof.
  apply keeps_bind; [apply keeps_make_promise|]. intros p. apply keeps_bind; [apply keeps_setValue | intros; apply keeps_ret].
Qed.

Lemma keeps_whenNIf n cs cond : spec P (whenNIf n cs cond) P.
Proof. apply keeps_bind; [apply keeps_makeFuture|]. intros c. apply keeps_bind; intros; apply keeps_attach. Qed.

Lemma keeps_cmd {A} (o : cmd A) : spec P (do_cmd o) P.
Proof.
  destruct o; cbn [do_cmd]; try apply keeps_attach.
  - apply keeps_make_promise.
  - apply keeps_setValue.
  - by apply keeps_update.
  - apply keeps_cancel.
  - apply keeps_block. intros. apply keeps_ret.
  - apply keeps_block. intros b. apply keeps_bind; [by apply keeps_update | intros; apply keeps_ret].
  - apply keeps_makeFuture.
  - apply keeps_bind; [apply keeps_makeFuture|]. intros c. apply keeps_bind; intros; apply keeps_attach.
  - apply keeps_whenNIf.
  - apply keeps_bind; [apply keeps_whenNIf|]. intros; apply keeps_attach.
  - intros s Hs. exact (closed_task _ HP s f Hs).
  - intros s Hs. cbn. destruct (g (user s)) as [a u]. exact (closed_user _ HP s u Hs).
Qed.

Lemma keeps_exec {A} (p : prog A) : spec P (exec p) P.
Proof.
  induction p as [a|B o k IH]; cbn [exec]; [apply keeps_ret|]. apply keeps_bind; [apply keeps_cmd | done].
Qed.

Lemma keeps_clock : spec P (read_clock now) P.
Proof. intros s Hs. unfold read_clock. destruct (now (user s)) as [t u]. exact (closed_user _ HP s u Hs). Qed.

Lemma keeps_undefined {A} : spec P (fun _ => Undefined (A := A)) P.
Proof. done. Qed.

Lemma keeps_all_pass cbs : spec P (all_pass cbs) P.
Proof.
  induction cbs as [|[z|c|l] cbs IH]; cbn [all_pass]; try apply keeps_undefined; [apply keeps_ret|].
  apply keeps_block. intros b. destruct (has_value _); [done | apply keeps_ret].
Qed.

Lemma keeps_result cbs : spec P (makeResultTuple cbs) P.
Proof.
  induction cbs as [|[z|c|l] cbs IH]; cbn [makeResultTuple]; try apply keeps_undefined; [apply keeps_ret|].
  apply keeps_block. intros b. apply keeps_bind; [done|]. intros. apply keeps_ret.
Qed.

Lemma keeps_n_loop cond queries results noresponse remain :
  spec P (n_loop condition cond queries results noresponse remain) P.
Proof.
  revert results noresponse remain. induction queries as [|q queries IH]; intros results noresponse [|remain];
    cbn [n_loop]; try apply keeps_ret.
  destruct q as [| |[|i [|[|c|] [|]]]]; try apply keeps_undefined.
  apply keeps_block. intros b. apply keeps_bind; [destruct (has_value _); [apply keeps_exec | apply keeps_ret]|].
  intros [|]; [apply keeps_block; intros b'; apply IH | apply IH].
Qed.

Lemma keeps_wait start duration remain f v : spec P (wait_poll body now start duration remain f v) P.
Proof.
  apply keeps_bind; [apply keeps_clock|]. intros t. destruct (_ && _); [apply keeps_ret|]. cbn zeta.
  destruct (duration <=? _); [|apply keeps_ret]. apply keeps_bind; [apply keeps_exec|]. intros [? self].
  destruct (_ =? 0) at 1; [apply keeps_ret|]. apply keeps_bind; [apply keeps_clock | intros; apply keeps_ret].
Qed.

Lemma keeps_call f v : spec P (call f v) P.
Proof.
  destruct f; cbn [FluentFuture.call].
  - apply keeps_bind; [apply keeps_exec|]. intros [? ?]. apply keeps_ret.
  - apply keeps_wait.
  - apply keeps_bind; [apply keeps_clock|]. intros t. destruct (_ <=? t); [|apply keeps_ret].
    apply keeps_bind; [apply keeps_exec|]. intros [? ?]. apply keeps_ret.
  - destruct v as [| |[|[| |cbs] [|? [|]]]]; try apply keeps_undefined.
    apply keeps_bind; [apply keeps_all_pass|]. intros [|]; [|apply keeps_ret].
    apply keeps_bind; [apply keeps_result|]. intros. apply keeps_ret.
  - destruct v as [| |[|? [|? [|]]]]; try apply keeps_undefined. apply keeps_ret.
  - destruct v as [| |[|[| |queries] [|[| |results] [|]]]]; try apply keeps_undefined.
    apply keeps_bind; [apply keeps_n_loop|]. intros [[[? ?] ?] ?]. apply keeps_ret.
  - destruct v as [| |[|? [|[] [|]]]]; try apply keeps_undefined. apply keeps_ret.
  - destruct v as [| |[|]]; try apply keeps_undefined. apply keeps_ret.
Qed.

(** A callback ends with its completion or with a yield, when it does not throw. *)
Lemma invoke_spec (Q : Sys -> Prop) c k :
  (forall s, P s -> Q s) -> spec P (complete c) Q -> spec P yield Q -> spec P (invoke c k) Q.
Proof.
  intros HQ Hc Hy. apply spec_block. intros b. apply spec_pre with P; [by intros s []|].
  assert (forall v k', spec P (write_back c v k') P) as Hw by (intros; by apply keeps_update).
  assert (forall A (m : M A) (f : A -> M unit), spec P m P -> (forall a, spec P (f a) Q) -> spec P (m ≫= f) Q) as Hb
    by (intros; by apply spec_bind with P).
  assert (forall p v, spec P (setValue p v ≫= fun _ => complete c) Q) as Hs
    by (intros; apply Hb; [apply keeps_setValue | done]).
  destruct k as [f p|f p|n f p|f p|f].
  - apply Hb; [apply keeps_call|]. intros [[r v] g]. apply Hb; [done|]. intros. apply Hs.
  - apply Hb; [apply keeps_call|]. intros [[r v] g]. apply Hb; [done|]. intros. destruct (truth r); [apply Hs | done].
  - destruct (n =? 0).
    + apply Hb; [done|]. intros. apply Hs.
    + apply Hb; [apply keeps_call|]. intros [[r v] g]. apply Hb; [done|]. intros. destruct (truth r); [apply Hs | done].
  - apply Hb; [apply keeps_call|]. intros [[r v] g]. apply Hb; [done|]. intros. destruct (truth r);
      (apply Hb; [apply keeps_cancel || apply keeps_setValue | done]).
  - apply Hb; [apply keeps_call|]. intros [[r v] g]. apply Hb; [done|]. done.
Qed.
End closed.

Lemma run_event_spec (P Q : Sys -> Prop) c :
  Closed P -> Closed Q -> (forall s, P s -> Q s) -> spec P (complete c) Q -> spec P yield Q ->
  spec P (run_event (Some (Request c))) Q.
Proof.
  intros HP HQ Hi Hc Hy. cbn [FluentFuture.run_event]. apply spec_block. intros b. apply spec_pre with P; [by intros s []|].
  destruct (_then b) as [k|]; [|by intros s Hs; apply Hi].
  apply spec_bind with Q; [by apply invoke_spec | | done]. intros _. by apply keeps_update.
Qed.

(** ** The events of a batch *)

(** One turn of the loop, for the event at the front. *)
Definition turn (e : option event) : M unit := fun s =>
  run_event e (mkSys (blocks s) (tail (_mq s)) e (user s) (completed s)).

Definition batch (es : list (option event)) : M unit := foldr (fun e k => turn e ≫= fun _ => k) (mret tt) es.

Definition starts_with (q : list (option event)) s : Prop := exists q', _mq s = q ++ q'.

Lemma starts_with_closed q : Closed (starts_with q).
Proof.
  constructor; unfold starts_with; cbn; try done.
  - intros s c b [q' ->] _ _. eexists. by rewrite <- app_assoc.
  - intros s f [q' ->]. eexists. by rewrite <- app_assoc.
Qed.

Lemma run_event_queue e q : spec (starts_with q) (run_event e) (starts_with q).
Proof.
  pose proof (starts_with_closed q) as Hq. destruct e as [[c|f]|].
  - apply run_event_spec; try done; intros s [q' E]; unfold complete, yield, starts_with; cbn; rewrite E.
    + by exists q'.
    + eexists. by rewrite <- app_assoc.
  - by apply keeps_exec.
  - by intros s Hs.
Qed.

Lemma times_batch es s : starts_with es s -> times (length es) loopOnceUnchecked s = batch es s.
Proof.
  revert s. induction es as [|e es IH]; intros s [q E]; [done|]. cbn [length times batch foldr].
  unfold mbind, M_bind. unfold FluentFuture.loopOnceUnchecked at 1, turn. rewrite E. cbn [app tail].
  pose proof (run_event_queue e es (mkSys (blocks s) (es ++ q) e (user s) (completed s))) as H.
  destruct (run_event e _) as [[] s'| |]; [|done..]. apply IH, H. by exists q.
Qed.

Lemma run_loop_batch s : run_loop s = batch (_mq s) s.
Proof. rewrite run_loop_times. apply times_batch. exists []. by rewrite app_nil_r. Qed.

(** ** Callbacks are done once *)

Definition request_of (e : option (event (F := F))) : option nat := match e with Some (Request c) => Some c | _ => None end.

(** The launched callbacks: the one that runs, those in the queue, and those that are done. *)
Definition used r s : list nat := option_list r ++ omap request_of (_mq s) ++ completed s.

Definition is_launched s c : Prop := exists b, blocks s !! c = Some b /\ launched (_state b) = true.

Record inv r s : Prop := {
  inv_once : NoDup (used r s);
  inv_launched : Forall (is_launched s) (used r s);
  inv_running : match r with Some c => _lastEvent s = Some (Request c) | None => True end;
}.

Lemma inv_weaken r s : inv r s -> inv None s.
Proof.
  intros [H1 H2 H3]. unfold used in *. destruct r as [c|]; [|by constructor]. cbn in *.
  apply NoDup_cons in H1 as [_ H1]. apply Forall_cons in H2 as [_ H2]. by constructor.
Qed.

Lemma launched_app s c b : is_launched s c -> is_launched (set_blocks (blocks s ++ [b]) s) c.
Proof. intros (b' & E & H). exists b'. split; [|done]. cbn. by apply lookup_app_l_Some. Qed.

Lemma launched_insert s c b' i : (forall b, blocks s !! c = Some b -> launched (_state b) = true -> launched (_state b') = true) ->
  is_launched s i -> exists b, <[c := b']> (blocks s) !! i = Some b /\ launched (_state b) = true.
Proof.
  intros Hc (b & E & H). destruct (decide (i = c)) as [->|].
  - exists b'. rewrite list_lookup_insert_eq by (by eapply lookup_lt_Some). split; [done | by eapply Hc].
  - exists b. by rewrite list_lookup_insert_ne.
Qed.

Lemma inv_closed r : Closed (inv r).
Proof.
  constructor.
  - intros s [H1 H2 H3]. constructor; [done | | done]. eapply Forall_impl; [exact H2|]. intros. by apply launched_app.
  - intros s c b b' [H1 H2 H3] E Hb. constructor; [done | | done]. eapply Forall_impl; [exact H2|]. intros i Hi.
    apply launched_insert; [|done]. intros b0 E0 Hb0. apply Hb. congruence.
  - intros s c b [H1 H2 H3] E Hb.
    assert (c ∉ used r s) as Hc.
    { intros Hc. rewrite Forall_forall in H2. destruct (H2 c Hc) as (b0 & E0 & Hb0). congruence. }
    assert (used r (mkSys (<[c:=with_state POSTED b]> (blocks s)) (_mq s ++ [Some (Request c)]) (_lastEvent s) (user s)
      (completed s)) ≡ₚ c :: used r s) as Hp.
    { unfold used. cbn. rewrite omap_app. cbn. rewrite <- (app_assoc _ [c]). cbn [app].
      rewrite <- (Permutation_middle _ (completed s)), <- Permutation_middle. done. }
    constructor; [by rewrite Hp, NoDup_cons | | done]. rewrite Hp. apply Forall_cons. split.
    + exists (with_state POSTED b). cbn. by rewrite list_lookup_insert_eq by (by eapply lookup_lt_Some).
    + eapply Forall_impl; [exact H2|]. intros i Hi. by apply launched_insert.
  - intros s f [H1 H2 H3]. constructor; [| |done]; unfold used in *; cbn; rewrite omap_app; cbn; by rewrite app_nil_r.
  - intros s u [H1 H2 H3]. by constructor.
Qed.

Lemma inv_complete c : spec (inv (Some c)) (complete c) (inv None).
Proof.
  intros s [H1 H2 H3]. unfold complete. cbn.
  assert (used None (mkSys (blocks s) (_mq s) (_lastEvent s) (user s) (completed s ++ [c])) ≡ₚ used (Some c) s) as Hp.
  { unfold used. cbn. rewrite app_assoc. rewrite <- Permutation_cons_append. done. }
  constructor; [by rewrite Hp | by rewrite Hp | done].
Qed.

Lemma inv_yield c : spec (inv (Some c)) yield (inv None).
Proof.
  intros s [H1 H2 H3]. unfold yield. rewrite H3. cbn.
  assert (used None (mkSys (blocks s) (_mq s ++ [Some (Request c)]) None (user s) (completed s)) ≡ₚ used (Some c) s) as Hp.
  { unfold used. cbn. rewrite omap_app. cbn. rewrite <- app_assoc. cbn [app]. symmetry. apply Permutation_middle. }
  constructor; [by rewrite Hp | by rewrite Hp | done].
Qed.

Lemma inv_turn e s q : _mq s = e :: q -> inv None s ->
  match loopOnceUnchecked s with Done _ s' | Throw s' => inv None s' | Undefined => True end.
Proof.
  intros E [H1 H2 H3]. unfold FluentFuture.loopOnceUnchecked. rewrite E. unfold used in *. rewrite E in *.
  destruct e as [[c|f]|]; cbn in *.
  - apply (run_event_spec (inv (Some c)) (inv None) c); [apply inv_closed.. | | | |].
    + intros. by apply inv_weaken with (Some c).
    + apply inv_complete.
    + apply inv_yield.
    + by constructor.
  - apply (keeps_exec (inv None) (inv_closed None) (task f)). by constructor.
  - by constructor.
Qed.

Lemma inv_times n : spec (fun s => inv None s /\ (n <= length (_mq s))%nat) (times n loopOnceUnchecked) (inv None).
Proof.
  intros s [Hs Hn]. remember (take n (_mq s)) as es eqn:Ees.
  assert (starts_with es s) as Hes by (exists (drop n (_mq s)); by rewrite Ees, take_drop).
  assert (n = length es) as -> by (rewrite Ees, length_take; lia). clear Ees Hn.
  revert s Hs Hes. induction es as [|e es IH]; intros s Hs [q E]; [done|]. cbn [length times]. unfold mbind, M_bind.
  pose proof (inv_turn e s (es ++ q) E Hs) as Ht.
  pose proof (run_event_queue e es (mkSys (blocks s) (es ++ q) e (user s) (completed s))) as Hq.
  unfold FluentFuture.loopOnceUnchecked in Ht at 1. unfold FluentFuture.loopOnceUnchecked at 1. rewrite E in *. cbn [app] in *.
  destruct (run_event e _) as [[] s'| |]; [|done..]. apply IH; [done|]. apply Hq. by exists q.
Qed.

Lemma inv_loop : spec (inv None) run_loop (inv None).
Proof. intros s Hs. rewrite run_loop_times. by apply inv_times. Qed.

(** The states a program can get to: parts of the user's program, and calls of the loop; both
    can end with an exception that the user catches. *)
Inductive reachable : Sys -> Prop :=
  | reach_init u : reachable (mkSys [] [] None u [])
  | reach_exec s s' A (p : prog A) : reachable s -> (exists a, exec p s = Done a s') \/ exec p s = Throw s' -> reachable s'
  | reach_loop s s' : reachable s -> run_loop s = Done tt s' \/ run_loop s = Throw s' -> reachable s'.

Lemma future_inv s : reachable s -> inv None s.
Proof.
  induction 1 as [u|s s' A p _ IH H|s s' _ IH H].
  - constructor; [constructor | apply List.Forall_nil | done].
  - pose proof (keeps_exec _ (inv_closed None) p s IH) as Hp. destruct H as [[a E]|E]; by rewrite E in Hp.
  - pose proof (inv_loop s IH) as Hp. destruct H as [E|E]; by rewrite E in Hp.
Qed.
End proofs.

(** * Futures: what chains, polls and joins deliver

    Runs of the loop on the futures that [then], [poll] with a count and [whenAll] make, for
    functions of the user that use the user's state only. *)
#[local] Open Scope Z_scope.

Section runs.
Context {F U : Type}.
Context (body : F -> val -> prog (F := F) (U := U) (val * val)) (condition : F -> val -> prog (F := F) (U := U) bool).
Context (task : F -> prog (F := F) (U := U) unit) (now : U -> Z * U).

#[local] Abbreviation Sys := (Sys (F := F) (U := U)).
#[local] Abbreviation M := (M (F := F) (U := U)).
#[local] Abbreviation ControlBlock := (ControlBlock (F := F)).
#[local] Abbreviation run_loop := (run_loop body condition task now).
Implicit Types (s : Sys).

Definition with_user (u : U) s : Sys := mkSys (blocks s) (_mq s) (_lastEvent s) u (completed s).

(** The functions of the user work on the user's state: a call with [v] in the state [u] returns
    a result, leaves a value and changes the state. *)
Context (eff : F -> val -> U -> val * val * U).
Definition user_only : Prop :=
  forall f v s, exec (body f v) s = let '(r, v', u) := eff f v (user s) in Done (r, v') (with_user u s).

(** ** Chains of [then] *)

Fixpoint chain (c : nat) (fs : list F) : M nat :=
  match fs with [] => mret c | f :: fs => p ← future_then c (User f); chain p fs end.

Fixpoint compose (fs : list F) (v : val) (u : U) : val * U :=
  match fs with [] => (v, u) | f :: fs => let '(r, _, u) := eff f v u in compose fs r u end.

(** The blocks of a chain from position [i] on. *)
Fixpoint links (i : nat) (b : ControlBlock) (fs : list F) : list ControlBlock :=
  match fs with
  | [] => [b]
  | f :: fs => with_then (Some (OnThen (User f) (S i))) b :: links (S i) new_block fs
  end.

Lemma lookup_here {A} (l k : list A) x : (l ++ x :: k) !! length l = Some x.
Proof. by apply list_lookup_middle. Qed.

Lemma insert_here {A} (l k : list A) x y : <[length l := y]> (l ++ x :: k) = l ++ y :: k.
Proof. rewrite insert_app_r_alt by lia. by rewrite Nat.sub_diag. Qed.

Lemma get_here pre b post s : blocks s = pre ++ b :: post -> get_block (length pre) s = Done b s.
Proof. intros E. unfold get_block. by rewrite E, lookup_here. Qed.

Lemma update_here g pre b post s : blocks s = pre ++ b :: post ->
  update (length pre) g s = Done tt (set_blocks (pre ++ g b :: post) s).
Proof. intros E. unfold update. by rewrite E, lookup_here, insert_here. Qed.

Lemma attach_new mk pre b s : blocks s = pre ++ [b] -> _state b = NEW ->
  attach (length pre) mk s =
  Done (S (length pre)) (set_blocks (pre ++ [with_then (Some (mk (S (length pre)))) b; new_block]) s).
Proof.
  intros E Hb. unfold attach, make_promise, mbind, M_bind. rewrite E, length_app, Nat.add_1_r, <- app_assoc. cbn [app].
  erewrite get_here by done. rewrite Hb. unfold setCallback. by erewrite update_here by done.
Qed.

Lemma chain_new fs pre b s : blocks s = pre ++ [b] -> _state b = NEW ->
  chain (length pre) fs s = Done (length pre + length fs)%nat (set_blocks (pre ++ links (length pre) b fs) s).
Proof.
  revert pre b s. induction fs as [|f fs IH]; intros pre b s E Hb; cbn [chain links length].
  - rewrite Nat.add_0_r. unfold mret, M_ret. f_equal. destruct s. cbn in *. by rewrite E.
  - unfold mbind, M_bind, future_then. rewrite (attach_new _ pre b) by done.
    set (b1 := with_then _ b). assert (S (length pre) = length (pre ++ [b1])) as E1 by (rewrite length_app; cbn; lia).
    rewrite E1. erewrite IH; [|cbn; by rewrite <- app_assoc | done].
    rewrite <- E1. rewrite <- app_assoc. f_equal. lia.
Qed.

(** A chain whose first callback was posted. *)
Definition posted (pre : list ControlBlock) (v : val) (fs : list F) s : Prop :=
  match fs with
  | [] => blocks s = pre ++ [mkBlock READY v None] /\ _mq s = []
  | f :: fs =>
      blocks s = pre ++ mkBlock POSTED v (Some (OnThen (User f) (S (length pre)))) :: links (S (length pre)) new_block fs /\
      _mq s = [Some (Request (length pre))]
  end.

Lemma makeFuture_eq v s :
  makeFuture v s = Done (length (blocks s)) (set_blocks (blocks s ++ [mkBlock READY v None]) s).
Proof.
  unfold makeFuture, make_promise, setValue, mbind, M_bind. cbn [blocks set_blocks].
  erewrite get_here by done. cbn [new_block _state _then]. by erewrite update_here by done.
Qed.

Lemma attach_ready mk pre b s : blocks s = pre ++ [b] -> _state b = READY ->
  attach (length pre) mk s =
  Done (S (length pre)) (mkSys (pre ++ [mkBlock POSTED (_value b) (Some (mk (S (length pre)))); new_block])
    (_mq s ++ [Some (Request (length pre))]) (_lastEvent s) (user s) (completed s)).
Proof.
  intros E Hb. unfold attach, make_promise, mbind, M_bind. rewrite E, length_app, Nat.add_1_r, <- app_assoc. cbn [app].
  erewrite get_here by done. rewrite Hb. unfold setCallback. erewrite update_here by done.
  unfold postRequest, mbind, M_bind. by erewrite update_here by done.
Qed.

Lemma make_chain v fs s : _mq s = [] ->
  exists s', (c ← makeFuture v; chain c fs) s = Done (length (blocks s) + length fs)%nat s' /\
    posted (blocks s) v fs s' /\ user s' = user s.
Proof.
  intros Hq. unfold mbind, M_bind. rewrite makeFuture_eq. destruct fs as [|f fs].
  { cbn. rewrite Nat.add_0_r. by eexists. }
  cbn [chain]. unfold mbind, M_bind, future_then. erewrite attach_ready by done. cbn [_value _mq set_blocks user _lastEvent].
  set (b0 := mkBlock POSTED _ _). assert (S (length (blocks s)) = length (blocks s ++ [b0])) as E1
    by (rewrite length_app; cbn; lia).
  rewrite E1. erewrite chain_new; [|cbn; by rewrite <- app_assoc | done].
  eexists. split; [f_equal; rewrite <- E1; cbn; lia|]. rewrite <- E1. cbn. by rewrite Hq, <- app_assoc.
Qed.

(** A poll with the count [n] that is queued. *)
Definition polling (pre : list ControlBlock) (n : nat) (f : F) (v : val) s : Prop :=
  exists st, blocks s = pre ++ [mkBlock st v (Some (OnPollN (Z.of_nat n) (User f) (S (length pre)))); new_block] /\
    _mq s = [Some (Request (length pre))].

Lemma make_poll v n f s : _mq s = [] ->
  exists s', (c ← makeFuture v; poll_count c (Z.of_nat n) (User f)) s = Done (S (length (blocks s))) s' /\
    polling (blocks s) n f v s' /\ user s' = user s.
Proof.
  intros Hq. unfold mbind, M_bind. rewrite makeFuture_eq. unfold poll_count. erewrite attach_ready by done.
  eexists. split_and!; [done | | done]. exists POSTED. cbn. by rewrite Hq.
Qed.

(** ** One callback *)

(** The block [p] of a promise that was not set, behind the block of the callback. *)
Lemma setValue_next v b0 b pre post s :
  blocks s = pre ++ b0 :: b :: post -> _state b = NEW ->
  setValue (S (length pre)) v s =
  match _then b with
  | None => Done tt (set_blocks (pre ++ b0 :: mkBlock READY v None :: post) s)
  | Some k => Done tt (mkSys (pre ++ b0 :: mkBlock POSTED v (Some k) :: post) (_mq s ++ [Some (Request (S (length pre)))])
                (_lastEvent s) (user s) (completed s))
  end.
Proof.
  intros E Hb. assert (S (length pre) = length (pre ++ [b0])) as -> by (rewrite length_app; cbn; lia).
  change (b0 :: b :: post) with ([b0] ++ b :: post) in E. rewrite app_assoc in E.
  unfold setValue, mbind, M_bind. erewrite get_here by done. rewrite Hb. erewrite update_here by done.
  destruct b as [st w [k|]]; cbn [_then].
  - unfold postRequest, mbind, M_bind. erewrite update_here by done. cbn. by rewrite <- app_assoc.
  - cbn. by rewrite <- app_assoc.
Qed.

Lemma loop_one e s : _mq s = [e] -> run_loop s = turn body condition task now e s.
Proof.
  intros E. rewrite run_loop_batch, E. cbn [batch foldr]. unfold mbind, M_bind. by destruct (turn _ _ _ _ e s) as [[]| |].
Qed.

Lemma loop_empty s : _mq s = [] -> run_loop s = Done tt s.
Proof. intros E. by rewrite run_loop_batch, E. Qed.

Section chain_run.
Hypothesis Huser : user_only.

Lemma chain_turn f fs v pre s : posted pre v (f :: fs) s ->
  let '(r, v', u) := eff f v (user s) in
  exists b s', run_loop s = Done tt s' /\ posted (pre ++ [b]) r fs s' /\ user s' = u.
Proof.
  intros [Hb Hq]. destruct (eff f v (user s)) as [[r v'] u] eqn:Ee. rewrite (loop_one _ _ Hq).
  unfold turn. rewrite Hq. cbn [tail run_event]. unfold mbind, M_bind.
  erewrite get_here by done. cbn [_then]. unfold invoke, mbind, M_bind. erewrite get_here by done.
  cbn [call _value]. unfold mbind, M_bind. rewrite Huser. cbn [user]. rewrite Ee. unfold mret, M_ret.
  unfold write_back. erewrite update_here by done. cbn [with_user blocks set_blocks].
  set (b0 := with_then _ _). destruct fs as [|f' fs]; cbn [links].
  - erewrite setValue_next by done. cbn [_then new_block]. unfold complete. erewrite update_here by done.
    eexists (with_state DONE b0), _. split_and!; [done | | done]. cbn. by rewrite <- app_assoc.
  - erewrite setValue_next by done. cbn [_then with_then]. unfold complete. erewrite update_here by done.
    eexists (with_state DONE b0), _. split_and!; [done | | done]. cbn.
    by rewrite <- app_assoc, length_app, Nat.add_1_r.
Qed.

Lemma chain_run fs v pre s : posted pre v fs s ->
  exists s', times (length fs) run_loop s = Done tt s' /\
    let '(r, u) := compose fs v (user s) in
    blocks s' !! (length pre + length fs)%nat = Some (mkBlock READY r None) /\ user s' = u /\ _mq s' = [].
Proof.
  revert v pre s. induction fs as [|f fs IH]; intros v pre s Hp; cbn [times length compose].
  - destruct Hp as [Hb Hq]. exists s. split_and!; [done| |done..]. by rewrite Hb, Nat.add_0_r, lookup_here.
  - pose proof (chain_turn f fs v pre s Hp) as Ht. destruct (eff f v (user s)) as [[r v'] u].
    destruct Ht as (b & s1 & E1 & Hp1 & Hu). unfold mbind, M_bind. rewrite E1.
    destruct (IH r _ s1 Hp1) as (s2 & E2 & H2). exists s2. split; [done|]. rewrite Hu in H2.
    rewrite length_app in H2. cbn in H2. replace (length pre + S (length fs))%nat with (length pre + 1 + length fs)%nat by lia.
    done.
Qed.

(** ** Polls with a count *)

(** [f] is called until it holds, at most [n] times. *)
Fixpoint polled (n : nat) (f : F) (v : val) (u : U) : val * U :=
  match n with
  | O => (v, u)
  | S n => let '(r, v, u) := eff f v u in if truth r then (v, u) else polled n f v u
  end.

Definition delivered (pre : list ControlBlock) (v : val) (u : U) s : Prop :=
  blocks s !! S (length pre) = Some (mkBlock READY v None) /\ user s = u /\ _mq s = [].

Lemma lookup_next {A} (l k : list A) x y : (l ++ x :: y :: k) !! S (length l) = Some y.
Proof.
  assert (S (length l) = length (l ++ [x])) as -> by (rewrite length_app; cbn; lia).
  change (l ++ x :: y :: k) with (l ++ [x] ++ y :: k). by rewrite app_assoc, lookup_here.
Qed.

Lemma poll_turn pre n f v s : Z.of_nat n < 2 ^ 64 -> polling pre n f v s ->
  match n with
  | O => exists s', run_loop s = Done tt s' /\ delivered pre v (user s) s'
  | S m =>
      let '(r, v', u) := eff f v (user s) in
      exists s', run_loop s = Done tt s' /\
        if truth r then delivered pre v' u s' else polling pre m f v' s' /\ user s' = u
  end.
Proof.
  intros Hn (st & Hb & Hq). rewrite (loop_one _ _ Hq). unfold turn. rewrite Hq. cbn [tail run_event]. unfold mbind, M_bind.
  erewrite get_here by done. cbn [_then]. unfold invoke, mbind, M_bind. erewrite get_here by done. cbn [_value].
  destruct n as [|m].
  - change (Z.of_nat 0 =? 0) with true. cbn beta iota. unfold write_back. erewrite update_here by done.
    erewrite setValue_next by done. cbn [_then new_block]. unfold complete. erewrite update_here by done.
    eexists. split; [done|]. split_and!; [|done..]. cbn. by rewrite lookup_next.
  - destruct (Z.eqb_spec (Z.of_nat (S m)) 0); [lia|].
    replace (u64 (Z.of_nat (S m) - 1)) with (Z.of_nat m) by (rewrite uwrap_id; lia).
    cbn [call]. unfold mbind, M_bind. rewrite Huser. cbn [user]. destruct (eff f v (user s)) as [[r v'] u].
    unfold mret, M_ret, write_back. erewrite update_here by done. cbn [with_user blocks set_blocks].
    destruct (truth r).
    + erewrite setValue_next by done. cbn [_then new_block]. unfold complete. erewrite update_here by done.
      eexists. split; [done|]. split_and!; [|done..]. cbn. by rewrite lookup_next.
    + unfold yield. erewrite update_here by done. eexists. split; [done|]. split; [|done]. by eexists.
Qed.

Lemma poll_run n pre f v s : Z.of_nat n < 2 ^ 64 -> polling pre n f v s ->
  exists s', times (S n) run_loop s = Done tt s' /\
    let '(w, u) := polled n f v (user s) in delivered pre w u s'.
Proof.
  revert v s. induction n as [|n IH]; intros v s Hn Hp; pose proof (poll_turn _ _ _ _ _ Hn Hp) as Ht; cbn [polled].
  - destruct Ht as (s' & E & Hd). exists s'. split; [|done]. by rewrite times_1.
  - destruct (eff f v (user s)) as [[r v'] u]. destruct Ht as (s1 & E & H1).
    change (times (S (S n)) run_loop s) with ((run_loop ≫= fun _ => times (S n) run_loop) s).
    unfold mbind, M_bind. rewrite E. destruct (truth r).
    + exists s1. split; [|done]. assert (forall k, times k run_loop s1 = Done tt s1) as Hk; [|by apply Hk].
      intros k. induction k as [|k IHk]; [done|]. cbn [times]. unfold mbind, M_bind.
      rewrite loop_empty by (apply H1). done.
    + destruct H1 as [H1 Hu]. rewrite <- Hu. apply IH; [lia | done].
Qed.
End chain_run.

(** ** Joins *)

Definition waiting (pre : list ControlBlock) (cs : list nat) s : Prop :=
  exists st b1, blocks s = pre ++ [mkBlock st (Tuple [Tuple (Block <$> cs); Tuple []]) (Some (OnPoll AllPoll (S (length pre))));
      b1; new_block] /\ b1 = mkBlock NEW (Tuple []) (Some (OnThen AllThen (S (S (length pre))))) /\
    _mq s = [Some (Request (length pre))].

Definition ready (bs : list ControlBlock) (c : nat) : bool :=
  match bs !! c with Some b => has_value (_state b) | None => false end.

Definition value_at (bs : list ControlBlock) (c : nat) : val :=
  match bs !! c with Some b => _value b | None => Tuple [] end.

Lemma all_pass_eq cs bs s : Forall (fun c => c < length bs)%nat cs -> (exists post, blocks s = bs ++ post) ->
  all_pass (Block <$> cs) s = Done (forallb (ready bs) cs) s.
Proof.
  intros H [post E]. induction H as [|c cs Hc _ IH]; [done|]. cbn [all_pass fmap list_fmap forallb].
  unfold mbind, M_bind, get_block, ready at 1. rewrite E, lookup_app_l by done.
  destruct (lookup_lt_is_Some_2 bs c Hc) as [b ->]. destruct (has_value (_state b)); [apply IH | done].
Qed.

Lemma result_eq cs bs s : Forall (fun c => c < length bs)%nat cs -> (exists post, blocks s = bs ++ post) ->
  makeResultTuple (Block <$> cs) s = Done (value_at bs <$> cs) s.
Proof.
  intros H [post E]. induction H as [|c cs Hc _ IH]; [done|]. cbn [makeResultTuple fmap list_fmap].
  unfold mbind, M_bind, get_block, value_at at 1. rewrite E, lookup_app_l by done.
  destruct (lookup_lt_is_Some_2 bs c Hc) as [b ->]. rewrite IH. done.
Qed.

Lemma whenAll_waits cs s : _mq s = [] ->
  exists s', whenAll cs s = Done (S (S (length (blocks s)))) s' /\ waiting (blocks s) cs s' /\ user s' = user s.
Proof.
  intros Hq. unfold whenAll, mbind, M_bind. rewrite makeFuture_eq. unfold poll. erewrite attach_ready by done.
  cbn [_value _mq set_blocks user _lastEvent]. unfold future_then. set (b0 := mkBlock POSTED _ _).
  assert (S (length (blocks s)) = length (blocks s ++ [b0])) as E1 by (rewrite length_app; cbn; lia).
  rewrite E1. erewrite attach_new; [|cbn; by rewrite <- app_assoc | done]. rewrite <- E1.
  eexists. split_and!; [done | | done]. eexists _, _. cbn. rewrite Hq, <- app_assoc. by split_and!.
Qed.

(** The future of a join that waits has no value. *)
Lemma waiting_new pre cs s : waiting pre cs s -> blocks s !! S (S (length pre)) = Some new_block.
Proof.
  intros (st & b1 & -> & _ & _). rewrite lookup_app_r by lia. by replace (S (S (length pre)) - length pre)%nat with 2%nat by lia.
Qed.

(** The poll has passed, its [then] is posted. *)
Definition joined (pre : list ControlBlock) (cbs res : val) s : Prop :=
  blocks s = pre ++ [mkBlock POSTED (Tuple [cbs; res]) (Some (OnThen AllThen (S (length pre)))); new_block] /\
  _mq s = [Some (Request (length pre))].

Lemma joined_turn pre cbs res s : joined pre cbs res s ->
  exists s', run_loop s = Done tt s' /\ delivered pre res (user s) s'.
Proof.
  intros [Hb Hq]. rewrite (loop_one _ _ Hq). unfold turn. rewrite Hq. cbn [tail run_event]. unfold mbind, M_bind.
  erewrite get_here by done. cbn [_then]. unfold invoke, mbind, M_bind. erewrite get_here by done.
  cbn [_value call]. unfold mret, M_ret, write_back. erewrite update_here by done.
  erewrite setValue_next by done. cbn [_then new_block]. unfold complete. erewrite update_here by done.
  eexists. split; [done|]. split_and!; [|done..]. cbn. by rewrite lookup_next.
Qed.

Lemma whenAll_turn pre cs s : waiting pre cs s -> Forall (fun c => c < length pre)%nat cs ->
  exists s', run_loop s = Done tt s' /\ user s' = user s /\
    if forallb (ready pre) cs
    then exists b, joined (pre ++ [b]) (Tuple (Block <$> cs)) (Tuple (value_at pre <$> cs)) s'
    else waiting pre cs s'.
Proof.
  intros (st & b1 & Hb & E1 & Hq) Hcs. rewrite (loop_one _ _ Hq). unfold turn. rewrite Hq. cbn [tail run_event].
  unfold mbind, M_bind. erewrite get_here by done. cbn [_then]. unfold invoke, mbind, M_bind. erewrite get_here by done.
  cbn [_value call]. unfold mbind, M_bind. rewrite (all_pass_eq cs pre) by (done || (cbn; eauto)).
  destruct (forallb (ready pre) cs).
  - rewrite (result_eq cs pre) by (done || (cbn; eauto)). unfold mret, M_ret, write_back.
    erewrite update_here by done. change (truth (of_bool true)) with true. cbn beta iota.
    erewrite setValue_next; [|done | by rewrite E1]. rewrite E1. cbn [_then].
    unfold complete. erewrite update_here by done. eexists. split_and!; [done | done |].
    eexists. split; [|cbn; by rewrite length_app, Nat.add_1_r].
    cbn. by rewrite length_app, Nat.add_1_r, <- app_assoc.
  - unfold mret, M_ret, write_back. erewrite update_here by done. change (truth (of_bool false)) with false. cbn beta iota.
    unfold yield. erewrite update_here by done. eexists. split_and!; [done | done |]. eexists _, b1. by split_and!.
Qed.

(** All the futures have values: the join delivers them with the second call of the loop. *)
Lemma whenAll_delivers pre cs s : waiting pre cs s -> Forall (fun c => c < length pre)%nat cs ->
  forallb (ready pre) cs = true ->
  exists s', times 2 run_loop s = Done tt s' /\ user s' = user s /\ _mq s' = [] /\
    blocks s' !! S (S (length pre)) = Some (mkBlock READY (Tuple (value_at pre <$> cs)) None).
Proof.
  intros Hw Hcs Hr. destruct (whenAll_turn pre cs s Hw Hcs) as (s1 & E1 & U1 & H1). rewrite Hr in H1.
  destruct H1 as [b H1]. destruct (joined_turn _ _ _ _ H1) as (s2 & E2 & H2 & U2 & Q2).
  exists s2. change (times 2 run_loop s) with ((run_loop ≫= fun _ => times 1 run_loop) s). unfold mbind, M_bind.
  rewrite E1, times_1. rewrite length_app, Nat.add_1_r in H2. split_and!; [done | congruence | done | done].
Qed.
End runs.
