(* ===== verification/FluentProps.v ===== *)
(** * The network library: what it does

    The buffer of a connection is a queue of bytes, [split] finds the words of a text, the loop
    runs the events that are queued, and chains, polls and joins of futures deliver their values. *)

From S2P Require Import Prelude Bytes FluentAlgo FluentBuffer.
From stdpp Require Import list.
From S2P Require Import FluentFuture FluentFutureProofs.
#[local] Open Scope Z_scope.

(** ** The buffer *)



(** The bounds of [append].  Bytes fit a buffer as long as all its bytes are at most 2^30, or
    within the capacity; then they follow the bytes that are there.  Beyond, and below 2^31, the
    size overflows the type [int] of roundToPowerOfTwo. *)
Theorem buffer_append_bounds (data : list Z) (b : Buffer) :
  wf b -> unread b + Z.of_nat (length data) < 2 ^ 31 ->
  if bool_decide (unread b + Z.of_nat (length data) <= Z.max (2 ^ 30) (_capacity b))
  then exists b', append data b = Ok b' /\ wf b' /\ content b' = content b ++ data
  else append data b = Ub SignedOverflow.
Proof.
  intros Hb Hn. case_bool_decide as H.
  - destruct (append_spec data b Hb) as (b' & E & W & C & _); [unfold holdable; lia|]. by exists b'.
  - apply append_overflow; [done | unfold holdable; lia | done].
Qed.

Lemma buffer_append_bounds_witness :
  exists b', append [5; 6] (mkBuffer [1; 2; 3; 4] 4 3 4) = Ok b' /\ wf b' /\ content b' = [4] ++ [5; 6].
Proof. apply (buffer_append_bounds [5; 6] (mkBuffer [1; 2; 3; 4] 4 3 4)); [constructor; by vm_compute | by vm_compute]. Defined.

(** ** Texts *)

(** The words of a text.  Both [split] functions, on a std::string and on a text that ends with
    zero, return the same list of ranges; the ranges are nonempty, in order and apart from each
    other, and a position is in one of them if and only if its character is not the pivot. *)
Theorem split_finds_words (str tl : list Z) (pivot : Z) :
  Z.of_nat (length str) < 2 ^ 31 -> Forall (fun c => c <> 0) str ->
  exists r, split_string str pivot = Ok r /\ split_cstr (str ++ 0 :: tl) pivot = Ok r /\ separated r /\
    forall i, in_run r i <-> exists j c, str !! j = Some c /\ i = Z.of_nat j /\ c <> pivot.
Proof.
  intros Hl Hz. exists (runs_of pivot 0 str). split_and!; [by apply split_runs | by apply split_cstr_runs | apply runs_separated |].
  intros i. apply runs_cover.
Qed.

Lemma split_finds_words_witness : exists r, split_string [32; 71; 69; 84; 32; 32; 47] 32 = Ok r /\ separated r.
Proof.
  destruct (split_finds_words [32; 71; 69; 84; 32; 32; 47] [9] 32) as (r & H1 & _ & H2 & _);
    [cbn; lia | by repeat constructor | exists r; exact (conj H1 H2)].
Defined.

(** ** The loop and futures *)

Section futures.
Context {F U : Type}.
Context (body : F -> val -> prog (F := F) (U := U) (val * val)) (condition : F -> val -> prog (F := F) (U := U) bool).
Context (task : F -> prog (F := F) (U := U) unit) (now : U -> Z * U).

(** The unrolled loop of Looper runs the events that were queued when it started, each once and
    in order, whatever they post: those wait for the next call.  It stops at the first that throws
    or is undefined. *)
Theorem loop_runs_batch (s : Sys (F := F) (U := U)) :
  run_loop body condition task now s = batch body condition task now (_mq s) s.
Proof. apply run_loop_batch. Qed.


(** C32: a chain of [then] delivers.  For functions that work on the user's state, a future that has
    a value, followed by any number of [then], is completed after as many calls of the loop, with
    the composition of the functions, called once each in order, and nothing stays queued. *)
Theorem then_chain_delivers (eff : F -> val -> U -> val * val * U) (v : val) (fs : list F) (s : Sys (F := F) (U := U)) :
  user_only body eff -> _mq s = [] ->
  exists c s1 s2, (c ← makeFuture v; chain c fs) s = Done c s1 /\
    times (length fs) (run_loop body condition task now) s1 = Done tt s2 /\
    let '(r, u) := compose eff fs v (user s) in
    blocks s2 !! c = Some (mkBlock READY r None) /\ user s2 = u /\ _mq s2 = [].
Proof.
  intros Hu Hq. destruct (make_chain v fs s Hq) as (s1 & E1 & Hp & Eu).
  destruct (chain_run body condition task now eff Hu fs v (blocks s) s1 Hp) as (s2 & E2 & H).
  exists (length (blocks s) + length fs)%nat, s1, s2. rewrite Eu in H. done.
Qed.

(** A poll with a count ends.  The function is called until it returns true, at most [n] times,
    and after at most [n + 1] calls of the loop the future has the value it left. *)
Theorem poll_count_ends (eff : F -> val -> U -> val * val * U) (n : nat) (f : F) (v : val) (s : Sys (F := F) (U := U)) :
  user_only body eff -> Z.of_nat n < 2 ^ 64 -> _mq s = [] ->
  exists c s1 s2, (c ← makeFuture v; poll_count c (Z.of_nat n) (User f)) s = Done c s1 /\
    times (S n) (run_loop body condition task now) s1 = Done tt s2 /\
    let '(w, u) := polled eff n f v (user s) in
    blocks s2 !! c = Some (mkBlock READY w None) /\ user s2 = u /\ _mq s2 = [].
Proof.
  intros Hu Hn Hq. destruct (make_poll v n f s Hq) as (s1 & E1 & Hp & Eu).
  destruct (poll_run body condition task now eff Hu n (blocks s) f v s1 Hn Hp) as (s2 & E2 & H).
  exists (S (length (blocks s))), s1, s2. rewrite Eu in H. done.
Qed.

(** A join waits for all.  [whenAll] of existing futures is not completed by a call of the loop
    while one of them has no value; when all have one, it has the tuple of their values after two
    calls, and the state of the user is not touched. *)
Theorem whenAll_joins (cs : list nat) (s : Sys (F := F) (U := U)) :
  _mq s = [] -> Forall (fun c => c < length (blocks s))%nat cs ->
  exists c s1, whenAll cs s = Done c s1 /\ user s1 = user s /\
    if forallb (ready (blocks s)) cs then
      exists s2, times 2 (run_loop body condition task now) s1 = Done tt s2 /\ user s2 = user s /\
        blocks s2 !! c = Some (mkBlock READY (Tuple (value_at (blocks s) <$> cs)) None)
    else
      exists s2, run_loop body condition task now s1 = Done tt s2 /\ user s2 = user s /\ waiting (blocks s) cs s2 /\
        blocks s2 !! c = Some new_block.
Proof.
  intros Hq Hc. destruct (whenAll_waits cs s Hq) as (s1 & E & Hw & Hu). exists (S (S (length (blocks s)))), s1.
  split_and!; [done | done|]. destruct (forallb (ready (blocks s)) cs) eqn:Er.
  - destruct (whenAll_delivers body condition task now (blocks s) cs s1 Hw Hc Er) as (s2 & E2 & Hu2 & _ & Hb).
    exists s2. split_and!; [done | congruence | done].
  - destruct (whenAll_turn body condition task now (blocks s) cs s1 Hw Hc) as (s2 & E2 & Hu2 & H2). rewrite Er in H2.
    exists s2. split_and!; [done | congruence | done | by apply (waiting_new _ cs)].
Qed.
End futures.

(** *** A program: [inc] adds one to the value and counts its calls, [big] asks whether it is more
    than two and increments it *)

Definition sample_body (inc : bool) (v : val) : prog (F := bool) (U := Z) (val * val) :=
  Op (CUser Z (fun u => (u, u + 1))) (fun _ =>
    match v with
    | Int z => Ret (if inc then Int (z + 1) else of_bool (2 <? z), if inc then v else Int (z + 1))
    | _ => Ret (v, v)
    end).

Definition sample_eff (inc : bool) (v : val) (u : Z) : val * val * Z :=
  match v with
  | Int z => (if inc then Int (z + 1) else of_bool (2 <? z), if inc then v else Int (z + 1), u + 1)
  | _ => (v, v, u + 1)
  end.

Lemma sample_user_only : user_only sample_body sample_eff.
Proof. intros f v s. by destruct v. Qed.

Definition no_condition (f : bool) (v : val) : prog (F := bool) (U := Z) bool := Ret true.
Definition no_task (f : bool) : prog (F := bool) (U := Z) unit := Ret tt.


Lemma then_chain_delivers_witness :
  exists c s1 s2, (c ← makeFuture (Int 5); chain c [true; true]) (mkSys [] [] None 0 []) = Done c s1 /\
    times 2 (run_loop sample_body no_condition no_task (fun u => (u, u))) s1 = Done tt s2 /\
    blocks s2 !! c = Some (mkBlock READY (Int 7) None) /\ user s2 = 2 /\ _mq s2 = [].
Proof.
  apply (then_chain_delivers sample_body no_condition no_task (fun u => (u, u)) sample_eff (Int 5) [true; true] (mkSys [] [] None 0 []));
    [apply sample_user_only | reflexivity].
Defined.

Lemma poll_count_ends_witness :
  exists c s1 s2, (c ← makeFuture (Int 1); poll_count c (Z.of_nat 9) (User false)) (mkSys [] [] None 0 []) = Done c s1 /\
    times 10 (run_loop sample_body no_condition no_task (fun u => (u, u))) s1 = Done tt s2 /\
    blocks s2 !! c = Some (mkBlock READY (Int 4) None) /\ user s2 = 3 /\ _mq s2 = [].
Proof.
  apply (poll_count_ends sample_body no_condition no_task (fun u => (u, u)) sample_eff 9 false (Int 1) (mkSys [] [] None 0 []));
    [apply sample_user_only | done | reflexivity].
Defined.

Lemma whenAll_joins_witness :
  exists c s1, whenAll [1; 0]%nat (mkSys [mkBlock READY (Int 3) None; mkBlock READY (Int 4) None] [] None 0 []) = Done c s1 /\ user s1 = 0 /\
    exists s2, times 2 (run_loop sample_body no_condition no_task (fun u => (u, u))) s1 = Done tt s2 /\ user s2 = 0 /\
      blocks s2 !! c = Some (mkBlock READY (Tuple [Int 4; Int 3]) None).
Proof.
  apply (whenAll_joins sample_body no_condition no_task (fun u => (u, u)) [1; 0]%nat
    (mkSys [mkBlock READY (Int 3) None; mkBlock READY (Int 4) None] [] None 0 [])); [reflexivity | repeat constructor].
Defined.
