(* ===== verification/FluentPool.v ===== *)
(** * The pool of connections

    src/net/fluent/include/network/Pool.h with utils/WeakReference.h: a vector of owned connections
    whose slots are used again, and the window that collects the free slots in small steps.

    The connections are a parameter, with the test that a connection is not used any more. *)

From S2P Require Import Prelude.
From stdpp Require Import list list_relations.
#[local] Open Scope Z_scope.

Section pool.
Context {A : Type} (reusable : A -> res bool).

(** The members of WeakReference: slots from [_reusableIndex] on may be free, those of the window
    from [left] to [right] are. *)
Record Weak : Type := mkWeak { _reusableIndex : Z; left : Z; right : Z }.

(** A slot is a [unique_ptr], which can be empty. *)
Record Pool : Type := mkPool { _container : list (option A); weak : Weak }.

Definition GC_THRESHOLD : Z := 16.
Definition PREFETCH : Z := 16.

Definition Pool_new : Pool := mkPool (replicate (Z.to_nat PREFETCH) None) (mkWeak 0 0 (- 1)).

Definition size (P : Pool) : Z := Z.of_nat (length (_container P)).

(** [isReusable()], and [isReusable(index)]. *)
Definition isReusable (P : Pool) : bool := negb (_reusableIndex (weak P) =? size P).

Definition isReusable_at (P : Pool) (index : Z) : res bool :=
  connection ← (_container P).[index];
  match connection with None => Ok true | Some context => reusable context end.

Definition resetWindow (w : Weak) : Weak := mkWeak (_reusableIndex w) 0 (- 1).

Definition doUpdate (P : Pool) : res Pool :=
  let '(mkWeak index left right) := weak P in
  if right <? left then
    unused ← isReusable_at P left;
    if (unused : bool) then Ok (mkPool (_container P) (mkWeak index left (right + 1)))
    else
      let w := mkWeak index (left + 1) (right + 1) in
      Ok (mkPool (_container P) (if left + 1 =? index then resetWindow w else w))
  else if right + 1 =? index then Ok (mkPool (_container P) (resetWindow (mkWeak left left right)))
  else
    unused ← isReusable_at P (right + 1);
    if (unused : bool) then Ok (mkPool (_container P) (mkWeak index left (right + 1)))
    else
      x ← (_container P).[right + 1];
      y ← (_container P).[left];
      c ← (_container P).[right + 1 <- y];
      c ← c.[left <- x];
      Ok (mkPool c (mkWeak index (left + 1) (right + 1))).

(** The loop of [updateReusableIndex] with the template argument [step]. *)
Fixpoint updateReusableIndex (step : nat) (P : Pool) : res Pool :=
  match step with
  | O => Ok P
  | S step => if _reusableIndex (weak P) =? 0 then Ok P else P ← doUpdate P; updateReusableIndex step P
  end.

(** [emplace], with the connection that is destroyed. *)
Definition emplace (connection : A) (P : Pool) : res (option A * Pool) :=
  P ← (if GC_THRESHOLD <? size P then updateReusableIndex 2 P else Ok P);
  let '(mkWeak pos left right) := weak P in
  unused ← (if isReusable P then isReusable_at P pos else Ok false);
  if (unused : bool) then
    old ← (_container P).[pos];
    c ← (_container P).[pos <- Some connection];
    Ok (old, mkPool c (mkWeak (pos + 1) left right))
  else Ok (None, mkPool (_container P ++ [Some connection]) (weak P)).

(** ** The window

    The slots below the index are those that the window has left behind, those of the window, and
    those to come. *)

Definition window (B W R T : list (option A)) (P : Pool) : Prop :=
  _container P = B ++ W ++ R ++ T /\
  weak P = mkWeak (Z.of_nat (length B + length W + length R)) (Z.of_nat (length B)) (Z.of_nat (length B + length W) - 1).

Definition pool_ok (P : Pool) : Prop := exists B W R T, window B W R T P /\ (W ++ R = [] -> B = []).

Lemma pool_new_ok : pool_ok Pool_new.
Proof. by exists [], [], [], (replicate (Z.to_nat PREFETCH) None). Qed.

Definition is_free (x : option A) : Prop := match x with None => True | Some a => reusable a = Ok true end.
Definition busy (x : option A) : Prop := match x with None => False | Some a => reusable a = Ok false end.

(** The test has a value for the connections of the pool. *)
Definition tested (c : list (option A)) : Prop := Forall (fun x => is_free x \/ busy x) c.

Lemma at_index_mid {B} (l1 l2 l : list B) x i : l = l1 ++ x :: l2 -> i = Z.of_nat (length l1) -> l.[i] = Ok x.
Proof. intros -> ->. apply at_index_lookup; [lia|]. rewrite Nat2Z.id. by apply list_lookup_middle. Qed.

Lemma set_index_mid {B} (l1 l2 l : list B) x y i : l = l1 ++ x :: l2 -> i = Z.of_nat (length l1) -> l.[i <- y] = Ok (l1 ++ y :: l2).
Proof.
  intros -> ->. rewrite set_index_ok by (rewrite length_app; cbn; lia). f_equal. rewrite Nat2Z.id.
  by rewrite insert_app_r_alt, Nat.sub_diag by lia.
Qed.

Lemma isReusable_at_mid l1 x l2 P i : _container P = l1 ++ x :: l2 -> i = Z.of_nat (length l1) -> is_free x \/ busy x ->
  exists b, isReusable_at P i = Ok b /\ if b then is_free x else busy x.
Proof.
  intros E Hi Hx. unfold isReusable_at. rewrite (at_index_mid l1 l2 _ x i E Hi). cbn [mbind res_bind].
  destruct x as [a|]; [|by exists true]. cbn in *. destruct Hx as [-> | ->]; by eexists.
Qed.

(** A step of the collection, on the slots. *)
Inductive collect : list (option A) * list (option A) * list (option A) * list (option A) ->
    list (option A) * list (option A) * list (option A) * list (option A) -> Prop :=
  | c_open B x R T : is_free x -> collect (B, [], x :: R, T) (B, [x], R, T)
  | c_pass B x R T : busy x -> R <> [] -> collect (B, [], x :: R, T) (B ++ [x], [], R, T)
  | c_reset B x T : busy x -> collect (B, [], [x], T) ([], [], B ++ [x], T)
  | c_merge B w W T : collect (B, w :: W, [], T) ([], [], B, w :: W ++ T)
  | c_grow B w W x R T : is_free x -> collect (B, w :: W, x :: R, T) (B, w :: W ++ [x], R, T)
  | c_swap B w W x R T : busy x -> collect (B, w :: W, x :: R, T) (B ++ [x], W ++ [w], R, T).

Lemma swap_index (c : list (option A)) B w W x R i j : c = B ++ w :: W ++ x :: R -> i = Z.of_nat (length B + S (length W)) -> j = Z.of_nat (length B) ->
  c.[i] = Ok x /\ c.[j] = Ok w /\ exists c1, c.[i <- w] = Ok c1 /\ c1.[j <- x] = Ok (B ++ x :: W ++ w :: R).
Proof.
  intros E Hi Hj. assert (c = (B ++ w :: W) ++ x :: R) as E' by (by rewrite <- app_assoc).
  assert (i = Z.of_nat (length (B ++ w :: W))) as Hi' by (rewrite length_app; cbn; lia). split_and!.
  - by eapply at_index_mid.
  - by eapply at_index_mid.
  - eexists. split; [by eapply set_index_mid|]. eapply set_index_mid; [|exact Hj]. by rewrite <- app_assoc.
Qed.

Lemma doUpdate_collect B W R T P : window B W R T P -> tested R -> W ++ R <> [] ->
  exists B' W' R' T' P', doUpdate P = Ok P' /\ window B' W' R' T' P' /\ collect (B, W, R, T) (B', W', R', T').
Proof.
  intros [Ec Ew] Ht Hne. unfold doUpdate. rewrite Ew. destruct W as [|w W].
  - destruct R as [|x R]; [done|]. apply Forall_cons in Ht as [Hx Ht]. destruct (Z.ltb_spec (Z.of_nat (length B + length (@nil (option A))) - 1) (Z.of_nat (length B))); [|cbn in *; lia].
    destruct (isReusable_at_mid B x (R ++ T) P (Z.of_nat (length B)) Ec eq_refl Hx) as ([] & -> & Hb); cbn [mbind res_bind].
    + eexists B, [x], R, T, _. split_and!; [done | | by constructor]. split; [exact Ec|]. cbn [weak length]. f_equal; lia.
    + destruct R as [|y R].
      * rewrite (proj2 (Z.eqb_eq _ _)) by (cbn; lia). eexists [], [], (B ++ [x]), T, _. split_and!; [done | | by constructor].
        split; [cbn; by rewrite Ec, <- app_assoc|]. unfold resetWindow. cbn [weak length _reusableIndex]. rewrite length_app. cbn. f_equal; lia.
      * rewrite (proj2 (Z.eqb_neq _ _)) by (cbn; lia). eexists (B ++ [x]), [], (y :: R), T, _. split_and!; [done | | by constructor].
        split; [cbn; by rewrite Ec, <- app_assoc|]. cbn [weak]. rewrite length_app. cbn [length]. f_equal; lia.
  - destruct (Z.ltb_spec (Z.of_nat (length B + length (w :: W)) - 1) (Z.of_nat (length B))); [cbn in *; lia|]. destruct R as [|x R].
    + rewrite (proj2 (Z.eqb_eq _ _)) by (cbn; lia). eexists [], [], B, (w :: W ++ T), _. split_and!; [done | | by constructor].
      split; [exact Ec|]. unfold resetWindow. cbn. f_equal; lia.
    + apply Forall_cons in Ht as [Hx Ht]. rewrite (proj2 (Z.eqb_neq _ _)) by (cbn; lia).
      assert (_container P = (B ++ w :: W) ++ x :: (R ++ T)) as Ec' by (rewrite Ec, <- app_assoc; done).
      destruct (isReusable_at_mid (B ++ w :: W) x (R ++ T) P (Z.of_nat (length B + length (w :: W)) - 1 + 1) Ec') as ([] & -> & Hb);
        [rewrite length_app; lia | done | |]; cbn [mbind res_bind].
      * eexists B, (w :: W ++ [x]), R, T, _. split_and!; [done | | by constructor]. split; [cbn; by rewrite Ec, <- app_assoc|].
        cbn [weak length]. rewrite length_app. cbn [length]. f_equal; lia.
      * destruct (swap_index (_container P) B w W x (R ++ T) (Z.of_nat (length B + length (w :: W)) - 1 + 1) (Z.of_nat (length B)))
          as (-> & -> & c1 & E1 & E2); [exact Ec | cbn; lia | done|]. cbn [mbind res_bind]. rewrite E1. cbn [mbind res_bind]. rewrite E2. cbn [mbind res_bind].
        eexists (B ++ [x]), (W ++ [w]), R, T, _. split_and!; [done | | by constructor]. split; [cbn; by rewrite <- !app_assoc|].
        cbn [weak]. rewrite !length_app. cbn [length]. f_equal; lia.
Qed.

Definition slots (q : list (option A) * list (option A) * list (option A) * list (option A)) : list (option A) :=
  let '(B, W, R, T) := q in B ++ W ++ R ++ T.

Lemma collect_perm q q' : collect q q' -> slots q' ≡ₚ slots q.
Proof.
  intros []; cbn [slots app]; rewrite <- ?app_assoc; cbn [app]; try reflexivity.
  f_equiv. rewrite <- !Permutation_middle. apply Permutation_swap.
Qed.

Lemma tested_perm c c' : c ≡ₚ c' -> tested c -> tested c'.
Proof. unfold tested. by intros ->. Qed.

Lemma updateReusableIndex_ok n P : pool_ok P -> tested (_container P) ->
  exists P', updateReusableIndex n P = Ok P' /\ pool_ok P' /\ _container P' ≡ₚ _container P.
Proof.
  revert P. induction n as [|n IH]; intros P Hok Ht; [by exists P|]. cbn [updateReusableIndex].
  destruct (Z.eqb_spec (_reusableIndex (weak P)) 0) as [|Hne]; [by exists P|]. destruct Hok as (B & W & R & T & HP & Hb). pose proof HP as [Ec Ew].
  assert (W ++ R <> []) as HWR.
  { intros E. rewrite (Hb E) in Ew. apply app_nil in E as [-> ->]. by rewrite Ew in Hne. }
  destruct (doUpdate_collect B W R T P HP) as (B' & W' & R' & T' & P' & E & HP' & Hc); [|done|].
  { rewrite Ec in Ht. by apply Forall_app in Ht as [_ [_ [Ht _]%Forall_app]%Forall_app]. }
  assert (_container P' ≡ₚ _container P) as Hp by (rewrite (proj1 HP'), Ec; exact (collect_perm _ _ Hc)).
  rewrite E. cbn [mbind res_bind]. destruct (IH P') as (P2 & E2 & Hok2 & Hp2).
  - exists B', W', R', T'. split; [done|]. inversion Hc; subst; intros E'; try done; try (by apply app_nil in E' as [? ?]); by apply app_nil in E' as [[? ?]%app_nil ?].
  - by eapply tested_perm; [symmetry; exact Hp|].
  - exists P2. split_and!; [done | done | by rewrite Hp2].
Qed.

(** ** What the pool owns *)

Definition owned (c : list (option A)) : list A := omap id c.

Lemma owned_app c1 c2 : owned (c1 ++ c2) = owned c1 ++ owned c2.
Proof. apply omap_app. Qed.

#[export] Instance owned_perm : Proper ((≡ₚ) ==> (≡ₚ)) owned.
Proof. intros c1 c2 H. unfold owned. by rewrite H. Qed.

Lemma emplace_at x B W R T P : window B W R T P -> tested T -> exists old P',
  (let '(mkWeak pos left right) := weak P in
   unused ← (if isReusable P then isReusable_at P pos else Ok false);
   if (unused : bool) then
     old ← (_container P).[pos];
     c ← (_container P).[pos <- Some x];
     Ok (old, mkPool c (mkWeak (pos + 1) left right))
   else Ok (None, mkPool (_container P ++ [Some x]) (weak P))) = Ok (old, P') /\
  ((exists y T', T = y :: T' /\ is_free y /\ old = y /\ window B W (R ++ [Some x]) T' P') \/
   (old = None /\ window B W R (T ++ [Some x]) P' /\ match T with [] => True | y :: _ => busy y end)).
Proof.
  intros [Ec Ew] Ht. rewrite Ew. unfold isReusable, size. rewrite Ew, Ec, !length_app. cbn [_reusableIndex]. destruct T as [|y T].
  - rewrite (proj2 (Z.eqb_eq _ _)) by (cbn; lia). cbn [negb mbind res_bind]. eexists None, _. split; [done|]. right. split_and!; [done | | done].
    split; cbn; [by rewrite !app_nil_r, <- !app_assoc | done].
  - rewrite (proj2 (Z.eqb_neq _ _)) by (cbn; lia). cbn [negb]. apply Forall_cons in Ht as [Hy Ht].
    assert (_container P = (B ++ W ++ R) ++ y :: T) as Ec' by (by rewrite Ec, <- !app_assoc).
    assert (Z.of_nat (length B + length W + length R) = Z.of_nat (length (B ++ W ++ R))) as Hi by (rewrite !length_app; lia).
    destruct (isReusable_at_mid (B ++ W ++ R) y T P _ Ec' Hi Hy) as ([] & -> & Hb); cbn [mbind res_bind].
    + rewrite <- Ec, (at_index_mid _ _ _ _ _ Ec' Hi). cbn [mbind res_bind]. rewrite (set_index_mid _ _ _ _ (Some x) _ Ec' Hi). cbn [mbind res_bind].
      eexists y, _. split; [done|]. left. exists y, T. split_and!; [done | done | done|]. split; cbn; [by rewrite <- !app_assoc|].
      rewrite length_app. cbn. f_equal; lia.
    + eexists None, _. split; [done|]. right. split_and!; [done | | done]. split; cbn; [by rewrite <- !app_assoc | done].
Qed.

(** A connection enters the pool; the others stay in it, but for one that is not used any more. *)
Lemma emplace_ok x P : pool_ok P -> tested (_container P) ->
  exists old P' kept, emplace x P = Ok (old, P') /\ pool_ok P' /\
    owned (_container P) ≡ₚ option_list old ++ kept /\ owned (_container P') ≡ₚ x :: kept /\ is_free old.
Proof.
  intros Hok Ht. unfold emplace.
  assert (exists P1, (if GC_THRESHOLD <? size P then updateReusableIndex 2 P else Ok P) = Ok P1 /\ pool_ok P1 /\ _container P1 ≡ₚ _container P)
    as (P1 & -> & (B & W & R & T & HP & Hb) & Hp).
  { destruct (GC_THRESHOLD <? size P); [by apply updateReusableIndex_ok | by exists P]. }
  apply (tested_perm _ _ (Permutation_sym Hp)) in Ht. assert (owned (_container P1) ≡ₚ owned (_container P)) as Ho by (by rewrite Hp). pose proof HP as [Ec _]. rewrite Ec in Ht.
  cbn [mbind res_bind]. destruct (emplace_at x B W R T P1 HP) as (old & P2 & -> & H); [by apply Forall_app in Ht as [_ [_ [_ Ht]%Forall_app]%Forall_app]|].
  exists old, P2. rewrite Ec in Ho. destruct H as [(y & T' & -> & Hy & -> & HP2)|(-> & HP2 & _)]; pose proof HP2 as [Ec2 _]; rewrite Ec2.
  - exists (owned (B ++ W ++ R ++ T')). split_and!; [done | | | |done].
    + exists B, W, (R ++ [Some x]), T'. split; [done|]. intros E. by apply app_nil in E as [_ [_ ?]%app_nil].
    + rewrite <- Ho, !owned_app. change (owned (y :: T')) with (owned ([y] ++ T')). rewrite owned_app.
      replace (owned [y]) with (option_list y) by (by destruct y). solve_Permutation.
    + rewrite !owned_app. solve_Permutation.
  - exists (owned (B ++ W ++ R ++ T)). split_and!; [done | | by rewrite <- Ho | | done].
    + exists B, W, R, (T ++ [Some x]). done.
    + rewrite !owned_app. solve_Permutation.
Qed.

(** A round of the collection, from a window at the beginning: as many steps as there are slots
    below the index, or one more. *)
Lemma collect_round n B W R T P : length R = n -> window B W R T P -> tested R -> Forall busy B -> Forall is_free W ->
  W ++ R <> [] -> exists k B' W' P', (0 < k <= S (length R))%nat /\ updateReusableIndex k P = Ok P' /\
    window [] [] B' (W' ++ T) P' /\ Forall busy B' /\ Forall is_free W' /\ B' ++ W' ≡ₚ B ++ W ++ R.
Proof.
  revert B W R P. induction n as [n IH] using lt_wf_ind. intros B W R P Hn HP Ht HB HW Hne.
  destruct (doUpdate_collect B W R T P HP Ht Hne) as (B1 & W1 & R1 & T1 & P1 & E & HP1 & Hc).
  assert (_reusableIndex (weak P) <> 0) as Hi.
  { rewrite (proj2 HP). cbn. destruct W, R; cbn; (done || lia). }
  assert (forall k P', updateReusableIndex k P1 = Ok P' -> updateReusableIndex (S k) P = Ok P') as Hstep.
  { intros k P' H. cbn [updateReusableIndex]. rewrite (proj2 (Z.eqb_neq _ _) Hi), E. exact H. }
  assert (length R1 < n -> T1 = T -> Forall busy B1 -> Forall is_free W1 -> tested R1 -> W1 ++ R1 <> [] -> B1 ++ W1 ++ R1 ≡ₚ B ++ W ++ R ->
    exists k B' W' P', (0 < k <= S (length R))%nat /\ updateReusableIndex k P = Ok P' /\
      window [] [] B' (W' ++ T) P' /\ Forall busy B' /\ Forall is_free W' /\ B' ++ W' ≡ₚ B ++ W ++ R)%nat as Hrec.
  { intros Hl -> HB1 HW1 Ht1 Hne1 Hp. destruct (IH (length R1) Hl B1 W1 R1 P1 eq_refl HP1 Ht1 HB1 HW1 Hne1) as (k & B' & W' & P' & Hk & E' & HP' & HB' & HW' & Hp').
    exists (S k), B', W', P'. split_and!; [lia | lia | by apply Hstep | done | done | done | by rewrite Hp']. }
  inversion Hc; subst; cbn [app] in *; try (apply Forall_cons in Ht as [Hx Ht]).
  - apply Hrec; try done; [cbn; lia | by constructor].
  - apply Hrec; try done; [cbn; lia | by apply Forall_app; split; [|constructor] | by rewrite <- app_assoc].
  - exists 1%nat, (B ++ [x]), [], P1. split_and!; [lia | cbn; lia | by apply (Hstep O) | done | by apply Forall_app; split; [|constructor] | done | by rewrite app_nil_r].
  - eexists 1%nat, _, (w :: W0), P1. split_and!; [lia | cbn; lia | by apply (Hstep O) | done | done | done | by rewrite app_nil_r].
  - apply Hrec; try done; [cbn; lia | | by cbn; rewrite <- app_assoc]. apply Forall_cons in HW as [? HW]. constructor; [done|]. by apply Forall_app; split; [|constructor].
  - apply Forall_cons in HW as [Hw HW]. apply Hrec; try done; [cbn; lia | by apply Forall_app; split; [|constructor] | by apply Forall_app; split; [|constructor] | | solve_Permutation].
    by destruct W0.
Qed.

(** ** Where the pool does not use slots again *)

(** Connections that enter one after the other, with those that are destroyed for them. *)
Fixpoint emplace_all (xs : list A) (P : Pool) : res (list A * Pool) :=
  match xs with
  | [] => Ok ([], P)
  | x :: xs => '(old, P) ← emplace x P; '(olds, P) ← emplace_all xs P; Ok (option_list old ++ olds, P)
  end.

Lemma collect_busy n B R T P : window B [] R T P -> Forall busy B -> Forall busy R -> R <> [] ->
  exists B' R' P', updateReusableIndex n P = Ok P' /\ window B' [] R' T P' /\ Forall busy B' /\ Forall busy R' /\ R' <> [] /\
    (length B' + length R' = length B + length R)%nat.
Proof.
  revert B R P. induction n as [|n IH]; intros B R P HP HB HR Hne; [by exists B, R, P|]. cbn [updateReusableIndex].
  rewrite (proj2 (Z.eqb_neq _ _)) by (rewrite (proj2 HP); cbn; destruct R; [done | cbn; lia]).
  destruct (doUpdate_collect B [] R T P HP) as (B1 & W1 & R1 & T1 & P1 & -> & HP1 & Hc); [by eapply Forall_impl; [exact HR|]; auto | done|].
  cbn [mbind res_bind]. destruct R as [|x R]; [done|]. apply Forall_cons in HR as [Hx HR].
  assert (is_free x -> False) as Hxf by (destruct x as [a|]; cbn in *; congruence).
  inversion Hc; subst.
  - by exfalso.
  - destruct (IH (B ++ [x]) R1 P1) as (B' & R' & P' & E & ? & ? & ? & ? & Hl); [done | by apply Forall_app; split; [|constructor] | done | done|].
    exists B', R', P'. split_and!; try done. rewrite length_app in Hl. cbn in *. lia.
  - destruct (IH [] (B ++ [x]) P1) as (B' & R' & P' & E & ? & ? & ? & ? & Hl); [done | done | by apply Forall_app; split; [|constructor] | by destruct B|].
    exists B', R', P'. split_and!; try done. rewrite length_app in Hl. cbn in *. lia.
Qed.

(** Sixteen connections fill the slots that the pool starts with. *)
Lemma emplace_prefetch xs k R P : window [] [] R (replicate (length xs + k) None) P -> (length R + length xs + k = 16)%nat ->
  exists P', emplace_all xs P = Ok ([], P') /\ window [] [] (R ++ (Some <$> xs)) (replicate k None) P'.
Proof.
  revert R P. induction xs as [|x xs IH]; intros R P HP Hl; cbn [emplace_all fmap list_fmap]; [exists P; by rewrite app_nil_r|].
  unfold emplace. assert ((GC_THRESHOLD <? size P) = false) as ->.
  { apply Z.ltb_ge. unfold size, GC_THRESHOLD. rewrite (proj1 HP). cbn [app]. rewrite length_app, length_replicate. cbn in *. lia. }
  cbn [mbind res_bind]. destruct (emplace_at x [] [] R (replicate (length (x :: xs) + k) None) P HP) as (old & P1 & -> & H); [apply Forall_replicate; by left|].
  destruct H as [(y & T' & [= <- <-] & _ & -> & HP1)|(_ & _ & [])]. cbn [mbind res_bind option_list app].
  destruct (IH (R ++ [Some x]) P1 HP1) as (P2 & -> & HP2); [rewrite length_app; cbn in *; lia|]. cbn [mbind res_bind].
  exists P2. split; [done|]. by rewrite <- app_assoc in HP2.
Qed.

(** Once the slot at the index and all slots below are used, every connection gets a new slot. *)
Lemma emplace_grows xs B R y T P : window B [] R (y :: T) P -> tested T -> Forall (fun x => is_free (Some x) \/ busy (Some x)) xs ->
  Forall busy B -> Forall busy R -> busy y -> (length B + length R = 16)%nat -> R <> [] ->
  exists P', emplace_all xs P = Ok ([], P') /\ size P' = size P + Z.of_nat (length xs).
Proof.
  revert B R T P. induction xs as [|x xs IH]; intros B R T P HP HT Hxs HB HR Hy Hl Hne; cbn [emplace_all]; [exists P; cbn; split; [done | lia]|].
  apply Forall_cons in Hxs as [Hx Hxs]. unfold emplace. assert ((GC_THRESHOLD <? size P) = true) as ->.
  { apply Z.ltb_lt. unfold size, GC_THRESHOLD. rewrite (proj1 HP). cbn [app]. rewrite !length_app. cbn in *. lia. }
  destruct (collect_busy 2 B R (y :: T) P HP HB HR Hne) as (B1 & R1 & P1 & -> & HP1 & HB1 & HR1 & Hne1 & Hl1). cbn [mbind res_bind].
  destruct (emplace_at x B1 [] R1 (y :: T) P1 HP1) as (old & P2 & -> & H); [constructor; [by right | done]|].
  destruct H as [(y' & T' & [= <- <-] & Hf & _)|(-> & HP2 & _)]; [by destruct y as [a|]; cbn in Hf, Hy; [congruence|]|]. cbn [mbind res_bind option_list app].
  destruct (IH B1 R1 (T ++ [Some x]) P2 HP2) as (P3 & -> & Hs); try done; [by apply Forall_app; split; [|constructor] | lia|].
  cbn [mbind res_bind]. exists P3. split; [done|]. rewrite Hs. unfold size. rewrite (proj1 HP2), (proj1 HP). cbn [app length]. rewrite !length_app. cbn. rewrite length_app. cbn. lia.
Qed.

Lemma emplace_all_app xs ys P olds P1 : emplace_all xs P = Ok (olds, P1) ->
  emplace_all (xs ++ ys) P = ('(o, P) ← emplace_all ys P1; Ok (olds ++ o, P)).
Proof.
  revert P olds. induction xs as [|z xs IH]; intros P olds E; cbn [emplace_all app] in *; [by simplify_eq; cbn; destruct (emplace_all ys P1) as [[]| |]|].
  destruct (emplace z P) as [[old P2]| |]; try done. cbn [mbind res_bind] in *. destruct (emplace_all xs P2) as [[o P3]| |] eqn:E2; try done.
  cbn [mbind res_bind] in E. simplify_eq. rewrite (IH _ _ E2). cbn [mbind res_bind]. destruct (emplace_all ys P1) as [[]| |]; cbn; by rewrite ?app_assoc.
Qed.

(** C35: the collection of free slots.  From a window at the beginning, a number of steps that is at
    most one more than the slots below the index sorts these slots: first those whose connection is
    used, then the free ones, from which on the index lets the pool take slots; the slots behind stay
    where they are, and no connection is lost. *)
Theorem pool_collects (R T : list (option A)) (P : Pool) :
  _container P = R ++ T -> weak P = mkWeak (Z.of_nat (length R)) 0 (- 1) -> tested R -> R <> [] ->
  exists k used unused P', (0 < k <= S (length R))%nat /\ updateReusableIndex k P = Ok P' /\
    _container P' = used ++ unused ++ T /\ weak P' = mkWeak (Z.of_nat (length used)) 0 (- 1) /\
    Forall busy used /\ Forall is_free unused /\ used ++ unused ≡ₚ R.
Proof.
  intros Ec Ew Ht Hne. destruct (collect_round (length R) [] [] R T P eq_refl (conj Ec Ew) Ht) as (k & B & W & P' & Hk & E & [Ec' Ew'] & HB & HW & Hp); try done.
  by exists k, B, W, P'.
Qed.

(** After seventeen connections that stay open, the pool does not use a slot again: whatever
    connections follow, also when all of them are closed, each makes the vector longer. *)
Theorem pool_leaks (stay come : list A) : length stay = 17%nat -> Forall (fun a => reusable a = Ok false) stay ->
  Forall (fun a => exists b, reusable a = Ok b) come ->
  exists P, emplace_all (stay ++ come) Pool_new = Ok ([], P) /\ size P = 17 + Z.of_nat (length come).
Proof.
  intros Hl Hs Hc.
  assert (exists first x, stay = first ++ [x] /\ length first = 16%nat) as (first & x & -> & Hf).
  { destruct (exists_last (l := stay)) as (first & x & ->); [by destruct stay|]. exists first, x. split; [done|]. rewrite length_app in Hl. cbn in Hl. lia. }
  apply Forall_app in Hs as [Hs Hx]. apply Forall_cons in Hx as [Hx _].
  rewrite <- app_assoc. destruct (emplace_prefetch first 0 [] Pool_new) as (P1 & E1 & HP1); [by rewrite Hf | cbn; lia|].
  rewrite (emplace_all_app _ _ _ _ _ E1). cbn [app] in *.
  destruct (emplace_at x [] [] (Some <$> first) [] P1 HP1) as (old & P2 & E2 & H); [constructor|].
  destruct H as [(? & ? & [=] & _)|(-> & HP2 & _)].
  assert (emplace x P1 = Ok (None, P2)) as E3.
  { unfold emplace. assert ((GC_THRESHOLD <? size P1) = false) as ->; [|exact E2].
    apply Z.ltb_ge. unfold size, GC_THRESHOLD. rewrite (proj1 HP1). cbn [app]. rewrite app_nil_r, length_fmap. lia. }
  destruct (emplace_grows come [] (Some <$> first) (Some x) [] P2 HP2) as (P3 & E4 & Hs3); try done.
  - constructor.
  - eapply Forall_impl; [exact Hc|]. intros a [[] Ha]; [by left | by right].
  - by apply Forall_fmap.
  - cbn. rewrite length_fmap. lia.
  - by destruct first.
  - exists P3. cbn [emplace_all]. rewrite E3. cbn [mbind res_bind]. rewrite E4. cbn [mbind res_bind option_list app]. split; [done|].
    rewrite Hs3. unfold size. rewrite (proj1 HP2). cbn [app]. rewrite length_app, length_fmap. cbn. lia.
Qed.
End pool.

(** A pool of numbers, where the odd ones are still used. *)
Definition parity (a : Z) : res bool := Ok (Z.even a).

Lemma pool_collects_witness : exists k used unused P', (k <= 5)%nat /\
  updateReusableIndex parity k (mkPool [Some 1; Some 2; None; Some 3; Some 5] (mkWeak 4 0 (- 1))) = Ok P' /\
  _container P' = used ++ unused ++ [Some 5] /\ weak P' = mkWeak (Z.of_nat (length used)) 0 (- 1) /\ used ++ unused ≡ₚ [Some 1; Some 2; None; Some 3].
Proof.
  destruct (pool_collects parity [Some 1; Some 2; None; Some 3] [Some 5] (mkPool [Some 1; Some 2; None; Some 3; Some 5] (mkWeak 4 0 (- 1))))
    as (k & used & unused & P' & Hk & E & Ec & Ew & _ & _ & Hp); [done | done | | done |].
  { repeat constructor; ((by left) || (by right)). }
  exists k, used, unused, P'. split_and!; [apply Hk | exact E | exact Ec | exact Ew | exact Hp].
Defined.
