(* ===== verification/FluentServer.v ===== *)
(** * Connections and the server

    src/net/fluent/include: the policies and the Context of a connection (policy/, network/Context.h),
    Multiplexer, Handler and HandlerBase, the accepting side of network/Acceptor.h and app/Server.h,
    with the buffers of [FluentBuffer], the pool of [FluentPool] and the futures of [FluentFuture].

    A Context is an object of a heap, a pointer to one is its number; the numbers of destroyed objects
    are not used again, and every access to one of them is undefined.  What the kernel answers is
    consumed from lists of the state; at their end it has nothing to report and no room.  The
    functions of a user are programs over the public members of Context.  Logging is left out. *)

From S2P Require Import Prelude Bytes FluentAlgo FluentBuffer FluentPool.
From stdpp Require Import list.
From S2P Require Import FluentFuture.
#[local] Open Scope Z_scope.

(** ** Constants of the system *)

(** The codes of <signal.h>, which MultiplexerPolicy.h uses, and the flags of <poll.h>, which are
    those of <sys/epoll.h>. *)
Definition POLL_IN : Z := 1.
Definition POLL_OUT : Z := 2.
Definition POLL_PRI : Z := 5.
Definition POLLIN : Z := 1.
Definition POLLPRI : Z := 2.
Definition POLLOUT : Z := 4.
Definition POLLERR : Z := 8.
Definition POLLHUP : Z := 16.
Definition POLLNVAL : Z := 32.
Definition POLLRDHUP : Z := 8192.
Definition EPOLL_CTL_ADD : Z := 1.
Definition EPOLL_CTL_DEL : Z := 2.
Definition EPOLL_CTL_MOD : Z := 3.

(** A test of flags. *)
Definition has (events flags : Z) : bool := negb (Z.land events flags =? 0).

(** ** Policies *)

Module NetworkState.
Inductive t : Set := CONNECTING | CONNECTED | DISCONNECTING | DISCONNECTED.
End NetworkState.
Import NetworkState (CONNECTING, CONNECTED, DISCONNECTING, DISCONNECTED).

#[export] Instance NetworkState_eq_dec : EqDecision NetworkState.t.
Proof. solve_decision. Defined.

Module EventState.
Inductive t : Set := NEW | ADDED | DELETED.
End EventState.

Definition EVENT_NONE : Z := 0.
Definition EVENT_READ : Z := Z.lor POLL_IN POLL_PRI.
Definition EVENT_WRITE : Z := POLL_OUT.
Definition EPOLL_CTL_NONE : Z := 0.

Record MultiplexerPolicy : Type := mkMux { _events : Z; _eState : EventState.t }.

Definition updateEventState (m : MultiplexerPolicy) : Z * MultiplexerPolicy :=
  match _eState m with
  | EventState.NEW | EventState.DELETED => (EPOLL_CTL_ADD, mkMux (_events m) EventState.ADDED)
  | EventState.ADDED =>
      if _events m =? EVENT_NONE then (EPOLL_CTL_DEL, mkMux (_events m) EventState.DELETED) else (EPOLL_CTL_MOD, m)
  end.

Definition readEventEnabled (m : MultiplexerPolicy) : bool := has (_events m) EVENT_READ.
Definition writeEventEnabled (m : MultiplexerPolicy) : bool := has (_events m) EVENT_WRITE.

Definition enableRead (m : MultiplexerPolicy) : bool * MultiplexerPolicy :=
  if negb (has (_events m) EVENT_READ) then (true, mkMux (Z.lor (_events m) EVENT_READ) (_eState m)) else (false, m).
Definition enableWrite (m : MultiplexerPolicy) : bool * MultiplexerPolicy :=
  if negb (has (_events m) EVENT_WRITE) then (true, mkMux (Z.lor (_events m) EVENT_WRITE) (_eState m)) else (false, m).
Definition disableRead (m : MultiplexerPolicy) : bool * MultiplexerPolicy :=
  if has (_events m) EVENT_READ then (true, mkMux (Z.ldiff (_events m) EVENT_READ) (_eState m)) else (false, m).
Definition disableWrite (m : MultiplexerPolicy) : bool * MultiplexerPolicy :=
  if has (_events m) EVENT_WRITE then (true, mkMux (Z.ldiff (_events m) EVENT_WRITE) (_eState m)) else (false, m).

(** The texts of the log; NUL does not occur. *)
Definition eventStateInfo (m : MultiplexerPolicy) : Z :=
  match _eState m with EventState.NEW => 78 | EventState.ADDED => 65 | EventState.DELETED => 68 end.
Definition eventsInfo (m : MultiplexerPolicy) : Z :=
  if _events m =? EVENT_NONE then 78 else if _events m =? EVENT_READ then 82
  else if _events m =? EVENT_WRITE then 87 else if _events m =? Z.lor EVENT_READ EVENT_WRITE then 77 else 63.

(** SendPolicy, with the constants of its class Completion. *)
Definition INVALID : Z := 0.
Definition FAST_COMPLETE : Z := 1.

Record SendPolicy : Type := mkSend { _sendProvider : list Z; _sendCurrentIndex : Z; _sendCompletedIndex : Z }.

Definition SendPolicy_new : SendPolicy := mkSend [] (FAST_COMPLETE + 1) (FAST_COMPLETE + 1).

(** [Completion::poll]. *)
Definition completion_poll (m : SendPolicy) (token : Z) : bool := token <? _sendCompletedIndex m.

(** ** Context *)

(** The socket, as the kernel and the peer see it: the bytes that were written, how often its
    sending side was shut down, and the events epoll watches it for; and records of what happened to
    the connection, which no code reads: the bytes of the sends that were accepted, those that left
    the buffer by handleWrite, for every token the number of such bytes that complete it, the bytes
    that were read and those that the user took, the calls of the close callback, whether a send
    wrote while bytes of an earlier one waited, and whether epoll_ctl has failed. *)
Record Sock : Type := mkSock {
  wire : list Z; fins : nat; interest : option Z;
  accepted : list Z; flushed : Z; marks : list Z; received : list Z; consumed : list Z;
  closes : nat; overtaken : bool; ctl_failed : bool }.

Definition Sock_new : Sock := mkSock [] 0 None [] 0 [] [] [] 0 false false.

(** The Context with the first member of its Bundle; [bound] says that _multiplexer and _bundle have a
    value, [exception] that there is one. *)
Record Context : Type := mkContext {
  first : Z; socket : Z; _nState : NetworkState.t; mux : MultiplexerPolicy; bound : bool; sends : SendPolicy;
  _lifecycle : option Z; input : Buffer; output : Buffer; exception : bool; sock : Sock }.

Definition Context_new (token fd : Z) : Context :=
  mkContext token fd CONNECTING (mkMux EVENT_NONE EventState.NEW) false SendPolicy_new None (Buffer_new 128) (Buffer_new 128) false Sock_new.

Definition with_nState x c := mkContext (first c) (socket c) x (mux c) (bound c) (sends c) (_lifecycle c) (input c) (output c) (exception c) (sock c).
Definition with_mux x c := mkContext (first c) (socket c) (_nState c) x (bound c) (sends c) (_lifecycle c) (input c) (output c) (exception c) (sock c).
Definition with_bound x c := mkContext (first c) (socket c) (_nState c) (mux c) x (sends c) (_lifecycle c) (input c) (output c) (exception c) (sock c).
Definition with_sends x c := mkContext (first c) (socket c) (_nState c) (mux c) (bound c) x (_lifecycle c) (input c) (output c) (exception c) (sock c).
Definition with_lifecycle x c := mkContext (first c) (socket c) (_nState c) (mux c) (bound c) (sends c) x (input c) (output c) (exception c) (sock c).
Definition with_input x c := mkContext (first c) (socket c) (_nState c) (mux c) (bound c) (sends c) (_lifecycle c) x (output c) (exception c) (sock c).
Definition with_output x c := mkContext (first c) (socket c) (_nState c) (mux c) (bound c) (sends c) (_lifecycle c) (input c) x (exception c) (sock c).
Definition with_exception x c := mkContext (first c) (socket c) (_nState c) (mux c) (bound c) (sends c) (_lifecycle c) (input c) (output c) x (sock c).
Definition with_sock g c := mkContext (first c) (socket c) (_nState c) (mux c) (bound c) (sends c) (_lifecycle c) (input c) (output c) (exception c) (g (sock c)).

Definition add_wire bs k := mkSock (wire k ++ bs) (fins k) (interest k) (accepted k) (flushed k) (marks k) (received k) (consumed k) (closes k) (overtaken k) (ctl_failed k).
Definition add_fin k := mkSock (wire k) (S (fins k)) (interest k) (accepted k) (flushed k) (marks k) (received k) (consumed k) (closes k) (overtaken k) (ctl_failed k).
Definition set_interest i k := mkSock (wire k) (fins k) i (accepted k) (flushed k) (marks k) (received k) (consumed k) (closes k) (overtaken k) (ctl_failed k).
Definition set_failed k := mkSock (wire k) (fins k) (interest k) (accepted k) (flushed k) (marks k) (received k) (consumed k) (closes k) (overtaken k) true.
Definition add_accepted bs o k := mkSock (wire k) (fins k) (interest k) (accepted k ++ bs) (flushed k) (marks k) (received k) (consumed k) (closes k) (overtaken k || o) (ctl_failed k).
Definition add_mark n k := mkSock (wire k) (fins k) (interest k) (accepted k) (flushed k) (marks k ++ [n]) (received k) (consumed k) (closes k) (overtaken k) (ctl_failed k).
Definition add_flushed n k := mkSock (wire k) (fins k) (interest k) (accepted k) (flushed k + n) (marks k) (received k) (consumed k) (closes k) (overtaken k) (ctl_failed k).
Definition add_received bs k := mkSock (wire k) (fins k) (interest k) (accepted k) (flushed k) (marks k) (received k ++ bs) (consumed k) (closes k) (overtaken k) (ctl_failed k).
Definition add_consumed bs k := mkSock (wire k) (fins k) (interest k) (accepted k) (flushed k) (marks k) (received k) (consumed k ++ bs) (closes k) (overtaken k) (ctl_failed k).
Definition add_close k := mkSock (wire k) (fins k) (interest k) (accepted k) (flushed k) (marks k) (received k) (consumed k) (S (closes k)) (overtaken k) (ctl_failed k).

(** ** The state *)

Inductive write_answer : Type := Room (n : nat) | WriteError (errno : Z).
Inductive read_answer : Type := Arrives (bs : list Z) | ReadError (errno : Z).
Inductive wait_answer : Type := Ready (l : list (nat * Z)) | WaitError (errno : Z).

(** The function that the library gives to the futures itself: the lambda of Context::shutdown. *)
Inductive fn : Set := ShutdownPoll.

Section server.
(** The state of the user's program. *)
Context {W : Type}.

(** The heap of contexts, the pool, the members of Multiplexer and the buffer of Handler; the answers
    of the kernel to come; [overflow] records that a buffer had to hold more than 1 GiB, where its
    code is undefined, and [dangling] that a future has used a destroyed context. *)
Record Net : Type := mkNet {
  heap : list (option Context); pool : Pool (A := nat);
  _evnetVectors : list (list (nat * Z)); _token : Z; _eventBuffer : list (nat * Z);
  writes : list write_answer; reads : list read_answer; ctls : list bool; accepts : list (option Z); waits : list wait_answer;
  overflow : bool; dangling : bool; app : W }.

Definition set_heap x n := mkNet x (pool n) (_evnetVectors n) (_token n) (_eventBuffer n) (writes n) (reads n) (ctls n) (accepts n) (waits n) (overflow n) (dangling n) (app n).
Definition set_pool x n := mkNet (heap n) x (_evnetVectors n) (_token n) (_eventBuffer n) (writes n) (reads n) (ctls n) (accepts n) (waits n) (overflow n) (dangling n) (app n).
Definition set_vectors x n := mkNet (heap n) (pool n) x (_token n) (_eventBuffer n) (writes n) (reads n) (ctls n) (accepts n) (waits n) (overflow n) (dangling n) (app n).
Definition set_token x n := mkNet (heap n) (pool n) (_evnetVectors n) x (_eventBuffer n) (writes n) (reads n) (ctls n) (accepts n) (waits n) (overflow n) (dangling n) (app n).
Definition set_eventBuffer x n := mkNet (heap n) (pool n) (_evnetVectors n) (_token n) x (writes n) (reads n) (ctls n) (accepts n) (waits n) (overflow n) (dangling n) (app n).
Definition set_writes x n := mkNet (heap n) (pool n) (_evnetVectors n) (_token n) (_eventBuffer n) x (reads n) (ctls n) (accepts n) (waits n) (overflow n) (dangling n) (app n).
Definition set_reads x n := mkNet (heap n) (pool n) (_evnetVectors n) (_token n) (_eventBuffer n) (writes n) x (ctls n) (accepts n) (waits n) (overflow n) (dangling n) (app n).
Definition set_ctls x n := mkNet (heap n) (pool n) (_evnetVectors n) (_token n) (_eventBuffer n) (writes n) (reads n) x (accepts n) (waits n) (overflow n) (dangling n) (app n).
Definition set_accepts x n := mkNet (heap n) (pool n) (_evnetVectors n) (_token n) (_eventBuffer n) (writes n) (reads n) (ctls n) x (waits n) (overflow n) (dangling n) (app n).
Definition set_waits x n := mkNet (heap n) (pool n) (_evnetVectors n) (_token n) (_eventBuffer n) (writes n) (reads n) (ctls n) (accepts n) x (overflow n) (dangling n) (app n).
Definition set_overflow n := mkNet (heap n) (pool n) (_evnetVectors n) (_token n) (_eventBuffer n) (writes n) (reads n) (ctls n) (accepts n) (waits n) true (dangling n) (app n).
Definition set_dangling n := mkNet (heap n) (pool n) (_evnetVectors n) (_token n) (_eventBuffer n) (writes n) (reads n) (ctls n) (accepts n) (waits n) (overflow n) true (app n).
Definition set_app x n := mkNet (heap n) (pool n) (_evnetVectors n) (_token n) (_eventBuffer n) (writes n) (reads n) (ctls n) (accepts n) (waits n) (overflow n) (dangling n) x.

Abbreviation System := (Sys (F := fn) (U := Net)).
Abbreviation N := (M (F := fn) (U := Net)).

Definition set_user (n : Net) (s : System) : System := mkSys (blocks s) (_mq s) (_lastEvent s) n (completed s).

Definition net : N Net := fun s => Done (user s) s.
Definition modify (g : Net -> Net) : N unit := fun s => Done tt (set_user (g (user s)) s).
Definition undefined {A} : N A := fun _ => Undefined.

(** What [at_index] and the pool return. *)
Definition lift {A} (r : res A) : N A := match r with Ok a => mret a | _ => undefined end.

Definition find_ctx (n : Net) (p : nat) : option Context := match heap n !! p with Some (Some c) => Some c | _ => None end.
Definition put_ctx (p : nat) (c : Context) (n : Net) : Net := set_heap (<[p := Some c]> (heap n)) n.

(** A member access through a pointer. *)
Definition get_ctx (p : nat) : N Context := n ← net; match find_ctx n p with Some c => mret c | None => undefined end.
Definition modify_ctx (p : nat) (g : Context -> Context) : N unit := c ← get_ctx p; modify (put_ctx p (g c)).

(** ** The kernel *)

Definition next_write : N write_answer :=
  n ← net; match writes n with [] => mret (Room 0) | a :: l => modify (set_writes l) ≫= fun _ => mret a end.
Definition next_read : N read_answer :=
  n ← net; match reads n with [] => mret (ReadError EAGAIN) | a :: l => modify (set_reads l) ≫= fun _ => mret a end.
Definition next_ctl : N bool :=
  n ← net; match ctls n with [] => mret true | a :: l => modify (set_ctls l) ≫= fun _ => mret a end.
Definition next_accept : N (option Z) :=
  n ← net; match accepts n with [] => mret None | a :: l => modify (set_accepts l) ≫= fun _ => mret a end.
Definition next_wait : N wait_answer :=
  n ← net; match waits n with [] => mret (Ready []) | a :: l => modify (set_waits l) ≫= fun _ => mret a end.

(** [write] to a socket that does not block: as much as there is room for. *)
Definition sys_write (p : nat) (bs : list Z) : N write_result :=
  a ← next_write;
  match a with
  | WriteError errno => mret (WriteFailed errno)
  | Room k =>
      let n := Nat.min k (length bs) in
      if (n =? 0)%nat && negb (length bs =? 0)%nat then mret (WriteFailed EAGAIN)
      else modify_ctx p (with_sock (add_wire (take n bs))) ≫= fun _ => mret (Wrote (Z.of_nat n))
  end.

(** [readv] into the rest of a buffer and [localBuffer]: what it stores, with [errno]. *)
Definition sys_readv (p : nat) (b : Buffer) : N (readv_result * Z) :=
  a ← next_read;
  match a with
  | ReadError errno => mret (ReadvFailed, errno)
  | Arrives bs => mret (ReadvBytes (take (Z.to_nat (unwrite b + LOCAL_SIZE)) bs), 0)
  end.

(** [::shutdown(fd, SHUT_WR)]. *)
Definition sys_shutdown (p : nat) : N unit := modify_ctx p (with_sock add_fin).

(** [epoll_ctl]: does it succeed?  A descriptor is added once, and changed and deleted when it was
    added. *)
Definition sys_epoll_ctl (operation : Z) (p : nat) (events : Z) : N bool :=
  c ← get_ctx p;
  ok ← next_ctl;
  let fails := modify_ctx p (with_sock set_failed) ≫= fun _ => mret false in
  let succeeds i := modify_ctx p (with_sock (set_interest i)) ≫= fun _ => mret true in
  match (ok : bool), interest (sock c) with
  | false, _ => fails
  | true, None => if operation =? EPOLL_CTL_ADD then succeeds (Some events) else fails
  | true, Some _ =>
      if operation =? EPOLL_CTL_MOD then succeeds (Some events)
      else if operation =? EPOLL_CTL_DEL then succeeds None else fails
  end.

(** What [epoll_wait] reports of what is ready: events that are watched, errors and hang-ups, for
    descriptors that are registered. *)
Definition reported (n : Net) (x : nat * Z) : option (nat * Z) :=
  c ← find_ctx n x.1;
  i ← interest (sock c);
  let revents := Z.land x.2 (Z.lor i (Z.lor POLLERR POLLHUP)) in
  if revents =? 0 then None else Some (x.1, revents).

(** ** Multiplexer.h *)

Definition EVENTS_SIZE : nat := 16.

Definition visit (token : Z) : N (list (nat * Z)) := n ← net; lift ((_evnetVectors n).[token]).

Definition set_visit (token : Z) (l : list (nat * Z)) : N unit :=
  n ← net; v ← lift ((_evnetVectors n).[token <- l]); modify (set_vectors v).

Fixpoint dispatchActiveContext (events : list (nat * Z)) : N unit :=
  match events with
  | [] => mret tt
  | event :: events =>
      c ← get_ctx event.1;
      l ← visit (first c);
      set_visit (first c) (l ++ [event]) ≫= fun _ => dispatchActiveContext events
  end.

(** [poll]; [reserve] does not change the size of [_events], so that it stays what it is. *)
Definition multiplexer_poll : N unit :=
  a ← next_wait;
  match a with
  | WaitError errno => if errno =? EINTR then mret tt else throw
  | Ready l => n ← net; dispatchActiveContext (take EVENTS_SIZE (omap (reported n) l))
  end.

Definition multiplexer_update (operation : Z) (p : nat) : N unit :=
  c ← get_ctx p;
  ok ← sys_epoll_ctl operation p (_events (mux c));
  if (ok : bool) then mret tt else throw.

Definition token : N Z :=
  n ← net; modify (fun n => set_token (_token n + 1) (set_vectors (_evnetVectors n ++ [[]]) n)) ≫= fun _ => mret (_token n).

(** ** Context.h *)

(** [updateEventState], for the context. *)
Definition next_operation (p : nat) : N Z :=
  c ← get_ctx p;
  let '(operation, m) := updateEventState (mux c) in
  modify_ctx p (with_mux m) ≫= fun _ => mret operation.

(** A pointer that has no value yet must not be used. *)
Definition updateMultiplexer (p : nat) (hint : Z) : N unit :=
  c ← get_ctx p; if bound c then multiplexer_update hint p else undefined.

Definition socket_write (p : nat) (bs : list Z) : N Z :=
  r ← sys_write p bs;
  match r with
  | Wrote n => mret n
  | WriteFailed errno => if (errno =? EAGAIN) || (errno =? EINTR) then mret 0 else throw
  end.

(** A buffer can hold [2 ^ 30] bytes, or what it has room for; the code is undefined beyond. *)
Definition fits (b : Buffer) (n : Z) : N unit :=
  if unread b + n <=? Z.max (2 ^ 30) (_capacity b) then mret tt else modify set_overflow ≫= fun _ => throw.

(** [send]: the token of the Completion. *)
Definition send (p : nat) (buf : list Z) : N Z :=
  c ← get_ctx p;
  if bool_decide (_nState c <> DISCONNECTING /\ _nState c <> DISCONNECTED) then
    ret ← socket_write p buf;
    let n := Z.of_nat (length buf) in
    if ret =? n then
      modify_ctx p (fun c => with_sock (add_accepted buf ((0 <? ret) && (0 <? unread (output c)))) c) ≫= fun _ =>
      mret FAST_COMPLETE
    else
      let rest := drop (Z.to_nat ret) buf in
      c ← get_ctx p;
      fits (output c) (n - ret) ≫= fun _ =>
      b ← lift (append rest (output c));
      modify_ctx p (fun c => with_sock (fun k => add_mark (flushed k + unread b) (add_accepted buf ((0 <? ret) && (0 <? unread (output c))) k))
        (with_output b c)) ≫= fun _ =>
      let sendToken := _sendCurrentIndex (sends c) in
      modify_ctx p (with_sends (mkSend (_sendProvider (sends c) ++ [n - ret]) (sendToken + 1) (_sendCompletedIndex (sends c)))) ≫= fun _ =>
      (if negb (has (_events (mux c)) EVENT_WRITE) then
         modify_ctx p (with_mux (mkMux (Z.lor (_events (mux c)) EVENT_WRITE) (_eState (mux c)))) ≫= fun _ =>
         hint ← next_operation p;
         updateMultiplexer p hint
       else mret tt) ≫= fun _ =>
      mret sendToken
  else mret INVALID.

(** The lambda that [shutdown] gives to [poll]. *)
Definition shutdown_poll (p : nat) (n : Net) : bool * Net :=
  match find_ctx n p with
  | Some c =>
      let stateValid := bool_decide (_nState c = CONNECTED) in
      if stateValid && negb (has (_events (mux c)) EVENT_WRITE) then (true, put_ctx p (with_sock add_fin c) n)
      else if negb stateValid then (true, n)
      else (false, n)
  | None => (true, set_dangling n)
  end.

Definition shutdown (p : nat) : N unit :=
  c ← get_ctx p;
  if bool_decide (_nState c = CONNECTED) then
    modify_ctx p (with_nState DISCONNECTING) ≫= fun _ =>
    if negb (has (_events (mux c)) EVENT_WRITE) then sys_shutdown p
    else future ← makeFuture (Int (Z.of_nat p)); _ ← poll future (User ShutdownPoll); mret tt
  else mret tt.

(** ** Programs of a user *)

(** What the callbacks do with contexts: send, shut down, take bytes from the input, look at the
    state or at a Completion, take part in the life of a context; use the state of their program;
    throw. *)
Inductive act : Type :=
  | AEnd
  | AThrow
  | ASend (p : nat) (bs : list Z) (k : Z -> act)
  | AShutdown (p : nat) (k : act)
  | ATake (p : nat) (n : nat) (k : list Z -> act)
  | AState (p : nat) (k : NetworkState.t -> act)
  | ACompleted (p : nat) (t : Z) (k : bool -> act)
  | AEnsureLifecycle (p : nat) (k : act)
  | AHold (p : nat) (k : act)
  | ARelease (p : nat) (k : act)
  | AApp (g : W -> W) (k : W -> act).

(** At most [n] bytes of readBuffer, and [hasRead] for them. *)
Definition take_input (p n : nat) : N (list Z) :=
  c ← get_ctx p;
  bs ← lift (readable (input c));
  let bs := take n bs in
  b ← lift (hasRead (Z.of_nat (length bs)) (input c));
  modify_ctx p (fun c => with_sock (add_consumed bs) (with_input b c)) ≫= fun _ => mret bs.

Fixpoint exec_act (a : act) : N unit :=
  match a with
  | AEnd => mret tt
  | AThrow => throw
  | ASend p bs k => t ← send p bs; exec_act (k t)
  | AShutdown p k => shutdown p ≫= fun _ => exec_act k
  | ATake p n k => bs ← take_input p n; exec_act (k bs)
  | AState p k => c ← get_ctx p; exec_act (k (_nState c))
  | ACompleted p t k => c ← get_ctx p; exec_act (k (completion_poll (sends c) t))
  | AEnsureLifecycle p k =>
      modify_ctx p (fun c => match _lifecycle c with None => with_lifecycle (Some 1) c | Some _ => c end) ≫= fun _ => exec_act k
  | AHold p k => modify_ctx p (fun c => with_lifecycle (option_map (Z.add 1) (_lifecycle c)) c) ≫= fun _ => exec_act k
  | ARelease p k => modify_ctx p (fun c => with_lifecycle (option_map (fun n => n - 1) (_lifecycle c)) c) ≫= fun _ => exec_act k
  | AApp g k => n ← net; modify (fun n => set_app (g (app n)) n) ≫= fun _ => exec_act (k (app n))
  end.

(** ** Handler.h and HandlerBase.h *)

(** The callbacks, where the flag says that there is one. *)
Context (connectCallback messageCallback closeCallback : option (nat -> act)).

Definition callback_of (f : option (nat -> act)) (p : nat) : N unit := match f with Some f => exec_act (f p) | None => mret tt end.

(** [try ... catch(const std::exception &e)]. *)
Definition try_catch (p : nat) (m : N unit) : N unit := fun s =>
  match m s with Throw s' => modify_ctx p (with_exception true) s' | r => r end.

(** [context->updateEventState()] and the update of the multiplexer. *)
Definition update_epoll (p : nat) : N unit :=
  operation ← next_operation p;
  if negb (operation =? EPOLL_CTL_NONE) then multiplexer_update operation p else mret tt.

(** [handleNewContext]: the part before the callback, and the whole. *)
Definition connect (p : nat) : N unit :=
  modify_ctx p (fun c => with_mux (enableRead (mux c)).2 (with_nState CONNECTED (with_bound true c))) ≫= fun _ =>
  update_epoll p.

Definition handleNewContext (p : nat) : N unit :=
  try_catch p (connect p ≫= fun _ => callback_of connectCallback p).

(** [handleClose]: the part between the shutdown and the callback, and the whole. *)
Definition disconnect (p : nat) : N unit :=
  modify_ctx p (fun c => with_mux (disableRead (mux c)).2 c) ≫= fun _ =>
  modify_ctx p (fun c => with_mux (disableWrite (mux c)).2 c) ≫= fun _ =>
  update_epoll p ≫= fun _ =>
  modify_ctx p (fun c => with_sock add_close (with_nState DISCONNECTED c)).

Definition handleClose (p : nat) : N unit :=
  c ← get_ctx p;
  if bool_decide (_nState c = CONNECTED \/ _nState c = DISCONNECTING) then
    shutdown p ≫= fun _ => disconnect p ≫= fun _ => callback_of closeCallback p
  else mret tt.

Definition handleError (p : nat) : N unit := throw.

(** [context->input.readFrom(context->socket.fd())], with [errno]. *)
Definition receive (p : nat) : N (Z * Z) :=
  c ← get_ctx p;
  '(r, errno) ← sys_readv p (input c);
  fits (input c) (match r with ReadvBytes bs => Z.of_nat (length bs) | ReadvFailed => 0 end) ≫= fun _ =>
  '(n, b) ← lift (readFrom r (input c));
  modify_ctx p (fun c => with_sock (add_received (match r with ReadvBytes bs => bs | ReadvFailed => [] end)) (with_input b c)) ≫= fun _ =>
  mret (n, errno).

Definition handleRead (p : nat) : N unit :=
  '(n, errno) ← receive p;
  if 0 <? n then callback_of messageCallback p
  else if n =? 0 then handleClose p
  else if negb (errno =? EAGAIN) && negb (errno =? EINTR) then handleError p
  else mret tt.

(** The loop of handleWriteComplete: the provider after it, and how many sends are complete. *)
Fixpoint write_complete (provider : list Z) (n : Z) : list Z * Z :=
  match provider with
  | front :: rest =>
      if 0 <? n then
        if n <? front then (front - n :: rest, 0)
        else let '(provider, k) := write_complete rest (n - front) in (provider, k + 1)
      else (provider, 0)
  | [] => ([], 0)
  end.

Definition handleWriteComplete (p : nat) (n : Z) : N unit :=
  modify_ctx p (fun c =>
    let '(provider, k) := write_complete (_sendProvider (sends c)) n in
    with_sends (mkSend provider (_sendCurrentIndex (sends c)) (_sendCompletedIndex (sends c) + k)) c).

Definition handleWrite (p : nat) : N unit :=
  c ← get_ctx p;
  if writeEventEnabled (mux c) then
    bs ← lift (readable (output c));
    r ← sys_write p bs;
    w ← lift (writeTo r (output c));
    match w with
    | WriteException _ => throw
    | WroteTo n b =>
        modify_ctx p (fun c => with_sock (add_flushed n) (with_output b c)) ≫= fun _ =>
        handleWriteComplete p n ≫= fun _ =>
        if (0 <? n) && (unread b =? 0) then
          c ← get_ctx p;
          let '(changed, m) := disableWrite (mux c) in
          modify_ctx p (with_mux m) ≫= fun _ =>
          if (changed : bool) then update_epoll p else mret tt
        else mret tt
    end
  else mret tt.

(** [HandlerBase::handleEvent]. *)
Definition handleEvent (p : nat) (revent : Z) : N unit :=
  (if has revent POLLHUP && negb (has revent POLLIN) then handleClose p else mret tt) ≫= fun _ =>
  (if has revent (Z.lor POLLERR POLLNVAL) then handleError p else mret tt) ≫= fun _ =>
  (if has revent (Z.lor (Z.lor POLLIN POLLPRI) POLLRDHUP) then handleRead p else mret tt) ≫= fun _ =>
  (if has revent POLLOUT then handleWrite p else mret tt).

(** The exchange of the vectors, under the lock. *)
Definition swap_events (token : Z) : N unit :=
  n ← net;
  l ← visit token;
  set_visit token (_eventBuffer n) ≫= fun _ => modify (set_eventBuffer l).

Fixpoint handle_each (events : list (nat * Z)) : N unit :=
  match events with
  | [] => mret tt
  | event :: events => try_catch event.1 (handleEvent event.1 event.2) ≫= fun _ => handle_each events
  end.

Definition handleEvents (token : Z) : N unit :=
  swap_events token ≫= fun _ =>
  n ← net;
  handle_each (_eventBuffer n) ≫= fun _ => modify (set_eventBuffer []).

(** ** Pool.h, Acceptor.h and Server.h *)

(** [isReusable(index)] on the context of a slot. *)
Definition reusable_in (h : list (option Context)) (p : nat) : res bool :=
  match h !! p with
  | Some (Some c) =>
      Ok (bool_decide (_nState c = DISCONNECTED) && match _lifecycle c with None => true | Some use_count => use_count <=? 1 end)
  | _ => Ub PointerRange
  end.

(** The construction of a Context and its place in the pool; the one whose place it takes is
    destroyed, which closes its descriptor. *)
Definition pool_emplace (token fd : Z) : N nat :=
  n ← net;
  let p := length (heap n) in
  '(old, q) ← lift (emplace (reusable_in (heap n)) p (pool n));
  let h := heap n ++ [Some (Context_new token fd)] in
  modify (fun n => set_pool q (set_heap (match old with Some o => <[o := None]> h | None => h end) n)) ≫= fun _ => mret p.

Definition accept (token : Z) : N unit :=
  maybeFd ← next_accept;
  match maybeFd with
  | Some fd => p ← pool_emplace token fd; handleNewContext p
  | None => mret tt
  end.

(** What the futures of this library call. *)
Definition conn_body (f : fn) (v : val) : prog (F := fn) (U := Net) (val * val) :=
  match f, v with
  | ShutdownPoll, Int p => Op (CUser bool (shutdown_poll (Z.to_nat p))) (fun b => Ret (of_bool b, v))
  | _, _ => Ret (v, v)
  end.
Definition conn_condition (f : fn) (v : val) : prog (F := fn) (U := Net) bool := Ret true.
Definition conn_task (f : fn) : prog (F := fn) (U := Net) unit := Ret tt.
Definition conn_now (n : Net) : Z * Net := (0, n).

Definition looper_loop : N unit := run_loop conn_body conn_condition conn_task conn_now.

(** [batch]; the multiplexer of several servers is polled by its owner. *)
Definition batch (isOuterMultiplexer : bool) (token : Z) : N unit :=
  (if isOuterMultiplexer then mret tt else multiplexer_poll) ≫= fun _ =>
  accept token ≫= fun _ =>
  handleEvents token ≫= fun _ =>
  looper_loop.

(** A program with a server: what it calls. *)
Inductive command : Type := Batch | Poll.

Definition command_run (isOuterMultiplexer : bool) (token : Z) (k : command) : N unit :=
  match k with Batch => batch isOuterMultiplexer token | Poll => multiplexer_poll end.

Fixpoint server_run (isOuterMultiplexer : bool) (token : Z) (l : list command) : N unit :=
  match l with
  | [] => mret tt
  | k :: l => command_run isOuterMultiplexer token k ≫= fun _ => server_run isOuterMultiplexer token l
  end.

(** A state before the first server, and the construction of one with its token. *)
Definition Net_new (ws : list write_answer) (rs : list read_answer) (cs : list bool) (accs : list (option Z)) (es : list wait_answer) (w : W) : System :=
  mkSys [] [] None (mkNet [] Pool_new [] 0 [] ws rs cs accs es false false w) [].
End server.
