(* ===== verification/FluentServerProps.v ===== *)
(** * Connections and the server: what they do

    The invariant of a connection and of the server, that every operation keeps it, and the theorems
    on what a peer sees, on completions, on objects that are destroyed, and on where the library goes
    wrong. *)

From S2P Require Import Prelude Bytes FluentAlgo FluentBuffer FluentPool FluentFuture FluentFutureProofs.
From stdpp Require Import list list_relations.
From S2P Require Import FluentServer.
Import NetworkState (CONNECTING, CONNECTED, DISCONNECTING, DISCONNECTED).
#[local] Open Scope Z_scope.

Section proofs.
Context {W : Type}.
Abbreviation Net := (Net (W := W)).
Abbreviation System := (Sys (F := fn) (U := Net)).
Abbreviation N := (M (F := fn) (U := Net)).

(** ** Computations on one context

    [evolve p c o s s']: the context [p] has become [c], the kernel has answered, and [o] says that a
    buffer would have overflowed; everything else is as it was. *)

Record evolve (p : nat) (c : Context) (o : bool) (s s' : System) : Prop := {
  ev_heap : heap (user s') = <[p := Some c]> (heap (user s));
  ev_pool : pool (user s') = pool (user s);
  ev_vectors : _evnetVectors (user s') = _evnetVectors (user s);
  ev_buffer : _eventBuffer (user s') = _eventBuffer (user s);
  ev_dangling : dangling (user s') = dangling (user s);
  ev_overflow : overflow (user s') = overflow (user s) || o;
  ev_blocks : blocks s' = blocks s;
  ev_queue : _mq s' = _mq s;
}.

(** The computation [m] only works on the context [p], which is [c]. *)
Definition local {A} (p : nat) (m : N A) (c : Context) (Q : A -> Context -> Prop) (E : Context -> bool -> Prop) : Prop :=
  forall s, find_ctx (user s) p = Some c ->
  match m s with
  | Done a s' => exists c', evolve p c' false s s' /\ Q a c'
  | Throw s' => exists c' o, evolve p c' o s s' /\ E c' o
  | Undefined => False
  end.

Lemma find_ctx_heap (n : Net) p c : find_ctx n p = Some c <-> heap n !! p = Some (Some c).
Proof. unfold find_ctx. destruct (heap n !! p) as [[]|]; split; congruence. Qed.

Lemma evolve_refl p c (s : System) : find_ctx (user s) p = Some c -> evolve p c false s s.
Proof. rewrite find_ctx_heap. intros H. constructor; try done; [by rewrite list_insert_id | by rewrite orb_false_r]. Qed.

Lemma evolve_trans p c1 c2 o1 o2 s1 s2 s3 : evolve p c1 o1 s1 s2 -> evolve p c2 o2 s2 s3 -> evolve p c2 (o1 || o2) s1 s3.
Proof.
  intros [] []. constructor; try congruence.
  - rewrite ev_heap1, ev_heap0. by rewrite list_insert_insert_eq.
  - rewrite ev_overflow1, ev_overflow0. by rewrite orb_assoc.
Qed.

Lemma evolve_find p c o s s' : is_Some (find_ctx (user s) p) -> evolve p c o s s' -> find_ctx (user s') p = Some c.
Proof.
  intros [c0 H%find_ctx_heap] []. apply find_ctx_heap. rewrite ev_heap0. apply list_lookup_insert_eq. by eapply lookup_lt_Some.
Qed.

Lemma local_ret {A} p (a : A) c (Q : A -> Context -> Prop) E : Q a c -> local p (mret a) c Q E.
Proof. intros HQ s Hs. exists c. split; [by apply evolve_refl | done]. Qed.

Lemma local_throw {A} p c (Q : A -> Context -> Prop) (E : Context -> bool -> Prop) : E c false -> local p throw c Q E.
Proof. intros HE s Hs. exists c, false. split; [by apply evolve_refl | done]. Qed.

Lemma local_bind {A B} p (m : N A) (f : A -> N B) c (Q : A -> Context -> Prop) (Q' : B -> Context -> Prop) E :
  local p m c Q E -> (forall a c', Q a c' -> local p (f a) c' Q' E) -> local p (m ≫= f) c Q' E.
Proof.
  intros Hm Hf s Hs. specialize (Hm s Hs). unfold mbind, M_bind. destruct (m s) as [a s1|s1|]; [|done|done].
  destruct Hm as (c1 & He & HQ). specialize (Hf a c1 HQ s1 (evolve_find _ _ _ _ _ (ex_intro _ _ Hs) He)). destruct (f a s1) as [b s2|s2|]; [| |done].
  - destruct Hf as (c2 & He2 & HQ2). exists c2. split; [exact (evolve_trans _ _ _ _ _ _ _ _ He He2) | done].
  - destruct Hf as (c2 & o & He2 & HE2). exists c2, o. split; [exact (evolve_trans _ _ _ _ _ _ _ _ He He2) | done].
Qed.

Lemma local_mono {A} p (m : N A) c (Q Q' : A -> Context -> Prop) (E E' : Context -> bool -> Prop) :
  local p m c Q E -> (forall a c', Q a c' -> Q' a c') -> (forall c' o, E c' o -> E' c' o) -> local p m c Q' E'.
Proof.
  intros Hm HQ HE s Hs. specialize (Hm s Hs). destruct (m s) as [a s'|s'|]; [| |done].
  - destruct Hm as (c' & ? & ?). exists c'. eauto.
  - destruct Hm as (c' & o & ? & ?). exists c', o. eauto.
Qed.

Lemma local_get {A} p (f : Context -> N A) c Q E : local p (f c) c Q E -> local p (get_ctx p ≫= f) c Q E.
Proof.
  intros Hf. apply local_bind with (fun a c' => a = c /\ c' = c); [|by intros a c' [-> ->]].
  intros s Hs. unfold get_ctx, net, mbind, M_bind. rewrite Hs. exists c. split; [by apply evolve_refl | done].
Qed.

Lemma local_modify p g c E : local p (modify_ctx p g) c (fun _ c' => c' = g c) E.
Proof.
  intros s Hs. unfold modify_ctx, get_ctx, net, mbind, M_bind. rewrite Hs. cbn. exists (g c). split; [|done].
  constructor; try done. cbn. by rewrite orb_false_r.
Qed.

Lemma local_modify_bind {A} p g (f : unit -> N A) c Q E : local p (f tt) (g c) Q E -> local p (modify_ctx p g ≫= f) c Q E.
Proof. intros Hf. eapply local_bind; [apply local_modify|]. by intros [] c' ->. Qed.

Lemma local_lift {A B} p (r : res A) (f : A -> N B) a c Q E : r = Ok a -> local p (f a) c Q E -> local p (lift r ≫= f) c Q E.
Proof. intros -> Hf. eapply local_bind; [by apply (local_ret p a c (fun b c' => b = a /\ c' = c))|]. by intros b c' [-> ->]. Qed.

(** A computation that takes an answer of the kernel. *)
Lemma local_pop {A} p (m : N A) c E :
  (forall s, exists a g, m s = Done a (set_user (g (user s)) s) /\ (forall n, heap (g n) = heap n /\ pool (g n) = pool n /\
    _evnetVectors (g n) = _evnetVectors n /\ _eventBuffer (g n) = _eventBuffer n /\ dangling (g n) = dangling n /\ overflow (g n) = overflow n)) ->
  local p m c (fun _ c' => c' = c) E.
Proof.
  intros H s Hs. destruct (H s) as (a & g & -> & Hg). exists c. split; [|done]. destruct (Hg (user s)) as (E1 & E2 & E3 & E4 & E5 & E6).
  constructor; try done. cbn. rewrite E1. symmetry. apply list_insert_id. by apply find_ctx_heap. cbn. by rewrite orb_false_r.
Qed.


Lemma local_next_write p c E : local p next_write c (fun _ c' => c' = c) E.
Proof.
  apply local_pop. intros s. unfold next_write, net, modify, mbind, M_bind. destruct (writes (user s)) as [|a l].
  - exists (Room 0), id. split; [by destruct s | done].
  - by exists a, (set_writes l).
Qed.

Lemma local_next_read p c E : local p next_read c (fun _ c' => c' = c) E.
Proof.
  apply local_pop. intros s. unfold next_read, net, modify, mbind, M_bind. destruct (reads (user s)) as [|a l].
  - exists (ReadError EAGAIN), id. split; [by destruct s | done].
  - by exists a, (set_reads l).
Qed.

Lemma local_next_ctl p c E : local p next_ctl c (fun _ c' => c' = c) E.
Proof.
  apply local_pop. intros s. unfold next_ctl, net, modify, mbind, M_bind. destruct (ctls (user s)) as [|a l].
  - exists true, id. split; [by destruct s | done].
  - by exists a, (set_ctls l).
Qed.

(** ** The system calls *)

Lemma local_write p bs c E : local p (sys_write p bs) c (fun r c' => match r with
  | Wrote n => 0 <= n <= Z.of_nat (length bs) /\ (n = 0 -> bs = []) /\ c' = with_sock (add_wire (take (Z.to_nat n) bs)) c
  | WriteFailed _ => c' = c end) E.
Proof.
  eapply local_bind; [apply local_next_write|]. intros [k|errno] c' ->; [|by apply local_ret].
  cbv zeta. destruct ((Nat.min k (length bs) =? 0)%nat && negb (length bs =? 0)%nat) eqn:E0; [by apply local_ret|].
  apply local_modify_bind, local_ret. rewrite Nat2Z.id. split_and!; [lia | lia | | done].
  intros H. apply nil_length_inv. apply andb_false_iff in E0 as [E0%Nat.eqb_neq|E0%negb_false_iff%Nat.eqb_eq]; lia.
Qed.

Lemma local_ctl op p events c E : local p (sys_epoll_ctl op p events) c (fun ok c' =>
  if (ok : bool) then (op = EPOLL_CTL_ADD /\ interest (sock c) = None /\ c' = with_sock (set_interest (Some events)) c) \/
    (op = EPOLL_CTL_MOD /\ interest (sock c) <> None /\ c' = with_sock (set_interest (Some events)) c) \/
    (op = EPOLL_CTL_DEL /\ interest (sock c) <> None /\ c' = with_sock (set_interest None) c)
  else c' = with_sock set_failed c) E.
Proof.
  apply local_get. eapply local_bind; [apply local_next_ctl|]. intros ok c' ->. cbv zeta.
  destruct ok; [|by apply local_modify_bind, local_ret]. destruct (interest (sock c)) as [i|] eqn:Ei.
  - destruct (Z.eqb_spec op EPOLL_CTL_MOD) as [->|]; [apply local_modify_bind, local_ret; by right; left|].
    destruct (Z.eqb_spec op EPOLL_CTL_DEL) as [->|]; [apply local_modify_bind, local_ret; by right; right | by apply local_modify_bind, local_ret].
  - destruct (Z.eqb_spec op EPOLL_CTL_ADD) as [->|]; [apply local_modify_bind, local_ret; by left | by apply local_modify_bind, local_ret].
Qed.

Lemma local_update op p c : local p (multiplexer_update op p) c
  (fun _ c' => (op = EPOLL_CTL_ADD /\ interest (sock c) = None /\ c' = with_sock (set_interest (Some (_events (mux c)))) c) \/
    (op = EPOLL_CTL_MOD /\ interest (sock c) <> None /\ c' = with_sock (set_interest (Some (_events (mux c)))) c) \/
    (op = EPOLL_CTL_DEL /\ interest (sock c) <> None /\ c' = with_sock (set_interest None) c))
  (fun c' o => o = false /\ c' = with_sock set_failed c).
Proof.
  apply local_get. eapply local_bind; [apply local_ctl|]. intros [] c' H; [by apply local_ret | apply local_throw; by rewrite H].
Qed.

Lemma local_operation p c E : local p (next_operation p) c
  (fun op c' => op = (updateEventState (mux c)).1 /\ c' = with_mux (updateEventState (mux c)).2 c) E.
Proof. apply local_get. destruct (updateEventState (mux c)) as [op m]. by apply local_modify_bind, local_ret. Qed.

(** The context after an update of epoll that succeeds, and after one that fails. *)
Definition updated (c c' : Context) : Prop :=
  let '(op, m) := updateEventState (mux c) in
  exists i, c' = with_sock (set_interest i) (with_mux m c) /\ (op = EPOLL_CTL_ADD <-> interest (sock c) = None) /\
    i = if op =? EPOLL_CTL_DEL then None else Some (_events m).

Definition refused (c c' : Context) : Prop := c' = with_sock set_failed (with_mux (updateEventState (mux c)).2 c).

Lemma local_update_then op p c c1 : (op, c1) = ((updateEventState (mux c)).1, with_mux (updateEventState (mux c)).2 c) ->
  local p (multiplexer_update op p) c1 (fun _ c' => updated c c') (fun c' o => o = false /\ refused c c').
Proof.
  intros [= -> ->]. eapply local_mono; [apply local_update| |by intros ? ? [-> ->]].
  intros ? c' H. unfold updated. destruct (updateEventState (mux c)) as [op m]. cbn [fst snd] in H.
  destruct H as [(E1 & Hi & E2)|[(E1 & Hi & E2)|(E1 & Hi & E2)]]; rewrite E1, E2; eexists; (split_and!; [done| |done]); split; (done || congruence).
Qed.

Lemma local_epoll p c : local p (update_epoll p) c (fun _ c' => updated c c') (fun c' o => o = false /\ refused c c').
Proof.
  eapply local_bind; [apply local_operation|]. intros op c' [-> ->].
  assert (((updateEventState (mux c)).1 =? EPOLL_CTL_NONE) = false) as ->; [|cbn [negb]; by apply local_update_then].
  unfold updateEventState. destruct (_eState (mux c)); [done | by destruct (_events (mux c) =? EVENT_NONE) | done].
Qed.

Lemma local_fits p b n c (E : Context -> bool -> Prop) : E c true -> local p (fits b n) c (fun _ c' => c' = c /\ unread b + n <= Z.max (2 ^ 30) (_capacity b)) E.
Proof.
  intros HE. unfold fits. destruct (Z.leb_spec (unread b + n) (Z.max (2 ^ 30) (_capacity b))); [by apply local_ret|].
  intros s Hs. exists c, true. split; [|done]. constructor; try done; cbn; [|by rewrite orb_true_r].
  symmetry. apply list_insert_id. by apply find_ctx_heap.
Qed.

(** ** The invariant of a connection *)

(** The ends of pieces with the given lengths. *)
Fixpoint upto (a : Z) (l : list Z) : list Z := match l with [] => [] | x :: l => a + x :: upto (a + x) l end.

Definition sum (l : list Z) : Z := foldr Z.add 0 l.

Record sends_ok (m : SendPolicy) (k : Sock) (waiting : Z) : Prop := {
  so_marks : exists done, marks k = done ++ upto (flushed k) (_sendProvider m) /\ Forall (fun n => n <= flushed k) done /\
    _sendCompletedIndex m = 2 + Z.of_nat (length done);
  so_current : _sendCurrentIndex m = 2 + Z.of_nat (length (marks k));
  so_positive : Forall (fun n => 0 < n) (_sendProvider m);
  so_sum : sum (_sendProvider m) = waiting;
}.

(** The events of a connection that is open. *)
Definition wanted (waiting : Z) : Z := if waiting =? 0 then EVENT_READ else Z.lor EVENT_READ EVENT_WRITE.

Definition state_ok (c : Context) : Prop :=
  let k := sock c in let waiting := unread (output c) in
  match _nState c with
  | CONNECTING => mux c = mkMux EVENT_NONE EventState.NEW /\ waiting = 0 /\ interest k = None /\ fins k = 0%nat /\ closes k = 0%nat
  | CONNECTED => mux c = mkMux (wanted waiting) EventState.ADDED /\ bound c = true /\ fins k = 0%nat /\ closes k = 0%nat
  | DISCONNECTING => (mux c = mkMux (wanted waiting) EventState.ADDED \/ _events (mux c) = EVENT_NONE /\ interest k <> None) /\ closes k = 0%nat
  | DISCONNECTED => mux c = mkMux EVENT_NONE EventState.DELETED /\ interest k = None /\ closes k = 1%nat
  end.

Record data_ok (ovf : bool) (c : Context) : Prop := {
  do_in : wf (input c);
  do_out : wf (output c);
  do_received : received (sock c) = consumed (sock c) ++ content (input c);
  do_sends : sends_ok (sends c) (sock c) (unread (output c));
  do_stream : ovf = false -> overtaken (sock c) = false -> accepted (sock c) = wire (sock c) ++ content (output c);
  do_fin : (fins (sock c) <= 1)%nat /\ (fins (sock c) = 1%nat -> unread (output c) = 0);
}.

Record ctx_ok (ovf : bool) (c : Context) : Prop := {
  co_data : data_ok ovf c;
  co_state : state_ok c;
  co_interest : ctl_failed (sock c) = false -> _nState c = CONNECTED \/ _nState c = DISCONNECTING -> interest (sock c) = Some (_events (mux c));
}.

Lemma write_complete_spec pr n f : Forall (fun x => 0 < x) pr -> 0 <= n <= sum pr -> let '(pr', k) := write_complete pr n in
  exists done, upto f pr = done ++ upto (f + n) pr' /\ Z.of_nat (length done) = k /\ Forall (fun m => m <= f + n) done /\
    Forall (fun x => 0 < x) pr' /\ sum pr' = sum pr - n.
Proof.
  revert n f. induction pr as [|front rest IH]; intros n f Hp Hn; cbn [write_complete sum foldr] in *.
  { exists []. split_and!; (done || lia). }
  apply Forall_cons in Hp as [Hf Hp]. destruct (Z.ltb_spec 0 n).
  2:{ assert (n = 0) as -> by lia. rewrite Z.add_0_r. exists []. split_and!; [done | done | done | by constructor | cbn; lia]. }
  destruct (Z.ltb_spec n front).
  - exists []. split_and!; [|done|done|constructor; [lia|done] | cbn; lia]. cbn [upto app]. by replace (f + n + (front - n)) with (f + front) by lia.
  - specialize (IH (n - front) (f + front) Hp ltac:(unfold sum in *; lia)). destruct (write_complete rest (n - front)) as [pr' k].
    destruct IH as (dm & E & Hk & Hd & Hp' & Hs). replace (f + front + (n - front)) with (f + n) in * by lia.
    exists (f + front :: dm). split_and!; [by cbn; rewrite E | cbn; lia | constructor; [lia|done] | done | rewrite Hs; unfold sum; lia].
Qed.

Lemma upto_app a l x : upto a (l ++ [x]) = upto a l ++ [a + sum l + x].
Proof.
  revert a. induction l as [|y l IH]; intros a; [cbn; by rewrite Z.add_0_r|].
  change (a + y :: upto (a + y) (l ++ [x]) = a + y :: upto (a + y) l ++ [a + (y + sum l) + x]). rewrite IH. do 3 f_equal. lia.
Qed.

Lemma sum_app l x : sum (l ++ [x]) = sum l + x.
Proof. unfold sum. induction l as [|y l IH]; cbn; [lia|]. rewrite IH. lia. Qed.

(** A context that epoll watches, or that is closed: it may occur in the events that wait. *)
Definition watched (c : Context) : Prop := interest (sock c) <> None \/ _nState c = DISCONNECTED.

(** A context in the queue of the loop. *)
Definition parting (c : Context) : Prop := _nState c = DISCONNECTING \/ _nState c = DISCONNECTED.

Record keeps (c c' : Context) : Prop := {
  k_first : first c' = first c;
  k_watched : watched c -> watched c';
  k_parting : parting c -> parting c';
  k_open : _nState c <> CONNECTING -> _nState c' <> CONNECTING;
  k_fin : parting c -> fins (sock c') = fins (sock c);
  k_wire : fins (sock c) = 1%nat -> wire (sock c') = wire (sock c) /\ fins (sock c') = 1%nat;
}.

Lemma keeps_refl c : keeps c c.
Proof. done. Qed.

Lemma keeps_trans c1 c2 c3 : keeps c1 c2 -> keeps c2 c3 -> keeps c1 c3.
Proof.
  intros [] []. constructor; auto; [congruence | intros H; rewrite k_fin1 by auto; auto|]. intros H. destruct (k_wire0 H) as [E H']. destruct (k_wire1 H'). split; congruence.
Qed.

Lemma keeps_connected c c' : _nState c = CONNECTED -> fins (sock c) = 0%nat -> first c' = first c -> (watched c -> watched c') ->
  _nState c' <> CONNECTING -> keeps c c'.
Proof. intros Hn Hf H1 H2 H3. constructor; try done; [intros [?|?]; congruence | intros [?|?]; congruence | congruence]. Qed.

Lemma ctx_ok_mono ovf o c : ctx_ok ovf c -> ctx_ok (ovf || o) c.
Proof. intros [[] ? ?]. constructor; try done. constructor; try done. intros [-> _]%orb_false_iff. auto. Qed.

Lemma new_ok token fd ovf : ctx_ok ovf (Context_new token fd).
Proof.
  destruct (new_wf 128) as [Hw Hc]; [lia|]. constructor; [|done|by intros _ [?|?]].
  constructor; cbn -[Buffer_new content]; try done; [|split; [lia|done]]. constructor; cbn; try done. by exists [].
Qed.

(** ** The operations of a user *)

Abbreviation kept ovf c := (fun _ c' => ctx_ok ovf c' /\ keeps c c').
Abbreviation kept_throw ovf c := (fun c' o => ctx_ok (ovf || o) c' /\ keeps c c').

Lemma wanted_write waiting : 0 <= waiting -> has (wanted waiting) EVENT_WRITE = negb (waiting =? 0).
Proof. intros H. unfold wanted. by destruct (waiting =? 0). Qed.

Lemma local_socket_write p bs c : local p (socket_write p bs) c
  (fun ret c' => 0 <= ret <= Z.of_nat (length bs) /\ c' = with_sock (add_wire (take (Z.to_nat ret) bs)) c) (fun c' o => c' = c /\ o = false).
Proof.
  eapply local_bind; [apply local_write|]. intros [errno|n] c' H.
  - destruct (_ || _); [|by apply local_throw]. apply local_ret. split; [lia|]. rewrite H. destruct c as [? ? ? ? ? ? ? ? ? ? k]. unfold with_sock, add_wire. cbn.
    by destruct k; cbn; rewrite app_nil_r.
  - apply local_ret. by destruct H as (? & _ & ->).
Qed.

Lemma unread_nonneg b : wf b -> 0 <= unread b.
Proof. intros [H1 H2 H3]. unfold unread. lia. Qed.

Lemma content_nil b : wf b -> unread b = 0 -> content b = [].
Proof. intros H E. apply nil_length_inv. pose proof (length_content b H). lia. Qed.

(** The context after a send that leaves bytes in the buffer. *)
Definition queued (buf : list Z) (ret : Z) (b : Buffer) (c : Context) : Context :=
  with_sends (mkSend (_sendProvider (sends c) ++ [Z.of_nat (length buf) - ret]) (_sendCurrentIndex (sends c) + 1) (_sendCompletedIndex (sends c)))
    (with_sock (fun k => add_mark (flushed k + unread b) (add_accepted buf ((0 <? ret) && (0 <? unread (output c))) k)) (with_output b c)).

Lemma stream_app ovf buf ret c o : data_ok ovf c -> 0 <= ret <= Z.of_nat (length buf) ->
  o = false -> overtaken (sock c) || ((0 <? ret) && (0 <? unread (output c))) = false ->
  accepted (sock c) = wire (sock c) ++ content (output c) ->
  accepted (sock c) ++ buf = (wire (sock c) ++ take (Z.to_nat ret) buf) ++ content (output c) ++ drop (Z.to_nat ret) buf.
Proof.
  intros Hd Hr _ Ho Hs. rewrite Hs. apply orb_false_iff in Ho as [_ [Hz|Hz]%andb_false_iff].
  - apply Z.ltb_ge in Hz. replace ret with 0 by lia. cbn. by rewrite app_nil_r, app_assoc.
  - apply Z.ltb_ge in Hz. pose proof (unread_nonneg _ (do_out _ _ Hd)). rewrite (content_nil _ (do_out _ _ Hd)) by lia.
    by rewrite app_nil_r, app_nil_l, <- app_assoc, take_drop.
Qed.

Lemma queued_data ovf buf ret b c : data_ok ovf c -> fins (sock c) = 0%nat -> 0 <= ret < Z.of_nat (length buf) -> wf b ->
  content b = content (output c) ++ drop (Z.to_nat ret) buf ->
  data_ok ovf (queued buf ret b (with_sock (add_wire (take (Z.to_nat ret) buf)) c)).
Proof.
  intros Hd Hf Hr Hb Hcb. pose proof Hd as [H1 H2 H3 [(dm & E1 & E2 & E3) E4 E5 E6] H5 H6].
  assert (unread b = unread (output c) + (Z.of_nat (length buf) - ret)) as Hub.
  { rewrite <- (length_content b Hb), <- (length_content _ H2), Hcb, length_app, length_drop. lia. }
  constructor; cbn; try done.
  - constructor; cbn.
    + exists dm. split_and!; [|done|done]. rewrite upto_app, E1, <- app_assoc. do 3 f_equal. lia.
    + rewrite E4, length_app. cbn. lia.
    + apply Forall_app. split; [done|]. constructor; [lia|done].
    + rewrite sum_app. lia.
  - intros Hovf Ho. rewrite Hcb. apply orb_false_iff in Ho as [Ho1 Ho2]. eapply stream_app; [exact Hd | lia | done | | by apply H5].
    by rewrite Ho1, Ho2.
  - split; [lia | by rewrite Hf].
Qed.

Lemma fast_data ovf buf c : data_ok ovf c -> data_ok ovf
  (with_sock (add_accepted buf ((0 <? Z.of_nat (length buf)) && (0 <? unread (output c)))) (with_sock (add_wire (take (Z.to_nat (Z.of_nat (length buf))) buf)) c)).
Proof.
  intros Hd. pose proof Hd as [H1 H2 H3 [] H5 H6]. constructor; cbn; try done.
  intros Hovf Ho. apply orb_false_iff in Ho as [Ho1 Ho2].
  rewrite (stream_app ovf buf (Z.of_nat (length buf)) c false Hd ltac:(lia) eq_refl); [|by rewrite Ho1, Ho2 | by apply H5].
  by rewrite Nat2Z.id, drop_all, app_nil_r.
Qed.

(** The data of a connection do not depend on its states. *)
Lemma data_same ovf c c' : data_ok ovf c -> input c' = input c -> output c' = output c -> sends c' = sends c ->
  wire (sock c') = wire (sock c) -> fins (sock c') = fins (sock c) -> accepted (sock c') = accepted (sock c) -> flushed (sock c') = flushed (sock c) ->
  marks (sock c') = marks (sock c) -> received (sock c') = received (sock c) -> consumed (sock c') = consumed (sock c) ->
  overtaken (sock c') = overtaken (sock c) -> data_ok ovf c'.
Proof.
  intros [H1 H2 H3 [S1 S2 S3 S4] H5 H6] Ei Eo Es E1 E2 E3 E4 E5 E6 E7 E8.
  constructor; [.. |constructor| |]; rewrite ?Ei, ?Eo, ?Es, ?E1, ?E2, ?E3, ?E4, ?E5, ?E6, ?E7, ?E8; done.
Qed.

(** The changes of the mux after a send that leaves bytes, with the update of epoll. *)
Lemma local_watch_write p ovf c waiting : data_ok ovf c -> _nState c = CONNECTED -> bound c = true -> fins (sock c) = 0%nat -> closes (sock c) = 0%nat ->
  mux c = mkMux (wanted waiting) EventState.ADDED -> 0 <= waiting -> 0 < unread (output c) ->
  (ctl_failed (sock c) = false -> interest (sock c) = Some (_events (mux c))) ->
  local p (if negb (has (_events (mux c)) EVENT_WRITE) then
      modify_ctx p (with_mux (mkMux (Z.lor (_events (mux c)) EVENT_WRITE) (_eState (mux c)))) ≫= fun _ =>
      hint ← next_operation p; updateMultiplexer p hint
    else mret tt) c (kept ovf c) (kept_throw ovf c).
Proof.
  intros Hd Hn Hb Hf Hcl Hm Hw Hu Hi. rewrite Hm in *. cbn [_events _eState] in *. rewrite wanted_write by done.
  assert (wanted (unread (output c)) = Z.lor EVENT_READ EVENT_WRITE) as Hwant by (unfold wanted; destruct (Z.eqb_spec (unread (output c)) 0); [lia|done]).
  change (Z.lor EVENT_READ EVENT_WRITE) with 7 in *.
  destruct (waiting =? 0) eqn:Ew; cbn [negb].
  - assert (wanted waiting = 5) as Hw0 by (unfold wanted; by rewrite Ew). rewrite Hw0 in *. apply local_modify_bind. change (Z.lor 5 EVENT_WRITE) with 7 in *.
    eapply local_bind; [apply local_operation|]. intros op c1 [-> ->]. cbn [mux with_mux updateEventState _eState _events fst snd].
    change (7 =? EVENT_NONE) with false. cbn [fst snd]. apply local_get. cbn [bound with_mux]. rewrite Hb.
    eapply local_mono; [apply local_update| |].
    + intros ? c' [(E & _)|[(_ & Hi' & ->)|(E & _)]]; [done | | done]. split.
      * constructor; [|unfold state_ok; cbn; rewrite Hn, Hwant; done | done]. by eapply data_same.
      * constructor; cbn; try done. by left.
    + intros c' o [-> ->]. split.
      * rewrite orb_false_r. constructor; [|unfold state_ok; cbn; rewrite Hn, Hwant; done | done]. by eapply data_same.
      * constructor; cbn; done.
  - apply local_ret. split; [|done]. constructor; [done | | intros; rewrite Hm; by apply Hi]. unfold state_ok. rewrite Hn, Hm, Hwant. unfold wanted. by rewrite Ew.
Qed.

Lemma local_send p buf ovf c : ctx_ok ovf c -> _nState c <> CONNECTING -> local p (send p buf) c (kept ovf c) (kept_throw ovf c).
Proof.
  intros Hok Hn. pose proof Hok as [Hd Hst Hin]. apply local_get. case_bool_decide as Hs; [|by apply local_ret].
  assert (_nState c = CONNECTED) as Hc by (destruct Hs; by destruct (_nState c)). unfold state_ok in Hst. rewrite Hc in Hst.
  destruct Hst as (Hm & Hb & Hf & Hcl). pose proof (unread_nonneg _ (do_out _ _ Hd)) as Hun.
  eapply local_bind; [eapply local_mono; [apply local_socket_write| |]|].
  { intros ret c' H. exact H. }
  { intros c' o [-> ->]. by rewrite orb_false_r. }
  intros ret c1 [Hr ->]. cbv zeta. destruct (Z.eqb_spec ret (Z.of_nat (length buf))) as [->|Hne].
  - apply local_modify_bind, local_ret. split; [|apply keeps_connected; cbn; (done || congruence)]. constructor; [exact (fast_data ovf buf c Hd) | | done]. unfold state_ok. cbn. rewrite Hc. done.
  - apply local_get. eapply local_bind; [apply local_fits|].
    { split; [|apply keeps_connected; cbn; (done || congruence)]. rewrite orb_true_r. constructor; [|unfold state_ok; cbn; by rewrite Hc | done]. destruct Hd as [? ? ? [] ? ?]. by constructor. }
    intros [] c1 [-> Hfit]. destruct (append_spec (drop (Z.to_nat ret) buf) (output c)) as (b & Eb & Hwb & Hcb & _);
      [apply Hd | unfold holdable; cbn [output with_sock] in Hfit; rewrite length_drop; lia|].
    apply local_lift with b; [exact Eb|]. apply local_modify_bind, local_modify_bind.
    change (with_sends _ _) with (queued buf ret b (with_sock (add_wire (take (Z.to_nat ret) buf)) c)).
    set (c2 := queued _ _ _ _). assert (0 < unread b) as Hub.
    { rewrite <- (length_content b Hwb), Hcb, length_app, length_drop. lia. }
    assert (keeps c c2) as Hk by (apply keeps_connected; cbn; (done || congruence)).
    apply local_bind with (kept ovf c2); [|intros [] c' [H1 H2]; apply local_ret; split; [done | exact (keeps_trans _ _ _ Hk H2)]].
    change (mux (with_sock (add_wire (take (Z.to_nat ret) buf)) c)) with (mux c2).
    eapply local_mono; [apply (local_watch_write p ovf c2 (unread (output c))); try done| done |].
    + apply queued_data; try done. lia.
    + intros Hcf. apply Hin; [done | by left].
    + intros c' o [H1 H2]. split; [done | exact (keeps_trans _ _ _ Hk H2)].
Qed.

Lemma local_take p n ovf c E : ctx_ok ovf c -> local p (take_input p n) c (kept ovf c) E.
Proof.
  intros [Hd Hst Hin]. pose proof Hd as [H1 H2 H3 [] H5 H6]. apply local_get.
  apply local_lift with (content (input c)); [by apply readable_content|]. cbv zeta. set (bs := take n (content (input c))).
  pose proof (length_content _ H1) as Hl. assert (0 <= Z.of_nat (length bs) <= unread (input c)) as Hb by (unfold bs; rewrite length_take; lia).
  destruct (hasRead_spec _ _ H1 Hb) as (b & Eb & Hwb & Hcb & _). apply local_lift with b; [done|]. apply local_modify_bind, local_ret.
  split; [|done]. constructor; [|done|done]. constructor; cbn; try done. rewrite H3, Hcb, Nat2Z.id, <- app_assoc. f_equal.
  unfold bs. rewrite length_take. destruct (decide (n <= length (content (input c)))%nat).
  - by rewrite Nat.min_l, take_drop by done.
  - by rewrite Nat.min_r, drop_all, take_ge, app_nil_r by lia.
Qed.

(** ** Events *)

Lemma add_wire_nil c : with_sock (add_wire []) c = c.
Proof. destruct c as [? ? ? ? ? ? ? ? ? ? k]. unfold with_sock, add_wire. cbn. destruct k. cbn. by rewrite app_nil_r. Qed.

(** The writing of the output, with what follows it. *)
Lemma local_flush {A} p (f : wrote -> N A) ovf c Q (E : Context -> bool -> Prop) : data_ok ovf c -> E c false ->
  (forall errno, f (WriteException errno) = throw) ->
  (forall n b, 0 <= n <= unread (output c) -> wf b -> content b = drop (Z.to_nat n) (content (output c)) ->
    local p (f (WroteTo n b)) (with_sock (add_wire (take (Z.to_nat n) (content (output c)))) c) Q E) ->
  local p (bs ← lift (readable (output c)); r ← sys_write p bs; w ← lift (writeTo r (output c)); f w) c Q E.
Proof.
  intros Hd HE Hf Hk. pose proof (do_out _ _ Hd) as Ho. apply local_lift with (content (output c)); [by apply readable_content|].
  eapply local_bind; [apply local_write|]. pose proof (unread_nonneg _ Ho) as Hu. pose proof (length_content _ Ho) as Hl. intros [errno|n] c' H.
  - subst c'. cbn [writeTo]. destruct ((errno =? EAGAIN) || (errno =? EINTR)).
    + destruct (hasRead_spec 0 _ Ho) as (b & Eb & Hwb & Hcb & _); [lia|]. rewrite Eb. cbn [mbind res_bind]. eapply local_lift; [done|].
      specialize (Hk 0 b ltac:(lia) Hwb Hcb). change (take (Z.to_nat 0) (content (output c))) with (@nil Z) in Hk. by rewrite add_wire_nil in Hk.
    + eapply local_lift; [done|]. rewrite Hf. by apply local_throw.
  - destruct H as (Hn & _ & ->). cbn [writeTo]. destruct (hasRead_spec n _ Ho) as (b & Eb & Hwb & Hcb & _); [lia|]. rewrite Eb. cbn [mbind res_bind].
    eapply local_lift; [done|]. apply Hk; [lia | done | done].
Qed.

(** The context after [n] bytes left the output. *)
Definition flushing (n : Z) (b : Buffer) (c : Context) : Context :=
  let '(provider, k) := write_complete (_sendProvider (sends c)) n in
  with_sends (mkSend provider (_sendCurrentIndex (sends c)) (_sendCompletedIndex (sends c) + k)) (with_sock (add_flushed n) (with_output b c)).

Lemma flushing_data ovf n b c : data_ok ovf c -> (fins (sock c) = 1%nat -> n = 0) -> 0 <= n <= unread (output c) -> wf b -> content b = drop (Z.to_nat n) (content (output c)) ->
  data_ok ovf (flushing n b (with_sock (add_wire (take (Z.to_nat n) (content (output c)))) c)) /\ unread b = unread (output c) - n.
Proof.
  intros [H1 H2 H3 [(dm & E1 & E2 & E3) E4 E5 E6] H5 H6] Hfin Hn Hwb Hcb.
  assert (unread b = unread (output c) - n) as Hub.
  { pose proof (length_content _ H2). rewrite <- (length_content b Hwb), Hcb, length_drop. lia. }
  split; [|done]. unfold flushing. cbn [sends with_sock].
  pose proof (write_complete_spec (_sendProvider (sends c)) n (flushed (sock c)) E5 ltac:(lia)) as Hw.
  destruct (write_complete (_sendProvider (sends c)) n) as [pr k]. destruct Hw as (dm' & F1 & F2 & F3 & F4 & F5).
  constructor; cbn -[unread sum]; try done.
  - constructor; cbn -[unread sum].
    + exists (dm ++ dm'). split_and!; [by rewrite E1, F1, app_assoc | | rewrite length_app; lia].
      apply Forall_app. split; [|done]. eapply Forall_impl; [exact E2|]. intros x Hx. cbn in Hx. lia.
    + done.
    + done.
    + lia.
  - intros Hovf Ho. rewrite (H5 Hovf Ho), Hcb, <- app_assoc, take_drop. done.
  - destruct H6 as [H6 H7]. split; [done|]. intros Hf. rewrite Hub, (H7 Hf), (Hfin Hf). done.
Qed.

Lemma write_enabled ovf c : ctx_ok ovf c -> has (_events (mux c)) EVENT_WRITE = true ->
  0 < unread (output c) /\ mux c = mkMux 7 EventState.ADDED /\ (_nState c = CONNECTED \/ _nState c = DISCONNECTING).
Proof.
  intros [Hd Hst Hin] Ew. pose proof (unread_nonneg _ (do_out _ _ Hd)) as Hu.
  assert (mux c = mkMux (wanted (unread (output c))) EventState.ADDED -> 0 < unread (output c) /\ mux c = mkMux 7 EventState.ADDED) as H.
  { intros E. rewrite E in Ew. cbn [_events] in Ew. rewrite wanted_write in Ew by done. apply negb_true_iff, Z.eqb_neq in Ew. split; [lia|].
    rewrite E. unfold wanted. by rewrite (proj2 (Z.eqb_neq _ _) Ew). }
  unfold state_ok in Hst. destruct (_nState c).
  - destruct Hst as (E & _). by rewrite E in Ew.
  - destruct Hst as (E & _). destruct (H E). auto.
  - destruct Hst as ([E|[E _]] & _); [destruct (H E); auto | by rewrite E in Ew].
  - destruct Hst as (E & _). by rewrite E in Ew.
Qed.

(** An open connection whose output has changed, with the events for it. *)
Lemma state_open c c' : state_ok c -> _nState c = CONNECTED \/ _nState c = DISCONNECTING -> mux c' = mkMux (wanted (unread (output c'))) EventState.ADDED ->
  _nState c' = _nState c -> bound c' = bound c -> fins (sock c') = fins (sock c) -> closes (sock c') = closes (sock c) -> state_ok c'.
Proof.
  intros Hst Hn Hm En Eb Ef Ec. unfold state_ok in *. rewrite En, Eb, Ef, Ec. destruct Hn as [Hn|Hn]; rewrite Hn in *.
  - exact (conj Hm (proj2 Hst)).
  - exact (conj (or_introl Hm) (proj2 Hst)).
Qed.

(** The end of handleWrite when the output is empty. *)
Lemma local_unwatch p ovf c : data_ok ovf c -> mux c = mkMux 7 EventState.ADDED ->
  (forall c', mux c' = mkMux 5 EventState.ADDED -> output c' = output c -> _nState c' = _nState c -> bound c' = bound c -> fins (sock c') = fins (sock c) ->
    closes (sock c') = closes (sock c) -> state_ok c') ->
  local p (c ← get_ctx p; let '(changed, m) := disableWrite (mux c) in
    modify_ctx p (with_mux m) ≫= fun _ => if (changed : bool) then update_epoll p else mret tt) c (kept ovf c) (kept_throw ovf c).
Proof.
  intros Hd Hm Hst. apply local_get. rewrite Hm. cbn [disableWrite _events _eState]. change (has 7 EVENT_WRITE) with true.
  cbn iota. apply local_modify_bind. change (Z.ldiff 7 EVENT_WRITE) with 5. eapply local_mono; [apply local_epoll| |].
  - intros ? c' (i & -> & Hi & ->). cbn [updateEventState mux with_mux _eState _events]. change (5 =? EVENT_NONE) with false. split.
    + constructor; [by eapply data_same | by apply Hst | done].
    + constructor; cbn; try done. by left.
  - intros c' o [-> ->]. rewrite orb_false_r. unfold refused. cbn [updateEventState mux with_mux _eState _events]. change (5 =? EVENT_NONE) with false. split; [|done].
    constructor; [by eapply data_same | by apply Hst | done].
Qed.

Lemma local_handleWrite p ovf c : ctx_ok ovf c -> local p (handleWrite p) c (kept ovf c) (kept_throw ovf c).
Proof.
  intros Hok. pose proof Hok as [Hd Hst Hin]. apply local_get. unfold writeEventEnabled. destruct (has (_events (mux c)) EVENT_WRITE) eqn:Ew; [|by apply local_ret].
  destruct (write_enabled ovf c Hok Ew) as (Hpos & Hm & Hn).
  apply local_flush with ovf; [done | by rewrite orb_false_r | done|]. intros n b Hnn Hwb Hcb.
  apply local_modify_bind, local_modify_bind.
  set (c1 := with_sock (add_wire _) c). match goal with |- local _ _ ?x _ _ => change x with (flushing n b c1) end.
  assert (fins (sock c) <> 1%nat) as Hf1 by (intros E; pose proof (proj2 (do_fin _ _ Hd) E); lia).
  destruct (flushing_data ovf n b c Hd) as [Hd1 Hub]; [done | done | done | done|]. fold c1 in Hd1.
  unfold flushing in *. destruct (write_complete (_sendProvider (sends c1)) n) as [pr k]. set (c2 := with_sends _ _) in *.
  assert (keeps c c2) as Hk by done. destruct ((0 <? n) && (unread b =? 0)) eqn:Eb.
  - apply andb_true_iff in Eb as [Eb1%Z.ltb_lt Eb2%Z.eqb_eq]. eapply local_mono; [apply (local_unwatch p ovf c2 Hd1 Hm)| |].
    + intros c' Em Eo E1 E2 E3 E4. apply (state_open c); try done. rewrite Em, Eo. cbn [output c2 with_sends with_sock with_output]. by rewrite Eb2.
    + intros ? c' [H1 H2]. split; [done | exact (keeps_trans _ _ _ Hk H2)].
    + intros c' o [H1 H2]. split; [done | exact (keeps_trans _ _ _ Hk H2)].
  - apply local_ret. split; [|done]. assert (unread b <> 0) as Hub0.
    { apply andb_false_iff in Eb as [Eb%Z.ltb_ge|Eb%Z.eqb_neq]; lia. }
    constructor; [done | | done]. apply (state_open c); try done. cbn [mux output c2 c1 with_sends with_sock with_output]. rewrite Hm. unfold wanted.
    by rewrite (proj2 (Z.eqb_neq _ _) Hub0).
Qed.

Lemma disable_all m waiting : (m = mkMux (wanted waiting) EventState.ADDED \/ _events m = EVENT_NONE) ->
  (disableWrite (disableRead m).2).2 = mkMux EVENT_NONE (_eState m).
Proof.
  destruct m as [e es]. cbn. intros [[= -> ->]| ->]; [|done]. unfold wanted. by destruct (waiting =? 0).
Qed.

Lemma local_disconnect p ovf c : ctx_ok ovf c -> _nState c = DISCONNECTING -> interest (sock c) <> None ->
  local p (disconnect p) c (kept ovf c) (kept_throw ovf c).
Proof.
  intros [Hd Hst Hin] Hn Hi. unfold state_ok in Hst. rewrite Hn in Hst. destruct Hst as [Hm Hcl].
  apply local_modify_bind, local_modify_bind. set (c1 := with_mux _ (with_mux _ c)).
  assert (c1 = with_mux (mkMux EVENT_NONE (_eState (mux c))) c) as -> by (rewrite <- (disable_all (mux c) (unread (output c))) by (destruct Hm as [?|[? _]]; [by left | by right]); done).
  eapply local_bind; [eapply local_mono; [apply local_epoll| |]|].
  - intros ? c' H. exact H.
  - intros c' o [-> ->]. rewrite orb_false_r. unfold refused. cbn [mux with_mux]. split.
    + constructor; [by eapply data_same | | done]. unfold state_ok. cbn. rewrite Hn. split; [right|done]. split; [by destruct (_eState (mux c)) | done].
    + done.
  - intros [] c' H. unfold updated in H. cbn [mux with_mux] in H.
    destruct (_eState (mux c)) eqn:Ees; cbn [updateEventState _eState] in H; destruct H as (i & -> & Hadd & ->); try (by exfalso; apply Hi, Hadd).
    eapply local_mono; [apply local_modify| |intros ? ? H; exact H]. intros ? c' ->. split.
    + constructor; [by eapply data_same | | by intros _ [?|?]]. unfold state_ok. cbn. by rewrite Hcl.
    + constructor; cbn; try done; by right.
Qed.

(** The first part of handleNewContext. *)
Lemma local_connect p ovf c : ctx_ok ovf c -> _nState c = CONNECTING -> local p (connect p) c
  (fun _ c' => ctx_ok ovf c' /\ keeps c c' /\ _nState c' <> CONNECTING) (kept_throw ovf c).
Proof.
  intros [Hd Hst Hin] Hn. unfold state_ok in Hst. rewrite Hn in Hst. destruct Hst as (Hm & Hw & Hi & Hf & Hcl).
  apply local_modify_bind. cbn beta. rewrite Hm. cbn [enableRead _events _eState]. change (has EVENT_NONE EVENT_READ) with false. cbn [negb snd].
  change (Z.lor EVENT_NONE EVENT_READ) with 5. eapply local_mono; [apply local_epoll| |].
  - intros ? c' (i & -> & _ & ->). cbn [updateEventState mux with_mux _eState _events fst snd]. split_and!.
    + constructor; [by eapply data_same | | done]. unfold state_ok. cbn. by rewrite Hw.
    + constructor; cbn; try done; [by left | intros [H|H]; congruence].
    + done.
  - intros c' o [-> ->]. rewrite orb_false_r. unfold refused. cbn [updateEventState mux with_mux _eState _events fst snd]. split.
    + constructor; [by eapply data_same | | done]. unfold state_ok. cbn. by rewrite Hw.
    + constructor; cbn; try done; [intros [H|H]; [by left | congruence] | intros [H|H]; congruence].
Qed.

(** ** The invariant of the server *)

Context (tok : Z).

Abbreviation find s := (find_ctx (user s)).

(** A request in the queue of the loop: its block, the promise of [poll], and the context. *)
Definition request_ok (s : System) (x : nat * nat * nat) : Prop :=
  let '(c, q, p) := x in
  blocks s !! c = Some (mkBlock POSTED (Int (Z.of_nat p)) (Some (OnPoll (User ShutdownPoll) q))) /\
  blocks s !! q = Some new_block /\ exists ctx, find s p = Some ctx /\ parting ctx.

Definition queue_ok (s : System) : Prop := exists l : list (nat * nat * nat),
  _mq s = (fun x => Some (Request x.1.1)) <$> l /\ NoDup (l ≫= fun x => [x.1.1; x.1.2]) /\ Forall (request_ok s) l.

Record inv (s : System) : Prop := {
  i_ctx p c : find s p = Some c -> ctx_ok (overflow (user s)) c /\ first c = tok;
  i_pool : pool_ok (pool (user s));
  i_owned p : p ∈ owned (_container (pool (user s))) <-> is_Some (find s p);
  i_nodup : NoDup (owned (_container (pool (user s))));
  i_vectors : 0 <= tok < Z.of_nat (length (_evnetVectors (user s)));
  i_queue : queue_ok s;
  i_dangling : dangling (user s) = false;
}.

Record ext (s s' : System) : Prop := {
  e_find p c : find s p = Some c -> exists c', find s' p = Some c' /\ keeps c c';
  e_pool : pool (user s') = pool (user s);
  e_vectors : _evnetVectors (user s') = _evnetVectors (user s);
  e_buffer : _eventBuffer (user s') = _eventBuffer (user s);
  e_none p : find s p = None -> find s' p = None;
  e_length : length (heap (user s')) = length (heap (user s));
}.

Lemma ext_refl s : ext s s.
Proof. constructor; eauto using keeps_refl. Qed.

Lemma ext_trans s1 s2 s3 : ext s1 s2 -> ext s2 s3 -> ext s1 s3.
Proof.
  intros [F1 P1 V1 B1 N1 L1] [F2 P2 V2 B2 N2 L2]. constructor; [|congruence..|auto|congruence]. intros p c (c1 & H1 & K1)%F1. destruct (F2 p c1 H1) as (c2 & H2 & K2).
  exists c2. split; [done | by eapply keeps_trans].
Qed.

Lemma evolve_find_ne p q c o s s' : evolve p c o s s' -> p <> q -> find s' q = find s q.
Proof. intros [] Hne. unfold find_ctx. rewrite ev_heap0, list_lookup_insert_ne by done. done. Qed.

Lemma evolve_ext p c c' o s s' : find s p = Some c -> evolve p c' o s s' -> keeps c c' -> ext s s'.
Proof.
  intros Hp He Hk. constructor; [|apply He..| |rewrite (ev_heap _ _ _ _ _ He); apply length_insert].
  2:{ intros q Hq. destruct (decide (p = q)) as [<-|Hne]; [congruence | by rewrite (evolve_find_ne _ _ _ _ _ _ He Hne)]. }
  intros q d Hq. destruct (decide (p = q)) as [<-|Hne].
  - exists c'. split; [by eapply evolve_find; [|exact He] | by simplify_eq].
  - exists d. split; [by rewrite (evolve_find_ne _ _ _ _ _ _ He Hne) | done].
Qed.

Lemma request_ext s s' x : ext s s' -> blocks s' = blocks s -> request_ok s x -> request_ok s' x.
Proof.
  destruct x as [[c q] p]. intros He Hb (H1 & H2 & ctx & H3 & H4). cbn. rewrite Hb. split_and!; [done | done|].
  destruct (e_find _ _ He p ctx H3) as (ctx' & Hc & Hk). exists ctx'. split; [done | by apply (k_parting _ _ Hk)].
Qed.

Lemma evolve_inv p c c' o s s' : inv s -> find s p = Some c -> evolve p c' o s s' -> ctx_ok (overflow (user s) || o) c' -> keeps c c' -> inv s' /\ ext s s'.
Proof.
  intros Hi Hp He Hok Hk. pose proof (evolve_ext _ _ _ _ _ _ Hp He Hk) as Hext. split; [|done]. pose proof He as [].
  assert (find s' p = Some c') as Hp' by (by eapply evolve_find; [|exact He]).
  constructor; rewrite ?ev_overflow0, ?ev_pool0, ?ev_vectors0, ?ev_dangling0; try apply Hi.
  - intros q d Hq. destruct (decide (p = q)) as [<-|Hne].
    + simplify_eq. split; [done|]. rewrite (k_first _ _ Hk). by apply (i_ctx _ Hi) with p.
    + rewrite (evolve_find_ne _ _ _ _ _ _ He Hne) in Hq. destruct (i_ctx _ Hi q d Hq) as [H ?]. split; [by apply ctx_ok_mono | done].
  - intros q. rewrite (i_owned _ Hi). destruct (decide (p = q)) as [<-|Hne]; [|by rewrite (evolve_find_ne _ _ _ _ _ _ He Hne)].
    rewrite Hp, Hp'. by split; eexists.
  - destruct (i_queue _ Hi) as (l & E & Hnd & Hl). exists l. rewrite ev_queue0. split_and!; [done | done|].
    eapply Forall_impl; [exact Hl|]. intros x. by apply request_ext.
Qed.

(** ** Operations that keep the invariant *)

Definition okay {A} (m : N A) (s : System) : Prop :=
  match m s with Done _ s' | Throw s' => inv s' /\ ext s s' | Undefined => False end.

Lemma okay_ret {A} (a : A) s : inv s -> okay (mret a) s.
Proof. intros H. split; [done | apply ext_refl]. Qed.

Lemma okay_throw {A} s : inv s -> okay (throw (A := A)) s.
Proof. intros H. split; [done | apply ext_refl]. Qed.

Lemma okay_bind {A B} (m : N A) (f : A -> N B) s : okay m s -> (forall a s', m s = Done a s' -> inv s' -> ext s s' -> okay (f a) s') -> okay (m ≫= f) s.
Proof.
  intros Hm Hf. unfold okay in *. unfold mbind, M_bind. destruct (m s) as [a s'|s'|]; [|done|done]. destruct Hm as [Hi He].
  specialize (Hf a s' eq_refl Hi He). destruct (f a s') as [b s2|s2|]; [| |done]; destruct Hf as [H1 H2]; (split; [done | by eapply ext_trans]).
Qed.

Lemma okay_from {A} (m : N A) s s1 : okay m s1 -> ext s s1 -> match m s1 with Done _ s' | Throw s' => inv s' /\ ext s s' | Undefined => False end.
Proof. intros Hm He. unfold okay in Hm. destruct (m s1) as [a s2|s2|]; [| |done]; destruct Hm; (split; [done | by eapply ext_trans]). Qed.

Lemma okay_local {A} p (m : N A) c s : inv s -> find s p = Some c -> local p m c (kept (overflow (user s)) c) (kept_throw (overflow (user s)) c) -> okay m s.
Proof.
  intros Hi Hp Hl. specialize (Hl s Hp). unfold okay. destruct (m s) as [a s'|s'|]; [| |done].
  - destruct Hl as (c' & He & Hok & Hk). eapply evolve_inv; try done. by rewrite orb_false_r.
  - destruct Hl as (c' & o & He & Hok & Hk). by eapply evolve_inv.
Qed.

(** A request for a poll, on a state. *)
Lemma post_poll v (f : fn) (s : System) :
  (future ← makeFuture v; _ ← poll future (User f); mret tt) s =
  Done tt (mkSys (blocks s ++ [mkBlock POSTED v (Some (OnPoll (User f) (S (length (blocks s))))); new_block])
    (_mq s ++ [Some (Request (length (blocks s)))]) (_lastEvent s) (user s) (completed s)).
Proof.
  unfold mbind, M_bind. rewrite makeFuture_eq. unfold poll. by erewrite attach_ready by done.
Qed.

Lemma shutdown_fin ovf c : ctx_ok ovf c -> _nState c = CONNECTED -> has (_events (mux c)) EVENT_WRITE = false ->
  ctx_ok ovf (with_sock add_fin (with_nState DISCONNECTING c)).
Proof.
  intros [Hd Hst Hin] Hn Hw. unfold state_ok in Hst. rewrite Hn in Hst. destruct Hst as (Hm & Hb & Hf & Hcl). rewrite Hm in Hw. cbn [_events] in Hw.
  pose proof (unread_nonneg _ (do_out _ _ Hd)) as Hu. rewrite wanted_write in Hw by done. apply negb_false_iff, Z.eqb_eq in Hw.
  pose proof Hd as [H1 H2 H3 [S1 S2 S3 S4] H5 H6]. constructor; [constructor; try done| |].
  - cbn -[unread]. rewrite Hf. split; [lia | done].
  - unfold state_ok. cbn -[unread]. split; [by left | done].
  - intros Hc _. apply Hin; [done | by left].
Qed.

Lemma shutdown_wait ovf c : ctx_ok ovf c -> _nState c = CONNECTED -> ctx_ok ovf (with_nState DISCONNECTING c).
Proof.
  intros [Hd Hst Hin] Hn. unfold state_ok in Hst. rewrite Hn in Hst. destruct Hst as (Hm & Hb & Hf & Hcl). constructor; [by eapply data_same | |].
  - unfold state_ok. cbn -[unread]. split; [by left | done].
  - intros Hc _. apply Hin; [done | by left].
Qed.

(** A poll that was posted, for a context that is not connected any more. *)
Lemma posted_inv p c s : inv s -> find s p = Some c -> parting c ->
  inv (mkSys (blocks s ++ [mkBlock POSTED (Int (Z.of_nat p)) (Some (OnPoll (User ShutdownPoll) (S (length (blocks s))))); new_block])
    (_mq s ++ [Some (Request (length (blocks s)))]) (_lastEvent s) (user s) (completed s)).
Proof.
  intros [H1 H2 H3 H4 H5 (l & E & Hnd & Hl) H7] Hp Hc. constructor; try done. set (n := length (blocks s)).
  exists (l ++ [(n, S n, p)]). assert (forall x, x ∈ l -> (x.1.1 < n /\ x.1.2 < n)%nat) as Hlt.
  { intros [[c1 q1] p1] Hx. apply (proj1 (Forall_forall _ _) Hl) in Hx as (B1 & B2 & _). cbn. split; by eapply lookup_lt_Some. }
  split_and!.
  - by rewrite fmap_app, E.
  - rewrite bind_app. apply NoDup_app. split_and!; [done| |].
    + intros i (x & Hi & Hx)%list_elem_of_bind. specialize (Hlt x Hx). cbn. rewrite !elem_of_cons, elem_of_nil. rewrite !elem_of_cons, elem_of_nil in Hi. lia.
    + cbn. apply NoDup_cons. rewrite elem_of_cons, elem_of_nil. split; [lia|]. apply NoDup_singleton.
  - apply Forall_app. split.
    + eapply Forall_impl; [exact Hl|]. intros [[c1 q1] p1] (B1 & B2 & B3). cbn. split_and!; [by apply lookup_app_l_Some | by apply lookup_app_l_Some | done].
    + constructor; [|done]. cbn. split_and!; [by apply lookup_here | apply lookup_next | by exists c].
Qed.

Lemma modify_done p g c (s : System) : find s p = Some c -> exists s', modify_ctx p g s = Done tt s' /\ evolve p (g c) false s s'.
Proof.
  intros Hp. pose proof (local_modify p g c (fun _ _ => False) s Hp) as H. destruct (modify_ctx p g s) as [[] s'|s'|]; [|by destruct H as (? & ? & ? & [])|done].
  destruct H as (c' & He & ->). by exists s'.
Qed.

Lemma get_done p c (s : System) : find s p = Some c -> get_ctx p s = Done c s.
Proof. intros Hp. unfold get_ctx, net, mbind, M_bind. by rewrite Hp. Qed.

Lemma shutdown_spec p c s : inv s -> find s p = Some c ->
  exists s', shutdown p s = Done tt s' /\ inv s' /\ ext s s' /\ exists c', find s' p = Some c' /\ interest (sock c') = interest (sock c) /\
    _nState c' = match _nState c with CONNECTED => DISCONNECTING | st => st end.
Proof.
  intros Hi Hp. destruct (i_ctx _ Hi p c Hp) as [Hok _]. unfold shutdown. rewrite (M_bind_Done _ _ _ _ _ (get_done p c s Hp)).
  case_bool_decide as Hn.
  2:{ exists s. split_and!; [done | done | apply ext_refl|]. exists c. split_and!; try done. by destruct (_nState c). }
  destruct (modify_done p (with_nState DISCONNECTING) c s Hp) as (s1 & E1 & He1). rewrite (M_bind_Done _ _ _ _ _ E1).
  assert (find s1 p = Some (with_nState DISCONNECTING c)) as Hp1 by (by eapply evolve_find; [|exact He1]).
  assert (keeps c (with_nState DISCONNECTING c)) as Hk.
  { constructor; cbn; try done; [intros [?|?]; [by left | congruence] | by left]. }
  destruct (has (_events (mux c)) EVENT_WRITE) eqn:Ew; cbn [negb].
  - destruct (evolve_inv p c _ false s s1 Hi Hp He1) as [Hi1 Hx1]; [rewrite orb_false_r; by apply shutdown_wait | done|].
    rewrite post_poll. eexists. split_and!; [done | eapply posted_inv; [done | done | by left] | by destruct Hx1; constructor|].
    exists (with_nState DISCONNECTING c). split_and!; [done | done | by rewrite Hn].
  - destruct (modify_done p (with_sock add_fin) _ s1 Hp1) as (s2 & E2 & He2).
    pose proof (evolve_trans _ _ _ _ _ _ _ _ He1 He2) as He. destruct (evolve_inv p c _ _ s s2 Hi Hp He) as [Hi2 Hx2].
    { rewrite orb_false_r. by apply shutdown_fin. }
    { pose proof (co_state _ _ Hok) as Hst. unfold state_ok in Hst. rewrite Hn in Hst. apply keeps_connected; try done; [apply Hst | apply Hk]. }
    exists s2. split_and!; [done | done | done|]. eexists. split_and!; [by eapply evolve_find; [|exact He] | done | by rewrite Hn].
Qed.

(** ** Callbacks and handlers *)

(** The program [a] only uses the context [p]. *)
Fixpoint own (p : nat) (a : act (W := W)) : Prop :=
  match a with
  | AEnd | AThrow => True
  | ASend q _ k => q = p /\ forall t, own p (k t)
  | AShutdown q k | AEnsureLifecycle q k | AHold q k | ARelease q k => q = p /\ own p k
  | ATake q _ k => q = p /\ forall bs, own p (k bs)
  | AState q k => q = p /\ forall st, own p (k st)
  | ACompleted q _ k => q = p /\ forall b, own p (k b)
  | AApp _ k => forall w, own p (k w)
  end.

(** The context [p] exists and is connected, or was. *)
Definition opened (p : nat) (s : System) : Prop := exists c, find s p = Some c /\ _nState c <> CONNECTING.

Lemma opened_ext p s s' : opened p s -> ext s s' -> opened p s'.
Proof. intros (c & Hp & Hn) He. destruct (e_find _ _ He p c Hp) as (c' & Hp' & Hk). exists c'. split; [done | by apply (k_open _ _ Hk)]. Qed.

Lemma inv_user (n : Net) s : heap n = heap (user s) -> pool n = pool (user s) -> _evnetVectors n = _evnetVectors (user s) ->
  _eventBuffer n = _eventBuffer (user s) -> overflow n = overflow (user s) -> dangling n = dangling (user s) ->
  inv s -> inv (set_user n s) /\ ext s (set_user n s).
Proof.
  intros E1 E2 E3 E4 E5 E6 Hi. assert (forall p, find_ctx n p = find s p) as Hf by (intros p; unfold find_ctx; by rewrite E1).
  assert (ext s (set_user n s)) as He.
  { constructor; cbn; try done; [intros p c Hp; exists c; by rewrite Hf | intros p; by rewrite Hf | by rewrite E1]. }
  split; [|done]. destruct Hi as [H1 H2 H3 H4 H5 (l & E & Hnd & Hl) H7]. constructor; cbn; rewrite ?E2, ?E3, ?E5, ?E6; try done.
  - intros p c. rewrite Hf. apply H1.
  - intros p. rewrite Hf. apply H3.
  - exists l. split_and!; [done | done|]. eapply Forall_impl; [exact Hl|]. intros x. by apply request_ext.
Qed.

Lemma okay_modify p g c s : inv s -> find s p = Some c -> (forall ovf, ctx_ok ovf c -> ctx_ok ovf (g c)) -> keeps c (g c) -> okay (modify_ctx p g) s.
Proof.
  intros Hi Hp Hok Hk. eapply okay_local; [done | done|]. eapply local_mono; [apply local_modify| |intros ? ? H; exact H].
  intros ? c' ->. split; [|done]. apply Hok. by apply (i_ctx _ Hi p).
Qed.

Lemma lifecycle_ok x ovf c : ctx_ok ovf c -> ctx_ok ovf (with_lifecycle x c).
Proof. intros [Hd Hs Hi]. constructor; [by eapply data_same | done | done]. Qed.

Lemma okay_act p a s : own p a -> inv s -> opened p s -> okay (exec_act a) s.
Proof.
  revert s. induction a as [| |q bs k IH|q k IH|q n k IH|q k IH|q t k IH|q k IH|q k IH|q k IH|g k IH]; intros s Ho Hi Hp; cbn [own exec_act] in *;
    try match type of Ho with _ /\ _ => destruct Ho as [-> Ho] end; try (pose proof Hp as (c & Hc & Hn); destruct (i_ctx _ Hi _ _ Hc) as [Hok _]).
  - by apply okay_ret.
  - by apply okay_throw.
  - apply okay_bind; [eapply okay_local; [done | exact Hc | by apply local_send]|]. intros t s' _ Hi' He. apply IH; [done | done | by eapply opened_ext].
  - destruct (shutdown_spec p c s Hi Hc) as (s' & E & Hi' & He & _). apply okay_bind; [unfold okay; by rewrite E|]. intros [] s2 _ Hi2 He2. apply IH; [done | done | by eapply opened_ext].
  - apply okay_bind; [eapply okay_local; [done | exact Hc | by apply local_take]|]. intros bs s' _ Hi' He. apply IH; [done | done | by eapply opened_ext].
  - unfold okay. rewrite (M_bind_Done _ _ _ _ _ (get_done p c s Hc)). by apply IH.
  - unfold okay. rewrite (M_bind_Done _ _ _ _ _ (get_done p c s Hc)). by apply IH.
  - apply okay_bind; [|intros [] s' _ Hi' He; apply IH; [done | done | by eapply opened_ext]].
    eapply okay_modify; [done | done | |]; intros; destruct (_lifecycle c); (done || by apply lifecycle_ok).
  - apply okay_bind; [|intros [] s' _ Hi' He; apply IH; [done | done | by eapply opened_ext]].
    eapply okay_modify; [done | done | |done]. intros. by apply lifecycle_ok.
  - apply okay_bind; [|intros [] s' _ Hi' He; apply IH; [done | done | by eapply opened_ext]].
    eapply okay_modify; [done | done | |done]. intros. by apply lifecycle_ok.
  - unfold okay. unfold net, modify, mbind, M_bind.
    destruct (inv_user (set_app (g (app (user s))) (user s)) s) as [Hi' He]; try done.
    specialize (IH (app (user s)) _ (Ho _) Hi' (opened_ext _ _ _ Hp He)). unfold okay in IH.
    destruct (exec_act _ _) as [b s2|s2|]; [| |done]; destruct IH as [? ?]; (split; [done | by eapply ext_trans]).
Qed.

Context (connectCallback messageCallback closeCallback : option (nat -> act (W := W))).

Definition own_callback (f : option (nat -> act (W := W))) : Prop := match f with Some f => forall p, own p (f p) | None => True end.

Hypothesis Hconnect : own_callback connectCallback.
Hypothesis Hmessage : own_callback messageCallback.
Hypothesis Hclose : own_callback closeCallback.

Lemma okay_callback f p s : own_callback f -> inv s -> opened p s -> okay (callback_of f p) s.
Proof. intros Hf Hi Hp. destruct f as [f|]; [by apply (okay_act p) | by apply okay_ret]. Qed.

(** A context that may occur in the events. *)
Definition waiting_at (p : nat) (s : System) : Prop := exists c, find s p = Some c /\ watched c.

Lemma waiting_ext p s s' : waiting_at p s -> ext s s' -> waiting_at p s'.
Proof. intros (c & Hp & Hn) He. destruct (e_find _ _ He p c Hp) as (c' & Hp' & Hk). exists c'. split; [done | by apply (k_watched _ _ Hk)]. Qed.

Lemma waiting_opened p s : inv s -> waiting_at p s -> opened p s.
Proof.
  intros Hi (c & Hp & Hw). exists c. split; [done|]. destruct (i_ctx _ Hi p c Hp) as [[_ Hst _] _]. intros Hn. unfold state_ok in Hst. rewrite Hn in Hst.
  destruct Hst as (_ & _ & H & _). destruct Hw as [Hw|Hw]; congruence.
Qed.

Lemma okay_handleClose p s : inv s -> waiting_at p s -> okay (handleClose closeCallback p) s.
Proof.
  intros Hi Hw. pose proof Hw as (c & Hp & Hwc). unfold okay, handleClose. rewrite (M_bind_Done _ _ _ _ _ (get_done p c s Hp)).
  case_bool_decide as Hn; [|by apply okay_ret]. destruct (shutdown_spec p c s Hi Hp) as (s1 & E1 & Hi1 & He1 & c1 & Hp1 & Ei & En).
  rewrite (M_bind_Done _ _ _ _ _ E1). assert (interest (sock c1) <> None) as Hint by (rewrite Ei; destruct Hwc, Hn; congruence).
  assert (_nState c1 = DISCONNECTING) as Hn1 by (rewrite En; by destruct Hn as [-> | ->]).
  assert (okay (disconnect p) s1) as Hrest by (eapply okay_local; [done | exact Hp1 | apply local_disconnect; [by apply (i_ctx _ Hi1 p) | done | done]]).
  assert (okay (disconnect p ≫= fun _ => callback_of closeCallback p) s1) as H.
  { apply okay_bind; [done|]. intros [] s2 _ Hi2 He2. apply okay_callback; [done | done|].
    eapply opened_ext; [|exact He2]. exists c1. by rewrite Hn1. }
  exact (okay_from _ s s1 H He1).
Qed.

Lemma received_ok bs b ovf c : ctx_ok ovf c -> wf b -> content b = content (input c) ++ bs -> ctx_ok ovf (with_sock (add_received bs) (with_input b c)).
Proof.
  intros [[H1 H2 H3 [] H5 H6] Hst Hin] Hb Hcb. constructor; [|done|done]. constructor; try done. cbn. rewrite H3, Hcb. by rewrite app_assoc.
Qed.

Lemma local_receive p ovf c : ctx_ok ovf c -> local p (receive p) c (kept ovf c) (kept_throw ovf c).
Proof.
  intros Hok. pose proof (co_data _ _ Hok) as [Hin _ _ _ _ _]. apply local_get.
  eapply local_bind; [eapply local_bind; [apply local_next_read|]|].
  { intros [bs|errno] c' ->; by apply (local_ret p _ c (fun _ c' => c' = c)). }
  intros [r errno] c' ->. eapply local_bind; [apply local_fits|].
  { split; [by apply ctx_ok_mono | done]. }
  intros [] c' [-> Hf]. destruct r as [|bs].
  - eapply local_lift; [done|]. apply local_modify_bind, local_ret. split; [|done]. apply received_ok; [done | done | by rewrite app_nil_r].
  - destruct (readFrom_spec bs (input c) Hin ltac:(unfold holdable; lia)) as (b & E & Hb & Hcb & _). eapply local_lift; [exact E|]. apply local_modify_bind, local_ret.
    split; [|done]. by apply received_ok.
Qed.

Lemma okay_handleRead p s : inv s -> waiting_at p s -> okay (handleRead messageCallback closeCallback p) s.
Proof.
  intros Hi Hw. pose proof Hw as (c & Hp & _). destruct (i_ctx _ Hi p c Hp) as [Hok _].
  apply okay_bind; [eapply okay_local; [done | exact Hp | by apply local_receive]|]. intros [n errno] s1 _ Hi1 He1.
  pose proof (waiting_ext _ _ _ Hw He1) as Hw1.
  destruct (0 <? n); [by apply okay_callback; [| |apply waiting_opened]|]. destruct (n =? 0); [by apply okay_handleClose|].
  destruct (_ && _); [by apply okay_throw | by apply okay_ret].
Qed.

Lemma okay_handleWrite p s : inv s -> waiting_at p s -> okay (handleWrite p) s.
Proof. intros Hi (c & Hp & _). eapply okay_local; [done | exact Hp | apply local_handleWrite; by apply (i_ctx _ Hi p)]. Qed.

(** A step that is taken when a flag is there. *)
Lemma okay_when p (b : bool) (m : N unit) s : (inv s -> waiting_at p s -> okay m s) -> inv s -> waiting_at p s -> okay (if b then m else mret tt) s.
Proof. intros Hm Hi Hw. destruct b; [by apply Hm | by apply okay_ret]. Qed.

Lemma okay_handleEvent p revent s : inv s -> waiting_at p s -> okay (handleEvent messageCallback closeCallback p revent) s.
Proof.
  intros Hi Hw. unfold handleEvent.
  apply okay_bind; [apply (okay_when p); [apply okay_handleClose | done | done]|]. intros [] s1 _ Hi1 He1. pose proof (waiting_ext _ _ _ Hw He1) as Hw1.
  apply okay_bind; [apply (okay_when p); [by intros; apply okay_throw | done | done]|]. intros [] s2 _ Hi2 He2. pose proof (waiting_ext _ _ _ Hw1 He2) as Hw2.
  apply okay_bind; [apply (okay_when p); [apply okay_handleRead | done | done]|]. intros [] s3 _ Hi3 He3. pose proof (waiting_ext _ _ _ Hw2 He3) as Hw3.
  apply (okay_when p); [apply okay_handleWrite | done | done].
Qed.

(** With the exceptions that are caught, a step ends. *)
Definition returns {A} (m : N A) (s : System) : Prop := match m s with Done _ s' => inv s' /\ ext s s' | _ => False end.

Lemma exception_ok x ovf c : ctx_ok ovf c -> ctx_ok ovf (with_exception x c).
Proof. intros [Hd Hs Hi]. constructor; [by eapply data_same | done | done]. Qed.

Lemma try_returns p m s : okay m s -> is_Some (find s p) -> returns (try_catch p m) s.
Proof.
  intros Hm [c Hp]. unfold okay, returns, try_catch in *. destruct (m s) as [a s'|s'|]; [done| |done]. destruct Hm as [Hi He].
  destruct (e_find _ _ He p c Hp) as (c' & Hp' & _). destruct (modify_done p (with_exception true) c' s' Hp') as (s2 & E2 & He2). rewrite E2.
  destruct (evolve_inv p c' _ false s' s2 Hi Hp' He2) as [H1 H2]; [rewrite orb_false_r; apply exception_ok; by apply (i_ctx _ Hi p) | done|].
  split; [done | by eapply ext_trans].
Qed.

Definition events_ok (l : list (nat * Z)) (s : System) : Prop := Forall (fun e => waiting_at e.1 s) l.

Lemma events_ext l s s' : events_ok l s -> ext s s' -> events_ok l s'.
Proof. intros Hl He. eapply Forall_impl; [exact Hl|]. intros e H. exact (waiting_ext _ _ _ H He). Qed.

Lemma handle_each_returns l s : inv s -> events_ok l s -> returns (handle_each messageCallback closeCallback l) s.
Proof.
  revert s. induction l as [|[p revent] l IH]; intros s Hi Hl; cbn [handle_each].
  { split; [done | apply ext_refl]. }
  apply Forall_cons in Hl as [Hw Hl]. cbn [fst snd] in *. assert (is_Some (find s p)) as Hsome by (destruct Hw as (c & Hp & _); by exists c).
  pose proof (try_returns p _ s (okay_handleEvent p revent s Hi Hw) Hsome) as H. unfold returns in *. unfold mbind, M_bind.
  destruct (try_catch p _ s) as [a s1|s1|]; [|done|done]. destruct H as [Hi1 He1]. specialize (IH s1 Hi1 (events_ext _ _ _ Hl He1)).
  destruct (handle_each _ _ l s1) as [b s2|s2|]; [|done|done]. destruct IH. split; [done | by eapply ext_trans].
Qed.

Lemma new_returns p c s : inv s -> find s p = Some c -> _nState c = CONNECTING -> returns (handleNewContext connectCallback p) s.
Proof.
  intros Hi Hp Hn. apply try_returns; [|by exists c]. destruct (i_ctx _ Hi p c Hp) as [Hok _].
  pose proof (local_connect p _ c Hok Hn s Hp) as H. unfold okay, mbind, M_bind. destruct (connect p s) as [[] s1|s1|]; [| |done].
  - destruct H as (c' & He & Hok' & Hk & Hn'). destruct (evolve_inv p c c' false s s1 Hi Hp He) as [Hi1 He1]; [by rewrite orb_false_r | done|].
    apply (okay_from _ s s1); [|done]. apply okay_callback; [done | done|]. exists c'. split; [by eapply evolve_find; [|exact He] | done].
  - destruct H as (c' & o & He & Hok' & Hk). by eapply evolve_inv.
Qed.

(** ** The loop *)

(** A request in the queue is done by one turn, without an effect. *)
Lemma request_turn c q p rest (s : System) : request_ok s (c, q, p) -> c <> q -> _mq s = Some (Request c) :: rest ->
  exists s', turn conn_body conn_condition conn_task conn_now (Some (Request c)) s = Done tt s' /\ user s' = user s /\ _mq s' = rest /\
    forall i, i <> c -> i <> q -> blocks s' !! i = blocks s !! i.
Proof.
  intros (B1 & B2 & ctx & Hp & Hpart) Hne Hq. unfold turn. rewrite Hq. cbn [tail run_event]. unfold mbind, M_bind, get_block at 1. cbn [blocks]. rewrite B1. cbn [_then].
  unfold invoke, mbind, M_bind, get_block at 1. cbn [blocks]. rewrite B1. cbn [_value call conn_body exec do_cmd user]. unfold mbind, M_bind, mret, M_ret. cbn [user blocks _mq _lastEvent completed].
  unfold shutdown_poll. rewrite Nat2Z.id, Hp. rewrite bool_decide_eq_false_2 by (destruct Hpart; congruence). cbn [andb negb exec].
  assert (c < length (blocks s))%nat as Hlt by (by eapply lookup_lt_Some).
  unfold write_back, update at 1. cbn [blocks]. rewrite B1. cbn [truth of_bool negb Z.eqb]. unfold setValue, mbind, M_bind, get_block, update.
  cbn [blocks set_blocks user _mq _lastEvent completed]. rewrite !list_lookup_insert_ne by done. rewrite B2. cbn [new_block _state _then blocks set_blocks user _mq _lastEvent completed].
  rewrite list_lookup_insert_ne, B2 by done. cbn. rewrite list_lookup_insert_ne by done. rewrite list_lookup_insert_eq by done.
  eexists. split_and!; [done | done | done|]. intros i H1 H2. cbn. by rewrite !list_lookup_insert_ne by done.
Qed.

Lemma loop_queue l (s : System) : _mq s = (fun x => Some (Request x.1.1)) <$> l -> NoDup (l ≫= fun x => [x.1.1; x.1.2]) -> Forall (request_ok s) l ->
  exists s', FluentFutureProofs.batch conn_body conn_condition conn_task conn_now (_mq s) s = Done tt s' /\ user s' = user s /\ _mq s' = [].
Proof.
  revert s. induction l as [|[[c q] p] l IH]; intros s Hq Hnd Hl; rewrite Hq; [by exists s|]. apply Forall_cons in Hl as [Hx Hl].
  cbn in Hnd. apply NoDup_cons in Hnd as [Hc Hnd]. apply NoDup_cons in Hnd as [Hqn Hnd]. rewrite elem_of_cons in Hc.
  cbn [fmap list_fmap FluentFutureProofs.batch foldr fst] in *. destruct (request_turn c q p _ s Hx ltac:(intros ->; auto) Hq) as (s1 & E1 & Hu1 & Hq1 & Hb1).
  rewrite (M_bind_Done _ _ _ _ _ E1). destruct (IH s1 Hq1 Hnd) as (s2 & E2 & Hu2 & Hq2).
  - apply Forall_forall. intros [[c' q'] p'] Hin. pose proof (proj1 (Forall_forall _ _) Hl _ Hin) as (B1 & B2 & B3).
    assert (forall i, i = c' \/ i = q' -> i <> c /\ i <> q) as Hdiff.
    { intros i Hi. assert (i ∈ (l ≫= fun x => [x.1.1; x.1.2])) as Hil.
      { apply list_elem_of_bind. exists (c', q', p'). split; [cbn; rewrite !elem_of_cons; tauto | done]. }
      split; intros ->; [by apply Hc; right | done]. }
    cbn. rewrite Hu1. destruct (Hdiff c' (or_introl eq_refl)), (Hdiff q' (or_intror eq_refl)). rewrite !Hb1 by done. done.
  - rewrite Hq1 in E2. exists s2. split_and!; [done | congruence | done].
Qed.

Lemma loop_returns s : inv s -> exists s', looper_loop s = Done tt s' /\ inv s' /\ user s' = user s /\ _mq s' = [].
Proof.
  intros Hi. destruct (i_queue _ Hi) as (l & Hq & Hnd & Hl). destruct (loop_queue l s Hq Hnd Hl) as (s' & E & Hu & Hq').
  exists s'. split_and!; [by unfold looper_loop; rewrite run_loop_batch | | done | done].
  destruct Hi as [H1 H2 H3 H4 H5 H6 H7]. constructor; rewrite ?Hu; try done. exists []. split_and!; [done | constructor | constructor].
Qed.

(** ** Events of the kernel *)

Definition registered (p : nat) (s : System) : Prop := exists c, find s p = Some c /\ interest (sock c) <> None.

(** The state between two calls of the program: the events that wait are those of the token, all
    for contexts that epoll watches, and nothing is queued. *)
Record ready (s : System) : Prop := {
  r_inv : inv s;
  r_events : exists before l after, _evnetVectors (user s) = before ++ l :: after /\ tok = Z.of_nat (length before) /\
    Forall (eq []) before /\ Forall (eq []) after /\ Forall (fun e => registered e.1 s) l;
  r_buffer : _eventBuffer (user s) = [];
  r_queue : _mq s = [];
}.

(** The contexts of a later state are those that were there, as the operations keep them, and new
    ones. *)
Record later (s s' : System) : Prop := {
  l_length : (length (heap (user s)) <= length (heap (user s')))%nat;
  l_dead p : (p < length (heap (user s)))%nat -> find s p = None -> find s' p = None;
  l_keeps p c c' : find s p = Some c -> find s' p = Some c' -> keeps c c';
}.

Lemma ext_later s s' : ext s s' -> later s s'.
Proof.
  intros [F P V B Nn L]. constructor; [lia | auto|]. intros p c c' Hp Hp'. destruct (F p c Hp) as (c2 & H & Hk). by simplify_eq.
Qed.

Lemma same_later s s' : heap (user s') = heap (user s) -> later s s'.
Proof. intros E. constructor; unfold find_ctx; rewrite E; [done | done|]. intros p c c' H H'. by simplify_eq. Qed.

Lemma find_lt (n : Net) q c : find_ctx n q = Some c -> (q < length (heap n))%nat.
Proof. intros Hc%find_ctx_heap. by eapply lookup_lt_Some. Qed.

Lemma later_trans s1 s2 s3 : later s1 s2 -> later s2 s3 -> later s1 s3.
Proof.
  intros [L1 D1 K1] [L2 D2 K2]. constructor; [lia | |].
  - intros p Hp Hn. apply D2; [lia | auto].
  - intros p c c' Hp Hp'. destruct (find s2 p) as [c2|] eqn:E; [by eapply keeps_trans; [eapply K1 | eapply K2]|].
    rewrite (D2 p) in Hp'; [done | | done]. pose proof (find_lt _ _ _ Hp). lia.
Qed.

Lemma inv_vectors v s : length v = length (_evnetVectors (user s)) -> inv s -> inv (set_user (set_vectors v (user s)) s).
Proof. intros Hl [H1 H2 H3 H4 H5 (l & E & Hnd & Hq) H7]. constructor; try done; [cbn; by rewrite Hl|]. by exists l. Qed.

Lemma dispatch_active evs before l after (s : System) : inv s -> _evnetVectors (user s) = before ++ l :: after -> tok = Z.of_nat (length before) ->
  Forall (fun e => registered e.1 s) evs ->
  dispatchActiveContext evs s = Done tt (set_user (set_vectors (before ++ (l ++ evs) :: after) (user s)) s).
Proof.
  revert l s. induction evs as [|[p r] evs IH]; intros l s Hi Hv Ht Hr; cbn [dispatchActiveContext].
  { rewrite app_nil_r, <- Hv. unfold mret, M_ret. f_equal. by destruct s as [? ? ? [] ?]. }
  apply Forall_cons in Hr as [(c & Hp & Hic) Hr]. cbn [fst] in *. destruct (i_ctx _ Hi p c Hp) as [_ Hf].
  rewrite (M_bind_Done _ _ _ _ _ (get_done p c s Hp)). unfold visit, set_visit, net, mbind, M_bind. rewrite Hf.
  rewrite Hv, (at_index_mid before after _ l tok eq_refl Ht). unfold lift, mret, M_ret. rewrite Hv.
  rewrite (set_index_mid before after _ l (l ++ [(p, r)]) tok eq_refl Ht). unfold modify.
  rewrite (IH (l ++ [(p, r)])); [|apply inv_vectors; [|done]|done|done|done].
  - cbn. f_equal. by rewrite <- app_assoc.
  - rewrite Hv, !length_app. done.
Qed.

Lemma reported_registered (s : System) l : Forall (fun e => registered e.1 s) (take EVENTS_SIZE (omap (reported (user s)) l)).
Proof.
  apply Forall_take, Forall_forall. intros e (x & _ & E)%list_elem_of_omap. unfold reported in E. destruct (find_ctx (user s) x.1) as [c|] eqn:Ec; [|done]. cbn in E.
  destruct (interest (sock c)) as [i|] eqn:Ei; [|done]. cbn in E. destruct (_ =? 0); [done|]. simplify_eq. exists c. cbn. split; [done | by rewrite Ei].
Qed.

Lemma ready_user (n : Net) s : heap n = heap (user s) -> pool n = pool (user s) -> _evnetVectors n = _evnetVectors (user s) ->
  _eventBuffer n = _eventBuffer (user s) -> overflow n = overflow (user s) -> dangling n = dangling (user s) -> ready s -> ready (set_user n s).
Proof.
  intros E1 E2 E3 E4 E5 E6 [Hi He Hb Hq]. destruct (inv_user n s) as [Hi' _]; try done. constructor; cbn; rewrite ?E3, ?E4; try done.
  destruct He as (before & l & after & Hv & Ht & Hb1 & Ha & Hl). exists before, l, after. split_and!; try done.
  eapply Forall_impl; [exact Hl|]. intros e (c & Hp & Hc). exists c. unfold find_ctx in *. cbn. by rewrite E1.
Qed.

Lemma poll_ready s : ready s -> match multiplexer_poll s with Done _ s' | Throw s' => ready s' /\ later s s' | Undefined => False end.
Proof.
  intros Hr. unfold multiplexer_poll, next_wait, net, modify, mbind, M_bind.
  assert (forall (s : System) l, ready s -> match dispatchActiveContext (take EVENTS_SIZE (omap (reported (user s)) l)) s with
    Done _ s' | Throw s' => ready s' /\ heap (user s') = heap (user s) | Undefined => False end) as Hd.
  { clear s Hr. intros s l [Hi (before & l0 & after & Hv & Ht & Hb & Ha & Hl) Hbuf Hq]. pose proof (reported_registered s l) as Hreg.
    rewrite (dispatch_active _ before l0 after s Hi Hv Ht Hreg). split; [|done]. constructor; cbn; try done.
    - apply inv_vectors; [|done]. rewrite Hv, !length_app. done.
    - exists before, (l0 ++ take EVENTS_SIZE (omap (reported (user s)) l)), after. split_and!; try done. apply Forall_app. split; [exact Hl | exact Hreg]. }
  destruct (waits (user s)) as [|a l]; cbn [mret M_ret].
  { specialize (Hd s [] Hr). destruct (dispatchActiveContext _ s) as [u s'|s'|]; [| |done]; (split; [apply Hd | apply same_later; exact (proj2 Hd)]). }
  assert (ready (set_user (set_waits l (user s)) s)) as Hr' by (by apply ready_user).
  destruct a as [evs|errno]; [|destruct (errno =? EINTR); (split; [exact Hr' | by apply same_later])].
  specialize (Hd (set_user (set_waits l (user s)) s) evs Hr'). cbn [user set_user] in *. unfold mret, M_ret.
  destruct (dispatchActiveContext _ _) as [u s'|s'|]; [| |done]; (split; [apply Hd | apply same_later; exact (proj2 Hd)]).
Qed.

(** ** New connections *)

Lemma pool_tested s : inv s -> tested (reusable_in (heap (user s))) (_container (pool (user s))).
Proof.
  intros Hi. apply Forall_forall. intros [p|] Hx; [|by left]. assert (p ∈ owned (_container (pool (user s)))) as Hp.
  { unfold owned. apply list_elem_of_omap. by exists (Some p). }
  apply (i_owned _ Hi) in Hp as [c Hp]. cbn. unfold reusable_in. rewrite (proj1 (find_ctx_heap _ _ _) Hp). destruct (bool_decide _ && _); [by left | by right].
Qed.

(** A context that is destroyed is closed, so that epoll does not watch it. *)
Lemma free_closed s p c : inv s -> find s p = Some c -> reusable_in (heap (user s)) p = Ok true -> interest (sock c) = None.
Proof.
  intros Hi Hp. unfold reusable_in. rewrite (proj1 (find_ctx_heap _ _ _) Hp). intros [= [Hn%bool_decide_eq_true _]%andb_true_iff].
  destruct (i_ctx _ Hi p c Hp) as [[_ Hst _] _]. unfold state_ok in Hst. rewrite Hn in Hst. apply Hst.
Qed.

(** The contexts after a new one has taken the place of [old]. *)
Definition emplaced (fd : Z) (old : option nat) (P : Pool (A := nat)) (n : Net) : Net :=
  let h := heap n ++ [Some (Context_new tok fd)] in set_pool P (set_heap (match old with Some o => <[o := None]> h | None => h end) n).

Lemma emplaced_find fd old P (n : Net) q : (forall o, old = Some o -> (o < length (heap n))%nat) ->
  find_ctx (emplaced fd old P n) q =
  if bool_decide (q = length (heap n)) then Some (Context_new tok fd) else if bool_decide (old = Some q) then None else find_ctx n q.
Proof.
  intros Hold. unfold find_ctx, emplaced. cbn. set (h := heap n ++ _).
  assert (h !! q = if bool_decide (q = length (heap n)) then Some (Some (Context_new tok fd)) else heap n !! q) as Hh.
  { unfold h. case_bool_decide as Hqp; [subst q; by apply list_lookup_middle|]. destruct (decide (q < length (heap n))%nat); [by rewrite lookup_app_l|].
    rewrite !lookup_ge_None_2; [done | lia | rewrite length_app; cbn; lia]. }
  destruct old as [o|]; [|by rewrite Hh; repeat case_bool_decide]. specialize (Hold o eq_refl). destruct (decide (o = q)) as [->|Hne].
  - rewrite list_lookup_insert_eq by (unfold h; rewrite length_app; cbn; lia). rewrite bool_decide_eq_false_2 by lia. by rewrite bool_decide_eq_true_2.
  - rewrite list_lookup_insert_ne, Hh by done. rewrite (bool_decide_eq_false_2 (Some o = Some q)) by congruence. by case_bool_decide.
Qed.

Lemma alive_lt (n : Net) q : is_Some (find_ctx n q) -> (q < length (heap n))%nat.
Proof. intros [c Hc%find_ctx_heap]. by eapply lookup_lt_Some. Qed.

Lemma emplaced_inv fd old P kept s : inv s -> _mq s = [] -> pool_ok P -> owned (_container (pool (user s))) ≡ₚ option_list old ++ kept ->
  owned (_container P) ≡ₚ length (heap (user s)) :: kept -> inv (set_user (emplaced fd old P (user s)) s).
Proof.
  intros Hi Hq HP Ho Ho'. pose proof (i_nodup _ Hi) as Hnd. rewrite Ho in Hnd.
  assert (forall o, old = Some o -> (o < length (heap (user s)))%nat) as Hold.
  { intros o ->. apply alive_lt, (i_owned _ Hi). rewrite Ho. by left. }
  assert (forall q, q ∈ kept -> is_Some (find s q) /\ old <> Some q) as Hkept.
  { intros q Hk. split; [apply (i_owned _ Hi); rewrite Ho; apply elem_of_app; by right|]. intros ->. by apply NoDup_cons in Hnd as [? _]. }
  destruct Hi as [H1 H2 H3 H4 H5 H6 H7]. constructor; try done.
  - intros q c. cbn [user set_user]. rewrite emplaced_find by done. case_bool_decide; [intros [= <-]; split; [apply new_ok | done]|]. case_bool_decide; [done | apply H1].
  - intros q. cbn. rewrite Ho', elem_of_cons. rewrite emplaced_find by done. case_bool_decide as E1; [by split; [eexists | left]|]. case_bool_decide as E2.
    + split; [intros [?|[_ ?]%Hkept]; done | by intros [? ?]].
    + split; [by intros [?|[? _]%Hkept]|]. intros Hs. right. apply H3 in Hs. rewrite Ho, elem_of_app in Hs. destruct Hs as [Hs|Hs]; [|done].
      destruct old as [o|]; [apply list_elem_of_singleton in Hs; congruence | by apply elem_of_nil in Hs].
  - cbn. rewrite Ho'. apply NoDup_cons. split; [intros [Hs _]%Hkept; apply alive_lt in Hs; lia|]. by apply NoDup_app in Hnd as (_ & _ & ?).
  - exists []. split_and!; [done | constructor | constructor].
Qed.

Lemma emplace_spec fd s : inv s -> _mq s = [] -> exists p s', pool_emplace tok fd s = Done p s' /\ inv s' /\ find s' p = Some (Context_new tok fd) /\
  _evnetVectors (user s') = _evnetVectors (user s) /\ _eventBuffer (user s') = _eventBuffer (user s) /\ later s s' /\
  forall q c, find s q = Some c -> interest (sock c) <> None -> find s' q = Some c.
Proof.
  intros Hi Hq. unfold pool_emplace, net, modify, mbind, M_bind.
  destruct (emplace_ok (reusable_in (heap (user s))) (length (heap (user s))) (pool (user s)) (i_pool _ Hi) (pool_tested s Hi)) as (old & P & kept & -> & HP & Ho & Ho' & Hfree).
  cbn [lift mret M_ret]. unfold mret, M_ret. eexists (length (heap (user s))), _. split; [done|].
  assert (forall o, old = Some o -> is_Some (find s o)) as Hold by (intros o ->; apply (i_owned _ Hi); rewrite Ho; by left).
  assert (forall q, find_ctx (emplaced fd old P (user s)) q = if bool_decide (q = length (heap (user s))) then Some (Context_new tok fd) else
    if bool_decide (old = Some q) then None else find s q) as Hfind by (intros q; apply emplaced_find; intros o E; by apply alive_lt, Hold).
  split_and!; [by eapply emplaced_inv | | done | done | |].
  - cbn [user set_user]. etransitivity; [apply Hfind|]. by rewrite bool_decide_eq_true_2.
  - constructor; cbn [user set_user].
    + unfold emplaced. cbn. destruct old; rewrite ?length_insert, length_app; cbn; lia.
    + intros q Hlt Hn. etransitivity; [apply Hfind|]. rewrite bool_decide_eq_false_2 by lia. by case_bool_decide.
    + intros q c c' Hc Hc'. assert (find_ctx (emplaced fd old P (user s)) q = Some c') as H by exact Hc'. rewrite Hfind in H.
      rewrite bool_decide_eq_false_2 in H by (pose proof (find_lt _ _ _ Hc); lia). case_bool_decide; [done|]. by simplify_eq.
  - intros q c Hc Hint. cbn [user set_user]. etransitivity; [apply Hfind|]. rewrite bool_decide_eq_false_2.
    + rewrite bool_decide_eq_false_2; [done|]. intros ->. apply Hint. by eapply free_closed.
    + intros ->. assert (is_Some (find s (length (heap (user s))))) as Hs by (by exists c). apply alive_lt in Hs. lia.
Qed.

(** After [accept] the events wait for contexts that exist. *)
Lemma accept_ready s : ready s -> exists s', accept connectCallback tok s = Done tt s' /\ inv s' /\ later s s' /\ _eventBuffer (user s') = [] /\
  exists before l after, _evnetVectors (user s') = before ++ l :: after /\ tok = Z.of_nat (length before) /\
    Forall (eq []) before /\ Forall (eq []) after /\ events_ok l s'.
Proof.
  intros Hr. unfold accept, next_accept, net, modify, mbind, M_bind.
  assert (forall s, ready s -> exists before l after, _evnetVectors (user s) = before ++ l :: after /\ tok = Z.of_nat (length before) /\
    Forall (eq []) before /\ Forall (eq []) after /\ events_ok l s) as Hev.
  { clear s Hr. intros s [Hi (before & l & after & Hv & Ht & Hb & Ha & Hl) _ _]. exists before, l, after. split_and!; try done.
    eapply Forall_impl; [exact Hl|]. intros e (c & Hp & Hc). exists c. split; [done | by left]. }
  destruct (accepts (user s)) as [|a l].
  { exists s. split_and!; [done | apply Hr | by apply same_later | apply Hr | by apply Hev]. }
  set (s1 := set_user (set_accepts l (user s)) s). assert (ready s1) as Hr1 by (by apply ready_user).
  destruct a as [fd|]; [|exists s1; split_and!; [done | apply Hr1 | by apply same_later | apply Hr1 | by apply Hev]].
  destruct (emplace_spec fd s1 (r_inv _ Hr1) (r_queue _ Hr1)) as (p & s2 & E2 & Hi2 & Hp2 & Hv2 & Hb2 & Hlt & Hk). cbn [mret M_ret]. unfold mret, M_ret. rewrite E2.
  pose proof (new_returns p _ s2 Hi2 Hp2 eq_refl) as H. unfold returns in H. destruct (handleNewContext connectCallback p s2) as [[] s3|s3|]; [|done|done].
  destruct H as [Hi3 He3]. exists s3. split_and!; [done | done | | rewrite (e_buffer _ _ He3), Hb2; apply Hr1|].
  { eapply later_trans; [by apply (same_later s s1)|]. eapply later_trans; [exact Hlt | by apply ext_later]. }
  destruct (r_events _ Hr1) as (before & l0 & after & Hv & Ht & Hb & Ha & Hl). exists before, l0, after. rewrite (e_vectors _ _ He3), Hv2. split_and!; try done.
  eapply Forall_impl; [exact Hl|]. intros e (c & Hp & Hc). apply (waiting_ext _ s2 s3); [|done]. exists c. split; [by apply Hk | by left].
Qed.

Lemma handleEvents_ready before l after s : inv s -> _eventBuffer (user s) = [] -> _evnetVectors (user s) = before ++ l :: after ->
  tok = Z.of_nat (length before) -> Forall (eq []) before -> Forall (eq []) after -> events_ok l s ->
  exists s', handleEvents messageCallback closeCallback tok s = Done tt s' /\ inv s' /\ later s s' /\ _eventBuffer (user s') = [] /\
    _evnetVectors (user s') = before ++ [] :: after.
Proof.
  intros Hi Hbuf Hv Ht Hb Ha Hl. unfold handleEvents, swap_events, visit, set_visit, net, modify, lift, mbind, M_bind.
  rewrite Hv, (at_index_mid before after _ l tok eq_refl Ht). cbn [mret M_ret]. unfold mret, M_ret. rewrite Hv.
  rewrite (set_index_mid before after _ l (_eventBuffer (user s)) tok eq_refl Ht), Hbuf. cbn [user set_user].
  set (s1 := set_user _ _). assert (inv s1) as Hi1.
  { destruct Hi as [H1 H2 H3 H4 H5 (q & E & Hnd & Hq) H7]. constructor; try done; [|by exists q]. cbn. rewrite Hv in H5. rewrite length_app in *. done. }
  change (_eventBuffer (user s1)) with l.
  pose proof (handle_each_returns l s1 Hi1 Hl) as H. unfold returns in H. 
  change (_eventBuffer (set_eventBuffer l (set_vectors (before ++ [] :: after) (user s)))) with l.
  destruct (handle_each messageCallback closeCallback l s1) as [[] s2|s2|]; [|done|done]. destruct H as [Hi2 He2].
  eexists. split; [done|]. destruct Hi2 as [H1 H2 H3 H4 H5 (q & E & Hnd & Hq) H7]. split_and!; [constructor; try done; by exists q | | done|].
  { eapply later_trans; [by apply (same_later s s1)|]. eapply later_trans; [apply ext_later; exact He2 | by apply same_later]. }
  cbn. apply (e_vectors _ _ He2).
Qed.

Abbreviation leads m s := (match m s with Done _ s' | Throw s' => ready s' /\ later s s' | Undefined => False end).

Lemma later_refl s : later s s.
Proof. by apply same_later. Qed.

Lemma batch_ready outer s : ready s -> leads (batch connectCallback messageCallback closeCallback outer tok) s.
Proof.
  intros Hr. assert (leads (if outer then mret tt else multiplexer_poll) s) as H by (destruct outer; [exact (conj Hr (later_refl s)) | by apply poll_ready]).
  unfold batch, mbind, M_bind. destruct ((if outer then mret tt else multiplexer_poll) s) as [[] s1|s1|]; [|done|done]. destruct H as [H L1].
  destruct (accept_ready s1 H) as (s2 & -> & Hi2 & L2 & Hb2 & before & l & after & Hv & Ht & Hbf & Haf & Hl).
  destruct (handleEvents_ready before l after s2 Hi2 Hb2 Hv Ht Hbf Haf Hl) as (s3 & -> & Hi3 & L3 & Hb3 & Hv3).
  destruct (loop_returns s3 Hi3) as (s4 & -> & Hi4 & Hu & Hq). split.
  - constructor; rewrite ?Hu; try done. exists before, [], after. split_and!; try done.
  - do 3 (eapply later_trans; [eassumption|]). apply same_later. by rewrite Hu.
Qed.

Lemma run_ready outer l s : ready s -> leads (server_run connectCallback messageCallback closeCallback outer tok l) s.
Proof.
  revert s. induction l as [|k l IH]; intros s Hr; [exact (conj Hr (later_refl s))|]. cbn [server_run]. unfold mbind, M_bind.
  assert (leads (command_run connectCallback messageCallback closeCallback outer tok k) s) as H by (destruct k; [by apply batch_ready | by apply poll_ready]).
  destruct (command_run _ _ _ _ _ _ _) as [a s1|s1|]; [|done|done]. destruct H as [H1 L1]. specialize (IH s1 H1).
  destruct (server_run _ _ _ _ _ _ _) as [b s2|s2|]; [| |done]; destruct IH; (split; [done | by eapply later_trans]).
Qed.
End proofs.

(** ** Runs of a server *)

(** What a connection guarantees, where [ovf] says that a buffer had to hold more than it can. *)
Record connection_ok (ovf : bool) (c : Context) : Prop := {
  cn_close : closes (sock c) = if bool_decide (_nState c = DISCONNECTED) then 1%nat else 0%nat;
  cn_input : received (sock c) = consumed (sock c) ++ content (input c);
  cn_output : ovf = false -> overtaken (sock c) = false -> accepted (sock c) = wire (sock c) ++ content (output c);
  cn_fin : (fins (sock c) <= 1)%nat /\ (fins (sock c) = 1%nat -> content (output c) = []);
  cn_completion t : FAST_COMPLETE < t < _sendCurrentIndex (sends c) ->
    exists m, marks (sock c) !! Z.to_nat (t - FAST_COMPLETE - 1) = Some m /\ (completion_poll (sends c) t = true <-> m <= flushed (sock c));
  cn_interest : ctl_failed (sock c) = false -> _nState c = CONNECTED ->
    exists i, interest (sock c) = Some i /\ has i POLLIN = true /\ has i POLLOUT = true;
  cn_closed : _nState c = DISCONNECTED -> interest (sock c) = None;
  cn_info : eventsInfo (mux c) ∈ [78; 82; 77];
}.

Lemma upto_above f l m : Forall (fun n => 0 < n) l -> m ∈ upto f l -> f < m.
Proof.
  revert f. induction l as [|x l IH]; intros f Hl Hm; cbn [upto] in Hm; [by apply elem_of_nil in Hm|]. apply Forall_cons in Hl as [Hx Hl].
  apply elem_of_cons in Hm as [->|Hm]; [lia|]. specialize (IH (f + x) Hl Hm). lia.
Qed.

Lemma completion_spec m k w t : sends_ok m k w -> FAST_COMPLETE < t < _sendCurrentIndex m ->
  exists n, marks k !! Z.to_nat (t - FAST_COMPLETE - 1) = Some n /\ (completion_poll m t = true <-> n <= flushed k).
Proof.
  intros [(dm & E & Hd & Hc) Hcur Hpos _] Ht. unfold FAST_COMPLETE in *. unfold completion_poll.
  destruct (lookup_lt_is_Some_2 (marks k) (Z.to_nat (t - 1 - 1))) as [n Hn]; [lia|]. exists n. split; [done|]. rewrite Hc, Z.ltb_lt. rewrite E in Hn.
  destruct (decide (Z.to_nat (t - 1 - 1) < length dm)%nat) as [Hlt|Hge].
  - rewrite lookup_app_l in Hn by done. eapply (Forall_lookup_1 _ _ _ _ Hd) in Hn. split; [done | lia].
  - rewrite lookup_app_r in Hn by lia. apply list_elem_of_lookup_2, upto_above in Hn; [|done]. split; lia.
Qed.

Lemma ctx_connection ovf c : ctx_ok ovf c -> connection_ok ovf c.
Proof.
  intros [Hd Hst Hin]. pose proof Hd as [H1 H2 H3 H4 H5 [H6 H7]]. constructor; try done.
  - unfold state_ok in Hst. destruct (_nState c); cbn; apply Hst.
  - split; [done|]. intros Hf. by apply content_nil, H7.
  - intros t. by apply completion_spec with (unread (output c)).
  - intros Hc Hn. exists (_events (mux c)). split; [apply Hin; auto|]. unfold state_ok in Hst. rewrite Hn in Hst. destruct Hst as (-> & _). cbn [_events].
    unfold wanted. by destruct (_ =? 0).
  - intros Hn. unfold state_ok in Hst. rewrite Hn in Hst. apply Hst.
  - assert (_events (mux c) = EVENT_NONE \/ _events (mux c) = wanted (unread (output c))) as H.
    { unfold state_ok in Hst. destruct (_nState c); [left|right| |left]; [by destruct Hst as (-> & _) ..| |by destruct Hst as (-> & _)].
      destruct Hst as ([->|[? _]] & _); [by right | by left]. }
    unfold eventsInfo. rewrite !elem_of_cons. destruct H as [-> | ->]; [by left|]. unfold wanted. destruct (_ =? 0); [by right; left | by right; right; left].
Qed.

Section theorems.
Context {W : Type}.
Abbreviation System := (Sys (F := fn) (U := Net (W := W))).

(** A server with its own token, on a new multiplexer. *)
Definition boot (connectCallback messageCallback closeCallback : option (nat -> act (W := W))) (outer : bool) (l : list command) : M unit :=
  t ← token; server_run connectCallback messageCallback closeCallback outer t l.

Lemma boot_ready ws rs cs accs es (w : W) : exists s, token (Net_new ws rs cs accs es w) = Done 0 s /\ ready 0 s.
Proof.
  eexists. split; [done|]. constructor; try done.
  - constructor.
    + intros p c Hc. by destruct p.
    + apply pool_new_ok.
    + intros p. split; [vm_compute; by intros H%elem_of_nil | by intros [c Hc]; destruct p].
    + vm_compute. constructor.
    + cbn. lia.
    + exists []. split_and!; [done | constructor | constructor].
    + done.
  - exists [], [], []. split_and!; try done; constructor.
Qed.


(** C34: the end of a connection.  From any state that a program reaches, whatever it does next: after the
    sending side of a connection was shut down nothing is written to it any more; and when
    [shutdown] was called while bytes waited, it is never shut down, also when they have left: the
    poll that should do it asks for the state CONNECTED, which [shutdown] has left before. *)
Theorem shutdown_lost (connectCallback messageCallback closeCallback : option (nat -> act (W := W))) (outer : bool) (l l' : list command)
    (ws : list write_answer) (rs : list read_answer) (cs : list bool) (accs : list (option Z)) (es : list wait_answer) (w : W) (s : System) :
  own_callback connectCallback -> own_callback messageCallback -> own_callback closeCallback ->
  boot connectCallback messageCallback closeCallback outer l (Net_new ws rs cs accs es w) = Done tt s ->
  match server_run connectCallback messageCallback closeCallback outer 0 l' s with
  | Done _ s' | Throw s' => forall p c c', find_ctx (user s) p = Some c -> find_ctx (user s') p = Some c' ->
      (fins (sock c) = 1%nat -> wire (sock c') = wire (sock c) /\ fins (sock c') = 1%nat) /\
      (_nState c = DISCONNECTING \/ _nState c = DISCONNECTED -> fins (sock c') = fins (sock c))
  | Undefined => False
  end.
Proof.
  intros H1 H2 H3 Hb. destruct (boot_ready ws rs cs accs es w) as (s0 & E & Hr). unfold boot in Hb. rewrite (M_bind_Done _ _ _ _ _ E) in Hb.
  pose proof (run_ready 0 connectCallback messageCallback closeCallback H1 H2 H3 outer l s0 Hr) as H. rewrite Hb in H. destruct H as [H _].
  pose proof (run_ready 0 connectCallback messageCallback closeCallback H1 H2 H3 outer l' s H) as H'.
  destruct (server_run _ _ _ _ _ l' _) as [a s'|s'|]; [| |done]; destruct H' as [_ L]; intros p c c' Hp Hp'; pose proof (l_keeps _ _ L p c c' Hp Hp') as K;
    (split; [apply (k_wire _ _ K) | apply (k_fin _ _ K)]).
Qed.

(** An error that epoll reports with data to read, as after a reset by the peer, does not close a
    connection: the handler throws, and the exception is stored, at every report. *)
Theorem error_keeps_connection (messageCallback closeCallback : option (nat -> act (W := W))) (p : nat) (c : Context) (revent : Z) (s : System) :
  find_ctx (user s) p = Some c -> has revent POLLERR = true -> has revent POLLIN = true ->
  try_catch p (handleEvent messageCallback closeCallback p revent) s = Done tt (set_user (put_ctx p (with_exception true c) (user s)) s).
Proof.
  intros Hp He Hi. assert (has revent (Z.lor POLLERR POLLNVAL) = true) as Hn.
  { unfold has in *. rewrite negb_true_iff, Z.eqb_neq in *. rewrite Z.land_lor_distr_r. intros E. apply He. by apply Z.lor_eq_0_iff in E as [? _]. }
  unfold try_catch, handleEvent, mbind, M_bind. rewrite Hi, andb_false_r, Hn. cbn [mret M_ret]. unfold mret, M_ret, handleError, throw.
  unfold modify_ctx, modify, mbind, M_bind. by rewrite (get_done p c s Hp).
Qed.
End theorems.

(** ** Examples *)

(** A server that sends back what it gets. *)
Definition echo (p : nat) : act (W := unit) := ATake p 100 (fun bs => ASend p bs (fun _ => AEnd)).

(** A client connects and sends three bytes, of which the first is sent back at once, and closes
    after it got the others. *)
Definition echo_run : out (F := fn) (U := Net (W := unit)) unit :=
  boot None (Some echo) None false [Batch; Batch; Batch; Batch]
    (Net_new [Room 1; Room 5] [Arrives [1; 2; 3]; Arrives []] [] [Some 7] [Ready []; Ready [(0%nat, 1)]; Ready [(0%nat, 4)]; Ready [(0%nat, 1)]] tt).

Lemma echo_own : own_callback (Some echo).
Proof. intros p. cbn. auto. Qed.

Definition view (c : Context) : NetworkState.t * list Z * list Z * nat * nat :=
  (_nState c, received (sock c), wire (sock c), fins (sock c), closes (sock c)).


(** A callback that calls [shutdown] while bytes of a send wait: they are sent later, the connection
    is not shut down. *)
Definition farewell (p : nat) : act (W := unit) := ASend p [1; 2; 3] (fun _ => AShutdown p AEnd).

Lemma farewell_own : own_callback (Some farewell).
Proof. intros p. cbn. auto. Qed.

Lemma shutdown_lost_witness : exists s s' c', boot (Some farewell) None None false [Batch] (Net_new [Room 1; Room 5] [] [] [Some 7] [Ready []; Ready [(0%nat, 4)]] tt) = Done tt s /\
  server_run (Some farewell) None None false 0 [Batch] s = Done tt s' /\ find_ctx (user s') 0 = Some c' /\ view c' = (DISCONNECTING, [], [1; 2; 3], 0%nat, 0%nat) /\
  content (output c') = [].
Proof.
  pose proof (shutdown_lost (Some farewell) None None false [Batch] [Batch] [Room 1; Room 5] [] [] [Some 7] [Ready []; Ready [(0%nat, 4)]] tt) as H.
  set (r := boot _ _ _ _ _ _) in *.
  assert (match r with Done _ s => option_map view (find_ctx (user s) 0) = Some (DISCONNECTING, [], [1], 0%nat, 0%nat) | _ => False end) as E by (vm_compute; reflexivity).
  assert (match r with Done _ s => match server_run (Some farewell) None None false 0 [Batch] s with
      Done _ s' => option_map view (find_ctx (user s') 0) = Some (DISCONNECTING, [], [1; 2; 3], 0%nat, 0%nat) /\ (content ∘ output <$> find_ctx (user s') 0) = Some [] | _ => False end | _ => False end) as E'
    by (vm_compute; split; reflexivity).
  clearbody r. destruct r as [[] s|s|]; [|done|done]. specialize (H s farewell_own I I eq_refl). destruct (server_run _ _ _ _ _ _ s) as [[] s'|s'|] eqn:Er; [|done|done].
  destruct E' as [E' Ec']. destruct (find_ctx (user s) 0) as [c|] eqn:Ec; [|done]. destruct (find_ctx (user s') 0) as [c'|] eqn:Ecc; [|done]. cbn in E', Ec'.
  destruct (H 0%nat c c' Ec Ecc) as [_ Hfin]. exists s, s', c'. split_and!; [done | exact Er | done | congruence | congruence].
Defined.

Lemma error_keeps_connection_witness : exists s c, find_ctx (user s) 0 = Some c /\
  try_catch 0 (handleEvent (Some echo) None 0 25) s = Done tt (set_user (put_ctx 0 (with_exception true c) (user s)) s).
Proof.
  exists (mkSys [] [] None (mkNet [Some (Context_new 0 7)] Pool_new [[]] 1 [] [] [] [] [] [] false false tt) []), (Context_new 0 7). split; [reflexivity|].
  apply (error_keeps_connection (Some echo) None 0 (Context_new 0 7) 25); reflexivity.
Defined.

(** A second send can overtake the first: after one byte of [1; 2; 3] was written the kernel has
    room again, and [4; 5] is written before the bytes that wait. *)
Definition hasty (p : nat) : act (W := unit) := ASend p [1; 2; 3] (fun _ => ASend p [4; 5] (fun _ => AEnd)).

Theorem send_overtakes : exists s c, boot (Some hasty) None None false [Batch; Batch] (Net_new [Room 1; Room 5; Room 5] [] [] [Some 7] [Ready []; Ready [(0%nat, 4)]] tt) = Done tt s /\
  find_ctx (user s) 0 = Some c /\ accepted (sock c) = [1; 2; 3; 4; 5] /\ wire (sock c) = [1; 4; 5; 2; 3] /\ content (output c) = [].
Proof.
  set (r := boot _ _ _ _ _ _).
  assert (match r with Done _ s => (fun c => (accepted (sock c), wire (sock c), content (output c))) <$> find_ctx (user s) 0 = Some ([1; 2; 3; 4; 5], [1; 4; 5; 2; 3], []) | _ => False end) as E
    by (vm_compute; reflexivity).
  clearbody r. destruct r as [[] s|s|]; [|done|done]. destruct (find_ctx (user s) 0) as [c|] eqn:Ec; [|done]. cbn in E. exists s, c. split_and!; congruence.
Qed.

(** A batch of a server whose multiplexer another thread polls after the server has fetched its events. *)
Definition racing_batch (connectCallback messageCallback closeCallback : option (nat -> act (W := unit))) : M (F := fn) (U := Net (W := unit)) unit :=
  accept connectCallback 0 ≫= fun _ =>
  swap_events 0 ≫= fun _ =>
  multiplexer_poll ≫= fun _ =>
  n ← net;
  handle_each messageCallback closeCallback (_eventBuffer n) ≫= fun _ =>
  modify (set_eventBuffer []) ≫= fun _ =>
  looper_loop.

(** Then an event can wait for a context that is closed and whose place a new connection takes: the
    context is destroyed when the server accepts, and the handler uses it.  The seventeenth of the
    connections is one whose place is used again at once. *)
Theorem outer_poll_race : exists s s',
  (boot None None None true (replicate 17 Batch ++ [Poll]) ≫= fun _ => racing_batch None None None)
    (Net_new [] [] [] (replicate 17 (Some 7) ++ [None; Some 7]) [Ready [(16%nat, 16)]; Ready [(16%nat, 16)]] tt) = Done tt s /\
  accept None 0 s = Done tt s' /\ _evnetVectors (user s') = [[(16%nat, 16)]] /\ find_ctx (user s') 16 = None /\ batch None None None true 0 s = Undefined.
Proof.
  set (r := (boot _ _ _ _ _ ≫= _) _).
  assert (match r with Done _ s => match accept None 0 s with Done _ s' => _evnetVectors (user s') = [[(16%nat, 16)]] /\ find_ctx (user s') 16 = None /\
    batch None None None true 0 s = Undefined | _ => False end | _ => False end) as E by (vm_compute; split_and!; reflexivity).
  clearbody r. destruct r as [[] s|s|]; [|done|done]. destruct (accept None 0 s) as [[] s'|s'|] eqn:Ea; [|done|done]. by exists s, s'.
Qed.

(** The events that are registered: reading asks epoll for POLLIN and POLLOUT, writing for POLLPRI. *)
Theorem event_codes : EVENT_READ = Z.lor POLLIN POLLOUT /\ EVENT_WRITE = POLLPRI.
Proof. done. Qed.

(** The Completion of a send that was not accepted, which should never hold, holds at once. *)
Theorem invalid_completes {W} (connectCallback messageCallback closeCallback : option (nat -> act (W := W))) (outer : bool) (l : list command)
    (ws : list write_answer) (rs : list read_answer) (cs : list bool) (accs : list (option Z)) (es : list wait_answer) (w : W) (s : Sys) :
  own_callback connectCallback -> own_callback messageCallback -> own_callback closeCallback ->
  boot connectCallback messageCallback closeCallback outer l (Net_new ws rs cs accs es w) = Done tt s ->
  forall p c, find_ctx (user s) p = Some c -> completion_poll (sends c) INVALID = true.
Proof.
  intros H1 H2 H3 Hb p c Hp. destruct (boot_ready ws rs cs accs es w) as (s0 & E & Hr). unfold boot in Hb. rewrite (M_bind_Done _ _ _ _ _ E) in Hb.
  pose proof (run_ready 0 connectCallback messageCallback closeCallback H1 H2 H3 outer l s0 Hr) as H. rewrite Hb in H. destruct H as [[Hi _ _ _] _].
  destruct (i_ctx _ _ Hi p c Hp) as [[[_ _ _ [(dm & _ & _ & Hc) _ _ _] _ _] _ _] _]. unfold completion_poll, INVALID. rewrite Hc. apply Z.ltb_lt. lia.
Qed.
