(* ===== verification/LogMeta.v ===== *)
(** * The compile-time part of the logger

    Namespace dlog::meta of src/net/fluent/include/logger/Log.hpp: the sort of types and the
    tables of numerals, which templates compute.  An instantiation that does not exist is
    [None].  Characters are their codes. *)

From S2P Require Import Prelude.
From stdpp Require Import list sorting.
#[local] Open Scope Z_scope.

(** ** The sort of types *)

Section sort.
(** The types, and what [Elem<T>::value] registers for them. *)
Context {T : Type} `{EqDecision T} (value : T -> Z).

Fixpoint MinValue (t : T) (ts : list T) : Z :=
  match ts with [] => value t | u :: us => Z.min (value t) (MinValue u us) end.

Fixpoint MinType (t : T) (ts : list T) : T :=
  match ts with [] => t | u :: us => if value t <=? MinValue u us then t else MinType u us end.

Fixpoint Find1 (cur : Z) (t : T) (us : list T) : option Z :=
  match us with [] => None | u :: us => if bool_decide (t = u) then Some cur else Find1 (cur + 1) t us end.

Definition Find (t : T) (us : list T) : option Z := Find1 0 t us.

Fixpoint Select2 (n : Z) (ts : list T) : option (list T) :=
  match ts with
  | [] => None
  | t :: ts => if n =? 0 then None else if n =? 1 then Some [t] else r ← Select2 (n - 1) ts; Some (t :: r)
  end.

Fixpoint Select1 (start stop cur : Z) (ts : list T) : option (list T) :=
  match ts with
  | [] => None
  | _ :: ts' => if cur =? start then Select2 (stop - start + 1) ts else Select1 start stop (cur + 1) ts'
  end.

Definition Select (l r : Z) (ts : list T) : option (list T) :=
  if (l <=? r) && (0 <=? l) && (r <=? Z.of_nat (length ts)) then Select1 l r 0 ts else None.

(** Sort1 on a tuple and Sort2 on the position of a minimum; the depth of the recursion is the
    number of types. *)
Fixpoint Sort1 (depth : nat) (ts : list T) : option (list T) :=
  match depth, ts with
  | S depth, [t] => Some [t]
  | S depth, t :: us =>
      let MaxIdx := Z.of_nat (length us) in
      MinPos ← Find (MinType t us) ts;
      if MinPos =? 0 then
        rest ← Select 1 MaxIdx ts; sorted ← Sort1 depth rest; Some (t :: sorted)
      else if MinPos =? MaxIdx then
        m ← Select MaxIdx MaxIdx ts; rest ← Select 0 (MaxIdx - 1) ts;
        sorted ← Sort1 depth rest; Some (m ++ sorted)
      else if (MinPos + 1 <=? MaxIdx) && (0 <=? MinPos - 1) then
        m ← Select MinPos MinPos ts;
        left ← Select 0 (MinPos - 1) ts; right ← Select (MinPos + 1) MaxIdx ts;
        sorted ← Sort1 depth (left ++ right); Some (m ++ sorted)
      else None
  | _, _ => None
  end.

Definition Sort (ts : list T) : option (list T) := Sort1 (length ts) ts.

(** *** It sorts *)

Lemma MinType_spec t ts :
  MinType t ts ∈ t :: ts /\ value (MinType t ts) = MinValue t ts /\ Forall (fun u => MinValue t ts <= value u) (t :: ts).
Proof.
  revert t. induction ts as [|u us IH]; intros t; cbn [MinType MinValue].
  { split_and!; [by left | done |]. apply Forall_singleton. lia. }
  destruct (IH u) as (H1 & H2 & H3). destruct (Z.leb_spec (value t) (MinValue u us)).
  - split_and!; [by left | lia |]. apply Forall_cons. split; [lia|]. eapply Forall_impl; [exact H3|]. cbn. lia.
  - split_and!; [by right | lia |]. apply Forall_cons. split; [lia|]. eapply Forall_impl; [exact H3|]. cbn. lia.
Qed.

Lemma Find1_spec cur t us : t ∈ us -> exists pre post, us = pre ++ t :: post /\ Find1 cur t us = Some (cur + Z.of_nat (length pre)).
Proof.
  revert cur. induction us as [|u us IH]; intros cur Ht; [by apply elem_of_nil in Ht|]. cbn [Find1].
  case_bool_decide as E.
  - exists [], us. subst u. split; [done|]. f_equal. cbn. lia.
  - destruct (IH (cur + 1)) as (pre & post & -> & ->); [by apply elem_of_cons in Ht as [|]|].
    exists (u :: pre), post. split; [done|]. f_equal. cbn. lia.
Qed.

Lemma Select2_spec w rest : w <> [] -> Select2 (Z.of_nat (length w)) (w ++ rest) = Some w.
Proof.
  induction w as [|t w IH]; intros Hw; [done|]. cbn [app Select2]. destruct w as [|u w].
  { done. }
  destruct (Z.eqb_spec (Z.of_nat (length (t :: u :: w))) 0); [cbn in *; lia|].
  destruct (Z.eqb_spec (Z.of_nat (length (t :: u :: w))) 1); [cbn in *; lia|].
  replace (Z.of_nat (length (t :: u :: w)) - 1) with (Z.of_nat (length (u :: w))) by (cbn; lia).
  by rewrite IH.
Qed.

Lemma Select1_spec pre w rest cur : w <> [] ->
  Select1 (cur + Z.of_nat (length pre)) (cur + Z.of_nat (length pre) + Z.of_nat (length w) - 1) cur (pre ++ w ++ rest) = Some w.
Proof.
  intros Hw. revert cur. induction pre as [|t pre IH]; intros cur; cbn [app length].
  - destruct w as [|u w]; [done|]. cbn [app Select1]. rewrite (proj2 (Z.eqb_eq _ _)) by lia.
    change (u :: w ++ rest) with ((u :: w) ++ rest).
    replace (_ - _ + 1) with (Z.of_nat (length (u :: w))) by lia. by apply Select2_spec.
  - cbn [Select1]. destruct (Z.eqb_spec cur (cur + Z.of_nat (S (length pre)))); [lia|].
    replace (cur + Z.of_nat (S (length pre))) with (cur + 1 + Z.of_nat (length pre)) by lia. apply IH.
Qed.

Lemma Select_at l r ts pre w rest :
  ts = pre ++ w ++ rest -> w <> [] -> l = Z.of_nat (length pre) -> r = l + Z.of_nat (length w) - 1 -> Select l r ts = Some w.
Proof.
  intros -> Hw -> ->. unfold Select. assert (0 < length w)%nat by (destruct w; cbn in *; [done | lia]).
  rewrite !length_app. rewrite !(proj2 (Z.leb_le _ _)) by lia. apply (Select1_spec pre w rest 0 Hw).
Qed.

(** One step takes out a minimum. *)
Lemma Sort1_step depth t us : us <> [] ->
  exists m pre post, t :: us = pre ++ m :: post /\ Forall (fun u => value m <= value u) (t :: us) /\
    Sort1 (S depth) (t :: us) = (sorted ← Sort1 depth (pre ++ post); Some (m :: sorted)).
Proof.
  intros Hne. destruct (MinType_spec t us) as (Hin & Hv & Hmin). set (m := MinType t us) in *.
  assert (MinType t us = m) as Em by done. clearbody m.
  destruct (Find1_spec 0 m (t :: us) Hin) as (pre & post & E & Ef).
  exists m, pre, post. split_and!; [done | by rewrite Hv |]. cbn [Sort1]. destruct us as [|u us]; [done|].
  unfold Find. rewrite Em, Ef, Z.add_0_l. cbn [mbind option_bind].
  set (us' := u :: us) in *. assert (length pre + length post = length us')%nat as El
    by (apply (f_equal length) in E; rewrite length_app in E; cbn in *; lia).
  destruct (Z.eqb_spec (Z.of_nat (length pre)) 0) as [E0|E0].
  { destruct pre; [|done]. injection E as Et E. subst t. cbn [app length] in *.
    rewrite (Select_at 1 (Z.of_nat (length us')) _ [m] us' []); [by rewrite E | | done | done | lia].
    cbn [app]. by rewrite app_nil_r. }
  destruct (Z.eqb_spec (Z.of_nat (length pre)) (Z.of_nat (length us'))) as [E1|E1].
  { destruct post; [|cbn in *; lia]. rewrite E, app_nil_r, <- E1.
    rewrite (Select_at (Z.of_nat (length pre)) (Z.of_nat (length pre)) _ pre [m] []) by (done || (cbn; lia)).
    cbn [mbind option_bind].
    rewrite (Select_at 0 (Z.of_nat (length pre) - 1) _ [] pre [m]); [done | done | by destruct pre | done | cbn; lia]. }
  clearbody us'.
  rewrite !(proj2 (Z.leb_le _ _)) by lia. cbn [andb]. rewrite E.
  rewrite (Select_at (Z.of_nat (length pre)) (Z.of_nat (length pre)) _ pre [m] post) by (done || (cbn; lia)).
  cbn [mbind option_bind].
  rewrite (Select_at 0 (Z.of_nat (length pre) - 1) _ [] pre (m :: post)); [|done | by destruct pre | done | cbn; lia].
  cbn [mbind option_bind].
  rewrite (Select_at (Z.of_nat (length pre) + 1) (Z.of_nat (length us')) _ (pre ++ [m]) post []); [done | | | |].
  - by rewrite app_nil_r, <- app_assoc.
  - by destruct post; cbn in *; [lia|].
  - rewrite length_app. cbn. lia.
  - lia.
Qed.

Lemma Sort1_spec n ts : length ts = n -> ts <> [] ->
  exists ts', Sort1 n ts = Some ts' /\ ts' ≡ₚ ts /\ Sorted (fun a b => value a <= value b) ts'.
Proof.
  revert ts. induction n as [|n IH]; intros [|t us] Hn Hne; try done. injection Hn as Hn.
  destruct us as [|u us].
  { exists [t]. subst n. split_and!; [done | done | by repeat constructor]. }
  destruct (Sort1_step n t (u :: us)) as (m & pre & post & E & Hmin & ->); [done|].
  assert (length (pre ++ post) = n) as El.
  { apply (f_equal length) in E. rewrite length_app in *. cbn in *. lia. }
  destruct (IH (pre ++ post) El) as (ts' & -> & Hp & Hs); [by intros H; rewrite H in El; subst n|].
  exists (m :: ts'). cbn. split_and!; [done | rewrite E, Hp; by rewrite Permutation_middle |].
  constructor; [done|]. destruct ts' as [|x ts']; constructor.
  rewrite Forall_forall in Hmin. apply Hmin. rewrite E. apply elem_of_app.
  assert (x ∈ pre ++ post) as Hx by (rewrite <- Hp; by left). apply elem_of_app in Hx as [|]; [by left | by right; right].
Qed.
End sort.

(** ** Numerals

    A MetaString is the list of its characters. *)

Definition iabs (I : Z) : Z := if I <? 0 then - I else I.

(** [length(I)]; an [int] has at most ten digits. *)
Fixpoint length_from (depth : nat) (I : Z) : nat :=
  match depth with
  | O => O
  | S depth => if I <? 0 then S (length_from depth (- I)) else if I <? 10 then 1 else S (length_from depth (Z.quot I 10))
  end.
Definition num_length (I : Z) : nat := length_from 12 I.

Fixpoint NumericMetaStringBuilder (n : nat) (I : Z) (chars : list Z) : option (list Z) :=
  match n with
  | O => None
  | 1%nat => Some (48 + I :: chars)
  | 2%nat => Some ((if I <? 0 then 45 else 48 + Z.quot I 10) :: 48 + Z.rem (iabs I) 10 :: chars)
  | S n => NumericMetaStringBuilder n (Z.quot I 10) (48 + Z.rem (iabs I) 10 :: chars)
  end.

Definition Numeric (I : Z) : option (list Z) := NumericMetaStringBuilder (num_length I) I [0].

(** [Continuous<N, C, Eof>] *)
Definition Continuous (n : nat) (c : Z) (eof : bool) : list Z := replicate n c ++ (if eof then [0] else []).

Definition Whitespace (n : nat) : list Z := Continuous n 32 true.

Definition LeadingZeroNumeric (I : Z) (P : nat) : option (list Z) :=
  if (num_length I <=? P)%nat && (0 <=? I) then
    n ← Numeric I; Some (Continuous (P - num_length I) 48 false ++ n)
  else None.

Fixpoint ArrayBuilderImpl (P : nat) (Is : list Z) : option (list Z) :=
  match Is with
  | [] => None
  | [i] => LeadingZeroNumeric i P
  | i :: Is => a ← LeadingZeroNumeric i P; b ← ArrayBuilderImpl P Is; Some (a ++ b)
  end.

Fixpoint ArrayBuilderRange (depth : nat) (first last : Z) (P : nat) (flag : bool) : option (list Z) :=
  match depth with
  | O => None
  | S depth =>
      if flag then ArrayBuilderImpl P (seqZ first (last - first))
      else
        a ← ArrayBuilderRange depth first (first + 500) P true;
        b ← ArrayBuilderRange depth (first + 500) last P (last - first <=? 1000);
        Some (a ++ b)
  end.

(** The characters of [LeadingZeroNumericArray<N, P>::buf], and a row of it. *)
Definition ArrayBuilder (N : Z) (P : nat) : option (list Z) :=
  if negb (N =? 0) && (num_length (N - 1) <=? P)%nat then ArrayBuilderRange (S (Z.to_nat N)) 0 N P (N <=? 500) else None.

Definition array_row (N : Z) (P : nat) (i : Z) : res (list Z) :=
  match ArrayBuilder N P with
  | None => Ub AssertFailed
  | Some chars =>
      if (0 <=? i) && (i <? N)
      then Ok (take (P + 1) (drop (Z.to_nat i * (P + 1)) chars)) else Ub ArrayIndex
  end.

(** *** What they are *)

(** The [k] last decimal digits of a number. *)
Fixpoint pad (k : nat) (n : Z) : list Z :=
  match k with O => [] | S k => pad k (n / 10) ++ [48 + n mod 10] end.

(** Reading digits. *)
Definition decimal_of (ds : list Z) : Z := foldl (fun v c => v * 10 + (c - 48)) 0 ds.

Lemma length_pad k n : length (pad k n) = k.
Proof. revert n. induction k as [|k IH]; intros n; [done|]. cbn [pad]. rewrite length_app, IH. cbn. lia. Qed.

Lemma decimal_pad k n : decimal_of (pad k n) = n mod 10 ^ Z.of_nat k.
Proof.
  revert n. induction k as [|k IH]; intros n; [by rewrite Z.mod_1_r|]. cbn [pad]. unfold decimal_of in *.
  rewrite foldl_app. cbn [foldl]. rewrite IH, Nat2Z.inj_succ, Z.pow_succ_r by lia.
  rewrite Z.rem_mul_r; [lia | done | apply Z.pow_pos_nonneg; lia].
Qed.

Lemma pad_digits k n : Forall (fun c => 48 <= c <= 57) (pad k n).
Proof.
  revert n. induction k as [|k IH]; intros n; [apply List.Forall_nil|]. cbn [pad]. apply Forall_app. split; [done|].
  apply Forall_singleton. pose proof (Z.mod_pos_bound n 10). lia.
Qed.

Lemma pad_zero k : pad k 0 = replicate k 48.
Proof. induction k as [|k IH]; [done|]. cbn [pad]. change (0 / 10) with 0. rewrite IH. by rewrite <- replicate_cons_app. Qed.

Lemma pad_leading j k n : 0 <= n < 10 ^ Z.of_nat k -> pad (j + k) n = replicate j 48 ++ pad k n.
Proof.
  revert n. induction k as [|k IH]; intros n Hn.
  - assert (n = 0) as -> by (cbn in Hn; lia). by rewrite Nat.add_0_r, pad_zero, app_nil_r.
  - rewrite Nat.add_succ_r. cbn [pad]. rewrite IH, app_assoc; [done|].
    rewrite Nat2Z.inj_succ, Z.pow_succ_r in Hn by lia. split; [apply Z.div_pos; lia|]. apply Z.div_lt_upper_bound; lia.
Qed.

Lemma builder_pad k I chars : (0 < k)%nat -> 0 <= I < 10 ^ Z.of_nat k ->
  NumericMetaStringBuilder k I chars = Some (pad k I ++ chars).
Proof.
  revert I chars. induction k as [|k IH]; intros I chars Hk HI; [lia|].
  assert (iabs I = I) as Ha by (unfold iabs; destruct (Z.ltb_spec I 0); lia).
  assert (0 <= I / 10 < 10 ^ Z.of_nat k) as Hd.
  { rewrite Nat2Z.inj_succ, Z.pow_succ_r in HI by lia. split; [apply Z.div_pos; lia|]. apply Z.div_lt_upper_bound; lia. }
  destruct k as [|[|k]].
  - cbn [NumericMetaStringBuilder pad app]. do 2 f_equal. rewrite Z.mod_small; [done|]. change (10 ^ Z.of_nat 1) with 10 in HI. lia.
  - cbn [NumericMetaStringBuilder]. destruct (Z.ltb_spec I 0); [lia|]. rewrite Ha, Z.quot_div_nonneg, Z.rem_mod_nonneg by lia. cbn [pad app].
    do 3 f_equal. rewrite (Z.mod_small (I / 10)); [done|]. change (10 ^ Z.of_nat 1) with 10 in Hd. lia.
  - change (NumericMetaStringBuilder (S (S (S k))) I chars) with
      (NumericMetaStringBuilder (S (S k)) (Z.quot I 10) (48 + Z.rem (iabs I) 10 :: chars)).
    rewrite Ha, Z.quot_div_nonneg, Z.rem_mod_nonneg by lia. rewrite IH by (done || lia).
    change (pad (S (S (S k))) I) with (pad (S (S k)) (I / 10) ++ [48 + I mod 10]). by rewrite <- !app_assoc.
Qed.

Lemma length_from_spec depth I : 0 <= I < 10 ^ Z.of_nat depth ->
  (0 < depth)%nat -> (0 < length_from depth I <= depth)%nat /\ I < 10 ^ Z.of_nat (length_from depth I) /\
  ((1 < length_from depth I)%nat -> 10 ^ (Z.of_nat (length_from depth I) - 1) <= I).
Proof.
  revert I. induction depth as [|depth IH]; intros I HI Hd; [lia|]. cbn [length_from].
  destruct (Z.ltb_spec I 0); [lia|]. destruct (Z.ltb_spec I 10); [split_and!; [lia | lia | cbn; lia | lia]|].
  rewrite Z.quot_div_nonneg by lia. rewrite Nat2Z.inj_succ, Z.pow_succ_r in HI by lia.
  assert (0 <= I / 10 < 10 ^ Z.of_nat depth) as Hq by (split; [apply Z.div_pos; lia | apply Z.div_lt_upper_bound; lia]).
  assert (0 < depth)%nat as Hd' by (destruct depth; [cbn in HI; lia | lia]).
  destruct (IH (I / 10) Hq Hd') as ([H1 H2] & H3 & H4). set (l := length_from depth (I / 10)) in *.
  pose proof (Z.div_mod I 10 ltac:(lia)). pose proof (Z.mod_pos_bound I 10 ltac:(lia)).
  rewrite Nat2Z.inj_succ, Z.pow_succ_r by lia. split_and!; [lia | lia | lia |].
  intros _. replace (Z.succ (Z.of_nat l) - 1) with (Z.of_nat l) by lia.
  destruct (decide (l = 1)%nat) as [->|]; [cbn; lia|].
  replace (Z.of_nat l) with (Z.succ (Z.of_nat l - 1)) by lia. rewrite Z.pow_succ_r by lia. specialize (H4 ltac:(lia)). lia.
Qed.

Lemma num_length_spec I : 0 <= I < 2 ^ 31 ->
  (0 < num_length I)%nat /\ I < 10 ^ Z.of_nat (num_length I) /\
  (forall k, (0 < k)%nat -> I < 10 ^ Z.of_nat k -> (num_length I <= k)%nat).
Proof.
  intros HI. destruct (length_from_spec 12 I) as ([H1 _] & H2 & H3); [cbn; lia | lia|]. fold (num_length I) in *.
  split_and!; [done | done |]. intros k Hk Hlt. destruct (decide (num_length I <= k)%nat); [done|].
  specialize (H3 ltac:(lia)). assert (10 ^ Z.of_nat k <= 10 ^ (Z.of_nat (num_length I) - 1)) by (apply Z.pow_le_mono_r; lia). lia.
Qed.

(** The numeral of a number, and its character zero. *)
Lemma Numeric_spec I : 0 <= I < 2 ^ 31 -> Numeric I = Some (pad (num_length I) I ++ [0]).
Proof. intros HI. destruct (num_length_spec I HI) as (H1 & H2 & _). apply builder_pad; [done | lia]. Qed.

Lemma LeadingZeroNumeric_spec I P : 0 <= I < 2 ^ 31 -> (0 < P)%nat -> I < 10 ^ Z.of_nat P ->
  LeadingZeroNumeric I P = Some (pad P I ++ [0]).
Proof.
  intros HI HP Hlt. destruct (num_length_spec I HI) as (H1 & H2 & H3). specialize (H3 P HP Hlt).
  unfold LeadingZeroNumeric. rewrite (proj2 (Nat.leb_le _ _)) by done. rewrite (proj2 (Z.leb_le _ _)) by lia. cbn [andb].
  rewrite Numeric_spec by done. cbn [mbind option_bind]. unfold Continuous. rewrite app_nil_r, app_assoc.
  rewrite <- pad_leading by lia. do 3 f_equal. lia.
Qed.

Definition row (P : nat) (I : Z) : list Z := pad P I ++ [0].

Lemma ArrayBuilderImpl_spec P Is : Is <> [] -> (0 < P)%nat -> Forall (fun I => 0 <= I < 2 ^ 31 /\ I < 10 ^ Z.of_nat P) Is ->
  ArrayBuilderImpl P Is = Some (concat (row P <$> Is)).
Proof.
  intros Hne HP H. induction H as [|I Is [HI Hlt] H IH]; [done|]. destruct Is as [|J Is].
  - cbn. rewrite LeadingZeroNumeric_spec by done. by rewrite app_nil_r.
  - change (ArrayBuilderImpl P (I :: J :: Is)) with
      (a ← LeadingZeroNumeric I P; b ← ArrayBuilderImpl P (J :: Is); Some (a ++ b)).
    rewrite LeadingZeroNumeric_spec by done. cbn [mbind option_bind]. by rewrite IH.
Qed.

Lemma ArrayBuilderRange_spec depth first last P flag :
  0 <= first < last -> last <= 2 ^ 31 -> last <= 10 ^ Z.of_nat P -> (0 < P)%nat ->
  (flag = false -> 500 < last - first) -> (Z.to_nat (last - first) < depth)%nat ->
  ArrayBuilderRange depth first last P flag = Some (concat (row P <$> seqZ first (last - first))).
Proof.
  intros H1 H2 H3 HP. revert first flag H1. induction depth as [|depth IH]; intros first flag H1 Hf Hd; [lia|].
  cbn [ArrayBuilderRange]. destruct flag.
  - apply ArrayBuilderImpl_spec; [|done|].
    + intros E%(f_equal length). rewrite length_seqZ in E. cbn in E. lia.
    + apply Forall_forall. intros I HI%elem_of_seqZ. lia.
  - specialize (Hf eq_refl).
    destruct depth as [|depth]; [lia|].
    change (ArrayBuilderRange (S depth) first (first + 500) P true) with (ArrayBuilderImpl P (seqZ first (first + 500 - first))).
    rewrite ArrayBuilderImpl_spec.
    + cbn [mbind option_bind]. rewrite IH; [|lia| |lia].
      * cbn [mbind option_bind]. f_equal. rewrite <- concat_app, <- fmap_app. do 2 f_equal.
        replace (last - first) with (500 + (last - (first + 500))) by lia. rewrite seqZ_app by lia.
        do 2 f_equal; lia.
      * intros E%Z.leb_gt. lia.
    + intros E%(f_equal length). rewrite length_seqZ in E. cbn in E. lia.
    + done.
    + apply Forall_forall. intros I HI%elem_of_seqZ. lia.
Qed.

Lemma row_of_concat {A} (ls : list (list A)) w i x :
  Forall (fun l => length l = w) ls -> ls !! i = Some x -> take w (drop (i * w) (concat ls)) = x.
Proof.
  intros H. revert i. induction H as [|l ls Hl H IH]; intros i Hi; [done|]. destruct i as [|i].
  - injection Hi as ->. cbn [concat Nat.mul]. by rewrite drop_0, take_app_length'.
  - cbn [concat Nat.mul]. rewrite drop_app_ge by lia. replace (w + i * w - length l)%nat with (i * w)%nat by lia. by apply IH.
Qed.

(** The row [i] of a table is the numeral of [i] with leading zeros. *)
Lemma array_row_spec N P i : 0 < N <= 2 ^ 31 -> N <= 10 ^ Z.of_nat P -> (0 < P)%nat ->
  array_row N P i = if (0 <=? i) && (i <? N) then Ok (row P i) else Ub ArrayIndex.
Proof.
  intros H1 H2 HP. unfold array_row, ArrayBuilder. rewrite (proj2 (Z.eqb_neq N 0)) by lia.
  destruct (num_length_spec (N - 1)) as (_ & _ & H3); [lia|]. rewrite (proj2 (Nat.leb_le _ _)) by (apply H3; lia).
  cbn [andb negb]. rewrite ArrayBuilderRange_spec by lia.
  destruct (Z.leb_spec 0 i), (Z.ltb_spec i N); cbn [andb]; try done. f_equal. apply row_of_concat.
  - apply Forall_forall. intros l (j & -> & _)%list_elem_of_fmap. unfold row. by rewrite length_app, length_pad.
  - rewrite list_lookup_fmap, lookup_seqZ_lt by lia. cbn. do 2 f_equal. lia.
Qed.
