(* ===== verification/LogChrono.v ===== *)
(** * Dates and times of the logger

    The struct Chrono of src/net/fluent/include/logger/Log.hpp: the date of a number of days, the
    time of day, and their text, which is kept between calls and updated.  A time point is the
    number of nanoseconds since the epoch. *)

From S2P Require Import Prelude Bytes LogMeta.
From stdpp Require Import list sorting.
#[local] Open Scope Z_scope.

Record Date : Type := mkDate { year : Z; month : Z; day : Z }.
Record Time : Type := mkTime { hour : Z; minute : Z; second : Z; millisecond : Z }.

(** [calDate<int>] *)
Definition calDate (z : Z) : res Date :=
  z ← sint 32 (z + 719468);
  n ← (if 0 <=? z then Ok z else sint 32 (z - 146096));
  let era := Z.quot n 146097 in
  e ← sint 32 (era * 146097);
  e ← sint 32 (z - e);
  let doe := u32 e in
  let yoe := u32 (doe - doe / 1460 + doe / 36524 - doe / 146096) / 365 in
  c ← sint 32 (era * 400);
  y ← sint 32 (s32 yoe + c);
  let doy := u32 (doe - u32 (365 * yoe + yoe / 4 - yoe / 100)) in
  let mp := u32 (5 * doy + 2) / 153 in
  let d := u32 (doy - u32 (153 * mp + 2) / 5 + 1) in
  let m := u32 (mp + (if mp <? 10 then 3 else u32 (- 9))) in
  y ← sint 32 (y + (if m <=? 2 then 1 else 0));
  Ok (mkDate y (s32 m) (s32 d)).

(** Nanoseconds of the units of std::chrono. *)
Definition NS_MILLI : Z := 1000000.
Definition NS_SECOND : Z := 1000 * NS_MILLI.
Definition NS_MINUTE : Z := 60 * NS_SECOND.
Definition NS_HOUR : Z := 60 * NS_MINUTE.
Definition NS_DAY : Z := 24 * NS_HOUR.

(** [duration_cast] to days, whose representation is [int]. *)
Definition days_of (duration : Z) : Z := s32 (Z.quot duration NS_DAY).

Definition getDate (duration : Z) : res Date := calDate (days_of duration).

Definition calTime (duration : Z) : Time :=
  let duration := duration - days_of duration * NS_DAY in
  let h := Z.quot duration NS_HOUR in
  let duration := duration - h * NS_HOUR in
  let m := Z.quot duration NS_MINUTE in
  let duration := duration - m * NS_MINUTE in
  let s := Z.quot duration NS_SECOND in
  let duration := duration - s * NS_SECOND in
  let S := Z.quot duration NS_MILLI in
  mkTime (s32 h) (s32 m) (s32 s) (s32 S).

Definition thisDay (point : Z) : Z := days_of point * NS_DAY.

(** The static variables of [format]. *)
Record Records : Type := mkRecords { dateRecord : list Z; timeRecord : list Z; last : Z }.

(** "1970-01-01" and "00:00:00.000", each with the zero at its end. *)
Definition records0 : Records :=
  mkRecords [49; 57; 55; 48; 45; 48; 49; 45; 48; 49; 0] [48; 48; 58; 48; 48; 58; 48; 48; 46; 48; 48; 48; 0] 0.

(** [std::memcpy(record + off, digits[n], k)] *)
Definition put_digits (rows : Z) (P : nat) (n : Z) (record : list Z) (off : Z) : res (list Z) :=
  r ← array_row rows P n; write_bytes record off (take P r).

Definition update_date (date : Date) (record : list Z) : res (list Z) :=
  r ← put_digits 2050 4 (year date) record 0;
  r ← put_digits 100 2 (month date) r 5;
  put_digits 100 2 (day date) r 8.

Definition update_time (time : Time) (record : list Z) : res (list Z) :=
  r ← put_digits 100 2 (hour time) record 0;
  r ← put_digits 100 2 (minute time) r 3;
  r ← put_digits 100 2 (second time) r 6;
  put_digits 1000 3 (millisecond time) r 9.

(** [format]: the two texts are the records without their last character. *)
Definition format (point : Z) (st : Records) : res (list Z * list Z * Records) :=
  duration ← sint 64 (point - last st);
  date ← getDate point;
  let time := calTime point in
  st ← (if NS_DAY <=? duration
        then r ← update_date date (dateRecord st); Ok (mkRecords r (timeRecord st) (thisDay point))
        else Ok st);
  t ← update_time time (timeRecord st);
  let st := mkRecords (dateRecord st) t (last st) in
  Ok (removelast (dateRecord st), removelast t, st).

(** ** The calendar *)

Definition is_leap (y : Z) : bool := (y mod 4 =? 0) && (negb (y mod 100 =? 0) || (y mod 400 =? 0)).

Definition month_days (leap : bool) (m : Z) : Z :=
  if m =? 2 then (if leap then 29 else 28)
  else if (m =? 4) || (m =? 6) || (m =? 9) || (m =? 11) then 30 else 31.

Definition valid_date (d : Date) : Prop :=
  1 <= month d <= 12 /\ 1 <= day d <= month_days (is_leap (year d)) (month d).

(** Days of the years 1 to [n], and of the months before [m]. *)
Definition years_days (n : Z) : Z := 365 * n + n / 4 - n / 100 + n / 400.
Definition months_days (leap : bool) (m : Z) : Z := foldr Z.add 0 (month_days leap <$> seqZ 1 (m - 1)).

(** The number of a date, counted from 1970-01-01. *)
Definition day_number (d : Date) : Z :=
  years_days (year d - 1) + months_days (is_leap (year d)) (month d) + (day d - 1) - 719162.

(** A year has 365 days, a leap year one more; 1970 starts with day 0. *)
Lemma years_days_step n : years_days n = years_days (n - 1) + 365 + (if is_leap n then 1 else 0).
Proof.
  unfold years_days, is_leap.
  assert (forall k, 0 < k -> n / k = (n - 1) / k + (if n mod k =? 0 then 1 else 0)) as Hs.
  { intros k Hk. pose proof (Z.div_mod n k ltac:(lia)). pose proof (Z.mod_pos_bound n k Hk).
    destruct (Z.eqb_spec (n mod k) 0) as [E|E].
    - assert ((n - 1) / k = n / k - 1) by (symmetry; apply Z.div_unique with (k - 1); nia). lia.
    - assert ((n - 1) / k = n / k) by (symmetry; apply Z.div_unique with (n mod k - 1); nia). lia. }
  rewrite (Hs 4), (Hs 100), (Hs 400) by done.
  assert (n mod 100 = 0 -> n mod 4 = 0) by (clear; intros; Z.to_euclidean_division_equations; lia).
  assert (n mod 400 = 0 -> n mod 100 = 0) by (clear; intros; Z.to_euclidean_division_equations; lia).
  destruct (Z.eqb_spec (n mod 4) 0), (Z.eqb_spec (n mod 100) 0), (Z.eqb_spec (n mod 400) 0); cbn [andb orb negb]; lia.
Qed.

Lemma years_days_era k n : years_days (n + 400 * k) = years_days n + 146097 * k.
Proof.
  unfold years_days. replace (n + 400 * k) with (n + (100 * k) * 4) at 2 by lia.
  replace (n + 400 * k) with (n + (4 * k) * 100) at 2 by lia. replace (n + 400 * k) with (n + k * 400) at 2 by lia.
  rewrite !Z.div_add by done. lia.
Qed.

Lemma is_leap_era k n : is_leap (n + 400 * k) = is_leap n.
Proof.
  unfold is_leap. replace (n + 400 * k) with (n + (100 * k) * 4) at 1 by lia.
  replace (n + 400 * k) with (n + (4 * k) * 100) at 1 by lia. replace (n + 400 * k) with (n + k * 400) at 1 by lia.
  by rewrite !Z.mod_add by done.
Qed.

(** *** The year of a day of an era *)

Definition year_of_era (doe : Z) : Z := (doe - doe / 1460 + doe / 36524 - doe / 146096) / 365.

Lemma year_of_era_mono a b : 0 <= a <= b -> b < 146097 -> year_of_era a <= year_of_era b.
Proof.
  intros [Ha Hab] Hb. assert (forall k : nat, a + Z.of_nat k < 146097 -> year_of_era a <= year_of_era (a + Z.of_nat k)) as H.
  { induction k as [|k IH]; intros Hk; [by rewrite Z.add_0_r|]. etrans; [apply IH; lia|]. unfold year_of_era.
    apply Z.div_le_mono; [done|]. set (c := a + Z.of_nat k) in *. replace (a + Z.of_nat (S k)) with (c + 1) by lia.
    assert (0 <= c < 146096) by lia. clear -H. Z.to_euclidean_division_equations. lia. }
  specialize (H (Z.to_nat (b - a))). rewrite Z2Nat.id in H by lia. replace (a + (b - a)) with b in H by lia. by apply H.
Qed.

Lemma era_year_bounds k : 0 <= k < 400 ->
  year_of_era (years_days k) = k /\ year_of_era (years_days (k + 1) - 1) = k.
Proof.
  intros Hk. pose proof (range_check (fun k => (year_of_era (years_days k) =? k) && (year_of_era (years_days (k + 1) - 1) =? k)) 400
    ltac:(vm_compute; reflexivity) k Hk) as H. cbn beta in H. rewrite andb_true_iff, !Z.eqb_eq in H. done.
Qed.

Lemma years_days_mono a b : a <= b -> years_days a <= years_days b.
Proof.
  intros H. assert (forall k : nat, years_days a <= years_days (a + Z.of_nat k)) as Hk.
  { induction k as [|k IH]; [by rewrite Z.add_0_r|]. rewrite (years_days_step (a + Z.of_nat (S k))).
    replace (a + Z.of_nat (S k) - 1) with (a + Z.of_nat k) by lia. destruct (is_leap _); lia. }
  specialize (Hk (Z.to_nat (b - a))). rewrite Z2Nat.id in Hk by lia. by replace (a + (b - a)) with b in Hk by lia.
Qed.

Lemma year_of_era_spec doe : 0 <= doe < 146097 ->
  0 <= year_of_era doe < 400 /\ years_days (year_of_era doe) <= doe < years_days (year_of_era doe + 1).
Proof.
  intros Hd. assert (forall n : nat, doe < years_days (Z.of_nat n) ->
    exists k, 0 <= k < Z.of_nat n /\ years_days k <= doe < years_days (k + 1)) as He.
  { induction n as [|n IH]; intros Hn; [change (years_days (Z.of_nat 0)) with 0 in Hn; lia|].
    destruct (decide (doe < years_days (Z.of_nat n))) as [Hlt|]; [destruct (IH Hlt) as (k & ? & ?); exists k; lia|].
    exists (Z.of_nat n). replace (Z.of_nat n + 1) with (Z.of_nat (S n)) by lia. lia. }
  destruct (He 400%nat) as (k & Hk & Hlo & Hhi); [change (years_days (Z.of_nat 400)) with 146097; lia|].
  change (Z.of_nat 400) with 400 in Hk. destruct (era_year_bounds k Hk) as [E1 E2].
  assert (0 <= years_days k) by (pose proof (years_days_mono 0 k ltac:(lia)); change (years_days 0) with 0 in *; lia).
  assert (years_days (k + 1) <= 146097) by (pose proof (years_days_mono (k + 1) 400 ltac:(lia)); change (years_days 400) with 146097 in *; lia).
  pose proof (year_of_era_mono (years_days k) doe ltac:(lia) ltac:(lia)).
  pose proof (year_of_era_mono doe (years_days (k + 1) - 1) ltac:(lia) ltac:(lia)).
  assert (year_of_era doe = k) as -> by lia. lia.
Qed.

(** *** The month and day of a day of a year that starts in March *)

Definition month_of (doy : Z) : Z := let mp := (5 * doy + 2) / 153 in if mp <? 10 then mp + 3 else mp - 9.
Definition day_of (doy : Z) : Z := doy - (153 * ((5 * doy + 2) / 153) + 2) / 5 + 1.

Definition month_check (leap : bool) (doy : Z) : bool :=
  let m := month_of doy in let d := day_of doy in
  (1 <=? m) && (m <=? 12) && (1 <=? d) && (d <=? 31) && ((5 * doy + 2) / 153 <? 12) &&
  (if m <=? 2 then (months_days leap m + (d - 1) + 306 =? doy) && ((d <=? month_days leap m) || (doy =? 365))
   else (months_days leap m + (d - 1) =? doy + 59 + (if leap then 1 else 0)) && (d <=? month_days leap m)).

Lemma month_spec leap doy : 0 <= doy < 366 -> month_check leap doy = true.
Proof.
  intros H. destruct leap;
    [apply (range_check (month_check true) 366) | apply (range_check (month_check false) 366)];
    (vm_compute; reflexivity) || done.
Qed.

(** ** The date of a day *)

Lemma era_floor z : Z.quot (if 0 <=? z then z else z - 146096) 146097 = z / 146097.
Proof.
  destruct (Z.leb_spec 0 z); [by rewrite Z.quot_div_nonneg by lia|].
  replace (z - 146096) with (- (146096 - z)) by lia. rewrite Z.quot_opp_l, Z.quot_div_nonneg by lia.
  Z.to_euclidean_division_equations. nia.
Qed.

(** The calculation without the types: all its values fit them. *)
Definition civil (z : Z) : Date :=
  let era := (z + 719468) / 146097 in let doe := (z + 719468) mod 146097 in
  let yoe := year_of_era doe in let doy := doe - years_days yoe in
  mkDate (yoe + 400 * era + (if month_of doy <=? 2 then 1 else 0)) (month_of doy) (day_of doy).

Lemma civil_spec z : valid_date (civil z) /\ day_number (civil z) = z.
Proof.
  unfold civil. set (era := _ / 146097). set (doe := _ mod 146097).
  assert (z + 719468 = 146097 * era + doe) as Ez by (apply Z.div_mod; lia).
  destruct (year_of_era_spec doe) as [Hy [Hlo Hhi]]; [apply Z.mod_pos_bound; lia|].
  set (yoe := year_of_era doe) in *. set (doy := doe - years_days yoe).
  rewrite (years_days_step (yoe + 1)) in Hhi. replace (yoe + 1 - 1) with yoe in Hhi by lia.
  set (Y := yoe + 400 * era).
  assert (years_days Y = years_days yoe + 146097 * era) as EY by apply years_days_era.
  assert (is_leap (Y + 1) = is_leap (yoe + 1)) as EL.
  { unfold Y. replace (yoe + 400 * era + 1) with (yoe + 1 + 400 * era) by lia. apply is_leap_era. }
  assert (0 <= doy < 366 /\ (doy = 365 -> is_leap (Y + 1) = true)) as [Hdoy H365].
  { rewrite EL. unfold doy. destruct (is_leap (yoe + 1)); split; lia || (intros; lia). }
  pose proof (month_spec (is_leap (if month_of doy <=? 2 then Y + 1 else Y)) doy Hdoy) as Hm. unfold month_check in Hm.
  pose proof (years_days_step Y) as HY.
  unfold valid_date, day_number. cbn [year month day].
  destruct (month_of doy <=? 2); rewrite ?Z.add_0_r, !andb_true_iff, ?orb_true_iff, ?Z.leb_le, ?Z.ltb_lt, ?Z.eqb_eq in *.
  - replace (Y + 1 - 1) with Y by lia. split; [|unfold doy in *; lia]. split; [lia|].
    destruct Hm as [Hr [_ [Hd|E]]]; [lia|]. rewrite H365 by done. split; [lia|].
    assert (month_of doy = 2 /\ day_of doy = 29) as [-> ->] by (rewrite E; done). done.
  - split; [lia|]. destruct (is_leap Y); unfold doy in *; lia.
Qed.

Lemma u32_id z : 0 <= z < 2 ^ 32 -> u32 z = z.
Proof. apply uwrap_id. Qed.

Lemma s32_id z : - 2 ^ 31 <= z < 2 ^ 31 -> s32 z = z.
Proof. intros H. apply swrap_id; [done | by apply sfits_spec]. Qed.

Lemma year_of_era_u32 doe : 0 <= doe < 146097 ->
  u32 (doe - doe / 1460 + doe / 36524 - doe / 146096) / 365 = year_of_era doe.
Proof. intros H. rewrite u32_id; [done|]. clear -H. Z.to_euclidean_division_equations. lia. Qed.

Lemma day_of_year_u32 doe : 0 <= doe < 146097 ->
  let yoe := year_of_era doe in
  u32 (doe - u32 (365 * yoe + yoe / 4 - yoe / 100)) = doe - years_days yoe /\ 0 <= doe - years_days yoe < 366.
Proof.
  intros H. cbn zeta. destruct (year_of_era_spec doe H) as [Hy [Hlo Hhi]]. set (yoe := year_of_era doe) in *.
  rewrite (years_days_step (yoe + 1)) in Hhi. replace (yoe + 1 - 1) with yoe in Hhi by lia.
  assert (365 * yoe + yoe / 4 - yoe / 100 = years_days yoe) as E.
  { unfold years_days. rewrite (Z.div_small yoe 400) by lia. lia. }
  assert (0 <= doe - years_days yoe < 366) by (destruct (is_leap (yoe + 1)); lia).
  assert (0 <= years_days yoe) by (pose proof (years_days_mono 0 yoe ltac:(lia)); change (years_days 0) with 0 in *; lia).
  rewrite E, (u32_id (years_days yoe)), u32_id by lia. done.
Qed.

Lemma month_day_u32 doy : 0 <= doy < 366 ->
  let mp := u32 (5 * doy + 2) / 153 in
  u32 (doy - u32 (153 * mp + 2) / 5 + 1) = day_of doy /\
  u32 (mp + (if mp <? 10 then 3 else u32 (- 9))) = month_of doy /\ 1 <= month_of doy <= 12 /\ 1 <= day_of doy <= 31.
Proof.
  intros H. cbn zeta. rewrite (u32_id (5 * doy + 2)) by lia.
  pose proof (month_spec false doy H) as Hm. unfold month_check in Hm.
  rewrite !andb_true_iff, ?Z.leb_le, ?Z.ltb_lt in Hm. destruct Hm as [[[[[Hm1 Hm2] Hd1] Hd2] Hmp] _].
  assert (0 <= (5 * doy + 2) / 153) by (apply Z.div_pos; lia).
  rewrite (u32_id (153 * _ + 2)) by lia. split_and!; try lia.
  - apply u32_id. unfold day_of in *. lia.
  - unfold month_of in *. destruct (Z.ltb_spec ((5 * doy + 2) / 153) 10).
    + apply u32_id. lia.
    + change (u32 (- 9)) with (2 ^ 32 - 9). unfold uwrap.
      replace (_ / 153 + (2 ^ 32 - 9)) with ((5 * doy + 2) / 153 - 9 + 1 * 2 ^ 32) by lia.
      rewrite Z.mod_add, Z.mod_small by lia. done.
Qed.

(** [calDate] is the date of the calendar, where the sum with 719468 is an [int]. *)
Lemma calDate_spec z : - 2 ^ 31 <= z < 2 ^ 31 ->
  calDate z = if z + 719468 <? 2 ^ 31 then Ok (civil z) else Ub SignedOverflow.
Proof.
  intros Hz. unfold calDate. destruct (Z.ltb_spec (z + 719468) (2 ^ 31)).
  2:{ rewrite sint_out by lia. done. }
  rewrite (sint_ok 32 (z + 719468)) by lia. cbn [mbind res_bind]. set (w := z + 719468) in *.
  assert ((if 0 <=? w then Ok w else sint 32 (w - 146096)) = Ok (if 0 <=? w then w else w - 146096)) as ->.
  { destruct (Z.leb_spec 0 w); [done|]. apply sint_ok. lia. }
  cbn [mbind res_bind]. rewrite era_floor. set (era := w / 146097).
  pose proof (Z.div_mod w 146097 ltac:(lia)) as Ew. fold era in Ew.
  pose proof (Z.mod_pos_bound w 146097 ltac:(lia)) as Hdoe. set (doe := w mod 146097) in *.
  assert (- 14706 <= era <= 14699) as Hera by lia.
  rewrite (sint_ok 32 (era * 146097)) by lia. cbn [mbind res_bind]. rewrite (sint_ok 32 (w - era * 146097)) by lia. cbn [mbind res_bind].
  replace (w - era * 146097) with doe by lia. rewrite (u32_id doe) by lia. rewrite (year_of_era_u32 doe Hdoe).
  destruct (year_of_era_spec doe Hdoe) as [Hy _].
  rewrite (sint_ok 32 (era * 400)) by lia. cbn [mbind res_bind]. rewrite (s32_id (year_of_era doe)) by lia.
  rewrite (sint_ok 32 (year_of_era doe + _)) by lia. cbn [mbind res_bind].
  destruct (day_of_year_u32 doe Hdoe) as [-> Hdoy].
  destruct (month_day_u32 _ Hdoy) as (-> & -> & Hm & Hd).
  rewrite sint_ok by (case_match; lia). cbn [mbind res_bind]. rewrite !s32_id by lia.
  unfold civil. fold w era doe. do 2 f_equal. lia.
Qed.

(** ** The time of day *)

Lemma days_of_spec point : 0 <= point < 2 ^ 63 -> days_of point = point / NS_DAY /\ 0 <= point / NS_DAY < 106752.
Proof.
  intros H. unfold days_of. rewrite Z.quot_div_nonneg by (done || lia).
  assert (0 <= point / NS_DAY < 106752) as Hd.
  { split; [apply Z.div_pos; done || lia|]. apply Z.div_lt_upper_bound; [done|].
    change (NS_DAY * 106752) with 9223372800000000000. lia. }
  by rewrite s32_id by lia.
Qed.

Lemma calTime_spec point : 0 <= point < 2 ^ 63 ->
  let t := calTime point in
  0 <= hour t < 24 /\ 0 <= minute t < 60 /\ 0 <= second t < 60 /\ 0 <= millisecond t < 1000 /\
  exists rest, 0 <= rest < NS_MILLI /\
    point = (point / NS_DAY) * NS_DAY + hour t * NS_HOUR + minute t * NS_MINUTE + second t * NS_SECOND +
            millisecond t * NS_MILLI + rest.
Proof.
  intros H. cbn zeta. unfold calTime. destruct (days_of_spec point H) as [-> _].
  pose proof (Z.div_mod point NS_DAY ltac:(done)) as E0. pose proof (Z.mod_pos_bound point NS_DAY ltac:(done)) as B0.
  replace (point - point / NS_DAY * NS_DAY) with (point mod NS_DAY) by lia.
  set (p := point mod NS_DAY) in *. rewrite (Z.quot_div_nonneg p) by (done || lia).
  pose proof (Z.div_mod p NS_HOUR ltac:(done)) as E1. pose proof (Z.mod_pos_bound p NS_HOUR ltac:(done)) as B1.
  replace (p - p / NS_HOUR * NS_HOUR) with (p mod NS_HOUR) by lia.
  set (q := p mod NS_HOUR) in *. rewrite (Z.quot_div_nonneg q) by (done || lia).
  pose proof (Z.div_mod q NS_MINUTE ltac:(done)) as E2. pose proof (Z.mod_pos_bound q NS_MINUTE ltac:(done)) as B2.
  replace (q - q / NS_MINUTE * NS_MINUTE) with (q mod NS_MINUTE) by lia.
  set (r := q mod NS_MINUTE) in *. rewrite (Z.quot_div_nonneg r) by (done || lia).
  pose proof (Z.div_mod r NS_SECOND ltac:(done)) as E3. pose proof (Z.mod_pos_bound r NS_SECOND ltac:(done)) as B3.
  replace (r - r / NS_SECOND * NS_SECOND) with (r mod NS_SECOND) by lia.
  set (s := r mod NS_SECOND) in *. rewrite (Z.quot_div_nonneg s) by (done || lia).
  pose proof (Z.div_mod s NS_MILLI ltac:(done)) as E4. pose proof (Z.mod_pos_bound s NS_MILLI ltac:(done)) as B4.
  assert (0 <= p / NS_HOUR < 24) by (unfold NS_DAY, NS_HOUR, NS_MINUTE, NS_SECOND, NS_MILLI in *; lia).
  assert (0 <= q / NS_MINUTE < 60) by (unfold NS_HOUR, NS_MINUTE, NS_SECOND, NS_MILLI in *; lia).
  assert (0 <= r / NS_SECOND < 60) by (unfold NS_MINUTE, NS_SECOND, NS_MILLI in *; lia).
  assert (0 <= s / NS_MILLI < 1000) by (unfold NS_SECOND, NS_MILLI in *; lia).
  rewrite !s32_id by lia. cbn [hour minute second millisecond]. split_and!; try lia.
  exists (s mod NS_MILLI). lia.
Qed.

(** ** The texts *)

Definition date_text (d : Date) : list Z := pad 4 (year d) ++ [45] ++ pad 2 (month d) ++ [45] ++ pad 2 (day d).
Definition time_text (t : Time) : list Z :=
  pad 2 (hour t) ++ [58] ++ pad 2 (minute t) ++ [58] ++ pad 2 (second t) ++ [46] ++ pad 3 (millisecond t).

Lemma put_digits_at pre old post rows P n record off :
  record = pre ++ old ++ post -> off = Z.of_nat (length pre) -> length old = P -> 0 <= n < rows ->
  0 < rows <= 2 ^ 31 -> rows <= 10 ^ Z.of_nat P -> (0 < P)%nat ->
  put_digits rows P n record off = Ok (pre ++ pad P n ++ post).
Proof.
  intros -> -> Ho Hn H1 H2 H3. unfold put_digits. rewrite array_row_spec by done.
  rewrite (proj2 (Z.leb_le 0 n)), (proj2 (Z.ltb_lt n rows)) by lia. cbn [andb mbind res_bind].
  unfold row. rewrite take_app_length' by (by rewrite length_pad). unfold write_bytes.
  rewrite !length_app, length_pad, !(proj2 (Z.leb_le _ _)) by lia. cbn [andb]. rewrite Nat2Z.id. do 2 f_equal.
  - by rewrite take_app_length.
  - f_equal. rewrite drop_app_ge by lia. replace (length pre + P - length pre)%nat with P by lia. by rewrite drop_app_length'.
Qed.

Lemma put_digits_out rows P n record off : 0 < rows <= 2 ^ 31 -> rows <= 10 ^ Z.of_nat P -> (0 < P)%nat -> rows <= n ->
  put_digits rows P n record off = Ub ArrayIndex.
Proof.
  intros H1 H2 H3 Hn. unfold put_digits. rewrite array_row_spec by done.
  rewrite (proj2 (Z.ltb_ge n rows)) by lia. by rewrite andb_false_r.
Qed.

(** The next memcpy, between [pre] and [post]. *)
Ltac put_next pre old post :=
  rewrite (put_digits_at pre old post);
  [ cbn [mbind res_bind] | by rewrite <- ?app_assoc | by rewrite ?length_app, ?length_pad
  | by rewrite ?length_pad | lia | lia | cbn; lia | lia ].

Lemma update_date_spec d d0 : 0 <= year d < 2050 -> 1 <= month d <= 12 -> 1 <= day d <= 31 ->
  update_date d (date_text d0 ++ [0]) = Ok (date_text d ++ [0]).
Proof.
  intros Hy Hm Hd. unfold update_date, date_text.
  put_next (@nil Z) (pad 4 (year d0)) ([45] ++ pad 2 (month d0) ++ [45] ++ pad 2 (day d0) ++ [0]).
  put_next (pad 4 (year d) ++ [45]) (pad 2 (month d0)) ([45] ++ pad 2 (day d0) ++ [0]).
  put_next (pad 4 (year d) ++ [45] ++ pad 2 (month d) ++ [45]) (pad 2 (day d0)) [0].
  by rewrite <- !app_assoc.
Qed.

Lemma update_time_spec t t0 :
  0 <= hour t < 100 -> 0 <= minute t < 100 -> 0 <= second t < 100 -> 0 <= millisecond t < 1000 ->
  update_time t (time_text t0 ++ [0]) = Ok (time_text t ++ [0]).
Proof.
  intros Hh Hm Hs HS. unfold update_time, time_text.
  put_next (@nil Z) (pad 2 (hour t0)) ([58] ++ pad 2 (minute t0) ++ [58] ++ pad 2 (second t0) ++ [46] ++ pad 3 (millisecond t0) ++ [0]).
  put_next (pad 2 (hour t) ++ [58]) (pad 2 (minute t0)) ([58] ++ pad 2 (second t0) ++ [46] ++ pad 3 (millisecond t0) ++ [0]).
  put_next (pad 2 (hour t) ++ [58] ++ pad 2 (minute t) ++ [58]) (pad 2 (second t0)) ([46] ++ pad 3 (millisecond t0) ++ [0]).
  put_next (pad 2 (hour t) ++ [58] ++ pad 2 (minute t) ++ [58] ++ pad 2 (second t) ++ [46]) (pad 3 (millisecond t0)) [0].
  by rewrite <- !app_assoc.
Qed.

(** ** Calls of [format] *)

Lemma months_bound leap m : 1 <= m <= 12 ->
  0 <= months_days leap m /\ months_days leap m + month_days leap m <= 365 + (if leap then 1 else 0) /\ month_days leap m <= 31.
Proof.
  intros Hm. set (P := fun leap m => (0 <=? months_days leap (m + 1)) && (month_days leap (m + 1) <=? 31) &&
    (months_days leap (m + 1) + month_days leap (m + 1) <=? 365 + (if (leap : bool) then 1 else 0))).
  assert (forall leap, P leap (m - 1) = true) as H.
  { intros []; [apply (range_check (P true) 12) | apply (range_check (P false) 12)]; (vm_compute; reflexivity) || lia. }
  specialize (H leap). unfold P in H. replace (m - 1 + 1) with m in H by lia.
  rewrite !andb_true_iff, !Z.leb_le in H. lia.
Qed.

Lemma year_bound d : valid_date d -> years_days (year d - 1) <= day_number d + 719162 < years_days (year d).
Proof.
  intros [Hm Hd]. unfold day_number. destruct (months_bound (is_leap (year d)) (month d) Hm) as (H1 & H2 & _).
  rewrite (years_days_step (year d)). lia.
Qed.

Lemma months_apart leap a b : 1 <= a <= 12 -> 1 <= b <= 12 -> a < b -> months_days leap a + month_days leap a <= months_days leap b.
Proof.
  intros Ha Hb Hlt. set (P := fun leap i => let a := i / 12 + 1 in let b := i mod 12 + 1 in
    (b <=? a) || (months_days leap a + month_days leap a <=? months_days leap b)).
  assert (P leap (12 * (a - 1) + (b - 1)) = true) as H.
  { destruct leap; [apply (range_check (P true) 144) | apply (range_check (P false) 144)]; (vm_compute; reflexivity) || lia. }
  unfold P in H. replace ((12 * (a - 1) + (b - 1)) / 12 + 1) with a in H by (Z.to_euclidean_division_equations; lia).
  replace ((12 * (a - 1) + (b - 1)) mod 12 + 1) with b in H by (Z.to_euclidean_division_equations; lia).
  apply orb_true_iff in H. rewrite !Z.leb_le in H. lia.
Qed.

(** A date has one number. *)
Lemma day_number_inj d e : valid_date d -> valid_date e -> day_number d = day_number e -> d = e.
Proof.
  intros Hd He E. pose proof (year_bound d Hd) as Yd. pose proof (year_bound e He) as Ye. rewrite E in Yd.
  assert (year d = year e) as Ey.
  { destruct (Ztrichotomy (year d) (year e)) as [H|[H|H]]; [|done|]; exfalso.
    - pose proof (years_days_mono (year d) (year e - 1) ltac:(lia)). lia.
    - pose proof (years_days_mono (year e) (year d - 1) ltac:(lia)). lia. }
  destruct Hd as [Md Dd], He as [Me De]. unfold day_number in E. rewrite Ey in *.
  assert (month d = month e) as Em.
  { destruct (Ztrichotomy (month d) (month e)) as [H|[H|H]]; [|done|]; exfalso.
    - pose proof (months_apart (is_leap (year e)) _ _ Md Me H). lia.
    - pose proof (months_apart (is_leap (year e)) _ _ Me Md ltac:(lia)). lia. }
  destruct d as [y m k], e as [y' m' k']. cbn in *. subst. f_equal. lia.
Qed.

(** The days before 2050-01-01. *)
Definition LAST_DAY : Z := 29220.

Lemma civil_range k : 0 <= k < 106752 ->
  0 <= year (civil k) /\ (year (civil k) < 2050 <-> k < LAST_DAY) /\ 1 <= month (civil k) <= 12 /\ 1 <= day (civil k) <= 31.
Proof.
  intros Hk. destruct (civil_spec k) as [Hv Hn]. pose proof (year_bound _ Hv) as Hy. rewrite Hn in Hy.
  destruct Hv as [Hm Hd]. destruct (months_bound (is_leap (year (civil k))) (month (civil k)) Hm) as (_ & _ & H31).
  set (y := year (civil k)) in *. unfold LAST_DAY. split_and!; try lia.
  - destruct (decide (0 <= y)); [done|]. pose proof (years_days_mono y 0 ltac:(lia)). change (years_days 0) with 0 in *. lia.
  - split; intros Hlt.
    + pose proof (years_days_mono y 2049 ltac:(lia)). change (years_days 2049) with 748382 in *. lia.
    + destruct (decide (y < 2050)); [done|]. pose proof (years_days_mono 2049 (y - 1) ltac:(lia)).
      change (years_days 2049) with 748382 in *. lia.
Qed.

(** The records hold a date and a time, [last] is the midnight at which the date started. *)
Record records_ok (st : Records) : Prop := {
  ok_last : exists k, 0 <= k < LAST_DAY /\ last st = k * NS_DAY /\ dateRecord st = date_text (civil k) ++ [0];
  ok_time : exists t, timeRecord st = time_text t ++ [0];
}.

Lemma records0_ok : records_ok records0.
Proof.
  constructor; [exists 0; split_and!; done | exists (mkTime 0 0 0 0)]; vm_compute; reflexivity.
Qed.

Lemma removelast_snoc {A} (l : list A) x : removelast (l ++ [x]) = l.
Proof. apply removelast_last. Qed.

Lemma format_spec point st : records_ok st -> last st <= point < 2 ^ 63 ->
  if point / NS_DAY <? LAST_DAY then
    exists st', format point st = Ok (date_text (civil (point / NS_DAY)), time_text (calTime point), st') /\
      records_ok st' /\ last st' <= point
  else format point st = Ub ArrayIndex.
Proof.
  intros [(k & Hk & El & Ed) (t & Et)] Hp. assert (0 <= last st) by (rewrite El; unfold NS_DAY, NS_HOUR, NS_MINUTE, NS_SECOND, NS_MILLI; lia).
  destruct (days_of_spec point) as [Edays Hdays]; [lia|]. set (n := point / NS_DAY) in *.
  destruct (civil_range n Hdays) as (Hy0 & Hy & Hm & Hd).
  pose proof (Z.div_mod point NS_DAY ltac:(done)) as En. fold n in En.
  pose proof (Z.mod_pos_bound point NS_DAY ltac:(done)) as Hmod.
  assert ((NS_DAY <=? point - last st) = (k <? n)) as Ecmp.
  { rewrite El. unfold NS_DAY, NS_HOUR, NS_MINUTE, NS_SECOND, NS_MILLI in *.
    destruct (Z.leb_spec 86400000000000 (point - k * 86400000000000)), (Z.ltb_spec k n); cbn in *; lia. }
  assert (k <= n) by (rewrite El in Hp; unfold NS_DAY, NS_HOUR, NS_MINUTE, NS_SECOND, NS_MILLI in *; lia).
  unfold format. rewrite sint_ok by lia. cbn [mbind res_bind]. unfold getDate. rewrite Edays, calDate_spec by lia.
  rewrite (proj2 (Z.ltb_lt (n + 719468) (2 ^ 31))) by lia. cbn [mbind res_bind]. rewrite Ecmp.
  destruct (calTime_spec point ltac:(lia)) as (Hh & Hmi & Hs & HS & _).
  destruct (Z.ltb_spec n LAST_DAY) as [Hn|Hn].
  - apply Hy in Hn as Hy'.
    assert ((if k <? n then r ← update_date (civil n) (dateRecord st); Ok (mkRecords r (timeRecord st) (thisDay point)) else Ok st) =
      Ok (mkRecords (date_text (civil n) ++ [0]) (time_text t ++ [0]) (n * NS_DAY))) as ->.
    { rewrite Ed, Et. destruct (Z.ltb_spec k n).
      - rewrite update_date_spec by (done || lia). cbn [mbind res_bind]. unfold thisDay. by rewrite Edays.
      - assert (k = n) as <- by lia. destruct st. cbn in *. by subst. }
    cbn [mbind res_bind timeRecord dateRecord last]. rewrite update_time_spec by lia. cbn [mbind res_bind].
    rewrite !removelast_snoc. eexists. split_and!; [done | |].
    + constructor; [exists n | by exists (calTime point)]. split_and!; [lia | lia | done | done].
    + cbn [last]. lia.
  - assert (k < n) as Hlt by lia. rewrite (proj2 (Z.ltb_lt k n)) by done. unfold update_date.
    assert (~ year (civil n) < 2050) by (intros H'%Hy; lia). rewrite (put_digits_out 2050 4) by (lia || (cbn; lia)). done.
Qed.

(** The texts of a sequence of calls. *)
Definition formats (points : list Z) (st : Records) : res (list (list Z * list Z) * Records) :=
  foldR (fun '(out, st) point => '(d, t, st) ← format point st; Ok (out ++ [(d, t)], st)) ([], st) points.

Lemma formats_spec points st out : records_ok st ->
  (forall p, p ∈ points -> last st <= p /\ p / NS_DAY < LAST_DAY /\ p < 2 ^ 63) -> Sorted Z.le points ->
  exists st', foldR (fun '(out, st) point => '(d, t, st) ← format point st; Ok (out ++ [(d, t)], st)) (out, st) points =
    Ok (out ++ ((fun p => (date_text (civil (p / NS_DAY)), time_text (calTime p))) <$> points), st').
Proof.
  revert st out. induction points as [|p points IH]; intros st out Hst Hp Hs.
  { exists st. cbn. by rewrite app_nil_r. }
  cbn [foldR fmap list_fmap]. destruct (Hp p) as (H1 & H2 & H3); [by left|].
  pose proof (format_spec p st Hst ltac:(lia)) as Hf. rewrite (proj2 (Z.ltb_lt _ _)) in Hf by done.
  destruct Hf as (st1 & -> & Hst1 & Hl). cbn [mbind res_bind].
  apply Sorted_StronglySorted in Hs; [|intros a b c; lia]. apply StronglySorted_inv in Hs as [Hs Hall].
  destruct (IH st1 (out ++ [(date_text (civil (p / NS_DAY)), time_text (calTime p))]) Hst1) as (st2 & E).
  - intros q Hq. destruct (Hp q) as (_ & H5 & H6); [by right|]. split; [|done].
    rewrite Forall_forall in Hall. specialize (Hall q Hq). lia.
  - by apply StronglySorted_Sorted.
  - exists st2. rewrite E, <- app_assoc. done.
Qed.
