(* ===== verification/LogStream.v ===== *)
(** * Records of the logger

    Stream, Resolver, the functions of LogBase and the configuration of
    src/net/fluent/include/logger/Log.hpp: from the arguments of a logging call to the bytes of
    its record.  Texts are lists of character codes. *)

From S2P Require Import Prelude Bytes FluentAlgo LogMeta LogChrono.
From stdpp Require Import list.
#[local] Open Scope Z_scope.

(** ** Stream *)

(** [parseLength<T>] for an integer type of [w] bits; the recursive calls are on [long]. *)
Fixpoint parseLength_int (depth : nat) (w : Z) (val : Z) : res Z :=
  match depth with
  | O => NoFuel
  | S depth =>
      if 0 <=? val then
        if val =? 0 then Ok 1
        else if (1 <=? val) && (val <=? 9) then Ok 1
        else if (10 <=? val) && (val <=? 99) then Ok 2
        else if (100 <=? val) && (val <=? 999) then Ok 3
        else if (1000 <=? val) && (val <=? 9999) then Ok 4
        else if (10000 <=? val) && (val <=? 99999) then Ok 5
        else if (100000 <=? val) && (val <=? 999999) then Ok 6
        else if (1000000 <=? val) && (val <=? 9999999) then Ok 7
        else if (10000000 <=? val) && (val <=? 99999999) then Ok 8
        else if (100000000 <=? val) && (val <=? 999999999) then Ok 9
        else if (1000000000 <=? val) && (val <=? 9999999999) then Ok 10
        else n ← parseLength_int depth 64 (val / 10000000000); Ok (10 + n)
      else v ← sint w (- val); n ← parseLength_int depth w v; Ok (1 + n)
  end.

Definition parseLength (w val : Z) : res Z := parseLength_int 4 w val.

(** The loop of [parse]: digits from the right, into [buf] from [base] on. *)
Fixpoint digits_loop (depth : nat) (buf : list Z) (base cur msg : Z) : res (list Z) :=
  match depth with
  | O => NoFuel
  | S depth =>
      if msg =? 0 then Ok buf
      else buf ← buf.[base + cur <- 48 + Z.rem msg 10]; digits_loop depth buf base (cur - 1) (Z.quot msg 10)
  end.

Definition parse_int (w : Z) (buf : list Z) (base msg len : Z) : res (list Z) :=
  let cur := len - 1 in
  if msg <? 0 then
    buf ← buf.[base <- 45]; m ← sint w (- msg); digits_loop 21 buf base cur m
  else if msg =? 0 then buf.[base <- 48]
  else digits_loop 21 buf base cur msg.

(** ** Messages

    The arguments of a logging call by their types: [int], [size_t], [long], [char], a string
    literal, [const char *], [std::string], IoVector, and an array of two of these. *)
Inductive message : Type :=
  | MInt (v : Z) | MSize (v : Z) | MLong (v : Z) | MChar (c : Z)
  | MLiteral (s : list Z) | MCstr (s : list Z) | MString (s : list Z)
  | MIov (bs : list Z) | MIov2 (bs1 bs2 : list Z).

(** [bufcnt]: the arguments are lvalues, so that T is a reference type, for which the general
    template gives the size of the type and ten. *)
Definition bufcnt1 (m : message) : Z :=
  10 + match m with
       | MInt _ => 4 | MSize _ | MLong _ | MCstr _ => 8 | MChar _ => 1
       | MLiteral s => Z.of_nat (length s) + 1 | MString _ => 32 | MIov _ => 16 | MIov2 _ _ => 32
       end.
Definition bufcnt (ms : list message) : Z := foldr (fun m n => bufcnt1 m + n) 0 ms.

Definition iovcnt1 (m : message) : Z := match m with MIov2 _ _ => 2 | _ => 1 end.
Definition iovcnt (ms : list message) : Z := foldr (fun m n => iovcnt1 m + n) 0 ms.

(** ** Resolver

    An IoVector points into the local buffer, or to characters elsewhere. *)
Inductive IoVector : Type := Local (off len : Z) | External (bs : list Z).

Definition iov_len (v : IoVector) : Z := match v with Local _ len => len | External bs => Z.of_nat (length bs) end.

(** The number of vectors, [count], is that of the list; [room] is the size of the array. *)
Record ResolveContext : Type := mkContext { local : list Z; cur : Z; ioves : list IoVector; room : Z; total : Z }.

Definition push_iov (v : IoVector) (ctx : ResolveContext) : res ResolveContext :=
  _ ← check (Z.of_nat (length (ioves ctx)) <? room ctx) ArrayIndex;
  Ok (mkContext (local ctx) (cur ctx) (ioves ctx ++ [v]) (room ctx) (total ctx + iov_len v)).

Definition updateExternal (bs : list Z) (ctx : ResolveContext) : res ResolveContext := push_iov (External bs) ctx.

Definition updateLocal (len : Z) (ctx : ResolveContext) : res ResolveContext :=
  ctx ← push_iov (Local (cur ctx) len) ctx;
  Ok (mkContext (local ctx) (cur ctx + len) (ioves ctx) (room ctx) (total ctx)).

Definition set_local (buf : list Z) (ctx : ResolveContext) : ResolveContext :=
  mkContext buf (cur ctx) (ioves ctx) (room ctx) (total ctx).

(** The general [resolveDispatch]: parse into the local buffer. *)
Definition dispatch_int (w v : Z) (ctx : ResolveContext) : res ResolveContext :=
  len ← parseLength w v;
  buf ← parse_int w (local ctx) (cur ctx) v len;
  updateLocal len (set_local buf ctx).

Definition dispatch_bytes (bs : list Z) (ctx : ResolveContext) : res ResolveContext :=
  buf ← write_bytes (local ctx) (cur ctx) bs;
  updateLocal (Z.of_nat (length bs)) (set_local buf ctx).

(** [Cache::bufs[n]] with [Cache::len[n]], of the numerals below 10000. *)
Definition cached (n : Z) : res (list Z) :=
  match Numeric n with Some s => Ok (take (num_length n) s) | None => Ub AssertFailed end.

Definition resolveDispatch (m : message) (ctx : ResolveContext) : res ResolveContext :=
  match m with
  | MInt v => if (0 <? v) && (v <? 10000) then s ← cached v; updateExternal s ctx else dispatch_int 32 v ctx
  | MSize v => if v <? 10000 then s ← cached v; updateExternal s ctx else dispatch_int 64 v ctx
  | MLong v => dispatch_int 64 v ctx
  | MChar c => dispatch_bytes [c] ctx
  | MLiteral s => updateExternal s ctx
  | MCstr s | MString s => dispatch_bytes s ctx
  | MIov bs => updateExternal bs ctx
  | MIov2 bs1 bs2 => ctx ← updateExternal bs1 ctx; updateExternal bs2 ctx
  end.

Definition resolve (ms : list message) (ctx : ResolveContext) : res ResolveContext := foldR (fun ctx m => resolveDispatch m ctx) ctx ms.

Definition calspace (ctx : ResolveContext) : Z := total ctx + Z.of_nat (length (ioves ctx)).

Definition iov_bytes (buf : list Z) (v : IoVector) : res (list Z) :=
  match v with Local off len => slice buf off len | External bs => Ok bs end.

(** [put]: the vectors into [buf] from [offset] on, a newline behind the last one and a blank
    behind the others. *)
Fixpoint put_from (src : list Z) (vs : list IoVector) (buf : list Z) (offset : Z) : res (list Z) :=
  match vs with
  | [] => Ok buf
  | v :: vs =>
      bs ← iov_bytes src v;
      buf ← write_bytes buf offset bs;
      let offset := offset + iov_len v in
      buf ← buf.[offset <- match vs with [] => 10 | _ => 32 end];
      put_from src vs buf (offset + 1)
  end.

Definition put (ctx : ResolveContext) (buf : list Z) (offset : Z) : res (list Z) := put_from (local ctx) (ioves ctx) buf offset.

(** ** LogBaseImpl::log

    The context that is given to Scheduler::apply; [tmp] is the local array before its first
    use. *)
Definition log_context (ms : list message) (tmp : list Z) : res ResolveContext :=
  resolve ms (mkContext tmp 0 [] (iovcnt ms) 0).

(** ** The text of an integer *)

(** The number of decimal digits. *)
Fixpoint count_digits (depth : nat) (n : Z) : nat :=
  match depth with O => O | S depth => if n <? 10 then 1 else S (count_digits depth (n / 10)) end.
Definition digits (n : Z) : nat := count_digits 25 n.

Definition text (n : Z) : list Z := if n <? 0 then 45 :: pad (digits (- n)) (- n) else pad (digits n) n.

(** [n] has [k] digits. *)
Definition has_digits (n : Z) (k : nat) : Prop := (0 < k)%nat /\ 0 <= n < 10 ^ Z.of_nat k /\ (k = 1%nat \/ 10 ^ (Z.of_nat k - 1) <= n).

Lemma length_from_count depth n : 0 <= n -> length_from depth n = count_digits depth n.
Proof.
  revert n. induction depth as [|depth IH]; intros n Hn; [done|]. cbn [length_from count_digits].
  rewrite (proj2 (Z.ltb_ge n 0)) by done. rewrite Z.quot_div_nonneg by lia. rewrite IH; [done | apply Z.div_pos; lia].
Qed.

Lemma digits_has n : 0 <= n < 2 ^ 64 -> has_digits n (digits n).
Proof.
  intros Hn. assert (n < 10 ^ Z.of_nat 25) as Hn' by (change (10 ^ Z.of_nat 25) with 10000000000000000000000000; lia).
  pose proof (length_from_spec 25 n (conj (proj1 Hn) Hn') ltac:(lia)) as H. unfold digits.
  rewrite length_from_count in H by lia. revert H. generalize (count_digits 25 n). intros k ([H1 _] & H2 & H3). split_and!; [done | lia | done|].
  destruct (decide (k = 1%nat)); [by left | right; apply H3; lia].
Qed.

Lemma has_digits_unique n k l : has_digits n k -> has_digits n l -> k = l.
Proof.
  assert (forall k l, has_digits n k -> has_digits n l -> (k < l)%nat -> False) as H.
  { clear k l. intros k l (H1 & H2 & _) (_ & _ & H3) Hlt. destruct H3 as [->|H3]; [lia|].
    assert (10 ^ Z.of_nat k <= 10 ^ (Z.of_nat l - 1)) by (apply Z.pow_le_mono_r; lia). lia. }
  intros Hk Hl. destruct (lt_eq_lt_dec k l) as [[?|?]|?]; [exfalso; eauto | done | exfalso; eauto].
Qed.

Lemma has_digits_shift n k : 10 ^ 10 <= n -> has_digits (n / 10 ^ 10) k -> has_digits n (10 + k).
Proof.
  intros Hn (H1 & [H2 H3] & H4). pose proof (Z.div_mod n (10 ^ 10) ltac:(lia)) as E.
  pose proof (Z.mod_pos_bound n (10 ^ 10) ltac:(lia)) as Hm.
  replace (Z.of_nat (10 + k)) with (10 + Z.of_nat k) by lia. unfold has_digits. split_and!; [lia | lia | |].
  - replace (Z.of_nat (10 + k)) with (10 + Z.of_nat k) by lia. rewrite Z.pow_add_r by lia. nia.
  - right. replace (Z.of_nat (10 + k) - 1) with (10 + (Z.of_nat k - 1)) by lia. rewrite Z.pow_add_r by lia.
    destruct H4 as [->|H4]; [change (10 ^ (Z.of_nat 1 - 1)) with 1; lia | nia].
Qed.

Lemma parseLength_int_spec depth w n : 0 <= n -> n < 10 ^ (10 * Z.of_nat depth) -> (0 < depth)%nat ->
  exists k, parseLength_int depth w n = Ok (Z.of_nat k) /\ has_digits n k.
Proof.
  revert w n. induction depth as [|depth IH]; intros w n H0 Hn Hd; [lia|]. cbn [parseLength_int].
  rewrite (proj2 (Z.leb_le 0 n)) by done.
  assert (forall a b k, a <= n -> n <= b -> a = 10 ^ (Z.of_nat k - 1) -> b = 10 ^ Z.of_nat k - 1 -> (0 < k)%nat ->
    exists k', Ok (Z.of_nat k) = Ok (Z.of_nat k') /\ has_digits n k') as Hc.
  { intros a b k Ha Hb -> -> Hk. exists k. split; [done|]. split_and!; [lia | lia | lia | right; lia]. }
  destruct (Z.eqb_spec n 0) as [->|Hne]; [exists 1%nat; split; [done | by split_and!; [lia.. | left]]|].
  assert (1 <= n) as Hlo by lia.
  repeat match goal with
  | |- context [if (?a <=? n) && (n <=? ?b) then Ok ?k else _] =>
      rewrite (proj2 (Z.leb_le a n) Hlo); cbn [andb];
      let H := fresh "Hhi" in destruct (Z.leb_spec n b) as [H|H];
      [apply (Hc a b (Z.to_nat k) Hlo H); reflexivity || (cbn; lia) |
       clear Hlo; assert (b + 1 <= n) as Hlo by (clear -H; lia); clear H; cbn [Z.add Pos.add Pos.succ] in Hlo]
  end.
  assert (10 ^ 10 <= n) as Hbig by exact Hlo.
  destruct depth as [|depth].
  { change (10 * Z.of_nat 1) with 10 in Hn. lia. }
  destruct (IH 64 (n / 10000000000)) as (k & -> & Hk).
  - apply Z.div_pos; lia.
  - apply Z.div_lt_upper_bound; [lia|]. change 10000000000 with (10 ^ 10). rewrite <- Z.pow_add_r by lia.
    replace (10 + 10 * Z.of_nat (S depth)) with (10 * Z.of_nat (S (S depth))) by lia. done.
  - lia.
  - exists (10 + k)%nat. cbn [mbind res_bind]. split; [f_equal; lia|]. by apply has_digits_shift.
Qed.

Lemma parseLength_negative depth w n : n < 0 ->
  parseLength_int (S depth) w n = (v ← sint w (- n); m ← parseLength_int depth w v; Ok (1 + m)).
Proof. intros Hn. cbn [parseLength_int]. by rewrite (proj2 (Z.leb_gt 0 n)) by done. Qed.

Lemma parseLength_digits d w n : 0 <= n < 2 ^ 64 -> (3 <= d)%nat -> parseLength_int d w n = Ok (Z.of_nat (digits n)).
Proof.
  intros Hn Hd. assert (2 ^ 64 <= 10 ^ 30) as Hbig by lia.
  assert (10 ^ 30 <= 10 ^ (10 * Z.of_nat d)) by (apply Z.pow_le_mono_r; lia).
  destruct (parseLength_int_spec d w n) as (k & -> & Hk); [lia | lia | lia |].
  do 2 f_equal. eapply has_digits_unique; [exact Hk | by apply digits_has].
Qed.

Lemma parseLength_spec w n : - 2 ^ (w - 1) < n < 2 ^ 64 -> 0 < w <= 64 -> parseLength w n = Ok (Z.of_nat (length (text n))).
Proof.
  intros Hn Hw. assert (2 ^ (w - 1) <= 2 ^ 63) by (apply Z.pow_le_mono_r; lia).
  unfold parseLength, text. destruct (Z.ltb_spec n 0).
  - rewrite parseLength_negative, sint_ok by lia. cbn [mbind res_bind length].
    rewrite parseLength_digits, length_pad by lia. cbn [mbind res_bind]. f_equal. lia.
  - rewrite length_pad. apply parseLength_digits; lia.
Qed.

Lemma set_index_at {A} (pre post : list A) x y : (pre ++ x :: post).[Z.of_nat (length pre) <- y] = Ok (pre ++ y :: post).
Proof.
  rewrite set_index_ok by (rewrite length_app; cbn; lia). rewrite Nat2Z.id.
  by rewrite insert_app_r_alt, Nat.sub_diag by lia.
Qed.

(** The digits of a number fill the places they are written to. *)
Lemma parse_digits_spec depth k n pre old post base cur :
  (k < depth)%nat -> (k = O /\ n = 0 \/ has_digits n k /\ 0 < n) -> length old = k ->
  base + cur = Z.of_nat (length pre) + Z.of_nat k - 1 ->
  digits_loop depth (pre ++ old ++ post) base cur n = Ok (pre ++ pad k n ++ post).
Proof.
  revert depth n old post cur. induction k as [|k IH]; intros depth n old post cur Hd Hn Ho Hc;
    (destruct depth as [|depth]; [lia|]); cbn [digits_loop].
  - destruct Hn as [[_ ->]|[[? _] _]]; [|lia]. by destruct old.
  - destruct Hn as [[? _]|[(_ & Hlt & Hge) Hpos]]; [lia|]. destruct (Z.eqb_spec n 0); [lia|].
    destruct old as [|x old _] using rev_ind; [done|]. rewrite length_app in Ho. cbn in Ho.
    rewrite <- app_assoc, (app_assoc pre). cbn [app].
    replace (base + cur) with (Z.of_nat (length (pre ++ old))) by (rewrite length_app; lia).
    rewrite set_index_at. cbn [mbind res_bind]. rewrite <- app_assoc, Z.rem_mod_nonneg, Z.quot_div_nonneg by lia.
    rewrite IH; [cbn [pad]; by rewrite <- app_assoc | lia | | lia | lia].
    pose proof (Z.div_mod n 10 ltac:(lia)). pose proof (Z.mod_pos_bound n 10 ltac:(lia)).
    rewrite Nat2Z.inj_succ, Z.pow_succ_r in Hlt by lia. destruct k as [|k].
    + left. split; [done|]. change (10 ^ Z.of_nat 0) with 1 in Hlt. lia.
    + right. destruct Hge as [?|Hge]; [lia|].
      replace (Z.of_nat (S (S k)) - 1) with (Z.succ (Z.of_nat k)) in Hge by lia. rewrite Z.pow_succ_r in Hge by lia.
      assert (0 < 10 ^ Z.of_nat k) by (apply Z.pow_pos_nonneg; lia).
      replace (Z.of_nat (S k) - 1) with (Z.of_nat k) in * by lia.
      split; [|lia]. split_and!; [lia | lia | lia | right].
      replace (Z.of_nat (S k) - 1) with (Z.of_nat k) by lia. lia.
Qed.

(** [parse] writes the text of a number, where it is not the least of its type. *)
Lemma parse_int_spec w n pre old post : - 2 ^ (w - 1) < n < 2 ^ 64 -> 0 < w <= 64 -> length old = length (text n) ->
  parse_int w (pre ++ old ++ post) (Z.of_nat (length pre)) n (Z.of_nat (length old)) = Ok (pre ++ text n ++ post).
Proof.
  intros Hn Hw Ho. assert (2 ^ (w - 1) <= 2 ^ 63) by (apply Z.pow_le_mono_r; lia).
  assert (forall m, 0 < m < 2 ^ 64 -> (digits m <= 20)%nat) as H20.
  { intros m Hm. destruct (digits_has m ltac:(lia)) as (H1 & H2 & [->|H3]); [lia|].
    destruct (decide (digits m <= 20)%nat); [done|].
    assert (10 ^ 20 <= 10 ^ (Z.of_nat (digits m) - 1)) by (apply Z.pow_le_mono_r; lia).
    assert (2 ^ 64 < 10 ^ 20) by lia. lia. }
  unfold parse_int, text in *. destruct (Z.ltb_spec n 0).
  - destruct old as [|x old]; [done|]. cbn [length] in Ho. rewrite length_pad in Ho. injection Ho as Ho.
    cbn [app]. rewrite set_index_at. cbn [mbind res_bind]. rewrite sint_ok by lia. cbn [mbind res_bind].
    change (pre ++ 45 :: old ++ post) with (pre ++ [45] ++ old ++ post). rewrite app_assoc.
    rewrite (parse_digits_spec _ (digits (- n))); [by rewrite <- app_assoc | | right | done |].
    + specialize (H20 (- n) ltac:(lia)). lia.
    + split; [apply digits_has; lia | lia].
    + rewrite length_app. cbn [length]. lia.
  - rewrite length_pad in Ho. destruct (Z.eqb_spec n 0) as [->|].
    + change (digits 0) with 1%nat in *. destruct old as [|x [|]]; try done. cbn [app pad]. by rewrite set_index_at.
    + rewrite (parse_digits_spec _ (digits n)); [done | | right | done |].
      * specialize (H20 n ltac:(lia)). lia.
      * split; [apply digits_has; lia | lia].
      * lia.
Qed.

(** The text of a number is read back by the [toDec] of StringUtils.h. *)
Lemma toDec_spec w ds v : 0 < w -> Forall (fun c => 48 <= c <= 57) ds -> 0 <= v ->
  foldl (fun v c => v * 10 + (c - 48)) v ds < 2 ^ (w - 1) ->
  foldR (fun dec c => t ← sint w (dec * 10); sint w (t + (c - 48))) v ds = Ok (foldl (fun v c => v * 10 + (c - 48)) v ds).
Proof.
  intros Hw Hd. revert v. induction Hd as [|c ds Hc Hd IH]; intros v Hv Hb; cbn [foldR foldl] in *; [done|].
  assert (forall ds x, Forall (fun c => 48 <= c <= 57) ds -> 0 <= x -> x <= foldl (fun v c => v * 10 + (c - 48)) x ds) as Hm.
  { clear. intros ds x H. revert x. induction H as [|c ds Hc H IH]; intros x Hx; cbn [foldl]; [lia|].
    etrans; [|apply IH; lia]. lia. }
  pose proof (Hm ds (v * 10 + (c - 48)) Hd ltac:(lia)). assert (0 < 2 ^ (w - 1)) by (apply Z.pow_pos_nonneg; lia).
  rewrite !sint_ok by lia. cbn [mbind res_bind]. rewrite sint_ok by lia. cbn [mbind res_bind]. by apply IH; [lia|].
Qed.

Lemma toDec_text w n : 0 < w <= 64 -> 0 <= n < 2 ^ (w - 1) -> toDec w (text n) = Ok n.
Proof.
  intros Hw Hn. assert (2 ^ (w - 1) <= 2 ^ 63) by (apply Z.pow_le_mono_r; lia).
  unfold toDec, text. rewrite (proj2 (Z.ltb_ge n 0)) by lia.
  pose proof (decimal_pad (digits n) n) as E. destruct (digits_has n) as (_ & Hb & _); [lia|].
  rewrite Z.mod_small in E by done. unfold decimal_of in E. rewrite toDec_spec; [by rewrite E | lia | apply pad_digits | done | lia].
Qed.

(** ** What is resolved *)

Definition message_texts (m : message) : list (list Z) :=
  match m with
  | MInt v | MSize v | MLong v => [text v]
  | MChar c => [[c]]
  | MLiteral s | MCstr s | MString s | MIov s => [s]
  | MIov2 s1 s2 => [s1; s2]
  end.

(** The bytes a message takes of the local buffer. *)
Definition local_need (m : message) : Z :=
  match m with
  | MInt v => if (0 <? v) && (v <? 10000) then 0 else Z.of_nat (length (text v))
  | MSize v => if v <? 10000 then 0 else Z.of_nat (length (text v))
  | MLong v => Z.of_nat (length (text v))
  | MChar _ => 1
  | MCstr s | MString s => Z.of_nat (length s)
  | MLiteral _ | MIov _ | MIov2 _ _ => 0
  end.
Definition local_needs (ms : list message) : Z := foldr (fun m n => local_need m + n) 0 ms.

(** The arguments are values of their types; the least values cannot be negated. *)
Definition in_type (m : message) : Prop :=
  match m with
  | MInt v => - 2 ^ 31 < v < 2 ^ 31
  | MSize v => 0 <= v < 2 ^ 64
  | MLong v => - 2 ^ 63 < v < 2 ^ 63
  | _ => True
  end.

Lemma cached_spec v : 0 <= v < 10000 -> cached v = Ok (text v).
Proof.
  intros Hv. unfold cached. rewrite Numeric_spec by lia. rewrite take_app_length' by (by rewrite length_pad).
  unfold text. rewrite (proj2 (Z.ltb_ge v 0)) by lia. do 2 f_equal.
  destruct (num_length_spec v) as (H1 & H2 & H3); [lia|].
  apply (has_digits_unique v); [|apply digits_has; lia]. split_and!; [done | lia | done |].
  destruct (decide (num_length v = 1%nat)); [by left|]. right.
  destruct (decide (10 ^ (Z.of_nat (num_length v) - 1) <= v)); [done|].
  specialize (H3 (num_length v - 1)%nat). rewrite Nat2Z.inj_sub in H3 by lia. specialize (H3 ltac:(lia) ltac:(lia)). lia.
Qed.

(** The vectors of a context show these texts. *)
Record shows (ctx : ResolveContext) (ts : list (list Z)) : Prop := {
  shows_iov : Forall2 (fun v t => iov_bytes (local ctx) v = Ok t /\ iov_len v = Z.of_nat (length t) /\
    match v with Local off len => off + len <= cur ctx | External _ => True end) (ioves ctx) ts;
  shows_total : total ctx = Z.of_nat (length (concat ts));
  shows_cur : 0 <= cur ctx <= Z.of_nat (length (local ctx));
}.

Lemma push_iov_spec v t ctx ts : shows ctx ts -> Z.of_nat (length ts) < room ctx ->
  iov_bytes (local ctx) v = Ok t -> iov_len v = Z.of_nat (length t) ->
  exists ctx', push_iov v ctx = Ok ctx' /\
    ctx' = mkContext (local ctx) (cur ctx) (ioves ctx ++ [v]) (room ctx) (Z.of_nat (length (concat (ts ++ [t])))).
Proof.
  intros [H1 H2 H3] Hr Hv Hl. unfold push_iov. rewrite (Forall2_length _ _ _ H1), (proj2 (Z.ltb_lt _ _)) by done. cbn.
  eexists. split; [done|]. f_equal. rewrite concat_app, length_app, H2, Hl. cbn. rewrite app_nil_r. lia.
Qed.

Lemma external_spec t ctx ts : shows ctx ts -> Z.of_nat (length ts) < room ctx ->
  exists ctx', updateExternal t ctx = Ok ctx' /\ shows ctx' (ts ++ [t]) /\ room ctx' = room ctx /\ cur ctx' = cur ctx /\
    length (local ctx') = length (local ctx).
Proof.
  intros H Hr. destruct (push_iov_spec (External t) t ctx ts H Hr eq_refl eq_refl) as (ctx' & E & ->).
  eexists. split; [exact E|]. destruct H as [H1 H2 H3]. split_and!; try done. constructor; cbn; [|done|done].
  apply Forall2_app; [done|]. by repeat constructor.
Qed.

(** Text written behind the used part of the local buffer. *)
Lemma local_spec t ctx ts buf : shows ctx ts -> Z.of_nat (length ts) < room ctx ->
  write_bytes (local ctx) (cur ctx) t = Ok buf ->
  exists ctx', updateLocal (Z.of_nat (length t)) (set_local buf ctx) = Ok ctx' /\ shows ctx' (ts ++ [t]) /\
    room ctx' = room ctx /\ cur ctx' = cur ctx + Z.of_nat (length t) /\ length (local ctx') = length (local ctx).
Proof.
  intros [H1 H2 H3] Hr Hw. assert (Z.of_nat (length t) + cur ctx <= Z.of_nat (length (local ctx))) as Hfit.
  { destruct (decide (cur ctx + Z.of_nat (length t) <= Z.of_nat (length (local ctx)))); [lia|].
    rewrite write_bytes_out in Hw by lia. done. }
  destruct (write_bytes_ok (local ctx) (cur ctx) t) as (buf' & Hw' & Hl & Hs & Hrest); [lia | lia |].
  assert (buf' = buf) as -> by congruence.
  assert (shows (set_local buf ctx) ts) as Hset.
  { constructor; cbn; [|done | lia]. eapply Forall2_impl; [exact H1|]. intros v t' (E & El & Hv). split_and!; try done.
    destruct v as [off len|bs]; [|done]. cbn in *. rewrite <- E. apply slice_ext; [done|]. intros i Hi. apply Hrest. lia. }
  unfold updateLocal. change (cur (set_local buf ctx)) with (cur ctx). destruct (push_iov_spec (Local (cur ctx) (Z.of_nat (length t))) t _ _ Hset Hr Hs eq_refl) as (ctx' & -> & ->).
  cbn [mbind res_bind]. eexists. split; [done|]. split_and!; try done. destruct Hset as [H1' H2' H3']. cbn in *.
  constructor; cbn; [|done | lia]. apply Forall2_app; [|constructor; [split_and!; [done | done | cbn; lia] | by constructor]].
  eapply Forall2_impl; [exact H1'|]. intros v t' (E & El & Hv). split_and!; [done | done|]. destruct v; [cbn in *; lia | done].
Qed.

Lemma split_room {A} (l : list A) a n : 0 <= a -> 0 <= n -> a + n <= Z.of_nat (length l) ->
  exists pre old post, l = pre ++ old ++ post /\ Z.of_nat (length pre) = a /\ Z.of_nat (length old) = n.
Proof.
  intros Ha Hn H. exists (take (Z.to_nat a) l), (take (Z.to_nat n) (drop (Z.to_nat a) l)), (drop (Z.to_nat n) (drop (Z.to_nat a) l)).
  rewrite !take_drop. split_and!; [done | rewrite length_take; lia | rewrite length_take, length_drop; lia].
Qed.

Lemma write_at {A} (pre old post bs : list A) : length old = length bs ->
  write_bytes (pre ++ old ++ post) (Z.of_nat (length pre)) bs = Ok (pre ++ bs ++ post).
Proof.
  intros H. unfold write_bytes. rewrite !length_app, !(proj2 (Z.leb_le _ _)) by lia. cbn [andb]. rewrite Nat2Z.id.
  rewrite take_app_length. do 3 f_equal. rewrite drop_app_ge by lia.
  replace (length pre + length bs - length pre)%nat with (length bs) by lia. by rewrite drop_app_length'.
Qed.

Lemma dispatch_int_spec w n ctx ts : shows ctx ts -> Z.of_nat (length ts) < room ctx ->
  - 2 ^ (w - 1) < n < 2 ^ 64 -> 0 < w <= 64 -> cur ctx + Z.of_nat (length (text n)) <= Z.of_nat (length (local ctx)) ->
  exists ctx', dispatch_int w n ctx = Ok ctx' /\ shows ctx' (ts ++ [text n]) /\ room ctx' = room ctx /\
    cur ctx' = cur ctx + Z.of_nat (length (text n)) /\ length (local ctx') = length (local ctx).
Proof.
  intros H Hr Hn Hw Hfit. unfold dispatch_int. rewrite parseLength_spec by done. cbn [mbind res_bind].
  destruct (split_room (local ctx) (cur ctx) (Z.of_nat (length (text n)))) as (pre & old & post & El & Ep & Eo);
    [apply H | lia | done |].
  rewrite El, <- Ep, <- Eo. rewrite (parse_int_spec w n pre old post) by (done || lia). cbn [mbind res_bind].
  rewrite Eo, <- El, Ep. apply local_spec; [done | done |]. rewrite El, <- Ep. apply write_at. lia.
Qed.

Lemma dispatch_bytes_spec bs ctx ts : shows ctx ts -> Z.of_nat (length ts) < room ctx ->
  cur ctx + Z.of_nat (length bs) <= Z.of_nat (length (local ctx)) ->
  exists ctx', dispatch_bytes bs ctx = Ok ctx' /\ shows ctx' (ts ++ [bs]) /\ room ctx' = room ctx /\
    cur ctx' = cur ctx + Z.of_nat (length bs) /\ length (local ctx') = length (local ctx).
Proof.
  intros H Hr Hfit. unfold dispatch_bytes.
  destruct (write_bytes_ok (local ctx) (cur ctx) bs) as (buf & E & _); [apply H | done |]. rewrite E. cbn [mbind res_bind].
  by apply local_spec.
Qed.

Lemma resolveDispatch_spec m ctx ts : in_type m -> shows ctx ts -> Z.of_nat (length ts) + iovcnt1 m <= room ctx ->
  cur ctx + local_need m <= Z.of_nat (length (local ctx)) ->
  exists ctx', resolveDispatch m ctx = Ok ctx' /\ shows ctx' (ts ++ message_texts m) /\ room ctx' = room ctx /\
    cur ctx' = cur ctx + local_need m /\ length (local ctx') = length (local ctx).
Proof.
  intros Ht H Hr Hfit.
  assert (forall t, iovcnt1 m = 1 -> exists ctx', updateExternal t ctx = Ok ctx' /\ shows ctx' (ts ++ [t]) /\
    room ctx' = room ctx /\ cur ctx' = cur ctx + 0 /\ length (local ctx') = length (local ctx)) as Hext.
  { intros t E1. destruct (external_spec t ctx ts H ltac:(lia)) as (ctx' & -> & ? & ? & Hc & ?). exists ctx'.
    rewrite Hc, Z.add_0_r. done. }
  destruct m as [v|v|v|c|s|s|s|s|s1 s2]; cbn [resolveDispatch message_texts local_need iovcnt1 in_type] in *;
    try (by apply Hext); try (apply dispatch_bytes_spec; [done | lia | cbn; lia]).
  - destruct (Z.ltb_spec 0 v), (Z.ltb_spec v 10000); cbn [andb] in *;
      try (apply dispatch_int_spec; [done | lia | lia | lia | lia]).
    rewrite cached_spec by lia. by apply Hext.
  - destruct (Z.ltb_spec v 10000); [|apply dispatch_int_spec; [done | lia | lia | lia | lia]].
    rewrite cached_spec by lia. by apply Hext.
  - apply dispatch_int_spec; [done | lia | lia | lia | lia].
  - destruct (external_spec s1 ctx ts H ltac:(lia)) as (c1 & -> & S1 & R1 & C1 & L1). cbn [mbind res_bind].
    destruct (external_spec s2 c1 _ S1) as (c2 & -> & S2 & R2 & C2 & L2); [rewrite length_app; cbn; lia|].
    exists c2. rewrite <- app_assoc in S2. split_and!; [done | done | lia | lia | lia].
Qed.

Lemma local_need_nonneg m : 0 <= local_need m.
Proof. destruct m; cbn; repeat case_match; lia. Qed.

Lemma local_needs_nonneg ms : 0 <= local_needs ms.
Proof. induction ms as [|m ms IH]; cbn; [done|]. pose proof (local_need_nonneg m). unfold local_needs in IH. lia. Qed.

Lemma resolve_spec ms ctx ts : Forall in_type ms -> shows ctx ts -> Z.of_nat (length ts) + iovcnt ms <= room ctx ->
  cur ctx + local_needs ms <= Z.of_nat (length (local ctx)) ->
  exists ctx', resolve ms ctx = Ok ctx' /\ shows ctx' (ts ++ concat (message_texts <$> ms)) /\ room ctx' = room ctx /\
    cur ctx' = cur ctx + local_needs ms /\ length (local ctx') = length (local ctx).
Proof.
  intros Ht. revert ctx ts. induction Ht as [|m ms Hm _ IH]; intros ctx ts H Hr Hfit.
  { exists ctx. cbn. rewrite app_nil_r, Z.add_0_r. done. }
  cbn [iovcnt local_needs foldr] in Hr, Hfit. fold (iovcnt ms) in Hr. fold (local_needs ms) in Hfit.
  pose proof (local_needs_nonneg ms). assert (0 <= iovcnt ms).
  { clear. induction ms as [|m ms IH]; cbn; [done|]. fold (iovcnt ms). destruct m; cbn; lia. }
  destruct (resolveDispatch_spec m ctx ts Hm H ltac:(lia) ltac:(lia)) as (c1 & E1 & S1 & R1 & C1 & L1).
  destruct (IH c1 _ S1) as (c2 & E2 & S2 & R2 & C2 & L2).
  - rewrite length_app. replace (Z.of_nat (length (message_texts m))) with (iovcnt1 m) by (by destruct m). destruct m; cbn in *; lia.
  - lia.
  - exists c2. unfold resolve. cbn [foldR]. rewrite E1. cbn [mbind res_bind]. unfold resolve in E2. rewrite E2.
    cbn [local_needs foldr fmap list_fmap concat]. fold (local_needs ms). rewrite <- app_assoc in S2.
    split_and!; [done | done | congruence | lia | congruence].
Qed.

(** ** The record *)

Fixpoint record (ts : list (list Z)) : list Z :=
  match ts with
  | [] => []
  | t :: ts => t ++ (match ts with [] => 10 | _ => 32 end) :: record ts
  end.

Lemma length_record ts : length (record ts) = (length (concat ts) + length ts)%nat.
Proof. induction ts as [|t ts IH]; [done|]. cbn [record concat length]. rewrite !length_app. cbn [length]. lia. Qed.

Lemma put_from_spec src vs ts pre old post :
  Forall2 (fun v t => iov_bytes src v = Ok t /\ iov_len v = Z.of_nat (length t)) vs ts ->
  length old = length (record ts) ->
  put_from src vs (pre ++ old ++ post) (Z.of_nat (length pre)) = Ok (pre ++ record ts ++ post).
Proof.
  intros H. revert pre old. induction H as [|v t vs ts [Hv Hl] H IH]; intros pre old Ho; cbn [put_from record].
  { by destruct old. }
  rewrite Hv. cbn [mbind res_bind]. cbn [record] in Ho. rewrite length_app in Ho. cbn [length] in Ho.
  destruct (split_room old 0 (Z.of_nat (length t))) as (o1 & o2 & o3 & -> & E1 & E2); [lia.. |].
  destruct o1; [|cbn in *; lia]. cbn [app] in *. rewrite length_app in Ho.
  destruct o3 as [|x o3]; [cbn in Ho; lia|]. cbn [length] in Ho.
  rewrite <- app_assoc. rewrite write_at by lia. cbn [mbind res_bind].
  assert (match vs with [] => 10 | _ => 32 end = match ts with [] => 10 | _ => 32 end) as -> by (by destruct H).
  set (c := match ts with [] => 10 | _ => 32 end). cbn [app]. rewrite (app_assoc pre t).
  replace (Z.of_nat (length pre) + iov_len v) with (Z.of_nat (length (pre ++ t))) by (rewrite length_app; lia).
  rewrite set_index_at. cbn [mbind res_bind].
  change ((pre ++ t) ++ c :: o3 ++ post) with ((pre ++ t) ++ [c] ++ o3 ++ post). rewrite (app_assoc (pre ++ t)).
  replace (Z.of_nat (length (pre ++ t)) + 1) with (Z.of_nat (length ((pre ++ t) ++ [c]))) by (rewrite (length_app _ [c]); cbn; lia).
  rewrite IH by lia. by rewrite <- !app_assoc.
Qed.

Lemma put_spec ctx ts pre old post : shows ctx ts -> Z.of_nat (length old) = calspace ctx ->
  put ctx (pre ++ old ++ post) (Z.of_nat (length pre)) = Ok (pre ++ record ts ++ post).
Proof.
  intros [H1 H2 H3] Ho. unfold put. apply put_from_spec.
  - eapply Forall2_impl; [exact H1|]. by intros v t (? & ? & _).
  - unfold calspace in Ho. rewrite H2, (Forall2_length _ _ _ H1) in Ho. rewrite length_record. lia.
Qed.

Lemma calspace_record ctx ts : shows ctx ts -> calspace ctx = Z.of_nat (length (record ts)).
Proof. intros [H1 H2 H3]. unfold calspace. rewrite H2, (Forall2_length _ _ _ H1), length_record. lia. Qed.

(** With enough room in the buffer, [put] is a copy of the record. *)
Lemma put_write ctx ts buf offset : shows ctx ts -> 0 <= offset ->
  offset + calspace ctx <= Z.of_nat (length buf) -> put ctx buf offset = write_bytes buf offset (record ts).
Proof.
  intros H Ho Hfit. rewrite (calspace_record _ _ H) in Hfit.
  destruct (split_room buf offset (Z.of_nat (length (record ts)))) as (pre & old & post & -> & E1 & E2); [lia.. |].
  rewrite <- E1. rewrite write_at by lia. apply put_spec; [done|]. by rewrite (calspace_record _ _ H).
Qed.

Lemma log_context_spec ms tmp : Forall in_type ms -> local_needs ms <= Z.of_nat (length tmp) ->
  exists ctx, log_context ms tmp = Ok ctx /\ shows ctx (concat (message_texts <$> ms)).
Proof.
  intros Ht Hfit. destruct (resolve_spec ms (mkContext tmp 0 [] (iovcnt ms) 0) []) as (ctx & E & H & _); try done.
  - constructor; cbn; [by constructor | done | lia].
  - by exists ctx.
Qed.

Lemma local_needs_app ms1 ms2 : local_needs (ms1 ++ ms2) = local_needs ms1 + local_needs ms2.
Proof. induction ms1 as [|m ms1 IH]; cbn; [done|]. fold (local_needs (ms1 ++ ms2)). fold (local_needs ms1). lia. Qed.

Lemma iovcnt_app ms1 ms2 : iovcnt (ms1 ++ ms2) = iovcnt ms1 + iovcnt ms2.
Proof. induction ms1 as [|m ms1 IH]; cbn; [done|]. fold (iovcnt (ms1 ++ ms2)). fold (iovcnt ms1). lia. Qed.

(** A string that does not fit the rest of the local buffer is copied over its end. *)
Lemma log_context_overflow ms1 s ms2 tmp : Forall in_type ms1 -> local_needs ms1 <= Z.of_nat (length tmp) ->
  Z.of_nat (length tmp) < local_needs ms1 + Z.of_nat (length s) ->
  log_context (ms1 ++ MString s :: ms2) tmp = Ub ArrayIndex.
Proof.
  intros Ht H1 H2. unfold log_context, resolve. rewrite foldR_app.
  destruct (resolve_spec ms1 (mkContext tmp 0 [] (iovcnt (ms1 ++ MString s :: ms2)) 0) []) as (ctx & E & H & _ & Hc & Hl); try done.
  - constructor; cbn; [by constructor | done | lia].
  - cbn [length room]. rewrite iovcnt_app. assert (0 <= iovcnt (MString s :: ms2)); [|lia].
    cbn. fold (iovcnt ms2). assert (0 <= iovcnt ms2); [|lia].
    clear. induction ms2 as [|m ms IH]; cbn; [done|]. fold (iovcnt ms). destruct m; cbn; lia.
  - unfold resolve in E. rewrite E. cbn [mbind res_bind foldR resolveDispatch]. unfold dispatch_bytes.
    cbn [cur local] in Hc, Hl. pose proof (local_needs_nonneg ms1). rewrite write_bytes_out by lia. done.
Qed.

(** ** Names of source files *)

(** [lastPathComponentPos] on the characters of the path with the zero at its end. *)
Fixpoint last_slash (i : nat) (path : list Z) : Z :=
  match i with
  | O => 0
  | S k => match path !! i with Some 47 => Z.of_nat i | _ => last_slash k path end
  end.

Definition lastPathComponentPos (path : list Z) : Z := last_slash (length path - 1) path.
Definition lastPathComponentSize (path : list Z) : Z := Z.of_nat (length path) - lastPathComponentPos path - 1.
Definition filename (path : list Z) : res (list Z) := slice path (lastPathComponentPos path) (lastPathComponentSize path).

(** The file name with the slash before it. *)
Lemma filename_spec dir name : dir <> [] -> Forall (fun c => c <> 47) name ->
  filename (dir ++ 47 :: name ++ [0]) = Ok (47 :: name).
Proof.
  intros Hd Hn. assert (forall k, (k <= length name + 1)%nat ->
    last_slash (length dir + k) (dir ++ 47 :: name ++ [0]) = Z.of_nat (length dir)) as Hp.
  { induction k as [|k IH]; intros Hk.
    - rewrite Nat.add_0_r. destruct (length dir) as [|n] eqn:E; [by destruct dir|]. cbn [last_slash].
      rewrite <- E, lookup_app_r, Nat.sub_diag by lia. done.
    - rewrite Nat.add_succ_r. cbn [last_slash]. rewrite lookup_app_r by lia.
      replace (S (length dir + k) - length dir)%nat with (S k) by lia. cbn [lookup list_lookup].
      destruct ((name ++ [0]) !! k) as [c|] eqn:E; [|apply IH; lia].
      assert (c <> 47) as Hc.
      { apply list_elem_of_lookup_2 in E. apply elem_of_app in E as [E|E%list_elem_of_singleton]; [|by subst].
        rewrite Forall_forall in Hn. by apply Hn. }
      rewrite IH by lia. repeat (case_match; try done). }
  unfold filename, lastPathComponentSize, lastPathComponentPos. rewrite !length_app. cbn [length]. rewrite length_app. cbn [length].
  replace (length dir + S (length name + 1) - 1)%nat with (length dir + (length name + 1))%nat by lia. rewrite Hp by lia.
  rewrite slice_ok; [|lia | lia | rewrite length_app; cbn [length]; rewrite length_app; cbn; lia].
  rewrite Nat2Z.id, drop_app_length. f_equal.
  replace (Z.to_nat _) with (length (47 :: name)) by (cbn [length]; lia).
  change (47 :: name ++ [0]) with ((47 :: name) ++ [0]). apply take_app_length.
Qed.
