(* ===== verification/LogConf.v ===== *)
(** * The configuration and the front of the logger

    The builder of src/net/fluent/include/logger/Log.hpp that src/net/fluent/dlog.conf is a program
    of, the levels and tags, and LogBase: a logging call from its arguments to its record. *)

From S2P Require Import Prelude Bytes LogMeta LogChrono LogStream.
From stdpp Require Import list strings.
#[local] Open Scope Z_scope.

(** The characters of a literal, without the zero at its end. *)
Definition chars (s : string) : list Z := (fun a => Z.of_N (Ascii.N_of_ascii a)) <$> String.list_ascii_of_string s.

(** ** The builder *)

Inductive LogLevel : Type := DEBUG | INFO | WARN | ERROR | WTF.
#[global] Instance level_eq : EqDecision LogLevel.
Proof. solve_decision. Defined.
Definition level_index (l : LogLevel) : nat := match l with DEBUG => 0 | INFO => 1 | WARN => 2 | ERROR => 3 | WTF => 4 end.

Inductive config_type : Type := CONFIG | LOG_PATH | LOG_FILTER | MAX_FILE_SIZE | ROLLING | MSG_ALIGN.
#[global] Instance config_type_eq : EqDecision config_type.
Proof. solve_decision. Defined.

(** Times in milliseconds. *)
Record config : Type := mkConfig {
  _type : config_type; _log_dir : list Z; _log_filename : list Z; _log_filename_extension : list Z;
  _fileMaxSize : Z; _logOpenFlags : list Z; _fileRollingInterval : Z; _msg_align : Z;
}.

(** [config(enum type)]: the initializers of the members. *)
Definition config_new (t : config_type) : config :=
  mkConfig t (chars ".") (chars "log_default") (chars ".log") 0 [0; 0; 0; 0; 0] (24 * 60 * 60 * 1000) 20.

Definition copy (rhs c : config) : config :=
  mkConfig (_type rhs) (_log_dir rhs) (_log_filename rhs) (_log_filename_extension rhs) (_fileMaxSize rhs)
    (_logOpenFlags rhs) (_fileRollingInterval rhs) (_msg_align c).

(** The [switch] of the constructor from a list. *)
Definition add_child (c l : config) : config :=
  match _type l with
  | CONFIG => copy l c
  | LOG_PATH => mkConfig (_type c) (_log_dir l) (_log_filename l) (_log_filename_extension l) (_fileMaxSize c)
      (_logOpenFlags c) (_fileRollingInterval c) (_msg_align c)
  | LOG_FILTER => mkConfig (_type c) (_log_dir c) (_log_filename c) (_log_filename_extension c) (_fileMaxSize c)
      (_logOpenFlags l) (_fileRollingInterval c) (_msg_align c)
  | MAX_FILE_SIZE => mkConfig (_type c) (_log_dir c) (_log_filename c) (_log_filename_extension c) (_fileMaxSize l)
      (_logOpenFlags c) (_fileRollingInterval c) (_msg_align c)
  | ROLLING => mkConfig (_type c) (_log_dir c) (_log_filename c) (_log_filename_extension c) (_fileMaxSize c)
      (_logOpenFlags c) (_fileRollingInterval l) (_msg_align c)
  | MSG_ALIGN => mkConfig (_type c) (_log_dir c) (_log_filename c) (_log_filename_extension c) (_fileMaxSize c)
      (_logOpenFlags c) (_fileRollingInterval c) (_msg_align l)
  end.

Definition config_list (children : list config) : config := foldl add_child (config_new CONFIG) children.

Inductive path_type : Type := PATH | DIR | FILENAME | EXTENSION.

(** A log_path: the config it is derived from, and its own member. *)
Record log_path : Type := mkPath { as_config : config; _path_type : path_type }.

Definition log_path_new (t : path_type) : log_path := mkPath (config_new LOG_PATH) t.

Definition set_path (c : config) (d f e : list Z) : config :=
  mkConfig (_type c) d f e (_fileMaxSize c) (_logOpenFlags c) (_fileRollingInterval c) (_msg_align c).

Definition add_path (p l : log_path) : log_path :=
  let c := as_config p in let k := as_config l in
  match _path_type l with
  | DIR => mkPath (set_path c (_log_dir k) (_log_filename c) (_log_filename_extension c)) (_path_type p)
  | FILENAME => mkPath (set_path c (_log_dir c) (_log_filename k) (_log_filename_extension c)) (_path_type p)
  | EXTENSION => mkPath (set_path c (_log_dir c) (_log_filename c) (_log_filename_extension k)) (_path_type p)
  | PATH => p
  end.

Definition log_path_list (children : list log_path) : log_path := foldl add_path (log_path_new PATH) children.

Definition log_dir (dir : list Z) : log_path :=
  let c := config_new LOG_PATH in mkPath (set_path c dir (_log_filename c) (_log_filename_extension c)) DIR.
Definition log_filename (name : list Z) : log_path :=
  let c := config_new LOG_PATH in mkPath (set_path c (_log_dir c) name (_log_filename_extension c)) FILENAME.
Definition log_filename_extension (extension : list Z) : log_path :=
  let c := config_new LOG_PATH in mkPath (set_path c (_log_dir c) (_log_filename c) extension) EXTENSION.

Definition log_filter (levels : list LogLevel) : config :=
  let c := config_new LOG_FILTER in
  mkConfig (_type c) (_log_dir c) (_log_filename c) (_log_filename_extension c) (_fileMaxSize c)
    (foldl (fun flags l => <[level_index l := 1]> flags) (_logOpenFlags c) levels) (_fileRollingInterval c) (_msg_align c).

Definition msg_align (align : Z) : config :=
  let c := config_new MSG_ALIGN in
  mkConfig (_type c) (_log_dir c) (_log_filename c) (_log_filename_extension c) (_fileMaxSize c) (_logOpenFlags c) (_fileRollingInterval c) align.
Definition file_max_size (size : Z) : config :=
  let c := config_new MAX_FILE_SIZE in
  mkConfig (_type c) (_log_dir c) (_log_filename c) (_log_filename_extension c) size (_logOpenFlags c) (_fileRollingInterval c) (_msg_align c).
Definition file_rolling_interval (interval : Z) : config :=
  let c := config_new ROLLING in
  mkConfig (_type c) (_log_dir c) (_log_filename c) (_log_filename_extension c) (_fileMaxSize c) (_logOpenFlags c) interval (_msg_align c).

(** The literals, unsigned long long. *)
Definition B (x : Z) : Z := x.
Definition KB (x : Z) : Z := u64 (B 1024 * x).
Definition MB (x : Z) : Z := u64 (KB 1024 * x).
Definition GB (x : Z) : Z := u64 (MB 1024 * x).

Record StaticConfig : Type := mkStatic {
  dir : list Z; name : list Z; extension : list Z; fileMaxSize : Z;
  debugOn : bool; infoOn : bool; warnOn : bool; errorOn : bool; wtfOn : bool;
  fileRollingInterval : Z; align : Z;
}.

Definition flag (c : config) (i : nat) : bool := negb (nth i (_logOpenFlags c) 0 =? 0).

(** [operator StaticConfig] *)
Definition static_config (c : config) : StaticConfig :=
  mkStatic (_log_dir c) (_log_filename c) (_log_filename_extension c) (_fileMaxSize c)
    (flag c 0) (flag c 1) (flag c 2) (flag c 3) (flag c 4) (_fileRollingInterval c) (_msg_align c).

(** dlog.conf *)
Definition globalConfigBoot : StaticConfig :=
  static_config (config_list [
    as_config (log_path_list [log_dir (chars "."); log_filename (chars "fluent"); log_filename_extension (chars ".log")]);
    log_filter [DEBUG; INFO; WARN; ERROR; WTF];
    file_max_size (MB 100);
    file_rolling_interval (24 * 60 * 60 * 1000)]).

(** ** Levels and tags *)

(** "DIWE?" *)
Definition levelFormat (l : LogLevel) : Z := match l with DEBUG => 68 | INFO => 73 | WARN => 87 | ERROR => 69 | WTF => 63 end.

Inductive tag : Type := DateTimeTag | ThreadIdTag | LogLevelTag.
#[global] Instance tag_eq : EqDecision tag.
Proof. solve_decision. Defined.

(** [Elem<Tag>::value] *)
Definition tag_value (t : tag) : Z := match t with DateTimeTag => 1 | LogLevelTag => 2 | ThreadIdTag => 3 end.

(** The constructor of Tid and [Tid::format]. *)
Definition tid_format (tid : Z) : res (list Z) :=
  len ← parseLength 32 tid; buf ← parse_int 32 (replicate 33 0) 0 tid len; slice buf 0 len.

(** [Tags::format()] *)
Definition tag_format (level : LogLevel) (point tid : Z) (t : tag) (st : Records) : res (message * Records) :=
  match t with
  | DateTimeTag => '(d, t, st) ← format point st; Ok (MIov2 d t, st)
  | ThreadIdTag => s ← tid_format tid; Ok (MIov s, st)
  | LogLevelTag => Ok (MChar (levelFormat level), st)
  end.

(** ** LogBase *)

(** The arguments of [LogBaseImpl::log]: the tags in the order of the sort, and the message. *)
Definition logFormat (level : LogLevel) (Tags : list tag) (point tid : Z) (msg : list message) (st : Records)
  : res (list message * Records) :=
  match Sort tag_value (LogLevelTag :: Tags) with
  | None => Ub AssertFailed
  | Some tags =>
      '(ms, st) ← foldR (fun '(ms, st) t => '(m, st) ← tag_format level point tid t st; Ok (ms ++ [m], st)) ([], st) tags;
      Ok (ms ++ msg, st)
  end.

Definition level_on (c : StaticConfig) (level : LogLevel) : bool :=
  match level with DEBUG => debugOn c | INFO => infoOn c | WARN => warnOn c | ERROR => errorOn c | WTF => wtfOn c end.

(** [Log::debug] to [Log::wtf]: what is given to Scheduler::apply, if the level is on.  [tmp] gives
    the local array, of the size that is asked for. *)
Definition log_call (c : StaticConfig) (level : LogLevel) (point tid : Z) (msg : list message) (tmp : Z -> list Z) (st : Records)
  : res (option ResolveContext * Records) :=
  if level_on c level then
    '(ms, st) ← logFormat level [DateTimeTag; ThreadIdTag] point tid msg st;
    ctx ← log_context ms (tmp (bufcnt ms));
    Ok (Some ctx, st)
  else Ok (None, st).

(** [generateFileName]; the texts of the date and of the time are strings up to their zero. *)
Definition generateFileName (c : StaticConfig) (point : Z) (st : Records) : res (list Z * Records) :=
  '(d, t, st) ← format point st;
  let add := (fun ch => if (ch =? 32) || (ch =? 58) then 45 else ch) <$> (d ++ [45] ++ t) in
  Ok (dir c ++ [47] ++ name c ++ [46] ++ add ++ extension c, st).

(** The width of the blanks of the macros DLOG_*_ALIGN. *)
Definition align_width (c : StaticConfig) (path : list Z) (line : Z) : res Z :=
  n ← parseLength 32 line; Ok (Z.max 1 (align c - (lastPathComponentSize path + n))).

(** ** The last setting counts *)

(** The value of the last child that sets a member, or else the initializer. *)
Definition latest {A} (sets : config_type -> bool) (field : config -> A) (children : list config) : A :=
  foldl (fun v l => if sets (_type l) then field l else v) (field (config_new CONFIG)) children.

Definition sets_also (t u : config_type) : bool := bool_decide (u = t) || bool_decide (u = CONFIG).

Lemma config_list_latest children :
  let c := config_list children in
  _log_dir c = latest (sets_also LOG_PATH) _log_dir children /\
  _log_filename c = latest (sets_also LOG_PATH) _log_filename children /\
  _log_filename_extension c = latest (sets_also LOG_PATH) _log_filename_extension children /\
  _logOpenFlags c = latest (sets_also LOG_FILTER) _logOpenFlags children /\
  _fileMaxSize c = latest (sets_also MAX_FILE_SIZE) _fileMaxSize children /\
  _fileRollingInterval c = latest (sets_also ROLLING) _fileRollingInterval children /\
  _msg_align c = latest (fun t => bool_decide (t = MSG_ALIGN)) _msg_align children.
Proof.
  unfold config_list, latest. generalize (config_new CONFIG). induction children as [|l children IH]; intros c; [done|].
  cbn [foldl]. specialize (IH (add_child c l)). cbn zeta in IH |- *. unfold add_child in *. by destruct (_type l).
Qed.

(** The levels of a filter are on, the others are off. *)
Lemma log_filter_spec levels l : flag (log_filter levels) (level_index l) = bool_decide (l ∈ levels).
Proof.
  unfold flag, log_filter. cbn [_logOpenFlags config_new].
  assert (forall flags, length flags = 5%nat ->
    negb (nth (level_index l) (foldl (fun flags l => <[level_index l := 1]> flags) flags levels) 0 =? 0) =
    negb (nth (level_index l) flags 0 =? 0) || bool_decide (l ∈ levels)) as H.
  { induction levels as [|k levels IH]; intros flags Hf; cbn [foldl].
    { rewrite bool_decide_eq_false_2 by apply not_elem_of_nil. by rewrite orb_false_r. }
    rewrite IH by (by rewrite length_insert). destruct flags as [|a [|b [|c [|d [|e [|]]]]]]; try done.
    assert (bool_decide (l ∈ k :: levels) = bool_decide (l = k) || bool_decide (l ∈ levels)) as ->.
    { repeat case_bool_decide; try done; rewrite elem_of_cons in *; tauto. }
    destruct l, k; cbn; by rewrite ?orb_true_r. }
  rewrite H by done. by destruct l.
Qed.

(** ** A logging call *)

Lemma Sort_tags : Sort tag_value [LogLevelTag; DateTimeTag; ThreadIdTag] = Some [DateTimeTag; LogLevelTag; ThreadIdTag].
Proof. vm_compute. reflexivity. Qed.

Lemma text_length n : 0 <= n < 2 ^ 32 -> (length (text n) <= 10)%nat.
Proof.
  intros Hn. unfold text. rewrite (proj2 (Z.ltb_ge n 0)) by lia. rewrite length_pad.
  destruct (digits_has n) as (H1 & H2 & H3); [lia|].
  destruct (decide (digits n <= 10)%nat) as [|Hk]; [done|]. exfalso. destruct H3 as [H3|H3]; [lia|].
  assert (10 ^ 10 <= 10 ^ (Z.of_nat (digits n) - 1)) by (apply Z.pow_le_mono_r; lia). lia.
Qed.

Lemma tid_format_spec tid : 0 <= tid < 2 ^ 31 -> tid_format tid = Ok (text tid).
Proof.
  intros Ht. unfold tid_format. rewrite parseLength_spec by lia. cbn [mbind res_bind].
  pose proof (text_length tid ltac:(lia)) as Hl.
  replace (replicate 33 0) with ([] ++ replicate (length (text tid)) 0 ++ replicate (33 - length (text tid)) 0)
    by (cbn [app]; rewrite <- replicate_add; f_equal; lia).
  pose proof (parse_int_spec 32 tid [] (replicate (length (text tid)) 0) (replicate (33 - length (text tid)) 0)) as H.
  change (Z.of_nat (length [])) with 0 in H. rewrite length_replicate in H. rewrite H; [|lia | lia | done].
  cbn [mbind res_bind app]. rewrite slice_ok; [|lia | lia | rewrite length_app; lia].
  by rewrite Nat2Z.id, drop_0, take_app_length.
Qed.

(** The texts before the message of a record. *)
Definition prefix_texts (level : LogLevel) (point tid : Z) : list (list Z) :=
  [date_text (civil (point / NS_DAY)); time_text (calTime point); [levelFormat level]; text tid].

Lemma logFormat_spec level point tid msg st : records_ok st -> LogChrono.last st <= point < 2 ^ 63 -> point / NS_DAY < LAST_DAY ->
  0 <= tid < 2 ^ 31 ->
  exists st', logFormat level [DateTimeTag; ThreadIdTag] point tid msg st =
    Ok ([MIov2 (date_text (civil (point / NS_DAY))) (time_text (calTime point)); MChar (levelFormat level); MIov (text tid)] ++ msg, st') /\
    records_ok st' /\ LogChrono.last st' <= point.
Proof.
  intros Hst Hp Hd Ht. unfold logFormat. rewrite Sort_tags. cbn [foldR tag_format].
  pose proof (format_spec point st Hst Hp) as Hf. rewrite (proj2 (Z.ltb_lt _ _)) in Hf by done.
  destruct Hf as (st' & -> & Hst' & Hl). cbn [mbind res_bind tag_format app]. rewrite tid_format_spec by done. cbn [mbind res_bind].
  exists st'. done.
Qed.

Lemma bufcnt_app ms1 ms2 : bufcnt (ms1 ++ ms2) = bufcnt ms1 + bufcnt ms2.
Proof. induction ms1 as [|m ms1 IH]; cbn; [done|]. fold (bufcnt (ms1 ++ ms2)). fold (bufcnt ms1). lia. Qed.

Lemma bufcnt_nonneg ms : 0 <= bufcnt ms.
Proof.
  induction ms as [|m ms IH]; [done|]. change (bufcnt (m :: ms)) with (bufcnt1 m + bufcnt ms).
  assert (0 <= bufcnt1 m) by (unfold bufcnt1; destruct m; lia). lia.
Qed.

(** The tags take one byte of the 79 that they reserve. *)
Lemma tags_room d t l i : let ms := [MIov2 d t; MChar l; MIov i] in local_needs ms = 1 /\ bufcnt ms = 79.
Proof. done. Qed.

(** A call with room for its strings gives its record; the room beside the arrays of the message is
    that of the tags. *)
Lemma log_call_spec c level point tid msg tmp st : level_on c level = true ->
  records_ok st -> LogChrono.last st <= point < 2 ^ 63 -> point / NS_DAY < LAST_DAY -> 0 <= tid < 2 ^ 31 ->
  (forall n, 0 <= n -> Z.of_nat (length (tmp n)) = n) -> Forall in_type msg -> local_needs msg <= bufcnt msg + 78 ->
  exists ctx st', log_call c level point tid msg tmp st = Ok (Some ctx, st') /\ records_ok st' /\ LogChrono.last st' <= point /\
    shows ctx (prefix_texts level point tid ++ concat (message_texts <$> msg)).
Proof.
  intros Hon Hst Hp Hd Ht Htmp Hty Hfit. unfold log_call. rewrite Hon.
  destruct (logFormat_spec level point tid msg st Hst Hp Hd Ht) as (st' & -> & Hst' & Hl). cbn [mbind res_bind].
  edestruct log_context_spec as (ctx & E & Hs); [| |rewrite E; cbn [mbind res_bind]].
  - apply Forall_app. split; [by repeat constructor | done].
  - rewrite Htmp, local_needs_app, bufcnt_app by apply bufcnt_nonneg. edestruct tags_room as [-> ->]. lia.
  - exists ctx, st'. split_and!; try done.
Qed.

(** A std::string that is longer is copied over the end of the array. *)
Lemma log_call_overflow c level point tid msg s msg' tmp st : level_on c level = true ->
  records_ok st -> LogChrono.last st <= point < 2 ^ 63 -> point / NS_DAY < LAST_DAY -> 0 <= tid < 2 ^ 31 ->
  (forall n, 0 <= n -> Z.of_nat (length (tmp n)) = n) -> Forall in_type msg -> local_needs msg <= bufcnt msg + 78 ->
  bufcnt (msg ++ MString s :: msg') + 78 < local_needs msg + Z.of_nat (length s) ->
  log_call c level point tid (msg ++ MString s :: msg') tmp st = Ub ArrayIndex.
Proof.
  intros Hon Hst Hp Hd Ht Htmp Hty Hfit Hover. unfold log_call. rewrite Hon.
  destruct (logFormat_spec level point tid (msg ++ MString s :: msg') st Hst Hp Hd Ht) as (st' & -> & _). cbn [mbind res_bind].
  rewrite app_assoc, log_context_overflow; [done | | |].
  - apply Forall_app. split; [by repeat constructor | done].
  - rewrite Htmp, <- app_assoc, local_needs_app, !bufcnt_app in * by apply bufcnt_nonneg. edestruct tags_room as [-> ->].
    pose proof (bufcnt_nonneg (MString s :: msg')). lia.
  - rewrite Htmp, <- app_assoc, local_needs_app, !bufcnt_app in * by apply bufcnt_nonneg. edestruct tags_room as [-> ->]. lia.
Qed.
