(* ===== verification/LogSched.v ===== *)
(** * The two buffers of the logger

    Shared, Scheduler, Wthread and File of src/net/fluent/include/logger/Log.hpp as a step
    relation: any number of threads append records to one buffer, and the writer thread swaps the
    buffers and writes the other one to the file.  A step is one access of one thread to the shared
    object, under sequential consistency. *)

From S2P Require Import Prelude Bytes.
From stdpp Require Import list functions relations.
#[local] Open Scope Z_scope.

(** ** File *)

(** [File::append]: the loop over what [write] returns; -1 is an error, which the comparison of
    an unsigned number with zero does not see.  The result is what was written and the rest of the
    returned numbers. *)
Fixpoint append_loop (results : list Z) (buf : list Z) (written count : Z) (out : list Z) : res (list Z) :=
  if written =? count then Ok out
  else
    match results with
    | [] => NoFuel
    | r :: results =>
        let remain := u64 (count - written) in
        bs ← (if r =? - 1 then Ok [] else slice buf written (Z.min r remain));
        append_loop results buf (u64 (written + u64 r)) count (out ++ bs)
    end.

Section sched.
(** The size of a buffer, [DLOG_BUFSIZE], and [staticConfig.fileMaxSize]. *)
Context (BUFSIZE fileMaxSize : Z).

(** ** Threads *)

(** The points of Scheduler::apply, for the record [r] that Resolver::put writes. *)
Inductive Logger : Type :=
  | LIdle
  | LWant (r : list Z)        (** [lock_guard lk{s.rmtx}] *)
  | LTest (r : list Z)        (** [s.rcur + calspace(args) >= sizeof(s.buf[0])] *)
  | LWantS (r : list Z)       (** [unique_lock _{s.smtx}] *)
  | LClear (r : list Z)       (** [s.sflag = false] *)
  | LRelS (r : list Z)        (** the end of the block *)
  | LSpin (r : list Z)        (** [while(!s.sflag) s.cond.notify_one()] *)
  | LPut (r : list Z)         (** [Resolver::put(args, s.buf[s.ridx] + s.rcur)] *)
  | LAdd (r : list Z)         (** [s.rcur += calspace(args)] *)
  | LUnlock.                  (** the end of apply *)

(** The points of Wthread::writeFunc.  [request] is the result of [wait_for]; [WSwap k] is the
    statement [k] of the lambda [swap]. *)
Inductive Writer : Type :=
  | WTop                                  (** [while(!kflag.load())] *)
  | WLock                                 (** [unique_lock lk{s.smtx}] *)
  | WPred                                 (** the condition of [wait_for] *)
  | WSleep                                (** waiting, without the lock *)
  | WTimeout                              (** the condition after the time is over *)
  | WTry                                  (** [s.rmtx.try_lock()] *)
  | WContinue                             (** [continue] *)
  | WSwap (k : nat) (request : bool) (cur : Z)
  | WRelR (cur : Z) (idx : bool)          (** the end of the block with [s.rmtx] *)
  | WRelS (cur : Z) (idx : bool)          (** the end of the block with [s.smtx] *)
  | WRoll (cur : Z) (idx : bool)          (** [file.updatable(cur)] *)
  | WWrite (cur : Z) (idx : bool) (written : Z)  (** [file.append(s.buf[idx], cur)] *)
  | WExit.

Inductive owner : Type := ByWriter | ByLogger (i : nat).

(** An index of the two buffers is a boolean, [^= 1] its negation. *)
Record Sys : Type := mkSys {
  buf : bool -> list Z; ridx : bool; rcur : Z; widx : bool; wcur : Z; sflag : bool;
  rmtx : option owner; smtx : option owner; kflag : bool;
  writer : Writer; logger : nat -> Logger;
  files : list (list Z);      (** the files that were full *)
  file : list Z;              (** the file that is open; its length is [_written] *)
  logged : list (list Z);     (** ghost: the records in the order of their calls *)
}.

Definition init (buf0 : bool -> list Z) : Sys :=
  mkSys buf0 false 0 true 0 true None None false WTop (fun _ => LIdle) [] [] [].

Definition set_buf (i : bool) (b : list Z) (f : bool -> list Z) : bool -> list Z := fun j => if Bool.eqb i j then b else f j.

(** Changes of the state. *)
Definition at_logger (i : nat) (p : Logger) (s : Sys) : Sys :=
  mkSys (buf s) (ridx s) (rcur s) (widx s) (wcur s) (sflag s) (rmtx s) (smtx s) (kflag s) (writer s) (<[i := p]> (logger s))
    (files s) (file s) (logged s).
Definition at_writer (p : Writer) (s : Sys) : Sys :=
  mkSys (buf s) (ridx s) (rcur s) (widx s) (wcur s) (sflag s) (rmtx s) (smtx s) (kflag s) p (logger s) (files s) (file s) (logged s).
Definition set_rmtx (o : option owner) (s : Sys) : Sys :=
  mkSys (buf s) (ridx s) (rcur s) (widx s) (wcur s) (sflag s) o (smtx s) (kflag s) (writer s) (logger s) (files s) (file s) (logged s).
Definition set_smtx (o : option owner) (s : Sys) : Sys :=
  mkSys (buf s) (ridx s) (rcur s) (widx s) (wcur s) (sflag s) (rmtx s) o (kflag s) (writer s) (logger s) (files s) (file s) (logged s).
Definition set_sflag (b : bool) (s : Sys) : Sys :=
  mkSys (buf s) (ridx s) (rcur s) (widx s) (wcur s) b (rmtx s) (smtx s) (kflag s) (writer s) (logger s) (files s) (file s) (logged s).
Definition set_rbuf (b : list Z) (s : Sys) : Sys :=
  mkSys (set_buf (ridx s) b (buf s)) (ridx s) (rcur s) (widx s) (wcur s) (sflag s) (rmtx s) (smtx s) (kflag s) (writer s) (logger s)
    (files s) (file s) (logged s).
Definition add_record (r : list Z) (s : Sys) : Sys :=
  mkSys (buf s) (ridx s) (rcur s + Z.of_nat (length r)) (widx s) (wcur s) (sflag s) (rmtx s) (smtx s) (kflag s) (writer s) (logger s)
    (files s) (file s) (logged s ++ [r]).
Definition kill (s : Sys) : Sys :=
  mkSys (buf s) (ridx s) (rcur s) (widx s) (wcur s) (sflag s) (rmtx s) (smtx s) true (writer s) (logger s) (files s) (file s) (logged s).
Definition set_files (fs : list (list Z)) (f : list Z) (s : Sys) : Sys :=
  mkSys (buf s) (ridx s) (rcur s) (widx s) (wcur s) (sflag s) (rmtx s) (smtx s) (kflag s) (writer s) (logger s) fs f (logged s).

(** A statement of the lambda [swap]. *)
Definition swap_step (k : nat) (request : bool) (cur : Z) (s : Sys) : Sys :=
  let next cur := WSwap (S k) request cur in
  let go ridx rcur widx wcur sflag p :=
    mkSys (buf s) ridx rcur widx wcur sflag (rmtx s) (smtx s) (kflag s) p (logger s) (files s) (file s) (logged s) in
  match k with
  | 0%nat => go (negb (ridx s)) (rcur s) (widx s) (wcur s) (sflag s) (next cur)
  | 1%nat => go (ridx s) (rcur s) (negb (widx s)) (wcur s) (sflag s) (next cur)
  | 2%nat => go (ridx s) (rcur s) (widx s) (rcur s) (sflag s) (next cur)
  | 3%nat => go (ridx s) 0 (widx s) (wcur s) (sflag s) (next cur)
  | 4%nat => go (ridx s) (rcur s) (widx s) (wcur s) true (next cur)
  | 5%nat => go (ridx s) (rcur s) (widx s) (wcur s) (sflag s) (next (wcur s))
  | 6%nat => go (ridx s) (rcur s) (widx s) 0 (sflag s) (next cur)
  | _ => go (ridx s) (rcur s) (widx s) (wcur s) (sflag s)
           (if request then WRelS cur (widx s) else WRelR cur (widx s))
  end.

Inductive step (s : Sys) : Sys -> Prop :=
  (* Scheduler::apply; a record that is longer than a buffer would be copied over its end *)
  | l_call i r : logger s i = LIdle -> Z.of_nat (length r) <= BUFSIZE -> step s (at_logger i (LWant r) s)
  | l_lock i r : logger s i = LWant r -> rmtx s = None ->
      step s (at_logger i (LTest r) (set_rmtx (Some (ByLogger i)) s))
  | l_full i r : logger s i = LTest r -> BUFSIZE <= rcur s + Z.of_nat (length r) -> step s (at_logger i (LWantS r) s)
  | l_room i r : logger s i = LTest r -> rcur s + Z.of_nat (length r) < BUFSIZE -> step s (at_logger i (LPut r) s)
  | l_lockS i r : logger s i = LWantS r -> smtx s = None ->
      step s (at_logger i (LClear r) (set_smtx (Some (ByLogger i)) s))
  | l_clear i r : logger s i = LClear r -> step s (at_logger i (LRelS r) (set_sflag false s))
  | l_relS i r : logger s i = LRelS r -> step s (at_logger i (LSpin r) (set_smtx None s))
  | l_spin i r : logger s i = LSpin r -> sflag s = false -> step s s
  | l_swapped i r : logger s i = LSpin r -> sflag s = true -> step s (at_logger i (LPut r) s)
  | l_put i r b : logger s i = LPut r -> write_bytes (buf s (ridx s)) (rcur s) r = Ok b ->
      step s (at_logger i (LAdd r) (set_rbuf b s))
  | l_add i r : logger s i = LAdd r -> step s (at_logger i LUnlock (add_record r s))
  | l_unlock i : logger s i = LUnlock -> step s (at_logger i LIdle (set_rmtx None s))
  (* Wthread::kill *)
  | w_kill : step s (kill s)
  (* Wthread::writeFunc *)
  | w_exit : writer s = WTop -> kflag s = true -> step s (at_writer WExit s)
  | w_top : writer s = WTop -> kflag s = false -> step s (at_writer WLock s)
  | w_lock : writer s = WLock -> smtx s = None -> step s (at_writer WPred (set_smtx (Some ByWriter) s))
  | w_request : writer s = WPred -> sflag s = false -> step s (at_writer (WSwap 0 true 0) s)
  | w_sleep : writer s = WPred -> sflag s = true -> step s (at_writer WSleep (set_smtx None s))
  | w_wake : writer s = WSleep -> smtx s = None -> step s (at_writer WPred (set_smtx (Some ByWriter) s))
  | w_time : writer s = WSleep -> smtx s = None -> step s (at_writer WTimeout (set_smtx (Some ByWriter) s))
  | w_late : writer s = WTimeout -> sflag s = false -> step s (at_writer (WSwap 0 true 0) s)
  | w_none : writer s = WTimeout -> sflag s = true -> step s (at_writer WTry s)
  | w_try : writer s = WTry -> rmtx s = None -> step s (at_writer (WSwap 0 false 0) (set_rmtx (Some ByWriter) s))
  | w_busy o : writer s = WTry -> rmtx s = Some o -> step s (at_writer WContinue s)
  | w_continue : writer s = WContinue -> step s (at_writer WTop (set_smtx None s))
  | w_swap k request cur : writer s = WSwap k request cur -> step s (swap_step k request cur s)
  | w_relR cur idx : writer s = WRelR cur idx -> step s (at_writer (WRelS cur idx) (set_rmtx None s))
  | w_relS cur idx : writer s = WRelS cur idx -> step s (at_writer (WRoll cur idx) (set_smtx None s))
  (* the clock may have reached the interval *)
  | w_roll cur idx : writer s = WRoll cur idx -> step s (at_writer (WWrite cur idx 0) (set_files (files s ++ [file s]) [] s))
  | w_same cur idx : writer s = WRoll cur idx -> Z.of_nat (length (file s)) + cur < fileMaxSize ->
      step s (at_writer (WWrite cur idx 0) s)
  (* [write] takes some of the bytes *)
  | w_write cur idx written n bs : writer s = WWrite cur idx written -> 0 < n -> written + n <= cur ->
      slice (buf s idx) written n = Ok bs ->
      step s (at_writer (WWrite cur idx (written + n)) (set_files (files s) (file s ++ bs) s))
  | w_done cur idx : writer s = WWrite cur idx cur -> step s (at_writer WTop s).

Inductive reachable (buf0 : bool -> list Z) : Sys -> Prop :=
  | reach_init : reachable buf0 (init buf0)
  | reach_step s s' : reachable buf0 s -> step s s' -> reachable buf0 s'.
End sched.

(** * The two buffers of the logger: the invariant

    The locks, the hand-shake of the swap, and where the bytes of the records are. *)
#[local] Open Scope Z_scope.

Section inv.
Context (BUFSIZE fileMaxSize : Z).

(** Who holds the locks. *)
Definition holdsR (p : Logger) : bool :=
  match p with LIdle | LWant _ => false | _ => true end.
Definition holdsS (p : Logger) : bool :=
  match p with LClear _ | LRelS _ => true | _ => false end.
Definition writerR (p : Writer) : bool :=
  match p with WSwap _ false _ | WRelR _ _ => true | _ => false end.
Definition writerS (p : Writer) : bool :=
  match p with WPred | WTimeout | WTry | WContinue | WSwap _ _ _ | WRelR _ _ | WRelS _ _ => true | _ => false end.

Definition mutex_ok (m : option owner) (w : bool) (l : nat -> bool) : Prop :=
  forall o, m = Some o <-> match o with ByWriter => w = true | ByLogger i => l i = true end.

(** The bytes that the writer has taken over, and those in the buffer for the loggers. *)
Definition pending (s : Sys) : list Z :=
  match writer s with
  | WSwap 0 _ _ => []
  | WSwap 1 _ _ | WSwap 2 _ _ => take (Z.to_nat (rcur s)) (buf s (negb (ridx s)))
  | WSwap 3 _ _ | WSwap 4 _ _ | WSwap 5 _ _ => take (Z.to_nat (wcur s)) (buf s (negb (ridx s)))
  | WSwap _ _ cur => take (Z.to_nat cur) (buf s (negb (ridx s)))
  | WRelR cur idx | WRelS cur idx | WRoll cur idx => take (Z.to_nat cur) (buf s idx)
  | WWrite cur idx written => drop (Z.to_nat written) (take (Z.to_nat cur) (buf s idx))
  | _ => []
  end.

Definition front (s : Sys) : list Z :=
  match writer s with
  | WSwap 1 _ _ | WSwap 2 _ _ | WSwap 3 _ _ => []
  | _ => take (Z.to_nat (rcur s)) (buf s (ridx s))
  end.

(** The record of a logger, and its place in the buffer. *)
Definition logger_ok (s : Sys) (p : Logger) : Prop :=
  match p with
  | LIdle | LUnlock => True
  | LPut r => rcur s + Z.of_nat (length r) <= BUFSIZE
  | LAdd r => rcur s + Z.of_nat (length r) <= BUFSIZE /\ slice (buf s (ridx s)) (rcur s) (Z.of_nat (length r)) = Ok r
  | LWant r | LTest r | LWantS r | LClear r => Z.of_nat (length r) <= BUFSIZE
  | LRelS r | LSpin r => Z.of_nat (length r) <= BUFSIZE /\ (sflag s = false \/ rcur s = 0)
  end.

Definition writer_ok (s : Sys) (p : Writer) : Prop :=
  match p with
  | WSwap k request cur =>
      (k <= 7)%nat /\ widx s = (if (k =? 1)%nat then ridx s else negb (ridx s)) /\
      (request = true -> (k <= 4)%nat -> sflag s = false) /\ (k = 4%nat -> rcur s = 0) /\ 0 <= cur <= BUFSIZE
  | WRelR cur idx | WRelS cur idx | WRoll cur idx =>
      widx s = negb (ridx s) /\ idx = negb (ridx s) /\ 0 <= cur <= BUFSIZE
  | WWrite cur idx written =>
      widx s = negb (ridx s) /\ idx = negb (ridx s) /\ 0 <= written <= cur /\ cur <= BUFSIZE
  | _ => widx s = negb (ridx s)
  end.

Record inv (s : Sys) : Prop := {
  inv_smtx : mutex_ok (smtx s) (writerS (writer s)) (fun i => holdsS (logger s i));
  inv_rmtx : mutex_ok (rmtx s) (writerR (writer s)) (fun i => holdsR (logger s i));
  inv_flag : sflag s = false -> exists i r, logger s i = LRelS r \/ logger s i = LSpin r;
  inv_logger : forall i, logger_ok s (logger s i);
  inv_writer : writer_ok s (writer s);
  inv_len : (forall b, Z.of_nat (length (buf s b)) = BUFSIZE) /\ 0 <= rcur s <= BUFSIZE /\ 0 <= wcur s <= BUFSIZE;
  inv_data : concat (logged s) = concat (files s) ++ file s ++ pending s ++ front s;
}.

(** ** Mutexes *)

Lemma mutex_same m w l w' l' : mutex_ok m w l -> w' = w -> (forall i, l' i = l i) -> mutex_ok m w' l'.
Proof. intros H -> Hl [|i]; [apply (H ByWriter) | rewrite Hl; apply (H (ByLogger i))]. Qed.

Lemma mutex_take_l i w l l' : mutex_ok None w l -> l' i = true -> (forall j, j <> i -> l' j = l j) ->
  mutex_ok (Some (ByLogger i)) w l'.
Proof.
  intros H Hi Hj [|j]; split; try done.
  - intros Hw. by apply (H ByWriter) in Hw.
  - by intros [= ->].
  - intros E. destruct (decide (j = i)) as [->|Hne]; [done|]. rewrite Hj in E by done. by apply (H (ByLogger j)) in E.
Qed.

Lemma mutex_rel_l i m w l l' : mutex_ok m w l -> l i = true -> l' i = false -> (forall j, j <> i -> l' j = l j) ->
  mutex_ok None w l'.
Proof.
  intros H Hi Hi' Hj. assert (m = Some (ByLogger i)) as -> by (by apply (H (ByLogger i))).
  intros [|j]; split; try done.
  - intros Hw. by apply (H ByWriter) in Hw.
  - intros E. destruct (decide (j = i)) as [->|Hne]; [congruence|]. rewrite Hj in E by done.
    apply (H (ByLogger j)) in E. congruence.
Qed.

Lemma mutex_take_w w' l : mutex_ok None false l -> w' = true -> mutex_ok (Some ByWriter) w' l.
Proof. intros H -> [|j]; split; try done. intros E. by apply (H (ByLogger j)) in E. Qed.

Lemma mutex_rel_w m l w' : mutex_ok m true l -> w' = false -> mutex_ok None w' l.
Proof.
  intros H ->. assert (m = Some ByWriter) as -> by (by apply (H ByWriter)). intros [|j]; split; try done.
  intros E. by apply (H (ByLogger j)) in E.
Qed.

Lemma only_holder s i j : inv s -> holdsR (logger s i) = true -> holdsR (logger s j) = true -> i = j.
Proof.
  intros H Hi Hj. apply (inv_rmtx s H (ByLogger i)) in Hi. apply (inv_rmtx s H (ByLogger j)) in Hj. congruence.
Qed.

(** While the writer swaps, up to [sflag = true], a logger inside of apply is spinning. *)
Lemma quiet s k request cur i : inv s -> writer s = WSwap k request cur -> (k <= 4)%nat ->
  holdsR (logger s i) = true -> exists r, logger s i = LSpin r.
Proof.
  intros H Hw Hk Hi. pose proof (inv_writer s H) as Hok. rewrite Hw in Hok. destruct Hok as (_ & _ & Hs & _).
  destruct request.
  - destruct (inv_flag s H (Hs eq_refl Hk)) as (j & r & Hj).
    assert (i = j) as -> by (apply (only_holder s); [done | done | by destruct Hj as [-> | ->]]).
    destruct Hj as [Hj|Hj]; [|by exists r]. exfalso.
    assert (smtx s = Some (ByLogger j)) by (apply (inv_smtx s H (ByLogger j)); by rewrite Hj).
    assert (smtx s = Some ByWriter) by (apply (inv_smtx s H ByWriter); by rewrite Hw). congruence.
  - assert (rmtx s = Some ByWriter) by (apply (inv_rmtx s H ByWriter); by rewrite Hw).
    apply (inv_rmtx s H (ByLogger i)) in Hi. congruence.
Qed.

(** ** Steps that only move a thread *)

(** The shared data of two states are the same. *)
Definition same_data (s s' : Sys) : Prop :=
  buf s' = buf s /\ ridx s' = ridx s /\ rcur s' = rcur s /\ widx s' = widx s /\ wcur s' = wcur s /\
  files s' = files s /\ file s' = file s /\ logged s' = logged s.

Lemma other_logger s i p j : logger (at_logger i p s) j = if decide (j = i) then p else logger s j.
Proof.
  cbn. destruct (decide (j = i)) as [->|Hne]; [apply fn_lookup_insert | by apply fn_lookup_insert_ne].
Qed.

Lemma logger_data s s' p : same_data s s' -> (sflag s = false -> sflag s' = false) -> logger_ok s p -> logger_ok s' p.
Proof.
  intros (Hb & Hr & Hc & _) Hf. destruct p; cbn; rewrite ?Hb, ?Hr, ?Hc; try tauto.
Qed.

Lemma same_pending s s' : same_data s s' -> writer s' = writer s -> pending s' = pending s /\ front s' = front s.
Proof. intros (Hb & Hr & Hc & Hwi & Hwc & _) Hw. unfold pending, front. by rewrite Hw, Hb, Hr, Hc, Hwc. Qed.

(** A logger moves and changes at most the locks and [sflag]. *)
Lemma logger_moves s i p s' : inv s -> same_data s s' -> writer s' = writer s -> logger s' = <[i := p]> (logger s) ->
  mutex_ok (smtx s') (writerS (writer s)) (fun j => holdsS (<[i := p]> (logger s) j)) ->
  mutex_ok (rmtx s') (writerR (writer s)) (fun j => holdsR (<[i := p]> (logger s) j)) ->
  (sflag s = false -> sflag s' = false) ->
  (sflag s' = false -> exists j r, logger s' j = LRelS r \/ logger s' j = LSpin r) ->
  logger_ok s' p -> inv s'.
Proof.
  intros H Hd Hw Hl HS HR Hf Hf' Hp. pose proof Hd as (Hb & Hr & Hc & Hwi & Hwc & Hfs & Hfi & Hlo).
  split; rewrite ?Hw, ?Hl; try done; rewrite ?Hl in *.
  - exact Hf'.
  - intros j. destruct (decide (j = i)) as [->|Hne]; [by rewrite fn_lookup_insert|].
    rewrite fn_lookup_insert_ne by done. apply (logger_data s); [done | done | apply (inv_logger s H)].
  - generalize (inv_writer s H). unfold writer_ok. rewrite Hr, Hwi, Hc. destruct (writer s); try done.
    intros (? & ? & Hq & ?). split; [done|]. split; [done|]. split; [|done]. intros. apply Hf. by apply Hq.
  - rewrite Hb, Hc, Hwc. apply (inv_len s H).
  - destruct (same_pending s s' Hd Hw) as [-> ->]. rewrite Hlo, Hfs, Hfi. apply (inv_data s H).
Qed.

(** The writer moves and changes at most the locks. *)
Lemma writer_moves s p s' : inv s -> same_data s s' -> logger s' = logger s -> writer s' = p -> sflag s' = sflag s ->
  mutex_ok (smtx s') (writerS p) (fun j => holdsS (logger s j)) ->
  mutex_ok (rmtx s') (writerR p) (fun j => holdsR (logger s j)) ->
  writer_ok s' p -> pending s' = pending s -> front s' = front s -> inv s'.
Proof.
  intros H Hd Hl Hw Hf HS HR Hp Hpe Hfr. pose proof Hd as (Hb & Hr & Hc & Hwi & Hwc & Hfs & Hfi & Hlo).
  split; rewrite ?Hl, ?Hw; try done.
  - rewrite Hf. apply (inv_flag s H).
  - intros i. apply (logger_data s); [done | congruence | apply (inv_logger s H)].
  - rewrite Hb, Hc, Hwc. apply (inv_len s H).
  - rewrite Hpe, Hfr, Hlo, Hfs, Hfi. apply (inv_data s H).
Qed.

(** The locks after a move of logger [i] from [q] to [p]. *)
Lemma lock_same (h : Logger -> bool) s m w i p q : mutex_ok m w (fun j => h (logger s j)) ->
  logger s i = q -> h p = h q -> mutex_ok m w (fun j => h (<[i := p]> (logger s) j)).
Proof.
  intros H Hq Hp. apply (mutex_same m w (fun j => h (logger s j))); [done | done |]. intros j.
  destruct (decide (j = i)) as [->|Hne]; [by rewrite fn_lookup_insert, Hp, Hq | by rewrite fn_lookup_insert_ne].
Qed.

Lemma lock_take (h : Logger -> bool) s w i p : mutex_ok None w (fun j => h (logger s j)) -> h p = true ->
  mutex_ok (Some (ByLogger i)) w (fun j => h (<[i := p]> (logger s) j)).
Proof.
  intros H Hp. apply (mutex_take_l i w (fun j => h (logger s j))); [done | by rewrite fn_lookup_insert |].
  intros j Hne. by rewrite fn_lookup_insert_ne.
Qed.

Lemma lock_rel (h : Logger -> bool) s m w i p : mutex_ok m w (fun j => h (logger s j)) -> h (logger s i) = true ->
  h p = false -> mutex_ok None w (fun j => h (<[i := p]> (logger s) j)).
Proof.
  intros H Hi Hp. apply (mutex_rel_l i m w (fun j => h (logger s j))); [done | done | by rewrite fn_lookup_insert |].
  intros j Hne. by rewrite fn_lookup_insert_ne.
Qed.

(** A move that is not from the hand-shake keeps the logger that waits. *)
Lemma waiting_stays s i p q : inv s -> logger s i = q -> (forall r, q <> LRelS r) -> (forall r, q <> LSpin r) ->
  sflag s = false -> exists j r, <[i := p]> (logger s) j = LRelS r \/ <[i := p]> (logger s) j = LSpin r.
Proof.
  intros H Hq H1 H2 Hf. destruct (inv_flag s H Hf) as (j & r & Hj). exists j, r.
  destruct (decide (j = i)) as [->|Hne]; [|by rewrite fn_lookup_insert_ne].
  exfalso. destruct Hj as [Hj|Hj]; rewrite Hq in Hj; [by apply (H1 r) | by apply (H2 r)].
Qed.


(** ** Steps of Scheduler::apply *)

Lemma inv_call s i r : inv s -> logger s i = LIdle -> Z.of_nat (length r) <= BUFSIZE -> inv (at_logger i (LWant r) s).
Proof.
  intros H Hi Hr. apply (logger_moves s i (LWant r)); try done; cbn; [| | ].
  - by apply (lock_same holdsS s _ _ _ _ LIdle); [apply (inv_smtx s H)|..].
  - by apply (lock_same holdsR s _ _ _ _ LIdle); [apply (inv_rmtx s H)|..].
  - by apply (waiting_stays s i _ LIdle).
Qed.

Lemma inv_lock s i r : inv s -> logger s i = LWant r -> rmtx s = None ->
  inv (at_logger i (LTest r) (set_rmtx (Some (ByLogger i)) s)).
Proof.
  intros H Hi Hn. pose proof (inv_rmtx s H) as HR. rewrite Hn in HR.
  pose proof (inv_logger s H i) as Hok. rewrite Hi in Hok.
  apply (logger_moves s i (LTest r)); try done; cbn; [| | ].
  - by apply (lock_same holdsS s _ _ _ _ (LWant r)); [apply (inv_smtx s H)|..].
  - by apply lock_take.
  - by apply (waiting_stays s i _ (LWant r)).
Qed.

(** A move of a logger that keeps the locks. *)
Lemma inv_inside s i p q : inv s -> logger s i = q -> holdsS p = holdsS q -> holdsR p = holdsR q ->
  (forall r, q <> LRelS r) -> (forall r, q <> LSpin r) -> logger_ok s p -> inv (at_logger i p s).
Proof.
  intros H Hi HS HR H1 H2 Hp. apply (logger_moves s i p); try done; cbn; [| |].
  - by apply (lock_same holdsS s _ _ _ _ q); [apply (inv_smtx s H)|..].
  - by apply (lock_same holdsR s _ _ _ _ q); [apply (inv_rmtx s H)|..].
  - by apply (waiting_stays s i _ q).
Qed.

Lemma inv_lockS s i r : inv s -> logger s i = LWantS r -> smtx s = None ->
  inv (at_logger i (LClear r) (set_smtx (Some (ByLogger i)) s)).
Proof.
  intros H Hi Hn. pose proof (inv_smtx s H) as HS. rewrite Hn in HS.
  pose proof (inv_logger s H i) as Hok. rewrite Hi in Hok.
  apply (logger_moves s i (LClear r)); try done; cbn; [| | ].
  - by apply lock_take.
  - by apply (lock_same holdsR s _ _ _ _ (LWantS r)); [apply (inv_rmtx s H)|..].
  - by apply (waiting_stays s i _ (LWantS r)).
Qed.

Lemma inv_clear s i r : inv s -> logger s i = LClear r -> inv (at_logger i (LRelS r) (set_sflag false s)).
Proof.
  intros H Hi. pose proof (inv_logger s H i) as Hok. rewrite Hi in Hok.
  apply (logger_moves s i (LRelS r)); try done; cbn; [| | |].
  - by apply (lock_same holdsS s _ _ _ _ (LClear r)); [apply (inv_smtx s H)|..].
  - by apply (lock_same holdsR s _ _ _ _ (LClear r)); [apply (inv_rmtx s H)|..].
  - intros _. exists i, r. left. apply fn_lookup_insert.
  - split; [done | by left].
Qed.

Lemma inv_relS s i r : inv s -> logger s i = LRelS r -> inv (at_logger i (LSpin r) (set_smtx None s)).
Proof.
  intros H Hi. pose proof (inv_logger s H i) as Hok. rewrite Hi in Hok.
  apply (logger_moves s i (LSpin r)); try done; cbn; [| |].
  - apply (lock_rel holdsS s (smtx s)); [apply (inv_smtx s H) | by rewrite Hi | done].
  - by apply (lock_same holdsR s _ _ _ _ (LRelS r)); [apply (inv_rmtx s H)|..].
  - intros _. exists i, r. right. apply fn_lookup_insert.
Qed.

Lemma inv_swapped s i r : inv s -> logger s i = LSpin r -> sflag s = true -> inv (at_logger i (LPut r) s).
Proof.
  intros H Hi Hf. pose proof (inv_logger s H i) as Hok. rewrite Hi in Hok. destruct Hok as [Hr [Hok|Hok]]; [congruence|].
  apply (logger_moves s i (LPut r)); try done; cbn; [| | |].
  - by apply (lock_same holdsS s _ _ _ _ (LSpin r)); [apply (inv_smtx s H)|..].
  - by apply (lock_same holdsR s _ _ _ _ (LSpin r)); [apply (inv_rmtx s H)|..].
  - congruence.
  - lia.
Qed.

Lemma inv_unlock s i : inv s -> logger s i = LUnlock -> inv (at_logger i LIdle (set_rmtx None s)).
Proof.
  intros H Hi. apply (logger_moves s i LIdle); try done; cbn; [| |].
  - by apply (lock_same holdsS s _ _ _ _ LUnlock); [apply (inv_smtx s H)|..].
  - apply (lock_rel holdsR s (rmtx s)); [apply (inv_rmtx s H) | by rewrite Hi | done].
  - by apply (waiting_stays s i _ LUnlock).
Qed.

(** ** The bytes of a record *)

(** The writer is not between the first statement of a swap and [sflag = true]. *)
Definition active (s : Sys) : Prop := forall k request cur, writer s = WSwap k request cur -> (5 <= k)%nat.

Lemma inside_active s i : inv s -> holdsR (logger s i) = true -> (forall r, logger s i <> LSpin r) -> active s.
Proof.
  intros H Hi Hn k request cur Hw. destruct (decide (5 <= k)%nat) as [|Hk]; [done|].
  destruct (quiet s k request cur i H Hw ltac:(lia) Hi) as [r Hr]. by apply Hn in Hr.
Qed.

Lemma active_front s : active s -> front s = take (Z.to_nat (rcur s)) (buf s (ridx s)).
Proof.
  intros Ha. unfold front. destruct (writer s) as [| | | | | | |k q c| | | | |] eqn:Hw; try done.
  pose proof (Ha _ _ _ Hw). by destruct k as [|[|[|[|?]]]]; try lia.
Qed.

Lemma active_pending s s' : writer_ok s (writer s) -> active s -> writer s' = writer s -> ridx s' = ridx s ->
  wcur s' = wcur s -> buf s' (negb (ridx s)) = buf s (negb (ridx s)) -> pending s' = pending s.
Proof.
  intros Ho Ha Hw Hr Hc Hb. unfold pending. rewrite Hw, Hr, Hc, Hb.
  destruct (writer s) as [| | | | | | |k q c| | | | |] eqn:E; try done; cbn in Ho.
  - pose proof (Ha _ _ _ E). by destruct k as [|[|[|[|[|?]]]]]; try lia.
  - destruct Ho as (_ & -> & _). by rewrite Hb.
  - destruct Ho as (_ & -> & _). by rewrite Hb.
  - destruct Ho as (_ & -> & _). by rewrite Hb.
  - destruct Ho as (_ & -> & _). by rewrite Hb.
Qed.

Lemma writer_ok_active s s' : active s -> writer_ok s (writer s) -> ridx s' = ridx s -> widx s' = widx s ->
  writer_ok s' (writer s).
Proof.
  intros Ha Ho Hr Hw. unfold writer_ok in *. rewrite Hr, Hw.
  destruct (writer s) as [| | | | | | |k q c| | | | |] eqn:E; try done.
  pose proof (Ha _ _ _ E). split_and!; try tauto; intros; lia.
Qed.

(** The other loggers do not look at the buffer. *)
Lemma others_ok s s' i j : inv s -> holdsR (logger s i) = true -> j <> i -> logger_ok s' (logger s j).
Proof.
  intros H Hi Hne. pose proof (inv_logger s H j) as Hj.
  assert (holdsR (logger s j) = false) as Hn.
  { destruct (holdsR (logger s j)) eqn:E; [|done]. by destruct (Hne (only_holder s j i H E Hi)). }
  by destruct (logger s j).
Qed.

Lemma set_buf_other i b f : set_buf i b f (negb i) = f (negb i).
Proof. by destruct i. Qed.
Lemma set_buf_here i b f : set_buf i b f i = b.
Proof. by destruct i. Qed.

Lemma put_possible s i r : inv s -> logger s i = LPut r ->
  exists b, write_bytes (buf s (ridx s)) (rcur s) r = Ok b /\ written (buf s (ridx s)) b (rcur s) r.
Proof.
  intros H Hi. pose proof (inv_logger s H i) as Hok. rewrite Hi in Hok. cbn in Hok.
  destruct (inv_len s H) as (Hl & Hc & _). apply write_bytes_ok; [lia|]. rewrite Hl. lia.
Qed.

Lemma written_take (b b' r : list Z) (n : Z) : written b b' n r -> take (Z.to_nat n) b' = take (Z.to_nat n) b.
Proof.
  intros (_ & _ & Hs). apply list_eq. intros k. destruct (decide (k < Z.to_nat n)%nat).
  - rewrite !lookup_take_lt by done. apply Hs. lia.
  - by rewrite !lookup_take_ge by lia.
Qed.

Lemma inv_put s i r b : inv s -> logger s i = LPut r -> write_bytes (buf s (ridx s)) (rcur s) r = Ok b ->
  inv (at_logger i (LAdd r) (set_rbuf b s)).
Proof.
  intros H Hi Hb. destruct (put_possible s i r H Hi) as (b' & Hb' & Hw). assert (b' = b) as -> by congruence.
  pose proof (inv_logger s H i) as Hok. rewrite Hi in Hok. destruct (inv_len s H) as (Hl & Hc & Hwc).
  assert (active s) as Ha by (apply (inside_active s i H); by rewrite Hi).
  split; cbn.
  - by apply (lock_same holdsS s _ _ _ _ (LPut r)); [apply (inv_smtx s H)|..].
  - by apply (lock_same holdsR s _ _ _ _ (LPut r)); [apply (inv_rmtx s H)|..].
  - by apply (waiting_stays s i _ (LPut r)).
  - intros j. destruct (decide (j = i)) as [->|Hne].
    + rewrite fn_lookup_insert. cbn. rewrite set_buf_here. split; [done | apply Hw].
    + rewrite fn_lookup_insert_ne by done. apply (others_ok s _ i); [done | by rewrite Hi | done].
  - by apply (writer_ok_active s); [|apply (inv_writer s H)|..].
  - split; [|done]. intros c. unfold set_buf. destruct (Bool.eqb _ _) eqn:E; [|apply Hl].
    destruct Hw as (-> & _). apply Hl.
  - rewrite (active_pending s); try done; [|apply (inv_writer s H) | cbn; apply set_buf_other].
    rewrite active_front by done. cbn. rewrite set_buf_here, (written_take _ _ _ _ Hw), <- active_front by done.
    apply (inv_data s H).
Qed.

Lemma take_slice (b r : list Z) (n m : Z) : 0 <= n -> slice b n m = Ok r ->
  take (Z.to_nat (n + m)) b = take (Z.to_nat n) b ++ r.
Proof.
  intros Hn Hs. unfold slice in Hs. destruct (_ && _) eqn:E; [|done]. injection Hs as <-.
  rewrite !andb_true_iff, !Z.leb_le in E. rewrite Z2Nat.inj_add by lia. by rewrite take_take_drop.
Qed.

Lemma inv_add s i r : inv s -> logger s i = LAdd r -> inv (at_logger i LUnlock (add_record r s)).
Proof.
  intros H Hi. pose proof (inv_logger s H i) as Hok. rewrite Hi in Hok. destruct Hok as [Hr Hs].
  destruct (inv_len s H) as (Hl & Hc & Hwc).
  assert (active s) as Ha by (apply (inside_active s i H); by rewrite Hi).
  split; cbn.
  - by apply (lock_same holdsS s _ _ _ _ (LAdd r)); [apply (inv_smtx s H)|..].
  - by apply (lock_same holdsR s _ _ _ _ (LAdd r)); [apply (inv_rmtx s H)|..].
  - by apply (waiting_stays s i _ (LAdd r)).
  - intros j. destruct (decide (j = i)) as [->|Hne]; [by rewrite fn_lookup_insert|].
    rewrite fn_lookup_insert_ne by done. apply (others_ok s _ i); [done | by rewrite Hi | done].
  - by apply (writer_ok_active s); [|apply (inv_writer s H)|..].
  - split; [done | lia].
  - rewrite (active_pending s); try done; [|apply (inv_writer s H)]. rewrite active_front by done. cbn.
    rewrite (take_slice _ r) by (done || lia). rewrite concat_app, (inv_data s H), active_front by done. cbn.
    by rewrite app_nil_r, <- !app_assoc.
Qed.

(** ** Steps of Wthread::writeFunc *)

(** The writer has no bytes of its own at these points. *)
Definition empty_handed (p : Writer) : bool :=
  match p with
  | WTop | WLock | WPred | WSleep | WTimeout | WTry | WContinue | WExit | WSwap 0 _ _ => true
  | _ => false
  end.

Lemma empty_handed_views s : empty_handed (writer s) = true ->
  pending s = [] /\ front s = take (Z.to_nat (rcur s)) (buf s (ridx s)).
Proof. unfold pending, front. by destruct (writer s) as [| | | | | | |[|k] q c| | | | |]. Qed.

Lemma empty_handed_ok s : empty_handed (writer s) = true -> writer_ok s (writer s) -> widx s = negb (ridx s).
Proof. destruct (writer s) as [| | | | | | |[|k] q c| | | | |]; cbn; try done. tauto. Qed.

Lemma inv_wmove s p s' : inv s -> same_data s s' -> logger s' = logger s -> writer s' = p -> sflag s' = sflag s ->
  empty_handed (writer s) = true -> empty_handed p = true ->
  mutex_ok (smtx s') (writerS p) (fun j => holdsS (logger s j)) ->
  mutex_ok (rmtx s') (writerR p) (fun j => holdsR (logger s j)) ->
  (forall request cur, p = WSwap 0 request cur -> cur = 0 /\ (request = true -> sflag s = false)) -> inv s'.
Proof.
  intros H Hd Hl Hp Hf He He' HS HR Hs. pose proof (empty_handed_ok s He (inv_writer s H)) as Hi.
  destruct (empty_handed_views s He) as [Hpe Hfr]. destruct (inv_len s H) as (_ & Hc & _).
  assert (empty_handed (writer s') = true) as He2 by (by rewrite Hp).
  destruct (empty_handed_views s' He2) as [Hpe' Hfr'].
  pose proof Hd as (Hb & Hr & Hrc & Hwi & _).
  apply (writer_moves s p); try done; [|by rewrite Hpe, Hpe' | by rewrite Hfr, Hfr', Hb, Hr, Hrc].
  destruct p as [| | | | | | |[|k] q c| | | | |]; cbn in *; try done; rewrite ?Hr, ?Hwi; try done.
  destruct (Hs q c eq_refl) as [-> Hq]. split_and!; try lia; [done | by rewrite Hf; intros; apply Hq].
Qed.

Lemma inv_wplain s p : inv s -> empty_handed (writer s) = true -> empty_handed p = true ->
  writerS p = writerS (writer s) -> writerR p = writerR (writer s) ->
  (forall request cur, p = WSwap 0 request cur -> cur = 0 /\ (request = true -> sflag s = false)) -> inv (at_writer p s).
Proof.
  intros H He Hp HS HR Hs. apply (inv_wmove s p); try done; cbn; rewrite ?HS, ?HR;
    [apply (inv_smtx s H) | apply (inv_rmtx s H)].
Qed.

Lemma inv_wtake s p : inv s -> empty_handed (writer s) = true -> empty_handed p = true -> smtx s = None ->
  writerS (writer s) = false -> writerS p = true -> writerR p = writerR (writer s) ->
  (forall request cur, p <> WSwap 0 request cur) -> inv (at_writer p (set_smtx (Some ByWriter) s)).
Proof.
  intros H He Hp Hn HS HS' HR Hs. pose proof (inv_smtx s H) as Hm. rewrite Hn, HS in Hm.
  apply (inv_wmove s p); try done; cbn.
  - by apply mutex_take_w.
  - rewrite HR. apply (inv_rmtx s H).
  - intros ? ? E. by apply Hs in E.
Qed.

Lemma inv_wrel s p : inv s -> empty_handed (writer s) = true -> empty_handed p = true ->
  writerS (writer s) = true -> writerS p = false -> writerR p = writerR (writer s) ->
  (forall request cur, p <> WSwap 0 request cur) -> inv (at_writer p (set_smtx None s)).
Proof.
  intros H He Hp HS HS' HR Hs. pose proof (inv_smtx s H) as Hm. rewrite HS in Hm.
  apply (inv_wmove s p); try done; cbn.
  - by apply (mutex_rel_w (smtx s)).
  - rewrite HR. apply (inv_rmtx s H).
  - intros ? ? E. by apply Hs in E.
Qed.

Lemma inv_try s : inv s -> writer s = WTry -> rmtx s = None ->
  inv (at_writer (WSwap 0 false 0) (set_rmtx (Some ByWriter) s)).
Proof.
  intros H Hw Hn. pose proof (inv_rmtx s H) as Hm. rewrite Hn, Hw in Hm. cbn in Hm.
  apply (inv_wmove s (WSwap 0 false 0)); try done; cbn; rewrite ?Hw; try done.
  - generalize (inv_smtx s H). by rewrite Hw.
  - by apply mutex_take_w.
  - by intros ? ? [= <- <-].
Qed.

Lemma inv_kill s : inv s -> inv (kill s).
Proof. intros [H1 H2 H3 H4 H5 H6 H7]. by split. Qed.

(** After the swap. *)
Lemma inv_relR s cur idx : inv s -> writer s = WRelR cur idx -> inv (at_writer (WRelS cur idx) (set_rmtx None s)).
Proof.
  intros H Hw. pose proof (inv_rmtx s H) as HR. pose proof (inv_smtx s H) as HS. pose proof (inv_writer s H) as Ho.
  rewrite Hw in HR, HS, Ho. apply (writer_moves s (WRelS cur idx)); try done; cbn.
  - by apply (mutex_rel_w (rmtx s)).
  - unfold pending. by rewrite Hw.
  - unfold front. by rewrite Hw.
Qed.

Lemma inv_wrelS s cur idx : inv s -> writer s = WRelS cur idx -> inv (at_writer (WRoll cur idx) (set_smtx None s)).
Proof.
  intros H Hw. pose proof (inv_rmtx s H) as HR. pose proof (inv_smtx s H) as HS. pose proof (inv_writer s H) as Ho.
  rewrite Hw in HR, HS, Ho. apply (writer_moves s (WRoll cur idx)); try done; cbn.
  - by apply (mutex_rel_w (smtx s)).
  - unfold pending. by rewrite Hw.
  - unfold front. by rewrite Hw.
Qed.

(** A step of the file. *)
Lemma inv_file s p fs f : inv s -> writerS p = writerS (writer s) -> writerR p = writerR (writer s) ->
  writer_ok s p -> (forall k request cur, writer s <> WSwap k request cur) -> (forall k request cur, p <> WSwap k request cur) ->
  concat fs ++ f ++ pending (at_writer p s) = concat (files s) ++ file s ++ pending s ->
  inv (at_writer p (set_files fs f s)).
Proof.
  intros H HS HR Hp Hn Hn' Hd. pose proof (inv_data s H) as Hdata. destruct H as [H1 H2 H3 H4 H5 H6 _].
  split; cbn; rewrite ?HS, ?HR; try done.
  transitivity ((concat fs ++ f ++ pending (at_writer p s)) ++ front s).
  - rewrite Hd, Hdata. by rewrite <- !app_assoc.
  - rewrite (active_front s) by (intros k q c E; by destruct (Hn k q c)).
    rewrite (active_front (at_writer _ _)) by (intros k q c E; by destruct (Hn' k q c)).
    by rewrite <- !app_assoc.
Qed.

Lemma inv_roll s cur idx fs f : inv s -> writer s = WRoll cur idx -> concat fs ++ f = concat (files s) ++ file s ->
  inv (at_writer (WWrite cur idx 0) (set_files fs f s)).
Proof.
  intros H Hw Hf. pose proof (inv_writer s H) as Ho. rewrite Hw in Ho. cbn in Ho.
  apply inv_file; rewrite ?Hw; try done; [cbn; split_and!; tauto || lia|].
  rewrite app_assoc, Hf, <- app_assoc. unfold pending. by rewrite Hw.
Qed.

Lemma inv_append s cur idx wr n bs : inv s -> writer s = WWrite cur idx wr -> 0 < n -> wr + n <= cur ->
  slice (buf s idx) wr n = Ok bs -> inv (at_writer (WWrite cur idx (wr + n)) (set_files (files s) (file s ++ bs) s)).
Proof.
  intros H Hw Hn Hc Hs. pose proof (inv_writer s H) as Ho. rewrite Hw in Ho. destruct Ho as (Hi & Hi' & Hwr & Hcur).
  apply inv_file; rewrite ?Hw; try done; [cbn; split_and!; done || lia|].
  rewrite <- app_assoc. f_equal. f_equal. unfold pending. rewrite Hw. cbn.
  unfold slice in Hs. destruct (_ && _) eqn:E; [|done]. injection Hs as <-.
  rewrite !andb_true_iff, !Z.leb_le in E.
  replace (Z.to_nat (wr + n)) with (Z.to_nat wr + Z.to_nat n)%nat by lia.
  rewrite <- drop_drop. set (P := drop (Z.to_nat wr) (take (Z.to_nat cur) (buf s idx))).
  transitivity (take (Z.to_nat n) P ++ drop (Z.to_nat n) P); [|apply take_drop].
  f_equal. unfold P. rewrite !take_drop_commute, take_take. do 2 f_equal. lia.
Qed.

Lemma inv_done s cur idx : inv s -> writer s = WWrite cur idx cur -> inv (at_writer WTop s).
Proof.
  intros H Hw. pose proof (inv_writer s H) as Ho. rewrite Hw in Ho. destruct Ho as (Hi & _).
  assert (inv (at_writer WTop (set_files (files s) (file s) s))) as Hx; [|by destruct s].
  apply inv_file; rewrite ?Hw; try done.
  do 2 f_equal. unfold pending. cbn. rewrite Hw, drop_ge by (rewrite length_take; lia). done.
Qed.

(** ** The swap *)

Lemma swap_loggers s k request cur i : inv s -> writer s = WSwap k request cur ->
  logger_ok (swap_step k request cur s) (logger s i).
Proof.
  intros H Hw. pose proof (inv_logger s H i) as Hi. pose proof (inv_writer s H) as Ho. rewrite Hw in Ho.
  destruct Ho as (Hk & _ & _ & Hr & _). destruct (decide (k <= 4)%nat) as [Hk4|Hk4].
  - destruct (holdsR (logger s i)) eqn:E.
    + destruct (quiet s k request cur i H Hw Hk4 E) as [r Hq]. rewrite Hq in Hi |- *. destruct Hi as [Hl Hi]. split; [done|].
      destruct k as [|[|[|[|[|?]]]]]; cbn; try tauto; lia.
    + by destruct (logger s i).
  - by destruct k as [|[|[|[|[|[|[|[|?]]]]]]]]; try lia; destruct (logger s i).
Qed.

Lemma inv_swap s k request cur : inv s -> writer s = WSwap k request cur -> inv (swap_step k request cur s).
Proof.
  intros H Hw. pose proof (inv_rmtx s H) as HR. pose proof (inv_smtx s H) as HS. pose proof (inv_writer s H) as Ho.
  pose proof (inv_data s H) as Hd. pose proof (inv_flag s H) as Hf. destruct (inv_len s H) as (Hl & Hrc & Hwc).
  assert (forall i, logger_ok (swap_step k request cur s) (logger s i)) as Hlo by (intros; by apply swap_loggers).
  rewrite Hw in HR, HS, Ho. destruct Ho as (Hk & Hwi & Hq & Hr0 & Hcur). unfold pending, front in Hd. rewrite Hw in Hd.
  destruct k as [|[|[|[|[|[|[|[|?]]]]]]]]; [..|lia]; cbn in Hwi.
  all: split; cbn in *; unfold pending, front; cbn; try done.
  all: rewrite ?Hwi, ?negb_involutive; try done.
  all: try by destruct request.
  all: try (split_and!; try done; try lia; intros; apply Hq; [done | lia]).
  1: by rewrite Hd, app_nil_r.
  all: split_and!; try done; lia.
Qed.

(** ** Every reachable state *)

Lemma inv_step s s' : inv s -> step BUFSIZE fileMaxSize s s' -> inv s'.
Proof.
  intros H Hs. destruct Hs as [i r Hi Hr|i r Hi Hn|i r Hi Hr|i r Hi Hr|i r Hi Hn|i r Hi|i r Hi|i r Hi Hf|i r Hi Hf|i r b Hi Hb|i r Hi|i Hi
    | |Hw Hk|Hw Hk|Hw Hn|Hw Hf|Hw Hf|Hw Hn|Hw Hn|Hw Hf|Hw Hf|Hw Hn|o Hw Hn|Hw|k q c Hw|c x Hw|c x Hw|c x Hw|c x Hw Hf|c x wr n bs Hw Hn Hc Hb|c x Hw].
  - by apply inv_call.
  - by apply inv_lock.
  - pose proof (inv_logger s H i) as Ho. rewrite Hi in Ho. by apply (inv_inside s i _ (LTest r)).
  - apply (inv_inside s i _ (LTest r)); try done. cbn. lia.
  - by apply inv_lockS.
  - by apply inv_clear.
  - by apply inv_relS.
  - done.
  - by apply inv_swapped.
  - by apply inv_put.
  - by apply inv_add.
  - by apply inv_unlock.
  - by apply inv_kill.
  - apply inv_wplain; by rewrite ?Hw.
  - apply inv_wplain; by rewrite ?Hw.
  - apply inv_wtake; by rewrite ?Hw.
  - apply inv_wplain; rewrite ?Hw; try done. by intros ? ? [= <- <-].
  - apply inv_wrel; by rewrite ?Hw.
  - apply inv_wtake; by rewrite ?Hw.
  - apply inv_wtake; by rewrite ?Hw.
  - apply inv_wplain; rewrite ?Hw; try done. by intros ? ? [= <- <-].
  - apply inv_wplain; by rewrite ?Hw.
  - by apply inv_try.
  - apply inv_wplain; by rewrite ?Hw.
  - apply inv_wrel; by rewrite ?Hw.
  - by apply inv_swap.
  - by apply inv_relR.
  - by apply inv_wrelS.
  - apply inv_roll; try done. by rewrite concat_app, !app_nil_r; cbn; rewrite app_nil_r.
  - assert (inv (at_writer (WWrite c x 0) (set_files (files s) (file s) s))) as Hx by (by apply inv_roll).
    by destruct s.
  - by apply inv_append.
  - by apply (inv_done s c x).
Qed.

(** Each of the two views is in one buffer. *)
Lemma views_bounded s : inv s -> Z.of_nat (length (pending s)) <= BUFSIZE /\ Z.of_nat (length (front s)) <= BUFSIZE.
Proof.
  intros H. destruct (inv_len s H) as (Hl & Hc & _).
  assert (forall n b, Z.of_nat (length (take n (buf s b))) <= BUFSIZE) as Ht.
  { intros n b. rewrite length_take. specialize (Hl b). lia. }
  assert (Z.of_nat (length (@nil Z)) <= BUFSIZE) as H0 by (cbn; lia).
  unfold pending, front. destruct (writer s) as [| | | | | | |k q c|c x|c x|c x|c x w|]; try by split.
  - by destruct k as [|[|[|[|[|[|?]]]]]].
  - split; [|done]. rewrite length_drop. specialize (Ht (Z.to_nat c) x). lia.
Qed.

Lemma inv_start buf0 : 0 <= BUFSIZE -> (forall b, Z.of_nat (length (buf0 b)) = BUFSIZE) -> inv (init buf0).
Proof.
  intros Hp Hb. split; cbn; try done.
  - intros [|j]; by split.
  - intros [|j]; by split.
Qed.

Lemma sched_inv buf0 s : 0 <= BUFSIZE -> (forall b, Z.of_nat (length (buf0 b)) = BUFSIZE) ->
  reachable BUFSIZE fileMaxSize buf0 s -> inv s.
Proof. intros Hp Hb. induction 1 as [|s s' _ IH Hs]; [by apply inv_start | by apply (inv_step s)]. Qed.
End inv.

(** * The two buffers of the logger: the size of a file, and waiting loggers *)
#[local] Open Scope Z_scope.

(** ** File::append *)

(** When every [write] takes some bytes, and all of them together take all of them, the file gets
    the bytes in order. *)
Lemma append_loop_ok rs buf w count out : 0 <= w <= count -> count <= Z.of_nat (length buf) -> count < 2 ^ 64 ->
  Forall (fun r => 0 < r) rs -> foldr Z.add 0 rs = count - w ->
  append_loop rs buf w count out = Ok (out ++ take (Z.to_nat (count - w)) (drop (Z.to_nat w) buf)).
Proof.
  intros Hw Hc H64 Hp. revert w out Hw. induction Hp as [|r rs Hr Hp IH]; intros w out Hw Hs; cbn in Hs |- *.
  - rewrite (proj2 (Z.eqb_eq _ _)) by lia. replace (count - w) with 0 by lia. cbn. by rewrite app_nil_r.
  - assert (0 <= foldr Z.add 0 rs) as Hn by (clear -Hp; induction Hp; cbn; lia).
    rewrite (proj2 (Z.eqb_neq w count)) by lia. rewrite (proj2 (Z.eqb_neq r (-1))) by lia.
    rewrite (uwrap_id 64 (count - w)), (uwrap_id 64 r), (uwrap_id 64 (w + r)) by lia.
    rewrite Z.min_l by lia. rewrite slice_ok by lia. cbn. rewrite IH by lia. f_equal. rewrite <- app_assoc. f_equal.
    replace (Z.to_nat (count - w)) with (Z.to_nat r + Z.to_nat (count - (w + r)))%nat by lia.
    rewrite <- take_take_drop, drop_drop. do 3 f_equal. lia.
Qed.

(** An error of the first [write] is not noticed: the next one is given an address in front of the
    buffer. *)
Lemma append_loop_error r rs buf count out : 0 < count < 2 ^ 64 - 1 -> 0 < r -> Z.of_nat (length buf) < 2 ^ 64 - 1 ->
  append_loop (-1 :: r :: rs) buf 0 count out = Ub ArrayIndex.
Proof.
  intros Hc Hr Hl. cbn [append_loop]. rewrite (proj2 (Z.eqb_neq 0 count)) by lia. cbn [Z.eqb].
  change (-1 =? -1) with true. cbn [mbind res_bind].
  change (u64 (0 + u64 (-1))) with (2 ^ 64 - 1). rewrite (proj2 (Z.eqb_neq (2 ^ 64 - 1) count)) by lia.
  rewrite (proj2 (Z.eqb_neq r (-1))) by lia.
  replace (u64 (count - (2 ^ 64 - 1))) with (count + 1).
  2: { unfold uwrap. replace (count - (2 ^ 64 - 1)) with (count + 1 + (-1) * 2 ^ 64) by lia.
       rewrite Z_mod_plus_full, Z.mod_small; lia. }
  unfold slice. rewrite (proj2 (Z.leb_gt (2 ^ 64 - 1 + Z.min r (count + 1)) (Z.of_nat (length buf)))) by lia.
  by rewrite andb_false_r.
Qed.

Section live.
Context (BUFSIZE fileMaxSize : Z).
#[local] Abbreviation step := (step BUFSIZE fileMaxSize).
#[local] Abbreviation inv := (inv BUFSIZE).

(** ** The size of the files *)

Definition LIMIT : Z := Z.max fileMaxSize BUFSIZE.

Definition sized (s : Sys) : Prop :=
  Forall (fun f => Z.of_nat (length f) <= LIMIT) (files s) /\ Z.of_nat (length (file s)) <= LIMIT /\
  forall cur idx wr, writer s = WWrite cur idx wr -> Z.of_nat (length (file s)) + (cur - wr) <= LIMIT.

Lemma sized_moves s s' : files s' = files s -> file s' = file s ->
  (forall cur idx wr, writer s' = WWrite cur idx wr -> writer s = WWrite cur idx wr) -> sized s -> sized s'.
Proof.
  intros Hfs Hf Hw (H1 & H2 & H3). split_and!; rewrite ?Hfs, ?Hf; try done. intros cur idx wr E. apply (H3 _ idx), Hw, E.
Qed.

Lemma swap_not_write s k request cur c x w : writer (swap_step k request cur s) <> WWrite c x w.
Proof. by destruct k as [|[|[|[|[|[|[|?]]]]]]]; destruct request. Qed.

Lemma sized_step s s' : inv s -> sized s -> step s s' -> sized s'.
Proof.
  intros H Hs Hst. pose proof (inv_writer _ s H) as Ho. destruct Hst.
  all: try solve [apply (sized_moves s); cbn; done || congruence].
  - apply (sized_moves s); [by destruct k as [|[|[|[|[|[|[|?]]]]]]].. | | done].
    intros c x w E. by apply swap_not_write in E.
  - rewrite H0 in Ho. destruct Ho as (_ & _ & Hc). destruct Hs as (H1 & H2 & _). split_and!; cbn.
    + apply Forall_app. split; [done|]. by constructor.
    + unfold LIMIT. lia.
    + intros ? ? ? [= <- <- <-]. unfold LIMIT. lia.
  - destruct Hs as (H2 & H3 & _). split_and!; try done. cbn. intros ? ? ? [= <- <- <-]. unfold LIMIT. lia.
  - destruct Hs as (H4 & H5 & H6). pose proof (slice_length _ _ _ _ H3) as Hb.
    specialize (H6 _ _ _ H0). split_and!; cbn; rewrite ?length_app; try done; [lia|].
    intros ? ? ? [= <- <- <-]. lia.
Qed.

Lemma reachable_sized buf0 s : 0 <= BUFSIZE -> (forall b, Z.of_nat (length (buf0 b)) = BUFSIZE) ->
  reachable BUFSIZE fileMaxSize buf0 s -> sized s.
Proof.
  intros Hp Hb. induction 1 as [|s s' Hr IH Hs].
  - split_and!; cbn; try done. unfold LIMIT. lia.
  - apply (sized_step s); [by apply (sched_inv _ fileMaxSize buf0) | done..].
Qed.

(** ** A logger that waits for a swap *)

(** The writer alone can finish the swap. *)
Definition served (s : Sys) : Prop := exists s', rtc step s s' /\ logger s' = logger s /\ sflag s' = true.

Lemma served_step s s1 : step s s1 -> logger s1 = logger s -> served s1 -> served s.
Proof. intros Hs Hl (s' & Hr & Hl' & Hf). exists s'. split_and!; [by eapply rtc_l | congruence | done]. Qed.

Lemma served_swap s k request cur : writer s = WSwap k request cur -> (k <= 4)%nat -> served s.
Proof.
  intros Hw Hk. assert (exists n, k + n = 4)%nat as [n Hn] by (exists (4 - k)%nat; lia).
  revert s k Hw Hk Hn. induction n as [|n IH]; intros s k Hw Hk Hn.
  all: apply (served_step s (swap_step k request cur s)); [by apply w_swap | by destruct k as [|[|[|[|[|?]]]]]; try lia|].
  - assert (k = 4%nat) as -> by lia. exists (swap_step 4 request cur s). split_and!; done || apply rtc_refl.
  - apply (IH _ (S k)); [by destruct k as [|[|[|[|?]]]]; try lia | lia | lia].
Qed.

Lemma served_pred s : writer s = WPred -> sflag s = false -> served s.
Proof.
  intros Hw Hf. apply (served_step s (at_writer (WSwap 0 true 0) s)); [by apply w_request | done|].
  by apply (served_swap _ 0 true 0); [|lia].
Qed.

Lemma served_top s : writer s = WTop -> kflag s = false -> sflag s = false -> smtx s = None -> served s.
Proof.
  intros Hw Hk Hf Hm. apply (served_step s (at_writer WLock s)); [by apply w_top | done|].
  eapply served_step; [by apply w_lock | done|]. by apply served_pred.
Qed.

Lemma served_write s cur idx wr : inv s -> writer s = WWrite cur idx wr -> kflag s = false -> sflag s = false ->
  smtx s = None -> served s.
Proof.
  intros H Hw Hk Hf Hm. destruct (Z.eq_dec wr cur) as [->|Hne].
  - apply (served_step s (at_writer WTop s)); [by apply (w_done _ _ s cur idx) | done | by apply served_top].
  - pose proof (inv_writer _ s H) as Ho. rewrite Hw in Ho. destruct Ho as (_ & -> & Hr & Hc). destruct (inv_len _ s H) as (Hl & _).
    eapply served_step; [eapply (w_write _ _ s cur _ wr (cur - wr)); [done | lia | lia | apply slice_ok; rewrite ?Hl; lia] | done|].
    cbn. replace (wr + (cur - wr)) with cur by lia.
    eapply served_step; [by eapply w_done | done | by apply served_top].
Qed.

Lemma served_roll s cur idx : inv s -> writer s = WRoll cur idx -> kflag s = false -> sflag s = false ->
  smtx s = None -> served s.
Proof.
  intros H Hw Hk Hf Hm. eapply served_step; [by eapply w_roll | done|].
  apply (served_write _ cur idx 0); try done. apply inv_roll; try done. by rewrite concat_app; cbn; rewrite !app_nil_r.
Qed.

Lemma served_relS s cur idx : inv s -> writer s = WRelS cur idx -> kflag s = false -> sflag s = false -> served s.
Proof.
  intros H Hw Hk Hf. eapply served_step; [by eapply w_relS | done|]. by apply (served_roll _ cur idx); [apply inv_wrelS|..].
Qed.

Lemma served_swap_late s k cur : inv s -> writer s = WSwap k true cur -> (5 <= k)%nat -> kflag s = false ->
  sflag s = false -> served s.
Proof.
  intros H Hw Hk. pose proof (inv_writer _ s H) as Ho. rewrite Hw in Ho. destruct Ho as (Hk7 & _).
  assert (exists n, k + n = 7)%nat as [n Hn] by (exists (7 - k)%nat; lia). clear Hk7.
  revert s k cur H Hw Hk Hn. induction n as [|n IH]; intros s k cur H Hw Hk Hn Hkf Hf.
  all: pose proof (inv_swap _ _ _ _ _ H Hw) as Hi;
    apply (served_step s (swap_step k true cur s)); [by apply w_swap | by destruct k as [|[|[|[|[|[|[|?]]]]]]]; try lia|].
  - assert (k = 7%nat) as -> by lia. by apply (served_relS _ cur (widx s)).
  - destruct k as [|[|[|[|[|[|[|?]]]]]]]; try lia.
    + apply (IH _ 6%nat (wcur s)); done || lia.
    + apply (IH _ 7%nat cur); done || lia.
Qed.

(** From every point of the writer, if it was not told to stop. *)
Lemma served_all s i r : inv s -> logger s i = LSpin r -> writer s <> WExit -> kflag s = false -> served s.
Proof.
  intros H Hi Hx Hk. destruct (sflag s) eqn:Hf; [exists s; split_and!; done || apply rtc_refl|].
  assert (rmtx s = Some (ByLogger i)) as HR by (apply (inv_rmtx _ s H (ByLogger i)); by rewrite Hi).
  assert (writerS (writer s) = false -> smtx s = None) as HS.
  { intros Hn. destruct (smtx s) as [o|] eqn:E; [|done]. apply (inv_smtx _ s H) in E. destruct o as [|j]; [congruence|].
    assert (i = j) as <- by (apply (only_holder BUFSIZE s); [done | by rewrite Hi | by destruct (logger s j)]).
    by rewrite Hi in E. }
  destruct (writer s) as [| | | | | | |k q c|c x|c x|c x|c x w|] eqn:Hw; cbn in HS; try done.
  - apply served_top; auto.
  - eapply served_step; [apply w_lock; auto | done | by apply served_pred].
  - by apply served_pred.
  - eapply served_step; [apply w_wake; auto | done | by apply served_pred].
  - eapply served_step; [by apply w_late | done | by apply (served_swap _ 0 true 0); [|lia]].
  - eapply served_step; [by eapply w_busy | done|]. eapply served_step; [by apply w_continue | done | by apply served_top].
  - eapply served_step; [by apply w_continue | done | by apply served_top].
  - destruct (decide (k <= 4)%nat); [by apply (served_swap _ k q c)|]. destruct q.
    + apply (served_swap_late _ k c); try done. lia.
    + exfalso. assert (rmtx s = Some ByWriter) by (apply (inv_rmtx _ s H ByWriter); by rewrite Hw). congruence.
  - exfalso.
    assert (rmtx s = Some ByWriter) by (apply (inv_rmtx _ s H ByWriter); by rewrite Hw). congruence.
  - by apply (served_relS _ c x).
  - apply (served_roll _ c x); auto.
  - apply (served_write _ c x w); auto.
Qed.

(** After the writer thread has left its loop, a logger that waits for a swap waits for ever. *)
Lemma exited_stuck s s' : writer s = WExit -> sflag s = false -> rtc step s s' ->
  writer s' = WExit /\ sflag s' = false /\ forall i r, logger s i = LSpin r -> logger s' i = LSpin r.
Proof.
  intros Hw Hf Hr. induction Hr as [s|s s1 s' Hs _ IH]; [done|].
  assert (writer s1 = WExit /\ sflag s1 = false /\ forall i r, logger s i = LSpin r -> logger s1 i = LSpin r) as (Hw1 & Hf1 & Hl).
  { destruct Hs; try congruence; cbn; split_and!; try done; intros j r' Hj;
      (destruct (decide (j = i)) as [->|]; [congruence | by rewrite fn_lookup_insert_ne]). }
  destruct (IH Hw1 Hf1) as (H1 & H2 & H3). split_and!; [done | done|]. intros j r' Hj. by apply H3, Hl.
Qed.
End live.
