(* ===== verification/LogProps.v ===== *)
(** * The logger: what it does

    From the arguments of a logging call to the files: records, times, the two buffers and the
    writer thread. *)

From S2P Require Import Prelude Bytes FluentAlgo LogMeta LogChrono LogStream LogConf LogSched.
From stdpp Require Import list relations sorting strings.
#[local] Open Scope Z_scope.

(** ** The two buffers *)



(** A logger that waits for a swap.  Unless the writer thread was told to stop, there is from
    every reachable state a sequence of steps of the writer alone after which the logger can go on.
    After the writer has left its loop the logger spins for ever, whatever the others do. *)
Theorem log_waiters (BUFSIZE fileMaxSize : Z) (buf0 : bool -> list Z) (s : Sys) (i : nat) (r : list Z) :
  0 <= BUFSIZE -> (forall b, Z.of_nat (length (buf0 b)) = BUFSIZE) -> reachable BUFSIZE fileMaxSize buf0 s ->
  logger s i = LSpin r ->
  (writer s <> WExit -> kflag s = false ->
   exists s', rtc (step BUFSIZE fileMaxSize) s s' /\ logger s' = logger s /\ sflag s' = true) /\
  (writer s = WExit -> sflag s = false ->
   forall s', rtc (step BUFSIZE fileMaxSize) s s' -> logger s' i = LSpin r /\ sflag s' = false).
Proof.
  intros Hp Hb Hr Hi. pose proof (sched_inv BUFSIZE fileMaxSize buf0 s Hp Hb Hr) as H. split.
  - intros Hx Hk. by apply (served_all BUFSIZE fileMaxSize s i r).
  - intros Hx Hf s' Hs. destruct (exited_stuck BUFSIZE fileMaxSize s s' Hx Hf Hs) as (_ & H1 & H2). split; [by apply H2 | done].
Qed.

(** *** A run with buffers of four bytes: thread 0 logs three bytes, thread 1 two, which do not fit *)

Definition zeros (b : bool) : list Z := [0; 0; 0; 0].
#[local] Abbreviation sample s := (LogSched.reachable 4 100 zeros s).
#[local] Tactic Notation "go" hyp(H) uconstr(c) :=
  lazymatch type of H with
  | LogSched.reachable _ _ _ ?s =>
      let H' := fresh "H" in
      eassert (step 4 100 s _) as H' by (eapply c; reflexivity || (vm_compute; discriminate));
      apply (reach_step 4 100 zeros _ _ H) in H'; clear H; rename H' into H
  end.

#[local] Ltac to_wait H :=
  pose proof (reach_init 4 100 zeros) as H;
  go H (l_call 4 100 _ 0 [1; 2; 10]); go H (l_lock 4 100 _ 0); go H (l_room 4 100 _ 0); go H (l_put 4 100 _ 0);
  go H (l_add 4 100 _ 0); go H (l_unlock 4 100 _ 0); go H (l_call 4 100 _ 1 [7; 10]); go H (l_lock 4 100 _ 1);
  go H (l_full 4 100 _ 1); go H (l_lockS 4 100 _ 1); go H (l_clear 4 100 _ 1); go H (l_relS 4 100 _ 1).

Lemma sample_waits : exists s, sample s /\ logger s 1%nat = LSpin [7; 10] /\ writer s = WTop /\ kflag s = false /\ sflag s = false.
Proof.
  to_wait H.
  eexists. split; [exact H|]. by split_and!.
Qed.

(** The writer swaps the buffers, thread 1 goes on, and the writer writes the three bytes. *)
Lemma sample_written : exists s, sample s /\ logged s = [[1; 2; 10]; [7; 10]] /\ files s = [] /\ file s = [1; 2; 10] /\
  writer s = WTop /\ logger s 1%nat = LUnlock.
Proof.
  to_wait H.
  go H (w_top 4 100). go H (w_lock 4 100). go H (w_request 4 100).
  do 8 (go H (w_swap 4 100)). go H (l_swapped 4 100 _ 1).
  go H (w_relS 4 100). go H (l_put 4 100 _ 1).
  go H (w_same 4 100). go H (l_add 4 100 _ 1).
  go H (w_write 4 100 _ _ _ _ 3).
  go H (w_done 4 100).
  eexists. split; [exact H|]. by split_and!.
Qed.

(** The writer leaves its loop while thread 1 waits. *)
Lemma sample_left : exists s, sample s /\ logger s 1%nat = LSpin [7; 10] /\ writer s = WExit /\ sflag s = false.
Proof. to_wait H. go H (w_kill 4 100). go H (w_exit 4 100). eexists. split; [exact H|]. by split_and!. Qed.



Lemma log_waiters_witness :
  (exists s s', sample s /\ sflag s = false /\ logger s 1%nat = LSpin [7; 10] /\ rtc (step 4 100) s s' /\ sflag s' = true) /\
  (exists s, sample s /\ forall s', rtc (step 4 100) s s' -> logger s' 1%nat = LSpin [7; 10]).
Proof.
  split.
  - destruct sample_waits as (s & H & Hi & Hw & Hk & Hf).
    destruct (proj1 (log_waiters 4 100 zeros s 1 [7; 10] ltac:(lia) ltac:(reflexivity) H Hi)) as (s' & Hr & _ & Hf');
      [by rewrite Hw | exact Hk |]. exists s, s'. by split_and!.
  - destruct sample_left as (s & H & Hi & Hw & Hf). exists s. split; [exact H|]. intros s' Hr.
    apply (proj2 (log_waiters 4 100 zeros s 1 [7; 10] ltac:(lia) ltac:(reflexivity) H Hi) Hw Hf s' Hr).
Defined.

(** ** Records *)


Definition some_array (n : Z) : list Z := replicate (Z.to_nat n) 0.

Lemma some_array_length n : 0 <= n -> Z.of_nat (length (some_array n)) = n.
Proof. intros. unfold some_array. rewrite length_replicate. lia. Qed.


(** Strings that are too long.  The array on the stack of a call has the sizes of the types of
    the arguments: a std::string is given 42 bytes, whatever its length, and what the other
    arguments leave.  A longer string is copied over the end of the array. *)
Theorem log_string_overflow (c : StaticConfig) (level : LogLevel) (point tid : Z) (msg : list message) (str : list Z)
    (msg' : list message) (tmp : Z -> list Z) (st : Records) :
  level_on c level = true -> records_ok st -> LogChrono.last st <= point < 2 ^ 63 -> point / NS_DAY < LAST_DAY ->
  0 <= tid < 2 ^ 31 -> (forall n, 0 <= n -> Z.of_nat (length (tmp n)) = n) -> Forall in_type msg ->
  local_needs msg <= bufcnt msg + 78 ->
  bufcnt (msg ++ MString str :: msg') + 78 < local_needs msg + Z.of_nat (length str) ->
  log_call c level point tid (msg ++ MString str :: msg') tmp st = Ub ArrayIndex.
Proof. apply log_call_overflow. Qed.

(** A string of 121 characters as the only argument; one of 120 is still logged. *)
Lemma log_string_overflow_witness :
  log_call globalConfigBoot INFO 1709208000005000000 77 [MString (replicate 121 65)] some_array records0 = Ub ArrayIndex /\
  exists r, log_call globalConfigBoot INFO 1709208000005000000 77 [MString (replicate 120 65)] some_array records0 = Ok r.
Proof.
  split.
  - apply (log_string_overflow globalConfigBoot INFO 1709208000005000000 77 [] (replicate 121 65) [] some_array records0).
    + reflexivity.
    + apply records0_ok.
    + vm_compute. split; [discriminate | reflexivity].
    + reflexivity.
    + lia.
    + apply some_array_length.
    + constructor.
    + vm_compute. discriminate.
    + vm_compute. reflexivity.
  - eexists. vm_compute. reflexivity.
Defined.

(** ** Dates and numbers *)

(** The calendar.  The date that [calDate] computes from a number of days since 1970-01-01, with
    32-bit signed and unsigned arithmetic, is the date of the Gregorian calendar with this number,
    and it finds every date; the sum with 719468 overflows for the last numbers of the type. *)
Theorem calendar_roundtrip (z : Z) :
  - 2 ^ 31 <= z < 2 ^ 31 ->
  if z + 719468 <? 2 ^ 31
  then exists d, calDate z = Ok d /\ valid_date d /\ day_number d = z /\
       forall e, valid_date e -> day_number e = z -> e = d
  else calDate z = Ub SignedOverflow.
Proof.
  intros Hz. rewrite (calDate_spec z Hz). destruct (z + 719468 <? 2 ^ 31); [|done].
  destruct (civil_spec z) as [Hv Hn]. exists (civil z). split_and!; [done.. |].
  intros e He En. apply day_number_inj; [done | done | congruence].
Qed.

Lemma calendar_roundtrip_witness : exists d, calDate 19782 = Ok d /\ valid_date d /\ day_number d = 19782 /\
  forall e, valid_date e -> day_number e = 19782 -> e = d.
Proof. apply (calendar_roundtrip 19782). lia. Defined.

(** The texts of the times.  On points in time that do not go back, before 2050, the texts that
    [format] keeps between its calls and updates only in part are those of the date and of the time
    of each point. *)
Theorem log_timestamps (points : list Z) :
  Sorted Z.le points -> Forall (fun p => 0 <= p < LAST_DAY * NS_DAY) points ->
  exists st, formats points records0 =
    Ok ((fun p => (date_text (civil (p / NS_DAY)), time_text (calTime p))) <$> points, st).
Proof.
  intros Hs Hp. apply (formats_spec points records0 [] records0_ok); [|done].
  intros p Hin. rewrite Forall_forall in Hp. specialize (Hp p Hin). split_and!; [apply Hp | |].
  - apply Z.div_lt_upper_bound; [done|]. lia.
  - assert (LAST_DAY * NS_DAY <= 2 ^ 63) by (vm_compute; discriminate). lia.
Qed.

(** Before and after midnight of the last day of 2023, and in the evening. *)
Lemma log_timestamps_witness :
  exists st, formats [1704067199999000000; 1704067200000000000; 1704142800123456789] records0 =
    Ok ([(chars "2023-12-31", chars "23:59:59.999"); (chars "2024-01-01", chars "00:00:00.000");
         (chars "2024-01-01", chars "21:00:00.123")], st).
Proof.
  apply (log_timestamps [1704067199999000000; 1704067200000000000; 1704142800123456789]).
  - repeat constructor; lia.
  - repeat constructor; vm_compute; (discriminate || reflexivity).
Defined.

(** Numbers.  What [Stream::parse] writes for a number that is not negative, of the length that
    [parseLength] says, is read back by the [toDec] of the network library. *)
Theorem number_text_roundtrip (w n : Z) (pre old post : list Z) :
  0 < w <= 64 -> 0 <= n < 2 ^ (w - 1) -> parseLength w n = Ok (Z.of_nat (length old)) ->
  exists t, parse_int w (pre ++ old ++ post) (Z.of_nat (length pre)) n (Z.of_nat (length old)) = Ok (pre ++ t ++ post) /\
    length t = length old /\ toDec w t = Ok n.
Proof.
  intros Hw Hn Hl. assert (2 ^ (w - 1) <= 2 ^ 63) by (apply Z.pow_le_mono_r; lia).
  rewrite parseLength_spec in Hl by lia. injection Hl as Hl. apply Nat2Z.inj in Hl.
  exists (text n). split_and!; [apply parse_int_spec; done || lia | done | by apply toDec_text].
Qed.

Lemma number_text_roundtrip_witness :
  exists t, parse_int 32 ([1] ++ [0; 0; 0; 0; 0] ++ [2]) 1 40960 5 = Ok ([1] ++ t ++ [2]) /\ length t = 5%nat /\ toDec 32 t = Ok 40960.
Proof. apply (number_text_roundtrip 32 40960 [1] [0; 0; 0; 0; 0] [2]); [lia | lia | reflexivity]. Defined.
