(* ===== verification/WebServer.v ===== *)
(** * The web servers

    src/net/in_kernel_web_server: one server twice, as a program with POSIX threads
    (server_user.c, Module [User]) and as a kernel module (server_kernel.c, Module [Kernel]).
    A server thread waits for events with epoll, counts the requests of a connection by their line
    ends, and sends as many responses.

    A function that makes system calls takes what the kernel answers and returns the calls it made.
    An array of contexts is a list; memory that was not allocated, a null pointer and a failed
    assertion are undefined behaviour. *)

From S2P Require Import Prelude.
From stdpp Require Import list.
#[local] Open Scope Z_scope.

(** ** The kernel *)

Definition EPOLLIN : Z := 1.
Definition EPOLLOUT : Z := 4.
Definition EPOLLERR : Z := 8.
Definition EPOLLHUP : Z := 16.

Definition EINTR : Z := 4.

Inductive ctl : Set := EPOLL_CTL_ADD | EPOLL_CTL_DEL | EPOLL_CTL_MOD.

#[export] Instance ctl_eq_dec : EqDecision ctl.
Proof. solve_decision. Defined.

Record epoll_event : Type := mkEvent { events : Z; data : Z }.

(** The calls that change what the kernel has, with what they return. *)
Inductive call : Type :=
  | Accept (ret : Z)
  | Ctl (op : ctl) (fd mask ret : Z)
  | Recv (fd ret : Z)
  | Send (fd n ret : Z)
  | Close (fd : Z)
  | Socket (ret : Z)
  | SetSockOpt (fd ret : Z)
  | Bind (fd port ret : Z)
  | Listen (fd ret : Z)
  | EpollCreate (ret : Z)
  | EpollWait (ret : Z)
  | Create (i ret : Z)
  | Stop (i : Z).

(** [m & b] as a condition, [m &= ~b] and [m |= b] on 32 bits. *)
Definition has (m b : Z) : bool := negb (Z.land m b =? 0).
Definition clear (m b : Z) : Z := Z.land m (u32 (Z.lnot b)).
Definition set (m b : Z) : Z := Z.lor m b.

Definition SERVER_PORT : Z := 8848.
Definition CONTEXT_MAX_THREAD : Z := 32.
Definition MAX_RESPONSES : Z := 32.
Definition SOCKETS : nat := 1024.

Module User.

(** What the kernel answers while one event is handled: [errno] after the calls that look at it,
    and [a_data], what is in the buffer after recvmsg. *)
Record answers : Type := mkAnswers {
  a_accept : Z;
  a_ctl : ctl -> Z;
  a_recv : Z;
  a_recv_errno : Z;
  a_data : list Z;
  a_send : Z;
  a_send_errno : Z;
}.

Record socket_context : Type := mkContext { _placeholder_ : Z; _r_n : Z; responses : Z }.

Definition context0 : socket_context := mkContext 0 0 0.

Definition set_responses (n : Z) (c : socket_context) : socket_context := mkContext (_placeholder_ c) (_r_n c) n.

Definition make_fd_and_file (fd : Z) : Z := fd.

(** The returned number, the contexts and the calls. *)
Definition update_event (ret : Z) (ep_ctl_flag : ctl) (ep_event_flag : Z) (context : list socket_context) (fd : Z) :
    res (Z * list socket_context * list call) :=
  let fd_is_ready := negb (bool_decide (ep_ctl_flag = EPOLL_CTL_ADD)) in
  let fd := if fd_is_ready then fd else make_fd_and_file fd in
  if fd <? 0 then Ok (fd, context, [])
  else
    let t := [Ctl ep_ctl_flag fd ep_event_flag ret] in
    if ret <? 0 then Ok (ret, context, t)
    else if fd_is_ready then Ok (fd, context, t)
    else
      c ← context.[fd];
      context ← context.[fd <- mkContext 1 (_r_n c) (responses c)];
      Ok (fd, context, t).

(** One character of the loop of wrk_parse. *)
Definition wrk_char (st : Z * Z) (c : Z) : res (Z * Z) :=
  let '(r_n, requests) := st in
  if (c =? 13) || (c =? 10) then
    r_n ← sint 32 (r_n + 1);
    if r_n =? 6 then requests ← sint 32 (requests + 1); Ok (0, requests) else Ok (r_n, requests)
  else Ok (r_n, requests).

Definition wrk_parse (context : socket_context) (buffer : list Z) (nread : Z) : res (socket_context * Z) :=
  '(r_n, requests) ← foldR (fun st i => c ← buffer.[i]; wrk_char st c) (s32 (_r_n context), 0) (seqZ 0 nread);
  Ok (mkContext (_placeholder_ context) (u64 r_n) (u64 (responses context + requests)), requests).

(** The part of event_loop for EPOLLIN: the context, [e->events] and [next_event]. *)
Definition on_readable (a : answers) (c : socket_context) (ev next_event : Z) : res (socket_context * Z * Z) :=
  let ret := a_recv a in
  if (ret =? 0) && (ev =? EPOLLIN) then Ok (c, EPOLLHUP, next_event)
  else if ret <? 0 then Ok (c, if a_recv_errno a =? EINTR then ev else EPOLLHUP, next_event)
  else
    '(c, requests) ← wrk_parse c (a_data a) ret;
    let next_event := if requests =? 0 then next_event else clear next_event EPOLLIN in
    let next_event := if responses c =? 0 then next_event else set next_event EPOLLOUT in
    Ok (c, ev, next_event).

(** The part for EPOLLOUT, and the number of responses it sends. *)
Definition on_writable (a : answers) (c : socket_context) (ev next_event : Z) : res (socket_context * Z * Z * Z) :=
  _ ← check (negb (responses c =? 0)) AssertFailed;
  let n := s32 (responses c) in
  let n := if MAX_RESPONSES <=? n then MAX_RESPONSES - 1 else n in
  let c := set_responses (u64 (responses c - n)) c in
  if a_send a <? 0 then Ok (c, if a_send_errno a =? EINTR then ev else EPOLLHUP, next_event, n)
  else
    let next_event := if responses c =? 0 then clear next_event EPOLLOUT else next_event in
    Ok (c, ev, set next_event EPOLLIN, n).

(** The parts for EPOLLHUP and for a change of the events. *)
Definition on_hangup (a : answers) (fd : Z) (c : socket_context) (ev : Z) (sockets : list socket_context) :
    res (socket_context * list call) :=
  if has ev EPOLLHUP && negb (has ev EPOLLIN) then
    '(_, _, t) ← update_event (a_ctl a EPOLL_CTL_DEL) EPOLL_CTL_DEL 0 sockets fd;
    Ok (context0, t ++ [Close fd])
  else Ok (c, []).

Definition on_change (a : answers) (fd ev current_event next_event : Z) (sockets : list socket_context) : res (list call) :=
  if negb (ev =? EPOLLHUP) && negb (current_event =? next_event) then
    '(_, _, t) ← update_event (a_ctl a EPOLL_CTL_MOD) EPOLL_CTL_MOD next_event sockets fd; Ok t
  else Ok [].

(** A turn of event_loop for an event of a client. *)
Definition on_client (a : answers) (e : epoll_event) (sockets : list socket_context) : res (list socket_context * list call) :=
  let current_event := events e in
  let client_fd := data e in
  c ← sockets.[client_fd];
  '(c, ev, next_event) ←
    (if has (events e) EPOLLIN then on_readable a c (events e) (events e) else Ok (c, events e, events e));
  let t1 := if has (events e) EPOLLIN then [Recv client_fd (a_recv a)] else [] in
  '(c, ev', next_event, t2) ←
    (if has ev EPOLLOUT then
       '(c, ev, next_event, n) ← on_writable a c ev next_event; Ok (c, ev, next_event, [Send client_fd n (a_send a)])
     else Ok (c, ev, next_event, []));
  '(c, t3) ← on_hangup a client_fd c ev' sockets;
  sockets ← sockets.[client_fd <- c];
  t4 ← on_change a client_fd ev' current_event next_event sockets;
  Ok (sockets, t1 ++ t2 ++ t3 ++ t4).

(** A turn of event_loop. *)
Definition on_event (server_fd : Z) (a : answers) (e : epoll_event) (sockets : list socket_context) :
    res (list socket_context * list call) :=
  if data e =? server_fd then
    let client_fd := a_accept a in
    '(_, sockets, t) ← update_event (a_ctl a EPOLL_CTL_ADD) EPOLL_CTL_ADD (Z.lor EPOLLIN EPOLLHUP) sockets client_fd;
    Ok (sockets, Accept client_fd :: t)
  else on_client a e sockets.

Definition event_loop (server_fd : Z) (evs : list (epoll_event * answers)) (sockets : list socket_context) :
    res (list socket_context * list call) :=
  foldR (fun st ea =>
    '(sockets, t) ← on_event server_fd ea.2 ea.1 st.1; Ok (sockets, st.2 ++ t)) (sockets, []) evs.

(** ** Threads *)

(** What the kernel answers to create_server_socket. *)
Record setup : Type := mkSetup { s_socket : Z; s_reuseaddr : Z; s_reuseport : Z; s_bind : Z; s_listen : Z }.

(** The label done of create_server_socket. *)
Definition give_up_socket (fd ret : Z) : Z * list call := (ret, if fd =? - 1 then [] else [Close fd]).

Definition create_server_socket (a : setup) : Z * list call :=
  let fd := - 1 in
  let ret := s_socket a in
  let t := [Socket ret] in
  let fail fd ret t := let '(r, t') := give_up_socket fd ret in (r, t ++ t') in
  if ret <? 0 then fail fd ret t else
  let fd := ret in
  let ret := s_reuseaddr a in
  let t := t ++ [SetSockOpt fd ret] in
  if ret <? 0 then fail fd ret t else
  let ret := s_reuseport a in
  let t := t ++ [SetSockOpt fd ret] in
  if ret <? 0 then fail fd ret t else
  let ret := s_bind a in
  let t := t ++ [Bind fd SERVER_PORT ret] in
  if ret <? 0 then fail fd ret t else
  let ret := s_listen a in
  let t := t ++ [Listen fd ret] in
  if ret <? 0 then fail fd ret t else (fd, t).

(** The label done of server_thread; the contexts are there when they were allocated. *)
Definition close_contexts (sockets : list socket_context) : list call :=
  omap (fun ic => if _placeholder_ ic.2 =? 0 then None else Some (Close ic.1)) (indexed sockets).

Definition done (epfd : Z) (sockets : option (list socket_context)) : list call :=
  (if epfd =? - 1 then [] else [Close epfd]) ++ match sockets with Some l => close_contexts l | None => [] end.

(** The loop of server_thread over what epoll_wait returns, [None] for an error: the calls, and the
    contexts when it still waits. *)
Fixpoint serve (epfd server_fd : Z) (waits : list (option (list (epoll_event * answers)))) (sockets : list socket_context) :
    res (list call * option (list socket_context)) :=
  match waits with
  | [] => Ok ([], Some sockets)
  | None :: _ => Ok (EpollWait (- 1) :: done epfd (Some sockets), None)
  | Some evs :: waits' =>
      '(sockets, t) ← event_loop server_fd evs sockets;
      '(t', r) ← serve epfd server_fd waits' sockets;
      Ok (EpollWait (Z.of_nat (length evs)) :: t ++ t', r)
  end.

(** [m_sockets], [m_events], [m_buffer]: whether malloc succeeds. *)
Definition server_thread (m_sockets m_events m_buffer : bool) (epfd ctl_ret server_fd : Z)
    (waits : list (option (list (epoll_event * answers)))) : res (list call * option (list socket_context)) :=
  sockets ← (if m_sockets then Ok (replicate SOCKETS context0) else Ub PointerRange);
  if negb (m_events && m_buffer) then Ok (done (- 1) (Some sockets), None)
  else if epfd <? 0 then Ok (EpollCreate epfd :: done (- 1) (Some sockets), None)
  else
    '(ret, sockets, t) ← update_event ctl_ret EPOLL_CTL_ADD EPOLLIN sockets server_fd;
    if ret <? 0 then Ok (EpollCreate epfd :: t ++ done epfd (Some sockets), None)
    else
      '(t', r) ← serve epfd ret waits sockets;
      Ok (EpollCreate epfd :: t ++ t', r).

(** The returned number, the descriptor of the thread and the calls. *)
Definition each_server_init (i : Z) (a : setup) (pthread_create : Z) : Z * Z * list call :=
  let '(server_fd, t) := create_server_socket a in
  if server_fd =? 0 then (- 1, server_fd, t)
  else
    let t := t ++ [Create i pthread_create] in
    if pthread_create <? 0 then (pthread_create, server_fd, t) else (0, server_fd, t).

Definition each_server_exit (i : Z) : list call := [Stop i].

(** The loop of simple_web_server_init from thread [i], and the threads to stop when it fails:
    [for(--i; ~i; i--)]. *)
Fixpoint init_from (i : Z) (as_ : list (setup * Z)) : Z * list call :=
  match as_ with
  | [] => (0, [])
  | (a, p) :: rest =>
      let '(ret, _, t) := each_server_init i a p in
      if ret =? 0 then let '(r, t') := init_from (i + 1) rest in (r, t ++ t')
      else (- 1, t ++ (rev (seqZ 0 i) ≫= each_server_exit))
  end.

Definition simple_web_server_init (num_threads : Z) (as_ : list (setup * Z)) : Z * list call :=
  if (CONTEXT_MAX_THREAD <=? num_threads) || (num_threads <? 1) then (- 1, [])
  else init_from 0 (take (Z.to_nat num_threads) as_).

Definition simple_web_server_exit (num_threads : Z) : list call := seqZ 0 num_threads ≫= each_server_exit.
End User.

Module Kernel.

(** What the functions of the kernel return while one event is handled: errors are negative numbers.
    [a_accept] is what kernel_accept stores as the new socket, [None] when it stores nothing;
    [a_file] is whether sock_alloc_file succeeds and [a_fd] what get_unused_fd_flags returns. *)
Record answers : Type := mkAnswers {
  a_accept : option Z;
  a_file : bool;
  a_fd : Z;
  a_ctl : ctl -> Z;
  a_recv : Z;
  a_data : list Z;
  a_send : Z;
}.

(** A socket is its address, 0 for a null pointer. *)
Record socket_context : Type := mkContext { socket : Z; _r_n : Z; responses : Z }.

Definition context0 : socket_context := mkContext 0 0 0.

Definition set_responses (n : Z) (c : socket_context) : socket_context := mkContext (socket c) (_r_n c) n.

Definition make_fd_and_file (file_ok : bool) (unused_fd : Z) : Z :=
  if negb file_ok then - 1 else unused_fd.

Definition update_event (made_fd ret : Z) (ep_ctl_flag : ctl) (ep_event_flag : Z) (context : list socket_context) (fd sock : Z) :
    res (Z * list socket_context * list call) :=
  let fd_is_ready := negb (bool_decide (ep_ctl_flag = EPOLL_CTL_ADD)) in
  let fd := if fd_is_ready then fd else made_fd in
  if fd <? 0 then Ok (fd, context, [])
  else
    let t := [Ctl ep_ctl_flag fd ep_event_flag ret] in
    if ret <? 0 then Ok (ret, context, t)
    else if fd_is_ready then Ok (fd, context, t)
    else
      c ← context.[fd];
      context ← context.[fd <- mkContext sock (_r_n c) (responses c)];
      Ok (fd, context, t).

Definition wrk_char (st : Z * Z) (c : Z) : res (Z * Z) :=
  let '(r_n, requests) := st in
  if (c =? 13) || (c =? 10) then
    r_n ← sint 32 (r_n + 1);
    if r_n =? 6 then requests ← sint 32 (requests + 1); Ok (0, requests) else Ok (r_n, requests)
  else Ok (r_n, requests).

Definition wrk_parse (context : socket_context) (buffer : list Z) (nread : Z) : res (socket_context * Z) :=
  '(r_n, requests) ← foldR (fun st i => c ← buffer.[i]; wrk_char st c) (s32 (_r_n context), 0) (seqZ 0 nread);
  Ok (mkContext (socket context) (u64 r_n) (u64 (responses context + requests)), requests).

Definition on_readable (a : answers) (c : socket_context) (ev next_event : Z) : res (socket_context * Z * Z) :=
  let ret := a_recv a in
  if (ret =? 0) && (ev =? EPOLLIN) then Ok (c, EPOLLHUP, next_event)
  else if ret <? 0 then Ok (c, if ret =? - EINTR then ev else EPOLLHUP, next_event)
  else
    '(c, requests) ← wrk_parse c (a_data a) ret;
    let next_event := if requests =? 0 then next_event else clear next_event EPOLLIN in
    let next_event := if responses c =? 0 then next_event else set next_event EPOLLOUT in
    Ok (c, ev, next_event).

Definition on_writable (a : answers) (c : socket_context) (ev next_event : Z) : res (socket_context * Z * Z * Z) :=
  _ ← check (negb (responses c =? 0)) AssertFailed;
  let n := s32 (responses c) in
  let n := if MAX_RESPONSES <=? n then MAX_RESPONSES - 1 else n in
  let c := set_responses (u64 (responses c - n)) c in
  if a_send a <? 0 then Ok (c, if a_send a =? - EINTR then ev else EPOLLHUP, next_event, n)
  else
    let next_event := if responses c =? 0 then clear next_event EPOLLOUT else next_event in
    Ok (c, ev, set next_event EPOLLIN, n).

Definition on_hangup (a : answers) (fd sock : Z) (c : socket_context) (ev : Z) (sockets : list socket_context) :
    res (socket_context * list call) :=
  if has ev EPOLLHUP && negb (has ev EPOLLIN) then
    '(_, _, t) ← update_event 0 (a_ctl a EPOLL_CTL_DEL) EPOLL_CTL_DEL 0 sockets fd sock;
    Ok (context0, t ++ [Close fd])
  else Ok (c, []).

Definition on_change (a : answers) (fd sock ev current_event next_event : Z) (sockets : list socket_context) : res (list call) :=
  if negb (ev =? EPOLLHUP) && negb (current_event =? next_event) then
    '(_, _, t) ← update_event 0 (a_ctl a EPOLL_CTL_MOD) EPOLL_CTL_MOD next_event sockets fd sock; Ok t
  else Ok [].

(** A turn of event_loop for an event of a client; the third result is the variable client_socket. *)
Definition on_client (a : answers) (e : epoll_event) (sockets : list socket_context) :
    res (list socket_context * list call * Z) :=
  let current_event := events e in
  let client_fd := data e in
  c ← sockets.[client_fd];
  let client_socket := socket c in
  '(c, ev, next_event) ←
    (if has (events e) EPOLLIN then on_readable a c (events e) (events e) else Ok (c, events e, events e));
  let t1 := if has (events e) EPOLLIN then [Recv client_fd (a_recv a)] else [] in
  '(c, ev', next_event, t2) ←
    (if has ev EPOLLOUT then
       '(c, ev, next_event, n) ← on_writable a c ev next_event; Ok (c, ev, next_event, [Send client_fd n (a_send a)])
     else Ok (c, ev, next_event, []));
  '(c, t3) ← on_hangup a client_fd client_socket c ev' sockets;
  sockets ← sockets.[client_fd <- c];
  t4 ← on_change a client_fd client_socket ev' current_event next_event sockets;
  Ok (sockets, t1 ++ t2 ++ t3 ++ t4, client_socket).

(** A turn of event_loop.  What kernel_accept returns is not looked at: when it stores nothing, the
    variable keeps the value of an earlier turn, if there was one. *)
Definition on_event (server_fd : Z) (a : answers) (e : epoll_event) (sockets : list socket_context) (client_socket : option Z) :
    res (list socket_context * list call * option Z) :=
  if data e =? server_fd then
    let client_socket := match a_accept a with Some p => Some p | None => client_socket end in
    match client_socket with
    | None => Ub PointerRange
    | Some p =>
        _ ← check (negb (p =? 0)) PointerRange;
        let fd := make_fd_and_file (a_file a) (a_fd a) in
        '(_, sockets, t) ← update_event fd (a_ctl a EPOLL_CTL_ADD) EPOLL_CTL_ADD (Z.lor EPOLLIN EPOLLHUP) sockets (- 1) p;
        Ok (sockets, Accept fd :: t, Some p)
    end
  else '(sockets, t, p) ← on_client a e sockets; Ok (sockets, t, Some p).

Definition event_loop (server_fd : Z) (evs : list (epoll_event * answers)) (sockets : list socket_context) :
    res (list socket_context * list call) :=
  '(sockets, t, _) ← foldR (fun st ea =>
    let '(sockets, t, p) := st in
    '(sockets, t', p) ← on_event server_fd ea.2 ea.1 sockets p; Ok (sockets, t ++ t', p)) (sockets, [], None) evs;
  Ok (sockets, t).

(** ** Threads *)

(** What the functions of the kernel return to create_server_socket; [s_sock] is the socket that
    sock_create stores. *)
Record setup : Type := mkSetup { s_create : Z; s_sock : Z; s_reuseaddr : Z; s_reuseport : Z; s_bind : Z; s_listen : Z }.

(** The label done: the variable server_socket has no value when sock_create has not stored one. *)
Definition give_up_socket (server_socket : option Z) : res (Z * list call) :=
  match server_socket with
  | None => Ub PointerRange
  | Some p => Ok (0, if p =? 0 then [] else [Close p])
  end.

Definition create_server_socket (a : setup) : res (Z * list call) :=
  let fail sock t := '(r, t') ← give_up_socket sock; Ok (r, t ++ t') in
  let ret := s_create a in
  let t := [Socket ret] in
  if ret <? 0 then fail None t else
  let sock := s_sock a in
  let ret := s_reuseaddr a in
  let t := t ++ [SetSockOpt sock ret] in
  if ret <? 0 then fail (Some sock) t else
  let ret := s_reuseport a in
  let t := t ++ [SetSockOpt sock ret] in
  if ret <? 0 then fail (Some sock) t else
  let ret := s_bind a in
  let t := t ++ [Bind sock SERVER_PORT ret] in
  if ret <? 0 then fail (Some sock) t else
  let ret := s_listen a in
  let t := t ++ [Listen sock ret] in
  if ret <? 0 then fail (Some sock) t else Ok (sock, t).

Definition close_contexts (sockets : list socket_context) : list call :=
  omap (fun ic => if socket ic.2 =? 0 then None else Some (Close ic.1)) (indexed sockets).

Definition done (epfd : Z) (sockets : option (list socket_context)) : list call :=
  (if epfd =? - 1 then [] else [Close epfd]) ++ match sockets with Some l => close_contexts l | None => [] end.

(** The loop of server_thread: [None] is an error of do_epoll_wait, or that the thread is to stop. *)
Fixpoint serve (epfd server_fd : Z) (waits : list (option (list (epoll_event * answers)))) (sockets : list socket_context) :
    res (list call * option (list socket_context)) :=
  match waits with
  | [] => Ok ([], Some sockets)
  | None :: _ => Ok (EpollWait (- 1) :: done epfd (Some sockets), None)
  | Some evs :: waits' =>
      '(sockets, t) ← event_loop server_fd evs sockets;
      '(t', r) ← serve epfd server_fd waits' sockets;
      Ok (EpollWait (Z.of_nat (length evs)) :: t ++ t', r)
  end.

Definition server_thread (m_sockets m_events m_buffer : bool) (epfd : Z) (file_ok : bool) (fd ctl_ret server_socket : Z)
    (waits : list (option (list (epoll_event * answers)))) : res (list call * option (list socket_context)) :=
  if negb (m_sockets && m_events && m_buffer) then
    Ok (done (- 1) (if m_sockets then Some (replicate SOCKETS context0) else None), None)
  else
    let sockets := replicate SOCKETS context0 in
    if epfd <? 0 then Ok (EpollCreate epfd :: done (- 1) (Some sockets), None)
    else
      '(ret, sockets, t) ← update_event (make_fd_and_file file_ok fd) ctl_ret EPOLL_CTL_ADD EPOLLIN sockets (- 1) server_socket;
      if ret <? 0 then Ok (EpollCreate epfd :: t ++ done epfd (Some sockets), None)
      else
        '(t', r) ← serve epfd ret waits sockets;
        Ok (EpollCreate epfd :: t ++ t', r).

(** [kthread_run] returns a negative number for an error. *)
Definition each_server_init (i : Z) (a : setup) (kthread_run : Z) : res (Z * list call) :=
  '(server_socket, t) ← create_server_socket a;
  if server_socket =? 0 then Ok (- 1, t)
  else
    let t := t ++ [Create i kthread_run] in
    if kthread_run <? 0 then Ok (kthread_run, t) else Ok (0, t).

(** [running i]: the thread has not ended, so that the context still has it. *)
Definition each_server_exit (running : Z -> bool) (i : Z) : list call := if running i then [Stop i] else [].

Fixpoint init_from (running : Z -> bool) (i : Z) (as_ : list (setup * Z)) : res (Z * list call) :=
  match as_ with
  | [] => Ok (0, [])
  | (a, p) :: rest =>
      '(ret, t) ← each_server_init i a p;
      if ret =? 0 then '(r, t') ← init_from running (i + 1) rest; Ok (r, t ++ t')
      else Ok (- 1, t ++ (rev (seqZ 0 i) ≫= each_server_exit running))
  end.

Definition simple_web_server_init (num_threads : Z) (running : Z -> bool) (as_ : list (setup * Z)) : res (Z * list call) :=
  if (CONTEXT_MAX_THREAD <=? num_threads) || (num_threads <? 1) then Ok (- 1, [])
  else init_from running 0 (take (Z.to_nat num_threads) as_).

Definition simple_web_server_exit (num_threads : Z) (running : Z -> bool) : list call :=
  seqZ 0 num_threads ≫= each_server_exit running.
End Kernel.
