(* ===== verification/WebServerProps.v ===== *)
(** * The web servers: what they serve

    Runs of the server on any events and answers that the kernel documents; the error paths; and
    that the kernel module handles a client as the program does. *)

From S2P Require Import Prelude WebServer.
From stdpp Require Import functions list.
#[local] Open Scope Z_scope.

(** ** Masks *)

Lemma has_bit m k : 0 <= k -> has m (2 ^ k) = Z.testbit m k.
Proof.
  intros Hk. unfold has. destruct (Z.testbit m k) eqn:E.
  - apply negb_true_iff, Z.eqb_neq. intros H. assert (Z.testbit (Z.land m (2 ^ k)) k = false) as Hf by (by rewrite H, Z.bits_0).
    rewrite Z.land_spec, E, Z.pow2_bits_true in Hf by lia. done.
  - apply negb_false_iff, Z.eqb_eq. apply Z.bits_inj_0. intros n. rewrite Z.land_spec.
    destruct (decide (n = k)) as [->|]; [by rewrite E | rewrite Z.pow2_bits_false by done; apply andb_false_r].
Qed.

Definition inb (m : Z) : bool := Z.testbit m 0.
Definition outb (m : Z) : bool := Z.testbit m 2.
Definition hupb (m : Z) : bool := Z.testbit m 4.

Lemma has_in m : has m EPOLLIN = inb m.
Proof. apply (has_bit m 0). lia. Qed.
Lemma has_out m : has m EPOLLOUT = outb m.
Proof. apply (has_bit m 2). lia. Qed.
Lemma has_hup m : has m EPOLLHUP = hupb m.
Proof. apply (has_bit m 4). lia. Qed.

Lemma set_bit_of m b k : Z.testbit (set m b) k = Z.testbit m k || Z.testbit b k.
Proof. apply Z.lor_spec. Qed.

Lemma clear_bit_of m b k : 0 <= k < 32 -> Z.testbit (clear m b) k = Z.testbit m k && negb (Z.testbit b k).
Proof.
  intros Hk. unfold clear. rewrite Z.land_spec. f_equal. unfold uwrap. rewrite Z.mod_pow2_bits_low by lia. by rewrite Z.lnot_spec by lia.
Qed.

(** ** Counting requests *)

(** The line ends of a text. *)
Definition ends (l : list Z) : Z := Z.of_nat (length (filter (fun c => c = 13 \/ c = 10) l)).

Lemma ends_cons c l : ends (c :: l) = (if (c =? 13) || (c =? 10) then 1 else 0) + ends l.
Proof.
  unfold ends. rewrite filter_cons. destruct (Z.eqb_spec c 13), (Z.eqb_spec c 10); case_decide; cbn [orb length]; lia.
Qed.

Lemma ends_nonneg l : 0 <= ends l.
Proof. unfold ends. lia. Qed.

Lemma ends_length l : ends l <= Z.of_nat (length l).
Proof. unfold ends. pose proof (length_filter (fun c => c = 13 \/ c = 10) l). lia. Qed.

Lemma line_ends_app l1 l2 : ends (l1 ++ l2) = ends l1 + ends l2.
Proof. unfold ends. rewrite filter_app, length_app. lia. Qed.

(** The count before and after: [r] line ends of a request, and the requests. *)
Lemma wrk_count r c b : 0 <= r < 6 -> 0 <= b -> b < 2 ^ 31 - 1 ->
  User.wrk_char (r, b) c = Ok (let n := r + (if (c =? 13) || (c =? 10) then 1 else 0) in (n mod 6, b + n / 6)).
Proof.
  intros Hr Hb Hb'. unfold User.wrk_char. destruct ((c =? 13) || (c =? 10)); cbn zeta.
  - rewrite (sint_ok 32 (r + 1)) by lia. cbn [mbind res_bind]. destruct (Z.eqb_spec (r + 1) 6) as [E|E].
    + rewrite sint_ok by lia. cbn [mbind res_bind]. rewrite E. f_equal.
    + rewrite Z.mod_small, Z.div_small by lia. by rewrite Z.add_0_r.
  - rewrite Z.add_0_r, Z.mod_small, Z.div_small by lia. by rewrite Z.add_0_r.
Qed.

Lemma divmod6 r k n : 0 <= r -> 0 <= k -> (r + k) mod 6 = ((r mod 6) + k) mod 6 /\ n + r / 6 + (r mod 6 + k) / 6 = n + (r + k) / 6.
Proof.
  intros Hr Hk. split; [by rewrite Zplus_mod_idemp_l|].
  rewrite (Z.div_mod r 6) at 3 by lia. replace (6 * (r / 6) + r mod 6 + k) with (r mod 6 + k + (r / 6) * 6) by lia.
  rewrite Z.div_add by lia. lia.
Qed.

Lemma wrk_loop_spec buffer i n r b : 0 <= i -> (Z.to_nat i + n <= length buffer)%nat -> 0 <= r < 6 -> 0 <= b ->
  b + Z.of_nat n < 2 ^ 31 ->
  foldR (fun st i => c ← buffer.[i]; User.wrk_char st c) (r, b) (seqZ i (Z.of_nat n)) =
  Ok (let k := r + ends (take n (drop (Z.to_nat i) buffer)) in (k mod 6, b + k / 6)).
Proof.
  revert i r b. induction n as [|n IH]; intros i r b Hi Hn Hr Hb Hlt.
  - change (seqZ i (Z.of_nat 0)) with (@nil Z). cbn [foldR]. rewrite take_0. unfold ends. cbn [filter list_filter length]. cbn zeta.
    rewrite Z.add_0_r, Z.mod_small, Z.div_small by lia. by rewrite Z.add_0_r.
  - rewrite seqZ_cons by lia. cbn [foldR]. destruct (at_index_ok buffer i) as (c & Ec & El); [lia|]. rewrite Ec. cbn [mbind res_bind].
    rewrite wrk_count by lia. cbn zeta. cbn [mbind res_bind].
    replace (Z.pred (Z.of_nat (S n))) with (Z.of_nat n) by lia. rewrite (drop_S _ c) by done. rewrite firstn_cons, ends_cons.
    set (d := if (c =? 13) || (c =? 10) then 1 else 0). assert (0 <= d <= 1) by (unfold d; by destruct (_ || _)).
    assert (0 <= (r + d) / 6 <= 1) by (split; [apply Z.div_pos; lia | apply Z.div_le_upper_bound; lia]).
    pose proof (Z.mod_pos_bound (r + d) 6).
    rewrite IH; [|lia | lia | lia | lia | lia]. replace (Z.to_nat (Z.succ i)) with (S (Z.to_nat i)) by lia. cbn zeta.
    pose proof (ends_nonneg (take n (drop (S (Z.to_nat i)) buffer))) as Hk.
    destruct (divmod6 (r + d) _ b ltac:(lia) Hk) as [E1 E2]. rewrite Z.add_assoc, E1, E2. done.
Qed.

Lemma wrk_parse_spec c buffer nread : 0 <= User._r_n c < 6 -> 0 <= User.responses c -> 0 <= nread <= Z.of_nat (length buffer) ->
  nread < 2 ^ 31 -> User.responses c + nread < 2 ^ 64 ->
  User.wrk_parse c buffer nread =
  Ok (let k := User._r_n c + ends (take (Z.to_nat nread) buffer) in
      (User.mkContext (User._placeholder_ c) (k mod 6) (User.responses c + k / 6), k / 6)).
Proof.
  intros Hr Hp Hn Hn31 Hb. unfold User.wrk_parse. rewrite swrap_id; [|lia | apply sfits_spec; lia].
  rewrite <- (Z2Nat.id nread) at 1 by lia.
  rewrite (wrk_loop_spec buffer 0 (Z.to_nat nread)) by lia. cbn [mbind res_bind Z.to_nat drop]. cbn zeta.
  set (e := ends (take (Z.to_nat nread) buffer)). assert (0 <= e <= nread).
  { unfold e. pose proof (ends_length (take (Z.to_nat nread) buffer)) as H. rewrite length_take in H. pose proof (ends_nonneg (take (Z.to_nat nread) buffer)). lia. }
  pose proof (Z.mod_pos_bound (User._r_n c + e) 6).
  assert (0 <= (User._r_n c + e) / 6 <= nread) by (split; [apply Z.div_pos; lia | apply Zlt_succ_le, Z.div_lt_upper_bound; lia]).
  change (drop (Z.to_nat 0) buffer) with buffer. fold e. rewrite !Z.add_0_l, !uwrap_id by lia. done.
Qed.

(** ** The parts of a turn *)

(** A context whose counters are in their ranges. *)
Definition fine (c : User.socket_context) : Prop := 0 <= User._r_n c < 6 /\ 0 <= User.responses c < 2 ^ 31.

(** All line ends of a connection: of the requests that were answered, of those that wait for an
    answer, and of the request that is not complete. *)
Definition counted (lines sent : Z) (c : User.socket_context) : Prop := lines = 6 * (sent + User.responses c) + User._r_n c.

(** What recvmsg and sendmsg return. *)
Definition recv_ok (a : User.answers) : Prop :=
  - 1 <= User.a_recv a <= 4096 /\ length (User.a_data a) = 4096%nat.
Definition send_ok (a : User.answers) : Prop := User.a_send a < 0 -> User.a_send_errno a <> EINTR.

(** The line ends that a turn reads. *)
Definition read_ends (a : User.answers) : Z := ends (take (Z.to_nat (User.a_recv a)) (User.a_data a)).

Lemma read_ends_bound a : recv_ok a -> 0 <= read_ends a <= 4096.
Proof.
  intros [Hr Hl]. unfold read_ends. split; [apply ends_nonneg|]. pose proof (ends_length (take (Z.to_nat (User.a_recv a)) (User.a_data a))) as H.
  rewrite length_take in H. lia.
Qed.

Lemma read_ends_none a : User.a_recv a <= 0 -> read_ends a = 0.
Proof. intros H. unfold read_ends. replace (Z.to_nat (User.a_recv a)) with 0%nat by lia. done. Qed.

(** After the read: the events are given up for EPOLLHUP, or kept; then there is an interest in
    EPOLLOUT when responses wait. *)
Lemma on_readable_spec a c ev lines sent : fine c -> recv_ok a -> inb ev = true -> counted lines sent c ->
  lines + read_ends a < 2 ^ 31 -> 0 <= sent ->
  exists c' ev' next, User.on_readable a c ev ev = Ok (c', ev', next) /\ fine c' /\ counted (lines + read_ends a) sent c' /\
    User._placeholder_ c' = User._placeholder_ c /\ User.responses c <= User.responses c' /\
    (ev' = EPOLLHUP \/
     ev' = ev /\ (outb next = outb ev || negb (User.responses c' =? 0) /\ (inb next = true \/ User.responses c' <> 0) \/
                  next = ev /\ User.responses c' = User.responses c)).
Proof.
  intros [Hr Hp] Ha Hin Hc Hl Hs. pose proof Ha as [Hrecv Hlen]. unfold User.on_readable.
  destruct ((User.a_recv a =? 0) && (ev =? EPOLLIN)) eqn:E0.
  { apply andb_true_iff in E0 as [E0 _]. apply Z.eqb_eq in E0. rewrite read_ends_none, Z.add_0_r by lia.
    exists c, EPOLLHUP, ev. split_and!; try done. by left. }
  destruct (Z.ltb_spec (User.a_recv a) 0) as [Hneg|Hnn].
  { rewrite read_ends_none, Z.add_0_r by lia. do 3 eexists. split; [reflexivity|]. split_and!; try done. destruct (_ =? EINTR); auto. }
  rewrite wrk_parse_spec by lia. cbn [mbind res_bind]. cbn zeta. fold (read_ends a). set (k := User._r_n c + read_ends a).
  pose proof (read_ends_bound a Ha) as Hb. unfold counted in Hc.
  assert (k = 6 * (k / 6) + k mod 6) as Ek by (apply Z.div_mod; lia). pose proof (Z.mod_pos_bound k 6 ltac:(lia)) as Hm.
  assert (0 <= k / 6) as Hd by (apply Z.div_pos; lia).
  do 3 eexists. split; [reflexivity|]. cbn [User.responses User._r_n User._placeholder_]. split_and!; try done.
  - split; cbn; [done|]. split; [lia|]. lia.
  - unfold counted. cbn. lia.
  - lia.
  - right. split; [done|]. left. unfold outb, inb in *. destruct (Z.eqb_spec (k / 6) 0) as [E6|E6]; destruct (Z.eqb_spec (User.responses c + k / 6) 0) as [Ep|Ep];
      cbn [negb]; rewrite ?orb_false_r, ?orb_true_r, ?set_bit_of, ?clear_bit_of by lia; rewrite ?Hin; cbn [negb andb orb].
    all: try lia. all: split; [|by (left; done) || (right; lia)]; try done. all: by rewrite ?andb_true_r, ?orb_true_r.
Qed.

(** After the write: at most 31 responses are sent; the events are given up when sendmsg fails. *)
Lemma on_writable_spec a c ev next : fine c -> User.responses c <> 0 -> send_ok a ->
  exists c' ev' next' n, User.on_writable a c ev next = Ok (c', ev', next', n) /\ fine c' /\ 1 <= n <= 31 /\
    User.responses c' = User.responses c - n /\ User._r_n c' = User._r_n c /\ User._placeholder_ c' = User._placeholder_ c /\
    (User.a_send a < 0 /\ ev' = EPOLLHUP \/
     0 <= User.a_send a /\ ev' = ev /\ inb next' = true /\ outb next' = outb next && negb (User.responses c' =? 0)).
Proof.
  intros [Hr Hp] Hne Hs. unfold User.on_writable. rewrite (proj2 (negb_true_iff _)) by (by apply Z.eqb_neq). cbn [check mbind res_bind].
  rewrite swrap_id; [|lia | apply sfits_spec; lia]. set (n := if MAX_RESPONSES <=? User.responses c then _ else _).
  assert (1 <= n <= 31 /\ n <= User.responses c) as [Hn Hn'].
  { unfold n, MAX_RESPONSES. destruct (Z.leb_spec 32 (User.responses c)); lia. }
  rewrite uwrap_id by lia. cbn zeta. destruct (Z.ltb_spec (User.a_send a) 0) as [Hneg|Hnn].
  - do 4 eexists. split; [reflexivity|]. cbn [User.responses User._r_n User._placeholder_ User.set_responses]. split; [split; cbn; lia|]. split_and!; try done; [lia | lia|]. left. split; [done|].
    destruct (Z.eqb_spec (User.a_send_errno a) EINTR); [by destruct (Hs Hneg) | done].
  - do 4 eexists. split; [reflexivity|]. cbn [User.responses User._r_n User._placeholder_ User.set_responses]. split; [split; cbn; lia|]. split_and!; try done; [lia | lia|]. right. split_and!; [done | done | |].
    + unfold inb. by rewrite set_bit_of, orb_true_r.
    + unfold outb. rewrite set_bit_of. change (Z.testbit EPOLLIN 2) with false. rewrite orb_false_r.
      destruct (_ =? 0); cbn [negb]; [|by rewrite andb_true_r]. rewrite clear_bit_of by lia. done.
Qed.

(** *** The kernel's table of events *)

(** What a call does to the events that are registered for the descriptors; [None] when it returns
    something else than documented. *)
Definition os_call (I : Z -> option Z) (k : call) : option (Z -> option Z) :=
  match k with
  | Ctl EPOLL_CTL_ADD fd m r => if r <? 0 then Some I else match I fd with None => Some (<[fd := Some m]> I) | Some _ => None end
  | Ctl EPOLL_CTL_MOD fd m r =>
      match I fd with Some _ => if r =? 0 then Some (<[fd := Some m]> I) else None | None => if r <? 0 then Some I else None end
  | Ctl EPOLL_CTL_DEL fd _ r =>
      match I fd with Some _ => if r =? 0 then Some (<[fd := None]> I) else None | None => if r <? 0 then Some I else None end
  | Close fd => Some (<[fd := None]> I)
  | _ => Some I
  end.

Fixpoint os (t : list call) (I : Z -> option Z) : option (Z -> option Z) :=
  match t with [] => Some I | k :: t' => I' ← os_call I k; os t' I' end.

Lemma os_app t1 t2 I : os (t1 ++ t2) I = os t1 I ≫= os t2.
Proof.
  revert I. induction t1 as [|k t1 IH]; intros I; [done|]. cbn [app os]. destruct (os_call I k) as [I'|]; [apply IH | done].
Qed.

(** The events that epoll reports are registered, or EPOLLERR and EPOLLHUP. *)
Definition reported (m ev : Z) : Prop := forall k, Z.testbit ev k = true -> Z.testbit m k = true \/ k = 3 \/ k = 4.

(** What holds for the context and the registered events of a client. *)
Definition serving (m lines sent : Z) (c : User.socket_context) : Prop :=
  User._placeholder_ c = 1 /\ fine c /\ counted lines sent c /\ 0 <= sent /\
  outb m = negb (User.responses c =? 0) /\ (inb m = true \/ outb m = true).

(** The responses that were sent, of the calls of a turn. *)
Fixpoint sent_in (t : list call) : Z :=
  match t with
  | [] => 0
  | Send _ n r :: t' => (if r <? 0 then 0 else n) + sent_in t'
  | _ :: t' => sent_in t'
  end.

Lemma sent_in_app t1 t2 : sent_in (t1 ++ t2) = sent_in t1 + sent_in t2.
Proof. induction t1 as [|k t1 IH]; [done|]. destruct k; cbn [app sent_in]; rewrite IH; lia. Qed.

(** *** The end of a turn *)

Lemma update_event_ready r op mask sockets fd : op <> EPOLL_CTL_ADD -> 0 <= fd ->
  User.update_event r op mask sockets fd = Ok (if r <? 0 then r else fd, sockets, [Ctl op fd mask r]).
Proof.
  intros Hop Hfd. unfold User.update_event. rewrite bool_decide_eq_false_2 by done. cbn [negb].
  rewrite (proj2 (Z.ltb_ge fd 0)) by lia. by destruct (r <? 0).
Qed.

(** The descriptor is closed. *)
Definition closes (ev : Z) : bool := hupb ev && negb (inb ev).

Lemma on_hangup_spec a fd c ev sockets : 0 <= fd -> User.on_hangup a fd c ev sockets =
  Ok (if closes ev then (User.context0, [Ctl EPOLL_CTL_DEL fd 0 (User.a_ctl a EPOLL_CTL_DEL); Close fd]) else (c, [])).
Proof.
  intros Hfd. unfold User.on_hangup, closes. rewrite has_hup, has_in. destruct (hupb ev && negb (inb ev)); [|done].
  by rewrite update_event_ready.
Qed.

Lemma on_change_spec a fd ev cur next sockets : 0 <= fd -> User.on_change a fd ev cur next sockets =
  Ok (if negb (ev =? EPOLLHUP) && negb (cur =? next) then [Ctl EPOLL_CTL_MOD fd next (User.a_ctl a EPOLL_CTL_MOD)] else []).
Proof. intros Hfd. unfold User.on_change. destruct (_ && _); [|done]. by rewrite update_event_ready. Qed.

(** The registered events after the last part of a turn. *)
Definition tail_calls (a : User.answers) (fd ev cur next : Z) : list call :=
  (if closes ev then [Ctl EPOLL_CTL_DEL fd 0 (User.a_ctl a EPOLL_CTL_DEL); Close fd] else []) ++
  (if negb (ev =? EPOLLHUP) && negb (cur =? next) then [Ctl EPOLL_CTL_MOD fd next (User.a_ctl a EPOLL_CTL_MOD)] else []).

Lemma tail_os a fd ev cur next (I I' : Z -> option Z) m : I fd = Some m -> os (tail_calls a fd ev cur next) I = Some I' ->
  (forall fd', fd' <> fd -> I' fd' = I fd') /\
  (closes ev = true /\ I' fd = None \/ closes ev = false /\ (cur <> next /\ I' fd = Some next \/ cur = next /\ I' fd = Some m)).
Proof.
  intros Hm. unfold tail_calls. destruct (closes ev) eqn:Ec; cbn [app].
  - cbn [os os_call]. rewrite Hm. destruct (_ =? 0); [|done]. cbn [mbind option_bind].
    destruct (_ && _); cbn [os os_call]; rewrite ?fn_lookup_insert; [destruct (_ <? 0); [|done]; cbn [mbind option_bind]|]; intros [= <-];
      (split; [intros fd' Hne; by rewrite !fn_lookup_insert_ne by done | left; split; [done|]; by rewrite fn_lookup_insert]).
  - assert (ev <> EPOLLHUP) as Hne by (intros ->; done). rewrite (proj2 (Z.eqb_neq _ _) Hne). cbn [negb andb].
    destruct (Z.eqb_spec cur next) as [->|Hcn]; cbn [negb os os_call].
    + intros [= <-]. split; [done|]. right. split; [done|]. right. done.
    + rewrite Hm. destruct (_ =? 0); [|done]. cbn [mbind option_bind]. intros [= <-]. split; [intros fd' Hne'; by rewrite fn_lookup_insert_ne|].
      right. split; [done|]. left. by rewrite fn_lookup_insert.
Qed.

(** *** A turn for a client *)

Lemma sent_in_tail a fd ev cur next : sent_in (tail_calls a fd ev cur next) = 0.
Proof. unfold tail_calls. by destruct (closes ev), (_ && _). Qed.

Lemma reported_out m ev : reported m ev -> outb ev = true -> outb m = true.
Proof. intros Hr Ho. destruct (Hr 2 Ho); [done | lia]. Qed.

(** The responses of a context that is kept agree with the registered events. *)
Lemma serving_kept m cur next lines sent c m' : User._placeholder_ c = 1 -> fine c -> counted lines sent c -> 0 <= sent ->
  (cur <> next /\ m' = next \/ cur = next /\ m' = m) ->
  (cur <> next -> outb next = negb (User.responses c =? 0) /\ (inb next = true \/ outb next = true)) ->
  (cur = next -> outb m = negb (User.responses c =? 0) /\ (inb m = true \/ outb m = true)) -> serving m' lines sent c.
Proof. intros Hp Hf Hc Hs [[E ->]|[E ->]] Hn Hm; [specialize (Hn E) | specialize (Hm E)]; unfold serving; tauto. Qed.

(** The read of a turn. *)
Definition read_part (a : User.answers) (e : epoll_event) (c : User.socket_context) : res (User.socket_context * Z * Z) :=
  if has (events e) EPOLLIN then User.on_readable a c (events e) (events e) else Ok (c, events e, events e).

Definition turn_ends (a : User.answers) (e : epoll_event) : Z := if inb (events e) then read_ends a else 0.

Lemma read_part_spec a e c lines sent : fine c -> recv_ok a -> counted lines sent c -> lines + turn_ends a e < 2 ^ 31 -> 0 <= sent ->
  exists c' ev' next, read_part a e c = Ok (c', ev', next) /\ fine c' /\ counted (lines + turn_ends a e) sent c' /\
    User._placeholder_ c' = User._placeholder_ c /\ User.responses c <= User.responses c' /\
    (ev' = EPOLLHUP \/
     ev' = events e /\ (outb next = outb (events e) || negb (User.responses c' =? 0) /\ (inb next = true \/ User.responses c' <> 0) \/
                        next = events e /\ User.responses c' = User.responses c)).
Proof.
  intros Hf Ha Hc Hl Hs. unfold read_part, turn_ends in *. rewrite has_in. destruct (inb (events e)) eqn:Ei.
  - by apply on_readable_spec.
  - exists c, (events e), (events e). rewrite Z.add_0_r. split_and!; try done. right. auto.
Qed.

(** The rest of a turn after the read. *)
Definition rest (a : User.answers) (e : epoll_event) (sockets : list User.socket_context) (c : User.socket_context) (ev next_event : Z) :
    res (list User.socket_context * list call) :=
  '(c, ev', next_event, t2) ←
    (if has ev EPOLLOUT then
       '(c, ev, next_event, n) ← User.on_writable a c ev next_event; Ok (c, ev, next_event, [Send (data e) n (User.a_send a)])
     else Ok (c, ev, next_event, []));
  '(c, t3) ← User.on_hangup a (data e) c ev' sockets;
  sockets ← sockets.[data e <- c];
  t4 ← User.on_change a (data e) ev' (events e) next_event sockets;
  Ok (sockets, t2 ++ t3 ++ t4).

Lemma on_client_parts a e sockets c : sockets.[data e] = Ok c -> User.on_client a e sockets =
  ('(c', ev, next) ← read_part a e c;
   '(s, t) ← rest a e sockets c' ev next;
   Ok (s, (if has (events e) EPOLLIN then [Recv (data e) (User.a_recv a)] else []) ++ t)).
Proof.
  intros Hc. unfold User.on_client, read_part, rest. rewrite Hc. cbn [mbind res_bind].
  apply bind_ext. intros [[c1 ev1] n1]. rewrite bind_assoc. apply bind_ext. intros [[[c2 ev2] n2] t2]. rewrite bind_assoc.
  apply bind_ext. intros [c3 t3]. rewrite bind_assoc. apply bind_ext. intros s'. rewrite bind_assoc. done.
Qed.

Section client.
Context (a : User.answers) (e : epoll_event) (sockets : list User.socket_context).
Hypothesis Hfd : 0 <= data e < Z.of_nat (length sockets).

(** The last parts, with the calls before them. *)
Lemma rest_end c ev next t2 : exists t,
  ('(c', t3) ← User.on_hangup a (data e) c ev sockets;
   sockets' ← sockets.[data e <- c'];
   t4 ← User.on_change a (data e) ev (events e) next sockets';
   Ok (sockets', t2 ++ t3 ++ t4)) =
  Ok (<[Z.to_nat (data e) := if closes ev then User.context0 else c]> sockets, t2 ++ t) /\ t = tail_calls a (data e) ev (events e) next.
Proof.
  eexists. split; [|reflexivity]. rewrite on_hangup_spec by lia. cbn [mbind res_bind].
  unfold tail_calls. destruct (closes ev); cbn [mbind res_bind]; rewrite set_index_ok by done; cbn [mbind res_bind]; by rewrite on_change_spec by lia.
Qed.

(** What a turn leaves. *)
Definition left_by (m lines sent : Z) (I : Z -> option Z) (c : User.socket_context) (t : list call) : Prop :=
  forall I', os t I = Some I' ->
    (forall fd', fd' <> data e -> I' fd' = I fd') /\
    match I' (data e) with
    | None => c = User.context0
    | Some m' => serving m' lines (sent + sent_in t) c
    end.

Lemma rest_spec m lines sent lines' c0 c ev next I : I (data e) = Some m -> reported m (events e) -> serving m lines sent c0 ->
  send_ok a -> fine c -> counted lines' sent c -> User._placeholder_ c = 1 -> User.responses c0 <= User.responses c ->
  (ev = EPOLLHUP \/
   ev = events e /\ (outb next = outb (events e) || negb (User.responses c =? 0) /\ (inb next = true \/ User.responses c <> 0) \/
                      next = events e /\ User.responses c = User.responses c0)) ->
  exists c' t, rest a e sockets c ev next = Ok (<[Z.to_nat (data e) := c']> sockets, t) /\ left_by m lines' sent I c' t.
Proof.
  intros Hm Hrep (Hp0 & Hf0 & Hc0 & Hs0 & Ho0 & Hio0) Hsend Hf Hc Hp Hle Hev. unfold rest. rewrite has_out. destruct (outb ev) eqn:Eo.
  - destruct Hev as [->|[-> Hnext]]; [done|]. pose proof (reported_out _ _ Hrep Eo) as Hom.
    assert (User.responses c0 <> 0) as Hne0 by (rewrite Hom in Ho0; by apply Z.eqb_neq, negb_true_iff).
    destruct Hf0 as [_ Hp00]. destruct (on_writable_spec a c (events e) next Hf) as (c2 & ev2 & next2 & n & E & Hf2 & Hn & Hr2 & Hrn & Hpl & Hcase); [lia | done|].
    rewrite E. cbn [mbind res_bind]. destruct (rest_end c2 ev2 next2 [Send (data e) n (User.a_send a)]) as (t & Et & Htl).
    do 2 eexists. split; [exact Et|]. subst t. intros I' HI'. cbn [app os os_call mbind option_bind] in HI'.
    destruct (tail_os _ _ _ _ _ _ _ _ Hm HI') as [Hoth Htail]. split; [done|].
    destruct Htail as [[-> ->]|[Hcl Hkept]]; [done|]. rewrite Hcl.
    destruct Hcase as [[_ ->]|(Hnn & -> & Hin2 & Hout2)]; [done|].
    assert (outb next = true) as Hon by (destruct Hnext as [[-> _]|[-> _]]; [by rewrite Eo | done]). rewrite Hon in Hout2. cbn [andb] in Hout2.
    cbn [app sent_in]. rewrite sent_in_tail, Z.add_0_r. rewrite (proj2 (Z.ltb_ge _ _)) by done.
    assert (exists m', I' (data e) = Some m' /\ (events e <> next2 /\ m' = next2 \/ events e = next2 /\ m' = m)) as (m' & -> & Hm')
      by (destruct Hkept as [[? ->]|[? ->]]; eauto).
    apply (serving_kept m (events e) next2); try done; [congruence | unfold counted in *; lia | lia | tauto|].
    intros E2. rewrite <- E2, Eo in Hout2. rewrite Hom. auto.
  - cbn [mbind res_bind]. destruct (rest_end c ev next []) as (t & Et & Htl). do 2 eexists. split; [exact Et|]. subst t. intros I' HI'. cbn [app] in HI'.
    destruct (tail_os _ _ _ _ _ _ _ _ Hm HI') as [Hoth Htail]. split; [done|].
    destruct Htail as [[-> ->]|[Hcl Hkept]]; [done|]. rewrite Hcl. destruct Hev as [->|[-> Hnext]]; [done|].
    cbn [app]. rewrite sent_in_tail, Z.add_0_r. destruct Hf0 as [_ Hp00].
    assert (exists m', I' (data e) = Some m' /\ (events e <> next /\ m' = next \/ events e = next /\ m' = m)) as (m' & -> & Hm')
      by (destruct Hkept as [[? ->]|[? ->]]; eauto).
    apply (serving_kept m (events e) next); try done.
    + intros Hcn. destruct Hnext as [[Hon Hin]|[-> _]]; [|done]. rewrite Eo in Hon. cbn [orb] in Hon. split; [done|].
      destruct Hin as [Hin|Hin]; [by left | right]. rewrite Hon. by apply negb_true_iff, Z.eqb_neq.
    + intros Hcn. assert (User.responses c = User.responses c0) as ->; [|done].
      destruct Hnext as [[Hon _]|[_ Hr]]; [|done]. rewrite <- Hcn, Eo in Hon. cbn [orb] in Hon. symmetry in Hon.
      apply negb_false_iff, Z.eqb_eq in Hon. lia.
Qed.
End client.

(** A turn for a client of which the kernel reports registered events. *)
Lemma on_client_spec a e sockets c m lines sent I :
  0 <= data e < Z.of_nat (length sockets) -> sockets !! Z.to_nat (data e) = Some c -> I (data e) = Some m -> reported m (events e) ->
  serving m lines sent c -> recv_ok a -> send_ok a -> lines + turn_ends a e < 2 ^ 31 ->
  exists c' t, User.on_client a e sockets = Ok (<[Z.to_nat (data e) := c']> sockets, t) /\
    left_by e m (lines + turn_ends a e) sent I c' t.
Proof.
  intros Hfd Hl Hm Hrep Hserv Ha Hs Hb. pose proof Hserv as (Hp0 & Hf0 & Hc0 & Hs0 & _).
  rewrite (on_client_parts a e sockets c) by (apply at_index_lookup; [lia | done]).
  destruct (read_part_spec a e c lines sent) as (c1 & ev & next & E & Hf & Hc & Hp & Hle & Hev); try done. rewrite E. cbn [mbind res_bind].
  destruct (rest_spec a e sockets Hfd m lines sent (lines + turn_ends a e) c c1 ev next I) as (c' & t & Et & Hleft); try done; [congruence|].
  rewrite Et. cbn [mbind res_bind]. do 2 eexists. split; [reflexivity|]. intros I'. destruct (has (events e) EPOLLIN); cbn [app os os_call mbind option_bind sent_in];
    apply Hleft.
Qed.

(** ** Runs *)

(** The contexts, the registered events, and for every client the line ends that were read and the
    responses that were sent. *)
Record Sys : Type := mkSys { sockets : list User.socket_context; interest : Z -> option Z; lines : Z -> Z; sent : Z -> Z }.

Section runs.
Context (server_fd : Z).

(** Before the loop: only the server's descriptor is registered. *)
Definition Sys_init : Sys :=
  mkSys (<[Z.to_nat server_fd := User.mkContext 1 0 0]> (replicate SOCKETS User.context0)) (<[server_fd := Some EPOLLIN]> (fun _ => None))
    (fun _ => 0) (fun _ => 0).

(** The events and answers that a kernel gives: accept returns a descriptor that is not used, the
    contexts have room for, or an error; sendmsg is not interrupted; and a connection has fewer than
    [2 ^ 31] line ends. *)
Definition conforms (s : Sys) (a : User.answers) (e : epoll_event) : Prop :=
  if data e =? server_fd then User.a_accept a < 0 \/ 0 <= User.a_accept a < Z.of_nat SOCKETS /\ interest s (User.a_accept a) = None
  else (exists m, interest s (data e) = Some m /\ reported m (events e)) /\ recv_ok a /\ send_ok a /\ lines s (data e) + turn_ends a e < 2 ^ 31.

Definition step (s : Sys) (a : User.answers) (e : epoll_event) (s' : Sys) : Prop :=
  exists t, User.on_event server_fd a e (sockets s) = Ok (sockets s', t) /\ os t (interest s) = Some (interest s') /\
  if data e =? server_fd then lines s' = <[User.a_accept a := 0]> (lines s) /\ sent s' = <[User.a_accept a := 0]> (sent s)
  else lines s' = <[data e := lines s (data e) + turn_ends a e]> (lines s) /\ sent s' = <[data e := sent s (data e) + sent_in t]> (sent s).

Inductive reachable : Sys -> Prop :=
  | reachable_init : reachable Sys_init
  | reachable_step s a e s' : reachable s -> conforms s a e -> step s a e s' -> reachable s'.

Record Sys_ok (s : Sys) : Prop := {
  ok_length : length (sockets s) = SOCKETS;
  ok_server : interest s server_fd = Some EPOLLIN;
  ok_range fd m : interest s fd = Some m -> 0 <= fd < Z.of_nat SOCKETS;
  ok_context fd c : 0 <= fd -> sockets s !! Z.to_nat fd = Some c ->
    match interest s fd with
    | None => c = User.context0
    | Some m => User._placeholder_ c = 1 /\ (fd <> server_fd -> serving m (lines s fd) (sent s fd) c)
    end;
}.

Hypothesis Hserver : 0 <= server_fd < Z.of_nat SOCKETS.

Lemma Sys_init_ok : Sys_ok Sys_init.
Proof.
  assert (length (sockets Sys_init) = SOCKETS) as Hlen by (cbn [sockets Sys_init]; by rewrite length_insert, length_replicate).
  split; [done | apply fn_lookup_insert | |].
  - cbn. intros fd m. destruct (decide (fd = server_fd)) as [->|Hne]; [done|]. by rewrite fn_lookup_insert_ne.
  - intros fd c Hfd. cbn [sockets interest Sys_init]. destruct (decide (fd = server_fd)) as [->|Hne].
    + rewrite fn_lookup_insert, list_lookup_insert_eq by (rewrite length_replicate; lia). by intros [= <-].
    + rewrite fn_lookup_insert_ne by done. rewrite list_lookup_insert_ne by lia. intros [-> _]%lookup_replicate. done.
Qed.

(** A context is written and the other descriptors keep their events. *)
Lemma Sys_ok_update s s' fd c : Sys_ok s -> 0 <= fd < Z.of_nat SOCKETS -> sockets s' = <[Z.to_nat fd := c]> (sockets s) ->
  fd <> server_fd -> (forall fd', fd' <> fd -> interest s' fd' = interest s fd' /\ lines s' fd' = lines s fd' /\ sent s' fd' = sent s fd') ->
  match interest s' fd with None => c = User.context0 | Some m => serving m (lines s' fd) (sent s' fd) c end -> Sys_ok s'.
Proof.
  intros [H1 H2 H3 H4] Hfd Hs Hne Hoth Hc. split.
  - by rewrite Hs, length_insert.
  - by rewrite (proj1 (Hoth server_fd (not_eq_sym Hne))).
  - intros fd' m. destruct (decide (fd' = fd)) as [->|Hne']; [done|]. rewrite (proj1 (Hoth fd' Hne')). apply H3.
  - intros fd' c' Hfd' Hl. rewrite Hs in Hl. destruct (decide (fd' = fd)) as [->|Hne'].
    + rewrite list_lookup_insert_eq in Hl by lia. injection Hl as <-. destruct (interest s' fd); [|done]. split; [by destruct Hc | done].
    + rewrite list_lookup_insert_ne in Hl by lia. destruct (Hoth fd' Hne') as (-> & -> & ->). by apply H4.
Qed.

Lemma step_accept s a e : Sys_ok s -> data e = server_fd -> conforms s a e ->
  exists s' t, User.on_event server_fd a e (sockets s) = Ok (s', t) /\ (forall I', os t (interest s) = Some I' ->
    Sys_ok (mkSys s' I' (<[User.a_accept a := 0]> (lines s)) (<[User.a_accept a := 0]> (sent s)))).
Proof.
  intros Hok Hd Hconf. pose proof Hok as [H1 H2 H3 H4]. unfold conforms in Hconf. rewrite (proj2 (Z.eqb_eq _ _) Hd) in Hconf.
  unfold User.on_event. rewrite (proj2 (Z.eqb_eq _ _) Hd). unfold User.update_event. cbn [bool_decide negb].
  rewrite bool_decide_eq_true_2 by done. cbn [negb]. unfold User.make_fd_and_file.
  assert (forall I', interest s = I' -> (forall fd m, I' fd = Some m -> fd <> User.a_accept a) ->
    Sys_ok (mkSys (sockets s) I' (<[User.a_accept a := 0]> (lines s)) (<[User.a_accept a := 0]> (sent s)))) as Hsame.
  { intros I' <- Hfresh. split; [done | done | done |]. cbn. intros fd c Hfd Hl. specialize (H4 fd c Hfd Hl).
    destruct (interest s fd) as [m|] eqn:Em; [|done]. rewrite !fn_lookup_insert_ne by (apply not_eq_sym; by eapply Hfresh). done. }
  destruct (Z.ltb_spec (User.a_accept a) 0) as [Hneg|Hnn]; cbn [mbind res_bind].
  { do 2 eexists. split; [reflexivity|]. cbn [os os_call mbind option_bind]. intros I' [= <-]. apply Hsame; [done|].
    intros fd m Hm ->. apply H3 in Hm. lia. }
  destruct Hconf as [?|[Hr Hfree]]; [lia|].
  destruct (Z.ltb_spec (User.a_ctl a EPOLL_CTL_ADD) 0) as [Hcneg|Hcnn]; cbn [mbind res_bind].
  { do 2 eexists. split; [reflexivity|]. cbn [os os_call mbind option_bind]. rewrite (proj2 (Z.ltb_lt _ _) Hcneg). intros I' [= <-].
    apply Hsame; [done|]. intros fd m Hm ->. congruence. }
  destruct (at_index_ok (sockets s) (User.a_accept a)) as (c & Ec & El); [lia|]. rewrite Ec. cbn [mbind res_bind].
  rewrite set_index_ok by lia. cbn [mbind res_bind]. do 2 eexists. split; [reflexivity|]. cbn [os os_call mbind option_bind].
  rewrite (proj2 (Z.ltb_ge _ _) Hcnn), Hfree. cbn [os mbind option_bind]. intros I' [= <-].
  assert (c = User.context0) as -> by (specialize (H4 _ c (proj1 Hr) El); by rewrite Hfree in H4).
  apply (Sys_ok_update s _ (User.a_accept a) (User.mkContext 1 0 0)); cbn [sockets interest lines sent]; try done.
  - intros E. rewrite E in Hfree. congruence.
  - intros fd' Hne. by rewrite !fn_lookup_insert_ne.
  - rewrite !fn_lookup_insert. split_and!; try done. auto.
Qed.

Lemma step_client s a e : Sys_ok s -> data e <> server_fd -> conforms s a e ->
  exists s' t, User.on_event server_fd a e (sockets s) = Ok (s', t) /\ (forall I', os t (interest s) = Some I' ->
    Sys_ok (mkSys s' I' (<[data e := lines s (data e) + turn_ends a e]> (lines s)) (<[data e := sent s (data e) + sent_in t]> (sent s)))).
Proof.
  intros Hok Hd Hconf. pose proof Hok as [H1 H2 H3 H4]. unfold conforms in Hconf. rewrite (proj2 (Z.eqb_neq _ _) Hd) in Hconf.
  destruct Hconf as ((m & Hm & Hrep) & Hrecv & Hsend & Hb). pose proof (H3 _ _ Hm) as Hr.
  destruct (at_index_ok (sockets s) (data e)) as (c & Ec & El); [lia|]. pose proof (H4 _ c (proj1 Hr) El) as Hc. rewrite Hm in Hc.
  destruct (on_client_spec a e (sockets s) c m (lines s (data e)) (sent s (data e)) (interest s)) as (c' & t & Et & Hleft); try done; [lia | by apply Hc|].
  unfold User.on_event. rewrite (proj2 (Z.eqb_neq _ _) Hd). do 2 eexists. split; [exact Et|]. intros I' HI'.
  destruct (Hleft I' HI') as [Hoth Hnew]. apply (Sys_ok_update s _ (data e) c'); cbn [sockets interest lines sent]; try done.
  - intros fd' Hne. rewrite !fn_lookup_insert_ne by done. split_and!; [by apply Hoth | done | done].
  - by rewrite !fn_lookup_insert.
Qed.

Lemma reachable_ok s : reachable s -> Sys_ok s.
Proof.
  induction 1 as [|s a e s' _ IH Hconf (t & Ht & HI & Hg)]; [apply Sys_init_ok|].
  destruct s' as [sk I' ln sn]. cbn [sockets interest lines sent] in *. destruct (decide (data e = server_fd)) as [Hd|Hd].
  - rewrite (proj2 (Z.eqb_eq _ _) Hd) in Hg. destruct Hg as [-> ->]. destruct (step_accept s a e IH Hd Hconf) as (s1 & t1 & E & Hs1).
    rewrite Ht in E. injection E as <- <-. by apply Hs1.
  - rewrite (proj2 (Z.eqb_neq _ _) Hd) in Hg. destruct Hg as [-> ->]. destruct (step_client s a e IH Hd Hconf) as (s1 & t1 & E & Hs1).
    rewrite Ht in E. injection E as <- <-. by apply Hs1.
Qed.
End runs.

(** A turn that is computed. *)
Definition next (server_fd : Z) (s : Sys) (a : User.answers) (e : epoll_event) : option Sys :=
  match User.on_event server_fd a e (sockets s) with
  | Ok (s', t) =>
      I' ← os t (interest s);
      Some (if data e =? server_fd then mkSys s' I' (<[User.a_accept a := 0]> (lines s)) (<[User.a_accept a := 0]> (sent s))
            else mkSys s' I' (<[data e := lines s (data e) + turn_ends a e]> (lines s)) (<[data e := sent s (data e) + sent_in t]> (sent s)))
  | _ => None
  end.

Lemma next_step server_fd s a e s' : next server_fd s a e = Some s' -> step server_fd s a e s'.
Proof.
  unfold next, step. destruct (User.on_event server_fd a e (sockets s)) as [[s1 t]| |]; try done. intros H. exists t.
  destruct (os t (interest s)) as [I'|]; [|done]. cbn [mbind option_bind] in H. injection H as <-. by destruct (data e =? server_fd).
Qed.

(** ** The kernel module *)

(** A context that has a socket is one that is marked. *)
Definition conv (c : Kernel.socket_context) : User.socket_context :=
  User.mkContext (if Kernel.socket c =? 0 then 0 else 1) (Kernel._r_n c) (Kernel.responses c).

Abbreviation convs := (@fmap list _ _ _ conv).

(** An error is returned as -1, and its number is in errno. *)
Definition result (r : Z) : Z := if r <? 0 then - 1 else r.
Definition conv_answers (a : Kernel.answers) : User.answers :=
  User.mkAnswers (Kernel.make_fd_and_file (Kernel.a_file a) (Kernel.a_fd a)) (Kernel.a_ctl a) (result (Kernel.a_recv a)) (- Kernel.a_recv a) (Kernel.a_data a)
    (result (Kernel.a_send a)) (- Kernel.a_send a).

Definition conv_call (k : call) : call :=
  match k with Recv fd r => Recv fd (result r) | Send fd n r => Send fd n (result r) | _ => k end.

Abbreviation conv_calls := (@fmap list _ _ _ conv_call).

Lemma result_neg r : (result r <? 0) = (r <? 0).
Proof. unfold result. destruct (Z.ltb_spec r 0); [done|]. by apply Z.ltb_ge. Qed.

Lemma conv_wrk_parse c buffer n : User.wrk_parse (conv c) buffer n = (fun '(c', k) => (conv c', k)) <$> Kernel.wrk_parse c buffer n.
Proof.
  unfold User.wrk_parse, Kernel.wrk_parse. cbn [conv User._r_n User.responses User._placeholder_].
  change Kernel.wrk_char with User.wrk_char. by destruct (foldR _ _ _) as [[r k]| |].
Qed.

Lemma errno_eintr r : (- r =? EINTR) = (r =? - EINTR).
Proof. apply eq_iff_eq_true. rewrite !Z.eqb_eq. lia. Qed.

Lemma conv_readable a c ev next : User.on_readable (conv_answers a) (conv c) ev next =
  (fun '(c', ev', n) => (conv c', ev', n)) <$> Kernel.on_readable a c ev next.
Proof.
  unfold User.on_readable, Kernel.on_readable. cbn [conv_answers User.a_recv User.a_recv_errno User.a_data]. rewrite result_neg, errno_eintr.
  unfold result. destruct (Z.ltb_spec (Kernel.a_recv a) 0) as [Hn|Hn].
  - rewrite (proj2 (Z.eqb_neq (Kernel.a_recv a) 0)) by lia. done.
  - destruct (_ && _); [done|]. rewrite conv_wrk_parse. by destruct (Kernel.wrk_parse c (Kernel.a_data a) (Kernel.a_recv a)) as [[c' k]| |].
Qed.

Lemma conv_writable a c ev next : User.on_writable (conv_answers a) (conv c) ev next =
  (fun '(c', ev', n, k) => (conv c', ev', n, k)) <$> Kernel.on_writable a c ev next.
Proof.
  unfold User.on_writable, Kernel.on_writable. cbn [conv User.responses]. destruct (negb (Kernel.responses c =? 0)); [|done]. cbn [check mbind res_bind].
  cbn [conv_answers User.a_send User.a_send_errno]. rewrite result_neg, errno_eintr. by destruct (Kernel.a_send a <? 0).
Qed.

Lemma conv_update_ready r op mask sockets fd sock : op <> EPOLL_CTL_ADD ->
  User.update_event r op mask (convs sockets) fd =
  (fun '(x, s, t) => (x, convs s, t)) <$> Kernel.update_event 0 r op mask sockets fd sock.
Proof.
  intros Hop. unfold User.update_event, Kernel.update_event. rewrite !bool_decide_eq_false_2 by done. cbn [negb].
  destruct (fd <? 0); [done|]. by destruct (r <? 0).
Qed.

Lemma conv_index (sockets : list Kernel.socket_context) i : (convs sockets).[i] = conv <$> sockets.[i].
Proof. unfold at_index. destruct (i <? 0); [done|]. rewrite list_lookup_fmap. by destruct (sockets !! Z.to_nat i). Qed.

Lemma conv_set_index (sockets : list Kernel.socket_context) i c : (convs sockets).[i <- conv c] = convs <$> sockets.[i <- c].
Proof. unfold set_index. rewrite length_fmap. destruct (_ && _); [|done]. cbn. f_equal. by rewrite list_fmap_insert. Qed.

Lemma conv_hangup a fd sock c ev sockets : User.on_hangup (conv_answers a) fd (conv c) ev (convs sockets) =
  (fun '(c', t) => (conv c', t)) <$> Kernel.on_hangup a fd sock c ev sockets.
Proof.
  unfold User.on_hangup, Kernel.on_hangup. destruct (_ && _); [|done]. cbn [conv_answers User.a_ctl].
  rewrite (conv_update_ready _ _ _ _ _ sock) by done. by destruct (Kernel.update_event 0 _ _ _ _ _ _) as [[[x s] t]| |].
Qed.

Lemma conv_change a fd sock ev cur next sockets : User.on_change (conv_answers a) fd ev cur next (convs sockets) =
  Kernel.on_change a fd sock ev cur next sockets.
Proof.
  unfold User.on_change, Kernel.on_change. destruct (_ && _); [|done]. cbn [conv_answers User.a_ctl].
  rewrite (conv_update_ready _ _ _ _ _ sock) by done. by destruct (Kernel.update_event 0 _ _ _ _ _ _) as [[[x s] t]| |].
Qed.

(** The calls of the last parts are the same in both programs. *)
Lemma update_calls r op mask sockets fd sock : op <> EPOLL_CTL_ADD ->
  exists x t, Kernel.update_event 0 r op mask sockets fd sock = Ok (x, sockets, t) /\ conv_call <$> t = t.
Proof.
  intros Hop. unfold Kernel.update_event. rewrite !bool_decide_eq_false_2 by done. cbn [negb].
  destruct (fd <? 0); [by do 2 eexists|]. destruct (r <? 0); by do 2 eexists.
Qed.

Lemma hangup_calls a fd sock c ev sockets : exists c' t, Kernel.on_hangup a fd sock c ev sockets = Ok (c', t) /\ conv_call <$> t = t.
Proof.
  unfold Kernel.on_hangup. destruct (_ && _); [|by do 2 eexists].
  destruct (update_calls (Kernel.a_ctl a EPOLL_CTL_DEL) EPOLL_CTL_DEL 0 sockets fd sock) as (x & t & -> & Ht); [done|].
  cbn [mbind res_bind]. do 2 eexists. split; [reflexivity|]. by rewrite fmap_app, Ht.
Qed.

Lemma change_calls a fd sock ev cur next sockets : exists t, Kernel.on_change a fd sock ev cur next sockets = Ok t /\ conv_call <$> t = t.
Proof.
  unfold Kernel.on_change. destruct (_ && _); [|by eexists].
  destruct (update_calls (Kernel.a_ctl a EPOLL_CTL_MOD) EPOLL_CTL_MOD next sockets fd sock) as (x & t & -> & Ht); [done|].
  by eexists.
Qed.

(** The parts of a turn of the kernel module, as [on_client_parts]. *)
Lemma conv_write_part a c ev next fd :
  (if has ev EPOLLOUT then
     '(c, ev, next_event, n) ← User.on_writable (conv_answers a) (conv c) ev next; Ok (c, ev, next_event, [Send fd n (User.a_send (conv_answers a))])
   else Ok (conv c, ev, next, []) : res (User.socket_context * Z * Z * list call)) =
  (fun '(c, ev, n, t) => (conv c, ev, n, conv_calls t)) <$>
  (if has ev EPOLLOUT then
     '(c, ev, next_event, n) ← Kernel.on_writable a c ev next; Ok (c, ev, next_event, [Send fd n (Kernel.a_send a)])
   else Ok (c, ev, next, []) : res (Kernel.socket_context * Z * Z * list call)).
Proof.
  destruct (has ev EPOLLOUT); [|done]. rewrite conv_writable. by destruct (Kernel.on_writable a c ev next) as [[[[c' ev'] n'] k]| |].
Qed.

Lemma conv_read_part a e c :
  (if has (events e) EPOLLIN then User.on_readable (conv_answers a) (conv c) (events e) (events e) else Ok (conv c, events e, events e)) =
  (fun '(c, ev, n) => (conv c, ev, n)) <$>
  (if has (events e) EPOLLIN then Kernel.on_readable a c (events e) (events e) else Ok (c, events e, events e)).
Proof. destruct (has (events e) EPOLLIN); [apply conv_readable | done]. Qed.

Lemma conv_client a e sockets : User.on_client (conv_answers a) e (convs sockets) =
  (fun '(s, t, _) => (convs s, conv_calls t)) <$> Kernel.on_client a e sockets.
Proof.
  unfold User.on_client, Kernel.on_client. rewrite conv_index. destruct (sockets.[data e]) as [c| |] eqn:Ec; [|done|done].
  cbn [fmap res_fmap mbind res_bind]. rewrite conv_read_part.
  destruct (if has (events e) EPOLLIN then Kernel.on_readable a c _ _ else _) as [[[c1 ev] nx]| |]; [|done|done].
  cbn [fmap res_fmap mbind res_bind]. rewrite conv_write_part.
  destruct (if has ev EPOLLOUT then _ else Ok (c1, ev, nx, [])) as [[[[c2 ev2] nx2] t2]| |]; [|done|done].
  cbn [fmap res_fmap mbind res_bind]. rewrite (conv_hangup a (data e) (Kernel.socket c)).
  destruct (hangup_calls a (data e) (Kernel.socket c) c2 ev2 sockets) as (c3 & t3 & -> & Ht3). cbn [fmap res_fmap mbind res_bind].
  rewrite conv_set_index. destruct (sockets.[data e <- c3]) as [s'| |]; [|done|done]. cbn [fmap res_fmap mbind res_bind].
  rewrite (conv_change a (data e) (Kernel.socket c)).
  destruct (change_calls a (data e) (Kernel.socket c) ev2 (events e) nx2 s') as (t4 & -> & Ht4). cbn [fmap res_fmap mbind res_bind].
  f_equal. f_equal. rewrite !fmap_app, Ht3, Ht4. by destruct (has (events e) EPOLLIN).
Qed.

(** kernel_accept stores a socket. *)
Definition accepted (server_fd : Z) (ea : epoll_event * Kernel.answers) : Prop :=
  data ea.1 = server_fd -> exists p, Kernel.a_accept ea.2 = Some p /\ p <> 0.

Lemma conv_event server_fd a e sockets p : accepted server_fd (e, a) -> User.on_event server_fd (conv_answers a) e (convs sockets) =
  (fun '(s, t, _) => (convs s, conv_calls t)) <$> Kernel.on_event server_fd a e sockets p.
Proof.
  intros Hacc. unfold User.on_event, Kernel.on_event. destruct (Z.eqb_spec (data e) server_fd) as [Hd|Hd].
  - destruct (Hacc Hd) as (q & Eq & Hq). cbn [snd] in Eq. rewrite Eq, (proj2 (Z.eqb_neq q 0)) by done. cbn [negb check mbind res_bind].
    cbn [conv_answers User.a_accept User.a_ctl]. unfold User.update_event, Kernel.update_event, User.make_fd_and_file.
    rewrite !bool_decide_eq_true_2 by done. cbn [negb]. set (fd := Kernel.make_fd_and_file _ _).
    destruct (fd <? 0); [done|]. destruct (Kernel.a_ctl a EPOLL_CTL_ADD <? 0); [done|]. rewrite conv_index.
    destruct (sockets.[fd]) as [c| |]; [|done|done]. cbn [fmap res_fmap mbind res_bind].
    replace (User.mkContext 1 _ _) with (conv (Kernel.mkContext q (Kernel._r_n c) (Kernel.responses c)))
      by (unfold conv; cbn; by rewrite (proj2 (Z.eqb_neq q 0))).
    rewrite conv_set_index. by destruct (sockets.[fd <- _]).
  - rewrite conv_client. by destruct (Kernel.on_client a e sockets) as [[[s t] q]| |].
Qed.

Lemma conv_events server_fd evs sockets t p : Forall (accepted server_fd) evs ->
  foldR (fun st ea => '(sockets, t) ← User.on_event server_fd ea.2 ea.1 st.1; Ok (sockets, st.2 ++ t)) (convs sockets, conv_calls t)
    ((fun ea => (ea.1, conv_answers ea.2)) <$> evs) =
  (fun '(s, t, _) => (convs s, conv_calls t)) <$>
  foldR (fun st ea => let '(sockets, t, p) := st in
    '(sockets, t', p) ← Kernel.on_event server_fd ea.2 ea.1 sockets p; Ok (sockets, t ++ t', p)) (sockets, t, p) evs.
Proof.
  intros H. revert sockets t p. induction H as [|[e a] evs Hacc _ IH]; intros sockets t p; [done|]. rewrite fmap_cons. cbn [foldR fst snd].
  rewrite (conv_event server_fd a e sockets p Hacc). destruct (Kernel.on_event server_fd a e sockets p) as [[[s1 t1] q]| |]; [|done|done].
  cbn [fmap res_fmap mbind res_bind]. rewrite <- IH. by rewrite fmap_app.
Qed.

(** ** Setting up *)

Definition is_close (k : call) : bool := match k with Close _ => true | _ => false end.
Definition closed_in (t : list call) : list call := filter (fun k => is_close k = true) t.

(** The threads that a sequence of calls starts and stops. *)
Definition started (t : list call) : list Z := omap (fun k => match k with Create i r => if r <? 0 then None else Some i | _ => None end) t.
Definition stopped (t : list call) : list Z := omap (fun k => match k with Stop i => Some i | _ => None end) t.

Lemma stopped_exit running l : stopped (l ≫= Kernel.each_server_exit running) = filter (fun i => running i = true) l.
Proof.
  unfold stopped. induction l as [|i l IH]; [done|]. rewrite bind_cons, omap_app, filter_cons, IH. unfold Kernel.each_server_exit.
  destruct (running i) eqn:E; case_decide; done || congruence.
Qed.

Lemma started_exit running l : started (l ≫= Kernel.each_server_exit running) = [].
Proof.
  unfold started. induction l as [|i l IH]; [done|]. rewrite bind_cons, omap_app, IH. unfold Kernel.each_server_exit. by destruct (running i).
Qed.

(** The calls of create_server_socket start and stop no thread. *)
Lemma socket_calls a r t : Kernel.create_server_socket a = Ok (r, t) -> started t = [] /\ stopped t = [].
Proof.
  unfold Kernel.create_server_socket, Kernel.give_up_socket.
  repeat match goal with |- context [if ?b <? 0 then _ else _] => destruct (b <? 0) end; cbn [mbind res_bind]; intros H; try discriminate H;
    injection H as _ <-; by repeat case_match.
Qed.

Lemma server_init_calls i a p r t : Kernel.each_server_init i a p = Ok (r, t) ->
  stopped t = [] /\ started t = if r =? 0 then [i] else [].
Proof.
  unfold Kernel.each_server_init. destruct (Kernel.create_server_socket a) as [[sock t0]| |] eqn:E; try done. cbn [mbind res_bind].
  destruct (socket_calls _ _ _ E) as [E1 E2]. destruct (sock =? 0); [by intros [= <- <-]|].
  unfold started, stopped in *. destruct (Z.ltb_spec p 0); intros [= <- <-]; rewrite !omap_app, E1, E2; cbn.
  - rewrite (proj2 (Z.ltb_lt p 0)), (proj2 (Z.eqb_neq p 0)) by lia. done.
  - by rewrite (proj2 (Z.ltb_ge p 0)) by lia.
Qed.

Lemma init_from_calls running i as_ r t : 0 <= i -> Kernel.init_from running i as_ = Ok (r, t) ->
  r = 0 /\ started t = seqZ i (Z.of_nat (length as_)) /\ stopped t = [] \/
  r = - 1 /\ exists k, i <= k < i + Z.of_nat (length as_) /\ started t = seqZ i (k - i) /\
    stopped t = filter (fun j => running j = true) (rev (seqZ 0 k)).
Proof.
  revert i r t. induction as_ as [|[a p] as_ IH]; intros i r t Hi; cbn [Kernel.init_from].
  - intros [= <- <-]. by left.
  - destruct (Kernel.each_server_init i a p) as [[r0 t0]| |] eqn:E; try done. cbn [mbind res_bind].
    destruct (server_init_calls _ _ _ _ _ E) as [Es Ea]. destruct (Z.eqb_spec r0 0) as [->|Hr0].
    + destruct (Kernel.init_from running (i + 1) as_) as [[r1 t1]| |] eqn:E1; try done. cbn [mbind res_bind]. intros [= <- <-].
      unfold started, stopped in *. rewrite !omap_app, Es, Ea. cbn [Z.eqb app].
      destruct (IH (i + 1) r1 t1 ltac:(lia) E1) as [(-> & -> & ->)|(-> & k & Hk & -> & ->)].
      * left. split_and!; [done | | done]. rewrite (seqZ_cons i) by (cbn; lia). cbn [length]. f_equal. f_equal; lia.
      * right. split; [done|]. exists k. split_and!; [lia | cbn; lia | | done]. rewrite (seqZ_cons i) by lia. f_equal. f_equal; lia.
    + intros [= <- <-]. right. split; [done|]. exists i. unfold started, stopped in *. rewrite !omap_app, Es, Ea.
      change (omap _ (rev (seqZ 0 i) ≫= _)) with (started (rev (seqZ 0 i) ≫= Kernel.each_server_exit running)) at 1.
      change (omap _ (rev (seqZ 0 i) ≫= _)) with (stopped (rev (seqZ 0 i) ≫= Kernel.each_server_exit running)).
      rewrite started_exit, stopped_exit. split_and!; [lia | cbn; lia | | done]. by rewrite Z.sub_diag.
Qed.

(** No event and answer of the kernel makes an assertion fail or a context be accessed that is not there. *)
Lemma web_server_safe (server_fd : Z) (s : Sys) (a : User.answers) (e : epoll_event) : 0 <= server_fd < Z.of_nat SOCKETS -> reachable server_fd s ->
  conforms server_fd s a e -> exists s' t, User.on_event server_fd a e (sockets s) = Ok (s', t).
Proof.
  intros Hs Hr Hconf. pose proof (reachable_ok server_fd Hs s Hr) as Hok. destruct (decide (data e = server_fd)) as [Hd|Hd].
  - destruct (step_accept server_fd Hs s a e Hok Hd Hconf) as (s' & t & E & _). eauto.
  - destruct (step_client server_fd Hs s a e Hok Hd Hconf) as (s' & t & E & _). eauto.
Qed.

Lemma elem_of_indexed {A} (l : list A) i x : (i, x) ∈ indexed l <-> 0 <= i /\ l !! Z.to_nat i = Some x.
Proof.
  unfold indexed. rewrite list_elem_of_lookup. split.
  - intros [n H]. apply lookup_zip_with_Some in H as (j & y & [= -> ->] & Hj & Hy). apply lookup_seqZ in Hj as [-> Hj].
    rewrite Z.add_0_l, Nat2Z.id. split; [lia | done].
  - intros [Hi Hl]. exists (Z.to_nat i). apply lookup_zip_with_Some. exists i, x. split_and!; [done | | done]. apply lookup_seqZ.
    apply lookup_lt_Some in Hl. lia.
Qed.

(** The threads' cleanup closes the registered descriptors, the server's among them. *)
Lemma close_contexts_elem (l : list User.socket_context) k :
  k ∈ User.close_contexts l <-> exists fd c, k = Close fd /\ 0 <= fd /\ l !! Z.to_nat fd = Some c /\ User._placeholder_ c <> 0.
Proof.
  unfold User.close_contexts. rewrite list_elem_of_omap. split.
  - intros ([fd c] & [Hfd Hl]%elem_of_indexed & H). cbn in H. destruct (Z.eqb_spec (User._placeholder_ c) 0); [done|].
    injection H as <-. naive_solver.
  - intros (fd & c & -> & Hfd & Hl & Hp). exists (fd, c). split; [by apply elem_of_indexed|]. cbn. by rewrite (proj2 (Z.eqb_neq _ _) Hp).
Qed.

Lemma web_server_cleans_up (server_fd : Z) (s : Sys) (fd : Z) : 0 <= server_fd < Z.of_nat SOCKETS -> reachable server_fd s ->
  Close fd ∈ User.close_contexts (sockets s) <-> is_Some (interest s fd).
Proof.
  intros Hs Hr. destruct (reachable_ok server_fd Hs s Hr) as [H1 H2 H3 H4]. rewrite close_contexts_elem. split.
  - intros (fd' & c & [= <-] & Hfd & Hl & Hp). specialize (H4 fd c Hfd Hl). destruct (interest s fd) eqn:E; [by eexists|]. by subst.
  - intros [m Hm]. pose proof (H3 _ _ Hm) as Hfd. destruct (at_index_ok (sockets s) fd) as (c & _ & El); [lia|].
    exists fd, c. specialize (H4 fd c (proj1 Hfd) El). rewrite Hm in H4. destruct H4 as [Hp _]. split_and!; [done | lia | done | lia].
Qed.

(** A client has been sent, or has waiting for it, one response for every six line ends. *)
Lemma web_server_counts (server_fd : Z) (s : Sys) (fd m : Z) : 0 <= server_fd < Z.of_nat SOCKETS -> reachable server_fd s ->
  interest s fd = Some m -> fd <> server_fd ->
  exists c, sockets s !! Z.to_nat fd = Some c /\
    sent s fd + User.responses c = lines s fd / 6 /\ User._r_n c = lines s fd mod 6 /\
    outb m = negb (User.responses c =? 0) /\ (inb m = true \/ outb m = true).
Proof.
  intros Hs Hr Hm Hne. destruct (reachable_ok server_fd Hs s Hr) as [H1 H2 H3 H4]. pose proof (H3 _ _ Hm) as Hfd.
  destruct (at_index_ok (sockets s) fd) as (c & _ & El); [lia|]. exists c. split; [done|].
  specialize (H4 fd c (proj1 Hfd) El). rewrite Hm in H4. destruct H4 as [_ H4]. destruct (H4 Hne) as (_ & [Hrn _] & Hc & _ & Hout).
  unfold counted in Hc. split_and!; [| | apply Hout | apply Hout].
  - apply (Z.div_unique_pos _ _ _ (User._r_n c)); lia.
  - apply (Z.mod_unique_pos _ _ (sent s fd + User.responses c)); lia.
Qed.

(** ** Theorems *)

(** A client sends a request in two parts. *)
Definition page (l : list Z) : list Z := l ++ replicate (4096 - length l) 0.
Definition reads (l : list Z) : User.answers := User.mkAnswers (- 1) (fun _ => 0) (Z.of_nat (length l)) 0 (page l) 0 0.
Definition accepts (fd : Z) : User.answers := User.mkAnswers fd (fun _ => 0) 0 0 [] 0 0.

Definition two_reads : option Sys :=
  s1 ← next 3 (Sys_init 3) (accepts 5) (mkEvent EPOLLIN 3);
  s2 ← next 3 s1 (reads [71; 13; 10; 13; 10]) (mkEvent EPOLLIN 5);
  next 3 s2 (reads [13; 10; 13]) (mkEvent EPOLLIN 5).

Lemma conforms_read s fd l m : interest s fd = Some m -> reported m EPOLLIN -> fd <> 3 -> (length l <= 4096)%nat ->
  lines s fd < 2 ^ 31 - 4097 -> conforms 3 s (reads l) (mkEvent EPOLLIN fd).
Proof.
  intros Hm Hrep Hfd Hl Hlines. unfold conforms. cbn [data events]. rewrite (proj2 (Z.eqb_neq _ _) Hfd).
  assert (recv_ok (reads l)) as Hrecv.
  { split; cbn [User.a_recv User.a_data reads]; [lia|]. unfold page. rewrite length_app, length_replicate. lia. }
  split_and!; [eauto | done | unfold send_ok; cbn; lia|]. unfold turn_ends. cbn [events]. change (inb EPOLLIN) with true. cbn [inb].
  pose proof (read_ends_bound (reads l) Hrecv). lia.
Qed.

(** The state after two steps of the kernel and of the server is reachable. *)
Lemma two_reads_reachable s : two_reads = Some s -> reachable 3 s.
Proof.
  unfold two_reads. destruct (next 3 (Sys_init 3) _ _) as [s1|] eqn:E1; [|done]. cbn [mbind option_bind].
  destruct (next 3 s1 _ _) as [s2|] eqn:E2; [|done]. cbn [mbind option_bind]. intros E3.
  assert (conforms 3 (Sys_init 3) (accepts 5) (mkEvent EPOLLIN 3)) as C1 by (right; split; [split; by vm_compute | done]).
  pose proof (reachable_step 3 _ _ _ _ (reachable_init 3) C1 (next_step _ _ _ _ _ E1)) as R1.
  assert (interest s1 5 = Some 17 /\ lines s1 5 = 0) as [I1 L1] by (vm_compute in E1; injection E1 as <-; by vm_compute).
  assert (conforms 3 s1 (reads [71; 13; 10; 13; 10]) (mkEvent EPOLLIN 5)) as C2.
  { apply (conforms_read _ _ _ 17); [done | | done | cbn; lia | lia].
    intros k Hk. left. destruct k as [|k|]; [done | | done]. by destruct k. }
  pose proof (reachable_step 3 _ _ _ _ R1 C2 (next_step _ _ _ _ _ E2)) as R2.
  assert (interest s2 5 = Some 17 /\ lines s2 5 = 4) as [I2 L2].
  { clear C2 R2 R1 I1 L1 C1. vm_compute in E1. injection E1 as <-. vm_compute in E2. injection E2 as <-. by vm_compute. }
  assert (conforms 3 s2 (reads [13; 10; 13]) (mkEvent EPOLLIN 5)) as C3.
  { apply (conforms_read _ _ _ 17); [done | | done | cbn; lia | lia].
    intros k Hk. left. destruct k as [|k|]; [done | | done]. by destruct k. }
  exact (reachable_step 3 _ _ _ _ R2 C3 (next_step _ _ _ _ _ E3)).
Qed.


(** What is seen of the state after the two reads. *)
Lemma two_reads_view : exists s, two_reads = Some s /\ interest s 5 = Some 4 /\ lines s 5 = 7.
Proof. destruct two_reads as [s|] eqn:E; [|by vm_compute in E]. exists s. vm_compute in E. injection E as <-. by vm_compute. Qed.


(** C40: (kernel module) when kernel_accept stores a socket for every new connection, the kernel module
    handles a list of events as the program does on the same answers: the same descriptors are marked,
    the same counts are kept and the same calls are made, and one fails exactly when the other does. *)
Theorem kernel_module_same (server_fd : Z) (evs : list (epoll_event * Kernel.answers)) (sockets : list Kernel.socket_context) :
  Forall (accepted server_fd) evs ->
  User.event_loop server_fd ((fun ea => (ea.1, conv_answers ea.2)) <$> evs) (convs sockets) =
  (fun '(s, t) => (convs s, conv_calls t)) <$> Kernel.event_loop server_fd evs sockets.
Proof.
  intros H. unfold User.event_loop, Kernel.event_loop. change (@nil call) with (conv_calls []) at 1. rewrite (conv_events _ _ _ _ None H).
  by destruct (foldR _ _ _) as [[[s t] p]| |].
Qed.

Lemma kernel_module_same_witness :
  let evs := [(mkEvent EPOLLIN 3, Kernel.mkAnswers (Some 4096) true 5 (fun _ => 0) 0 [] 0);
              (mkEvent EPOLLIN 5, Kernel.mkAnswers None true 0 (fun _ => 0) 6 [13; 10; 13; 10; 13; 10] 0);
              (mkEvent EPOLLOUT 5, Kernel.mkAnswers None true 0 (fun _ => 0) 0 [] (- 32))] in
  User.event_loop 3 ((fun ea => (ea.1, conv_answers ea.2)) <$> evs) (convs (replicate SOCKETS Kernel.context0)) =
  (fun '(s, t) => (convs s, conv_calls t)) <$> Kernel.event_loop 3 evs (replicate SOCKETS Kernel.context0).
Proof.
  apply kernel_module_same. apply Forall_cons_2; [|apply Forall_cons_2; [|apply Forall_cons_2; [|apply Forall_nil_2]]]; intros H; try discriminate H.
  exists 4096. by split.
Defined.

(** (interrupted send) when sendmsg is interrupted while fewer than 32 responses wait, they are
    subtracted without having been sent and the descriptor stays registered for writing, so that the
    next report that it can be written to fails the assertion, whatever the kernel answers. *)
Theorem interrupted_send_asserts (sockets : list User.socket_context) (fd : Z) (c : User.socket_context) (a a' : User.answers) :
  0 <= fd -> sockets !! Z.to_nat fd = Some c -> 0 < User.responses c < MAX_RESPONSES -> User.a_send a < 0 -> User.a_send_errno a = EINTR ->
  exists sockets', User.on_client a (mkEvent EPOLLOUT fd) sockets = Ok (sockets', [Send fd (User.responses c) (User.a_send a)]) /\
    sockets' !! Z.to_nat fd = Some (User.set_responses 0 c) /\
    User.on_client a' (mkEvent EPOLLOUT fd) sockets' = Ub AssertFailed.
Proof.
  unfold MAX_RESPONSES. intros Hfd Hl Hr Hs Hi. pose proof (lookup_lt_Some _ _ _ Hl) as Hlt.
  exists (<[Z.to_nat fd := User.set_responses 0 c]> sockets). split_and!; [| by apply list_lookup_insert_eq |].
  - unfold User.on_client. cbn [data events]. rewrite (at_index_lookup _ _ _ Hfd Hl). cbn [mbind res_bind].
    change (has EPOLLOUT EPOLLIN) with false. change (has EPOLLOUT EPOLLOUT) with true. cbn [mbind res_bind].
    unfold User.on_writable. rewrite (proj2 (Z.eqb_neq (User.responses c) 0)) by lia. cbn [negb check mbind res_bind].
    assert (s32 (User.responses c) = User.responses c) as -> by (apply swrap_id; [lia | apply sfits_spec; lia]). unfold MAX_RESPONSES.
    rewrite (proj2 (Z.leb_gt 32 (User.responses c))), (proj2 (Z.ltb_lt (User.a_send a) 0)) by lia. rewrite Hi, Z.sub_diag. change (EINTR =? EINTR) with true. cbn [mbind res_bind].
    change (has EPOLLOUT EPOLLOUT) with true. cbn [mbind res_bind]. unfold User.on_hangup, User.on_change.
    change (has EPOLLOUT EPOLLHUP) with false. cbn [andb mbind res_bind]. rewrite set_index_ok by lia. done.
  - unfold User.on_client. cbn [data events]. rewrite (at_index_lookup _ _ (User.set_responses 0 c) Hfd) by (by apply list_lookup_insert_eq). done.
Qed.

Lemma interrupted_send_asserts_witness :
  exists sockets', User.on_client (User.mkAnswers 0 (fun _ => 0) 0 0 [] (- 1) EINTR) (mkEvent EPOLLOUT 1) [User.context0; User.mkContext 1 0 2] =
      Ok (sockets', [Send 1 2 (- 1)]) /\
    User.on_client (accepts 0) (mkEvent EPOLLOUT 1) sockets' = Ub AssertFailed.
Proof.
  destruct (interrupted_send_asserts [User.context0; User.mkContext 1 0 2] 1 (User.mkContext 1 0 2)
    (User.mkAnswers 0 (fun _ => 0) 0 0 [] (- 1) EINTR) (accepts 0)) as (s & E & _ & E'); [lia | done | by vm_compute | done | done | eauto].
Defined.

(** A client that closes its side while EPOLLHUP is reported too: the turn reads nothing and neither
    closes the descriptor nor changes what is registered, so that it is reported again at once. *)
Theorem hangup_spins (sockets : list User.socket_context) (fd : Z) (c : User.socket_context) (a : User.answers) :
  0 <= fd -> sockets !! Z.to_nat fd = Some c -> fine c -> User.responses c = 0 -> User.a_recv a = 0 ->
  User.on_client a (mkEvent (Z.lor EPOLLIN EPOLLHUP) fd) sockets = Ok (sockets, [Recv fd 0]).
Proof.
  intros Hfd Hl Hf Hr Ha. pose proof (lookup_lt_Some _ _ _ Hl) as Hlt. unfold User.on_client. cbn [data events].
  rewrite (at_index_lookup _ _ _ Hfd Hl). cbn [mbind res_bind]. change (has (Z.lor EPOLLIN EPOLLHUP) EPOLLIN) with true. cbn [mbind res_bind].
  unfold User.on_readable. rewrite Ha. cbn [Z.ltb Z.eqb Z.compare andb]. change (Z.lor EPOLLIN EPOLLHUP =? EPOLLIN) with false.
  unfold User.wrk_parse. change (seqZ 0 0) with (@nil Z). cbn [foldR mbind res_bind]. rewrite Hr.
  destruct c as [p r n]. destruct Hf as [Hrn _]. cbn in Hrn, Hr. subst n. cbn [User._r_n User._placeholder_ User.responses].
  assert (u64 (s32 r) = r) as -> by (replace (s32 r) with r by (symmetry; apply swrap_id; [lia | apply sfits_spec; lia]); apply uwrap_id; lia).
  change (u64 (0 + 0)) with 0. cbn [Z.eqb mbind res_bind User.responses]. change (has (Z.lor EPOLLIN EPOLLHUP) EPOLLOUT) with false. cbn [mbind res_bind].
  rewrite (on_hangup_spec a fd _ _ sockets Hfd). change (closes (Z.lor EPOLLIN EPOLLHUP)) with false. cbn [mbind res_bind].
  rewrite set_index_ok, list_insert_id by done || lia. cbn [mbind res_bind]. by rewrite on_change_spec.
Qed.

(** A descriptor that the contexts have no room for. *)
Theorem large_descriptor (server_fd : Z) (sockets : list User.socket_context) (a : User.answers) (ev : Z) :
  length sockets = SOCKETS -> Z.of_nat SOCKETS <= User.a_accept a -> 0 <= User.a_ctl a EPOLL_CTL_ADD ->
  User.on_event server_fd a (mkEvent ev server_fd) sockets = Ub ArrayIndex.
Proof.
  intros Hl Ha Hc. unfold User.on_event. cbn [data]. rewrite Z.eqb_refl. unfold User.update_event, User.make_fd_and_file.
  rewrite bool_decide_eq_true_2 by done. cbn [negb]. rewrite (proj2 (Z.ltb_ge (User.a_accept a) 0)), (proj2 (Z.ltb_ge (User.a_ctl a EPOLL_CTL_ADD) 0)) by lia.
  rewrite at_index_out by lia. done.
Qed.

(** A client that closes its side while responses wait is closed without them. *)
Theorem fin_drops_responses (sockets : list User.socket_context) (fd : Z) (c : User.socket_context) (a : User.answers) :
  0 <= fd -> sockets !! Z.to_nat fd = Some c -> User.a_recv a = 0 ->
  User.on_client a (mkEvent EPOLLIN fd) sockets =
    Ok (<[Z.to_nat fd := User.context0]> sockets, [Recv fd 0; Ctl EPOLL_CTL_DEL fd 0 (User.a_ctl a EPOLL_CTL_DEL); Close fd]).
Proof.
  intros Hfd Hl Ha. pose proof (lookup_lt_Some _ _ _ Hl) as Hlt. unfold User.on_client. cbn [data events].
  rewrite (at_index_lookup _ _ _ Hfd Hl). cbn [mbind res_bind]. change (has EPOLLIN EPOLLIN) with true. cbn [mbind res_bind].
  unfold User.on_readable. rewrite Ha. cbn [Z.eqb andb]. change (EPOLLIN =? EPOLLIN) with true. cbn [andb mbind res_bind].
  change (has EPOLLHUP EPOLLOUT) with false. cbn [mbind res_bind]. rewrite (on_hangup_spec a fd c EPOLLHUP sockets Hfd). cbn -[set_index].
  rewrite set_index_ok by lia. by destruct (User.a_ctl a EPOLL_CTL_DEL).
Qed.

(** create_server_socket returns a socket that listens, or an error; what it opened is then closed. *)
Theorem server_socket_cleanup (a : User.setup) : 0 <= User.s_socket a \/ User.s_socket a = - 1 ->
  let '(r, t) := User.create_server_socket a in
  if r <? 0 then closed_in t = (if User.s_socket a <? 0 then [] else [Close (User.s_socket a)])
  else r = User.s_socket a /\ closed_in t = [] /\ Listen r (User.s_listen a) ∈ t /\ 0 <= User.s_listen a.
Proof.
  intros H. unfold User.create_server_socket, User.give_up_socket.
  repeat match goal with |- context [if ?b <? 0 then _ else _] => destruct (Z.ltb_spec b 0) end;
    repeat match goal with |- context [?b =? - 1] => destruct (Z.eqb_spec b (- 1)) end; try lia; try done.
  split_and!; [done | done | by do 4 right; left | lia].
Qed.

(** The error of create_server_socket is not seen by each_server_init of the program: the thread is
    started without a socket. *)
Theorem boot_without_socket (i p : Z) (a : User.setup) : User.s_socket a = - 1 -> 0 <= p ->
  User.each_server_init i a p = (0, - 1, [Socket (- 1); Create i p]).
Proof.
  intros Hs Hp. unfold User.each_server_init, User.create_server_socket. rewrite Hs. cbn. by rewrite (proj2 (Z.ltb_ge p 0)) by lia.
Qed.

(** The kernel module starts all threads, or stops the started ones that still run, the last first,
    and fails. *)
Theorem kernel_boot (num_threads : Z) (running : Z -> bool) (as_ : list (Kernel.setup * Z)) (r : Z) (t : list call) :
  length as_ = Z.to_nat num_threads -> Kernel.simple_web_server_init num_threads running as_ = Ok (r, t) ->
  r = 0 /\ 1 <= num_threads < CONTEXT_MAX_THREAD /\ started t = seqZ 0 num_threads /\ stopped t = [] \/
  r = - 1 /\ exists k, started t = seqZ 0 k /\ stopped t = filter (fun j => running j = true) (rev (seqZ 0 k)).
Proof.
  intros Hl. unfold Kernel.simple_web_server_init, CONTEXT_MAX_THREAD.
  destruct (Z.leb_spec 32 num_threads); cbn [orb]; [intros [= <- <-]; right; split; [done|]; by exists 0|].
  destruct (Z.ltb_spec num_threads 1); cbn [orb]; [intros [= <- <-]; right; split; [done|]; by exists 0|].
  intros E. destruct (init_from_calls _ 0 _ r t ltac:(lia) E) as [(-> & Hs & Ht)|(-> & k & Hk & Hs & Ht)].
  - left. rewrite length_take, Hl, Nat.min_id, Z2Nat.id in Hs by lia. split_and!; done || lia.
  - right. split; [done|]. exists k. by rewrite Z.sub_0_r in Hs.
Qed.
